(* ===== verification/_CoqProject ===== *)
-Q . S2P
Prelude.v
Bytes.v
Chunker.v
Manifest.v
Diff.v
Conflict.v
Transfer.v
Proto.v
Framing.v
SyncHandler.v
SyncLocks.v
CasInterface.v
Indexer.v
SyncSession.v
Packfile.v
Storage.v
StorageInv.v
StorageTasks.v
StorageCrash.v
StorageTransfers.v
StorageSpec.v
StorageExamples.v
EndToEnd.v
IndexedStore.v
Bloom.v
Resilience.v
OpLog.v
Persistence.v
Resume.v
Orchestrator.v
SimpleSync.v
Pool.v
Reconnect.v
TransferEngine.v
Discovery.v
Network.v
Security.v
SyncState.v
SyncOrchestrator.v
StreamTransfer.v
Identity.v
Certificates.v
Handshake.v
SyncTransport.v
Watcher.v
AtomicWrite.v
HealthMonitor.v
Daemon.v
SyncEngine.v
