(* ===== verification/Prelude.v ===== *)
(** * Landropic: a verification library

    Landropic synchronises folders between devices of a local network. A file is
    cut into content-defined chunks, every chunk is named by its BLAKE3 hash and
    kept in a content store, a folder is described by a manifest with a Merkle
    root, two manifests are compared, and the chunks that are missing are asked
    for and sent over QUIC streams. This library models that core, file by file,
    and proves what makes it correct; where the code does something else than it
    means to, the theorem states what it does.

    ** Foundations

    - [Prelude] (this file): results with panics ([outcome]), stateful code that
      returns results ([st]) and its Hoare triples, machine integers with
      wrap-around and with overflow checks ([arith checked]: [checked = true] is
      the dev profile, where an overflow panics, and [false] the release profile,
      where it wraps), slices, stable sorting, strings, and the iteration order of
      hash maps ([MapIter]: any order), the exploration of finite transition systems
      ([explore]).
    - [Bytes]: bytes, fixed-width integers, [ContentHash]
      (landro-chunker/src/hash.rs); the crates hex and blake3 as classes.

    ** Files and versions

    - [Chunker]: landro-chunker/src/chunker.rs. The gear table, the rolling hash,
      the boundary search, chunking of bytes and of a stream. The chunks
      concatenate to the input, sizes and offsets are as configured, the stream
      version equals the in-memory version, chunking restarts at every cut, and
      the hash does depend on bytes outside of its window.
    - [Manifest]: landro-index/src/manifest.rs. The Merkle root of a folder and
      the difference of two manifests. The root binds the entries when the paths
      are known and BLAKE3 has no collision among the inputs; it does not bind
      the number of files nor the paths.
    - [Indexer]: landro-index/src/indexer.rs and database_pool.rs. Walking a
      folder, indexing its files into the store, saving the manifest. The walk
      ends and finds exactly the files below the folder; the entries of a manifest
      describe files whose contents the store holds; a folder can be indexed only
      once, because versions are looked up under another key than they are saved.
    - [Diff]: landro-sync/src/diff.rs. The change of every path, the chunks a
      target needs, and the tracking of what a peer has still to acknowledge.
    - [Conflict]: landro-sync/src/conflict_detection.rs and conflict.rs.
    - [Bloom]: landro-daemon/src/bloom_diff.rs and bloom_sync_integration.rs. The
      filter has no false negatives; the exchange built on it finds only what the
      other side cannot provide.

    ** The content store

    - [CasInterface]: the class [ContentStore], what sessions and the indexer need
      of the store, with a store in memory as its smallest instance.
    - [Packfile]: landro-cas/src/packfile.rs, files that hold many small chunks:
      the format, the writer, the two readers, the manager.
    - [Storage]: landro-cas/src/storage.rs, all operations of the store on a map of
      files, with cache, batch writer, index of known objects, resumable writes and
      recovery. [StorageInv]: the invariant and the triples of the operations.
      [StorageTasks]: the tasks of a flush and of a batch of streams, turn by turn
      under any schedule, and what clients may rely on. [StorageCrash]: a volume
      with what a crash may undo, crashes between the operations of a write
      ([write_ops], the list that [write_atomic] performs), and the next start.
      [StorageTransfers]: resumable writes. [StorageSpec]: the store refines a
      write-once map. [StorageExamples]: a concrete store.
    - [AtomicWrite]: landro-cas/src/atomic.rs, files written under a temporary
      name, renamed at the end, and resumed after a crash.
    - [EndToEnd]: the store implements [ContentStore]; a completed session
      survives a restart. [IndexedStore]: an indexed folder can be put together
      again from the store after a restart.

    ** Talking to peers

    - [Proto]: the messages, their validation and the version rules
      (landro-proto/src/lib.rs, validation.rs, generated/landro.proto.rs).
    - [Framing]: landro-quic/src/protocol.rs. A message on a stream: a type byte,
      a big-endian length, the protobuf bytes. What is sent is received; whatever
      is received is valid and never a panic.
    - [SyncHandler]: landro-proto/src/sync_handler.rs, the handler of one
      connection as a state machine over messages; [SyncLocks]: the locks that
      two of its handlers take, as a transition system with its deadlocks.
    - [SyncSession]: landro-sync/src/protocol.rs, the session of the sync engine.
    - [Transfer]: landro-sync/src/scheduler.rs and progress.rs.
    - [StreamTransfer]: landro-quic/src/stream_transfer.rs. One stream for every
      chunk, with a window of bytes: what fits above the threshold is written to the
      network, every chunk once, under any schedule; what falls below it waits for
      ever.
    - [SyncTransport]: landro-sync/src/quic_integration.rs over [SyncSession],
      [StreamTransfer], [Persistence] and a connection of [Handshake]. Both sides
      wait for a manifest that nobody sends, so no synchronisation starts.
    - [Resilience]: landro-quic/src/recovery.rs and errors.rs. Retries, a circuit
      breaker for each peer, the health monitor.
    - [Pool]: landro-quic/src/pool.rs, the connections to every peer. Calls one
      after the other respect the limits, concurrent ones may not; a pool hands
      out each connection twice and then fails.
    - [Reconnect]: landro-quic/src/reconnection_manager.rs over [Pool], one task
      for every lost peer, turn by turn: it ends connected or given up.
    - [HealthMonitor]: landro-quic/src/health_monitor.rs over [Pool]: its checks find
      every connection healthy, recover a peer once, and multiply at restarts.
    - [TransferEngine]: landro-quic/src/transfer.rs over [Framing] and [Resume]. A
      completed transfer has all its chunks; which answers complete one.

    ** Who the peers are

    - [Identity]: landro-crypto/src/identity.rs. Device ids and their texts, the key
      of a device and its file, with crashes between the operations of saving.
    - [Certificates]: landro-crypto/src/certificate.rs and secure_verifier.rs,
      landro-quic/src/pairing.rs. Which certificates the verifiers accept, the
      trusted devices and their files, pairing; [PairingLocks]: the locks of two
      handshakes that pair at the same time.
    - [Handshake]: landro-quic/src/connection.rs, config.rs, client.rs, server.rs.
      Both ends introduce themselves; the accept loop outlives its peers and keeps
      exactly the connections that succeeded and are not closed.

    ** The daemon and what it remembers

    - [Orchestrator]: landro-daemon/src/orchestrator.rs, one actor over messages
      and timers. Groups of file tasks run at the same time; a schedule is an
      arbitrary list of turns, after which every task runs to its end. Files are
      stored whatever the schedule, but changes of a folder that was indexed never
      reach a manifest; the state of the loop has its invariant.
    - [Watcher]: landro-index/src/watcher/mod.rs, fallback.rs and legacy.rs,
      landro-daemon/src/watcher.rs. Patterns, the debouncer, batches, the handling
      of events over [Indexer]; the watcher of the daemon, which stops at once.
    - [Daemon]: landro-daemon/src/daemon.rs over the server of [Handshake],
      [Discovery], [Indexer], [Watcher] and [SyncOrchestrator]: a device whose daemon
      is started, stopped and killed, and the tasks that the callbacks of its
      watchers start, which take turns and outlive a stop; it synchronises once
      with every peer.
    - [SyncEngine]: landro-daemon/src/sync_engine.rs over [Pool]: connections to peers,
      their checks and their cleanup.
    - [OpLog]: landro-sync/src/recovery.rs, the log of operations: it refines a map,
      a crash during a save loses nothing, other crashes and concurrent starts do.
    - [SyncState]: landro-sync/src/state.rs, the database of the peers, of the pending
      transfers and of the history; it refines a map, with the losses of its texts.
    - [SyncOrchestrator]: landro-sync/src/orchestrator.rs over [SyncState] and
      [Transfer]: what it keeps in memory and in the database, and what a restart
      makes of it.
    - [Persistence]: landro-sync/src/sync_persistence.rs, session files; what a
      restart finds.
    - [Resume]: landro-daemon/src/resume_manager.rs ([Sessions]) and
      landro-quic/src/resumable.rs ([Transfers]), checkpoints.
    - [SimpleSync]: landro-daemon/src/simple_sync_protocol.rs and
      connection_handler.rs. The two ends of a file transfer, run against each
      other's bytes: the file arrives; the daemon's own handler keeps none.
    - [Discovery]: landro-daemon/src/discovery.rs, the table of the peers found.
    - [Network]: landro-daemon/src/network.rs over [Discovery] and [Pool]: rate
      limits, health checks, backoff.
    - [Security]: landro-daemon/src/security.rs, checks of paths and names.

    [SyncHandler] and [SyncSession] handle the messages of [Proto], which [Framing]
    sends and validates; [SyncSession] compares manifests with [Diff], which
    compares the files of [Manifest]; [Indexer] makes manifests with [Chunker];
    [Orchestrator] calls [Indexer] and [Chunker]; [SyncSession], [Indexer] and
    [Orchestrator] use the store through [ContentStore], which [Storage] provides;
    [Network] and [Reconnect] get their connections from a [Pool]. A client or a
    server of [Handshake] shows a certificate that [Certificates] makes for an
    [Identity], takes peers that a verifier of [Certificates] accepts, and greets
    them with a message of [Proto].

    ** Conventions

    A method that changes its object is a function from the object to the new
    object and the result; changes made before an error or a panic remain. Clocks
    are arguments, and so is what the file system answers. A loop that is not
    structural has fuel: the length of the input for the chunker, the hashes left
    for the Merkle root, the bytes of the file for a pack, the entries of the cache
    for an eviction, the directories for a walk; the theorems state results, so
    the fuel is enough, except for the eviction, where running out of it is the
    endless loop that the code has. Iteration over a hash map is over a list in any
    order. Concurrency is explicit: steps of tasks or of locks under any schedule.
    A crash leaves the files as after some prefix of the steps, the last one
    perhaps in part; for the store, whose code orders its writes with fsync, it
    also leaves any contents of files that were not synchronised, and any of the
    entries of a directory since that was synchronised ([StorageCrash.Volume]).
    Requests to the store come one after the other; what a request runs in tasks
    is interleaved, and a flush that fails is taken to end when its other tasks
    have, as they would in the background. Directories that the code creates
    before it writes are there, and a write to a file of tokio is done when the
    call that makes it returns. Paths are those of Unix, unless a definition has
    the platform as an argument ([Proto.Platform]). Names are those of the source; two methods with one name
    have the name of their type in front. Error values keep the cases of the code,
    not the texts.

    Parameters of the model are the crates hex, blake3 and lru, SQLite, the codecs
    of protobuf, bincode, JSON, PEM and compression, Ed25519, X.509 certificates and
    what rustls asks of a verifier, the events that notify reports, the priority queue of the standard library,
    the conversion of timestamps, their texts and the classification of control
    characters, each a class or a section variable with its documented laws (decoding inverts
    encoding, digests have 32 bytes, a unique key is unique). Where a property
    needs that BLAKE3 has no collision, it says among which inputs. File names
    are valid UTF-8.

    ** Not modelled

    Sockets, TLS and the quinn library with its tuning and its parallel senders;
    SQL beyond the statements of the indexer and of the synchronisation states;
    the watchers for single platforms, which no module compiles, moving of whole
    directories, metrics and reports of the store; the other binaries of the daemon
    and the user interfaces; floats (progress percentages, rates, compression ratios, jitter); log output,
    except where evaluating a log line can panic. *)

From stdpp Require Import base option list gmap sets strings pretty numbers relations sorting.
From Stdlib Require Import Init.Byte Strings.Byte.
From Stdlib Require Import ZArith Lia.

#[export] Set Default Proof Using "Type".

Open Scope Z_scope.

Create HintDb landro.

(** ** Results of Rust code

    A Rust function that returns [Result<A, E>] and may panic is a function to
    [outcome E A]: the value, the error value, or a panic (slice index out of
    range, division by zero, arithmetic overflow under overflow checks). *)
Inductive outcome (E A : Type) : Type :=
  | Ok (a : A)
  | Err (e : E)
  | Panic.
Arguments Ok {E A} a.
Arguments Err {E A} e.
Arguments Panic {E A}.

#[export] Instance outcome_ret E : MRet (outcome E) := λ A a, Ok a.
#[export] Instance outcome_bind E : MBind (outcome E) := λ A B f m,
  match m with Ok a => f a | Err e => Err e | Panic => Panic end.
#[export] Instance outcome_fmap E : FMap (outcome E) := λ A B f m,
  match m with Ok a => Ok (f a) | Err e => Err e | Panic => Panic end.

(** [map_err], and the [?] operator at a call whose error type is converted. *)
Definition map_err {E E' A} (f : E → E') (m : outcome E A) : outcome E' A :=
  match m with Ok a => Ok a | Err e => Err (f e) | Panic => Panic end.

(** An early return: [if cond { return Err(e); }]. *)
Definition fail_if {E} (c : bool) (e : E) : outcome E unit :=
  if c then Err e else Ok tt.

(** An indexing operation or [expect]: [None] panics. *)
Definition or_panic {E A} (o : option A) : outcome E A :=
  match o with Some a => Ok a | None => Panic end.

(** [ok_or]: [None] is the error [e]. *)
Definition ok_or {E A} (e : E) (o : option A) : outcome E A :=
  match o with Some a => Ok a | None => Err e end.

Definition is_ok {E A} (m : outcome E A) : bool :=
  match m with Ok _ => true | _ => false end.

(** [unwrap_or]. *)
Definition from_ok {E A} (a : A) (m : outcome E A) : A :=
  match m with Ok x => x | _ => a end.

Section outcome_lemmas.
Context {E A B : Type}.
Implicit Types (m : outcome E A) (f : A → outcome E B).

Lemma bind_Ok m f b : (m ≫= f) = Ok b ↔ ∃ a, m = Ok a ∧ f a = Ok b.
Proof. destruct m; simpl; naive_solver. Qed.
Lemma bind_Err m f e :
  (m ≫= f) = Err e ↔ m = Err e ∨ ∃ a, m = Ok a ∧ f a = Err e.
Proof. destruct m; simpl; naive_solver. Qed.
Lemma bind_Panic m f :
  (m ≫= f) = Panic ↔ m = Panic ∨ ∃ a, m = Ok a ∧ f a = Panic.
Proof. destruct m; simpl; naive_solver. Qed.
Lemma map_err_Ok {E'} (g : E → E') m a : map_err g m = Ok a ↔ m = Ok a.
Proof. destruct m; simpl; naive_solver. Qed.
Lemma map_err_Panic {E'} (g : E → E') m : map_err g m = Panic ↔ m = Panic.
Proof. destruct m; simpl; naive_solver. Qed.
Lemma fail_if_Ok (c : bool) (e : E) u : fail_if c e = Ok u ↔ c = false.
Proof. destruct c, u; simpl; naive_solver. Qed.
Lemma fail_if_no_Panic (c : bool) (e : E) : fail_if c e ≠ Panic.
Proof. by destruct c. Qed.
Lemma or_panic_Ok (o : option A) a : or_panic (E:=E) o = Ok a ↔ o = Some a.
Proof. destruct o; simpl; naive_solver. Qed.
Lemma ok_or_Ok (e : E) (o : option A) a : ok_or e o = Ok a ↔ o = Some a.
Proof. destruct o; simpl; naive_solver. Qed.
Lemma is_ok_true m : is_ok m = true ↔ ∃ a, m = Ok a.
Proof. destruct m; simpl; naive_solver. Qed.
End outcome_lemmas.

(** Functions without panics: [auto with no_panic]. *)
Create HintDb no_panic.
Lemma bind_no_Panic {E A B} (m : outcome E A) (f : A → outcome E B) :
  m ≠ Panic → (∀ a, f a ≠ Panic) → (m ≫= f) ≠ Panic.
Proof. destruct m; naive_solver. Qed.
Lemma Ok_no_Panic {E A} (a : A) : (Ok a : outcome E A) ≠ Panic.
Proof. done. Qed.
Lemma mret_no_Panic {E A} (a : A) : (mret a : outcome E A) ≠ Panic.
Proof. done. Qed.
Lemma Err_no_Panic {E A} (e : E) : (Err e : outcome E A) ≠ Panic.
Proof. done. Qed.
Lemma map_err_no_Panic {E E' A} (g : E → E') (m : outcome E A) : m ≠ Panic → map_err g m ≠ Panic.
Proof. by destruct m. Qed.
Lemma ok_or_no_Panic {E A} (e : E) (o : option A) : ok_or e o ≠ Panic.
Proof. by destruct o. Qed.
Lemma fmap_no_Panic {E A B} (f : A → B) (m : outcome E A) : m ≠ Panic → f <$> m ≠ Panic.
Proof. by destruct m. Qed.
#[export] Hint Resolve bind_no_Panic Ok_no_Panic mret_no_Panic Err_no_Panic map_err_no_Panic
  ok_or_no_Panic fmap_no_Panic fail_if_no_Panic : no_panic.

Ltac destruct_units := repeat match goal with u : unit |- _ => destruct u end.

(** A [for] loop whose body may return or panic. *)
Fixpoint for_each {E A B} (l : list B) (f : A → B → outcome E A) (a : A) : outcome E A :=
  match l with
  | [] => Ok a
  | b :: l => a ← f a b; for_each l f a
  end.

Lemma for_each_app {E A B} (l k : list B) (f : A → B → outcome E A) a :
  for_each (l ++ k) f a = for_each l f a ≫= for_each k f.
Proof. revert a. induction l as [|b l IH]; intros a; simpl; [done|]. destruct (f a b); simpl; auto. Qed.

(** The loop invariant rule: [P] relates the elements consumed to the state. *)
Lemma for_each_inv {E A B} (P : list B → A → Prop) (l : list B) (f : A → B → outcome E A) a a' :
  P [] a → (∀ l1 b l2 a a', l = l1 ++ b :: l2 → P l1 a → f a b = Ok a' → P (l1 ++ [b]) a') →
  for_each l f a = Ok a' → P l a'.
Proof.
  intros Ha Hf. assert (∀ k l1 a, l = l1 ++ k → P l1 a → for_each k f a = Ok a' → P l a') as Hgen.
  { induction k as [|b k IH]; intros l1 a1 Hl H1; simpl.
    { intros [= <-]. by rewrite Hl, app_nil_r. }
    intros (a2 & Hb & Hk)%bind_Ok. apply (IH (l1 ++ [b]) a2); [|by eapply Hf|done].
    by rewrite <-app_assoc. }
  by apply (Hgen l [] a).
Qed.

(** The same rule for total loops: every iteration returns. *)
Lemma for_each_total {E A B} (P : list B → A → Prop) (l : list B) (f : A → B → outcome E A) a :
  P [] a → (∀ l1 b l2 a, l = l1 ++ b :: l2 → P l1 a → ∃ a', f a b = Ok a' ∧ P (l1 ++ [b]) a') →
  ∃ a', for_each l f a = Ok a' ∧ P l a'.
Proof.
  intros Ha Hf.
  assert (∀ k l1 a, l = l1 ++ k → P l1 a → ∃ a', for_each k f a = Ok a' ∧ P l a') as Hgen.
  { induction k as [|b k IH]; intros l1 a1 Hl H1; simpl.
    { exists a1. by rewrite Hl, app_nil_r. }
    destruct (Hf l1 b k a1) as (a2 & -> & H2); [done..|]. simpl.
    apply (IH (l1 ++ [b])); [by rewrite <-app_assoc|done]. }
  by apply (Hgen l []).
Qed.

(** Sums of non-negative measures. *)
Definition sum_of {A} (f : A → Z) (l : list A) : Z := foldr Z.add 0 (map f l).

Lemma sum_of_nonneg {A} (f : A → Z) l : (∀ x, x ∈ l → 0 ≤ f x) → 0 ≤ sum_of f l.
Proof.
  unfold sum_of. induction l as [|x l IH]; intros Hf; simpl; [done|].
  pose proof (Hf x ltac:(left)). enough (0 ≤ foldr Z.add 0 (map f l)) by lia.
  apply IH. intros y Hy. apply Hf. by right.
Qed.
Lemma sum_of_app {A} (f : A → Z) l k : sum_of f (l ++ k) = sum_of f l + sum_of f k.
Proof. unfold sum_of. induction l; simpl; lia. Qed.
Lemma sum_of_perm {A} (f : A → Z) l k : l ≡ₚ k → sum_of f l = sum_of f k.
Proof. unfold sum_of. intros Hp. induction Hp; simpl; lia. Qed.
Lemma sum_of_submseteq {A} (f : A → Z) l k : (∀ x, x ∈ k → 0 ≤ f x) →
  l ⊆+ k → sum_of f l ≤ sum_of f k.
Proof.
  intros Hf [j Hj]%submseteq_Permutation. rewrite (sum_of_perm _ _ _ Hj), sum_of_app.
  assert (0 ≤ sum_of f j); [|lia]. apply sum_of_nonneg. intros x Hx. apply Hf.
  rewrite Hj. apply elem_of_app. by right.
Qed.

(** Inverts every hypothesis of the shape [bind ... = Ok _]. *)
Ltac inv_ok :=
  repeat match goal with
  | H : (_ ≫= _) = Ok _ |- _ =>
      apply bind_Ok in H; destruct H as (? & ? & H); cbn beta in H
  | H : mret _ = Ok _ |- _ => unfold mret, outcome_ret in H
  | H : fail_if _ _ = Ok _ |- _ => apply fail_if_Ok in H
  | H : map_err _ _ = Ok _ |- _ => apply map_err_Ok in H
  | H : or_panic _ = Ok _ |- _ => apply or_panic_Ok in H
  | H : ok_or _ _ = Ok _ |- _ => apply ok_or_Ok in H
  | H : Ok _ = Ok _ |- _ => injection H as H; try subst
  | H : Err _ = Ok _ |- _ => discriminate H
  | H : Panic = Ok _ |- _ => discriminate H
  end.

(** Case analysis on the test of the goal or of a hypothesis. *)
Tactic Notation "case_if" "as" ident(H) :=
  match goal with
  | |- context [if ?c then _ else _] => destruct c eqn:H
  | _ : context [if ?c then _ else _] |- _ => destruct c eqn:H
  end.
Tactic Notation "case_if" :=
  match goal with
  | |- context [if ?c then _ else _] => destruct c eqn:?
  | H : context [if ?c then _ else _] |- _ => destruct c eqn:?
  end.

(** ** Stateful code

    Code that mutates a state of type [S] and returns [Result<A, E>]: the state
    changes made before an error or a panic remain. *)
Definition st (S E A : Type) : Type := S → S * outcome E A.

#[export] Instance st_ret S E : MRet (st S E) := λ A a s, (s, Ok a).
#[export] Instance st_bind S E : MBind (st S E) := λ A B f m s,
  match m s with
  | (s, Ok a) => f a s
  | (s, Err e) => (s, Err e)
  | (s, Panic) => (s, Panic)
  end.
Definition lift {S E A} (m : outcome E A) : st S E A := λ s, (s, m).
Definition get_st {S E} : st S E S := λ s, (s, Ok s).
Definition put_st {S E} (s : S) : st S E unit := λ _, (s, Ok tt).
Definition modify_st {S E} (f : S → S) : st S E unit := λ s, (f s, Ok tt).

Lemma st_bind_Ok {S E A B} (m : st S E A) (f : A → st S E B) s s' b :
  (m ≫= f) s = (s', Ok b) ↔ ∃ s1 a, m s = (s1, Ok a) ∧ f a s1 = (s', Ok b).
Proof. unfold mbind, st_bind. destruct (m s) as [s1 []]; naive_solver. Qed.
Lemma st_bind_eq {S E A B} (m : st S E A) (f : A → st S E B) s s1 a :
  m s = (s1, Ok a) → (m ≫= f) s = f a s1.
Proof. unfold mbind, st_bind. by intros ->. Qed.
Lemma st_bind_Err {S E A B} (m : st S E A) (f : A → st S E B) s s1 e :
  m s = (s1, Err e) → (m ≫= f) s = (s1, Err e).
Proof. unfold mbind, st_bind. by intros ->. Qed.

(** Hoare triples: from a state with the invariant [I] and the precondition
    [P], the final state, also after an error or a panic, has [I] and is
    related by [R] to the first; a returned value satisfies [Q]. *)
Section triples.
Context {S E : Type} (I : S → Prop) (R : S → S → Prop) {HR : PreOrder R}.

Definition triple {A} (P : S → Prop) (m : st S E A) (Q : A → S → Prop) : Prop :=
  ∀ s, I s → P s → I (m s).1 ∧ R s (m s).1 ∧ ∀ a, (m s).2 = Ok a → Q a (m s).1.

Lemma triple_bind {A B} P (m : st S E A) (f : A → st S E B) Q Q' :
  triple P m Q → (∀ a, triple (Q a) (f a) Q') → triple P (m ≫= f) Q'.
Proof using HR.
  intros Hm Hf s Hi Hp. destruct (Hm s Hi Hp) as (Hi1 & Hr1 & Hq). unfold mbind, st_bind.
  destruct (m s) as [s1 [a|e|]]; simpl in *; [|done..].
  destruct (Hf a s1 Hi1 (Hq a eq_refl)) as (Hi2 & Hr2 & Hq'). split_and!; [done|by etrans|done].
Qed.
Lemma triple_ret {A} P (a : A) Q : (∀ s, I s → P s → Q a s) → triple P (mret a) Q.
Proof using HR. intros Hq s Hi Hp. split_and!; [done|done|]. intros ? [= <-]. by apply Hq. Qed.
Lemma triple_lift {A} P (m : outcome E A) : triple P (lift m) (λ a s, m = Ok a ∧ P s).
Proof using HR. intros s Hi Hp. by split_and!. Qed.
Lemma triple_get P : triple P get_st (λ a s, a = s ∧ P s).
Proof using HR. intros s Hi Hp. split_and!; [done|done|]. by intros ? [= <-]. Qed.
Lemma triple_get_bind {B} P (f : S → st S E B) Q :
  (∀ self, triple (λ s, s = self ∧ P s) (f self) Q) → triple P (get_st ≫= f) Q.
Proof using Type. intros Hf s Hi Hp. by apply (Hf s). Qed.
Lemma triple_lift_bind {A B} P (m : outcome E A) (f : A → st S E B) Q :
  (∀ a, m = Ok a → triple P (f a) Q) → triple P (lift m ≫= f) Q.
Proof using HR.
  intros Hf s Hi Hp. unfold mbind, st_bind, lift. destruct m as [a|e|]; [by apply Hf|by split_and!..].
Qed.
Lemma triple_modify P (f : S → S) Q :
  (∀ s, I s → P s → I (f s) ∧ R s (f s) ∧ Q tt (f s)) → triple P (modify_st f) Q.
Proof using HR. intros Hf s Hi Hp. destruct (Hf s Hi Hp) as (? & ? & ?). split_and!; [done..|]. by intros [] _. Qed.
Lemma triple_weaken {A} P P' (m : st S E A) Q Q' :
  triple P' m Q' → (∀ s, I s → P s → P' s) → (∀ a s, I s → Q' a s → Q a s) → triple P m Q.
Proof using HR.
  intros Hm HP HQ s Hi Hp. destruct (Hm s Hi (HP s Hi Hp)) as (? & ? & Hq). split_and!; [done..|].
  intros a Ha. auto.
Qed.
(** What [R] preserves can be assumed and concluded beside a triple. *)
Lemma triple_frame {A} P (m : st S E A) Q (F : S → Prop) :
  (∀ s s', R s s' → F s → F s') → triple P m Q → triple (λ s, P s ∧ F s) m (λ a s, Q a s ∧ F s).
Proof using HR.
  intros HF Hm s Hi [Hp Hf]. destruct (Hm s Hi Hp) as (? & ? & Hq). split_and!; [done..|].
  intros a Ha. split; [auto|by eapply HF].
Qed.
Lemma triple_if {A} P (b : bool) (m k : st S E A) Q :
  (b = true → triple P m Q) → (b = false → triple P k Q) → triple P (if b then m else k) Q.
Proof using HR. destruct b; auto. Qed.
End triples.

(** Triples with one invariant, about the returned value only. *)
Definition keeps {S E A} (P : S → Prop) (m : st S E A) (Q : A → Prop) : Prop :=
  triple P (λ _ _, True) (λ _, True) m (λ a _, Q a).

#[export] Instance true_preorder {S} : PreOrder (λ _ _ : S, True).
Proof. by split. Qed.

Lemma keeps_bind {S E A B} (P : S → Prop) (m : st S E A) (f : A → st S E B) Q R :
  keeps P m Q → (∀ a, Q a → keeps P (f a) R) → keeps P (m ≫= f) R.
Proof.
  intros Hm Hf. eapply triple_bind; [apply _|exact Hm|]. intros a s Hs Ha. by apply Hf.
Qed.
Lemma keeps_ret {S E A} (P : S → Prop) (a : A) (Q : A → Prop) : Q a → keeps (E:=E) P (mret a) Q.
Proof. intros Ha. by apply triple_ret; [apply _|]. Qed.
Lemma keeps_lift {S E A} (P : S → Prop) (m : outcome E A) : keeps P (lift m) (λ a, m = Ok a).
Proof. intros s Hs _. by split_and!. Qed.
Lemma keeps_get {S E} (P : S → Prop) : keeps (E:=E) P get_st P.
Proof. intros s Hs _. split_and!; [done..|]. by intros ? [= <-]. Qed.
Lemma keeps_modify {S E} (P : S → Prop) (f : S → S) : (∀ s, P s → P (f s)) → keeps (E:=E) P (modify_st f) (λ _, True).
Proof. intros Hf s Hs _. split_and!; [by apply Hf|done..]. Qed.
Lemma keeps_weaken {S E A} (P : S → Prop) (m : st S E A) (Q R : A → Prop) :
  keeps P m Q → (∀ a, Q a → R a) → keeps P m R.
Proof. intros Hm HQ. eapply triple_weaken; [apply _|exact Hm|done|]. intros a s _. apply HQ. Qed.
Lemma keeps_state {S E A} (P : S → Prop) (m : st S E A) Q s : keeps P m Q → P s → P (m s).1.
Proof. intros Hm Hs. by destruct (Hm s Hs I). Qed.

(** ** Machine integers *)

(** Unsigned machine integers are integers; wrap-around is written out. *)
Definition wrap (w z : Z) : Z := z mod 2 ^ w.
Abbreviation u64_max := (2 ^ 64 - 1).
Abbreviation u32_max := (2 ^ 32 - 1).

(** [wrapping_add], [wrapping_sub], [wrapping_mul], [rotate_left] of [u64]. *)
Definition wrapping_add (a b : Z) : Z := wrap 64 (a + b).
Definition wrapping_sub (a b : Z) : Z := wrap 64 (a - b).
Definition wrapping_mul (a b : Z) : Z := wrap 64 (a * b).
Definition rotate_left (a n : Z) : Z :=
  Z.lor (wrap 64 (Z.shiftl a n)) (Z.shiftr a (64 - n)).

(** [saturating_sub] of an unsigned integer. *)
Definition saturating_sub (a b : Z) : Z := Z.max 0 (a - b).

(** Plain [+], [-], [*] of [u64] and [usize]: a result out of range panics in a
    build with overflow checks ([checked = true], the dev profile) and wraps
    around otherwise (the release profile). *)
Definition arith (checked : bool) {E} (w z : Z) : outcome E Z :=
  if decide (0 ≤ z < 2 ^ w) then Ok z
  else if checked then Panic else Ok (wrap w z).

Lemma wrap_range w z : 0 ≤ w → 0 ≤ wrap w z < 2 ^ w.
Proof. intros. apply Z.mod_pos_bound, Z.pow_pos_nonneg; lia. Qed.
Lemma wrap_small w z : 0 ≤ z < 2 ^ w → wrap w z = z.
Proof. apply Z.mod_small. Qed.
Lemma arith_exact checked {E} w z : 0 ≤ z < 2 ^ w → arith (E:=E) checked w z = Ok z.
Proof. intros. unfold arith. by rewrite decide_True. Qed.

Lemma arith_Ok checked {E} w z r : arith (E:=E) checked w z = Ok r → r = wrap w z.
Proof.
  unfold arith. case_decide as Hz; [|destruct checked]; intros [= <-]; [|done].
  by rewrite wrap_small.
Qed.
Lemma arith_no_Err checked {E} w z (e : E) : arith checked w z ≠ Err e.
Proof. unfold arith. by repeat case_match. Qed.
Lemma arith_unchecked {E} w z : arith (E:=E) false w z = Ok (wrap w z).
Proof. unfold arith. case_decide; [by rewrite wrap_small|done]. Qed.
Lemma wrap_add_l w a b : wrap w (wrap w a + b) = wrap w (a + b).
Proof. apply Zplus_mod_idemp_l. Qed.

(** [iter().sum()] of [u64] values. *)
Fixpoint sum_u64 (checked : bool) {E} (acc : Z) (l : list Z) : outcome E Z :=
  match l with
  | [] => Ok acc
  | x :: l => acc ← arith checked 64 (acc + x); sum_u64 checked acc l
  end.

Lemma sum_u64_Ok checked {E} acc l r : 0 ≤ acc < 2 ^ 64 →
  sum_u64 (E:=E) checked acc l = Ok r → r = wrap 64 (acc + foldr Z.add 0 l).
Proof.
  revert acc. induction l as [|x l IH]; intros acc Hacc; cbn [sum_u64 foldr].
  { intros [= <-]. rewrite Z.add_0_r. symmetry. by apply wrap_small. }
  intros (a & ->%arith_Ok & Hr)%bind_Ok. apply IH in Hr; [|by apply wrap_range].
  by rewrite Hr, wrap_add_l, Z.add_assoc.
Qed.
Lemma sum_u64_exact checked {E} acc l : Forall (λ x, 0 ≤ x) l → 0 ≤ acc →
  acc + foldr Z.add 0 l < 2 ^ 64 →
  sum_u64 (E:=E) checked acc l = Ok (acc + foldr Z.add 0 l).
Proof.
  intros Hl. revert acc. induction Hl as [|x l Hx Hl IH]; intros acc Hacc Hsum;
    cbn [sum_u64 foldr] in *; [by rewrite Z.add_0_r|].
  assert (0 ≤ foldr Z.add 0 l) by (clear -Hl; induction Hl; simpl; lia).
  rewrite arith_exact by lia. cbn. rewrite IH by lia. f_equal. lia.
Qed.

(** [lia] with the signs of the lengths and of the [Z.of_nat] terms in scope. *)
Ltac pose_nonneg t :=
  lazymatch goal with
  | _ : 0 ≤ Z.of_nat t |- _ => fail
  | _ => pose proof (Nat2Z.is_nonneg t)
  end.
Ltac zlia :=
  repeat match goal with
  | |- context [Z.of_nat ?k] => pose_nonneg k
  | _ : context [Z.of_nat ?k] |- _ => pose_nonneg k
  end; lia.

(** ** Slices *)

Definition zlen {A} (l : list A) : Z := Z.of_nat (length l).

(** [l[i]] for a [usize] index: out of range is [None] (a panic). *)
Definition zget {A} (l : list A) (i : Z) : option A :=
  if decide (0 ≤ i) then l !! Z.to_nat i else None.

(** [l[a..b]]: panics unless [a <= b <= len]. *)
Definition slice {A} (l : list A) (a b : Z) : option (list A) :=
  if decide (0 ≤ a ≤ b ∧ b ≤ zlen l)
  then Some (take (Z.to_nat (b - a)) (drop (Z.to_nat a) l)) else None.

Section slices.
Context {A : Type}.
Implicit Types l k : list A.

Lemma zlen_nonneg l : 0 ≤ zlen l.
Proof. unfold zlen. lia. Qed.
Lemma zlen_nil : zlen (@nil A) = 0.
Proof. done. Qed.
Lemma zlen_cons a l : zlen (a :: l) = 1 + zlen l.
Proof. unfold zlen. simpl. lia. Qed.
Lemma zlen_app l k : zlen (l ++ k) = zlen l + zlen k.
Proof. unfold zlen. rewrite length_app. lia. Qed.
Lemma zlen_take n l : zlen (take n l) = Z.min (Z.of_nat n) (zlen l).
Proof. unfold zlen. rewrite length_take. lia. Qed.
Lemma zlen_drop n l : zlen (drop n l) = Z.max 0 (zlen l - Z.of_nat n).
Proof. unfold zlen. rewrite length_drop. lia. Qed.
Lemma zlen_filter (P : A → Prop) `{∀ x, Decision (P x)} l : zlen (filter P l) ≤ zlen l.
Proof. unfold zlen. pose proof (length_filter P l). lia. Qed.
Lemma zlen_zero l : zlen l = 0 ↔ l = [].
Proof. unfold zlen. destruct l; simpl; split; intros; (done || lia). Qed.

Lemma zget_Some l i : 0 ≤ i < zlen l → is_Some (zget l i).
Proof.
  intros [? Hlt]. unfold zget. rewrite decide_True by done.
  apply lookup_lt_is_Some. unfold zlen in Hlt. lia.
Qed.
Lemma zget_drop l s i : 0 ≤ s → 0 ≤ i →
  zget (drop (Z.to_nat s) l) i = zget l (s + i).
Proof.
  intros. unfold zget. rewrite !decide_True by lia.
  rewrite lookup_drop. f_equal. lia.
Qed.

Lemma slice_Some l a b : 0 ≤ a ≤ b → b ≤ zlen l →
  slice l a b = Some (take (Z.to_nat (b - a)) (drop (Z.to_nat a) l)).
Proof. intros. unfold slice. by rewrite decide_True. Qed.
Lemma slice_length l a b s : slice l a b = Some s → zlen s = b - a.
Proof.
  unfold slice. case_decide as H; [|done]. intros [= <-].
  rewrite zlen_take, zlen_drop. lia.
Qed.
Lemma slice_split l a b s : slice l a b = Some s →
  drop (Z.to_nat a) l = s ++ drop (Z.to_nat b) l.
Proof.
  unfold slice. case_decide as H; [|done]. intros [= <-].
  rewrite <-(take_drop (Z.to_nat (b - a)) (drop (Z.to_nat a) l)) at 1.
  f_equal. rewrite drop_drop. f_equal. lia.
Qed.
End slices.

(** ** Hash maps and hash sets

    A [HashMap] is a [gmap] and a [HashSet] a [gset]; the order in which they
    are iterated is not specified by Rust, so it is an operation of this class:
    every theorem about code that iterates a map holds for every order. *)
Class MapIter := {
  map_iter : ∀ {K} `{Countable K} {A}, gmap K A → list (K * A);
  set_iter : ∀ {K} `{Countable K}, gset K → list K;
  map_iter_perm : ∀ K `{Countable K} A (m : gmap K A), map_iter m ≡ₚ map_to_list m;
  set_iter_perm : ∀ K `{Countable K} (X : gset K), set_iter X ≡ₚ elements X;
}.

(** The order in which [gmap] itself enumerates its elements. *)
Definition gmap_order : MapIter := {|
  map_iter K _ _ A m := map_to_list m;
  set_iter K _ _ X := elements X;
  map_iter_perm K _ _ A m := reflexivity _;
  set_iter_perm K _ _ X := reflexivity _;
|}.

Section map_iter.
Context `{MapIter} `{Countable K} {A : Type}.
Implicit Types m : gmap K A.

Lemma elem_of_map_iter m k x : (k, x) ∈ map_iter m ↔ m !! k = Some x.
Proof. rewrite map_iter_perm. apply elem_of_map_to_list. Qed.
Lemma elem_of_set_iter (X : gset K) k : k ∈ set_iter X ↔ k ∈ X.
Proof. rewrite set_iter_perm. apply elem_of_elements. Qed.
Lemma NoDup_map_iter m : NoDup (map_iter m).*1.
Proof. rewrite map_iter_perm. apply NoDup_fst_map_to_list. Qed.
Lemma NoDup_set_iter (X : gset K) : NoDup (set_iter X).
Proof. rewrite set_iter_perm. apply NoDup_elements. Qed.
Lemma length_set_iter (X : gset K) : length (set_iter X) = size X.
Proof. by rewrite set_iter_perm. Qed.
Lemma map_iter_empty : map_iter (∅ : gmap K A) = [].
Proof. apply Permutation_nil_r. rewrite map_iter_perm. by rewrite map_to_list_empty. Qed.
Lemma map_iter_singleton (k : K) (x : A) : map_iter {[k := x]} = [(k, x)].
Proof. apply Permutation_singleton_r. by rewrite map_iter_perm, map_to_list_singleton. Qed.
Lemma map_iter_eq m m' : m = m' → map_iter m = map_iter m'.
Proof. by intros ->. Qed.
End map_iter.

Lemma gset_size_insert `{Countable K} (x : K) (X : gset K) : x ∉ X →
  size ({[x]} ∪ X) = S (size X).
Proof.
  intros Hx. pose proof (size_union (C:=gset K) {[x]} X) as Hu.
  rewrite Hu by set_solver. by rewrite size_singleton.
Qed.

(** ** Stable sorting

    [slice::sort_by] is stable: elements that compare equal keep their order. *)
Section stable_sort.
Context {A : Type} (leb : A → A → bool).

Fixpoint sort_insert (x : A) (l : list A) : list A :=
  match l with
  | [] => [x]
  | y :: l' => if leb x y then x :: l else y :: sort_insert x l'
  end.
Definition stable_sort (l : list A) : list A := foldr sort_insert [] l.

Lemma sort_insert_perm x l : sort_insert x l ≡ₚ x :: l.
Proof.
  induction l as [|y l IH]; simpl; [done|]. case_if; [done|].
  rewrite IH. apply Permutation_swap.
Qed.
Lemma stable_sort_perm l : stable_sort l ≡ₚ l.
Proof. induction l as [|x l IH]; simpl; [done|]. by rewrite sort_insert_perm, IH. Qed.

Context (leb_total : ∀ x y, leb x y || leb y x = true).
Context (leb_trans : ∀ x y z, leb x y = true → leb y z = true → leb x z = true).

Lemma sort_insert_sorted x l :
  StronglySorted leb l → StronglySorted leb (sort_insert x l).
Proof using leb_total leb_trans.
  induction 1 as [|y l Hl IH Hy]; simpl; [by repeat constructor|]. case_if as Hxy.
  - constructor; [by constructor|]. constructor; [by rewrite Hxy|].
    eapply Forall_impl; [done|]. intros z Hyz.
    apply Is_true_true. apply (leb_trans _ y); [done|by apply Is_true_true].
  - constructor; [done|]. rewrite sort_insert_perm. constructor; [|done].
    specialize (leb_total x y). rewrite Hxy in leb_total. by apply Is_true_true.
Qed.
Lemma stable_sort_sorted l : StronglySorted leb (stable_sort l).
Proof using leb_total leb_trans.
  induction l; simpl; [constructor|by apply sort_insert_sorted].
Qed.

(** Sorting does not depend on the initial order when no two elements
    compare equal. *)
Lemma stable_sort_unique l k : l ≡ₚ k →
  (∀ x y, x ∈ l → y ∈ l → leb x y = true → leb y x = true → x = y) →
  stable_sort l = stable_sort k.
Proof using leb_total leb_trans.
  intros Hlk Hanti.
  apply (StronglySorted_unique_strong leb); try apply stable_sort_sorted.
  - intros x y Hx Hy ? ?. rewrite stable_sort_perm in Hx, Hy. rewrite <-Hlk in Hy.
    apply Hanti; auto using Is_true_true_1.
  - by rewrite !stable_sort_perm.
Qed.

(** Stability: elements equivalent to [x] appear in their original order. *)
Lemma stable_sort_stable x l :
  let equiv y := leb x y && leb y x in
  List.filter equiv (stable_sort l) = List.filter equiv l.
Proof using leb_total leb_trans.
  intros equiv. induction l as [|y l IH]; [done|]. cbn [stable_sort foldr List.filter].
  change (foldr sort_insert [] l) with (stable_sort l). rewrite <-IH.
  generalize (stable_sort_sorted l). generalize (stable_sort l). clear IH l.
  induction 1 as [|z l Hs IHl Hz]; cbn [sort_insert List.filter]; [done|].
  case_if as Hyz; cbn [List.filter]; [done|]. rewrite IHl. unfold equiv.
  destruct (leb x y && leb y x) eqn:Exy; [|done].
  apply andb_true_iff in Exy as [Hxy Hyx].
  destruct (leb x z && leb z x) eqn:Exz; [|done].
  apply andb_true_iff in Exz as [Hxz Hzx].
  by rewrite (leb_trans y x z Hyx Hxz) in Hyz.
Qed.
End stable_sort.

(** Strings are compared byte by byte. *)
Lemma string_leb_total s t : String.leb s t || String.leb t s = true.
Proof. destruct (String.leb_total s t) as [-> | ->]; [done|apply orb_true_r]. Qed.

Lemma string_leb_trans s t u :
  String.leb s t = true → String.leb t u = true → String.leb s u = true.
Proof.
  unfold String.leb. revert t u.
  induction s as [|a s IH]; intros [|b t] [|c u]; cbn; try done.
  unfold Ascii.compare.
  destruct (N.compare_spec (Ascii.N_of_ascii a) (Ascii.N_of_ascii b)) as [Eab|Hab|Hab],
    (N.compare_spec (Ascii.N_of_ascii b) (Ascii.N_of_ascii c)) as [Ebc|Hbc|Hbc],
    (N.compare_spec (Ascii.N_of_ascii a) (Ascii.N_of_ascii c)) as [Eac|Hac|Hac];
    try done; try lia. apply IH.
Qed.
#[export] Hint Resolve string_leb_total string_leb_trans String.leb_antisym : landro.

(** ** Strings *)

(** [str::ends_with]. *)
Fixpoint ends_with (suffix s : string) : bool :=
  String.eqb s suffix || match s with String _ s => ends_with suffix s | EmptyString => false end.

Lemma string_app_assoc (a b c : string) : (a +:+ b) +:+ c = a +:+ (b +:+ c).
Proof.
  induction a as [|x a IH]; [done|].
  change (String x ((a +:+ b) +:+ c) = String x (a +:+ (b +:+ c))). by rewrite IH.
Qed.
Lemma string_length_app (s t : string) : String.length (s +:+ t) = (String.length s + String.length t)%nat.
Proof.
  induction s as [|c s IH]; [done|]. change (String.length (String c s +:+ t)) with (S (String.length (s +:+ t))).
  rewrite IH. done.
Qed.
Lemma list_ascii_app a b :
  String.list_ascii_of_string (a +:+ b) = String.list_ascii_of_string a ++ String.list_ascii_of_string b.
Proof.
  induction a as [|c a IH]; [done|]. change (String c a +:+ b) with (String c (a +:+ b)). cbn. by rewrite IH.
Qed.
Lemma ends_with_app a suffix : ends_with suffix (a +:+ suffix) = true.
Proof.
  induction a as [|c a IH]; [change (EmptyString +:+ suffix) with suffix; destruct suffix; cbn [ends_with]; by rewrite String.eqb_refl|].
  change (String c a +:+ suffix) with (String c (a +:+ suffix)). cbn [ends_with]. rewrite IH. apply orb_true_r.
Qed.

(** A number in unary, for codecs that only have to be invertible. *)
Fixpoint bars (n : nat) : string :=
  match n with O => EmptyString | S n => String (Ascii.ascii_of_nat 124) (bars n) end.
Lemma length_bars n : String.length (bars n) = n.
Proof. induction n as [|n IH]; [done|]. cbn. by rewrite IH. Qed.

(** ** Finite transition systems

    The configurations reachable from a start, as found by following the [successors]
    of those already seen; a closed list holds them all. *)
Section exploration.
Context {A : Type} `{EqDecision A} (step : A → A → Prop) (successors : A → list A).

Fixpoint explore (fuel : nat) (seen : list A) : list A :=
  match fuel with
  | O => seen
  | S fuel => explore fuel (remove_dups (seen ++ (seen ≫= successors)))
  end.

Definition closed (seen : list A) : Prop := Forall (λ c, Forall (λ c', c' ∈ seen) (successors c)) seen.
Lemma rtc_closed init seen c : (∀ c c', step c c' → c' ∈ successors c) → init ∈ seen → closed seen →
  rtc step init c → c ∈ seen.
Proof.
  intros Hstep Hinit Hseen Hs. apply (rtc_ind_r (R:=step) (λ c, c ∈ seen) init); [done| |done].
  intros c1 c2 _ H12 Hc1. unfold closed in Hseen. rewrite Forall_forall in Hseen.
  specialize (Hseen c1 Hc1). rewrite Forall_forall in Hseen. by apply Hseen, Hstep.
Qed.
End exploration.
#[export] Instance closed_dec {A} `{EqDecision A} (successors : A → list A) (seen : list A) : Decision (closed successors seen).
Proof. apply _. Defined.
