(* ===== verification/Bytes.v ===== *)
(** Bytes, fixed-width integer encodings, hexadecimal and content hashes.

    [to_le_bytes]/[from_le_bytes]/[to_be_bytes]/[from_be_bytes] of the Rust
    standard library, and [ContentHash] of landro-chunker/src/hash.rs. The
    crates [hex] and [blake3] are not part of the repository: they are the
    operations of the classes [Hex] and [Blake3], with their documented laws. *)

From S2P Require Import Prelude.
From stdpp Require Import base option list gmap strings numbers.
From Stdlib Require Import Init.Byte Strings.Byte Strings.Ascii ZArith Lia.
Open Scope Z_scope.

(** ** Bytes *)

#[export] Instance byte_eq_dec : EqDecision byte := Byte.byte_eq_dec.
#[export] Program Instance byte_countable : Countable byte :=
  inj_countable Byte.to_N Byte.of_N _.
Next Obligation. apply Byte.of_to_N. Qed.

(** [b as u64] and [z as u8]. *)
Definition byte_val (b : byte) : Z := Z.of_N (Byte.to_N b).
Definition byte_of (z : Z) : byte := default x00 (Byte.of_N (Z.to_N (wrap 8 z))).

Lemma byte_val_range b : 0 ≤ byte_val b < 256.
Proof. unfold byte_val. pose proof (Byte.to_N_bounded b). lia. Qed.
Lemma byte_of_val b : byte_of (byte_val b) = b.
Proof.
  unfold byte_of. rewrite wrap_small by apply byte_val_range.
  unfold byte_val. rewrite N2Z.id, Byte.of_to_N. done.
Qed.
Lemma byte_val_of z : byte_val (byte_of z) = wrap 8 z.
Proof.
  unfold byte_of. pose proof (wrap_range 8 z ltac:(lia)).
  destruct (Byte.of_N (Z.to_N (wrap 8 z))) as [b|] eqn:E; simpl.
  - apply Byte.to_of_N in E. unfold byte_val. rewrite E. lia.
  - apply Byte.of_N_None_iff in E. lia.
Qed.
Lemma byte_val_inj b c : byte_val b = byte_val c → b = c.
Proof. intros H. by rewrite <-(byte_of_val b), H, byte_of_val. Qed.

(** ** Fixed-width integers *)

(** [to_le_bytes] of an unsigned integer of [n] bytes. *)
Fixpoint le_bytes (n : nat) (z : Z) : list byte :=
  match n with
  | O => []
  | S n => byte_of z :: le_bytes n (z / 256)
  end.

(** [from_le_bytes]. *)
Fixpoint le_value (bs : list byte) : Z :=
  match bs with
  | [] => 0
  | b :: bs => byte_val b + 256 * le_value bs
  end.

(** [to_be_bytes] and [from_be_bytes]. *)
Definition be_bytes (n : nat) (z : Z) : list byte := rev (le_bytes n z).
Definition be_value (bs : list byte) : Z := le_value (rev bs).

Lemma le_bytes_length n z : length (le_bytes n z) = n.
Proof. revert z. induction n; intros; simpl; congruence. Qed.
Lemma le_value_bytes n z :
  le_value (le_bytes n z) = wrap (8 * Z.of_nat n) z.
Proof.
  revert z. induction n as [|n IH]; intros z; simpl le_bytes; simpl le_value.
  { unfold wrap. simpl. by rewrite Z.mod_1_r. }
  rewrite IH, byte_val_of. unfold wrap.
  replace (8 * Z.of_nat (S n)) with (8 + 8 * Z.of_nat n) by lia.
  rewrite Z.pow_add_r by lia. change (2 ^ 8) with 256.
  rewrite Z.rem_mul_r by lia. lia.
Qed.
Lemma le_value_range bs : 0 ≤ le_value bs < 2 ^ (8 * zlen bs).
Proof.
  induction bs as [|b bs IH]; simpl le_value; [done|].
  rewrite zlen_cons.
  replace (8 * (1 + zlen bs)) with (8 + 8 * zlen bs) by lia.
  pose proof (zlen_nonneg bs). rewrite Z.pow_add_r by lia.
  change (2 ^ 8) with 256. pose proof (byte_val_range b). lia.
Qed.
Lemma le_bytes_value bs : le_bytes (length bs) (le_value bs) = bs.
Proof.
  induction bs as [|b bs IH]; simpl; [done|].
  pose proof (byte_val_range b).
  replace ((byte_val b + 256 * le_value bs) / 256) with (le_value bs)
    by (rewrite (Z.mul_comm 256), Z.div_add, Z.div_small by lia; lia).
  f_equal; [|done].
  apply byte_val_inj. rewrite byte_val_of. unfold wrap. change (2 ^ 8) with 256.
  rewrite (Z.mul_comm 256), Z.mod_add, Z.mod_small by lia. done.
Qed.
Lemma le_value_le_bytes n z :
  0 ≤ z < 2 ^ (8 * Z.of_nat n) → le_value (le_bytes n z) = z.
Proof. intros. by rewrite le_value_bytes, wrap_small. Qed.
Lemma be_bytes_length n z : length (be_bytes n z) = n.
Proof. unfold be_bytes. by rewrite length_rev, le_bytes_length. Qed.
Lemma be_value_be_bytes n z :
  0 ≤ z < 2 ^ (8 * Z.of_nat n) → be_value (be_bytes n z) = z.
Proof.
  intros. unfold be_value, be_bytes. rewrite rev_involutive.
  by apply le_value_le_bytes.
Qed.

Create HintDb codec.
#[export] Hint Rewrite le_bytes_length be_bytes_length : codec.

(** ** Reading from a byte stream

    [read_exact(buf)] with a buffer of [n] bytes: [None] is the
    [UnexpectedEof] error. *)
Definition read_exact (n : nat) (s : list byte) : option (list byte * list byte) :=
  if decide (n ≤ length s)%nat then Some (take n s, drop n s) else None.

Lemma read_exact_app n s t : length s = n → read_exact n (s ++ t) = Some (s, t).
Proof.
  intros <-. unfold read_exact. rewrite decide_True by (rewrite length_app; lia).
  by rewrite take_app_length, drop_app_length.
Qed.
Lemma read_exact_Some n s a t :
  read_exact n s = Some (a, t) ↔ s = a ++ t ∧ length a = n.
Proof.
  split.
  - unfold read_exact. case_decide; intros [= <- <-].
    rewrite take_drop, length_take. split; [done|lia].
  - intros [-> ?]. by apply read_exact_app.
Qed.

(** ** The crates [hex] and [blake3] *)

(** [char::is_ascii_hexdigit]. *)
Definition is_ascii_hexdigit (c : ascii) : bool :=
  let n := N_of_ascii c in
  ((48 <=? n) && (n <=? 57) || (65 <=? n) && (n <=? 70) || (97 <=? n) && (n <=? 102))%N.

(** [hex::encode], [hex::decode] and [blake3::Hash::to_hex]. *)
Class Hex := {
  hex_encode : list byte → string;
  hex_decode : string → option (list byte);
  hex_decode_encode bs : hex_decode (hex_encode bs) = Some bs;
  hex_encode_length bs : String.length (hex_encode bs) = (2 * length bs)%nat;
  hex_encode_digits bs :
    forallb is_ascii_hexdigit (String.list_ascii_of_string (hex_encode bs)) = true;
}.

(** [blake3::hash]; a [Hasher] fed with several [update]s hashes their
    concatenation. *)
Class Blake3 := {
  blake3 : list byte → list byte;
  blake3_length bs : length (blake3 bs) = 32%nat;
}.

Lemma hex_encode_inj `{Hex} a b : hex_encode a = hex_encode b → a = b.
Proof. intros E. apply (f_equal hex_decode) in E. rewrite !hex_decode_encode in E. congruence. Qed.
#[export] Instance hex_encode_Inj `{Hex} : Inj (=) (=) hex_encode.
Proof. intros ??. apply hex_encode_inj. Qed.

(** The digest distinguishes the given inputs. (No digest distinguishes all
    byte strings, so collision resistance is stated of the inputs at hand.) *)
Definition collision_free `{Blake3} (inputs : list (list byte)) : Prop :=
  ∀ a b, a ∈ inputs → b ∈ inputs → blake3 a = blake3 b → a = b.

Lemma collision_free_sub `{Blake3} l k :
  (∀ a, a ∈ l → a ∈ k) → collision_free k → collision_free l.
Proof. intros Hsub Hk a b ??. apply Hk; auto. Qed.

Definition collision_freeb `{Blake3} (inputs : list (list byte)) : bool :=
  let hashed := map (λ a, (a, blake3 a)) inputs in
  forallb (λ '(a, ha), forallb (λ '(b, hb),
    if decide (ha = hb) then bool_decide (a = b) else true) hashed) hashed.
Lemma collision_free_check `{Blake3} inputs :
  collision_freeb inputs = true → collision_free inputs.
Proof.
  intros Hc a b Ha Hb E. unfold collision_freeb in Hc. cbn zeta in Hc.
  apply (list_elem_of_fmap_2 (λ a, (a, blake3 a))), list_elem_of_In in Ha, Hb.
  eapply forallb_forall in Hc; [|exact Ha]. cbn beta iota in Hc.
  eapply forallb_forall in Hc; [|exact Hb]. cbn beta iota in Hc.
  rewrite decide_True in Hc by done. by apply bool_decide_eq_true in Hc.
Qed.

(** ** [ContentHash] *)
Module ContentHash.
(** A content hash is its 32 bytes. *)
Abbreviation t := (list byte).
Definition wf (h : t) : Prop := length h = 32%nat.

Inductive FromHexError := DecodeError | InvalidStringLength.

Definition to_hex `{Hex} (h : t) : string := hex_encode h.

Definition from_hex `{Hex} (hex : string) : outcome FromHexError t :=
  bytes ← ok_or DecodeError (hex_decode hex);
  _ ← fail_if (negb (zlen bytes =? 32)) InvalidStringLength;
  mret bytes.

Lemma from_hex_wf `{Hex} s h : from_hex s = Ok h → wf h.
Proof.
  unfold from_hex, wf. intros H1. inv_ok. unfold zlen in *. lia.
Qed.
End ContentHash.

(** ** Reference instances

    Concrete codecs used to evaluate the model on concrete inputs. *)
Module RefHash.
Definition hex_digit (z : Z) : ascii :=
  ascii_of_N (Z.to_N (if decide (z < 10) then 48 + z else 87 + z)).
Definition hex_value (c : ascii) : option Z :=
  let n := Z.of_N (N_of_ascii c) in
  if decide (48 ≤ n ≤ 57) then Some (n - 48)
  else if decide (97 ≤ n ≤ 102) then Some (n - 87)
  else if decide (65 ≤ n ≤ 70) then Some (n - 55) else None.
Fixpoint encode (bs : list byte) : string :=
  match bs with
  | [] => EmptyString
  | b :: bs => String (hex_digit (byte_val b / 16))
                 (String (hex_digit (byte_val b mod 16)) (encode bs))
  end.
Fixpoint decode (s : string) : option (list byte) :=
  match s with
  | EmptyString => Some []
  | String c (String d s) =>
      x ← hex_value c; y ← hex_value d; bs ← decode s;
      Some (byte_of (16 * x + y) :: bs)
  | _ => None
  end.
Lemma decode_encode bs : decode (encode bs) = Some bs.
Proof.
  induction bs as [|b bs IH]; [done|]. cbn [encode decode].
  rewrite IH. by destruct b.
Qed.
Lemma encode_length bs : String.length (encode bs) = (2 * length bs)%nat.
Proof. induction bs; simpl; lia. Qed.
Lemma encode_digits bs : forallb is_ascii_hexdigit (String.list_ascii_of_string (encode bs)) = true.
Proof. induction bs as [|b bs IH]; [done|]. cbn. rewrite IH. by destruct b. Qed.
Definition hex : Hex := {| hex_decode_encode := decode_encode; hex_encode_length := encode_length;
                           hex_encode_digits := encode_digits |}.

(** A stand-in digest: a polynomial in the bytes, modulo 2^256. *)
Definition digest (bs : list byte) : list byte :=
  le_bytes 32 (foldl (λ h b, h * 65599 + byte_val b + 1) 1 bs).
Lemma digest_length bs : length (digest bs) = 32%nat.
Proof. apply le_bytes_length. Qed.
Definition hash : Blake3 := {| blake3_length := digest_length |}.
End RefHash.
