(* ===== verification/Chunker.v ===== *)
(** The content-defined chunker: landro-chunker/src/chunker.rs.

    [chunk_bytes] and [chunk_stream] are modelled loop by loop; [find_chunk_boundary]
    keeps the 64-bit wrap-around of the gear hash. Loops carry a fuel argument;
    the theorems show the fuel used is enough and no index is out of range. *)

From S2P Require Import Prelude Bytes.
From stdpp Require Import base option list strings pretty numbers.
From Stdlib Require Import Init.Byte Strings.Byte ZArith Lia.
Open Scope Z_scope.

(** ** Configuration *)

Record ChunkerConfig := {
  min_size : Z;
  avg_size : Z;
  max_size : Z;
  mask_bits : Z;
}.

Definition ChunkerConfig_default : ChunkerConfig := {|
  min_size := 256 * 1024;
  avg_size := 1024 * 1024;
  max_size := 4 * 1024 * 1024;
  mask_bits := 20;
|}.

Inductive ChunkerError :=
  | Io
  | InvalidConfig (msg : string)
  | ChunkSizeOutOfBounds (n : Z)
  | UnexpectedEof.

Definition MIN_CHUNK_SIZE : Z := 256.
Definition MAX_CHUNK_SIZE : Z := 16 * 1024 * 1024.

Definition validate (c : ChunkerConfig) : outcome ChunkerError unit :=
  _ ← fail_if (avg_size c <=? min_size c)
        (InvalidConfig "min_size must be less than avg_size");
  _ ← fail_if (max_size c <=? avg_size c)
        (InvalidConfig "avg_size must be less than max_size");
  _ ← fail_if (min_size c <? MIN_CHUNK_SIZE)
        (InvalidConfig ("min_size " +:+ pretty (min_size c) +:+ " is below minimum "
                        +:+ pretty MIN_CHUNK_SIZE));
  _ ← fail_if (MAX_CHUNK_SIZE <? max_size c)
        (InvalidConfig ("max_size " +:+ pretty (max_size c) +:+ " exceeds maximum "
                        +:+ pretty MAX_CHUNK_SIZE));
  _ ← fail_if ((mask_bits c =? 0) || (32 <? mask_bits c))
        (InvalidConfig "mask_bits must be between 1 and 32");
  mret tt.

(** ** Gear table *)

(** One round of the xorshift generator on [u64]. *)
Definition xorshift (state : Z) : Z :=
  let state := Z.lxor state (wrap 64 (Z.shiftl state 13)) in
  let state := Z.lxor state (Z.shiftr state 7) in
  Z.lxor state (wrap 64 (Z.shiftl state 17)).

Fixpoint gear_table_loop (n : nat) (i state : Z) : list Z :=
  match n with
  | O => []
  | S n =>
      let state := xorshift state in
      wrapping_add state (wrapping_mul i 0x517cc1b727220a95)
        :: gear_table_loop n (i + 1) state
  end.

Definition generate_gear_table : list Z :=
  gear_table_loop 256 0 0x45aabbccddeeff00.

Record Chunk := { data : list byte; hash : ContentHash.t; offset : Z }.

Record Chunker := {
  config : ChunkerConfig;
  mask : Z;
  gear_table : list Z;
}.

(** [Chunker::new]. *)
Definition new (c : ChunkerConfig) : outcome ChunkerError Chunker :=
  _ ← validate c;
  mret {| config := c;
          mask := wrap 64 (Z.shiftl 1 (mask_bits c)) - 1;
          gear_table := generate_gear_table |}.

(** [self.gear_table[byte as usize]]: the array has 256 entries. *)
Definition gear (c : Chunker) (b : byte) : Z :=
  nth (N.to_nat (Byte.to_N b)) (gear_table c) 0.

(** ** Boundary search *)

Definition WINDOW_SIZE : Z := 48.

(** [hash.rotate_left(1).wrapping_add(gear_table[byte])]. *)
Definition push_byte (c : Chunker) (h : Z) (b : byte) : Z :=
  wrapping_add (rotate_left h 1) (gear c b).

(** The loop over the first window: [n] bytes from position [pos]. *)
Fixpoint hash_window (c : Chunker) (d : list byte) (n : nat) (pos h : Z) : option Z :=
  match n with
  | O => Some h
  | S n => b ← zget d pos; hash_window c d n (pos + 1) (push_byte c h b)
  end.

(** One step of the scan: remove the oldest byte, add the new one. *)
Definition roll (c : Chunker) (h : Z) (old_byte new_byte : byte) : Z :=
  let old_contribution := rotate_left (gear c old_byte) WINDOW_SIZE in
  push_byte c (wrapping_sub h old_contribution) new_byte.

(** The scan over [n] positions from [pos]; [limit] is [max_pos.min(data.len())]. *)
Fixpoint scan (c : Chunker) (d : list byte) (n : nat) (pos h limit : Z) : option Z :=
  match n with
  | O => Some limit
  | S n =>
      old_byte ← zget d (pos - WINDOW_SIZE);
      new_byte ← zget d pos;
      let h := roll c h old_byte new_byte in
      if Z.land h (mask c) =? 0 then Some (pos + 1)
      else scan c d n (pos + 1) h limit
  end.

Definition find_chunk_boundary (c : Chunker) (d : list byte) (start_pos max_pos : Z)
    : outcome ChunkerError Z :=
  if (zlen d <=? start_pos) || (max_pos <=? start_pos) then Ok (Z.min max_pos (zlen d))
  else if (zlen d <? start_pos + WINDOW_SIZE) || (max_pos <? start_pos + WINDOW_SIZE)
  then Ok (Z.min max_pos (zlen d))
  else
    h ← or_panic (hash_window c d (Z.to_nat WINDOW_SIZE) start_pos 0);
    let first := start_pos + WINDOW_SIZE in
    let limit := Z.min max_pos (zlen d) in
    or_panic (scan c d (Z.to_nat (limit - first)) first h limit).

(** ** Chunking *)

Section chunking.
Context `{Blake3}.

(** The [while offset < data_len] loop of [chunk_bytes]. *)
Fixpoint chunk_bytes_loop (fuel : nat) (c : Chunker) (d : list byte) (start : Z)
    : outcome ChunkerError (list Chunk) :=
  if zlen d <=? start then Ok [] else
  match fuel with
  | O => Panic (* never reached, see chunk_bytes_reassembles *)
  | S fuel =>
      let remaining := zlen d - start in
      let chunk_end := start + Z.min (min_size (config c)) remaining in
      chunk_end ←
        (if (chunk_end <? zlen d) && (min_size (config c) <? remaining) then
           let max_scan := Z.min (start + max_size (config c)) (zlen d) in
           find_chunk_boundary c d chunk_end max_scan
         else Ok chunk_end);
      chunk_data ← or_panic (slice d start chunk_end);
      let chunk := {| data := chunk_data; hash := blake3 chunk_data; offset := start |} in
      rest ← chunk_bytes_loop fuel c d chunk_end;
      mret (chunk :: rest)
  end.

Definition chunk_bytes (c : Chunker) (d : list byte) : outcome ChunkerError (list Chunk) :=
  chunk_bytes_loop (S (length d)) c d 0.

(** The read loop of [chunk_stream]. A reader is the sequence of results its
    [read] calls return: the bytes placed in the 64 KB buffer, or an I/O
    error. An empty read, or the end of the sequence, is the end of stream. *)
Fixpoint read_all (reader : list (outcome ChunkerError (list byte))) (buffer : list byte)
    : outcome ChunkerError (list byte) :=
  match reader with
  | [] => Ok buffer
  | r :: reader =>
      bytes ← r;
      match bytes with
      | [] => Ok buffer
      | _ => read_all reader (buffer ++ bytes)
      end
  end.

(** The [while offset < buffer_len] loop of [chunk_stream]. *)
Fixpoint chunk_stream_loop (fuel : nat) (c : Chunker) (buffer : list byte) (chunk_start : Z)
    : outcome ChunkerError (list Chunk) :=
  if zlen buffer <=? chunk_start then Ok [] else
  match fuel with
  | O => Panic (* never reached, see chunk_stream_chunk_bytes *)
  | S fuel =>
      let remaining := zlen buffer - chunk_start in
      let chunk_end := chunk_start + Z.min (min_size (config c)) remaining in
      chunk_end ←
        (if (chunk_end <? zlen buffer) && (min_size (config c) <? remaining) then
           let max_scan := Z.min (chunk_start + max_size (config c)) (zlen buffer) in
           find_chunk_boundary c buffer chunk_end max_scan
         else Ok chunk_end);
      let chunk_end := Z.min chunk_end (zlen buffer) in
      chunk_data ← or_panic (slice buffer chunk_start chunk_end);
      let global_offset := 0 in
      let chunk := {| data := chunk_data; hash := blake3 chunk_data;
                      offset := global_offset + chunk_start |} in
      rest ← chunk_stream_loop fuel c buffer chunk_end;
      mret (chunk :: rest)
  end.

Definition chunk_stream (c : Chunker) (reader : list (outcome ChunkerError (list byte)))
    : outcome ChunkerError (list Chunk) :=
  buffer ← read_all reader [];
  if decide (buffer = []) then Ok [] else
  chunk_stream_loop (S (length buffer)) c buffer 0.
End chunking.

(** ** Specification of the boundary search *)

(** The hash after [k] steps of the scan that starts at [s]. *)
Fixpoint hash_at (c : Chunker) (d : list byte) (s : Z) (k : nat) : option Z :=
  match k with
  | O => hash_window c d (Z.to_nat WINDOW_SIZE) s 0
  | S k =>
      h ← hash_at c d s k;
      old_byte ← zget d (s + Z.of_nat k);
      new_byte ← zget d (s + Z.of_nat k + WINDOW_SIZE);
      Some (roll c h old_byte new_byte)
  end.

(** Position [p] is a cut point of the scan from [s]. *)
Definition is_cut (c : Chunker) (d : list byte) (s p : Z) : bool :=
  (s + WINDOW_SIZE <=? p) &&
  match hash_at c d s (Z.to_nat (p - s - WINDOW_SIZE + 1)) with
  | Some h => Z.land h (mask c) =? 0
  | None => false
  end.

(** What a boundary search from [s] up to [limit] returns. *)
Record boundary_spec (c : Chunker) (d : list byte) (s limit r : Z) : Prop := {
  bs_range : s < r ≤ limit;
  bs_first : ∀ p, p < r - 1 → is_cut c d s p = false;
  bs_cut : r < limit → is_cut c d s (r - 1) = true;
}.

Section boundary_lemmas.
Context (c : Chunker) (d : list byte).

Lemma hash_window_Some n pos h : 0 ≤ pos → pos + Z.of_nat n ≤ zlen d →
  is_Some (hash_window c d n pos h).
Proof.
  revert pos h. induction n as [|n IH]; intros pos h ? Hle; simpl; [done|].
  destruct (zget_Some d pos) as [b ->]; [lia|]. simpl. apply IH; lia.
Qed.

Lemma is_cut_early s p : p < s + WINDOW_SIZE → is_cut c d s p = false.
Proof. intros. unfold is_cut. by replace (s + WINDOW_SIZE <=? p) with false by lia. Qed.

Lemma is_cut_step s k h b b' : 0 ≤ s →
  hash_at c d s k = Some h →
  zget d (s + Z.of_nat k) = Some b →
  zget d (s + Z.of_nat k + WINDOW_SIZE) = Some b' →
  is_cut c d s (s + WINDOW_SIZE + Z.of_nat k) = (Z.land (roll c h b b') (mask c) =? 0).
Proof.
  intros ? Hh Hb Hb'. unfold is_cut.
  replace (s + WINDOW_SIZE <=? s + WINDOW_SIZE + Z.of_nat k) with true by zlia.
  replace (Z.to_nat _) with (S k) by lia. cbn [hash_at andb].
  by rewrite Hh, Hb; cbn; rewrite Hb'.
Qed.

Lemma scan_boundary s k n h limit : 0 ≤ s →
  limit ≤ zlen d →
  Z.of_nat n = limit - (s + WINDOW_SIZE + Z.of_nat k) →
  hash_at c d s k = Some h →
  (∀ p, p < s + WINDOW_SIZE + Z.of_nat k → is_cut c d s p = false) →
  ∃ r, scan c d n (s + WINDOW_SIZE + Z.of_nat k) h limit = Some r
       ∧ boundary_spec c d s limit r.
Proof.
  intros Hs Hlim. revert k h. induction n as [|n IH]; intros k h Hn Hh Hno; cbn [scan].
  { exists limit. split; [done|]. unfold WINDOW_SIZE in *.
    split; [lia| |lia]. intros. apply Hno. lia. }
  unfold WINDOW_SIZE in *.
  replace (s + 48 + Z.of_nat k - 48) with (s + Z.of_nat k) by lia.
  destruct (zget_Some d (s + Z.of_nat k)) as [b Hb]; [lia|].
  destruct (zget_Some d (s + Z.of_nat k + 48)) as [b' Hb']; [lia|].
  pose proof (is_cut_step s k h b b' Hs Hh Hb Hb') as Hcut. unfold WINDOW_SIZE in Hcut.
  rewrite Hb. cbn [mbind option_bind].
  replace (s + 48 + Z.of_nat k) with (s + Z.of_nat k + 48) in * by lia.
  rewrite Hb'. cbn [mbind option_bind].
  destruct (Z.land _ _ =? 0).
  - eexists. split; [done|]. split; [lia| |].
    + intros. apply Hno. lia.
    + intros. by replace (s + Z.of_nat k + 48 + 1 - 1) with (s + Z.of_nat k + 48) by lia.
  - destruct (IH (S k) (roll c h b b')) as (r & Hr & Hspec).
    + lia.
    + cbn [hash_at]. unfold WINDOW_SIZE. by rewrite Hh; cbn; rewrite Hb; cbn; rewrite Hb'.
    + intros p Hp. destruct (decide (p = s + Z.of_nat k + 48)) as [->|]; [done|].
      apply Hno. lia.
    + exists r. split; [|done]. rewrite <-Hr. f_equal. lia.
Qed.

Lemma find_chunk_boundary_correct s m : 0 ≤ s → s < Z.min m (zlen d) →
  ∃ r, find_chunk_boundary c d s m = Ok r ∧ boundary_spec c d s (Z.min m (zlen d)) r.
Proof.
  intros Hs Hlt. unfold find_chunk_boundary.
  replace ((zlen d <=? s) || (m <=? s)) with false by lia.
  case_if.
  - exists (Z.min m (zlen d)). split; [done|]. split; [lia| |lia].
    intros. apply is_cut_early. unfold WINDOW_SIZE in *. lia.
  - assert (s + WINDOW_SIZE ≤ Z.min m (zlen d)) by lia.
    destruct (hash_window_Some (Z.to_nat WINDOW_SIZE) s 0) as [h Hh]; [lia|unfold WINDOW_SIZE in *; lia|].
    rewrite Hh. cbn [or_panic mbind outcome_bind].
    destruct (scan_boundary s 0 (Z.to_nat (Z.min m (zlen d) - (s + WINDOW_SIZE))) h
                (Z.min m (zlen d))) as (r & Hr & Hspec); try lia; [done| |].
    + intros. apply is_cut_early. lia.
    + exists r. split; [|done]. rewrite Z.add_0_r in Hr. by rewrite Hr.
Qed.
End boundary_lemmas.

(** ** Facts of a valid configuration *)

Record valid_config (c : ChunkerConfig) : Prop := {
  vc_min : MIN_CHUNK_SIZE ≤ min_size c;
  vc_min_avg : min_size c < avg_size c;
  vc_avg_max : avg_size c < max_size c;
  vc_max : max_size c ≤ MAX_CHUNK_SIZE;
  vc_bits : mask_bits c ≠ 0 ∧ mask_bits c ≤ 32;
}.

Lemma validate_Ok c : validate c = Ok tt ↔ valid_config c.
Proof.
  unfold validate. split.
  - intros. inv_ok. split; lia.
  - intros []. unfold MIN_CHUNK_SIZE, MAX_CHUNK_SIZE in *.
    replace (avg_size c <=? min_size c) with false by lia.
    replace (max_size c <=? avg_size c) with false by lia.
    replace (min_size c <? 256) with false by lia.
    replace (16 * 1024 * 1024 <? max_size c) with false by lia.
    by replace ((mask_bits c =? 0) || (32 <? mask_bits c)) with false by lia.
Qed.

Lemma new_valid cfg c : new cfg = Ok c → config c = cfg ∧ valid_config cfg.
Proof.
  unfold new. intros. inv_ok. destruct_units. split; [done|]. by apply validate_Ok.
Qed.

(** The smallest size of a chunk that is not the last one. *)
Definition min_inner_size (c : Chunker) : Z :=
  Z.min (min_size (config c) + WINDOW_SIZE + 1) (max_size (config c)).

Section chunk_theory.
Context `{Blake3}.

(** The chunks of [d] from position [start] on. *)
Inductive Chunked (c : Chunker) (d : list byte) : Z → list Chunk → Prop :=
  | Chunked_end : Chunked c d (zlen d) []
  | Chunked_cons start stop s rest :
      0 ≤ start < stop → stop ≤ zlen d →
      slice d start stop = Some s →
      stop - start ≤ max_size (config c) →
      (stop < zlen d → min_inner_size c ≤ stop - start) →
      Chunked c d stop rest →
      Chunked c d start ({| data := s; hash := blake3 s; offset := start |} :: rest).

(** The end of the chunk that starts at [start], as both loops compute it. *)
Lemma next_end c d start : valid_config (config c) → 0 ≤ start < zlen d →
  let e := start + Z.min (min_size (config c)) (zlen d - start) in
  ∃ stop,
    (if (e <? zlen d) && (min_size (config c) <? zlen d - start) then
       find_chunk_boundary c d e (Z.min (start + max_size (config c)) (zlen d))
     else Ok e) = Ok stop
    ∧ start < stop ≤ zlen d ∧ stop - start ≤ max_size (config c)
    ∧ (stop < zlen d → min_inner_size c ≤ stop - start).
Proof.
  intros [] Hs e. unfold MIN_CHUNK_SIZE, min_inner_size, WINDOW_SIZE in *.
  case_if as Hif.
  - destruct (find_chunk_boundary_correct c d e (Z.min (start + max_size (config c)) (zlen d)))
      as (stop & -> & [Hr _ Hc]); [lia..|].
    exists stop. split; [done|]. split; [lia|]. split; [lia|]. intros Hlt.
    destruct (decide (stop = Z.min (Z.min (start + max_size (config c)) (zlen d)) (zlen d)));
      [lia|].
    assert (is_cut c d e (stop - 1) = true) as Hcut by (apply Hc; lia).
    unfold is_cut, WINDOW_SIZE in Hcut. apply andb_true_iff in Hcut as [Hcut _]. lia.
  - exists e. split; [done|]. lia.
Qed.

Lemma chunk_bytes_loop_Chunked c d fuel start : valid_config (config c) →
  0 ≤ start ≤ zlen d → zlen d - start ≤ Z.of_nat fuel →
  ∃ cs, chunk_bytes_loop fuel c d start = Ok cs ∧ Chunked c d start cs.
Proof.
  intros Hv. revert start. induction fuel as [|fuel IH]; intros start Hs Hf;
    (destruct (Z.leb_spec (zlen d) start); [
      assert (start = zlen d) as -> by lia;
      exists []; split; [cbn [chunk_bytes_loop]; by rewrite Z.leb_refl|constructor]|]).
  { lia. }
  cbn [chunk_bytes_loop]. replace (zlen d <=? start) with false by lia.
  destruct (next_end c d start) as (stop & Hstop & ? & ? & ?); [done|lia|].
  rewrite Hstop. cbn [mbind outcome_bind].
  pose proof (slice_Some d start stop) as Hsl. rewrite Hsl by lia. cbn.
  destruct (IH stop) as (rest & Hrest & ?); [lia..|]. rewrite Hrest. cbn.
  eexists. split; [done|]. apply (Chunked_cons c d start stop); [lia|lia|apply Hsl; lia|lia|done|done].
Qed.

Lemma chunk_stream_loop_eq c d fuel start : valid_config (config c) → 0 ≤ start →
  chunk_stream_loop fuel c d start = chunk_bytes_loop fuel c d start.
Proof.
  intros Hv. revert start. induction fuel as [|fuel IH]; intros start Hs;
    cbn [chunk_bytes_loop chunk_stream_loop]; [done|].
  case_if as Hlen; [done|].
  destruct (next_end c d start) as (stop & Hstop & ? & ? & ?); [done|lia|].
  rewrite Hstop. cbn [mbind outcome_bind].
  rewrite Z.min_l by lia. by rewrite IH by lia.
Qed.

Lemma Chunked_concat c d start cs : Chunked c d start cs →
  concat (data <$> cs) = drop (Z.to_nat start) d.
Proof.
  induction 1 as [|start stop s rest ? ? Hsl ? ? ? IH];
    rewrite ?fmap_nil, ?fmap_cons; cbn [concat data].
  - unfold zlen. by rewrite Nat2Z.id, drop_all.
  - rewrite IH. symmetry. by apply slice_split.
Qed.

Lemma Chunked_lookup c d start cs i ch : Chunked c d start cs → cs !! i = Some ch →
  offset ch = start + zlen (concat (data <$> take i cs))
  ∧ slice d (offset ch) (offset ch + zlen (data ch)) = Some (data ch)
  ∧ hash ch = blake3 (data ch)
  ∧ 0 < zlen (data ch) ≤ max_size (config c)
  ∧ ((S i < length cs)%nat → min_inner_size c ≤ zlen (data ch)).
Proof.
  intros Hc. revert i. induction Hc as [|start stop s rest ? ? Hsl ? Hmin Hrest IH];
    intros i Hi; [done|].
  pose proof (slice_length _ _ _ _ Hsl) as Hlen.
  destruct i as [|i]; simpl in Hi.
  - injection Hi as <-. cbn [offset data hash take concat fmap list_fmap].
    rewrite zlen_nil. split; [lia|]. rewrite Hlen.
    replace (start + (stop - start)) with stop by lia.
    split; [done|]. split; [done|]. split; [lia|].
    intros Hr. apply Hmin. inversion Hrest; subst; simpl in Hr; lia.
  - destruct (IH i Hi) as (Ho & ? & ? & ? & Hm).
    rewrite firstn_cons, fmap_cons; cbn [concat data]. rewrite zlen_app.
    split; [rewrite Ho; lia|]. split; [done|]. split; [done|]. split; [done|].
    intros Hr. apply Hm. simpl in Hr. lia.
Qed.

Lemma chunk_bytes_Chunked cfg c d : new cfg = Ok c →
  ∃ cs, chunk_bytes c d = Ok cs ∧ Chunked c d 0 cs.
Proof.
  intros [<- ?]%new_valid. apply chunk_bytes_loop_Chunked; [done| |]; unfold zlen; lia.
Qed.
End chunk_theory.

(** ** Chunking a suffix *)

Section suffix.
Context (c : Chunker) (d : list byte) (s : Z) (Hs : 0 ≤ s ≤ zlen d).

Lemma zlen_suffix : zlen (drop (Z.to_nat s) d) = zlen d - s.
Proof using Hs. rewrite zlen_drop. lia. Qed.

Lemma hash_window_suffix n pos h : 0 ≤ pos →
  hash_window c (drop (Z.to_nat s) d) n pos h = hash_window c d n (s + pos) h.
Proof using Hs.
  revert pos h. induction n as [|n IH]; intros pos h ?; cbn [hash_window]; [done|].
  rewrite zget_drop by lia. destruct (zget d (s + pos)); cbn; [|done].
  rewrite IH by lia. f_equal. lia.
Qed.

Lemma scan_suffix n pos h limit : WINDOW_SIZE ≤ pos →
  (λ r, s + r) <$> scan c (drop (Z.to_nat s) d) n pos h limit
  = scan c d n (s + pos) h (s + limit).
Proof using Hs.
  unfold WINDOW_SIZE. revert pos h.
  induction n as [|n IH]; intros pos h ?; cbn [scan]; [done|].
  unfold WINDOW_SIZE. rewrite !zget_drop by lia.
  replace (s + (pos - 48)) with (s + pos - 48) by lia.
  destruct (zget d (s + pos - 48)); cbn; [|done].
  destruct (zget d (s + pos)); cbn; [|done].
  case_if; cbn; [f_equal; lia|]. rewrite IH by lia. f_equal. lia.
Qed.

Lemma find_chunk_boundary_suffix a m : 0 ≤ a →
  (λ r, s + r) <$> find_chunk_boundary c (drop (Z.to_nat s) d) a m
  = find_chunk_boundary c d (s + a) (s + m).
Proof using Hs.
  intros Ha. unfold find_chunk_boundary. rewrite zlen_suffix.
  replace (zlen d - s <=? a) with (zlen d <=? s + a) by lia.
  replace (s + m <=? s + a) with (m <=? a) by lia.
  replace (Z.min (s + m) (zlen d)) with (s + Z.min m (zlen d - s)) by lia.
  case_if; [done|].
  replace (zlen d - s <? a + WINDOW_SIZE) with (zlen d <? s + a + WINDOW_SIZE) by lia.
  replace (s + m <? s + a + WINDOW_SIZE) with (m <? a + WINDOW_SIZE) by lia.
  case_if; [done|]. rewrite hash_window_suffix by done.
  destruct (hash_window _ _ _ _ _) as [h|]; [|done]. cbn [or_panic mbind outcome_bind].
  rewrite <-Z.add_assoc.
  replace (s + Z.min m (zlen d - s) - (s + (a + WINDOW_SIZE)))
    with (Z.min m (zlen d - s) - (a + WINDOW_SIZE)) by lia.
  rewrite <-scan_suffix by (unfold WINDOW_SIZE; lia).
  by destruct (scan _ _ _ _ _ _).
Qed.

(** A chunk of the suffix, placed in the whole. *)
Definition shift_chunk (ch : Chunk) : Chunk :=
  {| data := data ch; hash := hash ch; offset := s + offset ch |}.

Lemma slice_suffix a b : 0 ≤ a →
  slice (drop (Z.to_nat s) d) a b = slice d (s + a) (s + b).
Proof using Hs.
  intros. unfold slice. rewrite zlen_suffix, drop_drop.
  destruct (decide (0 ≤ a ≤ b ∧ b ≤ zlen d - s));
    [rewrite decide_True by lia|by rewrite decide_False by lia].
  do 2 f_equal; [lia|]. f_equal. lia.
Qed.

Lemma chunk_bytes_loop_suffix `{Blake3} fuel a : valid_config (config c) → 0 ≤ a →
  map shift_chunk <$> chunk_bytes_loop fuel c (drop (Z.to_nat s) d) a
  = chunk_bytes_loop fuel c d (s + a).
Proof using Hs.
  intros Hv. revert a. induction fuel as [|fuel IH]; intros a Ha; cbn [chunk_bytes_loop];
    rewrite zlen_suffix; replace (zlen d - s <=? a) with (zlen d <=? s + a) by lia;
    (destruct (Z.leb_spec (zlen d) (s + a)); [done|]); [done|].
  replace (zlen d - s - a) with (zlen d - (s + a)) by lia.
  replace (s + a + Z.min (min_size (config c)) (zlen d - (s + a)))
    with (s + (a + Z.min (min_size (config c)) (zlen d - (s + a)))) by lia.
  set (e := a + Z.min _ _).
  replace (e <? zlen d - s) with (s + e <? zlen d) by lia.
  replace (Z.min (s + a + max_size (config c)) (zlen d))
    with (s + Z.min (a + max_size (config c)) (zlen d - s)) by lia.
  rewrite <-find_chunk_boundary_suffix by (destruct Hv; unfold MIN_CHUNK_SIZE in *; lia).
  pose proof (next_end c (drop (Z.to_nat s) d) a Hv) as Hend. rewrite zlen_suffix in Hend.
  replace (zlen d - s - a) with (zlen d - (s + a)) in Hend by lia.
  destruct Hend as (stop & Hstop & ? & _); [lia|]. fold e in Hstop.
  replace (e <? zlen d - s) with (s + e <? zlen d) in Hstop by lia.
  case_if; [rewrite Hstop|injection Hstop as ->]; cbn;
    rewrite slice_suffix by lia;
    (destruct (slice d (s + a) (s + stop)); cbn; [|done]);
    rewrite <-IH by lia; by destruct (chunk_bytes_loop fuel c (drop (Z.to_nat s) d) stop).
Qed.
End suffix.

Lemma chunk_bytes_loop_fuel `{Blake3} c d fuel fuel' start : valid_config (config c) →
  0 ≤ start ≤ zlen d → zlen d - start ≤ Z.of_nat fuel → zlen d - start ≤ Z.of_nat fuel' →
  chunk_bytes_loop fuel c d start = chunk_bytes_loop fuel' c d start.
Proof.
  intros Hv. revert fuel' start. induction fuel as [|fuel IH]; intros fuel' start Hs Hf Hf';
    (destruct (decide (start = zlen d)) as [->|];
      [destruct fuel'; cbn [chunk_bytes_loop]; by rewrite Z.leb_refl|]); [lia|].
  destruct fuel' as [|fuel']; [lia|]. cbn [chunk_bytes_loop].
  replace (zlen d <=? start) with false by lia.
  destruct (next_end c d start) as (stop & -> & ? & _); [done|lia|]. cbn.
  rewrite slice_Some by lia. cbn. by rewrite (IH fuel') by lia.
Qed.

(** The loop, started at the offset of the [i]-th chunk, returns the chunks
    from the [i]-th on. *)
Lemma chunk_bytes_loop_at `{Blake3} c d start cs i ch : valid_config (config c) →
  0 ≤ start ≤ zlen d → Chunked c d start cs → cs !! i = Some ch →
  chunk_bytes_loop (S (length d)) c d start = Ok cs →
  0 ≤ offset ch ≤ zlen d ∧
  chunk_bytes_loop (S (length d)) c d (offset ch) = Ok (drop i cs).
Proof.
  intros Hv Hz HC. revert i Hz.
  induction HC as [|start stop s rest ? ? Hsl ? ? _ IH]; intros i Hz Hi Hloop; [done|].
  destruct i as [|i]; simpl in Hi.
  { injection Hi as <-. by rewrite drop_0. }
  apply IH; [lia|done|].
  cbn [chunk_bytes_loop] in Hloop. replace (zlen d <=? start) with false in Hloop by lia.
  destruct (next_end c d start) as (stop' & Hs' & ? & _); [done|lia|].
  rewrite Hs' in Hloop. cbn in Hloop.
  rewrite (slice_Some d start stop') in Hloop by lia. cbn in Hloop.
  apply bind_Ok in Hloop as (rest' & Hr' & Hd).
  injection Hd as Hd _ Hrest. subst rest'.
  assert (stop' = stop) as ->.
  { apply slice_length in Hsl as Hl. rewrite <-Hd in Hl.
    rewrite zlen_take, zlen_drop in Hl. lia. }
  rewrite <-Hr'. apply chunk_bytes_loop_fuel; [done|lia| |]; unfold zlen; lia.
Qed.

(** ** Properties *)

(** The configuration and input used to evaluate the properties. *)
Definition golden_config : ChunkerConfig :=
  {| min_size := 256; avg_size := 512; max_size := 1024; mask_bits := 1 |}.
Definition golden_chunker : Chunker :=
  {| config := golden_config; mask := 1; gear_table := generate_gear_table |}.
Definition golden_data : list byte :=
  map (λ i, byte_of (Z.of_nat i * Z.of_nat i * 7 + Z.of_nat i)) (seq 0 340).
Lemma golden_new : new golden_config = Ok golden_chunker.
Proof. vm_compute. reflexivity. Defined.

Section properties.
Context `{Blake3}.

(** C1: chunking any input with a chunker built from a valid configuration
    terminates without a panic, and the concatenation of the chunks is the
    input. *)
Theorem chunk_bytes_reassembles cfg c d : new cfg = Ok c →
  ∃ cs, chunk_bytes c d = Ok cs ∧ concat (data <$> cs) = d.
Proof.
  intros Hn. destruct (chunk_bytes_Chunked _ _ d Hn) as (cs & Hcs & HC).
  exists cs. split; [done|]. by rewrite (Chunked_concat _ _ _ _ HC).
Qed.

(** C28: every chunk is non-empty and at most [max_size] bytes, every chunk but
    the last is longer than the minimum size plus the hash window (or
    exactly [max_size] bytes), its offset is the number of bytes before it,
    and its hash is the BLAKE3 hash of its bytes. *)
Theorem chunk_bytes_sizes cfg c d cs i ch : new cfg = Ok c →
  chunk_bytes c d = Ok cs → cs !! i = Some ch →
  0 < zlen (data ch) ≤ max_size cfg
  ∧ ((S i < length cs)%nat →
     Z.min (min_size cfg + WINDOW_SIZE + 1) (max_size cfg) ≤ zlen (data ch))
  ∧ offset ch = zlen (concat (data <$> take i cs))
  ∧ slice d (offset ch) (offset ch + zlen (data ch)) = Some (data ch)
  ∧ hash ch = blake3 (data ch).
Proof.
  intros Hn Hcs Hi. destruct (new_valid _ _ Hn) as [<- _].
  destruct (chunk_bytes_Chunked _ c d Hn) as (cs' & Hcs' & HC).
  rewrite Hcs in Hcs'. injection Hcs' as <-.
  destruct (Chunked_lookup _ _ _ _ _ _ HC Hi) as (Ho & ? & ? & ? & ?).
  split_and!; [lia|lia|done|lia|done|done].
Qed.

(** C31: the streaming chunker is the in-memory chunker: whatever sizes the
    reads return, chunking the stream is chunking the concatenation of the
    bytes read; and a read error before the end of the stream is returned. *)
Theorem chunk_stream_chunk_bytes cfg c reads : new cfg = Ok c →
  Forall (λ r, r ≠ []) reads →
  chunk_stream c (map Ok reads) = chunk_bytes c (concat reads)
  ∧ ∀ e rest, chunk_stream c (map Ok reads ++ Err e :: rest) = Err e.
Proof.
  intros [<- Hv]%new_valid Hr.
  assert (∀ tail buffer, read_all (map Ok reads ++ tail) buffer
                         = read_all tail (buffer ++ concat reads)) as Hread.
  { intros tail. induction Hr as [|r reads Hne _ IH]; intros buffer; simpl.
    - by rewrite app_nil_r.
    - destruct r; [done|]. by rewrite IH, <-app_assoc. }
  split.
  - unfold chunk_stream, chunk_bytes. rewrite <-(app_nil_r (map Ok reads)), Hread.
    cbn [read_all mbind outcome_bind app].
    case_decide as Hnil; [by rewrite Hnil|]. by rewrite chunk_stream_loop_eq.
  - intros. unfold chunk_stream. by rewrite Hread.
Qed.

(** chunking restarts at every cut: dropping the bytes before a chunk
    leaves that chunk and the ones after it unchanged, up to their offsets. *)
Theorem chunk_bytes_resync cfg c d cs i ch : new cfg = Ok c →
  chunk_bytes c d = Ok cs → cs !! i = Some ch →
  ∃ cs', chunk_bytes c (drop (Z.to_nat (offset ch)) d) = Ok cs'
         ∧ map (shift_chunk (offset ch)) cs' = drop i cs.
Proof.
  intros Hn Hcs Hi. destruct (new_valid _ _ Hn) as [<- Hv].
  destruct (chunk_bytes_Chunked _ c d Hn) as (cs0 & Hcs0 & HC).
  rewrite Hcs in Hcs0. injection Hcs0 as <-.
  assert (0 ≤ 0 ≤ zlen d) as Hz by (unfold zlen; lia).
  destruct (chunk_bytes_loop_at _ _ _ _ _ _ Hv Hz HC Hi Hcs) as [Ho Hloop].
  pose proof (chunk_bytes_loop_suffix c d (offset ch) Ho (S (length d)) 0 Hv ltac:(lia)) as Hsuf.
  rewrite Z.add_0_r, Hloop in Hsuf.
  unfold chunk_bytes. rewrite (chunk_bytes_loop_fuel c _ _ (S (length d)) 0 Hv);
    [|rewrite ?zlen_suffix by lia; unfold zlen in *; rewrite ?length_drop; lia..].
  destruct (chunk_bytes_loop _ _ (drop _ _) _) as [cs'| |]; try done.
  injection Hsuf as Hsuf. by exists cs'.
Qed.
End properties.

(** The gear table has 256 pairwise distinct 64-bit entries. *)
Lemma gear_table_distinct :
  length generate_gear_table = 256%nat
  ∧ NoDup generate_gear_table
  ∧ Forall (λ g, 0 ≤ g ≤ u64_max) generate_gear_table.
Proof.
  split; [by vm_compute|]. split.
  - apply (bool_decide_unpack _). by vm_compute.
  - apply (bool_decide_unpack _). by vm_compute.
Qed.

(** Two inputs that differ only in the byte before the last 48 bytes. *)
Definition window_input (b : byte) : list byte :=
  b :: map (λ i, byte_of (Z.of_nat i * 37)) (seq 0 48).

(** the scan returns the first position at which the gear hash masks to
    zero, and the end of the search range when there is none; it never reads
    out of range. *)
Theorem find_chunk_boundary_first_cut c d s m : 0 ≤ s → s < Z.min m (zlen d) →
  ∃ r, find_chunk_boundary c d s m = Ok r ∧ s < r ≤ Z.min m (zlen d)
       ∧ (∀ p, p < r - 1 → is_cut c d s p = false)
       ∧ (r < Z.min m (zlen d) → is_cut c d s (r - 1) = true).
Proof.
  intros Hs Hlt. destruct (find_chunk_boundary_correct c d s m Hs Hlt) as (r & Hr & []).
  by exists r.
Qed.

(** the hash is not a function of the 48-byte window it is documented to
    slide over: with a valid configuration, two inputs with the same last 48
    bytes are cut differently at the same position, because of the byte that
    has left the window. *)
Theorem boundary_depends_on_byte_outside_window :
  ∃ cfg c d d', new cfg = Ok c
    ∧ drop 1 d = drop 1 d' ∧ zlen (drop 1 d) = WINDOW_SIZE
    ∧ is_cut c d 0 48 = true ∧ is_cut c d' 0 48 = false.
Proof.
  pose (cfg := {| min_size := 512; avg_size := 2048; max_size := 8192; mask_bits := 1 |}).
  exists cfg, {| config := cfg; mask := 1; gear_table := generate_gear_table |},
    (window_input x00), (window_input x02).
  by vm_compute.
Qed.

(** ** Witnesses *)

Section witnesses.
#[local] Existing Instance RefHash.hash.

Lemma chunk_bytes_reassembles_witness :
  ∃ cs, chunk_bytes golden_chunker golden_data = Ok cs ∧ concat (data <$> cs) = golden_data.
Proof. apply (chunk_bytes_reassembles golden_config), golden_new. Defined.

Definition golden_chunks : list Chunk :=
  Eval vm_compute in from_ok [] (chunk_bytes golden_chunker golden_data).
Lemma golden_chunks_ok : chunk_bytes golden_chunker golden_data = Ok golden_chunks.
Proof. vm_compute. reflexivity. Defined.
Definition golden_chunk : Chunk :=
  Eval vm_compute in nth 1 golden_chunks {| data := []; hash := []; offset := 0 |}.
Lemma golden_chunk_at : golden_chunks !! 1%nat = Some golden_chunk.
Proof. vm_compute. reflexivity. Defined.

Lemma chunk_bytes_sizes_witness :
  0 < zlen (data golden_chunk) ≤ 1024
  ∧ ((2 < length golden_chunks)%nat → 305 ≤ zlen (data golden_chunk))
  ∧ offset golden_chunk = zlen (concat (data <$> take 1 golden_chunks))
  ∧ slice golden_data (offset golden_chunk) (offset golden_chunk + zlen (data golden_chunk))
    = Some (data golden_chunk)
  ∧ hash golden_chunk = blake3 (data golden_chunk).
Proof.
  exact (chunk_bytes_sizes golden_config golden_chunker golden_data golden_chunks 1 golden_chunk
           golden_new golden_chunks_ok golden_chunk_at).
Defined.

Lemma chunk_stream_chunk_bytes_witness :
  chunk_stream golden_chunker (map Ok [golden_data; golden_data])
  = chunk_bytes golden_chunker (concat [golden_data; golden_data])
  ∧ ∀ e rest, chunk_stream golden_chunker (map Ok [golden_data; golden_data] ++ Err e :: rest)
              = Err e.
Proof.
  apply (chunk_stream_chunk_bytes golden_config); [exact golden_new|].
  repeat constructor; done.
Defined.

Lemma chunk_bytes_resync_witness :
  ∃ cs', chunk_bytes golden_chunker (drop (Z.to_nat (offset golden_chunk)) golden_data) = Ok cs'
         ∧ map (shift_chunk (offset golden_chunk)) cs' = drop 1 golden_chunks.
Proof.
  exact (chunk_bytes_resync golden_config golden_chunker golden_data golden_chunks 1 golden_chunk
           golden_new golden_chunks_ok golden_chunk_at).
Defined.

Lemma find_chunk_boundary_first_cut_witness :
  ∃ r, find_chunk_boundary golden_chunker golden_data 256 340 = Ok r
       ∧ 256 < r ≤ Z.min 340 (zlen golden_data)
       ∧ (∀ p, p < r - 1 → is_cut golden_chunker golden_data 256 p = false)
       ∧ (r < Z.min 340 (zlen golden_data) →
          is_cut golden_chunker golden_data 256 (r - 1) = true).
Proof. apply (find_chunk_boundary_first_cut golden_chunker golden_data 256 340); by vm_compute. Defined.
End witnesses.
