(* ===== verification/Manifest.v ===== *)
(** Folder manifests: landro-index/src/manifest.rs.

    The merkle root of a manifest (sorted leaves, pairwise hashing with the
    last hash duplicated at odd levels), [finalize]/[verify], and [diff]. *)

From S2P Require Import Prelude Bytes.
From stdpp Require Import base option list gmap strings numbers sorting.
From Stdlib Require Import Init.Byte Strings.Byte ZArith Lia.
Open Scope Z_scope.

(** [chrono::DateTime<Utc>]: nanoseconds since the Unix epoch. *)
Abbreviation DateTime := Z.

(** [DateTime::timestamp]: whole seconds. *)
Definition timestamp (t : DateTime) : Z := t / 1000000000.

(** The bytes of a Rust string. *)
Definition as_bytes (s : string) : list byte := String.list_byte_of_string s.

Record ManifestEntry := {
  path : string;
  fsize : Z;
  modified_at : DateTime;
  content_hash : string;
  chunk_hashes : list string;
  mode : option Z;
}.

Record Manifest := {
  folder_id : string;
  version : Z;
  files : list ManifestEntry;
  created_at : DateTime;
  manifest_hash : option string;
}.

#[export] Instance ManifestEntry_eq_dec : EqDecision ManifestEntry.
Proof. solve_decision. Defined.

(** [Manifest::new]; [now] is [Utc::now()]. *)
Definition new (now : DateTime) (folder_id : string) (version : Z) : Manifest :=
  {| folder_id := folder_id; version := version; files := [];
     created_at := now; manifest_hash := None |}.

Definition set_files (m : Manifest) (fs : list ManifestEntry) : Manifest :=
  {| folder_id := folder_id m; version := version m; files := fs;
     created_at := created_at m; manifest_hash := manifest_hash m |}.
Definition set_hash (m : Manifest) (h : option string) : Manifest :=
  {| folder_id := folder_id m; version := version m; files := files m;
     created_at := created_at m; manifest_hash := h |}.

Definition add_file (m : Manifest) (entry : ManifestEntry) : Manifest :=
  set_files m (files m ++ [entry]).

(** [sort_by(|a, b| a.path.cmp(&b.path))]. *)
Definition path_leb (a b : ManifestEntry) : bool := String.leb (path a) (path b).
Definition sort_files (fs : list ManifestEntry) : list ManifestEntry :=
  stable_sort path_leb fs.

Section merkle.
Context `{Hex, Blake3}.

(** [hex::decode(s).unwrap_or_else(|_| vec![0; 32])]. *)
Definition decode_or_zero (s : string) : list byte :=
  default (repeat x00 32) (hex_decode s).

(** The bytes fed to the hasher by [hash_file_entry]. *)
Definition leaf_bytes (file : ManifestEntry) : list byte :=
  as_bytes (path file)
  ++ le_bytes 8 (fsize file)
  ++ decode_or_zero (content_hash file)
  ++ (match mode file with Some mode => le_bytes 4 mode | None => repeat x00 4 end)
  ++ le_bytes 8 (timestamp (modified_at file))
  ++ concat (map decode_or_zero (chunk_hashes file)).

Definition hash_file_entry (file : ManifestEntry) : list byte := blake3 (leaf_bytes file).

(** The loop [while i < hashes.len() { ..; i += 2 }]. *)
Fixpoint hash_pairs (hashes : list (list byte)) : list (list byte) :=
  match hashes with
  | [] => []
  | [h] => [blake3 (h ++ h)]
  | h1 :: h2 :: rest => blake3 (h1 ++ h2) :: hash_pairs rest
  end.

(** The loop [while hashes.len() > 1]. *)
Fixpoint merkle_loop (fuel : nat) (hashes : list (list byte)) : list (list byte) :=
  match fuel with
  | O => hashes
  | S fuel =>
      if decide (1 < length hashes)%nat then merkle_loop fuel (hash_pairs hashes) else hashes
  end.

Definition calculate_hash (m : Manifest) : ContentHash.t :=
  let sorted_files := sort_files (files m) in
  match sorted_files with
  | [] => blake3 []
  | _ =>
      let hashes := map hash_file_entry sorted_files in
      (* [hashes[0]]: one hash is left, see calculate_hash_root *)
      hd [] (merkle_loop (length hashes) hashes)
  end.

Definition finalize (m : Manifest) : Manifest :=
  set_hash m (Some (ContentHash.to_hex (calculate_hash m))).

Definition verify (m : Manifest) : bool :=
  match manifest_hash m with
  | Some stored_hash => bool_decide (ContentHash.to_hex (calculate_hash m) = stored_hash)
  | None => false
  end.
End merkle.

(** [get_proof] always answers [None]. *)
Definition get_proof (m : Manifest) (file_path : string) : option (list (list byte)) := None.

Definition total_size (checked : bool) {E} (m : Manifest) : outcome E Z :=
  sum_u64 checked 0 (map fsize (files m)).

Definition file_count (m : Manifest) : Z := zlen (files m).

(** ** Differences *)

Record ManifestDiff := {
  added : list ManifestEntry;
  modified : list ManifestEntry;
  deleted : list ManifestEntry;
}.

(** [files.iter().map(|f| (f.path.clone(), f)).collect::<HashMap<_, _>>()]:
    the last entry of a path wins. *)
Definition file_map (fs : list ManifestEntry) : gmap string ManifestEntry :=
  foldl (λ m f, <[path f := f]> m) ∅ fs.

Section diff.
Context `{MapIter}.

Definition diff (self other : Manifest) : ManifestDiff :=
  let self_map := file_map (files self) in
  let other_map := file_map (files other) in
  let '(added, modified) :=
    foldl (λ '(added, modified) '(path, file),
      match self_map !! path with
      | None => (added ++ [file], modified)
      | Some self_file =>
          if decide (content_hash self_file ≠ content_hash file)
          then (added, modified ++ [file]) else (added, modified)
      end) ([], []) (map_iter other_map) in
  let deleted :=
    foldl (λ deleted '(path, file),
      match other_map !! path with
      | None => deleted ++ [file]
      | Some _ => deleted
      end) [] (map_iter self_map) in
  {| added := added; modified := modified; deleted := deleted |}.
End diff.

Definition has_changes (d : ManifestDiff) : bool :=
  negb (bool_decide (added d = [])) || negb (bool_decide (modified d = []))
  || negb (bool_decide (deleted d = [])).

Definition change_count (d : ManifestDiff) : Z :=
  zlen (added d) + zlen (modified d) + zlen (deleted d).

(** ** The merkle loop *)

Section merkle_lemmas.
Context `{Hex, Blake3}.
Implicit Types hs ks : list (list byte).

(** The inputs hashed by [hash_pairs], and by the whole loop. *)
Fixpoint pair_inputs hs : list (list byte) :=
  match hs with
  | [] => []
  | [h] => [h ++ h]
  | h1 :: h2 :: rest => (h1 ++ h2) :: pair_inputs rest
  end.
Fixpoint loop_inputs (fuel : nat) hs : list (list byte) :=
  match fuel with
  | O => []
  | S fuel =>
      if decide (1 < length hs)%nat then pair_inputs hs ++ loop_inputs fuel (hash_pairs hs)
      else []
  end.

(** Induction two hashes at a time. *)
Lemma pairs_ind (P : list (list byte) → Prop) :
  P [] → (∀ h, P [h]) → (∀ h1 h2 l, P l → P (h1 :: h2 :: l)) → ∀ l, P l.
Proof.
  intros H0' H1 H2.
  refine (fix go l := match l with [] => H0' | [h] => H1 h
                              | h1 :: h2 :: l' => H2 h1 h2 l' (go l') end).
Qed.

Lemma hash_pairs_inputs hs : hash_pairs hs = map blake3 (pair_inputs hs).
Proof. induction hs using pairs_ind; simpl; congruence. Qed.

Lemma hash_pairs_length hs : (2 * length (hash_pairs hs) ≤ length hs + 1)%nat
  ∧ (length hs ≤ 2 * length (hash_pairs hs))%nat.
Proof. induction hs using pairs_ind; simpl in *; lia. Qed.

Lemma hash_pairs_32 hs : Forall ContentHash.wf (hash_pairs hs).
Proof.
  rewrite hash_pairs_inputs. apply Forall_map, Forall_forall.
  intros. apply blake3_length.
Qed.

Lemma merkle_loop_one fuel hs : hs ≠ [] → (length hs ≤ fuel)%nat →
  ∃ h, merkle_loop fuel hs = [h].
Proof.
  revert hs. induction fuel as [|fuel IH]; intros hs Hne Hlen.
  { destruct hs; simpl in *; [done|lia]. }
  cbn [merkle_loop]. pose proof (hash_pairs_length hs). case_decide as Hd.
  - apply IH; [|lia]. intros E. rewrite E in *. simpl in *. lia.
  - destruct hs as [|h [|h' hs]]; simpl in *; [done|by exists h|lia].
Qed.

Lemma merkle_loop_32 fuel hs : Forall ContentHash.wf hs →
  Forall ContentHash.wf (merkle_loop fuel hs).
Proof.
  revert hs. induction fuel as [|fuel IH]; intros hs Hh; cbn [merkle_loop]; [done|].
  case_decide; [|done]. apply IH, hash_pairs_32.
Qed.

Lemma pair_inputs_inj hs ks : Forall ContentHash.wf hs → Forall ContentHash.wf ks →
  length hs = length ks → pair_inputs hs = pair_inputs ks → hs = ks.
Proof.
  unfold ContentHash.wf. revert ks.
  induction hs as [|h|h1 h2 hs IH] using pairs_ind; intros ks Hh Hk Hlen Heq.
  - by destruct ks.
  - destruct ks as [|k [|]]; try done. injection Heq as Heq.
    rewrite Forall_singleton in Hh, Hk.
    apply app_inj_1 in Heq as [-> _]; [done|by rewrite Hh, Hk].
  - destruct ks as [|k1 [|k2 ks]]; try done. rewrite !Forall_cons in Hh, Hk.
    destruct Hh as (Hh1&Hh2&?), Hk as (Hk1&Hk2&?).
    cbn [pair_inputs] in Heq. injection Heq as Heq1 Heq2.
    assert (h1 = k1 ∧ h2 = k2) as [-> ->].
    { apply app_inj_1; [by rewrite Hh1, Hk1|done]. }
    do 2 f_equal. apply IH; [done..| |done]. simpl in Hlen. lia.
Qed.

Lemma map_blake3_inj (l k : list (list byte)) : collision_free (l ++ k) →
  map blake3 l = map blake3 k → l = k.
Proof.
  revert k. induction l as [|a l IH]; intros [|b k] Hcf Heq; try done.
  injection Heq as Hab Heq. f_equal.
  - apply Hcf; [set_solver..|done].
  - apply IH; [|done]. eapply collision_free_sub; [|exact Hcf]. set_solver.
Qed.

Lemma merkle_loop_inj fuel hs ks : Forall ContentHash.wf hs → Forall ContentHash.wf ks →
  length hs = length ks → collision_free (loop_inputs fuel hs ++ loop_inputs fuel ks) →
  merkle_loop fuel hs = merkle_loop fuel ks → hs = ks.
Proof.
  revert hs ks. induction fuel as [|fuel IH]; intros hs ks Hh Hk Hlen Hcf Heq; [done|].
  cbn [merkle_loop loop_inputs] in *. rewrite Hlen in *. case_decide; [|done].
  assert (hash_pairs hs = hash_pairs ks) as E.
  { apply IH; try apply hash_pairs_32; [| |done].
    - clear -Hlen. revert ks Hlen. induction hs as [| |? ? ? IHh] using pairs_ind;
        intros [|? [|? ks]] Hl; try done. simpl. f_equal. apply IHh. by injection Hl.
    - eapply collision_free_sub; [|exact Hcf]. set_solver. }
  apply pair_inputs_inj; [done..|]. apply map_blake3_inj.
  - eapply collision_free_sub; [|exact Hcf]. set_solver.
  - by rewrite <-!hash_pairs_inputs.
Qed.

(** An odd level hashes its last element with itself. *)
Lemma hash_pairs_duplicate hs x : Nat.Even (length hs) →
  hash_pairs (hs ++ [x; x]) = hash_pairs (hs ++ [x]).
Proof.
  induction hs as [|h|h1 h2 hs IH] using pairs_ind; intros Hev; [done| |].
  - by apply Nat.even_spec in Hev.
  - simpl. f_equal. apply IH. apply Nat.even_spec in Hev. by apply Nat.even_spec.
Qed.

Lemma merkle_loop_fuel fuel fuel' hs : (length hs ≤ fuel)%nat → (length hs ≤ fuel')%nat →
  merkle_loop fuel hs = merkle_loop fuel' hs.
Proof.
  revert fuel' hs. induction fuel as [|fuel IH]; intros [|fuel'] hs Hf Hf';
    try (assert (hs = []) as -> by (destruct hs; simpl in *; [done|lia]);
         first [done | by destruct fuel | by destruct fuel']).
  cbn [merkle_loop]. case_decide; [|done]. pose proof (hash_pairs_length hs). apply IH; lia.
Qed.
End merkle_lemmas.

(** ** The root hash *)

Lemma path_leb_total x y : path_leb x y || path_leb y x = true.
Proof. apply string_leb_total. Qed.
Lemma path_leb_trans x y z : path_leb x y = true → path_leb y z = true → path_leb x z = true.
Proof. apply string_leb_trans. Qed.
Lemma sort_files_perm fs : sort_files fs ≡ₚ fs.
Proof. apply stable_sort_perm. Qed.

Lemma NoDup_path_inj fs x y : NoDup (map path fs) → x ∈ fs → y ∈ fs → path x = path y → x = y.
Proof.
  induction fs as [|f fs IH]; simpl; [set_solver|]. rewrite NoDup_cons, !elem_of_cons.
  intros [Hf Hnd] [->|Hx] [->|Hy] E; try done; [| |by apply IH].
  - destruct Hf. rewrite E. by apply list_elem_of_fmap_2.
  - destruct Hf. rewrite <-E. by apply list_elem_of_fmap_2.
Qed.

Lemma sort_files_unique fs gs : fs ≡ₚ gs → NoDup (map path fs) → sort_files fs = sort_files gs.
Proof.
  intros Hp Hnd. apply stable_sort_unique; eauto using path_leb_total, path_leb_trans.
  intros x y Hx Hy Hxy Hyx. eapply NoDup_path_inj; eauto.
  by apply String.leb_antisym.
Qed.

Lemma sort_files_sorted fs : StronglySorted path_leb fs → sort_files fs = fs.
Proof.
  induction 1 as [|f fs Hs IH Hf]; [done|]. unfold sort_files in *. simpl. rewrite IH.
  destruct fs as [|g fs]; [done|]. simpl. apply Forall_cons in Hf as [Hg _].
  apply Is_true_true in Hg. by rewrite Hg.
Qed.

Section root.
Context `{Hex, Blake3}.

Lemma calculate_hash_loop m : files m ≠ [] →
  let hs := map hash_file_entry (sort_files (files m)) in
  hs ≠ [] ∧ merkle_loop (length hs) hs = [calculate_hash m].
Proof.
  intros Hne hs. assert (sort_files (files m) ≠ []) as Hs.
  { intros E. apply Hne, Permutation_nil_r. by rewrite <-(sort_files_perm (files m)), E. }
  assert (hs ≠ []) as Hhs by (unfold hs; by destruct (sort_files (files m))).
  split; [done|]. destruct (merkle_loop_one (length hs) hs) as [h Hh]; [done..|].
  rewrite Hh. f_equal. unfold calculate_hash. fold hs. rewrite Hh.
  by destruct (sort_files (files m)).
Qed.

Lemma leaves_wf (fs : list ManifestEntry) : Forall ContentHash.wf (map hash_file_entry fs).
Proof. apply Forall_map, Forall_forall. intros. apply blake3_length. Qed.

Lemma calculate_hash_wf m : ContentHash.wf (calculate_hash m).
Proof.
  destruct (decide (files m = [])) as [E|Hne].
  { unfold calculate_hash. rewrite E. apply blake3_length. }
  destruct (calculate_hash_loop m Hne) as [_ Hl].
  apply Forall_singleton. rewrite <-Hl. apply merkle_loop_32, leaves_wf.
Qed.

(** Every input hashed while computing the root. *)
Definition root_inputs (fs : list ManifestEntry) : list (list byte) :=
  map leaf_bytes fs ++ loop_inputs (length fs) (map hash_file_entry fs).

Lemma leaves_inj (fs gs : list ManifestEntry) :
  length fs = length gs → collision_free (root_inputs fs ++ root_inputs gs) →
  merkle_loop (length fs) (map hash_file_entry fs)
    = merkle_loop (length fs) (map hash_file_entry gs) →
  map leaf_bytes fs = map leaf_bytes gs.
Proof.
  intros Hlen Hcf Hl. apply map_blake3_inj.
  { eapply collision_free_sub; [|exact Hcf]. unfold root_inputs. set_solver. }
  rewrite !map_map. apply (merkle_loop_inj (length fs)); auto using leaves_wf.
  { by rewrite !length_map. }
  eapply collision_free_sub; [|exact Hcf]. unfold root_inputs. rewrite <-Hlen. set_solver.
Qed.
End root.

(** ** What the leaf hash covers *)

(** The fields have the widths of their Rust types and the hashes are the
    hexadecimal form of 32 bytes. *)
Definition entry_wf `{Hex} (f : ManifestEntry) : Prop :=
  0 ≤ fsize f < 2 ^ 64 ∧ length (decode_or_zero (content_hash f)) = 32%nat ∧
  0 ≤ default 0 (mode f) < 2 ^ 32 ∧
  - 2 ^ 63 ≤ timestamp (modified_at f) < 2 ^ 63 ∧
  Forall (λ h, length (decode_or_zero h) = 32%nat) (chunk_hashes f).
#[export] Instance entry_wf_dec `{Hex} f : Decision (entry_wf f).
Proof. unfold entry_wf. apply _. Defined.

(** Equality up to what the hash ignores: fractions of a second, a missing
    mode against mode 0, and the spelling of the hexadecimal hashes. *)
Definition same_entry `{Hex} (f g : ManifestEntry) : Prop :=
  path f = path g ∧ fsize f = fsize g ∧
  decode_or_zero (content_hash f) = decode_or_zero (content_hash g) ∧
  default 0 (mode f) = default 0 (mode g) ∧
  timestamp (modified_at f) = timestamp (modified_at g) ∧
  map decode_or_zero (chunk_hashes f) = map decode_or_zero (chunk_hashes g).

Lemma le_bytes_inj n a b : le_bytes n a = le_bytes n b →
  wrap (8 * Z.of_nat n) a = wrap (8 * Z.of_nat n) b.
Proof. intros E. by rewrite <-!le_value_bytes, E. Qed.

Lemma le_bytes_8_signed_inj a b : - 2 ^ 63 ≤ a < 2 ^ 63 → - 2 ^ 63 ≤ b < 2 ^ 63 →
  le_bytes 8 a = le_bytes 8 b → a = b.
Proof. intros Ha Hb E%le_bytes_inj. unfold wrap in E. change (8 * Z.of_nat 8) with 64 in E.
  Z.to_euclidean_division_equations. lia. Qed.

Lemma le_bytes_unsigned_inj n a b : 0 ≤ a < 2 ^ (8 * Z.of_nat n) →
  0 ≤ b < 2 ^ (8 * Z.of_nat n) → le_bytes n a = le_bytes n b → a = b.
Proof. intros Ha Hb E%le_bytes_inj. by rewrite !wrap_small in E. Qed.

Lemma concat_32_inj (l k : list (list byte)) :
  Forall (λ h, length h = 32%nat) l → Forall (λ h, length h = 32%nat) k →
  concat l = concat k → l = k.
Proof.
  intros Hl. revert k. induction Hl as [|h l Hh Hl IH]; intros k Hk E.
  - destruct Hk as [|h k Hh Hk]; [done|]. simpl in E. by destruct h.
  - destruct Hk as [|h' k Hh' Hk]; simpl in E; [by destruct h|].
    apply app_inj_1 in E as [-> E]; [|by rewrite Hh, Hh']. f_equal. by apply IH.
Qed.

Lemma leaf_bytes_inj `{Hex} f g : entry_wf f → entry_wf g → path f = path g →
  leaf_bytes f = leaf_bytes g → same_entry f g.
Proof.
  intros (Hs&Hc&Hm&Ht&Hk) (Hs'&Hc'&Hm'&Ht'&Hk') Hp E. unfold leaf_bytes in E.
  rewrite Hp in E. apply app_inv_head in E.
  apply app_inj_1 in E as [Es E]; [|by rewrite !le_bytes_length].
  apply app_inj_1 in E as [Ec E]; [|by rewrite Hc, Hc'].
  assert (∀ o, match o with Some m => le_bytes 4 m | None => repeat x00 4 end
               = le_bytes 4 (default 0 o)) as Emode by (by intros [?|]).
  rewrite !Emode in E.
  apply app_inj_1 in E as [Em E]; [|by rewrite !le_bytes_length].
  apply app_inj_1 in E as [Et E]; [|by rewrite !le_bytes_length].
  split_and!; [done| | done | | | ].
  - by apply (le_bytes_unsigned_inj 8).
  - by apply (le_bytes_unsigned_inj 4).
  - by apply le_bytes_8_signed_inj.
  - apply concat_32_inj; [by apply Forall_map..|done].
Qed.

Lemma leaf_bytes_inj_list `{Hex} fs gs : Forall entry_wf fs → Forall entry_wf gs →
  map path fs = map path gs → map leaf_bytes fs = map leaf_bytes gs →
  Forall2 same_entry fs gs.
Proof.
  intros Hf. revert gs. induction Hf as [|f fs Hf Hfs IH]; intros [|g gs] Hg Hp Hl; try done.
  apply Forall_cons in Hg as [Hg Hgs].
  injection Hp as Hp Hps. pose proof (f_equal (hd []) Hl) as Hh. apply (f_equal tail) in Hl.
  constructor; [by apply leaf_bytes_inj|by apply IH].
Qed.

Lemma sorted_duplicate_last l x :
  StronglySorted path_leb (l ++ [x]) → StronglySorted path_leb (l ++ [x; x]).
Proof.
  rewrite !StronglySorted_app. intros (Hx & Hl & _). split_and!; [set_solver|done|].
  repeat constructor. apply Is_true_true. unfold path_leb.
  pose proof (string_leb_total (path x) (path x)) as Ht. by rewrite orb_diag in Ht.
Qed.

Lemma root_duplicate_last `{Hex, Blake3} l x : l ≠ [] → Nat.Even (length l) →
  let root fs := match fs with [] => blake3 []
    | _ => hd [] (merkle_loop (length (map hash_file_entry fs)) (map hash_file_entry fs)) end in
  root (l ++ [x; x]) = root (l ++ [x]).
Proof.
  intros Hne Hev root. unfold root. destruct l as [|f l]; [done|].
  set (fs := f :: l) in *. clearbody fs. destruct (fs ++ [x; x]) eqn:E1; [by destruct fs|].
  destruct (fs ++ [x]) eqn:E2; [by destruct fs|]. rewrite <-E1, <-E2. f_equal.
  rewrite (merkle_loop_fuel _ (S (length fs + 2)) (map _ (fs ++ [x; x])))
    by (rewrite length_map, ?length_app; simpl; lia).
  rewrite (merkle_loop_fuel _ (S (length fs + 2)) (map _ (fs ++ [x])))
    by (rewrite length_map, ?length_app; simpl; lia).
  cbn [merkle_loop]. rewrite !length_map, !length_app. simpl.
  destruct fs as [|g fs]; [done|]. rewrite !decide_True by (simpl; lia).
  f_equal. rewrite !map_app. apply hash_pairs_duplicate. by rewrite length_map.
Qed.

(** ** Properties of the root *)

Section properties.
Context `{Hex, Blake3}.

(** A manifest that was just finalized verifies, its hash is the
    hexadecimal form of 32 bytes, finalizing again changes nothing, and the
    order in which the files were added does not matter when their paths are
    distinct. *)
Theorem finalize_verifies m :
  verify (finalize m) = true ∧
  (∃ h, ContentHash.wf h ∧ manifest_hash (finalize m) = Some (hex_encode h)) ∧
  finalize (finalize m) = finalize m ∧
  ∀ fs, fs ≡ₚ files m → NoDup (map path fs) →
    manifest_hash (finalize (set_files m fs)) = manifest_hash (finalize m).
Proof.
  split_and!.
  - unfold verify, finalize. simpl. by apply bool_decide_eq_true.
  - exists (calculate_hash m). split; [apply calculate_hash_wf|done].
  - done.
  - intros fs Hp Hnd. unfold finalize, calculate_hash. simpl.
    by rewrite (sort_files_unique fs (files m)).
Qed.

(** C8: A manifest that verifies against the hash of a finalized manifest
    listing the same paths has the same entries (up to fractions of a second,
    a missing mode against mode 0, and the spelling of the hashes), as long as
    BLAKE3 has no collision among the inputs hashed. *)
Theorem verify_binds_entries m m' :
  Forall entry_wf (files m) → Forall entry_wf (files m') →
  map path (sort_files (files m)) = map path (sort_files (files m')) →
  collision_free (root_inputs (sort_files (files m))
                  ++ root_inputs (sort_files (files m'))) →
  verify (set_hash m' (manifest_hash (finalize m))) = true →
  Forall2 same_entry (sort_files (files m)) (sort_files (files m')).
Proof.
  intros Hm Hm' Hp Hcf Hv. unfold verify in Hv. simpl in Hv.
  apply bool_decide_eq_true, hex_encode_inj in Hv.
  change (calculate_hash m' = calculate_hash m) in Hv.
  assert (length (sort_files (files m)) = length (sort_files (files m'))) as Hlen.
  { apply (f_equal length) in Hp. by rewrite !length_map in Hp. }
  apply leaf_bytes_inj_list; [by rewrite sort_files_perm..|done|].
  destruct (decide (files m = [])) as [E|Hne].
  { rewrite E in *. by destruct (sort_files (files m')). }
  assert (files m' ≠ []) as Hne'.
  { intros E. apply Hne, Permutation_nil_r. rewrite <-(sort_files_perm (files m)).
    rewrite E in Hlen. simpl in Hlen. by destruct (sort_files (files m)). }
  destruct (calculate_hash_loop m Hne) as [_ L], (calculate_hash_loop m' Hne') as [_ L'].
  rewrite length_map in L, L'. rewrite <-Hlen in L'.
  apply leaves_inj; [done..|]. by rewrite L, L', Hv.
Qed.

(** The root does not determine the number of files: with an odd number
    of files, of which the last in path order is listed once more, the root
    is the same, since an odd level repeats its last hash. *)
Theorem duplicate_last_same_root m l x :
  files m = l ++ [x] → StronglySorted path_leb (files m) →
  l ≠ [] → Nat.Even (length l) →
  calculate_hash (add_file m x) = calculate_hash m.
Proof.
  intros Hf Hs Hne Hev. rewrite Hf in Hs.
  assert (StronglySorted path_leb (l ++ [x; x])) as Hs' by by apply sorted_duplicate_last.
  unfold calculate_hash, add_file, set_files. simpl. rewrite Hf, <-app_assoc. simpl.
  rewrite !sort_files_sorted by done.
  by apply root_duplicate_last.
Qed.
End properties.

(** The leaf hash does not determine the path: its fields are hashed without
    separators, so two well-formed entries with different paths can have the
    same leaf hash, whatever the hash function. *)
Theorem leaf_hash_ambiguous `{Hex, Blake3} :
  ∃ f g, entry_wf f ∧ entry_wf g ∧ path f ≠ path g ∧ hash_file_entry f = hash_file_entry g.
Proof.
  set (a32 := repeat x61 32). set (z32 := repeat x00 32).
  assert (∀ bs, decode_or_zero (hex_encode bs) = bs) as Hd.
  { intros bs. unfold decode_or_zero. by rewrite hex_decode_encode. }
  exists {| path := "a"; fsize := le_value (repeat x61 8); modified_at := 0;
            content_hash := hex_encode a32; chunk_hashes := [hex_encode z32]; mode := None |},
         {| path := String.string_of_list_byte (repeat x61 33); fsize := le_value (repeat x61 8);
            modified_at := 0; content_hash := hex_encode z32; chunk_hashes := []; mode := None |}.
  assert (∀ p bs cs, length bs = 32%nat → Forall (λ h, length (decode_or_zero h) = 32%nat) cs →
    entry_wf {| path := p; fsize := le_value (repeat x61 8); modified_at := 0;
       content_hash := hex_encode bs; chunk_hashes := cs; mode := None |}) as Hwf.
  { intros p bs cs Hbs Hcs. unfold entry_wf. simpl. rewrite Hd.
    repeat (split; [done|]). done. }
  split; [apply Hwf; [done|]; repeat constructor; by rewrite Hd|].
  split; [apply Hwf; [done|constructor]|]. split; [done|].
  unfold hash_file_entry, leaf_bytes.
  cbn [path fsize modified_at content_hash chunk_hashes mode map]. by rewrite !Hd.
Qed.

(** ** Properties of [diff] *)

(** A client that applies a difference to its files. *)
Definition put_files (m : gmap string ManifestEntry) (fs : list ManifestEntry) :
  gmap string ManifestEntry := foldl (λ m f, <[path f := f]> m) m fs.
Definition apply_diff (d : ManifestDiff) (m : gmap string ManifestEntry) :
  gmap string ManifestEntry :=
  put_files (foldl (λ m f, delete (path f) m) m (deleted d)) (added d ++ modified d).

Lemma put_files_other m fs p : (∀ f, f ∈ fs → path f ≠ p) → put_files m fs !! p = m !! p.
Proof.
  unfold put_files. revert m. induction fs as [|f fs IH]; intros m Hf; [done|]. simpl.
  rewrite IH by set_solver. apply lookup_insert_ne. set_solver.
Qed.
Lemma put_files_Some m fs g : g ∈ fs → (∀ f, f ∈ fs → path f = path g → f = g) →
  put_files m fs !! path g = Some g.
Proof.
  unfold put_files. revert m. induction fs as [|f fs IH]; intros m Hg Hf; [set_solver|]. simpl.
  destruct (decide (g ∈ fs)) as [Hin|Hnin].
  { apply IH; [done|]. intros. apply Hf; [set_solver|done]. }
  assert (g = f) as <- by set_solver.
  change (put_files (<[path g := g]> m) fs !! path g = Some g). rewrite put_files_other.
  - apply lookup_insert_eq.
  - intros h Hh E. apply Hnin. rewrite <-(Hf h); [done|set_solver|done].
Qed.
Lemma remove_files_lookup m fs p :
  foldl (λ (m : gmap string ManifestEntry) f, delete (path f) m) m fs !! p
  = if decide (Exists (λ f, path f = p) fs) then None else m !! p.
Proof.
  revert m. induction fs as [|f fs IH]; intros m; cbn [foldl].
  { case_decide as Hex; [by apply Exists_nil in Hex|done]. }
  rewrite IH. clear IH. assert (delete (path f) m !! p = if decide (path f = p) then None else m !! p) as ->.
  { case_decide; subst; by rewrite ?lookup_delete_eq, ?lookup_delete_ne. }
  repeat case_decide; try done; rewrite Exists_cons in *; tauto.
Qed.

Lemma file_map_path fs p f : file_map fs !! p = Some f → path f = p ∧ f ∈ fs.
Proof.
  assert (∀ m, (∀ p f, m !! p = Some f → path f = p ∧ f ∈ fs) →
    ∀ gs, gs ⊆ fs → ∀ p f, put_files m gs !! p = Some f → path f = p ∧ f ∈ fs) as Hgen.
  { intros m Hm gs. revert m Hm. induction gs as [|g gs IH]; intros m Hm Hgs; [done|].
    apply (IH (<[path g := g]> m)); [|set_solver]. intros p' f'. destruct (decide (path g = p')) as [<-|].
    - rewrite lookup_insert_eq. intros [= <-]. set_solver.
    - rewrite lookup_insert_ne by done. apply Hm. }
  apply (Hgen ∅); [|done]. intros ??. by rewrite lookup_empty.
Qed.

Section diff_properties.
Context `{MapIter}.
Implicit Types self other : Manifest.

Lemma diff_upserts self other :
  (∀ f, f ∈ added (diff self other) ↔ ∃ p,
    file_map (files other) !! p = Some f ∧ file_map (files self) !! p = None) ∧
  (∀ f, f ∈ modified (diff self other) ↔ ∃ p g,
    file_map (files other) !! p = Some f ∧ file_map (files self) !! p = Some g ∧
    content_hash g ≠ content_hash f).
Proof.
  unfold diff. setoid_rewrite <-(elem_of_map_iter (file_map (files other))).
  assert (∀ l a b a' b', foldl (λ '(added, modified) '(path, file),
      match file_map (files self) !! path with
      | None => (added ++ [file], modified)
      | Some self_file =>
          if decide (content_hash self_file ≠ content_hash file)
          then (added, modified ++ [file]) else (added, modified)
      end) (a, b) l = (a', b') →
    (∀ f, f ∈ a' ↔ f ∈ a ∨ ∃ p, (p, f) ∈ l ∧ file_map (files self) !! p = None) ∧
    (∀ f, f ∈ b' ↔ f ∈ b ∨ ∃ p g, (p, f) ∈ l ∧ file_map (files self) !! p = Some g ∧
      content_hash g ≠ content_hash f)) as Hgen.
  { induction l as [|[p f] l IH]; intros a b a' b'; simpl.
    { intros [= <- <-]. set_solver. }
    destruct (file_map (files self) !! p) as [g|] eqn:E; [case_decide|];
      intros [Ha Hb]%IH; setoid_rewrite Ha; setoid_rewrite Hb; set_solver. }
  destruct (foldl _ ([], []) _) as [a b] eqn:E. apply Hgen in E as [Ha Hb]. simpl.
  setoid_rewrite Ha. setoid_rewrite Hb. set_solver.
Qed.

Lemma diff_deleted self other f : f ∈ deleted (diff self other) ↔ ∃ p,
  file_map (files self) !! p = Some f ∧ file_map (files other) !! p = None.
Proof.
  unfold diff. destruct (foldl _ ([], []) _) as [a b]. cbn [deleted].
  setoid_rewrite <-(elem_of_map_iter (file_map (files self))).
  assert (∀ l acc, f ∈ foldl (λ deleted '(path, file),
      match file_map (files other) !! path with
      | None => deleted ++ [file] | Some _ => deleted end) acc l ↔
    f ∈ acc ∨ ∃ p, (p, f) ∈ l ∧ file_map (files other) !! p = None) as Hgen.
  { induction l as [|[p g] l IH]; intros acc; simpl; [set_solver|].
    rewrite IH. destruct (file_map (files other) !! p) eqn:E; set_solver. }
  rewrite Hgen. set_solver.
Qed.

(** A difference upserts, for a path, exactly the other manifest's entry. *)
Lemma diff_upserts_path self other p :
  let d := diff self other in
  match file_map (files other) !! p with
  | None => ∀ f, f ∈ added d ++ modified d → path f ≠ p
  | Some f =>
      (∀ f', f' ∈ added d ++ modified d → path f' = p → f' = f) ∧
      (f ∈ added d ++ modified d ∨
       ∃ g, file_map (files self) !! p = Some g ∧ content_hash g = content_hash f ∧
            ∀ f', f' ∈ added d ++ modified d → path f' ≠ p)
  end.
Proof.
  intros d. destruct (diff_upserts self other) as [Ha Hm]. fold d in Ha, Hm.
  assert (∀ f', f' ∈ added d ++ modified d →
    file_map (files other) !! path f' = Some f') as Hin.
  { intros f' [Hf|Hf]%elem_of_app.
    - apply Ha in Hf as (q & Hq & _). by destruct (file_map_path _ _ _ Hq) as [<- _].
    - apply Hm in Hf as (q & g & Hq & _). by destruct (file_map_path _ _ _ Hq) as [<- _]. }
  destruct (file_map (files other) !! p) as [f|] eqn:Ep.
  2: { intros f Hf <-. by rewrite Hin in Ep. }
  split. { intros f' Hf' <-. apply Hin in Hf'. congruence. }
  destruct (file_map (files self) !! p) as [g|] eqn:Es.
  - destruct (decide (content_hash g = content_hash f)) as [E|Hne].
    + right. exists g. split_and!; [done..|]. intros f' Hf'. destruct (file_map_path _ _ _ Ep).
      intros <-. pose proof (Hin _ Hf') as Hf. apply elem_of_app in Hf' as [Hf'|Hf'].
      * apply Ha in Hf' as (q & Hq & Hs). destruct (file_map_path _ _ _ Hq) as [<- _]. congruence.
      * apply Hm in Hf' as (q & g' & Hq & Hs & Hc).
        destruct (file_map_path _ _ _ Hq) as [<- _]. congruence.
    + left. apply elem_of_app. right. apply Hm. eauto 10.
  - left. apply elem_of_app. left. apply Ha. eauto.
Qed.

(** Applying the difference computed by [diff] to the files of [self]
    gives, at every path, the content of [other], whatever the order in which
    the maps are iterated; the difference is empty exactly when the two
    manifests already list the same contents. *)
Theorem diff_transforms self other :
  let d := diff self other in
  (∀ p, content_hash <$> apply_diff d (file_map (files self)) !! p
        = content_hash <$> file_map (files other) !! p) ∧
  (has_changes d = false ↔ ∀ p, content_hash <$> file_map (files self) !! p
                                = content_hash <$> file_map (files other) !! p).
Proof.
  intros d. assert (∀ p, content_hash <$> apply_diff d (file_map (files self)) !! p
        = content_hash <$> file_map (files other) !! p) as Happ.
  { intros p. unfold apply_diff. pose proof (diff_upserts_path self other p) as Hu. cbn zeta in Hu.
    fold d in Hu. destruct (file_map (files other) !! p) as [f|] eqn:Ep.
    - destruct Hu as [Hu [Hf|(g & Hs & Hc & Hno)]].
      + destruct (file_map_path _ _ _ Ep) as [<- _]. by rewrite (put_files_Some _ _ f).
      + rewrite put_files_other, remove_files_lookup by done.
        rewrite decide_False, Hs; [by simpl; rewrite Hc|].
        rewrite Exists_exists. intros (f' & Hf' & <-).
        apply diff_deleted in Hf' as (q & Hq & Ho).
        destruct (file_map_path _ _ _ Hq) as [<- _]. congruence.
    - rewrite put_files_other, remove_files_lookup by done. case_decide as Hd; [done|].
      destruct (file_map (files self) !! p) as [g|] eqn:Es; [|done]. destruct Hd.
      rewrite Exists_exists. exists g. destruct (file_map_path _ _ _ Es).
      split; [|done]. apply diff_deleted. eauto. }
  split; [done|]. split.
  - unfold has_changes. rewrite !orb_false_iff, !negb_false_iff, !bool_decide_eq_true.
    intros [[Ha Hm] Hd] p. rewrite <-Happ. unfold apply_diff. by rewrite Ha, Hm, Hd.
  - intros Hp. unfold has_changes.
    destruct (diff_upserts self other) as [Ha Hm]. fold d in Ha, Hm.
    rewrite !orb_false_iff, !negb_false_iff, !bool_decide_eq_true.
    split_and!; apply elem_of_nil_inv; intros f Hf.
    + apply Ha in Hf as (p & Ho & Hs). specialize (Hp p). by rewrite Ho, Hs in Hp.
    + apply Hm in Hf as (p & g & Ho & Hs & Hc). specialize (Hp p). rewrite Ho, Hs in Hp.
      by injection Hp.
    + apply diff_deleted in Hf as (p & Hs & Ho). specialize (Hp p). by rewrite Ho, Hs in Hp.
Qed.
End diff_properties.

(** ** Concrete inputs *)

Module Examples.
#[local] Existing Instance RefHash.hex.
#[local] Existing Instance RefHash.hash.

Definition entry (p : string) (b : byte) (md : option Z) : ManifestEntry :=
  {| path := p; fsize := 100; modified_at := 1700000000500000000;
     content_hash := hex_encode (repeat b 32); chunk_hashes := [];
     mode := md |}.
Definition m1 : Manifest :=
  add_file (add_file (new 0 "test" 1) (entry "b" x01 (Some 420))) (entry "a" x02 None).
Definition m2 : Manifest :=
  add_file (add_file (new 7 "test" 2) (entry "a" x02 (Some 0))) (entry "b" x01 (Some 420)).
Definition m3 : Manifest := new 0 "test" 1.

Lemma verify_binds_entries_witness :
  manifest_hash (finalize m1) ≠ manifest_hash (finalize m3) ∧
  Forall2 same_entry (sort_files (files m1)) (sort_files (files m2)).
Proof.
  split; [by vm_compute|]. apply verify_binds_entries.
  - apply (bool_decide_unpack _). by vm_compute.
  - apply (bool_decide_unpack _). by vm_compute.
  - by vm_compute.
  - apply collision_free_check. by vm_compute.
  - by vm_compute.
Defined.

Lemma duplicate_last_same_root_witness :
  let m := set_files m1 [entry "a" x01 None; entry "b" x02 None; entry "c" x03 None] in
  calculate_hash (add_file m (entry "c" x03 None)) = calculate_hash m.
Proof.
  intros m. apply (duplicate_last_same_root m [entry "a" x01 None; entry "b" x02 None]).
  - reflexivity.
  - repeat constructor.
  - discriminate.
  - by exists 1%nat.
Defined.
End Examples.
