(* ===== verification/Diff.v ===== *)
(** Manifest differences and incremental sync: landro-sync/src/diff.rs.

    [compute_diff] with its statistics and priorities, the merkle proof built
    for large manifests, and the per-peer tracker [IncrementalDiff]. *)

From S2P Require Import Prelude Bytes Manifest.
From stdpp Require Import base option list gmap sets strings numbers sorting.
From Stdlib Require Import Init.Byte Strings.Byte Strings.Ascii ZArith Lia.
Open Scope Z_scope.

Inductive ChangeType := Added | Modified | Deleted | MetadataOnly.
#[export] Instance ChangeType_eq_dec : EqDecision ChangeType.
Proof. solve_decision. Defined.

Record FileChange := {
  change_path : string;
  change_type : ChangeType;
  source_entry : option ManifestEntry;
  target_entry : option ManifestEntry;
  required_chunks : list string;
  transfer_size : Z;
}.

Definition requires_transfer (c : FileChange) : bool :=
  negb (bool_decide (required_chunks c = [])).

Definition priority (c : FileChange) : Z :=
  match change_type c with
  | Modified => 100
  | Added => if transfer_size c <? 1000000 then 80 else 50
  | MetadataOnly => 20
  | Deleted => 10
  end.

Record DiffStats := {
  files_added : Z;
  files_modified : Z;
  files_deleted : Z;
  files_metadata_only : Z;
  bytes_to_add : Z;
  bytes_to_modify : Z;
  bytes_to_delete : Z;
  total_chunks : Z;
  unique_chunks : Z;
}.

Definition DiffStats_default : DiffStats :=
  {| files_added := 0; files_modified := 0; files_deleted := 0; files_metadata_only := 0;
     bytes_to_add := 0; bytes_to_modify := 0; bytes_to_delete := 0;
     total_chunks := 0; unique_chunks := 0 |}.

Record MerkleProof := {
  root : list byte;
  subtree_hashes : list (list byte);
  depth : Z;
}.

Record DiffResult := {
  changes : list FileChange;
  total_transfer_size : Z;
  all_required_chunks : gset string;
  stats : DiffStats;
  merkle_proof : option MerkleProof;
}.

(** [DiffResult::has_changes] and [DiffResult::changes_by_type]. *)
Definition diff_has_changes (d : DiffResult) : bool := negb (bool_decide (changes d = [])).
Definition changes_by_type (d : DiffResult) (ty : ChangeType) : list FileChange :=
  filter (λ c, change_type c = ty) (changes d).

(** [b.priority().cmp(&a.priority()).then_with(|| a.transfer_size.cmp(..))],
    as the test that [a] does not come after [b]. *)
Definition change_leb (a b : FileChange) : bool :=
  (priority b <? priority a)
  || ((priority b =? priority a) && (transfer_size a <=? transfer_size b)).

Definition prioritize_changes (d : DiffResult) : DiffResult :=
  {| changes := stable_sort change_leb (changes d);
     total_transfer_size := total_transfer_size d;
     all_required_chunks := all_required_chunks d;
     stats := stats d; merkle_proof := merkle_proof d |}.

(** ** [DiffComputer] *)

Record DiffComputer := {
  chunk_cache : gset string;
  enable_merkle_proofs : bool;
  max_merkle_depth : Z;
}.

Definition DiffComputer_new (chunk_cache : gset string) : DiffComputer :=
  {| chunk_cache := chunk_cache; enable_merkle_proofs := true; max_merkle_depth := 10 |}.

Definition find_required_chunks (self : DiffComputer) (entry : ManifestEntry) : list string :=
  filter (λ hash, hash ∉ chunk_cache self) (chunk_hashes entry).

Definition compute_chunk_diff (self : DiffComputer) (source target : ManifestEntry) : list string :=
  let source_chunks : gset string := list_to_set (chunk_hashes source) in
  filter (λ hash, hash ∉ source_chunks ∧ hash ∉ chunk_cache self) (chunk_hashes target).

Definition AVERAGE_CHUNK_SIZE : Z := 512 * 1024.

Definition calculate_transfer_size (checked : bool) {E} (chunk_hashes : list string) : outcome E Z :=
  arith checked 64 (zlen chunk_hashes * AVERAGE_CHUNK_SIZE).

(** The mutable variables of the two loops of [compute_diff]. *)
Record Acc := {
  acc_changes : list FileChange;
  acc_required : gset string;
  acc_stats : DiffStats;
}.

Definition push_change (s : Acc) (c : FileChange) (st : DiffStats) : Acc :=
  {| acc_changes := acc_changes s ++ [c];
     acc_required := acc_required s ∪ list_to_set (required_chunks c);
     acc_stats := st |}.

(** The counters are [usize] and count entries held in memory, so they do not
    overflow; the byte totals are [u64] sums of sizes found in manifests. *)
Definition stat_added (checked : bool) {E} (st : DiffStats) (n : Z) : outcome E DiffStats :=
  bytes ← arith checked 64 (bytes_to_add st + n);
  mret {| files_added := files_added st + 1; files_modified := files_modified st;
     files_deleted := files_deleted st; files_metadata_only := files_metadata_only st;
     bytes_to_add := bytes; bytes_to_modify := bytes_to_modify st;
     bytes_to_delete := bytes_to_delete st;
     total_chunks := total_chunks st; unique_chunks := unique_chunks st |}.
Definition stat_modified (checked : bool) {E} (st : DiffStats) (n : Z) : outcome E DiffStats :=
  bytes ← arith checked 64 (bytes_to_modify st + n);
  mret {| files_added := files_added st; files_modified := files_modified st + 1;
     files_deleted := files_deleted st; files_metadata_only := files_metadata_only st;
     bytes_to_add := bytes_to_add st; bytes_to_modify := bytes;
     bytes_to_delete := bytes_to_delete st;
     total_chunks := total_chunks st; unique_chunks := unique_chunks st |}.
Definition stat_deleted (checked : bool) {E} (st : DiffStats) (n : Z) : outcome E DiffStats :=
  bytes ← arith checked 64 (bytes_to_delete st + n);
  mret {| files_added := files_added st; files_modified := files_modified st;
     files_deleted := files_deleted st + 1; files_metadata_only := files_metadata_only st;
     bytes_to_add := bytes_to_add st; bytes_to_modify := bytes_to_modify st;
     bytes_to_delete := bytes;
     total_chunks := total_chunks st; unique_chunks := unique_chunks st |}.
Definition stat_metadata (st : DiffStats) : DiffStats :=
  {| files_added := files_added st; files_modified := files_modified st;
     files_deleted := files_deleted st; files_metadata_only := files_metadata_only st + 1;
     bytes_to_add := bytes_to_add st; bytes_to_modify := bytes_to_modify st;
     bytes_to_delete := bytes_to_delete st;
     total_chunks := total_chunks st; unique_chunks := unique_chunks st |}.
Definition stat_chunks (st : DiffStats) (total unique : Z) : DiffStats :=
  {| files_added := files_added st; files_modified := files_modified st;
     files_deleted := files_deleted st; files_metadata_only := files_metadata_only st;
     bytes_to_add := bytes_to_add st; bytes_to_modify := bytes_to_modify st;
     bytes_to_delete := bytes_to_delete st;
     total_chunks := total; unique_chunks := unique |}.

Section compute.
Context `{Hex, Blake3, MapIter} (checked : bool) {E : Type}.

(** The body of the loop over [target_map]. *)
Definition visit_target (self : DiffComputer) (source_map : gmap string ManifestEntry)
    (s : Acc) (item : string * ManifestEntry) : outcome E Acc :=
  let '(path, target_entry) := item in
  match source_map !! path with
  | None =>
      let required := find_required_chunks self target_entry in
      transfer_size ← calculate_transfer_size checked required;
      st ← stat_added checked (acc_stats s) (fsize target_entry);
      mret (push_change s
        {| change_path := path; change_type := Added; source_entry := None;
           target_entry := Some target_entry; required_chunks := required;
           transfer_size := transfer_size |} st)
  | Some source_entry =>
      if decide (content_hash source_entry ≠ content_hash target_entry) then
        let required := compute_chunk_diff self source_entry target_entry in
        transfer_size ← calculate_transfer_size checked required;
        if decide (required = [] ∧ fsize source_entry = fsize target_entry) then
          mret (push_change s
            {| change_path := path; change_type := MetadataOnly;
               source_entry := Some source_entry; target_entry := Some target_entry;
               required_chunks := []; transfer_size := 0 |} (stat_metadata (acc_stats s)))
        else
          st ← stat_modified checked (acc_stats s) (fsize target_entry);
          mret (push_change s
            {| change_path := path; change_type := Modified;
               source_entry := Some source_entry; target_entry := Some target_entry;
               required_chunks := required; transfer_size := transfer_size |} st)
      else mret s
  end.

(** The body of the loop over [source_map]. *)
Definition visit_source (target_map : gmap string ManifestEntry)
    (s : Acc) (item : string * ManifestEntry) : outcome E Acc :=
  let '(path, source_entry) := item in
  match target_map !! path with
  | None =>
      st ← stat_deleted checked (acc_stats s) (fsize source_entry);
      mret (push_change s
        {| change_path := path; change_type := Deleted; source_entry := Some source_entry;
           target_entry := None; required_chunks := []; transfer_size := 0 |} st)
  | Some _ => mret s
  end.

(** [file.path.split('/').next()]. *)
Fixpoint first_component (s : string) : string :=
  match s with
  | EmptyString => EmptyString
  | String c s => if decide (c = "/"%char) then EmptyString else String c (first_component s)
  end.

Definition compute_subtree_hashes (manifest : Manifest) : list (list byte) :=
  let subtrees : gmap string (list ManifestEntry) :=
    foldl (λ subtrees file,
      let subtree_key := first_component (path file) in
      <[subtree_key := default [] (subtrees !! subtree_key) ++ [file]]> subtrees)
      ∅ (files manifest) in
  map (λ '(_, files),
    blake3 (concat (map (λ file,
      as_bytes (path file) ++ le_bytes 8 (fsize file) ++ as_bytes (content_hash file)) files)))
    (map_iter subtrees).

(** [(file_count as f64).log2().ceil() as u32], cut off at the maximum: the
    logarithm is negative infinity for 0, which is cast to 0. *)
Definition calculate_tree_depth (self : DiffComputer) (file_count : Z) : Z :=
  Z.min (Z.log2_up file_count) (max_merkle_depth self).

Definition compute_merkle_proof (self : DiffComputer) (source target : Manifest) :
    option MerkleProof :=
  if (zlen (files source) <? 100) && (zlen (files target) <? 100) then None
  else
    let source_root := calculate_hash source in
    let target_root := calculate_hash target in
    if decide (source_root = target_root) then None
    else Some {| root := target_root; subtree_hashes := compute_subtree_hashes target;
                 depth := calculate_tree_depth self (zlen (files target)) |}.

Definition compute_diff (self : DiffComputer) (source target : Manifest) : outcome E DiffResult :=
  let source_map := file_map (files source) in
  let target_map := file_map (files target) in
  s ← for_each (map_iter target_map) (visit_target self source_map)
        {| acc_changes := []; acc_required := ∅; acc_stats := DiffStats_default |};
  s ← for_each (map_iter source_map) (visit_source target_map) s;
  let total_chunks := foldr Z.add 0 (map (λ c, zlen (required_chunks c)) (acc_changes s)) in
  let st := stat_chunks (acc_stats s) total_chunks (Z.of_nat (size (acc_required s))) in
  total_transfer_size ← sum_u64 checked 0 (map transfer_size (acc_changes s));
  let merkle_proof :=
    if enable_merkle_proofs self then compute_merkle_proof self source target else None in
  mret (prioritize_changes
    {| changes := acc_changes s; total_transfer_size := total_transfer_size;
       all_required_chunks := acc_required s; stats := st; merkle_proof := merkle_proof |}).
End compute.

(** ** [IncrementalDiff] *)

Record IncrementalDiff := {
  last_versions : gmap string Z;
  pending_changes : gmap string (list FileChange);
  diff_computer : DiffComputer;
}.

Definition IncrementalDiff_new (chunk_cache : gset string) : IncrementalDiff :=
  {| last_versions := ∅; pending_changes := ∅; diff_computer := DiffComputer_new chunk_cache |}.

Section incremental.
Context `{Hex, Blake3, MapIter} (checked : bool) {E : Type}.

(** The new tracker is returned with the difference. *)
Definition compute_incremental (self : IncrementalDiff) (peer_id : string)
    (current_manifest peer_manifest : Manifest) : outcome E (IncrementalDiff * DiffResult) :=
  diff ← compute_diff checked (diff_computer self) peer_manifest current_manifest;
  let pending :=
    if diff_has_changes diff then <[peer_id := changes diff]> (pending_changes self)
    else pending_changes self in
  mret ({| last_versions := <[peer_id := version current_manifest]> (last_versions self);
           pending_changes := pending; diff_computer := diff_computer self |}, diff).
End incremental.

(** [change.required_chunks.retain(|h| !chunk_hashes.contains(h))]. *)
Definition drop_chunks (acked : list string) (c : FileChange) : FileChange :=
  {| change_path := change_path c; change_type := change_type c;
     source_entry := source_entry c; target_entry := target_entry c;
     required_chunks := filter (λ h, h ∉ acked) (required_chunks c);
     transfer_size := transfer_size c |}.

Definition acknowledge_changes (self : IncrementalDiff) (peer_id : string)
    (chunk_hashes : list string) : IncrementalDiff :=
  match pending_changes self !! peer_id with
  | None => self
  | Some pending =>
      let pending := map (drop_chunks chunk_hashes) pending in
      let pending := filter (λ c, required_chunks c ≠ []) pending in
      {| last_versions := last_versions self;
         pending_changes :=
           if bool_decide (pending = []) then delete peer_id (pending_changes self)
           else <[peer_id := pending]> (pending_changes self);
         diff_computer := diff_computer self |}
  end.

Definition get_pending (self : IncrementalDiff) (peer_id : string) : option (list FileChange) :=
  pending_changes self !! peer_id.

Definition reset_peer (self : IncrementalDiff) (peer_id : string) : IncrementalDiff :=
  {| last_versions := delete peer_id (last_versions self);
     pending_changes := delete peer_id (pending_changes self);
     diff_computer := diff_computer self |}.

(** ** Specification of the difference

    What happens at a path, from the entries the two manifests have there, by
    the tests of the code. [MetadataOnly] is not what its comment says ("content
    is the same"): the content hashes differ. *)
Definition classify (self : DiffComputer) (p : string)
    (source target : option ManifestEntry) : option FileChange :=
  let change ty required :=
    Some {| change_path := p; change_type := ty; source_entry := source;
            target_entry := target; required_chunks := required;
            transfer_size := wrap 64 (zlen required * AVERAGE_CHUNK_SIZE) |} in
  match source, target with
  | None, None => None
  | None, Some t => change Added (filter (λ h, h ∉ chunk_cache self) (chunk_hashes t))
  | Some s, None => change Deleted []
  | Some s, Some t =>
      if decide (content_hash s = content_hash t) then None
      else
        let required :=
          filter (λ h, h ∉ chunk_hashes s ∧ h ∉ chunk_cache self) (chunk_hashes t) in
        if decide (required = [] ∧ fsize s = fsize t) then change MetadataOnly []
        else change Modified required
  end.

Definition count (ty : ChangeType) (cs : list FileChange) : Z :=
  zlen (filter (λ c, change_type c = ty) cs).
Definition chunk_total (cs : list FileChange) : Z :=
  foldr Z.add 0 (map (λ c, zlen (required_chunks c)) cs).

(** The size of the new version of the file of a change, or of the file deleted. *)
Definition change_size (c : FileChange) : Z :=
  match target_entry c, source_entry c with
  | Some t, _ => fsize t
  | None, Some s => fsize s
  | None, None => 0
  end.
Definition byte_total (ty : ChangeType) (cs : list FileChange) : Z :=
  sum_of change_size (filter (λ c, change_type c = ty) cs).

(** The loop variables after the changes [cs] were recorded. *)
Record AccInv (cs : list FileChange) (s : Acc) : Prop := {
  inv_changes : acc_changes s = cs;
  inv_required : acc_required s = list_to_set (cs ≫= required_chunks);
  inv_added : files_added (acc_stats s) = count Added cs;
  inv_modified : files_modified (acc_stats s) = count Modified cs;
  inv_deleted : files_deleted (acc_stats s) = count Deleted cs;
  inv_metadata : files_metadata_only (acc_stats s) = count MetadataOnly cs;
  inv_bytes_added : bytes_to_add (acc_stats s) = wrap 64 (byte_total Added cs);
  inv_bytes_modified : bytes_to_modify (acc_stats s) = wrap 64 (byte_total Modified cs);
  inv_bytes_deleted : bytes_to_delete (acc_stats s) = wrap 64 (byte_total Deleted cs);
}.

Lemma compute_chunk_diff_filter self s t : compute_chunk_diff self s t
  = filter (λ h, h ∉ chunk_hashes s ∧ h ∉ chunk_cache self) (chunk_hashes t).
Proof.
  unfold compute_chunk_diff. apply list_filter_iff. intros h. by rewrite elem_of_list_to_set.
Qed.

Lemma count_app ty cs ds : count ty (cs ++ ds) = count ty cs + count ty ds.
Proof. unfold count. by rewrite filter_app, zlen_app. Qed.

Lemma byte_total_app ty cs ds : byte_total ty (cs ++ ds) = byte_total ty cs + byte_total ty ds.
Proof. unfold byte_total. by rewrite filter_app, sum_of_app. Qed.

(** What a change adds to a byte counter, modulo its width. *)
Definition counts_bytes (old new : Z) (n : Z) : Prop :=
  ∀ total, old = wrap 64 total → new = wrap 64 (total + n).

Lemma counts_bytes_none old : counts_bytes old old 0.
Proof. intros total ->. by rewrite Z.add_0_r. Qed.
Lemma counts_bytes_add old n m : n = m → counts_bytes old (wrap 64 (old + n)) m.
Proof. intros <- total ->. apply wrap_add_l. Qed.

Lemma push_change_inv cs s c st : AccInv cs s →
  files_added st = files_added (acc_stats s) + count Added [c] →
  files_modified st = files_modified (acc_stats s) + count Modified [c] →
  files_deleted st = files_deleted (acc_stats s) + count Deleted [c] →
  files_metadata_only st = files_metadata_only (acc_stats s) + count MetadataOnly [c] →
  counts_bytes (bytes_to_add (acc_stats s)) (bytes_to_add st) (byte_total Added [c]) →
  counts_bytes (bytes_to_modify (acc_stats s)) (bytes_to_modify st) (byte_total Modified [c]) →
  counts_bytes (bytes_to_delete (acc_stats s)) (bytes_to_delete st) (byte_total Deleted [c]) →
  AccInv (cs ++ [c]) (push_change s c st).
Proof.
  intros [Hc Hr ? ? ? ? Ba Bm Bd] ? ? ? ? Ha Hm Hd. constructor; unfold push_change; cbn [acc_changes acc_required acc_stats].
  - by rewrite Hc.
  - rewrite Hr, bind_app, list_to_set_app_L. f_equal. cbn. by rewrite app_nil_r.
  - rewrite count_app. lia.
  - rewrite count_app. lia.
  - rewrite count_app. lia.
  - rewrite count_app. lia.
  - rewrite byte_total_app. by apply Ha.
  - rewrite byte_total_app. by apply Hm.
  - rewrite byte_total_app. by apply Hd.
Qed.

(** Each counter of a recorded change. *)
Ltac push_counts :=
  repeat match goal with H : arith _ _ _ = Ok _ |- _ => apply arith_Ok in H; subst end;
  apply push_change_inv; unfold count, byte_total, zlen; simpl;
  first [ done | lia | apply counts_bytes_none | (apply counts_bytes_add; unfold sum_of, change_size; simpl; lia) ].

Section spec.
Context `{Hex, Blake3, MapIter} (checked : bool) {E : Type}.

Lemma visit_target_spec self smap cs s p t s' :
  AccInv cs s → visit_target (E:=E) checked self smap s (p, t) = Ok s' →
  AccInv (cs ++ option_list (classify self p (smap !! p) (Some t))) s'.
Proof.
  intros Hs. unfold visit_target, classify.
  destruct (smap !! p) as [e|] eqn:Ep; [destruct (decide (content_hash e = content_hash t))|].
  - rewrite decide_False by tauto. intros [= <-]. simpl. by rewrite app_nil_r.
  - rewrite decide_True by done. rewrite compute_chunk_diff_filter. intros Hv. inv_ok.
    apply arith_Ok in H2 as ->. case_decide as Hd.
    + injection Hv as <-. push_counts.
    + inv_ok. unfold stat_modified in H2. inv_ok.
      push_counts.
  - intros Hv. inv_ok. apply arith_Ok in H2 as ->. unfold stat_added in H3. inv_ok.
    push_counts.
Qed.

Lemma visit_source_spec tmap self cs s p e s' :
  AccInv cs s → visit_source (E:=E) checked tmap s (p, e) = Ok s' →
  AccInv (cs ++ match tmap !! p with Some _ => []
                | None => option_list (classify self p (Some e) None) end) s'.
Proof.
  intros Hs. unfold visit_source. destruct (tmap !! p) as [t|].
  - intros [= <-]. by rewrite app_nil_r.
  - intros Hv. inv_ok. unfold stat_deleted in H2. inv_ok.
    push_counts.
Qed.
End spec.

Lemma classify_path self p os ot c : classify self p os ot = Some c → change_path c = p.
Proof.
  unfold classify. destruct os, ot; repeat case_decide; intros [= <-]; done.
Qed.

(** The changes in the order in which the two loops find them. *)
Definition found_changes (self : DiffComputer) (smap tmap : gmap string ManifestEntry)
    (targets sources : list (string * ManifestEntry)) : list FileChange :=
  (targets ≫= λ '(p, t), option_list (classify self p (smap !! p) (Some t)))
  ++ (sources ≫= λ '(p, e), match tmap !! p with Some _ => []
        | None => option_list (classify self p (Some e) None) end).

Lemma NoDup_change_paths (l : list (string * ManifestEntry))
    (f : string * ManifestEntry → list FileChange) :
  NoDup l.*1 → (∀ p e, f (p, e) = [] ∨ ∃ c, f (p, e) = [c] ∧ change_path c = p) →
  NoDup (map change_path (l ≫= f)) ∧ map change_path (l ≫= f) ⊆ l.*1.
Proof.
  intros Hnd Hf. induction l as [|[p e] l IH]; [by split|].
  cbn in Hnd. apply NoDup_cons in Hnd as [Hp Hnd]. destruct (IH Hnd) as [IH1 IH2].
  cbn [mbind list_bind]. rewrite map_app.
  destruct (Hf p e) as [-> | (c & -> & <-)]; cbn; [set_solver|].
  split; [|set_solver]. constructor; [|done]. intros Hin. by apply Hp, IH2.
Qed.

Lemma elem_of_option_list {A} (x : A) o : x ∈ option_list o ↔ o = Some x.
Proof. destruct o; simpl; set_solver. Qed.

Section main.
Context `{MapIter}.
Implicit Types smap tmap : gmap string ManifestEntry.

Lemma elem_of_found_changes self smap tmap c :
  c ∈ found_changes self smap tmap (map_iter tmap) (map_iter smap) ↔
  classify self (change_path c) (smap !! change_path c) (tmap !! change_path c) = Some c.
Proof.
  unfold found_changes. rewrite elem_of_app, !list_elem_of_bind. split.
  - intros [([p t] & Hc & Hin)|([p e] & Hc & Hin)]; apply elem_of_map_iter in Hin.
    + apply elem_of_option_list in Hc. destruct (classify_path _ _ _ _ _ Hc). by rewrite Hin.
    + destruct (tmap !! p) eqn:Et; [by apply elem_of_nil in Hc|].
      apply elem_of_option_list in Hc. destruct (classify_path _ _ _ _ _ Hc). by rewrite Hin, Et.
  - intros Hc. destruct (tmap !! change_path c) as [t|] eqn:Et.
    + left. exists (change_path c, t). rewrite elem_of_map_iter. split; [|done].
      by apply elem_of_option_list.
    + right. destruct (smap !! change_path c) as [e|] eqn:Es; [|done].
      exists (change_path c, e). rewrite elem_of_map_iter, Et. split; [|done].
      by apply elem_of_option_list.
Qed.

Lemma found_changes_NoDup self smap tmap :
  NoDup (map change_path (found_changes self smap tmap (map_iter tmap) (map_iter smap))).
Proof.
  unfold found_changes. rewrite map_app. apply NoDup_app.
  set (f := λ '(p, t), option_list (classify self p (smap !! p) (Some t))).
  set (g := λ '(p, e), match tmap !! p with Some _ => []
      | None => option_list (classify self p (Some e) None) end).
  destruct (NoDup_change_paths (map_iter tmap) f) as [Hf1 Hf2]; [apply NoDup_map_iter| |].
  { intros p t. simpl. destruct (classify _ p _ _) eqn:Ec; [right|by left].
    apply classify_path in Ec. eauto. }
  destruct (NoDup_change_paths (map_iter smap) g) as [Hg1 Hg2]; [apply NoDup_map_iter| |].
  { intros p t. simpl. destruct (tmap !! p); [by left|].
    right. by eexists. }
  split_and!; [done| |done]. intros p Hp Hq. apply Hf2 in Hp.
  apply list_elem_of_fmap in Hp as ([p' t] & -> & Hp). apply elem_of_map_iter in Hp. simpl in *.
  apply list_elem_of_fmap in Hq as (c & Ep & Hq).
  apply list_elem_of_bind in Hq as ([q e] & Hq & _). simpl in Hq.
  destruct (tmap !! q) eqn:Et; [by apply elem_of_nil in Hq|].
  apply list_elem_of_singleton in Hq as ->. simpl in Ep. congruence.
Qed.
End main.

Lemma change_leb_total x y : change_leb x y || change_leb y x = true.
Proof. unfold change_leb. lia. Qed.
Lemma change_leb_trans x y z :
  change_leb x y = true → change_leb y z = true → change_leb x z = true.
Proof. unfold change_leb. lia. Qed.

Lemma chunk_total_perm cs ds : cs ≡ₚ ds → chunk_total cs = chunk_total ds.
Proof. unfold chunk_total. intros Hp. induction Hp; simpl; lia. Qed.
#[export] Instance count_proper ty : Proper ((≡ₚ) ==> (=)) (count ty).
Proof. intros cs ds Hp. unfold count, zlen. by rewrite Hp. Qed.
#[export] Instance byte_total_proper ty : Proper ((≡ₚ) ==> (=)) (byte_total ty).
Proof. intros cs ds Hp. unfold byte_total. apply sum_of_perm. by rewrite Hp. Qed.

Section theorems.
Context `{Hex, Blake3, MapIter} (checked : bool) {E : Type}.

(** What the two loops have recorded when they return. *)
Lemma loops_found self smap tmap s1 s2 :
  for_each (map_iter tmap) (visit_target (E:=E) checked self smap)
    {| acc_changes := []; acc_required := ∅; acc_stats := DiffStats_default |} = Ok s1 →
  for_each (map_iter smap) (visit_source (E:=E) checked tmap) s1 = Ok s2 →
  AccInv (found_changes self smap tmap (map_iter tmap) (map_iter smap)) s2.
Proof.
  intros Hs1 Hs2.
  assert (AccInv (map_iter tmap ≫= λ '(p, t), option_list (classify self p (smap !! p) (Some t))) s1)
    as Hi1.
  { refine (for_each_inv (λ l s, AccInv (l ≫= λ '(p, t),
      option_list (classify self p (smap !! p) (Some t))) s) _ _ _ _ _ _ Hs1); [by constructor|].
    intros l1 [p t] l2 a a' _ Ha Hv. rewrite bind_app. cbn [mbind list_bind].
    rewrite app_nil_r. by eapply visit_target_spec. }
  refine (for_each_inv (λ l s, AccInv (_ ++ (l ≫= _)) s) _ _ _ _ _ _ Hs2).
  { cbn. by rewrite app_nil_r. }
  intros l1 [p e] l2 a a' _ Ha Hv. rewrite bind_app, app_assoc. cbn [mbind list_bind].
  rewrite app_nil_r. by eapply visit_source_spec.
Qed.

(** Everything [compute_diff] returns, up to the order before sorting. *)
Lemma compute_diff_raw self source target d :
  let smap := file_map (files source) in
  let tmap := file_map (files target) in
  let found := found_changes self smap tmap (map_iter tmap) (map_iter smap) in
  compute_diff (E:=E) checked self source target = Ok d →
  changes d = stable_sort change_leb found ∧
  all_required_chunks d = list_to_set (found ≫= required_chunks) ∧
  total_transfer_size d = wrap 64 (foldr Z.add 0 (map transfer_size found)) ∧
  (files_added (stats d) = count Added found ∧
   files_modified (stats d) = count Modified found ∧
   files_deleted (stats d) = count Deleted found ∧
   files_metadata_only (stats d) = count MetadataOnly found) ∧
  (bytes_to_add (stats d) = wrap 64 (byte_total Added found) ∧
   bytes_to_modify (stats d) = wrap 64 (byte_total Modified found) ∧
   bytes_to_delete (stats d) = wrap 64 (byte_total Deleted found)) ∧
  total_chunks (stats d) = chunk_total found ∧
  unique_chunks (stats d) = Z.of_nat (size (all_required_chunks d)) ∧
  merkle_proof d = (if enable_merkle_proofs self
                    then compute_merkle_proof self source target else None).
Proof.
  intros smap tmap found Hd. unfold compute_diff in Hd. fold smap tmap in Hd.
  apply bind_Ok in Hd as (s1 & Hs1 & Hd). apply bind_Ok in Hd as (s2 & Hs2 & Hd).
  apply bind_Ok in Hd as (total & Ht & Hd). injection Hd as <-.
  destruct (loops_found self smap tmap s1 s2 Hs1 Hs2) as [Hc Hr ???????]. fold found in Hc, Hr |- *.
  apply sum_u64_Ok in Ht; [|done]. cbn. rewrite Hc in *. unfold chunk_total.
  by split_and!.
Qed.

Lemma compute_diff_changes self source target d c :
  compute_diff (E:=E) checked self source target = Ok d →
  c ∈ changes d ↔ classify self (change_path c)
    (file_map (files source) !! change_path c) (file_map (files target) !! change_path c) = Some c.
Proof.
  intros Hd. apply compute_diff_raw in Hd as (Hc & _).
  by rewrite Hc, stable_sort_perm, elem_of_found_changes.
Qed.

Lemma compute_diff_required self source target d h :
  compute_diff (E:=E) checked self source target = Ok d →
  h ∈ all_required_chunks d ↔ ∃ c, c ∈ changes d ∧ h ∈ required_chunks c.
Proof.
  intros Hd. apply compute_diff_raw in Hd as (Hc & Hr & _).
  rewrite Hr, elem_of_list_to_set, list_elem_of_bind, Hc.
  by setoid_rewrite (stable_sort_perm change_leb _); split; intros (c & ? & ?); exists c.
Qed.

(** C9: [compute_diff] reports, for every path, exactly the change that
    [classify] names for its entries in the two manifests, once, in order of
    decreasing priority and then increasing transfer size, with the file
    counters, the byte counters, the chunk set and the totals that belong to
    these changes (the byte counters and the transfer size are [u64]: sums
    modulo 2^64).

    What the change is departs from the comments of the code in two cases.
    A file with another content hash, no chunk to fetch and the same size is
    [MetadataOnly], although its content is not the same (all its chunks may
    be in the cache, or those of the source in another order); and a file
    with the same content hash but other metadata is no change at all
    ([metadata_only_has_new_content] and [metadata_changes_unreported]). *)
Theorem compute_diff_correct self source target d :
  compute_diff (E:=E) checked self source target = Ok d →
  let smap := file_map (files source) in
  let tmap := file_map (files target) in
  (∀ c, c ∈ changes d ↔
    classify self (change_path c) (smap !! change_path c) (tmap !! change_path c) = Some c) ∧
  NoDup (map change_path (changes d)) ∧
  StronglySorted change_leb (changes d) ∧
  (files_added (stats d) = count Added (changes d) ∧
   files_modified (stats d) = count Modified (changes d) ∧
   files_deleted (stats d) = count Deleted (changes d) ∧
   files_metadata_only (stats d) = count MetadataOnly (changes d)) ∧
  (bytes_to_add (stats d) = wrap 64 (byte_total Added (changes d)) ∧
   bytes_to_modify (stats d) = wrap 64 (byte_total Modified (changes d)) ∧
   bytes_to_delete (stats d) = wrap 64 (byte_total Deleted (changes d))) ∧
  total_transfer_size d = wrap 64 (sum_of transfer_size (changes d)) ∧
  all_required_chunks d = list_to_set (changes d ≫= required_chunks) ∧
  total_chunks (stats d) = chunk_total (changes d) ∧
  unique_chunks (stats d) = Z.of_nat (size (all_required_chunks d)).
Proof.
  intros Hd smap tmap. apply compute_diff_raw in Hd as (Hc & Hr & Hz & Hs & Hb & Ht & Hu & _).
  pose proof (stable_sort_perm change_leb
    (found_changes self smap tmap (map_iter tmap) (map_iter smap))) as Hp.
  fold smap tmap in Hc, Hr, Hs, Ht, Hz, Hb. rewrite <-Hc in Hp.
  split_and!; try done.
  - intros c. by rewrite Hp, elem_of_found_changes.
  - rewrite (Permutation_map change_path Hp). apply found_changes_NoDup.
  - rewrite Hc. apply stable_sort_sorted; eauto using change_leb_total, change_leb_trans.
  - rewrite (count_proper Added _ _ Hp). apply Hs.
  - rewrite (count_proper Modified _ _ Hp). apply Hs.
  - rewrite (count_proper Deleted _ _ Hp). apply Hs.
  - rewrite (count_proper MetadataOnly _ _ Hp). apply Hs.
  - rewrite (byte_total_proper Added _ _ Hp). apply Hb.
  - rewrite (byte_total_proper Modified _ _ Hp). apply Hb.
  - rewrite (byte_total_proper Deleted _ _ Hp). apply Hb.
  - rewrite Hz. f_equal. symmetry. by apply sum_of_perm.
  - rewrite Hr. apply leibniz_equiv, set_equiv. intros h.
    rewrite !elem_of_list_to_set, !list_elem_of_bind.
    split; intros (c & Hh & Hin); exists c; (split; [done|]); [by rewrite Hp|by rewrite <-Hp].
  - by rewrite Ht, (chunk_total_perm _ _ Hp).
Qed.

(** Two files of equal size with different content hashes are reported as a
    mere change of metadata if the chunks of the new one are known. *)
Lemma metadata_only_has_new_content self p s t :
  content_hash s ≠ content_hash t → fsize s = fsize t →
  (∀ h, h ∈ chunk_hashes t → h ∈ chunk_hashes s ∨ h ∈ chunk_cache self) →
  change_type <$> classify self p (Some s) (Some t) = Some MetadataOnly.
Proof.
  intros Hne Hsz Hin. unfold classify. rewrite decide_False by done.
  rewrite decide_True; [done|]. split; [|done].
  apply elem_of_nil_inv. intros h [[Hs Hc] Ht]%list_elem_of_filter. destruct (Hin h Ht); tauto.
Qed.

(** Whatever else changed of a file, it is not reported if its hash did not. *)
Lemma metadata_changes_unreported self p s t :
  content_hash s = content_hash t → classify self p (Some s) (Some t) = None.
Proof. intros Heq. unfold classify. by rewrite decide_True. Qed.

(** C29: The required chunks are enough and not more than needed: every chunk
    of every file of the target whose content hash differs is in the cache,
    in the source version of the file, or among the required chunks; and no
    required chunk is in the cache. *)
Theorem required_chunks_sufficient self source target d :
  compute_diff (E:=E) checked self source target = Ok d →
  (∀ p t h, file_map (files target) !! p = Some t → h ∈ chunk_hashes t →
    h ∈ chunk_cache self ∨ h ∈ all_required_chunks d ∨
    ∃ s, file_map (files source) !! p = Some s ∧
         (content_hash s = content_hash t ∨ h ∈ chunk_hashes s)) ∧
  (∀ h, h ∈ all_required_chunks d → h ∉ chunk_cache self).
Proof.
  intros Hd. apply compute_diff_raw in Hd as (_ & Hr & _).
  set (found := found_changes _ _ _ _ _) in Hr. split.
  - intros p t h Ht Hh. destruct (decide (h ∈ chunk_cache self)) as [|Hn]; [by left|right].
    assert (∀ c, classify self p (file_map (files source) !! p) (Some t) = Some c →
      h ∈ required_chunks c → h ∈ all_required_chunks d) as Hin.
    { intros c Hc Hhc. rewrite Hr, elem_of_list_to_set, list_elem_of_bind. exists c.
      split; [done|]. apply elem_of_found_changes. by rewrite (classify_path _ _ _ _ _ Hc), Ht. }
    destruct (file_map (files source) !! p) as [s|] eqn:Es.
    + destruct (decide (content_hash s = content_hash t)); [eauto|].
      destruct (decide (h ∈ chunk_hashes s)); [eauto|]. left.
      assert (h ∈ filter (λ h, h ∉ chunk_hashes s ∧ h ∉ chunk_cache self) (chunk_hashes t)) as Hf.
      { by apply list_elem_of_filter. }
      eapply Hin; [unfold classify; rewrite decide_False by done|].
      * rewrite decide_False; [done|]. intros [E0 _]. by rewrite E0 in Hf; apply elem_of_nil in Hf.
      * done.
    + left. eapply Hin; [done|]. simpl. by apply list_elem_of_filter.
  - intros h. rewrite Hr, elem_of_list_to_set, list_elem_of_bind. intros (c & Hh & Hc).
    apply elem_of_found_changes in Hc. revert Hc. generalize (change_path c).
    intros p. unfold classify.
    destruct (file_map (files source) !! _), (file_map (files target) !! _);
      repeat case_decide; intros [= <-]; cbn [required_chunks] in Hh;
      first [by apply elem_of_nil in Hh | apply list_elem_of_filter in Hh; tauto].
Qed.
End theorems.

(** ** No overflow *)

(** Total size and chunk count of a list of files. *)
Definition bytes_of (fs : list ManifestEntry) : Z := sum_of fsize fs.
Definition chunks_of (fs : list ManifestEntry) : Z := sum_of (λ f, zlen (chunk_hashes f)) fs.

Lemma map_iter_files `{MapIter} (fs : list ManifestEntry) :
  (map_iter (file_map fs)).*2 ⊆+ fs.
Proof.
  apply NoDup_submseteq.
  - pose proof (NoDup_map_iter (file_map fs)) as Hnd.
    assert (∀ p f, (p, f) ∈ map_iter (file_map fs) → path f = p) as Hp.
    { intros p f Hin. apply elem_of_map_iter in Hin. by apply file_map_path in Hin as [? _]. }
    revert Hnd Hp. induction (map_iter (file_map fs)) as [|[p f] l IH]; cbn; [constructor|].
    rewrite !NoDup_cons. intros [Hn Hnd] Hp. split; [|apply IH; [done|]; intros; apply Hp; by right].
    intros ([p' f'] & -> & Hin)%list_elem_of_fmap. apply Hn. simpl in *.
    rewrite <-(Hp p f'), (Hp p' f'); [|by right|left].
    by apply (list_elem_of_fmap_2 fst) in Hin.
  - intros f ([p f'] & -> & Hin)%list_elem_of_fmap. apply elem_of_map_iter in Hin.
    by apply file_map_path in Hin as [_ ?].
Qed.

Lemma map_iter_split `{MapIter} (f : ManifestEntry → Z) (fs : list ManifestEntry) l1 p t l2 :
  (∀ x, x ∈ fs → 0 ≤ f x) → map_iter (file_map fs) = l1 ++ (p, t) :: l2 →
  0 ≤ f t ∧ sum_of f l1.*2 + f t ≤ sum_of f fs.
Proof.
  intros Hf Hl. pose proof (map_iter_files fs) as Hsub.
  pose proof (sum_of_submseteq f _ _ Hf Hsub) as Hle. rewrite Hl in Hle, Hsub.
  rewrite fmap_app in Hle. cbn in Hle. rewrite sum_of_app in Hle.
  assert (∀ x, x ∈ (l1 ++ (p, t) :: l2).*2 → x ∈ fs) as Hin.
  { intros x Hx. by eapply elem_of_submseteq. }
  assert (0 ≤ sum_of f l2.*2).
  { apply sum_of_nonneg. intros x Hx. apply Hf, Hin. rewrite fmap_app. set_solver. }
  assert (0 ≤ f t). { apply Hf, Hin. rewrite fmap_app. set_solver. }
  unfold sum_of in *. cbn in Hle. lia.
Qed.

Section no_overflow.
Context `{Hex, Blake3, MapIter} (checked : bool) {E : Type}.

Lemma visit_target_ok self smap s p t : 0 ≤ fsize t →
  0 ≤ bytes_to_add (acc_stats s) → 0 ≤ bytes_to_modify (acc_stats s) →
  bytes_to_add (acc_stats s) + bytes_to_modify (acc_stats s) + fsize t < 2 ^ 64 →
  zlen (chunk_hashes t) * AVERAGE_CHUNK_SIZE < 2 ^ 64 →
  ∃ s', visit_target (E:=E) checked self smap s (p, t) = Ok s' ∧
    bytes_to_delete (acc_stats s') = bytes_to_delete (acc_stats s) ∧
    0 ≤ bytes_to_add (acc_stats s') ∧ 0 ≤ bytes_to_modify (acc_stats s') ∧
    bytes_to_add (acc_stats s') + bytes_to_modify (acc_stats s')
      ≤ bytes_to_add (acc_stats s) + bytes_to_modify (acc_stats s) + fsize t.
Proof.
  intros Ht Ha Hm Hb Hc.
  assert (∀ l, zlen l ≤ zlen (chunk_hashes t) →
    calculate_transfer_size (E:=E) checked l = Ok (zlen l * AVERAGE_CHUNK_SIZE)) as Hts.
  { intros l Hl. apply arith_exact. pose proof (zlen_nonneg l).
    unfold AVERAGE_CHUNK_SIZE in *. lia. }
  unfold visit_target. destruct (smap !! p) as [e|]; [case_decide|].
  - cbn zeta. rewrite compute_chunk_diff_filter, Hts by apply zlen_filter.
    cbn [mbind outcome_bind]. case_decide.
    + eexists. split; [done|]. simpl. lia.
    + unfold stat_modified. rewrite arith_exact by lia. eexists. split; [done|]. simpl. lia.
  - eexists. split; [done|]. lia.
  - unfold find_required_chunks. cbn zeta. rewrite Hts by apply zlen_filter.
    cbn [mbind outcome_bind]. unfold stat_added. rewrite arith_exact by lia.
    eexists. split; [done|]. simpl. lia.
Qed.

Lemma visit_source_ok tmap s p e : 0 ≤ fsize e → 0 ≤ bytes_to_delete (acc_stats s) →
  bytes_to_delete (acc_stats s) + fsize e < 2 ^ 64 →
  ∃ s', visit_source (E:=E) checked tmap s (p, e) = Ok s' ∧
    0 ≤ bytes_to_delete (acc_stats s') ∧
    bytes_to_delete (acc_stats s') ≤ bytes_to_delete (acc_stats s) + fsize e.
Proof.
  intros He Hd Hb. unfold visit_source. destruct (tmap !! p).
  - eexists. split; [done|]. lia.
  - unfold stat_deleted. rewrite arith_exact by lia. eexists. split; [done|]. simpl. lia.
Qed.

Lemma classify_transfer self p os ot c : classify self p os ot = Some c →
  transfer_size c = wrap 64 (zlen (required_chunks c) * AVERAGE_CHUNK_SIZE) ∧
  zlen (required_chunks c) ≤ match ot with Some t => zlen (chunk_hashes t) | None => 0 end.
Proof.
  unfold classify. destruct os, ot; repeat case_decide; intros [= <-];
    cbn [transfer_size required_chunks]; split; try done;
    first [apply zlen_filter|rewrite ?zlen_nil; apply zlen_nonneg].
Qed.

Lemma chunk_total_app cs ds : chunk_total (cs ++ ds) = chunk_total cs + chunk_total ds.
Proof. apply (sum_of_app (λ c, zlen (required_chunks c))). Qed.

Lemma found_chunk_total self smap tmap tl sl :
  0 ≤ chunk_total (found_changes self smap tmap tl sl)
    ≤ sum_of (λ pt, zlen (chunk_hashes pt.2)) tl.
Proof.
  split; [apply (sum_of_nonneg (λ c, zlen (required_chunks c))); intros; apply zlen_nonneg|].
  unfold found_changes. rewrite chunk_total_app.
  assert (chunk_total (sl ≫= λ '(p, e), match tmap !! p with Some _ => []
      | None => option_list (classify self p (Some e) None) end) = 0) as ->.
  { induction sl as [|[p e] sl IH]; [done|]. cbn [mbind list_bind].
    rewrite chunk_total_app, IH. by destruct (tmap !! p). }
  rewrite Z.add_0_r. induction tl as [|[p t] tl IH]; [done|]. cbn [mbind list_bind].
  rewrite chunk_total_app. unfold sum_of in *. cbn [map foldr snd].
  destruct (classify self p (smap !! p) (Some t)) as [c|] eqn:Ec; cbn [option_list].
  - apply classify_transfer in Ec as [_ Ec]. unfold chunk_total in *. cbn. lia.
  - pose proof (zlen_nonneg (chunk_hashes t)). unfold chunk_total in *. cbn. lia.
Qed.

(** The transfer sizes when no product overflows. *)
Lemma transfer_total (cs : list FileChange) :
  (∀ c, c ∈ cs → transfer_size c = wrap 64 (zlen (required_chunks c) * AVERAGE_CHUNK_SIZE)) →
  chunk_total cs * AVERAGE_CHUNK_SIZE < 2 ^ 64 →
  Forall (λ x, 0 ≤ x) (map transfer_size cs) ∧
  foldr Z.add 0 (map transfer_size cs) = chunk_total cs * AVERAGE_CHUNK_SIZE.
Proof.
  unfold chunk_total. induction cs as [|c cs IH]; intros Hc Hb; [by split|]. cbn [map foldr] in *.
  assert (0 ≤ foldr Z.add 0 (map (λ c, zlen (required_chunks c)) cs)).
  { apply (sum_of_nonneg (λ c, zlen (required_chunks c))). intros; apply zlen_nonneg. }
  pose proof (zlen_nonneg (required_chunks c)).
  assert (0 < AVERAGE_CHUNK_SIZE) by done.
  destruct IH as [IH1 IH2]; [intros; apply Hc; by right|nia|].
  rewrite (Hc c) by left. rewrite wrap_small by nia. split; [constructor; [nia|done]|nia].
Qed.

Lemma target_loop_ok self source target :
  let tmap := file_map (files target) in
  Forall (λ f, 0 ≤ fsize f) (files target) → bytes_of (files target) < 2 ^ 64 →
  chunks_of (files target) * AVERAGE_CHUNK_SIZE < 2 ^ 64 →
  ∃ s, for_each (map_iter tmap) (visit_target (E:=E) checked self (file_map (files source)))
         {| acc_changes := []; acc_required := ∅; acc_stats := DiffStats_default |} = Ok s ∧
    bytes_to_delete (acc_stats s) = 0 ∧ 0 ≤ bytes_to_add (acc_stats s) ∧
    0 ≤ bytes_to_modify (acc_stats s) ∧
    bytes_to_add (acc_stats s) + bytes_to_modify (acc_stats s) ≤ bytes_of (files target).
Proof.
  intros tmap Hsz Hb Hc. rewrite Forall_forall in Hsz.
  destruct (for_each_total (λ l s, bytes_to_delete (acc_stats s) = 0 ∧
      0 ≤ bytes_to_add (acc_stats s) ∧ 0 ≤ bytes_to_modify (acc_stats s) ∧
      bytes_to_add (acc_stats s) + bytes_to_modify (acc_stats s) ≤ bytes_of l.*2)
    (map_iter tmap) (visit_target (E:=E) checked self (file_map (files source)))
    {| acc_changes := []; acc_required := ∅; acc_stats := DiffStats_default |})
    as (s & Hs & Hi); [done| |].
  - intros l1 [p t] l2 s Hl (Hd & Ha & Hm & Hs).
    destruct (map_iter_split fsize (files target) l1 p t l2) as [Ht Hle]; [by intros; apply Hsz|done|].
    destruct (map_iter_split (λ f, zlen (chunk_hashes f)) (files target) l1 p t l2)
      as [Hct Hcle]; [intros; apply zlen_nonneg|done|].
    pose proof (sum_of_nonneg (λ f, zlen (chunk_hashes f)) l1.*2 ltac:(intros; apply zlen_nonneg)).
    unfold bytes_of, chunks_of, AVERAGE_CHUNK_SIZE in *.
    destruct (visit_target_ok self (file_map (files source)) s p t) as (s' & -> & ? & ? & ? & ?);
      [done..|lia|unfold AVERAGE_CHUNK_SIZE; lia|].
    exists s'. split; [done|]. rewrite fmap_app, sum_of_app. unfold sum_of in *. cbn. lia.
  - exists s. split; [done|]. destruct Hi as (? & ? & ? & Hi). split_and!; try done.
    etrans; [exact Hi|]. apply sum_of_submseteq; [done|]. apply map_iter_files.
Qed.

Lemma source_loop_ok source target s : 
  Forall (λ f, 0 ≤ fsize f) (files source) → bytes_of (files source) < 2 ^ 64 →
  bytes_to_delete (acc_stats s) = 0 →
  ∃ s', for_each (map_iter (file_map (files source)))
          (visit_source (E:=E) checked (file_map (files target))) s = Ok s' ∧
    0 ≤ bytes_to_delete (acc_stats s') ≤ bytes_of (files source).
Proof.
  intros Hsz Hb Hs0. rewrite Forall_forall in Hsz.
  destruct (for_each_total (λ l s, 0 ≤ bytes_to_delete (acc_stats s) ≤ bytes_of l.*2)
    (map_iter (file_map (files source)))
    (visit_source (E:=E) checked (file_map (files target))) s) as (s' & Hs & Hi).
  - rewrite Hs0. done.
  - intros l1 [p e] l2 s1 Hl Hd.
    destruct (map_iter_split fsize (files source) l1 p e l2) as [He Hle]; [by intros; apply Hsz|done|].
    unfold bytes_of in *.
    destruct (visit_source_ok (file_map (files target)) s1 p e) as (s2 & -> & ? & ?); [lia..|].
    exists s2. split; [done|]. rewrite fmap_app, sum_of_app. unfold sum_of in *. cbn. lia.
  - exists s'. split; [done|]. split; [apply Hi|]. etrans; [apply Hi|].
    apply sum_of_submseteq; [done|]. apply map_iter_files.
Qed.

(** When the sizes listed by each manifest sum to less than 2^64 and the
    chunks of the target, at the assumed average size, to less than 2^64
    bytes, [compute_diff] returns a result in both build profiles and the
    totals are exact: the transfer size is the average chunk size times the
    number of chunk references. *)
Theorem compute_diff_no_overflow self source target :
  Forall (λ f, 0 ≤ fsize f) (files source) → Forall (λ f, 0 ≤ fsize f) (files target) →
  bytes_of (files source) < 2 ^ 64 → bytes_of (files target) < 2 ^ 64 →
  chunks_of (files target) * AVERAGE_CHUNK_SIZE < 2 ^ 64 →
  ∃ d, compute_diff (E:=E) checked self source target = Ok d ∧
    total_transfer_size d = total_chunks (stats d) * AVERAGE_CHUNK_SIZE.
Proof.
  intros Hs Ht Hsb Htb Hc.
  destruct (target_loop_ok self source target) as (s1 & E1 & Hd & _); [done..|].
  destruct (source_loop_ok source target s1) as (s2 & E2 & _); [done..|].
  assert (0 < AVERAGE_CHUNK_SIZE) as Havg by done.
  pose proof (found_chunk_total self (file_map (files source)) (file_map (files target))
    (map_iter (file_map (files target))) (map_iter (file_map (files source)))) as Hf.
  set (found := found_changes _ _ _ _ _) in Hf.
  assert (sum_of (λ pt, zlen (chunk_hashes pt.2)) (map_iter (file_map (files target)))
    ≤ chunks_of (files target)) as Hle.
  { replace (sum_of _ _) with (chunks_of (map_iter (file_map (files target))).*2).
    - apply sum_of_submseteq; [intros; apply zlen_nonneg|apply map_iter_files].
    - unfold chunks_of, sum_of. f_equal. apply map_map. }
  destruct (transfer_total found) as [Hnn Hsum].
  { intros c Hin. apply elem_of_found_changes in Hin. by apply classify_transfer in Hin as [? _]. }
  { assert (chunk_total found * AVERAGE_CHUNK_SIZE ≤ chunks_of (files target) * AVERAGE_CHUNK_SIZE);
    [apply Z.mul_le_mono_nonneg_r; lia|lia]. }
  pose proof (inv_changes _ _ (loops_found checked self _ _ _ _ E1 E2)) as Ecs. fold found in Ecs.
  assert (∃ d, compute_diff (E:=E) checked self source target = Ok d) as (d & Hok).
  { unfold compute_diff. rewrite E1. cbn [mbind outcome_bind]. rewrite E2. cbn [mbind outcome_bind].
    rewrite Ecs, sum_u64_exact by first [done|nia]. by eexists. }
  exists d. split; [done|]. apply compute_diff_raw in Hok as (_ & _ & Htot & _ & _ & Htc & _).
  fold found in Htot, Htc. rewrite Htot, Htc, Hsum, wrap_small by nia. done.
Qed.
End no_overflow.

(** ** The incremental tracker *)

Section tracker.
Context `{Hex, Blake3, MapIter} (checked : bool) {E : Type}.

Lemma elem_of_acknowledged acked (pend : list FileChange) c' :
  c' ∈ filter (λ c, required_chunks c ≠ []) (map (drop_chunks acked) pend) ↔
  required_chunks c' ≠ [] ∧ ∃ c, c ∈ pend ∧ c' = drop_chunks acked c.
Proof. rewrite list_elem_of_filter, list_elem_of_fmap. naive_solver. Qed.

(** What is pending for a peer, as a list. *)
Definition pending_list (self : IncrementalDiff) (peer_id : string) : list FileChange :=
  default [] (get_pending self peer_id).

Lemma pending_acknowledge self peer_id acked q :
  pending_list (acknowledge_changes self peer_id acked) q =
  if decide (q = peer_id)
  then filter (λ c, required_chunks c ≠ []) (map (drop_chunks acked) (pending_list self q))
  else pending_list self q.
Proof.
  unfold pending_list, get_pending, acknowledge_changes.
  destruct (pending_changes self !! peer_id) as [pend|] eqn:Ep; simpl.
  - case_decide as Hq; subst; case_bool_decide as Hnil;
      rewrite ?lookup_delete_eq, ?lookup_insert_eq, ?lookup_delete_ne, ?lookup_insert_ne by done;
      rewrite ?Ep; simpl; congruence.
  - case_decide; subst; [|done]. by rewrite Ep.
Qed.

(** After [compute_incremental], the changes pending for the peer are
    those of the difference when it has any (and are left as they were when it
    has none), and the version is recorded; an acknowledgement leaves pending
    exactly the changes that still miss a chunk, with the chunks they still
    miss, and does not touch other peers; acknowledging every required chunk
    leaves nothing pending. *)
Theorem incremental_cycle self peer_id current_manifest peer_manifest tr d :
  compute_incremental (E:=E) checked self peer_id current_manifest peer_manifest = Ok (tr, d) →
  compute_diff (E:=E) checked (diff_computer self) peer_manifest current_manifest = Ok d ∧
  last_versions tr !! peer_id = Some (version current_manifest) ∧
  (∀ q, pending_list tr q =
    if decide (q = peer_id ∧ changes d ≠ []) then changes d else pending_list self q) ∧
  (∀ acked q c', c' ∈ pending_list (acknowledge_changes tr peer_id acked) q ↔
    if decide (q = peer_id)
    then required_chunks c' ≠ [] ∧ ∃ c, c ∈ pending_list tr q ∧ c' = drop_chunks acked c
    else c' ∈ pending_list tr q) ∧
  (∀ acked, changes d ≠ [] → (∀ h, h ∈ all_required_chunks d → h ∈ acked) →
    get_pending (acknowledge_changes tr peer_id acked) peer_id = None).
Proof.
  intros Hi. unfold compute_incremental in Hi. apply bind_Ok in Hi as (d' & Hd & Hi).
  injection Hi as <- <-. split; [done|]. simpl. split; [by rewrite lookup_insert_eq|].
  set (tr := {| last_versions := _ |}).
  assert (∀ q, pending_list tr q =
    if decide (q = peer_id ∧ changes d' ≠ []) then changes d' else pending_list self q) as Hpend.
  { intros q. unfold pending_list, get_pending, tr, diff_has_changes. simpl.
    case_bool_decide as Hnil; simpl.
    - rewrite decide_False by tauto. done.
    - destruct (decide (q = peer_id)) as [->|Hq].
      + by rewrite decide_True, lookup_insert_eq.
      + by rewrite decide_False, lookup_insert_ne by (try tauto; done). }
  split_and!; [done| |].
  - intros acked q c'. rewrite pending_acknowledge. case_decide; [|done].
    apply elem_of_acknowledged.
  - intros acked Hch Hall. pose proof (pending_acknowledge tr peer_id acked peer_id) as Hp.
    rewrite decide_True in Hp by done. rewrite Hpend, decide_True in Hp by done.
    assert (filter (λ c, required_chunks c ≠ []) (map (drop_chunks acked) (changes d')) = []) as Hnil.
    { apply elem_of_nil_inv. intros c'. rewrite elem_of_acknowledged. intros [Hne (c & Hc & ->)].
      apply Hne, elem_of_nil_inv. intros h [Hn Hh]%list_elem_of_filter. apply Hn, Hall.
      apply (compute_diff_required _ _ _ _ _ h Hd). by exists c. }
    unfold acknowledge_changes, get_pending, tr, diff_has_changes. simpl.
    rewrite (bool_decide_eq_false_2 _ Hch). simpl. rewrite lookup_insert_eq, Hnil. simpl.
    apply lookup_delete_eq.
Qed.

(** Any acknowledgement of a peer, even of no chunk at all, drops every
    pending deletion and metadata change: they need no chunk, so they count as
    fully transferred although the peer has not acknowledged them. *)
Theorem acknowledgement_forgets_deletions self peer_id current_manifest peer_manifest tr d acked :
  compute_incremental (E:=E) checked self peer_id current_manifest peer_manifest = Ok (tr, d) →
  changes d ≠ [] →
  ∀ c, c ∈ pending_list (acknowledge_changes tr peer_id acked) peer_id →
    change_type c ≠ Deleted ∧ change_type c ≠ MetadataOnly.
Proof.
  intros Hi Hch c'. rewrite pending_acknowledge, decide_True, elem_of_acknowledged by done.
  unfold compute_incremental in Hi. apply bind_Ok in Hi as (d' & Hd & Hi). injection Hi as <- <-.
  unfold pending_list, get_pending, diff_has_changes. simpl.
  rewrite (bool_decide_eq_false_2 _ Hch). simpl. rewrite lookup_insert_eq. simpl.
  intros [Hne (c & Hc & ->)]. apply (compute_diff_changes _ _ _ _ _ c Hd) in Hc.
  assert (required_chunks c ≠ []) as Hreq by (intros E0; apply Hne; simpl; by rewrite E0).
  simpl. revert Hc. generalize (change_path c). intros p. unfold classify.
  destruct (file_map _ !! _), (file_map _ !! _); repeat case_decide; intros [= <-];
    simpl in *; done.
Qed.
End tracker.

(** ** Concrete inputs *)

Module Examples.
#[local] Existing Instance RefHash.hex.
#[local] Existing Instance RefHash.hash.
#[local] Existing Instance gmap_order.

Definition file (p c : string) (n : Z) (chunks : list string) : ManifestEntry :=
  {| path := p; fsize := n; modified_at := 0; content_hash := c;
     chunk_hashes := chunks; mode := None |}.
Definition manifest (v : Z) (fs : list ManifestEntry) : Manifest :=
  set_files (new 0 "test" v) fs.
Definition old : Manifest := manifest 1
  [file "keep" "k" 5 ["c1"]; file "mod" "m1" 10 ["c1"; "c2"]; file "gone" "g" 7 ["c9"];
   file "meta" "x1" 4 ["c3"]].
Definition cur : Manifest := manifest 2
  [file "keep" "k" 5 ["c1"]; file "mod" "m2" 12 ["c2"; "c4"]; file "new" "n" 3 ["c5"; "c3"];
   file "meta" "x2" 4 ["c3"]].
Definition computer : DiffComputer := DiffComputer_new {["c3"]}.
Definition result : DiffResult :=
  from_ok (Build_DiffResult [] 0 ∅ DiffStats_default None)
    (compute_diff (E:=unit) true computer old cur).
Definition tracker : IncrementalDiff * DiffResult :=
  from_ok (IncrementalDiff_new ∅, result)
    (compute_incremental (E:=unit) true (IncrementalDiff_new {["c3"]}) "peer" cur old).

Example result_shape :
  map (λ c, (change_path c, change_type c, required_chunks c)) (changes result)
  = [("mod", Modified, ["c4"]); ("new", Added, ["c5"]);
     ("meta", MetadataOnly, []); ("gone", Deleted, [])]%string.
Proof. by vm_compute. Qed.

Lemma compute_diff_correct_witness :
  NoDup (map change_path (changes result)) ∧ files_deleted (stats result) = 1.
Proof.
  destruct (compute_diff_correct true (E:=unit) computer old cur result) as (_ & Hnd & _).
  - by vm_compute.
  - split; [exact Hnd|by vm_compute].
Defined.

Lemma required_chunks_sufficient_witness : "c3" ∉ all_required_chunks result.
Proof.
  intros Hin.
  destruct (required_chunks_sufficient true (E:=unit) computer old cur result) as [_ Hc].
  - by vm_compute.
  - apply (Hc _ Hin). apply (bool_decide_unpack _). by vm_compute.
Defined.

Lemma compute_diff_no_overflow_witness : ∃ d,
  compute_diff (E:=unit) true computer old cur = Ok d ∧
  total_transfer_size d = total_chunks (stats d) * AVERAGE_CHUNK_SIZE.
Proof.
  apply compute_diff_no_overflow;
    [apply (bool_decide_unpack _); by vm_compute..|by vm_compute|by vm_compute|by vm_compute].
Defined.

Lemma incremental_cycle_witness :
  get_pending (acknowledge_changes tracker.1 "peer" ["c4"; "c5"]) "peer" = None.
Proof.
  destruct (incremental_cycle true (E:=unit) (IncrementalDiff_new {["c3"]}) "peer" cur old
    tracker.1 tracker.2) as (_ & _ & _ & _ & Hack).
  - by vm_compute.
  - apply Hack; [by vm_compute|]. change (set_Forall (λ h, h ∈ ["c4"; "c5"]) (all_required_chunks tracker.2)).
    apply (bool_decide_unpack _). by vm_compute.
Defined.

Lemma acknowledgement_forgets_deletions_witness :
  Exists (λ c, change_type c = Deleted) (changes tracker.2) ∧
  ∀ c, c ∈ pending_list (acknowledge_changes tracker.1 "peer" []) "peer" →
    change_type c ≠ Deleted ∧ change_type c ≠ MetadataOnly.
Proof.
  split; [apply (bool_decide_unpack _); by vm_compute|].
  apply (acknowledgement_forgets_deletions true (E:=unit) (IncrementalDiff_new {["c3"]}) "peer"
    cur old tracker.1 tracker.2); by vm_compute.
Defined.
End Examples.
