(* ===== verification/Conflict.v ===== *)
(** Conflict detection and resolution: landro-sync/src/conflict_detection.rs
    and landro-sync/src/conflict.rs.

    A detector compares the manifests of the two peers path by path and keeps
    the conflicts it found; [auto_resolve_conflict] chooses a version. *)

From S2P Require Import Prelude Bytes Manifest.
From Stdlib Require Import ZArith Lia.
From stdpp Require Import base option list gmap sets strings numbers sorting.
Open Scope Z_scope.

Inductive ConflictType := BothModified | DeletedModified | CreateCreate.
Inductive ConflictResolution := KeepLocal | KeepRemote | KeepNewer | Manual.
#[export] Instance ConflictType_eq_dec : EqDecision ConflictType.
Proof. solve_decision. Defined.
#[export] Instance ConflictResolution_eq_dec : EqDecision ConflictResolution.
Proof. solve_decision. Defined.

Record Conflict := {
  file_path : string;
  conflict_type : ConflictType;
  local_entry : option ManifestEntry;
  remote_entry : option ManifestEntry;
  detected_at : DateTime;
  resolved : bool;
}.

Record ConflictDetectionConfig := {
  default_resolution : ConflictResolution;
  simultaneous_change_window : Z;
  auto_resolve : bool;
}.

(** [Duration]s are in seconds. *)
Definition ConflictDetectionConfig_default : ConflictDetectionConfig :=
  {| default_resolution := KeepNewer; simultaneous_change_window := 10; auto_resolve := true |}.

Record ConflictDetector := {
  config : ConflictDetectionConfig;
  detected_conflicts : gmap string Conflict;
}.

Definition new (config : ConflictDetectionConfig) : ConflictDetector :=
  {| config := config; detected_conflicts := ∅ |}.

Definition set_conflicts (self : ConflictDetector) (m : gmap string Conflict) : ConflictDetector :=
  {| config := config self; detected_conflicts := m |}.

(** [now] is the value of [Utc::now()] when a conflict is found. *)
Definition check_file_conflict (now : DateTime) (path : string)
    (local_entry remote_entry : option ManifestEntry)
    (last_sync_time : option DateTime) : option Conflict :=
  let conflict ty :=
    Some {| file_path := path; conflict_type := ty; local_entry := local_entry;
            remote_entry := remote_entry; detected_at := now; resolved := false |} in
  match local_entry, remote_entry with
  | Some local, Some remote =>
      if decide (content_hash local ≠ content_hash remote) then
        match last_sync_time with
        | Some last_sync =>
            let local_modified_since := last_sync <? modified_at local in
            let remote_modified_since := last_sync <? modified_at remote in
            if local_modified_since && remote_modified_since then conflict BothModified else None
        | None => conflict BothModified
        end
      else None
  | Some local, None =>
      match last_sync_time with
      | Some last_sync =>
          if last_sync <? modified_at local then conflict DeletedModified else None
      | None => None
      end
  | None, Some remote =>
      match last_sync_time with
      | Some last_sync =>
          if last_sync <? modified_at remote then conflict DeletedModified else None
      | None => None
      end
  | None, None => None
  end.

Section detect.
Context `{MapIter}.

(** [now path] is the clock when [path] is examined. *)
Definition detect_conflicts (now : string → DateTime) (self : ConflictDetector)
    (local_manifest remote_manifest : Manifest) (last_sync_time : option DateTime) :
    ConflictDetector * list Conflict :=
  let local_files := file_map (files local_manifest) in
  let remote_files := file_map (files remote_manifest) in
  let all_paths : gset string := dom local_files ∪ dom remote_files in
  foldl (λ '(self, conflicts) path,
    match check_file_conflict (now path) path (local_files !! path) (remote_files !! path)
            last_sync_time with
    | Some conflict =>
        (set_conflicts self (<[path := conflict]> (detected_conflicts self)),
         conflicts ++ [conflict])
    | None => (self, conflicts)
    end) (self, []) (set_iter all_paths).

Definition get_conflicts (self : ConflictDetector) : list Conflict :=
  map snd (map_iter (detected_conflicts self)).
Definition get_unresolved_conflicts (self : ConflictDetector) : list Conflict :=
  filter (λ c, resolved c = false) (map snd (map_iter (detected_conflicts self))).
End detect.

Definition set_resolved (c : Conflict) (b : bool) : Conflict :=
  {| file_path := file_path c; conflict_type := conflict_type c; local_entry := local_entry c;
     remote_entry := remote_entry c; detected_at := detected_at c; resolved := b |}.

(** The conflict passed by reference is returned with the resolution; the
    detector itself is not changed. *)
Definition auto_resolve_conflict (self : ConflictDetector) (conflict : Conflict) :
    Conflict * ConflictResolution :=
  if negb (auto_resolve (config self)) then (conflict, Manual)
  else
    let resolution :=
      match conflict_type conflict with
      | BothModified =>
          match local_entry conflict, remote_entry conflict with
          | Some local, Some remote =>
              match default_resolution (config self) with
              | KeepNewer =>
                  if modified_at remote <? modified_at local then KeepLocal
                  else if modified_at local <? modified_at remote then KeepRemote
                  else KeepLocal
              | other => other
              end
          | _, _ => Manual
          end
      | DeletedModified =>
          match local_entry conflict with Some _ => KeepLocal | None => KeepRemote end
      | CreateCreate => default_resolution (config self)
      end in
    (set_resolved conflict (negb (bool_decide (resolution = Manual))), resolution).

Definition mark_resolved (self : ConflictDetector) (file_path : string) : ConflictDetector :=
  match detected_conflicts self !! file_path with
  | Some conflict =>
      set_conflicts self (<[file_path := set_resolved conflict true]> (detected_conflicts self))
  | None => self
  end.

Definition clear_resolved_conflicts (self : ConflictDetector) : ConflictDetector :=
  set_conflicts self (filter (λ '(_, c), resolved c = false) (detected_conflicts self)).

(** landro-sync/src/conflict.rs: the resolver that only returns its default. *)
Module Resolver.
Inductive ConflictType := ModifiedBoth | DeletedVsModified | TypeMismatch.
Inductive ConflictResolution := KeepOurs | TakeTheirs | KeepBoth | Merge | Manual.
Record ConflictResolver := { default_strategy : ConflictResolution }.
Definition new (default_strategy : ConflictResolution) : ConflictResolver :=
  {| default_strategy := default_strategy |}.
Definition resolve (self : ConflictResolver) (_conflict_type : ConflictType) : ConflictResolution :=
  default_strategy self.
End Resolver.

(** ** Specification *)

(** A version was written after the last synchronisation. *)
Definition modified_since (last_sync : option DateTime) (e : ManifestEntry) : Prop :=
  match last_sync with Some t => t < modified_at e | None => True end.

(** When the two sides of a path are in conflict. *)
Definition in_conflict (last_sync : option DateTime) (l r : option ManifestEntry) : Prop :=
  match l, r with
  | Some l, Some r =>
      content_hash l ≠ content_hash r ∧ modified_since last_sync l ∧ modified_since last_sync r
  | Some e, None | None, Some e => is_Some last_sync ∧ modified_since last_sync e
  | None, None => False
  end.

Lemma check_file_conflict_spec now p l r t c :
  check_file_conflict now p l r t = Some c ↔
  in_conflict t l r ∧
  c = {| file_path := p;
         conflict_type := match l, r with Some _, Some _ => BothModified | _, _ => DeletedModified end;
         local_entry := l; remote_entry := r; detected_at := now; resolved := false |}.
Proof.
  unfold check_file_conflict, in_conflict, modified_since.
  assert (∀ a b, (a <? b) = true ↔ a < b) as Hlt by (intros; lia).
  destruct l as [l|], r as [r|], t as [t|]; repeat case_decide; repeat case_if;
    rewrite ?andb_true_iff, ?andb_false_iff, <-?not_true_iff_false, ?Hlt in *; naive_solver.
Qed.

Lemma check_file_conflict_entries now p l r t c : check_file_conflict now p l r t = Some c →
  file_path c = p ∧ in_conflict t l r ∧ resolved c = false ∧ local_entry c = l ∧ remote_entry c = r ∧
  (conflict_type c = BothModified ↔ is_Some (local_entry c) ∧ is_Some (remote_entry c)).
Proof.
  intros Hc. apply check_file_conflict_spec in Hc as [Hin ->]. simpl. split_and!; try done.
  destruct l, r; simpl; split; try done; intros [[? ?] [? ?]]; done.
Qed.

(** The loop of [detect_conflicts], for any check. *)
Lemma detect_loop (chk : string → option Conflict) ps self cs : NoDup ps →
  let r := foldl (λ '(self, conflicts) path,
    match chk path with
    | Some conflict =>
        (set_conflicts self (<[path := conflict]> (detected_conflicts self)),
         conflicts ++ [conflict])
    | None => (self, conflicts) end) (self, cs) ps in
  r.2 = cs ++ omap chk ps ∧ config r.1 = config self ∧
  ∀ p, detected_conflicts r.1 !! p =
    match (if decide (p ∈ ps) then chk p else None) with
    | Some c => Some c | None => detected_conflicts self !! p end.
Proof.
  revert self cs. induction ps as [|q ps IH]; intros d cs Hnd; cbn [foldl].
  { simpl. rewrite app_nil_r. split_and!; try done. }
  apply NoDup_cons in Hnd as [Hq Hnd]. cbn [omap list_omap].
  assert (∀ p, p ≠ q → bool_decide (p ∈ q :: ps) = bool_decide (p ∈ ps)) as Hin.
  { intros p Hp. apply bool_decide_ext. set_solver. }
  destruct (chk q) as [c|] eqn:Ec; edestruct IH as (-> & -> & Hp); [done| |done|];
    rewrite <-?app_assoc; (split_and!; [done..|]); intros p; rewrite Hp; simpl;
    destruct (decide (p = q)) as [->|Hpq].
  - rewrite decide_False, decide_True by set_solver. by rewrite Ec, lookup_insert_eq.
  - rewrite lookup_insert_ne by done. by rewrite !decide_bool_decide, Hin.
  - rewrite decide_False, decide_True by set_solver. by rewrite Ec.
  - by rewrite !decide_bool_decide, Hin.
Qed.

Lemma omap_paths_NoDup (chk : string → option Conflict) ps : NoDup ps →
  (∀ p c, chk p = Some c → file_path c = p) → NoDup (map file_path (omap chk ps)).
Proof.
  intros Hnd Hchk. induction Hnd as [|q ps Hq Hnd IH]; cbn; [constructor|].
  destruct (chk q) as [c|] eqn:Ec; [|done]. cbn. constructor; [|done].
  intros (c' & E & (q' & Hq' & Hc')%list_elem_of_omap)%list_elem_of_fmap.
  apply Hchk in Ec as <-. apply Hchk in Hc' as <-. by rewrite E in Hq.
Qed.

(** The version that is left at a path after one peer applies a resolution. *)
Definition surviving (res : ConflictResolution) (c : Conflict) : option ManifestEntry :=
  match res with
  | KeepLocal => local_entry c
  | KeepRemote => remote_entry c
  | KeepNewer | Manual => None
  end.

Section theorems.
Context `{MapIter}.
Implicit Types self : ConflictDetector.

(** [detect_conflicts] reports, whatever the order in which paths are
    examined, exactly one conflict for each path that is in conflict: both
    sides have the file with different contents, each written after the last
    synchronisation (or there was none), or only one side has the file and
    wrote it after the last synchronisation. The detector remembers the
    latest conflict of each path and keeps the others. *)
Theorem detect_conflicts_correct now self local remote t :
  let lf := file_map (files local) in
  let rf := file_map (files remote) in
  let r := detect_conflicts now self local remote t in
  (∀ p, (∃ c, c ∈ r.2 ∧ file_path c = p) ↔ in_conflict t (lf !! p) (rf !! p)) ∧
  NoDup (map file_path r.2) ∧
  (∀ c, c ∈ r.2 → resolved c = false ∧ local_entry c = lf !! file_path c ∧
     remote_entry c = rf !! file_path c ∧
     (conflict_type c = BothModified ↔ is_Some (local_entry c) ∧ is_Some (remote_entry c))) ∧
  (∀ p, detected_conflicts r.1 !! p =
     match check_file_conflict (now p) p (lf !! p) (rf !! p) t with
     | Some c => Some c | None => detected_conflicts self !! p end) ∧
  config r.1 = config self.
Proof.
  intros lf rf r. set (chk p := check_file_conflict (now p) p (lf !! p) (rf !! p) t).
  destruct (detect_loop chk (set_iter (dom lf ∪ dom rf)) self []) as (Hcs & Hcfg & Hdet);
    [apply NoDup_set_iter|]. change (foldl _ _ _) with r in Hcs, Hcfg, Hdet. simpl in Hcs.
  assert (∀ p c, chk p = Some c → p ∈ set_iter (dom lf ∪ dom rf)) as Hdom.
  { intros p c (_ & Hin & _)%check_file_conflict_entries. apply elem_of_set_iter, elem_of_union.
    rewrite !elem_of_dom. destruct (lf !! p), (rf !! p); try done; eauto. }
  rewrite Hcs. split_and!; [| | | |done].
  - intros p. setoid_rewrite list_elem_of_omap. split.
    + by intros (c & (q & _ & (-> & ? & _)%check_file_conflict_entries) & <-).
    + intros Hin. destruct (chk p) as [c|] eqn:Ec.
      * exists c. split; [eauto|]. by apply check_file_conflict_entries in Ec as [? _].
      * unfold chk in Ec. rewrite eq_None_not_Some in Ec. destruct Ec.
        eexists. by apply check_file_conflict_spec.
  - apply omap_paths_NoDup; [apply NoDup_set_iter|].
    by intros p c [? _]%check_file_conflict_entries.
  - by intros c (p & _ & (-> & _ & ?)%check_file_conflict_entries)%list_elem_of_omap.
  - intros p. rewrite Hdet. fold (chk p). case_decide as Hp; [done|].
    destruct (chk p) eqn:Ec; [|done]. by apply Hdom in Ec.
Qed.

(** Two peers that see the same conflict from their two sides, both with
    the default configuration, keep the same version of the file, which is the
    newer one or the one that exists, except when both versions carry the same
    modification time: then each peer keeps its own. *)
Theorem default_resolution_converges nowA nowB p l r t cA cB dA dB :
  config dA = ConflictDetectionConfig_default → config dB = ConflictDetectionConfig_default →
  check_file_conflict nowA p l r t = Some cA → check_file_conflict nowB p r l t = Some cB →
  let kept_A := surviving (auto_resolve_conflict dA cA).2 cA in
  let kept_B := surviving (auto_resolve_conflict dB cB).2 cB in
  (kept_A = kept_B ↔ modified_at <$> l ≠ modified_at <$> r) ∧
  (kept_A ≠ kept_B → kept_A = l ∧ kept_B = r) ∧
  (∀ e, kept_A = Some e → Some e = l ∨ Some e = r) ∧
  (∀ e e', kept_A = Some e → Some e' = l ∨ Some e' = r → modified_at e' ≤ modified_at e) ∧
  resolved (auto_resolve_conflict dA cA).1 = true.
Proof.
  intros EA EB [Hin ->]%check_file_conflict_spec [_ ->]%check_file_conflict_spec.
  unfold auto_resolve_conflict. rewrite EA, EB. simpl.
  destruct l as [l|], r as [r|]; simpl; [|naive_solver lia..].
  destruct Hin as (Hne & _).
  assert (l ≠ r) as Hlr by naive_solver.
  destruct (Z.ltb_spec (modified_at r) (modified_at l)), (Z.ltb_spec (modified_at l) (modified_at r));
    try lia; simpl; (split; [split; [intros E [=]|intros E]|split_and!]); try done; try lia;
    try (intros; simplify_eq; naive_solver lia); try congruence.
  destruct E. f_equal. lia.
Qed.
End theorems.

(** ** Concrete inputs *)

Module Examples.
Definition entry (h : string) (t : DateTime) : ManifestEntry :=
  {| path := "f"; fsize := 1; modified_at := t; content_hash := h;
     chunk_hashes := []; mode := None |}.
Definition detector : ConflictDetector := new ConflictDetectionConfig_default.

(** The later version wins on both peers, but with equal times they diverge. *)
Lemma default_resolution_converges_witness :
  let l := entry "h1" 30 in let r := entry "h2" 40 in let r' := entry "h2" 30 in
  let mk a b := default (Build_Conflict "" CreateCreate None None 0 true)
                  (check_file_conflict 100 "f" (Some a) (Some b) (Some 20)) in
  surviving (auto_resolve_conflict detector (mk l r)).2 (mk l r)
    = surviving (auto_resolve_conflict detector (mk r l)).2 (mk r l) ∧
  surviving (auto_resolve_conflict detector (mk l r')).2 (mk l r')
    ≠ surviving (auto_resolve_conflict detector (mk r' l)).2 (mk r' l).
Proof.
  intros l r r' mk. split.
  - apply (default_resolution_converges 100 100 "f" (Some l) (Some r) (Some 20)); done.
  - rewrite (proj1 (default_resolution_converges 100 100 "f" (Some l) (Some r') (Some 20)
      (mk l r') (mk r' l) detector detector eq_refl eq_refl eq_refl eq_refl)).
    by intros [].
Defined.
End Examples.
