(* ===== verification/Transfer.v ===== *)
(** Transfer scheduling and progress: landro-sync/src/scheduler.rs and
    landro-sync/src/progress.rs.

    The priority queue is the crate [priority_queue]: a map from items to
    priorities with [push] (which replaces the priority of an item already
    queued) and a [pop] that takes an item of greatest priority; which one of
    several is not specified. Percentages are [f32] and are not modelled. *)

From S2P Require Import Prelude.
From Stdlib Require Import ZArith Lia.
From stdpp Require Import base option list gmap sets strings numbers sorting.
Open Scope Z_scope.

Inductive TransferPriority := Low | Normal | High | Critical.
#[export] Instance TransferPriority_eq_dec : EqDecision TransferPriority.
Proof. solve_decision. Defined.

(** The derived order follows the discriminants. *)
Definition level (p : TransferPriority) : Z :=
  match p with Low => 0 | Normal => 1 | High => 2 | Critical => 3 end.

Record TransferRequest := {
  peer_id : string;
  chunk_hash : string;
  file_path : string;
  rsize : Z;
}.
#[export] Instance TransferRequest_eq_dec : EqDecision TransferRequest.
Proof. solve_decision. Defined.
#[export] Program Instance TransferRequest_countable : Countable TransferRequest :=
  inj_countable' (λ r, (peer_id r, chunk_hash r, file_path r, rsize r))
    (λ '(p, c, f, s), Build_TransferRequest p c f s) _.
Next Obligation. by intros []. Qed.

Abbreviation Queue := (gmap TransferRequest TransferPriority).

(** The item that [PriorityQueue::pop] takes. *)
Class PriorityQueue := {
  peek : Queue → option TransferRequest;
  peek_None q : peek q = None ↔ q = ∅;
  peek_Some q r : peek q = Some r →
    ∃ p, q !! r = Some p ∧ ∀ r' p', q !! r' = Some p' → level p' ≤ level p;
}.

Record TransferScheduler := {
  queue : Queue;
  max_concurrent : Z;
  active_transfers : Z;
}.

Definition new (max_concurrent : Z) : TransferScheduler :=
  {| queue := ∅; max_concurrent := max_concurrent; active_transfers := 0 |}.

Definition schedule (self : TransferScheduler) (request : TransferRequest)
    (priority : TransferPriority) : TransferScheduler :=
  {| queue := <[request := priority]> (queue self);
     max_concurrent := max_concurrent self; active_transfers := active_transfers self |}.

Definition next_transfer `{PriorityQueue} (self : TransferScheduler) :
    TransferScheduler * option TransferRequest :=
  if max_concurrent self <=? active_transfers self then (self, None)
  else
    match peek (queue self) with
    | Some request =>
        ({| queue := delete request (queue self); max_concurrent := max_concurrent self;
            active_transfers := active_transfers self + 1 |}, Some request)
    | None => (self, None)
    end.

Definition complete_transfer (self : TransferScheduler) : TransferScheduler :=
  if 0 <? active_transfers self then
    {| queue := queue self; max_concurrent := max_concurrent self;
       active_transfers := active_transfers self - 1 |}
  else self.

Definition pending_count (self : TransferScheduler) : Z := Z.of_nat (size (queue self)).
Definition active_count (self : TransferScheduler) : Z := active_transfers self.

(** [SyncProgress] and [TransferProgress]. *)
Record SyncProgress := {
  total_files : Z;
  completed_files : Z;
  total_bytes : Z;
  transferred_bytes : Z;
}.
Definition SyncProgress_new : SyncProgress :=
  {| total_files := 0; completed_files := 0; total_bytes := 0; transferred_bytes := 0 |}.
Definition is_complete (p : SyncProgress) : bool :=
  (completed_files p =? total_files p) && (transferred_bytes p =? total_bytes p).

(** ** Runs of the scheduler *)

(** The calls a client can make, with the request handed out by [next_transfer]. *)
Inductive step `{PriorityQueue} : TransferScheduler → TransferScheduler → Prop :=
  | step_schedule s r p : step s (schedule s r p)
  | step_next s : step s (next_transfer s).1
  | step_complete s : step s (complete_transfer s).

Definition scheduler_inv (s : TransferScheduler) : Prop :=
  0 ≤ active_transfers s ≤ Z.max 0 (max_concurrent s).

Section theorems.
Context `{PriorityQueue}.

(** In every state the scheduler can reach, at most [max_concurrent]
    transfers are active; and then [next_transfer] hands out a request exactly
    when a slot is free and a request is queued, a queued one of greatest
    priority, which it removes from the queue and counts as active. *)
Theorem scheduler_respects_limit m s : 0 ≤ m → rtc step (new m) s →
  max_concurrent s = m ∧ 0 ≤ active_count s ≤ m ∧
  match (next_transfer s).2 with
  | Some r => active_count s < m ∧ (∃ p, queue s !! r = Some p ∧
        ∀ r' p', queue s !! r' = Some p' → level p' ≤ level p) ∧
      queue (next_transfer s).1 = delete r (queue s) ∧
      active_count (next_transfer s).1 = active_count s + 1 ∧
      pending_count (next_transfer s).1 = pending_count s - 1
  | None => (active_count s = m ∨ pending_count s = 0) ∧ (next_transfer s).1 = s
  end.
Proof.
  intros Hm Hs. assert (max_concurrent s = m ∧ 0 ≤ active_count s ≤ m) as [Emax Hact].
  { remember (new m) as s0 eqn:E0. assert (max_concurrent s0 = m ∧ 0 ≤ active_count s0 ≤ m) as H0
      by (subst; simpl; lia). clear E0. unfold active_count in *.
    induction Hs as [|s0 s1 s2 Hstep _ IH]; [done|]. apply IH.
    destruct Hstep as [|s|s]; simpl; [lia| |].
    - unfold next_transfer. case_if; [done|]. destruct (peek _); simpl; lia.
    - unfold complete_transfer. case_if; simpl; lia. }
  split_and!; [done|apply Hact..|].
  unfold next_transfer, active_count, pending_count in *. case_if; simpl.
  - split; [left; lia|done].
  - destruct (peek (queue s)) as [r|] eqn:Er; simpl.
    + destruct (peek_Some _ _ Er) as (p & Hp & Hmax). split_and!; [lia|eauto|done|done|].
      rewrite map_size_delete, Hp. assert (size (queue s) ≠ 0%nat); [|lia].
      apply map_size_non_empty_iff. intros E. by rewrite E in Hp.
    + apply peek_None in Er. rewrite Er, map_size_empty. split; [by right|done].
Qed.
End theorems.

(** ** A concrete queue *)

Module Examples.
(** The first item of greatest priority. *)
Definition better (a b : TransferRequest * TransferPriority) :=
  if level a.2 <? level b.2 then b else a.
Fixpoint best (l : list (TransferRequest * TransferPriority)) :
    option (TransferRequest * TransferPriority) :=
  match l with
  | [] => None
  | a :: l => Some (match best l with Some b => better a b | None => a end)
  end.
Lemma best_None l : best l = None ↔ l = [].
Proof. by destruct l. Qed.
Lemma best_Some l a : best l = Some a → a ∈ l ∧ ∀ b, b ∈ l → level b.2 ≤ level a.2.
Proof.
  revert a. induction l as [|x l IH]; [done|]. intros a. cbn [best].
  destruct (best l) as [b|] eqn:E; intros [= <-].
  - destruct (IH b eq_refl) as [Hb Hmax]. unfold better. case_if as Hx.
    + split; [by right|]. intros c [->|Hc]%elem_of_cons; [lia|auto].
    + split; [by left|]. intros c [->|Hc]%elem_of_cons; [lia|].
      specialize (Hmax c Hc). lia.
  - apply best_None in E as ->. split; [by left|]. by intros c ->%list_elem_of_singleton.
Qed.
Definition pick (q : Queue) : option TransferRequest := fst <$> best (map_to_list q).
Lemma pick_None q : pick q = None ↔ q = ∅.
Proof. unfold pick. by rewrite fmap_None, best_None, map_to_list_empty_iff. Qed.
Lemma pick_Some q r : pick q = Some r →
  ∃ p, q !! r = Some p ∧ ∀ r' p', q !! r' = Some p' → level p' ≤ level p.
Proof.
  intros ([r' p] & Hb & ->)%fmap_Some. apply best_Some in Hb as [Hin Hmax].
  exists p. split; [by apply elem_of_map_to_list|].
  intros r'' p'' Hr. by apply (Hmax (r'', p'')), elem_of_map_to_list.
Qed.
Definition pqueue : PriorityQueue := {| peek_None := pick_None; peek_Some := pick_Some |}.
#[local] Existing Instance pqueue.

Definition req (h : string) : TransferRequest :=
  {| peer_id := "p"; chunk_hash := h; file_path := "f"; rsize := 1 |}.
Definition filled : TransferScheduler :=
  schedule (schedule (new 1) (req "a") Low) (req "b") Critical.

Lemma scheduler_respects_limit_witness :
  (next_transfer filled).2 = Some (req "b") ∧
  (next_transfer (next_transfer filled).1).2 = None ∧
  active_count (next_transfer filled).1 ≤ 1.
Proof.
  split; [by vm_compute|]. split; [by vm_compute|].
  apply (scheduler_respects_limit 1 (next_transfer filled).1); [done|].
  eapply rtc_l; [apply step_schedule|]. eapply rtc_l; [apply step_schedule|].
  eapply rtc_l; [apply step_next|]. apply rtc_refl.
Defined.
End Examples.
