(* ===== verification/Proto.v ===== *)
(** Protocol messages, limits, validation and version negotiation:
    landro-proto/src/lib.rs, landro-proto/src/validation.rs and the message
    types generated from landro-proto/proto/landro.proto. *)

From S2P Require Import Prelude Bytes.
From Stdlib Require Import Init.Byte Strings.Byte Strings.Ascii ZArith Lia.
From stdpp Require Import base option list gmap strings pretty numbers sorting.
Open Scope Z_scope.

(** ** Messages *)

(** [google.protobuf.Timestamp]: seconds and nanoseconds. *)
Abbreviation Timestamp := (Z * Z)%type.

Record Hello := {
  hello_version : string;
  hello_device_id : list byte;
  hello_device_name : string;
  hello_capabilities : list string;
  hello_timestamp : option Timestamp;
}.

Record FolderSummary := {
  fs_folder_id : string;
  fs_folder_path : string;
  fs_manifest_hash : list byte;
  fs_total_size : Z;
  fs_file_count : Z;
  fs_last_modified : option Timestamp;
}.

Record Want := {
  want_folder_id : string;
  want_chunk_hashes : list (list byte);
  want_priority : Z;
}.

Record Ack := {
  ack_request_id : string;
  ack_success : bool;
  ack_message : string;
}.

Inductive ErrorType :=
  | Unknown | ProtocolVersionMismatch | AuthenticationFailed | FolderNotFound
  | PermissionDenied | StorageFull | InvalidRequest.

(** [ErrorType as i32]. *)
Definition ErrorType_code (t : ErrorType) : Z :=
  match t with
  | Unknown => 0 | ProtocolVersionMismatch => 1 | AuthenticationFailed => 2
  | FolderNotFound => 3 | PermissionDenied => 4 | StorageFull => 5 | InvalidRequest => 6
  end.

Record ProtoError := {
  error_type : Z;
  error_message : string;
  error_details : string;
}.

Record FileEntry := {
  fe_path : string;
  fe_size : Z;
  fe_mode : Z;
  fe_modified : option Timestamp;
  fe_chunk_hashes : list (list byte);
  fe_content_hash : list byte;
}.

(** The message [Manifest]. *)
Record ManifestMsg := {
  mm_folder_id : string;
  mm_files : list FileEntry;
  mm_generated_at : option Timestamp;
  mm_manifest_hash : list byte;
}.

Record ChunkData := {
  cd_hash : list byte;
  cd_data : list byte;
  cd_compressed : bool;
  cd_uncompressed_size : Z;
}.

(** ** Strings

    A Rust string is the list of bytes of its UTF-8 form; [len] counts bytes. *)
Definition str_len (s : string) : Z := Z.of_nat (String.length s).
Definition code (c : ascii) : Z := Z.of_N (N_of_ascii c).

(** [chars]: the code points of a well-formed UTF-8 string. *)
Fixpoint chars (s : string) : list Z :=
  match s with
  | EmptyString => []
  | String a s1 =>
      if code a <? 128 then code a :: chars s1
      else
        match s1 with
        | EmptyString => [code a]
        | String b s2 =>
            if code a <? 224 then (code a - 192) * 64 + (code b - 128) :: chars s2
            else
              match s2 with
              | EmptyString => [code a]
              | String c s3 =>
                  if code a <? 240
                  then (code a - 224) * 4096 + (code b - 128) * 64 + (code c - 128) :: chars s3
                  else
                    match s3 with
                    | EmptyString => [code a]
                    | String d s4 =>
                        (code a - 240) * 262144 + (code b - 128) * 4096
                          + (code c - 128) * 64 + (code d - 128) :: chars s4
                    end
              end
        end
  end.

(** [char::is_control]: the general category Cc. *)
Definition is_control (c : Z) : bool := (c <=? 31) || ((127 <=? c) && (c <=? 159)).
Definition is_ascii_digit (c : Z) : bool := (48 <=? c) && (c <=? 57).
Definition is_ascii_hexdigit (c : Z) : bool :=
  is_ascii_digit c || ((65 <=? c) && (c <=? 70)) || ((97 <=? c) && (c <=? 102)).
Definition is_ascii_alphanumeric (c : Z) : bool :=
  is_ascii_digit c || ((65 <=? c) && (c <=? 90)) || ((97 <=? c) && (c <=? 122)).

(** [char::is_alphanumeric] follows the tables of the Unicode standard outside
    ASCII, which are data of the Rust standard library. *)
Class Unicode := {
  is_alphanumeric : Z → bool;
  is_alphanumeric_ascii c : c < 128 → is_alphanumeric c = is_ascii_alphanumeric c;
}.

(** [split(sep)]. *)
Fixpoint split (sep : ascii) (s : string) : list string :=
  match s with
  | EmptyString => [EmptyString]
  | String c s =>
      if decide (c = sep) then EmptyString :: split sep s
      else match split sep s with
           | [] => [String c EmptyString]
           | p :: ps => String c p :: ps
           end
  end.

(** [contains] and [starts_with]. *)
Fixpoint contains (s pat : string) : bool :=
  String.prefix pat s || match s with EmptyString => false | String _ s => contains s pat end.
Definition starts_with (s pat : string) : bool := String.prefix pat s.

(** [str::parse::<u32>]: decimal digits, after an optional plus sign. *)
Definition digit (c : ascii) : option Z :=
  if is_ascii_digit (code c) then Some (code c - 48) else None.
Fixpoint parse_digits (acc : Z) (s : string) : option Z :=
  match s with
  | EmptyString => Some acc
  | String c s =>
      d ← digit c;
      let acc := acc * 10 + d in
      if u32_max <? acc then None else parse_digits acc s
  end.
Definition parse_u32 (s : string) : option Z :=
  match s with
  | EmptyString => None
  | String c s' =>
      if decide (c = "+"%char)
      then match s' with EmptyString => None | _ => parse_digits 0 s' end
      else parse_digits 0 s
  end.

(** ** Versions *)

Definition PROTOCOL_VERSION : string := "0.1.0".
Definition PROTOCOL_VERSION_MAJOR : Z := 0.
Definition PROTOCOL_VERSION_MINOR : Z := 1.
Definition PROTOCOL_VERSION_PATCH : Z := 0.

Definition parse_version (version : string) : option (Z * Z * Z) :=
  match split "."%char version with
  | [p0; p1; p2] =>
      major ← parse_u32 p0; minor ← parse_u32 p1; patch ← parse_u32 p2;
      Some (major, minor, patch)
  | _ => None
  end.

Definition is_compatible (peer_version : string) : bool :=
  match parse_version peer_version with
  | Some (peer_major, _peer_minor, _peer_patch) => peer_major =? PROTOCOL_VERSION_MAJOR
  | None => false
  end.

(** [format!("{}.{}.{}", ..)]. *)
Definition dotted (major minor patch : Z) : string :=
  pretty major +:+ "." +:+ pretty minor +:+ "." +:+ pretty patch.

Definition compatibility_error (peer_version : string) : string :=
  match parse_version peer_version with
  | Some (peer_major, peer_minor, peer_patch) =>
      "Protocol version incompatible: peer " +:+ dotted peer_major peer_minor peer_patch
      +:+ ", we support "
      +:+ dotted PROTOCOL_VERSION_MAJOR PROTOCOL_VERSION_MINOR PROTOCOL_VERSION_PATCH
      +:+ " (major version must match)"
  | None =>
      "Invalid protocol version format '" +:+ peer_version
      +:+ "', expected format like '" +:+ PROTOCOL_VERSION +:+ "'"
  end.

(** ** Limits *)

Definition MAX_MESSAGE_SIZE : Z := 10 * 1024 * 1024.
Definition MAX_CHUNK_SIZE : Z := 16 * 1024 * 1024.
Definition MIN_CHUNK_SIZE : Z := 256.
Definition MAX_PATH_LENGTH : Z := 4096.
Definition MAX_DEVICE_NAME_LENGTH : Z := 256.
Definition MAX_MANIFEST_FILES : Z := 1000000.
Definition MAX_CHUNKS_PER_FILE : Z := 100000.
Definition MAX_CONCURRENT_TRANSFERS : Z := 100.
Definition MAX_PEERS : Z := 1000.
Definition MAX_FOLDER_ID_LENGTH : Z := 64.
Definition MAX_HASH_LENGTH : Z := 64.
Definition MAX_METADATA_SIZE : Z := 1024 * 1024.
Definition MAX_PAIRING_CODE_LENGTH : Z := 512.
Definition MAX_CAPABILITY_LENGTH : Z := 256.
Definition MAX_CAPABILITIES : Z := 100.

Inductive ValidationError :=
  | MessageTooLarge (size max : Z)
  | InvalidChunkSize (size min max : Z)
  | PathTooLong (length max : Z)
  | DeviceNameTooLong (length max : Z)
  | ManifestTooLarge (count max : Z)
  | TooManyChunks (count max : Z)
  | InvalidFolderIdLength (length max : Z)
  | InvalidHash (reason : string)
  | MetadataTooLarge (size max : Z)
  | InvalidPath (reason : string)
  | InvalidUtf8 (field : string)
  | MissingField (field : string)
  | InvalidVersion (version : string)
  | TooManyCapabilities (count max : Z).

Abbreviation validation := (outcome ValidationError unit).

(** ** [Validator] *)

Definition validate_message_size (size : Z) : validation :=
  fail_if (MAX_MESSAGE_SIZE <? size) (MessageTooLarge size MAX_MESSAGE_SIZE).

Definition validate_chunk_size (size : Z) : validation :=
  fail_if ((size <? MIN_CHUNK_SIZE) || (MAX_CHUNK_SIZE <? size))
    (InvalidChunkSize size MIN_CHUNK_SIZE MAX_CHUNK_SIZE).

Definition NUL : string := String Ascii.zero EmptyString.

Definition validate_path (path : string) : validation :=
  _ ← fail_if (MAX_PATH_LENGTH <? str_len path) (PathTooLong (str_len path) MAX_PATH_LENGTH);
  _ ← fail_if (contains path NUL) (InvalidPath "contains null bytes");
  _ ← fail_if (contains path "..") (InvalidPath "contains directory traversal");
  fail_if (starts_with path "/" || starts_with path "\")
    (InvalidPath "absolute paths not allowed").

Definition validate_device_name (name : string) : validation :=
  _ ← fail_if (str_len name =? 0) (MissingField "device_name");
  _ ← fail_if (MAX_DEVICE_NAME_LENGTH <? str_len name)
        (DeviceNameTooLong (str_len name) MAX_DEVICE_NAME_LENGTH);
  fail_if (existsb is_control (chars name)) (InvalidUtf8 "device_name").

Definition validate_folder_id `{Unicode} (id : string) : validation :=
  _ ← fail_if (str_len id =? 0) (MissingField "folder_id");
  _ ← fail_if (MAX_FOLDER_ID_LENGTH <? str_len id)
        (InvalidFolderIdLength (str_len id) MAX_FOLDER_ID_LENGTH);
  fail_if (negb (forallb (λ c, is_alphanumeric c || (c =? 45) || (c =? 95)) (chars id)))
    (InvalidPath "folder ID contains invalid characters").

Definition validate_hash (hash : string) : validation :=
  _ ← fail_if (str_len hash =? 0) (InvalidHash "empty hash");
  _ ← fail_if (negb (str_len hash =? 64))
        (InvalidHash ("invalid length: " +:+ pretty (str_len hash) +:+ " (expected 64)"));
  fail_if (negb (forallb is_ascii_hexdigit (chars hash))) (InvalidHash "not valid hexadecimal").

Definition validate_manifest_size (file_count : Z) : validation :=
  fail_if (MAX_MANIFEST_FILES <? file_count) (ManifestTooLarge file_count MAX_MANIFEST_FILES).

Definition validate_chunk_count (chunk_count : Z) : validation :=
  fail_if (MAX_CHUNKS_PER_FILE <? chunk_count) (TooManyChunks chunk_count MAX_CHUNKS_PER_FILE).

(** A [for] loop that returns the error of the first element that has one. *)
Definition check_all {A} (f : A → validation) (l : list A) : validation :=
  for_each l (λ _ x, f x) tt.

Definition validate_capabilities (capabilities : list string) : validation :=
  _ ← fail_if (MAX_CAPABILITIES <? zlen capabilities)
        (TooManyCapabilities (zlen capabilities) MAX_CAPABILITIES);
  check_all (λ cap, fail_if (MAX_CAPABILITY_LENGTH <? str_len cap)
                      (InvalidUtf8 ("capability '" +:+ cap +:+ "'"))) capabilities.

Definition validate_pairing_code (code : string) : validation :=
  _ ← fail_if (str_len code =? 0) (MissingField "pairing_code");
  fail_if (MAX_PAIRING_CODE_LENGTH <? str_len code) (InvalidUtf8 "pairing_code").

(** ** Validation of messages *)

Definition must_be_32 (what : string) (h : list byte) : validation :=
  fail_if (negb (zlen h =? 32)) (InvalidHash (what +:+ " must be 32 bytes, got " +:+ pretty (zlen h))).

Definition validate_hello (hello : Hello) : validation :=
  _ ← fail_if (str_len (hello_version hello) =? 0) (MissingField "version");
  _ ← fail_if (negb (is_compatible (hello_version hello))) (InvalidVersion (hello_version hello));
  _ ← validate_device_name (hello_device_name hello);
  _ ← must_be_32 "Device ID" (hello_device_id hello);
  validate_capabilities (hello_capabilities hello).

Definition validate_folder_summary `{Unicode} (summary : FolderSummary) : validation :=
  _ ← validate_folder_id (fs_folder_id summary);
  _ ← (if negb (zlen (fs_manifest_hash summary) =? 0)
       then must_be_32 "Manifest hash" (fs_manifest_hash summary) else Ok tt);
  validate_manifest_size (fs_file_count summary).

Definition validate_want `{Unicode} (want : Want) : validation :=
  _ ← validate_folder_id (want_folder_id want);
  _ ← check_all (must_be_32 "Chunk hash") (want_chunk_hashes want);
  fail_if (1000 <? zlen (want_chunk_hashes want))
    (TooManyChunks (zlen (want_chunk_hashes want)) 1000).

Definition validate_chunk_data `{Blake3} (chunk : ChunkData) : validation :=
  _ ← must_be_32 "Chunk hash" (cd_hash chunk);
  _ ← validate_chunk_size (zlen (cd_data chunk));
  let computed_hash := blake3 (cd_data chunk) in
  fail_if (negb (bool_decide (computed_hash = cd_hash chunk))) (InvalidHash "hash doesn't match data").

Definition validate_file_entry (entry : FileEntry) : validation :=
  _ ← validate_path (fe_path entry);
  _ ← must_be_32 "Content hash" (fe_content_hash entry);
  _ ← validate_chunk_count (zlen (fe_chunk_hashes entry));
  check_all (must_be_32 "Chunk hash") (fe_chunk_hashes entry).

Definition validate_manifest `{Unicode} (manifest : ManifestMsg) : validation :=
  _ ← validate_folder_id (mm_folder_id manifest);
  _ ← validate_manifest_size (zlen (mm_files manifest));
  _ ← check_all validate_file_entry (mm_files manifest);
  must_be_32 "Manifest hash" (mm_manifest_hash manifest).

(** ** Lemmas *)

Lemma check_all_Ok {A} (f : A → validation) l u :
  check_all f l = Ok u ↔ Forall (λ x, f x = Ok tt) l.
Proof.
  destruct u. unfold check_all. induction l as [|x l IH]; simpl.
  { split; [constructor|done]. }
  rewrite bind_Ok, Forall_cons. split.
  - intros ([] & Hx & Hl). split; [done|by apply IH].
  - intros [Hx Hl]. exists tt. split; [done|by apply IH].
Qed.

Lemma check_all_no_Panic {A} (f : A → validation) l :
  (∀ x, f x ≠ Panic) → check_all f l ≠ Panic.
Proof.
  intros Hf. unfold check_all. induction l as [|x l IH]; simpl; [done|].
  rewrite bind_Panic. intros [Hx|([] & _ & Hl)]; [by apply (Hf x)|done].
Qed.

Lemma bind_tt_Ok {E} (m k : outcome E unit) u : (m ≫= λ _, k) = Ok u ↔ m = Ok tt ∧ k = Ok tt.
Proof.
  destruct u. rewrite bind_Ok. split; [by intros ([] & ? & ?)|intros [? ?]; by exists tt].
Qed.
Lemma must_be_32_Ok what h u : must_be_32 what h = Ok u ↔ length h = 32%nat.
Proof. unfold must_be_32, zlen. rewrite fail_if_Ok. lia. Qed.

Lemma prefix_trans a b c : String.prefix a b = true → String.prefix b c = true → String.prefix a c = true.
Proof.
  revert b c. induction a as [|x a IH]; intros [|y b] [|z c]; simpl; try done.
  destruct (Ascii.ascii_dec x y) as [->|]; [|done]. destruct (Ascii.ascii_dec y z); [|done].
  apply IH.
Qed.

Lemma split_nonempty sep s : split sep s ≠ [].
Proof. destruct s; simpl; [done|]. case_decide; [done|]. by destruct (split sep s). Qed.
Lemma split_head sep s p ps : split sep s = p :: ps → String.prefix p s = true.
Proof.
  revert p ps. induction s as [|c s IH]; intros p ps; simpl.
  { by intros [= <- _]. }
  case_decide; [by intros [= <- _]|]. destruct (split sep s) as [|q qs] eqn:E.
  - by apply split_nonempty in E.
  - intros [= <- _]. simpl. destruct (Ascii.ascii_dec c c); [|done]. by eapply IH.
Qed.

(** A component of a split string contains nothing that the string does not. *)
Lemma contains_split sep s p pat : p ∈ split sep s → contains p pat = true → contains s pat = true.
Proof.
  revert p. induction s as [|c s IH]; intros p; simpl split.
  { by intros ->%list_elem_of_singleton. }
  assert (contains s pat = true → contains (String c s) pat = true) as Htail.
  { intros Hs. simpl. by rewrite Hs, orb_true_r. }
  case_decide.
  - intros [->|Hp]%elem_of_cons Hc; [|by eauto].
    simpl in Hc. rewrite orb_false_r in Hc. destruct pat; [done|by destruct pat].
  - destruct (split sep s) as [|q qs] eqn:E; [by apply split_nonempty in E|].
    intros [->|Hp]%elem_of_cons Hc.
    + simpl in Hc. apply orb_true_iff in Hc as [Hc|Hc].
      * simpl. apply orb_true_iff. left. apply split_head in E.
        destruct pat as [|d pat]; [done|]. simpl in *.
        destruct (Ascii.ascii_dec d c); [|done]. by eapply prefix_trans.
      * apply Htail, (IH q); [by left|done].
    + apply Htail, (IH p); [by right|done].
Qed.

(** Printing and parsing numbers. *)
Lemma parse_digits_cons acc c s d : digit c = Some d → 0 ≤ acc * 10 + d ≤ u32_max →
  parse_digits acc (String c s) = parse_digits (acc * 10 + d) s.
Proof. intros Hd Hr. simpl. rewrite Hd. simpl. case_if; [lia|done]. Qed.

Lemma digit_pretty n : (n < 10)%N → digit (pretty_N_char n) = Some (Z.of_N n).
Proof.
  intros Hn. assert (n = 0 ∨ n = 1 ∨ n = 2 ∨ n = 3 ∨ n = 4 ∨ n = 5 ∨ n = 6 ∨ n = 7 ∨ n = 8
    ∨ n = 9)%N as Hc by lia. naive_solver.
Qed.

Lemma parse_pretty_N_go n s : (Z.of_N n ≤ u32_max) →
  parse_digits 0 (pretty_N_go n s) = parse_digits (Z.of_N n) s.
Proof.
  revert s. induction (N.lt_wf_0 n) as [n _ IH]; intros s Hn.
  destruct (decide (n = 0%N)) as [->|Hpos]; [done|].
  pose proof (N.div_mod n 10 ltac:(done)) as Hdm.
  assert (n mod 10 < 10)%N as Hm by (by apply N.mod_lt).
  rewrite pretty_N_go_step by lia. set (q := (n / 10)%N) in *. set (r := (n mod 10)%N) in *.
  clearbody q r. rewrite IH by lia.
  rewrite (parse_digits_cons _ _ _ _ (digit_pretty _ Hm)) by lia. f_equal. lia.
Qed.

Lemma parse_digits_pretty z : 0 ≤ z ≤ u32_max → parse_digits 0 (pretty z) = Some z.
Proof.
  intros Hz. destruct z as [|p|p]; [done| |lia].
  change (pretty (Z.pos p)) with (pretty_N_go (N.pos p) "").
  by rewrite parse_pretty_N_go by lia.
Qed.

Lemma parse_u32_pretty z : 0 ≤ z ≤ u32_max → parse_u32 (pretty z) = Some z.
Proof.
  intros Hz. pose proof (parse_digits_pretty z Hz) as Hp. unfold parse_u32.
  destruct (pretty z) as [|c s] eqn:E.
  - injection Hp as <-. by vm_compute in E.
  - case_decide as Hc; [|done]. subst c. by vm_compute in Hp.
Qed.

Lemma split_cons sep c s : c ≠ sep → split sep (String c s) =
  match split sep s with [] => [String c EmptyString] | p :: ps => String c p :: ps end.
Proof. intros Hc. simpl. by rewrite decide_False. Qed.

Lemma split_digits acc s v t : parse_digits acc s = Some v →
  split "."%char (s +:+ String "."%char t) = s :: split "."%char t ∧
  split "."%char s = [s].
Proof.
  revert acc. induction s as [|c s IH]; intros acc Hp; [done|].
  cbn [parse_digits] in Hp. destruct (digit c) as [d|] eqn:Hd; [|done]. cbn [mbind option_bind] in Hp.
  destruct (u32_max <? acc * 10 + d); [done|]. apply IH in Hp as [H1 H2].
  assert (c ≠ "."%char) by (intros ->; by vm_compute in Hd).
  split.
  - change (String c s +:+ String "."%char t) with (String c (s +:+ String "."%char t)).
    by rewrite split_cons, H1.
  - by rewrite split_cons, H2.
Qed.

#[export] Hint Resolve check_all_no_Panic : no_panic.

Section no_panic.
Context `{Unicode, Blake3}.

Lemma validate_message_size_no_Panic n : validate_message_size n ≠ Panic.
Proof. unfold validate_message_size. auto with no_panic. Qed.
Lemma must_be_32_no_Panic what h : must_be_32 what h ≠ Panic.
Proof. unfold must_be_32. auto with no_panic. Qed.
Hint Resolve must_be_32_no_Panic : no_panic.
Lemma validate_folder_id_no_Panic id : validate_folder_id id ≠ Panic.
Proof. unfold validate_folder_id. auto 10 with no_panic. Qed.
Hint Resolve validate_folder_id_no_Panic : no_panic.
Lemma validate_folder_summary_no_Panic m : validate_folder_summary m ≠ Panic.
Proof.
  unfold validate_folder_summary, validate_manifest_size.
  apply bind_no_Panic; [auto with no_panic|]. intros _. case_if; auto with no_panic.
Qed.
Lemma validate_file_entry_no_Panic f : validate_file_entry f ≠ Panic.
Proof.
  unfold validate_file_entry, validate_path, validate_chunk_count. auto 12 with no_panic.
Qed.
Hint Resolve validate_file_entry_no_Panic : no_panic.
Lemma validate_manifest_no_Panic m : validate_manifest m ≠ Panic.
Proof. unfold validate_manifest, validate_manifest_size. auto 10 with no_panic. Qed.
Lemma validate_want_no_Panic w : validate_want w ≠ Panic.
Proof. unfold validate_want. auto 10 with no_panic. Qed.
Lemma validate_chunk_data_no_Panic c : validate_chunk_data c ≠ Panic.
Proof. unfold validate_chunk_data, validate_chunk_size. auto 10 with no_panic. Qed.
End no_panic.
#[export] Hint Resolve validate_message_size_no_Panic validate_folder_summary_no_Panic
  validate_manifest_no_Panic validate_want_no_Panic validate_chunk_data_no_Panic : no_panic.

(** ** Properties *)

(** How a relative path moves in a directory tree: [..] leaves a directory. *)
Definition resolve_step (dir : list string) (c : string) : list string :=
  if decide (c = "" ∨ c = ".") then dir
  else if decide (c = "..") then removelast dir
  else dir ++ [c].
Definition resolve (dir : list string) (components : list string) : list string :=
  foldl resolve_step dir components.

(** [Path::join] of the standard library, with the directory it leads to;
    [None] when the path takes the place of the folder it is joined to. On
    Windows both slashes separate components, and a path that starts with a
    drive letter, absolute or not, replaces the folder, as one that starts with
    a slash does (the other prefixes start with two slashes). *)
Inductive Platform := Unix | Windows.
Definition has_drive (p : string) : bool :=
  match p with
  | String c (String ":" _) =>
      is_ascii_alphanumeric (code c) && negb (is_ascii_digit (code c))
  | _ => false
  end.
Definition replaces (os : Platform) (p : string) : bool :=
  match os with
  | Unix => starts_with p "/"
  | Windows => starts_with p "/" || starts_with p "\" || has_drive p
  end.
Definition components (os : Platform) (p : string) : list string :=
  match os with
  | Unix => split "/"%char p
  | Windows => split "/"%char p ≫= split "\"%char
  end.
Definition join (os : Platform) (folder : list string) (p : string) : option (list string) :=
  if replaces os p then None else Some (resolve folder (components os p)).

Lemma resolve_inside dir cs : ".."%string ∉ cs → ∃ rest, resolve dir cs = dir ++ rest.
Proof.
  unfold resolve. revert dir. induction cs as [|c cs IH]; intros dir Hc; simpl.
  { exists []. by rewrite app_nil_r. }
  apply not_elem_of_cons in Hc as [Hne Hc]. unfold resolve_step at 2.
  case_decide; [by apply IH|]. rewrite decide_False by done.
  destruct (IH (dir ++ [c]) Hc) as [rest ->]. exists ([c] ++ rest). by rewrite app_assoc.
Qed.

Lemma contains_components os p c pat : c ∈ components os p → contains c pat = true → contains p pat = true.
Proof.
  destruct os; cbn [components]; [intros Hc Hp; by eapply contains_split|].
  intros (d & Hc & Hd)%list_elem_of_bind Hp.
  eapply contains_split; [exact Hd|]. by eapply contains_split.
Qed.

(** C26: A path that passes [validate_path] is at most 4096 bytes long, has no
    NUL byte and does not start with a slash of either kind; joined to any
    folder it leads to a place inside that folder, on Unix always, on Windows
    exactly unless it starts with a drive letter, when it takes the place of
    the folder: such paths are accepted too ([drive_paths_accepted]). *)
Theorem validate_path_safe p : validate_path p = Ok tt →
  str_len p ≤ 4096 ∧ contains p NUL = false ∧
  (starts_with p "/" = false ∧ starts_with p "\" = false) ∧
  (∀ folder, ∃ inside, join Unix folder p = Some (folder ++ inside)) ∧
  (∀ folder, has_drive p = false → ∃ inside, join Windows folder p = Some (folder ++ inside)) ∧
  (∀ folder, has_drive p = true → join Windows folder p = None).
Proof.
  unfold validate_path. rewrite !bind_tt_Ok, !fail_if_Ok, orb_false_iff.
  intros (Hlen & Hnul & Hdots & Hs & Hb). unfold MAX_PATH_LENGTH in Hlen.
  assert (∀ os folder, ∃ inside, resolve folder (components os p) = folder ++ inside) as Hin.
  { intros os folder. apply resolve_inside. intros Hin.
    by rewrite (contains_components os p ".." ".." Hin) in Hdots. }
  unfold join, replaces. rewrite Hs, Hb. cbn [orb].
  split_and!; [lia|done..| |intros folder Hd; rewrite Hd|by intros folder ->].
  - intros folder. destruct (Hin Unix folder) as [x ->]. by exists x.
  - destruct (Hin Windows folder) as [x ->]. by exists x.
Qed.

(** Printing a version and parsing it gives the three numbers back, and two
    peers whose versions print as such accept each other exactly when the major
    number is the supported one. The version that the sync engine announces,
    1.0.0, is not accepted by the message layer. *)
Theorem version_roundtrip major minor patch :
  0 ≤ major ≤ u32_max → 0 ≤ minor ≤ u32_max → 0 ≤ patch ≤ u32_max →
  parse_version (dotted major minor patch) = Some (major, minor, patch) ∧
  (is_compatible (dotted major minor patch) = true ↔ major = PROTOCOL_VERSION_MAJOR) ∧
  is_compatible "1.0.0" = false.
Proof.
  intros Ha Hb Hc.
  assert (parse_version (dotted major minor patch) = Some (major, minor, patch)) as Hp.
  { unfold parse_version.
    change (dotted major minor patch) with
      (pretty major +:+ String "."%char (pretty minor +:+ String "."%char (pretty patch))).
    pose proof (parse_digits_pretty _ Ha) as Pa. pose proof (parse_digits_pretty _ Hb) as Pb.
    pose proof (parse_digits_pretty _ Hc) as Pc.
    rewrite (proj1 (split_digits _ _ _ _ Pa)), (proj1 (split_digits _ _ _ _ Pb)),
      (proj2 (split_digits _ _ _ EmptyString Pc)).
    by rewrite !parse_u32_pretty. }
  split; [done|]. split; [|by vm_compute]. unfold is_compatible. rewrite Hp. lia.
Qed.

(** What the validators promise to the code that uses the messages. *)
Definition chunk_ok `{Blake3} (c : ChunkData) : Prop :=
  256 ≤ zlen (cd_data c) ≤ 16777216 ∧ cd_hash c = blake3 (cd_data c).
Definition folder_id_ok `{Unicode} (id : string) : Prop :=
  1 ≤ str_len id ≤ 64 ∧ Forall (λ c, is_alphanumeric c = true ∨ c = 45 ∨ c = 95) (chars id).
Definition want_ok `{Unicode} (w : Want) : Prop :=
  folder_id_ok (want_folder_id w) ∧ zlen (want_chunk_hashes w) ≤ 1000 ∧
  Forall ContentHash.wf (want_chunk_hashes w).
Definition file_entry_ok (f : FileEntry) : Prop :=
  validate_path (fe_path f) = Ok tt ∧ ContentHash.wf (fe_content_hash f) ∧
  zlen (fe_chunk_hashes f) ≤ 100000 ∧ Forall ContentHash.wf (fe_chunk_hashes f).
Definition manifest_ok `{Unicode} (m : ManifestMsg) : Prop :=
  folder_id_ok (mm_folder_id m) ∧ zlen (mm_files m) ≤ 1000000 ∧
  Forall file_entry_ok (mm_files m) ∧ ContentHash.wf (mm_manifest_hash m).
Definition hello_ok (h : Hello) : Prop :=
  is_compatible (hello_version h) = true ∧
  1 ≤ str_len (hello_device_name h) ≤ 256 ∧
  Forall (λ c, is_control c = false) (chars (hello_device_name h)) ∧
  length (hello_device_id h) = 32%nat ∧ zlen (hello_capabilities h) ≤ 100 ∧
  Forall (λ cap, str_len cap ≤ 256) (hello_capabilities h).

Lemma str_len_nonneg s : 0 ≤ str_len s.
Proof. unfold str_len. lia. Qed.

Lemma existsb_false {A} (f : A → bool) l : existsb f l = false ↔ Forall (λ x, f x = false) l.
Proof.
  induction l as [|x l IH]; simpl; [by split; [constructor|]|].
  by rewrite orb_false_iff, Forall_cons, IH.
Qed.
Lemma forallb_true {A} (f : A → bool) l : forallb f l = true ↔ Forall (λ x, f x = true) l.
Proof.
  induction l as [|x l IH]; simpl; [by split; [constructor|]|].
  by rewrite andb_true_iff, Forall_cons, IH.
Qed.

Lemma validate_folder_id_Ok `{Unicode} id u : validate_folder_id id = Ok u ↔ folder_id_ok id.
Proof.
  unfold validate_folder_id, folder_id_ok, MAX_FOLDER_ID_LENGTH. pose proof (str_len_nonneg id).
  rewrite !bind_tt_Ok, !fail_if_Ok, negb_false_iff, forallb_true.
  assert (∀ c, (is_alphanumeric c || (c =? 45) || (c =? 95)) = true ↔
    is_alphanumeric c = true ∨ c = 45 ∨ c = 95) as E.
  { intros c. rewrite !orb_true_iff, !Z.eqb_eq. tauto. }
  setoid_rewrite E. split; [intros (?&?&?)|intros [??]]; split_and!; (done || lia).
Qed.
Lemma validate_file_entry_Ok f u : validate_file_entry f = Ok u ↔ file_entry_ok f.
Proof.
  unfold validate_file_entry, file_entry_ok, validate_chunk_count, MAX_CHUNKS_PER_FILE.
  rewrite !bind_tt_Ok, must_be_32_Ok, fail_if_Ok, check_all_Ok. setoid_rewrite must_be_32_Ok.
  rewrite Z.ltb_ge. tauto.
Qed.
Lemma validate_device_name_Ok name u : validate_device_name name = Ok u ↔
  1 ≤ str_len name ≤ 256 ∧ Forall (λ c, is_control c = false) (chars name).
Proof.
  unfold validate_device_name, MAX_DEVICE_NAME_LENGTH. pose proof (str_len_nonneg name).
  rewrite !bind_tt_Ok, !fail_if_Ok, existsb_false.
  split; [intros (?&?&?)|intros [??]]; split_and!; (done || lia).
Qed.

(** Each validator accepts exactly the messages that meet its contract:
    chunk data of 256 bytes to 16 MB with the BLAKE3 hash of the data, requests
    for at most 1000 well-formed hashes, manifests whose files have safe paths
    and 32-byte hashes within the limits, and greetings with a compatible
    version, a 32-byte device id and a printable name. *)
Theorem validators_exact `{Unicode, Blake3} :
  (∀ c, validate_chunk_data c = Ok tt ↔ chunk_ok c) ∧
  (∀ w, validate_want w = Ok tt ↔ want_ok w) ∧
  (∀ m, validate_manifest m = Ok tt ↔ manifest_ok m) ∧
  (∀ h, validate_hello h = Ok tt ↔ hello_ok h).
Proof.
  split_and!.
  - intros c. unfold validate_chunk_data, chunk_ok, validate_chunk_size, MIN_CHUNK_SIZE, MAX_CHUNK_SIZE.
    rewrite !bind_tt_Ok, must_be_32_Ok, !fail_if_Ok, negb_false_iff, bool_decide_eq_true.
    pose proof (blake3_length (cd_data c)).
    split; [intros (?&?&?)|intros [? ->]]; split_and!; (done || lia).
  - intros w. unfold validate_want, want_ok. setoid_rewrite bind_tt_Ok.
    rewrite validate_folder_id_Ok, bind_tt_Ok, check_all_Ok, fail_if_Ok, Z.ltb_ge.
    setoid_rewrite must_be_32_Ok. tauto.
  - intros m. unfold validate_manifest, manifest_ok, validate_manifest_size, MAX_MANIFEST_FILES.
    rewrite !bind_tt_Ok, validate_folder_id_Ok, check_all_Ok, fail_if_Ok, Z.ltb_ge, must_be_32_Ok.
    setoid_rewrite validate_file_entry_Ok. tauto.
  - intros h. unfold validate_hello, hello_ok, validate_capabilities, MAX_CAPABILITIES, MAX_CAPABILITY_LENGTH.
    rewrite !bind_tt_Ok, !fail_if_Ok, validate_device_name_Ok, must_be_32_Ok, check_all_Ok, negb_false_iff.
    setoid_rewrite fail_if_Ok. setoid_rewrite Z.ltb_ge.
    split; [naive_solver|]. intros (Hv&?&?&?&?&?). split; [|tauto].
    apply Z.eqb_neq. intros E. by destruct (hello_version h).
Qed.

(** ** Concrete inputs *)

Module Examples.
Lemma validate_path_safe_witness :
  validate_path "docs/./notes.txt" = Ok tt ∧
  join Windows ["root"] "docs/./notes.txt" = Some ["root"; "docs"; "notes.txt"]%string ∧
  ∃ inside, join Unix ["root"] "docs/./notes.txt" = Some (["root"%string] ++ inside).
Proof.
  split; [by vm_compute|]. split; [by vm_compute|].
  destruct (validate_path_safe "docs/./notes.txt") as (_ & _ & _ & Hin & _); [by vm_compute|].
  apply Hin.
Defined.

(** Paths with a drive letter are accepted and lead out of the folder. *)
Example drive_paths_accepted :
  Forall (λ p, validate_path p = Ok tt ∧ join Windows ["root"] p = None)
    ["C:\secret.txt"; "C:secret.txt"; "d:/secret.txt"]%string.
Proof. repeat constructor. Qed.

(** The test for two dots also refuses harmless names. *)
Example validate_path_refuses_dots :
  validate_path "a..b" = Err (InvalidPath "contains directory traversal").
Proof. by vm_compute. Qed.

Lemma version_roundtrip_witness :
  dotted 0 1 0 = PROTOCOL_VERSION ∧ is_compatible (dotted 0 1 0) = true.
Proof.
  split; [by vm_compute|].
  apply (version_roundtrip 0 1 0 ltac:(done) ltac:(done) ltac:(done)). done.
Defined.
End Examples.
