(* ===== verification/Framing.v ===== *)
(** Message exchange over QUIC streams: landro-quic/src/protocol.rs.

    Every message travels on a unidirectional stream of its own, as a type
    byte, a big-endian length and the protobuf form of the message. The crates
    [quinn] (streams) and [prost] (protobuf) are not part of the repository: a
    stream is the list of bytes written to it, and [prost::Message] is the class
    [Message]. *)

From S2P Require Import Prelude Bytes Proto.
From Stdlib Require Import Init.Byte Strings.Byte ZArith Lia.
From stdpp Require Import base option list gmap strings pretty numbers sorting.
Open Scope Z_scope.

Inductive MessageType :=
  | MHello | MFolderSummary | MManifest | MWant | MChunkData | MAck | MError
  | MDiffRequest | MDiffResponse.
#[export] Instance MessageType_eq_dec : EqDecision MessageType.
Proof. solve_decision. Defined.

(** [msg_type as u8]. *)
Definition as_u8 (t : MessageType) : Z :=
  match t with
  | MHello => 0 | MFolderSummary => 1 | MManifest => 2 | MWant => 3 | MChunkData => 4
  | MAck => 5 | MError => 6 | MDiffRequest => 7 | MDiffResponse => 8
  end.

Definition from_u8 (value : Z) : option MessageType :=
  if value =? 0 then Some MHello
  else if value =? 1 then Some MFolderSummary
  else if value =? 2 then Some MManifest
  else if value =? 3 then Some MWant
  else if value =? 4 then Some MChunkData
  else if value =? 5 then Some MAck
  else if value =? 6 then Some MError
  else if value =? 7 then Some MDiffRequest
  else if value =? 8 then Some MDiffResponse
  else None.

(** The errors of this module; the formatted text of a [Protocol] or [Stream]
    error is replaced by what it is formatted from. *)
Inductive QuicError :=
  | ConnectionError
  | Stream (what : string)
  | InvalidMessage (what : string) (e : ValidationError)
  | UnknownMessageType (value : Z)
  | UnexpectedType (expected got : MessageType)
  | TooLargeToSend (len : Z)
  | InvalidMessageSize (e : ValidationError)
  | DecodeFailed
  | NotHandled (t : MessageType).

(** [prost::Message]: encoding into a [Vec] does not fail, decoding gives back
    what was encoded. *)
Class Message (T : Type) := {
  encode : T → list byte;
  decode : list byte → option T;
  decode_encode m : decode (encode m) = Some m;
}.

(** The two directions of a connection: the streams this side has finished, and
    the streams of the peer that are still to be accepted. [alive] is false
    when the connection is lost: then no stream can be opened, and none is
    accepted any more. *)
Record Connection := {
  alive : bool;
  outgoing : list (list byte);
  incoming : list (list byte);
}.

Abbreviation io := (st Connection QuicError).

Definition open_uni : io unit := λ c, (c, if alive c then Ok tt else Err ConnectionError).

(** [finish]: the bytes written since [open_uni] are sent. *)
Definition finish (bytes : list byte) : io unit :=
  modify_st (λ c, {| alive := alive c; outgoing := outgoing c ++ [bytes]; incoming := incoming c |}).

Definition accept_uni : io (list byte) := λ c,
  match incoming c with
  | s :: rest => ({| alive := alive c; outgoing := outgoing c; incoming := rest |}, Ok s)
  | [] => (c, Err ConnectionError)
  end.

Section protocol.
Context `{Unicode, Blake3}.
Context `{Message FolderSummary, Message ManifestMsg, Message Want, Message ChunkData,
          Message Ack, Message ProtoError}.

(** The bytes that [send_message] writes. *)
Definition send_message {T} `{Message T} (msg_type : MessageType) (message : T) :
    outcome QuicError (list byte) :=
  let buf := encode message in
  _ ← fail_if (MAX_MESSAGE_SIZE <? zlen buf) (TooLargeToSend (zlen buf));
  mret ([byte_of (as_u8 msg_type)] ++ be_bytes 4 (zlen buf) ++ buf).

(** [read_exact] on what is left of a stream. *)
Definition read_or (what : string) (n : nat) (s : list byte) :
    outcome QuicError (list byte * list byte) :=
  ok_or (Stream what) (read_exact n s).

Definition receive_typed_message {T} `{Message T} (s : list byte) : outcome QuicError T :=
  '(len_bytes, s) ← read_or "message length" 4 s;
  let len := be_value len_bytes in
  _ ← map_err InvalidMessageSize (validate_message_size len);
  '(buf, s) ← read_or "message data" (Z.to_nat len) s;
  ok_or DecodeFailed (decode buf).

Definition read_message_type (s : list byte) : outcome QuicError (MessageType * list byte) :=
  '(type_byte, s) ← read_or "message type" 1 s;
  let value := be_value type_byte in
  message_type ← ok_or (UnknownMessageType value) (from_u8 value);
  mret (message_type, s).

Definition receive_message {T} `{Message T} (expected_type : MessageType) (s : list byte) :
    outcome QuicError T :=
  '(message_type, s) ← read_message_type s;
  _ ← fail_if (negb (bool_decide (message_type = expected_type)))
        (UnexpectedType expected_type message_type);
  receive_typed_message s.

(** The body shared by the [send_..] and [receive_..] functions. *)
Definition send_on_stream {T} `{Message T} (t : MessageType) (m : T) : io unit :=
  _ ← open_uni;
  bytes ← lift (send_message t m);
  finish bytes.
Definition receive_from_stream {T} `{Message T} (t : MessageType) : io T :=
  s ← accept_uni;
  lift (receive_message t s).

Definition send_folder_summary (summary : FolderSummary) : io unit :=
  _ ← lift (map_err (InvalidMessage "folder summary") (validate_folder_summary summary));
  send_on_stream MFolderSummary summary.
Definition receive_folder_summary : io FolderSummary :=
  summary ← receive_from_stream MFolderSummary;
  _ ← lift (map_err (InvalidMessage "received folder summary") (validate_folder_summary summary));
  mret summary.

Definition send_manifest (manifest : ManifestMsg) : io unit :=
  _ ← lift (map_err (InvalidMessage "manifest") (validate_manifest manifest));
  send_on_stream MManifest manifest.
Definition receive_manifest : io ManifestMsg :=
  manifest ← receive_from_stream MManifest;
  _ ← lift (map_err (InvalidMessage "received manifest") (validate_manifest manifest));
  mret manifest.

Definition send_want (want : Want) : io unit :=
  _ ← lift (map_err (InvalidMessage "want request") (validate_want want));
  send_on_stream MWant want.
Definition receive_want : io Want :=
  want ← receive_from_stream MWant;
  _ ← lift (map_err (InvalidMessage "received want request") (validate_want want));
  mret want.

Definition send_chunk_data (chunk : ChunkData) : io unit :=
  _ ← lift (map_err (InvalidMessage "chunk data") (validate_chunk_data chunk));
  send_on_stream MChunkData chunk.
Definition receive_chunk_data : io ChunkData :=
  chunk ← receive_from_stream MChunkData;
  _ ← lift (map_err (InvalidMessage "received chunk data") (validate_chunk_data chunk));
  mret chunk.

Definition send_ack (ack : Ack) : io unit := send_on_stream MAck ack.
Definition receive_ack : io Ack := receive_from_stream MAck.
Definition send_error (error : ProtoError) : io unit := send_on_stream MError error.
Definition receive_error : io ProtoError := receive_from_stream MError.

Inductive ProtocolMessage :=
  | PFolderSummary (m : FolderSummary)
  | PManifest (m : ManifestMsg)
  | PWant (m : Want)
  | PChunkData (m : ChunkData)
  | PAck (m : Ack)
  | PError (m : ProtoError).

Definition receive_any_message : io ProtocolMessage :=
  s ← accept_uni;
  '(message_type, s) ← lift (read_message_type s);
  lift (match message_type with
    | MHello => Err (NotHandled MHello)
    | MFolderSummary => PFolderSummary <$> receive_typed_message s
    | MManifest => PManifest <$> receive_typed_message s
    | MWant => PWant <$> receive_typed_message s
    | MChunkData => PChunkData <$> receive_typed_message s
    | MAck => PAck <$> receive_typed_message s
    | MError => PError <$> receive_typed_message s
    | MDiffRequest => Err (NotHandled MDiffRequest)
    | MDiffResponse => Err (NotHandled MDiffResponse)
    end).

(** ** [BatchTransferManager]

    The state is the chunk cache; the connection is threaded beside it. *)
Record BatchTransferManager := {
  protocol : Connection;
  chunk_cache : gmap (list byte) ChunkData;
}.

Fixpoint receive_chunks (n : nat) (wanted_chunks : list (list byte))
    (self : BatchTransferManager) (received_chunks : list ChunkData) :
    BatchTransferManager * list ChunkData :=
  match n with
  | O => (self, received_chunks)
  | S n =>
      match receive_chunk_data (protocol self) with
      | (c, Ok chunk) =>
          let hash := blake3 (cd_data chunk) in
          if decide (hash ∈ wanted_chunks)
          then receive_chunks n wanted_chunks
                 {| protocol := c; chunk_cache := <[hash := chunk]> (chunk_cache self) |}
                 (received_chunks ++ [chunk])
          else receive_chunks n wanted_chunks
                 {| protocol := c; chunk_cache := chunk_cache self |} received_chunks
      | (c, _) => ({| protocol := c; chunk_cache := chunk_cache self |}, received_chunks)
      end
  end.

Definition transfer_chunks (wanted_chunks : list (list byte)) :
    st BatchTransferManager QuicError (list ChunkData) := λ self,
  let want := {| want_folder_id := "default"; want_chunk_hashes := wanted_chunks;
                 want_priority := 1 |} in
  match send_want want (protocol self) with
  | (c, Ok _) =>
      let '(self, received) := receive_chunks (length wanted_chunks) wanted_chunks
        {| protocol := c; chunk_cache := chunk_cache self |} [] in
      (self, Ok received)
  | (c, Err e) => ({| protocol := c; chunk_cache := chunk_cache self |}, Err e)
  | (c, Panic) => ({| protocol := c; chunk_cache := chunk_cache self |}, Panic)
  end.

Definition get_cached_chunk (self : BatchTransferManager) (hash : list byte) : option ChunkData :=
  chunk_cache self !! hash.
Definition clear_cache (self : BatchTransferManager) : BatchTransferManager :=
  {| protocol := protocol self; chunk_cache := ∅ |}.
End protocol.

(** ** Sending and receiving, uniformly *)

Section properties.
Context `{Unicode, Blake3}.
Context `{Message FolderSummary, Message ManifestMsg, Message Want, Message ChunkData,
          Message Ack, Message ProtoError}.

Definition message_type (m : ProtocolMessage) : MessageType :=
  match m with
  | PFolderSummary _ => MFolderSummary | PManifest _ => MManifest | PWant _ => MWant
  | PChunkData _ => MChunkData | PAck _ => MAck | PError _ => MError
  end.
Definition send (m : ProtocolMessage) : io unit :=
  match m with
  | PFolderSummary m => send_folder_summary m | PManifest m => send_manifest m
  | PWant m => send_want m | PChunkData m => send_chunk_data m
  | PAck m => send_ack m | PError m => send_error m
  end.
(** The receiving function for one type of message. *)
Definition receive (m : ProtocolMessage) : io ProtocolMessage :=
  match m with
  | PFolderSummary _ => m ← receive_folder_summary; mret (PFolderSummary m)
  | PManifest _ => m ← receive_manifest; mret (PManifest m)
  | PWant _ => m ← receive_want; mret (PWant m)
  | PChunkData _ => m ← receive_chunk_data; mret (PChunkData m)
  | PAck _ => m ← receive_ack; mret (PAck m)
  | PError _ => m ← receive_error; mret (PError m)
  end.
Definition validated (m : ProtocolMessage) : Prop :=
  match m with
  | PFolderSummary m => validate_folder_summary m = Ok tt
  | PManifest m => validate_manifest m = Ok tt
  | PWant m => validate_want m = Ok tt
  | PChunkData m => validate_chunk_data m = Ok tt
  | PAck _ | PError _ => True
  end.
Definition encoding (m : ProtocolMessage) : list byte :=
  match m with
  | PFolderSummary m => encode m | PManifest m => encode m | PWant m => encode m
  | PChunkData m => encode m | PAck m => encode m | PError m => encode m
  end.
(** The bytes of a message on its stream. *)
Definition frame (m : ProtocolMessage) : list byte :=
  [byte_of (as_u8 (message_type m))] ++ be_bytes 4 (zlen (encoding m)) ++ encoding m.

Lemma from_u8_as_u8 t : from_u8 (as_u8 t) = Some t.
Proof. by destruct t. Qed.

Lemma be_value_byte b : be_value [b] = byte_val b.
Proof. unfold be_value. simpl. lia. Qed.

Lemma read_message_type_frame t s : read_message_type (byte_of (as_u8 t) :: s) = Ok (t, s).
Proof.
  unfold read_message_type, read_or.
  change (byte_of (as_u8 t) :: s) with ([byte_of (as_u8 t)] ++ s).
  rewrite read_exact_app by done. cbn [ok_or mbind outcome_bind].
  rewrite be_value_byte, byte_val_of, wrap_small by (by destruct t).
  by rewrite from_u8_as_u8.
Qed.

Lemma receive_typed_frame {T} `{Message T} (m : T) :
  zlen (encode m) ≤ MAX_MESSAGE_SIZE →
  receive_typed_message (be_bytes 4 (zlen (encode m)) ++ encode m) = Ok m.
Proof.
  intros Hlen. unfold receive_typed_message, read_or.
  rewrite read_exact_app by apply be_bytes_length. cbn [ok_or mbind outcome_bind].
  pose proof (zlen_nonneg (encode m)). unfold MAX_MESSAGE_SIZE in Hlen.
  rewrite be_value_be_bytes by (simpl; lia).
  unfold validate_message_size, fail_if. rewrite (proj2 (Z.ltb_ge _ _)) by done.
  cbn [map_err mbind outcome_bind]. rewrite <-(app_nil_r (encode m)) at 2.
  rewrite read_exact_app by (unfold zlen; lia). cbn [ok_or mbind outcome_bind].
  by rewrite decode_encode.
Qed.

Lemma send_on_stream_eq {T} `{Message T} t (m : T) c :
  send_on_stream t m c =
  if alive c then
    if MAX_MESSAGE_SIZE <? zlen (encode m) then (c, Err (TooLargeToSend (zlen (encode m))))
    else ({| alive := true; incoming := incoming c;
             outgoing := outgoing c ++ [[byte_of (as_u8 t)] ++ be_bytes 4 (zlen (encode m)) ++ encode m] |},
          Ok tt)
  else (c, Err ConnectionError).
Proof.
  unfold send_on_stream, open_uni, lift, finish, modify_st, send_message, mbind, st_bind.
  destruct c as [[] out inc]; simpl; [|done]. by case_if.
Qed.

(** Sending a message: validation, then the connection, then the size. *)
Lemma send_eq m c : validated m →
  send m c =
  if alive c then
    if MAX_MESSAGE_SIZE <? zlen (encoding m) then (c, Err (TooLargeToSend (zlen (encoding m))))
    else ({| alive := true; outgoing := outgoing c ++ [frame m]; incoming := incoming c |}, Ok tt)
  else (c, Err ConnectionError).
Proof.
  destruct m; simpl; intros Hv;
    unfold send_folder_summary, send_manifest, send_want, send_chunk_data, send_ack, send_error;
    rewrite ?(st_bind_eq _ _ c c tt) by (unfold lift; by rewrite Hv);
    apply send_on_stream_eq.
Qed.

Lemma send_Ok_validated m c c' : send m c = (c', Ok tt) → validated m.
Proof.
  destruct m; simpl; try done;
    unfold send_folder_summary, send_manifest, send_want, send_chunk_data;
    intros (c1 & u & Hv & _)%st_bind_Ok; unfold lift in Hv; injection Hv as _ Hv;
    apply map_err_Ok in Hv; by destruct u.
Qed.

Lemma receive_message_frame {T} `{Message T} t t' (m : T) :
  zlen (encode m) ≤ MAX_MESSAGE_SIZE →
  receive_message t' ([byte_of (as_u8 t)] ++ be_bytes 4 (zlen (encode m)) ++ encode m)
  = if decide (t = t') then Ok m else Err (UnexpectedType t' t).
Proof.
  intros Hlen. unfold receive_message. simpl. rewrite read_message_type_frame.
  cbn [mbind outcome_bind]. case_decide as Ht.
  - rewrite bool_decide_eq_true_2 by done. by apply receive_typed_frame.
  - by rewrite bool_decide_eq_false_2.
Qed.

Lemma receive_message_other {T} `{Message T} m t' :
  message_type m ≠ t' → receive_message (T:=T) t' (frame m) = Err (UnexpectedType t' (message_type m)).
Proof.
  intros Ht. unfold receive_message, frame. simpl. rewrite read_message_type_frame.
  cbn [mbind outcome_bind]. by rewrite bool_decide_eq_false_2.
Qed.

Definition pop (c : Connection) (rest : list (list byte)) : Connection :=
  {| alive := alive c; outgoing := outgoing c; incoming := rest |}.

Lemma receive_from_stream_eq {T} `{Message T} t c s rest : incoming c = s :: rest →
  receive_from_stream t c = (pop c rest, receive_message (T:=T) t s).
Proof.
  intros Hc. unfold receive_from_stream, accept_uni, mbind, st_bind, lift. by rewrite Hc.
Qed.

(** The receiving functions: accept a stream, parse it, validate. *)
Lemma receive_eq m0 c s rest : incoming c = s :: rest →
  receive m0 c = (pop c rest,
    match m0 with
    | PFolderSummary _ => m ← receive_message MFolderSummary s;
        _ ← map_err (InvalidMessage "received folder summary") (validate_folder_summary m);
        Ok (PFolderSummary m)
    | PManifest _ => m ← receive_message MManifest s;
        _ ← map_err (InvalidMessage "received manifest") (validate_manifest m); Ok (PManifest m)
    | PWant _ => m ← receive_message MWant s;
        _ ← map_err (InvalidMessage "received want request") (validate_want m); Ok (PWant m)
    | PChunkData _ => m ← receive_message MChunkData s;
        _ ← map_err (InvalidMessage "received chunk data") (validate_chunk_data m); Ok (PChunkData m)
    | PAck _ => m ← receive_message MAck s; Ok (PAck m)
    | PError _ => m ← receive_message MError s; Ok (PError m)
    end).
Proof.
  intros Hc. destruct m0; simpl;
    unfold receive_folder_summary, receive_manifest, receive_want, receive_chunk_data,
      receive_ack, receive_error, mbind, st_bind, lift;
    rewrite (receive_from_stream_eq _ _ _ _ Hc); destruct (receive_message _ s) as [m1|e|]; try done;
    cbn; by destruct (map_err _ _).
Qed.

(** C13: A message that one peer manages to send is put on a stream of its own,
    and the other peer, accepting that stream, receives the same message, both
    with [receive_any_message] and with the receiving function of its type; the
    receiving function of any other type reports the type it got. *)
Theorem send_receive m c c' : send m c = (c', Ok tt) →
  outgoing c' = outgoing c ++ [frame m] ∧ incoming c' = incoming c ∧
  ∀ peer rest, incoming peer = frame m :: rest →
    receive_any_message peer = (pop peer rest, Ok m) ∧
    ∀ m0, receive m0 peer = (pop peer rest,
      if decide (message_type m = message_type m0) then Ok m
      else Err (UnexpectedType (message_type m0) (message_type m))).
Proof.
  intros Hs. pose proof (send_Ok_validated _ _ _ Hs) as Hv. rewrite send_eq in Hs by done.
  destruct (alive c) eqn:Ha; [|done]. case_if as Hlen; [done|].
  assert (zlen (encoding m) ≤ MAX_MESSAGE_SIZE) as Hle by lia. clear Hlen.
  injection Hs as <-. split; [done|]. split; [done|]. intros peer rest Hin. split.
  - unfold receive_any_message, accept_uni, mbind, st_bind, lift. rewrite Hin.
    unfold frame. cbn [app]. rewrite read_message_type_frame.
    destruct m; cbn [message_type encoding] in *; by rewrite receive_typed_frame.
  - intros m0. rewrite (receive_eq _ _ _ _ Hin). f_equal.
    destruct m0; cbn [message_type]; case_decide as Ht;
      try (rewrite receive_message_other by done; done);
      destruct m; try discriminate Ht; unfold frame; cbn [message_type encoding validated] in *;
      rewrite receive_message_frame by done; rewrite decide_True by done;
      cbn [mbind outcome_bind]; by rewrite ?Hv.
Qed.

Lemma receive_message_no_Panic {T} `{Message T} t s : receive_message (T:=T) t s ≠ Panic.
Proof.
  unfold receive_message, read_message_type, receive_typed_message, read_or.
  repeat first [apply bind_no_Panic; [auto with no_panic|intros []]|auto with no_panic].
Qed.

(** C12: Whatever bytes a peer sends, the receiving functions do not panic, and
    a message they return has the type asked for and has passed validation: in
    particular received chunk data matches its hash. *)
Theorem received_is_valid m0 c c' r : receive m0 c = (c', r) →
  r ≠ Panic ∧
  ∀ m, r = Ok m → message_type m = message_type m0 ∧ validated m ∧
    ∃ s, incoming c = s :: incoming c'.
Proof.
  destruct (incoming c) as [|s rest] eqn:Hin.
  { destruct m0; unfold receive, receive_folder_summary, receive_manifest, receive_want,
      receive_chunk_data, receive_ack, receive_error, receive_from_stream, accept_uni, mbind, st_bind;
    rewrite Hin; by intros [= <- <-]. }
  rewrite (receive_eq _ _ _ _ Hin). intros [= <- <-]. split.
  - destruct m0; repeat (apply bind_no_Panic; [auto using receive_message_no_Panic with no_panic|intros ?]);
      auto with no_panic.
  - intros m Hm.
    destruct m0; inv_ok; simpl in *; destruct_units; (split; [done|]); split; eauto.
Qed.

(** The validator allows chunks of up to 16 MB, the framing messages of up
    to 10 MB: a valid chunk with more than 10 MB of data is never sent (the
    protobuf form of a chunk is at least as long as its data). *)
Theorem large_chunk_not_sent c chunk :
  chunk_ok chunk → 10485760 < zlen (cd_data chunk) →
  zlen (cd_data chunk) ≤ zlen (encode chunk) →
  send_chunk_data chunk c = (c, if alive c then Err (TooLargeToSend (zlen (encode chunk)))
                                else Err ConnectionError).
Proof using All.
  intros [Hsz Hh] Hbig Henc. change (send_chunk_data chunk c) with (send (PChunkData chunk) c).
  rewrite send_eq.
  - destruct (alive c); [|done]. simpl. rewrite (proj2 (Z.ltb_lt _ _)); [done|].
    unfold MAX_MESSAGE_SIZE. lia.
  - simpl. unfold validate_chunk_data, must_be_32, validate_chunk_size, MIN_CHUNK_SIZE, MAX_CHUNK_SIZE.
    rewrite Hh. assert (zlen (blake3 (cd_data chunk)) = 32) as ->
      by (unfold zlen; by rewrite blake3_length). simpl.
    rewrite (proj2 (Z.ltb_ge _ _)), (proj2 (Z.ltb_ge _ _)) by lia. simpl.
    by rewrite bool_decide_eq_true_2.
Qed.

Lemma validate_chunk_data_hash c : validate_chunk_data c = Ok tt → cd_hash c = blake3 (cd_data c).
Proof.
  unfold validate_chunk_data. rewrite !bind_tt_Ok, fail_if_Ok, negb_false_iff, bool_decide_eq_true.
  intros (_ & _ & E). done.
Qed.

(** What one reception does to the loop of [transfer_chunks]. *)
Lemma receive_chunk_data_Ok c c' chunk : receive_chunk_data c = (c', Ok chunk) →
  cd_hash chunk = blake3 (cd_data chunk).
Proof.
  unfold receive_chunk_data. intros (c1 & ch & _ & Hv)%st_bind_Ok.
  apply st_bind_Ok in Hv as (c2 & [] & Hv & Hr). injection Hr as <- <-.
  unfold lift in Hv. injection Hv as _ Hv. apply map_err_Ok in Hv. by apply validate_chunk_data_hash.
Qed.

Lemma receive_chunks_sound n wanted self acc self' out :
  receive_chunks n wanted self acc = (self', out) →
  ∃ new, out = acc ++ new ∧ (length new ≤ n)%nat ∧
    Forall (λ c, cd_hash c = blake3 (cd_data c) ∧ cd_hash c ∈ wanted) new ∧
    (∀ h, get_cached_chunk self' h = get_cached_chunk self h ∨
          ∃ c, get_cached_chunk self' h = Some c ∧ c ∈ new ∧ cd_hash c = h) ∧
    (∀ c, c ∈ new → ∃ c', get_cached_chunk self' (cd_hash c) = Some c' ∧
                          c' ∈ new ∧ cd_hash c' = cd_hash c).
Proof.
  unfold get_cached_chunk.
  revert self acc. induction n as [|n IH]; intros self acc; cbn [receive_chunks].
  { intros [= <- <-]. exists []. rewrite app_nil_r. split_and!; [done|simpl; lia|constructor|by left|set_solver]. }
  destruct (receive_chunk_data (protocol self)) as [c [chunk|e|]] eqn:Hr.
  2-3: intros [= <- <-]; exists []; rewrite app_nil_r; split_and!; [done|simpl; lia|constructor|by left|set_solver].
  apply receive_chunk_data_Ok in Hr. case_decide as Hin; intros (new & -> & Hlen & Hok & Hc1 & Hc2)%IH.
  - exists (chunk :: new). rewrite <-app_assoc. cbn [chunk_cache] in *. rewrite <-Hr in *.
    split_and!; [done|simpl; lia|by constructor| |].
    + intros h. destruct (Hc1 h) as [E|(c' & E & Hn & Hh)].
      * destruct (decide (h = cd_hash chunk)) as [->|Hne].
        -- right. exists chunk. rewrite E, lookup_insert_eq. split_and!; [done|by left|done].
        -- left. by rewrite E, lookup_insert_ne.
      * right. exists c'. split_and!; [done|by right|done].
    + intros c0 [->|Hn]%elem_of_cons.
      * destruct (Hc1 (cd_hash chunk)) as [E|(c' & E & Hn & Hh)].
        -- exists chunk. rewrite E, lookup_insert_eq. split_and!; [done|by left|done].
        -- exists c'. split_and!; [done|by right|done].
      * destruct (Hc2 _ Hn) as (c' & ? & ? & ?). exists c'. split_and!; [done|by right|done].
  - exists new. split_and!; try done. lia.
Qed.

Lemma receive_chunks_complete chunks wanted self acc rest :
  incoming (protocol self) = map (λ c, frame (PChunkData c)) chunks ++ rest →
  Forall (λ c, validate_chunk_data c = Ok tt ∧ zlen (encode c) ≤ MAX_MESSAGE_SIZE ∧
               cd_hash c ∈ wanted) chunks →
  ∃ self', receive_chunks (length chunks) wanted self acc = (self', acc ++ chunks) ∧
    incoming (protocol self') = rest.
Proof.
  revert self acc. induction chunks as [|c chunks IH]; intros self acc Hin Hok; simpl.
  { exists self. by rewrite app_nil_r. }
  apply Forall_cons in Hok as [(Hv & Hlen & Hw) Hok]. simpl in Hin.
  assert (receive_chunk_data (protocol self) = (pop (protocol self)
    (map (λ c, frame (PChunkData c)) chunks ++ rest), Ok c)) as ->.
  { unfold receive_chunk_data, mbind, st_bind, lift. rewrite (receive_from_stream_eq _ _ _ _ Hin).
    unfold frame. cbn [message_type encoding]. rewrite receive_message_frame by done.
    rewrite decide_True by done. by rewrite Hv. }
  rewrite <-(validate_chunk_data_hash c) by done. rewrite decide_True by done.
  destruct (IH {| protocol := pop (protocol self) (map (λ c, frame (PChunkData c)) chunks ++ rest);
      chunk_cache := <[cd_hash c := c]> (chunk_cache self) |} (acc ++ [c])) as (self' & E & Hrest);
    [done..|].
  exists self'. by rewrite E, <-app_assoc.
Qed.

(** [transfer_chunks] only returns chunks that were asked for and whose
    data has the hash asked for, at most as many as were asked for; they are
    all in the cache afterwards, and nothing else was added to it. When the
    peer answers with the wanted chunks, in whatever order, it returns exactly
    the answer. *)
Theorem transfer_chunks_correct wanted self self' received :
  transfer_chunks wanted self = (self', Ok received) →
  (length received ≤ length wanted)%nat ∧
  Forall (λ c, cd_hash c = blake3 (cd_data c) ∧ cd_hash c ∈ wanted) received ∧
  (∀ c, c ∈ received → is_Some (get_cached_chunk self' (cd_hash c))) ∧
  (∀ h, get_cached_chunk self' h = get_cached_chunk self h ∨
        ∃ c, get_cached_chunk self' h = Some c ∧ c ∈ received ∧ cd_hash c = h) ∧
  (∀ chunks rest,
    incoming (protocol self) = map (λ c, frame (PChunkData c)) chunks ++ rest →
    map cd_hash chunks ≡ₚ wanted →
    Forall (λ c, validate_chunk_data c = Ok tt ∧ zlen (encode c) ≤ MAX_MESSAGE_SIZE) chunks →
    received = chunks).
Proof.
  intros Ht. unfold transfer_chunks in Ht.
  destruct (send_want _ (protocol self)) as [c [u|e|]] eqn:Hs; [|done..].
  destruct (receive_chunks _ _ _ _) as [s1 out] eqn:Hr. injection Ht as <- <-.
  apply receive_chunks_sound in Hr as Hsound. destruct Hsound as (new & -> & Hlen & Hok & Hc1 & Hc2).
  simpl in *. split_and!; [done|done| | exact Hc1 | ].
  - intros c0 Hc0. destruct (Hc2 _ Hc0) as (c' & -> & _). done.
  - intros chunks rest Hin Hp Hv.
    assert (incoming c = incoming (protocol self)) as Hinc.
    { change (send (PWant {| want_folder_id := "default"; want_chunk_hashes := wanted;
        want_priority := 1 |}) (protocol self) = (c, Ok u)) in Hs.
      pose proof (send_Ok_validated _ _ _ ltac:(by destruct u)) as Hwv. rewrite send_eq in Hs by done.
      destruct (alive _); [|done]. case_if; [done|]. by injection Hs as <- _. }
    destruct (receive_chunks_complete chunks wanted
      {| protocol := c; chunk_cache := chunk_cache self |} [] rest) as (self' & E & _).
    + simpl. by rewrite Hinc.
    + rewrite Forall_forall in *. intros c0 Hc0. split_and!; [by apply Hv..|].
      rewrite <-Hp. by apply list_elem_of_fmap_2.
    + assert (length wanted = length chunks) as El by (by rewrite <-Hp, length_map).
      rewrite El, E in Hr. by injection Hr as _ <-.
Qed.
End properties.

(** ** Concrete codecs and inputs *)

Module Examples.
(** A stand-in for protobuf: the bits of a number that encodes the message. *)
Fixpoint bits (p : positive) : list byte :=
  match p with xH => [] | xO p => x00 :: bits p | xI p => x01 :: bits p end.
Fixpoint unbits (l : list byte) : positive :=
  match l with [] => xH | x00 :: l => xO (unbits l) | _ :: l => xI (unbits l) end.
Lemma unbits_bits p : unbits (bits p) = p.
Proof. induction p; simpl; congruence. Qed.
Definition bit_encode {T} `{Countable T} (m : T) : list byte := bits (countable.encode m).
Definition bit_decode {T} `{Countable T} (l : list byte) : option T := countable.decode (unbits l).
Lemma bit_decode_encode {T} `{Countable T} (m : T) : bit_decode (bit_encode m) = Some m.
Proof. unfold bit_decode, bit_encode. rewrite unbits_bits. apply countable.decode_encode. Qed.
Definition bit_codec T `{Countable T} : Message T := {| decode_encode := bit_decode_encode |}.

Definition via {A B} `{Message B} (f : A → B) (g : B → A) (Hgf : ∀ a, g (f a) = a) : Message A.
Proof.
  refine {| encode a := encode (f a); decode l := g <$> decode l |}.
  intros a. by rewrite decode_encode; simpl; rewrite Hgf.
Defined.

#[local] Instance summary_codec : Message FolderSummary.
Proof.
  refine (@via _ _ (bit_codec (string * string * list byte * Z * Z * option (Z * Z)))
    (λ m, (fs_folder_id m, fs_folder_path m, fs_manifest_hash m, fs_total_size m,
           fs_file_count m, fs_last_modified m))
    (λ '(a, b, c, d, e, f), Build_FolderSummary a b c d e f) _). by intros [].
Defined.
#[local] Instance manifest_codec : Message ManifestMsg.
Proof.
  refine (@via _ _ (bit_codec (string * list (string * Z * Z * option (Z * Z) * list (list byte) * list byte)
      * option (Z * Z) * list byte))
    (λ m, (mm_folder_id m, map (λ f, (fe_path f, fe_size f, fe_mode f, fe_modified f,
             fe_chunk_hashes f, fe_content_hash f)) (mm_files m),
           mm_generated_at m, mm_manifest_hash m))
    (λ '(a, b, c, d), Build_ManifestMsg a
       (map (λ '(p, s, m, t, ch, h), Build_FileEntry p s m t ch h) b) c d) _).
  intros []; simpl. f_equal. rewrite map_map. etrans; [|apply map_id]. apply map_ext. by intros [].
Defined.
#[local] Instance want_codec : Message Want.
Proof.
  refine (@via _ _ (bit_codec (string * list (list byte) * Z))
    (λ m, (want_folder_id m, want_chunk_hashes m, want_priority m))
    (λ '(a, b, c), Build_Want a b c) _). by intros [].
Defined.
#[local] Instance ack_codec : Message Ack.
Proof.
  refine (@via _ _ (bit_codec (string * bool * string))
    (λ m, (ack_request_id m, ack_success m, ack_message m))
    (λ '(a, b, c), Build_Ack a b c) _). by intros [].
Defined.
#[local] Instance error_codec : Message ProtoError.
Proof.
  refine (@via _ _ (bit_codec (Z * string * string))
    (λ m, (error_type m, error_message m, error_details m))
    (λ '(a, b, c), Build_ProtoError a b c) _). by intros [].
Defined.

(** Chunk data with the data itself in the encoding, each byte marked. *)
Definition mark (l : list byte) : list byte := concat (map (λ b, [x01; b]) l).
Fixpoint unmark (l : list byte) : list byte * list byte :=
  match l with
  | x01 :: b :: l => let '(d, r) := unmark l in (b :: d, r)
  | _ :: l => ([], l)
  | [] => ([], [])
  end.
Lemma unmark_mark l r : unmark (mark l ++ x00 :: r) = (l, r).
Proof. induction l as [|b l IH]; [done|]. simpl. unfold mark in IH. by rewrite IH. Qed.
Definition chunk_encode (c : ChunkData) : list byte :=
  mark (cd_data c) ++ x00 :: bit_encode (cd_hash c, cd_compressed c, cd_uncompressed_size c).
Definition chunk_decode (l : list byte) : option ChunkData :=
  let '(d, r) := unmark l in
  (λ '(h, z, n), Build_ChunkData h d z n) <$> bit_decode r.
Lemma chunk_decode_encode c : chunk_decode (chunk_encode c) = Some c.
Proof.
  unfold chunk_decode, chunk_encode. rewrite unmark_mark, bit_decode_encode. by destruct c.
Qed.
#[local] Instance chunk_codec : Message ChunkData := {| decode_encode := chunk_decode_encode |}.
Lemma chunk_encode_length c : zlen (cd_data c) ≤ zlen (chunk_encode c).
Proof.
  unfold chunk_encode. rewrite zlen_app, zlen_cons.
  assert (zlen (cd_data c) ≤ zlen (mark (cd_data c))).
  { unfold mark. induction (cd_data c) as [|b l IH]; [done|]. simpl. rewrite !zlen_cons. lia. }
  pose proof (zlen_nonneg (bit_encode (cd_hash c, cd_compressed c, cd_uncompressed_size c))). lia.
Qed.

#[local] Instance ascii_unicode : Unicode.
Proof. by refine {| is_alphanumeric := is_ascii_alphanumeric |}. Defined.
(** A hash good enough to exercise the checks: a counter of the bytes. *)
Definition counting (l : list byte) : list byte := le_bytes 32 (zlen l).
#[local] Instance counting_hash : Blake3.
Proof. refine {| blake3 := counting |}. intros. apply le_bytes_length. Defined.

Definition idle : Connection := {| alive := true; outgoing := []; incoming := [] |}.
Definition wire (s : list (list byte)) : Connection :=
  {| alive := true; outgoing := []; incoming := s |}.
Definition chunk (n : nat) : ChunkData :=
  {| cd_hash := counting (repeat x00 n); cd_data := repeat x00 n; cd_compressed := false;
     cd_uncompressed_size := Z.of_nat n |}.
Definition want : Want :=
  {| want_folder_id := "docs"; want_chunk_hashes := [counting (repeat x00 300)]; want_priority := 1 |}.

Lemma send_receive_witness :
  receive_any_message (wire [frame (PWant want)]) = (wire [], Ok (PWant want)).
Proof.
  destruct (send_receive (PWant want) idle
    {| alive := true; outgoing := [frame (PWant want)]; incoming := [] |}) as (_ & _ & Hr).
  - by vm_compute.
  - by destruct (Hr (wire [frame (PWant want)]) [] eq_refl) as [-> _].
Defined.

Lemma received_is_valid_witness :
  receive (PChunkData (chunk 0)) (wire [frame (PChunkData (chunk 300))])
    = (wire [], Ok (PChunkData (chunk 300))) ∧
  validate_chunk_data (chunk 300) = Ok tt.
Proof.
  assert (receive (PChunkData (chunk 0)) (wire [frame (PChunkData (chunk 300))])
    = (wire [], Ok (PChunkData (chunk 300)))) as Hr by by vm_compute.
  split; [exact Hr|]. destruct (received_is_valid _ _ _ _ Hr) as [_ Hv].
  by destruct (Hv _ eq_refl) as (_ & Hv' & _).
Defined.

Lemma large_chunk_not_sent_witness :
  is_ok (send_chunk_data (chunk (Z.to_nat 10485761)) idle).2 = false.
Proof.
  assert (∀ n, 10485760 < Z.of_nat n ≤ 16777216 →
    is_ok (send_chunk_data (chunk n) idle).2 = false) as Hn.
  { intros n Hn. assert (zlen (cd_data (chunk n)) = Z.of_nat n) as Hlen.
    { unfold zlen, chunk, cd_data. by rewrite repeat_length. }
    rewrite large_chunk_not_sent; [reflexivity| | |apply chunk_encode_length];
      [split; [lia|reflexivity]|lia]. }
  apply Hn. rewrite Z2Nat.id by done. done.
Defined.

Definition wanted : list (list byte) := [counting (repeat x00 300); counting (repeat x00 301)].
Definition manager : BatchTransferManager :=
  {| protocol := wire [frame (PChunkData (chunk 301)); frame (PChunkData (chunk 300))];
     chunk_cache := ∅ |}.
Definition manager' : BatchTransferManager := (transfer_chunks wanted manager).1.

Lemma transfer_chunks_correct_witness :
  transfer_chunks wanted manager = (manager', Ok [chunk 301; chunk 300]) ∧
  is_Some (get_cached_chunk manager' (cd_hash (chunk 300))).
Proof.
  assert (transfer_chunks wanted manager = (manager', Ok [chunk 301; chunk 300])) as Ht
    by by vm_compute.
  split; [exact Ht|].
  destruct (transfer_chunks_correct wanted manager manager' [chunk 301; chunk 300] Ht)
    as (_ & _ & Hc & _).
  apply Hc. right. left.
Defined.
End Examples.
