(* ===== verification/SyncHandler.v ===== *)
(** The session state machine: landro-proto/src/sync_handler.rs.

    Each message handler is a function on the handler's state; the locks of the
    code make a handler one atomic step except where SyncLocks.v says so.
    Progress percentages are [f32] and are not modelled. *)

From S2P Require Import Prelude Bytes Proto.
From Stdlib Require Import Init.Byte Strings.Byte ZArith Lia.
From stdpp Require Import base option list gmap sets strings pretty numbers sorting.
Open Scope Z_scope.

Inductive SyncState :=
  | WaitingForHello
  | Connected
  | Syncing
  | Completed
  | Failed (reason : string).
#[export] Instance SyncState_eq_dec : EqDecision SyncState.
Proof. solve_decision. Defined.

Record PeerInfo := {
  device_id : list byte;
  device_name : string;
  peer_version : string;
  capabilities : list string;
}.

Record FolderSyncProgress := {
  folder_id : string;
  total_chunks : Z;
  received_chunks : Z;
  sent_chunks : Z;
  pending_chunks : gset (list byte);
}.

Definition FolderSyncProgress_new (folder_id : string) : FolderSyncProgress :=
  {| folder_id := folder_id; total_chunks := 0; received_chunks := 0; sent_chunks := 0;
     pending_chunks := ∅ |}.

Definition folder_complete (p : FolderSyncProgress) : bool :=
  (0 <? total_chunks p) && (received_chunks p =? total_chunks p).

Record SyncProtocolHandler := {
  state : SyncState;
  peer_info : option PeerInfo;
  folder_progress : gmap string FolderSyncProgress;
  our_device_id : list byte;
  our_device_name : string;
}.

Definition new (device_id : list byte) (device_name : string) : SyncProtocolHandler :=
  {| state := WaitingForHello; peer_info := None; folder_progress := ∅;
     our_device_id := device_id; our_device_name := device_name |}.

Definition set_state (s : SyncState) (self : SyncProtocolHandler) : SyncProtocolHandler :=
  {| state := s; peer_info := peer_info self; folder_progress := folder_progress self;
     our_device_id := our_device_id self; our_device_name := our_device_name self |}.
Definition set_peer (p : PeerInfo) (self : SyncProtocolHandler) : SyncProtocolHandler :=
  {| state := state self; peer_info := Some p; folder_progress := folder_progress self;
     our_device_id := our_device_id self; our_device_name := our_device_name self |}.
Definition set_progress (m : gmap string FolderSyncProgress) (self : SyncProtocolHandler) :
    SyncProtocolHandler :=
  {| state := state self; peer_info := peer_info self; folder_progress := m;
     our_device_id := our_device_id self; our_device_name := our_device_name self |}.

(** [total_chunks] and [pending_chunks] of a folder are set from a manifest. *)
Definition expect_chunks (all_chunks : gset (list byte)) (p : FolderSyncProgress) : FolderSyncProgress :=
  {| folder_id := folder_id p; total_chunks := Z.of_nat (size all_chunks);
     received_chunks := received_chunks p; sent_chunks := sent_chunks p;
     pending_chunks := all_chunks |}.
Definition count_sent (n : Z) (p : FolderSyncProgress) : FolderSyncProgress :=
  {| folder_id := folder_id p; total_chunks := total_chunks p;
     received_chunks := received_chunks p; sent_chunks := sent_chunks p + n;
     pending_chunks := pending_chunks p |}.
Definition take_chunk (hash : list byte) (p : FolderSyncProgress) : FolderSyncProgress :=
  {| folder_id := folder_id p; total_chunks := total_chunks p;
     received_chunks := received_chunks p + 1; sent_chunks := sent_chunks p;
     pending_chunks := pending_chunks p ∖ {[hash]} |}.

Section handler.
Context `{MapIter, Hex}.
(** The [Debug] form of a string: quoted and escaped by the standard library. *)
Context (debug_str : string → string).
(** Whether the log level lets [info!] evaluate its arguments. *)
Context (info_enabled : bool).

Abbreviation handler := (st SyncProtocolHandler ProtoError).

Definition debug_state (s : SyncState) : string :=
  match s with
  | WaitingForHello => "WaitingForHello"
  | Connected => "Connected"
  | Syncing => "Syncing"
  | Completed => "Completed"
  | Failed reason => "Failed(" +:+ debug_str reason +:+ ")"
  end.

Definition invalid_request (message : string) (s : SyncState) : ProtoError :=
  {| error_type := ErrorType_code InvalidRequest; error_message := message;
     error_details := "Current state: " +:+ debug_state s |}.

(** [now] is the current time. *)
Definition create_hello (now : Timestamp) (self : SyncProtocolHandler) : Hello :=
  {| hello_version := PROTOCOL_VERSION; hello_device_id := our_device_id self;
     hello_device_name := our_device_name self;
     hello_capabilities := ["sync.v1"; "delta.v1"; "compression.zstd"]%string;
     hello_timestamp := Some now |}.

Definition handle_hello (now : Timestamp) (hello : Hello) : handler Hello :=
  self ← get_st;
  if negb (bool_decide (state self = WaitingForHello)) then
    lift (Err (invalid_request "Unexpected Hello message" (state self)))
  else if negb (is_compatible (hello_version hello)) then
    _ ← modify_st (set_state (Failed "Version incompatible"));
    lift (Err {| error_type := ErrorType_code ProtocolVersionMismatch;
                 error_message := "Protocol version mismatch";
                 error_details := compatibility_error (hello_version hello) |})
  else
    let peer_info := {| device_id := hello_device_id hello; device_name := hello_device_name hello;
                        peer_version := hello_version hello;
                        capabilities := hello_capabilities hello |} in
    (* the log line shows [device_id[..8]] *)
    _ ← (if info_enabled
         then shown ← lift (or_panic (slice (device_id peer_info) 0 8)); mret (hex_encode shown)
         else mret EmptyString);
    _ ← modify_st (set_peer peer_info);
    _ ← modify_st (set_state Connected);
    self ← get_st;
    mret (create_hello now self).

Definition handle_folder_summary (summary : FolderSummary) : handler unit :=
  self ← get_st;
  if negb (bool_decide (state self = Connected)) && negb (bool_decide (state self = Syncing)) then
    lift (Err (invalid_request "Not ready for folder sync" (state self)))
  else
    _ ← modify_st (set_progress
          (<[fs_folder_id summary := FolderSyncProgress_new (fs_folder_id summary)]>
             (folder_progress self)));
    if bool_decide (state self = Connected) then modify_st (set_state Syncing) else mret tt.

Definition all_chunks (files : list FileEntry) : gset (list byte) :=
  foldl (λ s file, foldl (λ s chunk_hash, s ∪ {[chunk_hash]}) s (fe_chunk_hashes file)) ∅ files.

Definition handle_manifest (manifest : ManifestMsg) : handler Want :=
  self ← get_st;
  if negb (bool_decide (state self = Syncing)) then
    lift (Err (invalid_request "Not in syncing state" (state self)))
  else
    let all_chunks := all_chunks (mm_files manifest) in
    _ ← (match folder_progress self !! mm_folder_id manifest with
         | Some p => modify_st (set_progress
             (<[mm_folder_id manifest := expect_chunks all_chunks p]> (folder_progress self)))
         | None => mret tt
         end);
    mret {| want_folder_id := mm_folder_id manifest; want_chunk_hashes := set_iter all_chunks;
            want_priority := 1 |}.

Definition handle_want (want : Want) : handler (list ChunkData) :=
  self ← get_st;
  if negb (bool_decide (state self = Syncing)) then
    lift (Err (invalid_request "Not in syncing state" (state self)))
  else
    _ ← (match folder_progress self !! want_folder_id want with
         | Some p => modify_st (set_progress
             (<[want_folder_id want := count_sent (zlen (want_chunk_hashes want)) p]>
                (folder_progress self)))
         | None => mret tt
         end);
    mret [].

(** The first folder, in the order of iteration, that still needs the chunk. *)
Definition folder_needing (hash : list byte) (m : gmap string FolderSyncProgress) :
    option (string * FolderSyncProgress) :=
  head (filter (λ '(_, p), hash ∈ pending_chunks p) (map_iter m)).

(** The loop over [progress.values_mut()], left by [break]. *)
Definition receive_hash (hash : list byte) (m : gmap string FolderSyncProgress) :
    gmap string FolderSyncProgress :=
  match folder_needing hash m with
  | Some (id, p) => <[id := take_chunk hash p]> m
  | None => m
  end.

Definition handle_chunk_data (chunk : ChunkData) : handler Ack :=
  self ← get_st;
  if negb (bool_decide (state self = Syncing)) then
    lift (Err (invalid_request "Not in syncing state" (state self)))
  else
    let progress := receive_hash (cd_hash chunk) (folder_progress self) in
    _ ← modify_st (set_progress progress);
    let all_complete := forallb (λ '(_, p), folder_complete p) (map_iter progress) in
    _ ← (if all_complete && negb (bool_decide (progress = ∅))
         then modify_st (set_state Completed) else mret tt);
    mret {| ack_request_id := hex_encode (cd_hash chunk); ack_success := true;
            ack_message := "Chunk received" |}.

Definition handle_error (error : ProtoError) : handler unit :=
  modify_st (set_state (Failed (error_message error))).

Definition get_progress (self : SyncProtocolHandler) : gmap string FolderSyncProgress :=
  folder_progress self.
Definition is_complete (self : SyncProtocolHandler) : bool := bool_decide (state self = Completed).
Definition is_failed (self : SyncProtocolHandler) : bool :=
  match state self with Failed _ => true | _ => false end.

(** ** Sessions *)

Inductive message :=
  | InHello (now : Timestamp) (m : Hello)
  | InSummary (m : FolderSummary)
  | InManifest (m : ManifestMsg)
  | InWant (m : Want)
  | InChunk (m : ChunkData)
  | InError (m : ProtoError).

(** The handler after a message, and whether it answered with [Ok]. *)
Definition handle (m : message) (self : SyncProtocolHandler) : SyncProtocolHandler * bool :=
  match m with
  | InHello now m => let '(s, r) := handle_hello now m self in (s, is_ok r)
  | InSummary m => let '(s, r) := handle_folder_summary m self in (s, is_ok r)
  | InManifest m => let '(s, r) := handle_manifest m self in (s, is_ok r)
  | InWant m => let '(s, r) := handle_want m self in (s, is_ok r)
  | InChunk m => let '(s, r) := handle_chunk_data m self in (s, is_ok r)
  | InError m => let '(s, r) := handle_error m self in (s, is_ok r)
  end.
Definition run (ms : list message) (self : SyncProtocolHandler) : SyncProtocolHandler :=
  foldl (λ s m, (handle m s).1) self ms.
End handler.

(** ** The progress of a folder *)

Lemma all_chunks_spec files h :
  h ∈ all_chunks files ↔ ∃ f, f ∈ files ∧ h ∈ fe_chunk_hashes f.
Proof.
  unfold all_chunks.
  assert (∀ l s, h ∈ foldl (λ (s : gset (list byte)) c, s ∪ {[c]}) s l ↔ h ∈ s ∨ h ∈ l) as Hin.
  { induction l as [|c l IH]; intros s; simpl; [set_solver|]. rewrite IH. set_solver. }
  assert (∀ s : gset (list byte),
    h ∈ foldl (λ s file, foldl (λ s c, s ∪ {[c]}) s (fe_chunk_hashes file)) s files ↔
    h ∈ s ∨ ∃ f, f ∈ files ∧ h ∈ fe_chunk_hashes f) as Hout.
  { induction files as [|f files IH]; intros s; simpl; [set_solver|]. rewrite IH, Hin. set_solver. }
  rewrite Hout. set_solver.
Qed.

(** The folder's progress once the chunks [seen] have arrived. *)
Definition progress_at (id : string) (all seen : gset (list byte)) : FolderSyncProgress :=
  {| folder_id := id; total_chunks := Z.of_nat (size all);
     received_chunks := Z.of_nat (size (all ∩ seen)); sent_chunks := 0;
     pending_chunks := all ∖ seen |}.

Lemma folder_complete_at (id : string) (all seen : gset (list byte)) :
  folder_complete (progress_at id all seen) = true ↔ all ≠ ∅ ∧ all ⊆ seen.
Proof.
  unfold folder_complete, progress_at. simpl. rewrite andb_true_iff, Z.ltb_lt, Z.eqb_eq.
  split.
  - intros [Hpos Heq]. split; [intros ->; by rewrite size_empty in Hpos|].
    assert (all ∩ seen = all) as E; [|set_solver].
    apply leibniz_equiv, set_subseteq_size_equiv; [set_solver|lia].
  - intros [Hne Hsub]. assert (all ∩ seen = all) as -> by set_solver. split; [|done].
    assert (size all ≠ 0%nat); [|lia]. by intros ?%size_empty_inv%leibniz_equiv.
Qed.

Lemma receive_hash_at `{MapIter} (id : string) (all seen : gset (list byte)) hash :
  receive_hash hash {[id := progress_at id all seen]} = {[id := progress_at id all ({[hash]} ∪ seen)]}.
Proof.
  unfold receive_hash, folder_needing. rewrite map_iter_singleton, filter_cons.
  case_decide as Hin; cbn [pending_chunks progress_at] in Hin; simpl.
  - rewrite insert_singleton_eq. f_equal. unfold take_chunk, progress_at. simpl. f_equal.
    + replace (all ∩ ({[hash]} ∪ seen)) with ({[hash]} ∪ all ∩ seen) by set_solver.
      rewrite (gset_size_insert hash (all ∩ seen)) by set_solver. lia.
    + set_solver.
  - apply not_elem_of_difference in Hin. f_equal. unfold progress_at. f_equal.
    + assert (all ∩ ({[hash]} ∪ seen) = all ∩ seen) as ->; [|done].
      apply set_eq. intros h. set_unfold. destruct (decide (h = hash)) as [->|], (decide (hash ∈ all)), (decide (hash ∈ seen)); tauto.
    + apply set_eq. intros h. set_unfold. destruct (decide (h = hash)) as [->|], (decide (hash ∈ all)), (decide (hash ∈ seen)); tauto.
Qed.

(** ** Properties *)

(** The transitions of a session. *)
Inductive edge : SyncState → SyncState → Prop :=
  | edge_hello : edge WaitingForHello Connected
  | edge_summary : edge Connected Syncing
  | edge_complete : edge Syncing Completed
  | edge_fail s reason : edge s (Failed reason).

Section properties.
Context `{MapIter, Hex} (debug_str : string → string) (info_enabled : bool).
Abbreviation handle := (handle debug_str info_enabled).
Abbreviation run := (run debug_str info_enabled).
Implicit Types self : SyncProtocolHandler.

Definition peer_known self : Prop :=
  state self = Connected ∨ state self = Syncing ∨ state self = Completed → is_Some (peer_info self).

Lemma handle_step self m : peer_known self →
  let '(self', ok) := handle m self in
  (state self' = state self ∨ edge (state self) (state self')) ∧
  (ok = false → self' = self ∨
     state self = WaitingForHello ∧ self' = set_state (Failed "Version incompatible") self) ∧
  peer_known self'.
Proof.
  intros Hk. unfold peer_known in *. destruct m as [now m|m|m|m|m|m]; simpl.
  - unfold handle_hello, mbind, st_bind, get_st, lift, modify_st. simpl.
    case_bool_decide as Hs; simpl; [|by auto].
    case_if; simpl; [|].
    { destruct (is_compatible (hello_version m)) eqn:Hc; simpl in *; [done|].
      rewrite Hs. split_and!; [right; constructor|by auto|naive_solver]. }
    destruct info_enabled; simpl; [destruct (slice _ 0 8); simpl|];
      rewrite ?Hs; split_and!; eauto using edge; try naive_solver.
  - unfold handle_folder_summary, mbind, st_bind, get_st, lift, modify_st. simpl.
    repeat case_bool_decide; simpl; split_and!; eauto using edge; try naive_solver;
      rewrite ?H1, ?H2; eauto using edge.
  - unfold handle_manifest, mbind, st_bind, get_st, lift, modify_st. simpl.
    case_bool_decide as Hs; simpl; [|by auto].
    destruct (folder_progress self !! _); simpl; split_and!; eauto; done.
  - unfold handle_want, mbind, st_bind, get_st, lift, modify_st. simpl.
    case_bool_decide as Hs; simpl; [|by auto].
    destruct (folder_progress self !! _); simpl; split_and!; eauto; done.
  - unfold handle_chunk_data, mbind, st_bind, get_st, lift, modify_st. simpl.
    case_bool_decide as Hs; simpl; [|by auto].
    case_if; simpl; rewrite ?Hs; split_and!; eauto using edge; try done.
  - split_and!; [right; constructor|done|naive_solver].
Qed.

(** Every message moves the session along an edge of its state machine
    (greeting, then folder summary, then completion by a chunk, with failure
    from anywhere) or leaves its state; a message that is refused changes
    nothing, except a greeting with an incompatible version, which fails the
    session; and from the start a peer is known whenever the session is
    connected, syncing or completed. *)
Theorem session_transitions id name ms m :
  let self := run ms (new id name) in
  let '(self', ok) := handle m self in
  (state self' = state self ∨ edge (state self) (state self')) ∧
  (ok = false → self' = self ∨
     state self = WaitingForHello ∧ self' = set_state (Failed "Version incompatible") self) ∧
  (state self' = Connected ∨ state self' = Syncing ∨ state self' = Completed →
     is_Some (peer_info self')).
Proof.
  assert (∀ ms self, peer_known self → peer_known (run ms self)) as Hrun.
  { induction ms0 as [|m0 ms0 IH]; intros self Hk; [done|]. simpl. apply IH.
    pose proof (handle_step self m0 Hk) as Hs. destruct (handle m0 self). simpl. apply Hs. }
  cbn zeta. apply handle_step, Hrun. unfold peer_known, new. simpl. naive_solver.
Qed.

(** A greeting panics exactly when the session waits for it, its version is
    accepted, log lines at the info level are evaluated, and the device id has
    fewer than 8 bytes (the log line shows its first 8); the session then still
    waits for a greeting. Otherwise a compatible greeting connects. *)
Theorem handle_hello_panics now m self :
  let r := handle_hello debug_str info_enabled now m self in
  (r.2 = Panic ↔ state self = WaitingForHello ∧ is_compatible (hello_version m) = true ∧
     info_enabled = true ∧ zlen (hello_device_id m) < 8) ∧
  (r.2 = Panic → r.1 = self) ∧
  (state self = WaitingForHello → is_compatible (hello_version m) = true →
     r.2 ≠ Panic → state r.1 = Connected ∧ r.2 = Ok (create_hello now self) ∧
     device_id <$> peer_info r.1 = Some (hello_device_id m)).
Proof.
  unfold handle_hello, mbind, st_bind, get_st, lift, modify_st. simpl.
  case_bool_decide as Hs; simpl; [|naive_solver].
  destruct (is_compatible (hello_version m)) eqn:Hc; simpl; [|naive_solver].
  destruct info_enabled; simpl; [|naive_solver].
  unfold slice. case_decide as Hlen; simpl; (split_and!; [split|..]); try naive_solver; try lia.
  intros _. split_and!; try done. lia.
Qed.

Lemma handle_chunk_at self (id : string) (all seen : gset (list byte)) c :
  state self = Syncing → folder_progress self = {[id := progress_at id all seen]} →
  let seen' := {[cd_hash c]} ∪ seen in
  let self' := (handle (InChunk c) self).1 in
  folder_progress self' = {[id := progress_at id all seen']} ∧
  state self' = if decide (all ≠ ∅ ∧ all ⊆ seen') then Completed else Syncing.
Proof.
  intros Hs Hp seen' self'. unfold self', SyncHandler.handle, handle_chunk_data, mbind, st_bind,
    get_st, lift, modify_st. simpl. rewrite Hp.
  rewrite bool_decide_eq_true_2 by done. simpl.
  rewrite receive_hash_at. fold seen'.
  rewrite map_iter_singleton. simpl. rewrite andb_true_r.
  rewrite (bool_decide_eq_false_2 ({[id := _]} = ∅)) by apply map_non_empty_singleton. simpl.
  rewrite andb_true_r. case_decide as Hd.
  - rewrite (proj2 (folder_complete_at id all seen')) by done. done.
  - destruct (folder_complete _) eqn:E; [by apply folder_complete_at in E|]. by split; [|apply Hs].
Qed.

Lemma run_chunks_stopped self cs : state self ≠ Syncing → run (map InChunk cs) self = self.
Proof.
  intros Hs. induction cs as [|c cs IH]; [done|]. simpl.
  unfold handle_chunk_data, mbind, st_bind, get_st, lift. simpl.
  by rewrite bool_decide_eq_false_2.
Qed.

Lemma run_chunks self (id : string) (all seen : gset (list byte)) cs :
  state self = Syncing → folder_progress self = {[id := progress_at id all seen]} →
  ¬ (all ≠ ∅ ∧ all ⊆ seen) →
  state (run (map InChunk cs) self) =
    if decide (all ≠ ∅ ∧ all ⊆ seen ∪ list_to_set (map cd_hash cs)) then Completed else Syncing.
Proof.
  revert self seen. induction cs as [|c cs IH]; intros self seen Hs Hp Hn.
  { rewrite decide_False; [done|]. intros [? ?]. apply Hn. set_solver. }
  cbn [map]. change (run (InChunk c :: ?l) self) with (run l (handle (InChunk c) self).1).
  destruct (handle_chunk_at self id all seen c Hs Hp) as [Hp' Hs'].
  destruct (decide (all ≠ ∅ ∧ all ⊆ {[cd_hash c]} ∪ seen)) as [[Hne Hsub]|Hd].
  - rewrite run_chunks_stopped by (by rewrite Hs'). rewrite Hs', decide_True; [done|].
    split; [done|]. cbn [list_to_set]. set_solver.
  - rewrite (IH _ _ Hs' Hp' Hd). cbn [list_to_set].
    replace ({[cd_hash c]} ∪ seen ∪ list_to_set (map cd_hash cs))
      with (seen ∪ ({[cd_hash c]} ∪ list_to_set (map cd_hash cs))) by set_solver. done.
Qed.

(** C11: After a folder summary and the manifest of that folder, the handler
    asks for exactly the distinct chunks of the manifest, and then, whatever
    chunks arrive in whatever order and however often, the session is
    completed once all of them have arrived and not before; a manifest without
    chunks leaves it syncing for ever. *)
Theorem folder_session_completes self sum m cs :
  state self = Connected → folder_progress self = ∅ → fs_folder_id sum = mm_folder_id m →
  let s1 := run [InSummary sum] self in
  let s2 := run [InManifest m] s1 in
  let wanted := all_chunks (mm_files m) in
  (∃ want, (handle_manifest debug_str m s1).2 = Ok want ∧ NoDup (want_chunk_hashes want) ∧
     ∀ h, h ∈ want_chunk_hashes want ↔ ∃ f, f ∈ mm_files m ∧ h ∈ fe_chunk_hashes f) ∧
  state (run (map InChunk cs) s2) =
    if decide (wanted ≠ ∅ ∧ ∀ h, h ∈ wanted → h ∈ map cd_hash cs) then Completed else Syncing.
Proof.
  intros Hs Hp Hid s1 s2 wanted.
  assert (state s1 = Syncing ∧ folder_progress s1 = {[mm_folder_id m := FolderSyncProgress_new (mm_folder_id m)]})
    as [Hs1 Hp1].
  { unfold s1. simpl. unfold handle_folder_summary, mbind, st_bind, get_st, lift, modify_st. simpl.
    rewrite (bool_decide_eq_true_2 _ Hs). simpl. by rewrite Hp, Hid. }
  split.
  - exists {| want_folder_id := mm_folder_id m; want_chunk_hashes := set_iter wanted;
              want_priority := 1 |}.
    split; [|split; [apply NoDup_set_iter|]].
    + unfold handle_manifest, mbind, st_bind, get_st, lift, modify_st. simpl.
      rewrite (bool_decide_eq_true_2 _ Hs1). simpl. by rewrite Hp1, lookup_singleton_eq.
    + intros h. simpl. rewrite elem_of_set_iter. apply all_chunks_spec.
  - assert (state s2 = Syncing ∧ folder_progress s2 = {[mm_folder_id m := progress_at (mm_folder_id m) wanted ∅]})
      as [Hs2 Hp2].
    { unfold s2. simpl. unfold handle_manifest, mbind, st_bind, get_st, lift, modify_st. simpl.
      rewrite (bool_decide_eq_true_2 _ Hs1). simpl. rewrite Hp1, lookup_singleton_eq. simpl.
      split; [done|]. rewrite insert_singleton_eq. f_equal. unfold expect_chunks, progress_at. simpl.
      fold wanted. f_equal; [|set_solver]. by rewrite intersection_empty_r_L, size_empty. }
    rewrite (run_chunks s2 _ _ _ cs Hs2 Hp2) by set_solver.
    rewrite !decide_bool_decide. erewrite bool_decide_ext; [done|].
    assert (wanted ⊆ ∅ ∪ list_to_set (map cd_hash cs) ↔ ∀ h, h ∈ wanted → h ∈ map cd_hash cs) as E.
    { rewrite union_empty_l_L. unfold subseteq, set_subseteq_instance. by setoid_rewrite elem_of_list_to_set. }
    by rewrite E.
Qed.
End properties.

(** ** Concrete inputs *)

Module Examples.
#[local] Existing Instance RefHash.hex.
#[local] Existing Instance gmap_order.

Definition hello (v : string) (n : nat) : Hello :=
  {| hello_version := v; hello_device_id := repeat x07 n; hello_device_name := "peer";
     hello_capabilities := []; hello_timestamp := None |}.
Definition summary : FolderSummary :=
  {| fs_folder_id := "docs"; fs_folder_path := "/d"; fs_manifest_hash := []; fs_total_size := 3;
     fs_file_count := 1; fs_last_modified := None |}.
Definition manifest (hs : list (list byte)) : ManifestMsg :=
  {| mm_folder_id := "docs"; mm_generated_at := None; mm_manifest_hash := [];
     mm_files := [{| fe_path := "f"; fe_size := 3; fe_mode := 0; fe_modified := None;
                     fe_chunk_hashes := hs; fe_content_hash := [] |}] |}.
Definition chunk (h : list byte) : ChunkData :=
  {| cd_hash := h; cd_data := []; cd_compressed := false; cd_uncompressed_size := 0 |}.
Definition connected : SyncProtocolHandler :=
  run id true [InHello (0, 0) (hello "0.1.0" 32)] (new [] "me").

Lemma folder_session_completes_witness :
  state connected = Connected ∧
  state (run id true (map InChunk [chunk [x02]; chunk [x02]; chunk [x01]])
    (run id true [InManifest (manifest [[x01]; [x02]; [x01]])] (run id true [InSummary summary] connected)))
    = Completed.
Proof.
  split; [by vm_compute|].
  destruct (folder_session_completes id true connected summary (manifest [[x01]; [x02]; [x01]])
    [chunk [x02]; chunk [x02]; chunk [x01]]) as [_ Hs]; [by vm_compute..|].
  etrans; [exact Hs|]. by vm_compute.
Defined.

Example short_device_id_panics :
  (handle_hello id true (0, 0) (hello "0.1.0" 3) (new [] "me")).2 = Panic ∧
  is_ok (handle_hello id false (0, 0) (hello "0.1.0" 3) (new [] "me")).2 = true.
Proof. by vm_compute. Qed.

(** A second manifest for a folder resets the chunks to wait for but not
    the number received, so a session can be completed while a chunk of the
    last manifest is still missing. *)
Theorem second_manifest_completes_early :
  let s := run id true [InHello (0, 0) (hello "0.1.0" 32); InSummary summary;
    InManifest (manifest [[x01]; [x02]]); InChunk (chunk [x01]);
    InManifest (manifest [[x03]; [x04]]); InChunk (chunk [x03])] (new [] "me") in
  state s = Completed ∧
  ∃ p, folder_progress s !! "docs"%string = Some p ∧ [x04] ∈ pending_chunks p.
Proof.
  intros s. split; [by vm_compute|]. unfold s. eexists. split; [by vm_compute|].
  apply (bool_decide_unpack _). by vm_compute.
Qed.
End Examples.
