(* ===== verification/SyncLocks.v ===== *)
(** Two folder summaries handled at the same time: the locks taken by
    [handle_folder_summary] in landro-proto/src/sync_handler.rs.

    The handler reads the session state under [state.read()], keeps that guard
    while it takes [folder_progress.write()], and, in the state Connected, drops
    the first guard and takes [state.write()] while it still holds the second.
    The model has two tasks and, for each of the two [tokio::sync::RwLock]s, who
    holds it and how; a task that cannot take a lock waits. (tokio queues a reader
    behind a waiting writer; the deadlocks below need no such reader: both tasks
    read the state before either asks to write it.) *)

From S2P Require Import Prelude SyncHandler.
From Stdlib Require Import ZArith Lia.
From stdpp Require Import base option list relations sorting.
Open Scope Z_scope.

(** Where a task is in [handle_folder_summary]. *)
Inductive pc :=
  | Start           (* before [self.state.read().await] *)
  | HasStateRead    (* the state was checked; before [folder_progress.write().await] *)
  | HasProgress     (* both guards held; the progress entry was inserted *)
  | WantsStateWrite (* [drop(state)] done; before [self.state.write().await] *)
  | Done.
#[export] Instance pc_eq_dec : EqDecision pc.
Proof. solve_decision. Defined.

(** Only the two states of interest are followed. *)
Record config := {
  connected : bool;  (* [*state == SyncState::Connected], otherwise Syncing *)
  task_a : pc;
  task_b : pc;
}.
#[export] Instance config_eq_dec : EqDecision config.
Proof. solve_decision. Defined.

(** Guards held by a task at each point. *)
Definition reads_state (p : pc) : bool :=
  match p with HasStateRead | HasProgress => true | _ => false end.
Definition writes_progress (p : pc) : bool :=
  match p with HasProgress | WantsStateWrite => true | _ => false end.

(** One step of a task, given what the other task holds: [None] while it waits.
    The write of the state and the release of all guards is one step, as is the
    return in the state Syncing. *)
Definition advance (conn : bool) (me other : pc) : option (bool * pc) :=
  match me with
  | Start => Some (conn, HasStateRead)
  | HasStateRead => if writes_progress other then None else Some (conn, HasProgress)
  | HasProgress => Some (conn, if conn then WantsStateWrite else Done)
  | WantsStateWrite => if reads_state other then None else Some (false, Done)
  | Done => None
  end.

Definition step_a (c : config) : option config :=
  '(conn, p) ← advance (connected c) (task_a c) (task_b c);
  Some {| connected := conn; task_a := p; task_b := task_b c |}.
Definition step_b (c : config) : option config :=
  '(conn, p) ← advance (connected c) (task_b c) (task_a c);
  Some {| connected := conn; task_a := task_a c; task_b := p |}.

Inductive step : config → config → Prop :=
  | do_a c c' : step_a c = Some c' → step c c'
  | do_b c c' : step_b c = Some c' → step c c'.

Definition init : config := {| connected := true; task_a := Start; task_b := Start |}.

Definition stuck (c : config) : Prop := step_a c = None ∧ step_b c = None.
Definition finished (c : config) : Prop := task_a c = Done ∧ task_b c = Done.

(** The two deadlocks: one task keeps the progress and waits for the state, the
    other reads the state and waits for the progress. *)
Definition deadlocks : list config :=
  [{| connected := true; task_a := WantsStateWrite; task_b := HasStateRead |};
   {| connected := true; task_a := HasStateRead; task_b := WantsStateWrite |}].

(** Reachable configurations, as found by exploration. *)
Definition successors (c : config) : list config :=
  option_list (step_a c) ++ option_list (step_b c).
Definition reachable : list config := explore successors 8 [init].

Lemma step_successors c c' : step c c' → c' ∈ successors c.
Proof.
  unfold successors. rewrite elem_of_app. intros [c0 c1 ->|c0 c1 ->]; cbn; [left|right]; by apply list_elem_of_singleton.
Qed.
Lemma rtc_reachable c : rtc step init c → c ∈ reachable.
Proof.
  apply (rtc_closed step successors); [apply step_successors|..]; apply (bool_decide_unpack _); by vm_compute.
Qed.

(** C33: Two folder summaries that arrive together in the state Connected can
    deadlock: the deadlock is reached by a schedule, and every execution that
    stops before both summaries are handled has stopped in that deadlock, the
    progress lock never being held by both tasks. Each summary alone is handled. *)
Theorem concurrent_summaries_deadlock :
  (∀ d, d ∈ deadlocks → rtc step init d ∧ stuck d ∧ ¬ finished d) ∧
  (∀ c, rtc step init c →
     (stuck c → finished c ∨ c ∈ deadlocks) ∧
     ¬ (writes_progress (task_a c) = true ∧ writes_progress (task_b c) = true)) ∧
  (∃ c, rtc step init c ∧ finished c ∧ connected c = false) ∧
  (∀ c, rtc step {| connected := true; task_a := Start; task_b := Done |} c → stuck c → finished c).
Proof.
  split_and!.
  - intros d Hd. assert (stuck d ∧ ¬ finished d) as [? ?].
    { apply elem_of_cons in Hd as [->|Hd%list_elem_of_singleton]; [|subst];
        (split; [done|by intros [? ?]]). }
    split; [|done]. apply elem_of_cons in Hd as [->|Hd%list_elem_of_singleton]; [|subst].
    + eapply rtc_l; [by apply do_b|]. do 3 (eapply rtc_l; [by apply do_a|]). apply rtc_refl.
    + eapply rtc_l; [by apply do_a|]. do 3 (eapply rtc_l; [by apply do_b|]). apply rtc_refl.
  - intros c Hc%rtc_reachable.
    assert (Forall (λ c, ((step_a c = None ∧ step_b c = None) →
        (task_a c = Done ∧ task_b c = Done) ∨ c ∈ deadlocks) ∧
      ¬ (writes_progress (task_a c) = true ∧ writes_progress (task_b c) = true)) reachable) as Hall.
    { apply (bool_decide_unpack _). by vm_compute. }
    rewrite Forall_forall in Hall. by apply Hall.
  - exists {| connected := false; task_a := Done; task_b := Done |}. split; [|done].
    do 4 (eapply rtc_l; [by apply do_a|]). do 3 (eapply rtc_l; [by apply do_b|]).
    apply rtc_refl.
  - intros c Hc. enough (task_b c = Done ∧ (task_a c = Done → connected c = false)) as [Hb _].
    { unfold stuck, finished, step_a. rewrite Hb. destruct (task_a c); simpl; try done;
        destruct (connected c); naive_solver. }
    apply (rtc_ind_r (R:=step) (λ c, task_b c = Done ∧ (task_a c = Done → connected c = false))
      {| connected := true; task_a := Start; task_b := Done |}); [done| |done].
    intros c1 c2 _ Hs [Hb Hc1]. destruct Hs as [c1 c2 Hs|c1 c2 Hs].
    + unfold step_a in Hs. rewrite Hb in Hs. destruct (task_a c1); simpl in Hs;
        try (injection Hs as <-); simpl; try done; destruct (connected c1); done.
    + unfold step_b in Hs. by rewrite Hb in Hs.
Qed.
