(* ===== verification/CasInterface.v ===== *)
(** What the rest of the program needs of the content store.

    [read] and [write] of landro-cas/src/storage.rs, as the session of
    landro-sync/src/protocol.rs uses them. The session is proved against this
    class; Storage.v models the store and provides the instance. *)

From S2P Require Import Prelude Bytes.
From Stdlib Require Import Init.Byte ZArith.
From stdpp Require Import base list.

(** A store of type [Store], without operations that remove objects. A call
    that fails or does not return gives [None] or [false]. Data that is read
    has the hash it is read by; a write that succeeds makes the store hold an
    object of that name; no read or write makes the store lose one. *)
Class ContentStore `{Blake3} (Store : Type) := {
  cas_read : Store → list byte → Store * option (list byte);
  cas_write : Store → list byte → Store * bool;
  cas_holds : Store → list byte → Prop;
  cas_read_data s h d : (cas_read s h).2 = Some d → blake3 d = h;
  cas_write_holds s data : (cas_write s data).2 = true → cas_holds (cas_write s data).1 (blake3 data);
  cas_write_keeps s data h : cas_holds s h → cas_holds (cas_write s data).1 h;
  cas_read_keeps s h h' : cas_holds s h' → cas_holds (cas_read s h).1 h';
}.

(** The chunks in memory, each of them kept for ever. *)
Module MemoryStore.
Abbreviation Memory := (list (list byte)).
Section memory.
Context `{Blake3}.
Definition mem_read (m : Memory) (h : list byte) : Memory * option (list byte) :=
  (m, head (filter (λ d, blake3 d = h) m)).
Definition mem_write (m : Memory) (data : list byte) : Memory * bool := (data :: m, true).
Definition memory_store : ContentStore Memory.
Proof.
  refine {| cas_read := mem_read; cas_write := mem_write; cas_holds m h := h ∈ map blake3 m |}.
  - intros m h d Hd. apply head_Some_elem_of, list_elem_of_filter in Hd. apply Hd.
  - intros m data _. left.
  - intros m data h Hh. by right.
  - done.
Defined.
End memory.
End MemoryStore.
