(* ===== verification/Indexer.v ===== *)
(** The indexer: landro-index/src/indexer.rs with the index database of
    landro-index/src/database_pool.rs.

    A folder is walked, every file is cut into chunks, the chunks are written to
    the content store (the interface of CasInterface.v) and a manifest of the
    files is made, saved and returned. The operating system is a record of what
    its calls answer; it does not change during one call. SQLite is a class with
    the statements of the pool as operations. *)

From S2P Require Import Prelude Bytes CasInterface Chunker Manifest.
From Stdlib Require Import Init.Byte ZArith Lia.
From stdpp Require Import base option list gmap sets strings pretty numbers sorting.
Open Scope Z_scope.

(** ** Paths and files *)

(** A path, by its components; the first one of an absolute path is the root. *)
Abbreviation Path := (list string).
Definition path_string (p : Path) : string :=
  match p with
  | root :: rest =>
      if String.eqb root "/" then "/" +:+ String.concat "/" rest else String.concat "/" p
  | [] => EmptyString
  end.
Definition join (p : Path) (name : string) : Path := p ++ [name].
Definition file_name (p : Path) : string := default EmptyString (last p).

(** Paths are ordered component by component. *)
Fixpoint components_leb (a b : Path) : bool :=
  match a, b with
  | [], _ => true
  | _ :: _, [] => false
  | x :: a, y :: b => if String.eqb x y then components_leb a b else String.leb x y
  end.

Inductive FileType := IsFile | IsDir | IsSymlink | IsOther.
#[export] Instance FileType_eq_dec : EqDecision FileType.
Proof. solve_decision. Defined.
Record Metadata := { m_type : FileType; m_len : Z; m_modified : option DateTime; m_mode : option Z }.

(** What the system calls answer; [None] is an error. [metadata] and [open] follow
    links, [file_type] (of a directory entry) and [read_link] do not. *)
Record System := {
  canonicalize : Path → option Path;
  read_dir : Path → option (list string);
  file_type : Path → option FileType;
  metadata : Path → option Metadata;
  read_link : Path → option Path;
  open_file : Path → option (list (outcome ChunkerError (list byte)));
}.

(** ** The database *)

Inductive IndexError :=
  | IndexIo
  | InvalidFileType (p : Path)
  | IndexChunker (e : ChunkerError)
  | IndexStorage
  | IndexDatabase
  | IndexTaskJoin.

Record FileEntry := {
  fe_path : string;
  fe_size : Z;
  fe_modified_at : DateTime;
  fe_content_hash : string;
  fe_mode : option Z;
}.

(** What the pool and SQLite answer: whether a connection is handed out, whether a
    transaction commits, the statements that the pool executes, and the rows of the table of manifests
    by the columns of its UNIQUE constraint: device id, folder path, version. *)
Class IndexDb := {
  Db : Type;
  connection_ok : Db → bool;
  commit_ok : Db → bool;
  manifest_rows : Db → gset (string * string * Z);
  select_max_version : string → string → Db → outcome IndexError (option Z);
  insert_manifest : string → string → Z → string → Z → Z → Db → Db * outcome IndexError Z;
  upsert_file_row : FileEntry → Db → Db * outcome IndexError Z;
  insert_manifest_file : Z → Z → list string → Db → Db * outcome IndexError unit;
  upsert_chunk_row : string → Z → Db → Db * outcome IndexError Z;
}.
(** [SELECT MAX(version) .. WHERE device_id = .. AND folder_path = ..], INSERT under
    the constraint, and statements on other tables. *)
Class IndexDbLaws `{IndexDb} := {
  max_version_row : ∀ d p db v, select_max_version d p db = Ok (Some v) → (d, p, v) ∈ manifest_rows db;
  max_version_none : ∀ d p db v, select_max_version d p db = Ok None → (d, p, v) ∉ manifest_rows db;
  max_version_max : ∀ d p db v w, select_max_version d p db = Ok (Some v) → (d, p, w) ∈ manifest_rows db → w ≤ v;
  insert_manifest_ok : ∀ d p v h n s db db' i, insert_manifest d p v h n s db = (db', Ok i) →
    (d, p, v) ∉ manifest_rows db ∧ manifest_rows db' = {[ (d, p, v) ]} ∪ manifest_rows db;
  upsert_file_rows : ∀ f db, manifest_rows (upsert_file_row f db).1 = manifest_rows db;
  insert_manifest_file_rows : ∀ m f c db, manifest_rows (insert_manifest_file m f c db).1 = manifest_rows db;
  upsert_chunk_rows : ∀ h s db, manifest_rows (upsert_chunk_row h s db).1 = manifest_rows db;
}.

Section pool.
Context `{IndexDb} (checked : bool).
Abbreviation query := (st Db IndexError).

(** An [i64] read as a [u64] and back. *)
Definition as_u64 (z : Z) : Z := wrap 64 z.
Definition as_i64 (z : Z) : Z := if z <? 2 ^ 63 then z else z - 2 ^ 64.

(** A transaction is rolled back unless its function returns a value and the commit
    succeeds. It runs in a task of its own: a panic there is an error here. *)
Definition execute_transaction {A} (f : query A) : query A := λ db,
  if negb (connection_ok db) then (db, Err IndexDatabase) else
  match f db with
  | (db', Ok a) => if commit_ok db' then (db', Ok a) else (db, Err IndexDatabase)
  | (_, Err e) => (db, Err e)
  | (_, Panic) => (db, Err IndexTaskJoin)
  end.
Definition execute_blocking {A} (f : Db → outcome IndexError A) : query A := λ db,
  (db, if negb (connection_ok db) then Err IndexDatabase else
       match f db with Panic => Err IndexTaskJoin | r => r end).

Definition upsert_file (f : FileEntry) : query Z := execute_transaction (upsert_file_row f).
Definition upsert_chunk (hash : string) (size : Z) : query Z := execute_transaction (upsert_chunk_row hash size).
Definition get_latest_manifest_version (device_id folder_path : string) : query (option Z) :=
  execute_blocking (λ db,
    match select_max_version device_id folder_path db with
    | Ok v => Ok (as_u64 <$> (v : option Z)) | Err e => Err e | Panic => Panic end).

Fixpoint save_manifest_files (manifest_id : Z) (fs : list ManifestEntry) : query unit :=
  match fs with
  | [] => mret tt
  | e :: fs =>
      file_id ← upsert_file_row {| fe_path := path e; fe_size := fsize e; fe_modified_at := modified_at e;
                                   fe_content_hash := content_hash e; fe_mode := mode e |};
      _ ← insert_manifest_file manifest_id file_id (chunk_hashes e);
      save_manifest_files manifest_id fs
  end.
(** The folder id is written as the device id, and "/" as the folder path. *)
Definition save_manifest (m : Manifest) : query Z :=
  execute_transaction (
    total ← lift (total_size checked m);
    manifest_id ← insert_manifest (folder_id m) "/" (as_i64 (version m)) (default EmptyString (manifest_hash m))
                    (zlen (files m)) (as_i64 total);
    _ ← save_manifest_files manifest_id (files m);
    mret manifest_id).
End pool.

(** ** The indexer *)

Record IndexerConfig := {
  chunker_config : ChunkerConfig;
  follow_symlinks : bool;
  ignore_patterns : list string;
}.
Definition IndexerConfig_default : IndexerConfig :=
  {| chunker_config := ChunkerConfig_default; follow_symlinks := false;
     ignore_patterns := [".git"; ".DS_Store"; "Thumbs.db"; "*.tmp"] |}.

Definition star : Ascii.ascii := Ascii.ascii_of_nat 42.
(** [&pattern[..pattern.len() - 1]]. *)
Fixpoint drop_last (s : string) : string :=
  match s with
  | String c (String _ _ as rest) => String c (drop_last rest)
  | _ => EmptyString
  end.
Definition glob_match (pattern name : string) : bool :=
  match pattern with
  | String c suffix =>
      if Ascii.eqb c star then ends_with suffix name
      else if ends_with "*" pattern then String.prefix (drop_last pattern) name
      else String.eqb pattern name
  | EmptyString => String.eqb pattern name
  end.
Definition has_star (pattern : string) : bool :=
  existsb (Ascii.eqb star) (String.list_ascii_of_string pattern).

Section indexer.
Context `{Hex, Blake3, IndexDb} {Store : Type} `{!ContentStore Store}.
Context (checked : bool) (os : System) (config : IndexerConfig) (chunker : Chunker) (now : DateTime).

Record FileIndexer := { cas : Store; database : Db }.
Abbreviation indexer := (st FileIndexer IndexError).

Definition on_database {A} (q : st Db IndexError A) : indexer A := λ s,
  let '(db, r) := q (database s) in ({| cas := cas s; database := db |}, r).
(** [self.cas.write(..).await.map_err(..)?]. *)
Definition cas_put (data : list byte) : indexer unit := λ s,
  let '(c, written) := cas_write (cas s) data in
  ({| cas := c; database := database s |}, if written : bool then Ok tt else Err IndexStorage).

Definition should_ignore (p : Path) : bool :=
  existsb (λ pattern, if has_star pattern then glob_match pattern (file_name p)
                      else String.eqb (file_name p) pattern) (ignore_patterns config).

Definition calculate_file_hash (chunk_hashes : list string) : string :=
  hex_encode (blake3 (concat (map as_bytes chunk_hashes))).
Definition path_to_folder_id (p : Path) : string := hex_encode (blake3 (as_bytes (path_string p))).

(** The loop over the entries of a directory: the files found, and the directories
    still to process, the next one first. *)
Fixpoint walk_entries (dir : Path) (names : list string) (found dirs : list Path) :
    outcome IndexError (list Path * list Path) :=
  match names with
  | [] => mret (found, dirs)
  | name :: names =>
      let p := join dir name in
      if should_ignore p then walk_entries dir names found dirs
      else
        t ← ok_or IndexIo (file_type os p);
        match t with
        | IsFile => walk_entries dir names (found ++ [p]) dirs
        | IsDir => walk_entries dir names found (p :: dirs)
        | IsSymlink =>
            if follow_symlinks config then
              target ← ok_or IndexIo (read_link os p);
              match m_type <$> metadata os target with
              | Some IsFile => walk_entries dir names (found ++ [p]) dirs
              | Some IsDir => walk_entries dir names found (p :: dirs)
              | _ => walk_entries dir names found dirs
              end
            else walk_entries dir names found dirs
        | IsOther => walk_entries dir names found dirs
        end
  end.
(** [while let Some(current_dir) = dirs_to_process.pop()]; out of fuel is a loop
    that has not ended. *)
Fixpoint walk_loop (fuel : nat) (found dirs : list Path) : outcome IndexError (list Path) :=
  match dirs with
  | [] => mret found
  | dir :: dirs =>
      match fuel with
      | O => Panic
      | S fuel =>
          names ← ok_or IndexIo (read_dir os dir);
          '(found, dirs) ← walk_entries dir names found dirs;
          walk_loop fuel found dirs
      end
  end.
Definition walk_directory (fuel : nat) (dir : Path) : outcome IndexError (list Path) :=
  found ← walk_loop fuel [] [dir];
  mret (stable_sort components_leb found).

(** The loop over the chunks of a file; the chunk hashes. *)
Fixpoint store_chunks (chunks : list Chunk) : indexer (list string) :=
  match chunks with
  | [] => mret []
  | chunk :: chunks =>
      _ ← cas_put (data chunk);
      let h := ContentHash.to_hex (hash chunk) in
      _ ← on_database (upsert_chunk h (zlen (data chunk)));
      hashes ← store_chunks chunks;
      mret (h :: hashes)
  end.

Definition index_file (p : Path) : indexer ManifestEntry :=
  meta ← lift (ok_or IndexIo (metadata os p));
  _ ← lift (fail_if (negb (bool_decide (m_type meta = IsFile))) (InvalidFileType p));
  modified ← lift (ok_or IndexIo (m_modified meta));
  reads ← lift (ok_or IndexIo (open_file os p));
  chunks ← lift (map_err IndexChunker (chunk_stream chunker reads));
  hashes ← store_chunks chunks;
  let file_hash := calculate_file_hash hashes in
  _ ← on_database (upsert_file {| fe_path := path_string p; fe_size := m_len meta;
        fe_modified_at := modified; fe_content_hash := file_hash; fe_mode := m_mode meta |});
  mret {| path := path_string p; fsize := m_len meta; modified_at := modified;
          content_hash := file_hash; chunk_hashes := hashes; mode := m_mode meta |}.

(** The loop over the files: one that cannot be indexed is logged and skipped. *)
Fixpoint index_files (ps : list Path) (m : Manifest) : indexer Manifest := λ s,
  match ps with
  | [] => (s, Ok m)
  | p :: ps =>
      match index_file p s with
      | (s, Ok entry) => index_files ps (add_file m entry) s
      | (s, Err _) => index_files ps m s
      | (s, Panic) => (s, Panic)
      end
  end.

Definition index_folder (fuel : nat) (folder : Path) : indexer Manifest :=
  canonical ← lift (ok_or IndexIo (canonicalize os folder));
  let k := path_to_folder_id canonical in
  latest ← on_database (get_latest_manifest_version k (path_string canonical));
  next_version ← lift (arith checked 64 (default 0 latest + 1));
  files ← lift (walk_directory fuel folder);
  manifest ← index_files files (Manifest.new now k next_version);
  let manifest := finalize manifest in
  _ ← on_database (save_manifest checked manifest);
  _ ← lift (total_size checked manifest);
  mret manifest.
End indexer.

(** ** The walk *)

Lemma components_leb_total a b : components_leb a b || components_leb b a = true.
Proof.
  revert b. induction a as [|x a IH]; intros [|y b]; try done. cbn [components_leb].
  rewrite (String.eqb_sym y x). destruct (String.eqb x y); [apply IH|apply string_leb_total].
Qed.
Lemma components_leb_trans a b c :
  components_leb a b = true → components_leb b c = true → components_leb a c = true.
Proof.
  revert b c. induction a as [|x a IH]; intros [|y b] [|z c]; try done. cbn [components_leb].
  destruct (String.eqb_spec x y) as [->|Hxy].
  - destruct (String.eqb_spec y z) as [->|Hyz]; [apply IH|done].
  - destruct (String.eqb_spec y z) as [->|Hyz].
    + by destruct (String.eqb_spec x z).
    + destruct (String.eqb_spec x z) as [->|Hxz]; [|apply string_leb_trans].
      intros H1 H2. destruct Hyz. by apply String.leb_antisym.
Qed.
Lemma join_inj d d' n n' : join d n = join d' n' → d = d' ∧ n = n'.
Proof. apply app_inj_tail. Qed.

Section walk.
Context (os : System) (config : IndexerConfig).
Abbreviation ignored := (should_ignore config).
Abbreviation entries := (walk_entries os config).
Abbreviation loop := (walk_loop os config).

(** What an entry of a directory counts as. *)
Definition entry_kind (p : Path) : option FileType :=
  t ← file_type os p;
  match t with
  | IsSymlink =>
      if follow_symlinks config then
        target ← read_link os p;
        Some match m_type <$> metadata os target with
             | Some IsFile => IsFile | Some IsDir => IsDir | _ => IsOther end
      else Some IsOther
  | t => Some t
  end.

(** The directories that are listed, and the files that are found. *)
Inductive entered (root : Path) : Path → Prop :=
  | entered_root : entered root root
  | entered_dir d names name :
      entered root d → read_dir os d = Some names → name ∈ names →
      ignored (join d name) = false → entry_kind (join d name) = Some IsDir → entered root (join d name).
Definition file_below (root p : Path) : Prop :=
  ∃ d names name, entered root d ∧ read_dir os d = Some names ∧ name ∈ names ∧
    p = join d name ∧ ignored p = false ∧ entry_kind p = Some IsFile.

(** The entries of [dir] of one kind. *)
Definition of_kind (t : FileType) (dir : Path) (names : list string) : list Path :=
  filter (λ p, ignored p = false ∧ entry_kind p = Some t) (map (join dir) names).

Lemma elem_of_kind t dir names p : p ∈ of_kind t dir names ↔
  ∃ name, name ∈ names ∧ p = join dir name ∧ ignored p = false ∧ entry_kind p = Some t.
Proof.
  unfold of_kind. rewrite list_elem_of_filter, list_elem_of_In, in_map_iff.
  setoid_rewrite <-list_elem_of_In. naive_solver.
Qed.

Lemma walk_entries_eq dir names found dirs :
  (∀ name, name ∈ names → ignored (join dir name) = false → is_Some (entry_kind (join dir name))) →
  entries dir names found dirs =
    Ok (found ++ of_kind IsFile dir names, reverse (of_kind IsDir dir names) ++ dirs).
Proof.
  revert found dirs. induction names as [|name names IH]; intros found dirs Hk; cbn [walk_entries of_kind map].
  { by rewrite app_nil_r. }
  assert (∀ name', name' ∈ names → ignored (join dir name') = false → is_Some (entry_kind (join dir name')))
    as Hk' by (intros; apply Hk; [by right|done]).
  specialize (Hk name ltac:(left)). unfold of_kind in *. cbn [map]. rewrite !filter_cons.
  destruct (ignored (join dir name)) eqn:Hi.
  { rewrite !decide_False by naive_solver. by apply IH. }
  destruct (Hk eq_refl) as [t Ht]. pose proof Ht as Ht'. unfold entry_kind in Ht'.
  destruct (file_type os (join dir name)) as [t0|] eqn:Hf; [|done]. cbn in Ht' |- *.
  assert (∀ found' dirs', t = IsFile ∧ found' = found ++ [join dir name] ∧ dirs' = dirs ∨
    t = IsDir ∧ found' = found ∧ dirs' = join dir name :: dirs ∨
    t ≠ IsFile ∧ t ≠ IsDir ∧ found' = found ∧ dirs' = dirs →
    entries dir names found' dirs' = Ok (found ++ (if decide (false = false ∧ entry_kind (join dir name) = Some IsFile)
        then join dir name :: filter (λ p, ignored p = false ∧ entry_kind p = Some IsFile) (map (join dir) names)
        else filter (λ p, ignored p = false ∧ entry_kind p = Some IsFile) (map (join dir) names)),
      reverse (if decide (false = false ∧ entry_kind (join dir name) = Some IsDir)
        then join dir name :: filter (λ p, ignored p = false ∧ entry_kind p = Some IsDir) (map (join dir) names)
        else filter (λ p, ignored p = false ∧ entry_kind p = Some IsDir) (map (join dir) names)) ++ dirs)) as Hgo.
  { intros found' dirs' Hc. rewrite IH by done.
    destruct Hc as [(-> & -> & ->)|[(-> & -> & ->)|(? & ? & -> & ->)]].
    - rewrite decide_True, decide_False by naive_solver. by rewrite <-app_assoc.
    - rewrite decide_False, decide_True by naive_solver. by rewrite reverse_cons, <-app_assoc.
    - by rewrite !decide_False by naive_solver. }
  destruct t0.
  - injection Ht' as <-. apply Hgo. by left.
  - injection Ht' as <-. apply Hgo. right. by left.
  - destruct (follow_symlinks config).
    + destruct (read_link os (join dir name)) as [target|]; [|done]. cbn in Ht' |- *. injection Ht' as Ht'.
      destruct (m_type <$> metadata os target) as [[]|]; rewrite <-Ht' in *; apply Hgo; naive_solver.
    + injection Ht' as <-. apply Hgo. naive_solver.
  - injection Ht' as <-. apply Hgo. naive_solver.
Qed.

(** A folder that can be walked: [dirs] holds every directory below the root, each of
    them can be listed, lists no name twice, and the kinds of its entries are known. *)
Record walkable (root : Path) (dirs : list Path) : Prop := {
  wk_finite d : entered root d → d ∈ dirs;
  wk_listed d : entered root d → ∃ names, read_dir os d = Some names ∧ NoDup names ∧
    ∀ name, name ∈ names → ignored (join d name) = false → is_Some (entry_kind (join d name));
}.

Section loop.
Context (root : Path).

(** Between two rounds: [visited] were listed, [dirs] are still to be. *)
Record walk_inv (visited found dirs : list Path) : Prop := {
  wi_nodup : NoDup (visited ++ dirs);
  wi_entered d : d ∈ visited ++ dirs → entered root d;
  wi_parent d : d ∈ visited ++ dirs → d = root ∨ ∃ q name, q ∈ visited ∧ d = join q name;
  wi_root : root ∈ visited ++ dirs;
  wi_closed d names name : d ∈ visited → read_dir os d = Some names → name ∈ names →
    ignored (join d name) = false → entry_kind (join d name) = Some IsDir → join d name ∈ visited ++ dirs;
  wi_found_nodup : NoDup found;
  wi_found p : p ∈ found ↔ ∃ d names name, d ∈ visited ∧ read_dir os d = Some names ∧ name ∈ names ∧
    p = join d name ∧ ignored p = false ∧ entry_kind p = Some IsFile;
}.

Lemma walk_inv_start : walk_inv [] [] [root].
Proof.
  split; try by constructor; try set_solver.
  all: first [apply NoDup_singleton | intros d ->%list_elem_of_singleton; constructor | set_solver].
Qed.

Lemma entered_length d : entered root d → (length root ≤ length d)%nat.
Proof. induction 1; unfold join; rewrite ?length_app; cbn; lia. Qed.
Lemma NoDup_of_kind t d names : NoDup names → NoDup (of_kind t d names).
Proof.
  intros Hn. apply NoDup_filter, NoDup_fmap_2; [|done]. intros a b Hab. by apply join_inj in Hab as [_ ?].
Qed.

(** A child of a directory that is listed for the first time is new. *)
Lemma walk_inv_child visited found dirs d name : walk_inv visited found (d :: dirs) →
  join d name ∉ visited ++ d :: dirs.
Proof.
  intros Hw [Hr|(q & name' & Hq & Hj)]%(wi_parent _ _ _ Hw).
  - pose proof (entered_length d (wi_entered _ _ _ Hw d ltac:(set_solver))) as Hl.
    apply (f_equal length) in Hr. unfold join in Hr. rewrite length_app in Hr. simpl in Hr. lia.
  - apply join_inj in Hj as [<- _]. pose proof (wi_nodup _ _ _ Hw) as Hn.
    apply NoDup_app in Hn as (_ & Hn & _). apply (Hn d Hq). by left.
Qed.

Lemma walk_inv_step visited found dirs d names : walk_inv visited found (d :: dirs) →
  read_dir os d = Some names → NoDup names →
  walk_inv (visited ++ [d]) (found ++ of_kind IsFile d names) (reverse (of_kind IsDir d names) ++ dirs).
Proof.
  intros Hw Hr Hnd. pose proof (λ name, walk_inv_child _ _ _ _ name Hw) as Hnew.
  pose proof (wi_nodup _ _ _ Hw) as Hn. pose proof (wi_entered _ _ _ Hw) as He.
  assert (entered root d) as Hd by (apply He; set_solver).
  assert ((visited ++ [d]) ++ reverse (of_kind IsDir d names) ++ dirs ≡ₚ
          of_kind IsDir d names ++ visited ++ d :: dirs) as Hp.
  { rewrite (reverse_Permutation (of_kind _ _ _)). solve_Permutation. }
  split.
  - rewrite Hp. apply NoDup_app. split_and!; [by apply NoDup_of_kind| |done].
    intros p (name & _ & -> & _)%elem_of_kind. apply Hnew.
  - intros p. rewrite Hp, elem_of_app. intros [(name & ? & -> & ? & ?)%elem_of_kind|Hin]; [|by apply He].
    by eapply entered_dir.
  - intros p. rewrite Hp, elem_of_app. intros [(name & ? & -> & ? & ?)%elem_of_kind|Hin].
    + right. exists d, name. set_solver.
    + destruct (wi_parent _ _ _ Hw p Hin) as [|(q & name & ? & ?)]; [by left|right]. exists q, name. set_solver.
  - rewrite Hp. pose proof (wi_root _ _ _ Hw). set_solver.
  - intros d' names' name [Hd'| ->%list_elem_of_singleton]%elem_of_app Hr' Hin Hi Hk; rewrite Hp, elem_of_app.
    + right. by eapply (wi_closed _ _ _ Hw).
    + left. apply elem_of_kind. exists name. by simplify_eq.
  - apply NoDup_app. split_and!; [apply (wi_found_nodup _ _ _ Hw)| |by apply NoDup_of_kind].
    intros p (d' & names' & name & Hd' & _ & _ & -> & _)%(wi_found _ _ _ Hw) (name' & _ & Hj & _)%elem_of_kind.
    apply join_inj in Hj as [-> _]. apply NoDup_app in Hn as (_ & Hn & _). apply (Hn d Hd'). by left.
  - intros p. rewrite elem_of_app, (wi_found _ _ _ Hw), elem_of_kind. split.
    + intros [(d' & names' & name & ? & ?)|(name & ? & -> & ? & ?)].
      * exists d', names', name. set_solver.
      * exists d, names, name. set_solver.
    + intros (d' & names' & name & [Hd'| ->%list_elem_of_singleton]%elem_of_app & Hr' & ? & -> & ? & ?).
      * left. by exists d', names', name.
      * right. exists name. by simplify_eq.
Qed.

Lemma walk_loop_total universe fuel visited found dirs : walkable root universe →
  walk_inv visited found dirs → (length universe ≤ length visited + fuel)%nat →
  ∃ found', loop fuel found dirs = Ok found' ∧ NoDup found' ∧ ∀ p, p ∈ found' ↔ file_below root p.
Proof.
  intros Hk. revert visited found dirs. induction fuel as [|fuel IH]; intros visited found dirs Hw Hf;
    (destruct dirs as [|d dirs]; cbn [walk_loop]; [exists found; split; [done|]|]).
  1, 3: split; [apply (wi_found_nodup _ _ _ Hw)|]; pose proof (wi_closed _ _ _ Hw) as Hc;
    pose proof (wi_root _ _ _ Hw) as Hroot; pose proof (wi_entered _ _ _ Hw) as He;
    rewrite app_nil_r in *; intros p; rewrite (wi_found _ _ _ Hw); unfold file_below;
    assert (∀ d, entered root d → d ∈ visited) as Hall by (induction 1; naive_solver); naive_solver.
  - assert (length (visited ++ d :: dirs) ≤ length universe)%nat as Hle.
    { apply submseteq_length, NoDup_submseteq; [apply (wi_nodup _ _ _ Hw)|]. intros q Hq.
      by apply (wk_finite _ _ Hk), (wi_entered _ _ _ Hw). }
    rewrite length_app in Hle. cbn in Hle. lia.
  - destruct (wk_listed _ _ Hk d) as (names & Hr & Hn & Hkind); [apply (wi_entered _ _ _ Hw); set_solver|].
    rewrite Hr. cbn [ok_or mbind outcome_bind]. rewrite walk_entries_eq by done. cbn.
    apply (IH (visited ++ [d])); [by apply walk_inv_step|]. rewrite length_app. cbn. lia.
Qed.
End loop.
End walk.

(** C19: Walking a folder ends, with as many rounds as there are directories below
    it, and finds exactly the regular files that can be reached from it through
    directories that are not ignored, each one once and in the order of the paths
    (links count as what they point to when they are followed). *)
Theorem walk_finds_all os config root dirs fuel :
  walkable os config root dirs → (length dirs ≤ fuel)%nat →
  ∃ found, walk_directory os config fuel root = Ok found ∧ NoDup found ∧
    StronglySorted components_leb found ∧ ∀ p, p ∈ found ↔ file_below os config root p.
Proof.
  intros Hk Hf. destruct (walk_loop_total os config root dirs fuel [] [] [root]) as (found & Hl & Hn & Hi);
    [done|apply walk_inv_start|done|].
  exists (stable_sort components_leb found). unfold walk_directory. rewrite Hl. split_and!; [done| | |].
  - by rewrite stable_sort_perm.
  - apply stable_sort_sorted; [apply components_leb_total|apply components_leb_trans].
  - intros p. rewrite <-Hi. by rewrite stable_sort_perm.
Qed.

(** ** Indexing *)

Lemma chunk_stream_pieces `{Blake3} cfg chunker reads chunks :
  Chunker.new cfg = Ok chunker → chunk_stream chunker reads = Ok chunks →
  ∃ content, read_all reads [] = Ok content ∧ concat (map data chunks) = content ∧
    ∀ ch, ch ∈ chunks → hash ch = blake3 (data ch).
Proof.
  intros Hnew Hs. unfold chunk_stream in Hs. apply bind_Ok in Hs as (content & Hr & Hs).
  exists content. split; [done|]. case_decide as Hc.
  { injection Hs as <-. rewrite Hc. split; [done|]. set_solver. }
  pose proof (new_valid _ _ Hnew) as [<- Hv]. rewrite chunk_stream_loop_eq in Hs by done.
  destruct (chunk_bytes_loop_Chunked chunker content (S (length content)) 0 Hv) as (cs & Hcs & Hch);
    [unfold zlen; lia..|].
  rewrite Hs in Hcs. injection Hcs as ->. split; [by apply Chunked_concat in Hch|].
  intros ch [i Hi]%list_elem_of_lookup. by destruct (Chunked_lookup _ _ _ _ _ _ Hch Hi) as (_ & _ & ? & _).
Qed.

Section indexing.
#[local] Set Default Proof Using "All".
Context `{Hex, Blake3, !IndexDb, !IndexDbLaws} {Store : Type} `{!ContentStore Store}.
Context (checked : bool) (os : System) (config : IndexerConfig) (cfg : ChunkerConfig) (chunker : Chunker).
Context (Hchunker : Chunker.new cfg = Ok chunker).
Abbreviation State := (FileIndexer (Store:=Store)).
Implicit Types s : State.

(** What indexing never does: lose an object of the store, change a saved manifest. *)
Definition grows s s' : Prop :=
  (∀ h, cas_holds (cas s) h → cas_holds (cas s') h) ∧
  manifest_rows (database s') = manifest_rows (database s).
#[local] Instance grows_preorder : PreOrder grows.
Proof. split; [by intros s|]. intros s1 s2 s3 [Hc1 Hd1] [Hc2 Hd2]. split; [auto|]. by rewrite Hd2. Qed.
Abbreviation ind P m Q := (triple (λ _ : State, True) grows P m Q).

Lemma on_database_grows {A} P (q : st Db IndexError A) :
  (∀ db, manifest_rows (q db).1 = manifest_rows db) → ind P (on_database q) (λ _ _, True).
Proof.
  intros Hq s _ _. unfold on_database. specialize (Hq (database s)).
  destruct (q (database s)) as [db r]. split; [done|]. split; [|done]. by split.
Qed.
Lemma execute_transaction_rows {A} (q : st Db IndexError A) db :
  (∀ db, manifest_rows (q db).1 = manifest_rows db) →
  manifest_rows (execute_transaction q db).1 = manifest_rows db.
Proof.
  intros Hq. specialize (Hq db). unfold execute_transaction. destruct (connection_ok db); [|done]. cbn.
  destruct (q db) as [db' []]; try done. by destruct (commit_ok db').
Qed.
Lemma upsert_file_grows P f : ind P (on_database (upsert_file f)) (λ _ _, True).
Proof. apply on_database_grows. intros db. apply execute_transaction_rows, upsert_file_rows. Qed.
Lemma upsert_chunk_grows P h n : ind P (on_database (upsert_chunk h n)) (λ _ _, True).
Proof. apply on_database_grows. intros db. apply execute_transaction_rows, upsert_chunk_rows. Qed.
Lemma cas_put_grows P data : ind P (cas_put data) (λ _ s, cas_holds (cas s) (blake3 data)).
Proof.
  intros s _ _. unfold cas_put. pose proof (cas_write_holds (cas s) data) as Hh.
  pose proof (cas_write_keeps (cas s) data) as Hk. destruct (cas_write (cas s) data) as [c written].
  split; [done|]. split; [by split|]. intros []. by destruct written; [intros _; apply Hh|].
Qed.

(** The store holds the chunk [d]. *)
Definition held (d : list byte) s : Prop := cas_holds (cas s) (blake3 d).
Lemma held_grows d s s' : grows s s' → held d s → held d s'.
Proof. intros [Hc _]. apply Hc. Qed.

Lemma ind_frame {A} (m : st State IndexError A) Q F :
  (∀ s s', grows s s' → F s → F s') → ind (λ _, True) m Q → ind F m (λ a s, Q a s ∧ F s).
Proof.
  intros HF Hm s _ Hs. destruct (Hm s I I) as (_ & Hg & Hq). split_and!; [done..|].
  intros a Ha. split; [auto|]. by eapply HF.
Qed.

Lemma store_chunks_holds chunks : ind (λ _, True) (store_chunks chunks)
  (λ hashes s, hashes = map (λ ch, ContentHash.to_hex (hash ch)) chunks ∧
               ∀ ch, ch ∈ chunks → held (data ch) s).
Proof.
  induction chunks as [|ch chunks IH]; cbn [store_chunks map].
  { apply triple_ret; [apply _|]. intros s _ _. split; [done|]. set_solver. }
  eapply triple_bind; [apply _|apply cas_put_grows|]. intros ?.
  eapply triple_bind; [apply _|apply (ind_frame _ (λ _ _, True) (held (data ch)) (held_grows _)), upsert_chunk_grows|].
  intros ?. eapply triple_bind; [apply _| |].
  { eapply triple_weaken; [apply _|exact (ind_frame _ _ (held (data ch)) (held_grows _) IH)| |].
    - by intros s _ [_ ?].
    - intros a' s _ Hq. exact Hq. }
  intros hashes. apply triple_ret; [apply _|]. intros s _ [[-> Hin] Hh]. split; [done|].
  intros ch' [->|?]%elem_of_cons; auto.
Qed.

(** The entry [e] describes the file [p]: its metadata, and its contents as pieces
    that the store holds under the chunk hashes. *)
Record indexed (p : Path) (e : ManifestEntry) (content : list byte) (pieces : list (list byte)) s : Prop := {
  ix_meta : ∃ meta, metadata os p = Some meta ∧ m_type meta = IsFile ∧ fsize e = m_len meta ∧
    m_modified meta = Some (modified_at e) ∧ mode e = m_mode meta;
  ix_path : path e = path_string p;
  ix_content : ∃ reads, open_file os p = Some reads ∧ read_all reads [] = Ok content;
  ix_pieces : concat pieces = content;
  ix_hashes : chunk_hashes e = map (λ d, hex_encode (blake3 d)) pieces;
  ix_hash : content_hash e = calculate_file_hash (chunk_hashes e);
  ix_held d : d ∈ pieces → held d s;
}.
Lemma indexed_grows p e content pieces s s' :
  grows s s' → indexed p e content pieces s → indexed p e content pieces s'.
Proof. intros Hg []. split; try done. intros d Hd. eapply held_grows; eauto. Qed.

Lemma index_file_indexed p : ind (λ _, True) (index_file os chunker p)
  (λ e s, ∃ content pieces, indexed p e content pieces s).
Proof.
  unfold index_file. do 5 (apply triple_lift_bind; [apply _|]; intros ? ?).
  rename select Metadata into meta. rename select (list Chunk) into chunks.
  eapply triple_bind; [apply _|apply store_chunks_holds|]. intros hashes.
  eapply triple_bind; [apply _|apply (ind_frame _ (λ _ _, True)
    (λ s, hashes = map (λ ch, ContentHash.to_hex (hash ch)) chunks ∧ ∀ ch, ch ∈ chunks → held (data ch) s));
    [|apply upsert_file_grows]|].
  { intros s s' Hg [? Hh]. split; [done|]. intros. eapply held_grows; eauto. }
  intros ?. apply triple_ret; [apply _|]. intros s _ [_ [-> Hh]]. inv_ok.
  destruct (chunk_stream_pieces cfg chunker _ _ Hchunker ltac:(eassumption)) as (content & Hr & Hc & Hb).
  exists content, (map data chunks). rename select (negb _ = false) into Ht.
  apply negb_false_iff, bool_decide_eq_true in Ht. split; cbn.
  - exists meta. by split_and!.
  - done.
  - by eexists.
  - done.
  - rewrite map_map. apply map_ext_in. intros ch Hin%list_elem_of_In. unfold ContentHash.to_hex. by rewrite Hb.
  - done.
  - intros d (ch & <- & Hin%list_elem_of_In)%list_elem_of_In%in_map_iff. by apply Hh.
Qed.

Lemma index_files_indexed ps m s : 
  grows s (index_files os chunker ps m s).1 ∧
  ∀ m', (index_files os chunker ps m s).2 = Ok m' →
    folder_id m' = folder_id m ∧ version m' = version m ∧
    ∃ kept entries, kept `sublist_of` ps ∧ files m' = files m ++ entries ∧
      Forall2 (λ p e, ∃ content pieces, indexed p e content pieces (index_files os chunker ps m s).1) kept entries.
Proof.
  revert m s. induction ps as [|p ps IH]; intros m s; cbn [index_files].
  { split; [reflexivity|]. intros m' [= <-]. split_and!; [done..|]. exists [], [].
    by rewrite app_nil_r. }
  destruct (index_file_indexed p s I I) as (_ & Hg & He). destruct (index_file os chunker p s) as [s1 r]. cbn in *.
  destruct r as [e|e|].
  - destruct (IH (add_file m e) s1) as [Hg' Hm]. split; [by etrans|]. intros m' Hm'.
    destruct (Hm m' Hm') as (? & ? & kept & entries & Hs & Hf & Hi). split_and!; [done..|].
    exists (p :: kept), (e :: entries). split_and!; [by constructor| |].
    + rewrite Hf. cbn. by rewrite <-app_assoc.
    + constructor; [|done]. destruct (He e eq_refl) as (content & pieces & Hx). exists content, pieces.
      by eapply indexed_grows.
  - destruct (IH m s1) as [Hg' Hm]. split; [by etrans|]. intros m' Hm'.
    destruct (Hm m' Hm') as (? & ? & kept & entries & Hs & Hf & Hi). split_and!; [done..|].
    exists kept, entries. split_and!; [by constructor|done|done].
  - by split.
Qed.

Lemma save_manifest_files_rows i fs db : manifest_rows (save_manifest_files i fs db).1 = manifest_rows db.
Proof.
  revert db. induction fs as [|f fs IH]; intros db; [done|]. cbn [save_manifest_files].
  unfold mbind, st_bind.
  match goal with |- context [upsert_file_row ?x db] => pose proof (upsert_file_rows x db) as Hr;
    destruct (upsert_file_row x db) as [db1 [fid|e|]]; [|exact Hr..] end. cbn in Hr.
  pose proof (insert_manifest_file_rows i fid (chunk_hashes f) db1) as Hr'.
  destruct (insert_manifest_file i fid (chunk_hashes f) db1) as [db2 [u|e|]]; cbn in Hr' |- *;
    [rewrite IH|..]; congruence.
Qed.
(** The row that [save_manifest] inserts. *)
Definition row (m : Manifest) : string * string * Z := (folder_id m, "/", as_i64 (version m)).
Lemma save_manifest_Ok m db db' i : save_manifest checked m db = (db', Ok i) →
  row m ∉ manifest_rows db ∧ manifest_rows db' = {[ row m ]} ∪ manifest_rows db.
Proof.
  unfold save_manifest, execute_transaction. destruct (connection_ok db); [|done]. cbn [negb].
  set (q := mbind _ (lift (total_size checked m))). intros Hs.
  destruct (q db) as [db1 r] eqn:Hq. destruct r as [i'|e|]; try done.
  destruct (commit_ok db1); [|done]. injection Hs as -> <-. unfold q in Hq.
  apply st_bind_Ok in Hq as (db1 & total & [= -> Ht] & Hq).
  apply st_bind_Ok in Hq as (db2 & mid & Hi & Hq). apply insert_manifest_ok in Hi as [Hn Hr].
  apply st_bind_Ok in Hq as (db3 & u & Hf & [= -> _]). split; [done|].
  pose proof (save_manifest_files_rows mid (files m) db2) as Hrows. rewrite Hf in Hrows. cbn in Hrows.
  by rewrite Hrows.
Qed.
Lemma save_manifest_fails m db : (∀ i, (save_manifest checked m db).2 ≠ Ok i) → (save_manifest checked m db).1 = db.
Proof.
  unfold save_manifest, execute_transaction. destruct (connection_ok db); [|done]. cbn [negb].
  match goal with |- context [?q db] => destruct (q db) as [db1 [i|e|]]; try done end.
  destruct (commit_ok db1); [|done]. intros Hn. by destruct (Hn i).
Qed.

(** The version that the next manifest of the folder gets: 1, since the manifests
    are saved under another path than the one that is looked up. *)
Definition root_rows (db : Db) : Prop := ∀ d p v, (d, p, v) ∈ manifest_rows db → p = "/".
Lemma latest_version_none k p db db' v : root_rows db → p ≠ "/" →
  get_latest_manifest_version k p db = (db', Ok v) → db' = db ∧ v = None.
Proof using Type*.
  unfold get_latest_manifest_version, execute_blocking. intros Hr Hp [= <- Hv]. split; [done|].
  destruct (connection_ok db); [|done]. cbn in Hv.
  destruct (select_max_version k p db) as [[w|]|e|] eqn:Hs; simplify_eq; [|done].
  apply max_version_row in Hs. by apply Hr in Hs.
Qed.

(** What a run of [index_folder] that returns a manifest did. *)
Lemma index_folder_Ok fuel now folder s s' m :
  index_folder checked os config chunker now fuel folder s = (s', Ok m) →
  ∃ canonical latest found s1,
    canonicalize os folder = Some canonical ∧
    get_latest_manifest_version (path_to_folder_id canonical) (path_string canonical) (database s) =
      (database s, Ok latest) ∧
    arith (E:=IndexError) checked 64 (default 0 latest + 1) = Ok (version m) ∧
    folder_id m = path_to_folder_id canonical ∧ verify m = true ∧
    walk_directory os config fuel folder = Ok found ∧
    grows s s1 ∧ cas s' = cas s1 ∧
    row m ∉ manifest_rows (database s) ∧
    manifest_rows (database s') = {[ row m ]} ∪ manifest_rows (database s) ∧
    ∃ kept, kept `sublist_of` found ∧
      Forall2 (λ p e, ∃ content pieces, indexed p e content pieces s') kept (files m).
Proof.
  unfold index_folder. intros Hrun.
  apply st_bind_Ok in Hrun as (s1 & canonical & [= <- Hc] & Hrun). apply ok_or_Ok in Hc.
  cbv zeta in Hrun. apply st_bind_Ok in Hrun as (s1 & latest & Hl & Hrun).
  assert (s1 = s ∧ get_latest_manifest_version (path_to_folder_id canonical) (path_string canonical)
    (database s) = (database s, Ok latest)) as [-> Hl'].
  { unfold on_database, get_latest_manifest_version, execute_blocking in Hl |- *. injection Hl as <- <-.
    by destruct s. }
  apply st_bind_Ok in Hrun as (s1 & next & [= <- Hv] & Hrun).
  apply st_bind_Ok in Hrun as (s1 & found & [= <- Hw] & Hrun).
  apply st_bind_Ok in Hrun as (s1 & m1 & Hi & Hrun).
  apply st_bind_Ok in Hrun as (s2 & i & Hs & Hrun).
  apply st_bind_Ok in Hrun as (s3 & total & [= <- Ht] & [= <- <-]).
  destruct (index_files_indexed found (Manifest.new now (path_to_folder_id canonical) next) s) as [Hg Hm].
  rewrite Hi in Hg, Hm. destruct (Hm m1 eq_refl) as (Hid & Hver & kept & entries & Hsub & Hf & Hall).
  cbn in Hid, Hver, Hf. unfold on_database in Hs.
  destruct (save_manifest checked (finalize m1) (database s1)) as [db r] eqn:Hsave.
  injection Hs as <- ->. apply save_manifest_Ok in Hsave as [Hn Hrows].
  destruct Hg as [Hkeep Hsame]. cbn in Hsame. rewrite Hsame in Hn, Hrows.
  exists canonical, latest, found, s1.
  subst next. split_and!; try done.
  - unfold verify. cbn. by apply bool_decide_eq_true.
  - exists kept. split; [done|]. cbn. rewrite Hf. eapply Forall2_impl; [exact Hall|].
    intros p e (content & pieces & [Hx1 Hx2 Hx3 Hx4 Hx5 Hx6 Hx7]). exists content, pieces. by split.
Qed.

Lemma save_manifest_total m db db' i :
  save_manifest checked m db = (db', Ok i) → ∃ total, total_size (E:=IndexError) checked m = Ok total.
Proof.
  unfold save_manifest, execute_transaction. destruct (connection_ok db); [|done]. cbn [negb].
  destruct (total_size checked m) as [total|e|]; [by exists total|done..].
Qed.
(** A run that returns no manifest leaves the saved ones as they are. *)
Definition saves_nothing {A} (m : st State IndexError A) : Prop := ∀ s,
  (∀ a, (m s).2 ≠ Ok a) → manifest_rows (database (m s).1) = manifest_rows (database s).
Lemma saves_nothing_bind {A B} (m : st State IndexError A) (f : A → st State IndexError B) :
  (∀ s, manifest_rows (database (m s).1) = manifest_rows (database s)) →
  (∀ a, saves_nothing (f a)) → saves_nothing (m ≫= f).
Proof.
  intros Hm Hf s. specialize (Hm s). unfold mbind, st_bind. destruct (m s) as [s1 [a|e|]]; cbn in *; [|done..].
  intros Hn. rewrite <-Hm. by apply Hf.
Qed.
Lemma index_folder_saves_nothing fuel now folder :
  saves_nothing (index_folder checked os config chunker now fuel folder).
Proof.
  unfold index_folder. apply saves_nothing_bind; [done|]. intros canonical. cbv zeta.
  apply saves_nothing_bind; [done|]. intros latest.
  do 2 (apply saves_nothing_bind; [done|]; intros ?).
  apply saves_nothing_bind; [intros s; apply index_files_indexed|]. intros m s Hn.
  unfold mbind, st_bind, on_database, lift in *.
  destruct (save_manifest checked (finalize m) (database s)) as [db [i|e|]] eqn:Hs; cbn in *.
  - apply save_manifest_total in Hs as [total Ht]. unfold total_size in *. cbn in *. rewrite Ht in Hn. by destruct (Hn (finalize m)).
  - pose proof (save_manifest_fails (finalize m) (database s)) as Hf. rewrite Hs in Hf. cbn in Hf. by rewrite Hf.
  - pose proof (save_manifest_fails (finalize m) (database s)) as Hf. rewrite Hs in Hf. cbn in Hf. by rewrite Hf.
Qed.

(** Whatever the result, no object of the store is lost. *)
Definition keeps_objects {A} (m : st State IndexError A) : Prop := ∀ s h,
  cas_holds (cas s) h → cas_holds (cas (m s).1) h.
Lemma keeps_objects_bind {A B} (m : st State IndexError A) (f : A → st State IndexError B) :
  keeps_objects m → (∀ a, keeps_objects (f a)) → keeps_objects (m ≫= f).
Proof.
  intros Hm Hf s h Hh. specialize (Hm s h Hh). unfold mbind, st_bind. destruct (m s) as [s1 [a|e|]]; [|done..].
  by apply Hf.
Qed.
Lemma on_database_keeps {A} (q : st Db IndexError A) : keeps_objects (on_database q).
Proof. intros s h Hh. unfold on_database. by destruct (q (database s)). Qed.
Lemma index_folder_keeps fuel now folder :
  keeps_objects (index_folder checked os config chunker now fuel folder).
Proof.
  unfold index_folder. apply keeps_objects_bind; [by intros s|]. intros canonical. cbv zeta.
  apply keeps_objects_bind; [apply on_database_keeps|]. intros latest.
  do 2 (apply keeps_objects_bind; [by intros s|]; intros ?).
  apply keeps_objects_bind; [intros s; apply index_files_indexed|]. intros m.
  apply keeps_objects_bind; [apply on_database_keeps|]. intros ?.
  apply keeps_objects_bind; [by intros s|]. by intros ? s.
Qed.
End indexing.

Section results.
#[local] Set Default Proof Using "All".
Context `{Hex, Blake3, !IndexDb, !IndexDbLaws} {Store : Type} `{!ContentStore Store}.
Context (checked : bool) (config : IndexerConfig) (cfg : ChunkerConfig) (chunker : Chunker).
Context (Hchunker : Chunker.new cfg = Ok chunker).
Abbreviation State := (FileIndexer (Store:=Store)).
Implicit Types s : State.
Abbreviation run os now fuel folder := (index_folder checked os config chunker now fuel folder).

(** The first manifest of a folder has version 1, and there is no second one. *)
Lemma index_folder_first os now fuel folder canonical s s' m :
  root_rows (database s) → canonicalize os folder = Some canonical → path_string canonical ≠ "/" →
  run os now fuel folder s = (s', Ok m) →
  row m = (path_to_folder_id canonical, "/", 1) ∧ version m = 1 ∧ row m ∉ manifest_rows (database s) ∧
  manifest_rows (database s') = {[ row m ]} ∪ manifest_rows (database s).
Proof.
  intros Hroot Hcan Hne Hrun.
  destruct (index_folder_Ok checked os config cfg chunker Hchunker _ _ _ _ _ _ Hrun)
    as (canonical' & latest & found & s1 & Hc & Hl & Ha & Hid & _ & _ & _ & _ & Hn & Hr & _).
  rewrite Hcan in Hc. injection Hc as <-. apply latest_version_none in Hl as [_ ->]; [|done..].
  cbn in Ha. injection Ha as Hv. unfold row at 1. by rewrite Hid, <-Hv.
Qed.
Lemma index_folder_again os now fuel folder canonical s :
  root_rows (database s) → canonicalize os folder = Some canonical → path_string canonical ≠ "/" →
  (path_to_folder_id canonical, "/", 1) ∈ manifest_rows (database s) →
  (∀ m, (run os now fuel folder s).2 ≠ Ok m) ∧
  manifest_rows (database (run os now fuel folder s).1) = manifest_rows (database s).
Proof.
  intros Hroot Hcan Hne Hin. assert (∀ m, (run os now fuel folder s).2 ≠ Ok m) as Hno.
  { intros m Hm. destruct (run os now fuel folder s) as [s' r] eqn:Hrun. cbn in Hm. subst r.
    destruct (index_folder_first _ _ _ _ _ _ _ _ Hroot Hcan Hne Hrun) as (Hrow & _ & Hnot & _).
    by rewrite Hrow in Hnot. }
  split; [done|]. by apply (index_folder_saves_nothing checked os config cfg chunker Hchunker).
Qed.

(** C18: When [index_folder] returns a manifest, the manifest carries the hash that
    [verify] accepts and was saved under its folder and version; its entries
    describe files that the walk found, in the order of the walk; the chunk hashes
    of an entry name pieces that put together are the contents of the file, and the
    content store holds all of them, and still holds what it held before. *)
Theorem index_folder_describes_files os now fuel folder s s' m :
  run os now fuel folder s = (s', Ok m) →
  verify m = true ∧ (row m) ∈ manifest_rows (database s') ∧
  (∀ h, cas_holds (cas s) h → cas_holds (cas s') h) ∧
  ∃ found kept, walk_directory os config fuel folder = Ok found ∧ kept `sublist_of` found ∧
    Forall2 (λ p e, ∃ content pieces, indexed os p e content pieces s') kept (files m).
Proof.
  intros Hrun. destruct (index_folder_Ok checked os config cfg chunker Hchunker _ _ _ _ _ _ Hrun)
    as (canonical & latest & found & s1 & _ & _ & _ & _ & Hv & Hw & [Hk _] & Hc & _ & Hr & kept & Hs & Hf).
  split_and!; [done|rewrite Hr; set_solver|by rewrite Hc|]. by exists found, kept.
Qed.

(** Later calls on a folder with the same canonical path; the files may have changed. *)
Record Call := { call_os : System; call_now : DateTime; call_fuel : nat; call_folder : Path }.
Fixpoint index_again (calls : list Call) s : list (outcome IndexError Manifest) :=
  match calls with
  | [] => []
  | c :: calls =>
      let '(s, r) := run (call_os c) (call_now c) (call_fuel c) (call_folder c) s in
      r :: index_again calls s
  end.

(** A folder can be indexed only once. The manifest is saved under the path "/"
    while its version is looked up under the path of the folder, so the first
    manifest gets version 1, and so does every later one, which the UNIQUE
    constraint of the table refuses: no later call returns a manifest. *)
Theorem folder_indexed_once os now fuel folder canonical calls s s' m :
  root_rows (database s) → canonicalize os folder = Some canonical → path_string canonical ≠ "/" →
  run os now fuel folder s = (s', Ok m) →
  Forall (λ c, canonicalize (call_os c) (call_folder c) = Some canonical) calls →
  version m = 1 ∧ Forall (λ r, is_ok r = false) (index_again calls s').
Proof.
  intros Hroot Hcan Hne Hrun Hcalls.
  destruct (index_folder_first _ _ _ _ _ _ _ _ Hroot Hcan Hne Hrun) as (Hrow & Hv & _ & Hrows). split; [done|].
  assert (root_rows (database s') ∧ (path_to_folder_id canonical, "/", 1) ∈ manifest_rows (database s')) as [Hroot' Hin].
  { unfold root_rows. rewrite Hrows, Hrow. split; [|set_solver]. intros d p v [[= -> -> ->]%elem_of_singleton|?]%elem_of_union; [done|].
    by eapply Hroot. }
  clear Hrun Hrows Hrow. revert s' Hroot' Hin.
  induction Hcalls as [|c calls Hc _ IH]; intros s' Hroot' Hin; cbn [index_again]; [constructor|].
  destruct (index_folder_again (call_os c) (call_now c) (call_fuel c) (call_folder c) canonical s')
    as [Hno Hsame]; [done..|].
  destruct (run _ _ _ _ s') as [s2 r]. cbn in Hno, Hsame.
  constructor; [destruct r as [m'| |]; [by destruct (Hno m')|done..]|]. apply IH; unfold root_rows; by rewrite Hsame.
Qed.
End results.

(** ** A concrete folder *)

Module Examples.
#[local] Existing Instance RefHash.hex.
#[local] Existing Instance RefHash.hash.
Import MemoryStore.
#[local] Existing Instance memory_store.

(** A database that keeps the keys of the manifests only. *)
Module ListDb.
Abbreviation Rows := (list (string * string * Z)).
Definition max_version (d p : string) (rows : Rows) : option Z :=
  foldr (λ '(d', p', v) best, if String.eqb d d' && String.eqb p p'
    then Some (match best with Some w => Z.max v w | None => v end) else best) None rows.
Definition insert_row (d p : string) (v : Z) (h : string) (n total : Z) (rows : Rows) : Rows * outcome IndexError Z :=
  if bool_decide ((d, p, v) ∈ rows) then (rows, Err IndexDatabase) else ((d, p, v) :: rows, Ok (zlen rows)).
#[global] Instance db : IndexDb := {|
  Db := Rows;
  connection_ok _ := true;
  commit_ok _ := true;
  manifest_rows rows := list_to_set rows;
  select_max_version d p rows := Ok (max_version d p rows);
  insert_manifest := insert_row;
  upsert_file_row _ rows := (rows, Ok 0);
  insert_manifest_file _ _ _ rows := (rows, Ok tt);
  upsert_chunk_row _ _ rows := (rows, Ok 0);
|}.
Lemma max_version_spec d p rows : match max_version d p rows with
  | Some v => (d, p, v) ∈ rows ∧ ∀ w, (d, p, w) ∈ rows → w ≤ v
  | None => ∀ w, (d, p, w) ∉ rows end.
Proof.
  induction rows as [|[[d' p'] v] rows IH]; [set_solver|].
  change (max_version d p ((d', p', v) :: rows)) with (if String.eqb d d' && String.eqb p p'
    then Some (match max_version d p rows with Some w => Z.max v w | None => v end) else max_version d p rows).
  destruct (String.eqb_spec d d') as [<-|]; [destruct (String.eqb_spec p p') as [<-|]|]; cbn [andb].
  - destruct (max_version d p rows) as [w|].
    + destruct IH as [Hin Hle]. split.
      * destruct (Z.max_spec v w) as [[_ ->]|[_ ->]]; [by right|left].
      * intros u [[= ->]|Hu]%elem_of_cons; [lia|]. apply Hle in Hu. lia.
    + split; [left|]. intros u [[= ->]|Hu]%elem_of_cons; [done|by apply IH in Hu].
  - destruct (max_version d p rows); set_solver.
  - destruct (max_version d p rows); set_solver.
Qed.
#[global] Instance laws : IndexDbLaws.
Proof.
  split; cbn; try done.
  - intros d p rows v [= Hv]. pose proof (max_version_spec d p rows) as Hs. rewrite Hv in Hs. set_solver.
  - intros d p rows v [= Hv]. pose proof (max_version_spec d p rows) as Hs. rewrite Hv in Hs. set_solver.
  - intros d p rows v w [= Hv]. pose proof (max_version_spec d p rows) as Hs. rewrite Hv in Hs. set_solver.
  - intros d p v h n s rows rows' i. unfold insert_row. case_bool_decide; [done|]. intros [= <- _]. set_solver.
Qed.
End ListDb.

(** A folder with a file, a directory with another one, and a repository. *)
Definition folder : Path := ["/"; "home"].
Definition now : DateTime := 0.
Definition tree : list (Path * list (string * FileType)) :=
  [(folder, [("sub", IsDir); ("a.txt", IsFile); (".git", IsDir); ("b.tmp", IsFile)]);
   (join folder "sub", [("c.txt", IsFile); ("socket", IsOther)])].
Definition listing (d : Path) : option (list (string * FileType)) := 
  e ← list_find (λ e, e.1 = d) tree; Some e.2.2.
Definition kind_of (p : Path) : option FileType :=
  d ← listing (removelast p); e ← list_find (λ e, e.1 = file_name p) d; Some e.2.2.
Definition content_of (p : Path) : list byte := as_bytes (file_name p).
Definition os : System := {|
  canonicalize p := Some p;
  read_dir d := map fst <$> listing d;
  file_type := kind_of;
  metadata p := t ← kind_of p; Some {| m_type := t; m_len := 5; m_modified := Some 7; m_mode := Some 420 |};
  read_link _ := None;
  open_file p := Some [Ok (take 3 (content_of p)); Ok (drop 3 (content_of p)); Ok []];
|}.
Definition dirs : list Path := [folder; join folder "sub"].
Abbreviation config := IndexerConfig_default.

Lemma folder_walkable : walkable os config folder dirs.
Proof.
  assert (∀ d, entered os config folder d → d ∈ dirs) as Hfin.
  { induction 1 as [|d names name _ Hd Hr Hin Hi Hk]; [left|].
    unfold dirs in Hd. rewrite !elem_of_cons in Hd. destruct Hd as [->|[->|[]%not_elem_of_nil]];
      vm_compute in Hr; injection Hr as <-; rewrite !elem_of_cons in Hin;
      repeat (destruct Hin as [->|Hin]; [try (by vm_compute in Hi); try (by vm_compute in Hk); right; left|]);
      by apply not_elem_of_nil in Hin. }
  split; [done|]. intros d Hd%Hfin.
  unfold dirs in Hd. rewrite !elem_of_cons in Hd. destruct Hd as [->|[->|[]%not_elem_of_nil]]; eexists;
    (split; [by vm_compute|split; [by apply (bool_decide_unpack _); vm_compute|]]);
    intros name Hin; rewrite !elem_of_cons in Hin;
    repeat (destruct Hin as [->|Hin]; [intros; vm_compute; by eexists|]); by apply not_elem_of_nil in Hin.
Qed.
Lemma walk_finds_all_witness : ∃ found, walk_directory os config 2 folder = Ok found ∧
  StronglySorted components_leb found.
Proof.
  destruct (walk_finds_all os config folder dirs 2 folder_walkable) as (found & Hw & _ & Hs & _);
    [cbn; lia|by exists found].
Defined.
Lemma folder_found : walk_directory os config 2 folder = Ok [join folder "a.txt"; join (join folder "sub") "c.txt"].
Proof. by vm_compute. Qed.

Definition default_chunker : outcome ChunkerError Chunker := Chunker.new ChunkerConfig_default.
Definition chunker : Chunker := match default_chunker with Ok c => c | _ =>
  {| Chunker.config := ChunkerConfig_default; Chunker.mask := 0; Chunker.gear_table := [] |} end.
Lemma chunker_new : Chunker.new ChunkerConfig_default = Ok chunker.
Proof. by vm_compute. Qed.
Definition start : FileIndexer (Store:=Memory) := {| cas := []; database := [] |}.
Abbreviation index := (index_folder true os config chunker now 2 folder).
Definition after_first : FileIndexer (Store:=Memory) := Eval vm_compute in (index start).1.
Definition first_manifest : Manifest :=
  Eval vm_compute in match (index start).2 with Ok m => m | _ => Manifest.new now "" 0 end.
Lemma first_run : index start = (after_first, Ok first_manifest).
Proof. vm_cast_no_check (eq_refl (after_first, @Ok IndexError Manifest first_manifest)). Qed.

Lemma index_folder_describes_files_witness : length (files first_manifest) = 2%nat ∧ verify first_manifest = true.
Proof.
  split; [done|].
  by destruct (index_folder_describes_files true config ChunkerConfig_default chunker chunker_new os now 2 folder
    start after_first first_manifest first_run).
Defined.
Definition again : Call := {| call_os := os; call_now := 1; call_fuel := 2; call_folder := folder |}.
Lemma folder_indexed_once_witness :
  Forall (λ r, is_ok r = false) (index_again true config chunker [again; again] after_first).
Proof.
  destruct (folder_indexed_once true config ChunkerConfig_default chunker chunker_new os now 2 folder folder
    [again; again] start after_first first_manifest) as [_ Hr]; [|done|done|apply first_run| |exact Hr].
  - intros d p v Hin. cbn in Hin. set_solver.
  - by repeat constructor.
Defined.
End Examples.
