(* ===== verification/SyncSession.v ===== *)
(** A sync session with one peer: landro-sync/src/protocol.rs.

    The handlers of [SyncSession] as functions on its state. The chunk store is
    used through the interface [ContentStore]; the SQL database is a parameter
    that accepts or refuses a record. Progress in percent ([f64]) is not
    modelled; byte counters are sums of lengths of data held in memory and do
    not overflow. *)

From S2P Require Import Prelude Bytes CasInterface Manifest Proto Diff.
From Stdlib Require Import Init.Byte Strings.Byte Strings.Ascii ZArith Lia.
From stdpp Require Import base option list gmap sets strings pretty numbers sorting.
Open Scope Z_scope.

(** ** Data *)

Definition SESSION_PROTOCOL_VERSION : string := "1.0.0".
Definition MAX_WANT_CHUNKS : nat := 100.
Definition MAX_CONCURRENT_CHUNKS : nat := 10.

Inductive SessionState :=
  | Initializing
  | Negotiating
  | ComputingDiff
  | Transferring (total_chunks transferred_chunks : Z)
  | Verifying
  | SessionCompleted
  | SessionFailed (reason : string).
#[export] Instance SessionState_eq_dec : EqDecision SessionState.
Proof. solve_decision. Defined.

(** The error values of the handlers, by what they are formatted from. *)
Inductive SyncError :=
  | Unexpected (message : string) (s : SessionState)
  | VersionNotCompatible (version : string)
  | OurManifestNotLoaded
  | ChunkHashMismatch (hash : string)
  | InvalidHash (hash : string)
  | StorageError (what : string)
  | DatabaseError.

Record TransferStats := {
  bytes_sent : Z;
  bytes_received : Z;
  chunks_sent : Z;
  chunks_received : Z;
  stat_files_added : Z;
  stat_files_modified : Z;
  stat_files_deleted : Z;
}.
Definition TransferStats_default : TransferStats :=
  {| bytes_sent := 0; bytes_received := 0; chunks_sent := 0; chunks_received := 0;
     stat_files_added := 0; stat_files_modified := 0; stat_files_deleted := 0 |}.

Record PeerSyncState := {
  ps_peer_id : string;
  ps_peer_name : string;
  ps_last_sync : option DateTime;
  ps_last_manifest_hash : option string;
  ps_bytes_sent : Z;
  ps_bytes_received : Z;
  ps_files_sent : Z;
  ps_files_received : Z;
  ps_completed_at : DateTime; (* [current_state: PeerState::Completed { timestamp }] *)
}.

Record Have := {
  have_folder_id : string;
  have_chunk_hashes : list (list byte);
}.

Record SyncSession {Store : Type} := {
  session_id : string;
  peer_id : string;
  peer_name : string;
  state : SessionState;
  our_manifest : option Manifest;
  peer_manifest : option ManifestMsg;
  diff_result : option DiffResult;
  wanted_chunks : gset string;
  sent_chunks : gset string;
  received_chunks : gset string;
  cas : Store;
  diff_tracker : IncrementalDiff;
  database : list PeerSyncState;
  stats : TransferStats;
}.
Arguments SyncSession Store : clear implicits.

Section session.
Context {Store : Type} `{MapIter, Hex, Blake3, !ContentStore Store}.
(** [chrono::DateTime::from_timestamp]. *)
Context (from_timestamp : Z → Z → option DateTime).
(** Whether the database accepts a record. *)
Context (db_accepts : PeerSyncState → bool).
Context (checked : bool).

Abbreviation session := (SyncSession Store).
Abbreviation handler := (st session SyncError).

Definition new (now : DateTime) (peer_id peer_name : string) (cas : Store) : session :=
  {| session_id := peer_id +:+ "_" +:+ pretty (timestamp now);
     peer_id := peer_id; peer_name := peer_name; state := Initializing;
     our_manifest := None; peer_manifest := None; diff_result := None;
     wanted_chunks := ∅; sent_chunks := ∅; received_chunks := ∅; cas := cas;
     diff_tracker := IncrementalDiff_new ∅; database := []; stats := TransferStats_default |}.

(** Updates of single fields. *)
Definition set_state (x : SessionState) (s : session) : session :=
  {| session_id := session_id s; peer_id := peer_id s; peer_name := peer_name s; state := x;
     our_manifest := our_manifest s; peer_manifest := peer_manifest s; diff_result := diff_result s;
     wanted_chunks := wanted_chunks s; sent_chunks := sent_chunks s;
     received_chunks := received_chunks s; cas := cas s; diff_tracker := diff_tracker s;
     database := database s; stats := stats s |}.
Definition set_our_manifest (x : Manifest) (s : session) : session :=
  {| session_id := session_id s; peer_id := peer_id s; peer_name := peer_name s; state := state s;
     our_manifest := Some x; peer_manifest := peer_manifest s; diff_result := diff_result s;
     wanted_chunks := wanted_chunks s; sent_chunks := sent_chunks s;
     received_chunks := received_chunks s; cas := cas s; diff_tracker := diff_tracker s;
     database := database s; stats := stats s |}.
Definition set_peer_manifest (x : ManifestMsg) (s : session) : session :=
  {| session_id := session_id s; peer_id := peer_id s; peer_name := peer_name s; state := state s;
     our_manifest := our_manifest s; peer_manifest := Some x; diff_result := diff_result s;
     wanted_chunks := wanted_chunks s; sent_chunks := sent_chunks s;
     received_chunks := received_chunks s; cas := cas s; diff_tracker := diff_tracker s;
     database := database s; stats := stats s |}.
(** The fields set from a difference. *)
Definition set_diff (x : DiffResult) (t : IncrementalDiff) (s : session) : session :=
  {| session_id := session_id s; peer_id := peer_id s; peer_name := peer_name s; state := state s;
     our_manifest := our_manifest s; peer_manifest := peer_manifest s; diff_result := Some x;
     wanted_chunks := all_required_chunks x; sent_chunks := sent_chunks s;
     received_chunks := received_chunks s; cas := cas s; diff_tracker := t;
     database := database s;
     stats := {| bytes_sent := bytes_sent (stats s); bytes_received := bytes_received (stats s);
                 chunks_sent := chunks_sent (stats s); chunks_received := chunks_received (stats s);
                 stat_files_added := files_added (Diff.stats x);
                 stat_files_modified := files_modified (Diff.stats x);
                 stat_files_deleted := files_deleted (Diff.stats x) |} |}.
Definition set_cas (x : Store) (s : session) : session :=
  {| session_id := session_id s; peer_id := peer_id s; peer_name := peer_name s; state := state s;
     our_manifest := our_manifest s; peer_manifest := peer_manifest s; diff_result := diff_result s;
     wanted_chunks := wanted_chunks s; sent_chunks := sent_chunks s;
     received_chunks := received_chunks s; cas := x; diff_tracker := diff_tracker s;
     database := database s; stats := stats s |}.
Definition mark_sent (hash : string) (n : Z) (s : session) : session :=
  {| session_id := session_id s; peer_id := peer_id s; peer_name := peer_name s; state := state s;
     our_manifest := our_manifest s; peer_manifest := peer_manifest s; diff_result := diff_result s;
     wanted_chunks := wanted_chunks s; sent_chunks := {[hash]} ∪ sent_chunks s;
     received_chunks := received_chunks s; cas := cas s; diff_tracker := diff_tracker s;
     database := database s;
     stats := {| bytes_sent := bytes_sent (stats s) + n; bytes_received := bytes_received (stats s);
                 chunks_sent := chunks_sent (stats s) + 1; chunks_received := chunks_received (stats s);
                 stat_files_added := stat_files_added (stats s);
                 stat_files_modified := stat_files_modified (stats s);
                 stat_files_deleted := stat_files_deleted (stats s) |} |}.
Definition mark_received (hash : string) (n : Z) (s : session) : session :=
  {| session_id := session_id s; peer_id := peer_id s; peer_name := peer_name s; state := state s;
     our_manifest := our_manifest s; peer_manifest := peer_manifest s; diff_result := diff_result s;
     wanted_chunks := wanted_chunks s ∖ {[hash]}; sent_chunks := sent_chunks s;
     received_chunks := {[hash]} ∪ received_chunks s; cas := cas s; diff_tracker := diff_tracker s;
     database := database s;
     stats := {| bytes_sent := bytes_sent (stats s); bytes_received := bytes_received (stats s) + n;
                 chunks_sent := chunks_sent (stats s); chunks_received := chunks_received (stats s) + 1;
                 stat_files_added := stat_files_added (stats s);
                 stat_files_modified := stat_files_modified (stats s);
                 stat_files_deleted := stat_files_deleted (stats s) |} |}.
Definition push_record (x : PeerSyncState) (s : session) : session :=
  {| session_id := session_id s; peer_id := peer_id s; peer_name := peer_name s; state := state s;
     our_manifest := our_manifest s; peer_manifest := peer_manifest s; diff_result := diff_result s;
     wanted_chunks := wanted_chunks s; sent_chunks := sent_chunks s;
     received_chunks := received_chunks s; cas := cas s; diff_tracker := diff_tracker s;
     database := database s ++ [x]; stats := stats s |}.

Definition is_version_compatible (version : string) : bool :=
  let our_major := hd "1"%string (Proto.split "."%char SESSION_PROTOCOL_VERSION) in
  let their_major := hd "0"%string (Proto.split "."%char version) in
  bool_decide (our_major = their_major).

Definition unexpected {A} (message : string) : handler A :=
  self ← get_st; lift (Err (Unexpected message (state self))).

Definition handle_hello (now : Timestamp) (hello : Hello) : handler Hello :=
  self ← get_st;
  if negb (bool_decide (state self = Initializing)) then unexpected "Hello"
  else if negb (is_version_compatible (hello_version hello)) then
    _ ← modify_st (set_state (SessionFailed "Incompatible protocol version"));
    lift (Err (VersionNotCompatible (hello_version hello)))
  else
    _ ← modify_st (set_state Negotiating);
    mret {| hello_version := SESSION_PROTOCOL_VERSION; hello_device_id := repeat x00 32;
            hello_device_name := "landropic";
            hello_capabilities := ["sync.v1"; "incremental.v1"; "compression.zstd"]%string;
            hello_timestamp := Some now |}.

(** [load_our_manifest]: the index is not consulted yet. *)
Definition load_our_manifest (now : DateTime) (folder_id : string) : Manifest :=
  Manifest.new now folder_id 1.

Definition handle_folder_summary (now : DateTime) (stamp : Timestamp) (summary : FolderSummary) :
    handler FolderSummary :=
  self ← get_st;
  if negb (bool_decide (state self = Negotiating)) then unexpected "FolderSummary"
  else
    let our := load_our_manifest now (fs_folder_id summary) in
    _ ← modify_st (set_our_manifest our);
    _ ← modify_st (set_state ComputingDiff);
    size ← lift (total_size checked our);
    mret {| fs_folder_id := fs_folder_id summary; fs_folder_path := "/sync";
            fs_manifest_hash := default [] (h ← manifest_hash our; Some (default [] (hex_decode h)));
            fs_total_size := size; fs_file_count := file_count our;
            fs_last_modified := Some stamp |}.

(** [now] is what [Utc::now()] gives where a time is missing or out of range. *)
Definition proto_to_manifest (now : DateTime) (proto : ManifestMsg) : Manifest :=
  let entry file :=
    {| path := fe_path file; fsize := fe_size file;
       modified_at := default now
         (t ← fe_modified file; from_timestamp (fst t) (wrap 32 (snd t)));
       content_hash := hex_encode (fe_content_hash file);
       chunk_hashes := map hex_encode (fe_chunk_hashes file); mode := Some (fe_mode file) |} in
  finalize (foldl (λ m file, add_file m (entry file))
              (Manifest.new now (mm_folder_id proto) 1) (mm_files proto)).

Definition handle_manifest (now : DateTime) (manifest : ManifestMsg) : handler Want :=
  self ← get_st;
  if negb (bool_decide (state self = ComputingDiff)) then unexpected "Manifest"
  else
    _ ← modify_st (set_peer_manifest manifest);
    let peer := proto_to_manifest now manifest in
    our ← lift (ok_or OurManifestNotLoaded (our_manifest self));
    '(tracker, diff) ← lift (compute_incremental checked (diff_tracker self) (peer_id self) our peer);
    let wanted := map (λ h, default [] (hex_decode h))
                    (take MAX_WANT_CHUNKS (set_iter (all_required_chunks diff))) in
    _ ← modify_st (set_diff diff tracker);
    _ ← modify_st (set_state (Transferring (Z.of_nat (size (all_required_chunks diff))) 0));
    mret {| want_folder_id := folder_id peer; want_chunk_hashes := wanted; want_priority := 1 |}.

(** [load_chunk]: the error value is only logged. *)
Definition load_chunk (hash : string) : handler (option (list byte)) :=
  match hex_decode hash with
  | None => mret None
  | Some hash_bytes =>
      h ← lift (or_panic (slice hash_bytes 0 32));
      self ← get_st;
      let '(store, bytes) := cas_read (cas self) h in
      _ ← modify_st (set_cas store);
      mret bytes
  end.

Fixpoint answer_want (hashes : list (list byte)) (chunks : list ChunkData) :
    handler (list ChunkData) :=
  match hashes with
  | [] => mret chunks
  | hash_bytes :: hashes =>
      let hash_str := hex_encode hash_bytes in
      self ← get_st;
      if bool_decide (hash_str ∈ sent_chunks self) then answer_want hashes chunks
      else
        loaded ← load_chunk hash_str;
        match loaded with
        | Some data =>
            _ ← modify_st (mark_sent hash_str (zlen data));
            answer_want hashes (chunks ++
              [{| cd_hash := hash_bytes; cd_data := data; cd_compressed := false;
                  cd_uncompressed_size := wrap 32 (zlen data) |}])
        | None => answer_want hashes chunks
        end
  end.

Definition is_transferring (s : SessionState) : bool :=
  match s with Transferring _ _ => true | _ => false end.

Definition handle_want (want : Want) : handler (list ChunkData) :=
  self ← get_st;
  if negb (is_transferring (state self)) then unexpected "Want"
  else answer_want (take MAX_CONCURRENT_CHUNKS (want_chunk_hashes want)) [].

Definition handle_have (have : Have) : handler unit := mret tt.

Definition store_chunk (hash : string) (data : list byte) : handler unit :=
  hash_bytes ← lift (ok_or (InvalidHash hash) (hex_decode hash));
  _ ← lift (fail_if (negb (bool_decide (blake3 data = hash_bytes))) (ChunkHashMismatch hash));
  self ← get_st;
  let '(store, ok) := cas_write (cas self) data in
  _ ← modify_st (set_cas store);
  lift (fail_if (negb ok) (StorageError "Failed to store chunk")).

(** The state after one more chunk. *)
Definition progress_state (s : SessionState) : SessionState :=
  match s with
  | Transferring total_chunks transferred_chunks =>
      let new_transferred := transferred_chunks + 1 in
      if total_chunks <=? new_transferred then Verifying
      else Transferring total_chunks new_transferred
  | s => s
  end.

Definition handle_chunk_data (chunk : ChunkData) : handler Ack :=
  self ← get_st;
  if negb (is_transferring (state self)) then unexpected "ChunkData"
  else
    let hash_str := hex_encode (cd_hash chunk) in
    _ ← lift (fail_if (negb (bool_decide (blake3 (cd_data chunk) = cd_hash chunk)))
                (ChunkHashMismatch hash_str));
    _ ← store_chunk hash_str (cd_data chunk);
    _ ← modify_st (mark_received hash_str (zlen (cd_data chunk)));
    _ ← modify_st (λ s, set_state (progress_state (state s)) s);
    mret {| ack_request_id := hex_encode (cd_hash chunk); ack_success := true;
            ack_message := "Chunk stored" |}.

Definition verify_transfer (self : session) : bool := bool_decide (wanted_chunks self = ∅).

Definition update_peer_state (now : DateTime) : handler unit :=
  self ← get_st;
  let peer_state :=
    {| ps_peer_id := peer_id self; ps_peer_name := peer_name self; ps_last_sync := Some now;
       ps_last_manifest_hash := our ← our_manifest self; manifest_hash our;
       ps_bytes_sent := bytes_sent (stats self); ps_bytes_received := bytes_received (stats self);
       ps_files_sent := chunks_sent (stats self); ps_files_received := chunks_received (stats self);
       ps_completed_at := now |} in
  if db_accepts peer_state then modify_st (push_record peer_state) else lift (Err DatabaseError).

Definition handle_ack (now : DateTime) (ack : Ack) : handler unit :=
  self ← get_st;
  if bool_decide (state self = Verifying) then
    if verify_transfer self then
      _ ← modify_st (set_state SessionCompleted);
      update_peer_state now
    else modify_st (set_state (SessionFailed "Verification failed"))
  else mret tt.

Definition handle_error (error : ProtoError) : handler unit :=
  modify_st (set_state (SessionFailed (error_message error))).

(** ** Messages *)

Inductive message :=
  | InHello (now : Timestamp) (m : Hello)
  | InSummary (now : DateTime) (stamp : Timestamp) (m : FolderSummary)
  | InManifest (now : DateTime) (m : ManifestMsg)
  | InWant (m : Want)
  | InHave (m : Have)
  | InChunk (m : ChunkData)
  | InAck (now : DateTime) (m : Ack)
  | InError (m : ProtoError).

Definition handle (m : message) (self : session) : session :=
  match m with
  | InHello now m => (handle_hello now m self).1
  | InSummary now stamp m => (handle_folder_summary now stamp m self).1
  | InManifest now m => (handle_manifest now m self).1
  | InWant m => (handle_want m self).1
  | InHave m => (handle_have m self).1
  | InChunk m => (handle_chunk_data m self).1
  | InAck now m => (handle_ack now m self).1
  | InError m => (handle_error m self).1
  end.
Definition run (ms : list message) (self : session) : session := foldl (λ s m, handle m s) self ms.
End session.

(** ** Properties *)

Section properties.
Context {Store : Type} `{MapIter, Hex, Blake3, !ContentStore Store}.
Context (from_timestamp : Z → Z → option DateTime).
Context (db_accepts : PeerSyncState → bool) (checked : bool).
Abbreviation session := (SyncSession Store).
Abbreviation handle := (handle from_timestamp db_accepts checked).
Abbreviation run := (run from_timestamp db_accepts checked).

(** The store holds the chunk named [h]. *)
Definition stored (store : Store) (h : string) : Prop :=
  ∃ bytes, h = hex_encode bytes ∧ cas_holds store bytes.

(** Every chunk the difference requires is still wanted or is stored; nothing
    is wanted once the session is completed. *)
Record session_inv (required : gset string) (s : session) : Prop := {
  inv_required : ∀ h, h ∈ required → h ∈ wanted_chunks s ∨ stored (cas s) h;
  inv_completed : state s = SessionCompleted → wanted_chunks s = ∅;
  inv_started : state s ≠ Initializing ∧ state s ≠ Negotiating ∧ state s ≠ ComputingDiff;
}.

Lemma stored_read store hash h : stored store h → stored (cas_read store hash).1 h.
Proof. intros (data & -> & Hd). exists data. split; [done|]. by apply cas_read_keeps. Qed.
Lemma stored_write store data h : stored store h → stored (cas_write store data).1 h.
Proof. intros (d & -> & Hd). exists d. split; [done|]. by apply cas_write_keeps. Qed.

Definition answer (hash data : list byte) : ChunkData :=
  {| cd_hash := hash; cd_data := data; cd_compressed := false;
     cd_uncompressed_size := wrap 32 (zlen data) |}.

Lemma answer_want_cons hash hashes chunks (s : session) :
  answer_want (hash :: hashes) chunks s =
  if bool_decide (hex_encode hash ∈ sent_chunks s) then answer_want hashes chunks s
  else
    match slice hash 0 32 with
    | None => (s, Panic)
    | Some h32 =>
        let r := cas_read (cas s) h32 in
        match r.2 with
        | Some data => answer_want hashes (chunks ++ [answer hash data])
                         (mark_sent (hex_encode hash) (zlen data) (set_cas r.1 s))
        | None => answer_want hashes chunks (set_cas r.1 s)
        end
    end.
Proof.
  cbn [answer_want]. cbn zeta.
  unfold load_chunk, mbind, st_bind, lift, get_st, modify_st. rewrite hex_decode_encode.
  cbn. case_bool_decide; [done|]. destruct (slice hash 0 32) as [h32|]; cbn; [|done].
  destruct (cas_read (cas s) h32) as [store [data|]]; done.
Qed.

(** [answer_want] only reads the store, and sends what it reads. *)
Lemma answer_want_spec hashes chunks (s : session) :
  let r := answer_want hashes chunks s in
  wanted_chunks r.1 = wanted_chunks s ∧ state r.1 = state s ∧
  (∀ h, stored (cas s) h → stored (cas r.1) h) ∧
  (Forall (λ h, 32 ≤ zlen h) hashes → r.2 ≠ Panic) ∧
  (∀ e, r.2 ≠ Err e) ∧
  (∀ out, r.2 = Ok out → ∃ new, out = chunks ++ new ∧
    ∀ c, c ∈ new → cd_hash c ∈ hashes ∧ hex_encode (cd_hash c) ∉ sent_chunks s ∧
      blake3 (cd_data c) = take 32 (cd_hash c)).
Proof.
  revert chunks s. induction hashes as [|hash hashes IH]; intros chunks s; cbn zeta.
  { split_and!; try done. intros out [= <-]. exists []. rewrite app_nil_r. split; [done|set_solver]. }
  rewrite answer_want_cons. case_bool_decide as Hsent.
  { destruct (IH chunks s) as (-> & -> & ? & Hp & ? & Hout). split_and!; try done.
    - intros [_ Hf]%Forall_cons. by apply Hp.
    - intros out Ho. destruct (Hout out Ho) as (new & -> & Hnew). exists new. split; [done|].
      intros c Hc. destruct (Hnew c Hc) as (? & ? & ?). split_and!; [by right|done|done]. }
  unfold slice. case_decide as Hlen.
  2: { split_and!; try done. intros [? _]%Forall_cons. destruct Hlen. lia. }
  change (take (Z.to_nat (32 - 0)) (drop (Z.to_nat 0) hash)) with (take 32 hash).
  pose proof (stored_read (cas s) (take 32 hash)) as Hst.
  pose proof (cas_read_data (cas s) (take 32 hash)) as Hdata.
  destruct (cas_read (cas s) (take 32 hash)) as [store bytes]. cbn [fst snd] in *.
  destruct bytes as [data|].
  - destruct (IH (chunks ++ [answer hash data]) (mark_sent (hex_encode hash) (zlen data) (set_cas store s)))
      as (-> & -> & Hs' & Hp & ? & Hout). cbn [cas mark_sent set_cas sent_chunks] in *.
    split_and!; try done; [by auto| |].
    + intros [_ Hf]%Forall_cons. by apply Hp.
    + intros out Ho. destruct (Hout out Ho) as (new & -> & Hnew).
      exists (answer hash data :: new). split; [by rewrite <-app_assoc|].
      intros c [->|Hc]%elem_of_cons.
      * split_and!; [by left|done|]. by apply Hdata.
      * destruct (Hnew c Hc) as (? & Hns & ?). split_and!; [by right|set_solver|done].
  - destruct (IH chunks (set_cas store s)) as (-> & -> & Hs' & Hp & ? & Hout).
    cbn [cas set_cas sent_chunks] in *.
    split_and!; try done; [by auto| |].
    + intros [_ Hf]%Forall_cons. by apply Hp.
    + intros out Ho. destruct (Hout out Ho) as (new & -> & Hnew). exists new. split; [done|].
      intros c Hc. destruct (Hnew c Hc) as (? & ? & ?). split_and!; [by right|done|done].
Qed.

(** Accepting a chunk: every step of [handle_chunk_data] in one equation. *)
Lemma handle_chunk_data_eq chunk (s : session) : is_transferring (state s) = true →
  handle (InChunk chunk) s =
  if decide (blake3 (cd_data chunk) = cd_hash chunk) then
    let w := cas_write (cas s) (cd_data chunk) in
    if w.2 then
      set_state (progress_state (state s))
        (mark_received (hex_encode (cd_hash chunk)) (zlen (cd_data chunk)) (set_cas w.1 s))
    else set_cas w.1 s
  else s.
Proof.
  intros Ht. simpl. unfold handle_chunk_data, store_chunk, mbind, st_bind, lift, get_st, modify_st.
  rewrite Ht, hex_decode_encode. simpl. case_decide as Hh.
  - rewrite !(bool_decide_eq_true_2 _ Hh). simpl.
    by destruct (cas_write _ _) as [store []].
  - by rewrite (bool_decide_eq_false_2 _ Hh).
Qed.

Lemma handle_session_inv required m (s : session) :
  session_inv required s → session_inv required (handle m s).
Proof.
  intros [Hreq Hcomp (Hi & Hn & Hd)]. destruct m as [now m|now stamp m|now m|m|m|m|now m|m].
  - simpl. unfold handle_hello, unexpected, mbind, st_bind, get_st, lift.
    by rewrite (bool_decide_eq_false_2 _ Hi).
  - simpl. unfold handle_folder_summary, unexpected, mbind, st_bind, get_st, lift.
    by rewrite (bool_decide_eq_false_2 _ Hn).
  - simpl. unfold handle_manifest, unexpected, mbind, st_bind, get_st, lift.
    by rewrite (bool_decide_eq_false_2 _ Hd).
  - simpl. unfold handle_want, unexpected, mbind at 1, st_bind at 1, get_st.
    destruct (is_transferring (state s)); simpl; [|done].
    destruct (answer_want_spec (take MAX_CONCURRENT_CHUNKS (want_chunk_hashes m)) [] s)
      as (Hw & Hs & Hst & _). constructor; rewrite ?Hw, ?Hs; try done.
    intros h Hh. destruct (Hreq h Hh); auto.
  - done.
  - destruct (is_transferring (state s)) eqn:Ht.
    + rewrite handle_chunk_data_eq by done. case_decide as Hh; [|done]. cbn zeta.
      pose proof (cas_write_holds (cas s) (cd_data m)) as Hwr.
      pose proof (stored_write (cas s) (cd_data m)) as Hst.
      destruct (cas_write (cas s) (cd_data m)) as [store []]; cbn [fst snd] in *.
      * constructor; cbn [wanted_chunks cas state set_state mark_received set_cas].
        -- intros h Hr. destruct (decide (h = hex_encode (cd_hash m))) as [->|Hne].
           ++ right. exists (cd_hash m). split; [done|]. rewrite <-Hh. by apply Hwr.
           ++ destruct (Hreq h Hr) as [Hw|Hs]; [left; set_solver|right; by apply Hst].
        -- unfold progress_state. destruct (state s); try done. case_if; done.
        -- unfold progress_state. destruct (state s); try done. case_if; done.
      * constructor; try done. intros h Hr. destruct (Hreq h Hr) as [Hw|Hs]; [by left|right; by apply Hst].
    + simpl. unfold handle_chunk_data, unexpected, mbind, st_bind, get_st, lift. by rewrite Ht.
  - simpl. unfold handle_ack, mbind, st_bind, get_st, lift, modify_st, verify_transfer, update_peer_state.
    case_bool_decide as Hv; simpl; [|done]. case_bool_decide as Hw; simpl.
    + unfold mbind, st_bind, get_st, modify_st, lift. simpl. destruct (db_accepts _); by constructor.
    + by constructor.
  - by constructor.
Qed.

Lemma run_session_inv required ms (s : session) : session_inv required s → session_inv required (run ms s).
Proof.
  unfold SyncSession.run. revert s. induction ms as [|m ms IH]; intros s Hinv; simpl; [done|].
  apply IH. by apply handle_session_inv.
Qed.
Lemma run_completed required ms n (s0 : session) : state s0 = Transferring n 0 → wanted_chunks s0 = required →
  state (run ms s0) = SessionCompleted → ∀ h, h ∈ required → stored (cas (run ms s0)) h.
Proof.
  intros Hs Hw Hc h Hh.
  destruct (run_session_inv required ms s0) as [Hreq Hcomp _].
  { constructor; rewrite ?Hs, ?Hw; try done. by left. }
  destruct (Hreq h Hh) as [Hin|]; [|done]. rewrite (Hcomp Hc) in Hin. set_solver.
Qed.

(** No message makes the store lose a chunk. *)
Lemma handle_keeps_stored m (s : session) h : stored (cas s) h → stored (cas (handle m s)) h.
Proof.
  intros Hh. destruct m as [now m|now stamp m|now m|m|m|m|now m|m]; simpl.
  - unfold handle_hello, unexpected, mbind, st_bind, get_st, lift, modify_st. by repeat case_match; simplify_eq.
  - unfold handle_folder_summary, unexpected, mbind, st_bind, get_st, lift, modify_st.
    case_bool_decide; simpl; [|done]. by repeat case_match; simplify_eq/=.
  - unfold handle_manifest, unexpected, mbind, st_bind, get_st, lift, modify_st.
    case_bool_decide; simpl; [|done]. destruct (our_manifest s); simpl; [|done].
    by destruct (compute_incremental _ _ _ _ _) as [[t d]|e|].
  - unfold handle_want, unexpected, mbind at 1, st_bind at 1, get_st.
    destruct (is_transferring (state s)); simpl; [|done].
    destruct (answer_want_spec (take MAX_CONCURRENT_CHUNKS (want_chunk_hashes m)) [] s)
      as (_ & _ & Hst & _). by apply Hst.
  - done.
  - destruct (is_transferring (state s)) eqn:Ht.
    + pose proof (handle_chunk_data_eq m s Ht) as E. simpl in E. rewrite E. case_decide; [|done]. cbn zeta.
      pose proof (stored_write (cas s) (cd_data m) h Hh) as Hst. by destruct (cas_write _ _) as [store []].
    + unfold handle_chunk_data, unexpected, mbind, st_bind, get_st, lift. by rewrite Ht.
  - unfold handle_ack, mbind, st_bind, get_st, lift, modify_st, verify_transfer, update_peer_state.
    case_bool_decide; simpl; [|done]. case_bool_decide; simpl; [|done].
    unfold mbind, st_bind, get_st, modify_st, lift. simpl. by destruct (db_accepts _).
  - done.
Qed.
Lemma run_keeps_stored ms (s : session) h : stored (cas s) h → stored (cas (run ms s)) h.
Proof.
  unfold SyncSession.run. revert s. induction ms as [|m ms IH]; intros s Hh; simpl; [done|].
  by apply IH, handle_keeps_stored.
Qed.

(** C10: A session that started transferring for some difference and is later
    completed, whatever messages arrived in between, has every chunk that the
    difference requires in the content store. *)
Theorem completed_has_all_chunks d s0 ms n :
  state s0 = Transferring n 0 → diff_result s0 = Some d → wanted_chunks s0 = all_required_chunks d →
  let s := run ms s0 in
  state s = SessionCompleted → ∀ h, h ∈ all_required_chunks d → stored (cas s) h.
Proof.
  intros Hs _ Hw s Hc h Hh. by eapply run_completed.
Qed.

(** A request is answered with authentic data only: every chunk returned was
    among the first ten requested, had not been sent before in the session, and
    its data hashes to the first 32 bytes of the requested hash; the handler
    panics on no request whose hashes have 32 bytes or more. *)
Theorem handle_want_sound w (s : session) :
  let r := handle_want w s in
  (∀ chunks, r.2 = Ok chunks → ∀ c, c ∈ chunks →
     cd_hash c ∈ take 10 (want_chunk_hashes w) ∧ hex_encode (cd_hash c) ∉ sent_chunks s ∧
     blake3 (cd_data c) = take 32 (cd_hash c)) ∧
  (Forall (λ h, 32 ≤ zlen h) (want_chunk_hashes w) → r.2 ≠ Panic) ∧
  (is_ok r.2 = true → is_transferring (state s) = true ∧ state r.1 = state s).
Proof.
  intros r. unfold r, handle_want, unexpected, mbind, st_bind, get_st, lift. clear r.
  destruct (is_transferring (state s)); simpl; [|done].
  destruct (answer_want_spec (take MAX_CONCURRENT_CHUNKS (want_chunk_hashes w)) [] s)
    as (_ & Hs & _ & Hp & _ & Hout). split_and!; [| |done].
  - intros chunks Hc c Hin. destruct (Hout chunks Hc) as (new & -> & Hnew). by apply Hnew.
  - intros Hf. apply Hp. by apply Forall_take.
Qed.

(** An empty manifest of ours asks for nothing of any manifest of the peer. *)
Lemma empty_manifest_requests_nothing now folder now' m (s : session) s' want : state s = ComputingDiff →
  our_manifest s = Some (load_our_manifest now folder) → handle_manifest from_timestamp checked now' m s = (s', Ok want) →
  want_chunk_hashes want = [] ∧ wanted_chunks s' = ∅ ∧ state s' = Transferring 0 0.
Proof.
  intros Hs1 Hour Hm. unfold handle_manifest, mbind, st_bind, get_st, lift, modify_st in Hm.
  rewrite (bool_decide_eq_true_2 _ Hs1), Hour in Hm. simpl in Hm.
  destruct (compute_incremental _ _ _ _ _) as [[tracker d]|e|] eqn:Hd; [|done..].
  unfold compute_incremental in Hd. apply bind_Ok in Hd as (d' & Hd & E). injection E as _ ->.
  assert (all_required_chunks d = ∅) as Hreq.
  { apply leibniz_equiv, elem_of_equiv_empty. intros h.
    rewrite (compute_diff_required _ _ _ _ _ h Hd). intros (c & Hc & Hin).
    apply (compute_diff_changes _ _ _ _ _ c Hd) in Hc.
    change (file_map (files (load_our_manifest now folder))) with (∅ : gmap string ManifestEntry) in Hc.
    rewrite lookup_empty in Hc. revert Hc. generalize (change_path c). intros p. unfold classify.
    destruct (file_map _ !! p); [|done]. intros [= <-]. by apply elem_of_nil in Hin. }
  injection Hm as <- <-. simpl. rewrite Hreq.
  assert (set_iter (∅ : gset string) = []) as ->; [|done].
  apply Permutation_nil_r. by rewrite set_iter_perm, elements_empty.
Qed.

(** The session compares the manifests in the wrong direction, and its own
    manifest is always empty: whatever manifest the peer sends, the request
    that answers it asks for no chunk, the session expects none, and the first
    valid chunk stored ends the transfer. *)
Theorem session_requests_nothing now stamp sum now' m (s : session) s' want chunk :
  state s = Negotiating →
  handle_manifest from_timestamp checked now' m (handle (InSummary now stamp sum) s) = (s', Ok want) →
  blake3 (cd_data chunk) = cd_hash chunk → (cas_write (cas s') (cd_data chunk)).2 = true →
  want_chunk_hashes want = [] ∧ wanted_chunks s' = ∅ ∧ state s' = Transferring 0 0 ∧
  state (handle (InChunk chunk) s') = Verifying.
Proof.
  intros Hs Hm Hh Hok.
  assert (state (handle (InSummary now stamp sum) s) = ComputingDiff ∧
    our_manifest (handle (InSummary now stamp sum) s) = Some (load_our_manifest now (fs_folder_id sum)))
    as [Hs1 Hour].
  { simpl. unfold handle_folder_summary, mbind, st_bind, get_st, lift, modify_st.
    rewrite (bool_decide_eq_true_2 _ Hs). done. }
  destruct (empty_manifest_requests_nothing _ _ _ _ _ _ _ Hs1 Hour Hm) as (Hw & Hwanted & Hs').
  split_and!; [done..|]. etrans; [apply (f_equal state), handle_chunk_data_eq; by rewrite ?Hs'|].
  simpl in *. rewrite Hs'. rewrite decide_True by done. by rewrite Hok.
Qed.
End properties.

(** ** Concrete inputs *)

Module Examples.
#[local] Existing Instance RefHash.hex.
#[local] Existing Instance RefHash.hash.
#[local] Existing Instance gmap_order.

Import MemoryStore.
#[local] Existing Instance memory_store.

Definition no_time : Z → Z → option DateTime := λ _ _, None.
Definition chunk (data : list byte) : ChunkData :=
  {| cd_hash := blake3 data; cd_data := data; cd_compressed := false; cd_uncompressed_size := 0 |}.
Definition name (data : list byte) : string := hex_encode (blake3 data).
Definition needs (l : list (list byte)) : DiffResult :=
  {| changes := []; total_transfer_size := 0; all_required_chunks := list_to_set (map name l);
     Diff.stats := DiffStats_default; merkle_proof := None |}.
Definition start : SyncSession Memory := new 0 "peer" "Peer" [].
(** A session that waits for the chunks of [l]. *)
Definition transferring (l : list (list byte)) : SyncSession Memory :=
  set_state (Transferring (zlen l) 0) (set_diff (needs l) (IncrementalDiff_new ∅) start).
Definition ack : Ack := {| ack_request_id := ""; ack_success := true; ack_message := "" |}.
Abbreviation go := (run (Store:=Memory) no_time (λ _, true) true).

Definition arrivals : list message := [InChunk (chunk [x01]); InChunk (chunk [x02]); InAck 5 ack].
Lemma arrivals_complete : state (go arrivals (transferring [[x01]; [x02]])) = SessionCompleted.
Proof. by vm_compute. Qed.
Lemma transferring_ok :
  let s0 := transferring [[x01]; [x02]] in
  state s0 = Transferring 2 0 ∧ diff_result s0 = Some (needs [[x01]; [x02]]) ∧
  wanted_chunks s0 = all_required_chunks (needs [[x01]; [x02]]).
Proof. cbn zeta. unfold transferring, set_state, set_diff. simpl. done. Qed.
Lemma chunk_needed : name [x02] ∈ all_required_chunks (needs [[x01]; [x02]]).
Proof. apply (bool_decide_unpack _). by vm_compute. Qed.

Lemma completed_has_all_chunks_witness :
  stored (cas (go arrivals (transferring [[x01]; [x02]]))) (name [x02]).
Proof.
  destruct transferring_ok as (Hs & Hd & Hw).
  exact (completed_has_all_chunks no_time (λ _, true) true (needs [[x01]; [x02]])
    (transferring [[x01]; [x02]]) arrivals 2 Hs Hd Hw arrivals_complete _ chunk_needed).
Defined.

(** A chunk received twice is counted twice: the session then verifies too
    early and fails, although no message was wrong and the missing chunk could
    still have arrived. *)
Theorem duplicate_chunk_fails_session :
  state (go [InChunk (chunk [x01]); InChunk (chunk [x01])] (transferring [[x01]; [x02]])) = Verifying ∧
  state (go [InChunk (chunk [x01]); InChunk (chunk [x01]); InAck 5 ack; InChunk (chunk [x02])]
    (transferring [[x01]; [x02]])) = SessionFailed "Verification failed".
Proof. split; by vm_compute. Qed.

Definition negotiating : SyncSession Memory :=
  go [InHello (0, 0) {| hello_version := "1.0.0"; hello_device_id := []; hello_device_name := "p";
       hello_capabilities := []; hello_timestamp := None |}] start.
Definition summary : FolderSummary :=
  {| fs_folder_id := "docs"; fs_folder_path := "/d"; fs_manifest_hash := []; fs_total_size := 3;
     fs_file_count := 1; fs_last_modified := None |}.
Definition manifest : ManifestMsg :=
  {| mm_folder_id := "docs"; mm_generated_at := None; mm_manifest_hash := [];
     mm_files := [{| fe_path := "f"; fe_size := 3; fe_mode := 0; fe_modified := None;
                     fe_chunk_hashes := [blake3 [x01]; blake3 [x02]]; fe_content_hash := [x03] |}] |}.
Definition asked :=
  handle_manifest no_time true 9 manifest (go [InSummary 7 (0, 0) summary] negotiating).

Definition answered : Want :=
  from_ok {| want_folder_id := ""; want_chunk_hashes := [[]]; want_priority := 0 |} asked.2.

Lemma session_requests_nothing_witness : want_chunk_hashes answered = [].
Proof.
  apply (session_requests_nothing no_time (λ _, true) true 7 (0, 0) summary 9 manifest
    negotiating asked.1 answered (chunk [x05])); by vm_compute.
Defined.
End Examples.
