(* ===== verification/Packfile.v ===== *)
(** Packfiles of small chunks: landro-cas/src/packfile.rs.

    The file format (header, chunk data, entry table, footer), its writer, the
    two readers (through the file API and through a memory map) and the manager.
    The directory of packs is a map from file names to contents; a file handle
    has a position and may be readable or not. Operating-system failures other
    than a missing file, the end of a file and the use of a handle in a mode it
    was not opened in are not modelled. *)

From S2P Require Import Prelude Bytes.
From Stdlib Require Import Init.Byte Strings.Byte Strings.Ascii ZArith Lia.
From stdpp Require Import base option list gmap sets strings numbers sorting.
Open Scope Z_scope.

(** ** Errors *)

Inductive IoError := NotFound | UnexpectedEof | BadFileDescriptor | InvalidInput.

(** The values of [CasError] that landro-cas returns, with an identification of
    the message for a message. *)
Inductive CasError :=
  | Io (e : IoError)
  | ObjectNotFound (hash : ContentHash.t)
  | HashMismatch (expected actual : ContentHash.t)
  | CorruptObject (what : string)
  | StoragePath (what : string)
  | InvalidObjectSize (expected actual : Z)
  | InconsistentState (what : string)
  | InvalidOperation (what : string)
  | AtomicWriteFailed (what : string)
  | Internal (what : string).

(** ** Files *)

Abbreviation Disk := (gmap string (list byte)).
Abbreviation io := (st Disk CasError).

Record File := { fpath : string; pos : nat; readable : bool; writable : bool }.

Definition at_pos (f : File) (p : nat) : File :=
  {| fpath := fpath f; pos := p; readable := readable f; writable := writable f |}.

(** Overwriting at a position; a gap before it is filled with zeros. *)
Definition overwrite (c : list byte) (p : nat) (bs : list byte) : list byte :=
  take p c ++ repeat x00 (p - length c) ++ bs ++ drop (p + length bs) c.

Definition contents (d : Disk) (path : string) : list byte := default [] (d !! path).

(** [File::create]: truncates, and opens for writing only. [read_too] is false
    for [File::create]; a handle opened for reading as well has it true. *)
Definition create (read_too : bool) (path : string) : io File := λ d,
  (<[path := []]> d, Ok {| fpath := path; pos := 0; readable := read_too; writable := true |}).

(** [File::open]: for reading only. *)
Definition open_file (path : string) : io File := λ d,
  (d, match d !! path with
      | Some _ => Ok {| fpath := path; pos := 0; readable := true; writable := false |}
      | None => Err (Io NotFound)
      end).

Definition write_all (bs : list byte) (f : File) : io File := λ d,
  if writable f then
    (<[fpath f := overwrite (contents d (fpath f)) (pos f) bs]> d,
     Ok (at_pos f (pos f + length bs)))
  else (d, Err (Io BadFileDescriptor)).

(** [read] with a buffer of [n] bytes: the bytes read. *)
Definition read (n : nat) (f : File) : io (list byte * File) := λ d,
  (d, if readable f then
        let bs := take n (drop (pos f) (contents d (fpath f))) in
        Ok (bs, at_pos f (pos f + length bs))
      else Err (Io BadFileDescriptor)).

Definition file_read_exact (n : nat) (f : File) : io (list byte * File) := λ d,
  (d, if readable f then
        match read_exact n (drop (pos f) (contents d (fpath f))) with
        | Some (bs, _) => Ok (bs, at_pos f (pos f + n))
        | None => Err (Io UnexpectedEof)
        end
      else Err (Io BadFileDescriptor)).

Definition seek (p : nat) (f : File) : File := at_pos f p.
(** [seek(SeekFrom::Start(p))]: beyond the end of a file is allowed, but not a
    position that does not fit in a signed 64-bit integer, and no file is so
    long that it has such a position. *)
Definition seek_start (p : Z) (f : File) : io File := λ d,
  (d, if (2 ^ 63 <=? p) && (zlen (contents d (fpath f)) <? p) then Err (Io InvalidInput)
      else Ok (seek (Z.to_nat p) f)).

(** ** Format *)

Definition PACKFILE_MAGIC : list byte := String.list_byte_of_string "LANDRO_PACK_V1".
Definition PACKFILE_VERSION : Z := 1.
Definition PACKFILE_HEADER_SIZE : Z := 26.
Definition PACKFILE_ENTRY_SIZE : Z := 44.
Definition PACKFILE_FOOTER_SIZE : Z := 32.

Record PackfileConfig := {
  max_packfile_size : Z;
  pack_threshold : Z;
  min_chunks_per_pack : Z;
}.
Definition PackfileConfig_default : PackfileConfig :=
  {| max_packfile_size := 256 * 1024 * 1024; pack_threshold := 64 * 1024;
     min_chunks_per_pack := 100 |}.

Record PackfileEntry := { hash : ContentHash.t; offset : Z; esize : Z }.
#[export] Instance PackfileEntry_eq_dec : EqDecision PackfileEntry.
Proof. solve_decision. Defined.

Record PackfileStats := { total_packs : Z; total_objects : Z; total_packed_size : Z }.

(** [PackfileIndex]: its operations in memory. *)
Record PackfileIndex := {
  packfile_path : string;
  index_entries : gmap ContentHash.t PackfileEntry;
  index_data_size : Z;
  index_version : Z;
  created_at : Z;
}.
Definition PackfileIndex_new (now : Z) (path : string) : PackfileIndex :=
  {| packfile_path := path; index_entries := ∅; index_data_size := 0;
     index_version := PACKFILE_VERSION; created_at := now |}.
Definition add_entry (self : PackfileIndex) (e : PackfileEntry) : PackfileIndex :=
  {| packfile_path := packfile_path self; index_entries := <[hash e := e]> (index_entries self);
     index_data_size := index_data_size self + esize e; index_version := index_version self;
     created_at := created_at self |}.
Definition is_full (self : PackfileIndex) (max_size : Z) : bool := max_size <=? index_data_size self.
Definition has_min_entries (self : PackfileIndex) (min_entries : Z) : bool :=
  min_entries <=? Z.of_nat (size (index_entries self)).
Definition object_count (self : PackfileIndex) : Z := Z.of_nat (size (index_entries self)).

(** ** Writer *)

Record PackfileWriter := {
  file : File;
  entries : list PackfileEntry;
  data_offset : Z;
  wconfig : PackfileConfig;
  wpath : string;
}.

(** The header with a given entry count. *)
Definition header_bytes (count : Z) : list byte :=
  PACKFILE_MAGIC ++ le_bytes 4 PACKFILE_VERSION ++ le_bytes 8 count.
Definition entry_bytes (e : PackfileEntry) : list byte :=
  hash e ++ le_bytes 8 (offset e) ++ le_bytes 4 (esize e).

Definition writer_new (read_too : bool) (path : string) (config : PackfileConfig) :
    io PackfileWriter :=
  file ← create read_too path;
  file ← write_all PACKFILE_MAGIC file;
  file ← write_all (le_bytes 4 PACKFILE_VERSION) file;
  file ← write_all (le_bytes 8 0) file;
  mret {| file := file; entries := []; data_offset := PACKFILE_HEADER_SIZE;
          wconfig := config; wpath := path |}.

Definition writer_add_chunk (hash : ContentHash.t) (data : list byte) (self : PackfileWriter) :
    io PackfileWriter :=
  if u32_max <? zlen data then lift (Err (InvalidObjectSize u32_max (zlen data)))
  else
    file ← write_all data (file self);
    mret {| file := file;
            entries := entries self ++
              [{| hash := hash; offset := data_offset self; esize := zlen data |}];
            data_offset := data_offset self + zlen data;
            wconfig := wconfig self; wpath := wpath self |}.

Definition writer_chunk_count (self : PackfileWriter) : Z := zlen (entries self).
Definition writer_data_size (self : PackfileWriter) : Z := data_offset self - PACKFILE_HEADER_SIZE.

(** ** Readers *)

Record PackfileReader := {
  file_path : string;
  rentries : gmap ContentHash.t PackfileEntry;
  rstats : PackfileStats;
}.

Section readers.
Context `{Blake3} (checked : bool).

(** One entry of the table. *)
Definition read_entry (f : File) : io (PackfileEntry * File) :=
  '(hash, f) ← file_read_exact 32 f;
  '(offset, f) ← file_read_exact 8 f;
  '(esize, f) ← file_read_exact 4 f;
  mret ({| hash := hash; offset := le_value offset; esize := le_value esize |}, f).

(** [for _ in 0..entry_count]: an iteration consumes 44 bytes or fails, so
    the length of the file bounds the number of iterations. *)
Fixpoint read_entries (fuel : nat) (count : Z) (f : File)
    (entries : gmap ContentHash.t PackfileEntry) (total_size : Z) :
    io (gmap ContentHash.t PackfileEntry * Z * File) :=
  if count <=? 0 then mret (entries, total_size, f)
  else
    match fuel with
    | O => lift (Err (Io UnexpectedEof))
    | S fuel =>
        '(entry, f) ← read_entry f;
        read_entries fuel (count - 1) f (<[hash entry := entry]> entries) (total_size + esize entry)
    end.

(** [file_size - PACKFILE_FOOTER_SIZE - (entry_count * PACKFILE_ENTRY_SIZE)]. *)
Definition table_offset (file_size entry_count : Z) : outcome CasError Z :=
  a ← arith checked 64 (file_size - PACKFILE_FOOTER_SIZE);
  b ← arith checked 64 (entry_count * PACKFILE_ENTRY_SIZE);
  arith checked 64 (a - b).

Definition reader_open (path : string) : io PackfileReader :=
  file ← open_file path;
  '(magic, file) ← file_read_exact (length PACKFILE_MAGIC) file;
  _ ← lift (fail_if (negb (bool_decide (magic = PACKFILE_MAGIC)))
              (InconsistentState "Invalid packfile magic"));
  '(version, file) ← file_read_exact 4 file;
  _ ← lift (fail_if (negb (le_value version =? PACKFILE_VERSION))
              (InconsistentState "Unsupported packfile version"));
  '(count, file) ← file_read_exact 8 file;
  let entry_count := le_value count in
  disk ← get_st;
  let file_size := zlen (contents disk path) in
  entry_table_offset ← lift (table_offset file_size entry_count);
  file ← seek_start entry_table_offset file;
  '(entries, total_size, file) ←
    read_entries (length (contents disk path)) entry_count file ∅ 0;
  '(stored_hash, file) ← file_read_exact 32 file;
  mret {| file_path := path; rentries := entries;
          rstats := {| total_packs := 1; total_objects := Z.of_nat (size entries);
                       total_packed_size := total_size |} |}.

Definition read_chunk (self : PackfileReader) (h : ContentHash.t) : io (list byte) :=
  entry ← lift (ok_or (ObjectNotFound h) (rentries self !! h));
  file ← open_file (file_path self);
  file ← seek_start (offset entry) file;
  '(buffer, file) ← file_read_exact (Z.to_nat (esize entry)) file;
  let actual_hash := blake3 buffer in
  _ ← lift (fail_if (negb (bool_decide (actual_hash = h))) (HashMismatch h actual_hash));
  mret buffer.

Definition contains_chunk (self : PackfileReader) (h : ContentHash.t) : bool :=
  bool_decide (is_Some (rentries self !! h)).
Definition reader_chunk_count (self : PackfileReader) : Z := Z.of_nat (size (rentries self)).
Definition reader_total_size (self : PackfileReader) : Z := total_packed_size (rstats self).
Definition reader_stats (self : PackfileReader) : PackfileStats := rstats self.

(** *** Through a memory map *)

Record MmapPackfileReader := {
  mentries : gmap ContentHash.t PackfileEntry;
  mstats : PackfileStats;
  mmap : list byte;
}.

Fixpoint parse_entries (fuel : nat) (count : Z) (mmap : list byte) (offset : Z)
    (entries : gmap ContentHash.t PackfileEntry) (total_size : Z) :
    outcome CasError (gmap ContentHash.t PackfileEntry * Z) :=
  if count <=? 0 then mret (entries, total_size)
  else
    match fuel with
    | O => Err (InconsistentState "Entry table extends beyond file")
    | S fuel =>
        stop ← arith checked 64 (offset + PACKFILE_ENTRY_SIZE);
        _ ← fail_if (zlen mmap <? stop) (InconsistentState "Entry table extends beyond file");
        hash_bytes ← or_panic (slice mmap offset (offset + 32));
        offset_bytes ← or_panic (slice mmap (offset + 32) (offset + 32 + 8));
        size_bytes ← or_panic (slice mmap (offset + 40) (offset + 40 + 4));
        let entry := {| hash := hash_bytes; offset := le_value offset_bytes;
                        esize := le_value size_bytes |} in
        parse_entries fuel (count - 1) mmap (offset + 44)
          (<[hash_bytes := entry]> entries) (total_size + esize entry)
    end.

Definition mmap_parse (mmap : list byte) : outcome CasError MmapPackfileReader :=
  _ ← fail_if (zlen mmap <? PACKFILE_HEADER_SIZE) (InconsistentState "Packfile too small");
  magic ← or_panic (slice mmap 0 14);
  _ ← fail_if (negb (bool_decide (magic = PACKFILE_MAGIC)))
        (InconsistentState "Invalid packfile magic");
  version_bytes ← or_panic (slice mmap 14 (14 + 4));
  _ ← fail_if (negb (le_value version_bytes =? PACKFILE_VERSION))
        (InconsistentState "Unsupported packfile version");
  count_bytes ← or_panic (slice mmap 18 (18 + 8));
  let entry_count := le_value count_bytes in
  entry_table_offset ← table_offset (zlen mmap) entry_count;
  '(entries, total_size) ← parse_entries (length mmap) entry_count mmap entry_table_offset ∅ 0;
  mret {| mentries := entries;
          mstats := {| total_packs := 1; total_objects := Z.of_nat (size entries);
                       total_packed_size := total_size |};
          mmap := mmap |}.

Definition mmap_open (path : string) : io MmapPackfileReader := λ d,
  (d, match d !! path with
      | Some mmap => mmap_parse mmap
      | None => Err (StoragePath "Failed to open packfile")
      end).

(** [get_chunk_slice] does not verify the hash, [mmap_read_chunk] does. *)
Definition get_chunk_slice (self : MmapPackfileReader) (h : ContentHash.t) :
    outcome CasError (list byte) :=
  entry ← ok_or (ObjectNotFound h) (mentries self !! h);
  let start := offset entry in
  stop ← arith checked 64 (start + esize entry);
  _ ← fail_if (zlen (mmap self) <? stop) (CorruptObject "Chunk data extends beyond packfile");
  or_panic (slice (mmap self) start stop).

Definition mmap_read_chunk (self : MmapPackfileReader) (h : ContentHash.t) :
    outcome CasError (list byte) :=
  data ← get_chunk_slice self h;
  let actual_hash := blake3 data in
  _ ← fail_if (negb (bool_decide (actual_hash = h))) (HashMismatch h actual_hash);
  mret data.

(** *** Finalization of a writer *)

Fixpoint write_entries (es : list PackfileEntry) (f : File) : io File :=
  match es with
  | [] => mret f
  | e :: es =>
      f ← write_all (hash e) f;
      f ← write_all (le_bytes 8 (offset e)) f;
      f ← write_all (le_bytes 4 (esize e)) f;
      write_entries es f
  end.

(** The loop that reads the file in buffers of 8192 bytes until [read] gives
    none: the bytes fed to the hasher. A round consumes at least one byte. *)
Fixpoint read_rest (fuel : nat) (f : File) (acc : list byte) : io (list byte * File) :=
  match fuel with
  | O => mret (acc, f)
  | S fuel =>
      '(bs, f) ← read (Z.to_nat 8192) f;
      if bool_decide (bs = []) then mret (acc, f) else read_rest fuel f (acc ++ bs)
  end.

Definition writer_finalize (self : PackfileWriter) : io PackfileReader :=
  file ← write_entries (entries self) (file self);
  let file := seek 0 file in
  disk ← get_st;
  '(all, file) ← read_rest (S (length (contents disk (wpath self)))) file [];
  file ← write_all (blake3 all) file;
  let file := seek (length PACKFILE_MAGIC + 4) file in
  file ← write_all (le_bytes 8 (zlen (entries self))) file;
  reader_open (wpath self).
End readers.

(** ** Manager *)

Record PackfileManager := {
  config : PackfileConfig;
  current_writer : option PackfileWriter;
  pack_readers : gmap string PackfileReader;
  pending_chunks : list (ContentHash.t * list byte);
}.

Definition set_writer (w : option PackfileWriter) (m : PackfileManager) : PackfileManager :=
  {| config := config m; current_writer := w; pack_readers := pack_readers m;
     pending_chunks := pending_chunks m |}.
Definition set_pending (p : list (ContentHash.t * list byte)) (m : PackfileManager) : PackfileManager :=
  {| config := config m; current_writer := current_writer m; pack_readers := pack_readers m;
     pending_chunks := p |}.
Definition set_reader (name : string) (r : PackfileReader) (m : PackfileManager) : PackfileManager :=
  {| config := config m; current_writer := current_writer m;
     pack_readers := <[name := r]> (pack_readers m); pending_chunks := pending_chunks m |}.

(** [format!("pack-{:016x}", pack_id)] of an [i64]. *)
Definition hex16 (z : Z) : string := RefHash.encode (be_bytes 8 z).

(** The file name of a pack, and the pack name of a file with the extension
    [pack]. *)
Definition pack_file (pack_name : string) : string := pack_name +:+ ".pack".
Fixpoint file_stem_of_pack (s : string) : option string :=
  match s with
  | EmptyString => None
  | String c s' =>
      if decide (s' = ".pack") then Some (String c EmptyString)
      else String c <$> file_stem_of_pack s'
  end.

Section manager.
Context `{Blake3, MapIter} (checked : bool).
(** Whether [PackfileWriter::new] opens the file for reading too. *)
Context (read_too : bool).

(** The manager is threaded with the disk. *)
Abbreviation mio := (st (PackfileManager * Disk) CasError).
Definition on_disk {A} (m : io A) : mio A := λ '(s, d), let '(d, r) := m d in ((s, d), r).
Definition get_mgr : mio PackfileManager := λ s, (s, Ok s.1).
Definition modify_mgr (f : PackfileManager → PackfileManager) : mio unit := λ s, ((f s.1, s.2), Ok tt).

(** [load_existing_packs]: a pack that cannot be opened is skipped. A panic
    while opening is not caught. *)
Fixpoint load_existing_packs (names : list string) (m : PackfileManager) (d : Disk) :
    outcome CasError PackfileManager :=
  match names with
  | [] => Ok m
  | path :: names =>
      match file_stem_of_pack path with
      | None => load_existing_packs names m d
      | Some pack_name =>
          match (reader_open checked path d).2 with
          | Ok reader => load_existing_packs names (set_reader pack_name reader m) d
          | Err _ => load_existing_packs names m d
          | Panic => Panic
          end
      end
  end.

Definition new_with_config (config : PackfileConfig) (d : Disk) : outcome CasError PackfileManager :=
  load_existing_packs (map fst (map_iter d))
    {| config := config; current_writer := None; pack_readers := ∅; pending_chunks := [] |} d.

Definition should_pack (self : PackfileManager) (size : Z) : bool :=
  size <=? pack_threshold (config self).

Definition create_new_pack_writer (now : Z) : mio unit :=
  self ← get_mgr;
  w ← on_disk (writer_new read_too (pack_file ("pack-" +:+ hex16 now)) (config self));
  modify_mgr (set_writer (Some w)).

Definition get_or_create_current_writer (now : Z) : mio PackfileWriter :=
  self ← get_mgr;
  _ ← (match current_writer self with Some _ => mret tt | None => create_new_pack_writer now end);
  self ← get_mgr;
  lift (or_panic (current_writer self)).

(** [min_chunks_per_pack * 10]: a configured number, without overflow. *)
Definition should_finalize_current_pack (self : PackfileManager) : bool :=
  match current_writer self with
  | Some writer =>
      (max_packfile_size (config self) <=? writer_data_size writer)
      || (min_chunks_per_pack (config self) * 10 <=? writer_chunk_count writer)
  | None => false
  end.
Definition should_flush_packfile (self : PackfileManager) : bool :=
  min_chunks_per_pack (config self) <=? zlen (pending_chunks self).

(** [packfile_path.file_stem().unwrap()] of the writer's file. *)
Definition finalize_current_pack : mio unit :=
  self ← get_mgr;
  match current_writer self with
  | None => mret tt
  | Some writer =>
      _ ← modify_mgr (set_writer None);
      pack_name ← lift (or_panic (file_stem_of_pack (wpath writer)));
      reader ← on_disk (writer_finalize checked writer);
      modify_mgr (set_reader pack_name reader)
  end.

Definition store_packed (now : Z) (hash : ContentHash.t) (data : list byte) : mio unit :=
  writer ← get_or_create_current_writer now;
  writer ← on_disk (writer_add_chunk hash data writer);
  _ ← modify_mgr (set_writer (Some writer));
  self ← get_mgr;
  if should_finalize_current_pack self then finalize_current_pack else mret tt.

Fixpoint add_all (chunks : list (ContentHash.t * list byte)) (writer : PackfileWriter) :
    mio PackfileWriter :=
  match chunks with
  | [] => mret writer
  | (hash, data) :: chunks =>
      writer ← on_disk (writer_add_chunk hash data writer);
      _ ← modify_mgr (set_writer (Some writer));
      add_all chunks writer
  end.

Definition flush_packfile (now : Z) : mio unit :=
  self ← get_mgr;
  if bool_decide (pending_chunks self = []) then mret tt
  else
    let chunks_to_flush := pending_chunks self in
    _ ← modify_mgr (set_pending []);
    writer ← get_or_create_current_writer now;
    _ ← add_all chunks_to_flush writer;
    self ← get_mgr;
    if should_finalize_current_pack self then finalize_current_pack else mret tt.

Definition add_chunk (now : Z) (hash : ContentHash.t) (data : list byte) : mio unit :=
  _ ← modify_mgr (λ m, set_pending (pending_chunks m ++ [(hash, data)]) m);
  self ← get_mgr;
  if should_flush_packfile self then flush_packfile now else mret tt.

Definition finalize (now : Z) : mio unit :=
  self ← get_mgr;
  _ ← (if bool_decide (pending_chunks self = []) then mret tt else flush_packfile now);
  self ← get_mgr;
  match current_writer self with Some _ => finalize_current_pack | None => mret tt end.

(** The first pending chunk with the hash, then the first pack, in the order
    of iteration, that lists it. *)
Definition read_packed (h : ContentHash.t) : mio (option (list byte)) :=
  self ← get_mgr;
  match head (filter (λ c, c.1 = h) (pending_chunks self)) with
  | Some (_, data) => mret (Some data)
  | None =>
      match head (filter (λ nr, contains_chunk nr.2 h = true) (map_iter (pack_readers self))) with
      | Some (_, reader) => data ← on_disk (read_chunk reader h); mret (Some data)
      | None => mret None
      end
  end.

Definition stats (self : PackfileManager) : PackfileStats :=
  let readers := map snd (map_iter (pack_readers self)) in
  let objects := zlen (pending_chunks self) + sum_of (λ r, total_objects (rstats r)) readers in
  let packed := sum_of (λ r, total_packed_size (rstats r)) readers in
  match current_writer self with
  | Some w =>
      {| total_packs := zlen readers + (if 0 <? writer_chunk_count w then 1 else 0);
         total_objects := objects + writer_chunk_count w;
         total_packed_size := packed + writer_data_size w |}
  | None => {| total_packs := zlen readers; total_objects := objects; total_packed_size := packed |}
  end.
End manager.

(** ** Files: lemmas *)

Lemma overwrite_end c bs : overwrite c (length c) bs = c ++ bs.
Proof.
  unfold overwrite. rewrite take_ge by lia. rewrite Nat.sub_diag, drop_ge by lia. simpl.
  by rewrite app_nil_r.
Qed.
Lemma overwrite_middle a b b' c : length b' = length b →
  overwrite (a ++ b ++ c) (length a) b' = a ++ b' ++ c.
Proof.
  intros Hb. unfold overwrite. rewrite take_app_length.
  replace (length a - length (a ++ b ++ c))%nat with 0%nat by (rewrite !length_app; lia). simpl.
  do 2 f_equal. rewrite app_assoc, Hb, <-length_app. apply drop_app_length.
Qed.

(** A handle that can write, at a position. *)
Definition handle (path : string) (read_too : bool) (p : nat) : File :=
  {| fpath := path; pos := p; readable := read_too; writable := true |}.

Lemma write_all_end path rt d c bs :
  write_all bs (handle path rt (length c)) (<[path := c]> d) =
    (<[path := c ++ bs]> d, Ok (handle path rt (length (c ++ bs)))).
Proof.
  unfold write_all, contents. simpl. rewrite lookup_insert_eq. simpl.
  by rewrite overwrite_end, insert_insert_eq, length_app.
Qed.

Lemma read_exact_at f d a b c : readable f = true → contents d (fpath f) = a ++ b ++ c →
  pos f = length a →
  file_read_exact (length b) f d = (d, Ok (b, at_pos f (length a + length b))).
Proof.
  intros Hr Hc Hp. unfold file_read_exact. rewrite Hr, Hc, Hp, drop_app_length, read_exact_app by done.
  done.
Qed.

(** ** The file image *)

(** Where the chunks go, starting at an offset. *)
Fixpoint layout (off : Z) (cs : list (ContentHash.t * list byte)) : list PackfileEntry :=
  match cs with
  | [] => []
  | (h, x) :: cs => {| hash := h; offset := off; esize := zlen x |} :: layout (off + zlen x) cs
  end.
Definition data_of (cs : list (ContentHash.t * list byte)) : list byte := concat (map snd cs).
Definition table_of (es : list PackfileEntry) : list byte := concat (map entry_bytes es).

(** The contents of a finished pack, with its footer. *)
Definition pack_image (cs : list (ContentHash.t * list byte)) (footer : list byte) : list byte :=
  header_bytes (zlen cs) ++ data_of cs ++ table_of (layout PACKFILE_HEADER_SIZE cs) ++ footer.

(** The size of that file. *)
Definition pack_size (cs : list (ContentHash.t * list byte)) : Z :=
  PACKFILE_HEADER_SIZE + zlen (data_of cs) + zlen cs * PACKFILE_ENTRY_SIZE + PACKFILE_FOOTER_SIZE.

Definition chunks_wf (cs : list (ContentHash.t * list byte)) : Prop :=
  Forall (λ c, ContentHash.wf c.1 ∧ zlen c.2 ≤ u32_max) cs.

Lemma header_bytes_length n : length (header_bytes n) = 26%nat.
Proof. unfold header_bytes. by rewrite !length_app, !le_bytes_length. Qed.

Lemma layout_length off cs : length (layout off cs) = length cs.
Proof. revert off. induction cs as [|[h x] cs IH]; intros off; simpl; [done|]. by rewrite IH. Qed.

Lemma data_of_cons h x cs : data_of ((h, x) :: cs) = x ++ data_of cs.
Proof. done. Qed.
Lemma data_of_app cs cs' : data_of (cs ++ cs') = data_of cs ++ data_of cs'.
Proof. unfold data_of. by rewrite map_app, concat_app. Qed.
Lemma layout_app off cs cs' :
  layout off (cs ++ cs') = layout off cs ++ layout (off + zlen (data_of cs)) cs'.
Proof.
  revert off. induction cs as [|[h x] cs IH]; intros off; simpl.
  { by rewrite Z.add_0_r. }
  rewrite IH, data_of_cons, zlen_app. do 3 f_equal. lia.
Qed.

(** An entry with the widths of the format. *)
Definition entry_wf (e : PackfileEntry) : Prop :=
  ContentHash.wf (hash e) ∧ 0 ≤ offset e < 2 ^ 64 ∧ 0 ≤ esize e < 2 ^ 32.

Lemma layout_wf off cs : chunks_wf cs → 0 ≤ off → off + zlen (data_of cs) < 2 ^ 64 →
  Forall entry_wf (layout off cs).
Proof.
  intros Hcs. revert off. induction Hcs as [|[h x] cs [Hh Hx] Hcs IH]; intros off Hoff Hlt; simpl.
  { constructor. }
  rewrite data_of_cons, zlen_app in Hlt. pose proof (zlen_nonneg x). pose proof (zlen_nonneg (data_of cs)).
  simpl in *. constructor; [|apply IH; lia]. split_and!; simpl; try done; lia.
Qed.

Lemma entry_bytes_length e : ContentHash.wf (hash e) → length (entry_bytes e) = 44%nat.
Proof. intros Hh. unfold entry_bytes. rewrite !length_app, !le_bytes_length, Hh. done. Qed.

Lemma table_length es : Forall entry_wf es → length (table_of es) = (44 * length es)%nat.
Proof.
  induction 1 as [|e es [He _] Hes IH]; [done|]. unfold table_of in *. simpl.
  rewrite length_app, IH, entry_bytes_length by done. lia.
Qed.

(** ** Opening a file *)

(** An entry decoded from 44 bytes, and the table of [n] entries at a position. *)
Definition decode_entry (bs : list byte) : PackfileEntry :=
  {| hash := take 32 bs; offset := le_value (take 8 (drop 32 bs));
     esize := le_value (take 4 (drop 40 bs)) |}.
Fixpoint table_at (c : list byte) (p n : nat) : list PackfileEntry :=
  match n with
  | O => []
  | S n => decode_entry (drop p c) :: table_at c (p + 44) n
  end.
Definition insert_all (m : gmap ContentHash.t PackfileEntry) (es : list PackfileEntry) :=
  foldl (λ m e, <[hash e := e]> m) m es.

(** The number of entries that a file with valid contents holds. *)
Definition entry_count (c : list byte) : Z := le_value (take 8 (drop 18 c)).

(** What opening a file gives: the entry count; an error for a file that is too
    short, has another magic or another version; a panic when the table does
    not fit in the file. *)
Definition classify (c : list byte) : outcome unit Z :=
  if zlen c <? 26 then Err tt
  else if negb (bool_decide (take 14 c = PACKFILE_MAGIC)) then Err tt
  else if negb (le_value (take 4 (drop 14 c)) =? PACKFILE_VERSION) then Err tt
  else if zlen c <? 32 + 44 * entry_count c then Panic
  else Ok (entry_count c).

Lemma classify_spec c :
  let valid := 26 ≤ zlen c ∧ take 14 c = PACKFILE_MAGIC ∧ le_value (take 4 (drop 14 c)) = PACKFILE_VERSION in
  match classify c with
  | Ok n => n = entry_count c ∧ 32 + 44 * entry_count c ≤ zlen c
  | Err _ => ¬ valid
  | Panic => zlen c < 32 + 44 * entry_count c ∧ valid
  end.
Proof.
  unfold classify. destruct (Z.ltb_spec (zlen c) 26); [intros (? & _); lia|].
  case_bool_decide; cbn [negb]; [|by intros (_ & ? & _)].
  destruct (Z.eqb_spec (le_value (take 4 (drop 14 c))) PACKFILE_VERSION); cbn [negb]; [|by intros (_ & _ & ?)].
  destruct (Z.ltb_spec (zlen c) (32 + 44 * entry_count c)); by split_and!.
Qed.

Definition entries_of (c : list byte) (n : Z) : list PackfileEntry :=
  table_at c (length c - 32 - 44 * Z.to_nat n) (Z.to_nat n).
Definition index_of (c : list byte) (n : Z) : gmap ContentHash.t PackfileEntry :=
  insert_all ∅ (entries_of c n).
Definition stats_of (c : list byte) (n : Z) : PackfileStats :=
  {| total_packs := 1; total_objects := Z.of_nat (size (index_of c n));
     total_packed_size := sum_of esize (entries_of c n) |}.

Lemma file_read_exact_eq f d c n : readable f = true → contents d (fpath f) = c → (0 < n)%nat →
  file_read_exact n f d =
    (d, if decide (pos f + n ≤ length c)%nat then Ok (take n (drop (pos f) c), at_pos f (pos f + n))
        else Err (Io UnexpectedEof)).
Proof.
  intros Hr Hc Hn. unfold file_read_exact. rewrite Hr, Hc. f_equal. unfold read_exact.
  rewrite length_drop. repeat case_decide; try done; lia.
Qed.

Lemma file_read_exact_in f d c n : readable f = true → contents d (fpath f) = c → (0 < n)%nat →
  (pos f + n ≤ length c)%nat →
  file_read_exact n f d = (d, Ok (take n (drop (pos f) c), at_pos f (pos f + n))).
Proof. intros. erewrite file_read_exact_eq by done. by rewrite decide_True. Qed.

Lemma read_entry_in f d c : readable f = true → contents d (fpath f) = c →
  (pos f + 44 ≤ length c)%nat →
  read_entry f d = (d, Ok (decode_entry (drop (pos f) c), at_pos f (pos f + 44))).
Proof.
  intros Hr Hc Hp. unfold read_entry.
  rewrite (st_bind_eq _ _ _ _ _ (file_read_exact_in f d c 32 Hr Hc ltac:(lia) ltac:(lia))). simpl.
  rewrite (st_bind_eq _ _ _ _ _ (file_read_exact_in (at_pos f (pos f + 32)) d c 8 Hr Hc
    ltac:(lia) ltac:(simpl; lia))). simpl.
  rewrite (st_bind_eq _ _ _ _ _ (file_read_exact_in (at_pos f (pos f + 32 + 8)) d c 4 Hr Hc
    ltac:(lia) ltac:(simpl; lia))). simpl.
  unfold mret, st_ret, decode_entry, at_pos. simpl. rewrite !drop_drop, <-!Nat.add_assoc. done.
Qed.

Lemma read_entries_in n fuel f d c m t : readable f = true → contents d (fpath f) = c →
  (pos f + 44 * n ≤ length c)%nat → (n ≤ fuel)%nat →
  read_entries fuel (Z.of_nat n) f m t d =
    (d, Ok (insert_all m (table_at c (pos f) n), t + sum_of esize (table_at c (pos f) n),
            at_pos f (pos f + 44 * n))).
Proof.
  revert fuel f m t. induction n as [|n IH]; intros fuel f m t Hr Hc Hp Hfuel.
  { destruct fuel; simpl; unfold mret, st_ret, sum_of; simpl;
      rewrite Z.add_0_r, Nat.add_0_r; by destruct f. }
  destruct fuel as [|fuel]; [lia|]. cbn [read_entries].
  rewrite (proj2 (Z.leb_gt _ _)) by lia.
  rewrite (st_bind_eq _ _ _ _ _ (read_entry_in f d c Hr Hc ltac:(lia))).
  replace (Z.of_nat (S n) - 1) with (Z.of_nat n) by lia. cbv beta iota.
  rewrite IH by (try done; simpl; lia). cbn [at_pos pos fpath readable writable table_at].
  unfold insert_all, sum_of. cbn [foldl map foldr]. do 3 f_equal; [f_equal; lia|].
  unfold at_pos; simpl. f_equal. lia.
Qed.

Lemma slice_in {A} (l : list A) a b : 0 ≤ a ≤ b → b ≤ zlen l →
  slice l a b = Some (take (Z.to_nat (b - a)) (drop (Z.to_nat a) l)).
Proof. intros. unfold slice. by rewrite decide_True. Qed.

Lemma parse_entries_in checked n fuel c p m t : zlen c < 2 ^ 64 →
  (p + 44 * n ≤ length c)%nat → (n ≤ fuel)%nat →
  parse_entries checked fuel (Z.of_nat n) c (Z.of_nat p) m t =
    Ok (insert_all m (table_at c p n), t + sum_of esize (table_at c p n)).
Proof.
  intros Hlen. revert fuel p m t. induction n as [|n IH]; intros fuel p m t Hp Hfuel.
  { destruct fuel; simpl; unfold mret, outcome_ret, sum_of; simpl; by rewrite Z.add_0_r. }
  destruct fuel as [|fuel]; [lia|]. cbn [parse_entries].
  rewrite (proj2 (Z.leb_gt _ _)) by lia. unfold PACKFILE_ENTRY_SIZE.
  unfold zlen in Hlen. rewrite arith_exact by lia. cbn [mbind outcome_bind].
  rewrite (proj2 (Z.ltb_ge _ _)) by (unfold zlen; lia). cbn [fail_if].
  rewrite !slice_in by (unfold zlen; lia). cbn [or_panic mbind outcome_bind].
  replace (Z.of_nat (S n) - 1) with (Z.of_nat n) by lia.
  replace (Z.of_nat p + 44) with (Z.of_nat (p + 44)) by lia.
  rewrite IH by (try done; lia). cbn [table_at]. unfold insert_all, sum_of. cbn [foldl map foldr esize].
  unfold decode_entry. cbn [hash esize]. rewrite !drop_drop.
  replace (Z.to_nat (Z.of_nat p + 32 - Z.of_nat p)) with 32%nat by lia.
  replace (Z.to_nat (Z.of_nat p + 32 + 8 - (Z.of_nat p + 32))) with 8%nat by lia.
  replace (Z.to_nat (Z.of_nat p + 40 + 4 - (Z.of_nat p + 40))) with 4%nat by lia.
  replace (Z.to_nat (Z.of_nat p)) with p by lia.
  replace (Z.to_nat (Z.of_nat p + 32)) with (p + 32)%nat by lia.
  replace (Z.to_nat (Z.of_nat p + 40)) with (p + 40)%nat by lia.
  do 2 f_equal. lia.
Qed.

Lemma table_offset_eq size n : 0 ≤ size < 2 ^ 64 → 0 ≤ n →
  table_offset true size n = if size <? 32 + 44 * n then Panic else Ok (size - 32 - 44 * n).
Proof.
  intros Hs Hn. unfold table_offset, PACKFILE_FOOTER_SIZE, PACKFILE_ENTRY_SIZE, arith.
  destruct (Z.ltb_spec size (32 + 44 * n)) as [Hlt|Hge].
  - destruct (decide (0 ≤ size - 32 < 2 ^ 64)); [|done]. cbn [mbind outcome_bind].
    destruct (decide (0 ≤ n * 44 < 2 ^ 64)); [|done]. cbn [mbind outcome_bind].
    by rewrite decide_False by lia.
  - rewrite decide_True by lia. cbn [mbind outcome_bind]. rewrite decide_True by lia.
    cbn [mbind outcome_bind]. rewrite decide_True by lia. f_equal. lia.
Qed.

Lemma table_offset_wraps size n :
  table_offset false size n = Ok (wrap 64 (size - 32 - 44 * n)).
Proof.
  unfold table_offset, PACKFILE_FOOTER_SIZE, PACKFILE_ENTRY_SIZE.
  repeat (rewrite arith_unchecked; cbn [mbind outcome_bind]).
  f_equal. unfold wrap. rewrite <-Zminus_mod. f_equal. lia.
Qed.
(** The same wherever the table fits, in every build. *)
Lemma table_offset_fits checked size n : size < 2 ^ 64 → 0 ≤ n → 32 + 44 * n ≤ size →
  table_offset checked size n = Ok (size - 32 - 44 * n).
Proof.
  intros Hs Hn Hfit. destruct checked.
  - rewrite table_offset_eq by lia. by rewrite (proj2 (Z.ltb_ge _ _)).
  - rewrite table_offset_wraps, wrap_small by lia. done.
Qed.
(** A table that does not fit: its offset wraps around to a place from where
    its entries and the footer reach beyond the end. *)
Lemma table_offset_beyond size n : size - 32 - 44 * n < 0 →
  size + 2 ^ 64 ≤ wrap 64 (size - 32 - 44 * n) + 44 * n + 32.
Proof.
  intros Hneg. unfold wrap. set (x := size - 32 - 44 * n) in *.
  pose proof (Z.mod_pos_bound x (2 ^ 64) ltac:(done)) as Hb.
  pose proof (Z.div_mod x (2 ^ 64) ltac:(done)) as Hd. unfold x in *. lia.
Qed.

(** Reading a table through the file: no panic, and success only inside the file. *)
Lemma read_entries_bound fuel n f d m t : readable f = true →
  match read_entries fuel n f m t d with
  | (d', Ok (_, f')) => d' = d ∧ readable f' = true ∧ fpath f' = fpath f ∧
      Z.of_nat (pos f') = Z.of_nat (pos f) + 44 * Z.max 0 n
  | (d', Err _) => d' = d
  | (_, Panic) => False
  end.
Proof.
  revert n f m t. induction fuel as [|fuel IH]; intros n f m t Hr; cbn [read_entries].
  { destruct (Z.leb_spec n 0); [|done]. unfold mret, st_ret. split_and!; try done. lia. }
  destruct (Z.leb_spec n 0); [unfold mret, st_ret; split_and!; try done; lia|].
  unfold mbind at 1, st_bind at 1. unfold read_entry. unfold mbind, st_bind.
  rewrite (file_read_exact_eq f d _ 32 Hr eq_refl) by lia. case_decide; [|done]. cbv beta iota.
  rewrite (file_read_exact_eq (at_pos f _) d _ 8 Hr eq_refl) by lia. case_decide; [|done]. cbv beta iota.
  rewrite (file_read_exact_eq (at_pos (at_pos f _) _) d _ 4 Hr eq_refl) by lia. case_decide; [|done]. cbv beta iota.
  unfold mret, st_ret. cbn [pos at_pos].
  match goal with |- context [read_entries _ _ ?g ?m' ?t' d] =>
    specialize (IH (n - 1) g m' t' Hr); destruct (read_entries fuel (n - 1) g m' t' d) as [d' [[x f']|e|]]
  end; [|done..].
  destruct IH as (-> & Hf & Hp & Hpos). cbn [pos at_pos fpath] in *. split_and!; try done. lia.
Qed.
(** And through the map. *)
Lemma parse_entries_bound checked fuel n c p m t x : 0 ≤ p →
  parse_entries checked fuel n c p m t = Ok x → n ≤ 0 ∨ p + 44 * n ≤ zlen c.
Proof.
  revert n p m t. induction fuel as [|fuel IH]; intros n p m t Hp; cbn [parse_entries].
  { destruct (Z.leb_spec n 0); [by left|done]. }
  destruct (Z.leb_spec n 0); [by left|]. intros Hok. inv_ok. right.
  apply IH in Hok; [|lia].
  match goal with Hs : slice c (p + 40) (p + 40 + 4) = Some _ |- _ =>
    unfold slice in Hs; case_decide; [lia|done] end.
Qed.

Lemma entry_count_range c : 0 ≤ entry_count c < 2 ^ 64.
Proof.
  unfold entry_count. pose proof (le_value_range (take 8 (drop 18 c))) as H1.
  pose proof (zlen_take 8 (drop 18 c)).
  split; [apply H1|]. eapply Z.lt_le_trans; [apply H1|]. apply Z.pow_le_mono_r; lia.
Qed.

Lemma seek_start_in p f d c : contents d (fpath f) = c → p ≤ zlen c →
  seek_start p f d = (d, Ok (seek (Z.to_nat p) f)).
Proof.
  intros <- Hp. unfold seek_start. by rewrite (proj2 (Z.ltb_ge _ _)), andb_false_r.
Qed.

(** Without overflow checks the error of a table that does not fit comes from
    seeking or reading beyond the end. *)
Lemma reader_open_spec `{Blake3} checked path d c : d !! path = Some c → zlen c < 2 ^ 64 →
  match classify c with
  | Ok n => reader_open checked path d =
      (d, Ok {| file_path := path; rentries := index_of c n; rstats := stats_of c n |})
  | Err _ => ∃ e, reader_open checked path d = (d, Err e)
  | Panic => if checked then reader_open checked path d = (d, Panic)
      else ∃ e, reader_open checked path d = (d, Err e)
  end.
Proof.
  intros Hd Hlen. set (f0 := {| fpath := path; pos := 0; readable := true; writable := false |}).
  assert (contents d path = c) as Hc by (unfold contents; by rewrite Hd).
  assert (open_file path d = (d, Ok f0)) as Ho by (unfold open_file; by rewrite Hd).
  unfold reader_open. rewrite (st_bind_eq _ _ _ _ _ Ho). clear Ho. unfold classify.
  assert (∀ n p, (0 < n)%nat → file_read_exact n (at_pos f0 p) d =
    (d, if decide (p + n ≤ length c)%nat then Ok (take n (drop p c), at_pos f0 (p + n))
        else Err (Io UnexpectedEof))) as Hread.
  { intros n p Hn. by apply (file_read_exact_eq (at_pos f0 p)). }
  change f0 with (at_pos f0 0). unfold mbind, st_bind, lift, get_st.
  unfold zlen in *.
  rewrite Hread by (simpl; lia). change (length PACKFILE_MAGIC) with 14%nat.
  destruct (Z.ltb_spec (Z.of_nat (length c)) 26) as [Hshort|Hlong].
  { case_decide; [|eauto]. rewrite drop_0. case_bool_decide; cbn [negb fail_if]; [|eauto].
    rewrite Hread by lia. case_decide; [|eauto]. cbv beta iota.
    destruct (le_value _ =? _); cbn [negb fail_if]; [|eauto].
    rewrite Hread by lia. rewrite decide_False by lia. eauto. }
  rewrite decide_True by lia. rewrite drop_0. case_bool_decide; cbn [negb fail_if]; [|eauto].
  rewrite Hread by lia. rewrite decide_True by lia. cbv beta iota.
  destruct (le_value _ =? _); cbn [negb fail_if]; [|eauto].
  rewrite Hread by lia. rewrite decide_True by lia. cbv beta iota. rewrite Hc.
  change (0 + 14 + 4)%nat with 18%nat. change (le_value (take 8 (drop 18 c))) with (entry_count c).
  pose proof (entry_count_range c) as Hcount. unfold zlen.
  case_if as Hfit.
  { apply Z.ltb_lt in Hfit. destruct checked; [rewrite table_offset_eq by lia; by rewrite (proj2 (Z.ltb_lt _ _))|].
    rewrite table_offset_wraps. set (o := wrap _ _).
    assert (Z.of_nat (length c) + 2 ^ 64 ≤ o + 44 * entry_count c + 32) as Hbeyond by (apply table_offset_beyond; lia).
    assert (0 ≤ o) as Ho by (apply wrap_range; lia).
    unfold seek_start. case_if; [eauto|]. unfold seek.
    pose proof (read_entries_bound (length c) (entry_count c)
      (at_pos (at_pos f0 (0 + 14 + 4 + 8)) (Z.to_nat o)) d ∅ 0 eq_refl) as Hb.
    cbn [at_pos pos fpath readable writable f0] in Hb |- *.
    destruct (read_entries _ _ _ _ _ _) as [d' [[[m t] f']|e|]]; [|subst; eauto|done].
    destruct Hb as (-> & Hr & Hp & Hpos).
    rewrite (file_read_exact_eq f' d c 32) by (first [done|lia|by rewrite Hp]).
    rewrite decide_False by lia. eauto. }
  apply Z.ltb_ge in Hfit. rewrite table_offset_fits by lia.
  destruct (Z_of_nat_complete (entry_count c)) as [n Hn]; [lia|]. rewrite Hn in *.
  rewrite (seek_start_in _ _ _ c) by (try done; unfold zlen; lia).
  unfold seek. rewrite (read_entries_in n _ _ _ c) by (try done; simpl; lia).
  cbv beta iota. cbn [pos at_pos].
  repeat change (at_pos (at_pos ?f ?a) ?b) with (at_pos f b). rewrite Hread by lia. rewrite decide_True by lia. unfold mret, st_ret.
  unfold stats_of, index_of, entries_of. rewrite Nat2Z.id.
  by replace (Z.to_nat (Z.of_nat (length c) - 32 - 44 * Z.of_nat n)) with (length c - 32 - 44 * n)%nat by lia.
Qed.

Lemma mmap_parse_spec checked c : zlen c < 2 ^ 64 →
  match classify c with
  | Ok n => mmap_parse checked c = Ok {| mentries := index_of c n; mstats := stats_of c n; mmap := c |}
  | Err _ => ∃ e, mmap_parse checked c = Err e
  | Panic => if checked then mmap_parse checked c = Panic
      else if decide (entry_count c = 0) then mmap_parse checked c =
          Ok {| mentries := ∅; mstats := {| total_packs := 1; total_objects := 0; total_packed_size := 0 |};
                mmap := c |}
      else ∀ m, mmap_parse checked c ≠ Ok m
  end.
Proof.
  intros Hlen. unfold mmap_parse, classify, PACKFILE_HEADER_SIZE.
  destruct (Z.ltb_spec (zlen c) 26) as [Hshort|Hlong]; [eexists; done|]. cbn [fail_if mbind outcome_bind].
  rewrite !slice_in by lia. cbn [or_panic mbind outcome_bind].
  change (take (Z.to_nat (14 - 0)) (drop (Z.to_nat 0) c)) with (take 14 c).
  change (Z.to_nat (14 + 4 - 14)) with 4%nat. change (Z.to_nat 14) with 14%nat.
  change (Z.to_nat (18 + 8 - 18)) with 8%nat. change (Z.to_nat 18) with 18%nat.
  case_bool_decide; cbn [negb fail_if mbind outcome_bind]; [|eauto].
  destruct (le_value (take 4 _) =? _); cbn [negb fail_if mbind outcome_bind]; [|eauto].
  change (le_value (take 8 (drop 18 c))) with (entry_count c).
  pose proof (entry_count_range c) as Hcount.
  case_if as Hfit.
  { apply Z.ltb_lt in Hfit. destruct checked; [rewrite table_offset_eq by lia; by rewrite (proj2 (Z.ltb_lt _ _))|].
    rewrite table_offset_wraps. set (o := wrap _ _).
    assert (zlen c + 2 ^ 64 ≤ o + 44 * entry_count c + 32) as Hbeyond by (apply table_offset_beyond; lia).
    assert (0 ≤ o) as Ho by (apply wrap_range; lia). cbn [mbind outcome_bind].
    case_decide as H0; [rewrite H0; by destruct c|].
    intros m Hm. apply bind_Ok in Hm as ([E t] & Hp & _).
    apply parse_entries_bound in Hp as [|Hp]; lia. }
  apply Z.ltb_ge in Hfit. rewrite table_offset_fits by lia. cbn [mbind outcome_bind].
  destruct (Z_of_nat_complete (entry_count c)) as [n Hn]; [lia|]. rewrite Hn in *. unfold zlen in *.
  replace (Z.of_nat (length c) - 32 - 44 * Z.of_nat n)
    with (Z.of_nat (length c - 32 - 44 * n)) by lia.
  rewrite (parse_entries_in checked n) by (unfold zlen; lia).
  unfold stats_of, index_of, entries_of. by rewrite Nat2Z.id.
Qed.

Lemma insert_all_lookup m es h e :
  insert_all m es !! h = Some e → e ∈ es ∧ hash e = h ∨ m !! h = Some e.
Proof.
  revert m. induction es as [|e' es IH]; intros m; simpl; [by right|].
  intros [[Hin Hh]|Hm]%IH; [left; split; [by right|done]|].
  destruct (decide (hash e' = h)) as [<-|Hne].
  - rewrite lookup_insert_eq in Hm. injection Hm as <-. left. split; [left|done].
  - rewrite lookup_insert_ne in Hm by done. by right.
Qed.

Lemma table_at_range c p n e : e ∈ table_at c p n →
  0 ≤ offset e < 2 ^ 64 ∧ 0 ≤ esize e < 2 ^ 32.
Proof.
  revert p. induction n as [|n IH]; intros p; simpl; [by intros ?%elem_of_nil|].
  intros [->|Hin]%elem_of_cons; [|by eapply IH].
  assert (∀ k l, 0 ≤ le_value (take k l) < 2 ^ (8 * Z.of_nat k)) as Hr.
  { intros k l. pose proof (le_value_range (take k l)) as [? Hl]. split; [done|].
    eapply Z.lt_le_trans; [exact Hl|]. pose proof (zlen_take k l). apply Z.pow_le_mono_r; lia. }
  unfold decode_entry. cbn [offset esize]. split; [apply (Hr 8%nat)|apply (Hr 4%nat)].
Qed.

(** What a chunk read through the file or through the map is, if anything. *)
Definition chunk_at `{Blake3} (c : list byte) (h : ContentHash.t) (e : PackfileEntry) (x : list byte) : Prop :=
  offset e + esize e ≤ zlen c ∧ x = take (Z.to_nat (esize e)) (drop (Z.to_nat (offset e)) c) ∧ blake3 x = h.

(** Reading [esize] bytes at the offset of an entry through the file, and
    slicing the map there. *)
Lemma read_chunk_Ok `{Blake3} path d c E s h e x : d !! path = Some c →
  E !! h = Some e → 0 ≤ offset e → 0 ≤ esize e →
  read_chunk {| file_path := path; rentries := E; rstats := s |} h d = (d, Ok x) ↔
    chunk_at c h e x ∨
    (esize e = 0 ∧ zlen c < offset e < 2 ^ 63 ∧ x = [] ∧ blake3 x = h).
Proof.
  intros Hd HE Ho Hs. unfold read_chunk, mbind, st_bind, lift, chunk_at. cbn [rentries file_path]. rewrite HE.
  cbn [ok_or]. unfold open_file. rewrite Hd. cbv beta iota.
  set (f := {| fpath := path; pos := 0; readable := true; writable := false |}).
  assert (contents d (fpath f) = c) as Hc by (unfold contents; simpl; by rewrite Hd).
  unfold seek_start. rewrite Hc.
  destruct (Z.leb_spec (2 ^ 63) (offset e)), (Z.ltb_spec (zlen c) (offset e)); cbn [andb].
  { split; [done|]. intros [(Hin & _)|(_ & ? & _)]; lia. }
  all: unfold seek, file_read_exact; cbn [at_pos fpath pos readable f]; fold f; cbn [fpath f] in Hc; rewrite Hc;
    unfold read_exact; rewrite length_drop; unfold zlen in *.
  all: case_decide as Hfit.
  all: try (split; [done|]; intros [(Hin & _)|(Hz & ? & _)]; lia).
  all: unfold mret, st_ret; case_bool_decide as Hb; cbn [negb fail_if].
  all: split; [intros [= <-]|intros [(_ & -> & Hx)|(Hz & _ & -> & Hx)]]; try done.
  all: try (left; split_and!; [lia|done|done]).
  all: rewrite ?Hz; try done.
  all: assert (Z.to_nat (esize e) = 0%nat) as E0 by lia; rewrite E0, take_0 in *.
  all: try done.
  right. split_and!; [lia|lia|lia|done|done].
Qed.

Lemma mmap_read_chunk_Ok `{Blake3} checked c E s h e x :
  E !! h = Some e → 0 ≤ offset e < 2 ^ 64 → 0 ≤ esize e < 2 ^ 64 → zlen c < 2 ^ 64 →
  mmap_read_chunk checked {| mentries := E; mstats := s; mmap := c |} h = Ok x ↔ chunk_at c h e x.
Proof.
  intros HE Ho Hs Hlen. unfold mmap_read_chunk, get_chunk_slice, chunk_at. cbn [mentries mmap]. rewrite HE.
  cbn [ok_or mbind outcome_bind]. destruct (Z.le_gt_cases (offset e + esize e) (zlen c)) as [Hin|Hout].
  - rewrite arith_exact by lia. cbn [mbind outcome_bind].
    rewrite (proj2 (Z.ltb_ge _ _)) by lia. cbn [fail_if mbind outcome_bind]. rewrite slice_in by lia.
    cbn [or_panic mbind outcome_bind]. replace (offset e + esize e - offset e) with (esize e) by lia.
    case_bool_decide as Hb; cbn [negb fail_if mbind outcome_bind]; unfold mret, outcome_ret; split.
    + by intros [= <-].
    + by intros (_ & -> & _).
    + done.
    + by intros (_ & -> & ?).
  - split; [|lia]. intros Hok. exfalso.
    apply bind_Ok in Hok as (y & Hy & _). apply bind_Ok in Hy as (stop & Hstop & Hy).
    apply bind_Ok in Hy as ([] & Hf & Hy). apply fail_if_Ok, Z.ltb_ge in Hf.
    apply or_panic_Ok in Hy. unfold slice in Hy. case_decide as Hr; [|done].
    apply arith_Ok in Hstop. subst stop. unfold wrap in *.
    destruct (Z.lt_ge_cases (offset e + esize e) (2 ^ 64)).
    + rewrite Z.mod_small in Hr by lia. lia.
    + pose proof (Z.mod_small (offset e + esize e - 2 ^ 64) (2 ^ 64) ltac:(lia)) as Hm.
      rewrite <-(Z.mod_add _ (-1)) in Hr by done.
      replace (offset e + esize e + -1 * 2 ^ 64) with (offset e + esize e - 2 ^ 64) in Hr by lia. lia.
Qed.

(** C30: The file reader and the memory map of a pack of any contents, in
    builds with overflow checks and without.

    When both open, they have the same entries and the same statistics, and a
    chunk is read through the map if and only if it is read through the file,
    with the same data, except that the file reader also reads an entry of
    size 0 that lies beyond the end of the file (if its hash is that of no
    bytes). A header that either refuses, the other refuses. They differ only
    when the header is fine but the file is too short for the table and footer:
    with overflow checks both panic; without, the file reader fails, and the map
    opens as an empty pack if the header counts no chunks, and otherwise fails or
    panics. *)
Theorem readers_agree `{Blake3} checked path d c : d !! path = Some c → zlen c < 2 ^ 64 →
  let valid := 26 ≤ zlen c ∧ take 14 c = PACKFILE_MAGIC ∧
    le_value (take 4 (drop 14 c)) = PACKFILE_VERSION in
  let truncated := valid ∧ zlen c < 32 + 44 * entry_count c in
  match reader_open checked path d, mmap_open checked path d with
  | (d1, Ok r), (d2, Ok m) =>
      ¬ truncated ∧ d1 = d ∧ d2 = d ∧ mentries m = rentries r ∧ mstats m = rstats r ∧
      ∀ h x, read_chunk r h d = (d, Ok x) ↔
        mmap_read_chunk checked m h = Ok x ∨
        (x = [] ∧ blake3 [] = h ∧ ∃ e, rentries r !! h = Some e ∧ esize e = 0 ∧ zlen c < offset e < 2 ^ 63)
  | (_, Err _), (_, Err _) => checked = true → ¬ valid
  | (_, Panic), (_, Panic) => checked = true ∧ truncated
  | (_, Err _), (_, Ok m) => checked = false ∧ truncated ∧ entry_count c = 0 ∧ mentries m = ∅
  | (_, Err _), (_, Panic) => checked = false ∧ truncated ∧ entry_count c ≠ 0
  | _, _ => False
  end.
Proof.
  intros Hd Hlen. pose proof (reader_open_spec checked path d c Hd Hlen) as Hr.
  pose proof (mmap_parse_spec checked c Hlen) as Hm. unfold mmap_open. rewrite Hd.
  pose proof (classify_spec c) as Hc.
  destruct (classify c) as [n|[]|].
  - destruct Hc as [-> Hfit]. rewrite Hr, Hm. split_and!; try done; [intros [_ ?]; lia|]. cbn [rentries]. intros h x.
    destruct (index_of c (entry_count c) !! h) as [e|] eqn:HE; cycle 1.
    { unfold read_chunk, mmap_read_chunk, get_chunk_slice, mbind, st_bind, lift. cbn [rentries mentries].
      rewrite HE. split; [done|]. by intros [?|(_ & _ & ? & ? & _)]. }
    destruct (insert_all_lookup ∅ _ h e HE) as [[[Ho Hs]%table_at_range _]|?]; [|done].
    rewrite (read_chunk_Ok path d c _ _ h e) by (done || lia).
    rewrite (mmap_read_chunk_Ok checked c _ _ h e) by (done || lia).
    apply or_iff_compat_l. split.
    + intros (? & ? & -> & ?). split_and!; [done|done|]. by exists e.
    + intros (-> & ? & e' & [= <-] & ? & ?). tauto.
  - destruct Hr as [? ->], Hm as [? ->]. by intros _.
  - destruct Hc as [Hfit Hok]. destruct checked; [rewrite Hr, Hm; by split|].
    destruct Hr as [? ->]. case_decide as H0; [by rewrite Hm|].
    destruct (mmap_parse false c) as [m|e|]; [by destruct (Hm m)|done|done].
Qed.

(** ** The writer *)

(** A pack being written: the header with a count of zero, and the chunks. *)
Definition body (cs : list (ContentHash.t * list byte)) : list byte := header_bytes 0 ++ data_of cs.
Definition writer_of (rt : bool) (path : string) (cfg : PackfileConfig)
    (cs : list (ContentHash.t * list byte)) : PackfileWriter :=
  {| file := handle path rt (length (body cs)); entries := layout PACKFILE_HEADER_SIZE cs;
     data_offset := PACKFILE_HEADER_SIZE + zlen (data_of cs); wconfig := cfg; wpath := path |}.

(** A client that adds some chunks in order. *)
Fixpoint add_chunks (cs : list (ContentHash.t * list byte)) (w : PackfileWriter) : io PackfileWriter :=
  match cs with
  | [] => mret w
  | (h, x) :: cs => w ← writer_add_chunk h x w; add_chunks cs w
  end.

Lemma body_snoc cs h x : body (cs ++ [(h, x)]) = body cs ++ x.
Proof. unfold body. rewrite data_of_app, <-app_assoc. unfold data_of at 2. simpl. by rewrite app_nil_r. Qed.

Lemma writer_new_eq rt path cfg d :
  writer_new rt path cfg d = (<[path := body []]> d, Ok (writer_of rt path cfg [])).
Proof.
  unfold writer_new. rewrite (st_bind_eq _ _ d (<[path := []]> d) (handle path rt (length (@nil byte)))) by done.
  rewrite (st_bind_eq _ _ _ _ _ (write_all_end _ _ _ _ _)).
  rewrite (st_bind_eq _ _ _ _ _ (write_all_end _ _ _ _ _)).
  rewrite (st_bind_eq _ _ _ _ _ (write_all_end _ _ _ _ _)).
  rewrite app_nil_l, <-app_assoc. change (PACKFILE_MAGIC ++ _ ++ _) with (header_bytes 0).
  unfold mret, st_ret, writer_of, body. by rewrite app_nil_r.
Qed.

Lemma writer_add_eq rt path cfg cs h x d : zlen x ≤ u32_max →
  writer_add_chunk h x (writer_of rt path cfg cs) (<[path := body cs]> d) =
    (<[path := body (cs ++ [(h, x)])]> d, Ok (writer_of rt path cfg (cs ++ [(h, x)]))).
Proof.
  intros Hx. unfold writer_add_chunk. rewrite (proj2 (Z.ltb_ge _ _)) by lia. cbn [writer_of file].
  rewrite (st_bind_eq _ _ _ _ _ (write_all_end _ _ _ _ _)). unfold mret, st_ret.
  rewrite <-(body_snoc cs h x). unfold writer_of.
  rewrite layout_app, data_of_app, zlen_app, Z.add_assoc. cbn [entries data_offset wconfig wpath layout].
  replace (zlen (data_of [(h, x)])) with (zlen x); [done|]. unfold data_of. simpl. by rewrite app_nil_r.
Qed.

Lemma add_chunks_eq rt path cfg cs cs' d : Forall (λ c, zlen c.2 ≤ u32_max) cs' →
  add_chunks cs' (writer_of rt path cfg cs) (<[path := body cs]> d) =
    (<[path := body (cs ++ cs')]> d, Ok (writer_of rt path cfg (cs ++ cs'))).
Proof.
  intros Hcs. revert cs. induction Hcs as [|[h x] cs' Hx Hcs IH]; intros cs; cbn [add_chunks].
  { by rewrite app_nil_r. }
  rewrite (st_bind_eq _ _ _ _ _ (writer_add_eq rt path cfg cs h x d Hx)), IH. by rewrite <-app_assoc.
Qed.

Lemma write_entries_eq es path rt c d :
  write_entries es (handle path rt (length c)) (<[path := c]> d) =
    (<[path := c ++ table_of es]> d, Ok (handle path rt (length (c ++ table_of es)))).
Proof.
  revert c. induction es as [|e es IH]; intros c; cbn [write_entries].
  { unfold table_of. simpl. by rewrite app_nil_r. }
  do 3 rewrite (st_bind_eq _ _ _ _ _ (write_all_end _ _ _ _ _)). rewrite IH, <-!app_assoc.
  unfold table_of, entry_bytes. cbn [map concat]. by rewrite <-!app_assoc.
Qed.

Lemma take_drop_length {A} n (l : list A) : take n l ++ drop (length (take n l)) l = l.
Proof.
  rewrite <-(take_drop (length (take n l)) l) at 4. f_equal. rewrite length_take.
  destruct (decide (n ≤ length l)%nat); [by rewrite Nat.min_l by lia|].
  rewrite Nat.min_r by lia. by rewrite !take_ge by lia.
Qed.

Lemma read_rest_eq fuel path c d p acc : (p ≤ length c)%nat → (length c - p < fuel)%nat →
  read_rest fuel (handle path true p) acc (<[path := c]> d) =
    (<[path := c]> d, Ok (acc ++ drop p c, handle path true (length c))).
Proof.
  revert p acc. induction fuel as [|fuel IH]; intros p acc Hp Hf; [lia|]. cbn [read_rest].
  set (n := Z.to_nat 8192). assert (0 < n)%nat as Hn by lia. clearbody n.
  assert (read n (handle path true p) (<[path := c]> d) = (<[path := c]> d,
    Ok (take n (drop p c), handle path true (p + length (take n (drop p c)))))) as Hread.
  { unfold read, contents. simpl. by rewrite lookup_insert_eq. }
  rewrite (st_bind_eq _ _ _ _ _ Hread). cbv beta iota.
  pose proof (length_take (drop p c) n) as Hl. rewrite length_drop in Hl.
  case_bool_decide as Hbs.
  - rewrite Hbs in *. simpl in Hl. assert (p = length c) as -> by lia.
    unfold mret, st_ret. by rewrite drop_ge, app_nil_r, Nat.add_0_r by lia.
  - assert (length (take n (drop p c)) ≠ 0%nat) by (intros ?%nil_length_inv; done).
    rewrite IH by lia. by rewrite <-app_assoc, <-drop_drop, take_drop_length.
Qed.

(** The file before the footer is written. *)
Definition before_footer (cs : list (ContentHash.t * list byte)) : list byte :=
  body cs ++ table_of (layout PACKFILE_HEADER_SIZE cs).

Lemma overwrite_count cs footer :
  overwrite (before_footer cs ++ footer) 18 (le_bytes 8 (zlen (layout PACKFILE_HEADER_SIZE cs))) =
    pack_image cs footer.
Proof.
  unfold before_footer, body, pack_image, header_bytes.
  set (a := PACKFILE_MAGIC ++ le_bytes 4 PACKFILE_VERSION). set (t := table_of _).
  replace (PACKFILE_MAGIC ++ le_bytes 4 PACKFILE_VERSION ++ le_bytes 8 0) with (a ++ le_bytes 8 0)
    by (unfold a; by rewrite <-app_assoc).
  replace (PACKFILE_MAGIC ++ le_bytes 4 PACKFILE_VERSION ++ le_bytes 8 (zlen cs))
    with (a ++ le_bytes 8 (zlen cs)) by (unfold a; by rewrite <-app_assoc).
  change 18%nat with (length a). rewrite <-!app_assoc.
  unfold zlen at 1. rewrite layout_length. fold (zlen cs). apply overwrite_middle.
  by rewrite !le_bytes_length.
Qed.

Lemma finalize_write_only `{Blake3} checked path cfg cs d :
  writer_finalize checked (writer_of false path cfg cs) (<[path := body cs]> d) =
    (<[path := before_footer cs]> d, Err (Io BadFileDescriptor)).
Proof.
  unfold writer_finalize. cbn [writer_of entries file wpath].
  rewrite (st_bind_eq _ _ _ _ _ (write_entries_eq _ _ _ _ _)).
  fold (before_footer cs). unfold get_st. by erewrite st_bind_eq by reflexivity.
Qed.

Lemma finalize_read_write `{Blake3} checked path cfg cs d :
  writer_finalize checked (writer_of true path cfg cs) (<[path := body cs]> d) =
    reader_open checked path (<[path := pack_image cs (blake3 (before_footer cs))]> d).
Proof.
  unfold writer_finalize. cbn [writer_of entries file wpath].
  rewrite (st_bind_eq _ _ _ _ _ (write_entries_eq _ _ _ _ _)). fold (before_footer cs).
  erewrite st_bind_eq by reflexivity. unfold contents. rewrite lookup_insert_eq. cbn [default].
  change (seek 0 (handle path true ?p)) with (handle path true 0).
  rewrite (st_bind_eq _ _ _ _ _ (read_rest_eq (S (length (before_footer cs))) path
    (before_footer cs) d 0 [] ltac:(lia) ltac:(lia))).
  cbv beta iota. rewrite drop_0, app_nil_l.
  rewrite (st_bind_eq _ _ _ _ _ (write_all_end _ _ _ _ _)).
  erewrite st_bind_eq; [done|]. unfold write_all, contents. cbn [seek handle at_pos writable fpath pos].
  rewrite lookup_insert_eq. cbn [default]. rewrite insert_insert_eq, <-overwrite_count. done.
Qed.

(** ** The image of a finished pack *)

Lemma decode_entry_bytes e rest : entry_wf e → decode_entry (entry_bytes e ++ rest) = e.
Proof.
  intros (Hh & Ho & Hs). unfold decode_entry, entry_bytes. rewrite <-!app_assoc.
  destruct e as [h o s]; cbn [hash offset esize] in *. unfold ContentHash.wf in Hh.
  change 40%nat with (32 + 8)%nat. rewrite <-drop_drop.
  rewrite (take_app_length' h) by done. rewrite (drop_app_length' h) by done.
  rewrite take_app_length' by (by rewrite le_bytes_length).
  rewrite drop_app_length' by (by rewrite le_bytes_length).
  rewrite take_app_length' by (by rewrite le_bytes_length).
  rewrite !le_value_le_bytes by lia. done.
Qed.

Lemma table_at_table_of a es b : Forall entry_wf es →
  table_at (a ++ table_of es ++ b) (length a) (length es) = es.
Proof.
  intros Hes. revert a. induction Hes as [|e es He Hes IH]; intros a; [done|].
  cbn [length table_at]. unfold table_of at 1 2. cbn [map concat]. fold (table_of es).
  rewrite <-app_assoc, drop_app_length, decode_entry_bytes by done. f_equal.
  specialize (IH (a ++ entry_bytes e)).
  rewrite length_app, entry_bytes_length, <-app_assoc in IH by apply He. done.
Qed.

Lemma pack_image_length cs footer : chunks_wf cs → pack_size cs < 2 ^ 64 → length footer = 32%nat →
  zlen (pack_image cs footer) = pack_size cs.
Proof.
  intros Hcs Hsize Hf. unfold pack_image, pack_size in *. rewrite !zlen_app.
  pose proof (zlen_nonneg cs). assert (Forall entry_wf (layout PACKFILE_HEADER_SIZE cs)) as Hes.
  { apply layout_wf; [done|..]; unfold PACKFILE_HEADER_SIZE, PACKFILE_ENTRY_SIZE, PACKFILE_FOOTER_SIZE in *; lia. }
  unfold zlen in *. rewrite header_bytes_length, table_length, layout_length, Hf by done.
  unfold PACKFILE_HEADER_SIZE, PACKFILE_ENTRY_SIZE, PACKFILE_FOOTER_SIZE. lia.
Qed.

Lemma header_fields n rest : 0 ≤ n < 2 ^ 64 →
  let c := header_bytes n ++ rest in
  take 14 c = PACKFILE_MAGIC ∧ le_value (take 4 (drop 14 c)) = PACKFILE_VERSION ∧ entry_count c = n.
Proof.
  intros Hn c. unfold c, entry_count, header_bytes. rewrite <-!app_assoc.
  split_and!; [by rewrite take_app_length'|..].
  - rewrite drop_app_length' by done. by rewrite take_app_length' by (by rewrite le_bytes_length).
  - rewrite app_assoc, drop_app_length' by done.
    rewrite take_app_length' by (by rewrite le_bytes_length). by rewrite le_value_le_bytes by lia.
Qed.

Lemma pack_image_classify cs footer : chunks_wf cs → pack_size cs < 2 ^ 64 → length footer = 32%nat →
  classify (pack_image cs footer) = Ok (zlen cs).
Proof.
  intros Hcs Hsize Hf. pose proof (zlen_nonneg cs). pose proof (zlen_nonneg (data_of cs)).
  assert (zlen cs < 2 ^ 64) as Hn.
  { unfold pack_size, PACKFILE_HEADER_SIZE, PACKFILE_ENTRY_SIZE, PACKFILE_FOOTER_SIZE in *. lia. }
  unfold classify. rewrite pack_image_length by done.
  destruct (header_fields (zlen cs) (data_of cs ++ table_of (layout PACKFILE_HEADER_SIZE cs) ++ footer)
    ltac:(lia)) as (Hm & Hv & Hc).
  fold (pack_image cs footer) in Hm, Hv, Hc. rewrite Hm, Hv, Hc.
  unfold pack_size, PACKFILE_HEADER_SIZE, PACKFILE_ENTRY_SIZE, PACKFILE_FOOTER_SIZE in *.
  rewrite (proj2 (Z.ltb_ge _ _)) by lia. rewrite bool_decide_true by done. cbn [negb].
  by rewrite Z.eqb_refl, (proj2 (Z.ltb_ge _ _)) by lia.
Qed.

Lemma pack_image_entries cs footer : chunks_wf cs → pack_size cs < 2 ^ 64 → length footer = 32%nat →
  entries_of (pack_image cs footer) (zlen cs) = layout PACKFILE_HEADER_SIZE cs.
Proof.
  intros Hcs Hsize Hf. pose proof (zlen_nonneg cs).
  pose proof (pack_image_length cs footer Hcs Hsize Hf) as Hlen.
  assert (Forall entry_wf (layout PACKFILE_HEADER_SIZE cs)) as Hes.
  { apply layout_wf; [done|..];
      unfold pack_size, PACKFILE_HEADER_SIZE, PACKFILE_ENTRY_SIZE, PACKFILE_FOOTER_SIZE in *; lia. }
  unfold entries_of. unfold zlen in *. rewrite Nat2Z.id.
  replace (length (pack_image cs footer) - 32 - 44 * length cs)%nat
    with (length (header_bytes (Z.of_nat (length cs)) ++ data_of cs)).
  - unfold pack_image, zlen. rewrite (app_assoc (header_bytes _)).
    rewrite <-(layout_length PACKFILE_HEADER_SIZE cs) at 3. by apply table_at_table_of.
  - rewrite length_app, header_bytes_length.
    unfold pack_size, PACKFILE_HEADER_SIZE, PACKFILE_ENTRY_SIZE, PACKFILE_FOOTER_SIZE, zlen in *. lia.
Qed.

Lemma layout_elem off cs e : e ∈ layout off cs →
  ∃ cs1 x cs2, cs = cs1 ++ (hash e, x) :: cs2 ∧
    e = {| hash := hash e; offset := off + zlen (data_of cs1); esize := zlen x |}.
Proof.
  revert off. induction cs as [|[h x] cs IH]; intros off; cbn [layout]; [by intros ?%elem_of_nil|].
  intros [->|(cs1 & y & cs2 & -> & ->)%IH]%elem_of_cons.
  - exists [], x, cs. split; [done|]. cbn. by rewrite Z.add_0_r.
  - exists ((h, x) :: cs1), y, cs2. split; [done|]. cbn [hash]. by rewrite data_of_cons, zlen_app, Z.add_assoc.
Qed.

Lemma layout_hashes off cs : map hash (layout off cs) = map fst cs.
Proof. revert off. induction cs as [|[h x] cs IH]; intros off; simpl; [done|]. by rewrite IH. Qed.

Lemma insert_all_dom m es h :
  is_Some (insert_all m es !! h) ↔ h ∈ map hash es ∨ is_Some (m !! h).
Proof.
  revert m. induction es as [|e es IH]; intros m; simpl; [rewrite elem_of_nil; tauto|].
  rewrite IH, elem_of_cons. destruct (decide (hash e = h)) as [<-|Hne].
  - rewrite lookup_insert_eq. naive_solver.
  - rewrite lookup_insert_ne by done. naive_solver.
Qed.

(** Reading a chunk of a file [a ++ x ++ b] at its place. *)
Lemma read_chunk_at `{Blake3} path d a x b E s h : d !! path = Some (a ++ x ++ b) →
  E !! h = Some {| hash := h; offset := zlen a; esize := zlen x |} → blake3 x = h →
  read_chunk {| file_path := path; rentries := E; rstats := s |} h d = (d, Ok x).
Proof.
  intros Hd HE Hh. pose proof (zlen_nonneg a). pose proof (zlen_nonneg x). pose proof (zlen_nonneg b).
  rewrite (read_chunk_Ok path d _ E s h _ x Hd HE) by (cbn; lia). left. unfold chunk_at. cbn [offset esize].
  rewrite !zlen_app. replace (Z.to_nat (zlen a)) with (length a) by (unfold zlen; lia).
  replace (Z.to_nat (zlen x)) with (length x) by (unfold zlen; lia). rewrite drop_app_length, take_app_length.
  split_and!; [lia|done|done].
Qed.

Section pack_image.
Context `{Blake3}.
Context (path : string) (d : Disk) (cs : list (ContentHash.t * list byte)) (footer : list byte).
Context (Hcs : chunks_wf cs) (Hsize : pack_size cs < 2 ^ 64) (Hfooter : length footer = 32%nat).
Context (Hd : d !! path = Some (pack_image cs footer)).

(** What the index of a pack holds. *)
Definition pack_reader : PackfileReader :=
  {| file_path := path; rentries := insert_all ∅ (layout PACKFILE_HEADER_SIZE cs);
     rstats := {| total_packs := 1;
                  total_objects := Z.of_nat (size (insert_all ∅ (layout PACKFILE_HEADER_SIZE cs)));
                  total_packed_size := sum_of esize (layout PACKFILE_HEADER_SIZE cs) |} |}.

Lemma open_pack : reader_open true path d = (d, Ok pack_reader).
Proof using All.
  pose proof (pack_image_length cs footer Hcs Hsize Hfooter) as Hlen.
  pose proof (reader_open_spec true path d _ Hd ltac:(lia)) as Hr.
  rewrite pack_image_classify in Hr by done. rewrite Hr.
  unfold pack_reader, stats_of, index_of. by rewrite pack_image_entries.
Qed.

Lemma read_pack h x : (h, x) ∈ cs → Forall (λ c, blake3 c.2 = c.1) cs →
  ∃ x', (h, x') ∈ cs ∧ read_chunk pack_reader h d = (d, Ok x').
Proof using All.
  intros Hin Hhash.
  assert (is_Some (insert_all ∅ (layout PACKFILE_HEADER_SIZE cs) !! h)) as [e He].
  { apply insert_all_dom. left. rewrite layout_hashes. by apply (list_elem_of_fmap_2 fst) in Hin. }
  destruct (insert_all_lookup _ _ _ _ He) as [[Hel Heh]|?]; [|done].
  destruct (layout_elem _ _ _ Hel) as (cs1 & x' & cs2 & Hsplit & Hee). rewrite Heh in *.
  exists x'. split; [rewrite Hsplit; apply elem_of_app; right; left|].
  assert (pack_image cs footer = (header_bytes (zlen cs) ++ data_of cs1) ++ x' ++
    (data_of cs2 ++ table_of (layout PACKFILE_HEADER_SIZE cs) ++ footer)) as Himage.
  { unfold pack_image at 1. rewrite Hsplit at 2. rewrite data_of_app, data_of_cons. by rewrite <-!app_assoc. }
  eapply read_chunk_at; [by rewrite Hd, Himage|..].
  - rewrite He, Hee. f_equal. f_equal. rewrite zlen_app. unfold zlen at 2.
    by rewrite header_bytes_length.
  - rewrite Forall_forall in Hhash. apply (Hhash (h, x')). rewrite Hsplit. apply elem_of_app. right. left.
Qed.

Lemma read_pack_absent h : h ∉ map fst cs →
  read_chunk pack_reader h d = (d, Err (ObjectNotFound h)).
Proof.
  intros Hh. unfold read_chunk. apply st_bind_Err. unfold lift. cbn [rentries pack_reader].
  destruct (insert_all ∅ (layout PACKFILE_HEADER_SIZE cs) !! h) as [e|] eqn:He; [|done].
  assert (is_Some (insert_all ∅ (layout PACKFILE_HEADER_SIZE cs) !! h)) as Hs by eauto.
  apply insert_all_dom in Hs as [Hs|[? ?]]; [|done]. by rewrite layout_hashes in Hs.
Qed.
End pack_image.

(** C7: A file in the pack format, whatever its 32-byte footer, opens, and every
    chunk it holds is read back with its data; any other hash is reported as
    not found. The chunks have 32-byte hashes that are the digests of their
    data, and fit the widths of the format. *)
Theorem pack_format_reads_back `{Blake3} path d cs footer :
  chunks_wf cs → pack_size cs < 2 ^ 64 → length footer = 32%nat →
  Forall (λ c, blake3 c.2 = c.1) cs → collision_free (map snd cs) →
  d !! path = Some (pack_image cs footer) →
  ∃ r, reader_open true path d = (d, Ok r) ∧
    (∀ h x, (h, x) ∈ cs → read_chunk r h d = (d, Ok x)) ∧
    (∀ h, h ∉ map fst cs → read_chunk r h d = (d, Err (ObjectNotFound h))) ∧
    (∀ h, contains_chunk r h = true ↔ h ∈ map fst cs) ∧
    reader_total_size r = zlen (data_of cs).
Proof.
  intros Hcs Hsize Hf Hhash Hfree Hd. exists (pack_reader path cs).
  split; [by eapply open_pack|]. split_and!.
  - intros h x Hin. destruct (read_pack path d cs footer Hcs Hsize Hf Hd h x Hin Hhash) as (x' & Hin' & ->).
    rewrite Forall_forall in Hhash. do 2 f_equal.
    apply Hfree; [by apply (list_elem_of_fmap_2 snd) in Hin'|by apply (list_elem_of_fmap_2 snd) in Hin|].
    pose proof (Hhash _ Hin). pose proof (Hhash _ Hin'). simpl in *. congruence.
  - by eapply read_pack_absent.
  - intros h. unfold contains_chunk. rewrite bool_decide_eq_true. cbn [rentries pack_reader].
    rewrite insert_all_dom, layout_hashes.
    split; [intros [?|[? Hl]]; [done|by rewrite lookup_empty in Hl]|by left].
  - unfold reader_total_size. cbn. generalize PACKFILE_HEADER_SIZE. clear.
    induction cs as [|[h x] cs IH]; intros off; [done|]. rewrite data_of_cons, zlen_app, <-(IH (off + zlen x)). done.
Qed.

(** [PackfileWriter::finalize] never succeeds: [File::create] opens the
    file for writing only, and the reading back of the file for its footer fails
    with a bad file descriptor. What remains on disk is a pack whose entry count
    is zero: it opens as a pack without chunks, and every chunk written to it is
    lost. *)
Theorem finalize_loses_chunks `{Blake3} checked path cfg cs d :
  chunks_wf cs → cs ≠ [] → pack_size cs < 2 ^ 64 →
  let '(d', r) := (w ← writer_new false path cfg; w ← add_chunks cs w; writer_finalize checked w) d in
  r = Err (Io BadFileDescriptor) ∧
  ∃ reader, reader_open true path d' = (d', Ok reader) ∧
    ∀ h, read_chunk reader h d' = (d', Err (ObjectNotFound h)).
Proof.
  intros Hcs Hne Hsize. assert (Forall (λ c, zlen c.2 ≤ u32_max) cs) as Hsmall.
  { eapply Forall_impl; [exact Hcs|]. by intros ? []. }
  rewrite (st_bind_eq _ _ _ _ _ (writer_new_eq _ _ _ _)).
  rewrite (st_bind_eq _ _ _ _ _ (add_chunks_eq _ _ _ [] cs d Hsmall)).
  rewrite app_nil_l, finalize_write_only. split; [done|].
  set (d' := <[path := _]> d). set (c := before_footer cs).
  assert (d' !! path = Some c) as Hd by apply lookup_insert_eq.
  pose proof (zlen_nonneg (data_of cs)). assert (zlen cs ≠ 0) by (by rewrite zlen_zero).
  pose proof (zlen_nonneg cs).
  assert (zlen c = pack_size cs - 32) as Hlen.
  { pose proof (pack_image_length cs (repeat x00 32) Hcs Hsize eq_refl) as Hl.
    unfold c, before_footer, body. unfold pack_image in Hl. rewrite !zlen_app in *.
    unfold zlen in *. rewrite header_bytes_length in *. simpl in Hl. lia. }
  unfold pack_size, PACKFILE_HEADER_SIZE, PACKFILE_ENTRY_SIZE, PACKFILE_FOOTER_SIZE in *.
  pose proof (reader_open_spec true path d' c Hd ltac:(lia)) as Hr.
  assert (classify c = Ok 0) as Hk.
  { unfold classify. rewrite (proj2 (Z.ltb_ge _ _)) by lia.
    assert (∃ rest, c = header_bytes 0 ++ rest) as [rest Hrest].
    { eexists. unfold c, before_footer, body. by rewrite <-app_assoc. }
    destruct (header_fields 0 rest ltac:(lia)) as (Hm & Hv & Hn). rewrite <-Hrest in Hm, Hv, Hn.
    rewrite Hm, Hv, Hn, bool_decide_true by done. cbn [negb]. rewrite (proj2 (Z.ltb_ge _ _)) by lia. done. }
  rewrite Hk in Hr. eexists. split; [exact Hr|]. intros h.
  unfold read_chunk. by apply st_bind_Err.
Qed.

(** ** The manager *)

(** Handles keep their mode. *)
Lemma write_all_mode bs f d d' f' : write_all bs f d = (d', Ok f') → readable f' = readable f.
Proof. unfold write_all. destruct (writable f); intros [=]; by subst. Qed.
Lemma write_entries_mode es f d d' f' :
  write_entries es f d = (d', Ok f') → readable f' = readable f.
Proof.
  revert f d. induction es as [|e es IH]; intros f d; cbn [write_entries].
  { unfold mret, st_ret. by intros [= _ <-]. }
  intros (d1 & f1 & H1%write_all_mode & H2)%st_bind_Ok.
  apply st_bind_Ok in H2 as (d2 & f2 & H2%write_all_mode & H3).
  apply st_bind_Ok in H3 as (d3 & f3 & H3%write_all_mode & H4%IH). congruence.
Qed.

Section manager_lemmas.
Context `{Blake3, MapIter} (checked : bool).
Abbreviation mstate := (PackfileManager * Disk)%type.

(** No writer that can finish, and no reader. *)
Definition write_only (w : PackfileWriter) : Prop := readable (file w) = false.
Definition no_reader (s : mstate) : Prop :=
  pack_readers s.1 = ∅ ∧ ∀ w, current_writer s.1 = Some w → write_only w.

Lemma writer_new_write_only path cfg d d' w :
  writer_new false path cfg d = (d', Ok w) → write_only w.
Proof. rewrite writer_new_eq. by intros [= _ <-]. Qed.
Lemma writer_add_write_only h x w d d' w' :
  write_only w → writer_add_chunk h x w d = (d', Ok w') → write_only w'.
Proof.
  unfold writer_add_chunk, write_only. intros Hw. case_if; [by intros [=]|].
  intros (d1 & f & Hf%write_all_mode & [= _ <-])%st_bind_Ok. simpl. congruence.
Qed.
Lemma writer_finalize_write_only w d r : write_only w → (writer_finalize checked w d).2 ≠ Ok r.
Proof.
  intros Hw E. destruct (writer_finalize checked w d) as [d' o] eqn:Ef. simpl in E. subst o.
  unfold writer_finalize in Ef. apply st_bind_Ok in Ef as (d1 & f & Hf%write_entries_mode & Ef).
  apply st_bind_Ok in Ef as (d2 & c & [= <- <-] & Ef).
  apply st_bind_Ok in Ef as (d3 & [all f3] & Hread & _). cbn [read_rest] in Hread.
  unfold mbind, st_bind, read in Hread. cbn [seek at_pos readable] in Hread.
  rewrite Hf, Hw in Hread. discriminate.
Qed.

Lemma on_disk_keeps {A} (m : io A) (Q : A → Prop) :
  (∀ d d' a, m d = (d', Ok a) → Q a) → keeps no_reader (on_disk m) Q.
Proof.
  intros HQ [s d] Hs _. unfold on_disk. specialize (HQ d). destruct (m d) as [d' r]. simpl.
  split_and!; [done|done|]. intros a ->. eauto.
Qed.
Lemma modify_keeps f : (∀ s, no_reader s → no_reader (f s.1, s.2)) →
  keeps no_reader (modify_mgr f) (λ _, True).
Proof. intros Hf s Hs _. split_and!; [by apply Hf|done|done]. Qed.
Lemma get_mgr_keeps : keeps no_reader get_mgr (λ m, ∀ w, current_writer m = Some w → write_only w).
Proof. intros s Hs _. split_and!; [done|done|]. intros a [= <-]. apply Hs. Qed.
Lemma set_writer_keeps o : (∀ w, o = Some w → write_only w) →
  keeps no_reader (modify_mgr (set_writer o)) (λ _, True).
Proof. intros Ho. apply modify_keeps. intros s [Hr Hw]. by split. Qed.
Lemma set_pending_keeps p : keeps no_reader (modify_mgr (λ m, set_pending (p m) m)) (λ _, True).
Proof. apply modify_keeps. intros s [Hr Hw]. by split. Qed.

Lemma get_or_create_keeps now :
  keeps no_reader (get_or_create_current_writer false now) write_only.
Proof.
  unfold get_or_create_current_writer, create_new_pack_writer.
  eapply keeps_bind; [apply get_mgr_keeps|]. intros m Hm.
  apply (keeps_bind _ _ _ (λ _, True)).
  { destruct (current_writer m) as [w|]; [by apply keeps_ret|].
    eapply keeps_bind; [apply get_mgr_keeps|]. intros m1 _.
    eapply keeps_bind; [apply on_disk_keeps, writer_new_write_only|]. intros w Hw.
    apply set_writer_keeps. by intros ? [= <-]. }
  intros _ _. eapply keeps_bind; [apply get_mgr_keeps|]. intros m1 Hm1.
  eapply keeps_weaken; [apply keeps_lift|]. intros w Hw%or_panic_Ok. auto.
Qed.

Lemma finalize_current_keeps : keeps no_reader (finalize_current_pack checked) (λ _, True).
Proof.
  unfold finalize_current_pack. eapply keeps_bind; [apply get_mgr_keeps|]. intros m Hm.
  destruct (current_writer m) as [w|] eqn:Hcw; [|by apply keeps_ret].
  eapply keeps_bind; [by apply set_writer_keeps|]. intros _ _.
  eapply keeps_bind; [apply keeps_lift|]. intros name _.
  apply (keeps_bind _ _ _ (λ _, False)); [|done].
  apply on_disk_keeps. intros d d' r Hr. apply (writer_finalize_write_only w d r); [by apply Hm|by rewrite Hr].
Qed.

Lemma maybe_finalize_keeps :
  keeps no_reader (self ← get_mgr;
    if should_finalize_current_pack self then finalize_current_pack checked else mret tt) (λ _, True).
Proof.
  eapply keeps_bind; [apply get_mgr_keeps|]. intros m _.
  case_if; [apply finalize_current_keeps|by apply keeps_ret].
Qed.

Lemma add_and_set_keeps {B} h x w (f : PackfileWriter → st mstate CasError B) Q : write_only w →
  (∀ w, write_only w → keeps no_reader (f w) Q) →
  keeps no_reader (w ← on_disk (writer_add_chunk h x w);
                   _ ← modify_mgr (set_writer (Some w)); f w) Q.
Proof.
  intros Hw Hf. eapply keeps_bind; [by apply on_disk_keeps; intros d d' w'; apply writer_add_write_only|].
  intros w' Hw'. eapply keeps_bind; [apply set_writer_keeps; by intros ? [= <-]|]. auto.
Qed.

Lemma store_packed_keeps now h x : keeps no_reader (store_packed checked false now h x) (λ _, True).
Proof.
  unfold store_packed. eapply keeps_bind; [apply get_or_create_keeps|]. intros w Hw.
  apply add_and_set_keeps; [done|]. intros _ _. apply maybe_finalize_keeps.
Qed.

Lemma add_all_keeps cs w : write_only w → keeps no_reader (add_all cs w) (λ _, True).
Proof.
  revert w. induction cs as [|[h x] cs IH]; intros w Hw; cbn [add_all]; [by apply keeps_ret|].
  by apply add_and_set_keeps.
Qed.

Lemma flush_packfile_keeps now : keeps no_reader (flush_packfile checked false now) (λ _, True).
Proof.
  unfold flush_packfile. eapply keeps_bind; [apply get_mgr_keeps|]. intros m _.
  case_if; [by apply keeps_ret|]. cbv zeta.
  eapply keeps_bind; [apply (set_pending_keeps (λ _, []))|]. intros _ _.
  eapply keeps_bind; [apply get_or_create_keeps|]. intros w Hw.
  eapply keeps_bind; [by apply add_all_keeps|]. intros _ _. apply maybe_finalize_keeps.
Qed.

Lemma add_chunk_keeps now h x : keeps no_reader (add_chunk checked false now h x) (λ _, True).
Proof.
  unfold add_chunk. eapply keeps_bind; [apply (set_pending_keeps (λ m, pending_chunks m ++ [(h, x)]))|].
  intros _ _. eapply keeps_bind; [apply get_mgr_keeps|]. intros m _.
  case_if; [apply flush_packfile_keeps|by apply keeps_ret].
Qed.

Lemma finalize_keeps now : keeps no_reader (finalize checked false now) (λ _, True).
Proof.
  unfold finalize. eapply keeps_bind; [apply get_mgr_keeps|]. intros m _.
  apply (keeps_bind _ _ _ (λ _, True)).
  { case_if; [by apply keeps_ret|apply flush_packfile_keeps]. }
  intros _ _. eapply keeps_bind; [apply get_mgr_keeps|]. intros m1 _.
  destruct (current_writer m1); [apply finalize_current_keeps|by apply keeps_ret].
Qed.
End manager_lemmas.

Section requests.
Context `{Blake3, MapIter} (checked : bool).

(** What a client asks of a manager; an error is returned to the client, which
    may go on. *)
Inductive request :=
  | Store (now : Z) (h : ContentHash.t) (x : list byte)
  | Add (now : Z) (h : ContentHash.t) (x : list byte)
  | Flush (now : Z)
  | Finalize (now : Z).
Definition serve (r : request) : st (PackfileManager * Disk) CasError unit :=
  match r with
  | Store now h x => store_packed checked false now h x
  | Add now h x => add_chunk checked false now h x
  | Flush now => flush_packfile checked false now
  | Finalize now => finalize checked false now
  end.
Definition serve_all (rs : list request) (s : PackfileManager * Disk) : PackfileManager * Disk :=
  foldl (λ s r, (serve r s).1) s rs.

Lemma serve_all_no_reader rs s : no_reader s → no_reader (serve_all rs s).
Proof.
  revert s. induction rs as [|r rs IH]; intros s Hs; [done|]. apply IH. destruct r; simpl.
  - by eapply keeps_state; [apply store_packed_keeps|].
  - by eapply keeps_state; [apply add_chunk_keeps|].
  - by eapply keeps_state; [apply flush_packfile_keeps|].
  - by eapply keeps_state; [apply finalize_keeps|].
Qed.

(** Whatever is asked of a manager that starts without a writer and
    without readers, no pack ever becomes readable: a read finds a chunk only
    while the chunk is still in the list of pending chunks, and every chunk
    that has gone to a pack file is reported as absent. *)
Theorem packed_chunks_unreadable rs m d : current_writer m = None → pack_readers m = ∅ →
  let s := serve_all rs (m, d) in
  pack_readers s.1 = ∅ ∧
  ∀ h, read_packed h s = (s, Ok (snd <$> head (filter (λ c, c.1 = h) (pending_chunks s.1)))).
Proof.
  intros Hw Hr s. assert (no_reader s) as [Hread _].
  { apply serve_all_no_reader. split; [done|]. simpl. by rewrite Hw. }
  split; [done|]. intros h. unfold read_packed, mbind, st_bind, get_mgr. rewrite Hread.
  assert (map_iter (∅ : gmap string PackfileReader) = []) as ->.
  { apply Permutation_nil_r. by rewrite map_iter_perm, map_to_list_empty. }
  by destruct (head _) as [[? ?]|].
Qed.
End requests.

(** ** Concrete packs *)
Module Examples.
#[local] Existing Instance RefHash.hash.
#[local] Existing Instance gmap_order.

Definition chunk (s : string) : ContentHash.t * list byte :=
  (blake3 (String.list_byte_of_string s), String.list_byte_of_string s).
Definition chunks := [chunk "first"; chunk "second"].
Definition footer := repeat x00 32.
Definition disk : Disk := {[ "p.pack" := pack_image chunks footer ]}.
Definition fresh : PackfileManager :=
  {| config := PackfileConfig_default; current_writer := None; pack_readers := ∅; pending_chunks := [] |}.

Lemma chunks_ok : chunks_wf chunks ∧ pack_size chunks < 2 ^ 64 ∧
  Forall (λ c, blake3 c.2 = c.1) chunks ∧ collision_free (map snd chunks).
Proof.
  split_and!; [|by vm_compute| |by apply collision_free_check; vm_compute].
  - repeat constructor; by vm_compute.
  - by repeat constructor.
Qed.

Example pack_format_reads_back_witness :
  ∃ r, reader_open true "p.pack" disk = (disk, Ok r) ∧
    read_chunk r (chunk "second").1 disk = (disk, Ok (chunk "second").2).
Proof.
  destruct chunks_ok as (Hcs & Hsize & Hhash & Hfree).
  destruct (pack_format_reads_back "p.pack" disk chunks footer Hcs Hsize eq_refl Hhash Hfree)
    as (r & Hopen & Hread & _); [done|].
  exists r. split; [exact Hopen|]. apply Hread. right. left.
Defined.

Example finalize_loses_chunks_witness :
  (chunks_wf chunks ∧ chunks ≠ [] ∧ pack_size chunks < 2 ^ 64) ∧
  ((w ← writer_new false "p.pack" PackfileConfig_default;
    w ← add_chunks chunks w; writer_finalize true w) ∅).2 = Err (Io BadFileDescriptor).
Proof.
  destruct chunks_ok as (Hcs & Hsize & _). split; [done|].
  pose proof (finalize_loses_chunks true "p.pack" PackfileConfig_default chunks ∅ Hcs ltac:(done) Hsize) as H.
  revert H. match goal with |- _ → (?e).2 = _ => destruct e as [d' r] end. by intros [-> _].
Defined.

Example packed_chunks_unreadable_witness :
  let s := serve_all true [Store 1700000000 (chunk "first").1 (chunk "first").2;
                           Add 1700000001 (chunk "second").1 (chunk "second").2] (fresh, ∅) in
  (read_packed (chunk "first").1 s).2 = Ok None ∧
  (read_packed (chunk "second").1 s).2 = Ok (Some (chunk "second").2).
Proof.
  intros s.
  pose proof (packed_chunks_unreadable true [Store 1700000000 (chunk "first").1 (chunk "first").2;
    Add 1700000001 (chunk "second").1 (chunk "second").2] fresh ∅ eq_refl eq_refl) as [_ Hread].
  fold s in Hread. rewrite !Hread. by vm_compute.
Defined.

Example readers_agree_witness :
  ∃ r m, reader_open true "p.pack" disk = (disk, Ok r) ∧ mmap_open true "p.pack" disk = (disk, Ok m) ∧
    mentries m = rentries r.
Proof.
  pose proof (readers_agree true "p.pack" disk (pack_image chunks footer) eq_refl ltac:(by vm_compute)) as H.
  assert (is_ok (reader_open true "p.pack" disk).2 = true) as Hr by (by vm_compute).
  destruct (reader_open true "p.pack" disk) as [d1 [r| |]]; [|discriminate Hr..].
  destruct (mmap_open true "p.pack" disk) as [d2 [m| |]]; [|contradiction H..].
  destruct H as (_ & -> & -> & He & _). by exists r, m.
Defined.

(** Without overflow checks: a header without chunks, as a crash leaves it, is
    an empty pack for the map only; a header that counts one chunk, without its
    table, makes the map panic. *)
Example truncated_packs :
  let disk bs : Disk := {[ "p.pack" := bs ]} in
  (is_ok (reader_open false "p.pack" (disk (header_bytes 0))).2 = false ∧
   is_ok (mmap_open false "p.pack" (disk (header_bytes 0))).2 = true) ∧
  (is_ok (reader_open false "p.pack" (disk (header_bytes 1 ++ repeat x00 10))).2 = false ∧
   (mmap_open false "p.pack" (disk (header_bytes 1 ++ repeat x00 10))).2 = Panic).
Proof. by vm_compute. Qed.

(** An entry without bytes beyond the end is read through the file only. *)
Example empty_entry_beyond_end :
  let c := header_bytes 1 ++ blake3 [] ++ le_bytes 8 1000 ++ le_bytes 4 0 ++ footer in
  let disk : Disk := {[ "p.pack" := c ]} in
  (r ← reader_open true "p.pack"; read_chunk r (blake3 [])) disk = (disk, Ok []) ∧
  is_ok ((m ← (mmap_open true "p.pack" disk).2; mmap_read_chunk true m (blake3 []))) = false.
Proof. split; by vm_compute. Qed.
End Examples.
