(* ===== verification/Storage.v ===== *)
(** The content store: landro-cas/src/storage.rs.

    Objects are files named by their hash; a cache of recently used objects and
    an index of known objects are kept in memory. The files below the root are a
    map from paths to contents; directories, which the code creates before it
    writes, are not recorded, and operating-system failures other than a missing
    file are not modelled. The crate lru is the class [Lru], the compression
    crates are the class [Codecs]. A call that loops for ever is the error
    [Diverges]. The hit rate, a float, and the background task that calls
    [verify_integrity] are not modelled. *)

From S2P Require Import Prelude Bytes CasInterface Packfile.
From Stdlib Require Import Init.Byte Strings.Byte Strings.Ascii ZArith Lia.
From stdpp Require Import base option list gmap sets strings numbers sorting.
Open Scope Z_scope.

(** ** Configuration *)

Inductive FsyncPolicy := Always | Batch (n : Z) | Async | Never.
Inductive CompressionType := NoCompression | Lz4 | Zstd (level : Z) | Snappy.

Record CacheConfig := {
  max_chunks : Z;
  max_size_bytes : Z;
  ttl_seconds : Z;
  adaptive_caching : bool;
  prefetch_enabled : bool;
}.
Definition CacheConfig_default : CacheConfig :=
  {| max_chunks := 10000; max_size_bytes := 512 * 1024 * 1024; ttl_seconds := 300;
     adaptive_caching := true; prefetch_enabled := true |}.

Record ContentStoreConfig := {
  fsync_policy : FsyncPolicy;
  enable_recovery : bool;
  compression : CompressionType;
  packfile_config : PackfileConfig;
  enable_packfiles : bool;
  cache_config : CacheConfig;
  enable_batch_ops : bool;
  max_concurrent_ops : Z;
  enable_background_scan : bool;
  scan_interval_secs : Z;
}.
Definition ContentStoreConfig_default : ContentStoreConfig :=
  {| fsync_policy := Always; enable_recovery := true; compression := NoCompression;
     packfile_config := PackfileConfig_default; enable_packfiles := false;
     cache_config := CacheConfig_default; enable_batch_ops := true; max_concurrent_ops := 32;
     enable_background_scan := false; scan_interval_secs := 3600 |}.

(** ** Data *)

Record ObjectRef := { ref_hash : ContentHash.t; ref_size : Z }.

Record CachedChunk := {
  cached_data : list byte;
  cached_size : Z;
  last_accessed : Z;
  access_count : Z;
}.

(** The crate lru: the entries of a cache, the most recently used first.
    [get_mut] gives the value and the cache with a new value in its place. *)
Definition lru_remove {A} (h : ContentHash.t) (l : list (ContentHash.t * A)) :=
  filter (λ e, e.1 ≠ h) l.
Definition lru_find {A} (h : ContentHash.t) (l : list (ContentHash.t * A)) : option A :=
  snd <$> head (filter (λ e, e.1 = h) l).
Definition lru_push {A} (cap : Z) (h : ContentHash.t) (x : A) (l : list (ContentHash.t * A)) :=
  match lru_find h l with
  | Some _ => (h, x) :: lru_remove h l
  | None => (h, x) :: take (Z.to_nat (cap - 1)) l
  end.

Class Lru := {
  lru : Type → Type;
  lru_new : ∀ {A}, Z → lru A;
  lru_cap : ∀ {A}, lru A → Z;
  lru_entries : ∀ {A}, lru A → list (ContentHash.t * A);
  lru_get_mut : ∀ {A}, ContentHash.t → lru A → option (A * (A → lru A));
  lru_put : ∀ {A}, ContentHash.t → A → lru A → lru A;
  lru_pop : ∀ {A}, lru A → option (ContentHash.t * A * lru A);
  lru_clear : ∀ {A}, lru A → lru A;
  lru_new_entries A n : lru_entries (lru_new (A:=A) n) = [];
  lru_new_cap A n : lru_cap (lru_new (A:=A) n) = n;
  lru_put_entries A h (x : A) c :
    lru_entries (lru_put h x c) = lru_push (lru_cap c) h x (lru_entries c);
  lru_put_cap A h (x : A) c : lru_cap (lru_put h x c) = lru_cap c;
  lru_get_None A h (c : lru A) : lru_get_mut h c = None ↔ lru_find h (lru_entries c) = None;
  lru_get_Some A h (c : lru A) x f : lru_get_mut h c = Some (x, f) →
    lru_find h (lru_entries c) = Some x ∧
    ∀ y, lru_entries (f y) = (h, y) :: lru_remove h (lru_entries c) ∧ lru_cap (f y) = lru_cap c;
  lru_pop_None A (c : lru A) : lru_pop c = None ↔ lru_entries c = [];
  lru_pop_Some A (c c' : lru A) h x : lru_pop c = Some (h, x, c') →
    lru_entries c = lru_entries c' ++ [(h, x)] ∧ lru_cap c' = lru_cap c;
  lru_clear_entries A (c : lru A) : lru_entries (lru_clear c) = [] ∧ lru_cap (lru_clear c) = lru_cap c;
}.

(** The crates lz4_flex, zstd and snap; [None] is an error of the crate. *)
Class Codecs := {
  lz4_compress : list byte → list byte;
  zstd_encode : Z → list byte → option (list byte);
  snap_compress : list byte → option (list byte);
  lz4_decompress : list byte → option (list byte);
  zstd_decode : list byte → option (list byte);
  snap_decompress : list byte → option (list byte);
  lz4_roundtrip d : lz4_decompress (lz4_compress d) = Some d;
  zstd_roundtrip l d c : zstd_encode l d = Some c → zstd_decode c = Some d;
  snap_roundtrip d c : snap_compress d = Some c → snap_decompress c = Some d;
}.

Record ChunkCache `{Lru} := {
  chunks : lru CachedChunk;
  total_size : Z;
  hit_count : Z;
  miss_count : Z;
  eviction_count : Z;
}.

Record BatchWriter := {
  pending : list (ContentHash.t * list byte);
  batch_size : Z;
  last_flush : Z;
}.

Record RuntimeStats := {
  writes : Z;
  reads : Z;
  bytes_written : Z;
  bytes_read : Z;
  objects_packed : Z;
  verifications : Z;
  corruptions_found : Z;
  cache_hits : Z;
  cache_misses : Z;
  batch_flushes : Z;
  dedup_hits : Z;
}.
Definition RuntimeStats_default : RuntimeStats :=
  {| writes := 0; reads := 0; bytes_written := 0; bytes_read := 0; objects_packed := 0;
     verifications := 0; corruptions_found := 0; cache_hits := 0; cache_misses := 0;
     batch_flushes := 0; dedup_hits := 0 |}.

(** Paths below the root, and the files there. *)
Abbreviation path := (list string).
Abbreviation Files := (gmap path (list byte)).

Record Store `{Lru} := {
  config : ContentStoreConfig;
  files : Files;
  pending_syncs : Z;
  packfile_manager : option (PackfileManager * Packfile.Disk);
  cache : ChunkCache;
  batch_writer : BatchWriter;
  dedup_index : gmap ContentHash.t ObjectRef;
  stats : RuntimeStats;
}.

Inductive Failure := Error (e : CasError) | Diverges.

(** ** Updates of single fields *)

Section updates.
Context `{Lru}.

Definition set_files (x : Files) (s : Store) : Store :=
  {| config := config s; files := x; pending_syncs := pending_syncs s;
     packfile_manager := packfile_manager s; cache := cache s; batch_writer := batch_writer s;
     dedup_index := dedup_index s; stats := stats s |}.
Definition set_pending_syncs (x : Z) (s : Store) : Store :=
  {| config := config s; files := files s; pending_syncs := x;
     packfile_manager := packfile_manager s; cache := cache s; batch_writer := batch_writer s;
     dedup_index := dedup_index s; stats := stats s |}.
Definition set_packs (x : option (PackfileManager * Packfile.Disk)) (s : Store) : Store :=
  {| config := config s; files := files s; pending_syncs := pending_syncs s;
     packfile_manager := x; cache := cache s; batch_writer := batch_writer s;
     dedup_index := dedup_index s; stats := stats s |}.
Definition set_cache (x : ChunkCache) (s : Store) : Store :=
  {| config := config s; files := files s; pending_syncs := pending_syncs s;
     packfile_manager := packfile_manager s; cache := x; batch_writer := batch_writer s;
     dedup_index := dedup_index s; stats := stats s |}.
Definition set_batch (x : BatchWriter) (s : Store) : Store :=
  {| config := config s; files := files s; pending_syncs := pending_syncs s;
     packfile_manager := packfile_manager s; cache := cache s; batch_writer := x;
     dedup_index := dedup_index s; stats := stats s |}.
Definition add_dedup (r : ObjectRef) (s : Store) : Store :=
  {| config := config s; files := files s; pending_syncs := pending_syncs s;
     packfile_manager := packfile_manager s; cache := cache s; batch_writer := batch_writer s;
     dedup_index := <[ref_hash r := r]> (dedup_index s); stats := stats s |}.
Definition set_stats (x : RuntimeStats) (s : Store) : Store :=
  {| config := config s; files := files s; pending_syncs := pending_syncs s;
     packfile_manager := packfile_manager s; cache := cache s; batch_writer := batch_writer s;
     dedup_index := dedup_index s; stats := x |}.
End updates.

(** Counters are [AtomicU64]; [fetch_add] wraps around. *)
Definition count (n m : Z) : Z := wrap 64 (n + m).
Definition count_read (n : Z) (s : RuntimeStats) : RuntimeStats :=
  {| writes := writes s; reads := count (reads s) 1; bytes_written := bytes_written s;
     bytes_read := count (bytes_read s) n; objects_packed := objects_packed s;
     verifications := verifications s; corruptions_found := corruptions_found s;
     cache_hits := cache_hits s; cache_misses := cache_misses s;
     batch_flushes := batch_flushes s; dedup_hits := dedup_hits s |}.
Definition count_open (s : RuntimeStats) : RuntimeStats :=
  {| writes := writes s; reads := count (reads s) 1; bytes_written := bytes_written s;
     bytes_read := bytes_read s; objects_packed := objects_packed s;
     verifications := verifications s; corruptions_found := corruptions_found s;
     cache_hits := cache_hits s; cache_misses := cache_misses s;
     batch_flushes := batch_flushes s; dedup_hits := dedup_hits s |}.
Definition count_write (n : Z) (s : RuntimeStats) : RuntimeStats :=
  {| writes := count (writes s) 1; reads := reads s; bytes_written := count (bytes_written s) n;
     bytes_read := bytes_read s; objects_packed := objects_packed s;
     verifications := verifications s; corruptions_found := corruptions_found s;
     cache_hits := cache_hits s; cache_misses := cache_misses s;
     batch_flushes := batch_flushes s; dedup_hits := dedup_hits s |}.
Definition count_cache (hits misses : Z) (s : RuntimeStats) : RuntimeStats :=
  {| writes := writes s; reads := reads s; bytes_written := bytes_written s;
     bytes_read := bytes_read s; objects_packed := objects_packed s;
     verifications := verifications s; corruptions_found := corruptions_found s;
     cache_hits := count (cache_hits s) hits; cache_misses := count (cache_misses s) misses;
     batch_flushes := batch_flushes s; dedup_hits := dedup_hits s |}.
Definition count_batch (flushes dedups : Z) (s : RuntimeStats) : RuntimeStats :=
  {| writes := writes s; reads := reads s; bytes_written := bytes_written s;
     bytes_read := bytes_read s; objects_packed := objects_packed s;
     verifications := verifications s; corruptions_found := corruptions_found s;
     cache_hits := cache_hits s; cache_misses := cache_misses s;
     batch_flushes := count (batch_flushes s) flushes; dedup_hits := count (dedup_hits s) dedups |}.

(** ** Validation: landro-cas/src/validation.rs *)

Definition MAX_OBJECT_SIZE : Z := 100 * 1024 * 1024.
Definition validate_object_size (size : Z) : bool := size <=? MAX_OBJECT_SIZE.
Definition validate_content_hash (hash : string) : bool :=
  (Z.of_nat (String.length hash) =? 64) &&
  forallb is_ascii_hexdigit (String.list_ascii_of_string hash).

(** ** Paths *)

(** [{root}/objects/{shard1}/{shard2}/{rest}] of the hexadecimal name. *)
Definition object_path `{Hex} (h : ContentHash.t) : path :=
  let hex := ContentHash.to_hex h in
  ["objects"; String.substring 0 2 hex; String.substring 2 2 hex;
   String.substring 4 (String.length hex - 4) hex].

(** A path with another last component. *)
Definition with_name (p : path) (name : string) : path := take (length p - 1) p ++ [name].

(** [str_strip_suffix]: the name without a suffix that it ends with. *)
Fixpoint str_strip_suffix (suffix s : string) : option string :=
  if decide (s = suffix) then Some EmptyString
  else match s with
       | EmptyString => None
       | String c s => String c <$> str_strip_suffix suffix s
       end.

(** [Path::extension] is [tmp]: the name ends with [.tmp] after something. *)
Definition has_extension_tmp (p : path) : bool :=
  match last p ≫= str_strip_suffix ".tmp" with
  | Some EmptyString | None => false
  | Some _ => true
  end.

(** [Path::parent] of a path with components. *)
Definition parent (p : path) : path := take (length p - 1) p.

(** The policies of [FsyncPolicy]. *)
Definition should_fsync_file (policy : FsyncPolicy) : bool :=
  match policy with Always | Batch _ => true | Async | Never => false end.
Definition should_fsync_directory (policy : FsyncPolicy) : bool :=
  match policy with Always => true | Batch _ | Async | Never => false end.

(** *** The operations of an atomic write

    The calls that write an object, as data, in the order in which the code
    makes them: [write_atomic] performs the list, and what a crash leaves is a
    matter of how much of the same list was performed. *)
Inductive fs_op :=
  | Create (p : path)
  | Append (p : path) (bs : list byte)
  | SyncFile (p : path)
  | Rename (p q : path)
  | SyncDir (p : path).

Definition write_ops (policy : FsyncPolicy) (temp_path final_path : path) (data : list byte) :
    list fs_op :=
  [Create temp_path; Append temp_path data] ++
  (if should_fsync_file policy then [SyncFile temp_path] else []) ++
  [Rename temp_path final_path] ++
  (if should_fsync_directory policy then [SyncDir (parent final_path)] else []).

(** *** Tasks that share a state

    The numbers of a schedule say which task goes on next. A task starts when it
    has a permit of the semaphore, which the tasks before it that have not ended
    hold. After the schedule the tasks that are left go on one by one; [turns] is
    what a task needs at most. *)
Section schedules.
Context {W T : Type} (running : T → bool) (step : nat → W * list T → W * list T) (permits : Z).

Definition may_run (i : nat) (ts : list T) : bool := zlen (List.filter running (take i ts)) <? permits.
Definition turn (x : W * list T) (i : nat) : W * list T := if may_run i x.2 then step i x else x.
Definition to_the_end (turns n : nat) (schedule : list nat) : list nat :=
  schedule ++ flat_map (replicate turns) (seq 0 n).
Definition run_schedule (turns : nat) (schedule : list nat) (x : W * list T) : W * list T :=
  foldl turn x (to_the_end turns (length x.2) schedule).
End schedules.

(** Where the task of a flush is, in the code of [write_individual_optimized]
    and of [write_atomic], which it calls. *)
Inductive WritePhase :=
  | Checking
  | Writing (ops : list fs_op)
  | Removing
  | Counting
  | Resetting
  | Caching
  | Indexing
  | Written (r : outcome Failure ObjectRef).
(** [wr_file]: the path of the file that the task has open, which other tasks may
    rename, or none when they have removed it. *)
Record Writer := {
  wr_hash : ContentHash.t;
  wr_data : list byte;
  wr_file : option path;
  wr_phase : WritePhase;
}.
Definition at_write (ph : WritePhase) (file : option path) (w : Writer) : Writer :=
  {| wr_hash := wr_hash w; wr_data := wr_data w; wr_file := file; wr_phase := ph |}.
(** An open file goes where it is renamed to, and is nowhere when it is replaced. *)
Definition follow (p q : path) (w : Writer) : Writer :=
  let file := if bool_decide (wr_file w = Some q) then None
              else if bool_decide (wr_file w = Some p) then Some q else wr_file w in
  at_write (wr_phase w) file w.
Definition unlink (p : path) (w : Writer) : Writer :=
  at_write (wr_phase w) (if bool_decide (wr_file w = Some p) then None else wr_file w) w.
Definition writing (w : Writer) : bool := match wr_phase w with Written _ => false | _ => true end.

(** Where a task of [write_batch_stream] is, in the code of [write_stream]: its
    temporary file has a name of its own, so receiving the data is one step. *)
Inductive StreamPhase :=
  | Receiving
  | Looking (hash : ContentHash.t) (size : Z)
  | Moving (found : bool) (hash : ContentHash.t) (size : Z)
  | Listing (r : ObjectRef)
  | Streamed (r : outcome Failure ObjectRef).
Record Stream := {
  sm_id : string;
  sm_reader : list (outcome CasError (list byte));
  sm_expected : option ContentHash.t;
  sm_phase : StreamPhase;
}.
Definition at_stream (ph : StreamPhase) (t : Stream) : Stream :=
  {| sm_id := sm_id t; sm_reader := sm_reader t; sm_expected := sm_expected t; sm_phase := ph |}.
Definition streaming (t : Stream) : bool := match sm_phase t with Streamed _ => false | _ => true end.

Section storage.
Context `{Lru, Codecs, Hex, Blake3, MapIter} (checked : bool).
Abbreviation sto := (st Store Failure).

Definition fail {A} (e : CasError) : sto A := lift (Err (Error e)).
Definition modify_stats (f : RuntimeStats → RuntimeStats) : sto unit :=
  modify_st (λ s, set_stats (f (stats s)) s).

(** ** Files *)

Definition path_exists (p : path) (s : Store) : bool := bool_decide (is_Some (files s !! p)).
Definition fs_read (p : path) : sto (list byte) := λ s,
  (s, match files s !! p with Some c => Ok c | None => Err (Error (Io NotFound)) end).
(** [File::create], then writing at the end. *)
Definition fs_create (p : path) : sto unit := modify_st (λ s, set_files (<[p := []]> (files s)) s).
Definition fs_append (p : path) (bs : list byte) : sto unit := λ s,
  match files s !! p with
  | Some c => (set_files (<[p := c ++ bs]> (files s)) s, Ok tt)
  | None => (s, Err (Error (Io NotFound)))
  end.
Definition fs_remove (p : path) : sto unit := λ s,
  match files s !! p with
  | Some _ => (set_files (delete p (files s)) s, Ok tt)
  | None => (s, Err (Error (Io NotFound)))
  end.
Definition fs_rename (p q : path) : sto unit := λ s,
  match files s !! p with
  | Some c => (set_files (<[q := c]> (delete p (files s))) s, Ok tt)
  | None => (s, Err (Error (Io NotFound)))
  end.

(** ** The cache *)

Definition ChunkCache_new (max_chunks : Z) : option ChunkCache :=
  if max_chunks =? 0 then None
  else Some {| chunks := lru_new max_chunks; total_size := 0; hit_count := 0; miss_count := 0;
               eviction_count := 0 |}.

(** [while total_size + size > max { if let Some(..) = pop_lru() {..} }]. When
    the cache is empty the body does nothing and the loop does not end. A round
    that pops removes an entry, so the number of entries bounds the rounds. *)
Fixpoint evict (fuel : nat) (size max : Z) (c : ChunkCache) : outcome Failure ChunkCache :=
  sum ← arith checked 64 (total_size c + size);
  if sum <=? max then Ok c
  else
    match lru_pop (chunks c), fuel with
    | Some (_, evicted, rest), S fuel =>
        total ← arith checked 64 (total_size c - cached_size evicted);
        evict fuel size max
          {| chunks := rest; total_size := total; hit_count := hit_count c;
             miss_count := miss_count c; eviction_count := count (eviction_count c) 1 |}
    | _, _ => Err Diverges
    end.

(** The block that puts data in the cache. *)
Definition update_cache (now : Z) (hash : ContentHash.t) (data : list byte) : sto unit :=
  self ← get_st;
  let cached := {| cached_data := data; cached_size := zlen data; last_accessed := now;
                   access_count := 1 |} in
  c ← lift (evict (length (lru_entries (chunks (cache self)))) (cached_size cached)
              (max_size_bytes (cache_config (config self))) (cache self));
  total ← lift (arith checked 64 (total_size c + cached_size cached));
  modify_st (set_cache
    {| chunks := lru_put hash cached (chunks c); total_size := total; hit_count := hit_count c;
       miss_count := miss_count c; eviction_count := eviction_count c |}).

(** ** Writing *)

(** Synchronisation to disk changes nothing that a program can see. *)
Definition sync_all : sto unit := mret tt.
Definition perform (op : fs_op) : sto unit :=
  match op with
  | Create p => fs_create p
  | Append p bs => fs_append p bs
  | SyncFile _ | SyncDir _ => sync_all
  | Rename p q => fs_rename p q
  end.
Fixpoint perform_all (ops : list fs_op) : sto unit :=
  match ops with
  | [] => mret tt
  | op :: ops => _ ← perform op; perform_all ops
  end.

Definition write_atomic (final_path : path) (data : list byte) : sto unit :=
  self ← get_st;
  name ← lift (ok_or (Error (StoragePath "Invalid object filename")) (last final_path));
  let temp_path := with_name final_path (name +:+ ".tmp") in
  _ ← perform_all (write_ops (fsync_policy (config self)) temp_path final_path data);
  match fsync_policy (config self) with
  | Batch n =>
      _ ← modify_st (λ s, set_pending_syncs (wrap 32 (pending_syncs s + 1)) s);
      pending ← lift (arith checked 32 (pending_syncs self + 1));
      if n <=? pending then modify_st (set_pending_syncs 0) else mret tt
  | _ => mret tt
  end.

Definition write_individual (data : list byte) (hash : ContentHash.t) : sto ObjectRef :=
  _ ← write_atomic (object_path hash) data;
  mret {| ref_hash := hash; ref_size := zlen data |}.

(** Both branches fall back to an individual file. *)
Definition write_with_packing (data : list byte) (hash : ContentHash.t) : sto ObjectRef :=
  self ← get_st;
  match packfile_manager self with
  | Some _ => write_individual data hash
  | None => write_individual data hash
  end.

(** [read_packed] of the manager, when packfiles are enabled; its errors are
    ignored. *)
Definition packed (hash : ContentHash.t) (s : Store) : outcome Failure (option (list byte)) :=
  if enable_packfiles (config s) then
    match packfile_manager s with
    | Some m =>
        match (read_packed hash m).2 with
        | Ok data => Ok data
        | Err _ => Ok None
        | Panic => Panic
        end
    | None => Ok None
    end
  else Ok None.

Definition exists_ (hash : ContentHash.t) : sto bool :=
  self ← get_st;
  if path_exists (object_path hash) self then mret true
  else
    data ← lift (packed hash self);
    mret (bool_decide (is_Some data)).

Definition write (data : list byte) : sto ObjectRef :=
  if negb (validate_object_size (zlen data)) then fail (InvalidOperation "Object validation failed")
  else
    let hash := blake3 data in
    self ← get_st;
    match dedup_index self !! hash with
    | Some obj_ref => _ ← modify_stats (count_batch 0 1); mret obj_ref
    | None =>
        found ← exists_ hash;
        if found : bool then
          let obj_ref := {| ref_hash := hash; ref_size := zlen data |} in
          _ ← modify_st (add_dedup obj_ref);
          mret obj_ref
        else if enable_packfiles (config self) then
          match packfile_manager self with
          | Some (manager, _) =>
              if should_pack manager (zlen data) then write_with_packing data hash
              else write_individual data hash
          | None => write_individual data hash
          end
        else write_individual data hash
    end.

Definition write_bytes (data : list byte) : sto ObjectRef := write data.

(** [compress_data]: [None] when nothing is compressed. *)
Definition compress_data (c : CompressionType) (data : list byte) :
    outcome Failure (option (list byte)) :=
  match c with
  | NoCompression => Ok None
  | Lz4 => Ok (Some (lz4_compress data))
  | Zstd level => Some <$> ok_or (Error (Internal "Compression failed")) (zstd_encode level data)
  | Snappy => Some <$> ok_or (Error (Internal "Compression failed")) (snap_compress data)
  end.
Definition decompress_data (c : CompressionType) (data : list byte) (compressed : bool) :
    outcome Failure (list byte) :=
  if negb compressed then Ok data
  else
    match c with
    | NoCompression => Ok data
    | Lz4 => ok_or (Error (Internal "Decompression failed")) (lz4_decompress data)
    | Zstd _ => ok_or (Error (Internal "Decompression failed")) (zstd_decode data)
    | Snappy => ok_or (Error (Internal "Decompression failed")) (snap_decompress data)
    end.

(** A turn of a task of a flush, by one step of [write_individual_optimized]. The
    counters it updates at its end are those of the clone of the store that the
    task owns: they are dropped with it. *)
Definition object_temp (object_path : path) : path :=
  with_name object_path (default EmptyString (last object_path) +:+ ".tmp").
Definition write_individual_optimized (now : Z) (i : nat) (x : Store * list Writer) : Store * list Writer :=
  let '(self, ws) := x in
  match ws !! i with
  | None => x
  | Some w =>
      let object_path := object_path (wr_hash w) in
      let obj_ref := {| ref_hash := wr_hash w; ref_size := zlen (wr_data w) |} in
      let goto ph := <[i := at_write ph (wr_file w) w]> ws in
      match wr_phase w with
      | Checking =>
          if path_exists object_path self then (self, goto (Written (Ok obj_ref)))
          else
            match compress_data (compression (config self)) (wr_data w) with
            | Ok compressed =>
                (self, goto (Writing (write_ops (fsync_policy (config self)) (object_temp object_path) object_path
                                        (default (wr_data w) compressed))))
            | Err e => (self, goto (Written (Err e)))
            | Panic => (self, goto (Written Panic))
            end
      | Writing [] =>
          (self, goto (match fsync_policy (config self) with Batch _ => Counting | _ => Caching end))
      | Writing (op :: ops) =>
          match op with
          | Create p => (set_files (<[p := []]> (files self)) self, <[i := at_write (Writing ops) (Some p) w]> ws)
          | Append _ bs =>
              (match wr_file w with
               | Some p => set_files (alter (λ c, overwrite c 0 bs) p (files self)) self
               | None => self
               end, <[i := at_write (Writing ops) None w]> ws)
          | SyncFile _ | SyncDir _ => (self, goto (Writing ops))
          | Rename p q =>
              match files self !! p with
              | Some c => (set_files (<[q := c]> (base.delete p (files self))) self, follow p q <$> goto (Writing ops))
              | None => (self, goto Removing)
              end
          end
      | Removing =>
          let p := object_temp object_path in
          (set_files (base.delete p (files self)) self,
           unlink p <$> goto (Written (Err (Error (AtomicWriteFailed "Failed to rename temp file")))))
      | Counting =>
          (set_pending_syncs (wrap 32 (pending_syncs self + 1)) self,
           goto (match arith (E:=Failure) checked 32 (pending_syncs self + 1), fsync_policy (config self) with
                 | Ok pending, Batch n => if n <=? pending then Resetting else Caching
                 | Ok _, _ => Caching
                 | Err e, _ => Written (Err e)
                 | Panic, _ => Written Panic
                 end))
      | Resetting => (set_pending_syncs 0 self, goto Caching)
      | Caching =>
          let '(self, r) := update_cache now (wr_hash w) (wr_data w) self in
          (self, goto (match r with Ok _ => Indexing | Err e => Written (Err e) | Panic => Written Panic end))
      | Indexing => (add_dedup obj_ref self, goto (Written (Ok obj_ref)))
      | Written _ => x
      end
  end.
Definition WRITE_TURNS : nat := 11.

(** ** Batches *)

(** Whether 100 ms have passed since the last flush is seen from the clock. *)
Definition should_flush (now : Z) (b : BatchWriter) : bool :=
  (100 <=? zlen (pending b)) || (10 * 1024 * 1024 <=? batch_size b) || (100 <=? now - last_flush b).

(** The results of the tasks are awaited in their order, and the first error is
    returned; a panic is an error of the join, a task that does not end keeps the
    flush from ending. The tasks that the flush does not wait for then, because
    an earlier one failed, have ended here when it returns. *)
Definition joined {A} (what : string) (r : outcome Failure A) : outcome Failure A :=
  match r with Panic => Err (Error (Internal what)) | r => r end.
Definition written (w : Writer) : outcome Failure ObjectRef :=
  match wr_phase w with Written r => r | _ => Err Diverges end.
Definition run_tasks (now : Z) (schedule : list nat) (tasks : list (ContentHash.t * list byte)) : sto unit := λ s,
  let permits := max_concurrent_ops (config s) in
  if permits <=? 0 then (s, Err Diverges)
  else
    let ws := map (λ '(hash, data), {| wr_hash := hash; wr_data := data; wr_file := None; wr_phase := Checking |}) tasks in
    let '(s, ws) := run_schedule writing (write_individual_optimized now) permits WRITE_TURNS schedule (s, ws) in
    (s, for_each ws (λ _ w, _ ← joined "Batch write failed" (written w); mret tt) tt).

Definition flush_batch_internal (now : Z) (schedule : list nat) : sto unit :=
  self ← get_st;
  let batch := batch_writer self in
  if bool_decide (pending batch = []) then mret tt
  else
    _ ← modify_stats (count_batch 1 0);
    _ ← modify_st (set_batch {| pending := []; batch_size := batch_size batch;
                                last_flush := last_flush batch |});
    _ ← run_tasks now schedule (pending batch);
    modify_st (set_batch {| pending := []; batch_size := 0; last_flush := now |}).

Definition flush_batch (now : Z) (schedule : list nat) : sto unit :=
  self ← get_st;
  if negb (bool_decide (pending (batch_writer self) = [])) then flush_batch_internal now schedule else mret tt.

(** One round of the loop of [write_batch]. *)
Definition add_to_batch (chunk : list byte * option ContentHash.t) : sto ObjectRef :=
  let '(data, expected_hash) := chunk in
  if negb (validate_object_size (zlen data)) then fail (InvalidOperation "Object validation failed")
  else
    let hash := default (blake3 data) expected_hash in
    self ← get_st;
    match dedup_index self !! hash with
    | Some obj_ref => _ ← modify_stats (count_batch 0 1); mret obj_ref
    | None =>
        let batch := batch_writer self in
        size ← lift (arith checked 64 (batch_size batch + zlen data));
        _ ← modify_st (set_batch {| pending := pending batch ++ [(hash, data)];
                                    batch_size := size; last_flush := last_flush batch |});
        mret {| ref_hash := hash; ref_size := zlen data |}
    end.
Fixpoint add_all_to_batch (cs : list (list byte * option ContentHash.t)) : sto (list ObjectRef) :=
  match cs with
  | [] => mret []
  | c :: cs => r ← add_to_batch c; rs ← add_all_to_batch cs; mret (r :: rs)
  end.

Definition write_batch (now : Z) (schedule : list nat) (cs : list (list byte * option ContentHash.t)) :
    sto (list ObjectRef) :=
  results ← add_all_to_batch cs;
  self ← get_st;
  _ ← (if should_flush now (batch_writer self) then flush_batch_internal now schedule else mret tt);
  mret results.

(** ** Reading *)

Definition read_individual (hash : ContentHash.t) : sto (list byte) :=
  self ← get_st;
  let object_path := object_path hash in
  if negb (path_exists object_path self) then fail (ObjectNotFound hash)
  else
    let metadata_len := zlen (default [] (files self !! object_path)) in
    if metadata_len =? 0 then fail (CorruptObject "Object file is empty")
    else
      data ← fs_read object_path;
      if negb (zlen data =? metadata_len) then fail (InvalidObjectSize metadata_len (zlen data))
      else
        let actual_hash := blake3 data in
        if negb (bool_decide (actual_hash = hash)) then fail (HashMismatch hash actual_hash)
        else mret data.

(** The counters and the recency of a hit. *)
Definition hit (chunks' : lru CachedChunk) (c : ChunkCache) : ChunkCache :=
  {| chunks := chunks'; total_size := total_size c; hit_count := count (hit_count c) 1;
     miss_count := miss_count c; eviction_count := eviction_count c |}.
Definition miss (c : ChunkCache) : ChunkCache :=
  {| chunks := chunks c; total_size := total_size c; hit_count := hit_count c;
     miss_count := count (miss_count c) 1; eviction_count := eviction_count c |}.

Definition read (now : Z) (hash : ContentHash.t) : sto (list byte) :=
  if negb (validate_content_hash (ContentHash.to_hex hash))
  then fail (InvalidOperation "Hash validation failed")
  else
    self ← get_st;
    match lru_get_mut hash (chunks (cache self)) with
    | Some (cached, put_back) =>
        accesses ← lift (arith checked 32 (access_count cached + 1));
        _ ← modify_st (set_cache (hit (put_back
              {| cached_data := cached_data cached; cached_size := cached_size cached;
                 last_accessed := now; access_count := accesses |}) (cache self)));
        _ ← modify_stats (λ s, count_read (cached_size cached) (count_cache 1 0 s));
        mret (cached_data cached)
    | None =>
        _ ← modify_st (set_cache (miss (cache self)));
        _ ← modify_stats (count_cache 0 1);
        self ← get_st;
        found ← lift (packed hash self);
        match found with
        | Some data => mret data
        | None =>
            data ← read_individual hash;
            _ ← update_cache now hash data;
            _ ← modify_stats (count_read (zlen data));
            mret data
        end
    end.

(** [verify] and [verify_single_object]: some errors mean that the object is
    not intact, the others are returned. *)
Definition catch {A} (m : sto A) (handler : CasError → outcome Failure A) : sto A := λ s,
  match m s with
  | (s, Err (Error e)) => (s, handler e)
  | r => r
  end.
Definition verify (now : Z) (hash : ContentHash.t) : sto bool :=
  catch (_ ← read now hash; mret true)
    (λ e, match e with
          | ObjectNotFound _ | HashMismatch _ _ => Ok false
          | e => Err (Error e)
          end).
Definition verify_single_object (now : Z) (hash : ContentHash.t) : sto bool :=
  catch (_ ← read now hash; mret true)
    (λ e, match e with
          | ObjectNotFound _ | HashMismatch _ _ | CorruptObject _ => Ok false
          | e => Err (Error e)
          end).

(** ** Streams *)

(** [write_all] of a [BufWriter] with [buf] in its buffer: what goes to the file
    and what the buffer has then. *)
Definition BUF_SIZE : Z := 8 * 1024.
Definition buf_push (chunk buf : list byte) : list byte * list byte :=
  let '(out, buf) := if BUF_SIZE <? zlen buf + zlen chunk then (buf, []) else ([], buf) in
  if BUF_SIZE <=? zlen chunk then (out ++ chunk, buf) else (out, buf ++ chunk).
(** Reads of at most 64 KiB until one gives nothing. The bytes go to a file
    through a buffer, which is flushed at the end, and lost when a read fails; the
    result is their number and what the hasher was fed with. *)
Fixpoint copy_reader (reader : list (outcome CasError (list byte))) (p : path)
    (total : Z) (fed buf : list byte) : sto (Z * list byte) :=
  let flush := _ ← fs_append p buf; mret (total, fed) in
  match reader with
  | [] => flush
  | Err e :: _ => fail e
  | Panic :: _ => lift Panic
  | Ok chunk :: reader =>
      if bool_decide (chunk = []) then flush
      else
        let '(out, buf) := buf_push chunk buf in
        _ ← fs_append p out;
        total ← lift (arith checked 64 (total + zlen chunk));
        copy_reader reader p total (fed ++ chunk) buf
  end.

(** What [write_stream] and [complete_resumable_write] do with a complete
    temporary file. *)
Definition place (temp_path : path) (found : bool) (hash : ContentHash.t) : sto unit :=
  if found then fs_remove temp_path else fs_rename temp_path (object_path hash).
Definition publish (temp_path : path) (computed_hash : ContentHash.t) (size : Z) : sto ObjectRef :=
  self ← get_st;
  let found := path_exists (object_path computed_hash) self in
  let obj_ref := {| ref_hash := computed_hash; ref_size := size |} in
  _ ← place temp_path found computed_hash;
  _ ← modify_st (add_dedup obj_ref);
  _ ← (if found then mret tt else modify_stats (count_write size));
  mret obj_ref.

(** [let _ = fs::remove_file(..)]. *)
Definition ignore (m : sto unit) : sto unit := λ s,
  match m s with (s, Err (Error _)) => (s, Ok tt) | r => r end.

Definition stream_path (temp_id : string) : path := [".tmp"; temp_id +:+ ".tmp"].
(** The data of a stream in its temporary file: its hash and size. *)
Definition receive (temp_id : string) (reader : list (outcome CasError (list byte)))
    (expected_hash : option ContentHash.t) : sto (ContentHash.t * Z) :=
  let temp_path := stream_path temp_id in
  _ ← fs_create temp_path;
  '(total_size, fed) ← copy_reader reader temp_path 0 [] [];
  let computed_hash := blake3 fed in
  match expected_hash with
  | Some expected =>
      if negb (bool_decide (computed_hash = expected)) then
        _ ← ignore (fs_remove temp_path);
        fail (HashMismatch expected computed_hash)
      else mret (computed_hash, total_size)
  | None => mret (computed_hash, total_size)
  end.
Definition write_stream (temp_id : string) (reader : list (outcome CasError (list byte)))
    (expected_hash : option ContentHash.t) : sto ObjectRef :=
  '(computed_hash, total_size) ← receive temp_id reader expected_hash;
  publish (stream_path temp_id) computed_hash total_size.

(** A turn of a task of [write_batch_stream]. It runs on a clone of the store,
    which shares everything but the counters: these are dropped with it. *)
Definition stream_step (i : nat) (x : Store * list Stream) : Store * list Stream :=
  let '(self, ts) := x in
  match ts !! i with
  | None => x
  | Some t =>
      let goto {A} (next : A → StreamPhase) (x : Store * outcome Failure A) :=
        (x.1, <[i := at_stream (match x.2 with
                                | Ok a => next a
                                | Err e => Streamed (Err e)
                                | Panic => Streamed Panic
                                end) t]> ts) in
      match sm_phase t with
      | Receiving => goto (λ '(hash, size), Looking hash size) (receive (sm_id t) (sm_reader t) (sm_expected t) self)
      | Looking hash size => goto (λ found, Moving found hash size) (self, Ok (path_exists (object_path hash) self))
      | Moving found hash size =>
          goto (λ _, Listing {| ref_hash := hash; ref_size := size |}) (place (stream_path (sm_id t)) found hash self)
      | Listing r => goto (λ _, Streamed (Ok r)) (add_dedup r self, Ok tt)
      | Streamed _ => x
      end
  end.
Definition STREAM_TURNS : nat := 4.
Definition streamed (t : Stream) : outcome Failure ObjectRef :=
  match sm_phase t with Streamed r => r | _ => Err Diverges end.
Definition write_batch_stream (schedule : list nat)
    (chunks : list (string * list (outcome CasError (list byte)) * option ContentHash.t)) :
    sto (list ObjectRef) :=
  self ← get_st;
  let permits := max_concurrent_ops (config self) in
  let ts := map (λ '(temp_id, reader, expected_hash), {| sm_id := temp_id; sm_reader := reader;
                   sm_expected := expected_hash; sm_phase := Receiving |}) chunks in
  ts ← (if (permits <=? 0) && negb (bool_decide (chunks = [])) then lift (Err Diverges)
        else λ s, let '(s, ts) := run_schedule streaming stream_step permits STREAM_TURNS schedule (s, ts) in (s, Ok ts));
  results ← lift (for_each ts (λ results t,
    r ← joined "Batch stream write failed" (streamed t); mret (results ++ [r])) []);
  _ ← modify_stats (count_batch 1 0);
  mret results.

(** The reader that is returned holds the whole data. It is not verified. *)
Definition read_stream (hash : ContentHash.t) : sto (list byte) :=
  if negb (validate_content_hash (ContentHash.to_hex hash))
  then fail (InvalidOperation "Hash validation failed")
  else
    found ← exists_ hash;
    if negb found then fail (ObjectNotFound hash)
    else
      self ← get_st;
      data ← lift (packed hash self);
      match data with
      | Some data => mret data
      | None =>
          data ← fs_read (object_path hash);
          _ ← modify_stats count_open;
          mret data
      end.

(** ** Resumable writes *)

Record PartialTransfer := {
  temp_path : path;
  expected_hash : option ContentHash.t;
  expected_size : option Z;
  bytes_received : Z;
  hash_state : option string;
  expires_at : Z;
}.
Definition is_expired (now : Z) (p : PartialTransfer) : bool := expires_at p <? now.

Definition start_resumable_write (temp_id : string) (now : Z) (expected : option ContentHash.t)
    (size : option Z) : sto PartialTransfer :=
  mret {| temp_path := [".tmp"; temp_id +:+ ".partial"]; expected_hash := expected;
          expected_size := size; bytes_received := 0; hash_state := None;
          expires_at := now + 24 * 3600 |}.

(** The hash of what is already there is computed and not used. *)
Definition continue_resumable_write (now : Z) (partial : PartialTransfer)
    (reader : list (outcome CasError (list byte))) : sto PartialTransfer :=
  if is_expired now partial then fail (InvalidOperation "Partial transfer has expired")
  else
    _ ← (if bytes_received partial =? 0 then fs_create (temp_path partial)
         else _ ← fs_read (temp_path partial); mret tt);
    '(bytes_written, _) ← copy_reader reader (temp_path partial) 0 [] [];
    received ← lift (arith checked 64 (bytes_received partial + bytes_written));
    mret {| temp_path := temp_path partial; expected_hash := expected_hash partial;
            expected_size := expected_size partial; bytes_received := received;
            hash_state := Some "state_placeholder"; expires_at := expires_at partial |}.

Definition complete_resumable_write (now : Z) (partial : PartialTransfer) : sto ObjectRef :=
  self ← get_st;
  if is_expired now partial then
    _ ← ignore (fs_remove (temp_path partial));
    fail (InvalidOperation "Partial transfer has expired")
  else if negb (path_exists (temp_path partial) self)
  then fail (InvalidOperation "Partial transfer file not found")
  else
    data ← fs_read (temp_path partial);
    let total_size := zlen data in
    let computed_hash := blake3 data in
    if match expected_hash partial with Some e => negb (bool_decide (computed_hash = e)) | None => false end
    then
      _ ← ignore (fs_remove (temp_path partial));
      fail (HashMismatch (default computed_hash (expected_hash partial)) computed_hash)
    else if match expected_size partial with Some n => negb (total_size =? n) | None => false end
    then
      _ ← ignore (fs_remove (temp_path partial));
      fail (InvalidOperation "Size mismatch")
    else publish (temp_path partial) computed_hash total_size.

Definition cancel_resumable_write (partial : PartialTransfer) : sto unit :=
  self ← get_st;
  if path_exists (temp_path partial) self then fs_remove (temp_path partial) else mret tt.

(** The creation times come from the file system. *)
Definition partial_files (fs : Files) : list path :=
  filter (λ p, head p = Some ".tmp" ∧ length p = 2%nat ∧ is_Some (last p ≫= str_strip_suffix ".partial"))
    (map fst (map_iter fs)).
Fixpoint cleanup_partials (now : Z) (created : path → option Z) (ps : list path) (cleaned_count : Z) :
    sto Z :=
  match ps with
  | [] => mret cleaned_count
  | p :: ps =>
      match created p with
      | Some t =>
          if 24 * 3600 <? Z.max 0 (now - t) then
            _ ← ignore (fs_remove p);
            cleanup_partials now created ps (cleaned_count + 1)
          else cleanup_partials now created ps cleaned_count
      | None => cleanup_partials now created ps cleaned_count
      end
  end.
Definition cleanup_expired_partials (now : Z) (created : path → option Z) : sto Z :=
  self ← get_st; cleanup_partials now created (partial_files (files self)) 0.

Definition delete (hash : ContentHash.t) : sto unit :=
  self ← get_st;
  let object_path := object_path hash in
  if path_exists object_path self then fs_remove object_path else mret tt.

(** ** Recovery *)

Record RecoveryStats := { recovered : Z; cleaned : Z; recovery_errors : list CasError }.
Definition add_recovered (r : RecoveryStats) : RecoveryStats :=
  {| recovered := recovered r + 1; cleaned := cleaned r; recovery_errors := recovery_errors r |}.
Definition add_cleaned (r : RecoveryStats) : RecoveryStats :=
  {| recovered := recovered r; cleaned := cleaned r + 1; recovery_errors := recovery_errors r |}.
Definition add_recovery_error (e : CasError) (r : RecoveryStats) : RecoveryStats :=
  {| recovered := recovered r; cleaned := cleaned r; recovery_errors := recovery_errors r ++ [e] |}.

(** [match op { Ok(x) => .., Err(_) => .. }]. *)
Definition on_result {A B} (m : sto A) (ok : A → sto B) (err : CasError → sto B) : sto B := λ s,
  match m s with
  | (s, Ok a) => ok a s
  | (s, Err (Error e)) => err e s
  | (s, Err Diverges) => (s, Err Diverges)
  | (s, Panic) => (s, Panic)
  end.

Definition recover_temp_file (temp_path : path) (r : RecoveryStats) : sto RecoveryStats :=
  self ← get_st;
  match last temp_path ≫= str_strip_suffix ".tmp" with
  | None => fail (StoragePath "Temp file doesn't end with .tmp")
  | Some final_name =>
      let final_path := with_name temp_path final_name in
      if path_exists final_path self then
        on_result (fs_remove temp_path) (λ _, mret (add_cleaned r)) (λ _, mret r)
      else
        on_result (fs_read temp_path)
          (λ data,
            if bool_decide (object_path (blake3 data) = final_path) then
              on_result (fs_rename temp_path final_path) (λ _, mret (add_recovered r))
                (λ _, _ ← ignore (fs_remove temp_path); mret (add_cleaned r))
            else
              _ ← ignore (fs_remove temp_path);
              mret (add_cleaned r))
          (λ _, _ ← ignore (fs_remove temp_path); mret (add_cleaned r))
  end.

(** The temporary files below [objects], in the order of the directory walk. *)
Definition temp_files (fs : Files) : list path :=
  filter (λ p, head p = Some "objects" ∧ has_extension_tmp p = true) (map fst (map_iter fs)).

Fixpoint recover_all (ps : list path) (r : RecoveryStats) : sto RecoveryStats :=
  match ps with
  | [] => mret r
  | p :: ps =>
      on_result (recover_temp_file p r) (recover_all ps)
        (λ e, recover_all ps (add_recovery_error e r))
  end.
Definition recover : sto RecoveryStats :=
  self ← get_st;
  recover_all (temp_files (files self)) {| recovered := 0; cleaned := 0; recovery_errors := [] |}.

(** ** Construction *)

(** The files below the root are given, and the packs of its pack directory. *)
Definition new_with_config (config : ContentStoreConfig) (now : Z) (root : Files)
    (packs : Packfile.Disk) : outcome Failure Store :=
  manager ←
    (if enable_packfiles config then
       m ← map_err Error (Packfile.new_with_config checked (packfile_config config) packs);
       mret (Some (m, packs))
     else mret None);
  cache ← or_panic (ChunkCache_new (max_chunks (cache_config config)));
  let store :=
    {| config := config; files := root; pending_syncs := 0; packfile_manager := manager;
       cache := cache; batch_writer := {| pending := []; batch_size := 0; last_flush := now |};
       dedup_index := ∅; stats := RuntimeStats_default |} in
  if enable_recovery config then
    match recover store with
    | (store, Ok _) => mret store
    | (_, Err e) => Err e
    | (_, Panic) => Panic
    end
  else mret store.

(** ** Maintenance *)

Fixpoint prefetch_all (now : Z) (hashes : list ContentHash.t) : sto unit :=
  match hashes with
  | [] => mret tt
  | hash :: hashes =>
      self ← get_st;
      _ ← (if bool_decide (is_Some (lru_find hash (lru_entries (chunks (cache self)))))
           then mret tt
           else ignore (_ ← read now hash; mret tt));
      prefetch_all now hashes
  end.
Definition prefetch (now : Z) (hashes : list ContentHash.t) : sto unit :=
  self ← get_st;
  if negb (prefetch_enabled (cache_config (config self))) then mret tt
  else prefetch_all now hashes.

Definition clear_cache : sto unit :=
  modify_st (λ s, set_cache
    {| chunks := lru_clear (chunks (cache s)); total_size := 0; hit_count := hit_count (cache s);
       miss_count := miss_count (cache s); eviction_count := eviction_count (cache s) |} s).

(** The files of the two levels of shards. *)
Definition shard_files (fs : Files) : list (path * list byte) :=
  filter (λ '(p, _), head p = Some "objects" ∧ length p = 4%nat) (map_iter fs).

Record StorageStats := { object_count : Z; storage_size : Z }.
Definition storage_stats (s : Store) : StorageStats :=
  let individual := shard_files (files s) in
  let packs := if enable_packfiles (config s) then packfile_manager s else None in
  let packed := match packs with Some (m, _) => Some (Packfile.stats m) | None => None end in
  {| object_count := zlen individual + from_option Packfile.total_objects 0 packed;
     storage_size := sum_of (λ f, zlen f.2) individual + from_option total_packed_size 0 packed |}.

Record VerificationReport := {
  report_objects : Z;
  verified_count : Z;
  corruption_count : Z;
  error_count : Z;
  corrupted_objects : list ContentHash.t;
  error_objects : list (ContentHash.t * CasError);
  invalid_filenames : list path;
}.
Definition VerificationReport_new : VerificationReport :=
  {| report_objects := 0; verified_count := 0; corruption_count := 0; error_count := 0;
     corrupted_objects := []; error_objects := []; invalid_filenames := [] |}.
Definition is_healthy (r : VerificationReport) : bool :=
  (corruption_count r =? 0) && (error_count r =? 0).

Definition report_intact (r : VerificationReport) : VerificationReport :=
  {| report_objects := report_objects r + 1; verified_count := verified_count r + 1;
     corruption_count := corruption_count r; error_count := error_count r;
     corrupted_objects := corrupted_objects r; error_objects := error_objects r;
     invalid_filenames := invalid_filenames r |}.
Definition report_corrupt (h : ContentHash.t) (r : VerificationReport) : VerificationReport :=
  {| report_objects := report_objects r + 1; verified_count := verified_count r;
     corruption_count := corruption_count r + 1; error_count := error_count r;
     corrupted_objects := corrupted_objects r ++ [h]; error_objects := error_objects r;
     invalid_filenames := invalid_filenames r |}.
Definition report_error (h : ContentHash.t) (e : CasError) (r : VerificationReport) : VerificationReport :=
  {| report_objects := report_objects r + 1; verified_count := verified_count r;
     corruption_count := corruption_count r; error_count := error_count r + 1;
     corrupted_objects := corrupted_objects r; error_objects := error_objects r ++ [(h, e)];
     invalid_filenames := invalid_filenames r |}.
Definition report_invalid (p : path) (r : VerificationReport) : VerificationReport :=
  {| report_objects := report_objects r + 1; verified_count := verified_count r;
     corruption_count := corruption_count r; error_count := error_count r + 1;
     corrupted_objects := corrupted_objects r; error_objects := error_objects r;
     invalid_filenames := invalid_filenames r ++ [p] |}.

(** The hash that the last three components of a path spell. *)
Definition path_hash (p : path) : outcome ContentHash.FromHexError ContentHash.t :=
  ContentHash.from_hex (foldr String.append EmptyString (tail p)).

Fixpoint verify_files (now : Z) (ps : list path) (r : VerificationReport) : sto VerificationReport :=
  match ps with
  | [] => mret r
  | p :: ps =>
      match path_hash p with
      | Ok expected_hash => λ s,
          match verify_single_object now expected_hash s with
          | (s, Ok true) => verify_files now ps (report_intact r) s
          | (s, Ok false) => verify_files now ps (report_corrupt expected_hash r) s
          | (s, Err (Error e)) => verify_files now ps (report_error expected_hash e r) s
          | (s, Err Diverges) => (s, Err Diverges)
          | (s, Panic) => (s, Panic)
          end
      | _ => verify_files now ps (report_invalid p r)
      end
  end.
Definition verify_integrity (now : Z) : sto VerificationReport :=
  self ← get_st;
  verify_files now (map fst (shard_files (files self))) VerificationReport_new.

Record CacheStats := { chunks_cached : Z; cache_size : Z; hits : Z; misses : Z; evictions : Z }.
Definition cache_stats (s : Store) : CacheStats :=
  {| chunks_cached := zlen (lru_entries (chunks (cache s))); cache_size := total_size (cache s);
     hits := hit_count (cache s); misses := miss_count (cache s);
     evictions := eviction_count (cache s) |}.
Definition get_metrics (s : Store) : RuntimeStats := stats s.

Record ContentStoreStats := {
  total_writes : Z;
  total_reads : Z;
  css_bytes_written : Z;
  css_bytes_read : Z;
  css_objects_packed : Z;
  verifications_performed : Z;
  css_corruptions_found : Z;
  css_cache_hits : Z;
  css_cache_misses : Z;
  css_batch_flushes : Z;
  css_dedup_hits : Z;
}.
Definition runtime_stats (s : Store) : ContentStoreStats :=
  let s := stats s in
  {| total_writes := writes s; total_reads := reads s; css_bytes_written := bytes_written s;
     css_bytes_read := bytes_read s; css_objects_packed := objects_packed s;
     verifications_performed := verifications s; css_corruptions_found := corruptions_found s;
     css_cache_hits := cache_hits s; css_cache_misses := cache_misses s;
     css_batch_flushes := batch_flushes s; css_dedup_hits := dedup_hits s |}.

Definition verify_object_with_path (p : path) (expected_hash : ContentHash.t) : sto bool :=
  self ← get_st;
  if negb (path_exists p self) then mret false
  else
    let metadata_len := zlen (default [] (files self !! p)) in
    if metadata_len =? 0 then mret false
    else
      data ← fs_read p;
      if negb (zlen data =? metadata_len) then mret false
      else mret (bool_decide (blake3 data = expected_hash)).

(** Collection and repacking, of packfiles only, do nothing yet. *)
Record GcStats := {
  objects_examined : Z;
  objects_kept : Z;
  objects_removed : Z;
  bytes_reclaimed : Z;
  packfiles_examined : Z;
  packfiles_repacked : Z;
}.
Definition gc_packfiles (keep_chunks : gset ContentHash.t) : sto GcStats :=
  mret {| objects_examined := 0; objects_kept := 0; objects_removed := 0; bytes_reclaimed := 0;
          packfiles_examined := 0; packfiles_repacked := 0 |}.
Record PackingStats := {
  objects_repacked : Z;
  old_packfiles_removed : Z;
  new_packfiles_created : Z;
  bytes_saved : Z;
}.
Definition repack : sto PackingStats :=
  mret {| objects_repacked := 0; old_packfiles_removed := 0; new_packfiles_created := 0; bytes_saved := 0 |}.

Definition on_packs {A} (m : st (PackfileManager * Packfile.Disk) CasError A) (a : A) : sto A := λ s,
  match packfile_manager s with
  | Some ms => let '(ms, r) := m ms in (set_packs (Some ms) s, map_err Error r)
  | None => (s, Ok a)
  end.
Definition flush_packfiles (now : Z) : sto unit := on_packs (flush_packfile checked false now) tt.
Definition finalize_packfiles (now : Z) : sto unit := on_packs (Packfile.finalize checked false now) tt.
Definition packfile_stats (s : Store) : option PackfileStats :=
  (λ ms, Packfile.stats ms.1) <$> packfile_manager s.
End storage.
