(* ===== verification/StorageInv.v ===== *)
(** The content store: its invariant, and what its clients may rely on.

    The lemmas named safe_* say of each operation of Storage.v that it preserves
    the invariant [store_inv] and loses no object, except for those whose tasks
    run side by side, which are in StorageTasks.v; [read_returns_iff] says when
    a read returns at all. *)

From S2P Require Import Prelude Bytes CasInterface Packfile Storage.
From Stdlib Require Import Init.Byte Strings.Byte Strings.Ascii ZArith Lia.
From stdpp Require Import base option list gmap sets strings numbers sorting.
Open Scope Z_scope.

(** ** Paths: lemmas *)

Lemma substring_all s : String.substring 0 (String.length s) s = s.
Proof. induction s as [|c s IH]; simpl; [done|]. by rewrite IH. Qed.

Lemma string_append_nil s : (s +:+ EmptyString) = s.
Proof. induction s as [|c s IH]; [done|]. exact (f_equal (String c) IH). Qed.

Lemma str_strip_suffix_app s t : str_strip_suffix t (s +:+ t) = Some s.
Proof.
  induction s as [|c s IH].
  - change (EmptyString +:+ t) with t. destruct t; cbn [str_strip_suffix]; by rewrite decide_True.
  - change (String c s +:+ t) with (String c (s +:+ t)). cbn [str_strip_suffix].
    rewrite decide_False; [by rewrite IH|]. intros E. apply (f_equal String.length) in E.
    simpl in E. rewrite string_length_app in E. lia.
Qed.
Lemma str_strip_suffix_Some s t u : str_strip_suffix t s = Some u → s = u +:+ t.
Proof.
  revert u. induction s as [|c s IH]; intros u; cbn [str_strip_suffix].
  - case_decide as E; intros [= <-]. done.
  - case_decide as E; [by intros [= <-]|]. destruct (str_strip_suffix t s) as [v|] eqn:Ev; [|done].
    intros [= <-]. simpl. by rewrite (IH v).
Qed.

Section paths.
Context `{Hex}.

(** The four components of the path of an object. *)
Lemma object_path_split h : ContentHash.wf h → ∃ a b c d rest,
  ContentHash.to_hex h = String a (String b (String c (String d rest))) ∧
  String.length rest = 60%nat ∧
  object_path h = ["objects"; String a (String b EmptyString); String c (String d EmptyString); rest].
Proof.
  intros Hh. unfold object_path, ContentHash.to_hex.
  pose proof (hex_encode_length h) as Hl. rewrite Hh in Hl.
  destruct (hex_encode h) as [|a [|b [|c [|d rest]]]]; try discriminate.
  exists a, b, c, d, rest. simpl in Hl. split_and!; [done|lia|].
  cbn. rewrite Nat.sub_0_r, substring_all. by destruct rest.
Qed.

Lemma object_path_inj h h' : ContentHash.wf h → ContentHash.wf h' →
  object_path h = object_path h' → h = h'.
Proof.
  intros Hh Hh' E. destruct (object_path_split h Hh) as (a & b & c & d & r & Hx & _ & Hp).
  destruct (object_path_split h' Hh') as (a' & b' & c' & d' & r' & Hx' & _ & Hp').
  rewrite Hp, Hp' in E. injection E as -> -> -> -> ->. apply hex_encode_inj.
  unfold ContentHash.to_hex in *. congruence.
Qed.

Lemma path_hash_object h : ContentHash.wf h → path_hash (object_path h) = Ok h.
Proof.
  intros Hh. destruct (object_path_split h Hh) as (a & b & c & d & r & Hx & _ & ->).
  unfold path_hash.
  assert (foldr String.append EmptyString (tail ["objects"%string; String a (String b EmptyString);
    String c (String d EmptyString); r]) = hex_encode h) as ->.
  { unfold ContentHash.to_hex in Hx. rewrite Hx. cbn [tail foldr].
    change (String a (String b (String c (String d (r +:+ EmptyString)))) =
      String a (String b (String c (String d r)))). by rewrite string_append_nil. }
  unfold ContentHash.from_hex. rewrite hex_decode_encode. cbn [ok_or mbind outcome_bind].
  unfold zlen. by rewrite Hh.
Qed.

(** Where an object is written before it is renamed. *)
Definition object_temp_path (h : ContentHash.t) : path :=
  with_name (object_path h) (default EmptyString (last (object_path h)) +:+ ".tmp").

Lemma object_temp_split h : ContentHash.wf h → ∃ s1 s2 rest, String.length rest = 60%nat ∧
  object_path h = ["objects"; s1; s2; rest] ∧
  last (object_path h) = Some rest ∧ with_name (object_path h) (rest +:+ ".tmp") = object_temp_path h ∧
  object_temp_path h = ["objects"; s1; s2; rest +:+ ".tmp"].
Proof.
  intros Hh. unfold object_temp_path.
  destruct (object_path_split h Hh) as (a & b & c & d & r & _ & Hl & ->).
  do 3 eexists. by split_and!.
Qed.

Lemma object_temp_not_object h h' : ContentHash.wf h → ContentHash.wf h' →
  object_temp_path h ≠ object_path h'.
Proof.
  intros Hh Hh' E. destruct (object_temp_split h Hh) as (? & ? & r & Hr & _ & _ & _ & Ht).
  destruct (object_path_split h' Hh') as (a & b & c & d & r' & _ & Hr' & Hp).
  rewrite Ht, Hp in E. injection E as _ _ E. apply (f_equal String.length) in E.
  rewrite string_length_app in E. simpl in E. lia.
Qed.
Lemma object_path_head h : head (object_path h) = Some "objects"%string.
Proof. done. Qed.
End paths.

(** ** The invariant of a store

    Without packfiles and compression, and as long as nothing is deleted and no
    hash given to [write_batch] is wrong. *)

Section invariant.
Context `{Lru, Codecs, Hex, Blake3, MapIter} (checked : bool).
Abbreviation sto := (st Store Failure).

(** The object named [h] is on disk, with contents that hash to [h]. *)
Definition holds (s : Store) (h : ContentHash.t) : Prop :=
  ∃ c, files s !! object_path h = Some c ∧ blake3 c = h.

Definition names_ok (fs : Files) : Prop :=
  ∀ h c, ContentHash.wf h → fs !! object_path h = Some c → blake3 c = h.

Definition entry_ok (e : ContentHash.t * CachedChunk) : Prop :=
  blake3 (cached_data e.2) = e.1 ∧ cached_size e.2 = zlen (cached_data e.2).
Definition cache_ok (c : ChunkCache) : Prop := Forall entry_ok (lru_entries (chunks c)).

Record store_inv (s : Store) : Prop := {
  si_packs : enable_packfiles (config s) = false;
  si_plain : compression (config s) = NoCompression;
  si_files : names_ok (files s);
  si_dedup : ∀ h r, dedup_index s !! h = Some r → ref_hash r = h ∧ holds s h;
  si_cache : cache_ok (cache s);
  si_batch : ∀ h d, (h, d) ∈ pending (batch_writer s) → blake3 d = h;
}.

(** No object is lost, and the configuration stays. *)
Definition extends (s s' : Store) : Prop := (∀ h, holds s h → holds s' h) ∧ config s' = config s.
#[export] Instance extends_preorder : PreOrder extends.
Proof.
  split; [by split|]. intros s1 s2 s3 [H12 E12] [H23 E23]. split; [auto|congruence].
Qed.
Abbreviation safe P m Q := (triple (E:=Failure) store_inv extends P m Q).

Lemma holds_wf s h : holds s h → ContentHash.wf h.
Proof. intros (c & _ & <-). apply blake3_length. Qed.
Lemma blake3_wf d : ContentHash.wf (blake3 d).
Proof. apply blake3_length. Qed.
#[local] Hint Resolve blake3_wf : core.

(** Steps that leave the files alone. *)
Lemma same_files s s' : files s' = files s → config s' = config s → extends s s'.
Proof. intros Hf Hc. split; [|done]. intros h. unfold holds. by rewrite Hf. Qed.

Lemma holds_frame s s' h : extends s s' → holds s h → holds s' h.
Proof. intros [Hle _]. apply Hle. Qed.

Lemma safe_stats P f : (∀ s x, P s → P (set_stats x s)) → safe P (modify_stats f) (λ _, P).
Proof.
  intros Hf. apply triple_modify; [apply _|]. intros s Hi Hp. split_and!; [by destruct Hi|by apply same_files|auto].
Qed.
Lemma safe_fail {A} P e (Q : A → Store → Prop) : safe P (fail e) Q.
Proof. intros s Hi _. by split_and!. Qed.

(** A path at which no object is stored. *)
Definition scratch (p : path) : Prop := ∀ h, ContentHash.wf h → p ≠ object_path h.

Lemma scratch_temp h : ContentHash.wf h → scratch (object_temp_path h).
Proof. intros Hh h' Hh'. by apply object_temp_not_object. Qed.
Lemma scratch_head p : head p ≠ Some "objects"%string → scratch p.
Proof. intros Hp h _ ->. by rewrite object_path_head in Hp. Qed.

(** Changing files that are no objects. *)
Lemma inv_scratch fs s : store_inv s →
  (∀ h, ContentHash.wf h → fs !! object_path h = files s !! object_path h) →
  store_inv (set_files fs s) ∧ extends s (set_files fs s).
Proof.
  intros Hi Hfs. assert (extends s (set_files fs s)) as Hle.
  { split; [|done]. intros h Hh. pose proof (holds_wf _ _ Hh) as Hw. destruct Hh as (c & Hc & E).
    exists c. cbn [files set_files]. by rewrite Hfs. }
  split; [|done]. destruct Hi as [Hp Hc Hf Hd Hca Hb]. constructor; try done.
  - intros h c Hw. cbn [files set_files]. rewrite Hfs by done. by apply Hf.
  - intros h r Hr. destruct (Hd h r Hr). split; [done|]. by apply Hle.
Qed.

Lemma safe_create p P : scratch p → safe P (fs_create p) (λ _ s, files s !! p = Some []).
Proof.
  intros Hp. apply triple_modify; [apply _|]. intros s Hi _.
  destruct (inv_scratch (<[p := []]> (files s)) s Hi) as [? ?].
  { intros h Hw. apply lookup_insert_ne. by apply Hp. }
  split_and!; [done..|apply lookup_insert_eq].
Qed.
Lemma safe_append p c bs : scratch p →
  safe (λ s, files s !! p = Some c) (fs_append p bs) (λ _ s, files s !! p = Some (c ++ bs)).
Proof.
  intros Hp s Hi Hc. unfold fs_append. rewrite Hc.
  destruct (inv_scratch (<[p := c ++ bs]> (files s)) s Hi) as [? ?].
  { intros h Hw. apply lookup_insert_ne. by apply Hp. }
  split_and!; [done..|]. intros a _. apply lookup_insert_eq.
Qed.
Lemma safe_remove p P : scratch p → safe P (fs_remove p) (λ _ _, True).
Proof.
  intros Hp s Hi _. unfold fs_remove. destruct (files s !! p); [|by split_and!].
  destruct (inv_scratch (base.delete p (files s)) s Hi) as [? ?]; [|by split_and!].
  intros h Hw. apply lookup_delete_ne. by apply Hp.
Qed.
Lemma safe_rename p c h : scratch p → blake3 c = h →
  safe (λ s, files s !! p = Some c) (fs_rename p (object_path h)) (λ _ s, holds s h).
Proof.
  intros Hp Hh s Hi Hc. unfold fs_rename. rewrite Hc. cbn [fst snd].
  assert (∀ h', ContentHash.wf h' → <[object_path h := c]> (base.delete p (files s)) !! object_path h' =
    if decide (h' = h) then Some c else files s !! object_path h') as Hl.
  { intros h' Hw. case_decide as E; [subst; apply lookup_insert_eq|].
    rewrite lookup_insert_ne; [apply lookup_delete_ne; by apply Hp|].
    intros E'. apply E. symmetry. apply object_path_inj; [by rewrite <-Hh|done..]. }
  set (s' := set_files _ s). assert (holds s' h) as Hnew.
  { exists c. cbn [files set_files s']. rewrite Hl by (rewrite <-Hh; done). by rewrite decide_True. }
  assert (extends s s') as Hle.
  { split; [|done]. intros h' Hh'. destruct (decide (h' = h)) as [->|E]; [done|].
    pose proof (holds_wf _ _ Hh') as Hw. destruct Hh' as (c' & Hc' & E').
    exists c'. cbn [files set_files s']. by rewrite Hl, decide_False. }
  split_and!; [|done|done]. destruct Hi as [Hpk Hcm Hf Hd Hca Hb]. constructor; try done.
  - intros h' c' Hw. cbn [files set_files s']. rewrite Hl by done. case_decide as E; [intros [= <-]; congruence|].
    by apply Hf.
  - intros h' r Hr. destruct (Hd h' r Hr). split; [done|]. by apply Hle.
Qed.

(** *** The cache *)

Lemma evict_entries fuel size max c c' : evict checked fuel size max c = Ok c' →
  ∃ gone, lru_entries (chunks c) = lru_entries (chunks c') ++ gone.
Proof.
  revert c. induction fuel as [|fuel IH]; intros c; cbn [evict];
    intros (sum & _ & He)%bind_Ok; (case_if; [injection He as <-; exists []; by rewrite app_nil_r|]);
    destruct (lru_pop (chunks c)) as [[[h x] rest]|] eqn:Hpop; try done.
  apply bind_Ok in He as (total & _ & He). destruct (lru_pop_Some _ _ _ _ _ Hpop) as [-> _].
  apply IH in He as [gone Hg]. cbn [chunks] in Hg. exists (gone ++ [(h, x)]). by rewrite Hg, <-app_assoc.
Qed.

Lemma lru_remove_Forall {A} (P : ContentHash.t * A → Prop) h l : Forall P l → Forall P (lru_remove h l).
Proof.
  rewrite !Forall_forall. intros Hl e He. unfold lru_remove in He.
  apply list_elem_of_filter in He as [_ He]. by apply Hl.
Qed.
Lemma lru_push_Forall {A} (P : ContentHash.t * A → Prop) cap h x l :
  P (h, x) → Forall P l → Forall P (lru_push cap h x l).
Proof.
  intros Hx Hl. unfold lru_push. destruct (lru_find h l); constructor; try done;
    [by apply lru_remove_Forall|by apply Forall_take].
Qed.
Lemma lru_find_Some {A} h (l : list (ContentHash.t * A)) x : lru_find h l = Some x → (h, x) ∈ l.
Proof.
  unfold lru_find. destruct (head _) as [[h' x']|] eqn:E; [|done]. intros [= <-].
  apply head_Some_elem_of, list_elem_of_filter in E as [Hh Hin]. simpl in Hh. by subst.
Qed.

Lemma safe_set_cache P f Q : (∀ s, store_inv s → P s → cache_ok (f s) ∧ Q tt (set_cache (f s) s)) →
  safe P (modify_st (λ s, set_cache (f s) s)) Q.
Proof.
  intros Hf. apply triple_modify; [apply _|]. intros s Hi Hp. destruct (Hf s Hi Hp).
  split_and!; [by destruct Hi|by apply same_files|done].
Qed.

Lemma safe_update_cache now h data : blake3 data = h →
  safe (λ _, True) (update_cache checked now h data) (λ _ _, True).
Proof.
  intros Hh s Hi _. unfold update_cache, mbind, st_bind, get_st, lift, modify_st. cbn zeta.
  destruct (evict _ _ _ _ _) as [c|e|] eqn:He; [|by split_and!..].
  destruct (arith checked 64 _) as [total|e|]; [|by split_and!..]. split_and!; [|by apply same_files|done].
  destruct Hi as [Hp Hc Hf Hd Hca Hb]. constructor; try done.
  unfold cache_ok in *. cbn [fst cache set_cache chunks]. rewrite lru_put_entries.
  apply evict_entries in He as [gone He]. rewrite He in Hca. apply Forall_app in Hca as [Hca _].
  by apply lru_push_Forall.
Qed.

(** *** Writing *)

Lemma safe_add_dedup P r Q : (∀ s, P s → holds s (ref_hash r) ∧ Q tt (add_dedup r s)) →
  safe P (modify_st (add_dedup r)) Q.
Proof.
  intros Hr. apply triple_modify; [apply _|]. intros s Hi Hp. destruct (Hr s Hp) as [Hh Hq].
  split_and!; [|by apply same_files|done]. destruct Hi as [Hpk Hc Hf Hd Hca Hb]. constructor; try done.
  intros h r'. cbn [dedup_index add_dedup]. destruct (decide (ref_hash r = h)) as [<-|E].
  - rewrite lookup_insert_eq. by intros [= <-].
  - rewrite lookup_insert_ne by done. apply Hd.
Qed.

Lemma safe_pending_syncs P x : (∀ s y, P s → P (set_pending_syncs y s)) →
  safe P (modify_st (λ s, set_pending_syncs (x s) s)) (λ _, P).
Proof.
  intros Hf. apply triple_modify; [apply _|]. intros s Hi Hp. split_and!; [by destruct Hi|by apply same_files|auto].
Qed.

Lemma safe_pre {A} P (m : sto A) Q : safe (λ _, True) m Q → safe P m Q.
Proof. intros Hm s Hi _. by apply Hm. Qed.
Lemma safe_conseq {A} P P' (m : sto A) Q : (∀ s, P s → P' s) → safe P' m Q → safe P m Q.
Proof. intros HP Hm s Hi Hs. by apply Hm, HP. Qed.
Lemma safe_post {A} P (m : sto A) Q Q' : safe P m Q → (∀ a s, Q a s → Q' a s) → safe P m Q'.
Proof.
  intros Hm HQ s Hi Hp. destruct (Hm s Hi Hp) as (? & ? & Hq). split_and!; [done..|].
  intros a Ha. by apply HQ, Hq.
Qed.

(** What [extends] preserves goes through a step about which nothing else is known. *)
Lemma safe_holds {A} h (m : sto A) : safe (λ _, True) m (λ _ _, True) →
  safe (λ s, holds s h) m (λ _ s, holds s h).
Proof.
  intros Hm s Hi Hs. destruct (Hm s Hi I) as (? & Hle & _). split_and!; [done..|].
  intros a _. by apply (holds_frame s).
Qed.
Lemma safe_ret {A} P (a : A) (Q : A → Store → Prop) : (∀ s, P s → Q a s) → safe P (mret a) Q.
Proof. intros HQ. apply triple_ret; [apply _|]. auto. Qed.

Lemma safe_sync_first P (op : fs_op) (b : bool) ops (Q : unit → Store → Prop) :
  perform op = sync_all → safe P (perform_all ops) Q →
  safe P (perform_all ((if b then [op] else []) ++ ops)) Q.
Proof.
  intros Hop Hops. destruct b; [|done]. cbn [app perform_all]. rewrite Hop.
  eapply triple_bind; [apply _|by apply (safe_ret P tt (λ _, P))|]. by intros [].
Qed.
Lemma safe_write_ops policy h data : blake3 data = h →
  safe (λ _, True) (perform_all (write_ops policy (object_temp_path h) (object_path h) data))
    (λ _ s, holds s h).
Proof.
  intros Hh. assert (ContentHash.wf h) as Hw by (by rewrite <-Hh).
  pose proof (scratch_temp h Hw) as Hscratch. unfold write_ops. cbn [app perform_all perform].
  eapply triple_bind; [apply _|by apply safe_create|]. intros [].
  eapply triple_bind; [apply _|by apply safe_append|]. intros []. rewrite app_nil_l.
  apply safe_sync_first; [done|]. cbn [perform_all perform].
  eapply triple_bind; [apply _|by apply safe_rename|]. intros [].
  rewrite <-(app_nil_r (if should_fsync_directory policy then _ else _)).
  apply safe_sync_first; [done|]. by apply safe_ret.
Qed.

Lemma safe_write_atomic h data : blake3 data = h →
  safe (λ _, True) (write_atomic checked (object_path h) data) (λ _ s, holds s h).
Proof.
  intros Hh. assert (ContentHash.wf h) as Hw by (by rewrite <-Hh).
  destruct (object_temp_split h Hw) as (_ & _ & rest & _ & _ & Hlast & Htemp & _).
  unfold write_atomic. apply triple_get_bind. intros self. rewrite Hlast. cbn [ok_or].
  apply triple_lift_bind; [apply _|]. intros name [= <-]. rewrite Htemp. cbn zeta.
  eapply triple_bind; [apply _|by apply safe_pre, safe_write_ops|]. intros [].
  destruct (fsync_policy (config self)) as [|n| |]; [by apply safe_ret| |by apply safe_ret..].
  eapply triple_bind; [apply _|by apply safe_pending_syncs|]. intros [].
  apply triple_lift_bind; [apply _|]. intros pending _.
  destruct (n <=? pending); [by apply (safe_pending_syncs _ (λ _, 0))|by apply safe_ret].
Qed.

Lemma safe_write_individual h data : blake3 data = h →
  safe (λ _, True) (write_individual checked data h)
    (λ r s, r = {| ref_hash := h; ref_size := zlen data |} ∧ holds s h).
Proof.
  intros Hh. unfold write_individual. eapply triple_bind; [apply _|by apply safe_write_atomic|].
  intros []. by apply safe_ret.
Qed.

Lemma packed_none h s : store_inv s → packed h s = Ok None.
Proof. intros Hi. unfold packed. by rewrite si_packs. Qed.

Lemma path_exists_holds h s : store_inv s → ContentHash.wf h →
  path_exists (object_path h) s = true ↔ holds s h.
Proof.
  intros Hi Hw. unfold path_exists. rewrite bool_decide_eq_true. split.
  - intros [c Hc]. exists c. split; [done|]. by eapply si_files.
  - intros (c & Hc & _). eauto.
Qed.

Lemma safe_exists h : ContentHash.wf h →
  safe (λ _, True) (exists_ h) (λ found s, found = true ↔ holds s h).
Proof.
  intros Hw. unfold exists_. apply triple_get_bind. intros self s Hi [-> _].
  pose proof (path_exists_holds h self Hi Hw) as Hp. destruct (path_exists _ self).
  - split_and!; [done|done|]. by intros a [= <-].
  - rewrite packed_none by done. split_and!; [done|done|]. by intros a [= <-].
Qed.

Lemma safe_write data :
  safe (λ _, True) (write checked data) (λ r s, ref_hash r = blake3 data ∧ holds s (blake3 data)).
Proof.
  unfold write. destruct (negb _); [apply safe_fail|]. cbn zeta. apply triple_get_bind. intros self.
  destruct (dedup_index self !! blake3 data) as [r|] eqn:Hr.
  { intros s Hi [-> _]. destruct (si_dedup _ Hi _ _ Hr) as [E Hh].
    split_and!; [by destruct Hi|by apply same_files|]. intros a [= <-]. by split. }
  apply safe_pre. eapply triple_bind; [apply _|by apply safe_exists|]. intros found.
  destruct found.
  - eapply triple_bind; [apply _|apply (safe_add_dedup _ _ (λ _ s, holds s (blake3 data)))|].
    + intros s Hs. cbn [ref_hash]. assert (holds s (blake3 data)) as Hh by (by apply Hs). by split.
    + intros []. by apply safe_ret.
  - assert (safe (λ _, True) (write_individual checked data (blake3 data))
      (λ r s, ref_hash r = blake3 data ∧ holds s (blake3 data))) as Hw.
    { eapply safe_post; [by apply safe_write_individual|]. by intros r s [-> ?]. }
    apply safe_pre. destruct (enable_packfiles (config self)); [|done]. destruct (packfile_manager self) as [[m d]|]; [|done].
    destruct (should_pack m (zlen data)); [|done]. unfold write_with_packing.
    apply triple_get_bind. intros self'. destruct (packfile_manager self'); by apply safe_pre.
Qed.

Lemma safe_set_batch P x Q :
  (∀ s, store_inv s → P s → (∀ h d, (h, d) ∈ pending (x s) → blake3 d = h) ∧ Q tt (set_batch (x s) s)) →
  safe P (modify_st (λ s, set_batch (x s) s)) Q.
Proof.
  intros Hx. apply triple_modify; [apply _|]. intros s Hi Hp. destruct (Hx s Hi Hp).
  split_and!; [by destruct Hi|by apply same_files|done].
Qed.

Lemma safe_get_inv {B} P (f : Store → sto B) Q :
  (∀ self, store_inv self → P self → safe (λ s, P s) (f self) Q) → safe P (get_st ≫= f) Q.
Proof. intros Hf s Hi Hp. by apply (Hf s). Qed.

(** *** Reading *)

Lemma safe_read_individual h :
  safe (λ _, True) (read_individual h) (λ d _, blake3 d = h).
Proof.
  intros s Hi _. unfold read_individual, mbind, st_bind, get_st, fs_read, fail, lift. cbn zeta.
  destruct (negb _); [by split_and!|]. destruct (_ =? 0); [by split_and!|].
  destruct (files s !! object_path h) as [c|]; [|by split_and!]. destruct (negb _); [by split_and!|].
  case_bool_decide as Hh; split_and!; try done. by intros d [= <-].
Qed.

Lemma validate_content_hash_wf h : validate_content_hash (ContentHash.to_hex h) = true ↔ ContentHash.wf h.
Proof.
  unfold validate_content_hash, ContentHash.to_hex, ContentHash.wf.
  rewrite hex_encode_digits, hex_encode_length, andb_true_r, Z.eqb_eq. lia.
Qed.

(** The individual file, and a read that misses the cache, as equations. *)
Lemma read_individual_eq h s c : files s !! object_path h = Some c →
  read_individual h s = (s,
    if decide (c = []) then Err (Error (CorruptObject "Object file is empty"))
    else if decide (blake3 c = h) then Ok c else Err (Error (HashMismatch h (blake3 c)))).
Proof.
  intros Hc. unfold read_individual, mbind, st_bind, get_st, fs_read, fail, lift, path_exists.
  rewrite Hc. cbn [default from_option]. rewrite bool_decide_true by eauto. cbn [negb].
  destruct (decide (c = [])) as [->|Hne]; [done|].
  rewrite (proj2 (Z.eqb_neq _ _)) by (by rewrite zlen_zero).
  cbn [id]. rewrite Hc, Z.eqb_refl. cbn [negb].
  destruct (decide (blake3 c = h)); [by rewrite bool_decide_true|by rewrite bool_decide_false].
Qed.
Lemma read_miss now h s : ContentHash.wf h → enable_packfiles (config s) = false →
  lru_find h (lru_entries (chunks (cache s))) = None →
  read checked now h s =
    (data ← read_individual h; _ ← update_cache checked now h data;
     _ ← modify_stats (count_read (zlen data)); mret data)
      (set_stats (count_cache 0 1 (stats s)) (set_cache (miss (cache s)) s)).
Proof.
  intros Hw Hp Hmiss. unfold read. rewrite (proj2 (validate_content_hash_wf h)) by done. cbn [negb].
  unfold mbind at 1, st_bind at 1, get_st at 1.
  rewrite (proj2 (lru_get_None _ _ _) Hmiss).
  erewrite st_bind_eq by reflexivity. erewrite st_bind_eq by reflexivity.
  set (s1 := set_stats _ _). unfold mbind at 1, st_bind at 1, get_st at 1.
  assert (packed h s1 = Ok None) as Hpk by (unfold packed; cbn; by rewrite Hp).
  unfold mbind at 1, st_bind at 1, lift at 1. by rewrite Hpk.
Qed.

Lemma safe_read now h : safe (λ _, True) (read checked now h) (λ d _, blake3 d = h).
Proof.
  unfold read. destruct (negb _); [apply safe_fail|]. apply safe_get_inv. intros self Hi _.
  destruct (lru_get_mut h (chunks (cache self))) as [[x put_back]|] eqn:Hget.
  - destruct (lru_get_Some _ _ _ _ _ Hget) as [Hfind Hput]. apply lru_find_Some in Hfind.
    assert (entry_ok (h, x)) as [Hx Hxs].
    { pose proof (si_cache _ Hi) as Hc. unfold cache_ok in Hc. rewrite Forall_forall in Hc. by apply Hc. }
    apply triple_lift_bind; [apply _|]. intros n _.
    eapply triple_bind; [apply _|apply (safe_set_cache _ (λ _, _) (λ _ _, True))|].
    { intros s _ _. split; [|done]. unfold cache_ok. cbn [hit chunks].
      destruct (Hput {| cached_data := cached_data x; cached_size := cached_size x;
        last_accessed := now; access_count := n |}) as [-> _].
      constructor; [by split|]. apply lru_remove_Forall, (si_cache _ Hi). }
    intros []. eapply triple_bind; [apply _|by apply safe_stats|]. intros []. by apply safe_ret.
  - eapply triple_bind; [apply _|apply (safe_set_cache _ (λ _, _) (λ _ _, True))|].
    { intros s _ _. split; [apply (si_cache _ Hi)|done]. }
    intros []. eapply triple_bind; [apply _|by apply safe_stats|]. intros [].
    apply safe_get_inv. intros self' Hi' _. rewrite packed_none by done.
    apply triple_lift_bind; [apply _|]. intros found [= <-].
    eapply triple_bind; [apply _|apply safe_read_individual|]. intros d s Hs Hd. revert s Hs.
    enough (safe (λ _, True) (_ ← update_cache checked now h d; _ ← modify_stats (count_read (zlen d)); mret d)
      (λ d _, blake3 d = h)) as Hrest by (intros s Hs; by apply Hrest).
    eapply triple_bind; [apply _|by apply safe_update_cache|]. intros [].
    eapply triple_bind; [apply _|by apply safe_stats|]. intros []. by apply safe_ret.
Qed.

Lemma safe_catch {A} (m : sto A) f Q : safe (λ _, True) m Q →
  safe (λ _, True) (catch m f) (λ _ _, True).
Proof.
  intros Hm s Hi _. destruct (Hm s Hi I) as (? & ? & _). unfold catch.
  destruct (m s) as [s1 [a|[e|]|]]; by split_and!.
Qed.
Lemma safe_ignore (m : sto unit) Q : safe (λ _, True) m Q → safe (λ _, True) (ignore m) (λ _ _, True).
Proof.
  intros Hm s Hi _. destruct (Hm s Hi I) as (? & ? & _). unfold ignore.
  destruct (m s) as [s1 [a|[e|]|]]; by split_and!.
Qed.
Lemma safe_read_then {B} now h (b : B) : safe (λ _, True) (_ ← read checked now h; mret b) (λ _ _, True).
Proof. eapply triple_bind; [apply _|apply safe_read|]. intros d. by apply safe_ret. Qed.

Lemma safe_prefetch now hs : safe (λ _, True) (prefetch checked now hs) (λ _ _, True).
Proof.
  unfold prefetch. apply triple_get_bind. intros self. apply safe_pre.
  case_if; [by apply safe_ret|]. induction hs as [|h hs IH]; cbn [prefetch_all]; [by apply safe_ret|].
  apply triple_get_bind. intros self'. apply safe_pre. eapply triple_bind; [apply _| |intros []; apply safe_pre, IH].
  case_if; [by apply (safe_ret _ _ (λ _ _, True))|]. eapply safe_ignore, safe_read_then.
Qed.

Lemma safe_clear_cache : safe (λ _, True) clear_cache (λ _ _, True).
Proof.
  apply safe_set_cache. intros s _ _. split; [|done]. unfold cache_ok. cbn [chunks].
  destruct (lru_clear_entries _ (chunks (cache s))) as [-> _]. constructor.
Qed.

Lemma safe_verify_integrity now : safe (λ _, True) (verify_integrity checked now) (λ _ _, True).
Proof.
  unfold verify_integrity. apply triple_get_bind. intros self. apply safe_pre.
  generalize VerificationReport_new. induction (map fst (shard_files (files self))) as [|p ps IH];
    intros r; cbn [verify_files]; [by apply safe_ret|].
  destruct (path_hash p) as [h| |]; [|apply IH..]. intros s Hi _.
  assert (safe (λ _, True) (verify_single_object checked now h) (λ _ _, True)) as Hv.
  { eapply safe_catch, safe_read_then. }
  destruct (Hv s Hi I) as (Hi1 & Hle1 & _).
  destruct (verify_single_object checked now h s) as [s1 [[]|[e|]|]]; cbn [fst snd] in *;
    try (by split_and!);
    match goal with |- context [verify_files checked now ps ?r' s1] =>
      destruct (IH r' s1 Hi1 I) as (? & ? & ?) end; (split_and!; [done|by etrans|done]).
Qed.

(** *** Streams *)

Lemma buf_push_all chunk buf : let '(out, buf') := buf_push chunk buf in out ++ buf' = buf ++ chunk.
Proof.
  unfold buf_push. destruct (Z.ltb_spec BUF_SIZE (zlen buf + zlen chunk)), (Z.leb_spec BUF_SIZE (zlen chunk));
    cbn [app]; rewrite ?app_nil_r; try done.
  pose proof (zlen_nonneg buf). assert (buf = []) as -> by (apply zlen_zero; lia). by rewrite app_nil_r.
Qed.
Lemma safe_copy_reader reader p c total fed buf : scratch p →
  safe (λ s, files s !! p = Some c) (copy_reader checked reader p total fed buf)
    (λ r s, ∃ new, files s !! p = Some (c ++ buf ++ new) ∧ r.2 = fed ++ new).
Proof.
  intros Hp. assert (∀ c total fed buf, safe (λ s, files s !! p = Some c) (_ ← fs_append p buf; mret (total, fed))
    (λ (r : Z * list byte) s, ∃ new, files s !! p = Some (c ++ buf ++ new) ∧ r.2 = fed ++ new)) as Hflush.
  { intros c' total' fed' buf'. eapply triple_bind; [apply _|by apply safe_append|]. intros []. apply safe_ret.
    intros s Hs. exists []. by rewrite !app_nil_r. }
  revert c total fed buf. induction reader as [|[chunk|e|] reader IH]; intros c total fed buf; cbn [copy_reader].
  - apply Hflush.
  - case_bool_decide as Hc; [apply Hflush|]. pose proof (buf_push_all chunk buf) as Hpush. destruct (buf_push chunk buf) as [out buf'].
    eapply triple_bind; [apply _|by apply safe_append|]. intros [].
    apply triple_lift_bind; [apply _|]. intros total' _. eapply safe_post; [apply IH|].
    intros r s (new & Hn & Hr). exists (chunk ++ new). rewrite Hn, Hr, <-!app_assoc, (app_assoc out), Hpush. by rewrite <-!app_assoc.
  - apply safe_fail.
  - intros s Hi _. by split_and!.
Qed.

Lemma safe_place p c found : scratch p →
  safe (λ s, files s !! p = Some c ∧ (found = true → holds s (blake3 c))) (place p found (blake3 c)) (λ _ s, holds s (blake3 c)).
Proof.
  intros Hp. unfold place. destruct found.
  - eapply triple_weaken; [apply _|apply (safe_holds (blake3 c)); by apply safe_remove| |done]. intros s _ [_ Hh]. by apply Hh.
  - eapply triple_weaken; [apply _|by apply safe_rename| |done]. by intros s _ [Hc _].
Qed.
Lemma safe_publish p c size : scratch p →
  safe (λ s, files s !! p = Some c) (publish p (blake3 c) size)
    (λ r s, r = {| ref_hash := blake3 c; ref_size := size |} ∧ holds s (blake3 c)).
Proof.
  intros Hp. unfold publish. apply triple_get_bind. intros self s Hi [-> Hc]. cbn zeta.
  pose proof (path_exists_holds (blake3 c) self Hi (blake3_wf c)) as Hex. set (found := path_exists _ self) in *.
  revert Hc. enough (safe (λ s, files s !! p = Some c ∧ (found = true → holds s (blake3 c)))
    (_ ← place p found (blake3 c); _ ← modify_st (add_dedup {| ref_hash := blake3 c; ref_size := size |});
     _ ← (if found then mret tt else modify_stats (count_write size)); mret {| ref_hash := blake3 c; ref_size := size |})
    (λ r s, r = {| ref_hash := blake3 c; ref_size := size |} ∧ holds s (blake3 c))) as Hs
    by (intros Hc; apply Hs; [done|by split; [|apply Hex]]).
  eapply triple_bind; [apply _|by apply safe_place|]. intros [].
  eapply triple_bind; [apply _|apply (safe_add_dedup _ _ (λ _ s, holds s (blake3 c))); by intros|]. intros [].
  eapply triple_bind; [apply _|instantiate (1 := λ _ s, holds s (blake3 c))|intros []; by apply safe_ret].
  destruct found; [by apply safe_ret|by apply safe_stats].
Qed.

Lemma scratch_stream name : scratch [".tmp"%string; name].
Proof. by apply scratch_head. Qed.

(** What is received is in the temporary file, and has the hash that was expected. *)
Lemma safe_receive id reader expected :
  safe (λ _, True) (receive checked id reader expected)
    (λ '(h, _) s, (∃ c, files s !! stream_path id = Some c ∧ blake3 c = h) ∧ ∀ h', expected = Some h' → h = h').
Proof.
  unfold receive. cbn zeta. assert (scratch (stream_path id)) as Hp by apply scratch_stream.
  eapply triple_bind; [apply _|by apply safe_create|]. intros [].
  eapply triple_bind; [apply _|by apply safe_copy_reader|]. intros [total fed].
  apply (safe_conseq _ (λ s, files s !! stream_path id = Some fed)); [by intros s (new & Hn & E); simpl in E; subst|].
  destruct expected as [h|]; [case_bool_decide as Hh; cbn [negb]|].
  - apply safe_ret. intros s Hs. split; [by exists fed|]. by intros ? [= <-].
  - eapply triple_bind; [apply _|by apply safe_pre; eapply safe_ignore, safe_remove|]. intros []. apply safe_fail.
  - apply safe_ret. intros s Hs. split; [by exists fed|done].
Qed.
Lemma safe_write_stream id reader expected :
  safe (λ _, True) (write_stream checked id reader expected)
    (λ r s, holds s (ref_hash r) ∧ ∀ h, expected = Some h → ref_hash r = h).
Proof.
  unfold write_stream. eapply triple_bind; [apply _|apply safe_receive|]. intros [h n].
  intros s Hi [(c & Hc & Hh) Hx]. subst h.
  destruct (safe_publish (stream_path id) c n (scratch_stream _) s Hi Hc) as (Hi' & Hle & Hq). split_and!; [done..|].
  intros r Hr. destruct (Hq r Hr) as [-> Hh]. by split.
Qed.

(** *** Resumable writes *)

Definition partial_ok (p : PartialTransfer) : Prop := head (temp_path p) ≠ Some "objects"%string.

Lemma safe_start id now e n : safe (λ _, True) (start_resumable_write id now e n) (λ p _, partial_ok p).
Proof. by apply safe_ret. Qed.

Lemma safe_read_file p P : safe P (fs_read p) (λ c s, files s !! p = Some c ∧ P s).
Proof.
  intros s Hi Hp. unfold fs_read. split_and!; [done|done|]. cbn [fst snd].
  by destruct (files s !! p); intros ? [= <-].
Qed.

Lemma safe_continue now p reader : partial_ok p →
  safe (λ _, True) (continue_resumable_write checked now p reader) (λ p' _, partial_ok p').
Proof.
  intros Hp. apply scratch_head in Hp as Hs. unfold continue_resumable_write.
  case_if; [apply safe_fail|].
  apply (triple_bind _ _ _ _ _ (λ _ s, ∃ c, files s !! temp_path p = Some c)).
  { case_if.
    - eapply safe_post; [by apply safe_create|]. intros a s E. by exists [].
    - eapply triple_bind; [apply _|apply safe_read_file|]. intros c. apply safe_ret. intros s []. eauto. }
  intros [] s Hi [c Hc]. revert s Hi Hc.
  enough (safe (λ s, files s !! temp_path p = Some c)
    ('(bytes_written, _) ← copy_reader checked reader (temp_path p) 0 [] [];
     received ← lift (arith checked 64 (bytes_received p + bytes_written));
     mret {| temp_path := temp_path p; expected_hash := expected_hash p;
             expected_size := expected_size p; bytes_received := received;
             hash_state := Some "state_placeholder"%string; expires_at := expires_at p |})
    (λ p' _, partial_ok p')) as Hrest by (intros s Hi Hc; by apply Hrest).
  eapply triple_bind; [apply _|by apply safe_copy_reader|]. intros [n fed].
  apply triple_lift_bind; [apply _|]. intros received _. by apply safe_ret.
Qed.

Lemma safe_complete now p : partial_ok p →
  safe (λ _, True) (complete_resumable_write now p)
    (λ r s, holds s (ref_hash r) ∧ (∀ h, expected_hash p = Some h → ref_hash r = h) ∧
       ∀ n, expected_size p = Some n → ref_size r = n).
Proof.
  intros Hp. apply scratch_head in Hp as Hs. unfold complete_resumable_write.
  apply triple_get_bind. intros self. apply safe_pre.
  assert (∀ P (Q : ObjectRef → Store → Prop) e, safe P (_ ← ignore (fs_remove (temp_path p)); fail e) Q) as Hfail.
  { intros P Q e. eapply triple_bind; [apply _|by apply safe_pre; eapply safe_ignore, safe_remove|].
    intros []. apply safe_fail. }
  case_if; [apply Hfail|]. case_if; [apply safe_fail|].
  eapply triple_bind; [apply _|apply safe_read_file|]. intros c. cbn zeta.
  apply (safe_conseq _ (λ s, files s !! temp_path p = Some c)); [by intros s []|].
  case_if as Hh; [apply Hfail|]. case_if as Hn; [apply Hfail|].
  eapply safe_post; [by apply safe_publish|]. intros r s [-> Hholds]. split_and!; [done|..].
  - intros h Eh. rewrite Eh in Hh. by apply negb_false_iff, bool_decide_eq_true in Hh.
  - intros n En. rewrite En in Hn. apply negb_false_iff, Z.eqb_eq in Hn. done.
Qed.

Lemma safe_cancel p : partial_ok p → safe (λ _, True) (cancel_resumable_write p) (λ _ _, True).
Proof.
  intros Hp. apply scratch_head in Hp as Hs. unfold cancel_resumable_write.
  apply triple_get_bind. intros self. apply safe_pre. case_if; [by apply safe_remove|by apply safe_ret].
Qed.

Lemma safe_cleanup now created : safe (λ _, True) (cleanup_expired_partials now created) (λ _ _, True).
Proof.
  unfold cleanup_expired_partials. apply triple_get_bind. intros self. apply safe_pre.
  assert (Forall scratch (partial_files (files self))) as Hps.
  { rewrite Forall_forall. intros p Hp. unfold partial_files in Hp. apply list_elem_of_filter in Hp as [(Hh & _) _].
    apply scratch_head. by rewrite Hh. }
  generalize 0. induction Hps as [|p ps Hp Hps IH]; intros n; cbn [cleanup_partials]; [by apply safe_ret|].
  destruct (created p); [|apply IH]. case_if; [|apply IH].
  eapply triple_bind; [apply _|by eapply safe_ignore, safe_remove|]. intros []. apply safe_pre, IH.
Qed.

(** *** Recovery *)

Lemma tmp_is_scratch p : is_Some (last p ≫= str_strip_suffix ".tmp") → scratch p.
Proof.
  intros [u Hu] h Hh ->.
  destruct (object_path_split h Hh) as (a & b & c & d & r & Hx & _ & Hp). rewrite Hp in Hu.
  cbn [last mbind option_bind] in Hu. apply str_strip_suffix_Some in Hu.
  pose proof (hex_encode_digits h) as Hd. unfold ContentHash.to_hex in Hx. rewrite Hx, Hu in Hd.
  assert (∀ s, forallb is_ascii_hexdigit (String.list_ascii_of_string (s +:+ ".tmp")) = false) as Hdot.
  { induction s as [|x s IH]; [done|]. exact (eq_trans (f_equal (andb _) IH) (andb_false_r _)). }
  cbn [String.list_ascii_of_string forallb] in Hd. rewrite Hdot, !andb_false_r in Hd. done.
Qed.

Lemma safe_on_result {A B} P (m : sto A) (f : A → sto B) g Q R :
  safe P m Q → (∀ a, safe (Q a) (f a) R) → (∀ e, safe (λ _, True) (g e) R) →
  safe P (on_result m f g) R.
Proof.
  intros Hm Hf Hg s Hi Hp. destruct (Hm s Hi Hp) as (Hi1 & Hle & Hq). unfold on_result.
  destruct (m s) as [s1 [a|[e|]|]]; cbn [fst snd] in *; [| |by split_and!..].
  - destruct (Hf a s1 Hi1 (Hq a eq_refl)) as (? & ? & ?). split_and!; [done|by etrans|done].
  - destruct (Hg e s1 Hi1 I) as (? & ? & ?). split_and!; [done|by etrans|done].
Qed.

Lemma safe_recover_temp_file p r : safe (λ _, True) (recover_temp_file p r) (λ _ _, True).
Proof.
  unfold recover_temp_file. apply triple_get_bind. intros self. apply safe_pre.
  destruct (last p ≫= str_strip_suffix ".tmp") as [name|] eqn:Hname; [|apply safe_fail]. cbn zeta.
  assert (scratch p) as Hp by (apply tmp_is_scratch; by rewrite Hname).
  assert (∀ P, safe P (_ ← ignore (fs_remove p); mret (add_cleaned r)) (λ _ _, True)) as Hclean.
  { intros P. eapply triple_bind; [apply _|by apply safe_pre; eapply safe_ignore, safe_remove|].
    intros []. by apply safe_ret. }
  case_if.
  { eapply safe_on_result; [by apply safe_remove|intros []; by apply safe_ret|intros e; by apply safe_ret]. }
  eapply safe_on_result; [apply safe_read_file| |intros e; apply Hclean].
  intros c. apply (safe_conseq _ (λ s, files s !! p = Some c)); [by intros s []|].
  case_bool_decide as Hc; [|apply Hclean]. rewrite <-Hc.
  eapply safe_on_result; [by apply safe_rename|intros []; by apply safe_ret|intros e; apply Hclean].
Qed.

Lemma safe_recover : safe (λ _, True) recover (λ _ _, True).
Proof.
  unfold recover. apply triple_get_bind. intros self. apply safe_pre.
  generalize {| recovered := 0; cleaned := 0; recovery_errors := [] |}.
  induction (temp_files (files self)) as [|p ps IH]; intros r; cbn [recover_all]; [by apply safe_ret|].
  eapply safe_on_result; [apply safe_recover_temp_file|intros r'; apply safe_pre, IH|intros e; apply IH].
Qed.
End invariant.

(** ** Opening *)

Section opening.
Context `{Lru, Codecs, Hex, Blake3, MapIter} (checked : bool).

(** A store that is opened. *)
Definition fresh_store (cfg : ContentStoreConfig) (now : Z) (root : Files) (c : ChunkCache) : Store :=
  {| config := cfg; files := root; pending_syncs := 0; packfile_manager := None; cache := c;
     batch_writer := {| pending := []; batch_size := 0; last_flush := now |};
     dedup_index := ∅; stats := RuntimeStats_default |}.

Lemma fresh_store_inv cfg now root c : enable_packfiles cfg = false → compression cfg = NoCompression →
  names_ok root → lru_entries (chunks c) = [] → store_inv (fresh_store cfg now root c).
Proof.
  intros Hp Hc Hn He. constructor; try done.
  - unfold cache_ok. cbn [cache fresh_store]. rewrite He. constructor.
  - by intros h d ?%elem_of_nil.
Qed.

Lemma new_store cfg now root packs s : enable_packfiles cfg = false →
  new_with_config checked cfg now root packs = Ok s →
  ∃ c, lru_entries (chunks c) = [] ∧ lru_cap (chunks c) = max_chunks (cache_config cfg) ∧ total_size c = 0 ∧
    (if enable_recovery cfg then ∃ r, recover (fresh_store cfg now root c) = (s, Ok r)
     else s = fresh_store cfg now root c).
Proof.
  intros Hp. unfold new_with_config. rewrite Hp. cbn [mbind outcome_bind mret outcome_ret].
  unfold ChunkCache_new. destruct (max_chunks _ =? 0); [done|]. cbn [or_panic mbind outcome_bind].
  set (c := {| chunks := lru_new _; total_size := 0; hit_count := 0; miss_count := 0; eviction_count := 0 |}).
  fold (fresh_store cfg now root c). intros Hs. exists c. split_and!; [apply lru_new_entries|apply lru_new_cap|done|].
  destruct (enable_recovery cfg); [|by injection Hs as <-].
  destruct (recover _) as [s' [r|e|]]; [|done..]. injection Hs as ->. by exists r.
Qed.

Lemma new_store_inv cfg now root packs s : enable_packfiles cfg = false →
  compression cfg = NoCompression → names_ok root →
  new_with_config checked cfg now root packs = Ok s →
  store_inv s ∧ ∀ h c, root !! object_path h = Some c → blake3 c = h → holds s h.
Proof.
  intros Hp Hc Hn Hnew. destruct (new_store _ _ _ _ _ Hp Hnew) as (ch & He & _ & _ & Hs).
  pose proof (fresh_store_inv cfg now root ch Hp Hc Hn He) as Hi.
  assert (∀ h c, root !! object_path h = Some c → blake3 c = h → holds (fresh_store cfg now root ch) h) as Hh.
  { intros h c Hl E. by exists c. }
  destruct (enable_recovery cfg); [|by subst].
  destruct Hs as [r Hs]. destruct (safe_recover _ Hi I) as (Hi' & [Hle _] & _). rewrite Hs in *.
  split; [done|]. intros h c Hl E. apply Hle. by apply (Hh h c).
Qed.

End opening.

(** ** When a read returns *)

Section termination.
Context `{Lru, Codecs, Hex, Blake3, MapIter} (checked : bool).

Definition entries_size (l : list (ContentHash.t * CachedChunk)) : Z :=
  sum_of (λ e, cached_size e.2) l.
(** What the cache counts beyond what it holds: [put] drops the least recently
    used entry of a full cache, or replaces an entry, without counting it off. *)
Definition drift (c : ChunkCache) : Z := total_size c - entries_size (lru_entries (chunks c)).

Lemma entries_size_app l k : entries_size (l ++ k) = entries_size l + entries_size k.
Proof. apply sum_of_app. Qed.
Lemma entries_size_nonneg l : Forall entry_ok l → 0 ≤ entries_size l.
Proof.
  intros Hl. apply sum_of_nonneg. intros e He. rewrite Forall_forall in Hl.
  destruct (Hl e He) as [_ ->]. apply zlen_nonneg.
Qed.

Lemma evict_eq fuel size max c : cache_ok c → 0 ≤ drift c → 0 ≤ size → total_size c + size < 2 ^ 64 →
  (length (lru_entries (chunks c)) ≤ fuel)%nat →
  if decide (drift c + size ≤ max)
  then ∃ c', evict checked fuel size max c = Ok c' ∧ cache_ok c' ∧ drift c' = drift c ∧
    0 ≤ total_size c' ∧ total_size c' + size ≤ max ∧ total_size c' ≤ total_size c ∧
    hit_count c' = hit_count c ∧ miss_count c' = miss_count c
  else evict checked fuel size max c = Err Diverges.
Proof.
  revert c. induction fuel as [|fuel IH]; intros c Hok Hd Hs Hlt Hf.
  - destruct (lru_entries (chunks c)) as [|e l] eqn:He; [|simpl in Hf; lia].
    assert (total_size c = drift c) as Ht by (unfold drift; rewrite He; cbn; lia).
    cbn [evict]. rewrite arith_exact by lia. cbn [mbind outcome_bind].
    rewrite (proj2 (lru_pop_None _ _) He). case_decide as Hfit.
    + rewrite (proj2 (Z.leb_le _ _)) by lia. exists c. split_and!; try done; lia.
    + by rewrite (proj2 (Z.leb_gt _ _)) by lia.
  - pose proof (entries_size_nonneg _ Hok) as Hes.
    assert (total_size c = drift c + entries_size (lru_entries (chunks c))) as Ht by (unfold drift; lia).
    cbn [evict]. rewrite arith_exact by lia. cbn [mbind outcome_bind].
    destruct (Z.leb_spec (total_size c + size) max) as [Hfit|Hbig].
    { rewrite decide_True by lia. exists c. split_and!; try done; lia. }
    destruct (lru_pop (chunks c)) as [[[h x] rest]|] eqn:Hpop.
    + destruct (lru_pop_Some _ _ _ _ _ Hpop) as [He _]. rewrite He in *.
      unfold cache_ok in Hok. rewrite He in Hok. apply Forall_app in Hok as [Hok1 Hx].
      apply Forall_singleton in Hx as [_ Hx]. cbn [snd] in Hx. pose proof (zlen_nonneg (cached_data x)).
      pose proof (entries_size_nonneg _ Hok1). rewrite entries_size_app in Ht.
      assert (entries_size [(h, x)] = cached_size x) as E1 by (unfold entries_size, sum_of; cbn; lia).
      rewrite length_app in Hf. simpl in Hf.
      rewrite arith_exact by lia. cbn [mbind outcome_bind].
      set (c1 := {| chunks := rest; total_size := total_size c - cached_size x |}).
      specialize (IH c1 Hok1). assert (drift c1 = drift c) as Hdc.
      { unfold drift. cbn [chunks total_size c1]. rewrite He, entries_size_app. lia. }
      rewrite Hdc in IH. specialize (IH Hd Hs ltac:(cbn [total_size c1]; lia) ltac:(cbn [chunks c1]; lia)).
      case_decide as Hfit; [|done]. destruct IH as (c' & ? & ? & ? & ? & ? & Hle & ? & ?).
      exists c'. split_and!; try done. cbn [total_size c1] in Hle. lia.
    + apply lru_pop_None in Hpop. rewrite Hpop in Ht. cbn in Ht. rewrite decide_False by lia. by destruct fuel.
Qed.

(** Reading an object that is not in the cache returns if and only if its
    size, together with what the cache has lost count of, is at most the
    configured size of the cache: it then returns what is on disk. Otherwise the
    loop that evicts empties the cache and goes on for ever. An empty object is
    reported as corrupt. *)
Theorem read_returns_iff now h s c : store_inv s →
  files s !! object_path h = Some c → blake3 c = h →
  lru_find h (lru_entries (chunks (cache s))) = None →
  0 ≤ drift (cache s) → total_size (cache s) + zlen c < 2 ^ 64 →
  (read checked now h s).2 =
    if decide (c = []) then Err (Error (CorruptObject "Object file is empty"))
    else if decide (drift (cache s) + zlen c ≤ max_size_bytes (cache_config (config s))) then Ok c
    else Err Diverges.
Proof.
  intros Hi Hc Hh Hmiss Hd Hlt. pose proof (zlen_nonneg c) as Hlen.
  rewrite read_miss by (done || apply (si_packs _ Hi) || by rewrite <-Hh; apply blake3_length).
  set (s1 := set_stats _ _). unfold mbind at 1, st_bind at 1. rewrite (read_individual_eq h s1 c Hc).
  case_decide as Hne; [done|]. rewrite decide_True by done.
  unfold update_cache, mbind, st_bind, get_st, lift, modify_st, mret, st_ret. cbn zeta.
  cbn [cached_size].
  change (config s1) with (config s). change (cache s1) with (miss (cache s)).
  pose proof (evict_eq (length (lru_entries (chunks (miss (cache s))))) (zlen c)
    (max_size_bytes (cache_config (config s))) (miss (cache s)) (si_cache _ Hi) Hd Hlen Hlt ltac:(lia)) as Hev.
  change (drift (miss (cache s))) with (drift (cache s)) in Hev.
  case_decide as Hfit; [|by rewrite Hev]. destruct Hev as (c' & -> & _ & _ & Ht1 & Ht2 & Ht3 & _).
  change (total_size (miss (cache s))) with (total_size (cache s)) in Ht3.
  by rewrite arith_exact by lia.
Qed.
End termination.
