(* ===== verification/StorageTasks.v ===== *)
(** The content store: operations that run tasks side by side, and what clients
    may rely on.

    A flush of a batch, and [write_batch_stream], start a task for every object.
    The tasks take turns in any order ([run_schedule]); the tasks of a flush that
    write the same object share a temporary file, so that for a while it, or the
    object, may be empty ([flushing]). When all have ended the invariant of the
    store holds again. [store_keeps_objects] puts this together with the
    operations of StorageInv.v, for any sequence of requests. *)

From S2P Require Import Prelude Bytes CasInterface Packfile Storage StorageInv.
From Stdlib Require Import Init.Byte Strings.Byte Strings.Ascii ZArith Lia.
From stdpp Require Import base option list gmap sets strings numbers sorting.
Open Scope Z_scope.

(** ** Schedules *)

Section schedules.
Context {W T : Type} (running : T → bool) (step : nat → W * list T → W * list T) (permits : Z) (remaining : T → nat).
Context (Hrunning : ∀ t, running t = true → (0 < remaining t)%nat).
Context (Hstep : ∀ i x t, x.2 !! i = Some t → ∃ t', map remaining (step i x).2 = <[i := remaining t']> (map remaining x.2) ∧
  (remaining t' ≤ pred (remaining t))%nat).
Context (Hnone : ∀ i x, x.2 !! i = None → step i x = x).
Abbreviation turn := (turn running step permits).
#[local] Set Default Proof Using "Type*".

Lemma schedule_keeps (P : W * list T → Prop) schedule x :
  (∀ i x, P x → P (step i x)) → P x → P (foldl turn x schedule).
Proof using Type.
  intros HP. revert x. induction schedule as [|i schedule IH]; intros x Hx; [done|]. cbn. apply IH.
  unfold Storage.turn. case_match; [by apply HP|done].
Qed.
Definition lefts (x : W * list T) : list nat := map remaining x.2.
Lemma turn_lefts i x j n : lefts (turn x i) !! j = Some n → ∃ n', lefts x !! j = Some n' ∧ (n ≤ n')%nat.
Proof using Hnone Hstep.
  unfold Storage.turn, lefts. destruct (may_run running permits i x.2); [|intros Hj; by exists n].
  destruct (x.2 !! i) as [t|] eqn:Hi; [|rewrite Hnone by done; intros Hj; by exists n].
  destruct (Hstep i x t Hi) as (t' & -> & Hle). intros [(<- & <- & _)|[Hne Hj]]%list_lookup_insert_Some; [|by exists n].
  exists (remaining t). rewrite list_lookup_fmap, Hi. split; [done|lia].
Qed.
Lemma turns_lefts l x j n : lefts (foldl turn x l) !! j = Some n → ∃ n', lefts x !! j = Some n' ∧ (n ≤ n')%nat.
Proof using Hnone Hstep.
  revert x. induction l as [|i l IH]; intros x Hj; [by exists n|].
  destruct (IH _ Hj) as (n' & Hn' & Hle). destruct (turn_lefts _ _ _ _ Hn') as (n'' & ? & ?). exists n''. split; [done|lia].
Qed.
(** The tasks before [k] have ended. *)
Definition ended_before (k : nat) (x : W * list T) : Prop := ∀ j n, (j < k)%nat → lefts x !! j = Some n → n = 0%nat.
Lemma ended_turns k l x : ended_before k x → ended_before k (foldl turn x l).
Proof using Hnone Hstep. intros Hx j n Hj Hn. destruct (turns_lefts _ _ _ _ Hn) as (n' & Hn' & Hle). apply Hx in Hn'; [lia|done]. Qed.
Lemma ended_may_run k x : 0 < permits → ended_before k x → may_run running permits k x.2 = true.
Proof using Hrunning.
  intros Hp Hx. apply Z.ltb_lt. destruct (List.filter running (take k x.2)) as [|t l] eqn:Hf; [done|]. exfalso.
  assert (In t (t :: l)) as Hin by by left. rewrite <- Hf in Hin. apply filter_In in Hin as [Hin Hr].
  apply list_elem_of_In, list_elem_of_lookup_1 in Hin as [j [Hj Hlt]%lookup_take_Some]. apply Hrunning in Hr.
  rewrite (Hx j (remaining t)) in Hr; [lia|done|]. unfold lefts. by rewrite list_lookup_fmap, Hj.
Qed.
Lemma drain_task m k x : 0 < permits → ended_before k x → (∀ n, lefts x !! k = Some n → (n ≤ m)%nat) →
  ended_before (S k) (foldl turn x (replicate m k)).
Proof.
  intros Hp. revert x. induction m as [|m IH]; intros x Hx Hk.
  { intros j n Hj Hn. cbn in Hn. destruct (decide (j = k)) as [->|]; [apply Hk in Hn; lia|]. apply (Hx j); [lia|done]. }
  cbn. apply IH; [by apply (ended_turns k [k])|]. unfold Storage.turn. rewrite ended_may_run by done.
  intros n. unfold lefts in *. destruct (x.2 !! k) as [t|] eqn:Ht.
  - destruct (Hstep k x t Ht) as (t' & -> & Hle). rewrite list_lookup_fmap, Ht in Hk. specialize (Hk _ eq_refl).
    intros [(_ & <- & _)|[Hne _]]%list_lookup_insert_Some; [lia|done].
  - rewrite Hnone by done. by rewrite list_lookup_fmap, Ht.
Qed.
Lemma drain_tasks m n k x : 0 < permits → ended_before k x → (∀ j r, lefts x !! j = Some r → (r ≤ m)%nat) →
  ended_before (k + n) (foldl turn x (flat_map (replicate m) (seq k n))).
Proof.
  intros Hp. revert k x. induction n as [|n IH]; intros k x Hx Hm; [by rewrite Nat.add_0_r|].
  cbn [seq flat_map]. rewrite foldl_app, <-Nat.add_succ_comm. apply IH; [by apply drain_task; [..|intros r; apply Hm]|].
  intros j r Hj. destruct (turns_lefts _ _ _ _ Hj) as (r' & Hr & ?). apply Hm in Hr. lia.
Qed.
Lemma run_schedule_ends turns schedule x : 0 < permits → Forall (λ t, (remaining t ≤ turns)%nat) x.2 →
  Forall (λ t, remaining t = 0%nat) (run_schedule running step permits turns schedule x).2.
Proof.
  intros Hp Hx. unfold run_schedule, to_the_end. rewrite foldl_app. set (y := foldl turn x schedule).
  assert (∀ j r, lefts x !! j = Some r → (r ≤ turns)%nat) as Hm.
  { intros j r. unfold lefts. rewrite list_lookup_fmap. intros (t & Ht & ->)%fmap_Some. by eapply Forall_lookup in Hx. }
  assert (∀ l, length (foldl turn x l).2 = length x.2) as Hlen.
  { intros l. apply (schedule_keeps (λ z, length z.2 = length x.2)); [|done]. intros i z Hz.
    destruct (z.2 !! i) as [t|] eqn:Ht; [|by rewrite Hnone]. destruct (Hstep i z t Ht) as (t' & Hs & _).
    apply (f_equal length) in Hs. rewrite length_insert, !length_map in Hs. congruence. }
  apply Forall_lookup. intros j t Hj. apply (drain_tasks turns (length x.2) 0 y Hp) with (j := j).
  - intros i n Hi. lia.
  - intros i r Hi. destruct (turns_lefts _ _ _ _ Hi) as (r' & Hr & ?). apply Hm in Hr. lia.
  - apply lookup_lt_Some in Hj. unfold y in *. rewrite <-foldl_app, Hlen in Hj. done.
  - unfold lefts. rewrite list_lookup_fmap. unfold turn in *. by rewrite Hj.
Qed.
End schedules.

(** ** The tasks of a flush *)

Section flush.
Context `{Lru, Codecs, Hex, Blake3, MapIter} (checked : bool).
Implicit Types (s : Store) (w v : Writer) (ws : list Writer).
#[local] Hint Resolve blake3_wf : core.

Definition obj w : path := object_path (wr_hash w).
Definition tmp w : path := object_temp_path (wr_hash w).
Lemma object_temp_inj h h' : ContentHash.wf h → ContentHash.wf h' → object_temp_path h = object_temp_path h' → h = h'.
Proof.
  intros Hh Hh' E. apply object_path_inj; [done..|]. destruct (object_temp_split h Hh) as (a & b & r & Hr & -> & _ & _ & Ht).
  destruct (object_temp_split h' Hh') as (a' & b' & r' & Hr' & -> & _ & _ & Ht'). rewrite Ht, Ht' in E. injection E as -> -> E.
  pose proof (str_strip_suffix_app r ".tmp") as Hs. rewrite E, str_strip_suffix_app in Hs. by injection Hs as ->.
Qed.
Lemma object_temp_eq h : object_temp (object_path h) = object_temp_path h.
Proof. done. Qed.

(** What is left of the operations of a task. *)
Definition is_dir_sync (op : fs_op) : Prop := match op with SyncDir _ => True | _ => False end.
Inductive closing (t o : path) : list fs_op → Prop :=
  | closing_sync ops : closing t o ops → closing t o (SyncFile t :: ops)
  | closing_rename ops : Forall is_dir_sync ops → closing t o (Rename t o :: ops).
Inductive stage (t o : path) (d : list byte) : list fs_op → Prop :=
  | stage_create ops : closing t o ops → stage t o d (Create t :: Append t d :: ops)
  | stage_append ops : closing t o ops → stage t o d (Append t d :: ops)
  | stage_closing ops : closing t o ops → stage t o d ops
  | stage_renamed ops : Forall is_dir_sync ops → stage t o d ops.
Lemma write_ops_stage policy t o d : stage t o d (write_ops policy t o d).
Proof.
  apply stage_create. assert (closing t o ([Rename t o] ++ (if should_fsync_directory policy then [SyncDir (parent o)] else []))) as Hc
    by (apply closing_rename; destruct (should_fsync_directory policy); repeat constructor).
  destruct (should_fsync_file policy); [by apply closing_sync|exact Hc].
Qed.
Lemma closing_not_dir t o ops : closing t o ops → Forall is_dir_sync ops → False.
Proof. intros [] Hd; by apply Forall_cons in Hd as [? _]. Qed.

(** The task has its object in place, and has its temporary file or had it. *)
Definition present s h : Prop := is_Some (files s !! object_path h).
Definition placed (ph : WritePhase) : Prop :=
  match ph with
  | Writing ops => Forall is_dir_sync ops
  | Counting | Resetting | Caching | Indexing => True
  | Written (Ok _) => True
  | _ => False
  end.
Definition created (ph : WritePhase) : Prop :=
  match ph with Writing (Create _ :: _) => False | Writing _ => True | _ => False end.
Definition phase_ok w : Prop :=
  match wr_phase w with
  | Writing ops => stage (tmp w) (obj w) (wr_data w) ops
  | Written (Ok r) => ref_hash r = wr_hash w
  | _ => True
  end.

(** The store [s], with the tasks [ws] on their way since it was [s0]. *)
Record flushing (s0 s : Store) ws : Prop := {
  fl_config : config s = config s0;
  fl_packs : enable_packfiles (config s) = false;
  fl_plain : compression (config s) = NoCompression;
  fl_cache : cache_ok (cache s);
  fl_batch h d : (h, d) ∈ pending (batch_writer s) → blake3 d = h;
  fl_keeps h : ContentHash.wf h → present s0 h → present s h;
  fl_dedup h r : dedup_index s !! h = Some r → ref_hash r = h ∧ ContentHash.wf h ∧ present s h;
  fl_files h c : ContentHash.wf h → files s !! object_path h = Some c →
    blake3 c = h ∨ c = [] ∧ ∃ w, w ∈ ws ∧ wr_file w = Some (object_path h);
  fl_data w : w ∈ ws → blake3 (wr_data w) = wr_hash w;
  fl_same v w : v ∈ ws → w ∈ ws → wr_hash v = wr_hash w → wr_data v = wr_data w;
  fl_phase w : w ∈ ws → phase_ok w ∧ (placed (wr_phase w) → present s (wr_hash w));
  fl_open w p : w ∈ ws → wr_file w = Some p → (p = tmp w ∨ p = obj w) ∧
    (∃ ops, wr_phase w = Writing (Append (tmp w) (wr_data w) :: ops)) ∧ ∃ c, files s !! p = Some c ∧ (c = [] ∨ c = wr_data w);
  fl_temp w c : w ∈ ws → created (wr_phase w) → files s !! tmp w = Some c →
    c = wr_data w ∨ c = [] ∧ ∃ v, v ∈ ws ∧ wr_file v = Some (tmp w);
}.

Lemma elem_of_update {A} i (x y : A) (l : list A) : y ∈ <[i := x]> l → y = x ∨ y ∈ l.
Proof.
  intros [j [(_ & -> & _)|[_ Hj]]%list_lookup_insert_Some]%list_elem_of_lookup_1; [by left|right; by eapply list_elem_of_lookup_2].
Qed.
Lemma update_elem_of {A} i (x w : A) (l : list A) : l !! i = Some w → x ∈ <[i := x]> l.
Proof. intros Hi. eapply list_elem_of_lookup_2, list_lookup_insert_eq. by eapply lookup_lt_Some. Qed.
(** Another task stays as it is. *)
Lemma other_stays {A} i (x v w : A) (l : list A) : l !! i = Some w → v ∈ l → v ≠ w → v ∈ <[i := x]> l.
Proof.
  intros Hi [j Hj]%list_elem_of_lookup_1 Hne. apply (list_elem_of_lookup_2 _ j). rewrite list_lookup_insert_ne; [done|].
  intros ->. congruence.
Qed.

Section step.
Context (s0 s : Store) (ws : list Writer) (Hfl : flushing s0 s ws) (i : nat) (w : Writer) (Hi : ws !! i = Some w).
#[local] Set Default Proof Using "Type*".

Lemma step_in : w ∈ ws.
Proof. by eapply list_elem_of_lookup_2. Qed.
Lemma step_wf : ContentHash.wf (wr_hash w).
Proof. rewrite <-(fl_data _ _ _ Hfl w) by apply step_in. done. Qed.
Lemma other_wf v : v ∈ ws → ContentHash.wf (wr_hash v).
Proof. intros Hv. by rewrite <-(fl_data _ _ _ Hfl v). Qed.
Lemma tmp_not_obj h : ContentHash.wf h → tmp w ≠ object_path h.
Proof. intros Hh. apply object_temp_not_object; [apply step_wf|done]. Qed.
Lemma same_tmp v : v ∈ ws → tmp v = tmp w → wr_hash v = wr_hash w ∧ wr_data v = wr_data w.
Proof.
  intros Hv E. apply object_temp_inj in E; [|by apply other_wf|apply step_wf]. split; [done|].
  apply (fl_same _ _ _ Hfl); [done|apply step_in|done].
Qed.
Lemma same_obj v : v ∈ ws → obj v = obj w → wr_hash v = wr_hash w ∧ wr_data v = wr_data w.
Proof.
  intros Hv E. apply object_path_inj in E; [|by apply other_wf|apply step_wf]. split; [done|].
  apply (fl_same _ _ _ Hfl); [done|apply step_in|done].
Qed.
(** A task that has the file open at which another one has its file has the same object. *)
Lemma open_same v p : v ∈ ws → wr_file v = Some p → p = tmp w ∨ p = obj w →
  wr_hash v = wr_hash w ∧ wr_data v = wr_data w.
Proof.
  intros Hv Hp Hw. pose proof step_wf as Hwf. pose proof (other_wf v Hv) as Hvf.
  destruct (fl_open _ _ _ Hfl v p Hv Hp) as ([E|E] & _ & _), Hw as [E'|E']; rewrite E in E'.
  - by apply same_tmp.
  - exfalso. by apply (object_temp_not_object (wr_hash v) (wr_hash w)).
  - exfalso. by apply (object_temp_not_object (wr_hash w) (wr_hash v)).
  - by apply same_obj.
Qed.

(** A step that leaves the files alone. *)
Lemma flushing_quiet s' ph : wr_file w = None → files s' = files s → config s' = config s → cache_ok (cache s') →
  batch_writer s' = batch_writer s →
  (∀ h r, dedup_index s' !! h = Some r → dedup_index s !! h = Some r ∨ ref_hash r = h ∧ h = wr_hash w ∧ present s h) →
  phase_ok (at_write ph None w) → (placed ph → present s (wr_hash w)) → (created ph → created (wr_phase w)) →
  flushing s0 s' (<[i := at_write ph None w]> ws).
Proof.
  intros Hno Hf Hc Hca Hb Hd Hph Hpl Hcr. pose proof step_in as Hin. set (w' := at_write ph None w).
  assert (∀ v, v ∈ <[i := w']> ws → v = w' ∨ v ∈ ws) as Hel by (intros v; apply elem_of_update).
  assert (∀ v p, v ∈ ws → wr_file v = Some p → ∃ v, v ∈ <[i := w']> ws ∧ wr_file v = Some p) as Hopen.
  { intros v p Hv Hp. exists v. split; [|done]. eapply other_stays; [done|done|]. intros ->. congruence. }
  destruct Hfl as [F1 F2 F3 F4 F5 F6 F7 F8 F9 F10 F11 F12 F13].
  assert (∀ h, present s' h ↔ present s h) as Hpr by (intros h; unfold present; by rewrite Hf).
  split; rewrite ?Hc, ?Hb; try done.
  - intros h Hh Hs0. by apply Hpr, F6.
  - intros h r [Hr|(E & -> & Hr)]%Hd; [destruct (F7 h r Hr) as (? & ? & ?); split_and!; [done..|by apply Hpr]|].
    split_and!; [done|apply step_wf|by apply Hpr].
  - intros h c Hh. rewrite Hf. intros Hl. destruct (F8 h c Hh Hl) as [|[-> (v & Hv & Hp)]]; [by left|right].
    split; [done|]. by eapply Hopen.
  - intros v [->|Hv]%Hel; [by apply (F9 w)|by apply F9].
  - intros u v [->|Hu]%Hel [->|Hv]%Hel Huv; [done|by apply (F10 w v)|by apply (F10 u w)|by apply F10].
  - intros v [->|Hv]%Hel; [split; [done|by intros ?%Hpl%Hpr]|]. destruct (F11 v Hv). split; [done|]. by intros; apply Hpr; auto.
  - intros v p [->|Hv]%Hel; [done|]. rewrite Hf. by apply F12.
  - intros v c [->|Hv]%Hel; rewrite Hf; intros Hcv Hl.
    + destruct (F13 w c Hin (Hcr Hcv) Hl) as [|[-> (v & Hv & Hp)]]; [by left|right]. split; [done|]. by eapply Hopen.
    + destruct (F13 v c Hv Hcv Hl) as [|[-> (u & Hu & Hp)]]; [by left|right]. split; [done|]. by eapply Hopen.
Qed.

(** The temporary file is created, or truncated. *)
Lemma flushing_create ops : wr_phase w = Writing (Create (tmp w) :: Append (tmp w) (wr_data w) :: ops) →
  flushing s0 (set_files (<[tmp w := []]> (files s)) s)
    (<[i := at_write (Writing (Append (tmp w) (wr_data w) :: ops)) (Some (tmp w)) w]> ws).
Proof.
  intros Hph. pose proof step_in as Hin. pose proof tmp_not_obj as Hto. pose proof same_tmp as Hst.
  set (w' := at_write _ _ w). destruct (fl_phase _ _ _ Hfl w Hin) as [Hok _]. unfold phase_ok in Hok. rewrite Hph in Hok.
  assert (closing (tmp w) (obj w) ops) as Hcl.
  { inversion Hok as [? Hc| |? Hc|? Hc]; subst; [done|by inversion Hc|by apply Forall_cons in Hc as [[] _]]. }
  assert (wr_file w = None) as Hno.
  { destruct (wr_file w) as [p|] eqn:Hp; [|done]. destruct (fl_open _ _ _ Hfl w p Hin Hp) as (_ & (ops' & E) & _). congruence. }
  assert (∀ v, v ∈ <[i := w']> ws → v = w' ∨ v ∈ ws) as Hel by (intros v; apply elem_of_update).
  assert (∀ v p, v ∈ ws → wr_file v = Some p → ∃ v, v ∈ <[i := w']> ws ∧ wr_file v = Some p) as Hopen.
  { intros v p Hv Hp. exists v. split; [|done]. eapply other_stays; [done|done|]. intros ->. congruence. }
  destruct Hfl as [F1 F2 F3 F4 F5 F6 F7 F8 F9 F10 F11 F12 F13].
  assert (∀ h, ContentHash.wf h → present s h → present (set_files (<[tmp w := []]> (files s)) s) h) as Hpr.
  { intros h Hh Hs. unfold present. cbn. rewrite lookup_insert_ne by by apply Hto. done. }
  split; cbn [files set_files config cache batch_writer dedup_index]; try done.
  - auto.
  - intros h r Hr. destruct (F7 h r Hr) as (? & ? & ?). split_and!; auto.
  - intros h c Hh. rewrite lookup_insert_ne by by apply Hto. intros Hl. destruct (F8 h c Hh Hl) as [|[-> (v & Hv & Hp)]]; [by left|right].
    split; [done|]. by eapply Hopen.
  - intros v [->|Hv]%Hel; [by apply (F9 w)|by apply F9].
  - intros u v [->|Hu]%Hel [->|Hv]%Hel Huv; [done|by apply (F10 w v)|by apply (F10 u w)|by apply F10].
  - intros v [->|Hv]%Hel; [split; [by apply stage_append|by intros [[] _]%Forall_cons]|]. destruct (F11 v Hv) as [? Hpl]. split; [done|].
    intros Hp. apply Hpr; [|by apply Hpl]. by rewrite <-(F9 v).
  - intros v p [->|Hv]%Hel Hp.
    + injection Hp as <-. split_and!; [by left|by eexists|]. exists []. split; [apply lookup_insert_eq|by left].
    + destruct (F12 v p Hv Hp) as (H1' & H2' & c & Hl & Hc). split_and!; [done..|]. destruct (decide (tmp w = p)) as [<-|Hne].
      * exists []. split; [apply lookup_insert_eq|by left].
      * exists c. by rewrite lookup_insert_ne.
  - intros v c Hv Hcv Hl. assert (tmp v = tmp w ∨ v ∈ ws ∧ tmp v ≠ tmp w) as [E|[Hv' Hne]].
    { destruct (Hel v Hv) as [->|]; [by left|]. destruct (decide (tmp v = tmp w)); [by left|by right]. }
    + rewrite E, lookup_insert_eq in Hl. injection Hl as <-. right. split; [done|]. exists w'. split; [by eapply update_elem_of|by rewrite E].
    + rewrite lookup_insert_ne in Hl by done. destruct (F13 v c Hv' Hcv Hl) as [|[-> (u & Hu & Hp)]]; [by left|right].
      split; [done|]. by eapply Hopen.
Qed.

Lemma overwrite_all d c : c = [] ∨ c = d → overwrite c 0 d = d.
Proof using Type. intros [->| ->]; unfold overwrite; cbn; rewrite ?drop_nil, ?drop_all; by rewrite app_nil_r. Qed.
(** The data is written to the open file, wherever that is now. *)
Lemma flushing_append p ops : wr_phase w = Writing (Append (tmp w) (wr_data w) :: ops) → wr_file w = Some p →
  flushing s0 (set_files (alter (λ c, overwrite c 0 (wr_data w)) p (files s)) s) (<[i := at_write (Writing ops) None w]> ws).
Proof.
  intros Hph Hfile. pose proof step_in as Hin. pose proof (λ v Hv Hp, open_same v p Hv Hp) as Hsame.
  set (w' := at_write _ _ w). destruct (fl_phase _ _ _ Hfl w Hin) as [Hok _]. unfold phase_ok in Hok. rewrite Hph in Hok.
  assert (closing (tmp w) (obj w) ops) as Hcl.
  { inversion Hok as [|? Hc|? Hc|? Hc]; subst; [done|by inversion Hc|by apply Forall_cons in Hc as [[] _]]. }
  assert (∀ v, v ∈ <[i := w']> ws → v = w' ∨ v ∈ ws) as Hel by (intros v; apply elem_of_update).
  assert (∀ v q, v ∈ ws → wr_file v = Some q → q ≠ p → ∃ v, v ∈ <[i := w']> ws ∧ wr_file v = Some q) as Hopen.
  { intros v q Hv Hq Hne. exists v. split; [|done]. eapply other_stays; [done|done|]. intros ->. congruence. }
  destruct (fl_open _ _ _ Hfl w p Hin Hfile) as (Hpath & _ & c0 & Hc0 & Hempty). pose proof (overwrite_all _ _ Hempty) as Hover.
  pose proof step_wf as Hwf. pose proof (λ v Hv, other_wf v Hv) as Hwfs. destruct Hfl as [F1 F2 F3 F4 F5 F6 F7 F8 F9 F10 F11 F12 F13].
  set (fs := alter _ p (files s)). assert (fs !! p = Some (wr_data w)) as Hfp by (unfold fs; by rewrite lookup_alter_eq, Hc0; cbn; rewrite Hover).
  assert (∀ q, q ≠ p → fs !! q = files s !! q) as Hfq by (intros q Hq; unfold fs; by rewrite lookup_alter_ne).
  assert (∀ h, present s h → present (set_files fs s) h) as Hpr.
  { intros h. unfold present. change (files (set_files fs s)) with fs.
    destruct (decide (object_path h = p)) as [->|Hq]; [by rewrite Hfp|by rewrite Hfq]. }
  split; cbn [files set_files config cache batch_writer dedup_index]; try done.
  - auto.
  - intros h r Hr. destruct (F7 h r Hr) as (? & ? & ?). split_and!; auto.
  - intros h c Hh. destruct (decide (object_path h = p)) as [Hq|Hq].
    + rewrite Hq, Hfp. intros [= <-]. left. rewrite F9 by done. destruct Hpath as [E|E]; rewrite E in Hq.
      * exfalso. by apply (object_temp_not_object (wr_hash w) h).
      * symmetry. by apply object_path_inj.
    + rewrite Hfq by done. intros Hl. destruct (F8 h c Hh Hl) as [|[-> (v & Hv & Hp)]]; [by left|right]. split; [done|]. by eapply Hopen.
  - intros v [->|Hv]%Hel; [by apply (F9 w)|by apply F9].
  - intros u v [->|Hu]%Hel [->|Hv]%Hel Huv; [done|by apply (F10 w v)|by apply (F10 u w)|by apply F10].
  - intros v [->|Hv]%Hel; [split; [by apply stage_closing|intros Hd; by eapply closing_not_dir in Hd]|].
    destruct (F11 v Hv). split; [done|auto].
  - intros v q [->|Hv]%Hel Hq; [done|]. destruct (F12 v q Hv Hq) as (Hvp & Hops & c & Hl & Hc). split_and!; [done..|].
    destruct (decide (q = p)) as [->|Hne]; [|exists c; by rewrite Hfq].
    exists (wr_data w). split; [done|]. right. symmetry. by apply (Hsame v).
  - intros v c Hv Hcv. assert (∃ u, u ∈ ws ∧ tmp u = tmp v ∧ wr_data u = wr_data v ∧ created (wr_phase u)) as (u & Hu & Et & Ed & Hcu).
    { destruct (Hel v Hv) as [->|]; [exists w; by rewrite Hph|by exists v]. }
    rewrite <-Et, <-Ed. destruct (decide (tmp u = p)) as [Hq|Hq].
    + rewrite Hq, Hfp. intros [= <-]. left. destruct Hpath as [E|E].
      * rewrite E in Hq. apply object_temp_inj in Hq; [|by apply Hwfs|done]. symmetry. by apply F10.
      * exfalso. rewrite E in Hq. apply (object_temp_not_object (wr_hash u) (wr_hash w)); [by apply Hwfs|done|done].
    + rewrite Hfq by done. intros Hl. destruct (F13 u c Hu Hcu Hl) as [|[-> (x & Hx & Hp)]]; [by left|right]. split; [done|]. by eapply Hopen.
Qed.

(** A file, and those who have it open, are renamed to the path of the object. *)
Lemma elem_of_follow p q (l : list Writer) v : v ∈ follow p q <$> l → ∃ u, u ∈ l ∧ v = follow p q u.
Proof using Type. intros (u & -> & Hu)%list_elem_of_fmap. by exists u. Qed.
Lemma follow_file p q u r : wr_file (follow p q u) = Some r →
  (r ≠ q ∧ r ≠ p ∨ q = p) ∧ wr_file u = Some r ∨ r = q ∧ wr_file u = Some p.
Proof using Type.
  unfold follow. cbn [at_write wr_file]. case_bool_decide; [done|]. case_bool_decide as Hp; [intros [= <-]; by right|]. intros Hr. left. split; [|done].
  left. split; congruence.
Qed.
Lemma flushing_rename ops c : wr_phase w = Writing (Rename (tmp w) (obj w) :: ops) → files s !! tmp w = Some c →
  flushing s0 (set_files (<[obj w := c]> (base.delete (tmp w) (files s))) s)
    (follow (tmp w) (obj w) <$> <[i := at_write (Writing ops) (wr_file w) w]> ws).
Proof.
  intros Hph Hc. pose proof step_in as Hin. set (w' := at_write _ _ w).
  destruct (fl_phase _ _ _ Hfl w Hin) as [Hok _]. unfold phase_ok in Hok. rewrite Hph in Hok.
  assert (Forall is_dir_sync ops) as Hcl.
  { inversion Hok as [| |? Hd|? Hd]; subst; [by inversion Hd|by apply Forall_cons in Hd as [[] _]]. }
  assert (wr_file w = None) as Hno.
  { destruct (wr_file w) as [p|] eqn:Hp; [|done]. destruct (fl_open _ _ _ Hfl w p Hin Hp) as (_ & (ops' & E) & _). congruence. }
  pose proof (fl_temp _ _ _ Hfl w c Hin ltac:(by rewrite Hph) Hc) as Hcont.
  assert (tmp w ≠ obj w) as Hto by (apply tmp_not_obj, step_wf).
  pose proof step_wf as Hwf. pose proof (λ v Hv, other_wf v Hv) as Hwfs. pose proof tmp_not_obj as Htn.
  pose proof (λ v Hv, same_tmp v Hv) as Hst. pose proof (λ v Hv, same_obj v Hv) as Hso.
  destruct Hfl as [F1 F2 F3 F4 F5 F6 F7 F8 F9 F10 F11 F12 F13].
  set (fs := <[obj w := c]> (base.delete (tmp w) (files s))).
  assert (fs !! tmp w = None) as Hft by (unfold fs; rewrite lookup_insert_ne by done; apply lookup_delete_eq).
  assert (fs !! obj w = Some c) as Hfo by apply lookup_insert_eq.
  assert (∀ q, q ≠ tmp w → q ≠ obj w → fs !! q = files s !! q) as Hfq
    by (intros q Hq Hq'; unfold fs; by rewrite lookup_insert_ne, lookup_delete_ne).
  assert (∀ h, ContentHash.wf h → present s h → present (set_files fs s) h) as Hpr.
  { intros h Hh. unfold present. change (files (set_files fs s)) with fs.
    destruct (decide (object_path h = obj w)) as [->|Hq]; [by rewrite Hfo|].
    rewrite Hfq; [done|intros E; by apply (Htn h)|done]. }
  (* Every task is one from before, perhaps with another file or, the one that goes on, with another phase. *)
  assert (∀ v, v ∈ follow (tmp w) (obj w) <$> <[i := w']> ws → ∃ u, u ∈ ws ∧ wr_hash v = wr_hash u ∧ wr_data v = wr_data u ∧
    wr_file v = wr_file (follow (tmp w) (obj w) u) ∧ (u = w ∧ wr_phase v = Writing ops ∨ wr_phase v = wr_phase u)) as Hel.
  { intros v (u & Hu & ->)%elem_of_follow. destruct (elem_of_update _ _ _ _ Hu) as [->|Hu'];
      [exists w; split_and!; try done; by left|exists u; split_and!; try done; by right]. }
  assert (∀ v q, v ∈ ws → wr_file v = Some q → ∃ u, u ∈ follow (tmp w) (obj w) <$> <[i := w']> ws ∧ wr_file u = wr_file (follow (tmp w) (obj w) v)) as Hopen.
  { intros v q Hv Hq. exists (follow (tmp w) (obj w) v). split; [|done]. apply list_elem_of_fmap_2. eapply other_stays; [done|done|]. intros ->. congruence. }
  assert (∀ v q, wr_file v = Some q → q ≠ tmp w → q ≠ obj w → wr_file (follow (tmp w) (obj w) v) = Some q) as Hkeep.
  { intros v q Hq H1' H2'. unfold follow. cbn [at_write wr_file]. repeat (case_bool_decide; [congruence|]). done. }
  assert (∀ v, wr_file v = Some (tmp w) → wr_file (follow (tmp w) (obj w) v) = Some (obj w)) as Hmove.
  { intros v Hq. unfold follow. cbn [at_write wr_file]. case_bool_decide; [congruence|]. by case_bool_decide. }
  split; cbn [files set_files config cache batch_writer dedup_index]; try done.
  - auto.
  - intros h r Hr. destruct (F7 h r Hr) as (? & ? & ?). split_and!; auto.
  - intros h d Hh. destruct (decide (object_path h = obj w)) as [Hq|Hq].
    + rewrite Hq, Hfo. intros [= <-]. apply object_path_inj in Hq; [subst h|done..].
      destruct Hcont as [->|[-> (v & Hv & Hp)]]; [left; by apply F9|right]. split; [done|].
      destruct (Hopen v _ Hv Hp) as (u & Hu & Hpu). exists u. split; [done|]. by rewrite Hpu, Hmove.
    + assert (object_path h ≠ tmp w) as Hq' by (intros E; by apply (Htn h)). rewrite Hfq by done. intros Hl.
      destruct (F8 h d Hh Hl) as [|[-> (v & Hv & Hp)]]; [by left|right]. split; [done|].
      destruct (Hopen v _ Hv Hp) as (u & Hu & Hpu). exists u. split; [done|]. by rewrite Hpu, (Hkeep v _ Hp).
  - intros v (u & Hu & -> & -> & _)%Hel. by apply F9.
  - intros u v (u' & Hu & -> & -> & _)%Hel (v' & Hv & -> & -> & _)%Hel. by apply F10.
  - intros v (u & Hu & Eh & Ed & _ & Hp)%Hel. unfold phase_ok, tmp, obj. rewrite Eh, Ed. destruct Hp as [[-> ->]| ->].
    + split; [by apply stage_renamed|]. intros _. exists c. exact Hfo.
    + destruct (F11 u Hu) as [? Hpl]. split; [done|]. intros Hp. apply Hpr; [by apply Hwfs|by apply Hpl].
  - intros v q (u & Hu & Eh & Ed & -> & Hp)%Hel Hq. unfold tmp, obj. rewrite Eh, Ed. fold (tmp u) (obj u).
    apply follow_file in Hq. assert (∃ q', wr_file u = Some q') as [q' Huq] by (destruct Hq as [[_ Hq]|[_ Hq]]; by eexists).
    assert (wr_phase v = wr_phase u) as -> by (destruct Hp as [[-> _]|]; [congruence|done]).
    destruct Hq as [[[[Hqo Hqt]|Hq] Hfu]|[-> Hfu]]; [|congruence|].
    + destruct (F12 u q Hu Hfu) as (Hpath & Hops & d & Hl & Hd). split_and!; [done..|]. exists d. by rewrite Hfq.
    + destruct (F12 u _ Hu Hfu) as (Hpath & Hops & d & Hl & Hd). rewrite Hc in Hl. injection Hl as <-.
      destruct Hpath as [E|E]; [|exfalso; by apply (Htn (wr_hash u)); [apply Hwfs|]].
      destruct (Hst u Hu (eq_sym E)) as [Eh' _]. split_and!; [right; unfold obj; by rewrite Eh'|done|]. by exists c.
  - intros v d (u & Hu & Eh & Ed & _ & Hp)%Hel Hcv. unfold tmp. rewrite Eh, Ed. fold (tmp u). intros Hl.
    destruct (decide (tmp u = tmp w)) as [E|E]; [by rewrite E, Hft in Hl|].
    assert (tmp u ≠ obj w) as E' by (intros E'; apply (object_temp_not_object (wr_hash u) (wr_hash w)); [by apply Hwfs|done|done]).
    rewrite Hfq in Hl by done. assert (created (wr_phase u)) as Hcu by (destruct Hp as [[-> _]| <-]; [by rewrite Hph|done]).
    destruct (F13 u d Hu Hcu Hl) as [|[-> (x & Hx & Hpx)]]; [by left|right]. split; [done|].
    destruct (Hopen x _ Hx Hpx) as (y & Hy & Hpy). exists y. split; [done|]. by rewrite Hpy, (Hkeep x _ Hpx).
Qed.

(** After a rename that failed the temporary file, whoever has it, is removed. *)
Lemma flushing_remove r : wr_phase w = Removing → flushing s0 (set_files (base.delete (tmp w) (files s)) s)
  (unlink (tmp w) <$> <[i := at_write (Written (Err r)) (wr_file w) w]> ws).
Proof.
  intros Hph. pose proof step_in as Hin. set (w' := at_write _ _ w).
  pose proof (λ v Hv, other_wf v Hv) as Hwfs. pose proof tmp_not_obj as Htn.
  assert (wr_file w = None) as Hno.
  { destruct (wr_file w) as [p|] eqn:Hp; [|done]. destruct (fl_open _ _ _ Hfl w p Hin Hp) as (_ & (ops' & E) & _). congruence. }
  destruct Hfl as [F1 F2 F3 F4 F5 F6 F7 F8 F9 F10 F11 F12 F13]. set (fs := base.delete (tmp w) (files s)).
  assert (fs !! tmp w = None) as Hft by apply lookup_delete_eq.
  assert (∀ q, q ≠ tmp w → fs !! q = files s !! q) as Hfq by (intros q Hq; unfold fs; by rewrite lookup_delete_ne).
  assert (∀ h, ContentHash.wf h → present s h → present (set_files fs s) h) as Hpr.
  { intros h Hh. unfold present. change (files (set_files fs s)) with fs. rewrite Hfq; [done|intros E; by apply (Htn h)]. }
  assert (∀ v, v ∈ unlink (tmp w) <$> <[i := w']> ws → ∃ u, u ∈ ws ∧ wr_hash v = wr_hash u ∧ wr_data v = wr_data u ∧
    wr_file v = wr_file (unlink (tmp w) u) ∧ (wr_phase v = Written (Err r) ∧ wr_file u = None ∨ wr_phase v = wr_phase u)) as Hel.
  { intros v (u & -> & Hu)%list_elem_of_fmap. destruct (elem_of_update _ _ _ _ Hu) as [->|Hu'];
      [exists w; split_and!; try done; by left|exists u; split_and!; try done; by right]. }
  assert (∀ v q, v ∈ ws → wr_file v = Some q → q ≠ tmp w → ∃ u, u ∈ unlink (tmp w) <$> <[i := w']> ws ∧ wr_file u = Some q) as Hopen.
  { intros v q Hv Hq Hne. exists (unlink (tmp w) v). split; [apply list_elem_of_fmap_2; eapply other_stays; [done|done|intros ->; congruence]|].
    unfold unlink. cbn [at_write wr_file]. case_bool_decide; [congruence|done]. }
  assert (∀ u q, wr_file (unlink (tmp w) u) = Some q → q ≠ tmp w ∧ wr_file u = Some q) as Hun.
  { intros u q. unfold unlink. cbn [at_write wr_file]. case_bool_decide; [done|]. intros Hq. split; [congruence|done]. }
  split; cbn [files set_files config cache batch_writer dedup_index]; try done.
  - auto.
  - intros h d Hd. destruct (F7 h d Hd) as (? & ? & ?). split_and!; auto.
  - intros h c Hh. assert (object_path h ≠ tmp w) as Hq by (intros E; by apply (Htn h)). rewrite Hfq by done. intros Hl.
    destruct (F8 h c Hh Hl) as [|[-> (v & Hv & Hp)]]; [by left|right]. split; [done|]. by eapply Hopen.
  - intros v (u & Hu & -> & -> & _)%Hel. by apply F9.
  - intros u v (u' & Hu & -> & -> & _)%Hel (v' & Hv & -> & -> & _)%Hel. by apply F10.
  - intros v (u & Hu & Eh & Ed & _ & Hp)%Hel. unfold phase_ok, tmp, obj. rewrite Eh, Ed. destruct Hp as [[-> _]| ->]; [done|].
    destruct (F11 u Hu) as [? Hpl]. split; [done|]. intros Hp. apply Hpr; [by apply Hwfs|by apply Hpl].
  - intros v q (u & Hu & Eh & Ed & -> & Hp)%Hel [Hne Hq]%Hun. unfold tmp, obj. rewrite Eh, Ed. fold (tmp u) (obj u).
    destruct Hp as [[_ Hp]| ->]; [congruence|]. rewrite Hfq by done. by apply F12.
  - intros v d (u & Hu & Eh & Ed & _ & Hp)%Hel Hcv. unfold tmp. rewrite Eh, Ed. fold (tmp u). intros Hl.
    destruct (decide (tmp u = tmp w)) as [E|E]; [by rewrite E, Hft in Hl|]. rewrite Hfq in Hl by done.
    assert (created (wr_phase u)) as Hcu by (destruct Hp as [[Hp _]| <-]; [by rewrite Hp in Hcv|done]).
    destruct (F13 u d Hu Hcu Hl) as [|[-> (x & Hx & Hpx)]]; [by left|right]. split; [done|]. by eapply Hopen.
Qed.
End step.

(** *** A turn, and the whole flush *)

Lemma closed_unless_append s0 s ws w : flushing s0 s ws → w ∈ ws →
  (∀ p d ops, wr_phase w ≠ Writing (Append p d :: ops)) → wr_file w = None.
Proof.
  intros Hfl Hin Hph. destruct (wr_file w) as [p|] eqn:Hp; [|done]. destruct (fl_open _ _ _ Hfl w p Hin Hp) as (_ & (ops & E) & _).
  by destruct (Hph _ _ _ E).
Qed.
Lemma path_exists_present s h : path_exists (object_path h) s = true ↔ present s h.
Proof. apply bool_decide_eq_true. Qed.
Lemma update_cache_files now h d s : let '(s', r) := update_cache checked now h d s in
  files s' = files s ∧ config s' = config s ∧ batch_writer s' = batch_writer s ∧ dedup_index s' = dedup_index s ∧ (r = Ok tt ∨ ∀ a, r ≠ Ok a).
Proof.
  unfold update_cache, mbind, st_bind, get_st, lift, modify_st. cbn zeta.
  assert (∀ r : outcome Failure (), is_ok r = false → r = Ok tt ∨ ∀ a, r ≠ Ok a) as Hr by (intros [] ?; [done|by right..]).
  destruct (evict _ _ _ _ _) as [c|e|]; [|split_and!; [done..|by apply Hr]|split_and!; [done..|by apply Hr]].
  destruct (arith checked 64 _) as [total|e|]; split_and!; try done; [by left|by apply Hr..].
Qed.
Lemma update_cache_ok now h d s : blake3 d = h → cache_ok (cache s) → cache_ok (cache (update_cache checked now h d s).1).
Proof.
  intros Hh Hok. unfold update_cache, mbind, st_bind, get_st, lift, modify_st. cbn zeta.
  destruct (evict _ _ _ _ _) as [c|e|] eqn:He; [|done..]. destruct (arith checked 64 _) as [total|e|]; [|done..].
  unfold cache_ok in *. cbn [fst cache set_cache chunks]. rewrite lru_put_entries.
  apply evict_entries in He as [gone He]. rewrite He in Hok. apply Forall_app in Hok as [Hok _]. by apply lru_push_Forall.
Qed.
Lemma flushing_turn s0 now i s ws : flushing s0 s ws →
  let '(s', ws') := write_individual_optimized checked now i (s, ws) in flushing s0 s' ws'.
Proof.
  intros Hfl. unfold write_individual_optimized. destruct (ws !! i) as [w|] eqn:Hi; [|done].
  assert (w ∈ ws) as Hin by by eapply list_elem_of_lookup_2. cbn zeta. destruct (fl_phase _ _ _ Hfl w Hin) as [Hok Hpl].
  unfold phase_ok in Hok. pose proof (closed_unless_append _ _ _ w Hfl Hin) as Hno. pose proof (fl_cache _ _ _ Hfl) as Hca.
  destruct (wr_phase w) as [|[|[p|p bs|p|p q|p] ops]| | | | | |r] eqn:Hph; try (specialize (Hno ltac:(done)); rewrite Hno).
  - destruct (path_exists _ s) eqn:Hex; [apply path_exists_present in Hex|]; [by eapply flushing_quiet; eauto|].
    rewrite (fl_plain _ _ _ Hfl). cbn [compress_data]. rewrite object_temp_eq. fold (tmp w) (obj w).
    eapply flushing_quiet; eauto; [apply write_ops_stage|by intros [[] _]%Forall_cons|done].
  - assert (present s (wr_hash w)) as Hp by (apply Hpl; constructor).
    by destruct (fsync_policy (config s)); eapply flushing_quiet; eauto.
  - inversion Hok as [ops' Hc|ops' Hc|ops' Hc|ops' Hc]; subst; [|by inversion Hc|by apply Forall_cons in Hc as [[] _]].
    by eapply flushing_create.
  - inversion Hok as [ops' Hc|ops' Hc|ops' Hc|ops' Hc]; subst; [|by inversion Hc|by apply Forall_cons in Hc as [[] _]].
    destruct (wr_file w) as [f|] eqn:Hf; [by eapply flushing_append|]. eapply flushing_quiet; eauto; [by apply stage_closing| |by rewrite Hph].
    intros Hd. by eapply closing_not_dir in Hd.
  - assert (stage (tmp w) (obj w) (wr_data w) ops ∧ (Forall is_dir_sync ops → False)) as [Hs Hd].
    { inversion Hok as [ops' Hc|ops' Hc|ops' Hc|ops' Hc]; subst; [|by apply Forall_cons in Hc as [[] _]].
      inversion Hc; subst. split; [by apply stage_closing|]. by eapply closing_not_dir. }
    eapply flushing_quiet; eauto; [by intros ?%Hd|by rewrite Hph].
  - inversion Hok as [ops' Hc|ops' Hc|ops' Hc|ops' Hc]; subst; [|by apply Forall_cons in Hc as [[] _]].
    inversion Hc; subst. destruct (files s !! tmp w) as [c|] eqn:Hl.
    + rewrite <-Hno. by eapply flushing_rename.
    + by eapply flushing_quiet; eauto.
  - inversion Hok as [ops' Hc|ops' Hc|ops' Hc|ops' Hc]; subst; [by inversion Hc|]. apply Forall_cons in Hc as [_ Hc].
    assert (present s (wr_hash w)) as Hp by (apply Hpl; by constructor). eapply flushing_quiet; eauto; [by apply stage_renamed|by rewrite Hph].
  - rewrite <-Hno, object_temp_eq. by eapply flushing_remove.
  - assert (present s (wr_hash w)) as Hp by by apply Hpl. destruct (arith checked 32 _) as [pending|e|];
      [destruct (fsync_policy (config s)); [|case_match|..]|..]; by eapply flushing_quiet; eauto.
  - assert (present s (wr_hash w)) as Hp by by apply Hpl. by eapply flushing_quiet; eauto.
  - assert (present s (wr_hash w)) as Hp by by apply Hpl. pose proof (fl_data _ _ _ Hfl w Hin) as Hd.
    pose proof (update_cache_files now (wr_hash w) (wr_data w) s) as Hu. pose proof (update_cache_ok now (wr_hash w) (wr_data w) s Hd Hca) as Hc.
    destruct (update_cache _ _ _ _ s) as [s' r]. destruct Hu as (Ef & Ec & Eb & Ed & _). cbn [fst] in Hc.
    eapply flushing_quiet; eauto; [intros h r'; rewrite Ed; by left|by destruct r|by destruct r].
  - assert (present s (wr_hash w)) as Hp by by apply Hpl. eapply flushing_quiet; eauto; [|done|done].
    intros h r. cbn [add_dedup dedup_index ref_hash]. destruct (decide (wr_hash w = h)) as [<-|Hne].
    + rewrite lookup_insert_eq. intros [= <-]. by right.
    + rewrite lookup_insert_ne by done. by left.
  - done.
Qed.

(** At the end no file is open any more, and the invariant of the store holds. *)
Lemma flushing_begins s tasks : store_inv s → (∀ t, t ∈ tasks → blake3 t.2 = t.1) →
  (∀ t t', t ∈ tasks → t' ∈ tasks → t.1 = t'.1 → t.2 = t'.2) →
  flushing s s (map (λ '(hash, data), {| wr_hash := hash; wr_data := data; wr_file := None; wr_phase := Checking |}) tasks).
Proof.
  intros [I1 I2 I3 I4 I5 I6] Hh Hd. set (ws := map _ tasks).
  assert (∀ w, w ∈ ws → (wr_hash w, wr_data w) ∈ tasks ∧ wr_file w = None ∧ wr_phase w = Checking) as Hel.
  { intros w ([h d] & -> & Hin)%list_elem_of_fmap. by split_and!. }
  split; try done.
  - intros h r Hr. destruct (I4 h r Hr) as [? Hh']. split_and!; [done|by eapply holds_wf|]. destruct Hh' as (c & Hc & _). by exists c.
  - intros h c Hw Hc. left. by apply I3.
  - intros w [Hin _]%Hel. by apply (Hh _ Hin).
  - intros v w [Hv _]%Hel [Hw _]%Hel E. by apply (Hd _ _ Hv Hw).
  - intros w (_ & _ & Hp)%Hel. unfold phase_ok. by rewrite Hp.
  - intros w p (_ & Hf & _)%Hel. congruence.
  - intros w c (_ & _ & Hp)%Hel. by rewrite Hp.
Qed.
Lemma flushing_ends s0 s ws : flushing s0 s ws → Forall (λ w, writing w = false) ws → store_inv s ∧ (store_inv s0 → extends s0 s).
Proof.
  intros Hfl Hend. assert (∀ w p, w ∈ ws → wr_file w = Some p → False) as Hno.
  { intros w p Hin Hp. destruct (fl_open _ _ _ Hfl w p Hin Hp) as (_ & (ops & E) & _). rewrite Forall_forall in Hend.
    specialize (Hend w Hin). unfold writing in Hend. by rewrite E in Hend. }
  assert (∀ h, ContentHash.wf h → present s h → holds s h) as Hpr.
  { intros h Hh [c Hc]. exists c. split; [done|]. destruct (fl_files _ _ _ Hfl h c Hh Hc) as [|[_ (w & Hw & Hp)]]; [done|].
    by destruct (Hno w _ Hw Hp). }
  split.
  - split; try apply Hfl.
    + intros h c Hh Hc. destruct (Hpr h Hh) as (c' & Hc' & <-); [by exists c|]. congruence.
    + intros h r Hr. destruct (fl_dedup _ _ _ Hfl h r Hr) as (? & ? & ?). split; [done|by apply Hpr].
  - intros Hi. split; [|apply Hfl]. intros h Hh. pose proof (holds_wf _ _ Hh). apply Hpr; [done|]. apply (fl_keeps _ _ _ Hfl); [done|].
    destruct Hh as (c & Hc & _). by exists c.
Qed.

(** How many turns a task needs. *)
Definition turns_left w : nat :=
  match wr_phase w with
  | Checking => 11 | Writing ops => 5 + length ops | Removing => 1 | Counting => 4 | Resetting => 3 | Caching => 2
  | Indexing => 1 | Written _ => 0
  end.
Lemma writing_turns w : writing w = true ↔ (0 < turns_left w)%nat.
Proof. unfold writing, turns_left. destruct (wr_phase w); split; (done || lia). Qed.
Lemma turns_at ws i w ph f (Hi : ws !! i = Some w) : (turns_left (at_write ph f w) ≤ pred (turns_left w))%nat →
  ∃ w', map turns_left (<[i := at_write ph f w]> ws) = <[i := turns_left w']> (map turns_left ws) ∧ (turns_left w' ≤ pred (turns_left w))%nat.
Proof. intros Hle. exists (at_write ph f w). split; [|done]. by rewrite list_fmap_insert. Qed.
Lemma length_write_ops policy p q d : (length (write_ops policy p q d) ≤ 5)%nat.
Proof. unfold write_ops. rewrite !length_app. destruct (should_fsync_file policy), (should_fsync_directory policy); cbn; lia. Qed.
Lemma turn_turns now i x w : x.2 !! i = Some w → ∃ w', map turns_left (write_individual_optimized checked now i x).2 =
  <[i := turns_left w']> (map turns_left x.2) ∧ (turns_left w' ≤ pred (turns_left w))%nat.
Proof.
  destruct x as [s ws]. cbn [snd]. intros Hi. unfold write_individual_optimized. rewrite Hi. cbn zeta.
  assert (∀ p q l, map turns_left (follow p q <$> l) = map turns_left l) as Hfo by (intros p q l; by rewrite <-list_fmap_compose).
  assert (∀ p l, map turns_left (unlink p <$> l) = map turns_left l) as Hun by (intros p l; by rewrite <-list_fmap_compose).
  destruct (wr_phase w) as [|[|[p|p bs|p|p q|p] ops]| | | | | |r] eqn:Hph; try (destruct (update_cache _ _ _ _ s) as [s' r]);
    repeat case_match; subst; cbn [snd]; rewrite ?Hfo, ?Hun;
    try (apply (turns_at ws i w); [done|]; unfold turns_left; rewrite Hph; cbn [at_write wr_phase pred];
         repeat case_match; cbn [length]; try lia).
  all: try match goal with |- context [length (write_ops ?a ?b ?c ?d)] => pose proof (length_write_ops a b c d); lia end.
  exists w. split; [|unfold turns_left; rewrite Hph; cbn; lia]. symmetry. apply list_insert_id. by rewrite list_lookup_fmap, Hi.
Qed.
Lemma turn_hashes now i (x : Store * list Writer) : map wr_hash (write_individual_optimized checked now i x).2 = map wr_hash x.2.
Proof.
  destruct x as [s ws]. cbn [snd]. unfold write_individual_optimized. destruct (ws !! i) as [w|] eqn:Hi; [|done]. cbn zeta.
  assert (∀ ph f, map wr_hash (<[i := at_write ph f w]> ws) = map wr_hash ws) as Hup.
  { intros ph f. rewrite list_fmap_insert. apply list_insert_id. by rewrite list_lookup_fmap, Hi. }
  assert (∀ p q l, map wr_hash (follow p q <$> l) = map wr_hash l) as Hfo by (intros p q l; by rewrite <-list_fmap_compose).
  assert (∀ p l, map wr_hash (unlink p <$> l) = map wr_hash l) as Hun by (intros p l; by rewrite <-list_fmap_compose).
  destruct (wr_phase w) as [|[|[p|p bs|p|p q|p] ops]| | | | | |r]; try (destruct (update_cache _ _ _ _ s) as [s' r]);
    repeat case_match; subst; cbn [snd]; by rewrite ?Hfo, ?Hun, ?Hup.
Qed.
Lemma idle_turns now i (x : Store * list Writer) : x.2 !! i = None → write_individual_optimized checked now i x = x.
Proof. destruct x as [s ws]. cbn [snd]. intros Hi. unfold write_individual_optimized. by rewrite Hi. Qed.

Abbreviation safe P m Q := (triple (E:=Failure) store_inv extends P m Q).
(** The results that are awaited are all there when none of them is an error. *)
Lemma all_written ws : for_each ws (λ _ w, _ ← joined "Batch write failed" (written w); mret tt) tt = Ok tt →
  ∀ w, w ∈ ws → ∃ r, wr_phase w = Written (Ok r).
Proof.
  induction ws as [|w ws IH]; [by intros _ w ?%elem_of_nil|]. cbn [for_each]. intros ([] & Hw & Hws)%bind_Ok u [->|Hu]%elem_of_cons; [|by apply IH].
  apply bind_Ok in Hw as (r & Hw & _). unfold written in Hw. destruct (wr_phase w) as [| | | | | | |[r'|e|]]; try done. by exists r'.
Qed.
(** Under every schedule, errors included. *)
Lemma safe_run_tasks now schedule tasks : (∀ t, t ∈ tasks → blake3 t.2 = t.1) →
  (∀ t t', t ∈ tasks → t' ∈ tasks → t.1 = t'.1 → t.2 = t'.2) →
  safe (λ _, True) (run_tasks checked now schedule tasks) (λ _ s, ∀ t, t ∈ tasks → holds s t.1).
Proof.
  intros Hh Hd s Hi _. unfold run_tasks. destruct (Z.leb_spec (max_concurrent_ops (config s)) 0) as [Hz|Hz]; [by split_and!|].
  set (ws := map _ tasks). set (permits := max_concurrent_ops (config s)) in *.
  set (x := run_schedule writing (write_individual_optimized checked now) permits WRITE_TURNS schedule (s, ws)).
  assert (map wr_hash x.2 = map fst tasks) as Hhash.
  { apply (schedule_keeps writing (write_individual_optimized checked now) permits (λ x, map wr_hash x.2 = map fst tasks)).
    - intros i y Hy. by rewrite turn_hashes.
    - cbn [snd]. unfold ws. rewrite map_map. apply map_ext. by intros []. }
  assert (flushing s x.1 x.2) as Hfl.
  { apply (schedule_keeps writing (write_individual_optimized checked now) permits (λ x, flushing s x.1 x.2)).
    - intros i [s' ws'] Hfl. pose proof (flushing_turn s now i s' ws' Hfl) as Ht. by destruct (write_individual_optimized _ _ _ _).
    - by apply flushing_begins. }
  assert (Forall (λ w, writing w = false) x.2) as Hend.
  { eapply Forall_impl; [apply (run_schedule_ends writing (write_individual_optimized checked now) permits turns_left);
      [apply writing_turns|apply turn_turns|apply idle_turns|lia|]|].
    - apply Forall_forall. intros w ([h d] & -> & _)%list_elem_of_fmap. by unfold WRITE_TURNS.
    - intros w Hw. destruct (writing w) eqn:E; [|done]. apply writing_turns in E. cbn in Hw. lia. }
  destruct (flushing_ends s x.1 x.2 Hfl Hend) as [Hi' Hle]. destruct x as [s' ws']. cbn [fst snd] in *.
  split_and!; [done|by apply Hle|]. intros [] Hr [h d] Hin. cbn. assert (h ∈ map wr_hash ws') as (w & -> & Hw)%list_elem_of_fmap
    by (rewrite Hhash; by apply (list_elem_of_fmap_2 fst _ (h, d))).
  destruct (all_written ws' Hr w Hw) as [r Hph]. destruct (fl_phase _ _ _ Hfl w Hw) as [_ Hpl]. rewrite Hph in Hpl.
  apply path_exists_holds; [done| |by apply path_exists_present, Hpl]. rewrite <-(fl_data _ _ _ Hfl w Hw). apply blake3_wf.
Qed.
End flush.

(** ** Batches *)

Section batches.
Context `{Lru, Codecs, Hex, Blake3, MapIter} (checked : bool).
Abbreviation safe P m Q := (triple (E:=Failure) store_inv extends P m Q).
#[local] Hint Resolve blake3_wf : core.

(** No two different chunks have the same hash. *)
Definition collision_free (ds : list (list byte)) : Prop :=
  ∀ d d', d ∈ ds → d' ∈ ds → blake3 d = blake3 d' → d = d'.
Definition waiting (s : Store) : list (list byte) := map snd (pending (batch_writer s)).
Lemma collision_free_subset ds ds' : (∀ d, d ∈ ds → d ∈ ds') → collision_free ds' → collision_free ds.
Proof. intros Hs Hc d d' Hd Hd'. by apply Hc; apply Hs. Qed.

(** A flush stores all that waits, if it succeeds. *)
Lemma safe_flush_batch_internal now schedule s0 :
  safe (λ s, s = s0 ∧ collision_free (waiting s)) (flush_batch_internal checked now schedule)
    (λ _ s, ∀ d, d ∈ waiting s0 → holds s (blake3 d)).
Proof.
  unfold flush_batch_internal. apply safe_get_inv. intros self Hi [-> Hc]. apply safe_pre. unfold waiting in *.
  case_bool_decide as Hp; [apply safe_ret; rewrite Hp; by intros s _ d ?%elem_of_nil|].
  eapply triple_bind; [apply _|by apply safe_stats|]. intros [].
  eapply triple_bind; [apply _|apply (safe_set_batch _ (λ _, _) (λ _ _, True))|]; [|intros []].
  { intros s _ _. split; [|done]. by intros h d ?%elem_of_nil. }
  eapply triple_bind; [apply _|apply safe_run_tasks|].
  - intros [h d] Hin. by apply (si_batch _ Hi).
  - intros [h d] [h' d'] Hin Hin'. cbn. intros <-. apply Hc; [by apply (list_elem_of_fmap_2 snd _ (h, d))|by apply (list_elem_of_fmap_2 snd _ (h, d'))|].
    by rewrite (si_batch _ Hi h d), (si_batch _ Hi h d').
  - intros []. apply (safe_set_batch _ (λ _, _)). intros s _ Hs. split; [by intros h d ?%elem_of_nil|].
    intros d ([h d'] & -> & Hin)%list_elem_of_fmap. cbn. rewrite (si_batch _ Hi h d' Hin). by apply (Hs (h, d')).
Qed.
Lemma safe_flush_batch now schedule s0 : safe (λ s, s = s0 ∧ collision_free (waiting s)) (flush_batch checked now schedule)
  (λ _ s, ∀ d, d ∈ waiting s0 → holds s (blake3 d)).
Proof.
  unfold flush_batch. apply triple_get_bind. intros self. case_bool_decide as Hp; cbn [negb].
  - apply safe_ret. intros s (-> & <- & _). unfold waiting. rewrite Hp. by intros d ?%elem_of_nil.
  - eapply safe_conseq; [|apply safe_flush_batch_internal]. by intros s (_ & ?).
Qed.

(** A hash that comes with data is the hash of the data. *)
Definition honest (c : list byte * option ContentHash.t) : Prop := ∀ h, c.2 = Some h → h = blake3 c.1.

(** What waits afterwards waited before, or is the chunk. *)
Lemma safe_add_to_batch c ds : honest c →
  safe (λ s, collision_free (waiting s ++ c.1 :: ds)) (add_to_batch checked c)
    (λ r s, ref_hash r = blake3 c.1 ∧ collision_free (waiting s ++ ds)).
Proof.
  destruct c as [data expected]. intros Hc. unfold add_to_batch. cbn [fst].
  assert (default (blake3 data) expected = blake3 data) as ->.
  { destruct expected as [h|]; [|done]. by apply (Hc h). }
  destruct (negb _); [apply safe_fail|]. cbn zeta. apply safe_get_inv. intros self Hi Hcf.
  destruct (dedup_index self !! blake3 data) as [r|] eqn:Hr.
  { apply (safe_conseq _ (λ s, collision_free (waiting s ++ ds)));
      [intros s; apply collision_free_subset; intros d; rewrite !elem_of_app, elem_of_cons; naive_solver|].
    eapply triple_bind; [apply _|by apply safe_stats|]. intros []. apply safe_ret. intros s Hs.
    by destruct (si_dedup _ Hi _ _ Hr). }
  apply safe_pre. apply triple_lift_bind; [apply _|]. intros size _.
  eapply triple_bind; [apply _|apply (safe_set_batch _ (λ _, _) (λ _ s, collision_free (waiting s ++ ds)))|intros []; by apply safe_ret].
  intros s _ _. split.
  - intros h d. cbn [pending]. intros [Hin|Hin]%elem_of_app; [by apply (si_batch _ Hi)|].
    apply list_elem_of_singleton in Hin. by injection Hin as -> ->.
  - unfold waiting. cbn [batch_writer set_batch pending]. rewrite map_app. cbn [map snd]. by rewrite <-app_assoc.
Qed.
Lemma safe_add_all_to_batch cs : Forall honest cs →
  safe (λ s, collision_free (waiting s ++ map fst cs)) (add_all_to_batch checked cs)
    (λ rs s, map ref_hash rs = map (λ c, blake3 c.1) cs ∧ collision_free (waiting s)).
Proof.
  induction 1 as [|c cs Hc Hcs IH]; cbn [add_all_to_batch map].
  - apply safe_ret. intros s. by rewrite app_nil_r.
  - eapply triple_bind; [apply _|by apply safe_add_to_batch|]. intros r s Hi [Hr Hcf].
    enough (safe (λ s, collision_free (waiting s ++ map fst cs)) (rs ← add_all_to_batch checked cs; mret (r :: rs))
      (λ rs s, map ref_hash rs = blake3 c.1 :: map (λ c, blake3 c.1) cs ∧ collision_free (waiting s))) as Hs by by apply Hs.
    eapply triple_bind; [apply _|exact IH|]. intros rs. apply safe_ret. intros s' [Hrs ?]. cbn [map]. by rewrite Hr, Hrs.
Qed.
Lemma safe_write_batch now schedule cs : Forall honest cs →
  safe (λ s, collision_free (waiting s ++ map fst cs)) (write_batch checked now schedule cs)
    (λ rs _, map ref_hash rs = map (λ c, blake3 c.1) cs).
Proof.
  intros Hcs. unfold write_batch. eapply triple_bind; [apply _|by apply safe_add_all_to_batch|]. intros rs.
  apply triple_get_bind. intros self s Hi [_ [Hrs Hcf]]. revert s Hi Hcf.
  enough (safe (λ s, collision_free (waiting s)) (_ ← (if should_flush now (batch_writer self)
    then flush_batch_internal checked now schedule else mret tt); mret rs)
    (λ rs _, map ref_hash rs = map (λ c, blake3 c.1) cs)) as Hs by (intros s Hi Hcf; by apply Hs).
  apply (triple_bind _ _ _ _ _ (λ _ _, True)); [|intros []; by apply safe_ret].
  case_if; [|by apply safe_ret]. intros s Hi Hcf.
  destruct (safe_flush_batch_internal now schedule s s Hi (conj eq_refl Hcf)) as (? & ? & _). by split_and!.
Qed.

(** ** The tasks of [write_batch_stream] *)

(** What a task knows of the store. *)
Definition stream_ok (s : Store) (t : Stream) : Prop :=
  match sm_phase t with
  | Looking h _ => ∃ c, files s !! stream_path (sm_id t) = Some c ∧ blake3 c = h
  | Moving found h _ => (∃ c, files s !! stream_path (sm_id t) = Some c ∧ blake3 c = h) ∧ (found = true → holds s h)
  | Listing r => holds s (ref_hash r)
  | _ => True
  end.
Definition streams_ok (s0 : Store) (x : Store * list Stream) : Prop :=
  store_inv x.1 ∧ extends s0 x.1 ∧ NoDup (map sm_id x.2) ∧ ∀ t, t ∈ x.2 → stream_ok x.1 t.
Lemma stream_path_inj id id' : stream_path id = stream_path id' → id = id'.
Proof.
  intros [= E]. pose proof (str_strip_suffix_app id ".tmp") as Hs. rewrite E, str_strip_suffix_app in Hs. by injection Hs as ->.
Qed.

(** Receiving leaves other files alone. *)
Lemma keeps_file_create q o p : p ≠ q → keeps (E:=Failure) (λ s, files s !! q = o) (fs_create p) (λ _, True).
Proof. intros Hne. apply keeps_modify. intros s Hs. cbn. by rewrite lookup_insert_ne. Qed.
Lemma keeps_file_append q o p bs : p ≠ q → keeps (λ s, files s !! q = o) (fs_append p bs) (λ _, True).
Proof.
  intros Hne s Hs _. unfold fs_append. destruct (files s !! p); [|by split_and!]. split_and!; [|done..]. cbn. by rewrite lookup_insert_ne.
Qed.
Lemma keeps_file_remove q o p : p ≠ q → keeps (λ s, files s !! q = o) (fs_remove p) (λ _, True).
Proof.
  intros Hne s Hs _. unfold fs_remove. destruct (files s !! p); [|by split_and!]. split_and!; [|done..]. cbn. by rewrite lookup_delete_ne.
Qed.
Lemma keeps_file_rename q o p p' : p ≠ q → p' ≠ q → keeps (λ s, files s !! q = o) (fs_rename p p') (λ _, True).
Proof.
  intros Hne Hne' s Hs _. unfold fs_rename. destruct (files s !! p); [|by split_and!]. split_and!; [|done..]. cbn.
  by rewrite lookup_insert_ne, lookup_delete_ne.
Qed.
Lemma keeps_file_ignore (P : Store → Prop) m : keeps P m (λ _, True) → keeps P (ignore m) (λ _, True).
Proof.
  intros Hm s Hs _. destruct (Hm s Hs I) as (Hs' & _). unfold ignore. destruct (m s) as [s' [a|[e|]|]]; by split_and!.
Qed.
Lemma keeps_file_copy q o reader p total fed buf : p ≠ q →
  keeps (λ s, files s !! q = o) (copy_reader checked reader p total fed buf) (λ _, True).
Proof.
  intros Hne. assert (∀ total fed buf, keeps (λ s, files s !! q = o) (_ ← fs_append p buf; mret (total, fed)) (λ _ : Z * list byte, True)) as Hflush
    by (intros ???; eapply keeps_bind; [by apply keeps_file_append|intros [] _; by apply keeps_ret]).
  revert total fed buf. induction reader as [|[chunk|e|] reader IH]; intros total fed buf; cbn [copy_reader];
    [apply Hflush| |by intros s Hs _; split_and!..].
  case_bool_decide; [apply Hflush|]. destruct (buf_push chunk buf) as [out buf'].
  eapply keeps_bind; [by apply keeps_file_append|]. intros [] _. eapply keeps_bind; [apply keeps_lift|]. intros total' _. apply IH.
Qed.
Lemma keeps_file_receive q o id reader expected : stream_path id ≠ q →
  keeps (λ s, files s !! q = o) (receive checked id reader expected) (λ _, True).
Proof.
  intros Hne. unfold receive. eapply keeps_bind; [by apply keeps_file_create|]. intros [] _.
  eapply keeps_bind; [by apply keeps_file_copy|]. intros [n fed] _. destruct expected as [h|]; [|by apply keeps_ret].
  case_bool_decide; [by apply keeps_ret|]. eapply keeps_bind; [by apply keeps_file_ignore, keeps_file_remove|]. intros [] _.
  intros s Hs _. by split_and!.
Qed.
Lemma stream_not_object id h : stream_path id ≠ object_path h.
Proof. done. Qed.

(** A turn goes from one store to the next with the invariant, and leaves the files of other tasks alone. *)
Lemma streams_step s0 i x : streams_ok s0 x → streams_ok s0 (stream_step checked i x).
Proof.
  destruct x as [s ts]. intros (Hi & Hle & Hnd & Hok). unfold stream_step. destruct (ts !! i) as [t|] eqn:Ht; [|done].
  assert (t ∈ ts) as Hin by by eapply list_elem_of_lookup_2. pose proof (Hok t Hin) as Hme. unfold stream_ok in Hme. cbn [fst snd] in *.
  (* What is to be shown of the store and the phase that the turn gives. *)
  assert (∀ s' ph, store_inv s' → extends s s' → (∀ id, id ≠ sm_id t → files s' !! stream_path id = files s !! stream_path id) →
    stream_ok s' (at_stream ph t) → streams_ok s0 (s', <[i := at_stream ph t]> ts)) as Hgo.
  { intros s' ph Hi' Hle' Hf Hph. split_and!; cbn [fst snd]; [done|by etrans| |].
    - replace (map sm_id (<[i := at_stream ph t]> ts)) with (map sm_id ts); [done|]. rewrite list_fmap_insert. symmetry.
      apply list_insert_id. by rewrite list_lookup_fmap, Ht.
    - intros u [j [(_ & <- & _)|[Hne Hj]]%list_lookup_insert_Some]%list_elem_of_lookup_1; [done|].
      assert (sm_id u ≠ sm_id t) as Hid.
      { intros E. apply Hne. apply (NoDup_lookup _ _ _ (sm_id t) Hnd); rewrite list_lookup_fmap; [by rewrite Ht|by rewrite Hj, <-E]. }
      pose proof (Hok u ltac:(by eapply list_elem_of_lookup_2)) as Hu. unfold stream_ok in *. destruct Hle' as [Hle' _].
      destruct (sm_phase u) as [|h n|found h n|r|r]; try done; rewrite ?Hf by done; [done| |by apply Hle'].
      destruct Hu as [? Hu]. split; [done|]. by intros; apply Hle', Hu. }
  destruct (sm_phase t) as [|h n|found h n|r|r] eqn:Hph; [..|by split_and!]; cbn [fst snd].
  - destruct (safe_receive checked (sm_id t) (sm_reader t) (sm_expected t) s Hi I) as (Hi' & Hle' & Hq).
    assert (∀ id, id ≠ sm_id t → files (receive checked (sm_id t) (sm_reader t) (sm_expected t) s).1 !! stream_path id =
      files s !! stream_path id) as Hf.
    { intros id Hid. eapply (keeps_state (λ s', files s' !! stream_path id = files s !! stream_path id)); [|done].
      apply keeps_file_receive. intros E%stream_path_inj. congruence. }
    destruct (receive _ _ _ _ s) as [s' [[h n]|e|]]; cbn [fst snd] in *; apply Hgo; try done. by destruct (Hq _ eq_refl).
  - apply Hgo; [done..|]. split; [done|]. intros Hex. destruct Hme as (c & _ & Hc).
    apply path_exists_holds in Hex; [done..|]. rewrite <-Hc. apply blake3_wf.
  - destruct Hme as [(c & Hc & <-) Hfound]. destruct (safe_place (stream_path (sm_id t)) c found (scratch_stream _) s Hi (conj Hc Hfound)) as (Hi' & Hle' & Hq).
    assert (∀ id, id ≠ sm_id t → files (place (stream_path (sm_id t)) found (blake3 c) s).1 !! stream_path id = files s !! stream_path id) as Hf.
    { intros id Hid. eapply (keeps_state (λ s', files s' !! stream_path id = files s !! stream_path id)); [|done]. unfold place.
      assert (stream_path (sm_id t) ≠ stream_path id) as Hne by (intros E%stream_path_inj; congruence).
      destruct found; [by apply keeps_file_remove|by apply keeps_file_rename]. }
    destruct (place _ _ _ s) as [s' [[]|e|]]; cbn [fst snd] in *; apply Hgo; try done. by apply (Hq tt).
  - destruct (safe_add_dedup (λ s, holds s (ref_hash r)) r (λ _ _, True) ltac:(done) s Hi Hme) as (Hi' & Hle' & _). by apply Hgo.
Qed.
Lemma safe_write_batch_stream schedule chunks : NoDup (map (λ c, c.1.1) chunks) →
  safe (λ _, True) (write_batch_stream checked schedule chunks) (λ _ _, True).
Proof.
  intros Hnd. unfold write_batch_stream. apply triple_get_bind. intros self. apply safe_pre. cbn zeta.
  eapply triple_bind; [apply _|instantiate (1 := λ _ _, True)|intros ts].
  - case_if; [by intros s Hi _; split_and!|]. intros s Hi _. set (ts := map _ chunks).
    assert (streams_ok s (run_schedule streaming (stream_step checked) (max_concurrent_ops (config self)) STREAM_TURNS schedule (s, ts))) as Hok.
    { apply (schedule_keeps streaming (stream_step checked) _ (streams_ok s)); [intros i x; apply streams_step|].
      split_and!; cbn [fst snd]; [done|done| |by intros t ([[id reader] expected] & -> & _)%list_elem_of_fmap].
      unfold ts. rewrite map_map. rewrite (map_ext _ (λ c, c.1.1)); [done|]. by intros [[]]. }
    destruct (run_schedule _ _ _ _ _ _) as [s' ts']. destruct Hok as (? & ? & _). by split_and!.
  - apply triple_lift_bind; [apply _|]. intros results _.
    eapply triple_bind; [apply _|by apply safe_stats|]. intros []. by apply safe_ret.
Qed.

(** Every task ends: a turn brings it nearer to its end. *)
Definition steps_left (t : Stream) : nat :=
  match sm_phase t with Receiving => 4 | Looking _ _ => 3 | Moving _ _ _ => 2 | Listing _ => 1 | Streamed _ => 0 end.
Lemma streams_end schedule permits s ts : 0 < permits → Forall (λ t, sm_phase t = Receiving) ts →
  Forall (λ t, streaming t = false) (run_schedule streaming (stream_step checked) permits STREAM_TURNS schedule (s, ts)).2.
Proof.
  intros Hp Hts. assert (∀ t, streaming t = true ↔ (0 < steps_left t)%nat) as Hst
    by (intros t; unfold streaming, steps_left; destruct (sm_phase t); split; (done || lia)).
  eapply Forall_impl; [apply (run_schedule_ends streaming (stream_step checked) permits steps_left); [apply Hst| | |done|]|].
  - intros i [s' ts'] t Ht. cbn [snd] in *. unfold stream_step. rewrite Ht. cbn zeta.
    assert (∀ ph, (steps_left (at_stream ph t) ≤ pred (steps_left t))%nat → ∃ t', map steps_left (<[i := at_stream ph t]> ts') =
      <[i := steps_left t']> (map steps_left ts') ∧ (steps_left t' ≤ pred (steps_left t))%nat) as Hgo
      by (intros ph Hle; exists (at_stream ph t); split; [by rewrite list_fmap_insert|done]).
    destruct (sm_phase t) as [|h n|found h n|r|r] eqn:Hph; cbn [snd fst]; try (apply Hgo; unfold steps_left; rewrite Hph; cbn [at_stream sm_phase]).
    + destruct (receive _ _ _ _ s') as [s'' [[]|e|]]; cbn; lia.
    + cbn. lia.
    + destruct (place _ _ _ s') as [s'' [[]|e|]]; cbn; lia.
    + cbn. lia.
    + exists t. split; [symmetry; apply list_insert_id; by rewrite list_lookup_fmap, Ht|]. unfold steps_left. by rewrite Hph.
  - intros i [s' ts'] Hi. cbn [snd] in Hi. unfold stream_step. by rewrite Hi.
  - cbn [snd]. eapply Forall_impl; [exact Hts|]. intros t Ht. unfold steps_left, STREAM_TURNS. by rewrite Ht.
  - intros t Ht. destruct (streaming t) eqn:E; [|done]. apply Hst in E. cbn in Ht. lia.
Qed.
End batches.

(** ** Clients *)

Section clients.
Context `{Lru, Codecs, Hex, Blake3, MapIter} (checked : bool).

(** What the clients of a store ask for, one after the other, except for
    [delete]; a request that runs tasks comes with their schedule. *)
Inductive request :=
  | Write (data : list byte)
  | Read (now : Z) (h : ContentHash.t)
  | WriteBatch (now : Z) (schedule : list nat) (cs : list (list byte * option ContentHash.t))
  | FlushBatch (now : Z) (schedule : list nat)
  | WriteStream (id : string) (reader : list (outcome CasError (list byte)))
      (expected : option ContentHash.t)
  | WriteBatchStream (schedule : list nat)
      (chunks : list (string * list (outcome CasError (list byte)) * option ContentHash.t))
  | Continue (now : Z) (p : PartialTransfer) (reader : list (outcome CasError (list byte)))
  | Complete (now : Z) (p : PartialTransfer)
  | Cancel (p : PartialTransfer)
  | CleanupPartials (now : Z) (created : path → option Z)
  | Recover
  | Prefetch (now : Z) (hs : list ContentHash.t)
  | ClearCache
  | VerifyIntegrity (now : Z).

(** Hashes that come with the data of a batch are right, chunks that wait for a
    flush do not collide, names of temporary files are not used twice, and partial
    transfers are where [start_resumable_write] puts them. *)
Definition allowed (s : Store) (r : request) : Prop :=
  match r with
  | WriteBatch _ _ cs => Forall honest cs ∧ collision_free (waiting s ++ map fst cs)
  | FlushBatch _ _ => collision_free (waiting s)
  | WriteBatchStream _ chunks => NoDup (map (λ c, c.1.1) chunks)
  | Continue _ p _ | Complete _ p | Cancel p => partial_ok p
  | _ => True
  end.

(** An error is returned to the client, which may go on. *)
Definition serve (r : request) (s : Store) : Store :=
  match r with
  | Write data => (write checked data s).1
  | Read now h => (read checked now h s).1
  | WriteBatch now schedule cs => (write_batch checked now schedule cs s).1
  | FlushBatch now schedule => (flush_batch checked now schedule s).1
  | WriteStream id reader expected => (write_stream checked id reader expected s).1
  | WriteBatchStream schedule chunks => (write_batch_stream checked schedule chunks s).1
  | Continue now p reader => (continue_resumable_write checked now p reader s).1
  | Complete now p => (complete_resumable_write now p s).1
  | Cancel p => (cancel_resumable_write p s).1
  | CleanupPartials now created => (cleanup_expired_partials now created s).1
  | Recover => (recover s).1
  | Prefetch now hs => (prefetch checked now hs s).1
  | ClearCache => (clear_cache s).1
  | VerifyIntegrity now => (verify_integrity checked now s).1
  end.
Definition serve_all (rs : list request) (s : Store) : Store := foldl (λ s r, serve r s) s rs.
Fixpoint all_allowed (rs : list request) (s : Store) : Prop :=
  match rs with
  | [] => True
  | r :: rs => allowed s r ∧ all_allowed rs (serve r s)
  end.

Lemma serve_safe r s : store_inv s → allowed s r → store_inv (serve r s) ∧ extends s (serve r s).
Proof.
  intros Hi Hr.
  assert (∀ P A (m : st Store Failure A) Q, triple store_inv extends P m Q → P s →
    store_inv (m s).1 ∧ extends s (m s).1) as Hm.
  { intros P A m Q Hm Hp. destruct (Hm s Hi Hp) as (? & ? & _). done. }
  destruct r; cbn [serve allowed] in *;
    [eapply Hm; [apply safe_write|done]|eapply Hm; [apply safe_read|done]|eapply Hm; [apply safe_write_batch, Hr|apply Hr]
    |eapply Hm; [apply safe_flush_batch|exact (conj eq_refl Hr)]|eapply Hm; [apply safe_write_stream|done]
    |eapply Hm; [by apply safe_write_batch_stream|done]|eapply Hm; [by apply safe_continue|done]
    |eapply Hm; [by apply safe_complete|done]|eapply Hm; [by apply safe_cancel|done]|eapply Hm; [apply safe_cleanup|done]
    |eapply Hm; [apply safe_recover|done]|eapply Hm; [apply safe_prefetch|done]|eapply Hm; [apply safe_clear_cache|done]
    |eapply Hm; [apply safe_verify_integrity|done]].
Qed.
Lemma serve_all_safe rs s : store_inv s → all_allowed rs s →
  store_inv (serve_all rs s) ∧ extends s (serve_all rs s).
Proof.
  revert s. induction rs as [|r rs IH]; intros s Hi Hrs; [done|]. destruct Hrs as [Hr Hrs].
  destruct (serve_safe r s Hi Hr) as [Hi1 Hle1]. destruct (IH (serve r s) Hi1 Hrs) as [Hi2 Hle2].
  split; [done|]. by etrans.
Qed.

(** C3: A store opened on a directory whose objects are intact, without packfiles
    and compression, whose clients come one after the other, do not delete, and
    give batches only with right hashes and without colliding chunks: in every
    order of the turns of the tasks that a request runs, and whether requests fail
    or not, no object is ever lost, an object that is read has the hash it was
    asked for by, and what is written, flushed or streamed with success is on disk
    under its hash. *)
Theorem store_keeps_objects cfg now root packs s0 rs :
  enable_packfiles cfg = false → compression cfg = NoCompression → names_ok root →
  new_with_config checked cfg now root packs = Ok s0 → all_allowed rs s0 →
  let s := serve_all rs s0 in
  (∀ h c, root !! object_path h = Some c → blake3 c = h → holds s h) ∧
  (∀ h, holds s0 h → holds s h) ∧
  (∀ now h d, (read checked now h s).2 = Ok d → blake3 d = h) ∧
  (∀ data r, (write checked data s).2 = Ok r →
     ref_hash r = blake3 data ∧ holds (write checked data s).1 (blake3 data)) ∧
  (∀ now schedule, collision_free (waiting s) → (flush_batch checked now schedule s).2 = Ok tt →
     ∀ d, d ∈ waiting s → holds (flush_batch checked now schedule s).1 (blake3 d)) ∧
  (∀ id reader expected r, (write_stream checked id reader expected s).2 = Ok r →
     holds (write_stream checked id reader expected s).1 (ref_hash r) ∧
     ∀ h, expected = Some h → ref_hash r = h).
Proof.
  intros Hp Hc Hn Hnew Hrs s. destruct (new_store_inv _ _ _ _ _ _ Hp Hc Hn Hnew) as [Hi0 Hroot].
  destruct (serve_all_safe rs s0 Hi0 Hrs) as [Hi [Hle _]]. fold s in Hi, Hle. split_and!.
  - intros h c Hl E. eapply Hle, Hroot; done.
  - done.
  - intros now' h d. destruct (safe_read checked now' h s Hi I) as (_ & _ & Hq). apply Hq.
  - intros data r. destruct (safe_write checked data s Hi I) as (_ & _ & Hq). apply Hq.
  - intros now' schedule Hcf. destruct (safe_flush_batch checked now' schedule s s Hi (conj eq_refl Hcf)) as (_ & _ & Hq). apply Hq.
  - intros id reader expected r.
    destruct (safe_write_stream checked id reader expected s Hi I) as (_ & _ & Hq). apply Hq.
Qed.
End clients.
