(* ===== verification/StorageCrash.v ===== *)
(** Recovery of the content store, and crashes while an object is written.

    Recovery (recover and recover_temp_file of landro-cas/src/storage.rs) as a
    function on the files. A crash leaves, of the operations on files that
    write_atomic makes, a prefix; what was not synchronised of a file may be cut
    off at any byte. *)

From S2P Require Import Prelude Bytes CasInterface Packfile Storage StorageInv.
From Stdlib Require Import Init.Byte Strings.Byte Strings.Ascii ZArith Lia.
From stdpp Require Import base option list gmap sets strings numbers sorting.
Open Scope Z_scope.

Section recovery.
Context `{Lru, Codecs, Hex, Blake3, MapIter}.
#[local] Hint Resolve blake3_wf : core.

(** ** Recovery as a function on files *)

Definition is_temp (p : path) : Prop := head p = Some "objects"%string ∧ has_extension_tmp p = true.
#[export] Instance is_temp_dec p : Decision (is_temp p) := _.

Definition final_of (p : path) : path :=
  with_name p (default EmptyString (last p ≫= str_strip_suffix ".tmp")).

(** What recovery makes of the files for one temporary file. *)
Definition settle (fs : Files) (p : path) : Files :=
  match fs !! p, fs !! final_of p with
  | Some c, None =>
      if bool_decide (object_path (blake3 c) = final_of p) then <[final_of p := c]> (base.delete p fs)
      else base.delete p fs
  | _, _ => base.delete p fs
  end.

Lemma temp_suffix p : has_extension_tmp p = true → ∃ name, last p ≫= str_strip_suffix ".tmp" = Some name.
Proof. unfold has_extension_tmp. destruct (last p ≫= str_strip_suffix ".tmp") as [name|]; [by exists name|done]. Qed.
Lemma elem_of_temp_files p fs : p ∈ temp_files fs ↔ is_temp p ∧ is_Some (fs !! p).
Proof.
  unfold temp_files. rewrite list_elem_of_filter. apply and_iff_compat_l.
  rewrite list_elem_of_fmap. split.
  - intros ([q c] & -> & Hq). apply elem_of_map_iter in Hq. by exists c.
  - intros [c Hc]. exists (p, c). split; [done|]. by apply elem_of_map_iter.
Qed.
Lemma temp_scratch p : is_temp p → scratch p.
Proof. intros [_ Ht]. apply tmp_is_scratch. destruct (temp_suffix p Ht) as [name ->]. by exists name. Qed.

Lemma set_files_same s : set_files (files s) s = s.
Proof. by destruct s. Qed.

Lemma recover_temp_file_eq p r s : is_temp p → is_Some (files s !! p) →
  ∃ r', recover_temp_file p r s = (set_files (settle (files s) p) s, Ok r') ∧
    recovered r' + cleaned r' = recovered r + cleaned r + 1 ∧ recovery_errors r' = recovery_errors r.
Proof.
  intros Hp [c Hc]. destruct (temp_suffix p (proj2 Hp)) as [name Hname].
  assert (final_of p = with_name p name) as Hfin by (unfold final_of; by rewrite Hname).
  unfold recover_temp_file, settle, on_result. rewrite Hname, Hc, Hfin.
  unfold path_exists, fs_remove, fs_read, fs_rename, ignore, mbind, st_bind, get_st. cbn zeta.
  destruct (files s !! with_name p name) as [d|].
  - rewrite bool_decide_true by eauto. rewrite Hc. eexists. split_and!; [done|cbn; lia|done].
  - rewrite bool_decide_false by (by intros [? ?]). rewrite Hc.
    case_bool_decide; rewrite Hc; (eexists; split_and!; [done|cbn; lia|done]).
Qed.

(** A published file is an object, hence no temporary file. *)
Lemma settle_gone fs p : is_temp p → settle fs p !! p = None.
Proof.
  intros Hp. unfold settle. destruct (fs !! p) as [c|]; [|apply lookup_delete_eq].
  destruct (fs !! final_of p); [apply lookup_delete_eq|].
  case_bool_decide as E; [|apply lookup_delete_eq].
  rewrite lookup_insert_ne; [apply lookup_delete_eq|]. rewrite <-E. intros Ep.
  by apply (temp_scratch p Hp (blake3 c)); [apply blake3_wf|].
Qed.
Lemma settle_temp fs p q : is_temp q → p ≠ q → settle fs p !! q = fs !! q.
Proof.
  intros Hq Hne. unfold settle. destruct (fs !! p) as [c|]; [|by apply lookup_delete_ne].
  destruct (fs !! final_of p); [by apply lookup_delete_ne|].
  case_bool_decide as E; [|by apply lookup_delete_ne].
  rewrite lookup_insert_ne; [by apply lookup_delete_ne|]. rewrite <-E. intros Ep.
  by apply (temp_scratch q Hq (blake3 c)); [apply blake3_wf|].
Qed.

Lemma settle_all_temp ps fs q : is_temp q → Forall is_temp ps →
  foldl settle fs ps !! q = if decide (q ∈ ps) then None else fs !! q.
Proof.
  intros Hq Hps. revert fs. induction Hps as [|p ps Hp Hps IH]; intros fs; cbn [foldl].
  { rewrite decide_False by apply not_elem_of_nil. done. }
  rewrite IH. destruct (decide (p = q)) as [<-|Hne].
  - rewrite (decide_True (P := p ∈ p :: ps)) by left. case_decide; [done|]. by apply settle_gone.
  - rewrite settle_temp by done. repeat case_decide; set_solver.
Qed.

Lemma recover_all_eq ps r s : NoDup ps → Forall is_temp ps → Forall (λ p, is_Some (files s !! p)) ps →
  ∃ r', recover_all ps r s = (set_files (foldl settle (files s) ps) s, Ok r') ∧
    recovered r' + cleaned r' = recovered r + cleaned r + zlen ps ∧ recovery_errors r' = recovery_errors r.
Proof.
  intros Hnd Hps. revert r s. induction Hps as [|p ps Hp Hps IH]; intros r s Hs.
  { exists r. cbn [recover_all foldl]. rewrite set_files_same. by split_and!; [|rewrite zlen_nil; lia|]. }
  apply NoDup_cons in Hnd as [Hnin Hnd]. apply Forall_cons in Hs as [Hsp Hs].
  destruct (recover_temp_file_eq p r s Hp Hsp) as (r1 & Hr & Hn1 & He1).
  cbn [recover_all foldl]. unfold on_result at 1. rewrite Hr.
  destruct (IH Hnd r1 (set_files (settle (files s) p) s)) as (r' & -> & Hn & He).
  { rewrite Forall_forall in Hs, Hps |- *. intros q Hq. cbn [files set_files].
    rewrite settle_temp; [by apply Hs|by apply Hps|by intros ->]. }
  exists r'. split_and!; [done|rewrite zlen_cons; lia|congruence].
Qed.

Lemma Forall_temp_files fs : Forall is_temp (temp_files fs) ∧ Forall (λ p, is_Some (fs !! p)) (temp_files fs).
Proof. rewrite !Forall_forall. split; intros p Hp; by apply elem_of_temp_files in Hp as [? ?]. Qed.

Definition settled (fs : Files) : Files := foldl settle fs (temp_files fs).

Lemma recover_eq s : ∃ r, recover s = (set_files (settled (files s)) s, Ok r) ∧
  recovered r + cleaned r = zlen (temp_files (files s)) ∧ recovery_errors r = [].
Proof.
  destruct (Forall_temp_files (files s)) as [Ht Hs].
  destruct (recover_all_eq (temp_files (files s)) {| recovered := 0; cleaned := 0; recovery_errors := [] |} s)
    as (r & Hr & Hn & He); [|done..|].
  { unfold temp_files. apply NoDup_filter, NoDup_map_iter. }
  by exists r.
Qed.

Lemma settled_no_temp fs : temp_files (settled fs) = [].
Proof.
  apply elem_of_nil_inv. intros p [Hp Hs]%elem_of_temp_files. destruct (Forall_temp_files fs) as [Ht _].
  unfold settled in Hs. rewrite settle_all_temp in Hs by done. case_decide as Hin; [by destruct Hs|].
  apply Hin. by apply elem_of_temp_files.
Qed.

(** *** Objects *)

Lemma settle_object fs p h c : is_temp p → ContentHash.wf h →
  fs !! object_path h = Some c → settle fs p !! object_path h = Some c.
Proof.
  intros Hp Hh Hc. pose proof (temp_scratch p Hp h Hh) as Hne. unfold settle.
  assert (base.delete p fs !! object_path h = Some c) as Hdel by (by rewrite lookup_delete_ne).
  destruct (fs !! p); [|done]. destruct (fs !! final_of p) eqn:Hf; [done|]. case_bool_decide; [|done].
  rewrite lookup_insert_ne; [done|]. congruence.
Qed.
Lemma settle_all_object fs ps h c : Forall is_temp ps → ContentHash.wf h →
  fs !! object_path h = Some c → foldl settle fs ps !! object_path h = Some c.
Proof.
  intros Hps Hh. revert fs. induction Hps as [|p ps Hp Hps IH]; intros fs Hc; [done|].
  by apply IH, settle_object.
Qed.

Lemma object_temp_is_temp h : ContentHash.wf h →
  is_temp (object_temp_path h) ∧ final_of (object_temp_path h) = object_path h.
Proof.
  intros Hh. destruct (object_temp_split h Hh) as (s1 & s2 & r & Hr & Hp & _ & _ & Ht). unfold is_temp, final_of, has_extension_tmp.
  rewrite Ht, Hp. cbn [last mbind option_bind]. rewrite str_strip_suffix_app. cbn [default from_option id].
  split; [|done]. split; [done|]. by destruct r.
Qed.

Lemma settled_publishes fs h c : fs !! object_temp_path h = Some c → blake3 c = h →
  is_Some (settled fs !! object_path h).
Proof.
  intros Hc Hh. assert (ContentHash.wf h) as Hw by (rewrite <-Hh; apply blake3_wf).
  destruct (object_temp_is_temp h Hw) as [Ht Hfin]. destruct (Forall_temp_files fs) as [Hall _].
  assert (object_temp_path h ∈ temp_files fs) as Hin by (apply elem_of_temp_files; eauto).
  unfold settled. revert fs Hc Hall Hin. intros fs. generalize (temp_files fs). intros ps. revert fs.
  induction ps as [|p ps IH]; intros fs Hc Hall Hin; [by apply elem_of_nil in Hin|].
  apply Forall_cons in Hall as [Hp Hps]. cbn [foldl].
  destruct (decide (p = object_temp_path h)) as [->|Hne].
  - assert (is_Some (settle fs (object_temp_path h) !! object_path h)) as [d Hd]; [|exists d; by apply settle_all_object].
    destruct (fs !! object_path h) as [d|] eqn:Hd; [exists d; by apply settle_object|].
    unfold settle. rewrite Hc, Hfin, Hd, Hh, bool_decide_true by done. rewrite lookup_insert_eq. by exists c.
  - apply elem_of_cons in Hin as [E|Hin]; [by destruct Hne|]. apply IH; [by rewrite settle_temp|done|done].
Qed.

(** Opening a store with recovery switched on. *)
Definition empty_cache (n : Z) : ChunkCache :=
  {| chunks := lru_new n; total_size := 0; hit_count := 0; miss_count := 0; eviction_count := 0 |}.
Lemma reopen_eq checked cfg now fs packs : enable_packfiles cfg = false →
  enable_recovery cfg = true → max_chunks (cache_config cfg) ≠ 0 →
  new_with_config checked cfg now fs packs =
    Ok (fresh_store cfg now (settled fs) (empty_cache (max_chunks (cache_config cfg)))).
Proof.
  intros Hp Hrec Hmax. unfold new_with_config. rewrite Hp, Hrec. cbn [mbind outcome_bind mret outcome_ret].
  unfold ChunkCache_new. rewrite (proj2 (Z.eqb_neq _ _)) by done. cbn [or_panic mbind outcome_bind].
  edestruct recover_eq as (r & -> & _). done.
Qed.
Lemma reopen checked cfg now fs packs : enable_packfiles cfg = false → compression cfg = NoCompression →
  enable_recovery cfg = true → max_chunks (cache_config cfg) ≠ 0 → names_ok fs →
  ∃ s, new_with_config checked cfg now fs packs = Ok s ∧ store_inv s ∧ files s = settled fs ∧
    (∀ h c, fs !! object_path h = Some c → blake3 c = h → holds s h).
Proof.
  intros Hp Hcomp Hrec Hmax Hn. pose proof (reopen_eq checked cfg now fs packs Hp Hrec Hmax) as Hs.
  destruct (new_store_inv _ _ _ _ _ _ Hp Hcomp Hn Hs) as [Hi Hh]. by eexists.
Qed.

(** ** What a crash leaves *)

(** A disk: the names of the files, the contents of the files by number, each
    with whether it is synchronised, and the earlier entries of names whose
    directory has not been synchronised since they changed. *)
Record Volume := {
  names : gmap path positive;
  undone : list (path * option positive);
  inodes : gmap positive (list byte * bool);
}.
Definition visible (v : Volume) : Files := omap (λ i, fst <$> inodes v !! i) (names v).

Definition set_inode (i : positive) (x : list byte * bool) (v : Volume) : Volume :=
  {| names := names v; undone := undone v; inodes := <[i := x]> (inodes v) |}.
(** An operation on the file of a name. *)
Definition on_file (p : path) (f : list byte → list byte * bool) (v : Volume) : Volume :=
  match names v !! p with
  | Some i => match inodes v !! i with Some (c, _) => set_inode i (f c) v | None => v end
  | None => v
  end.
Definition run_op (v : Volume) (op : fs_op) : Volume :=
  match op with
  | Create p =>
      match names v !! p with
      | Some i => set_inode i ([], false) v
      | None =>
          let i := fresh (dom (inodes v)) in
          {| names := <[p := i]> (names v); undone := (p, None) :: undone v;
             inodes := <[i := ([], false)]> (inodes v) |}
      end
  | Append p bs => on_file p (λ c, (c ++ bs, false)) v
  | SyncFile p => on_file p (λ c, (c, true)) v
  | Rename p q =>
      match names v !! p with
      | Some i =>
          {| names := <[q := i]> (base.delete p (names v));
             undone := (p, Some i) :: (q, names v !! q) :: undone v; inodes := inodes v |}
      | None => v
      end
  | SyncDir d =>
      {| names := names v; undone := filter (λ e, parent e.1 ≠ d) (undone v);
         inodes := inodes v |}
  end.

(** After a crash every name has, independently of the others, its present
    entry or one that it had since its directory was last synchronised; a
    synchronised file has its contents, another one any contents. *)
Definition entry (v : Volume) (p : path) (o : option positive) : Prop :=
  o = names v !! p ∨ (p, o) ∈ undone v.
Definition left_by (v : Volume) (o : option positive) (x : option (list byte)) : Prop :=
  match o with
  | None => x = None
  | Some i => match inodes v !! i with Some (c, true) => x = Some c | _ => is_Some x end
  end.
Definition survives (v : Volume) (fs : Files) : Prop :=
  ∀ p, ∃ o, entry v p o ∧ left_by v o (fs !! p).

(** A volume with these files and nothing left to synchronise. *)
Record at_rest (v : Volume) (fs : Files) : Prop := {
  rest_files : ∀ p, match names v !! p with
    | Some i => ∃ c, inodes v !! i = Some (c, true) ∧ fs !! p = Some c
    | None => fs !! p = None
    end;
  rest_distinct : ∀ p q i, names v !! p = Some i → names v !! q = Some i → p = q;
  rest_settled : undone v = [];
}.

Lemma at_rest_visible v fs : at_rest v fs → visible v = fs.
Proof.
  intros [Hf _ _]. apply map_eq. intros p. unfold visible. rewrite lookup_omap. specialize (Hf p).
  destruct (names v !! p) as [i|]; [|done]. destruct Hf as (c & Hi & ->). cbn. by rewrite Hi.
Qed.

(** *** The stages of a write: the temporary file, and the object *)

Definition drafted (v : Volume) (T : path) (i : positive) u (x : list byte * bool) : Volume :=
  {| names := <[T := i]> (names v); undone := u; inodes := <[i := x]> (inodes v) |}.
Definition published (v : Volume) (T O : path) (i : positive) u (x : list byte * bool) : Volume :=
  {| names := <[O := i]> (base.delete T (names v)); undone := u; inodes := <[i := x]> (inodes v) |}.

Lemma run_create v fs T : at_rest v fs → ∃ i u, run_op v (Create T) = drafted v T i u ([], false) ∧
  Forall (λ e, e.1 = T) u ∧ (∀ p, p ≠ T → names v !! p ≠ Some i).
Proof.
  intros [Hf Hd Hu]. cbn [run_op]. destruct (names v !! T) as [i|] eqn:Hi.
  - exists i, []. split; [|split; [by constructor|]].
    + unfold set_inode, drafted. by rewrite Hu, (insert_id (names v)).
    + intros p Hp Hpi. by apply Hp, (Hd p T i).
  - eexists _, [(T, None)]. split; [unfold drafted; by rewrite Hu|split; [by repeat constructor|]].
    intros p _ Hpi. specialize (Hf p). rewrite Hpi in Hf. destruct Hf as (c & Hc & _).
    apply elem_of_dom_2 in Hc. revert Hc. apply is_fresh.
Qed.
Lemma on_drafted v T i u c b f : on_file T f (drafted v T i u (c, b)) = drafted v T i u (f c).
Proof.
  unfold on_file. cbn [names drafted inodes]. rewrite !lookup_insert_eq. unfold set_inode, drafted.
  cbn [names undone inodes]. by rewrite insert_insert_eq.
Qed.
Lemma rename_drafted v T O i u x : T ≠ O → run_op (drafted v T i u x) (Rename T O) =
  published v T O i ((T, Some i) :: (O, names v !! O) :: u) x.
Proof.
  intros Hne. cbn [run_op names drafted undone inodes]. rewrite lookup_insert_eq. unfold published.
  by rewrite lookup_insert_ne, delete_insert_eq.
Qed.
Lemma sync_published v T O i u x : parent T = parent O → Forall (λ e, e.1 = T) u →
  run_op (published v T O i ((T, Some i) :: (O, names v !! O) :: u) x) (SyncDir (parent O)) =
  published v T O i [] x.
Proof.
  intros Hp Hu. cbn [run_op names published undone inodes]. unfold published. f_equal.
  rewrite !filter_cons_False by (intros Hx; by apply Hx). apply elem_of_nil_inv. intros e [He Hin]%list_elem_of_filter.
  rewrite Forall_forall in Hu. by rewrite (Hu e Hin) in He.
Qed.

(** The volume when [write_ops] is done, with the entries a crash may bring back. *)
Lemma write_complete policy v fs T O data : at_rest v fs → T ≠ O → parent T = parent O → ∃ i u,
  foldl run_op v (write_ops policy T O data) = published v T O i u (data, should_fsync_file policy) ∧
  Forall (λ e, e.1 = T ∨ e = (O, names v !! O)) u ∧ (should_fsync_directory policy = true → u = []) ∧
  (∀ p, p ≠ T → names v !! p ≠ Some i).
Proof.
  intros Hrest Hne Hpar. destruct (run_create v fs T Hrest) as (i & u & Hc & Hu & Hfree).
  exists i, (if should_fsync_directory policy then [] else (T, Some i) :: (O, names v !! O) :: u).
  split_and!; [|destruct (should_fsync_directory policy); [by constructor|]|
    by destruct (should_fsync_directory policy)|done].
  - unfold write_ops. cbn [app foldl]. rewrite Hc, foldl_app.
    assert (foldl run_op (run_op (drafted v T i u ([], false)) (Append T data))
      (if should_fsync_file policy then [SyncFile T] else []) = drafted v T i u (data, should_fsync_file policy)) as ->.
    { destruct (should_fsync_file policy); cbn [foldl run_op]; by rewrite ?on_drafted. }
    cbn [foldl]. rewrite rename_drafted by done. destruct (should_fsync_directory policy); [|done].
    cbn [foldl]. by rewrite sync_published.
  - constructor; [by left|]. constructor; [by right|]. eapply Forall_impl; [exact Hu|]. by left.
Qed.

(** The points of a synchronised write. *)
Lemma write_ops_prefix policy T O data before rest : should_fsync_file policy = true →
  before ++ rest = write_ops policy T O data →
  (rest ≠ [] ∧ (before = [] ∨ before = [Create T] ∨ before = [Create T; Append T data] ∨
    before = [Create T; Append T data; SyncFile T])) ∨
  (rest ≠ [] ∧ before = [Create T; Append T data; SyncFile T; Rename T O]) ∨
  (rest = [] ∧ before = write_ops policy T O data).
Proof.
  intros Hsync E. destruct rest as [|op rest]; [right; right; by rewrite app_nil_r in E|].
  unfold write_ops in E. rewrite Hsync in E. cbn [app] in E.
  do 4 (destruct before as [|? before]; [left; by auto 6|]; injection E as -> E).
  destruct before as [|? before]; [right; by left|]. destruct (should_fsync_directory policy); [|done].
  injection E as _ E. by apply app_eq_nil in E as [_ ?].
Qed.

(** The volume at any point: unchanged, with a temporary file, or renamed. *)
Lemma write_prefix policy v fs T O data before rest : at_rest v fs → T ≠ O → parent T = parent O →
  should_fsync_file policy = true → before ++ rest = write_ops policy T O data → ∃ i u,
  (∀ p, p ≠ T → names v !! p ≠ Some i) ∧ Forall (λ e, e.1 = T ∨ e = (O, names v !! O)) u ∧
  let v' := foldl run_op v before in
  (rest ≠ [] ∧ v' = v) ∨
  (rest ≠ [] ∧ Forall (λ e, e.1 = T) u ∧ ∃ x, v' = drafted v T i u x) ∨
  (v' = published v T O i u (data, true) ∧ (rest = [] → should_fsync_directory policy = true → u = [])).
Proof.
  intros Hrest Hne Hpar Hsync E. destruct (run_create v fs T Hrest) as (i & u & Hc & Hu & Hfree).
  assert (Forall (λ e, e.1 = T ∨ e = (O, names v !! O)) u) as Hu'.
  { eapply Forall_impl; [exact Hu|]. by left. }
  apply write_ops_prefix in E as [[Hr [-> | [-> | [-> | ->]]]]|[[Hr ->]|[-> ->]]]; [| | | | | |exact Hsync].
  - exists i, u. split_and!; [done..|]. by left.
  - exists i, u. split_and!; [done..|]. right. left. cbn [foldl]. rewrite Hc. eauto.
  - exists i, u. split_and!; [done..|]. right. left. cbn [foldl]. rewrite Hc. cbn [run_op].
    rewrite on_drafted. eauto.
  - exists i, u. split_and!; [done..|]. right. left. cbn [foldl]. rewrite Hc. cbn [run_op].
    rewrite !on_drafted. eauto.
  - exists i, ((T, Some i) :: (O, names v !! O) :: u).
    split_and!; [done|by constructor; [left|constructor; [right|]]|].
    right. right. split; [|done]. cbn [foldl]. rewrite Hc. cbn [run_op]. rewrite !on_drafted. by rewrite <-rename_drafted.
  - destruct (write_complete policy v fs T O data Hrest Hne Hpar) as (j & w & Hd & Hw & Hdir & Hf).
    rewrite Hsync in Hd. exists j, w. split_and!; [done..|]. by right; right.
Qed.

Lemma write_atomic_eq checked h data s : ContentHash.wf h → ∃ n r,
  write_atomic checked (object_path h) data s =
    (set_pending_syncs n (set_files (<[object_path h := data]> (base.delete (object_temp_path h) (files s))) s), r) ∧
  (r = Ok tt ∨ r = Panic).
Proof.
  intros Hw. destruct (object_temp_split h Hw) as (_ & _ & rest & _ & _ & Hlast & Htemp & _).
  unfold write_atomic, mbind, st_bind, get_st, lift. rewrite Hlast. cbn [ok_or]. cbn zeta. rewrite Htemp.
  assert (∀ policy, perform_all (write_ops policy (object_temp_path h) (object_path h) data) s =
    (set_files (<[object_path h := data]> (base.delete (object_temp_path h) (files s))) s, Ok tt)) as ->.
  { intros policy. unfold write_ops. cbn [app perform_all perform].
    unfold mbind, st_bind, fs_create, fs_append, modify_st. cbn [files set_files].
    rewrite lookup_insert_eq, app_nil_l, insert_insert_eq.
    destruct (should_fsync_file policy), (should_fsync_directory policy); cbn [app perform_all perform];
      unfold mbind, st_bind, sync_all, mret, st_ret, fs_rename; cbn [files set_files];
      by rewrite lookup_insert_eq, delete_insert_eq. }
  destruct (fsync_policy (config s)) as [|n| |]; try (exists (pending_syncs s); by eauto).
  unfold modify_st, mret, st_ret. cbn [files set_files].
  destruct (arith checked 32 _) as [m|e|] eqn:Ha.
  - destruct (n <=? m); eexists _, (Ok tt); by eauto.
  - by apply arith_no_Err in Ha.
  - by eexists; eauto.
Qed.

Lemma visible_published v fs T O i u x : at_rest v fs → (∀ p, p ≠ T → names v !! p ≠ Some i) →
  visible (published v T O i u x) = <[O := x.1]> (base.delete T fs).
Proof.
  intros Hrest Hfree. rewrite <-(at_rest_visible v fs Hrest). apply map_eq. intros p.
  unfold visible, published. cbn [names inodes]. rewrite lookup_omap.
  destruct (decide (O = p)) as [<-|Hp]; [by rewrite !lookup_insert_eq; cbn; rewrite lookup_insert_eq|].
  rewrite !(lookup_insert_ne _ O) by done. destruct (decide (T = p)) as [<-|Ht]; [by rewrite !lookup_delete_eq|].
  rewrite !lookup_delete_ne, lookup_omap by done. destruct (names v !! p) as [j|] eqn:Hj; [|done]. cbn.
  rewrite lookup_insert_ne; [done|]. intros ->. by apply (Hfree p).
Qed.

Lemma object_temp_distinct h : ContentHash.wf h →
  object_temp_path h ≠ object_path h ∧ parent (object_temp_path h) = parent (object_path h).
Proof. intros Hw. split; [by apply object_temp_not_object|done]. Qed.

(** What [write_atomic] leaves behind is what its operations make of a volume. *)
Lemma write_atomic_files checked h data s v : ContentHash.wf h → at_rest v (files s) →
  files (write_atomic checked (object_path h) data s).1 =
    visible (foldl run_op v (write_ops (fsync_policy (config s)) (object_temp_path h) (object_path h) data)).
Proof.
  intros Hw Hrest. destruct (object_temp_distinct h Hw) as [Hne Hpar].
  destruct (write_complete (fsync_policy (config s)) v _ _ _ data Hrest Hne Hpar) as (i & u & -> & _ & _ & Hfree).
  rewrite (visible_published v (files s)) by done.
  by destruct (write_atomic_eq checked h data s Hw) as (n & r & -> & _).
Qed.

(** Every entry of an object that a crash can leave is a synchronised file. *)
Definition durable (v : Volume) (h : ContentHash.t) (o : option positive) : Prop :=
  ∃ i c, o = Some i ∧ inodes v !! i = Some (c, true) ∧ blake3 c = h.
Definition intact (v : Volume) : Prop := ∀ h o, ContentHash.wf h →
  entry v (object_path h) o → o = None ∨ durable v h o.
Definition kept (v : Volume) (h : ContentHash.t) : Prop := ∀ o, entry v (object_path h) o → durable v h o.

Lemma durable_left v h o x : durable v h o → left_by v o x → ∃ c, x = Some c ∧ blake3 c = h.
Proof. intros (i & c & -> & Hi & Hh). cbn. rewrite Hi. intros ->. by exists c. Qed.
Lemma intact_names v fs : intact v → survives v fs → names_ok fs.
Proof.
  intros Hv Hs h c Hw Hc. destruct (Hs (object_path h)) as (o & Ho & Hl).
  destruct (Hv h o Hw Ho) as [->|Hd]; [cbn in Hl; congruence|].
  destruct (durable_left v h o _ Hd Hl) as (c' & Hc' & Hh). congruence.
Qed.
Lemma kept_survives v fs h : kept v h → survives v fs → ∃ c, fs !! object_path h = Some c ∧ blake3 c = h.
Proof.
  intros Hk Hs. destruct (Hs (object_path h)) as (o & Ho & Hl). by eapply durable_left; [apply Hk|].
Qed.

Section stages.
Context (v : Volume) (s : Store) (Hrest : at_rest v (files s)) (Hi : store_inv s).
Context (h : ContentHash.t) (Hw : ContentHash.wf h) (i : positive).
Let T := object_temp_path h.
Let O := object_path h.
Context (Hfree : ∀ p, p ≠ T → names v !! p ≠ Some i).

Lemma rest_durable h' j : ContentHash.wf h' → names v !! object_path h' = Some j → durable v h' (Some j).
Proof using Hrest Hi.
  intros Hw' Hj. pose proof (rest_files _ _ Hrest (object_path h')) as Hf. rewrite Hj in Hf.
  destruct Hf as (c & Hc & Hx). exists j, c. split_and!; [done..|]. by apply (si_files _ Hi).
Qed.
Lemma rest_entry p o : entry v p o ↔ o = names v !! p.
Proof using Hrest.
  unfold entry. rewrite (rest_settled _ _ Hrest). split; [|by left].
  by intros [?|?%elem_of_nil].
Qed.
Lemma rest_holds h' : holds s h' → is_Some (names v !! object_path h').
Proof using Hrest.
  intros (c & Hc & _). pose proof (rest_files _ _ Hrest (object_path h')) as Hf.
  destruct (names v !! object_path h'); [by eexists|congruence].
Qed.
Lemma rest_intact : intact v ∧ ∀ h', holds s h' → kept v h'.
Proof using Hrest Hi.
  split.
  - intros h' o Hw' ->%rest_entry. destruct (names v !! object_path h') as [j|] eqn:Hj; [|by left].
    right. by apply rest_durable.
  - intros h' Hh o ->%rest_entry. destruct (rest_holds h' Hh) as [j Hj]. rewrite Hj.
    apply rest_durable; [by eapply holds_wf|done].
Qed.

Lemma object_not_temp h' : ContentHash.wf h' → object_path h' ≠ T.
Proof using Hw. intros Hw' E. by apply (object_temp_not_object h h' Hw Hw'). Qed.

(** A file that is not named by an object does not matter. *)
Lemma frame_durable v' x h' o : ContentHash.wf h' → inodes v' = <[i := x]> (inodes v) →
  o = names v !! object_path h' → o = None ∨ durable v h' o → o = None ∨ durable v' h' o.
Proof using Hfree Hw.
  intros Hw' Hv' -> [?|(j & c & Hj & Hc & Hh)]; [by left|]. right. exists j, c.
  split_and!; [done| |done]. rewrite Hv', lookup_insert_ne; [done|]. intros ->.
  by apply (Hfree (object_path h') (object_not_temp h' Hw')).
Qed.

Lemma drafted_intact u x : Forall (λ e, e.1 = T) u →
  intact (drafted v T i u x) ∧ ∀ h', holds s h' → kept (drafted v T i u x) h'.
Proof using Hrest Hi Hfree Hw.
  intros Hu. destruct rest_intact as [Hint Hkept].
  assert (∀ h' o, ContentHash.wf h' → entry (drafted v T i u x) (object_path h') o → o = names v !! object_path h') as He.
  { intros h' o Hw' [->|Hin]; [cbn; by rewrite lookup_insert_ne by (intros E; by apply (object_not_temp h' Hw'))|].
    rewrite Forall_forall in Hu. by apply Hu, object_not_temp in Hin. }
  split.
  - intros h' o Hw' Ho%He; [|done]. eapply frame_durable; [done..|]. apply Hint; [done|]. by left.
  - intros h' Hh o Ho%He; [|by eapply holds_wf].
    destruct (frame_durable (drafted v T i u x) x h' o) as [->|]; [by eapply holds_wf|done..| | |done].
    { right. apply Hkept; [done|]. by left. }
    destruct (rest_holds h' Hh) as [j Hj]. congruence.
Qed.

Lemma published_intact u data : blake3 data = h → Forall (λ e, e.1 = T ∨ e = (O, names v !! O)) u →
  let v' := published v T O i u (data, true) in
  intact v' ∧ (∀ h', holds s h' → kept v' h') ∧ (u = [] → kept v' h).
Proof using Hrest Hi Hfree Hw.
  intros Hd Hu v'. destruct rest_intact as [Hint Hkept].
  assert (durable v' h (Some i)) as Hnew.
  { exists i, data. split_and!; [done|apply lookup_insert_eq|done]. }
  assert (∀ h' o, ContentHash.wf h' → entry v' (object_path h') o →
    o = names v !! object_path h' ∨ (h' = h ∧ o = Some i)) as He.
  { intros h' o Hw' [->|Hin].
    - cbn. destruct (decide (h' = h)) as [->|Hne]; [right; by rewrite lookup_insert_eq|left].
      rewrite lookup_insert_ne by (intros E; apply Hne; symmetry; by apply object_path_inj).
      by rewrite lookup_delete_ne by (intros E; by apply (object_not_temp h' Hw')).
    - rewrite Forall_forall in Hu. destruct (Hu _ Hin) as [E|E]; [by apply object_not_temp in E|].
      left. apply (f_equal snd) in E as E2. apply (f_equal fst) in E as E1. cbn [fst snd] in E1, E2.
      by rewrite E2, E1. }
  split_and!.
  - intros h' o Hw' [Ho|[-> ->]]%He; [|by right|done].
    eapply frame_durable; [done..|]. apply Hint; [done|]. by left.
  - intros h' Hh o Ho. assert (ContentHash.wf h') as Hw' by (by eapply holds_wf).
    destruct (He h' o Hw' Ho) as [E|[-> ->]]; [|done].
    destruct (frame_durable v' (data, true) h' o) as [->|]; [done..| | |done].
    { right. apply Hkept; [done|]. by left. }
    destruct (rest_holds h' Hh) as [j Hj]. congruence.
  - intros -> o [->|Hin]; [|by apply elem_of_nil in Hin]. cbn. by rewrite lookup_insert_eq.
Qed.
End stages.

(** What an open store holds, a write keeps on the volume at every point. *)
Lemma write_volume data s v before rest : store_inv s → at_rest v (files s) →
  should_fsync_file (fsync_policy (config s)) = true →
  before ++ rest = write_ops (fsync_policy (config s)) (object_temp_path (blake3 data))
    (object_path (blake3 data)) data →
  let v' := foldl run_op v before in
  intact v' ∧ (∀ h, holds s h → kept v' h) ∧
  (rest = [] → should_fsync_directory (fsync_policy (config s)) = true → kept v' (blake3 data)).
Proof.
  intros Hi Hrest Hsync E. pose proof (blake3_wf data) as Hw.
  destruct (object_temp_distinct _ Hw) as [Hne Hpar].
  destruct (write_prefix _ v _ _ _ data before rest Hrest Hne Hpar Hsync E)
    as (i & u & Hfree & Hu & [[Hr ->]|[(Hr & Ht & x & ->)|[-> Hdir]]]).
  - destruct (rest_intact v s Hrest Hi) as [? ?]. by split_and!.
  - destruct (drafted_intact v s Hrest Hi _ Hw i Hfree u x Ht) as [? ?]. by split_and!.
  - destruct (published_intact v s Hrest Hi _ Hw i Hfree u data eq_refl Hu) as (? & ? & Hk).
    split_and!; [done..|]. intros Hr Hd. by apply Hk, Hdir.
Qed.


(** What a crash leaves of the other files of a volume at rest. *)
Lemma published_survives v fs T O i u x fs' : at_rest v fs → T ≠ O → (∀ p, p ≠ T → names v !! p ≠ Some i) →
  fs' !! T = None → (∀ p, p ≠ T → p ≠ O → fs' !! p = fs !! p) →
  (∃ o, entry (published v T O i u x) O o ∧ left_by (published v T O i u x) o (fs' !! O)) →
  survives (published v T O i u x) fs'.
Proof.
  intros Hrest Hne Hfree HT Hother HO p. destruct (decide (p = O)) as [->|Hp]; [done|].
  destruct (decide (p = T)) as [->|Hp'].
  - exists None. split; [|done]. left. cbn. by rewrite lookup_insert_ne, lookup_delete_eq.
  - exists (names v !! p). split; [left; cbn; by rewrite lookup_insert_ne, lookup_delete_ne|].
    rewrite Hother by done. pose proof (rest_files _ _ Hrest p) as Hf. specialize (Hfree p Hp').
    destruct (names v !! p) as [j|]; [|done]. destruct Hf as (c & Hj & Hc). cbn.
    by rewrite lookup_insert_ne, Hj by congruence.
Qed.

(** When the directory is not synchronised, which [Batch] never does either, a
    crash can undo a write that has returned. *)
Theorem batched_write_undone s v data :
  at_rest v (files s) → should_fsync_directory (fsync_policy (config s)) = false →
  let h := blake3 data in
  files s !! object_path h = None → files s !! object_temp_path h = None →
  survives (foldl run_op v (write_ops (fsync_policy (config s)) (object_temp_path h) (object_path h) data))
    (files s).
Proof.
  intros Hrest Hdir h HO HT. pose proof (blake3_wf data) as Hw. fold h in Hw.
  destruct (object_temp_distinct h Hw) as [Hne Hpar].
  pose proof (rest_files _ _ Hrest (object_path h)) as Ho. rewrite HO in Ho.
  destruct (names v !! object_path h) as [j|] eqn:Hj; [by destruct Ho as (c & _ & ?)|].
  destruct (run_create v _ (object_temp_path h) Hrest) as (i & u & Hc & Hu & Hfree).
  unfold write_ops. rewrite Hdir. cbn [app foldl]. rewrite Hc, foldl_app.
  set (x := (data, should_fsync_file (fsync_policy (config s)))).
  assert (foldl run_op (run_op (drafted v (object_temp_path h) i u ([], false)) (Append (object_temp_path h) data))
    (if should_fsync_file (fsync_policy (config s)) then [SyncFile (object_temp_path h)] else []) =
    drafted v (object_temp_path h) i u x) as ->.
  { unfold x. destruct (should_fsync_file _); cbn [foldl run_op]; by rewrite ?on_drafted. }
  cbn [app foldl]. rewrite rename_drafted by done. apply (published_survives v (files s)); try done.
  exists None. split; [|by rewrite HO]. right. cbn [undone published]. rewrite Hj. right. left.
Qed.

(** When files are not synchronised, a write that has returned may be lost in
    a crash and its object may stay broken: the name is there, without contents.
    The next store reports it as corrupt, and writing the same data again
    succeeds without writing anything. *)
Theorem unsynced_write_lost checked s v data cfg now packs :
  store_inv s → at_rest v (files s) → should_fsync_file (fsync_policy (config s)) = false →
  zlen data ≤ MAX_OBJECT_SIZE →
  enable_packfiles cfg = false → enable_recovery cfg = true → max_chunks (cache_config cfg) ≠ 0 →
  let h := blake3 data in
  ∃ fs s', survives (foldl run_op v (write_ops (fsync_policy (config s)) (object_temp_path h) (object_path h) data)) fs ∧
    new_with_config checked cfg now fs packs = Ok s' ∧
    (write checked data s').2 = Ok {| ref_hash := h; ref_size := zlen data |} ∧
    files (write checked data s').1 = files s' ∧
    (read checked now h (write checked data s').1).2 =
      Err (Error (CorruptObject "Object file is empty")).
Proof.
  intros Hi Hrest Hsync Hsize Hp Hrec Hmax h.
  set (fs := <[object_path h := []]> (base.delete (object_temp_path h) (files s))).
  exists fs. eexists. split; [|split; [by apply reopen_eq|]].
  - pose proof (blake3_wf data) as Hw. fold h in Hw. destruct (object_temp_distinct h Hw) as [Hne Hpar].
    destruct (write_complete (fsync_policy (config s)) v _ _ _ data Hrest Hne Hpar) as (i & u & -> & _ & _ & Hfree).
    rewrite Hsync. apply (published_survives v (files s)); try done.
    + unfold fs. by rewrite lookup_insert_ne, lookup_delete_eq.
    + intros p ? ?. unfold fs. by rewrite lookup_insert_ne, lookup_delete_ne.
    + exists (Some i). split; [left; cbn; by rewrite lookup_insert_eq|]. cbn. rewrite lookup_insert_eq.
      unfold fs. rewrite lookup_insert_eq. by exists [].
  - set (s' := fresh_store _ _ _ _).
    assert (files s' !! object_path h = Some []) as Hobj.
    { cbn [s' files fresh_store]. apply settle_all_object; [apply Forall_temp_files|apply blake3_wf|].
      apply lookup_insert_eq. }
    assert (write checked data s' = (add_dedup {| ref_hash := h; ref_size := zlen data |} s',
      Ok {| ref_hash := h; ref_size := zlen data |})) as ->.
    { unfold write, validate_object_size. rewrite (proj2 (Z.leb_le _ _)) by done. cbn [negb]. fold h. cbn zeta.
      unfold mbind, st_bind, get_st, exists_, path_exists, modify_st, mret, st_ret.
      assert (dedup_index s' !! h = None) as -> by apply lookup_empty.
      unfold mbind, st_bind, get_st. by rewrite Hobj. }
    cbn [fst snd]. split_and!; [done|done|].
    rewrite read_miss; [|apply blake3_wf|done|cbn; by rewrite lru_new_entries].
    unfold mbind at 1, st_bind at 1. by erewrite read_individual_eq by exact Hobj.
Qed.
End recovery.
