(* ===== verification/StorageTransfers.v ===== *)
(** Resumable writes, and deletion, of the content store: what they do to the
    files, step by step. *)

From S2P Require Import Prelude Bytes CasInterface Packfile Storage StorageInv StorageCrash.
From Stdlib Require Import Init.Byte Strings.Byte Strings.Ascii ZArith Lia.
From stdpp Require Import base option list gmap sets strings numbers sorting.
Open Scope Z_scope.

Section transfers.
Context `{Lru, Codecs, Hex, Blake3, MapIter} (checked : bool).
#[local] Hint Resolve blake3_wf : core.

(** ** Copying from a reader *)

(** A reader gives data until it gives nothing. *)
Definition chunked (cs : list (list byte)) : Prop := Forall (λ c, c ≠ []) cs.

Definition put_file (p : path) (c : list byte) (s : Store) : Store := set_files (<[p := c]> (files s)) s.

Lemma put_file_lookup p c s : files (put_file p c s) !! p = Some c.
Proof. apply lookup_insert_eq. Qed.
Lemma put_file_twice p c d s : put_file p c (put_file p d s) = put_file p c s.
Proof. unfold put_file. cbn [files set_files]. rewrite insert_insert_eq. by destruct s. Qed.
Lemma put_file_same p c s : files s !! p = Some c → put_file p c s = s.
Proof. intros Hc. unfold put_file. rewrite insert_id by done. apply set_files_same. Qed.

(** What the buffer of a writer passes on, and what stays in it. *)
Fixpoint spill (cs : list (list byte)) (buf : list byte) : list byte * list byte :=
  match cs with
  | [] => ([], buf)
  | c :: cs => let '(out, buf) := buf_push c buf in let '(outs, buf) := spill cs buf in (out ++ outs, buf)
  end.
Lemma spill_all cs buf : (spill cs buf).1 ++ (spill cs buf).2 = buf ++ concat cs.
Proof.
  revert buf. induction cs as [|c cs IH]; intros buf; cbn [spill concat]; [by rewrite app_nil_r|].
  pose proof (buf_push_all c buf) as Hp. destruct (buf_push c buf) as [out b]. specialize (IH b).
  destruct (spill cs b) as [outs b']. cbn [fst snd] in *. by rewrite <-app_assoc, IH, !app_assoc, Hp.
Qed.
Lemma copy_reader_run cs rest p c total fed buf s : chunked cs → files s !! p = Some c →
  0 ≤ total → total + zlen (concat cs) < 2 ^ 64 →
  copy_reader checked (map Ok cs ++ rest) p total fed buf s =
    copy_reader checked rest p (total + zlen (concat cs)) (fed ++ concat cs) (spill cs buf).2
      (put_file p (c ++ (spill cs buf).1) s).
Proof.
  intros Hcs. revert c total fed buf s. induction Hcs as [|d cs Hd Hcs IH]; intros c total fed buf s Hc H0t Hlt.
  { cbn [map app concat spill fst snd]. rewrite zlen_nil, Z.add_0_r, !app_nil_r. by rewrite put_file_same. }
  cbn [map app concat copy_reader spill] in *. rewrite bool_decide_false by done. rewrite zlen_app in *.
  pose proof (zlen_nonneg d). pose proof (zlen_nonneg (concat cs)). destruct (buf_push d buf) as [out b].
  unfold mbind at 1, st_bind at 1, fs_append at 1. rewrite Hc. fold (put_file p (c ++ out) s).
  unfold mbind at 1, st_bind at 1, lift at 1. rewrite arith_exact by lia.
  rewrite (IH (c ++ out)) by (apply put_file_lookup || lia). destruct (spill cs b) as [outs b']. cbn [fst snd].
  rewrite put_file_twice. by rewrite Z.add_assoc, !app_assoc.
Qed.
Lemma copy_reader_ok cs p c s : chunked cs → files s !! p = Some c → zlen (concat cs) < 2 ^ 64 →
  copy_reader checked (map Ok cs) p 0 [] [] s =
    (put_file p (c ++ concat cs) s, Ok (zlen (concat cs), concat cs)).
Proof.
  intros Hcs Hc Hlt. rewrite <-(app_nil_r (map Ok cs)).
  rewrite (copy_reader_run cs [] p c) by (done || lia). cbn [copy_reader]. unfold mbind, st_bind, fs_append.
  rewrite put_file_lookup. cbn zeta. fold (put_file p ((c ++ (spill cs []).1) ++ (spill cs []).2) (put_file p (c ++ (spill cs []).1) s)).
  by rewrite put_file_twice, <-app_assoc, spill_all.
Qed.
Lemma copy_reader_failing cs e rest p c s : chunked cs → files s !! p = Some c → zlen (concat cs) < 2 ^ 64 →
  copy_reader checked (map Ok cs ++ Err e :: rest) p 0 [] [] s =
    (put_file p (c ++ (spill cs []).1) s, Err (Error e)).
Proof. intros Hcs Hc Hlt. rewrite (copy_reader_run cs _ p c) by (done || lia). done. Qed.

(** ** Continuing *)

(** What the temporary file has when a continuation starts to append. *)
Definition received (p : PartialTransfer) (c : list byte) (s : Store) : Prop :=
  if bytes_received p =? 0 then c = [] else files s !! temp_path p = Some c.

Definition advanced (p : PartialTransfer) (n : Z) : PartialTransfer :=
  {| temp_path := temp_path p; expected_hash := expected_hash p; expected_size := expected_size p;
     bytes_received := bytes_received p + n; hash_state := Some "state_placeholder"%string;
     expires_at := expires_at p |}.

Lemma continue_start now p reader c s : now ≤ expires_at p → received p c s →
  continue_resumable_write checked now p reader s =
    ('(bytes_written, _) ← copy_reader checked reader (temp_path p) 0 [] [];
     received ← lift (arith checked 64 (bytes_received p + bytes_written));
     mret {| temp_path := temp_path p; expected_hash := expected_hash p;
             expected_size := expected_size p; bytes_received := received;
             hash_state := Some "state_placeholder"%string; expires_at := expires_at p |})
      (put_file (temp_path p) c s).
Proof.
  unfold received. intros Hnow Hc. unfold continue_resumable_write, is_expired.
  rewrite (proj2 (Z.ltb_ge _ _)) by done.
  destruct (bytes_received p =? 0); unfold mbind at 1, st_bind at 1.
  - by subst.
  - unfold mbind at 1, st_bind at 1, fs_read at 1. rewrite Hc. by rewrite put_file_same.
Qed.
Lemma continue_ok now p cs c s : now ≤ expires_at p → received p c s → chunked cs →
  0 ≤ bytes_received p → bytes_received p + zlen (concat cs) < 2 ^ 64 →
  continue_resumable_write checked now p (map Ok cs) s =
    (put_file (temp_path p) (c ++ concat cs) s, Ok (advanced p (zlen (concat cs)))).
Proof.
  intros Hnow Hc Hcs Hr Hlt. rewrite (continue_start now p _ c) by done. pose proof (zlen_nonneg (concat cs)).
  unfold mbind at 1, st_bind at 1. rewrite (copy_reader_ok cs _ c) by (apply put_file_lookup || done || lia).
  rewrite put_file_twice. unfold mbind, st_bind, lift. by rewrite arith_exact by lia.
Qed.

(** A client that sends the parts of an object one after the other. *)
Fixpoint continue_all (now : Z) (p : PartialTransfer) (parts : list (list (list byte))) :
    st Store Failure PartialTransfer :=
  match parts with
  | [] => mret p
  | cs :: parts =>
      p ← continue_resumable_write checked now p (map Ok cs);
      continue_all now p parts
  end.

Definition same_transfer (p q : PartialTransfer) : Prop :=
  temp_path q = temp_path p ∧ expected_hash q = expected_hash p ∧ expected_size q = expected_size p ∧
  expires_at q = expires_at p.

Lemma continue_all_ok now p parts c s : now ≤ expires_at p → received p c s → bytes_received p = zlen c →
  Forall chunked parts → parts ≠ [] ∨ files s !! temp_path p = Some c →
  zlen c + zlen (concat (map (@concat byte) parts)) < 2 ^ 64 →
  ∃ p', continue_all now p parts s =
      (put_file (temp_path p) (c ++ concat (map (@concat byte) parts)) s, Ok p') ∧
    same_transfer p p' ∧ bytes_received p' = zlen (c ++ concat (map (@concat byte) parts)).
Proof.
  intros Hnow Hc Hn Hparts. revert p c s Hnow Hc Hn.
  induction Hparts as [|cs parts Hcs Hparts IH]; intros p c s Hnow Hc Hn Hsome Hlt; cbn [map concat] in *.
  - destruct Hsome as [|Hf]; [done|]. exists p. cbn [continue_all]. rewrite app_nil_r.
    by rewrite put_file_same.
  - rewrite zlen_app in Hlt. pose proof (zlen_nonneg c). pose proof (zlen_nonneg (concat (map (@concat byte) parts))).
    cbn [continue_all]. unfold mbind at 1, st_bind at 1.
    rewrite (continue_ok now p cs c) by (done || lia).
    destruct (IH (advanced p (zlen (concat cs))) (c ++ concat cs) (put_file (temp_path p) (c ++ concat cs) s))
      as (p' & Hall & Hsame & Hn').
    + done.
    + unfold received. cbn [advanced bytes_received temp_path]. rewrite Hn, <-zlen_app.
      destruct (Z.eqb_spec (zlen (c ++ concat cs)) 0) as [Hz|_]; [by apply zlen_zero|apply put_file_lookup].
    + cbn [advanced bytes_received]. by rewrite zlen_app, Hn.
    + right. apply put_file_lookup.
    + rewrite zlen_app. lia.
    + exists p'. rewrite Hall. cbn [advanced temp_path]. rewrite put_file_twice, <-!app_assoc in *. done.
Qed.

(** ** Completing *)

Lemma publish_eq p c h n s : scratch p → ContentHash.wf h → files s !! p = Some c →
  ∃ s', publish p h n s = (s', Ok {| ref_hash := h; ref_size := n |}) ∧
    files s' = (if path_exists (object_path h) s then base.delete p (files s)
                else <[object_path h := c]> (base.delete p (files s))).
Proof.
  intros Hp Hw Hc. unfold publish, place. unfold mbind at 1, st_bind at 1, get_st at 1. cbn zeta.
  destruct (path_exists (object_path h) s);
    unfold mbind at 1, st_bind at 1; [unfold fs_remove|unfold fs_rename]; rewrite Hc; by eexists.
Qed.

(** What is required of the data that was received. *)
Definition accepted (p : PartialTransfer) (data : list byte) : outcome CasError ObjectRef :=
  _ ← match expected_hash p with
      | Some h => fail_if (negb (bool_decide (blake3 data = h))) (HashMismatch h (blake3 data))
      | None => Ok tt
      end;
  _ ← match expected_size p with
      | Some n => fail_if (negb (zlen data =? n)) (InvalidOperation "Size mismatch")
      | None => Ok tt
      end;
  Ok {| ref_hash := blake3 data; ref_size := zlen data |}.

Lemma complete_eq now p data s : now ≤ expires_at p → files s !! temp_path p = Some data →
  complete_resumable_write now p s =
    match accepted p data with
    | Ok r => publish (temp_path p) (blake3 data) (zlen data) s
    | Err e => (set_files (base.delete (temp_path p) (files s)) s, Err (Error e))
    | Panic => (s, Panic)
    end.
Proof.
  intros Hnow Hc. unfold complete_resumable_write. unfold mbind at 1, st_bind at 1, get_st at 1.
  unfold is_expired. rewrite (proj2 (Z.ltb_ge _ _)) by done.
  unfold path_exists at 1. rewrite bool_decide_true by eauto. cbn [negb].
  unfold mbind at 1, st_bind at 1, fs_read at 1. rewrite Hc. cbn zeta.
  assert (ignore (fs_remove (temp_path p)) s = (set_files (base.delete (temp_path p) (files s)) s, Ok tt)) as Hrm
    by (unfold ignore, fs_remove; by rewrite Hc).
  unfold accepted. destruct (expected_hash p) as [h|]; cbn [fail_if];
    [case_bool_decide; cbn [negb fail_if mbind outcome_bind]|cbn [mbind outcome_bind]].
  all: try (destruct (expected_size p) as [n|]; [destruct (zlen data =? n); cbn [negb fail_if mbind outcome_bind]|]).
  all: try done.
  all: by unfold mbind, st_bind; rewrite Hrm.
Qed.

Lemma inv_put_file p c s : scratch p → store_inv s → store_inv (put_file p c s) ∧ extends s (put_file p c s).
Proof.
  intros Hp Hi. apply inv_scratch; [done|]. intros h Hw. apply lookup_insert_ne. by apply Hp.
Qed.

(** C27: A resumable write, however its data is cut into continuations and these
    into reads, gives the object that the whole data has, and its reference; it
    fails exactly when the hash or the size that was announced differs, with that
    error. Either way its temporary file is gone and no object is lost. *)
Theorem resumable_roundtrip id now0 now expected size parts s :
  store_inv s → now ≤ now0 + 24 * 3600 → parts ≠ [] → Forall chunked parts →
  let data := concat (map (@concat byte) parts) in
  zlen data < 2 ^ 64 →
  ∃ p s1 p1 s2,
    start_resumable_write id now0 expected size s = (s, Ok p) ∧
    continue_all now p parts s = (s1, Ok p1) ∧ bytes_received p1 = zlen data ∧
    complete_resumable_write now p1 s1 = (s2, map_err Error (accepted p data)) ∧
    files s2 !! temp_path p = None ∧ (∀ h, holds s h → holds s2 h) ∧
    ((expected = None ∨ expected = Some (blake3 data)) → (size = None ∨ size = Some (zlen data)) →
       accepted p data = Ok {| ref_hash := blake3 data; ref_size := zlen data |} ∧
       holds s2 (blake3 data)).
Proof.
  intros Hi Hnow Hne Hparts data Hlt.
  set (p := {| temp_path := [".tmp"%string; (id +:+ ".partial")]; expected_hash := expected; expected_size := size;
               bytes_received := 0; hash_state := None; expires_at := now0 + 24 * 3600 |}).
  assert (scratch (temp_path p)) as Hp by apply scratch_stream.
  destruct (continue_all_ok now p parts [] s) as (p1 & Hall & (Ep & Eh & Es & Ex) & Hn); try done; [by left|].
  fold data in Hall, Hn. cbn [app] in Hall, Hn.
  set (s1 := put_file (temp_path p) data s). assert (files s1 !! temp_path p = Some data) as Hs1 by apply put_file_lookup.
  destruct (inv_put_file (temp_path p) data s Hp Hi) as [Hi1 [Hle1 _]]. fold s1 in Hall, Hi1, Hle1.
  assert (complete_resumable_write now p1 s1 = match accepted p data with
    | Ok r => publish (temp_path p) (blake3 data) (zlen data) s1
    | Err e => (set_files (base.delete (temp_path p) (files s1)) s1, Err (Error e))
    | Panic => (s1, Panic) end) as Hcomp.
  { rewrite (complete_eq now p1 data) by (by rewrite ?Ex, ?Ep). unfold accepted. by rewrite Eh, Es, Ep. }
  destruct (publish_eq (temp_path p) data (blake3 data) (zlen data) s1 Hp (blake3_wf _) Hs1) as (s2 & Hpub & Hf2).
  destruct (safe_publish (temp_path p) data (zlen data) Hp s1 Hi1 Hs1) as (_ & [Hle2 _] & Hq).
  rewrite Hpub in Hle2, Hq, Hcomp. cbn [fst snd] in Hle2, Hq. destruct (Hq _ eq_refl) as [_ Hnew].
  destruct (inv_scratch (base.delete (temp_path p) (files s1)) s1 Hi1) as [_ [Hle3 _]];
    [intros h Hw; apply lookup_delete_ne; by apply Hp|].
  destruct (accepted p data) as [r|e|] eqn:Hacc; [| |exfalso].
  - exists p, s1, p1, s2. assert (r = {| ref_hash := blake3 data; ref_size := zlen data |}) as ->.
    { unfold accepted in Hacc. apply bind_Ok in Hacc as (? & _ & Hacc). by apply bind_Ok in Hacc as (? & _ & [= <-]). }
    split_and!; try done.
    + by rewrite Hcomp, Hacc.
    + rewrite Hf2. destruct (path_exists _ s1); [apply lookup_delete_eq|].
      rewrite lookup_insert_ne; [apply lookup_delete_eq|]. intros E. by apply (Hp (blake3 data)).
    + auto.
  - exists p, s1, p1. eexists. split_and!; [done|done|done|by rewrite Hcomp, Hacc|apply lookup_delete_eq|by auto|].
    intros Hex Hsz. exfalso. revert Hacc. unfold accepted. cbn [p expected_hash expected_size].
    destruct Hex as [->| ->], Hsz as [->| ->];
      rewrite ?bool_decide_true, ?Z.eqb_refl by done; discriminate.
  - unfold accepted in Hacc. apply bind_Panic in Hacc as [Hacc|(? & _ & Hacc)]; [|apply bind_Panic in Hacc as [Hacc|(? & _ & Hacc)]; [|done]].
    + destruct (expected_hash p); [by apply fail_if_no_Panic in Hacc|done].
    + destruct (expected_size p); [by apply fail_if_no_Panic in Hacc|done].
Qed.

(** A continuation that fails half-way, other than the first one, leaves what
    the buffer of its writer has passed on in the temporary file, and the client's
    record of the transfer as it was. Continuing again from that record appends
    after those bytes, so that they are there twice, the count of received bytes
    disagrees with the file, and completion rejects an upload that announced its
    size. *)
Theorem retry_duplicates now p c cs e rest whole s :
  now ≤ expires_at p → files s !! temp_path p = Some c → bytes_received p = zlen c → c ≠ [] →
  chunked cs → (spill cs []).1 ≠ [] → chunked whole →
  zlen c + zlen (concat cs) + zlen (concat whole) < 2 ^ 64 →
  expected_size p = Some (zlen (c ++ concat whole)) →
  ∃ s1 s2 p2 e2,
    continue_resumable_write checked now p (map Ok cs ++ Err e :: rest) s = (s1, Err (Error e)) ∧
    continue_resumable_write checked now p (map Ok whole) s1 = (s2, Ok p2) ∧
    files s2 !! temp_path p = Some (c ++ (spill cs []).1 ++ concat whole) ∧
    bytes_received p2 = zlen (c ++ concat whole) ∧
    complete_resumable_write now p2 s2 =
      (set_files (base.delete (temp_path p) (files s2)) s2, Err (Error e2)).
Proof.
  intros Hnow Hc Hn Hne Hcs Hcs0 Hwh Hlt Hsize. set (out := (spill cs []).1) in *.
  assert (bytes_received p =? 0 = false) as Hz by (rewrite Hn; apply Z.eqb_neq; by rewrite zlen_zero).
  pose proof (zlen_nonneg c). pose proof (zlen_nonneg (concat whole)). pose proof (zlen_nonneg (concat cs)).
  assert (0 < zlen out) as Hpos by (rewrite <-zlen_zero in Hcs0; pose proof (zlen_nonneg out); lia).
  set (s1 := put_file (temp_path p) (c ++ out) s).
  assert (continue_resumable_write checked now p (map Ok cs ++ Err e :: rest) s = (s1, Err (Error e))) as Hfail.
  { rewrite (continue_start now p _ c) by (done || unfold received; by rewrite Hz).
    unfold mbind at 1, st_bind at 1. rewrite (copy_reader_failing cs e rest _ c) by (apply put_file_lookup || done || lia).
    by rewrite put_file_twice. }
  assert (received p (c ++ out) s1) as Hrec by (unfold received; rewrite Hz; apply put_file_lookup).
  pose proof (continue_ok now p whole (c ++ out) s1 Hnow Hrec Hwh ltac:(lia) ltac:(lia)) as Hagain.
  set (s2 := put_file (temp_path p) ((c ++ out) ++ concat whole) s1) in Hagain. assert (files s2 !! temp_path p = Some (c ++ out ++ concat whole)) as Hs2.
  { unfold s2. rewrite app_assoc. apply put_file_lookup. }
  assert (∃ e2, accepted (advanced p (zlen (concat whole))) (c ++ out ++ concat whole) = Err e2) as [e2 He2].
  { unfold accepted. cbn [advanced expected_hash expected_size]. rewrite Hsize.
    rewrite (proj2 (Z.eqb_neq _ _)) by (rewrite !zlen_app; lia).
    destruct (expected_hash p); [case_bool_decide|]; by eexists. }
  exists s1, s2, (advanced p (zlen (concat whole))), e2. split_and!; [done|done|done|cbn; rewrite zlen_app; lia|].
  by rewrite (complete_eq now (advanced p (zlen (concat whole))) _ s2 Hnow Hs2), He2.
Qed.

(** ** Deletion *)

(** There is no file of that name. *)
Definition missing (h : ContentHash.t) (s : Store) : Prop := files s !! object_path h = None.

(** An object that is written a second time (which puts it in the index of
    known objects) and then deleted cannot be written any more: the write
    succeeds, counts as a duplicate, and leaves the object missing. *)
Theorem deleted_object_not_rewritten data r s :
  let h := blake3 data in
  dedup_index s !! h = Some r → zlen data ≤ MAX_OBJECT_SIZE → is_Some (files s !! object_path h) →
  ∃ s1 s2, Storage.delete h s = (s1, Ok tt) ∧ write checked data s1 = (s2, Ok r) ∧
    files s2 = files s1 ∧ missing h s1 ∧
    (read_individual h s2).2 = Err (Error (ObjectNotFound h)).
Proof.
  intros h Hd Hsize [c Hc]. set (s1 := set_files (base.delete (object_path h) (files s)) s).
  assert (Storage.delete h s = (s1, Ok tt)) as ->.
  { unfold Storage.delete, mbind, st_bind, get_st, path_exists, fs_remove. by rewrite bool_decide_true, Hc by eauto. }
  assert (write checked data s1 = (set_stats (count_batch 0 1 (stats s1)) s1, Ok r)) as Hw.
  { unfold write, validate_object_size. rewrite (proj2 (Z.leb_le _ _)) by done. cbn [negb]. fold h. cbn zeta.
    unfold mbind at 1, st_bind at 1, get_st at 1. change (dedup_index s1) with (dedup_index s). by rewrite Hd. }
  exists s1. eexists. assert (missing h s1) as Hgone by apply lookup_delete_eq.
  split_and!; [done..|]. unfold read_individual, mbind, st_bind, get_st, path_exists.
  cbn [files set_stats]. unfold missing in Hgone. by rewrite Hgone.
Qed.
End transfers.
