(* ===== verification/StorageSpec.v ===== *)
(** The content store refines a write-once map from names to data.

    The abstract store has no files, cache or index. Each call of [write], [read]
    and [exists_] on the store of Storage.v is a step of the abstract one with the
    same reply, and so is each sequence of calls. *)

From S2P Require Import Prelude Bytes CasInterface Packfile Storage StorageInv StorageCrash StorageTransfers.
From Stdlib Require Import Init.Byte Strings.Byte Strings.Ascii ZArith Lia.
From stdpp Require Import base option list gmap sets strings numbers sorting.
Open Scope Z_scope.

(** ** The abstract store *)

Abbreviation Objects := (gmap ContentHash.t (list byte)).

Inductive call :=
  | Put (data : list byte)
  | Get (now : Z) (h : ContentHash.t)
  | Has (h : ContentHash.t).
Inductive reply :=
  | Stored (h : ContentHash.t)
  | Data (d : list byte)
  | Found (b : bool)
  | Failed (e : CasError)
  | Loops
  | Panics.

Section spec.
Context `{Hex, Blake3}.

(** Data that is there is never replaced. *)
Definition add_object (h : ContentHash.t) (data : list byte) (X : Objects) : Objects :=
  match X !! h with Some _ => X | None => <[h := data]> X end.

Inductive spec_step (X : Objects) : call → reply → Objects → Prop :=
  | put_too_large data : MAX_OBJECT_SIZE < zlen data →
      spec_step X (Put data) (Failed (InvalidOperation "Object validation failed")) X
  | put_stored data : zlen data ≤ MAX_OBJECT_SIZE →
      spec_step X (Put data) (Stored (blake3 data)) (add_object (blake3 data) data X)
  | put_panics data : zlen data ≤ MAX_OBJECT_SIZE →
      spec_step X (Put data) Panics (add_object (blake3 data) data X)
  | get_invalid now h : length h ≠ 32%nat →
      spec_step X (Get now h) (Failed (InvalidOperation "Hash validation failed")) X
  | get_missing now h : length h = 32%nat → X !! h = None →
      spec_step X (Get now h) (Failed (ObjectNotFound h)) X
  | get_empty now h : X !! h = Some [] →
      spec_step X (Get now h) (Failed (CorruptObject "Object file is empty")) X
  | get_data now h d : X !! h = Some d → d ≠ [] → spec_step X (Get now h) (Data d) X
  | get_loops now h : is_Some (X !! h) → spec_step X (Get now h) Loops X
  | get_panics now h : is_Some (X !! h) → spec_step X (Get now h) Panics X
  | has h : length h = 32%nat → spec_step X (Has h) (Found (bool_decide (is_Some (X !! h)))) X.

Inductive spec_steps (X : Objects) : list (call * reply) → Objects → Prop :=
  | spec_nil : spec_steps X [] X
  | spec_cons c r X1 l X2 : spec_step X c r X1 → spec_steps X1 l X2 → spec_steps X ((c, r) :: l) X2.
End spec.

(** ** The store *)

Section refinement.
Context `{Lru, Codecs, Hex, Blake3, MapIter} (checked : bool).
#[local] Hint Resolve blake3_wf : core.

Definition reply_of {A} (f : A → reply) (r : outcome Failure A) : reply :=
  match r with
  | Ok a => f a
  | Err (Error e) => Failed e
  | Err Diverges => Loops
  | Panic => Panics
  end.
Definition answer (c : call) (s : Store) : Store * reply :=
  match c with
  | Put data => let '(s, r) := write checked data s in (s, reply_of (λ o, Stored (ref_hash o)) r)
  | Get now h => let '(s, r) := read checked now h s in (s, reply_of Data r)
  | Has h => let '(s, r) := exists_ h s in (s, reply_of Found r)
  end.
Fixpoint answer_all (cs : list call) (s : Store) : Store * list (call * reply) :=
  match cs with
  | [] => (s, [])
  | c :: cs =>
      let '(s, r) := answer c s in
      let '(s, l) := answer_all cs s in
      (s, (c, r) :: l)
  end.

(** Names that are asked for are hashes, where the code does not check it. *)
Definition proper_call (c : call) : Prop :=
  match c with Has h => ContentHash.wf h | _ => True end.

(** The objects of a store; what is cached or known is on disk. *)
Record represents (s : Store) (X : Objects) : Prop := {
  rep_packs : enable_packfiles (config s) = false;
  rep_objects : ∀ h, ContentHash.wf h → files s !! object_path h = X !! h;
  rep_names : ∀ h d, X !! h = Some d → blake3 d = h;
  rep_dedup : ∀ h r, dedup_index s !! h = Some r → ref_hash r = h ∧ is_Some (X !! h);
  rep_cache : Forall (λ e, X !! e.1 = Some (cached_data e.2) ∧ cached_data e.2 ≠ []) (lru_entries (chunks (cache s)));
}.

Lemma rep_wf s X h : represents s X → is_Some (X !! h) → ContentHash.wf h.
Proof. intros Hr [d Hd]. rewrite <-(rep_names _ _ Hr h d Hd). apply blake3_wf. Qed.

(** Only the files, the configuration, the index and the cache matter. *)
Lemma rep_frame s s' X : represents s X → config s' = config s → files s' = files s →
  dedup_index s' = dedup_index s → lru_entries (chunks (cache s')) = lru_entries (chunks (cache s)) →
  represents s' X.
Proof. intros [Hp Ho Hn Hd Hc] E1 E2 E3 E4. by constructor; rewrite ?E1, ?E2, ?E3, ?E4. Qed.
Lemma rep_dedup_add s X r : represents s X → is_Some (X !! ref_hash r) → represents (add_dedup r s) X.
Proof.
  intros [Hp Ho Hn Hd Hc] Hr. constructor; try done. intros h r'. cbn [dedup_index add_dedup].
  destruct (decide (ref_hash r = h)) as [<-|E]; [rewrite lookup_insert_eq; by intros [= <-]|].
  rewrite lookup_insert_ne by done. apply Hd.
Qed.

Lemma rep_exists s X h : represents s X → ContentHash.wf h →
  exists_ h s = (s, Ok (bool_decide (is_Some (X !! h)))).
Proof.
  intros Hr Hw. unfold exists_, mbind, st_bind, get_st, path_exists. rewrite (rep_objects _ _ Hr) by done.
  case_bool_decide; [done|]. unfold packed, lift. by rewrite (rep_packs _ _ Hr).
Qed.

(** Writing an object that is not there. *)
Lemma rep_write s data X n : represents s X → X !! blake3 data = None →
  represents (set_pending_syncs n (set_files (<[object_path (blake3 data) := data]>
    (base.delete (object_temp_path (blake3 data)) (files s))) s)) (<[blake3 data := data]> X).
Proof.
  intros [Hp Ho Hn Hd Hc] Hx. constructor; try done.
  - intros h Hw. cbn [files set_files set_pending_syncs]. destruct (decide (blake3 data = h)) as [<-|E].
    + by rewrite !lookup_insert_eq.
    + rewrite !lookup_insert_ne by (done || by intros Ep; apply E, object_path_inj).
      rewrite lookup_delete_ne by (by apply object_temp_not_object). by apply Ho.
  - intros h d. rewrite lookup_insert_Some. intros [[<- <-]|[_ ?]]; [done|by apply Hn].
  - intros h r Hr. destruct (Hd h r Hr) as [? [d ?]]. split; [done|]. exists d.
    rewrite lookup_insert_ne; [done|]. intros <-. congruence.
  - eapply Forall_impl; [exact Hc|]. intros [h x] [? ?]. split; [|done].
    rewrite lookup_insert_ne; [done|]. cbn [fst] in *. congruence.
Qed.

Lemma put_refines data s X : represents s X → ∃ s' r X', write checked data s = (s', r) ∧
  spec_step X (Put data) (reply_of (λ o, Stored (ref_hash o)) r) X' ∧ represents s' X'.
Proof.
  intros Hr. unfold write, validate_object_size.
  destruct (Z.leb_spec (zlen data) MAX_OBJECT_SIZE) as [Hle|Hgt]; cbn [negb];
    [|eexists s, _, X; split_and!; [done|by constructor|done]].
  assert (is_Some (X !! blake3 data) → spec_step X (Put data) (Stored (blake3 data)) X) as Hdup.
  { intros [d Hx]. pose proof (put_stored X data Hle) as Hs. unfold add_object in Hs. by rewrite Hx in Hs. }
  cbn zeta. unfold mbind at 1, st_bind at 1, get_st at 1.
  destruct (dedup_index s !! blake3 data) as [r|] eqn:Hd.
  { destruct (rep_dedup _ _ Hr _ _ Hd) as [Href Hx]. eexists _, (Ok r), X. split; [done|].
    cbn [reply_of]. rewrite Href. split; [by apply Hdup|by apply (rep_frame s)]. }
  unfold mbind at 1, st_bind at 1. rewrite (rep_exists _ X) by done. case_bool_decide as Hx.
  { eexists _, (Ok _), X. split; [done|]. split; [by apply Hdup|by apply rep_dedup_add]. }
  rewrite (rep_packs _ _ Hr). unfold write_individual, mbind, st_bind.
  apply eq_None_not_Some in Hx. pose proof (put_stored X data Hle) as Hs. pose proof (put_panics X data Hle) as Hp.
  unfold add_object in Hs, Hp. rewrite Hx in Hs, Hp.
  destruct (write_atomic_eq checked (blake3 data) data s) as (n & r & -> & [-> | ->]); [done|..].
  - eexists _, (Ok _), _. split; [done|]. split; [exact Hs|by apply rep_write].
  - eexists _, Panic, _. split; [done|]. split; [exact Hp|by apply rep_write].
Qed.

(** The cache. *)
Lemma rep_set_cache s c X : represents s X →
  Forall (λ e, X !! e.1 = Some (cached_data e.2) ∧ cached_data e.2 ≠ []) (lru_entries (chunks c)) →
  represents (set_cache c s) X.
Proof. intros [Hp Ho Hn Hd _] Hc. by constructor. Qed.

Lemma evict_error fuel size max c e : evict checked fuel size max c = Err e → e = Diverges.
Proof.
  revert c. induction fuel as [|fuel IH]; intros c; cbn [evict]; intros [Ha|(sum & _ & He)]%bind_Err;
    try by apply arith_no_Err in Ha.
  all: case_if; [done|]; destruct (lru_pop (chunks c)) as [[[h x] rest]|]; try by injection He as <-.
  apply bind_Err in He as [Ha|(total & _ & He)]; [by apply arith_no_Err in Ha|by apply IH in He].
Qed.

Lemma rep_update_cache now h d s X : represents s X → X !! h = Some d → d ≠ [] →
  ∃ s' r, update_cache checked now h d s = (s', r) ∧ represents s' X ∧ (r = Ok tt ∨ r = Err Diverges ∨ r = Panic).
Proof.
  intros Hr Hx Hne. unfold update_cache, mbind, st_bind, get_st, lift, modify_st. cbn zeta.
  destruct (evict _ _ _ _ _) as [c|e|] eqn:He.
  - destruct (arith checked 64 _) as [total|e|] eqn:Ha; [|by apply arith_no_Err in Ha|by eexists _, _; eauto].
    eexists _, _. split; [done|]. split; [|by auto]. apply rep_set_cache; [done|]. cbn [chunks].
    apply evict_entries in He as [gone He]. pose proof (rep_cache _ _ Hr) as Hc. rewrite He in Hc.
    apply Forall_app in Hc as [Hc _]. rewrite lru_put_entries. by apply lru_push_Forall.
  - apply evict_error in He as ->. by eexists _, _; eauto.
  - by eexists _, _; eauto.
Qed.

Lemma get_refines now h s X : represents s X → ∃ s' r, read checked now h s = (s', r) ∧
  spec_step X (Get now h) (reply_of Data r) X ∧ represents s' X.
Proof.
  intros Hr. destruct (decide (ContentHash.wf h)) as [Hw|Hw].
  2: { eexists s, (Err (Error _)). split_and!; [|by apply get_invalid|done]. unfold read.
    destruct (validate_content_hash _) eqn:Hv; [|done]. by apply validate_content_hash_wf in Hv. }
  destruct (lru_find h (lru_entries (chunks (cache s)))) as [x|] eqn:Hfind.
  - pose proof (rep_cache _ _ Hr) as Hc. rewrite Forall_forall in Hc.
    destruct (Hc _ (lru_find_Some _ _ _ Hfind)) as [Hx Hne]. cbn [fst snd] in Hx, Hne.
    unfold read. rewrite (proj2 (validate_content_hash_wf h)) by done. cbn [negb].
    unfold mbind at 1, st_bind at 1, get_st at 1.
    destruct (lru_get_mut h (chunks (cache s))) as [[y f]|] eqn:Hg;
      [|apply lru_get_None in Hg; congruence].
    destruct (lru_get_Some _ _ _ _ _ Hg) as [Hy Hf]. rewrite Hfind in Hy. injection Hy as <-.
    unfold mbind at 1, st_bind at 1, lift. destruct (arith checked 32 _) as [n|e|] eqn:Ha;
      [|by apply arith_no_Err in Ha|eexists s, _; split_and!; [done|apply get_panics; by eauto|done]].
    eexists _, (Ok (cached_data x)). split_and!; [done|by apply get_data|].
    eapply (rep_frame (set_cache _ s)); [|done..]. apply rep_set_cache; [done|]. cbn [hit chunks].
    rewrite (proj1 (Hf _)). constructor; [done|]. apply lru_remove_Forall, (rep_cache _ _ Hr).
  - rewrite read_miss by (done || apply (rep_packs _ _ Hr)). set (s1 := set_stats _ _).
    assert (represents s1 X) as Hr1 by (by apply (rep_frame s)).
    pose proof (rep_objects _ _ Hr1 h Hw) as Ho. destruct (X !! h) as [d|] eqn:Hx.
    + unfold mbind at 1, st_bind at 1. rewrite (read_individual_eq h s1 d Ho).
      case_decide as Hd; [subst; eexists s1, _; split_and!; [done|by apply get_empty|done]|].
      rewrite decide_True by (by eapply rep_names).
      destruct (rep_update_cache now h d s1 X Hr1 Hx Hd) as (s2 & r & Hu & Hr2 & Hcase).
      unfold mbind at 1, st_bind at 1. rewrite Hu. destruct Hcase as [->|[->| ->]].
      * eexists _, (Ok d). split_and!; [done|by apply get_data|by apply (rep_frame s2)].
      * eexists s2, _. split_and!; [done|apply get_loops; by eauto|done].
      * eexists s2, _. split_and!; [done|apply get_panics; by eauto|done].
    + unfold mbind at 1, st_bind at 1. unfold read_individual, mbind, st_bind, get_st, path_exists.
      rewrite Ho. eexists s1, _. split_and!; [done|by apply get_missing|done].
Qed.

Lemma has_refines h s X : ContentHash.wf h → represents s X →
  spec_step X (Has h) (answer (Has h) s).2 X ∧ represents (answer (Has h) s).1 X.
Proof.
  intros Hw Hr. cbn [answer]. rewrite (rep_exists _ X) by done. split; [|done]. by constructor.
Qed.

(** C2: The content store refines a map from names to data in which nothing is
    ever replaced. Whatever sequence of writes, reads and existence checks a
    store (without packfiles) answers, the map makes the same replies along a
    sequence of its own steps, and represents the files at the end; in
    particular a read gives the very data that is stored, and caching,
    deduplication and temporary files are never seen. Reads may loop or panic,
    as the map's may. *)
Theorem store_refines_map cs s X : represents s X → Forall proper_call cs →
  ∃ X', spec_steps X (answer_all cs s).2 X' ∧ represents (answer_all cs s).1 X'.
Proof.
  intros Hr Hcs. revert s X Hr. induction Hcs as [|c cs Hc Hcs IH]; intros s X Hr.
  { exists X. split; [constructor|done]. }
  assert (∃ X', spec_step X c (answer c s).2 X' ∧ represents (answer c s).1 X') as (X1 & Hstep & Hr1).
  { destruct c as [data|now h|h]; cbn [answer].
    - destruct (put_refines data s X Hr) as (s' & r & X' & -> & ? & ?). by exists X'.
    - destruct (get_refines now h s X Hr) as (s' & r & -> & ? & ?). by exists X.
    - exists X. by apply has_refines. }
  cbn [answer_all]. destruct (answer c s) as [s1 r]. cbn [fst snd] in *.
  destruct (IH s1 X1 Hr1) as (X2 & Hsteps & Hr2). destruct (answer_all cs s1) as [s2 l]. cbn [fst snd] in *.
  exists X2. split; [by econstructor|done].
Qed.

(** A store on an empty directory represents the empty map. *)
Lemma represents_empty cfg now c : enable_packfiles cfg = false → lru_entries (chunks c) = [] →
  represents (fresh_store cfg now ∅ c) ∅.
Proof. intros Hp Hc. constructor; try done. cbn [cache fresh_store]. rewrite Hc. constructor. Qed.
End refinement.
