(* ===== verification/StorageExamples.v ===== *)
(** The theorems about the content store at concrete inputs, and behaviours of
    the store that concrete runs show. *)

From S2P Require Import Prelude Bytes CasInterface Packfile Storage StorageInv StorageTasks StorageCrash StorageTransfers.
From S2P Require Import StorageSpec.
From Stdlib Require Import Init.Byte Strings.Byte Strings.Ascii ZArith Lia.
From stdpp Require Import base option list gmap sets strings numbers sorting.
Open Scope Z_scope.

(** ** Instances to compute with *)

(** A cache as a list. *)
Module ListLru.
Definition list_lru (A : Type) : Type := Z * list (ContentHash.t * A).
Definition get_mut {A} (h : ContentHash.t) (c : list_lru A) : option (A * (A → list_lru A)) :=
  (λ x, (x, λ y, (c.1, (h, y) :: lru_remove h c.2))) <$> lru_find h c.2.
Definition pop {A} (c : list_lru A) : option (ContentHash.t * A * list_lru A) :=
  match reverse c.2 with [] => None | e :: l => Some (e, (c.1, reverse l)) end.

#[export] Instance lru : Lru.
Proof.
  refine {| Storage.lru := list_lru; lru_new A n := (n, []); lru_cap A c := c.1; lru_entries A c := c.2;
    lru_get_mut A := get_mut; lru_put A h x c := (c.1, lru_push c.1 h x c.2); lru_pop A := pop;
    lru_clear A c := (c.1, []) |}; try done.
  - intros A h c. unfold get_mut. by destruct (lru_find h c.2).
  - intros A h c x f. unfold get_mut. destruct (lru_find h c.2) as [y|]; [|done]. by intros [= <- <-].
  - intros A [cap l]. unfold pop. cbn [fst snd]. destruct (reverse l) as [|e k] eqn:E.
    + split; [intros _|done]. by rewrite <-(reverse_involutive l), E.
    + split; [done|]. intros ->. done.
  - intros A [cap l] c' h x. unfold pop. cbn [fst snd]. destruct (reverse l) as [|e k] eqn:E; [done|].
    intros [= -> <-]. cbn [fst snd]. split; [|done].
    by rewrite <-(reverse_involutive l), E, reverse_cons.
Defined.
End ListLru.

(** A compression that puts a byte in front. *)
Module TagCodecs.
Definition tag (d : list byte) : list byte := x1f :: d.
Definition untag (c : list byte) : option (list byte) :=
  match c with x1f :: d => Some d | _ => None end.
#[export] Instance codecs : Codecs.
Proof.
  refine {| lz4_compress := tag; zstd_encode _ d := Some (tag d); snap_compress d := Some (tag d);
            lz4_decompress := untag; zstd_decode := untag; snap_decompress := untag |}; try done.
  - by intros l d c [= <-].
  - by intros d c [= <-].
Defined.
End TagCodecs.

Module Examples.
#[local] Existing Instance RefHash.hex.
#[local] Existing Instance RefHash.hash.
#[local] Existing Instance gmap_order.
#[local] Existing Instance ListLru.lru.
#[local] Existing Instance TagCodecs.codecs.

Definition bytes (s : string) : list byte := String.list_byte_of_string s.
Definition cfg : ContentStoreConfig := ContentStoreConfig_default.
Definition empty : Store := fresh_store cfg 0 ∅ (empty_cache 10000).
Definition one : Store := (write true (bytes "one") empty).1.

Lemma empty_inv : store_inv empty.
Proof. by apply fresh_store_inv. Qed.
Lemma one_inv : store_inv one.
Proof. apply (safe_write true (bytes "one")); [apply empty_inv|done]. Qed.
Lemma one_holds : holds one (blake3 (bytes "one")).
Proof. exists (bytes "one"). split; by vm_compute. Qed.
Lemma empty_names : names_ok ∅.
Proof. intros h c _. by rewrite lookup_empty. Qed.

(** A chunk is given twice, and the tasks of the flush that write it take turns. *)
Definition requests : list request :=
  [Write (bytes "one"); Read 5 (blake3 (bytes "one")); WriteBatch 6 [] [(bytes "two", None); (bytes "two", None); (bytes "four", None)];
   WriteStream "x" [Ok (bytes "th"); Ok (bytes "ree")] None; FlushBatch 7 [0; 1; 2; 0; 1]%nat; Recover; VerifyIntegrity 8].
Lemma opened : new_with_config true cfg 0 ∅ ∅ = Ok empty.
Proof. exact (reopen_eq true cfg 0 ∅ ∅ eq_refl eq_refl ltac:(done)). Qed.
Definition collide (ds : list (list byte)) : bool :=
  existsb (λ d, existsb (λ d', bool_decide (blake3 d = blake3 d') && negb (bool_decide (d = d'))) ds) ds.
Lemma not_colliding ds : collide ds = false → collision_free ds.
Proof.
  intros Hc d d' Hd Hd' E. destruct (decide (d = d')) as [|Hne]; [done|]. assert (collide ds = true); [|congruence].
  apply existsb_exists. exists d. split; [by apply list_elem_of_In|]. apply existsb_exists. exists d'. split; [by apply list_elem_of_In|].
  by rewrite bool_decide_true, bool_decide_false.
Qed.
Lemma requests_allowed : all_allowed true requests empty.
Proof.
  repeat split; try (by repeat constructor); apply not_colliding; by vm_compute.
Qed.

Lemma store_keeps_objects_witness :
  blake3 (from_ok [] (read true 9 (blake3 (bytes "three")) (serve_all true requests empty)).2) =
    blake3 (bytes "three").
Proof.
  destruct (store_keeps_objects true cfg 0 ∅ ∅ empty requests eq_refl eq_refl empty_names opened requests_allowed)
    as (_ & _ & Hread & _).
  apply (Hread 9). by vm_compute.
Defined.

(** A chunk that is given twice before a flush: both tasks write the same
    temporary file, one cannot rename it any more, and the flush fails, though the
    object is there. Meanwhile the object was empty. *)
Definition twice_given : Store := (write_batch true 6 [] [(bytes "two", None); (bytes "two", None)] empty).1.
Definition both : list nat := [0; 1; 0; 1; 0; 1; 0; 1]%nat.
Example same_chunk_twice : let h := blake3 (bytes "two") in
  (flush_batch true 7 both twice_given).2 = Err (Error (AtomicWriteFailed "Failed to rename temp file")) ∧
  files (flush_batch true 7 both twice_given).1 !! object_path h = Some (bytes "two").
Proof. split; by vm_compute. Qed.
Definition two_tasks : list Writer :=
  replicate 2 {| wr_hash := blake3 (bytes "two"); wr_data := bytes "two"; wr_file := None; wr_phase := Checking |}.
(** The first task writes, the second one truncates, the first one renames. *)
Example empty_object_meanwhile :
  files (foldl (turn writing (write_individual_optimized true 7) 32) (twice_given, two_tasks) [0; 0; 0; 1; 1; 0; 0]%nat).1
    !! object_path (blake3 (bytes "two")) = Some [].
Proof. by vm_compute. Qed.

(** Reading: an object that fits in the cache, and one that does not. *)
Lemma read_returns_iff_witness :
  let h := blake3 (bytes "one") in (read true 9 h one).2 = Ok (bytes "one").
Proof.
  pose proof (read_returns_iff true 9 (blake3 (bytes "one")) one (bytes "one") one_inv
    ltac:(by vm_compute) eq_refl ltac:(by vm_compute) ltac:(by vm_compute) ltac:(by vm_compute)) as E.
  rewrite decide_False in E by done. rewrite decide_True in E by (by vm_compute). exact E.
Defined.

(** ** Crashes *)

(** The disk of a store without files, and what is there of a write that a
    crash interrupts before its file is synchronised. *)
Definition blank : Volume := {| names := ∅; undone := []; inodes := ∅ |}.
Lemma blank_rest s : files s = ∅ → at_rest blank (files s).
Proof.
  intros ->. by constructor.
Qed.
Definition all_ops : list fs_op :=
  let h := blake3 (bytes "one") in write_ops Always (object_temp_path h) (object_path h) (bytes "one").
Definition interrupted : list fs_op := take 2 all_ops.
Definition left_over : Files := {[ object_temp_path (blake3 (bytes "one")) := bytes "one" ]}.
Lemma left_over_survives : survives (foldl run_op blank interrupted) left_over.
Proof.
  unfold left_over, interrupted, all_ops, write_ops. cbn zeta.
  generalize (object_temp_path (blake3 (bytes "one"))) (object_path (blake3 (bytes "one"))).
  intros T O. cbn [take app foldl].
  destruct (run_create blank _ T (blank_rest empty eq_refl)) as (i & u & -> & _). cbn [run_op].
  rewrite on_drafted. intros p. destruct (decide (T = p)) as [<-|Hne].
  - exists (Some i). rewrite lookup_singleton_eq. cbn. rewrite !lookup_insert_eq.
    split; [left; cbn; by rewrite lookup_insert_eq|by eexists].
  - exists None. rewrite lookup_singleton_ne by done. split; [|done]. left. cbn.
    by rewrite lookup_insert_ne.
Qed.


(** With [Batch] the object of a write that returned may be gone after a crash. *)
Definition batched : ContentStoreConfig :=
  {| fsync_policy := Batch 1; enable_recovery := true; compression := NoCompression;
     packfile_config := PackfileConfig_default; enable_packfiles := false;
     cache_config := CacheConfig_default; enable_batch_ops := true; max_concurrent_ops := 32;
     enable_background_scan := false; scan_interval_secs := 3600 |}.
Lemma batched_write_undone_witness :
  let s := fresh_store batched 0 ∅ (empty_cache 10000) in let h := blake3 (bytes "one") in
  survives (foldl run_op blank (write_ops (Batch 1) (object_temp_path h) (object_path h) (bytes "one"))) ∅.
Proof.
  set (s := fresh_store batched 0 ∅ (empty_cache 10000)).
  exact (batched_write_undone s blank (bytes "one") (blank_rest s eq_refl) eq_refl eq_refl eq_refl).
Defined.

Definition unsynced : ContentStoreConfig :=
  {| fsync_policy := Never; enable_recovery := true; compression := NoCompression;
     packfile_config := PackfileConfig_default; enable_packfiles := false;
     cache_config := CacheConfig_default; enable_batch_ops := true; max_concurrent_ops := 32;
     enable_background_scan := false; scan_interval_secs := 3600 |}.
Lemma unsynced_inv : store_inv (fresh_store unsynced 0 ∅ (empty_cache 10000)).
Proof. by apply fresh_store_inv. Qed.
Lemma unsynced_write_lost_witness : ∃ fs s', new_with_config true cfg 6 fs ∅ = Ok s' ∧
  (read true 6 (blake3 (bytes "one")) (write true (bytes "one") s').1).2 =
    Err (Error (CorruptObject "Object file is empty")).
Proof.
  destruct (unsynced_write_lost true (fresh_store unsynced 0 ∅ (empty_cache 10000)) blank (bytes "one") cfg 6 ∅
    unsynced_inv (blank_rest (fresh_store unsynced 0 ∅ (empty_cache 10000)) eq_refl) eq_refl ltac:(by vm_compute) eq_refl eq_refl ltac:(done)) as (fs & s' & _ & Hs & _ & _ & Hr).
  exists fs, s'. split; [|exact Hr]. exact Hs.
Defined.

(** ** Transfers *)

Definition parts : list (list (list byte)) := [[bytes "re"]; [bytes "su"; bytes "med"]].
Lemma parts_chunked : Forall chunked parts.
Proof. by repeat constructor. Qed.
Lemma resumable_roundtrip_witness : ∃ p s1 p1 s2,
  start_resumable_write "id" 0 (Some (blake3 (bytes "resumed"))) (Some 7) one = (one, Ok p) ∧
  continue_all true 60 p parts one = (s1, Ok p1) ∧ complete_resumable_write 60 p1 s1 = (s2, Ok
    {| ref_hash := blake3 (bytes "resumed"); ref_size := 7 |}) ∧ holds s2 (blake3 (bytes "one")).
Proof.
  destruct (resumable_roundtrip true "id" 0 60 (Some (blake3 (bytes "resumed"))) (Some 7) parts one
    one_inv ltac:(done) ltac:(done) parts_chunked ltac:(done))
    as (p & s1 & p1 & s2 & Hstart & Hall & _ & Hcomp & _ & Hkeep & Hacc).
  exists p, s1, p1, s2. split_and!; [exact Hstart|exact Hall| |apply Hkeep, one_holds].
  rewrite Hcomp. destruct (Hacc ltac:(by right) ltac:(by right)) as [-> _]. done.
Defined.

Definition half : PartialTransfer :=
  {| temp_path := [".tmp"; "id.partial"]; expected_hash := None; expected_size := Some 7;
     bytes_received := 2; hash_state := None; expires_at := 100 |}.
Definition half_received : Store := put_file (temp_path half) (bytes "re") one.
(** More than the buffer of the writer takes. *)
Definition long : list byte := replicate (Z.to_nat BUF_SIZE) x61.
Lemma retry_duplicates_witness : ∃ s1 s2 p2,
  (continue_resumable_write true 60 half (map Ok [bytes "s"; long] ++ [Err (Io UnexpectedEof)]) half_received).1 = s1 ∧
  continue_resumable_write true 60 half (map Ok [bytes "su"; bytes "med"]) s1 = (s2, Ok p2) ∧
  files s2 !! temp_path half = Some (bytes "res" ++ long ++ bytes "sumed").
Proof.
  destruct (retry_duplicates true 60 half (bytes "re") [bytes "s"; long] (Io UnexpectedEof) [] [bytes "su"; bytes "med"] half_received
    ltac:(done) (put_file_lookup _ _ _) eq_refl ltac:(done) ltac:(by repeat constructor) ltac:(by vm_compute)
    ltac:(by repeat constructor) ltac:(by vm_compute) eq_refl)
    as (s1 & s2 & p2 & e2 & H1 & H2 & H3 & _).
  exists s1, s2, p2. split_and!; [by rewrite H1|exact H2|]. rewrite H3. by vm_compute.
Defined.

Definition twice : Store := (write true (bytes "one") (write true (bytes "one") empty).1).1.
Lemma deleted_object_not_rewritten_witness : ∃ s1 s2,
  Storage.delete (blake3 (bytes "one")) twice = (s1, Ok tt) ∧
  write true (bytes "one") s1 = (s2, Ok {| ref_hash := blake3 (bytes "one"); ref_size := 3 |}) ∧
  files s2 !! object_path (blake3 (bytes "one")) = None.
Proof.
  destruct (deleted_object_not_rewritten true (bytes "one") {| ref_hash := blake3 (bytes "one"); ref_size := 3 |} twice)
    as (s1 & s2 & H1 & H2 & H3 & H4 & _); [by vm_compute|done|exists (bytes "one"); by vm_compute|].
  exists s1, s2. split_and!; [exact H1|exact H2|rewrite H3; exact H4].
Defined.

(** ** Refinement *)

Definition calls : list call :=
  [Put (bytes "one"); Put (bytes "one"); Get 3 (blake3 (bytes "one")); Has (blake3 (bytes "two"));
   Get 4 (blake3 (bytes "two"))].
Lemma calls_proper : Forall proper_call calls.
Proof. by repeat constructor. Qed.
Example calls_answered : snd <$> (answer_all true calls empty).2 =
  [Stored (blake3 (bytes "one")); Stored (blake3 (bytes "one")); Data (bytes "one"); Found false;
   Failed (ObjectNotFound (blake3 (bytes "two")))].
Proof. by vm_compute. Qed.
Lemma store_refines_map_witness :
  ∃ X', spec_steps ∅ (answer_all true calls empty).2 X' ∧ represents (answer_all true calls empty).1 X'.
Proof.
  apply (store_refines_map true calls empty ∅); [by apply represents_empty|apply calls_proper].
Defined.
End Examples.
