(* ===== verification/EndToEnd.v ===== *)
(** A synchronisation session over the content store.

    The store of Storage.v implements the interface [ContentStore] that the
    session of SyncSession.v was proved against; the two are put together here,
    down to the files and through a restart. *)

From S2P Require Import Prelude Bytes CasInterface Manifest Diff Proto SyncSession.
From S2P Require Import Packfile Storage StorageInv StorageCrash StorageExamples.
From Stdlib Require Import Init.Byte Strings.Byte Strings.Ascii ZArith Lia.
From stdpp Require Import base option list gmap sets strings numbers sorting.
Open Scope Z_scope.

Section instance.
Context `{Lru, Codecs, Hex, Blake3, MapIter} (checked : bool).
(** What the clock says when the store is read. *)
Context (clock : Store → Z).

(** A store in which the invariant holds: one that was opened on intact objects
    and served only what [store_keeps_objects] allows. *)
Definition SafeStore : Type := {s : Store | store_inv s}.

Definition ok_value {A} (r : outcome Failure A) : option A :=
  match r with Ok a => Some a | _ => None end.
Lemma triple_inv {A} (m : st Store Failure A) Q s :
  triple store_inv extends (λ _, True) m Q → store_inv s → store_inv (m s).1.
Proof. intros Hm Hi. by destruct (Hm s Hi I). Qed.

Definition safe_store_read (s : SafeStore) (h : list byte) : SafeStore * option (list byte) :=
  let r := read checked (clock (`s)) h (`s) in
  (r.1 ↾ triple_inv _ _ _ (safe_read checked _ h) (proj2_sig s), ok_value r.2).
Definition safe_store_write (s : SafeStore) (data : list byte) : SafeStore * bool :=
  let r := write checked data (`s) in
  (r.1 ↾ triple_inv _ _ _ (safe_write checked data) (proj2_sig s), is_ok r.2).

#[export] Instance safe_store : ContentStore SafeStore.
Proof using All.
  refine {| cas_read := safe_store_read; cas_write := safe_store_write; cas_holds s h := holds (`s) h |}.
  - intros [s Hi] h d. unfold safe_store_read. cbn [snd proj1_sig].
    destruct (safe_read checked (clock s) h s Hi I) as (_ & _ & Hq).
    destruct (read checked (clock s) h s).2 as [d'|e|]; intros [= <-]. by apply Hq.
  - intros [s Hi] data. unfold safe_store_write. cbn [fst snd proj1_sig].
    destruct (safe_write checked data s Hi I) as (_ & _ & Hq). intros [r Hr]%is_ok_true. by apply (Hq r).
  - intros [s Hi] data h Hh. destruct (safe_write checked data s Hi I) as (_ & [Hle _] & _). by apply Hle.
  - intros [s Hi] h h' Hh. destruct (safe_read checked (clock s) h s Hi I) as (_ & [Hle _] & _). by apply Hle.
Defined.
End instance.

Section composition.
Context `{Lru, Codecs, Hex, Blake3, MapIter} (checked : bool).
Context (clock : Store → Z) (from_timestamp : Z → Z → option DateTime) (db_accepts : PeerSyncState → bool).
#[local] Instance session_store : ContentStore SafeStore := safe_store checked clock.
Abbreviation run := (run (Store:=SafeStore) from_timestamp db_accepts checked).

(** C5: A session over the content store that started transferring for some
    difference and is later completed, whatever messages arrived in between: for
    every chunk that the difference requires, and for every object that was
    there before, there is a file named by its hash whose contents have that
    hash; and after the program is started again on these files, the new store
    holds them all, and reads of them give data with that hash. *)
Theorem completed_session_survives_restart d (s0 : SyncSession SafeStore) ms n cfg now packs :
  state s0 = Transferring n 0 → diff_result s0 = Some d → wanted_chunks s0 = all_required_chunks d →
  state (run ms s0) = SessionCompleted →
  enable_packfiles cfg = false → compression cfg = NoCompression →
  enable_recovery cfg = true → max_chunks (cache_config cfg) ≠ 0 →
  let fs := files (proj1_sig (cas (run ms s0))) in
  let there hash := ∃ bytes data, hash = hex_encode bytes ∧ fs !! object_path bytes = Some data ∧
    blake3 data = bytes in
  (∀ hash, hash ∈ all_required_chunks d → there hash) ∧
  (∀ bytes, holds (proj1_sig (cas s0)) bytes → there (hex_encode bytes)) ∧
  ∃ s', new_with_config checked cfg now fs packs = Ok s' ∧ temp_files (files s') = [] ∧
    ∀ bytes, there (hex_encode bytes) → holds s' bytes ∧
      ∀ now' data, (read checked now' bytes s').2 = Ok data → blake3 data = bytes.
Proof.
  intros Hs _ Hw Hc Hp Hcomp Hrec Hmax fs there.
  assert (∀ hash, stored (cas (run ms s0)) hash → there hash) as Hthere.
  { intros hash (bytes & -> & data & Hf & Hh). by exists bytes, data. }
  pose proof (proj2_sig (cas (run ms s0))) as Hi.
  destruct (reopen checked cfg now fs packs Hp Hcomp Hrec Hmax (si_files _ Hi)) as (s' & Hnew & Hi' & Hfs & Hh).
  split_and!.
  - intros hash Hin. by eapply Hthere, run_completed.
  - intros bytes Hb. apply Hthere, run_keeps_stored. by exists bytes.
  - exists s'. split_and!; [done|rewrite Hfs; apply settled_no_temp|].
    intros bytes (b & data & E & Hf & Hb). apply hex_encode_inj in E as ->.
    split; [by apply (Hh b data)|]. intros now' data'.
    destruct (safe_read checked now' b s' Hi' I) as (_ & _ & Hq). apply Hq.
Qed.
End composition.

(** ** A concrete session *)

Module Examples.
#[local] Existing Instance RefHash.hex.
#[local] Existing Instance RefHash.hash.
#[local] Existing Instance gmap_order.
#[local] Existing Instance ListLru.lru.
#[local] Existing Instance TagCodecs.codecs.
Import SyncSession.Examples.

Definition clock : Store → Z := λ _, 5.
#[local] Instance example_store : ContentStore SafeStore := safe_store true clock.

Definition opened : SafeStore := StorageExamples.Examples.empty ↾ StorageExamples.Examples.empty_inv.
(** A session that waits for the chunks of [l]. *)
Definition waiting (l : list (list byte)) : SyncSession SafeStore :=
  set_state (Transferring (zlen l) 0) (set_diff (needs l) (IncrementalDiff_new ∅)
    (SyncSession.new 0 "peer" "Peer" opened)).
Abbreviation go := (SyncSession.run (Store:=SafeStore) no_time (λ _, true) true).

Lemma waiting_ok :
  let s0 := waiting [[x01]; [x02]] in
  state s0 = Transferring 2 0 ∧ diff_result s0 = Some (needs [[x01]; [x02]]) ∧
  wanted_chunks s0 = all_required_chunks (needs [[x01]; [x02]]).
Proof. cbn zeta. unfold waiting, set_state, set_diff. simpl. done. Qed.
Lemma waiting_completes : state (go arrivals (waiting [[x01]; [x02]])) = SessionCompleted.
Proof. by vm_compute. Qed.

Lemma completed_session_survives_restart_witness :
  ∃ data, files (proj1_sig (cas (go arrivals (waiting [[x01]; [x02]])))) !! object_path (blake3 [x02]) =
    Some data ∧ blake3 data = blake3 [x02].
Proof.
  destruct waiting_ok as (Hs & Hd & Hw).
  destruct (completed_session_survives_restart true clock no_time (λ _, true) (needs [[x01]; [x02]])
    (waiting [[x01]; [x02]]) arrivals 2 StorageExamples.Examples.cfg 9 ∅ Hs Hd Hw waiting_completes
    eq_refl eq_refl eq_refl ltac:(done)) as (Hreq & _).
  destruct (Hreq (name [x02]) chunk_needed) as (bytes & data & E & Hf & Hb).
  apply hex_encode_inj in E. rewrite E. exists data. split; [exact Hf|exact Hb].
Defined.
End Examples.
