(* ===== verification/IndexedStore.v ===== *)
(** The indexer over the content store.

    The store of Storage.v implements the interface [ContentStore] that the indexer
    of Indexer.v was proved against (EndToEnd.v has the instance); they are put
    together here: a folder is indexed, the program is started again, and the files
    are put together from the chunks of the store. *)

From S2P Require Import Prelude Bytes CasInterface Chunker Manifest Indexer.
From S2P Require Import Packfile Storage StorageInv StorageCrash StorageExamples EndToEnd.
From Stdlib Require Import Init.Byte Strings.Byte ZArith Lia.
From stdpp Require Import base option list gmap sets strings numbers sorting.
Open Scope Z_scope.

Section restore.
Context `{Lru, Codecs, Hex, Blake3, MapIter, !IndexDb, !IndexDbLaws} (checked : bool).
(** What the clock says when the store is read. *)
Context (clock : Store → Z).
#[local] Instance indexer_store : ContentStore SafeStore := safe_store checked clock.

(** The objects with the given hashes, read one after the other. *)
Fixpoint read_each (now : Z) (hashes : list (list byte)) : st Store Failure (list (list byte)) :=
  match hashes with
  | [] => mret []
  | h :: hashes => d ← read checked now h; ds ← read_each now hashes; mret (d :: ds)
  end.
Lemma read_each_hashes now hashes s : store_inv s →
  ∀ ds, (read_each now hashes s).2 = Ok ds → map blake3 ds = hashes.
Proof using All.
  revert s. induction hashes as [|h hashes IH]; cbn [read_each]; intros s Hi ds Hds; [by injection Hds as <-|].
  destruct (safe_read checked now h s Hi I) as (Hi1 & _ & Hq). unfold mbind, st_bind in Hds.
  destruct (read checked now h s) as [s1 [d|e|]]; [|done..]. cbn in Hi1, Hq.
  specialize (IH s1 Hi1). destruct (read_each now hashes s1) as [s2 [ds'|e|]]; [|done..].
  injection Hds as <-. cbn. by rewrite (Hq d eq_refl), (IH ds').
Qed.

(** C6: Indexed files can be put together again. After [index_folder] returned a
    manifest, the program is started again on the files of the store: the new store
    holds every chunk that an entry of the manifest names, and when they are all
    read, one after the other, the data put together are the contents that the file
    had, as long as no two of these pieces of data have the same BLAKE3 hash. *)
Theorem indexed_folder_restores os config ccfg chunker now fuel folder
    (s : FileIndexer (Store:=SafeStore)) s' m cfg now' packs :
  Chunker.new ccfg = Ok chunker →
  index_folder checked os config chunker now fuel folder s = (s', Ok m) →
  enable_packfiles cfg = false → compression cfg = NoCompression →
  enable_recovery cfg = true → max_chunks (cache_config cfg) ≠ 0 →
  ∃ store, new_with_config checked cfg now' (files (proj1_sig (cas s'))) packs = Ok store ∧
    ∀ e, e ∈ Manifest.files m → ∃ p reads content pieces,
      Manifest.path e = path_string p ∧ Indexer.open_file os p = Some reads ∧ Chunker.read_all reads [] = Ok content ∧
      chunk_hashes e = map (λ d, hex_encode (blake3 d)) pieces ∧
      Forall (λ d, holds store (blake3 d)) pieces ∧
      ∀ now'' got, (read_each now'' (map blake3 pieces) store).2 = Ok got →
        collision_free (got ++ pieces) → concat got = content.
Proof using All.
  intros Hnew Hrun Hp Hcomp Hrec Hmax.
  destruct (index_folder_Ok checked os config ccfg chunker Hnew _ _ _ _ _ _ Hrun)
    as (canonical & latest & found & s1 & _ & _ & _ & _ & _ & _ & _ & _ & _ & _ & kept & _ & Hf).
  pose proof (proj2_sig (cas s')) as Hi.
  destruct (reopen checked cfg now' _ packs Hp Hcomp Hrec Hmax (si_files _ Hi)) as (store & Hopen & Hi' & _ & Hh).
  exists store. split; [done|]. intros e [i He]%list_elem_of_lookup.
  destruct (Forall2_lookup_r _ _ _ _ _ Hf He) as (p & _ & content & pieces & [_ Hpath (reads & Ho & Hr) Hc Hhs _ Hheld]).
  exists p, reads, content, pieces. split_and!; [done..| |].
  - apply Forall_forall. intros d Hd%Hheld. destruct Hd as (data & Hfile & Hb). by apply (Hh (blake3 d) data).
  - intros now'' got Hgot Hcf. apply read_each_hashes in Hgot; [|done].
    apply map_blake3_inj in Hgot; [|done]. by rewrite Hgot.
Qed.
End restore.

(** ** A concrete folder *)

Module Examples.
#[local] Existing Instance RefHash.hex.
#[local] Existing Instance RefHash.hash.
#[local] Existing Instance gmap_order.
#[local] Existing Instance ListLru.lru.
#[local] Existing Instance TagCodecs.codecs.
#[local] Existing Instance Indexer.Examples.ListDb.db.
#[local] Existing Instance Indexer.Examples.ListDb.laws.
Import Indexer.Examples.

Definition clock : Store → Z := λ _, 5.
#[local] Instance example_store : ContentStore SafeStore := indexer_store true clock.
Definition opened : SafeStore := StorageExamples.Examples.empty ↾ StorageExamples.Examples.empty_inv.
Definition indexer : FileIndexer (Store:=SafeStore) := {| cas := opened; database := [] |}.
Abbreviation indexed_run := (index_folder true os config chunker Indexer.Examples.now 2 folder indexer).
Definition manifest : Manifest :=
  Eval vm_compute in match indexed_run.2 with Ok m => m | _ => Manifest.new 0 "" 0 end.
Lemma indexed_run_ok : indexed_run.2 = Ok manifest.
Proof. by vm_compute. Qed.

Lemma indexed_folder_restores_witness : length (Manifest.files manifest) = 2%nat ∧
  ∃ store, new_with_config true StorageExamples.Examples.cfg 9 (files (proj1_sig (cas indexed_run.1))) ∅ = Ok store.
Proof.
  split; [done|].
  destruct (indexed_folder_restores true clock os config ChunkerConfig_default chunker Indexer.Examples.now 2 folder
    indexer indexed_run.1 manifest StorageExamples.Examples.cfg 9 ∅ chunker_new) as (store & Hs & _);
    [rewrite <-indexed_run_ok; apply surjective_pairing|done..|by exists store].
Defined.
End Examples.
