(* ===== verification/Bloom.v ===== *)
(** Bloom-filter synchronisation: landro-daemon/src/bloom_diff.rs, and the phases
    of landro-daemon/src/bloom_sync_integration.rs.

    The size of a filter and its number of hash functions are computed with
    floats in the source: they are the parameters [optimal_num_bits] and
    [optimal_num_hashes]. SipHash, bincode, the Debug format of a manifest and
    zstd are parameters. Similarity, rates and throughput, floats too, are
    logged only and left out. *)

From S2P Require Import Prelude Bytes Manifest Diff.
From Stdlib Require Import Init.Byte Strings.Byte Strings.Ascii ZArith Lia.
From stdpp Require Import base option list gmap sets strings pretty numbers sorting.
Open Scope Z_scope.

(** ** The filter *)

Record BloomFilter := {
  bits : list Z;
  num_bits : Z;
  num_hashes : Z;
  num_elements : Z;
}.

(** [SipHasher24::new_with_keys(seed, seed)] after the given bytes. *)
Class SipHash := {
  sip : Z → list byte → Z;
  sip_range seed bs : 0 ≤ sip seed bs < 2 ^ 64;
}.

(** The parameters of a filter, in floating point. *)
Class BloomSizes := {
  optimal_num_bits : Z → Z;
  optimal_num_hashes : Z → Z → Z;
}.

(** What a string feeds to a hasher: its bytes and a terminator. *)
Definition hash_input (s : string) : list byte := as_bytes s ++ [xff].

Section filter.
Context `{SipHash, BloomSizes} (checked : bool).

Definition bloom_new (expected_elements : Z) : BloomFilter :=
  let num_bits := optimal_num_bits expected_elements in
  let num_hashes := optimal_num_hashes num_bits expected_elements in
  {| bits := replicate (Z.to_nat ((num_bits + 7) / 8)) 0; num_bits := num_bits; num_hashes := num_hashes;
     num_elements := 0 |}.

Definition bloom_hash (item : string) (seed : Z) : Z := sip seed (hash_input item).

(** [hash % num_bits] panics for a filter without bits. *)
Definition bit_pos {E} (f : BloomFilter) (item : string) (i : Z) : outcome E Z :=
  if num_bits f =? 0 then Panic else Ok (bloom_hash item i mod num_bits f).

Definition set_bit {E} (bits : list Z) (pos : Z) : outcome E (list Z) :=
  byte ← or_panic (bits !! Z.to_nat (pos / 8));
  mret (<[Z.to_nat (pos / 8) := Z.lor byte (Z.shiftl 1 (pos mod 8))]> bits).
Definition get_bit {E} (bits : list Z) (pos : Z) : outcome E bool :=
  byte ← or_panic (bits !! Z.to_nat (pos / 8));
  mret (negb (Z.land byte (Z.shiftl 1 (pos mod 8)) =? 0)).

Definition hash_indices (f : BloomFilter) : list Z := seqZ 0 (num_hashes f).

Definition add {E} (f : BloomFilter) (item : string) : outcome E BloomFilter :=
  bits ← for_each (hash_indices f) (λ bits i, pos ← bit_pos f item i; set_bit bits pos) (bits f);
  n ← arith checked 64 (num_elements f + 1);
  mret {| bits := bits; num_bits := num_bits f; num_hashes := num_hashes f; num_elements := n |}.

Fixpoint contains_loop {E} (f : BloomFilter) (item : string) (idx : list Z) : outcome E bool :=
  match idx with
  | [] => mret true
  | i :: idx =>
      pos ← bit_pos f item i;
      b ← get_bit (bits f) pos;
      if b : bool then contains_loop f item idx else mret false
  end.
Definition contains {E} (f : BloomFilter) (item : string) : outcome E bool :=
  contains_loop f item (hash_indices f).

Definition size_bytes (f : BloomFilter) : Z := zlen (bits f).
End filter.

(** ** What a filter answers *)

Section filter_spec.
Context `{SipHash, BloomSizes} (checked : bool).

(** The bits as a set of positions. *)
Definition marked (bits : list Z) (pos : Z) : bool :=
  match bits !! Z.to_nat (pos / 8) with
  | Some byte => Z.testbit byte (pos mod 8)
  | None => false
  end.

Record filter_wf (f : BloomFilter) : Prop := {
  fw_bits : 0 < num_bits f;
  fw_length : zlen (bits f) = (num_bits f + 7) / 8;
  fw_bytes : Forall (λ b, 0 ≤ b < 256) (bits f);
}.

Definition position (f : BloomFilter) (item : string) (i : Z) : Z := bloom_hash item i mod num_bits f.

Lemma position_range f item i : filter_wf f → 0 ≤ position f item i < num_bits f.
Proof. intros [Hb _ _]. by apply Z.mod_pos_bound. Qed.
Lemma bit_pos_eq {E} f item i : filter_wf f → bit_pos (E:=E) f item i = Ok (position f item i).
Proof. intros [Hb _ _]. unfold bit_pos. rewrite (proj2 (Z.eqb_neq _ _)) by lia. done. Qed.

Lemma byte_in_range (bits : list Z) n pos : 0 ≤ pos < n → zlen bits = (n + 7) / 8 →
  is_Some (bits !! Z.to_nat (pos / 8)).
Proof.
  intros Hp Hl. apply lookup_lt_is_Some. unfold zlen in Hl.
  assert (pos / 8 < (n + 7) / 8) by (apply Z.div_lt_upper_bound; [lia|];
    pose proof (Z.div_mod (n + 7) 8 ltac:(lia)); pose proof (Z.mod_pos_bound (n + 7) 8 ltac:(lia)); lia).
  pose proof (Z.div_pos pos 8). lia.
Qed.

Lemma get_bit_eq {E} (bits : list Z) pos : is_Some (bits !! Z.to_nat (pos / 8)) →
  get_bit (E:=E) bits pos = Ok (marked bits pos).
Proof.
  intros [b Hb]. unfold get_bit, marked. rewrite Hb. cbn. f_equal.
  pose proof (Z.mod_pos_bound pos 8 ltac:(lia)) as Hm.
  destruct (Z.testbit b (pos mod 8)) eqn:Ht.
  - apply negb_true_iff, Z.eqb_neq. intros E0. apply (f_equal (λ z, Z.testbit z (pos mod 8))) in E0.
    rewrite Z.land_spec, Ht, Z.shiftl_spec, Z.sub_diag, Z.bits_0 in E0 by lia. done.
  - apply negb_false_iff, Z.eqb_eq. apply Z.bits_inj'. intros n Hn.
    rewrite Z.land_spec, Z.bits_0, Z.shiftl_spec by lia.
    destruct (decide (n = pos mod 8)) as [->|Hne]; [by rewrite Ht|].
    destruct (decide (n < pos mod 8)); [rewrite (Z.testbit_neg_r 1) by lia; apply andb_false_r|].
    rewrite (Z.bits_above_log2 1) by (simpl; lia). apply andb_false_r.
Qed.

Lemma set_bit_eq {E} (bs : list Z) pos : 0 ≤ pos → is_Some (bs !! Z.to_nat (pos / 8)) →
  ∃ bs', set_bit (E:=E) bs pos = Ok bs' ∧ length bs' = length bs ∧
    (Forall (λ b, 0 ≤ b < 256) bs → Forall (λ b, 0 ≤ b < 256) bs') ∧
    ∀ q, 0 ≤ q → marked bs' q = bool_decide (q = pos) || marked bs q.
Proof.
  intros Hp [b Hb]. unfold set_bit. rewrite Hb. cbn. eexists. split; [done|].
  pose proof (Z.mod_pos_bound pos 8 ltac:(lia)) as Hm.
  split; [by rewrite length_insert|]. split.
  - intros Hbs. apply Forall_insert; [done|]. pose proof (proj1 (Forall_lookup _ _) Hbs _ _ Hb) as Hr.
    simpl in Hr. split; [apply Z.lor_nonneg; split; [lia|]; apply Z.shiftl_nonneg; lia|].
    change 256 with (2 ^ 8). apply Z.log2_lt_cancel. rewrite Z.log2_pow2 by lia.
    rewrite Z.log2_lor, Z.log2_shiftl by (try apply Z.shiftl_nonneg; lia). simpl (Z.log2 1).
    apply Z.max_lub_lt; [|lia]. destruct (decide (b = 0)) as [->|Hb0]; [simpl; lia|].
    apply Z.log2_lt_pow2; lia.
  - intros q Hq. unfold marked. pose proof (lookup_lt_Some _ _ _ Hb) as Hlen.
    destruct (decide (q / 8 = pos / 8)) as [E0|Hne].
    + rewrite E0, list_lookup_insert_eq, Hb by done. rewrite Z.lor_spec, Z.shiftl_spec by (apply Z.mod_pos_bound; lia).
      pose proof (Z.mod_pos_bound q 8 ltac:(lia)). pose proof (Z.div_mod q 8 ltac:(lia)). pose proof (Z.div_mod pos 8 ltac:(lia)).
      case_bool_decide as Eq; [subst; rewrite Z.sub_diag; apply orb_true_r|].
      rewrite orb_comm. f_equal. assert (q mod 8 ≠ pos mod 8) by lia.
      destruct (decide (q mod 8 < pos mod 8)); [apply Z.testbit_neg_r; lia|].
      apply Z.bits_above_log2; simpl; lia.
    + rewrite list_lookup_insert_ne; [by rewrite bool_decide_false by congruence|].
      pose proof (Z.div_pos q 8). pose proof (Z.div_pos pos 8). lia.
Qed.

Definition positions (f : BloomFilter) (item : string) : list Z := position f item <$> hash_indices f.

(** Same size and hash functions. *)
Definition same_shape (f g : BloomFilter) : Prop := num_bits g = num_bits f ∧ num_hashes g = num_hashes f.
Lemma positions_shape f g item : same_shape f g → positions g item = positions f item.
Proof. intros [E1 E2]. unfold positions, hash_indices, position. by rewrite E1, E2. Qed.

Lemma set_bits_eq {E} f item idx bs : filter_wf f → zlen bs = zlen (bits f) → Forall (λ b, 0 ≤ b < 256) bs →
  ∃ bs', for_each (E:=E) idx (λ bits i, pos ← bit_pos f item i; set_bit bits pos) bs = Ok bs' ∧
    zlen bs' = zlen (bits f) ∧ Forall (λ b, 0 ≤ b < 256) bs' ∧
    ∀ q, 0 ≤ q → marked bs' q = bool_decide (q ∈ position f item <$> idx) || marked bs q.
Proof.
  intros Hf. revert bs. induction idx as [|i idx IH]; intros bs Hl Hb.
  { exists bs. split_and!; [done..|]. intros q _. by rewrite bool_decide_false by apply not_elem_of_nil. }
  cbn [for_each]. rewrite bit_pos_eq by done. cbn [mbind outcome_bind].
  pose proof (position_range f item i Hf) as Hp.
  destruct (set_bit_eq (E:=E) bs (position f item i)) as (bs1 & Hs & Hl1 & Hb1 & Hm1);
    [lia|apply (byte_in_range _ (num_bits f)); [done|rewrite Hl; apply fw_length, Hf]|].
  rewrite Hs. cbn [mbind outcome_bind].
  destruct (IH bs1) as (bs2 & -> & Hl2 & Hb2 & Hm2); [unfold zlen in *; lia|by apply Hb1|].
  exists bs2. split_and!; try done. intros q Hq. rewrite Hm2, Hm1, orb_assoc by done. f_equal.
  rewrite fmap_cons. rewrite orb_comm. by rewrite <-bool_decide_or, (bool_decide_ext _ _ (elem_of_cons _ _ _)).
Qed.

Lemma add_eq {E} f item : filter_wf f → 0 ≤ num_elements f < 2 ^ 64 - 1 →
  ∃ f', add checked (E:=E) f item = Ok f' ∧ filter_wf f' ∧ same_shape f f' ∧ num_elements f' = num_elements f + 1 ∧
    ∀ q, 0 ≤ q → marked (bits f') q = bool_decide (q ∈ positions f item) || marked (bits f) q.
Proof.
  intros Hf Hn. unfold add.
  destruct (set_bits_eq (E:=E) f item (hash_indices f) (bits f) Hf) as (bs & -> & Hl & Hb & Hm);
    [done|apply Hf|]. cbn [mbind outcome_bind]. rewrite arith_exact by lia. cbn.
  eexists. split; [done|]. split_and!; try done. destruct Hf. constructor; cbn; by rewrite ?Hl.
Qed.

Lemma contains_eq {E} f item : filter_wf f →
  contains (E:=E) f item = Ok (forallb (marked (bits f)) (positions f item)).
Proof.
  intros Hf. unfold contains, positions. induction (hash_indices f) as [|i idx IH]; [done|].
  cbn [contains_loop]. rewrite bit_pos_eq by done. cbn [mbind outcome_bind].
  pose proof (position_range f item i Hf) as Hp.
  rewrite get_bit_eq by (apply (byte_in_range _ (num_bits f)); [done|apply Hf]). cbn [mbind outcome_bind].
  rewrite fmap_cons. cbn [forallb]. by destruct (marked (bits f) (position f item i)).
Qed.

Lemma bloom_new_wf n : 0 < optimal_num_bits n → filter_wf (bloom_new n) ∧ ∀ q, marked (bits (bloom_new n)) q = false.
Proof.
  intros Hn. assert (0 ≤ (optimal_num_bits n + 7) / 8) by (apply Z.div_pos; lia).
  split; [constructor; cbn; [done|unfold zlen; rewrite length_replicate; lia|by apply Forall_replicate]|].
  intros q. unfold marked, bloom_new. cbn [bits].
  destruct (replicate _ 0 !! _) as [b|] eqn:Hb; [|done].
  apply lookup_replicate in Hb as [-> _]. apply Z.testbit_0_l.
Qed.

Definition add_all {E} (f : BloomFilter) (items : list string) : outcome E BloomFilter :=
  for_each items (add checked) f.

Lemma add_all_eq {E} f items : filter_wf f → 0 ≤ num_elements f → num_elements f + zlen items < 2 ^ 64 →
  ∃ f', add_all (E:=E) f items = Ok f' ∧ filter_wf f' ∧ same_shape f f' ∧
    num_elements f' = num_elements f + zlen items ∧
    ∀ q, 0 ≤ q → marked (bits f') q = bool_decide (q ∈ items ≫= positions f) || marked (bits f) q.
Proof.
  revert f. induction items as [|x items IH]; intros f Hf H0n Hn.
  { exists f. rewrite zlen_nil. split_and!; [done..|lia|]. intros q _.
    by rewrite bool_decide_false by apply not_elem_of_nil. }
  rewrite zlen_cons in *. pose proof (zlen_nonneg items). unfold add_all. cbn [for_each].
  destruct (add_eq (E:=E) f x Hf ltac:(lia)) as (f1 & -> & Hf1 & Hs1 & Hn1 & Hm1). cbn [mbind outcome_bind].
  destruct (IH f1 Hf1 ltac:(lia) ltac:(lia)) as (f2 & Hall & Hf2 & Hs2 & Hn2 & Hm2).
  exists f2. unfold add_all in Hall. rewrite Hall. split_and!; try done; try lia.
  - destruct Hs1, Hs2. split; congruence.
  - intros q Hq. rewrite Hm2, Hm1, orb_assoc by done. f_equal. rewrite bind_cons, orb_comm, <-bool_decide_or.
    apply bool_decide_ext. rewrite elem_of_app. apply or_iff_compat_l.
    assert (items ≫= positions f1 = items ≫= positions f) as ->; [|done].
    apply list_bind_ext; [|done]. intros y. by apply positions_shape.
Qed.

(** A filter with at least one bit takes any items without panicking, and
    answers exactly by the bits of the items added: it contains an item if and
    only if each of its positions is a position of some item that was added. In
    particular it has no false negatives. *)
Theorem bloom_exact {E} n items : 0 < optimal_num_bits n → zlen items < 2 ^ 64 →
  ∃ f, add_all (E:=E) (bloom_new n) items = Ok f ∧ num_elements f = zlen items ∧
    (∀ x, ∃ b, contains (E:=E) f x = Ok b ∧
      (b = true ↔ ∀ p, p ∈ positions f x → ∃ y, y ∈ items ∧ p ∈ positions f y)) ∧
    ∀ x, x ∈ items → contains (E:=E) f x = Ok true.
Proof.
  intros Hn Hlt. destruct (bloom_new_wf n Hn) as [Hw Hfresh]. pose proof (zlen_nonneg items).
  destruct (add_all_eq (E:=E) (bloom_new n) items Hw ltac:(done) ltac:(cbn; lia)) as (f & Hall & Hf & Hs & Hne & Hm).
  assert (∀ x, ∃ b, contains (E:=E) f x = Ok b ∧
    (b = true ↔ ∀ p, p ∈ positions f x → ∃ y, y ∈ items ∧ p ∈ positions f y)) as Hc.
  { intros x. eexists. split; [by apply contains_eq|]. rewrite forallb_forall. setoid_rewrite <-list_elem_of_In.
    apply forall_proper. intros p. split; intros Hx Hp; specialize (Hx Hp).
    - assert (0 ≤ p) as Hp0 by (apply list_elem_of_fmap in Hp as (i & -> & _); by apply position_range).
      rewrite Hm, Hfresh, orb_false_r, bool_decide_eq_true, list_elem_of_bind in Hx by done.
      destruct Hx as (y & Hy & Hin). exists y. split; [done|]. by rewrite (positions_shape (bloom_new n) f).
    - assert (0 ≤ p) as Hp0 by (apply list_elem_of_fmap in Hp as (i & -> & _); by apply position_range).
      rewrite Hm, Hfresh, orb_false_r, bool_decide_eq_true, list_elem_of_bind by done.
      destruct Hx as (y & Hin & Hy). exists y. by rewrite <-(positions_shape (bloom_new n) f). }
  exists f. split_and!; [done|cbn in Hne; lia|done|]. intros x Hx. destruct (Hc x) as (b & -> & Hb).
  f_equal. apply Hb. by eauto.
Qed.
End filter_spec.

(** ** Summaries and messages *)

(** A [PathBuf], by its components. *)
Abbreviation PathBuf := (list string).

Record ManifestSummary := {
  device_id : string;
  root_path : PathBuf;
  path_filter : BloomFilter;
  hash_filter : BloomFilter;
  summary_file_count : Z;
  summary_total_size : Z;
  generated_at : Z;
  manifest_checksum : list byte;
}.

Inductive DiffProtocolMessage :=
  | RequestSummary (path : PathBuf) (request_id : string)
  | SendSummary (summary : ManifestSummary) (request_id : string)
  | RequestDiffDetails (suspected_paths : list string) (request_id : string)
  | SendDiffDetails (file_details : gmap string ManifestEntry) (request_id : string)
  | RequestChunks (chunk_hashes : list string) (request_id : string)
  | Acknowledge (request_id : string) (success : bool) (message : option string).

Inductive DiffStage :=
  | StageInitializing
  | ExchangingSummaries
  | ComparingManifests
  | RequestingDetails
  | TransferringChunks
  | StageCompleted.
#[export] Instance DiffStage_eq_dec : EqDecision DiffStage.
Proof. solve_decision. Defined.

Record DiffProgress := {
  progress_peer : string;
  stage : DiffStage;
  progress_percent : Z;
  files_compared : Z;
  differences_found : Z;
  bytes_saved : Z;
  started_at : Z;
  estimated_completion : option Z;
}.

Record DiffProtocolHandler := {
  own_device_id : string;
  manifests : gmap PathBuf Manifest;
  summaries : gmap string ManifestSummary;
  progress : gmap string DiffProgress;
}.
Definition DiffProtocolHandler_new (device_id : string) : DiffProtocolHandler :=
  {| own_device_id := device_id; manifests := ∅; summaries := ∅; progress := ∅ |}.

Definition set_manifests (x : gmap PathBuf Manifest) (h : DiffProtocolHandler) :=
  {| own_device_id := own_device_id h; manifests := x; summaries := summaries h; progress := progress h |}.
Definition set_summaries (x : gmap string ManifestSummary) (h : DiffProtocolHandler) :=
  {| own_device_id := own_device_id h; manifests := manifests h; summaries := x; progress := progress h |}.
Definition set_progress (x : gmap string DiffProgress) (h : DiffProtocolHandler) :=
  {| own_device_id := own_device_id h; manifests := manifests h; summaries := summaries h; progress := x |}.

(** A new stage, with its percentage. *)
Definition at_stage (s : DiffStage) (percent : Z) (p : DiffProgress) : DiffProgress :=
  {| progress_peer := progress_peer p; stage := s; progress_percent := percent;
     files_compared := files_compared p; differences_found := differences_found p;
     bytes_saved := bytes_saved p; started_at := started_at p;
     estimated_completion := estimated_completion p |}.
Definition with_compared (n : Z) (p : DiffProgress) : DiffProgress :=
  {| progress_peer := progress_peer p; stage := stage p; progress_percent := progress_percent p;
     files_compared := n; differences_found := differences_found p; bytes_saved := bytes_saved p;
     started_at := started_at p; estimated_completion := estimated_completion p |}.
Definition with_findings (saved found : Z) (p : DiffProgress) : DiffProgress :=
  {| progress_peer := progress_peer p; stage := stage p; progress_percent := progress_percent p;
     files_compared := files_compared p; differences_found := found; bytes_saved := saved;
     started_at := started_at p; estimated_completion := estimated_completion p |}.

(** A failure of bincode. *)
Inductive BloomError := SerializeFailed.

(** bincode, zstd at level 3, and the Debug format. *)
Class BloomFormats := {
  debug_format : Manifest → list byte;
  serialize_manifest : Manifest → option (list byte);
  serialize_summary : ManifestSummary → option (list byte);
  serialize_message : DiffProtocolMessage → option (list byte);
  deserialize_message : list byte → option DiffProtocolMessage;
  zstd_encode_3 : list byte → option (list byte);
  zstd_decode_all : list byte → option (list byte);
}.

Section protocol.
Context `{SipHash, BloomSizes, BloomFormats, Blake3, MapIter} (checked : bool).
Abbreviation handler := (st DiffProtocolHandler BloomError).

Definition from_manifest (now : Z) (manifest : Manifest) (device : string) (root : PathBuf) :
    outcome BloomError ManifestSummary :=
  let file_count := zlen (files manifest) in
  total_size ← sum_u64 checked 0 (map fsize (files manifest));
  '(paths, hashes) ← for_each (files manifest)
    (λ '(paths, hashes) file,
      paths ← add checked paths (path file);
      hashes ← add checked hashes (content_hash file);
      mret (paths, hashes))
    (bloom_new (Z.max file_count 100), bloom_new (Z.max file_count 100));
  mret {| device_id := device; root_path := root; path_filter := paths; hash_filter := hashes;
          summary_file_count := file_count; summary_total_size := total_size; generated_at := now;
          manifest_checksum := blake3 (debug_format manifest) |}.

Definition start_diff (now millis : Z) (peer : string) (root : PathBuf) (local_manifest : Manifest) :
    handler DiffProtocolMessage :=
  self ← get_st;
  _ ← modify_st (λ h, set_manifests (<[root := local_manifest]> (manifests h)) h);
  _ ← modify_st (λ h, set_progress (<[peer :=
        {| progress_peer := peer; stage := StageInitializing; progress_percent := 0; files_compared := 0;
           differences_found := 0; bytes_saved := 0; started_at := now;
           estimated_completion := None |}]> (progress h)) h);
  mret (RequestSummary root (own_device_id self +:+ "-" +:+ pretty millis)).

Definition handle_summary_request (now : Z) (root : PathBuf) (request_id : string) :
    handler (option DiffProtocolMessage) :=
  self ← get_st;
  match manifests self !! root with
  | Some manifest =>
      summary ← lift (from_manifest now manifest (own_device_id self) root);
      mret (Some (SendSummary summary request_id))
  | None => mret (Some (Acknowledge request_id false (Some "Manifest not found")))
  end.

(** The local files whose path is not in the filter of the peer. *)
Fixpoint find_suspected (filter : BloomFilter) (fs : list ManifestEntry) :
    outcome BloomError (list string) :=
  match fs with
  | [] => mret []
  | file :: fs =>
      b ← contains filter (path file);
      rest ← find_suspected filter fs;
      mret (if b : bool then rest else path file :: rest)
  end.

Definition handle_summary_response (now : Z) (summary : ManifestSummary) (request_id : string) :
    handler (option DiffProtocolMessage) :=
  _ ← modify_st (λ h, set_summaries (<[device_id summary := summary]> (summaries h)) h);
  _ ← modify_st (λ h, set_progress (alter (at_stage ComparingManifests 25) (device_id summary) (progress h)) h);
  self ← get_st;
  match manifests self !! root_path summary with
  | Some local_manifest =>
      _ ← lift (from_manifest now local_manifest (own_device_id self) (root_path summary));
      suspected_paths ← lift (find_suspected (path_filter summary) (files local_manifest));
      full ← lift (ok_or SerializeFailed (serialize_manifest local_manifest));
      short ← lift (ok_or SerializeFailed (serialize_summary summary));
      _ ← modify_st (λ h, set_progress (alter (with_findings (saturating_sub (zlen full) (zlen short))
            (zlen suspected_paths)) (device_id summary) (progress h)) h);
      mret (Some (if negb (bool_decide (suspected_paths = []))
                  then RequestDiffDetails suspected_paths request_id
                  else Acknowledge request_id true (Some "No differences found")))
  | None => mret None
  end.

(** The entries with one of the paths, in all manifests; a later one replaces an
    earlier one. *)
Definition file_details (suspected_paths : list string) (ms : gmap PathBuf Manifest) :
    gmap string ManifestEntry :=
  foldl (λ details file,
      if bool_decide (path file ∈ suspected_paths) then <[path file := file]> details else details)
    ∅ (concat (map (λ m, files m.2) (map_iter ms))).
Definition handle_details_request (suspected_paths : list string) (request_id : string) :
    handler (option DiffProtocolMessage) :=
  self ← get_st;
  mret (Some (SendDiffDetails (file_details suspected_paths (manifests self)) request_id)).

Definition handle_details_response (details : gmap string ManifestEntry) :
    handler (option DiffProtocolMessage) :=
  _ ← modify_st (λ h, set_progress ((λ p,
        if bool_decide (stage p = RequestingDetails)
        then with_compared (Z.of_nat (size details)) (at_stage TransferringChunks 75 p)
        else p) <$> progress h) h);
  mret None.

Definition handle_chunks_request (chunk_hashes : list string) (request_id : string) :
    handler (option DiffProtocolMessage) :=
  mret (Some (Acknowledge request_id true
    (Some ("Would send " +:+ pretty (zlen chunk_hashes) +:+ " chunks")))).

Definition handle_acknowledge : handler (option DiffProtocolMessage) :=
  _ ← modify_st (λ h, set_progress ((λ p,
        if negb (bool_decide (stage p = StageCompleted)) then at_stage StageCompleted 100 p else p)
        <$> progress h) h);
  mret None.

Definition handle_message (now : Z) (msg : DiffProtocolMessage) : handler (option DiffProtocolMessage) :=
  match msg with
  | RequestSummary root request_id => handle_summary_request now root request_id
  | SendSummary summary request_id => handle_summary_response now summary request_id
  | RequestDiffDetails suspected_paths request_id => handle_details_request suspected_paths request_id
  | SendDiffDetails details _ => handle_details_response details
  | RequestChunks chunk_hashes request_id => handle_chunks_request chunk_hashes request_id
  | Acknowledge _ _ _ => handle_acknowledge
  end.

Definition get_progress (peer : string) (h : DiffProtocolHandler) : option DiffProgress := progress h !! peer.
(** The total of [get_bandwidth_stats]; the average is a float. *)
Definition bandwidth_total (h : DiffProtocolHandler) : outcome BloomError Z :=
  sum_u64 checked 0 (map (λ p, bytes_saved p.2) (map_iter (progress h))).

(** *** Compression of messages *)

Definition compress_message (msg : DiffProtocolMessage) : option (list byte) :=
  data ← serialize_message msg;
  compressed ← zstd_encode_3 data;
  Some ([xca; xfe] ++ compressed).
Definition decompress_message (data : list byte) : option DiffProtocolMessage :=
  match data with
  | xca :: xfe :: ((_ :: _) as compressed) => decompressed ← zstd_decode_all compressed; deserialize_message decompressed
  | _ => deserialize_message data
  end.
End protocol.

(** ** The enhanced synchronisation *)

(** Of the statistics, those that are not floats. *)
Record BloomSession := {
  bs_peer_id : string;
  bs_folder_path : PathBuf;
  bs_started_at : Z;
  current_stage : DiffStage;
  quic_session_id : option string;
  bytes_sent : Z;
  files_added : Z;
  false_positives : Z;
  true_negatives : Z;
  summary_exchange_time_ms : Z;
  bytes_saved_by_bloom : Z;
  bytes_saved_by_compression : Z;
  actual_bytes_transferred : Z;
}.

Record BloomSyncEngine := {
  diff_handler : DiffProtocolHandler;
  active_syncs : gmap string BloomSession;
}.
Definition set_handler (x : DiffProtocolHandler) (e : BloomSyncEngine) : BloomSyncEngine :=
  {| diff_handler := x; active_syncs := active_syncs e |}.
Definition on_session (id : string) (f : BloomSession → BloomSession) (e : BloomSyncEngine) : BloomSyncEngine :=
  {| diff_handler := diff_handler e; active_syncs := alter f id (active_syncs e) |}.

Definition set_stage (x : DiffStage) (s : BloomSession) : BloomSession :=
  {| bs_peer_id := bs_peer_id s; bs_folder_path := bs_folder_path s; bs_started_at := bs_started_at s;
     current_stage := x; quic_session_id := quic_session_id s; bytes_sent := bytes_sent s;
     files_added := files_added s; false_positives := false_positives s;
     true_negatives := true_negatives s; summary_exchange_time_ms := summary_exchange_time_ms s;
     bytes_saved_by_bloom := bytes_saved_by_bloom s;
     bytes_saved_by_compression := bytes_saved_by_compression s;
     actual_bytes_transferred := actual_bytes_transferred s |}.
Definition set_negatives (fp tn : Z) (s : BloomSession) : BloomSession :=
  {| bs_peer_id := bs_peer_id s; bs_folder_path := bs_folder_path s; bs_started_at := bs_started_at s;
     current_stage := current_stage s; quic_session_id := quic_session_id s; bytes_sent := bytes_sent s;
     files_added := files_added s; false_positives := fp;
     true_negatives := tn; summary_exchange_time_ms := summary_exchange_time_ms s;
     bytes_saved_by_bloom := bytes_saved_by_bloom s;
     bytes_saved_by_compression := bytes_saved_by_compression s;
     actual_bytes_transferred := actual_bytes_transferred s |}.
Definition set_exchange_time (ms : Z) (s : BloomSession) : BloomSession :=
  {| bs_peer_id := bs_peer_id s; bs_folder_path := bs_folder_path s; bs_started_at := bs_started_at s;
     current_stage := current_stage s; quic_session_id := quic_session_id s; bytes_sent := bytes_sent s;
     files_added := files_added s; false_positives := false_positives s;
     true_negatives := true_negatives s; summary_exchange_time_ms := ms;
     bytes_saved_by_bloom := bytes_saved_by_bloom s;
     bytes_saved_by_compression := bytes_saved_by_compression s;
     actual_bytes_transferred := actual_bytes_transferred s |}.
Definition set_savings (by_bloom by_compression : Z) (s : BloomSession) : BloomSession :=
  {| bs_peer_id := bs_peer_id s; bs_folder_path := bs_folder_path s; bs_started_at := bs_started_at s;
     current_stage := current_stage s; quic_session_id := quic_session_id s; bytes_sent := bytes_sent s;
     files_added := files_added s; false_positives := false_positives s;
     true_negatives := true_negatives s; summary_exchange_time_ms := summary_exchange_time_ms s;
     bytes_saved_by_bloom := by_bloom; bytes_saved_by_compression := by_compression;
     actual_bytes_transferred := actual_bytes_transferred s |}.
Definition set_transferred (sent added actual : Z) (s : BloomSession) : BloomSession :=
  {| bs_peer_id := bs_peer_id s; bs_folder_path := bs_folder_path s; bs_started_at := bs_started_at s;
     current_stage := current_stage s; quic_session_id := quic_session_id s; bytes_sent := sent;
     files_added := added; false_positives := false_positives s;
     true_negatives := true_negatives s; summary_exchange_time_ms := summary_exchange_time_ms s;
     bytes_saved_by_bloom := bytes_saved_by_bloom s;
     bytes_saved_by_compression := bytes_saved_by_compression s;
     actual_bytes_transferred := actual |}.

Inductive EngineError := HandlerFailed (e : BloomError) | SessionNotFound | IndexFailed.

Section engine.
Context `{SipHash, BloomSizes, BloomFormats, Blake3, MapIter} (checked : bool).
(** The indexer on the folder of the session. *)
Context (index_folder : PathBuf → outcome EngineError Manifest).
Abbreviation engine := (st BloomSyncEngine EngineError).

Definition update_session_stage (session_id : string) (s : DiffStage) : engine unit :=
  modify_st (on_session session_id (set_stage s)).

(** The remote summary is made from the local manifest. *)
Definition simulate_remote_summary_response (now : Z) (local_manifest : Manifest) :
    outcome EngineError ManifestSummary :=
  map_err HandlerFailed
    (from_manifest checked now local_manifest "remote_device" ["/"; "remote"; "path"]).

(** The loop: the changes, and how many files need none. *)
Fixpoint find_changes (remote_summary : ManifestSummary) (fs : list ManifestEntry) :
    outcome EngineError (list FileChange * Z) :=
  match fs with
  | [] => mret ([], 0)
  | file :: fs =>
      might_exist_remote ← contains (path_filter remote_summary) (path file);
      hash_might_exist ← contains (hash_filter remote_summary) (content_hash file);
      '(changes, negatives) ← find_changes remote_summary fs;
      mret (if negb might_exist_remote || negb hash_might_exist
            then ({| change_path := path file; change_type := Added; source_entry := None;
                     target_entry := Some file; required_chunks := [content_hash file];
                     transfer_size := fsize file |} :: changes, negatives)
            else (changes, negatives + 1))
  end.
Definition process_bloom_diff_exchange (local_manifest : Manifest) (remote_summary : ManifestSummary)
    (session_id : string) : engine (list FileChange) :=
  _ ← update_session_stage session_id ComparingManifests;
  '(file_changes, negatives) ← lift (find_changes remote_summary (files local_manifest));
  _ ← modify_st (on_session session_id (set_negatives 0 negatives));
  mret file_changes.

(** The calls of the handler, on the handler of the engine. *)
Definition on_handler {A} (m : st DiffProtocolHandler BloomError A) : engine A := λ e,
  let '(h, r) := m (diff_handler e) in (set_handler h e, map_err HandlerFailed r).
Definition bincode_size (o : option (list byte)) : outcome EngineError Z :=
  data ← ok_or (HandlerFailed SerializeFailed) o; mret (zlen data).

(** The log line about the local manifest adds up the sizes of its files. *)
Definition run_bloom_diff_phase (now millis exchange_ms : Z) (peer_id : string) (folder_path : PathBuf)
    (session_id : string) : engine (list FileChange) :=
  _ ← update_session_stage session_id ExchangingSummaries;
  local_manifest ← lift (index_folder folder_path);
  _ ← lift (sum_u64 checked 0 (map fsize (files local_manifest)));
  request_msg ← on_handler (start_diff now millis peer_id folder_path local_manifest);
  remote_summary ← lift (simulate_remote_summary_response now local_manifest);
  diff_details ← process_bloom_diff_exchange local_manifest remote_summary session_id;
  self ← get_st;
  _ ← (match active_syncs self !! session_id with
       | Some _ =>
           _ ← modify_st (on_session session_id (set_exchange_time exchange_ms));
           traditional ← lift (bincode_size (serialize_manifest local_manifest));
           summary_size ← lift (bincode_size (serialize_summary remote_summary));
           compressed_size ← lift (bincode_size (compress_message request_msg));
           let by_bloom := saturating_sub traditional summary_size in
           let by_compression := saturating_sub summary_size compressed_size in
           _ ← modify_st (on_session session_id (set_savings by_bloom by_compression));
           _ ← lift (arith checked 64 (by_bloom + by_compression));
           mret tt
       | None => mret tt
       end);
  mret diff_details.

(** The transfer itself is a pause of 10 ms for each chunk. *)
Definition run_transfer_phase (session_id : string) (files_to_transfer : list FileChange) :
    engine (Z * Z) :=
  _ ← update_session_stage session_id TransferringChunks;
  bytes_transferred ← lift (sum_u64 checked 0 (map transfer_size files_to_transfer));
  mret (zlen files_to_transfer, bytes_transferred).

Definition complete_sync_session (session_id : string) (result : Z * Z) : engine unit :=
  _ ← update_session_stage session_id StageCompleted;
  self ← get_st;
  match active_syncs self !! session_id with
  | Some session =>
      sent ← lift (arith checked 64 (bytes_sent session + result.2));
      added ← lift (arith checked 64 (files_added session + result.1));
      modify_st (on_session session_id (set_transferred sent added result.2))
  | None => mret tt
  end.

Definition run_enhanced_sync_protocol (now millis exchange_ms : Z) (session_id : string) : engine unit :=
  self ← get_st;
  session ← lift (ok_or SessionNotFound (active_syncs self !! session_id));
  diff_result ← run_bloom_diff_phase now millis exchange_ms (bs_peer_id session) (bs_folder_path session)
                  session_id;
  transfer_result ← run_transfer_phase session_id diff_result;
  complete_sync_session session_id transfer_result.
End engine.

(** ** Properties of the exchange *)

Section exchange.
Context `{SipHash, BloomSizes, BloomFormats, Blake3, MapIter} (checked : bool).

(** Sizes for which no counter overflows, and filters with at least one bit. *)
Record manifest_fits (m : Manifest) : Prop := {
  mf_count : zlen (files m) < 2 ^ 64;
  mf_sizes : Forall (λ f, 0 ≤ fsize f) (files m);
  mf_total : foldr Z.add 0 (map fsize (files m)) < 2 ^ 64;
  mf_bits : 0 < optimal_num_bits (Z.max (zlen (files m)) 100);
}.

Lemma add_both_eq fs p h : filter_wf p → filter_wf h →
  0 ≤ num_elements p → num_elements p + zlen fs < 2 ^ 64 →
  0 ≤ num_elements h → num_elements h + zlen fs < 2 ^ 64 →
  ∃ p' h', for_each (E:=BloomError) fs
    (λ '(paths, hashes) file,
      paths ← add checked paths (path file);
      hashes ← add checked hashes (content_hash file);
      mret (paths, hashes)) (p, h) = Ok (p', h') ∧
    add_all checked (E:=BloomError) p (map path fs) = Ok p' ∧
    add_all checked (E:=BloomError) h (map content_hash fs) = Ok h'.
Proof.
  unfold add_all. revert p h. induction fs as [|f fs IH]; intros p h Hp Hh Hp0 Hpn Hh0 Hhn; [by exists p, h|].
  rewrite zlen_cons in *. pose proof (zlen_nonneg fs). cbn [for_each map].
  destruct (add_eq checked (E:=BloomError) p (path f) Hp ltac:(lia)) as (p1 & -> & Hp1 & _ & Hn1 & _).
  destruct (add_eq checked (E:=BloomError) h (content_hash f) Hh ltac:(lia)) as (h1 & -> & Hh1 & _ & Hm1 & _).
  cbn [mbind outcome_bind mret outcome_ret]. apply IH; try done; lia.
Qed.

(** A summary has all paths and hashes of its manifest. *)
Lemma from_manifest_eq now m device root : manifest_fits m →
  ∃ s, from_manifest checked now m device root = Ok s ∧ device_id s = device ∧ root_path s = root ∧
    filter_wf (path_filter s) ∧ filter_wf (hash_filter s) ∧
    (∀ f, f ∈ files m → contains (E:=BloomError) (path_filter s) (path f) = Ok true ∧
       contains (E:=EngineError) (path_filter s) (path f) = Ok true ∧
       contains (E:=EngineError) (hash_filter s) (content_hash f) = Ok true).
Proof.
  intros [Hc Hs Ht Hb]. unfold from_manifest. pose proof (zlen_nonneg (files m)) as Hl.
  rewrite sum_u64_exact by (done || lia || by apply Forall_map). cbn [mbind outcome_bind].
  destruct (bloom_new_wf _ Hb) as [Hw Hfresh].
  destruct (add_both_eq (files m) (bloom_new (Z.max (zlen (files m)) 100)) (bloom_new (Z.max (zlen (files m)) 100)))
    as (p & h & -> & Hp & Hh); [done|done|cbn; lia..|]. cbn [mbind outcome_bind].
  eexists. split; [done|]. cbn [device_id root_path path_filter hash_filter].
  assert (∀ items g, zlen items < 2 ^ 64 → add_all checked (E:=BloomError) (bloom_new (Z.max (zlen (files m)) 100)) items = Ok g →
    filter_wf g ∧ ∀ E x, x ∈ items → contains (E:=E) g x = Ok true) as Hadded.
  { intros items g Hi Hg.
    destruct (add_all_eq checked (E:=BloomError) _ items Hw ltac:(done) ltac:(cbn; lia)) as (g' & Hg' & Hwf & Hsh & _ & Hm).
    rewrite Hg in Hg'. injection Hg' as <-. split; [done|]. intros E x Hx. rewrite contains_eq by done. f_equal.
    apply forallb_forall. setoid_rewrite <-list_elem_of_In. intros q Hq.
    assert (0 ≤ q) by (apply list_elem_of_fmap in Hq as (i & -> & _); by apply position_range).
    rewrite Hm by done. rewrite bool_decide_true; [done|]. apply list_elem_of_bind. exists x.
    rewrite (positions_shape _ _ _ Hsh) in Hq. done. }
  destruct (Hadded (map path (files m)) p) as [Hwp Hcp]; [by unfold zlen; rewrite length_map|done|].
  destruct (Hadded (map content_hash (files m)) h) as [Hwh Hch]; [by unfold zlen; rewrite length_map|done|].
  split_and!; try done. intros f Hf. split_and!; [apply Hcp|apply Hcp|apply Hch]; by apply list_elem_of_fmap_2.
Qed.

(** The suspected paths: the local ones that the filter rejects. *)
Lemma find_suspected_eq g fs : filter_wf g → ∃ ps, find_suspected g fs = Ok ps ∧
  ∀ p, p ∈ ps ↔ p ∈ map path fs ∧ contains (E:=BloomError) g p = Ok false.
Proof.
  intros Hg. induction fs as [|f fs (ps & IH & Hps)].
  { exists []. split; [done|]. intros p. split; [by intros ?%elem_of_nil|by intros [?%elem_of_nil _]]. }
  cbn [find_suspected map]. rewrite IH. rewrite (contains_eq g (path f)) by done. cbn [mbind outcome_bind].
  eexists. split; [done|]. intros p.
  assert (contains (E:=BloomError) g (path f) = Ok (forallb (marked (bits g)) (positions g (path f)))) as Hc
    by by apply contains_eq.
  destruct (forallb _ _); rewrite ?elem_of_cons, Hps, ?elem_of_cons.
  - split; [intros [? ?]; auto|]. intros [[->|Hp] Hq]; [congruence|done].
  - split; [intros [->|[? ?]]; auto|]. intros [[->|Hp] Hq]; auto.
Qed.

Lemma file_details_empty (ps : list string) (ms : gmap PathBuf Manifest) :
  (∀ r m f, ms !! r = Some m → f ∈ files m → path f ∉ ps) → file_details ps ms = ∅.
Proof.
  intros Hms. unfold file_details.
  assert (∀ f, f ∈ concat (map (λ m, files m.2) (map_iter ms)) → path f ∉ ps) as Hall.
  { intros f Hf. apply list_elem_of_In, in_concat in Hf as (l & Hl & Hf).
    apply in_map_iff in Hl as ([r m] & <- & Hr). apply list_elem_of_In, elem_of_map_iter in Hr.
    apply list_elem_of_In in Hf. by eapply Hms. }
  induction (concat _) as [|f l IH]; [done|]. cbn [foldl].
  rewrite bool_decide_false by (apply Hall; left). apply IH. intros g Hg. apply Hall. by right.
Qed.

(** What a peer answers to a summary. *)
Lemma summary_response_eq now s id self m : manifest_fits m → filter_wf (path_filter s) →
  manifests self !! root_path s = Some m → is_Some (serialize_manifest m) → is_Some (serialize_summary s) →
  ∃ self' (ps : list string), handle_message checked now (SendSummary s id) self = (self',
      Ok (Some (if negb (bool_decide (ps = [])) then RequestDiffDetails ps id
                else Acknowledge id true (Some "No differences found"%string)))) ∧
    ∀ p, p ∈ ps ↔ p ∈ map path (files m) ∧ contains (E:=BloomError) (path_filter s) p = Ok false.
Proof.
  intros Hm Hs Hr [full Hfull] [short Hshort].
  destruct (from_manifest_eq now m (own_device_id self) (root_path s) Hm) as (local & Hlocal & _).
  destruct (find_suspected_eq (path_filter s) (files m) Hs) as (ps & Hps & Hin).
  eexists _, ps. split; [|exact Hin]. unfold handle_message, handle_summary_response.
  unfold mbind, st_bind, modify_st, get_st, lift. cbn [manifests set_progress set_summaries own_device_id].
  rewrite Hr, Hlocal, Hps, Hfull, Hshort. done.
Qed.

(** Two peers with a manifest of the same folder, the second with that one
    only, exchange summaries. Every path that is then reported really is missing
    at the other side (the filter has no false negatives), but it is a path that
    only the reporting side has, so the request for its details is answered with
    none; and if the second has all paths of the first, no difference is found,
    whatever the contents of the files. *)
Theorem exchange_finds_nothing now id root m m' (A B : DiffProtocolHandler) :
  manifests A !! root = Some m → manifests B = {[ root := m' ]} → manifest_fits m → manifest_fits m' →
  is_Some (serialize_manifest m) → (∀ s, is_Some (serialize_summary s)) →
  ∃ summary A' reply,
    handle_message checked now (RequestSummary root id) B = (B, Ok (Some (SendSummary summary id))) ∧
    handle_message checked now (SendSummary summary id) A = (A', Ok (Some reply)) ∧
    ((∃ ps, reply = RequestDiffDetails ps id ∧
        (∀ p, p ∈ ps → p ∈ map path (files m) ∧ p ∉ map path (files m')) ∧
        handle_message checked now reply B = (B, Ok (Some (SendDiffDetails ∅ id)))) ∨
     reply = Acknowledge id true (Some "No differences found"%string)) ∧
    (map path (files m) ⊆ map path (files m') →
     reply = Acknowledge id true (Some "No differences found"%string)).
Proof.
  intros HA HB Hm Hm' Hser Hsum.
  destruct (from_manifest_eq now m' (own_device_id B) root Hm') as (s & Hs & _ & Hroot & Hw & _ & Hin).
  assert (∀ p, p ∈ map path (files m') → contains (E:=BloomError) (path_filter s) p = Ok true) as Hin'.
  { intros p (f & -> & Hf)%list_elem_of_fmap. by apply Hin. }
  destruct (summary_response_eq now s id A m Hm Hw) as (A' & ps & Hreply & Hps); [by rewrite Hroot|done|done|].
  assert (∀ p, p ∈ ps → p ∈ map path (files m) ∧ p ∉ map path (files m')) as Hdiff.
  { intros p [Hp Hc]%Hps. split; [done|]. intros Hp'. rewrite (Hin' p Hp') in Hc. discriminate. }
  exists s, A'. eexists. split_and!; [|exact Hreply| |].
  - cbn [handle_message]. unfold handle_summary_request, mbind, st_bind, get_st, lift.
    rewrite HB, lookup_singleton_eq, Hs. done.
  - case_bool_decide as Hempty; [by right|]. left. exists ps. split_and!; [done|done|].
    cbn [negb handle_message]. unfold handle_details_request, mbind, st_bind, get_st, mret, st_ret.
    rewrite HB, file_details_empty; [done|]. intros r n f. rewrite lookup_singleton_Some.
    intros [<- <-] Hf Hp. apply (proj2 (Hdiff _ Hp)). by apply list_elem_of_fmap_2.
  - intros Hsub. rewrite bool_decide_true; [done|]. apply elem_of_nil_inv. intros p Hp.
    destruct (Hdiff p Hp) as [Hl Hr]. by apply Hr, Hsub.
Qed.

(** *** Stages *)

(** What happens to a handler. *)
Inductive event :=
  | Start (now millis : Z) (peer : string) (root : PathBuf) (m : Manifest)
  | Receive (now : Z) (msg : DiffProtocolMessage).
Definition on_event (self : DiffProtocolHandler) (e : event) : DiffProtocolHandler :=
  match e with
  | Start now millis peer root m => (start_diff now millis peer root m self).1
  | Receive now msg => (handle_message checked now msg self).1
  end.

Definition visited (s : DiffStage) : Prop :=
  match s with StageInitializing | ComparingManifests | StageCompleted => True | _ => False end.
Definition stages_ok (h : DiffProtocolHandler) : Prop := map_Forall (λ _ p, visited (stage p)) (progress h).

Lemma stages_alter f k (m : gmap string DiffProgress) : (∀ p, visited (stage p) → visited (stage (f p))) →
  map_Forall (λ _ p, visited (stage p)) m → map_Forall (λ _ p, visited (stage p)) (alter f k m).
Proof.
  intros Hf Hm k' p. rewrite lookup_alter_Some. intros [(-> & q & Hq & ->)|[_ Hq]].
  - apply Hf. by eapply Hm.
  - by eapply Hm.
Qed.
Lemma stages_fmap f (m : gmap string DiffProgress) : (∀ p, visited (stage p) → visited (stage (f p))) →
  map_Forall (λ _ p, visited (stage p)) m → map_Forall (λ _ p, visited (stage p)) (f <$> m).
Proof. intros Hf Hm k p. rewrite lookup_fmap_Some. intros (q & <- & Hq). apply Hf. by eapply Hm. Qed.

Lemma on_event_stages h e : stages_ok h → stages_ok (on_event h e).
Proof.
  intros Hh. destruct e as [now millis peer root m|now msg]; cbn [on_event].
  - by apply map_Forall_insert_2.
  - destruct msg as [root id|s id|ps id|d id|cs id|id ok t]; cbn [handle_message].
    + unfold handle_summary_request, mbind, st_bind, get_st, lift.
      destruct (manifests h !! root); [|done]. by destruct (from_manifest _ _ _ _ _).
    + unfold handle_summary_response, mbind, st_bind, get_st, lift, modify_st.
      cbn [manifests set_progress set_summaries own_device_id progress].
      assert (map_Forall (λ _ p, visited (stage p))
        (alter (at_stage ComparingManifests 25) (device_id s) (progress h))) as Hc by by apply stages_alter.
      destruct (manifests h !! root_path s); [|done]. destruct (from_manifest _ _ _ _ _); [|done..].
      destruct (find_suspected _ _); [|done..]. destruct (ok_or _ (serialize_manifest _)); [|done..].
      destruct (ok_or _ (serialize_summary _)); [|done..]. by apply stages_alter.
    + done.
    + apply stages_fmap; [|done]. intros p Hp. by case_bool_decide as E; [rewrite E in Hp|].
    + done.
    + apply stages_fmap; [|done]. intros p Hp. by case_bool_decide.
Qed.

(** Whatever a handler does from its creation on, no difference is ever in the
    stage of requesting details: the answer with the details of the files changes
    nothing and asks for nothing. *)
Theorem details_never_processed device es now details id :
  let h := foldl on_event (DiffProtocolHandler_new device) es in
  stages_ok h ∧ handle_message checked now (SendDiffDetails details id) h = (h, Ok None).
Proof.
  intros h. assert (stages_ok h) as Hh.
  { assert (stages_ok (DiffProtocolHandler_new device)) as H0s by apply map_Forall_empty.
    unfold h. revert H0s. generalize (DiffProtocolHandler_new device).
    induction es as [|e es IH]; intros g Hg; [done|]. by apply IH, on_event_stages. }
  split; [done|]. cbn [handle_message]. unfold handle_details_response, mbind, st_bind, modify_st, mret, st_ret.
  f_equal. assert ((λ p, if bool_decide (stage p = RequestingDetails)
    then with_compared (Z.of_nat (size details)) (at_stage TransferringChunks 75 p) else p) <$> progress h = progress h) as ->;
    [|by destruct h].
  rewrite <-(map_fmap_id (progress h)) at 2. apply map_fmap_ext. intros k p Hp.
  rewrite bool_decide_false; [done|]. intros E. specialize (Hh k p Hp). simpl in Hh. by rewrite E in Hh.
Qed.
End exchange.

(** ** Properties of the enhanced synchronisation *)

Section enhanced.
Context `{SipHash, BloomSizes, BloomFormats, Blake3, MapIter} (checked : bool).
Context (index_folder : PathBuf → outcome EngineError Manifest).

Lemma find_changes_none s fs :
  (∀ f, f ∈ fs → contains (E:=EngineError) (path_filter s) (path f) = Ok true ∧
    contains (E:=EngineError) (hash_filter s) (content_hash f) = Ok true) →
  find_changes s fs = Ok ([], zlen fs).
Proof.
  induction fs as [|f fs IH]; intros Hin; [done|]. cbn [find_changes].
  destruct (Hin f) as [-> ->]; [left|]. cbn [mbind outcome_bind].
  rewrite IH by (intros g Hg; apply Hin; by right). cbn. f_equal. f_equal. rewrite zlen_cons. lia.
Qed.

(** The statistics that a transfer reports, as they were. *)
Definition same_transfer (s s' : BloomSession) : Prop :=
  bytes_sent s' = bytes_sent s ∧ files_added s' = files_added s.

Definition formats_succeed (m : Manifest) : Prop :=
  is_Some (serialize_manifest m) ∧ (∀ s, is_Some (serialize_summary s)) ∧ (∀ msg, is_Some (compress_message msg)) ∧
  ∀ s, zlen (default [] (serialize_manifest m)) + zlen (default [] (serialize_summary s)) < 2 ^ 64.

Lemma process_eq s id m self session : active_syncs self !! id = Some session →
  find_changes s (files m) = Ok ([], zlen (files m)) →
  ∃ self', process_bloom_diff_exchange m s id self = (self', Ok []) ∧
    active_syncs self' !! id = Some (set_negatives 0 (zlen (files m)) (set_stage ComparingManifests session)).
Proof.
  intros Hself Hnone. eexists. split.
  - unfold process_bloom_diff_exchange. erewrite st_bind_eq by reflexivity.
    erewrite st_bind_eq by (unfold lift; by rewrite Hnone). cbn beta iota. by erewrite st_bind_eq by reflexivity.
  - cbn [active_syncs on_session]. by rewrite !lookup_alter_eq, Hself.
Qed.

Lemma bloom_phase_eq now millis ms peer folder id m self session :
  active_syncs self !! id = Some session → index_folder folder = Ok m → manifest_fits m → formats_succeed m →
  ∃ self' session', run_bloom_diff_phase checked index_folder now millis ms peer folder id self = (self', Ok []) ∧
    active_syncs self' !! id = Some session' ∧ same_transfer session session' ∧
    true_negatives session' = zlen (files m).
Proof.
  intros Hself Hidx Hm ([full Hfull] & Hsum & Hcomp & Hlt).
  destruct (from_manifest_eq checked now m "remote_device" ["/"; "remote"; "path"]%string Hm)
    as (s & Hs & _ & _ & _ & _ & Hin).
  assert (find_changes s (files m) = Ok ([], zlen (files m))) as Hnone
    by (apply find_changes_none; intros f Hf; by destruct (Hin f Hf) as (_ & ? & ?)).
  destruct (Hsum s) as [short Hshort]. specialize (Hlt s). rewrite Hfull, Hshort in Hlt. cbn in Hlt.
  pose proof (zlen_nonneg full). pose proof (zlen_nonneg short).
  unfold run_bloom_diff_phase. erewrite st_bind_eq by reflexivity.
  erewrite st_bind_eq by (unfold lift; by rewrite Hidx).
  assert (sum_u64 (E:=EngineError) checked 0 (map fsize (files m)) = Ok (0 + foldr Z.add 0 (map fsize (files m))))
    as Htotal by (destruct Hm; apply sum_u64_exact; [by apply Forall_map|lia..]).
  erewrite st_bind_eq by (unfold lift; by rewrite Htotal). erewrite st_bind_eq by reflexivity.
  erewrite st_bind_eq by (unfold lift, simulate_remote_summary_response; by rewrite Hs).
  match goal with |- context [(process_bloom_diff_exchange m s id ≫= _) ?s0] =>
    destruct (process_eq s id m s0 (set_stage ExchangingSummaries session)) as (self1 & Hproc & Hself1) end;
    [cbn [active_syncs set_handler on_session]; by rewrite lookup_alter_eq, Hself|exact Hnone|].
  erewrite st_bind_eq by exact Hproc.
  erewrite st_bind_eq by reflexivity. rewrite Hself1.
  destruct (Hcomp (RequestSummary folder (own_device_id (diff_handler
    (on_session id (set_stage ExchangingSummaries) self)) +:+ "-" +:+ pretty millis))) as [small Hsmall].
  pose proof (zlen_nonneg small).
  eexists _, (set_savings _ _ (set_exchange_time ms _)). split.
  { erewrite st_bind_eq; [done|]. erewrite st_bind_eq by reflexivity. unfold bincode_size. rewrite Hfull, Hshort, Hsmall.
    do 3 (erewrite st_bind_eq by reflexivity). erewrite st_bind_eq by reflexivity.
    unfold lift, mbind, st_bind. rewrite arith_exact; [done|]. unfold saturating_sub. lia. }
  cbn [active_syncs on_session]. rewrite !lookup_alter_eq, Hself1. by split_and!.
Qed.

(** The enhanced synchronisation completes without having transferred anything,
    whatever the peer has: the summary it compares the local folder with is made
    from the local folder. *)
Theorem enhanced_sync_transfers_nothing now millis ms id session m self :
  active_syncs self !! id = Some session → index_folder (bs_folder_path session) = Ok m →
  manifest_fits m → formats_succeed m →
  0 ≤ bytes_sent session < 2 ^ 64 → 0 ≤ files_added session < 2 ^ 64 →
  ∃ self' session', run_enhanced_sync_protocol checked index_folder now millis ms id self = (self', Ok tt) ∧
    active_syncs self' !! id = Some session' ∧ current_stage session' = StageCompleted ∧
    actual_bytes_transferred session' = 0 ∧ same_transfer session session' ∧
    true_negatives session' = zlen (files m).
Proof.
  intros Hself Hidx Hm Hfmt Hsent Hadded.
  destruct (bloom_phase_eq now millis ms (bs_peer_id session) _ id m self session Hself Hidx Hm Hfmt)
    as (self1 & session1 & Hphase & Hself1 & [Eb Ef] & Hneg).
  unfold run_enhanced_sync_protocol. erewrite st_bind_eq by reflexivity.
  erewrite st_bind_eq by (unfold lift; by rewrite Hself).
  erewrite st_bind_eq by exact Hphase.
  assert (run_transfer_phase checked id [] self1 = (on_session id (set_stage TransferringChunks) self1, Ok (0, 0)))
    as Ht by done.
  erewrite st_bind_eq by exact Ht. unfold complete_sync_session. erewrite st_bind_eq by reflexivity.
  erewrite st_bind_eq by reflexivity. cbn [active_syncs on_session].
  rewrite !lookup_alter_eq, Hself1. cbn [fmap option_fmap option_map bytes_sent files_added set_stage fst snd].
  rewrite !Z.add_0_r, Eb, Ef.
  do 2 (erewrite st_bind_eq by (unfold lift; rewrite arith_exact by lia; reflexivity)).
  eexists _, (set_transferred _ _ _ _). split; [done|]. cbn [active_syncs on_session].
  rewrite !lookup_alter_eq, Hself1. split_and!; done.
Qed.
End enhanced.

(** ** Concrete inputs *)

Module Examples.
#[local] Existing Instance RefHash.hash.
#[local] Existing Instance gmap_order.
#[local] Instance sum_hash : SipHash.
Proof.
  refine {| sip seed bs := wrap 64 (seed * 31 + foldr (λ b n, byte_val b + 3 * n) 0 bs) |}.
  intros. by apply wrap_range.
Defined.
#[local] Instance small_sizes : BloomSizes := {| optimal_num_bits _ := 61; optimal_num_hashes _ _ := 2 |}.
#[local] Instance no_formats : BloomFormats :=
  {| debug_format _ := []; serialize_manifest _ := Some []; serialize_summary _ := Some [];
     serialize_message _ := Some []; deserialize_message _ := None; zstd_encode_3 d := Some d;
     zstd_decode_all d := Some d |}.

Definition entry (p h : string) : ManifestEntry :=
  {| path := p; fsize := 3; modified_at := 0; content_hash := h; chunk_hashes := [h]; mode := None |}.
Definition folder (fs : list ManifestEntry) : Manifest :=
  {| folder_id := "docs"; version := 1; files := fs; created_at := 0; manifest_hash := None |}.
Definition ours : Manifest := folder [entry "a" "h1"; entry "b" "h2"].
(** The same paths with other contents, and one more file. *)
Definition theirs : Manifest := folder [entry "a" "x1"; entry "b" "x2"; entry "c" "x3"].
Lemma ours_fits : manifest_fits ours.
Proof. constructor; [done| |done|done]. by repeat constructor. Qed.
Lemma theirs_fits : manifest_fits theirs.
Proof. constructor; [done| |done|done]. by repeat constructor. Qed.

Lemma bloom_exact_witness : ∃ f, add_all true (E:=BloomError) (bloom_new 9) ["a"; "b"]%string = Ok f ∧
  contains (E:=BloomError) f "b" = Ok true.
Proof.
  destruct (bloom_exact true (E:=BloomError) 9 ["a"; "b"]%string) as (f & Hf & _ & _ & Hin); [done|done|].
  exists f. split; [exact Hf|]. apply Hin. right. left.
Defined.

Definition A : DiffProtocolHandler := set_manifests {[ ["r"%string] := ours ]} (DiffProtocolHandler_new "A").
Definition B : DiffProtocolHandler := set_manifests {[ ["r"%string] := theirs ]} (DiffProtocolHandler_new "B").
Lemma exchange_finds_nothing_witness : ∃ summary A',
  handle_message true 5 (RequestSummary ["r"%string] "q") B = (B, Ok (Some (SendSummary summary "q"))) ∧
  handle_message true 5 (SendSummary summary "q") A =
    (A', Ok (Some (Acknowledge "q" true (Some "No differences found"%string)))).
Proof.
  destruct (exchange_finds_nothing true 5 "q" ["r"%string] ours theirs A B) as (s & A' & reply & Hs & Hr & _ & Hnone);
    [apply lookup_singleton_eq|done|apply ours_fits|apply theirs_fits|by eexists|by eexists|].
  exists s, A'. split; [exact Hs|]. rewrite Hr, Hnone; [done|].
  intros p Hp. change (p ∈ ["a"; "b"]%string) in Hp. change (p ∈ ["a"; "b"; "c"]%string).
  rewrite !elem_of_cons in *. destruct Hp as [->|[->|Hp]]; [by left|by right; left|by apply elem_of_nil in Hp].
Defined.

Definition waiting : BloomSession :=
  {| bs_peer_id := "B"; bs_folder_path := ["r"%string]; bs_started_at := 0; current_stage := ExchangingSummaries;
     quic_session_id := None; bytes_sent := 0; files_added := 0; false_positives := 0; true_negatives := 0;
     summary_exchange_time_ms := 0; bytes_saved_by_bloom := 0; bytes_saved_by_compression := 0;
     actual_bytes_transferred := 0 |}.
Definition engine0 : BloomSyncEngine := {| diff_handler := A; active_syncs := {[ "s"%string := waiting ]} |}.
Lemma formats_ok : formats_succeed ours.
Proof. split_and!; by eauto. Qed.
Lemma enhanced_sync_transfers_nothing_witness : ∃ self' session',
  run_enhanced_sync_protocol true (λ _, Ok ours) 1 2 3 "s" engine0 = (self', Ok tt) ∧
  active_syncs self' !! "s"%string = Some session' ∧ bytes_sent session' = 0.
Proof.
  destruct (enhanced_sync_transfers_nothing true (λ _, Ok ours) 1 2 3 "s" waiting ours engine0)
    as (self' & session' & Hrun & Hs & _ & _ & [Hb _] & _);
    [apply lookup_singleton_eq|done|apply ours_fits|apply formats_ok|done|done|].
  exists self', session'. split_and!; [exact Hrun|exact Hs|exact Hb].
Defined.
End Examples.
