(* ===== verification/Resilience.v ===== *)
(** Failures of connections: landro-quic/src/recovery.rs, with the errors of
    landro-quic/src/errors.rs.

    The circuit breaker, the client that retries, and the health monitor. Times
    are milliseconds of the monotonic clock, given where the code reads it. What
    a connection attempt, an operation or a ping gives is an input. The delay
    between attempts is a float with random jitter and is not modelled. *)

From S2P Require Import Prelude.
From Stdlib Require Import ZArith Lia.
From stdpp Require Import base option list gmap sets strings pretty numbers sorting.
Open Scope Z_scope.

(** ** Errors *)

(** Errors of other crates are their text. *)
Inductive QuicError :=
  | QIo (e : string)
  | QConnection (e : string)
  | QConnect (e : string)
  | QTlsConfig (s : string)
  | QStream (s : string)
  | QProtocol (s : string)
  | QTimeout
  | QHandshakeTimeout (timeout_secs : Z)
  | QHandshakeFailed (reason : string)
  | QVersionMismatch (details : string)
  | QAuthenticationFailed (reason : string)
  | QServerAlreadyRunning
  | QCrypto (e : string)
  | QPairingError (s : string).

(** What the errors print. *)
Definition quic_error_text (e : QuicError) : string :=
  match e with
  | QIo e => "IO error: " +:+ e
  | QConnection e => "Connection error: " +:+ e
  | QConnect e => "Connect error: " +:+ e
  | QTlsConfig s => "TLS configuration error: " +:+ s
  | QStream s => "Stream error: " +:+ s
  | QProtocol s => "Protocol error: " +:+ s
  | QTimeout => "Timeout"
  | QHandshakeTimeout n => "Handshake timeout after " +:+ pretty n +:+ " seconds"
  | QHandshakeFailed reason => "Handshake failed: " +:+ reason
  | QVersionMismatch details => "Version negotiation failed: " +:+ details
  | QAuthenticationFailed reason => "Authentication failed: " +:+ reason
  | QServerAlreadyRunning => "Server already running"
  | QCrypto e => "Crypto error: " +:+ e
  | QPairingError s => "Pairing error: " +:+ s
  end.
Definition is_recoverable (e : QuicError) : bool :=
  match e with
  | QTimeout | QHandshakeTimeout _ => true
  | QIo _ => true
  | QConnect _ => true
  | QConnection _ => false
  | QVersionMismatch _ => false
  | QAuthenticationFailed _ => false
  | QHandshakeFailed _ => false
  | _ => false
  end.

(** [Clone]: errors of other crates become protocol errors. *)
Definition clone_error (e : QuicError) : QuicError :=
  match e with
  | QIo e => QProtocol ("IO error: " +:+ e)
  | QConnection e => QProtocol ("Connection error: " +:+ e)
  | QConnect e => QProtocol ("Connect error: " +:+ e)
  | QCrypto e => QProtocol ("Crypto error: " +:+ e)
  | e => e
  end.

Record RetryPolicy := {
  max_attempts : Z;
  base_delay : Z;
  max_delay : Z;
}.
Definition RetryPolicy_default : RetryPolicy :=
  {| max_attempts := 3; base_delay := 500; max_delay := 30000 |}.
Definition aggressive : RetryPolicy := {| max_attempts := 5; base_delay := 100; max_delay := 10000 |}.
Definition conservative : RetryPolicy := {| max_attempts := 2; base_delay := 1000; max_delay := 60000 |}.

(** ** The circuit breaker *)

Inductive CircuitState := Closed | Open | HalfOpen.
#[export] Instance CircuitState_eq_dec : EqDecision CircuitState.
Proof. solve_decision. Defined.

Record CircuitBreaker := {
  state : CircuitState;
  failure_count : Z;
  success_count : Z;
  last_failure : option Z;
  failure_threshold : Z;
  success_threshold : Z;
  timeout : Z;
}.

Definition breaker_new (failure_threshold success_threshold timeout : Z) : CircuitBreaker :=
  {| state := Closed; failure_count := 0; success_count := 0; last_failure := None;
     failure_threshold := failure_threshold; success_threshold := success_threshold; timeout := timeout |}.

(** The state, the counts and the time of the last failure. *)
Definition put (s : CircuitState) (failures successes : Z) (last : option Z) (b : CircuitBreaker) :
    CircuitBreaker :=
  {| state := s; failure_count := failures; success_count := successes; last_failure := last;
     failure_threshold := failure_threshold b; success_threshold := success_threshold b;
     timeout := timeout b |}.

(** [elapsed] of an [Instant]: not negative. *)
Definition elapsed (now t : Z) : Z := Z.max 0 (now - t).

Definition allow_request (now : Z) (b : CircuitBreaker) : CircuitBreaker * bool :=
  match state b with
  | Closed => (b, true)
  | Open =>
      match last_failure b with
      | Some t =>
          if timeout b <? elapsed now t
          then (put HalfOpen (failure_count b) 0 (last_failure b) b, true)
          else (b, false)
      | None => (b, true)
      end
  | HalfOpen => (b, true)
  end.

Section breaker.
Context (checked : bool).

Definition record_success {E} (b : CircuitBreaker) : outcome E CircuitBreaker :=
  match state b with
  | Closed => mret (put Closed 0 (success_count b) (last_failure b) b)
  | HalfOpen =>
      n ← arith checked 32 (success_count b + 1);
      mret (if success_threshold b <=? n then put Closed 0 0 None b
            else put HalfOpen (failure_count b) n (last_failure b) b)
  | Open => mret (put Closed 0 0 None b)
  end.

Definition record_failure {E} (now : Z) (b : CircuitBreaker) : outcome E CircuitBreaker :=
  match state b with
  | Closed =>
      n ← arith checked 32 (failure_count b + 1);
      mret (put (if failure_threshold b <=? n then Open else Closed) n (success_count b) (Some now) b)
  | HalfOpen => mret (put Open (failure_count b) 0 (Some now) b)
  | Open => mret (put Open (failure_count b) (success_count b) (Some now) b)
  end.
End breaker.

(** ** The client that retries *)

(** A socket address. *)
Abbreviation Addr := string.

Record RecoveryClient := {
  circuit_breakers : gmap Addr CircuitBreaker;
  retry_policy : RetryPolicy;
}.
Definition client_new (policy : RetryPolicy) : RecoveryClient :=
  {| circuit_breakers := ∅; retry_policy := policy |}.
Definition set_breakers (x : gmap Addr CircuitBreaker) (c : RecoveryClient) : RecoveryClient :=
  {| circuit_breakers := x; retry_policy := retry_policy c |}.

Section client.
Context (checked : bool) {T : Type}.
Abbreviation client := (st RecoveryClient QuicError).

(** [if let Some(breaker) = breakers.get_mut(&addr) { .. }]. *)
Definition on_breaker (addr : Addr) (f : CircuitBreaker → outcome QuicError CircuitBreaker) : client unit :=
  self ← get_st;
  match circuit_breakers self !! addr with
  | Some breaker =>
      breaker ← lift (f breaker);
      modify_st (λ c, set_breakers (<[addr := breaker]> (circuit_breakers c)) c)
  | None => mret tt
  end.

(** The loop over the attempts; [tries] has, for each attempt, when it ends and
    what it gives. Running out of inputs is the end of the loop too. *)
Fixpoint attempts (addr : Addr) (n : nat) (tries : list (Z * (T + QuicError)))
    (last_error : option QuicError) : client T :=
  match n, tries with
  | S n, (now, inl result) :: _ =>
      _ ← on_breaker addr (record_success checked);
      mret result
  | S n, (now, inr e) :: tries =>
      _ ← on_breaker addr (record_failure checked now);
      if negb (is_recoverable e) then lift (Err (clone_error e))
      else attempts addr n tries (Some (clone_error e))
  | _, _ => lift (Err (default (QProtocol "All attempts failed") last_error))
  end.

Definition with_retry (addr : Addr) (tries : list (Z * (T + QuicError))) : client T :=
  self ← get_st;
  attempts addr (Z.to_nat (max_attempts (retry_policy self))) tries None.

Definition connect_with_recovery (now : Z) (addr : Addr) (tries : list (Z * (T + QuicError))) : client T :=
  self ← get_st;
  let breaker := default (breaker_new 3 2 30000) (circuit_breakers self !! addr) in
  let '(breaker, allowed) := allow_request now breaker in
  _ ← modify_st (λ c, set_breakers (<[addr := breaker]> (circuit_breakers c)) c);
  if negb allowed then lift (Err (QProtocol "Circuit breaker open"))
  else attempts addr (Z.to_nat (max_attempts (retry_policy self))) tries None.
End client.

Definition get_circuit_states (c : RecoveryClient) : gmap Addr CircuitState := state <$> circuit_breakers c.
Definition reset_circuit_breaker (addr : Addr) (c : RecoveryClient) : RecoveryClient :=
  set_breakers (base.delete addr (circuit_breakers c)) c.

(** ** The health monitor *)

Record ConnectionHealth := {
  connection : string; (* the connection that was registered *)
  last_ping : option Z;
  ping_failures : Z;
  avg_rtt : option Z;
}.
Abbreviation Monitor := (gmap string ConnectionHealth).

(** What checking a connection gives: it is closed, or a stream opens after some
    time, or not. Times in nanoseconds. *)
Inductive ping := Gone | Pong (now rtt : Z) | Failed (e : QuicError).

Section monitor.
Context (checked : bool) `{MapIter}.
Abbreviation monitor := (st Monitor QuicError).

Definition monitor_connection (id : string) (c : string) : monitor unit :=
  modify_st (<[id := {| connection := c; last_ping := None; ping_failures := 0; avg_rtt := None |}]>).
Definition unmonitor_connection (id : string) : monitor unit := modify_st (base.delete id).

Definition ping_connection (id : string) (result : ping) : monitor unit :=
  connections ← get_st;
  match connections !! id with
  | None => mret tt
  | Some health =>
      match result with
      | Gone => modify_st (base.delete id)
      | Pong now rtt =>
          modify_st (<[id :=
            {| connection := connection health; last_ping := Some now; ping_failures := 0;
               avg_rtt := Some (match avg_rtt health with
                                | Some existing => wrap 64 ((existing + rtt) / 2)
                                | None => rtt
                                end) |}]>)
      | Failed e =>
          n ← lift (arith checked 32 (ping_failures health + 1));
          _ ← (if 3 <=? n then modify_st (base.delete id)
               else modify_st (<[id := {| connection := connection health; last_ping := last_ping health;
                                          ping_failures := n; avg_rtt := avg_rtt health |}]>));
          lift (Err e)
      end
  end.

(** One round of the background task: errors are logged. *)
Fixpoint check_connections (ids : list string) (results : string → ping) (m : Monitor) :
    outcome QuicError Monitor :=
  match ids with
  | [] => Ok m
  | id :: ids =>
      match ping_connection id (results id) m with
      | (m, Panic) => Panic
      | (m, _) => check_connections ids results m
      end
  end.
Definition check_all_connections (results : string → ping) (m : Monitor) : outcome QuicError Monitor :=
  check_connections (map fst (map_iter m)) results m.

Definition get_health_stats (m : Monitor) : gmap string (Z * option Z) :=
  (λ h, (ping_failures h, avg_rtt h)) <$> m.
End monitor.

(** ** Properties of the breaker *)

Inductive result := Success | Failure (now : Z).

(** How many failures there were since the last success. *)
Definition failures_since (rs : list result) : Z :=
  foldl (λ n r, match r with Success => 0 | Failure _ => n + 1 end) 0 rs.
Definition last_failure_of (rs : list result) : option Z :=
  foldl (λ l r, match r with Success => l | Failure now => Some now end) None rs.

Section breaker_properties.
Context (checked : bool).

Definition record {E} (b : CircuitBreaker) (r : result) : outcome E CircuitBreaker :=
  match r with Success => record_success checked b | Failure now => record_failure checked now b end.
Definition record_all {E} (rs : list result) (b : CircuitBreaker) : outcome E CircuitBreaker :=
  for_each rs record b.

Lemma failures_since_snoc rs r :
  failures_since (rs ++ [r]) = match r with Success => 0 | Failure _ => failures_since rs + 1 end.
Proof. unfold failures_since. by rewrite foldl_app. Qed.
Lemma failures_since_nonneg rs : 0 ≤ failures_since rs.
Proof.
  induction rs as [|r rs IH] using rev_ind; [done|]. rewrite failures_since_snoc. destruct r; lia.
Qed.
Lemma record_all_snoc {E} rs r b : record_all (E:=E) (rs ++ [r]) b = record_all rs b ≫= λ b, record b r.
Proof. unfold record_all. rewrite for_each_app. destruct (for_each _ _ b) as [b'| |]; [|done..].
  cbn. by destruct (record b' r). Qed.

(** The limits of a breaker, which no operation changes. *)
Definition limits (b : CircuitBreaker) : Z * Z * Z := (failure_threshold b, success_threshold b, timeout b).

Lemma breaker_trace {E} ft st to rs : 1 ≤ ft < 2 ^ 32 →
  ∃ b, record_all (E:=E) rs (breaker_new ft st to) = Ok b ∧ limits b = (ft, st, to) ∧
    state b = (if ft <=? failures_since rs then Open else Closed) ∧
    failure_count b = Z.min ft (failures_since rs) ∧
    (ft ≤ failures_since rs → last_failure b = last_failure_of rs).
Proof.
  intros Hft. induction rs as [|r rs (b & Hrun & Hl & Hs & Hn & Ht)] using rev_ind.
  { exists (breaker_new ft st to). cbn. rewrite (proj2 (Z.leb_gt _ _)) by lia. split_and!; try done; lia. }
  rewrite record_all_snoc, Hrun, failures_since_snoc. cbn [mbind outcome_bind].
  pose proof (failures_since_nonneg rs). injection Hl as E1 E2 E3.
  destruct r as [|now]; cbn [record].
  - unfold record_success. rewrite Hs. rewrite (proj2 (Z.leb_gt ft 0)) by lia.
    destruct (ft <=? failures_since rs); eexists; (split; [done|]); unfold limits; cbn; rewrite E1, E2, E3;
      split_and!; try done; lia.
  - unfold record_failure, last_failure_of. rewrite Hs, foldl_app. cbn [foldl].
    destruct (Z.leb_spec ft (failures_since rs)) as [Hge|Hlt].
    + eexists. split; [done|]. unfold limits. cbn. rewrite E1, E2, E3, Hn.
      rewrite (proj2 (Z.leb_le _ _)) by lia. split_and!; try done; lia.
    + rewrite arith_exact by lia. cbn [mbind outcome_bind mret outcome_ret]. eexists. split; [done|].
      unfold limits. cbn. rewrite E1, E2, E3, Hn, !Z.min_r by lia.
      split_and!; try done; lia.
Qed.

(** Probation: a half-open breaker. *)
Lemma probation {E} n b rs : state b = HalfOpen → success_count b = n → 0 ≤ n < success_threshold b →
  success_threshold b < 2 ^ 32 →
  Forall (λ r, r = Success) rs →
  ∃ b', record_all (E:=E) rs b = Ok b' ∧ limits b' = limits b ∧
    state b' = (if success_threshold b <=? n + zlen rs then Closed else HalfOpen).
Proof.
  intros Hs Hn Hr Hst Hrs. revert b n Hs Hn Hr Hst. induction Hrs as [|r rs -> Hrs IH]; intros b n Hs Hn Hr Hst.
  { exists b. rewrite zlen_nil, (proj2 (Z.leb_gt _ _)) by lia. done. }
  unfold record_all. cbn [for_each record]. unfold record_success at 1. rewrite Hs, Hn.
  rewrite arith_exact by lia. cbn [mbind outcome_bind mret outcome_ret]. rewrite zlen_cons.
  pose proof (zlen_nonneg rs).
  destruct (Z.leb_spec (success_threshold b) (n + 1)) as [Hge|Hlt].
  - rewrite (proj2 (Z.leb_le _ _)) by lia.
    assert (∀ b', state b' = Closed → ∃ b'', for_each (E:=E) rs record b' = Ok b'' ∧ limits b'' = limits b' ∧ state b'' = Closed) as Hc.
    { clear -Hrs. induction Hrs as [|r rs -> Hrs IH]; intros b' Hb'; [by exists b'|].
      cbn [for_each record]. unfold record_success at 1. rewrite Hb'. cbn [mbind outcome_bind mret outcome_ret].
      destruct (IH (put Closed 0 (success_count b') (last_failure b') b')) as (b'' & ? & ? & ?); [done|].
      by exists b''. }
    destruct (Hc (put Closed 0 0 None b)) as (b'' & ? & ? & ?); [done|]. by exists b''.
  - destruct (IH (put HalfOpen (failure_count b) (n + 1) (last_failure b) b) (n + 1)) as (b' & Hrun & Hl & Hs');
      [done|done|cbn; lia|done|].
    exists b'. split_and!; [done|done|]. rewrite Hs'. cbn [success_threshold put]. f_equal.
    by replace (n + 1 + zlen rs) with (n + (1 + zlen rs)) by lia.
Qed.

(** A breaker that is not asked is open exactly when the failures since the
    last success have reached its threshold. An open breaker rejects requests
    until its timeout has passed since the last failure; then it lets them
    through on probation: it closes after the given number of successes in a
    row, and a failure before that opens it again. *)
Theorem breaker_spec {E} ft st to rs : 1 ≤ ft < 2 ^ 32 → 1 ≤ st < 2 ^ 32 →
  ∃ b, record_all (E:=E) rs (breaker_new ft st to) = Ok b ∧
    (state b = Open ↔ ft ≤ failures_since rs) ∧ (state b = Closed ↔ failures_since rs < ft) ∧
    ∀ t now, state b = Open → last_failure_of rs = Some t →
      (now ≤ t + to → 0 ≤ to → allow_request now b = (b, false)) ∧
      (t + to < now → 0 ≤ to → ∃ b1, allow_request now b = (b1, true) ∧ state b1 = HalfOpen ∧
         ∀ ss, Forall (λ r, r = Success) ss → ∃ b2, record_all (E:=E) ss b1 = Ok b2 ∧
           state b2 = (if st <=? zlen ss then Closed else HalfOpen) ∧
           (zlen ss < st → ∀ later, ∃ b3, record_failure (E:=E) checked later b2 = Ok b3 ∧
              state b3 = Open ∧ last_failure b3 = Some later)).
Proof.
  intros Hft Hst. destruct (breaker_trace (E:=E) ft st to rs Hft) as (b & Hrun & Hl & Hs & _ & Ht).
  injection Hl as E1 E2 E3. exists b. split; [done|].
  rewrite Hs. split_and!; [destruct (Z.leb_spec ft (failures_since rs)); split; intros ?; (done || lia)..|].
  intros t now Hopen Hlast. destruct (Z.leb_spec ft (failures_since rs)) as [Hge|]; [|done].
  specialize (Ht Hge). rewrite Hlast in Ht. unfold allow_request. rewrite Hs, Ht, E3. unfold elapsed. split.
  - intros Hnow Hto. by rewrite (proj2 (Z.ltb_ge _ _)) by lia.
  - intros Hnow Hto. rewrite (proj2 (Z.ltb_lt _ _)) by lia. eexists. split_and!; [done|done|].
    intros ss Hss.
    destruct (probation (E:=E) 0 (put HalfOpen (failure_count b) 0 (Some t) b) ss) as (b2 & Hr2 & Hl2 & Hs2);
      [done|done|cbn; lia|cbn; lia|done|].
    exists b2. rewrite Hs2. cbn [success_threshold put]. rewrite E2, Z.add_0_l. split_and!; [done|done|].
    intros Hlt later. rewrite (proj2 (Z.leb_gt _ _)) in Hs2 by (cbn; lia).
    unfold record_failure. rewrite Hs2. by eexists.
Qed.
End breaker_properties.

(** ** Properties of the client *)

Section client_properties.
Context (checked : bool) {T : Type}.

(** The failures that a list of attempts begins with, and all of which may be
    tried again. *)
Definition retried (tries : list (Z * (T + QuicError))) : Prop :=
  Forall (λ a, ∃ e, a.2 = inr e ∧ is_recoverable e = true) tries.

(** A breaker whose counters are within its limits. *)
Record breaker_ok (b : CircuitBreaker) : Prop := {
  bo_thresholds : 1 ≤ failure_threshold b < 2 ^ 32 ∧ 1 ≤ success_threshold b < 2 ^ 32;
  bo_failures : 0 ≤ failure_count b ∧ (state b = Closed → failure_count b < failure_threshold b);
  bo_successes : 0 ≤ success_count b ∧ (state b = HalfOpen → success_count b < success_threshold b);
  bo_last : state b = Open → is_Some (last_failure b);
}.
Definition client_ok (c : RecoveryClient) : Prop := map_Forall (λ _ b, breaker_ok b) (circuit_breakers c).

Ltac ok_breaker := constructor; cbn; try done; try lia; try (split; [lia|intros; first [done|lia]]); by eauto.

Lemma breaker_new_ok : breaker_ok (breaker_new 3 2 30000).
Proof. by constructor. Qed.
Lemma record_ok {E} b r : breaker_ok b → ∃ b', record (E:=E) checked b r = Ok b' ∧ breaker_ok b'.
Proof.
  intros [Ht [Hf0 Hf] [Hs0 Hs] Hl]. destruct r as [|now]; cbn [record].
  - unfold record_success. destruct (state b) eqn:Hst; [eexists; split; [done|]; ok_breaker..|].
    specialize (Hs eq_refl). rewrite arith_exact by lia. eexists. split; [done|].
    destruct (Z.leb_spec (success_threshold b) (success_count b + 1)); ok_breaker.
  - unfold record_failure. destruct (state b) eqn:Hst; [|eexists; split; [done|]; ok_breaker..].
    specialize (Hf eq_refl). rewrite arith_exact by lia. eexists. split; [done|].
    destruct (Z.leb_spec (failure_threshold b) (failure_count b + 1)); ok_breaker.
Qed.
Lemma allow_ok now b : breaker_ok b → breaker_ok (allow_request now b).1.
Proof.
  intros Hb. unfold allow_request. destruct (state b) eqn:Hs; [done| |done].
  destruct (last_failure b) eqn:Hl; [|done]. case_if; [|done].
  destruct Hb as [Ht [Hf0 Hf] [Hs0 Hsu] _]. ok_breaker.
Qed.

(** One result is recorded, in the breaker of the address only. *)
Lemma on_breaker_eq addr r c : client_ok c →
  ∃ c', on_breaker addr (λ b, record checked b r) c = (c', Ok tt) ∧ client_ok c' ∧
    retry_policy c' = retry_policy c ∧
    (∀ b, circuit_breakers c !! addr = Some b → ∃ b', record (E:=QuicError) checked b r = Ok b' ∧
       circuit_breakers c' !! addr = Some b') ∧
    (∀ other, other ≠ addr → circuit_breakers c' !! other = circuit_breakers c !! other).
Proof.
  intros Hc. unfold on_breaker, mbind, st_bind, get_st, lift, modify_st.
  destruct (circuit_breakers c !! addr) as [b|] eqn:Hb; [|by exists c].
  destruct (record_ok (E:=QuicError) b r (Hc _ _ Hb)) as (b' & Hrec & Hok). rewrite Hrec.
  eexists. split; [done|]. cbn [circuit_breakers set_breakers retry_policy]. split_and!.
  - by apply map_Forall_insert_2.
  - done.
  - intros ? [= <-]. exists b'. by rewrite lookup_insert_eq.
  - intros other Hne. by rewrite lookup_insert_ne.
Qed.

(** *** What the attempts give *)

Definition error_of (a : Z * (T + QuicError)) : option QuicError :=
  match a.2 with inr e => Some (clone_error e) | inl _ => None end.
Definition reported (tries : list (Z * (T + QuicError))) : option QuicError :=
  last tries ≫= error_of.

Lemma attempts_eq addr n tries prev c : client_ok c → length tries = n →
  ∃ c' r, attempts checked addr n tries prev c = (c', r) ∧ client_ok c' ∧
    (∀ other, other ≠ addr → circuit_breakers c' !! other = circuit_breakers c !! other) ∧
    r ≠ Panic ∧
    (∀ a, r = Ok a ↔ ∃ before now after, tries = before ++ (now, inl a) :: after ∧ retried before) ∧
    (∀ e, r = Err e → (∃ before now e' after, tries = before ++ (now, inr e') :: after ∧ retried before ∧
         is_recoverable e' = false ∧ e = clone_error e') ∨
       (retried tries ∧ e = default (default (QProtocol "All attempts failed") prev) (reported tries))).
Proof.
  intros Hc <-. revert prev c Hc. induction tries as [|[now [a|e]] tries IH]; intros prev c Hc; cbn [length attempts].
  - eexists c, _. split_and!; [done|done|done|done| |].
    + intros a. split; [done|]. intros (before & now & after & E & _). by destruct before.
    + intros e [= <-]. right. split; [constructor|done].
  - destruct (on_breaker_eq addr Success c Hc) as (c1 & Hon & Hc1 & _ & _ & Hother).
    erewrite st_bind_eq by exact Hon. eexists c1, (Ok a). split_and!; [done|done|done|done| |done].
    intros a'. split.
    + intros [= <-]. exists [], now, tries. split; [done|constructor].
    + intros (before & now' & after & E & Hb). destruct before as [|x before]; [by injection E as <- <- <-|].
      injection E as <- _. apply Forall_cons in Hb as [(e & He & _) _]. done.
  - destruct (on_breaker_eq addr (Failure now) c Hc) as (c1 & Hon & Hc1 & _ & _ & Hother).
    erewrite st_bind_eq by exact Hon. destruct (is_recoverable e) eqn:Hrec; cbn [negb].
    + destruct (IH (Some (clone_error e)) c1 Hc1) as (c2 & r & Hr & Hc2 & Hother2 & Hnp & Hok & Herr).
      exists c2, r. split_and!; [done|done| |done| |].
      * intros other Hne. by rewrite Hother2, Hother.
      * intros a. rewrite Hok. split.
        -- intros (before & now' & after & -> & Hb). exists ((now, inr e) :: before), now', after.
           split; [done|]. constructor; [by exists e|done].
        -- intros (before & now' & after & E & Hb). destruct before as [|x before]; [done|].
           injection E as <- ->. apply Forall_cons in Hb as [_ Hb]. by exists before, now', after.
      * intros e' He'. destruct (Herr e' He') as [(before & now' & e1 & after & -> & Hb & Hn & ->)|[Hall ->]].
        -- left. exists ((now, inr e) :: before), now', e1, after. split_and!; [done| |done|done].
           constructor; [by exists e|done].
        -- right. split; [constructor; [by exists e|done]|]. unfold reported. rewrite last_cons.
           destruct (last tries) as [[t [a|e2]]|] eqn:El; [|done|done].
           exfalso. apply last_Some_elem_of in El. unfold retried in Hall. rewrite Forall_forall in Hall.
           by destruct (Hall _ El) as (? & ? & _).
    + eexists c1, (Err (clone_error e)). split_and!; [done|done|done|done| |].
      * intros a. split; [done|]. intros (before & now' & after & E & Hb).
        destruct before as [|x before]; [done|]. injection E as <- _.
        apply Forall_cons in Hb as [(e1 & [= <-] & ?) _]. congruence.
      * intros e' [= <-]. left. exists [], now, e, tries. split_and!; [done|constructor|done|done].
Qed.

Definition rejects (now : Z) (b : CircuitBreaker) : Prop := (allow_request now b).2 = false.

(** Connecting to a peer with recovery. While the breaker of the peer rejects
    requests no attempt is made and nothing changes. Otherwise the result is that
    of the first attempt that succeeds or fails for good, if only failures that
    may be tried again come before it, and else the error of the last attempt;
    errors are reported as their clones. No counter overflows, and the breakers of
    the other peers are not touched. *)
Theorem connect_with_recovery_spec now addr (tries : list (Z * (T + QuicError))) c :
  client_ok c → length tries = Z.to_nat (max_attempts (retry_policy c)) →
  let b := default (breaker_new 3 2 30000) (circuit_breakers c !! addr) in
  ∃ c' r, connect_with_recovery checked now addr tries c = (c', r) ∧ client_ok c' ∧ r ≠ Panic ∧
    (∀ other, other ≠ addr → circuit_breakers c' !! other = circuit_breakers c !! other) ∧
    (rejects now b → r = Err (QProtocol "Circuit breaker open") ∧ circuit_breakers c' !! addr = Some b) ∧
    (¬ rejects now b →
      (∀ a, r = Ok a ↔ ∃ before t after, tries = before ++ (t, inl a) :: after ∧ retried before) ∧
      (∀ e, r = Err e →
         (∃ before t e' after, tries = before ++ (t, inr e') :: after ∧ retried before ∧
            is_recoverable e' = false ∧ e = clone_error e') ∨
         (retried tries ∧ e = default (QProtocol "All attempts failed") (reported tries)))).
Proof.
  intros Hc Hlen b. assert (breaker_ok b) as Hb.
  { unfold b. destruct (circuit_breakers c !! addr) as [b0|] eqn:E; [by apply (Hc addr)|apply breaker_new_ok]. }
  unfold connect_with_recovery. erewrite st_bind_eq by reflexivity. fold b. unfold rejects.
  pose proof (allow_ok now b Hb) as Hb1. assert ((allow_request now b).2 = false → (allow_request now b).1 = b) as Hsame
    by (unfold allow_request; repeat case_match; done).
  destruct (allow_request now b) as [b1 allowed]. cbn [fst snd] in *. erewrite st_bind_eq by reflexivity.
  set (c1 := set_breakers (<[addr := b1]> (circuit_breakers c)) c).
  assert (client_ok c1) as Hc1 by by apply map_Forall_insert_2.
  assert (∀ other, other ≠ addr → circuit_breakers c1 !! other = circuit_breakers c !! other) as Hother.
  { intros other Hne. cbn [circuit_breakers c1 set_breakers]. by rewrite lookup_insert_ne. }
  destruct allowed; cbn [negb].
  - destruct (attempts_eq addr _ tries None c1 Hc1 Hlen) as (c' & r & Hr & Hc' & Ho & Hnp & Hok & Herr).
    exists c', r. split_and!; try done. intros other Hne. by rewrite Ho, Hother.
  - eexists c1, _. split_and!; try done. intros _. split; [done|].
    cbn [circuit_breakers c1 set_breakers]. rewrite lookup_insert_eq. by rewrite Hsame.
Qed.

(** *** A peer that fails *)

Definition failures_of (tries : list (Z * (T + QuicError))) : list result := map (λ a, Failure a.1) tries.

Lemma attempts_failing addr n tries prev c b : client_ok c → length tries = n → retried tries →
  circuit_breakers c !! addr = Some b →
  ∃ c' e b', attempts checked addr n tries prev c = (c', Err e) ∧
    record_all checked (E:=QuicError) (failures_of tries) b = Ok b' ∧ circuit_breakers c' !! addr = Some b'.
Proof.
  intros Hc <- Hr. revert prev c b Hc. induction Hr as [|[now r] tries (e & He & Hrec) Hr IH]; intros prev c b Hc Hb.
  { eexists c, _, b. by split_and!. }
  cbn [snd] in He. subst r. cbn [length attempts].
  destruct (on_breaker_eq addr (Failure now) c Hc) as (c1 & Hon & Hc1 & _ & Hrc & _).
  destruct (Hrc b Hb) as (b1 & Hb1 & Hl1). erewrite st_bind_eq by exact Hon. rewrite Hrec. cbn [negb].
  destruct (IH (Some (clone_error e)) c1 b1 Hc1 Hl1) as (c2 & e2 & b2 & Hrun & Hall & Hl2).
  exists c2, e2, b2. split_and!; [done| |done]. unfold record_all, failures_of in *. cbn [map for_each fst].
  by rewrite Hb1.
Qed.

Lemma failures_since_failures tries : failures_since (failures_of tries) = zlen tries.
Proof.
  induction tries as [|a tries IH] using rev_ind; [done|]. unfold failures_of in *.
  rewrite map_app, zlen_app. cbn [map]. rewrite failures_since_snoc, IH. by rewrite zlen_cons, zlen_nil.
Qed.
Lemma last_failure_failures tries : last_failure_of (failures_of tries) = fst <$> last tries.
Proof.
  destruct tries as [|a tries _] using rev_ind; [done|]. unfold last_failure_of, failures_of.
  rewrite map_app, foldl_app, last_snoc. done.
Qed.

(** A peer at which all attempts of one call fail, three at least, is left
    alone: for 30 seconds after the last failure every further call is rejected
    without an attempt, whatever an attempt would have given. *)
Theorem failing_peer_left_alone now addr (tries : list (Z * (T + QuicError))) c :
  client_ok c → circuit_breakers c !! addr = None →
  length tries = Z.to_nat (max_attempts (retry_policy c)) → (3 ≤ length tries)%nat → retried tries →
  ∃ c' e t, connect_with_recovery checked now addr tries c = (c', Err e) ∧ last (map fst tries) = Some t ∧
    ∀ now' (tries' : list (Z * (T + QuicError))), now' ≤ t + 30000 →
      connect_with_recovery checked now' addr tries' c' =
        (c', Err (QProtocol "Circuit breaker open")).
Proof.
  intros Hc Hnone Hlen H3 Hr. unfold connect_with_recovery at 1.
  erewrite st_bind_eq by reflexivity. rewrite Hnone. cbn [default from_option allow_request state breaker_new].
  erewrite st_bind_eq by reflexivity. cbn [negb]. set (b := breaker_new 3 2 30000).
  set (c1 := set_breakers (<[addr := b]> (circuit_breakers c)) c).
  assert (client_ok c1) as Hc1 by (apply map_Forall_insert_2; [apply breaker_new_ok|done]).
  destruct (attempts_failing addr _ tries None c1 b Hc1 Hlen Hr) as (c' & e & b' & Hrun & Hall & Hl);
    [apply lookup_insert_eq|].
  destruct (breaker_trace checked (E:=QuicError) 3 2 30000 (failures_of tries)) as (b2 & Hb2 & Hlim & Hs & _ & Hlast); [lia|].
  fold b in Hb2. rewrite Hall in Hb2. injection Hb2 as <-.
  rewrite failures_since_failures in Hs, Hlast. rewrite (proj2 (Z.leb_le _ _)) in Hs by (unfold zlen; lia).
  specialize (Hlast ltac:(unfold zlen; lia)). rewrite last_failure_failures in Hlast.
  destruct (last tries) as [[t r]|] eqn:Et; [|apply last_None in Et; subst; simpl in H3; lia].
  exists c', e, t. split_and!; [done|by rewrite fmap_last, Et|].
  intros now' tries' Hnow. unfold connect_with_recovery. erewrite st_bind_eq by reflexivity. rewrite Hl.
  cbn [default from_option id]. unfold allow_request. rewrite Hs, Hlast. cbn [fmap option_fmap option_map fst].
  injection Hlim as _ _ ->. unfold elapsed. rewrite (proj2 (Z.ltb_ge _ _)) by lia.
  erewrite st_bind_eq by reflexivity. cbn [negb]. unfold lift. f_equal.
  destruct c' as [bs p]. unfold set_breakers. cbn [circuit_breakers retry_policy] in *. by rewrite insert_id.
Qed.
End client_properties.

(** ** Properties of the monitor *)

Section monitor_properties.
Context (checked : bool).

(** Successive checks of one connection; errors go to the log. *)
Definition ping_all (id : string) (rs : list ping) (m : Monitor) : Monitor :=
  foldl (λ m r, (ping_connection checked id r m).1) m rs.

Definition failed_in_a_row (rs : list ping) : Z :=
  foldl (λ n r, match r with Failed _ => n + 1 | _ => 0 end) 0 rs.
(** No check found the connection closed, and no three in a row failed. *)
Definition healthy (rs : list ping) : Prop :=
  ∀ p, p `prefix_of` rs → failed_in_a_row p < 3 ∧ last p ≠ Some Gone.

Lemma failed_in_a_row_snoc rs r :
  failed_in_a_row (rs ++ [r]) = match r with Failed _ => failed_in_a_row rs + 1 | _ => 0 end.
Proof. unfold failed_in_a_row. by rewrite foldl_app. Qed.
Lemma failed_in_a_row_nonneg rs : 0 ≤ failed_in_a_row rs.
Proof. induction rs as [|r rs IH] using rev_ind; [done|]. rewrite failed_in_a_row_snoc. destruct r; lia. Qed.
Lemma prefix_of_snoc {A} (p l : list A) x : p `prefix_of` l ++ [x] → p = l ++ [x] ∨ p `prefix_of` l.
Proof.
  intros [k E]. destruct k as [|y k _] using rev_ind; [left; by rewrite app_nil_r in E|].
  right. rewrite app_assoc in E. apply app_inj_tail in E as [-> _]. by exists k.
Qed.
Lemma healthy_snoc rs r : healthy (rs ++ [r]) ↔
  healthy rs ∧ failed_in_a_row (rs ++ [r]) < 3 ∧ r ≠ Gone.
Proof.
  split.
  - intros Hh. split.
    + intros p Hp. apply Hh. by apply prefix_app_r.
    + destruct (Hh (rs ++ [r])) as [? Hg]; [done|]. split; [done|]. intros ->. apply Hg. by rewrite last_snoc.
  - intros (Hh & Hlt & Hne) p Hp. apply prefix_of_snoc in Hp as [->|Hp]; [|by apply Hh].
    split; [done|]. rewrite last_snoc. congruence.
Qed.

(** A connection that is monitored stays so exactly as long as no check finds
    it closed and no three checks in a row fail; its counter is then the number
    of failures in a row. Once dropped it is not checked any more, and checks of
    one connection never touch another. *)
Theorem monitor_spec id conn rs m :
  let m0 := (monitor_connection id conn m).1 in
  (∀ h, ping_all id rs m0 !! id = Some h → connection h = conn ∧ ping_failures h = failed_in_a_row rs) ∧
  (is_Some (ping_all id rs m0 !! id) ↔ healthy rs) ∧
  ∀ other, other ≠ id → ping_all id rs m0 !! other = m !! other.
Proof.
  intros m0. assert (∀ n r x, foldl (λ m r, (ping_connection checked id r m).1) n (r ++ [x]) =
    (ping_connection checked id x (foldl (λ m r, (ping_connection checked id r m).1) n r)).1) as Hsnoc
    by (intros; by rewrite foldl_app).
  unfold ping_all. induction rs as [|r rs (IHval & IHiff & IHother)] using rev_ind.
  { cbn [foldl]. unfold m0, monitor_connection, modify_st. cbn [fst]. rewrite lookup_insert_eq. split_and!.
    - by intros h [= <-].
    - split; [|by eauto]. intros _ p Hp. apply prefix_nil_inv in Hp as ->. done.
    - intros other Hne. by rewrite lookup_insert_ne. }
  rewrite Hsnoc, healthy_snoc, <-IHiff. revert IHval IHiff IHother. generalize (foldl (λ m r, (ping_connection checked id r m).1) m0 rs).
  intros m1 IHval IHiff IHother. pose proof (failed_in_a_row_nonneg rs) as Hn.
  rewrite failed_in_a_row_snoc. unfold ping_connection, mbind, st_bind, get_st, modify_st, lift.
  destruct (m1 !! id) as [h|] eqn:Hh.
  2: { cbn [fst mret st_ret]. rewrite Hh. split_and!; [done|split; [by intros [? ?]|by intros [[? ?] _]]|done]. }
  destruct (IHval h eq_refl) as [Hconn Hcount]. assert (failed_in_a_row rs < 3) as Hlt.
  { apply (proj1 IHiff); [by eauto|done]. }
  destruct r as [|now rtt|e]; cbn [fst].
  - rewrite lookup_delete_eq. split_and!; [done|split; [by intros [? ?]|intros (_ & _ & ?); done]|].
    intros other Hne. by rewrite lookup_delete_ne by done; apply IHother.
  - rewrite lookup_insert_eq. split_and!; [by intros ? [= <-]|split; [by eauto|by eauto]|].
    intros other Hne. by rewrite lookup_insert_ne by done; apply IHother.
  - rewrite Hcount, arith_exact by lia. destruct (Z.leb_spec 3 (failed_in_a_row rs + 1)) as [H3|H3]; cbn [fst].
    + rewrite lookup_delete_eq. split_and!; [done|split; [by intros [? ?]|lia]|].
      intros other Hne. by rewrite lookup_delete_ne by done; apply IHother.
    + rewrite lookup_insert_eq. split_and!; [by intros ? [= <-]|split; [by eauto|by eauto]|].
      intros other Hne. by rewrite lookup_insert_ne by done; apply IHother.
Qed.
End monitor_properties.

(** ** Concrete inputs *)

Module Examples.
Lemma breaker_spec_witness : ∃ b, record_all true (E:=QuicError) [Failure 1; Failure 2; Failure 3] (breaker_new 3 2 30000) = Ok b ∧
  state b = Open ∧ allow_request 30000 b = (b, false).
Proof.
  destruct (breaker_spec true (E:=QuicError) 3 2 30000 [Failure 1; Failure 2; Failure 3]) as (b & Hb & Hopen & _ & Hask);
    [lia|lia|].
  assert (state b = Open) as Hs by (apply Hopen; vm_compute; discriminate).
  exists b. split_and!; [exact Hb|exact Hs|]. apply (Hask 3); [exact Hs|reflexivity|lia|lia].
Defined.

Definition refused : list (Z * (string + QuicError)) :=
  [(100, inr (QIo "refused")); (200, inr QTimeout); (300, inr (QIo "refused"))].
Lemma fresh_client_ok : client_ok (client_new RetryPolicy_default).
Proof. apply map_Forall_empty. Qed.
Lemma refused_retried : retried refused.
Proof. unfold retried, refused. rewrite !Forall_cons, Forall_nil. split_and!; by eexists. Qed.

Lemma connect_with_recovery_spec_witness : ∃ c',
  connect_with_recovery true 0 "peer" [(100, inr QTimeout); (200, inl "connection"%string); (300, inr QTimeout)]
    (client_new RetryPolicy_default) = (c', Ok "connection"%string).
Proof.
  destruct (connect_with_recovery_spec true 0 "peer"
    [(100, inr QTimeout); (200, inl "connection"%string); (300, inr QTimeout)] (client_new RetryPolicy_default))
    as (c' & r & Hr & _ & _ & _ & _ & Hspec); [apply fresh_client_ok|reflexivity|].
  destruct Hspec as [Hok _]; [discriminate|].
  exists c'. rewrite Hr. f_equal. apply Hok. exists [(100, inr QTimeout)], 200, [(300, inr QTimeout)].
  split; [reflexivity|]. constructor; [by eexists|constructor].
Defined.

Lemma failing_peer_left_alone_witness : ∃ c' e,
  connect_with_recovery true 0 "peer" refused (client_new RetryPolicy_default) = (c', Err e) ∧
  connect_with_recovery true 30300 "peer" [(40000, inl "connection"%string)] c' =
    (c', Err (QProtocol "Circuit breaker open")).
Proof.
  destruct (failing_peer_left_alone true 0 "peer" refused (client_new RetryPolicy_default))
    as (c' & e & t & Hc & Ht & Hrej); [apply fresh_client_ok|done|done|simpl; lia|apply refused_retried|].
  exists c', e. split; [exact Hc|]. apply Hrej. injection Ht as <-. lia.
Defined.
End Examples.
