(* ===== verification/OpLog.v ===== *)
(** The recovery log: landro-sync/src/recovery.rs.

    Operations in progress are lines of JSON in one file. A change rewrites the
    file through a temporary file ([save_operation]) or in place
    ([remove_operation]). The file operations are explicit steps, so that a
    crash between or within them and two tasks that save at the same time can be
    stated. Times are seconds. serde_json and the database are classes. *)

From S2P Require Import Prelude Bytes.
From Stdlib Require Import Init.Byte Strings.Byte ZArith Lia.
From stdpp Require Import base option list gmap sets strings pretty numbers sorting.
Open Scope Z_scope.

(** ** Lines of text *)

Definition newline : Ascii.ascii := Ascii.ascii_of_nat 10.
Definition carriage_return : Ascii.ascii := Ascii.ascii_of_nat 13.

(** [str::lines]: a line ends with a line feed, which a carriage return may
    precede; the last line may lack its end. *)
Fixpoint lines (s : string) : list string :=
  match s with
  | EmptyString => []
  | String c s =>
      if Ascii.eqb c newline then EmptyString :: lines s
      else
        match s with
        | String d _ =>
            if Ascii.eqb c carriage_return && Ascii.eqb d newline then lines s
            else match lines s with l :: ls => String c l :: ls | [] => [String c EmptyString] end
        | EmptyString => [String c EmptyString]
        end
  end.

(** [lines.join("\n") + "\n"]. *)
Definition unlines (ls : list string) : string :=
  String.concat (String newline EmptyString) ls +:+ String newline EmptyString.

(** [line.trim().is_empty()]: all characters are white space, in UTF-8. *)
Fixpoint blank_bytes (l : list byte) : bool :=
  match l with
  | [] => true
  | (x09 | x0a | x0b | x0c | x0d | x20) :: l => blank_bytes l
  | xc2 :: (x85 | xa0) :: l => blank_bytes l
  | xe1 :: x9a :: x80 :: l => blank_bytes l
  | xe2 :: x80 :: (x80 | x81 | x82 | x83 | x84 | x85 | x86 | x87 | x88 | x89 | x8a
                   | xa8 | xa9 | xaf) :: l => blank_bytes l
  | xe2 :: x81 :: x9f :: l => blank_bytes l
  | xe3 :: x80 :: x80 :: l => blank_bytes l
  | _ => false
  end.
Definition is_blank (s : string) : bool := blank_bytes (String.list_byte_of_string s).

(** ** Operations *)

Inductive OperationType :=
  | Transfer (peer_id file_path chunk_hash : string) (total_size bytes_transferred : Z)
  | ManifestSync (peer_id folder_id local_manifest_hash remote_manifest_hash : string)
  | IndexUpdate (folder_path : string) (files_processed total_files : Z).

Inductive OperationStatus := InProgress | Completed | Failed | Interrupted | Recovering.
#[export] Instance OperationStatus_eq_dec : EqDecision OperationStatus.
Proof. solve_decision. Defined.

Record Operation := {
  id : string;
  operation_type : OperationType;
  started_at : Z;
  last_checkpoint : Z;
  status : OperationStatus;
  retry_count : Z;
  error_message : option string;
}.
Definition with_status (x : OperationStatus) (op : Operation) : Operation :=
  {| id := id op; operation_type := operation_type op; started_at := started_at op;
     last_checkpoint := last_checkpoint op; status := x; retry_count := retry_count op;
     error_message := error_message op |}.
Definition with_checkpoint (now : Z) (op : Operation) : Operation :=
  {| id := id op; operation_type := operation_type op; started_at := started_at op;
     last_checkpoint := now; status := status op; retry_count := retry_count op;
     error_message := error_message op |}.
Definition with_failure (count : Z) (error : string) (op : Operation) : Operation :=
  {| id := id op; operation_type := operation_type op; started_at := started_at op;
     last_checkpoint := last_checkpoint op; status := status op; retry_count := count;
     error_message := Some error |}.

Inductive LogError := LogSerialization | LogIo (text : string) | LogDatabase (text : string).
(** [Display]. *)
Definition error_text (e : LogError) : string :=
  match e with
  | LogSerialization => "Serialization error: "
  | LogIo text => "IO error: " +:+ text
  | LogDatabase text => "Database error: " +:+ text
  end.

(** [serde_json::to_string] and [serde_json::from_str] at [Operation]. *)
Class OperationJson := {
  to_json : Operation → option string;
  from_json : string → option Operation;
}.
(** A text without line ends. *)
Definition one_line (s : string) : Prop :=
  Forall (λ c, c ≠ newline ∧ c ≠ carriage_return) (String.list_ascii_of_string s).
(** What is written is read back; control characters are escaped, so the text is
    one line, and it is not blank; the empty line is not an operation. *)
Class OperationJsonLaws `{OperationJson} := {
  json_total : ∀ op, is_Some (to_json op);
  json_roundtrip : ∀ op s, to_json op = Some s → from_json s = Some op;
  json_one_line : ∀ op s, to_json op = Some s → one_line s;
  json_not_blank : ∀ op s, to_json op = Some s → is_blank s = false;
  json_empty : from_json EmptyString = None;
}.

(** The state database, for the one operation that is used. *)
Class TransferDb := {
  Db : Type;
  add_pending_transfer : string → string → string → string → Z → Db → Db * outcome LogError unit;
}.

(** ** The file *)

(** A file that cannot be read as text is [Unreadable]. *)
Inductive LogFile := Missing | Text (content : string) | Unreadable.

(** The log, and the temporary file beside it. *)
Record Disk := { recovery_log : LogFile; temp_log : LogFile }.

Inductive file_step :=
  | WriteTemp (content : string)
  | RenameTemp
  | WriteLog (content : string).
Definition apply_step (d : Disk) (s : file_step) : Disk :=
  match s with
  | WriteTemp content => {| recovery_log := recovery_log d; temp_log := Text content |}
  | RenameTemp => {| recovery_log := temp_log d; temp_log := Missing |}
  | WriteLog content => {| recovery_log := Text content; temp_log := temp_log d |}
  end.
Definition apply_steps (d : Disk) (ss : list file_step) : Disk := foldl apply_step d ss.

Section log.
Context `{OperationJson}.

(** The loop over the lines: the first one with an operation of that id is
    replaced. *)
Fixpoint replace_line (op_id entry : string) (ls : list string) : option (list string) :=
  match ls with
  | [] => None
  | line :: ls =>
      match from_json line with
      | Some existing =>
          if bool_decide (id existing = op_id) then Some (entry :: ls)
          else cons line <$> replace_line op_id entry ls
      | None => cons line <$> replace_line op_id entry ls
      end
  end.

(** [read_to_string(..).unwrap_or_default()]. *)
Definition text_or_default (f : LogFile) : string :=
  match f with Text s => s | _ => EmptyString end.

Definition save_steps (op : Operation) (log : LogFile) : outcome LogError (list file_step) :=
  entry ← ok_or LogSerialization (to_json op);
  let ls := lines (text_or_default log) in
  let ls := default (ls ++ [entry]) (replace_line (id op) entry ls) in
  mret [WriteTemp (unlines ls); RenameTemp].

Definition keep_line (op_id line : string) : bool :=
  negb (is_blank line) &&
  match from_json line with Some op => negb (bool_decide (id op = op_id)) | None => true end.

Definition remove_steps (op_id : string) (log : LogFile) : outcome LogError (list file_step) :=
  match log with
  | Missing => mret []
  | Unreadable => Err (LogIo "stream did not contain valid UTF-8")
  | Text content => mret [WriteLog (unlines (List.filter (keep_line op_id) (lines content)))]
  end.

Definition is_pending (op : Operation) : bool :=
  match status op with InProgress | Interrupted => true | _ => false end.

Definition load_recovery_log (log : LogFile) : outcome LogError (list Operation) :=
  match log with
  | Missing => mret []
  | Unreadable => Err (LogIo "stream did not contain valid UTF-8")
  | Text content =>
      mret (List.filter is_pending
        (omap from_json (List.filter (λ line, negb (is_blank line)) (lines content))))
  end.
End log.

(** ** The manager *)

Record RecoveryStats := {
  operations_recovered : Z;
  operations_completed : Z;
  operations_failed : Z;
  operations_abandoned : Z;
}.
Definition no_stats : RecoveryStats :=
  {| operations_recovered := 0; operations_completed := 0; operations_failed := 0; operations_abandoned := 0 |}.
(** The counters count operations held in memory. *)
Definition count (recovered completed failed abandoned : Z) (s : RecoveryStats) : RecoveryStats :=
  {| operations_recovered := operations_recovered s + recovered;
     operations_completed := operations_completed s + completed;
     operations_failed := operations_failed s + failed;
     operations_abandoned := operations_abandoned s + abandoned |}.

Section manager.
Context `{OperationJson, TransferDb} (checked : bool).

Record RecoveryManager := {
  disk : Disk;
  active_operations : gmap string Operation;
  database : Db;
}.
Definition set_disk (x : Disk) (m : RecoveryManager) : RecoveryManager :=
  {| disk := x; active_operations := active_operations m; database := database m |}.
Definition set_active (x : gmap string Operation) (m : RecoveryManager) : RecoveryManager :=
  {| disk := disk m; active_operations := x; database := database m |}.
Definition set_database (x : Db) (m : RecoveryManager) : RecoveryManager :=
  {| disk := disk m; active_operations := active_operations m; database := x |}.

Definition manager_new (d : Disk) (db : Db) : RecoveryManager :=
  {| disk := d; active_operations := ∅; database := db |}.

Abbreviation manager := (st RecoveryManager LogError).

Definition save_operation (op : Operation) : manager unit :=
  self ← get_st;
  steps ← lift (save_steps op (recovery_log (disk self)));
  modify_st (λ m, set_disk (apply_steps (disk m) steps) m).

Definition remove_operation (op_id : string) : manager unit :=
  self ← get_st;
  steps ← lift (remove_steps op_id (recovery_log (disk self)));
  modify_st (λ m, set_disk (apply_steps (disk m) steps) m).

Definition start_operation (op : Operation) : manager unit :=
  _ ← modify_st (λ m, set_active (<[id op := op]> (active_operations m)) m);
  save_operation op.

Definition checkpoint_operation (now : Z) (op_id : string) (update : Operation → Operation) : manager unit :=
  self ← get_st;
  match active_operations self !! op_id with
  | Some op =>
      let op := with_checkpoint now (update op) in
      _ ← modify_st (λ m, set_active (<[op_id := op]> (active_operations m)) m);
      save_operation op
  | None => mret tt
  end.

(** An error of [remove_operation] is logged. *)
Definition ignore_error (m : manager unit) : manager unit := λ s,
  match m s with (s, Err _) => (s, Ok tt) | r => r end.

Definition complete_operation (now : Z) (op_id : string) : manager unit :=
  self ← get_st;
  match active_operations self !! op_id with
  | Some op =>
      _ ← modify_st (λ m, set_active (base.delete op_id (active_operations m)) m);
      _ ← save_operation (with_checkpoint now (with_status Completed op));
      ignore_error (remove_operation op_id)
  | None => mret tt
  end.

Definition fail_operation (now : Z) (op_id error : string) : manager unit :=
  self ← get_st;
  match active_operations self !! op_id with
  | Some op =>
      n ← (λ m, match arith checked 32 (retry_count op + 1) with
                | Panic =>
                    (set_active (<[op_id := with_failure (retry_count op) error (with_status Failed op)]>
                       (active_operations m)) m, Panic)
                | r => (m, r)
                end);
      let op := with_checkpoint now (with_failure n error (with_status Failed op)) in
      _ ← modify_st (λ m, set_active (<[op_id := op]> (active_operations m)) m);
      _ ← save_operation op;
      if 3 <=? n then modify_st (λ m, set_active (base.delete op_id (active_operations m)) m)
      else mret tt
  | None => mret tt
  end.

(** ** Recovery *)

Definition recover_transfer_operation (peer_id file_path chunk_hash : string)
    (total_size bytes_transferred : Z) : manager bool :=
  if total_size <=? bytes_transferred then mret true
  else
    _ ← (λ m, let '(db, r) := add_pending_transfer peer_id "default" file_path chunk_hash 0 (database m) in
              (set_database db m, r));
    mret false.
Definition recover_manifest_sync_operation (local_manifest_hash remote_manifest_hash : string) :
    manager bool :=
  mret (bool_decide (local_manifest_hash = remote_manifest_hash)).
Definition recover_index_update_operation (files_processed total_files : Z) : manager bool :=
  mret (total_files <=? files_processed).

Definition recover_operation (op : Operation) : manager bool :=
  match operation_type op with
  | Transfer peer_id file_path chunk_hash total_size bytes_transferred =>
      recover_transfer_operation peer_id file_path chunk_hash total_size bytes_transferred
  | ManifestSync _ _ local remote => recover_manifest_sync_operation local remote
  | IndexUpdate _ files_processed total_files => recover_index_update_operation files_processed total_files
  end.

(** [age.num_hours() > 24]: whole hours, rounded towards zero. *)
Definition too_old (now : Z) (op : Operation) : bool := 24 <? Z.quot (now - started_at op) 3600.

(** The match on the result of the recovery. *)
Definition after_recovery (op : Operation) (r : outcome LogError bool) (stats : RecoveryStats) :
    outcome LogError (Operation * RecoveryStats) :=
  match r with
  | Ok true => mret (with_status Completed op, count 0 1 0 0 stats)
  | Ok false => mret (with_status InProgress op, stats)
  | Err e =>
      n ← arith checked 32 (retry_count op + 1);
      let op := with_failure n (error_text e) op in
      mret (if 3 <=? n then (with_status Failed op, count 0 0 1 0 stats)
            else (with_status InProgress op, stats))
  | Panic => Panic
  end.

(** The loop over the operations; [now] is the time at which each is examined. *)
Fixpoint recover_loop (now : string → Z) (ops : list Operation) (stats : RecoveryStats) :
    manager RecoveryStats :=
  match ops with
  | [] => mret stats
  | op :: ops =>
      let stats := count 1 0 0 0 stats in
      if too_old (now (id op)) op then recover_loop now ops (count 0 0 0 1 stats)
      else
        let op := with_status Recovering op in
        _ ← save_operation op;
        '(op, stats) ← (λ m, let '(m, r) := recover_operation op m in (m, after_recovery op r stats));
        _ ← save_operation op;
        recover_loop now ops stats
  end.

Definition recover_on_startup (now : string → Z) : manager RecoveryStats :=
  self ← get_st;
  operations ← lift (load_recovery_log (recovery_log (disk self)));
  recover_loop now operations no_stats.
End manager.

(** ** Lines *)

Lemma lines_app l s : one_line l → lines (l +:+ String newline s) = l :: lines s.
Proof.
  induction l as [|c l IH]; intros Hl; [done|].
  apply Forall_cons in Hl as [[Hn Hr] Hl]. specialize (IH Hl).
  apply Ascii.eqb_neq in Hn, Hr.
  change (String c l +:+ String newline s) with (String c (l +:+ String newline s)). cbn [lines]. rewrite Hn.
  destruct (l +:+ String newline s) as [|d s'] eqn:E; [by destruct l|].
  rewrite Hr. cbn [andb]. rewrite IH. done.
Qed.

Lemma lines_unlines ls : ls ≠ [] → Forall one_line ls → lines (unlines ls) = ls.
Proof.
  induction ls as [|l [|k ls] IH]; intros Hne Hls; [done| |]; apply Forall_cons in Hls as [Hl Hls].
  - unfold unlines. cbn [String.concat]. by rewrite lines_app.
  - unfold unlines. cbn [String.concat]. fold (String.concat (String newline EmptyString) (k :: ls)).
    rewrite !string_app_assoc. change (String newline EmptyString +:+ ?x) with (String newline x).
    rewrite lines_app by done. f_equal. by apply IH.
Qed.
Lemma lines_unlines_nil : lines (unlines []) = [EmptyString].
Proof. done. Qed.

(** ** The log as a list of operations *)

(** Replace the first operation with the same id, or add at the end. *)
Fixpoint upsert (op : Operation) (ops : list Operation) : list Operation :=
  match ops with
  | [] => [op]
  | o :: ops => if bool_decide (id o = id op) then op :: ops else o :: upsert op ops
  end.

Section log_lemmas.
Context `{OperationJsonLaws}.
#[local] Set Default Proof Using "All".

(** The lines that the manager writes. *)
Definition line_ok (l : string) : Prop := one_line l ∧ (l = EmptyString ∨ ∃ op, to_json op = Some l).

Definition represents (f : LogFile) (ops : list Operation) : Prop :=
  match f with
  | Missing => ops = []
  | Text s => Forall line_ok (lines s) ∧ omap from_json (lines s) = ops
  | Unreadable => False
  end.

Lemma line_json op s : to_json op = Some s → line_ok s.
Proof. intros Hs. split; [by eapply json_one_line|]. right. by exists op. Qed.

Lemma represents_unlines ls ops : Forall line_ok ls → omap from_json ls = ops → represents (Text (unlines ls)) ops.
Proof.
  intros Hls Hops. destruct ls as [|l ls].
  - cbn in Hops. subst ops. unfold represents. rewrite lines_unlines_nil. cbn. rewrite json_empty. split; [|done].
    constructor; [split; [constructor|by left]|constructor].
  - unfold represents. rewrite lines_unlines; [done..|]. eapply Forall_impl; [exact Hls|]. by intros ? [? _].
Qed.

Lemma represents_text f ops : represents f ops →
  Forall line_ok (lines (text_or_default f)) ∧ omap from_json (lines (text_or_default f)) = ops.
Proof. destruct f; cbn; [|done..]. intros ->. by split. Qed.

Lemma replace_line_spec op entry ls : to_json op = Some entry → Forall line_ok ls →
  let ls' := default (ls ++ [entry]) (replace_line (id op) entry ls) in
  Forall line_ok ls' ∧ omap from_json ls' = upsert op (omap from_json ls).
Proof.
  intros Hop. pose proof (line_json op entry Hop) as Hentry. apply json_roundtrip in Hop.
  induction ls as [|l ls IH]; intros Hls.
  { cbn. rewrite Hop. split; [by constructor|done]. }
  apply Forall_cons in Hls as [Hl Hls]. destruct (IH Hls) as [IH1 IH2]. cbn [replace_line].
  assert (default ((l :: ls) ++ [entry]) (cons l <$> replace_line (id op) entry ls) =
    l :: default (ls ++ [entry]) (replace_line (id op) entry ls)) as Hcons
    by (by destruct (replace_line (id op) entry ls)).
  destruct (from_json l) as [o|] eqn:El; [case_bool_decide as Hid|].
  - change (default ?x (Some ?y)) with y. split; [by constructor|]. cbn [omap list_omap]. rewrite El, Hop.
    cbn [upsert]. by rewrite bool_decide_true.
  - rewrite Hcons. split; [by constructor|]. cbn [omap list_omap]. rewrite El. cbn [upsert].
    rewrite bool_decide_false by done. f_equal. exact IH2.
  - rewrite Hcons. split; [by constructor|]. cbn [omap list_omap]. rewrite El. exact IH2.
Qed.

Lemma save_steps_spec op f ops : represents f ops →
  ∃ content, save_steps op f = Ok [WriteTemp content; RenameTemp] ∧ represents (Text content) (upsert op ops).
Proof.
  intros Hf. destruct (represents_text f ops Hf) as [Hls Hops]. destruct (json_total op) as [entry Hentry].
  unfold save_steps. rewrite Hentry. cbn [ok_or mbind outcome_bind].
  eexists. split; [done|]. subst ops.
  destruct (replace_line_spec op entry (lines (text_or_default f)) Hentry Hls) as [H1 H2].
  by apply represents_unlines.
Qed.

Lemma line_ok_blank l : line_ok l → is_blank l = match from_json l with Some _ => false | None => true end.
Proof.
  intros [_ [->|[op Hop]]]; [by rewrite json_empty|].
  by rewrite (json_not_blank op l Hop), (json_roundtrip op l Hop).
Qed.

Lemma keep_lines op_id ls : Forall line_ok ls →
  omap from_json (List.filter (keep_line op_id) ls) =
    List.filter (λ op, negb (bool_decide (id op = op_id))) (omap from_json ls) ∧
  Forall line_ok (List.filter (keep_line op_id) ls).
Proof.
  induction ls as [|l ls IH]; intros Hls; [by split|].
  apply Forall_cons in Hls as [Hl Hls]. destruct (IH Hls) as [IH1 IH2]. cbn [List.filter].
  assert (keep_line op_id l = match from_json l with
    Some op => negb (bool_decide (id op = op_id)) | None => false end) as ->.
  { unfold keep_line. rewrite (line_ok_blank l Hl). by destruct (from_json l). }
  destruct (from_json l) as [op|] eqn:El; cbn [omap list_omap]; rewrite El; cbn [List.filter]; [|done].
  destruct (negb _); [|done]. cbn [omap list_omap]. rewrite El. split; [f_equal; exact IH1|by constructor].
Qed.

Lemma remove_steps_spec op_id f ops : represents f ops →
  ∃ f' ss, remove_steps op_id f = Ok ss ∧ (∀ d, recovery_log d = f → recovery_log (apply_steps d ss) = f') ∧
    represents f' (List.filter (λ op, negb (bool_decide (id op = op_id))) ops).
Proof.
  destruct f as [|s|]; intros Hf; [| |done].
  - exists Missing, []. cbn in Hf. subst ops. by split_and!.
  - destruct Hf as [Hls <-]. eexists (Text _), _. split_and!; [done| |].
    + intros d _. reflexivity.
    + destruct (keep_lines op_id (lines s) Hls) as [H1 H2]. by apply represents_unlines.
Qed.

Lemma load_spec f ops : represents f ops → load_recovery_log f = Ok (List.filter is_pending ops).
Proof.
  destruct f as [|s|]; intros Hf; [by rewrite Hf| |done]. destruct Hf as [Hls <-]. cbn [load_recovery_log].
  unfold mret, outcome_ret. do 2 f_equal.
  induction (lines s) as [|l ls IH]; [done|]. apply Forall_cons in Hls as [Hl Hls]. specialize (IH Hls).
  cbn [List.filter]. rewrite (line_ok_blank l Hl). destruct (from_json l) as [op|] eqn:El; cbn [negb omap list_omap].
  - rewrite El. by f_equal.
  - rewrite El. done.
Qed.
End log_lemmas.

(** ** The log as a map *)

Definition holds (ops : list Operation) (M : gmap string Operation) : Prop :=
  NoDup (id <$> ops) ∧ ∀ k op, M !! k = Some op ↔ op ∈ ops ∧ id op = k.

Lemma upsert_ids op ops : id <$> upsert op ops =
  if bool_decide (id op ∈ id <$> ops) then id <$> ops else (id <$> ops) ++ [id op].
Proof.
  induction ops as [|o ops IH]; [done|]. cbn [upsert fmap list_fmap].
  destruct (decide (id o = id op)) as [Ho|Ho].
  - rewrite (bool_decide_true (id o = id op)) by done. rewrite Ho, bool_decide_true by left. done.
  - rewrite (bool_decide_false (id o = id op)) by done. cbn [fmap list_fmap]. rewrite IH.
    do 2 case_bool_decide; try done; set_solver.
Qed.

Lemma elem_of_upsert op ops x : NoDup (id <$> ops) →
  x ∈ upsert op ops ↔ x = op ∨ (x ∈ ops ∧ id x ≠ id op).
Proof.
  induction ops as [|o ops IH]; intros Hnd; [set_solver|].
  cbn [fmap list_fmap] in Hnd. apply NoDup_cons in Hnd as [Ho Hnd]. cbn [upsert]. case_bool_decide as Hid.
  - rewrite !elem_of_cons. split; [intros [->|Hx]; [by left|]|intros [->|[[->|Hx] Hne]]; [by left|done|by right]].
    right. split; [by right|]. intros E. apply Ho. rewrite Hid, <-E. by apply list_elem_of_fmap_2.
  - rewrite !elem_of_cons, (IH Hnd). naive_solver.
Qed.

Lemma upsert_holds op ops M : holds ops M → holds (upsert op ops) (<[id op := op]> M).
Proof.
  intros [Hnd HM]. split.
  - rewrite upsert_ids. case_bool_decide; [done|]. apply NoDup_app. split_and!; [done|set_solver|apply NoDup_singleton].
  - intros k x. rewrite elem_of_upsert by done. rewrite lookup_insert_Some, HM. naive_solver.
Qed.

Lemma filter_ids (f : Operation → bool) ops : NoDup (id <$> ops) → NoDup (id <$> List.filter f ops).
Proof.
  induction ops as [|o ops IH]; intros Hnd; [done|]. cbn in Hnd. apply NoDup_cons in Hnd as [Ho Hnd].
  cbn [List.filter]. destruct (f o); [|by apply IH]. cbn. constructor; [|by apply IH].
  contradict Ho. apply list_elem_of_fmap in Ho as (x & -> & Hx).
  apply list_elem_of_In, List.filter_In in Hx as [Hx _]. apply list_elem_of_fmap_2. by apply list_elem_of_In.
Qed.

Lemma filter_holds k ops M : holds ops M →
  holds (List.filter (λ op, negb (bool_decide (id op = k))) ops) (base.delete k M).
Proof.
  intros [Hnd HM]. split.
  - by apply filter_ids.
  - intros j x. rewrite lookup_delete_Some, HM, !list_elem_of_In, List.filter_In, negb_true_iff, bool_decide_eq_false. naive_solver.
Qed.

Lemma holds_empty : holds [] ∅.
Proof. split; [constructor|]. intros k op. rewrite lookup_empty. set_solver. Qed.

(** ** Commands of the manager *)

(** What the log should be: the operations in the log and the active ones. *)
Inductive command :=
  | Start (op : Operation)
  | Checkpoint (now : Z) (op_id : string) (update : Operation → Operation)
  | Complete (now : Z) (op_id : string)
  | Fail_ (now : Z) (op_id error : string).

Section commands.
Context `{OperationJsonLaws, TransferDb} (checked : bool).
#[local] Set Default Proof Using "All".

Definition run_command (c : command) : st RecoveryManager LogError unit :=
  match c with
  | Start op => start_operation op
  | Checkpoint now k update => checkpoint_operation now k update
  | Complete now k => complete_operation now k
  | Fail_ now k error => fail_operation checked now k error
  end.
Fixpoint run_commands (cs : list command) : st RecoveryManager LogError unit :=
  match cs with
  | [] => mret tt
  | c :: cs => _ ← run_command c; run_commands cs
  end.

(** The specification, on the logged and the active operations. *)
Definition failed (now : Z) (error : string) (op : Operation) : Operation :=
  with_checkpoint now (with_failure (retry_count op + 1) error (with_status Failed op)).
Definition spec_command (c : command) (s : gmap string Operation * gmap string Operation) :
    gmap string Operation * gmap string Operation :=
  let '(logged, active) := s in
  match c with
  | Start op => (<[id op := op]> logged, <[id op := op]> active)
  | Checkpoint now k update =>
      match active !! k with
      | Some op => let op := with_checkpoint now (update op) in (<[k := op]> logged, <[k := op]> active)
      | None => s
      end
  | Complete _ k => if active !! k then (base.delete k logged, base.delete k active) else s
  | Fail_ now k error =>
      match active !! k with
      | Some op =>
          let op := failed now error op in
          (<[k := op]> logged, if 3 <=? retry_count op then base.delete k active else <[k := op]> active)
      | None => s
      end
  end.

(** Updates keep the id, and retry counts that leave room for one more. *)
Definition countable (op : Operation) : Prop := 0 ≤ retry_count op < 2 ^ 32 - 1.
Definition command_ok (c : command) : Prop :=
  match c with
  | Start op => countable op
  | Checkpoint _ _ update => ∀ op, id (update op) = id op ∧ (countable op → countable (update op))
  | _ => True
  end.

Definition log_holds (f : LogFile) (M : gmap string Operation) : Prop := ∃ ops, represents f ops ∧ holds ops M.

Lemma save_operation_spec op m M : log_holds (recovery_log (disk m)) M →
  ∃ d', save_operation op m = (set_disk d' m, Ok tt) ∧ log_holds (recovery_log d') (<[id op := op]> M).
Proof.
  intros (ops & Hr & Hh). destruct (save_steps_spec op _ ops Hr) as (content & Hs & Hr').
  eexists. split.
  - unfold save_operation. erewrite st_bind_eq by reflexivity.
    erewrite st_bind_eq by (unfold lift; by rewrite Hs). done.
  - exists (upsert op ops). split; [done|by apply upsert_holds].
Qed.

Lemma remove_operation_spec k m M : log_holds (recovery_log (disk m)) M →
  ∃ d', remove_operation k m = (set_disk d' m, Ok tt) ∧ log_holds (recovery_log d') (base.delete k M).
Proof.
  intros (ops & Hr & Hh). destruct (remove_steps_spec k _ ops Hr) as (f' & ss & Hs & Hd & Hr').
  exists (apply_steps (disk m) ss). split.
  - unfold remove_operation. erewrite st_bind_eq by reflexivity.
    erewrite st_bind_eq by (unfold lift; by rewrite Hs). done.
  - eexists. split; [|by apply filter_holds]. by rewrite Hd.
Qed.

(** The state implements the specification. *)
Record implements (m : RecoveryManager) (s : gmap string Operation * gmap string Operation) : Prop := {
  im_log : log_holds (recovery_log (disk m)) s.1;
  im_active : active_operations m = s.2;
  im_keys : map_Forall (λ k op, id op = k ∧ countable op) s.2;
}.

Lemma insert_keys (A : gmap string Operation) k op : id op = k → countable op →
  map_Forall (λ k op, id op = k ∧ countable op) A → map_Forall (λ k op, id op = k ∧ countable op) (<[k := op]> A).
Proof. intros Hk Hc HA. by apply map_Forall_insert_2. Qed.

Lemma command_refines c m s : command_ok c → implements m s →
  ∃ m', run_command c m = (m', Ok tt) ∧ implements m' (spec_command c s).
Proof.
  destruct s as [L A]. intros Hc [Hlog Hact Hkeys]. cbn in Hlog, Hact, Hkeys.
  destruct c as [op|now k update|now k|now k error]; cbn [run_command spec_command].
  - destruct (save_operation_spec op (set_active (<[id op := op]> (active_operations m)) m) L Hlog) as (d & E & Hd).
    eexists. split; [unfold start_operation; by erewrite st_bind_eq by reflexivity|].
    constructor; cbn; [done|by rewrite Hact|by apply insert_keys].
  - unfold checkpoint_operation. erewrite st_bind_eq by reflexivity. rewrite Hact.
    destruct (A !! k) as [op|] eqn:Ek; [|by eexists]. destruct (Hc op) as [Hid Hcnt]. destruct (Hkeys k op Ek) as [Hk Hop].
    set (op' := with_checkpoint now (update op)).
    destruct (save_operation_spec op' (set_active (<[k := op']> (active_operations m)) m) L Hlog) as (d & E & Hd).
    assert (id op' = k) as Hk' by (cbn; congruence). rewrite Hk' in Hd.
    eexists. split; [by erewrite st_bind_eq by reflexivity|].
    constructor; cbn [disk set_disk set_active active_operations fst snd]; [done|by rewrite Hact|].
    apply insert_keys; [done|by apply Hcnt|done].
  - unfold complete_operation. erewrite st_bind_eq by reflexivity. rewrite Hact.
    destruct (A !! k) as [op|] eqn:Ek; [|by eexists]. destruct (Hkeys k op Ek) as [Hk Hop].
    set (op' := with_checkpoint now (with_status Completed op)).
    destruct (save_operation_spec op' (set_active (base.delete k (active_operations m)) m) L Hlog) as (d & E & Hd).
    destruct (remove_operation_spec k (set_disk d (set_active (base.delete k (active_operations m)) m)) _ Hd) as (d' & E' & Hd').
    eexists. split.
    { erewrite st_bind_eq by reflexivity. erewrite st_bind_eq by exact E. unfold ignore_error. by rewrite E'. }
    constructor; cbn [disk set_disk set_active active_operations fst snd].
    + change (id op') with (id op) in Hd'. by rewrite Hk, delete_insert_eq in Hd'.
    + by rewrite Hact.
    + by apply map_Forall_delete.
  - unfold fail_operation. erewrite st_bind_eq by reflexivity. rewrite Hact.
    destruct (A !! k) as [op|] eqn:Ek; [|by eexists]. destruct (Hkeys k op Ek) as [Hk Hop].
    unfold countable in Hop. set (op' := failed now error op).
    destruct (save_operation_spec op' (set_active (<[k := op']> (active_operations m)) m) L Hlog) as (d & E & Hd).
    change (id op') with (id op) in Hd. rewrite Hk in Hd. change (retry_count op') with (retry_count op + 1).
    set (A' := if 3 <=? retry_count op + 1 then base.delete k (<[k := op']> A) else <[k := op']> A).
    exists (set_active A' (set_disk d m)). split.
    { erewrite st_bind_eq by (rewrite arith_exact by lia; reflexivity). erewrite st_bind_eq by reflexivity.
      erewrite st_bind_eq by exact E. cbn beta. rewrite Hact. subst A'. by destruct (3 <=? _). }
    assert (map_Forall (λ k op, id op = k ∧ countable op) (base.delete k A)) by by apply map_Forall_delete.
    subst A'. destruct (Z.leb_spec 3 (retry_count op + 1)); constructor;
      cbn [disk set_disk set_active active_operations fst snd]; rewrite ?delete_insert_eq; try done.
    + apply insert_keys; [done|unfold countable; cbn; lia|done].
Qed.

Lemma commands_refine cs m s : Forall command_ok cs → implements m s →
  ∃ m', run_commands cs m = (m', Ok tt) ∧ implements m' (foldl (λ s c, spec_command c s) s cs).
Proof.
  revert m s. induction cs as [|c cs IH]; intros m s Hcs Hm; [by exists m|].
  apply Forall_cons in Hcs as [Hc Hcs]. destruct (command_refines c m s Hc Hm) as (m1 & E & Hm1).
  cbn [run_commands foldl]. rewrite (st_bind_eq _ _ _ _ _ E). by apply IH.
Qed.

(** C21: Any sequence of commands succeeds, and leaves in the log exactly what its
    specification, a map from ids to operations, says: an operation is found
    again after a restart, with its last checkpoint, until it is completed, and
    only while its status is pending; a failed one is kept in the log but not
    found. *)
Theorem log_refines_map cs db : Forall command_ok cs →
  let '(logged, active) := foldl (λ s c, spec_command c s) (∅, ∅) cs in
  ∃ m, run_commands cs (manager_new {| recovery_log := Missing; temp_log := Missing |} db) = (m, Ok tt) ∧
    active_operations m = active ∧
    ∃ ops, load_recovery_log (recovery_log (disk m)) = Ok ops ∧ NoDup (id <$> ops) ∧
      ∀ op, op ∈ ops ↔ logged !! id op = Some op ∧ is_pending op = true.
Proof.
  intros Hcs.
  destruct (commands_refine cs (manager_new {| recovery_log := Missing; temp_log := Missing |} db) (∅, ∅) Hcs)
    as (m & E & Hm).
  { constructor; [by exists []; split; [|apply holds_empty]|done|apply map_Forall_empty]. }
  destruct (foldl _ _ cs) as [L A]. destruct Hm as [(ops & Hr & Hnd & HL) Hact _]. cbn in HL, Hact.
  exists m. split_and!; [done..|]. exists (List.filter is_pending ops). split_and!; [by apply load_spec| |].
  - by apply filter_ids.
  - intros op. rewrite list_elem_of_In, List.filter_In, <-list_elem_of_In, HL. naive_solver.
Qed.
End commands.

(** ** Recovery at startup *)

(** Nothing is left to do for the operation. *)
Definition is_done (op : Operation) : bool :=
  match operation_type op with
  | Transfer _ _ _ total_size bytes_transferred => total_size <=? bytes_transferred
  | ManifestSync _ _ local remote => bool_decide (local = remote)
  | IndexUpdate _ files_processed total_files => total_files <=? files_processed
  end.
Definition is_transfer (op : Operation) : bool :=
  match operation_type op with Transfer _ _ _ _ _ => true | _ => false end.

(** What recovery makes of an operation. *)
Inductive recovered (op : Operation) : Operation → Prop :=
  | recovered_done : is_done op = true → recovered op (with_status Completed op)
  | recovered_again : is_done op = false → recovered op (with_status InProgress op)
  | recovered_failed e : is_done op = false → is_transfer op = true →
      recovered op (with_status (if 3 <=? retry_count op + 1 then Failed else InProgress)
        (with_failure (retry_count op + 1) (error_text e) op)).

Definition zcount {A} (f : A → bool) (l : list A) : Z := zlen (List.filter f l).
Lemma zcount_cons {A} (f : A → bool) x l : zcount f (x :: l) = (if f x then 1 else 0) + zcount f l.
Proof. unfold zcount. cbn [List.filter]. destruct (f x); [apply zlen_cons|lia]. Qed.

Section recovery.
Context `{OperationJsonLaws, TransferDb} (checked : bool).
Context (db_total : ∀ peer folder file hash n db, (add_pending_transfer peer folder file hash n db).2 ≠ Panic).
#[local] Set Default Proof Using "All".

Lemma recover_operation_spec op m stats : countable op →
  ∃ db op' failures, (let '(m, r) := recover_operation op m in (m, after_recovery checked (with_status Recovering op) r stats)) =
    (set_database db m, Ok (op', count 0 (if is_done op then 1 else 0) failures 0 stats)) ∧ recovered op op'.
Proof.
  intros Hcount. unfold countable in Hcount. destruct stats as [a b c d]. pose proof (recovered_done op) as Hdone.
  pose proof (recovered_again op) as Hagain. pose proof (recovered_failed op) as Hfailed.
  unfold recover_operation, is_done, is_transfer in *. destruct m as [dk A db].
  destruct (operation_type op) as [peer file hash total bytes|peer folder local remote|folder processed total].
  - unfold recover_transfer_operation. destruct (total <=? bytes).
    + exists db, (with_status Completed op), 0. split; [|by apply Hdone]. cbn. unfold count; cbn.
      do 4 f_equal; lia.
    + unfold mbind, st_bind. cbn [database]. pose proof (db_total peer "default" file hash 0 db) as Hdb.
      destruct (add_pending_transfer _ _ _ _ _ db) as [db' [[]|e|]]; cbn in Hdb; [| |done].
      * exists db', (with_status InProgress op), 0. split; [|by apply Hagain]. cbn. unfold count; cbn. do 4 f_equal; lia.
      * eexists db', _, (if 3 <=? retry_count op + 1 then 1 else 0). split; [|by apply (Hfailed e)].
        cbn [after_recovery set_database]. cbn [retry_count with_status]. rewrite arith_exact by lia.
        cbn [mbind outcome_bind mret outcome_ret]. destruct (3 <=? _); unfold count; cbn; do 4 f_equal; lia.
  - exists db. unfold recover_manifest_sync_operation. case_bool_decide.
    + exists (with_status Completed op), 0. split; [|by apply Hdone]. cbn. unfold count; cbn. do 4 f_equal; lia.
    + exists (with_status InProgress op), 0. split; [|by apply Hagain]. cbn. unfold count; cbn. do 4 f_equal; lia.
  - exists db. unfold recover_index_update_operation. destruct (total <=? processed).
    + exists (with_status Completed op), 0. split; [|by apply Hdone]. cbn. unfold count; cbn. do 4 f_equal; lia.
    + exists (with_status InProgress op), 0. split; [|by apply Hagain]. cbn. unfold count; cbn. do 4 f_equal; lia.
Qed.

Lemma recovered_id op op' : recovered op op' → id op' = id op.
Proof. by destruct 1. Qed.

(** What the log has for a pending operation after recovery. *)
Definition settles (now : string → Z) (L' : gmap string Operation) (op : Operation) : Prop :=
  ∃ op', L' !! id op = Some op' ∧ if too_old (now (id op)) op then op' = op else recovered op op'.
Definition is_young (now : string → Z) (op : Operation) : bool := negb (too_old (now (id op)) op).

Lemma recover_loop_spec now ops stats m L : Forall countable ops → NoDup (id <$> ops) →
  log_holds (recovery_log (disk m)) L → Forall (λ op, L !! id op = Some op) ops →
  ∃ m' L' failures, recover_loop checked now ops stats m =
      (m', Ok (count (zlen ops) (zcount (λ op, is_young now op && is_done op) ops) failures
                 (zcount (λ op, too_old (now (id op)) op) ops) stats)) ∧
    active_operations m' = active_operations m ∧ log_holds (recovery_log (disk m')) L' ∧
    Forall (settles now L') ops ∧ (∀ k, k ∉ id <$> ops → L' !! k = L !! k).
Proof.
  intros Hc Hnd Hlog HL. revert stats m L Hc Hnd Hlog HL.
  induction ops as [|op ops IH]; intros stats m L Hc Hnd Hlog HL.
  { exists m, L, 0. split_and!; try done. cbn [recover_loop]. unfold mret, st_ret.
    do 2 f_equal. unfold zcount. cbn [List.filter]. rewrite !zlen_nil. unfold count; destruct stats; cbn. f_equal; lia. }
  apply Forall_cons in Hc as [Hc Hcs]. apply Forall_cons in HL as [HLop HL]. cbn in Hnd. apply NoDup_cons in Hnd as [Hop Hnd].
  assert (∀ L1 : gmap string Operation, (∀ k, k ≠ id op → L1 !! k = L !! k) → Forall (λ op, L1 !! id op = Some op) ops) as Hframe.
  { intros L1 HL1. rewrite Forall_forall in HL |- *. intros o Ho. rewrite HL1; [by apply HL|].
    intros E. apply Hop. rewrite <-E. by apply list_elem_of_fmap_2. }
  assert (zlen (op :: ops) = 1 + zlen ops) as Hlen by apply zlen_cons. rewrite Hlen.
  rewrite !zcount_cons. unfold is_young at 1. cbn [recover_loop].
  destruct (too_old (now (id op)) op) eqn:Eold.
  - destruct (IH (count 0 0 0 1 (count 1 0 0 0 stats)) m L Hcs Hnd Hlog (Hframe L (λ _ _, eq_refl)))
      as (m' & L' & fl & E & Ha & Hl' & Hs & Ho).
    exists m', L', fl. split_and!; [|done|done| |].
    + rewrite E. unfold count; cbn. do 3 f_equal; lia.
    + constructor; [|done]. exists op. rewrite Eold. split; [by rewrite Ho|done].
    + intros k Hk. apply Ho. set_solver.
  - destruct (save_operation_spec checked (with_status Recovering op) m L Hlog) as (d & Es & Hd).
    destruct (recover_operation_spec op (set_disk d m) (count 1 0 0 0 stats) Hc) as (db & op' & fl & Er & Hrec).
    assert (id op' = id op) as Hid by by apply recovered_id.
    destruct (save_operation_spec checked op' (set_database db (set_disk d m)) _ Hd) as (d' & Es' & Hd').
    change (id (with_status Recovering op)) with (id op) in Hd'. rewrite Hid, insert_insert_eq in Hd'.
    assert (∀ k, k ≠ id op → <[id op := op']> L !! k = L !! k) as HL1 by (intros k Hk; by apply lookup_insert_ne).
    destruct (IH (count 0 (if is_done op then 1 else 0) fl 0 (count 1 0 0 0 stats))
      (set_disk d' (set_database db (set_disk d m))) (<[id op := op']> L) Hcs Hnd Hd' (Hframe _ HL1))
      as (m' & L' & fl' & E & Ha & Hl' & Hs & Ho).
    exists m', L', (fl + fl'). split_and!; [|done|done| |].
    + rewrite (st_bind_eq _ _ _ _ _ Es). rewrite (st_bind_eq _ _ _ _ _ Er). cbn beta iota.
      rewrite (st_bind_eq _ _ _ _ _ Es'), E. unfold count; cbn. destruct (is_done op); cbn; do 3 f_equal; lia.
    + constructor; [|done]. exists op'. rewrite Eold. split; [|done]. rewrite Ho by done. by rewrite lookup_insert_eq.
    + intros k Hk. rewrite Ho by set_solver. apply HL1. set_solver.
Qed.

(** Recovery at startup never fails on a log of the manager. It settles every
    pending operation that is at most a day old: it is completed when nothing is
    left to do, otherwise it is in progress again or, when its transfer could
    not be queued for the third time, failed. Older and other operations stay as they are, and
    the active operations too. *)
Theorem recover_on_startup_spec now m L : log_holds (recovery_log (disk m)) L →
  map_Forall (λ _ op, countable op) L →
  ∃ m' L' stats ops, recover_on_startup checked now m = (m', Ok stats) ∧
    active_operations m' = active_operations m ∧ log_holds (recovery_log (disk m')) L' ∧
    (∀ op, op ∈ ops ↔ L !! id op = Some op ∧ is_pending op = true) ∧
    operations_recovered stats = zlen ops ∧
    operations_completed stats = zcount (λ op, is_young now op && is_done op) ops ∧
    operations_abandoned stats = zcount (λ op, too_old (now (id op)) op) ops ∧
    ∀ k op, L !! k = Some op → ∃ op', L' !! k = Some op' ∧
      if is_pending op && is_young now op then recovered op op' else op' = op.
Proof.
  intros Hlog Hc. pose proof Hlog as (all & Hr & Hnd & HL).
  assert (∀ op, op ∈ List.filter is_pending all ↔ L !! id op = Some op ∧ is_pending op = true) as Hops.
  { intros op. rewrite list_elem_of_In, List.filter_In, <-list_elem_of_In, HL. naive_solver. }
  destruct (recover_loop_spec now (List.filter is_pending all) no_stats m L) as (m' & L' & fl & E & Ha & Hl' & Hs & Ho).
  { apply Forall_forall. intros op [Hop _]%Hops. by apply (Hc (id op)). }
  { by apply filter_ids. }
  { done. }
  { apply Forall_forall. intros op [Hop _]%Hops. done. }
  eexists m', L', _, (List.filter is_pending all). split_and!; [|done|done|done| | | |].
  - unfold recover_on_startup. erewrite st_bind_eq by reflexivity.
    erewrite st_bind_eq by (unfold lift; by rewrite (load_spec _ _ Hr)). exact E.
  - done.
  - done.
  - done.
  - intros k op Hk. assert (id op = k) as <- by (apply HL in Hk; by destruct Hk).
    destruct (is_pending op) eqn:Ep; cbn [andb].
    + rewrite Forall_forall in Hs. destruct (Hs op) as (op' & Hop' & Hset); [by apply Hops|].
      exists op'. split; [done|]. unfold is_young. by destruct (too_old _ op).
    + exists op. rewrite Ho; [done|]. intros (x & E' & Hx)%list_elem_of_fmap.
      apply Hops in Hx as [Hx1 Hx2]. rewrite <-E' in Hx1. congruence.
Qed.
End recovery.

(** ** Crashes of the process *)

(** A file that was being written: a prefix of its contents, which may end within
    a character. *)
Definition cut (content : string) (f : LogFile) : Prop :=
  ∃ p rest, content = p +:+ rest ∧ (f = Text p ∨ f = Unreadable).

(** The disks that a crash can leave while the steps are done. *)
Inductive crashed : Disk → list file_step → Disk → Prop :=
  | crashed_before d ss : crashed d ss d
  | crashed_temp d content f ss : cut content f →
      crashed d (WriteTemp content :: ss) {| recovery_log := recovery_log d; temp_log := f |}
  | crashed_log d content f ss : cut content f →
      crashed d (WriteLog content :: ss) {| recovery_log := f; temp_log := temp_log d |}
  | crashed_later d s ss d' : crashed (apply_step d s) ss d' → crashed d (s :: ss) d'.

(** ** Two tasks that start operations at the same time *)

(** [start_operation] does not hold the lock while it saves. A task reads the log
    and computes the new contents, writes the temporary file, and renames it,
    which fails when there is no temporary file. *)
Inductive task := Reading | Writing (content : string) | Renaming | Done (r : outcome LogError unit).

Definition task_step `{OperationJson} (op : Operation) (t : task) (d : Disk) : task * Disk :=
  match t with
  | Reading =>
      match save_steps op (recovery_log d) with
      | Ok (WriteTemp content :: _) => (Writing content, d)
      | Ok _ => (Reading, d)
      | Err e => (Done (Err e), d)
      | Panic => (Done Panic, d)
      end
  | Writing content => (Renaming, apply_step d (WriteTemp content))
  | Renaming =>
      match temp_log d with
      | Missing => (Done (Err (LogIo "No such file or directory")), d)
      | _ => (Done (Ok tt), apply_step d RenameTemp)
      end
  | Done r => (Done r, d)
  end.

(** The order in which the tasks take their steps: [false] is the first one. *)
Fixpoint run_tasks `{OperationJson} (a b : Operation) (schedule : list bool) (s : task * task * Disk) :
    task * task * Disk :=
  match schedule with
  | [] => s
  | turn :: schedule =>
      let '(ta, tb, d) := s in
      run_tasks a b schedule
        (if turn then let '(tb, d) := task_step b tb d in (ta, tb, d)
         else let '(ta, d) := task_step a ta d in (ta, tb, d))
  end.

Section crashes.
Context `{OperationJsonLaws}.
#[local] Set Default Proof Using "All".

Lemma crashed_save d content d' : crashed d [WriteTemp content; RenameTemp] d' →
  recovery_log d' = recovery_log d ∨ recovery_log d' = Text content.
Proof.
  inversion 1 as [| | |? ? ? ? Hl]; subst; [by left..|].
  inversion Hl as [| | |? ? ? ? Hr]; subst; [by left|].
  inversion Hr; subst. by right.
Qed.

(** C22: A crash at any point of a save leaves a log with the old operations or
    with the new ones, and each next save goes on from there. *)
Theorem save_survives_crash op d ss d' L : log_holds (recovery_log d) L →
  save_steps op (recovery_log d) = Ok ss → crashed d ss d' →
  (log_holds (recovery_log d') L ∨ log_holds (recovery_log d') (<[id op := op]> L)) ∧
  ∀ op', ∃ ss', save_steps op' (recovery_log d') = Ok ss' ∧
    (log_holds (recovery_log (apply_steps d' ss')) (<[id op' := op']> L) ∨
     log_holds (recovery_log (apply_steps d' ss')) (<[id op' := op']> (<[id op := op]> L))).
Proof.
  intros (ops & Hr & Hh) Hs Hcrash. destruct (save_steps_spec op _ ops Hr) as (content & Hs' & Hr').
  rewrite Hs' in Hs. injection Hs as <-.
  assert (∃ ops' L', represents (recovery_log d') ops' ∧ holds ops' L' ∧ (L' = L ∨ L' = <[id op := op]> L))
    as (ops' & L' & Hd & Hh' & HL').
  { destruct (crashed_save _ _ _ Hcrash) as [-> | ->]; [exists ops, L; by auto|].
    exists (upsert op ops), (<[id op := op]> L). split_and!; [done|by apply upsert_holds|by right]. }
  split.
  - destruct HL' as [-> | ->]; [left|right]; by exists ops'.
  - intros op'. destruct (save_steps_spec op' _ ops' Hd) as (content' & E & Hd'). eexists. split; [done|].
    assert (log_holds (Text content') (<[id op' := op']> L')) as Hnew
      by (exists (upsert op' ops'); split; [done|by apply upsert_holds]).
    destruct HL' as [-> | ->]; [by left|by right].
Qed.

(** What crashes lose. Between the two saves of its recovery an operation is
    marked as recovering, and no later startup finds it; and while a completed
    operation is removed the log is rewritten in place, so all operations can be
    lost. *)
Theorem crash_loses_operations op d L : log_holds (recovery_log d) L → recovery_log d ≠ Missing →
  (∃ ss d' ops, save_steps (with_status Recovering op) (recovery_log d) = Ok ss ∧ crashed d ss d' ∧
     load_recovery_log (recovery_log d') = Ok ops ∧ ∀ o, o ∈ ops → id o ≠ id op) ∧
  (∃ ss d', remove_steps (id op) (recovery_log d) = Ok ss ∧ crashed d ss d' ∧
     load_recovery_log (recovery_log d') = Ok []).
Proof.
  intros (ops & Hr & Hh) Hne. split.
  - destruct (save_steps_spec (with_status Recovering op) _ ops Hr) as (content & Hs & Hr').
    exists [WriteTemp content; RenameTemp], {| recovery_log := Text content; temp_log := Missing |}, (List.filter is_pending
      (upsert (with_status Recovering op) ops)). split_and!; [done| |by apply load_spec|].
    + do 2 apply crashed_later. apply crashed_before.
    + intros o [Ho Hp]%list_elem_of_In%List.filter_In Hid.
      apply list_elem_of_In, elem_of_upsert in Ho; [|apply Hh].
      destruct Ho as [->|[_ Hne']]; [done|by apply Hne'].
  - destruct (recovery_log d) as [|content|] eqn:El; [done| |done].
    eexists _, {| recovery_log := Text EmptyString; temp_log := temp_log d |}. split_and!; [done| |done].
    apply crashed_log. by eexists EmptyString, _; split; [|left].
Qed.

(** Two operations started at the same time: both calls can succeed and the
    log have the second one only. One after the other, both are in the log. *)
Theorem concurrent_starts_lose_operation a b d L : log_holds (recovery_log d) L → id a ≠ id b →
  L !! id a = None →
  (∃ schedule d' L', run_tasks a b schedule (Reading, Reading, d) = (Done (Ok tt), Done (Ok tt), d') ∧
     log_holds (recovery_log d') L' ∧ L' = <[id b := b]> L ∧ L' !! id a = None) ∧
  (∃ d' L', run_tasks a b [false; false; false; true; true; true] (Reading, Reading, d) =
       (Done (Ok tt), Done (Ok tt), d') ∧ log_holds (recovery_log d') L' ∧
     L' !! id a = Some a ∧ L' !! id b = Some b).
Proof.
  intros (ops & Hr & Hh) Hne Ha.
  destruct (save_steps_spec a _ ops Hr) as (ca & Ea & Hra). destruct (save_steps_spec b _ ops Hr) as (cb & Eb & Hrb).
  split.
  - exists [false; true; false; false; true; true].
    exists {| recovery_log := Text cb; temp_log := Missing |}, (<[id b := b]> L). split_and!.
    + cbn [run_tasks task_step]. rewrite Ea. cbn [run_tasks task_step]. rewrite Eb. reflexivity.
    + exists (upsert b ops). split; [done|by apply upsert_holds].
    + done.
    + by rewrite lookup_insert_ne.
  - destruct (save_steps_spec b _ _ Hra) as (cab & Eab & Hrab).
    exists {| recovery_log := Text cab; temp_log := Missing |}, (<[id b := b]> (<[id a := a]> L)). split_and!.
    + cbn [run_tasks task_step]. rewrite Ea. cbn [run_tasks task_step apply_step recovery_log temp_log].
      rewrite Eab. reflexivity.
    + exists (upsert b (upsert a ops)). split; [done|by do 2 apply upsert_holds].
    + rewrite lookup_insert_ne by done. by rewrite lookup_insert_eq.
    + by rewrite lookup_insert_eq.
Qed.
End crashes.

(** ** Concrete inputs *)
Module Examples.

(** A codec: a brace and then as many characters as the code of the operation. *)
#[export] Instance OperationType_eq_dec : EqDecision OperationType.
Proof. solve_decision. Defined.
#[export] Instance Operation_eq_dec : EqDecision Operation.
Proof. solve_decision. Defined.

Definition type_tuple (t : OperationType) :
    (string * string * string * (Z * Z)) + (string * string * string * string) + (string * Z * Z) :=
  match t with
  | Transfer a b c n m => inl (inl (a, b, c, (n, m)))
  | ManifestSync a b c d => inl (inr (a, b, c, d))
  | IndexUpdate a n m => inr (a, n, m)
  end.
Definition type_of_tuple x : OperationType :=
  match x with
  | inl (inl (a, b, c, (n, m))) => Transfer a b c n m
  | inl (inr (a, b, c, d)) => ManifestSync a b c d
  | inr (a, n, m) => IndexUpdate a n m
  end.
Definition status_code (s : OperationStatus) : Z :=
  match s with InProgress => 0 | Completed => 1 | Failed => 2 | Interrupted => 3 | Recovering => 4 end.
Definition status_of_code (n : Z) : OperationStatus :=
  match n with 0 => InProgress | 1 => Completed | 2 => Failed | 3 => Interrupted | _ => Recovering end.
#[export] Program Instance Operation_countable : Countable Operation :=
  inj_countable' (λ op, (id op, type_tuple (operation_type op), started_at op, last_checkpoint op,
                         status_code (status op), retry_count op, error_message op))
    (λ '(a, t, s, c, st, r, e), {| id := a; operation_type := type_of_tuple t; started_at := s;
       last_checkpoint := c; status := status_of_code st; retry_count := r; error_message := e |}) _.
Next Obligation. intros [a [] s c [] r e]; reflexivity. Qed.

#[export] Instance unary_json : OperationJson := {
  to_json op := Some (String (Ascii.ascii_of_nat 123) (bars (encode_nat op)));
  from_json s := match s with String _ s => decode_nat (String.length s) | EmptyString => None end;
}.
#[export] Instance unary_json_laws : OperationJsonLaws.
Proof.
  split.
  - by eexists.
  - intros op s [= <-]. cbn [from_json unary_json]. by rewrite length_bars, decode_encode_nat.
  - intros op s [= <-]. constructor; [by split|]. fold String.list_ascii_of_string.
    induction (encode_nat op) as [|n IH]; [constructor|]. constructor; [by split|exact IH].
  - by intros op s [= <-].
  - done.
Qed.

#[export] Instance no_db : TransferDb := {| Db := unit; add_pending_transfer _ _ _ _ _ db := (db, Err (LogDatabase "locked")) |}.

Definition op1 : Operation :=
  {| id := "op1"; operation_type := Transfer "peer" "file" "hash" 1024 512; started_at := 0;
     last_checkpoint := 0; status := InProgress; retry_count := 2; error_message := None |}.
Definition op2 : Operation :=
  {| id := "op2"; operation_type := IndexUpdate "folder" 3 3; started_at := 0;
     last_checkpoint := 0; status := InProgress; retry_count := 0; error_message := None |}.

Definition line (op : Operation) : string := default EmptyString (to_json op).
Definition log1 : LogFile := Text (unlines [line op1]).
Lemma log1_holds : log_holds log1 {[ "op1" := op1 ]}.
Proof.
  exists [op1]. split.
  - apply represents_unlines.
    + constructor; [by apply (line_json op1)|constructor].
    + cbn [omap list_omap]. by rewrite (json_roundtrip op1).
  - split; [apply NoDup_singleton|]. intros k op. rewrite lookup_singleton_Some, list_elem_of_singleton. naive_solver.
Qed.

(** Start two operations, fail the first for the third time, complete the second. *)
Definition session : list command :=
  [Start op1; Start op2; Checkpoint 5 "op2" (with_status InProgress); Fail_ 6 "op1" "timeout"; Complete 7 "op2"].

Lemma log_refines_map_witness : Forall command_ok session ∧
  let '(logged, active) := foldl (λ s c, spec_command c s) (∅, ∅) session in
  ∃ m, run_commands true session (manager_new {| recovery_log := Missing; temp_log := Missing |} tt) = (m, Ok tt) ∧
    active_operations m = active ∧
    ∃ ops, load_recovery_log (recovery_log (disk m)) = Ok ops ∧ NoDup (id <$> ops) ∧
      ∀ op, op ∈ ops ↔ logged !! id op = Some op ∧ is_pending op = true.
Proof.
  assert (Forall command_ok session) as Hok.
  { unfold session. constructor; [split; cbn; lia|]. constructor; [split; cbn; lia|].
    constructor; [by intros|]. by do 3 constructor. }
  split; [exact Hok|]. exact (log_refines_map true session tt Hok).
Defined.

(** The database refuses the transfer, which has failed twice before. *)
Lemma recover_on_startup_spec_witness :
  log_holds log1 {[ "op1" := op1 ]} ∧
  ∃ m' L' stats ops, recover_on_startup true (λ _, 3600)
      (manager_new {| recovery_log := log1; temp_log := Missing |} tt) = (m', Ok stats) ∧
    active_operations m' = ∅ ∧ log_holds (recovery_log (disk m')) L' ∧
    (∀ op, op ∈ ops ↔ ({[ "op1" := op1 ]} : gmap string Operation) !! id op = Some op ∧ is_pending op = true) ∧
    operations_recovered stats = zlen ops ∧
    operations_completed stats = zcount (λ op, is_young (λ _, 3600) op && is_done op) ops ∧
    operations_abandoned stats = zcount (λ op, too_old 3600 op) ops ∧
    ∀ k op, ({[ "op1" := op1 ]} : gmap string Operation) !! k = Some op → ∃ op', L' !! k = Some op' ∧
      if is_pending op && is_young (λ _, 3600) op then recovered op op' else op' = op.
Proof.
  split; [exact log1_holds|].
  refine (recover_on_startup_spec true _ (λ _, 3600) (manager_new {| recovery_log := log1; temp_log := Missing |} tt)
    {[ "op1" := op1 ]} log1_holds _); [by intros|].
  apply map_Forall_singleton. unfold countable. cbn. lia.
Defined.

Definition disk1 : Disk := {| recovery_log := log1; temp_log := Missing |}.

(** The process dies while it writes the temporary file. *)
Lemma save_survives_crash_witness : ∃ ss, save_steps op2 log1 = Ok ss ∧
  let d' := {| recovery_log := log1; temp_log := Text EmptyString |} in
  crashed disk1 ss d' ∧
  (log_holds log1 {[ "op1" := op1 ]} ∨ log_holds log1 (<["op2" := op2]> {[ "op1" := op1 ]})) ∧
  ∀ op', ∃ ss', save_steps op' log1 = Ok ss' ∧
    (log_holds (recovery_log (apply_steps d' ss')) (<[id op' := op']> {[ "op1" := op1 ]}) ∨
     log_holds (recovery_log (apply_steps d' ss')) (<[id op' := op']> (<["op2" := op2]> {[ "op1" := op1 ]}))).
Proof.
  destruct log1_holds as (ops & Hr & Hh). destruct (save_steps_spec op2 log1 ops Hr) as (content & E & _).
  exists [WriteTemp content; RenameTemp]. split; [exact E|].
  assert (crashed disk1 [WriteTemp content; RenameTemp]
    {| recovery_log := log1; temp_log := Text EmptyString |}) as Hc.
  { apply (crashed_temp disk1 content (Text EmptyString)). exists EmptyString, content. split; [reflexivity|by left]. }
  split; [exact Hc|].
  exact (save_survives_crash op2 disk1 _ {| recovery_log := log1; temp_log := Text EmptyString |} _ log1_holds E Hc).
Defined.

Lemma crash_loses_operations_witness :
  (∃ ss d' ops, save_steps (with_status Recovering op1) log1 = Ok ss ∧ crashed disk1 ss d' ∧
     load_recovery_log (recovery_log d') = Ok ops ∧ ∀ o, o ∈ ops → id o ≠ "op1") ∧
  (∃ ss d', remove_steps "op1" log1 = Ok ss ∧ crashed disk1 ss d' ∧ load_recovery_log (recovery_log d') = Ok []).
Proof. refine (crash_loses_operations op1 disk1 _ log1_holds _); discriminate. Defined.

Lemma concurrent_starts_lose_operation_witness :
  (∃ schedule d' L', run_tasks op1 op2 schedule (Reading, Reading, {| recovery_log := Missing; temp_log := Missing |}) =
       (Done (Ok tt), Done (Ok tt), d') ∧
     log_holds (recovery_log d') L' ∧ L' = <["op2" := op2]> ∅ ∧ L' !! "op1" = None) ∧
  (∃ d' L', run_tasks op1 op2 [false; false; false; true; true; true]
       (Reading, Reading, {| recovery_log := Missing; temp_log := Missing |}) = (Done (Ok tt), Done (Ok tt), d') ∧
     log_holds (recovery_log d') L' ∧ L' !! "op1" = Some op1 ∧ L' !! "op2" = Some op2).
Proof.
  refine (concurrent_starts_lose_operation op1 op2 {| recovery_log := Missing; temp_log := Missing |} ∅ _ _ _);
    [by exists []; split; [|apply holds_empty]|discriminate|by rewrite lookup_empty].
Defined.
End Examples.
