(* ===== verification/Persistence.v ===== *)
(** The state of synchronisations on disk: landro-sync/src/sync_persistence.rs.

    Every session is a record in memory and a JSON file, which is written when
    the session starts, fails a chunk, completes or is interrupted, and after a
    number of completed chunks. A restart loads the files. Times are seconds;
    serde_json is a class. *)

From S2P Require Import Prelude Bytes Manifest Conflict.
From Stdlib Require Import ZArith Lia.
From stdpp Require Import base option list gmap sets strings pretty numbers sorting.
Open Scope Z_scope.

(** ** Sessions *)

Inductive SyncSessionStatus := Active | Completed | Interrupted | Failed.
#[export] Instance SyncSessionStatus_eq_dec : EqDecision SyncSessionStatus.
Proof. solve_decision. Defined.

Record PersistedSyncSession := {
  session_id : string;
  peer_id : string;
  folder_path : string;
  status : SyncSessionStatus;
  started_at : Z;
  last_activity : Z;
  completed_at : option Z;
  completed_chunks : gset string;
  pending_chunks : gset string;
  failed_chunks : gset string;
  conflicts : list Conflict;
  total_chunks : Z;
  total_bytes : Z;
  transferred_bytes : Z;
  resume_token : option string;
  checkpoint_data : option string;
}.

Definition session_new (now : Z) (session_id peer_id folder_path : string) : PersistedSyncSession :=
  {| session_id := session_id; peer_id := peer_id; folder_path := folder_path; status := Active;
     started_at := now; last_activity := now; completed_at := None; completed_chunks := ∅;
     pending_chunks := ∅; failed_chunks := ∅; conflicts := []; total_chunks := 0; total_bytes := 0;
     transferred_bytes := 0; resume_token := None; checkpoint_data := None |}.

Definition can_resume (s : PersistedSyncSession) : bool :=
  match status s with Interrupted => negb (bool_decide (pending_chunks s = ∅)) | _ => false end.

(** The fields that the methods change. *)
Definition set_chunks (now : Z) (completed pending failed : gset string) (s : PersistedSyncSession) :
    PersistedSyncSession :=
  {| session_id := session_id s; peer_id := peer_id s; folder_path := folder_path s; status := status s;
     started_at := started_at s; last_activity := now; completed_at := completed_at s;
     completed_chunks := completed; pending_chunks := pending; failed_chunks := failed;
     conflicts := conflicts s; total_chunks := total_chunks s; total_bytes := total_bytes s;
     transferred_bytes := transferred_bytes s; resume_token := resume_token s;
     checkpoint_data := checkpoint_data s |}.
Definition set_status (now : Z) (x : SyncSessionStatus) (at_ : option Z) (s : PersistedSyncSession) :
    PersistedSyncSession :=
  {| session_id := session_id s; peer_id := peer_id s; folder_path := folder_path s; status := x;
     started_at := started_at s; last_activity := now; completed_at := at_;
     completed_chunks := completed_chunks s; pending_chunks := pending_chunks s;
     failed_chunks := failed_chunks s;
     conflicts := conflicts s; total_chunks := total_chunks s; total_bytes := total_bytes s;
     transferred_bytes := transferred_bytes s; resume_token := resume_token s;
     checkpoint_data := checkpoint_data s |}.
Definition set_conflicts (now : Z) (x : list Conflict) (s : PersistedSyncSession) : PersistedSyncSession :=
  {| session_id := session_id s; peer_id := peer_id s; folder_path := folder_path s; status := status s;
     started_at := started_at s; last_activity := now; completed_at := completed_at s;
     completed_chunks := completed_chunks s; pending_chunks := pending_chunks s;
     failed_chunks := failed_chunks s;
     conflicts := x; total_chunks := total_chunks s; total_bytes := total_bytes s;
     transferred_bytes := transferred_bytes s; resume_token := resume_token s;
     checkpoint_data := checkpoint_data s |}.
Definition set_transferred (x : Z) (s : PersistedSyncSession) : PersistedSyncSession :=
  {| session_id := session_id s; peer_id := peer_id s; folder_path := folder_path s; status := status s;
     started_at := started_at s; last_activity := last_activity s; completed_at := completed_at s;
     completed_chunks := completed_chunks s; pending_chunks := pending_chunks s;
     failed_chunks := failed_chunks s;
     conflicts := conflicts s; total_chunks := total_chunks s; total_bytes := total_bytes s;
     transferred_bytes := x; resume_token := resume_token s;
     checkpoint_data := checkpoint_data s |}.

Definition session_chunk_completed (now : Z) (chunk_hash : string) (s : PersistedSyncSession) :
    PersistedSyncSession :=
  set_chunks now (completed_chunks s ∪ {[ chunk_hash ]}) (pending_chunks s ∖ {[ chunk_hash ]})
    (failed_chunks s ∖ {[ chunk_hash ]}) s.
Definition session_chunk_failed (now : Z) (chunk_hash : string) (s : PersistedSyncSession) :
    PersistedSyncSession :=
  set_chunks now (completed_chunks s) (pending_chunks s ∖ {[ chunk_hash ]})
    (failed_chunks s ∪ {[ chunk_hash ]}) s.
Definition session_add_conflict (now : Z) (c : Conflict) (s : PersistedSyncSession) : PersistedSyncSession :=
  set_conflicts now (conflicts s ++ [c]) s.
Definition session_complete (now : Z) (s : PersistedSyncSession) : PersistedSyncSession :=
  set_status now Completed (Some now) s.
Definition session_interrupt (now : Z) (s : PersistedSyncSession) : PersistedSyncSession :=
  set_status now Interrupted (completed_at s) s.
Definition session_fail (now : Z) (s : PersistedSyncSession) : PersistedSyncSession :=
  set_status now Failed (completed_at s) s.

(** ** The manager *)

Record SyncPersistenceConfig := {
  save_interval_chunks : Z;
  completed_session_retention : Z;
  max_in_memory_sessions : Z;
}.
Definition SyncPersistenceConfig_default : SyncPersistenceConfig :=
  {| save_interval_chunks := 50; completed_session_retention := 7 * 86400; max_in_memory_sessions := 100 |}.

(** A file of the state directory; [Unreadable] is one that is not text. *)
Inductive StateFile := Text (content : string) | Unreadable.
Inductive PersistError := StorageError (text : string).

(** [serde_json] at the type of sessions. *)
Class SessionJson := {
  to_json : PersistedSyncSession → option string;
  from_json : string → option PersistedSyncSession;
}.
Class SessionJsonLaws `{SessionJson} := {
  json_total : ∀ s, is_Some (to_json s);
  json_roundtrip : ∀ s t, to_json s = Some t → from_json t = Some s;
}.

(** The state directory is a map from file names to files. A name with a slash is
    a file outside of the directory: it can be written, and is not listed. *)
Definition file_name (session_id : string) : string := session_id +:+ ".json".
Definition slash : Ascii.ascii := Ascii.ascii_of_nat 47.
(** [Path::extension] is "json": there is a name before the dot. *)
Definition is_listed (name : string) : bool :=
  negb (existsb (Ascii.eqb slash) (String.list_ascii_of_string name)).
Definition has_json_extension (name : string) : bool :=
  match name with String _ rest => ends_with ".json" rest | EmptyString => false end.

Record SyncPersistenceManager := {
  config : SyncPersistenceConfig;
  sessions : gmap string PersistedSyncSession;
  chunk_counter : gmap string Z;
  state_dir : gmap string StateFile;
}.
Definition set_sessions (x : gmap string PersistedSyncSession) (m : SyncPersistenceManager) :=
  {| config := config m; sessions := x; chunk_counter := chunk_counter m; state_dir := state_dir m |}.
Definition set_counter (x : gmap string Z) (m : SyncPersistenceManager) :=
  {| config := config m; sessions := sessions m; chunk_counter := x; state_dir := state_dir m |}.
Definition set_dir (x : gmap string StateFile) (m : SyncPersistenceManager) :=
  {| config := config m; sessions := sessions m; chunk_counter := chunk_counter m; state_dir := x |}.

Section manager.
Context `{SessionJson, MapIter} (checked : bool).
Abbreviation manager := (st SyncPersistenceManager PersistError).

Definition update_session (k : string) (f : PersistedSyncSession → PersistedSyncSession) : manager unit :=
  modify_st (λ m, set_sessions (alter f k (sessions m)) m).

Definition save_session (k : string) : manager unit :=
  self ← get_st;
  match sessions self !! k with
  | Some session =>
      json_data ← lift (ok_or (StorageError "Failed to serialize session") (to_json session));
      modify_st (λ m, set_dir (<[file_name k := Text json_data]> (state_dir m)) m)
  | None => mret tt
  end.

Definition load_session (f : StateFile) : outcome PersistError PersistedSyncSession :=
  match f with
  | Text json_data => ok_or (StorageError "Failed to parse session") (from_json json_data)
  | Unreadable => Err (StorageError "Failed to read session file")
  end.

(** Files that do not load are skipped. *)
Fixpoint load_files (entries : list (string * StateFile)) (acc : gmap string PersistedSyncSession) :
    gmap string PersistedSyncSession :=
  match entries with
  | [] => acc
  | (name, f) :: entries =>
      load_files entries
        (if is_listed name && has_json_extension name then
           match load_session f with Ok s => <[session_id s := s]> acc | _ => acc end
         else acc)
  end.
Definition load_sessions : manager unit :=
  modify_st (λ m, set_sessions (load_files (map_iter (state_dir m)) (sessions m)) m).

(** [SyncPersistenceManager::new] over a state directory. *)
Definition manager_new (config : SyncPersistenceConfig) (dir : gmap string StateFile) :
    SyncPersistenceManager * outcome PersistError unit :=
  load_sessions {| config := config; sessions := ∅; chunk_counter := ∅; state_dir := dir |}.

Definition start_session (session : PersistedSyncSession) : manager unit :=
  let k := session_id session in
  _ ← modify_st (λ m, set_sessions (<[k := session]> (sessions m)) m);
  _ ← modify_st (λ m, set_counter (<[k := 0]> (chunk_counter m)) m);
  save_session k.

Definition mark_chunk_completed (now : Z) (k chunk_hash : string) (chunk_size : Z) : manager unit :=
  self ← get_st;
  should_save ← (match sessions self !! k with
    | Some session =>
        _ ← update_session k (session_chunk_completed now chunk_hash);
        bytes ← lift (arith checked 64 (transferred_bytes session + chunk_size));
        _ ← update_session k (set_transferred bytes);
        count ← lift (arith checked 64 (default 0 (chunk_counter self !! k) + 1));
        _ ← modify_st (λ m, set_counter (<[k := count]> (chunk_counter m)) m);
        mret (save_interval_chunks (config self) <=? count)
    | None => mret false
    end);
  if should_save : bool then
    _ ← modify_st (λ m, set_counter (<[k := 0]> (chunk_counter m)) m);
    save_session k
  else mret tt.

Definition mark_chunk_failed (now : Z) (k chunk_hash : string) : manager unit :=
  self ← get_st;
  match sessions self !! k with
  | Some _ => _ ← update_session k (session_chunk_failed now chunk_hash); save_session k
  | None => mret tt
  end.

Definition add_conflict (now : Z) (k : string) (c : Conflict) : manager unit :=
  update_session k (session_add_conflict now c).

Definition complete_session (now : Z) (k : string) : manager unit :=
  self ← get_st;
  _ ← (match sessions self !! k with
       | Some _ => _ ← update_session k (session_complete now); save_session k
       | None => mret tt
       end);
  modify_st (λ m, set_counter (base.delete k (chunk_counter m)) m).

Definition interrupt_session (now : Z) (k : string) : manager unit :=
  self ← get_st;
  match sessions self !! k with
  | Some _ => _ ← update_session k (session_interrupt now); save_session k
  | None => mret tt
  end.

Definition get_resumable_sessions (m : SyncPersistenceManager) : list PersistedSyncSession :=
  List.filter can_resume (map snd (map_iter (sessions m))).
Definition get_session (k : string) (m : SyncPersistenceManager) : option PersistedSyncSession := sessions m !! k.

Definition remove_session (k : string) : manager unit :=
  _ ← modify_st (λ m, set_sessions (base.delete k (sessions m)) m);
  modify_st (λ m, set_dir (base.delete (file_name k) (state_dir m)) m).

Definition is_expired (cutoff : Z) (s : PersistedSyncSession) : bool :=
  match status s, completed_at s with Completed, Some t => t <? cutoff | _, _ => false end.
Fixpoint remove_sessions (ks : list string) : manager unit :=
  match ks with [] => mret tt | k :: ks => _ ← remove_session k; remove_sessions ks end.
Definition cleanup_old_sessions (now : Z) : manager unit :=
  self ← get_st;
  let cutoff := now - completed_session_retention (config self) in
  remove_sessions (map fst (List.filter (λ p, is_expired cutoff p.2) (map_iter (sessions self)))).
End manager.

(** ** File names *)

Definition valid_id (k : string) : Prop :=
  k ≠ EmptyString ∧ existsb (Ascii.eqb slash) (String.list_ascii_of_string k) = false.

Lemma file_name_listed k : valid_id k → is_listed (file_name k) && has_json_extension (file_name k) = true.
Proof.
  intros [Hne Hs]. unfold is_listed, file_name. rewrite list_ascii_app, existsb_app, Hs. cbn.
  destruct k as [|c k]; [done|]. change (String c k +:+ ".json") with (String c (k +:+ ".json")).
  cbn [has_json_extension]. apply ends_with_app.
Qed.
Lemma file_name_inj k k' : file_name k = file_name k' → k = k'.
Proof.
  unfold file_name. intros E. apply (f_equal String.list_ascii_of_string) in E.
  rewrite !list_ascii_app in E. apply app_inv_tail in E.
  rewrite <-(String.string_of_list_ascii_of_string k), <-(String.string_of_list_ascii_of_string k').
  by rewrite E.
Qed.

(** ** What a restart finds *)

(** No chunk is pending and also done or failed. *)
Definition chunks_ok (s : PersistedSyncSession) : Prop :=
  pending_chunks s ## completed_chunks s ∧ pending_chunks s ## failed_chunks s.

(** [s] is [s0] after the chunks [hs] arrived, but for times, bytes and conflicts. *)
Record behind (s0 s : PersistedSyncSession) (hs : list string) : Prop := {
  bh_id : session_id s = session_id s0;
  bh_peer : peer_id s = peer_id s0;
  bh_folder : folder_path s = folder_path s0;
  bh_status : status s = status s0;
  bh_completed : completed_chunks s = completed_chunks s0 ∪ list_to_set hs;
  bh_pending : pending_chunks s = pending_chunks s0 ∖ list_to_set hs;
  bh_failed : failed_chunks s = failed_chunks s0 ∖ list_to_set hs;
}.

Inductive command :=
  | Start (session : PersistedSyncSession)
  | ChunkCompleted (now : Z) (k chunk_hash : string) (chunk_size : Z)
  | ChunkFailed (now : Z) (k chunk_hash : string)
  | AddConflict (now : Z) (k : string) (c : Conflict)
  | Complete (now : Z) (k : string)
  | Interrupt (now : Z) (k : string)
  | Cleanup (now : Z).

Definition bytes_of (c : command) : Z :=
  match c with Start s => transferred_bytes s | ChunkCompleted _ _ _ size => size | _ => 0 end.
Definition command_ok (c : command) : Prop :=
  0 ≤ bytes_of c ∧ match c with Start s => valid_id (session_id s) ∧ chunks_ok s | _ => True end.

Section persistence.
Context `{SessionJsonLaws, MapIter} (checked : bool).
#[local] Set Default Proof Using "All".

Definition run_command (c : command) : st SyncPersistenceManager PersistError unit :=
  match c with
  | Start s => start_session s
  | ChunkCompleted now k h size => mark_chunk_completed checked now k h size
  | ChunkFailed now k h => mark_chunk_failed now k h
  | AddConflict now k c => add_conflict now k c
  | Complete now k => complete_session now k
  | Interrupt now k => interrupt_session now k
  | Cleanup now => cleanup_old_sessions now
  end.
Fixpoint run_commands (cs : list command) : st SyncPersistenceManager PersistError unit :=
  match cs with [] => mret tt | c :: cs => _ ← run_command c; run_commands cs end.

(** At most this many completed chunks are not in the file of their session. *)
Definition limit (c : SyncPersistenceConfig) : Z := Z.max 1 (save_interval_chunks c).
Definition counted (m : SyncPersistenceManager) (k : string) : Z := default 0 (chunk_counter m !! k).

Record session_ok (total : Z) (k : string) (s : PersistedSyncSession) : Prop := {
  so_id : session_id s = k;
  so_valid : valid_id k;
  so_chunks : chunks_ok s;
  so_bytes : 0 ≤ transferred_bytes s ≤ total;
}.
(** The file of a session is at most [n] chunks behind. *)
Definition saved (total : Z) (dir : gmap string StateFile) (k : string) (s : PersistedSyncSession) (n : Z) : Prop :=
  ∃ t s0 hs, dir !! file_name k = Some (Text t) ∧ to_json s0 = Some t ∧ session_ok total k s0 ∧
    behind s0 s hs ∧ zlen hs ≤ n.

Record manager_inv (total : Z) (m : SyncPersistenceManager) : Prop := {
  mi_total : 0 ≤ total;
  mi_sessions : map_Forall (session_ok total) (sessions m);
  mi_saved : map_Forall (λ k s, saved total (state_dir m) k s (counted m k)) (sessions m);
  mi_counter : map_Forall (λ _ n, 0 ≤ n < limit (config m)) (chunk_counter m);
  mi_files : map_Forall (λ name _, ∃ k, name = file_name k ∧ is_Some (sessions m !! k)) (state_dir m);
}.

Lemma counted_range total m k : manager_inv total m → 0 ≤ counted m k < limit (config m).
Proof.
  intros [_ _ _ Hc _]. unfold counted. destruct (chunk_counter m !! k) as [n|] eqn:E; [by apply (Hc k)|].
  cbn. unfold limit. lia.
Qed.
Lemma behind_refl s : behind s s [].
Proof. split; try done; set_solver. Qed.

(** The file of another session is not touched. *)
Lemma saved_other total dir k k' f s n : k' ≠ k → saved total dir k' s n → saved total (<[file_name k := f]> dir) k' s n.
Proof.
  intros Hne (t & s0 & hs & Hd & ?). exists t, s0, hs. split; [|done].
  rewrite lookup_insert_ne; [done|]. by intros ?%file_name_inj.
Qed.
(** A session is replaced in memory and in its file. *)
Lemma save_inv total m k s t counter : manager_inv total m → session_ok total k s → to_json s = Some t →
  (∀ k', k' ≠ k → counter !! k' = chunk_counter m !! k') →
  map_Forall (λ _ n, 0 ≤ n < limit (config m)) counter →
  manager_inv total (set_dir (<[file_name k := Text t]> (state_dir m))
    (set_counter counter (set_sessions (<[k := s]> (sessions m)) m))).
Proof.
  intros Hm Hs Ht Hk Hc. pose proof Hm as [Ht0 Hses Hsav _ Hfiles]. split; cbn; [exact Ht0|..].
  - by apply map_Forall_insert_2.
  - intros k' s' Hs'. apply lookup_insert_Some in Hs' as [[<- <-]|[Hne Hs']].
    + exists t, s, []. rewrite lookup_insert_eq. split_and!; [done..|apply behind_refl|].
      unfold counted. cbn. destruct (counter !! k) as [n|] eqn:E; cbn; [|done].
      destruct (Hc k n E) as [Hn _]. rewrite zlen_nil. lia.
    + apply saved_other; [done|]. unfold counted. cbn. rewrite Hk by done. by apply Hsav.
  - exact Hc.
  - intros name f Hf. apply lookup_insert_Some in Hf as [[<- _]|[_ Hf]].
    + exists k. split; [done|]. by rewrite lookup_insert_eq.
    + destruct (Hfiles name f Hf) as (k' & -> & Hk'). exists k'. split; [done|].
      destruct (decide (k' = k)) as [->|]; [by rewrite lookup_insert_eq|by rewrite lookup_insert_ne].
Qed.

(** A session is changed in memory only. *)
Lemma memory_inv total m k s s' counter : manager_inv total m → sessions m !! k = Some s →
  session_ok total k s' → saved total (state_dir m) k s' (default 0 (counter !! k)) →
  (∀ k', k' ≠ k → counter !! k' = chunk_counter m !! k') →
  map_Forall (λ _ n, 0 ≤ n < limit (config m)) counter →
  manager_inv total (set_counter counter (set_sessions (<[k := s']> (sessions m)) m)).
Proof.
  intros Hm Hs Hs' Hsaved Hk Hc. pose proof Hm as [Ht0 Hses Hsav _ Hfiles]. split; cbn; [exact Ht0|..].
  - by apply map_Forall_insert_2.
  - intros k' x Hx. apply lookup_insert_Some in Hx as [[<- <-]|[Hne Hx]]; [done|].
    unfold counted. cbn. rewrite Hk by done. by apply Hsav.
  - exact Hc.
  - intros name f Hf. destruct (Hfiles name f Hf) as (k' & -> & Hk'). exists k'. split; [done|].
    destruct (decide (k' = k)) as [->|]; [by rewrite lookup_insert_eq|by rewrite lookup_insert_ne].
Qed.
Lemma manager_inv_mono total total' m : total ≤ total' → manager_inv total m → manager_inv total' m.
Proof.
  assert (∀ k s, total ≤ total' → session_ok total k s → session_ok total' k s) as Hok
    by (intros k s ? [? ? ? ?]; split; try done; lia).
  intros Ht [? Hs Hsav ? ?]. split; try done; [lia|eapply map_Forall_impl; [exact Hs|]; eauto|].
  eapply map_Forall_impl; [exact Hsav|]. intros k s (t & s0 & hs & ? & ? & ? & ?). exists t, s0, hs. eauto 6.
Qed.

Lemma alter_insert_Some {A} (f : A → A) (M : gmap string A) k x : M !! k = Some x → alter f k M = <[k := f x]> M.
Proof.
  intros Hk. apply map_eq. intros k'. destruct (decide (k' = k)) as [->|Hne].
  - by rewrite lookup_alter_eq, lookup_insert_eq, Hk.
  - by rewrite lookup_alter_ne, lookup_insert_ne.
Qed.

Lemma save_session_eq k m s : sessions m !! k = Some s →
  ∃ t, to_json s = Some t ∧ save_session k m = (set_dir (<[file_name k := Text t]> (state_dir m)) m, Ok tt).
Proof.
  intros Hk. destruct (json_total s) as [t Ht]. exists t. split; [done|].
  unfold save_session. erewrite st_bind_eq by reflexivity. rewrite Hk.
  by erewrite st_bind_eq by (unfold lift; by rewrite Ht).
Qed.

(** A change of a session that is saved at once. *)
Lemma update_and_save total m k s (f : PersistedSyncSession → PersistedSyncSession) :
  manager_inv total m → sessions m !! k = Some s → session_ok total k (f s) →
  ∃ t, to_json (f s) = Some t ∧
    (_ ← update_session k f; save_session k) m =
      (set_dir (<[file_name k := Text t]> (state_dir m)) (set_sessions (<[k := f s]> (sessions m)) m), Ok tt).
Proof.
  intros Hm Hk Hf.
  destruct (save_session_eq k (set_sessions (<[k := f s]> (sessions m)) m) (f s)) as (t & Ht & E);
    [by cbn; rewrite lookup_insert_eq|].
  exists t. split; [done|]. unfold update_session. erewrite st_bind_eq by (unfold modify_st; by rewrite (alter_insert_Some f _ k s)).
  exact E.
Qed.

Lemma behind_completed s0 s hs now h b : behind s0 s hs →
  behind s0 (set_transferred b (session_chunk_completed now h s)) (h :: hs).
Proof. intros [? ? ? ? Hc Hp Hf]. split; try done; cbn; rewrite ?Hc, ?Hp, ?Hf; apply set_eq; set_solver. Qed.

Lemma start_inv total m s : manager_inv total m → command_ok (Start s) →
  ∃ m', start_session s m = (m', Ok tt) ∧ manager_inv (total + transferred_bytes s) m' ∧ config m' = config m.
Proof.
  intros Hm (Hb & Hid & Hch). cbn in Hb. unfold start_session.
  set (k := session_id s). set (m1 := set_counter (<[k := 0]> (chunk_counter m)) (set_sessions (<[k := s]> (sessions m)) m)).
  destruct (save_session_eq k m1 s) as (t & Ht & E); [by cbn; rewrite lookup_insert_eq|].
  eexists. split; [do 2 (erewrite st_bind_eq by reflexivity); exact E|]. split; [|done].
  assert (manager_inv (total + transferred_bytes s) m) as Hm' by (apply (manager_inv_mono total); [lia|done]).
  refine (save_inv _ m k s t (<[k := 0]> (chunk_counter m)) _ _ Ht _ _).
  - exact Hm'.
  - split; try done. pose proof (mi_total _ _ Hm). lia.
  - intros k' Hne. by rewrite lookup_insert_ne.
  - apply map_Forall_insert_2; [unfold limit; lia|]. apply (mi_counter _ _ Hm).
Qed.

Lemma chunk_completed_ok total k s now h b : session_ok total k s → 0 ≤ b →
  session_ok (Z.max total b) k (set_transferred b (session_chunk_completed now h s)).
Proof.
  intros [? ? [? ?] ?] Hb. split; try done; [|cbn; lia].
  unfold chunks_ok. cbn. set_solver.
Qed.

Lemma chunk_completed_inv total m now k h size : manager_inv total m → 0 ≤ size → total + size < 2 ^ 64 →
  limit (config m) ≤ 2 ^ 64 - 1 →
  ∃ m', mark_chunk_completed checked now k h size m = (m', Ok tt) ∧ manager_inv (total + size) m' ∧
    config m' = config m.
Proof.
  intros Hm Hsize Hlt Hlimit. pose proof (mi_total _ _ Hm) as Ht0. unfold mark_chunk_completed. erewrite st_bind_eq by reflexivity.
  assert (manager_inv (total + size) m) as Hm' by (apply (manager_inv_mono total); [lia|done]).
  destruct (sessions m !! k) as [s|] eqn:Ek; [|by exists m].
  pose proof (mi_sessions _ _ Hm k s Ek) as Hs. pose proof (so_bytes _ _ _ Hs) as Hbytes.
  set (s' := set_transferred (transferred_bytes s + size) (session_chunk_completed now h s)).
  set (n := counted m k + 1). pose proof (counted_range total m k Hm) as Hn.
  set (m1 := set_counter (<[k := n]> (chunk_counter m)) (set_sessions (<[k := s']> (sessions m)) m)).
  assert (session_ok (total + size) k s') as Hs'.
  { destruct (chunk_completed_ok total k s now h (transferred_bytes s + size) Hs ltac:(lia)). split; try done. cbn. lia. }
  assert ((_ ← update_session k (session_chunk_completed now h);
     bytes ← lift (arith checked 64 (transferred_bytes s + size));
     _ ← update_session k (set_transferred bytes);
     count ← lift (arith checked 64 (default 0 (chunk_counter m !! k) + 1));
     _ ← modify_st (λ m, set_counter (<[k := count]> (chunk_counter m)) m);
     mret (save_interval_chunks (config m) <=? count)) m =
    (m1, Ok (save_interval_chunks (config m) <=? n) : outcome PersistError bool)) as E.
  { erewrite st_bind_eq by reflexivity. erewrite st_bind_eq by (rewrite arith_exact by lia; reflexivity).
    erewrite st_bind_eq by reflexivity.
    erewrite st_bind_eq by (unfold lift; rewrite arith_exact by (fold (counted m k); lia); reflexivity).
    erewrite st_bind_eq by reflexivity. unfold mret, st_ret. f_equal. subst m1. unfold set_counter, set_sessions. cbn.
    f_equal. rewrite (alter_insert_Some (session_chunk_completed now h) _ k s) by done.
    rewrite (alter_insert_Some _ _ k (session_chunk_completed now h s)) by (by rewrite lookup_insert_eq).
    by rewrite insert_insert_eq. }
  erewrite st_bind_eq by exact E. destruct (Z.leb_spec (save_interval_chunks (config m)) n) as [Hle|Hgt].
  - erewrite st_bind_eq by reflexivity.
    destruct (save_session_eq k (set_counter (<[k := 0]> (chunk_counter m1)) m1) s') as (t & Ht & Es);
      [by cbn; rewrite lookup_insert_eq|].
    eexists. split; [exact Es|]. split; [|done].
    refine (save_inv (total + size) m k s' t (<[k := 0]> (<[k := n]> (chunk_counter m))) Hm' Hs' Ht _ _).
    + intros k' Hne. by rewrite !lookup_insert_ne.
    + rewrite insert_insert_eq. apply map_Forall_insert_2; [unfold limit; lia|apply (mi_counter _ _ Hm)].
  - exists m1. split; [done|]. split; [|done].
    refine (memory_inv (total + size) m k s s' (<[k := n]> (chunk_counter m)) Hm' Ek Hs' _ _ _).
    + destruct (mi_saved _ _ Hm' k s Ek) as (t & s0 & hs & Hd & Ht & Hs0 & Hb & Hl).
      exists t, s0, (h :: hs). split_and!; [done..|by apply behind_completed|].
      rewrite lookup_insert_eq, zlen_cons. cbn. lia.
    + intros k' Hne. by rewrite lookup_insert_ne.
    + apply map_Forall_insert_2; [unfold limit; lia|apply (mi_counter _ _ Hm)].
Qed.

(** The commands that change one session and save it. *)
Lemma saved_update_inv total m k s (f : PersistedSyncSession → PersistedSyncSession) :
  manager_inv total m → sessions m !! k = Some s → session_ok total k (f s) →
  ∃ m', (_ ← update_session k f; save_session k) m = (m', Ok tt) ∧ manager_inv total m' ∧
    config m' = config m ∧ chunk_counter m' = chunk_counter m.
Proof.
  intros Hm Hk Hf. destruct (update_and_save total m k s f Hm Hk Hf) as (t & Ht & E).
  eexists. split; [exact E|]. split; [|done].
  exact (save_inv total m k (f s) t (chunk_counter m) Hm Hf Ht (λ _ _, eq_refl) (mi_counter _ _ Hm)).
Qed.

Lemma chunk_failed_inv total m now k h : manager_inv total m →
  ∃ m', mark_chunk_failed now k h m = (m', Ok tt) ∧ manager_inv total m' ∧ config m' = config m.
Proof.
  intros Hm. unfold mark_chunk_failed. erewrite st_bind_eq by reflexivity.
  destruct (sessions m !! k) as [s|] eqn:Ek; [|by exists m].
  destruct (saved_update_inv total m k s (session_chunk_failed now h) Hm Ek) as (m' & E & Hm' & Hc & _); [|by exists m'].
  destruct (mi_sessions _ _ Hm k s Ek) as [? ? [? ?] ?]. split; try done. unfold chunks_ok. cbn. set_solver.
Qed.
Lemma interrupt_inv total m now k : manager_inv total m →
  ∃ m', interrupt_session now k m = (m', Ok tt) ∧ manager_inv total m' ∧ config m' = config m.
Proof.
  intros Hm. unfold interrupt_session. erewrite st_bind_eq by reflexivity.
  destruct (sessions m !! k) as [s|] eqn:Ek; [|by exists m].
  destruct (saved_update_inv total m k s (session_interrupt now) Hm Ek) as (m' & E & Hm' & Hc & _); [|by exists m'].
  by destruct (mi_sessions _ _ Hm k s Ek).
Qed.

(** Dropping the counter of a session whose file is up to date or that is unknown. *)
Lemma drop_counter_inv total m k : manager_inv total m →
  (∀ s, sessions m !! k = Some s → saved total (state_dir m) k s 0) →
  manager_inv total (set_counter (base.delete k (chunk_counter m)) m).
Proof.
  intros [Ht Hs Hsav Hc Hf] Hk. split; cbn; try done; [|by apply map_Forall_delete].
  intros k' s Hs'. unfold counted. cbn. destruct (decide (k' = k)) as [->|Hne].
  - rewrite lookup_delete_eq. by apply Hk.
  - rewrite lookup_delete_ne by done. by apply Hsav.
Qed.
Lemma complete_inv total m now k : manager_inv total m →
  ∃ m', complete_session now k m = (m', Ok tt) ∧ manager_inv total m' ∧ config m' = config m.
Proof.
  intros Hm. unfold complete_session. erewrite st_bind_eq by reflexivity.
  destruct (sessions m !! k) as [s|] eqn:Ek.
  - assert (session_ok total k (session_complete now s)) as Hs' by by destruct (mi_sessions _ _ Hm k s Ek).
    destruct (update_and_save total m k s (session_complete now) Hm Ek Hs') as (t & Ht & E).
    erewrite st_bind_eq by exact E. eexists. split; [done|]. split; [|done].
    refine (drop_counter_inv total _ k (save_inv total m k _ t (chunk_counter m) Hm Hs' Ht (λ _ _, eq_refl) (mi_counter _ _ Hm)) _).
    cbn. rewrite lookup_insert_eq. intros x [= <-].
    exists t, (session_complete now s), []. rewrite lookup_insert_eq. by split_and!; [..|apply behind_refl|].
  - erewrite st_bind_eq by reflexivity. eexists. split; [done|]. split; [|done].
    apply drop_counter_inv; [done|]. by rewrite Ek.
Qed.

Lemma add_conflict_inv total m now k c : manager_inv total m →
  ∃ m', add_conflict now k c m = (m', Ok tt) ∧ manager_inv total m' ∧ config m' = config m.
Proof.
  intros Hm. eexists. split; [done|]. split; [|done]. destruct (sessions m !! k) as [s|] eqn:Ek.
  - rewrite (alter_insert_Some _ _ k s) by done.
    refine (memory_inv total m k s _ (chunk_counter m) Hm Ek _ _ (λ _ _, eq_refl) (mi_counter _ _ Hm)).
    + by destruct (mi_sessions _ _ Hm k s Ek).
    + destruct (mi_saved _ _ Hm k s Ek) as (t & s0 & hs & Hd & Ht & Hs0 & Hb & Hl). exists t, s0, hs. split_and!; [done..| |done].
      by destruct Hb.
  - assert (alter (session_add_conflict now c) k (sessions m) = sessions m) as ->; [|by destruct m].
    apply map_eq. intros k'. destruct (decide (k' = k)) as [->|]; [by rewrite lookup_alter_eq, Ek|by rewrite lookup_alter_ne].
Qed.

Lemma remove_inv total m k : manager_inv total m →
  ∃ m', remove_session k m = (m', Ok tt) ∧ manager_inv total m' ∧ config m' = config m.
Proof.
  intros [Ht Hs Hsav Hc Hf]. eexists. split; [done|]. split; [|done]. split; cbn; [done|by apply map_Forall_delete| |done|].
  - intros k' s Hs'. apply lookup_delete_Some in Hs' as [Hne Hs'].
    destruct (Hsav k' s Hs') as (t & s0 & hs & Hd & ?). exists t, s0, hs. split; [|done].
    rewrite lookup_delete_ne; [done|]. by intros ?%file_name_inj.
  - intros name f Hnf. apply lookup_delete_Some in Hnf as [Hne Hnf].
    destruct (Hf name f Hnf) as (k' & -> & Hk'). exists k'. split; [done|].
    rewrite lookup_delete_ne; [done|]. by intros ->.
Qed.
Lemma cleanup_inv total m now : manager_inv total m →
  ∃ m', cleanup_old_sessions now m = (m', Ok tt) ∧ manager_inv total m' ∧ config m' = config m.
Proof.
  intros Hm. unfold cleanup_old_sessions. erewrite st_bind_eq by reflexivity. cbv zeta.
  generalize (map fst (List.filter (λ p, is_expired (now - completed_session_retention (config m)) p.2)
    (map_iter (sessions m)))).
  intros ks. revert m Hm. induction ks as [|k ks IH]; intros m Hm; [by exists m|].
  destruct (remove_inv total m k Hm) as (m1 & E & Hm1 & Hc1). cbn [remove_sessions].
  rewrite (st_bind_eq _ _ _ _ _ E). destruct (IH m1 Hm1) as (m2 & E2 & Hm2 & Hc2). exists m2. split_and!; [done..|congruence].
Qed.

Lemma run_command_inv total m c : manager_inv total m → command_ok c → total + bytes_of c < 2 ^ 64 →
  limit (config m) ≤ 2 ^ 64 - 1 →
  ∃ m', run_command c m = (m', Ok tt) ∧ manager_inv (total + bytes_of c) m' ∧ config m' = config m.
Proof.
  intros Hm Hc Hlt Hl. destruct c as [s|now k h size|now k h|now k x|now k|now k|now];
    cbn [run_command bytes_of] in *; rewrite ?Z.add_0_r.
  - by apply start_inv.
  - apply chunk_completed_inv; try done. by destruct Hc.
  - by apply chunk_failed_inv.
  - by apply add_conflict_inv.
  - by apply complete_inv.
  - by apply interrupt_inv.
  - by apply cleanup_inv.
Qed.
Lemma run_commands_inv cs total m : manager_inv total m → Forall command_ok cs →
  total + sum_of bytes_of cs < 2 ^ 64 → limit (config m) ≤ 2 ^ 64 - 1 →
  ∃ m', run_commands cs m = (m', Ok tt) ∧ manager_inv (total + sum_of bytes_of cs) m' ∧ config m' = config m.
Proof.
  revert total m. induction cs as [|c cs IH]; intros total m Hm Hcs Hlt Hl.
  { exists m. unfold sum_of. cbn. by rewrite Z.add_0_r. }
  apply Forall_cons in Hcs as [Hc Hcs].
  assert (0 ≤ sum_of bytes_of cs) as Hsum.
  { apply sum_of_nonneg. intros x Hx. rewrite Forall_forall in Hcs. by destruct (Hcs x Hx). }
  unfold sum_of in Hlt, Hsum |- *. cbn [map foldr] in Hlt |- *.
  destruct (run_command_inv total m c Hm Hc) as (m1 & E & Hm1 & Hc1); [lia|done|].
  cbn [run_commands]. rewrite (st_bind_eq _ _ _ _ _ E).
  destruct (IH (total + bytes_of c) m1 Hm1 Hcs) as (m2 & E2 & Hm2 & Hc2); [unfold sum_of; lia|congruence|].
  exists m2. split_and!; [done| |congruence]. unfold sum_of in Hm2. by rewrite Z.add_assoc.
Qed.

(** ** Restarts *)

(** The entries of the directory are files of sessions. *)
Definition entry_ok (e : string * StateFile) : Prop :=
  ∃ k t s0, e = (file_name k, Text t) ∧ valid_id k ∧ from_json t = Some s0 ∧ session_id s0 = k.

Lemma load_files_spec entries acc k : NoDup entries.*1 → Forall entry_ok entries →
  (∀ t s0, (file_name k, Text t) ∈ entries → from_json t = Some s0 → load_files entries acc !! k = Some s0) ∧
  ((∀ f, (file_name k, f) ∉ entries) → load_files entries acc !! k = acc !! k).
Proof.
  revert acc. induction entries as [|[name f] entries IH]; intros acc Hnd Hok; [by split; [intros ? ? ?%elem_of_nil|]|].
  cbn in Hnd. apply NoDup_cons in Hnd as [Hname Hnd]. apply Forall_cons in Hok as [(k' & t & s' & [= -> ->] & Hv & Hj & Hid) Hok].
  cbn [load_files]. rewrite (file_name_listed k' Hv). cbn [load_session]. rewrite Hj. cbn [ok_or]. rewrite Hid.
  destruct (IH (<[k' := s']> acc) Hnd Hok) as [IH1 IH2]. split.
  - intros t0 s0 [[= E <-]|Hin]%elem_of_cons Hs0; [|by apply (IH1 t0)].
    apply file_name_inj in E as ->. rewrite IH2; [rewrite lookup_insert_eq; congruence|].
    intros f Hf. apply Hname. by apply (list_elem_of_fmap_2 fst _ (file_name k', f)).
  - intros Hno. rewrite IH2; [|by intros f Hf; apply (Hno f); right].
    apply lookup_insert_ne. intros ->. apply (Hno (Text t)). left.
Qed.

Definition restart (m : SyncPersistenceManager) : SyncPersistenceManager := (manager_new (config m) (state_dir m)).1.

Lemma restart_session total m k : manager_inv total m →
  match sessions m !! k with
  | Some s => ∃ s0 hs, sessions (restart m) !! k = Some s0 ∧ session_ok total k s0 ∧ behind s0 s hs ∧
      zlen hs ≤ counted m k ∧ saved total (state_dir m) k s0 0
  | None => sessions (restart m) !! k = None
  end.
Proof.
  intros [_ Hses Hsav _ Hfiles]. unfold restart, manager_new, load_sessions, modify_st. cbn [fst sessions set_sessions state_dir].
  assert (Forall entry_ok (map_iter (state_dir m))) as Hok.
  { apply Forall_forall. intros [name f] Hin%elem_of_map_iter. destruct (Hfiles name f Hin) as (k' & -> & s & Hs).
    destruct (Hsav k' s Hs) as (t & s0 & hs & Hd & Ht & Hs0 & _). exists k', t, s0.
    split_and!; [congruence|by destruct Hs0|by apply json_roundtrip|by destruct Hs0]. }
  destruct (load_files_spec (map_iter (state_dir m)) ∅ k (NoDup_map_iter _) Hok) as [Hin Hnot].
  destruct (sessions m !! k) as [s|] eqn:Ek.
  - destruct (Hsav k s Ek) as (t & s0 & hs & Hd & Ht & Hs0 & Hb & Hl). exists s0, hs.
    split_and!; [|done..|].
    + apply (Hin t); [by apply elem_of_map_iter|by apply json_roundtrip].
    + exists t, s0, []. split_and!; [done..|apply behind_refl|done].
  - rewrite Hnot; [apply lookup_empty|]. intros f Hf%elem_of_map_iter.
    destruct (Hfiles _ _ Hf) as (k' & E & Hk'). apply file_name_inj in E as <-. rewrite Ek in Hk'. by destruct Hk'.
Qed.

Lemma restart_inv total m : manager_inv total m → manager_inv total (restart m).
Proof.
  intros Hm. pose proof (mi_total _ _ Hm). split; cbn; [done|..].
  - intros k s Hs. pose proof (restart_session total m k Hm) as Hk. destruct (sessions m !! k) as [s1|].
    + destruct Hk as (s0 & hs & Hs0 & Hok & _). change (sessions (restart m) !! k = Some s) in Hs. congruence.
    + change (sessions (restart m) !! k = Some s) in Hs. congruence.
  - intros k s Hs. pose proof (restart_session total m k Hm) as Hk. change (sessions (restart m) !! k = Some s) in Hs.
    unfold counted. cbn. destruct (sessions m !! k) as [s1|]; [|congruence].
    destruct Hk as (s0 & hs & Hs0 & _ & _ & _ & Hsaved). rewrite Hs in Hs0. injection Hs0 as <-. exact Hsaved.
  - apply map_Forall_empty.
  - intros name f Hf. destruct (mi_files _ _ Hm name f Hf) as (k & -> & s & Hs). exists k. split; [done|].
    pose proof (restart_session total m k Hm) as Hk. rewrite Hs in Hk. destruct Hk as (s0 & _ & Hs0 & _).
    exists s0. exact Hs0.
Qed.

Definition fresh_manager (cfg : SyncPersistenceConfig) : SyncPersistenceManager := (manager_new cfg ∅).1.
Lemma fresh_inv cfg : manager_inv 0 (fresh_manager cfg).
Proof.
  unfold fresh_manager, manager_new, load_sessions, modify_st. cbn. rewrite map_iter_empty. cbn.
  split; cbn; try done; apply map_Forall_empty.
Qed.

(** Runs of the daemon: commands, then a crash or an end, and again. *)
Fixpoint run_all (runs : list (list command)) (m : SyncPersistenceManager) : outcome PersistError SyncPersistenceManager :=
  match runs with
  | [] => Ok m
  | [cs] => match run_commands cs m with (m, Ok _) => Ok m | (_, Err e) => Err e | (_, Panic) => Panic end
  | cs :: runs =>
      match run_commands cs m with (m, Ok _) => run_all runs (restart m) | (_, Err e) => Err e | (_, Panic) => Panic end
  end.

Lemma run_all_inv runs total m : manager_inv total m → Forall (Forall command_ok) runs →
  total + sum_of bytes_of (concat runs) < 2 ^ 64 → limit (config m) ≤ 2 ^ 64 - 1 →
  ∃ m' total', run_all runs m = Ok m' ∧ manager_inv total' m' ∧ config m' = config m.
Proof.
  revert total m. induction runs as [|cs runs IH]; intros total m Hm Hruns Hlt Hl; [by exists m, total|].
  apply Forall_cons in Hruns as [Hcs Hruns]. cbn [concat] in Hlt. rewrite sum_of_app in Hlt.
  assert (0 ≤ sum_of bytes_of (concat runs)) as Hpos.
  { assert (Forall command_ok (concat runs)) as Hall by by apply Forall_concat.
    apply sum_of_nonneg. intros c Hc. rewrite Forall_forall in Hall. by destruct (Hall c Hc). }
  destruct (run_commands_inv cs total m Hm Hcs ltac:(lia) Hl) as (m1 & E & Hm1 & Hc1).
  cbn [run_all]. rewrite E. destruct runs as [|cs' runs]; [by exists m1, (total + sum_of bytes_of cs)|].
  destruct (IH (total + sum_of bytes_of cs) (restart m1)) as (m2 & total' & E2 & Hm2 & Hc2);
    [by apply restart_inv|done|lia|cbn; congruence|].
  exists m2, total'. split_and!; [done..|]. rewrite Hc2. exact Hc1.
Qed.

(** The runs that the theorems are about: ids that are file names, sizes that do
    not overflow the byte counter. *)
Record runs_ok (cfg : SyncPersistenceConfig) (runs : list (list command)) : Prop := {
  ro_commands : Forall (Forall command_ok) runs;
  ro_bytes : sum_of bytes_of (concat runs) < 2 ^ 64;
  ro_interval : 0 ≤ save_interval_chunks cfg < 2 ^ 64;
}.
Lemma runs_inv cfg runs : runs_ok cfg runs →
  ∃ m total, run_all runs (fresh_manager cfg) = Ok m ∧ manager_inv total m ∧ config m = cfg.
Proof.
  intros [Hc Hb Hi]. destruct (run_all_inv runs 0 (fresh_manager cfg) (fresh_inv cfg) Hc) as (m & total & ?);
    [lia|unfold limit; cbn; lia|]. by exists m, total.
Qed.

(** After any runs of the daemon a restart finds every session, and no other,
    as it was but for fewer completed chunks than the interval of saves (and
    for conflicts, times and the count of bytes); no chunk of a session is
    pending and also done or failed. *)
Theorem restart_loses_little cfg runs : runs_ok cfg runs →
  ∃ m, run_all runs (fresh_manager cfg) = Ok m ∧ ∀ k,
    match sessions m !! k with
    | Some s => session_id s = k ∧ chunks_ok s ∧ ∃ s0 hs, sessions (restart m) !! k = Some s0 ∧
        chunks_ok s0 ∧ behind s0 s hs ∧ zlen hs < limit cfg
    | None => sessions (restart m) !! k = None
    end.
Proof.
  intros Hr. destruct (runs_inv cfg runs Hr) as (m & total & E & Hm & Hcfg). exists m. split; [done|]. intros k.
  pose proof (restart_session total m k Hm) as Hk. pose proof (counted_range total m k Hm) as Hn.
  destruct (sessions m !! k) as [s|] eqn:Ek; [|done].
  destruct (mi_sessions _ _ Hm k s Ek) as [Hid _ Hch _]. split_and!; [done..|].
  destruct Hk as (s0 & hs & Hs0 & [_ _ Hch0 _] & Hb & Hl & _). exists s0, hs. split_and!; [done..|]. rewrite Hcfg in Hn. lia.
Qed.

(** What a restart offers to resume: the sessions that were interrupted in
    good order and have chunks pending. A session that was active when the
    process died is never offered, although its file has what is needed. *)
Theorem resumable_after_restart cfg runs : runs_ok cfg runs →
  ∃ m, run_all runs (fresh_manager cfg) = Ok m ∧ ∀ k s, sessions m !! k = Some s →
    (status s = Interrupted → pending_chunks s ≠ ∅ →
       ∃ s0, s0 ∈ get_resumable_sessions (restart m) ∧ session_id s0 = k) ∧
    (∀ s0, s0 ∈ get_resumable_sessions (restart m) → session_id s0 = k → status s = Interrupted).
Proof.
  intros Hr. destruct (runs_inv cfg runs Hr) as (m & total & E & Hm & Hcfg). exists m. split; [done|]. intros k s Ek.
  pose proof (restart_session total m k Hm) as Hk. rewrite Ek in Hk.
  destruct Hk as (s0 & hs & Hs0 & [Hid _ _ _] & Hb & _).
  assert (∀ x, x ∈ get_resumable_sessions (restart m) ↔ (∃ k', sessions (restart m) !! k' = Some x) ∧ can_resume x = true)
    as Hres.
  { intros x. unfold get_resumable_sessions. rewrite list_elem_of_In, List.filter_In, in_map_iff. split.
    - intros [([k' ?] & <- & Hin) Hx]. split; [|done]. exists k'. apply elem_of_map_iter. by apply list_elem_of_In.
    - intros [(k' & Hk') Hx]. split; [|done]. exists (k', x). split; [done|]. apply list_elem_of_In. by apply elem_of_map_iter. }
  split.
  - intros Hst Hp. exists s0. split; [|done]. apply Hres. split; [by exists k|].
    unfold can_resume. rewrite <-(bh_status _ _ _ Hb), Hst, bool_decide_false; [done|].
    intros Hp0. apply Hp. rewrite (bh_pending _ _ _ Hb), Hp0. set_solver.
  - intros x Hx Hidx. apply Hres in Hx as [(k' & Hk') Hx].
    pose proof (mi_sessions _ _ (restart_inv total m Hm) k' x Hk') as [Hidx' _ _ _].
    assert (x = s0) as -> by congruence.
    rewrite (bh_status _ _ _ Hb). unfold can_resume in Hx. by destruct (status s0).
Qed.
End persistence.

(** ** Concrete inputs *)
Module Examples.
#[local] Existing Instance gmap_order.

(** A codec that writes the code of the session in unary. *)
#[export] Instance ManifestEntry_eq_dec : EqDecision ManifestEntry.
Proof. solve_decision. Defined.
#[export] Program Instance ManifestEntry_countable : Countable ManifestEntry :=
  inj_countable' (λ e, (path e, fsize e, modified_at e, content_hash e, chunk_hashes e, mode e))
    (λ '(a, b, c, d, e, f), {| path := a; fsize := b; modified_at := c; content_hash := d;
       chunk_hashes := e; mode := f |}) _.
Next Obligation. by intros []. Qed.
Definition conflict_code (c : ConflictType) : Z :=
  match c with BothModified => 0 | DeletedModified => 1 | CreateCreate => 2 end.
Definition conflict_of_code (n : Z) : ConflictType :=
  match n with 0 => BothModified | 1 => DeletedModified | _ => CreateCreate end.
#[export] Instance Conflict_eq_dec : EqDecision Conflict.
Proof. solve_decision. Defined.
#[export] Program Instance Conflict_countable : Countable Conflict :=
  inj_countable' (λ c, (file_path c, conflict_code (conflict_type c), local_entry c, remote_entry c, detected_at c, resolved c))
    (λ '(a, b, c, d, e, f), {| file_path := a; conflict_type := conflict_of_code b; local_entry := c;
       remote_entry := d; detected_at := e; resolved := f |}) _.
Next Obligation. by intros [? []]. Qed.
Definition status_code (s : SyncSessionStatus) : Z :=
  match s with Active => 0 | Completed => 1 | Interrupted => 2 | Failed => 3 end.
Definition status_of_code (n : Z) : SyncSessionStatus :=
  match n with 0 => Active | 1 => Completed | 2 => Interrupted | _ => Failed end.
#[export] Instance session_eq_dec : EqDecision PersistedSyncSession.
Proof. solve_decision. Defined.
#[export] Program Instance session_countable : Countable PersistedSyncSession :=
  inj_countable' (λ s, (session_id s, peer_id s, folder_path s, status_code (status s), started_at s,
      last_activity s, completed_at s, (completed_chunks s, pending_chunks s, failed_chunks s, conflicts s,
      total_chunks s, total_bytes s, transferred_bytes s, resume_token s, checkpoint_data s)))
    (λ '(a, b, c, d, e, f, g, (h, i, j, k, l, m, n, o, p)),
      {| session_id := a; peer_id := b; folder_path := c; status := status_of_code d; started_at := e;
         last_activity := f; completed_at := g; completed_chunks := h; pending_chunks := i;
         failed_chunks := j; conflicts := k; total_chunks := l; total_bytes := m; transferred_bytes := n;
         resume_token := o; checkpoint_data := p |}) _.
Next Obligation. by intros [? ? ? []]. Qed.

#[export] Instance unary_json : SessionJson := {
  to_json s := Some (bars (encode_nat s));
  from_json t := decode_nat (String.length t);
}.
#[export] Instance unary_json_laws : SessionJsonLaws.
Proof.
  split; [by eexists|]. intros s t [= <-]. cbn [from_json unary_json]. by rewrite length_bars, decode_encode_nat.
Qed.

Definition cfg : SyncPersistenceConfig :=
  {| save_interval_chunks := 2; completed_session_retention := 10; max_in_memory_sessions := 100 |}.
Definition folder_session (k : string) : PersistedSyncSession :=
  set_chunks 0 ∅ {[ "a"; "b"; "c"; "d" ]} ∅ (session_new 0 k "peer" "/folder").
(** Two sessions; the process dies, one is continued and interrupted. *)
Definition runs : list (list command) :=
  [[Start (folder_session "s"); Start (folder_session "t"); ChunkCompleted 1 "s" "a" 10;
    ChunkCompleted 2 "s" "b" 10; ChunkCompleted 3 "s" "c" 10; ChunkFailed 4 "t" "a"];
   [ChunkCompleted 5 "s" "c" 10; Interrupt 6 "s"; ChunkCompleted 7 "t" "b" 10; Cleanup 8]].

Lemma folder_session_ok k : valid_id k → command_ok (Start (folder_session k)).
Proof. intros Hk. split_and!; [done|exact Hk|]. split; cbn; set_solver. Qed.
Lemma runs_fit : runs_ok cfg runs.
Proof.
  split; [|by vm_compute|by vm_compute].
  constructor; [|constructor; [|constructor]];
    repeat first [apply Forall_nil_2 | apply Forall_cons_2];
    try (by apply folder_session_ok); by split.
Qed.

Lemma restart_loses_little_witness : runs_ok cfg runs ∧
  ∃ m, run_all true runs (fresh_manager cfg) = Ok m ∧ ∀ k,
    match sessions m !! k with
    | Some s => session_id s = k ∧ chunks_ok s ∧ ∃ s0 hs, sessions (restart m) !! k = Some s0 ∧
        chunks_ok s0 ∧ behind s0 s hs ∧ zlen hs < 2
    | None => sessions (restart m) !! k = None
    end.
Proof. split; [exact runs_fit|]. exact (restart_loses_little true cfg runs runs_fit). Defined.

Lemma resumable_after_restart_witness : runs_ok cfg runs ∧
  ∃ m, run_all true runs (fresh_manager cfg) = Ok m ∧ ∀ k s, sessions m !! k = Some s →
    (status s = Interrupted → pending_chunks s ≠ ∅ →
       ∃ s0, s0 ∈ get_resumable_sessions (restart m) ∧ session_id s0 = k) ∧
    (∀ s0, s0 ∈ get_resumable_sessions (restart m) → session_id s0 = k → status s = Interrupted).
Proof. split; [exact runs_fit|]. exact (resumable_after_restart true cfg runs runs_fit). Defined.
End Examples.
