(* ===== verification/Resume.v ===== *)
(** Resuming: landro-daemon/src/resume_manager.rs and landro-quic/src/resumable.rs.

    [ResumeManager] keeps a checkpoint of every synchronisation, in memory and in
    one JSON file; [ResumableTransferManager] keeps one of every transfer, in
    memory. Times are milliseconds. serde_json is a class; the random order of
    hash maps does not matter here. Bandwidth and progress ratios are floats and
    are left out. *)

From S2P Require Import Prelude Bytes Manifest Bloom.
From Stdlib Require Import ZArith Lia.
From stdpp Require Import base option list gmap sets strings pretty numbers sorting.
Open Scope Z_scope.

(** ** Checkpoints of synchronisations *)
Module Sessions.

Record ResumeBandwidthStats := {
  bytes_saved_by_resume : Z;
  chunks_skipped : Z;
  resume_overhead_bytes : Z;
  time_saved_seconds : Z;
}.

Record ResumeCheckpoint := {
  session_id : string;
  peer_id : string;
  folder_path : PathBuf;
  created_at : Z;
  last_updated : Z;
  stage : DiffStage;
  progress_percent : Z;
  manifests_exchanged : bool;
  bloom_summaries_complete : bool;
  differences_identified : bool;
  suspected_files : list string;
  confirmed_differences : list string;
  total_chunks_needed : Z;
  chunks_transferred : list string;
  chunks_failed : list string;
  bytes_transferred : Z;
  bytes_total : Z;
  connection_stable : bool;
  retry_count : Z;
  last_error : option string;
  bandwidth_stats : ResumeBandwidthStats;
}.

Inductive CheckpointUpdate :=
  | UStage (s : DiffStage)
  | UProgress (percent : Z)
  | UChunkTransferred (chunk_hash : string)
  | UChunkFailed (chunk_hash : string)
  | UBytesTransferred (bytes : Z)
  | UError (error : string)
  | UComplete.

Definition no_savings : ResumeBandwidthStats :=
  {| bytes_saved_by_resume := 0; chunks_skipped := 0; resume_overhead_bytes := 0; time_saved_seconds := 0 |}.
Definition checkpoint_new (now : Z) (session_id peer_id : string) (folder_path : PathBuf) : ResumeCheckpoint :=
  {| session_id := session_id; peer_id := peer_id; folder_path := folder_path; created_at := now;
     last_updated := now; stage := StageInitializing; progress_percent := 0; manifests_exchanged := false;
     bloom_summaries_complete := false; differences_identified := false; suspected_files := [];
     confirmed_differences := []; total_chunks_needed := 0; chunks_transferred := []; chunks_failed := [];
     bytes_transferred := 0; bytes_total := 0; connection_stable := true; retry_count := 0;
     last_error := None; bandwidth_stats := no_savings |}.

(** The assignments of [update_checkpoint]. *)
Definition set_progress (s : DiffStage) (percent : Z) (exchanged summaries differences : bool) (c : ResumeCheckpoint) :
    ResumeCheckpoint :=
  {| session_id := session_id c; peer_id := peer_id c; folder_path := folder_path c; created_at := created_at c;
     last_updated := last_updated c; stage := s; progress_percent := percent;
     manifests_exchanged := exchanged; bloom_summaries_complete := summaries;
     differences_identified := differences; suspected_files := suspected_files c;
     confirmed_differences := confirmed_differences c; total_chunks_needed := total_chunks_needed c;
     chunks_transferred := chunks_transferred c; chunks_failed := chunks_failed c;
     bytes_transferred := bytes_transferred c; bytes_total := bytes_total c;
     connection_stable := connection_stable c; retry_count := retry_count c;
     last_error := last_error c; bandwidth_stats := bandwidth_stats c |}.
Definition set_chunks (transferred failed : list string) (bytes : Z) (stable : bool) (error : option string)
    (c : ResumeCheckpoint) : ResumeCheckpoint :=
  {| session_id := session_id c; peer_id := peer_id c; folder_path := folder_path c; created_at := created_at c;
     last_updated := last_updated c; stage := stage c; progress_percent := progress_percent c;
     manifests_exchanged := manifests_exchanged c; bloom_summaries_complete := bloom_summaries_complete c;
     differences_identified := differences_identified c; suspected_files := suspected_files c;
     confirmed_differences := confirmed_differences c; total_chunks_needed := total_chunks_needed c;
     chunks_transferred := transferred; chunks_failed := failed;
     bytes_transferred := bytes; bytes_total := bytes_total c;
     connection_stable := stable; retry_count := retry_count c;
     last_error := error; bandwidth_stats := bandwidth_stats c |}.
Definition set_resumed (now retries : Z) (stats : ResumeBandwidthStats) (c : ResumeCheckpoint) : ResumeCheckpoint :=
  {| session_id := session_id c; peer_id := peer_id c; folder_path := folder_path c; created_at := created_at c;
     last_updated := now; stage := stage c; progress_percent := progress_percent c;
     manifests_exchanged := manifests_exchanged c; bloom_summaries_complete := bloom_summaries_complete c;
     differences_identified := differences_identified c; suspected_files := suspected_files c;
     confirmed_differences := confirmed_differences c; total_chunks_needed := total_chunks_needed c;
     chunks_transferred := chunks_transferred c; chunks_failed := chunks_failed c;
     bytes_transferred := bytes_transferred c; bytes_total := bytes_total c;
     connection_stable := connection_stable c; retry_count := retries;
     last_error := last_error c; bandwidth_stats := stats |}.

Definition add_new (x : string) (l : list string) : list string :=
  if bool_decide (x ∈ l) then l else l ++ [x].

(** The match of [update_checkpoint]. *)
Definition apply_update (u : CheckpointUpdate) (c : ResumeCheckpoint) : ResumeCheckpoint :=
  match u with
  | UStage s =>
      set_progress s (progress_percent c)
        (match s with ExchangingSummaries => true | _ => manifests_exchanged c end)
        (match s with ComparingManifests => true | _ => bloom_summaries_complete c end)
        (match s with RequestingDetails => true | _ => differences_identified c end) c
  | UProgress percent =>
      set_progress (stage c) percent (manifests_exchanged c) (bloom_summaries_complete c)
        (differences_identified c) c
  | UChunkTransferred h =>
      if bool_decide (h ∈ chunks_transferred c) then c
      else set_chunks (chunks_transferred c ++ [h]) (filter (λ x, x ≠ h) (chunks_failed c))
             (bytes_transferred c) (connection_stable c) (last_error c) c
  | UChunkFailed h =>
      set_chunks (chunks_transferred c) (add_new h (chunks_failed c)) (bytes_transferred c) false (last_error c) c
  | UBytesTransferred bytes =>
      set_chunks (chunks_transferred c) (chunks_failed c) bytes (connection_stable c) (last_error c) c
  | UError error =>
      set_chunks (chunks_transferred c) (chunks_failed c) (bytes_transferred c) false (Some error) c
  | UComplete =>
      set_progress StageCompleted 100 (manifests_exchanged c) (bloom_summaries_complete c)
        (differences_identified c) c
  end.

(** ** The manager *)

Inductive ResumeError := CheckpointNotFound | ClockWentBack | SerializeFailed | ReadFailed.
(** The checkpoint file. *)
Inductive CheckpointFile := NoFile | Text (content : string) | Unreadable.

(** [serde_json] at the map of checkpoints, and whether a folder exists. *)
Class CheckpointJson := {
  to_json : gmap string ResumeCheckpoint → option string;
  from_json : string → option (gmap string ResumeCheckpoint);
}.

Record ResumeManager := {
  checkpoints : gmap string ResumeCheckpoint;
  checkpoint_file : CheckpointFile;
  active_sessions : gset string;
}.
Definition set_checkpoints (x : gmap string ResumeCheckpoint) (m : ResumeManager) : ResumeManager :=
  {| checkpoints := x; checkpoint_file := checkpoint_file m; active_sessions := active_sessions m |}.
Definition set_file (x : CheckpointFile) (m : ResumeManager) : ResumeManager :=
  {| checkpoints := checkpoints m; checkpoint_file := x; active_sessions := active_sessions m |}.

Record ResumeResult := {
  success : bool;
  bytes_saved : Z;
  result_chunks_skipped : Z;
  time_saved : Z;
}.
Inductive CheckpointValidation := Valid | FolderGone | TooManyMissing (missing : Z).

Record ResumeStats := {
  total_sessions : Z;
  resumable_sessions : Z;
  completed_sessions : Z;
  failed_sessions : Z;
  total_bytes_saved : Z;
  total_chunks_skipped : Z;
}.

Section manager.
Context `{CheckpointJson, MapIter} (checked : bool) (folder_exists : PathBuf → bool).
Abbreviation manager := (st ResumeManager ResumeError).

Definition manager_new (file : CheckpointFile) : outcome ResumeError ResumeManager :=
  loaded ← (match file with
    | NoFile => mret ∅
    | Text data => mret (default ∅ (from_json data))
    | Unreadable => Err ReadFailed
    end);
  mret {| checkpoints := loaded; checkpoint_file := file; active_sessions := ∅ |}.

Definition save_checkpoints_to_disk : manager unit :=
  self ← get_st;
  data ← lift (ok_or SerializeFailed (to_json (checkpoints self)));
  modify_st (set_file (Text data)).

Definition save_checkpoint (c : ResumeCheckpoint) : manager unit :=
  _ ← modify_st (λ m, set_checkpoints (<[session_id c := c]> (checkpoints m)) m);
  self ← get_st;
  if Z.of_nat (size (checkpoints self)) mod 10 =? 0 then save_checkpoints_to_disk else mret tt.

Definition start_resumable_session (now : Z) (k peer : string) (folder : PathBuf) : manager unit :=
  _ ← save_checkpoint (checkpoint_new now k peer folder);
  modify_st (λ m, {| checkpoints := checkpoints m; checkpoint_file := checkpoint_file m;
                     active_sessions := active_sessions m ∪ {[ k ]} |}).

(** One round of the background task of an active session. *)
Definition monitor_tick (k : string) : manager unit :=
  self ← get_st;
  if bool_decide (k ∈ active_sessions self) then save_checkpoints_to_disk else mret tt.

Definition hours (n : Z) : Z := n * 3600000.

Definition can_resume_session (now : Z) (k : string) (m : ResumeManager) : outcome ResumeError bool :=
  match checkpoints m !! k with
  | Some c =>
      _ ← fail_if (now <? last_updated c) ClockWentBack;
      mret ((now - last_updated c <? hours 24) && (progress_percent c <? 100))
  | None => mret false
  end.

Definition is_empty_hash (h : string) : bool := match h with EmptyString => true | _ => false end.
Definition validate_checkpoint (c : ResumeCheckpoint) : CheckpointValidation :=
  if negb (folder_exists (folder_path c)) then FolderGone
  else
    let missing := zlen (List.filter is_empty_hash (chunks_transferred c)) in
    if zlen (chunks_transferred c) / 2 <? missing then TooManyMissing missing else Valid.

(** The time saved, in seconds. *)
Definition estimate_time_saved (c : ResumeCheckpoint) : outcome ResumeError Z :=
  let chunks := zlen (chunks_transferred c) in
  avg_chunk_size ← (if 0 <? total_chunks_needed c then
                      if chunks =? 0 then Panic else mret (bytes_transferred c / chunks)
                    else mret (64 * 1024));
  bytes ← arith checked 64 (chunks * avg_chunk_size);
  mret (Z.max (bytes / (10 * 1024 * 1024)) 1).

(** The number of remaining chunks is computed for a log line only. *)
Definition resume_session (now : Z) (k : string) : manager ResumeResult :=
  self ← get_st;
  c ← lift (ok_or CheckpointNotFound (checkpoints self !! k));
  let chunks_to_skip := zlen (chunks_transferred c) in
  remaining_chunks ← lift (arith checked 64 (total_chunks_needed c - chunks_to_skip));
  match validate_checkpoint c with
  | Valid =>
      seconds ← lift (estimate_time_saved c);
      retries ← lift (arith checked 32 (retry_count c + 1));
      let stats := bandwidth_stats c in
      bytes ← lift (arith checked 64 (bytes_saved_by_resume stats + bytes_transferred c));
      skipped ← lift (arith checked 64 (chunks_skipped stats + chunks_to_skip));
      time ← lift (arith checked 64 (time_saved_seconds stats + seconds));
      _ ← save_checkpoint (set_resumed now retries
            {| bytes_saved_by_resume := bytes; chunks_skipped := skipped;
               resume_overhead_bytes := resume_overhead_bytes stats; time_saved_seconds := time |} c);
      mret {| success := true; bytes_saved := bytes_transferred c; result_chunks_skipped := chunks_to_skip;
              time_saved := seconds |}
  | _ => mret {| success := false; bytes_saved := 0; result_chunks_skipped := 0; time_saved := 0 |}
  end.

Definition touch (now : Z) (c : ResumeCheckpoint) : ResumeCheckpoint :=
  set_resumed now (retry_count c) (bandwidth_stats c) c.
Definition update_checkpoint (now : Z) (k : string) (u : CheckpointUpdate) : manager unit :=
  modify_st (λ m, set_checkpoints (alter (λ c, apply_update u (touch now c)) k (checkpoints m)) m).

(** The success rate and the hours are floats. *)
Definition resumable (c : ResumeCheckpoint) : bool :=
  match stage c with
  | StageCompleted => false
  | _ => (progress_percent c <? 100) && (0 <? retry_count c)
  end.
Definition get_resume_stats (m : ResumeManager) : outcome ResumeError ResumeStats :=
  let cs := map snd (map_iter (checkpoints m)) in
  bytes ← sum_u64 checked 0 (map (λ c, bytes_saved_by_resume (bandwidth_stats c)) cs);
  chunks ← sum_u64 checked 0 (map (λ c, chunks_skipped (bandwidth_stats c)) cs);
  mret {| total_sessions := Z.of_nat (size (checkpoints m));
          resumable_sessions := zlen (List.filter resumable cs);
          completed_sessions := zlen (List.filter (λ c, match stage c with StageCompleted => true | _ => false end) cs);
          failed_sessions := zlen (List.filter (λ c, match last_error c with Some _ => true | None => false end) cs);
          total_bytes_saved := bytes; total_chunks_skipped := chunks |}.

(** [retain]: completed ones that were not updated for seven days go. *)
Definition kept (cutoff : Z) (c : ResumeCheckpoint) : bool :=
  (cutoff <? last_updated c) || match stage c with StageCompleted => false | _ => true end.
Definition cleanup_old_checkpoints (now : Z) : manager Z :=
  self ← get_st;
  let cutoff := now - hours (7 * 24) in
  let before := Z.of_nat (size (checkpoints self)) in
  _ ← modify_st (λ m, set_checkpoints (filter (λ p, kept cutoff p.2 = true) (checkpoints m)) m);
  self ← get_st;
  let removed := before - Z.of_nat (size (checkpoints self)) in
  _ ← (if 0 <? removed then save_checkpoints_to_disk else mret tt);
  mret removed.
End manager.

(** ** Properties *)

Definition updates (us : list (Z * CheckpointUpdate)) (c : ResumeCheckpoint) : ResumeCheckpoint :=
  foldl (λ c '(now, u), apply_update u (touch now c)) c us.
Definition transferred_in (us : list (Z * CheckpointUpdate)) (h : string) : Prop :=
  ∃ now, (now, UChunkTransferred h) ∈ us.

(** What no update changes. *)
Record started_as (c0 c : ResumeCheckpoint) : Prop := {
  sa_id : session_id c = session_id c0;
  sa_folder : folder_path c = folder_path c0;
  sa_total : total_chunks_needed c = total_chunks_needed c0;
  sa_retries : retry_count c = retry_count c0;
  sa_stats : bandwidth_stats c = bandwidth_stats c0;
}.
Lemma update_started c0 c now u : started_as c0 c → started_as c0 (apply_update u (touch now c)).
Proof. intros [? ? ? ? ?]. destruct u; cbn; try case_bool_decide; by split. Qed.
Lemma updates_started us c0 : started_as c0 (updates us c0).
Proof.
  assert (∀ c, started_as c0 c → started_as c0 (updates us c)) as H by
    (induction us as [|[now u] us IH]; intros c Hc; [done|]; apply IH; by apply update_started).
  by apply H.
Qed.
Lemma updates_app us us' c : updates (us ++ us') c = updates us' (updates us c).
Proof. apply foldl_app. Qed.

Lemma add_new_spec x l : (NoDup l → NoDup (add_new x l)) ∧ ∀ y, y ∈ add_new x l ↔ y = x ∨ y ∈ l.
Proof.
  unfold add_new. case_bool_decide as Hx; split.
  - done.
  - naive_solver.
  - intros Hl. apply NoDup_app. split_and!; [done|set_solver|apply NoDup_singleton].
  - set_solver.
Qed.

Lemma updates_lists us k now0 peer folder :
  let c := updates us (checkpoint_new now0 k peer folder) in
  NoDup (chunks_transferred c) ∧ NoDup (chunks_failed c) ∧ ∀ h, h ∈ chunks_transferred c ↔ transferred_in us h.
Proof.
  induction us as [|[now u] us IH] using rev_ind.
  { cbn. split_and!; [constructor..|]. intros h. split; [by intros ?%elem_of_nil|by intros (? & ?%elem_of_nil)]. }
  rewrite updates_app. cbn zeta in *. destruct IH as (IH1 & IH2 & IH3).
  set (c := updates us _) in *. cbn [updates foldl].
  assert (∀ h, transferred_in (us ++ [(now, u)]) h ↔ transferred_in us h ∨ u = UChunkTransferred h) as Hin.
  { intros h. unfold transferred_in. setoid_rewrite elem_of_app. setoid_rewrite list_elem_of_singleton. naive_solver. }
  setoid_rewrite Hin. destruct u as [s|p|x|x|b|e|]; cbn;
    try (split_and!; [done..|]; intros h; rewrite IH3; naive_solver).
  - case_bool_decide as Hx; cbn.
    + split_and!; [done..|]. intros h. rewrite IH3. apply IH3 in Hx. naive_solver.
    + split_and!; [|by apply NoDup_filter|].
      * apply NoDup_app. split_and!; [done|set_solver|apply NoDup_singleton].
      * intros h. rewrite elem_of_app, IH3, list_elem_of_singleton. naive_solver.
  - destruct (add_new_spec x (chunks_failed c)) as [Hnd _]. split_and!; [done|by apply Hnd|].
    intros h. rewrite IH3. naive_solver.
Qed.

#[export] Instance transferred_dec us h : Decision (transferred_in us h).
Proof.
  refine (cast_if (decide (h ∈ chunks_transferred (updates us (checkpoint_new 0 "" "" [])))));
    by (destruct (updates_lists us "" 0 "" []) as (_ & _ & Hl); rewrite <-Hl).
Defined.

(** A checkpoint lists exactly the chunks that arrived, once each. A chunk is
    listed as failed, once, exactly when it failed at a time from which on it did not
    arrive, or had already arrived: a repeated transfer does not clear it. *)
Theorem checkpoint_tracks us k now0 peer folder :
  let c := updates us (checkpoint_new now0 k peer folder) in
  NoDup (chunks_transferred c) ∧ (∀ h, h ∈ chunks_transferred c ↔ transferred_in us h) ∧
  NoDup (chunks_failed c) ∧
  ∀ h, h ∈ chunks_failed c ↔ ∃ us1 now us2, us = us1 ++ (now, UChunkFailed h) :: us2 ∧
    (transferred_in us1 h ∨ ¬ transferred_in us2 h).
Proof.
  destruct (updates_lists us k now0 peer folder) as (Hn & Hf & Ht). cbn zeta in *. split_and!; [done..|].
  clear Hn Hf Ht. induction us as [|[now u] us IH] using rev_ind; intros h.
  { cbn. split; [by intros ?%elem_of_nil|]. intros (us1 & now & us2 & E & _). by destruct us1. }
  rewrite updates_app. destruct (updates_lists us k now0 peer folder) as (_ & _ & Ht). cbn zeta in *.
  set (c := updates us _) in *. cbn [updates foldl].
  assert ((∃ us1 now' us2, us ++ [(now, u)] = us1 ++ (now', UChunkFailed h) :: us2 ∧
      (transferred_in us1 h ∨ ¬ transferred_in us2 h)) ↔
    u = UChunkFailed h ∨ h ∈ chunks_failed c ∧ (u = UChunkTransferred h → transferred_in us h)) as ->.
  { rewrite IH. split.
    - intros (us1 & now' & us2 & E & Hor). destruct us2 as [|x us2 _] using rev_ind.
      + apply app_inj_tail in E as [_ [= _ ->]]. by left.
      + rewrite app_comm_cons, app_assoc in E. apply app_inj_tail in E as [-> <-]. right. split.
        * exists us1, now', us2. split; [done|]. destruct Hor as [?|Hno]; [by left|right].
          intros (t & Hin). apply Hno. exists t. apply elem_of_app. by left.
        * intros ->. destruct Hor as [(t & Hin)|Hno]; [exists t; apply elem_of_app; by left|].
          exfalso. apply Hno. exists now. apply elem_of_app. right. by left.
    - intros [->|[(us1 & now' & us2 & -> & Hor) Hu]].
      + exists us, now, []. split; [done|]. right. by intros (t & ?%elem_of_nil).
      + exists us1, now', (us2 ++ [(now, u)]). split; [by rewrite <-app_assoc|].
        destruct Hor as [?|Hno]; [by left|].
        destruct (decide (transferred_in us1 h)) as [?|Hno1]; [by left|]. right.
        intros (t & [Hin|Hin]%elem_of_app); [apply Hno; by exists t|].
        apply list_elem_of_singleton in Hin as [= <- <-]. destruct (Hu eq_refl) as (t' & Hin').
        apply elem_of_app in Hin' as [Hin'|Hin']; [apply Hno1; by exists t'|].
        apply elem_of_cons in Hin' as [?|Hin']; [done|]. apply Hno. by exists t'. }
  clear IH. destruct u as [s|p|x|x|b|e|]; cbn;
    try (split; [by intros ?; right|by intros [?|[? _]]]).
  - case_bool_decide as Hx; cbn.
    + apply Ht in Hx. split; [|naive_solver]. intros Hh. right. split; [done|]. by intros [= ->].
    + rewrite list_elem_of_filter. split.
      * intros [Hne Hh]. right. split; [done|]. by intros [= ->].
      * intros [?|[Hh Hu]]; [done|]. split; [|done]. intros ->. apply Hx. apply Ht. by apply Hu.
  - destruct (add_new_spec x (chunks_failed c)) as [_ Hadd]. rewrite Hadd. naive_solver.
Qed.

(** Sizes in the updates that do not overflow the statistics. *)
Record updates_fit (us : list (Z * CheckpointUpdate)) : Prop := {
  uf_length : zlen us < 2 ^ 40;
  uf_bytes : ∀ now b, (now, UBytesTransferred b) ∈ us → 0 ≤ b < 2 ^ 64;
  uf_hashes : ¬ transferred_in us EmptyString;
}.
Lemma updates_sizes us k now0 peer folder : (∀ now b, (now, UBytesTransferred b) ∈ us → 0 ≤ b < 2 ^ 64) →
  let c := updates us (checkpoint_new now0 k peer folder) in
  zlen (chunks_transferred c) ≤ zlen us ∧ 0 ≤ bytes_transferred c < 2 ^ 64.
Proof.
  induction us as [|[now u] us IH] using rev_ind; intros Hb; [by split|].
  rewrite updates_app. cbn zeta in *. destruct IH as [IH1 IH2].
  { intros t b Hin. apply (Hb t). apply elem_of_app. by left. }
  set (c := updates us _) in *. cbn [updates foldl]. rewrite zlen_app, zlen_cons, zlen_nil.
  destruct u as [s|p|x|x|b|e|]; cbn; try (split; [lia|done]).
  - case_bool_decide; cbn; [split; [lia|done]|]. split; [|done]. rewrite zlen_app, zlen_cons, zlen_nil. lia.
  - split; [lia|]. apply (Hb now). apply elem_of_app. right. by left.
Qed.

Section resuming.
Context `{CheckpointJson, MapIter} (checked : bool) (folder_exists : PathBuf → bool).
Context (json_total : ∀ x, is_Some (to_json x)).
#[local] Set Default Proof Using "All".

Lemma save_checkpoint_eq c m : ∃ m', save_checkpoint c m = (m', Ok tt) ∧
  checkpoints m' = <[session_id c := c]> (checkpoints m).
Proof.
  unfold save_checkpoint. erewrite st_bind_eq by reflexivity. erewrite st_bind_eq by reflexivity.
  destruct (_ mod 10 =? 0); [|by eexists]. unfold save_checkpoints_to_disk. erewrite st_bind_eq by reflexivity.
  match goal with |- context [to_json ?x] => destruct (json_total x) as [data ->] end.
  by eexists.
Qed.

Lemma validate_valid c : folder_exists (folder_path c) = true → EmptyString ∉ chunks_transferred c →
  validate_checkpoint folder_exists c = Valid.
Proof.
  intros Hf Hh. unfold validate_checkpoint. rewrite Hf. cbn [negb].
  assert (List.filter is_empty_hash (chunks_transferred c) = []) as ->.
  { clear Hf. induction (chunks_transferred c) as [|h l IH]; [done|]. apply not_elem_of_cons in Hh as [Hne Hh].
    cbn [List.filter]. destruct h; [done|]. by apply IH. }
  rewrite zlen_nil. pose proof (zlen_nonneg (chunks_transferred c)).
  destruct (Z.ltb_spec (zlen (chunks_transferred c) / 2) 0); [|done].
  pose proof (Z.div_pos (zlen (chunks_transferred c)) 2). lia.
Qed.

(** Resuming a session that has a chunk transferred panics in builds with
    overflow checks, since the number of needed chunks is never set. In other
    builds, and when nothing arrived yet, it succeeds, skips exactly the chunks
    that arrived and counts the attempt. *)
Theorem resume_after_progress now now0 k peer folder us m : let c := updates us (checkpoint_new now0 k peer folder) in
  checkpoints m !! k = Some c → folder_exists folder = true → updates_fit us →
  (checked = true → chunks_transferred c ≠ [] → resume_session checked folder_exists now k m = (m, Panic)) ∧
  (checked = false ∨ chunks_transferred c = [] →
   ∃ m' r c', resume_session checked folder_exists now k m = (m', Ok r) ∧ success r = true ∧
     bytes_saved r = bytes_transferred c ∧ result_chunks_skipped r = zlen (chunks_transferred c) ∧
     checkpoints m' = <[k := c']> (checkpoints m) ∧ retry_count c' = 1 ∧
     chunks_transferred c' = chunks_transferred c).
Proof.
  intros c Hk Hf [Hlen Hbytes Hhash].
  destruct (updates_started us (checkpoint_new now0 k peer folder)) as [Hid Hfolder Htotal Hretry Hstats].
  destruct (updates_sizes us k now0 peer folder Hbytes) as [Hc Hb]. fold c in Hc, Hb, Hid, Hfolder, Htotal, Hretry, Hstats.
  cbn in Hid, Hfolder, Htotal, Hretry, Hstats. pose proof (zlen_nonneg (chunks_transferred c)) as Hn.
  assert (resume_session checked folder_exists now k m =
    (remaining_chunks ← lift (arith checked 64 (0 - zlen (chunks_transferred c)));
     match validate_checkpoint folder_exists c with
     | Valid =>
      seconds ← lift (estimate_time_saved checked c);
      retries ← lift (arith checked 32 (retry_count c + 1));
      let stats := bandwidth_stats c in
      bytes ← lift (arith checked 64 (bytes_saved_by_resume stats + bytes_transferred c));
      skipped ← lift (arith checked 64 (chunks_skipped stats + zlen (chunks_transferred c)));
      time ← lift (arith checked 64 (time_saved_seconds stats + seconds));
      _ ← save_checkpoint (set_resumed now retries
            {| bytes_saved_by_resume := bytes; chunks_skipped := skipped;
               resume_overhead_bytes := resume_overhead_bytes stats; time_saved_seconds := time |} c);
      mret {| success := true; bytes_saved := bytes_transferred c;
              result_chunks_skipped := zlen (chunks_transferred c); time_saved := seconds |}
     | _ => mret {| success := false; bytes_saved := 0; result_chunks_skipped := 0; time_saved := 0 |}
     end) m) as ->.
  { unfold resume_session. erewrite st_bind_eq by reflexivity. rewrite Hk.
    erewrite st_bind_eq by reflexivity. by rewrite Htotal. }
  split.
  - intros -> Hne. unfold mbind, st_bind, lift, arith.
    assert (zlen (chunks_transferred c) ≠ 0) as Hz by (intros ?%zlen_zero; done).
    by rewrite decide_False by lia.
  - intros Hor. destruct (arith checked 64 (0 - zlen (chunks_transferred c)) : outcome ResumeError Z) as [rem|e|] eqn:Ea.
    2: by apply arith_no_Err in Ea.
    2: { destruct Hor as [-> | Hnil]; [by rewrite arith_unchecked in Ea|]. rewrite Hnil in Ea. by cbn in Ea. }
    erewrite st_bind_eq by reflexivity.
    rewrite validate_valid; [|congruence|by intros Hin; apply Hhash; apply (updates_lists us k now0 peer folder)].
    assert (estimate_time_saved checked c = Ok (Z.max (zlen (chunks_transferred c) * 65536 / 10485760) 1)) as Hest.
    { unfold estimate_time_saved. rewrite Htotal. cbn [Z.ltb mbind outcome_bind mret outcome_ret Z.compare].
      rewrite arith_exact by lia. done. }
    assert (0 ≤ zlen (chunks_transferred c) * 65536 / 10485760 < 2 ^ 60) as Hsec
      by (split; [apply Z.div_pos; lia|apply Z.div_lt_upper_bound; lia]).
    erewrite st_bind_eq by (unfold lift; rewrite Hest; reflexivity). rewrite Hretry, Hstats. cbn zeta.
    erewrite st_bind_eq by (unfold lift; rewrite arith_exact by lia; reflexivity).
    do 3 (erewrite st_bind_eq by (unfold lift; rewrite arith_exact by (cbn; lia); reflexivity)).
    match goal with |- context [save_checkpoint ?x] => destruct (save_checkpoint_eq x m) as (m' & E & Hm') end.
    erewrite st_bind_eq by exact E. eexists m', _, _. split; [reflexivity|]. cbn in Hm'. rewrite Hid in Hm'.
    by split_and!.
Qed.
End resuming.
End Sessions.

(** ** Checkpoints of transfers *)
Module Transfers.

Record TransferCheckpoint := {
  transfer_id : string;
  peer_id : string;
  file_path : string;
  total_size : Z;
  bytes_transferred : Z;
  chunk_offset : Z;
  last_checkpoint : Z;
  retry_count : Z;
}.
Definition set_position (bytes offset : Z) (c : TransferCheckpoint) : TransferCheckpoint :=
  {| transfer_id := transfer_id c; peer_id := peer_id c; file_path := file_path c; total_size := total_size c;
     bytes_transferred := bytes; chunk_offset := offset; last_checkpoint := last_checkpoint c;
     retry_count := retry_count c |}.
Definition set_saved (utc retries : Z) (c : TransferCheckpoint) : TransferCheckpoint :=
  {| transfer_id := transfer_id c; peer_id := peer_id c; file_path := file_path c; total_size := total_size c;
     bytes_transferred := bytes_transferred c; chunk_offset := chunk_offset c; last_checkpoint := utc;
     retry_count := retries |}.

Inductive TransferStatus := Active | Paused | Completed | Failed | Cancelled.
#[export] Instance TransferStatus_eq_dec : EqDecision TransferStatus.
Proof. solve_decision. Defined.

(** A connection is its name. *)
Record ActiveTransfer := {
  checkpoint : TransferCheckpoint;
  status : TransferStatus;
  connection : option string;
  last_activity : Z;
  bandwidth_samples : list (Z * Z);
}.

Record ResumableTransferManager := {
  active_transfers : gmap string ActiveTransfer;
  checkpoints : gmap string TransferCheckpoint;
  checkpoint_interval : Z;
  transfer_timeout : Z;
  max_retry_count : Z;
}.
Definition set_active (x : gmap string ActiveTransfer) (m : ResumableTransferManager) : ResumableTransferManager :=
  {| active_transfers := x; checkpoints := checkpoints m; checkpoint_interval := checkpoint_interval m;
     transfer_timeout := transfer_timeout m; max_retry_count := max_retry_count m |}.
Definition set_checkpoints (x : gmap string TransferCheckpoint) (m : ResumableTransferManager) :
    ResumableTransferManager :=
  {| active_transfers := active_transfers m; checkpoints := x; checkpoint_interval := checkpoint_interval m;
     transfer_timeout := transfer_timeout m; max_retry_count := max_retry_count m |}.

Definition manager_new (interval timeout retries : Z) : ResumableTransferManager :=
  {| active_transfers := ∅; checkpoints := ∅; checkpoint_interval := interval; transfer_timeout := timeout;
     max_retry_count := retries |}.
Definition manager_default : ResumableTransferManager := manager_new 10000 300000 3.

Inductive TransferError := NoCheckpoint (transfer_id : string).

Section manager.
Context (checked : bool).
Abbreviation manager := (st ResumableTransferManager TransferError).

Definition load_checkpoint (k : string) : manager (option TransferCheckpoint) :=
  self ← get_st; mret (checkpoints self !! k).
Definition save_checkpoint (c : TransferCheckpoint) : manager unit :=
  modify_st (λ m, set_checkpoints (<[transfer_id c := c]> (checkpoints m)) m).
Definition remove_checkpoint (k : string) : manager unit :=
  modify_st (λ m, set_checkpoints (base.delete k (checkpoints m)) m).
Definition put_active (k : string) (t : ActiveTransfer) : manager unit :=
  modify_st (λ m, set_active (<[k := t]> (active_transfers m)) m).
Definition drop_active (k : string) : manager unit :=
  modify_st (λ m, set_active (base.delete k (active_transfers m)) m).

Definition start_transfer (now utc : Z) (k peer file : string) (total : Z) (conn : string) : manager unit :=
  checkpoint ← load_checkpoint k;
  let bytes := match checkpoint with Some c => bytes_transferred c | None => 0 end in
  if total <=? bytes then mret tt
  else
    let checkpoint := default
      {| transfer_id := k; peer_id := peer; file_path := file; total_size := total; bytes_transferred := 0;
         chunk_offset := 0; last_checkpoint := utc; retry_count := 0 |} checkpoint in
    _ ← put_active k {| checkpoint := checkpoint; status := Active; connection := Some conn;
                        last_activity := now; bandwidth_samples := [] |};
    save_checkpoint checkpoint.

(** [now] is the monotonic clock, [utc] the wall clock. *)
Definition update_progress (now utc : Z) (k : string) (bytes offset : Z) : manager unit :=
  self ← get_st;
  match active_transfers self !! k with
  | Some t =>
      let c := set_position bytes offset (checkpoint t) in
      let samples := filter (λ s, now - 30000 < s.1) (bandwidth_samples t ++ [(now, bytes)]) in
      let due := checkpoint_interval self / 1000 <=? Z.quot (utc - last_checkpoint c) 1000 in
      let c := if due then set_saved utc (retry_count c) c else c in
      _ ← put_active k {| checkpoint := c; status := status t; connection := connection t;
                          last_activity := now; bandwidth_samples := samples |};
      if due then save_checkpoint c else mret tt
  | None => mret tt
  end.

(** Five minutes later a task calls [remove_checkpoint]. *)
Definition complete_transfer (utc : Z) (k : string) : manager unit :=
  self ← get_st;
  match active_transfers self !! k with
  | Some t =>
      _ ← drop_active k;
      save_checkpoint (set_saved utc (retry_count (checkpoint t)) (checkpoint t))
  | None => mret tt
  end.

Definition fail_transfer (utc : Z) (k : string) : manager unit :=
  self ← get_st;
  match active_transfers self !! k with
  | Some t =>
      _ ← put_active k {| checkpoint := checkpoint t; status := Failed; connection := connection t;
                          last_activity := last_activity t; bandwidth_samples := bandwidth_samples t |};
      retries ← lift (arith checked 32 (retry_count (checkpoint t) + 1));
      let c := set_saved utc retries (checkpoint t) in
      _ ← (if max_retry_count self <=? retries then drop_active k
           else put_active k {| checkpoint := c; status := Failed; connection := connection t;
                                last_activity := last_activity t;
                                bandwidth_samples := bandwidth_samples t |});
      save_checkpoint c
  | None => mret tt
  end.

Definition pause_transfer (utc : Z) (k : string) : manager unit :=
  self ← get_st;
  match active_transfers self !! k with
  | Some t =>
      let c := set_saved utc (retry_count (checkpoint t)) (checkpoint t) in
      _ ← put_active k {| checkpoint := c; status := Paused; connection := connection t;
                          last_activity := last_activity t; bandwidth_samples := bandwidth_samples t |};
      save_checkpoint c
  | None => mret tt
  end.

Definition resume_transfer (now : Z) (k conn : string) : manager unit :=
  self ← get_st;
  match active_transfers self !! k with
  | Some t =>
      put_active k {| checkpoint := checkpoint t; status := Active; connection := Some conn;
                      last_activity := now; bandwidth_samples := [] |}
  | None =>
      c ← load_checkpoint k;
      c ← lift (ok_or (NoCheckpoint k) c);
      put_active k {| checkpoint := c; status := Active; connection := Some conn;
                      last_activity := now; bandwidth_samples := [] |}
  end.

(** The bytes and the time between the first and the last sample, of which the
    bandwidth is the ratio; the subtraction of the bytes can overflow. *)
Definition bandwidth_parts (samples : list (Z * Z)) : outcome TransferError (Z * Z) :=
  match samples, last samples with
  | first :: _ :: _, Some last =>
      let duration := Z.max 0 (last.1 - first.1) in
      if 0 <? duration then bytes ← arith checked 64 (last.2 - first.2); mret (bytes, duration)
      else mret (0, 0)
  | _, _ => mret (0, 0)
  end.
Definition get_transfer_status (k : string) (m : ResumableTransferManager) :
    outcome TransferError (option (TransferStatus * (Z * Z) * (Z * Z))) :=
  match active_transfers m !! k with
  | Some t =>
      bandwidth ← bandwidth_parts (bandwidth_samples t);
      let c := checkpoint t in
      mret (Some (status t, if 0 <? total_size c then (bytes_transferred c, total_size c) else (0, 1), bandwidth))
  | None => mret None
  end.

(** One round of the cleanup task: inactive transfers are dropped. *)
Definition timed_out (now timeout : Z) (t : ActiveTransfer) : bool :=
  bool_decide (status t = Active) && (timeout <? Z.max 0 (now - last_activity t)).
Definition cleanup_tick (now : Z) : manager unit :=
  modify_st (λ m, set_active (filter (λ p, timed_out now (transfer_timeout m) p.2 = false) (active_transfers m)) m).
End manager.

(** ** Properties *)

Inductive command :=
  | Start (now utc : Z) (k peer file : string) (total : Z) (conn : string)
  | Progress (now utc : Z) (k : string) (bytes offset : Z)
  | Complete (utc : Z) (k : string)
  | Fail_ (utc : Z) (k : string)
  | Pause (utc : Z) (k : string)
  | Resume (now : Z) (k conn : string)
  | Forget (k : string)
  | Tick (now : Z).

Section transfers.
Context (checked : bool).

Definition run_command (c : command) : st ResumableTransferManager TransferError unit :=
  match c with
  | Start now utc k peer file total conn => start_transfer now utc k peer file total conn
  | Progress now utc k bytes offset => update_progress now utc k bytes offset
  | Complete utc k => complete_transfer utc k
  | Fail_ utc k => fail_transfer checked utc k
  | Pause utc k => pause_transfer utc k
  | Resume now k conn => resume_transfer now k conn
  | Forget k => remove_checkpoint k
  | Tick now => cleanup_tick now
  end.
(** Errors and panics end the task of the command only. *)
Definition run_commands (cs : list command) (m : ResumableTransferManager) : ResumableTransferManager :=
  foldl (λ m c, (run_command c m).1) m cs.

(** A position of a transfer: its start, or one that was reported. *)
Definition reported (cs : list command) (k : string) (bytes offset : Z) : Prop :=
  (bytes = 0 ∧ offset = 0) ∨ ∃ now utc, Progress now utc k bytes offset ∈ cs.
Definition position_ok (cs : list command) (k : string) (c : TransferCheckpoint) : Prop :=
  transfer_id c = k ∧ reported cs k (bytes_transferred c) (chunk_offset c).
Definition active_ok (cs : list command) (k : string) (t : ActiveTransfer) : Prop :=
  position_ok cs k (checkpoint t) ∧ (status t = Active ∨ status t = Paused ∨ status t = Failed).

Record manager_inv (cs : list command) (m : ResumableTransferManager) : Prop := {
  ti_active : map_Forall (active_ok cs) (active_transfers m);
  ti_saved : map_Forall (position_ok cs) (checkpoints m);
}.
Lemma keeps_save cs k c : position_ok cs k c → keeps (manager_inv cs) (save_checkpoint c) (λ _, True).
Proof.
  intros [<- Hr]. apply keeps_modify. intros m [Ha Hs].
  split; cbn; [done|]. apply map_Forall_insert_2; [|done]. by split.
Qed.
Lemma keeps_put cs k t : active_ok cs k t → keeps (manager_inv cs) (put_active k t) (λ _, True).
Proof.
  intros Ht. apply keeps_modify. intros m [Ha Hs].
  split; cbn; [|done]. by apply map_Forall_insert_2.
Qed.
Lemma keeps_drop cs k : keeps (manager_inv cs) (drop_active k) (λ _, True).
Proof.
  apply keeps_modify. intros m [Ha Hs]. split; cbn; [|done]. by apply map_Forall_delete.
Qed.
(** Reading the state, with its invariant. *)
Lemma keeps_get_bind {B} cs (f : ResumableTransferManager → st ResumableTransferManager TransferError B) Q :
  (∀ self, manager_inv cs self → keeps (manager_inv cs) (f self) Q) → keeps (manager_inv cs) (get_st ≫= f) Q.
Proof. intros Hf. by eapply keeps_bind; [apply keeps_get|]. Qed.

Lemma keeps_load cs k : keeps (manager_inv cs) (load_checkpoint k) (λ c, ∀ x, c = Some x → position_ok cs k x).
Proof. apply keeps_get_bind. intros self [_ Hs]. apply keeps_ret. intros x. apply Hs. Qed.

Lemma command_keeps cs c : c ∈ cs → keeps (manager_inv cs) (run_command c) (λ _, True).
Proof.
  intros Hin. destruct c as [now utc k peer file total conn|now utc k bytes offset|utc k|utc k|utc k|now k conn|k|now];
    cbn [run_command].
  - apply keeps_get_bind. intros self [_ Hs]. destruct (checkpoints self !! k) as [c|] eqn:Ek; cbn;
      destruct (total <=? _); try (by apply keeps_ret).
    + eapply keeps_bind; [apply keeps_put; split; [exact (Hs k c Ek)|by left]|]. intros _ _. by eapply keeps_save, Hs.
    + assert (position_ok cs k {| transfer_id := k; peer_id := peer; file_path := file; total_size := total;
        bytes_transferred := 0; chunk_offset := 0; last_checkpoint := utc; retry_count := 0 |}) as Hnew
        by (split; [done|by left]).
      eapply keeps_bind; [apply keeps_put; split; [exact Hnew|by left]|]. intros _ _. by eapply keeps_save.
  - apply keeps_get_bind. intros self [Ha _]. destruct (active_transfers self !! k) as [t|] eqn:Ek; [|by apply keeps_ret].
    destruct (Ha k t Ek) as [[Hid _] Hst]. cbv zeta. destruct (checkpoint_interval self / 1000 <=? _).
    + assert (position_ok cs k (set_saved utc (retry_count (checkpoint t)) (set_position bytes offset (checkpoint t)))) as Hp
        by (split; [done|right; by exists now, utc]).
      eapply keeps_bind; [apply keeps_put; by split|]. intros _ _. by eapply keeps_save.
    + eapply keeps_bind; [apply keeps_put; split; [|done]; split; [done|right; by exists now, utc]|].
      intros _ _. by apply keeps_ret.
  - apply keeps_get_bind. intros self [Ha _]. destruct (active_transfers self !! k) as [t|] eqn:Ek; [|by apply keeps_ret].
    destruct (Ha k t Ek) as [Hp _]. eapply keeps_bind; [apply keeps_drop|]. intros _ _. by apply (keeps_save cs k).
  - apply keeps_get_bind. intros self [Ha _]. destruct (active_transfers self !! k) as [t|] eqn:Ek; [|by apply keeps_ret].
    destruct (Ha k t Ek) as [Hp _]. eapply keeps_bind; [apply keeps_put; split; [exact Hp|by auto]|]. intros _ _.
    eapply keeps_bind; [apply keeps_lift|]. intros retries _.
    cbv zeta. eapply (keeps_bind _ _ _ (λ _, True)); [|intros _ _; by apply (keeps_save cs k)].
    destruct (max_retry_count self <=? _); [apply keeps_drop|]. apply keeps_put. split; [exact Hp|by auto].
  - apply keeps_get_bind. intros self [Ha _]. destruct (active_transfers self !! k) as [t|] eqn:Ek; [|by apply keeps_ret].
    destruct (Ha k t Ek) as [Hp _]. eapply keeps_bind; [apply keeps_put; split; [exact Hp|by auto]|]. intros _ _.
    by apply (keeps_save cs k).
  - apply keeps_get_bind. intros self [Ha Hs]. destruct (active_transfers self !! k) as [t|] eqn:Ek.
    + destruct (Ha k t Ek) as [Hp _]. apply keeps_put. split; [exact Hp|by left].
    + eapply keeps_bind; [apply keeps_load|]. intros c Hc. eapply (keeps_bind _ _ _ (λ x, c = Some x)).
      * intros s Hi _. split_and!; [done..|]. by destruct c; intros ? [= <-].
      * intros x Hx. apply keeps_put. split; [by apply Hc|by left].
  - apply keeps_modify. intros m [Ha Hs]. split; cbn; [done|]. by apply map_Forall_delete.
  - apply keeps_modify. intros m [Ha Hs]. split; cbn; [|done].
    intros k t [Ht _]%map_lookup_filter_Some. by apply Ha.
Qed.

Lemma transfers_inv_mono cs cs' m : cs ⊆ cs' → manager_inv cs m → manager_inv cs' m.
Proof.
  intros Hsub [Ha Hs]. assert (∀ k c, position_ok cs k c → position_ok cs' k c) as Hp.
  { intros k c [Hid [Hz|(now & utc & Hin)]]; (split; [done|]); [by left|]. right. exists now, utc. by apply Hsub. }
  split; [|by eapply map_Forall_impl; [exact Hs|auto]].
  eapply map_Forall_impl; [exact Ha|]. intros k t [? ?]. split; auto.
Qed.

(** C32: Whatever is called in whatever order, a transfer is active, paused or failed,
    and it, or a resumption of it from its checkpoint, is at the start or at a
    position that was reported for it. *)
Theorem transfers_at_reported_positions cs interval timeout retries :
  let m := run_commands cs (manager_new interval timeout retries) in
  map_Forall (active_ok cs) (active_transfers m) ∧ map_Forall (position_ok cs) (checkpoints m).
Proof.
  cbn zeta. assert (manager_inv cs (run_commands cs (manager_new interval timeout retries))) as [? ?]; [|done].
  induction cs as [|c cs IH] using rev_ind; [split; apply map_Forall_empty|].
  unfold run_commands in *. rewrite foldl_app. cbn [foldl].
  assert (c ∈ cs ++ [c]) as Hin by (apply elem_of_app; right; left).
  assert (cs ⊆ cs ++ [c]) as Hsub by set_solver.
  by destruct (command_keeps (cs ++ [c]) c Hin _ (transfers_inv_mono cs (cs ++ [c]) _ Hsub IH)) as [Hi _].
Qed.

(** The maximal number of retries ends nothing: a transfer that has failed that
    often is dropped, but can be resumed from its checkpoint with the count
    beyond the maximum. *)
Theorem exhausted_transfer_resumes utc now k conn t m :
  active_transfers m !! k = Some t → transfer_id (checkpoint t) = k →
  0 ≤ retry_count (checkpoint t) < 2 ^ 32 - 1 → max_retry_count m ≤ retry_count (checkpoint t) + 1 →
  ∃ m1 m2 t', fail_transfer checked utc k m = (m1, Ok tt) ∧ active_transfers m1 !! k = None ∧
    resume_transfer now k conn m1 = (m2, Ok tt) ∧ active_transfers m2 !! k = Some t' ∧
    status t' = Active ∧ max_retry_count m2 ≤ retry_count (checkpoint t') ∧
    bytes_transferred (checkpoint t') = bytes_transferred (checkpoint t).
Proof.
  intros Hk Hid Hr Hmax. unfold fail_transfer. erewrite (st_bind_eq get_st) by reflexivity. rewrite Hk.
  eexists. eexists. eexists. split.
  { erewrite st_bind_eq by reflexivity.
    erewrite st_bind_eq by (unfold lift; rewrite arith_exact by lia; reflexivity). cbn zeta.
    rewrite (proj2 (Z.leb_le _ _)) by exact Hmax. erewrite st_bind_eq by reflexivity. reflexivity. }
  split; [cbn; by rewrite lookup_delete_eq|].
  unfold resume_transfer, load_checkpoint. erewrite (st_bind_eq get_st) by reflexivity. cbn [active_transfers set_checkpoints set_active].
  rewrite lookup_delete_eq. split.
  { erewrite st_bind_eq by (erewrite st_bind_eq by reflexivity; reflexivity).
    cbn [checkpoints set_checkpoints set_active transfer_id set_saved]. rewrite Hid, lookup_insert_eq. reflexivity. }
  cbn. rewrite lookup_insert_eq. split_and!; [done|done| |done]. cbn. lia.
Qed.
End transfers.
End Transfers.

(** ** Concrete inputs *)
Module Examples.
#[local] Existing Instance gmap_order.

#[local] Instance no_json : Sessions.CheckpointJson :=
  { to_json _ := Some EmptyString; from_json _ := None }.

Definition progress : list (Z * Sessions.CheckpointUpdate) :=
  [(1, Sessions.UStage ExchangingSummaries); (2, Sessions.UChunkTransferred "c1");
   (3, Sessions.UBytesTransferred 65536); (4, Sessions.UChunkFailed "c2"); (5, Sessions.UChunkTransferred "c2")].
Definition tracked : Sessions.ResumeCheckpoint :=
  Sessions.updates progress (Sessions.checkpoint_new 0 "s" "peer" ["folder"]).
Definition with_session : Sessions.ResumeManager :=
  {| Sessions.checkpoints := {[ "s" := tracked ]}; Sessions.checkpoint_file := Sessions.NoFile;
     Sessions.active_sessions := {[ "s" ]} |}.

Lemma progress_fits : Sessions.updates_fit progress.
Proof.
  split; [by vm_compute| |].
  - intros now b Hin. unfold progress in Hin. rewrite !elem_of_cons, elem_of_nil in Hin.
    destruct Hin as [[= ? ?]|[[= ? ?]|[[= ? ->]|[[= ? ?]|[[= ? ?]|[]]]]]]. lia.
  - intros (now & Hin). unfold progress in Hin. rewrite !elem_of_cons, elem_of_nil in Hin.
    destruct Hin as [[= ? ?]|[[= ? ?]|[[= ? ?]|[[= ? ?]|[[= ? ?]|[]]]]]].
Qed.

(** Two chunks arrived: a panic with overflow checks, and otherwise they are skipped. *)
Lemma resume_after_progress_witness :
  Sessions.resume_session true (λ _, true) 6 "s" with_session = (with_session, Panic) ∧
  ∃ m' r, Sessions.resume_session false (λ _, true) 6 "s" with_session = (m', Ok r) ∧
    Sessions.success r = true ∧ Sessions.bytes_saved r = 65536 ∧ Sessions.result_chunks_skipped r = 2.
Proof.
  assert (∀ x, is_Some (Sessions.to_json x)) as Htotal by (intros x; by eexists).
  assert (Sessions.checkpoints with_session !! "s" =
    Some (Sessions.updates progress (Sessions.checkpoint_new 0 "s" "peer" ["folder"]%string))) as Hs by apply lookup_singleton_eq.
  split.
  - destruct (Sessions.resume_after_progress true (λ _, true) Htotal 6 0 "s" "peer" ["folder"]%string progress with_session
      Hs eq_refl progress_fits) as [H _].
    apply H; [reflexivity|]. vm_compute. discriminate.
  - destruct (Sessions.resume_after_progress false (λ _, true) Htotal 6 0 "s" "peer" ["folder"]%string progress with_session
      Hs eq_refl progress_fits) as [_ H].
    destruct (H (or_introl eq_refl)) as (m' & r & c' & Hr & Hok & Hbytes & Hskip & _).
    exists m', r. split; [exact Hr|]. split; [exact Hok|]. split; [rewrite Hbytes; by vm_compute|].
    rewrite Hskip. by vm_compute.
Defined.

(** A transfer that has failed twice of at most three times. *)
Definition failing : Transfers.ActiveTransfer :=
  {| Transfers.checkpoint := {| Transfers.transfer_id := "t"; Transfers.peer_id := "peer"; Transfers.file_path := "file";
       Transfers.total_size := 1000; Transfers.bytes_transferred := 400; Transfers.chunk_offset := 4;
       Transfers.last_checkpoint := 0; Transfers.retry_count := 2 |};
     Transfers.status := Transfers.Active; Transfers.connection := Some "c1"; Transfers.last_activity := 0;
     Transfers.bandwidth_samples := [] |}.
Definition with_transfer : Transfers.ResumableTransferManager :=
  Transfers.set_active {[ "t" := failing ]} Transfers.manager_default.

Lemma exhausted_transfer_resumes_witness :
  ∃ m1 m2 t', Transfers.fail_transfer true 5 "t" with_transfer = (m1, Ok tt) ∧
    Transfers.active_transfers m1 !! "t" = None ∧ Transfers.resume_transfer 6 "t" "c2" m1 = (m2, Ok tt) ∧
    Transfers.active_transfers m2 !! "t" = Some t' ∧ Transfers.status t' = Transfers.Active ∧
    Transfers.max_retry_count m2 ≤ Transfers.retry_count (Transfers.checkpoint t') ∧
    Transfers.bytes_transferred (Transfers.checkpoint t') = 400.
Proof.
  refine (Transfers.exhausted_transfer_resumes true 5 6 "t" "c2" failing with_transfer _ eq_refl _ _);
    [apply lookup_singleton_eq|cbn; lia|cbn; lia].
Defined.
End Examples.
