(* ===== verification/Orchestrator.v ===== *)
(** The orchestrator of the daemon: landro-daemon/src/orchestrator.rs, and the
    indexer behind its lock: landro-index/src/async_indexer.rs.

    One actor owns the state and handles one event at a time: a message, a tick of
    the debounce timer, or a tick of the retry timer. Changed files are collected
    and later cut into chunks, stored and indexed by groups of tasks that run at
    the same time; their interleaving is any schedule. *)

From S2P Require Import Prelude Bytes CasInterface Chunker Manifest Indexer.
From Stdlib Require Import Init.Byte ZArith Lia.
From stdpp Require Import base option list gmap sets strings pretty numbers sorting.
Open Scope Z_scope.

(** ** Data *)

Inductive FileEventKind :=
  | Created
  | Modified
  | Deleted
  | Renamed (from to : Path).
Record FileEvent := { event_path : Path; event_kind : FileEventKind }.

Record PeerInfo := { device_id : string; device_name : string; address : string;
                     capabilities : list string; last_seen : Z; peer_version : string }.

Record OrchestratorStatus := {
  running : bool;
  status_peers : Z;
  pending_changes : Z;
  status_folders : list Path;
  status_bytes : Z;
  status_operations : list string;
}.

Inductive OrchestratorMessage :=
  | FileChanged (event : FileEvent)
  | FileChangesBatch (events : list FileEvent)
  | PeerDiscovered (peer : PeerInfo)
  | PeerLost (peer_id : string)
  | SyncRequested (peer_id : string) (path : Path)
  | AddSyncFolder (path : Path)
  | RemoveSyncFolder (path : Path)
  | GetStatus
  | Shutdown.

Record OrchestratorConfig := {
  max_concurrent_chunks : Z;
  debounce_duration : Z;
  auto_sync : bool;
  max_retries : Z;
  batch_size : Z;
}.
(** Durations are in milliseconds. *)
Definition OrchestratorConfig_default : OrchestratorConfig :=
  {| max_concurrent_chunks := 4; debounce_duration := 500; auto_sync := true; max_retries := 3; batch_size := 100 |}.

Record PendingOperation := {
  op_path : Path;
  op_kind : FileEventKind;
  retry_count : Z;
  last_attempt : Z;
}.

Inductive OrchestratorError :=
  | OrchestratorIo
  | OrchestratorChunker (e : ChunkerError)
  | OrchestratorStore
  | OrchestratorIndex (e : IndexError)
  | PathDoesNotExist (p : Path)
  | PathIsNotADirectory (p : Path)
  | InvalidHashLength.

(** What the program tells others: the callbacks it calls, the answers it sends. *)
Inductive Output :=
  | PeerSyncNeeded (peer_id : string) (folders : list Path)
  | ManifestReady (folder : Path)
  | StatusSent (status : OrchestratorStatus).

Inductive FileOperation := Create | Modify | Delete.

(** The store handle of the orchestrator. It is another object than the one in the
    indexer, opened on the same directory. *)
Class StoreHandle (Store : Type) `{ContentStore Store} := {
  store_read : Store → list byte → Store * option (list byte);
  store_write : Store → list byte → Store * bool;
  store_read_data s h d : (store_read s h).2 = Some d → blake3 d = h;
  store_read_keeps s h h' : cas_holds s h' → cas_holds (store_read s h).1 h';
  store_write_holds s data : (store_write s data).2 = true → cas_holds (store_write s data).1 (blake3 data);
  store_write_keeps s data h : cas_holds s h → cas_holds (store_write s data).1 h;
}.
Definition same_handle `{ContentStore Store} : StoreHandle Store := {|
  store_read := cas_read; store_write := cas_write; store_read_data := cas_read_data;
  store_read_keeps := cas_read_keeps; store_write_holds := cas_write_holds; store_write_keeps := cas_write_keeps |}.

(** [str::contains]. *)
Fixpoint str_contains (needle s : string) : bool :=
  String.prefix needle s || match s with String _ s => str_contains needle s | EmptyString => false end.

(** [Path::parent]. *)
Definition parent (p : Path) : option Path :=
  match p with
  | [] => None
  | [name] => if String.eqb name "/" then None else Some []
  | _ => Some (removelast p)
  end.

(** [slice::chunks], for the loops over batches. *)
Fixpoint chunks_of {A} (fuel : nat) (n : nat) (l : list A) : list (list A) :=
  match fuel, l with
  | S fuel, _ :: _ => take n l :: chunks_of fuel n (drop n l)
  | _, _ => []
  end.
Definition chunks {E A} (n : Z) (l : list A) : outcome E (list (list A)) :=
  if n =? 0 then Panic else Ok (chunks_of (length l) (Z.to_nat n) l).

Section orchestrator.
Context `{Hex, Blake3, IndexDb} {Store : Type} `{!ContentStore Store, !StoreHandle Store}.
Context (checked : bool) (config : OrchestratorConfig) (chunker : Chunker).
Context (index_config : IndexerConfig) (index_chunker : Chunker).

(** What an event finds outside of the program: the files, the two clocks, as many
    rounds as the walks of the folders take, and which task goes next when several
    run at the same time. *)
Record Env := {
  os : System;
  instant : Z;
  utc : DateTime;
  walk_fuel : nat;
  schedule : FileIndexer (Store:=Store) → list Path → list nat;
}.
Implicit Types env : Env.

(** The store and the database, which the tasks share. *)
Abbreviation Storage := (FileIndexer (Store:=Store)).
Abbreviation task_st := (st Storage OrchestratorError).

Record SyncOrchestrator := {
  storage : Storage;
  has_peer_callback : bool;
  has_manifest_callback : bool;
  synced_folders : list Path;
  active_peers : gmap string PeerInfo;
  pending_operations : list PendingOperation;
  current_operations : list string;
  total_bytes_synced : Z;
  debounce_buffer : list FileEvent;
  last_debounce : Z;
  outputs : list Output;
}.
Abbreviation orch := (st SyncOrchestrator OrchestratorError).
Implicit Types o : SyncOrchestrator.

Definition set_storage (x : Storage) o : SyncOrchestrator := {| storage := x;
  has_peer_callback := has_peer_callback o; has_manifest_callback := has_manifest_callback o;
  synced_folders := synced_folders o; active_peers := active_peers o; pending_operations := pending_operations o;
  current_operations := current_operations o; total_bytes_synced := total_bytes_synced o;
  debounce_buffer := debounce_buffer o; last_debounce := last_debounce o; outputs := outputs o |}.
Definition set_folders (x : list Path) o : SyncOrchestrator := {| storage := storage o;
  has_peer_callback := has_peer_callback o; has_manifest_callback := has_manifest_callback o;
  synced_folders := x; active_peers := active_peers o; pending_operations := pending_operations o;
  current_operations := current_operations o; total_bytes_synced := total_bytes_synced o;
  debounce_buffer := debounce_buffer o; last_debounce := last_debounce o; outputs := outputs o |}.
Definition set_peers (x : gmap string PeerInfo) o : SyncOrchestrator := {| storage := storage o;
  has_peer_callback := has_peer_callback o; has_manifest_callback := has_manifest_callback o;
  synced_folders := synced_folders o; active_peers := x; pending_operations := pending_operations o;
  current_operations := current_operations o; total_bytes_synced := total_bytes_synced o;
  debounce_buffer := debounce_buffer o; last_debounce := last_debounce o; outputs := outputs o |}.
Definition set_pending (x : list PendingOperation) o : SyncOrchestrator := {| storage := storage o;
  has_peer_callback := has_peer_callback o; has_manifest_callback := has_manifest_callback o;
  synced_folders := synced_folders o; active_peers := active_peers o; pending_operations := x;
  current_operations := current_operations o; total_bytes_synced := total_bytes_synced o;
  debounce_buffer := debounce_buffer o; last_debounce := last_debounce o; outputs := outputs o |}.
Definition set_current (x : list string) o : SyncOrchestrator := {| storage := storage o;
  has_peer_callback := has_peer_callback o; has_manifest_callback := has_manifest_callback o;
  synced_folders := synced_folders o; active_peers := active_peers o; pending_operations := pending_operations o;
  current_operations := x; total_bytes_synced := total_bytes_synced o;
  debounce_buffer := debounce_buffer o; last_debounce := last_debounce o; outputs := outputs o |}.
Definition set_bytes (x : Z) o : SyncOrchestrator := {| storage := storage o;
  has_peer_callback := has_peer_callback o; has_manifest_callback := has_manifest_callback o;
  synced_folders := synced_folders o; active_peers := active_peers o; pending_operations := pending_operations o;
  current_operations := current_operations o; total_bytes_synced := x;
  debounce_buffer := debounce_buffer o; last_debounce := last_debounce o; outputs := outputs o |}.
Definition set_buffer (x : list FileEvent) o : SyncOrchestrator := {| storage := storage o;
  has_peer_callback := has_peer_callback o; has_manifest_callback := has_manifest_callback o;
  synced_folders := synced_folders o; active_peers := active_peers o; pending_operations := pending_operations o;
  current_operations := current_operations o; total_bytes_synced := total_bytes_synced o;
  debounce_buffer := x; last_debounce := last_debounce o; outputs := outputs o |}.
Definition set_last (x : Z) o : SyncOrchestrator := {| storage := storage o;
  has_peer_callback := has_peer_callback o; has_manifest_callback := has_manifest_callback o;
  synced_folders := synced_folders o; active_peers := active_peers o; pending_operations := pending_operations o;
  current_operations := current_operations o; total_bytes_synced := total_bytes_synced o;
  debounce_buffer := debounce_buffer o; last_debounce := x; outputs := outputs o |}.
Definition output (x : Output) o : SyncOrchestrator := {| storage := storage o;
  has_peer_callback := has_peer_callback o; has_manifest_callback := has_manifest_callback o;
  synced_folders := synced_folders o; active_peers := active_peers o; pending_operations := pending_operations o;
  current_operations := current_operations o; total_bytes_synced := total_bytes_synced o;
  debounce_buffer := debounce_buffer o; last_debounce := last_debounce o; outputs := outputs o ++ [x] |}.

Definition new (storage : Storage) (now : Z) : SyncOrchestrator := {| storage := storage;
  has_peer_callback := false; has_manifest_callback := false; synced_folders := []; active_peers := ∅;
  pending_operations := []; current_operations := []; total_bytes_synced := 0; debounce_buffer := [];
  last_debounce := now; outputs := [] |}.

(** ** The store, the indexer and the files *)

Definition on_storage {A} (m : task_st A) : orch A := λ o,
  let '(x, r) := m (storage o) in (set_storage x o, r).
Definition store_put (data : list byte) : task_st unit := λ x,
  let '(c, written) := store_write (cas x) data in
  ({| cas := c; database := database x |}, if written : bool then Ok tt else Err OrchestratorStore).
(** [AsyncIndexer::index_folder]: the indexer, under its write lock. *)
Definition index env (folder : Path) : task_st Manifest := λ x,
  let '(x, r) := index_folder checked (os env) index_config index_chunker (utc env) (walk_fuel env) folder x in
  (x, map_err OrchestratorIndex r).

(** [Path::exists], [is_file] and [is_dir]. *)
Definition exists_path env (p : Path) : bool := bool_decide (is_Some (metadata (os env) p)).
Definition is_file env (p : Path) : bool := bool_decide (m_type <$> metadata (os env) p = Some IsFile).
Definition is_dir env (p : Path) : bool := bool_decide (m_type <$> metadata (os env) p = Some IsDir).
(** [tokio::fs::read]. *)
Definition read_file env (p : Path) : outcome OrchestratorError (list byte) :=
  reads ← ok_or OrchestratorIo (open_file (os env) p);
  map_err (λ _, OrchestratorIo) (read_all reads []).

(** ** The tasks of a batch *)

(** [process_single_file], between two of its awaits. *)
Inductive Task :=
  | Start (p : Path) (op : FileOperation)
  | Write (p : Path) (chunks : list Chunk)
  | Index (dir : Path)
  | Finished (r : outcome OrchestratorError unit).

Definition task_start env (p : Path) (op : FileOperation) : Task :=
  match op with
  | Delete => Finished (Ok tt)
  | _ =>
      if is_file env p then
        match content ← read_file env p; map_err OrchestratorChunker (chunk_bytes chunker content) with
        | Ok chunks => Write p chunks
        | Err e => Finished (Err e)
        | Panic => Finished Panic
        end
      else if is_dir env p then Index p else Finished (Ok tt)
  end.
Definition task_step env (t : Task) (x : Storage) : Storage * Task :=
  match t with
  | Start p op => (x, task_start env p op)
  | Write p (chunk :: chunks) =>
      match store_put (data chunk) x with
      | (x, Ok _) => (x, Write p chunks)
      | (x, Err e) => (x, Finished (Err e))
      | (x, Panic) => (x, Finished Panic)
      end
  | Write p [] => (x, match parent p with Some dir => Index dir | None => Finished (Ok tt) end)
  | Index dir => let '(x, r) := index env dir x in (x, Finished ((λ _, tt) <$> r))
  | Finished r => (x, Finished r)
  end.
(** The steps that a task still takes once its file is read. *)
Definition steps_left (t : Task) : nat :=
  match t with Write _ chunks => 2 + length chunks | Index _ => 1 | _ => 0 end.
Fixpoint steps env (n : nat) (t : Task) (x : Storage) : Storage * Task :=
  match n with
  | O => (x, t)
  | S n => let '(x, t) := task_step env t x in steps env n t x
  end.
Definition complete env (t : Task) (x : Storage) : Storage * Task :=
  let '(x, t) := task_step env t x in steps env (steps_left t) t x.

(** The tasks take turns as the schedule says; whatever is left of them then runs to
    its end ([join_all]). *)
Fixpoint take_turns env (turns : list nat) (ts : list Task) (x : Storage) : Storage * list Task :=
  match turns with
  | [] => (x, ts)
  | i :: turns =>
      match ts !! i with
      | Some t => let '(x, t) := task_step env t x in take_turns env turns (<[i := t]> ts) x
      | None => take_turns env turns ts x
      end
  end.
Fixpoint complete_all env (ts : list Task) (x : Storage) : Storage * list Task :=
  match ts with
  | [] => (x, [])
  | t :: ts =>
      let '(x, t) := complete env t x in
      let '(x, ts) := complete_all env ts x in (x, t :: ts)
  end.
Definition run_group env (group : list Path) (op : FileOperation) (x : Storage) : Storage * list Task :=
  let '(x, ts) := take_turns env (schedule env x group) (map (λ p, Start p op) group) x in
  complete_all env ts x.

(** The loop over the paths; the errors of the tasks are logged. *)
Fixpoint batch_loop env (op : FileOperation) (paths group : list Path) (x : Storage) : Storage :=
  match paths with
  | [] => match group with [] => x | _ => (run_group env group op x).1 end
  | p :: paths =>
      let group := group ++ [p] in
      if max_concurrent_chunks config <=? zlen group
      then batch_loop env op paths [] (run_group env group op x).1
      else batch_loop env op paths group x
  end.
Definition process_file_batch env (paths : list Path) (op : FileOperation) : orch unit :=
  modify_st (λ o, set_storage (batch_loop env op paths [] (storage o)) o).

(** ** Files, one at a time *)

Definition keep : Z := 256 * 1024.
Fixpoint store_all (cs : list Chunk) : orch unit :=
  match cs with
  | [] => mret tt
  | c :: cs => _ ← on_storage (store_put (data c)); store_all cs
  end.
Definition chunk_and_store (buffer : list byte) : orch unit :=
  cs ← lift (map_err OrchestratorChunker (chunk_bytes chunker buffer));
  store_all cs.
(** The loop of [process_file_streaming] over the reads of the file. *)
Fixpoint streaming_loop (reads : list (outcome ChunkerError (list byte))) (buffer : list byte) (file_offset : Z)
    : orch unit :=
  let at_end := if bool_decide (buffer = []) then mret tt else chunk_and_store buffer in
  match reads with
  | [] => at_end
  | r :: reads =>
      bytes ← lift (map_err (λ _, OrchestratorIo) r);
      match bytes with
      | [] => at_end
      | _ =>
          let buffer := buffer ++ bytes in
          threshold ← lift (arith checked 64 (max_concurrent_chunks config * 256));
          threshold ← lift (arith checked 64 (threshold * 1024));
          buffer ←
            (if threshold <=? zlen buffer then
               process_size ← lift (arith checked 64 (zlen buffer - keep));
               data_to_process ← lift (or_panic (slice buffer 0 process_size));
               _ ← chunk_and_store data_to_process;
               mret (drop (Z.to_nat process_size) buffer)
             else mret buffer);
          file_offset ← lift (arith checked 64 (file_offset + zlen bytes));
          streaming_loop reads buffer file_offset
      end
  end.
Definition process_file_streaming env (p : Path) : orch unit :=
  reads ← lift (ok_or OrchestratorIo (open_file (os env) p));
  meta ← lift (ok_or OrchestratorIo (metadata (os env) p));
  _ ← streaming_loop reads [] 0;
  o ← get_st;
  total ← lift (arith checked 64 (total_bytes_synced o + m_len meta));
  modify_st (set_bytes total).

Definition operation (p : Path) : string := "Processing: " +:+ path_string p.
Definition process_single_file_internal env (p : Path) (op : FileOperation) : orch unit :=
  match op with
  | Delete => mret tt
  | _ =>
      if is_file env p then
        _ ← modify_st (λ o, set_current (current_operations o ++ [operation p]) o);
        _ ← process_file_streaming env p;
        _ ← match parent p with
            | Some dir => _ ← on_storage (index env dir); mret tt
            | None => mret tt
            end;
        modify_st (λ o, set_current (filter (λ x, str_contains (path_string p) x = false) (current_operations o)) o)
      else mret tt
  end.

(** An error that is only logged. *)
Definition logged (m : orch unit) : orch unit := λ o,
  match m o with (o, Err _) => (o, Ok tt) | r => r end.
(** The loop over the entries of a directory; the directories still to process, the
    next one first. *)
Fixpoint process_entries env (dir : Path) (names : list string) (dirs : list Path) : orch (list Path) :=
  match names with
  | [] => mret dirs
  | name :: names =>
      let p := Indexer.join dir name in
      t ← lift (ok_or OrchestratorIo (file_type (os env) p));
      match t with
      | IsFile => _ ← logged (process_single_file_internal env p Create); process_entries env dir names dirs
      | IsDir => process_entries env dir names (p :: dirs)
      | _ => process_entries env dir names dirs
      end
  end.
(** [while let Some(current_dir) = dir_stack.pop()]; out of fuel is a loop that has
    not ended. *)
Fixpoint process_dirs env (fuel : nat) (dirs : list Path) : orch unit :=
  match dirs with
  | [] => mret tt
  | dir :: dirs =>
      match fuel with
      | O => lift Panic
      | S fuel =>
          names ← lift (ok_or OrchestratorIo (read_dir (os env) dir));
          dirs ← process_entries env dir names dirs;
          process_dirs env fuel dirs
      end
  end.
Definition notify (call : SyncOrchestrator → bool) (x : Output) : orch unit :=
  modify_st (λ o, if call o then output x o else o).
Definition process_folder_for_sync env (p : Path) : orch unit :=
  _ ← on_storage (index env p);
  _ ← process_dirs env (walk_fuel env) [p];
  notify has_manifest_callback (ManifestReady p).

Definition add_sync_folder env (p : Path) : orch unit :=
  _ ← lift (fail_if (negb (exists_path env p)) (PathDoesNotExist p));
  _ ← lift (fail_if (negb (is_dir env p)) (PathIsNotADirectory p));
  o ← get_st;
  if bool_decide (p ∈ synced_folders o) then mret tt else
  _ ← process_folder_for_sync env p;
  modify_st (λ o, set_folders (synced_folders o ++ [p]) o).
Definition remove_sync_folder (p : Path) : orch unit :=
  modify_st (λ o, set_folders (filter (λ q, q ≠ p) (synced_folders o)) o).

(** ** Peers *)

(** With folders and auto-sync a log line is all that is done for a new peer. *)
Definition handle_peer_discovered (peer : PeerInfo) : orch unit :=
  _ ← modify_st (λ o, set_peers (<[device_id peer := peer]> (active_peers o)) o);
  o ← get_st;
  if negb (bool_decide (synced_folders o = [])) && auto_sync config then mret tt
  else notify has_peer_callback (PeerSyncNeeded (device_id peer) (synced_folders o)).
(** The pending operations are filtered by a test that is always true. *)
Definition handle_peer_lost (peer_id : string) : orch unit :=
  modify_st (λ o, set_peers (delete peer_id (active_peers o)) o).
Definition handle_sync_request env (peer_id : string) (p : Path) : orch unit :=
  o ← get_st;
  match active_peers o !! peer_id with
  | None => mret tt
  | Some _ =>
      _ ← process_folder_for_sync env p;
      notify has_peer_callback (PeerSyncNeeded peer_id [p])
  end.
Context `{MapIter}.
Definition trigger_auto_sync : orch unit := modify_st (λ o,
  if has_peer_callback o
  then foldl (λ o peer_id, output (PeerSyncNeeded peer_id (synced_folders o)) o) o (map fst (map_iter (active_peers o)))
  else o).

(** ** Changes and timers *)

(** The changes grouped by what is to be done. *)
Record Grouped := { creates : list Path; modifies : list Path; deletes : list Path }.
Definition group_event (g : Grouped) (e : FileEvent) : Grouped :=
  match event_kind e with
  | Created => {| creates := creates g ++ [event_path e]; modifies := modifies g; deletes := deletes g |}
  | Modified => {| creates := creates g; modifies := modifies g ++ [event_path e]; deletes := deletes g |}
  | Deleted => {| creates := creates g; modifies := modifies g; deletes := deletes g ++ [event_path e] |}
  | Renamed from to =>
      {| creates := creates g ++ [to]; modifies := modifies g; deletes := deletes g ++ [from] |}
  end.
Definition group_changes (changes : list FileEvent) : Grouped :=
  foldl group_event {| creates := []; modifies := []; deletes := [] |} changes.
Fixpoint process_batches env (op : FileOperation) (batches : list (list Path)) : orch unit :=
  match batches with
  | [] => mret tt
  | batch :: batches => _ ← process_file_batch env batch op; process_batches env op batches
  end.
Definition process_all env (op : FileOperation) (paths : list Path) : orch unit :=
  batches ← lift (chunks (batch_size config) paths);
  process_batches env op batches.

(** [Instant::elapsed]. *)
Definition elapsed env (t : Z) : Z := saturating_sub (instant env) t.
Definition process_debounced_changes env : orch unit :=
  o ← get_st;
  if bool_decide (debounce_buffer o = []) then mret tt else
  if elapsed env (last_debounce o) <? debounce_duration config then mret tt else
  let changes := debounce_buffer o in
  _ ← modify_st (λ o, set_last (instant env) (set_buffer [] o));
  let grouped := group_changes changes in
  _ ← process_all env Create (creates grouped);
  _ ← process_all env Modify (modifies grouped);
  _ ← process_all env Delete (deletes grouped);
  o ← get_st;
  if auto_sync config && negb (bool_decide (active_peers o = ∅)) then trigger_auto_sync else mret tt.

(** The loop over the operations: those kept, and the events to reprocess. *)
Fixpoint retry_loop env (ops still_pending : list PendingOperation) (buffer : list FileEvent) :
    outcome OrchestratorError (list PendingOperation * list FileEvent) :=
  match ops with
  | [] => mret (still_pending, buffer)
  | op :: ops =>
      if max_retries config <=? retry_count op then retry_loop env ops still_pending buffer
      else if elapsed env (last_attempt op) <? 30 * 1000 then retry_loop env ops (still_pending ++ [op]) buffer
      else
        let event := {| event_path := op_path op; event_kind := op_kind op |} in
        count ← arith checked 64 (retry_count op + 1);
        let op := {| op_path := op_path op; op_kind := op_kind op; retry_count := count; last_attempt := instant env |} in
        retry_loop env ops (still_pending ++ [op]) (buffer ++ [event])
  end.
Definition retry_failed_operations env : orch unit :=
  o ← get_st;
  if bool_decide (pending_operations o = []) then mret tt else
  _ ← modify_st (set_pending []);
  '(still_pending, buffer) ← lift (retry_loop env (pending_operations o) [] (debounce_buffer o));
  modify_st (λ o, set_pending still_pending (set_buffer buffer o)).

(** ** Messages *)

Definition get_status o : OrchestratorStatus := {|
  running := true;
  status_peers := Z.of_nat (size (active_peers o));
  pending_changes := zlen (debounce_buffer o) + zlen (pending_operations o);
  status_folders := synced_folders o;
  status_bytes := total_bytes_synced o;
  status_operations := current_operations o |}.

(** [false] ends the loop. *)
Definition handle_message env (message : OrchestratorMessage) : orch bool :=
  match message with
  | FileChanged event => _ ← modify_st (λ o, set_buffer (debounce_buffer o ++ [event]) o); mret true
  | FileChangesBatch events => _ ← modify_st (λ o, set_buffer (debounce_buffer o ++ events) o); mret true
  | PeerDiscovered peer => _ ← handle_peer_discovered peer; mret true
  | PeerLost peer_id => _ ← handle_peer_lost peer_id; mret true
  | SyncRequested peer_id p => _ ← handle_sync_request env peer_id p; mret true
  | AddSyncFolder p => _ ← add_sync_folder env p; mret true
  | RemoveSyncFolder p => _ ← remove_sync_folder p; mret true
  | GetStatus => _ ← modify_st (λ o, output (StatusSent (get_status o)) o); mret true
  | Shutdown => mret false
  end.
(** [while retry_count < max_retries], with [n] attempts left. *)
Fixpoint attempts env (n : nat) (message : OrchestratorMessage) : orch bool := λ o,
  match n with
  | O => (o, Ok true)
  | S n =>
      match handle_message env message o with
      | (o, Err e) => match n with O => (o, Err e) | _ => attempts env n message o end
      | r => r
      end
  end.
Definition handle_message_with_recovery env (message : OrchestratorMessage) : orch bool :=
  match message with
  | PeerDiscovered _ => attempts env 3 message
  | _ => handle_message env message
  end.

(** What wakes the loop of [run], in any order: the branches of [select!]. *)
Inductive Event :=
  | Received (message : OrchestratorMessage)
  | ChannelClosed
  | DebounceTick
  | RetryTick.
(** One round of the loop: whether it goes on. An error is logged. *)
Definition run_event env (e : Event) : orch bool := λ o,
  let log {A} (m : orch A) (go : A → bool) :=
    match m o with
    | (o, Ok a) => (o, Ok (go a))
    | (o, Err _) => (o, Ok true)
    | (o, Panic) => (o, Panic)
    end in
  match e with
  | Received message => log (handle_message_with_recovery env message) (λ continue, continue)
  | ChannelClosed => (o, Ok false)
  | DebounceTick => log (process_debounced_changes env) (λ _, true)
  | RetryTick => log (retry_failed_operations env) (λ _, true)
  end.
Definition shutdown env : orch unit :=
  o ← get_st;
  _ ← (if bool_decide (debounce_buffer o = []) then mret tt else process_debounced_changes env);
  modify_st (set_current []).
(** The loop; without further events it waits. *)
Fixpoint run (events : list (Env * Event)) : orch unit :=
  match events with
  | [] => mret tt
  | (env, e) :: events =>
      continue ← run_event env e;
      if continue : bool then run events else shutdown env
  end.

(** ** Chunks for a peer *)

(** [handle_data_stream]: the bytes of the request, and those of the answer. *)
Definition handle_data_stream (request : list byte) : task_st (list byte) := λ x,
  let parsed :=
    '(len_buf, rest) ← ok_or OrchestratorIo (read_exact 4 request);
    '(chunk_hash, _) ← ok_or OrchestratorIo (read_exact (Z.to_nat (be_value len_buf)) rest);
    _ ← fail_if (negb (zlen chunk_hash =? 32)) InvalidHashLength;
    mret chunk_hash in
  match parsed with
  | Ok h =>
      let '(c, r) := store_read (cas x) h in
      ({| cas := c; database := database x |},
       match r with
       | Some d => Ok (be_bytes 4 (wrap 32 (zlen d)) ++ d)
       | None => Err OrchestratorStore
       end)
  | Err e => (x, Err e)
  | Panic => (x, Panic)
  end.
End orchestrator.

(** ** The tasks of a group *)

Section tasks.
#[local] Set Default Proof Using "All".
Context `{Hex, Blake3, !IndexDb} {Store : Type} `{!ContentStore Store, !StoreHandle Store}.
Context (checked : bool) (config : OrchestratorConfig) (chunker : Chunker).
Context (index_config : IndexerConfig) (index_chunker : Chunker).
Abbreviation Storage := (FileIndexer (Store:=Store)).
Context (env : Env (Store:=Store)).
Abbreviation step := (task_step checked chunker index_config index_chunker env).
Abbreviation steps := (steps checked chunker index_config index_chunker env).
Abbreviation complete := (complete checked chunker index_config index_chunker env).
Abbreviation complete_all := (complete_all checked chunker index_config index_chunker env).
Abbreviation take_turns := (take_turns checked chunker index_config index_chunker env).
Abbreviation run_group := (run_group checked chunker index_config index_chunker env).
Abbreviation batch_loop := (batch_loop checked config chunker index_config index_chunker env).
Implicit Types (x : Storage) (t : Task) (ts : list Task).

(** Every task comes to its end. *)
Lemma steps_finished n r x : steps n (Finished r) x = (x, Finished r).
Proof. by induction n. Qed.
Lemma steps_finish t x : (∀ p op, t ≠ Start p op) → ∃ r, (steps (steps_left t) t x).2 = Finished r.
Proof.
  intros Hs. destruct t as [p op|p cs|d|r]; [by destruct (Hs p op)| |cbn|by exists r].
  - clear Hs. cbn [steps_left]. revert x. induction cs as [|c cs IH]; intros x.
    + cbn. destruct (parent p) as [d|]; cbn; [|by eexists]. destruct (index _ _ _ _ _ _) as [x' r]. by eexists.
    + cbn [Nat.add length]. cbn [Orchestrator.steps task_step].
      destruct (store_put (data c) x) as [x1 [[]|e|]]; [apply IH|..];
        cbn; rewrite steps_finished; by eexists.
  - destruct (index _ _ _ _ _ _) as [x' r]. by eexists.
Qed.
Lemma complete_finishes t x : ∃ r, (complete t x).2 = Finished r.
Proof.
  unfold Orchestrator.complete. destruct (step t x) as [x1 t1] eqn:Hs. apply steps_finish. intros p op ->.
  destruct t as [p' op'|p' [|c cs]|d|r]; cbn in Hs.
  - injection Hs as _ Hs. unfold task_start in Hs. by repeat case_match.
  - injection Hs as _ Hs. by case_match.
  - by destruct (store_put (data c) x) as [x2 [[]|e|]].
  - by destruct (index _ _ _ _ _ _).
  - done.
Qed.
Lemma complete_all_finishes ts x : Forall (λ t, ∃ r, t = Finished r) (complete_all ts x).2.
Proof.
  revert x. induction ts as [|t ts IH]; intros x; cbn [Orchestrator.complete_all]; [constructor|].
  destruct (complete_finishes t x) as [r Hr]. destruct (complete t x) as [x1 t1]. cbn in Hr. subst t1.
  specialize (IH x1). destruct (complete_all ts x1) as [x2 ts2]. constructor; [by eexists|done].
Qed.

(** What every step of a task preserves holds after the group, whatever the order. *)
Section invariant.
Context (Inv : list Task → Storage → Prop).
Context (Hstep : ∀ ts i t x, ts !! i = Some t → Inv ts x → Inv (<[i := (step t x).2]> ts) (step t x).1).

Lemma take_turns_inv turns ts x : Inv ts x → Inv (take_turns turns ts x).2 (take_turns turns ts x).1.
Proof.
  revert ts x. induction turns as [|i turns IH]; intros ts x Hi; cbn [Orchestrator.take_turns]; [done|].
  destruct (ts !! i) as [t|] eqn:Ht; [|by apply IH]. pose proof (Hstep _ _ _ _ Ht Hi) as Hs.
  destruct (step t x) as [x' t']. by apply IH.
Qed.
Lemma steps_inv n pre t post x : Inv (pre ++ t :: post) x →
  Inv (pre ++ (steps n t x).2 :: post) (steps n t x).1.
Proof.
  revert t x. induction n as [|n IH]; intros t x Hi; cbn [Orchestrator.steps]; [done|].
  pose proof (Hstep (pre ++ t :: post) (length pre) t x) as Hs.
  rewrite list_lookup_middle in Hs by done. specialize (Hs eq_refl Hi).
  rewrite insert_app_r_alt, Nat.sub_diag in Hs by lia. cbn in Hs.
  destruct (step t x) as [x' t']. by apply IH.
Qed.
Lemma complete_task_inv pre t post x : Inv (pre ++ t :: post) x →
  Inv (pre ++ (complete t x).2 :: post) (complete t x).1.
Proof.
  intros Hi. unfold Orchestrator.complete. pose proof (steps_inv 1 pre t post x Hi) as Hs. cbn in Hs.
  destruct (step t x) as [x' t']. by apply steps_inv.
Qed.
Lemma complete_all_inv pre ts x : Inv (pre ++ ts) x →
  Inv (pre ++ (complete_all ts x).2) (complete_all ts x).1.
Proof.
  revert pre x. induction ts as [|t ts IH]; intros pre x Hi; cbn [Orchestrator.complete_all]; [done|].
  pose proof (complete_task_inv pre t ts x Hi) as Hc. destruct (complete t x) as [x1 t1]. cbn in Hc.
  specialize (IH (pre ++ [t1]) x1). rewrite <-!app_assoc in IH. cbn in IH. specialize (IH Hc).
  by destruct (complete_all ts x1) as [x2 ts2].
Qed.
Lemma run_group_inv group op x : Inv (map (λ p, Start p op) group) x →
  Inv (run_group group op x).2 (run_group group op x).1.
Proof.
  intros Hi. unfold Orchestrator.run_group.
  pose proof (take_turns_inv (schedule env x group) _ _ Hi) as Ht.
  destruct (take_turns (schedule env x group) _ x) as [x1 ts1]. by apply (complete_all_inv []).
Qed.
End invariant.
End tasks.

(** A section variable is a chunker that was made for some configuration. *)
Section files.
#[local] Set Default Proof Using "All".
Context `{Hex, Blake3, !IndexDb, !IndexDbLaws} {Store : Type} `{!ContentStore Store, !StoreHandle Store}.
Context (checked : bool) (config : OrchestratorConfig) (cfg : ChunkerConfig) (chunker : Chunker).
Context (Hchunker : Chunker.new cfg = Ok chunker).
Context (index_config : IndexerConfig) (index_cfg : ChunkerConfig) (index_chunker : Chunker).
Context (Hindex : Chunker.new index_cfg = Ok index_chunker).
Abbreviation Storage := (FileIndexer (Store:=Store)).
Abbreviation orch := (st (SyncOrchestrator (Store:=Store)) OrchestratorError).
Abbreviation run_group := (run_group checked chunker index_config index_chunker).
Abbreviation step := (task_step checked chunker index_config index_chunker).
Abbreviation index := (index checked index_config index_chunker).
Implicit Types (x : Storage) (t : Task) (ts : list Task) (env : Env (Store:=Store)).

Definition no_object_lost x x' : Prop := ∀ h, cas_holds (cas x) h → cas_holds (cas x') h.
Lemma index_keeps env d x : no_object_lost x (index env d x).1.
Proof.
  intros h Hh. unfold Orchestrator.index.
  pose proof (index_folder_keeps checked (os env) index_config index_cfg index_chunker Hindex (walk_fuel env)
    (utc env) d x h Hh) as Hk. by destruct (index_folder _ _ _ _ _ _ _ x).
Qed.
Lemma store_put_holds data x : no_object_lost x (store_put data x).1 ∧
  ((store_put data x).2 = Ok tt → cas_holds (cas (store_put data x).1) (blake3 data)).
Proof.
  unfold store_put, no_object_lost. pose proof (store_write_keeps (cas x) data) as Hk.
  pose proof (store_write_holds (cas x) data) as Hh. destruct (store_write (cas x) data) as [c []]; cbn in *; naive_solver.
Qed.
Lemma chunk_bytes_pieces content cs : chunk_bytes chunker content = Ok cs →
  concat (map data cs) = content ∧ ∀ c, c ∈ cs → hash c = blake3 (data c).
Proof.
  intros Hc. destruct (chunk_bytes_Chunked cfg chunker content Hchunker) as (cs' & Hc' & Hch).
  rewrite Hc in Hc'. injection Hc' as <-. split; [by apply Chunked_concat in Hch|].
  intros c [i Hi]%list_elem_of_lookup. by destruct (Chunked_lookup _ _ _ _ _ _ Hch Hi) as (_ & _ & ? & _).
Qed.

(** The store holds all pieces of the file [p]. *)
Definition stored env p x : Prop := ∃ content pieces,
  read_file env p = Ok content ∧ concat pieces = content ∧ ∀ d, d ∈ pieces → cas_holds (cas x) (blake3 d).
(** How far the task of [p] has come. *)
Definition progress env p op x t : Prop :=
  match t with
  | Start q op' => q = p ∧ op' = op
  | Write _ cs => ∃ content before, read_file env p = Ok content ∧ chunk_bytes chunker content = Ok (before ++ cs) ∧
      ∀ c, c ∈ before → cas_holds (cas x) (blake3 (data c))
  | Index _ | Finished (Ok _) => is_file env p = true → stored env p x
  | Finished _ => True
  end.
Lemma stored_mono env p x x' : no_object_lost x x' → stored env p x → stored env p x'.
Proof. intros Hk (content & pieces & ? & ? & Hh). exists content, pieces. split_and!; [done..|]. auto. Qed.
Lemma progress_mono env p op x x' t : no_object_lost x x' → progress env p op x t → progress env p op x' t.
Proof.
  intros Hk. pose proof (stored_mono env p x x' Hk) as Hs. destruct t as [| |d|[]]; cbn; try done; try (by auto).
  intros (content & before & ? & ? & Hh). exists content, before. split_and!; [done..|]. auto.
Qed.
Lemma written_stored env p x content cs : read_file env p = Ok content → chunk_bytes chunker content = Ok cs →
  (∀ c, c ∈ cs → cas_holds (cas x) (blake3 (data c))) → stored env p x.
Proof.
  intros Hr Hc Hh. exists content, (map data cs). split_and!; [done|by apply chunk_bytes_pieces|].
  intros d (c & <- & Hin%list_elem_of_In)%list_elem_of_In%in_map_iff. by apply Hh.
Qed.
Lemma step_progress env p op t x : op ≠ Delete → progress env p op x t →
  no_object_lost x (step env t x).1 ∧ progress env p op (step env t x).1 (step env t x).2.
Proof.
  intros Hop Hp. destruct t as [q op'|q [|c cs]|d|r]; cbn [task_step].
  - destruct Hp as [-> ->]. split; [by intros h|]. cbn [fst snd].
    assert (∀ op, op ≠ Delete → progress env p op x (task_start chunker env p op)) as Hs; [|by apply Hs].
    clear op Hop. intros op Hop. unfold task_start. destruct op; [| |done].
    1, 2: destruct (is_file env p) eqn:Hf; [|by destruct (is_dir env p); cbn; rewrite Hf].
    1, 2: match goal with |- context [match ?m with _ => _ end] => destruct m as [cs|e|] eqn:Hm end; try done.
    1, 2: apply bind_Ok in Hm as (content & Hr & Hc); apply map_err_Ok in Hc; exists content, []; split_and!;
      [done..|]; set_solver.
  - split; [by intros h|]. cbn [fst snd]. destruct Hp as (content & before & Hr & Hc & Hh). rewrite app_nil_r in Hc.
    pose proof (written_stored _ _ _ _ _ Hr Hc Hh) as Hs. destruct (parent q); by intros _.
  - destruct Hp as (content & before & Hr & Hc & Hh). destruct (store_put_holds (data c) x) as [Hk Hw].
    destruct (store_put (data c) x) as [x' [[]|e|]]; cbn in Hk, Hw |- *; [|done..].
    split; [done|]. exists content, (before ++ [c]). rewrite <-app_assoc. split_and!; [done..|].
    intros c' [Hin| ->%list_elem_of_singleton]%elem_of_app; [by apply Hk, Hh|by apply Hw].
  - pose proof (index_keeps env d x) as Hk. destruct (index env d x) as [x' [m|e|]]; cbn in *; [|done..].
    split; [done|]. intros Hf. by eapply stored_mono; [|apply Hp].
  - split; [by intros h|done].
Qed.

(** A group of tasks always ends, whatever order they take turns in: there is one
    result for every path, no object of the store is lost, and when the result for a
    regular file is not an error, its contents could be read and the store holds
    pieces that put together are these contents. *)
Theorem group_stores_files env group op x : op ≠ Delete →
  let '(x', ts) := run_group env group op x in
  no_object_lost x x' ∧ length ts = length group ∧
  ∀ i p, group !! i = Some p → ∃ r, ts !! i = Some (Finished r) ∧
    (r = Ok tt → is_file env p = true → stored env p x').
Proof.
  intros Hop.
  pose (Inv := λ ts x', no_object_lost x x' ∧ Forall2 (λ p t, progress env p op x' t) group ts).
  assert (∀ ts i t x', ts !! i = Some t → Inv ts x' → Inv (<[i := (step env t x').2]> ts) (step env t x').1) as Hstep.
  { intros ts i t x' Ht [Hk Hf]. destruct (Forall2_lookup_r _ _ _ _ _ Hf Ht) as (p & Hp & Hpt).
    destruct (step_progress env p op t x' Hop Hpt) as [Hk' Hp']. split; [intros h Hh; by apply Hk', Hk|].
    rewrite <-(list_insert_id group i p) by done. apply Forall2_insert; [|done].
    eapply Forall2_impl; [exact Hf|]. intros q t' Hq. by eapply progress_mono. }
  pose proof (run_group_inv checked config chunker index_config index_chunker env Inv Hstep group op x) as Hi.
  pose proof (complete_all_finishes checked config chunker index_config index_chunker env) as Hfin.
  unfold Orchestrator.run_group in *. destruct (take_turns _ _ _ _ _ _ _ x) as [x1 ts1]. specialize (Hfin ts1 x1).
  destruct (complete_all _ _ _ _ _ ts1 x1) as [x' ts]. destruct Hi as [Hk Hf].
  { split; [by intros h|]. apply Forall2_fmap_r, Forall_Forall2_diag, Forall_true. by intros. }
  split; [done|]. split; [by rewrite (Forall2_length _ _ _ Hf)|]. intros i p Hp.
  destruct (Forall2_lookup_l _ _ _ _ _ Hf Hp) as (t & Ht & Hpt). rewrite Forall_forall in Hfin.
  destruct (Hfin t) as [r ->]; [by eapply list_elem_of_lookup_2|]. exists r. split; [done|].
  intros -> Hfile. by apply Hpt.
Qed.

(** ** Changes in an indexed folder *)

(** The first manifest of the directory [dir] is saved. *)
Definition known env x (dir : Path) : Prop := ∃ canonical, canonicalize (os env) dir = Some canonical ∧
  path_string canonical ≠ "/" ∧ (path_to_folder_id canonical, "/", 1) ∈ manifest_rows (database x).
Definition same_manifests x x' : Prop := manifest_rows (database x') = manifest_rows (database x).
Lemma known_same env x x' dir : same_manifests x x' → known env x dir → known env x' dir.
Proof. unfold known. by intros ->. Qed.
Lemma index_known env dir x : root_rows (database x) → known env x dir →
  (∀ m, (index env dir x).2 ≠ Ok m) ∧ same_manifests x (index env dir x).1.
Proof.
  intros Hroot (canonical & Hc & Hne & Hin). unfold Orchestrator.index.
  destruct (index_folder_again checked index_config index_cfg index_chunker Hindex (os env) (utc env) (walk_fuel env)
    dir canonical x Hroot Hc Hne Hin) as [Hno Hsame].
  destruct (index_folder _ _ _ _ _ _ _ x) as [x' r]. split; [|done]. cbn in *. destruct r as [m| |]; [by destruct (Hno m)|done..].
Qed.

(** What would be indexed because of the path [p] is indexed already. *)
Definition change_known env x (p : Path) : Prop :=
  (is_file env p = true → ∀ dir, parent p = Some dir → known env x dir) ∧
  (is_dir env p = true → known env x p).
Definition task_known env x t : Prop :=
  match t with
  | Start p _ => change_known env x p
  | Write p _ => ∀ dir, parent p = Some dir → known env x dir
  | Index dir => known env x dir
  | Finished _ => True
  end.
Lemma step_known env x t x' : root_rows (database x) → same_manifests x x' → task_known env x t →
  same_manifests x (step env t x').1 ∧ task_known env x (step env t x').2.
Proof.
  intros Hroot Hsame Ht. destruct t as [p op|p [|c cs]|dir|r]; cbn [task_step]; [|..|done].
  - split; [done|]. destruct Ht as [Hfile Hdir]. cbn [snd]. unfold task_start.
    destruct op, (is_file env p), (is_dir env p); try done; try (by apply Hdir).
    all: match goal with |- context [match ?m with _ => _ end] => destruct m end; try done; exact (Hfile eq_refl).
  - split; [done|]. cbn [snd]. destruct (parent p) as [dir|] eqn:Hp; [exact (Ht dir Hp)|done].
  - unfold store_put. by destruct (store_write (cas x') (data c)) as [c' []].
  - destruct (index_known env dir x') as [_ Hs].
    + unfold root_rows. by rewrite Hsame.
    + by eapply known_same.
    + destruct (index env dir x') as [x2 r]. cbn in *. split; [|done]. unfold same_manifests in *. congruence.
Qed.
Lemma run_group_known env group op x x' : root_rows (database x) → same_manifests x x' →
  Forall (change_known env x) group → same_manifests x (run_group env group op x').1.
Proof.
  intros Hroot Hsame Hg.
  pose (Inv := λ ts x', same_manifests x x' ∧ Forall (task_known env x) ts).
  apply (run_group_inv checked config chunker index_config index_chunker env Inv); [|split; [done|apply Forall_map; exact Hg]].
  intros ts i t x1 Ht [Hs Hts]. assert (task_known env x t) as Hk by (by eapply Forall_lookup_1).
  destruct (step_known env x t x1 Hroot Hs Hk) as [? ?]. split; [done|]. by apply Forall_insert.
Qed.

(** What every group preserves, all batches preserve. *)
Section batches.
Context (env : Env (Store:=Store)) (op : FileOperation) (Q : Path → Prop) (P : Storage → Prop).
Context (HP : ∀ group x, Forall Q group → P x → P (run_group env group op x).1).
Lemma batch_loop_inv paths group x : Forall Q paths → Forall Q group → P x →
  P (batch_loop checked config chunker index_config index_chunker env op paths group x).
Proof.
  intros Hq. revert group x. induction Hq as [|p paths Hp Hq IH]; intros group x Hg Hx; cbn [batch_loop].
  - destruct group as [|q group]; [done|]. by apply HP.
  - assert (Forall Q (group ++ [p])) as Hg' by (apply Forall_app; by repeat constructor). case_if.
    + apply IH; [constructor|by apply HP].
    + by apply IH.
Qed.
Lemma process_batches_inv batches o : Forall (Forall Q) batches → P (storage o) →
  ∃ x, process_batches checked config chunker index_config index_chunker env op batches o = (set_storage x o, Ok tt) ∧ P x.
Proof.
  intros Hq. revert o. induction Hq as [|batch batches Hb Hq IH]; intros o Ho; cbn [process_batches].
  - exists (storage o). split; [by destruct o|done].
  - unfold mbind, st_bind. cbn. destruct (IH (set_storage
      (batch_loop checked config chunker index_config index_chunker env op batch [] (storage o)) o)) as (x & Hx & Hp).
    { by apply batch_loop_inv. }
    exists x. by rewrite Hx.
Qed.
End batches.

Lemma chunks_of_concat {A} fuel n (l : list A) : n ≠ O → (length l ≤ fuel)%nat → concat (chunks_of fuel n l) = l.
Proof.
  intros Hn. revert l. induction fuel as [|fuel IH]; intros [|a l] Hl; cbn [chunks_of concat]; try done; [simpl in Hl; lia|].
  rewrite IH; [apply take_drop|]. rewrite length_drop. simpl in *. lia.
Qed.
Lemma process_all_inv env op Q P paths o : batch_size config > 0 →
  (∀ group x, Forall Q group → P x → P (run_group env group op x).1) →
  Forall Q paths → P (storage o) →
  ∃ x, process_all checked config chunker index_config index_chunker env op paths o = (set_storage x o, Ok tt) ∧ P x.
Proof.
  intros Hb HP Hq Ho. unfold process_all, chunks. replace (batch_size config =? 0) with false by lia.
  unfold mbind, st_bind, lift. cbn. eapply process_batches_inv; [done| |done].
  apply Forall_concat. by rewrite chunks_of_concat by lia.
Qed.

(** ** Processing the changes *)

Context `{MapIter}.
Abbreviation process := (process_debounced_changes checked config chunker index_config index_chunker).
(** The changes that are processed, by kind; those to be created or modified. *)
Definition to_index (o : SyncOrchestrator (Store:=Store)) : list Path :=
  let g := group_changes (debounce_buffer o) in creates g ++ modifies g.
(** What the peers are told at the end. *)
Definition announce (o : SyncOrchestrator (Store:=Store)) : list Output :=
  if auto_sync config && negb (bool_decide (active_peers o = ∅)) && has_peer_callback o
  then map (λ peer_id, PeerSyncNeeded peer_id (synced_folders o)) (map fst (map_iter (active_peers o))) else [].

Lemma announce_outputs ids o : foldl (λ o peer_id, output (PeerSyncNeeded peer_id (synced_folders o)) o) o ids =
  (* only the list of outputs grows *)
  {| storage := storage o; has_peer_callback := has_peer_callback o; has_manifest_callback := has_manifest_callback o;
     synced_folders := synced_folders o; active_peers := active_peers o; pending_operations := pending_operations o;
     current_operations := current_operations o; total_bytes_synced := total_bytes_synced o;
     debounce_buffer := debounce_buffer o; last_debounce := last_debounce (Store:=Store) o;
     outputs := outputs o ++ map (λ peer_id, PeerSyncNeeded peer_id (synced_folders o)) ids |}.
Proof using Type.
  revert o. induction ids as [|id ids IH]; intros o; cbn [foldl map].
  - rewrite app_nil_r. by destruct o.
  - rewrite IH. cbn. by rewrite <-app_assoc.
Qed.
Lemma run_group_delete env group x : (run_group env group Delete x).1 = x.
Proof.
  pose (Inv := λ ts x', x' = x ∧ Forall (λ t, (∃ p, t = Start p Delete) ∨ t = Finished (Ok tt)) ts).
  apply (run_group_inv checked config chunker index_config index_chunker env Inv).
  - intros ts i t x' Ht [-> Hts]. assert (Hk := Forall_lookup_1 _ _ _ _ Hts Ht).
    destruct Hk as [[p ->]| ->]; cbn; split; try done; apply Forall_insert; auto.
  - split; [done|]. apply Forall_map, Forall_true. intros p. left. by exists p.
Qed.

Lemma process_changes env o (P : Storage → Prop) Q : batch_size config > 0 →
  debounce_buffer o ≠ [] → debounce_duration config ≤ elapsed env (last_debounce o) →
  (∀ group op x, op ≠ Delete → Forall Q group → P x → P (run_group env group op x).1) →
  Forall Q (to_index o) → P (storage o) →
  ∃ x, P x ∧ (process env o).2 = Ok tt ∧ storage (process env o).1 = x ∧
    debounce_buffer (process env o).1 = [] ∧ outputs (process env o).1 = outputs o ++ announce o ∧
    pending_operations (process env o).1 = pending_operations o ∧
    synced_folders (process env o).1 = synced_folders o ∧ active_peers (process env o).1 = active_peers o.
Proof.
  intros Hb Hbuf Ht HP Hq Ho. apply Forall_app in Hq as [Hc Hm].
  set (g := group_changes (debounce_buffer o)) in *. set (o0 := set_last (instant env) (set_buffer [] o)).
  destruct (process_all_inv env Create Q P (creates g) o0 Hb) as (x1 & E1 & Hx1); [intros; by apply HP|done|done|].
  destruct (process_all_inv env Modify Q P (modifies g) (set_storage x1 o0) Hb) as (x2 & E2 & Hx2);
    [intros; by apply HP|done|done|].
  destruct (process_all_inv env Delete (λ _, True) P (deletes g) (set_storage x2 (set_storage x1 o0)) Hb)
    as (x3 & E3 & Hx3); [intros; by rewrite run_group_delete|by apply Forall_true|done|].
  exists x3. split; [done|]. set (o3 := set_storage x3 (set_storage x2 (set_storage x1 o0))) in *.
  assert (process env o = (if auto_sync config && negb (bool_decide (active_peers o = ∅))
    then trigger_auto_sync o3 else (o3, Ok tt))) as ->.
  { unfold process_debounced_changes. rewrite (st_bind_eq get_st _ o o o) by done.
    rewrite bool_decide_false by done.
    replace (elapsed env (last_debounce o) <? debounce_duration config) with false by lia.
    cbv zeta. rewrite (st_bind_eq _ _ o o0 tt) by done. fold g. rewrite (st_bind_eq _ _ _ _ _ E1).
    rewrite (st_bind_eq _ _ _ _ _ E2), (st_bind_eq _ _ _ _ _ E3), (st_bind_eq get_st _ o3 o3 o3) by done.
    by destruct (_ && _). }
  unfold announce. destruct (auto_sync config && _); cbn [andb].
  - unfold trigger_auto_sync, modify_st. cbn [fst snd].
    replace (has_peer_callback o3) with (has_peer_callback o) by done.
    destruct (has_peer_callback o); [rewrite announce_outputs|]; cbn; rewrite ?app_nil_r; by split_and!.
  - cbn. rewrite app_nil_r. by split_and!.
Qed.

(** C20: Once a folder was indexed, changes in it no longer reach the index: when all
    changed files lie in folders (and all changed directories are folders) whose first
    manifest is saved, then whatever order the tasks run in, processing the changes
    reports success, empties the buffer and tells every peer to synchronise, but
    leaves the saved manifests as they are. *)
Theorem indexed_changes_lost env o : batch_size config > 0 → root_rows (database (storage o)) →
  debounce_buffer o ≠ [] → debounce_duration config ≤ elapsed env (last_debounce o) →
  Forall (change_known env (storage o)) (to_index o) →
  let '(o', r) := process env o in
  r = Ok tt ∧ debounce_buffer o' = [] ∧ outputs o' = outputs o ++ announce o ∧
  same_manifests (storage o) (storage o').
Proof.
  intros Hb Hroot Hbuf Ht Hq.
  destruct (process_changes env o (same_manifests (storage o)) (change_known env (storage o)) Hb Hbuf Ht) as (x & Hx & Hr & Hs & Hd & Ho & _);
    [|exact Hq|done|].
  - intros group op x _ Hg Hx. by apply run_group_known.
  - destruct (process env o) as [o' r]. cbn in *. rewrite Hs. by split_and!.
Qed.

(** ** Streaming a file into the store *)

Abbreviation Orchestrator := (SyncOrchestrator (Store:=Store)).
(** Only the store changed, and lost no object. *)
Definition only_storage (o o' : Orchestrator) : Prop :=
  ∃ x, o' = set_storage x o ∧ no_object_lost (storage o) x ∧ database x = database (storage o).
#[local] Instance only_storage_preorder : PreOrder only_storage.
Proof.
  split.
  - intros o. exists (storage o). split_and!; [by destruct o|by intros h|done].
  - intros o1 o2 o3 (x & -> & Hx & Hd) (y & -> & Hy & Hd'). exists y. split_and!; [done| |by rewrite Hd'].
    intros h Hh. by apply Hy, Hx.
Qed.
Abbreviation stores P m Q := (triple (λ _ : Orchestrator, True) only_storage P m Q).
Definition has (d : list byte) (o : Orchestrator) : Prop := cas_holds (cas (storage o)) (blake3 d).

Definition have (ds : list (list byte)) (o : Orchestrator) : Prop := ∀ d, d ∈ ds → has d o.
Lemma have_mono ds o o' : only_storage o o' → have ds o → have ds o'.
Proof. intros (x & -> & Hx & _) Hh d Hd. by apply Hx, Hh. Qed.
(** Pieces that are in the store stay there. *)
Lemma stores_frame {A} ds (m : orch A) Q :
  stores (λ _, True) m Q → stores (have ds) m (λ a o, Q a o ∧ have ds o).
Proof.
  intros Hm o _ Ho. destruct (Hm o I I) as (_ & Hr & Hq). split_and!; [done..|].
  intros a Ha. split; [by apply Hq|by eapply have_mono].
Qed.
Lemma on_storage_put data : stores (λ _, True) (on_storage (store_put data)) (λ _ o, has data o).
Proof.
  intros o _ _. unfold on_storage. destruct (store_put_holds data (storage o)) as [Hk Hw].
  assert (database (store_put data (storage o)).1 = database (storage o)) as Hd.
  { unfold store_put. by destruct (store_write _ _). }
  destruct (store_put data (storage o)) as [x r]. cbn in *. split; [done|]. split; [by exists x|].
  intros [] ->. by apply Hw.
Qed.
Lemma store_all_have cs : stores (λ _, True) (store_all cs) (λ _ o, have (map data cs) o).
Proof.
  induction cs as [|c cs IH]; cbn [store_all map].
  - apply triple_ret; [apply _|]. intros o _ _ d Hd. by apply not_elem_of_nil in Hd.
  - eapply triple_bind; [apply _|apply on_storage_put|]. intros ?. eapply triple_weaken; [apply _| | |].
    + apply (stores_frame [data c]), IH.
    + intros o _ Ho d ->%list_elem_of_singleton. exact Ho.
    + intros a' o _ [Hcs Hc] d [->|Hd]%elem_of_cons; [apply Hc; left|by apply Hcs].
Qed.
Lemma chunk_and_store_have buffer : stores (λ _, True) (chunk_and_store chunker buffer)
  (λ _ o, ∃ pieces, concat pieces = buffer ∧ have pieces o).
Proof.
  unfold chunk_and_store. apply triple_lift_bind; [apply _|]. intros cs Hcs. apply map_err_Ok in Hcs.
  eapply triple_weaken; [apply _|apply store_all_have|done|].
  intros a o _ Ho. exists (map data cs). split; [|done]. by apply chunk_bytes_pieces.
Qed.

Lemma read_all_app {reads} b : read_all reads b = (λ bs, b ++ bs) <$> read_all reads [].
Proof.
  revert b. induction reads as [|r reads IH]; intros b; cbn [read_all]; [cbn; by rewrite app_nil_r|].
  destruct r as [[|c bs]|e|]; cbn; [by rewrite app_nil_r| |done..]. rewrite (IH (b ++ _)), (IH (c :: bs)).
  destruct (read_all reads []); cbn; [|done..]. by rewrite <-app_assoc.
Qed.

(** What is stored at the end: pieces that are the buffer and the rest of the file. *)
Lemma streaming_loop_have reads buffer offset : stores (λ _, True)
  (streaming_loop checked config chunker reads buffer offset)
  (λ _ o, ∃ bytes pieces, read_all reads [] = Ok bytes ∧ concat pieces = buffer ++ bytes ∧ have pieces o).
Proof.
  revert buffer offset. induction reads as [|r reads IH]; intros buffer offset; cbn [streaming_loop].
  all: assert (stores (λ _, True) (if bool_decide (buffer = []) then mret tt else chunk_and_store chunker buffer)
    (λ _ o, ∃ pieces, concat pieces = buffer ∧ have pieces o)) as Hend
    by (apply triple_if; [apply _|intros ->%bool_decide_eq_true; apply triple_ret; [apply _|];
          intros o _ _; exists []; split; [done|]; intros d Hd; by apply not_elem_of_nil in Hd
        |intros _; apply chunk_and_store_have]).
  { eapply triple_weaken; [apply _|exact Hend|done|]. intros a o _ (pieces & Hc & Hh).
    exists [], pieces. by rewrite app_nil_r. }
  apply triple_lift_bind; [apply _|]. intros bytes Hr. apply map_err_Ok in Hr. subst r.
  destruct bytes as [|b bytes].
  { eapply triple_weaken; [apply _|exact Hend|done|]. intros a o _ (pieces & Hc & Hh).
    exists [], pieces. by rewrite app_nil_r. }
  remember (b :: bytes) as read eqn:Hread.
  do 2 (apply triple_lift_bind; [apply _|]; intros ? _).
  eapply (triple_bind _ _ _ _ _ (λ rest o, ∃ pieces, concat pieces ++ rest = buffer ++ read ∧ have pieces o)).
  { apply triple_if; [apply _|intros _|intros _].
    - apply triple_lift_bind; [apply _|]. intros size _. apply triple_lift_bind; [apply _|].
      intros first Hfirst%or_panic_Ok. eapply triple_bind; [apply _|apply chunk_and_store_have|].
      intros []. apply triple_ret; [apply _|]. intros o _ (pieces & Hc & Hh). exists pieces. split; [|done].
      apply slice_split in Hfirst. rewrite Z2Nat.inj_0, drop_0 in Hfirst. rewrite Hc. symmetry. exact Hfirst.
    - apply triple_ret; [apply _|]. intros o _ _. exists []. split; [done|]. intros d Hd. by apply not_elem_of_nil in Hd. }
  intros rest. apply triple_lift_bind; [apply _|]. intros offset' _.
  intros o _ (pieces & Hc & Hh).
  destruct (stores_frame pieces _ _ (IH rest offset') o I Hh) as (_ & Ho & Hq). split_and!; [done..|].
  intros u Hu. destruct (Hq u Hu) as [(bytes' & pieces' & Hb & Hc' & Hh') Hold].
  exists (read ++ bytes'), (pieces ++ pieces'). split_and!.
  - cbn [read_all]. rewrite Hread at 1. cbn. rewrite <-Hread, read_all_app, Hb. done.
  - by rewrite concat_app, Hc', app_assoc, Hc, <-app_assoc.
  - intros d [Hd|Hd]%elem_of_app; [by apply Hold|by apply Hh'].
Qed.

(** Code that does not panic, and what it returns. *)
Definition calm {A} (m : orch A) (Q : A → Prop) : Prop :=
  ∀ o, (m o).2 ≠ Panic ∧ ∀ a, (m o).2 = Ok a → Q a.
Lemma calm_bind {A B} (m : orch A) (f : A → orch B) Q Q' :
  calm m Q → (∀ a, Q a → calm (f a) Q') → calm (m ≫= f) Q'.
Proof.
  intros Hm Hf o. destruct (Hm o) as [Hn Hq]. unfold mbind, st_bind.
  destruct (m o) as [o1 [a|e|]]; [by apply Hf, Hq|done..].
Qed.
Lemma calm_lift {A} (m : outcome OrchestratorError A) Q : m ≠ Panic → (∀ a, m = Ok a → Q a) → calm (lift m) Q.
Proof. by intros Hn Hq o. Qed.
Lemma calm_ret {A} (a : A) (Q : A → Prop) : Q a → calm (mret a) Q.
Proof. intros Hq o. split; [done|]. by intros a' [= <-]. Qed.
Lemma store_all_calm cs : calm (store_all cs) (λ _, True).
Proof.
  induction cs as [|c cs IH]; cbn [store_all]; [by apply calm_ret|]. apply (calm_bind _ _ (λ _, True)); [|by intros ?].
  intros o. unfold on_storage, store_put. by destruct (store_write _ _) as [x []].
Qed.
Lemma chunk_and_store_calm buffer : calm (chunk_and_store chunker buffer) (λ _, True).
Proof.
  unfold chunk_and_store. apply (calm_bind _ _ (λ _, True)); [|intros cs _; apply store_all_calm].
  destruct (chunk_bytes_Chunked cfg chunker buffer Hchunker) as (cs & Hc & _). by rewrite Hc.
Qed.
(** The number of bytes that the reads give. *)
Definition read_size (reads : list (outcome ChunkerError (list byte))) : Z :=
  sum_of (λ r, match r with Ok bytes => zlen bytes | _ => 0 end) reads.
Lemma read_size_nonneg reads : 0 ≤ read_size reads.
Proof. apply sum_of_nonneg. intros [x| |] _; try lia. apply zlen_nonneg. Qed.
Lemma streaming_loop_calm reads buffer offset :
  0 < max_concurrent_chunks config → max_concurrent_chunks config * 256 * 1024 < 2 ^ 64 →
  Forall (λ r, r ≠ Panic) reads → 0 ≤ offset → offset + read_size reads < 2 ^ 64 →
  zlen buffer + read_size reads < 2 ^ 64 → calm (streaming_loop checked config chunker reads buffer offset) (λ _, True).
Proof.
  intros Hm Hm2 Hreads. revert buffer offset. induction Hreads as [|r reads Hr Hreads IH]; intros buffer offset Ho Hs Hb;
    cbn [streaming_loop]; (assert (calm (if bool_decide (buffer = []) then mret tt else chunk_and_store chunker buffer) (λ _, True))
      as Hend by (case_if; [by apply calm_ret|apply chunk_and_store_calm])); [done|].
  apply (calm_bind _ _ (λ bytes, r = Ok bytes)).
  { apply calm_lift; [by destruct r|]. intros bytes Hr'. by apply map_err_Ok in Hr'. }
  intros bytes ->. destruct bytes as [|b bytes]; [done|]. remember (b :: bytes) as read eqn:Hread. clear Hread.
  change (read_size (Ok read :: reads)) with (zlen read + read_size reads) in Hs, Hb.
  pose proof (read_size_nonneg reads) as Hrs. pose proof (zlen_nonneg read). pose proof (zlen_nonneg buffer).
  pose proof (zlen_app buffer read) as Happ.
  apply (calm_bind _ _ (λ k : Z, k = max_concurrent_chunks config * 256));
    [apply calm_lift; rewrite arith_exact by lia; [done|congruence]|]. intros k ->.
  apply (calm_bind _ _ (λ k : Z, k = max_concurrent_chunks config * 256 * 1024));
    [apply calm_lift; rewrite arith_exact by lia; [done|congruence]|]. intros k ->.
  apply (calm_bind _ _ (λ rest, zlen rest ≤ zlen (buffer ++ read))).
  { case_if as Hle; [|by apply calm_ret]. unfold keep.
    apply (calm_bind _ _ (λ size, size = zlen (buffer ++ read) - 256 * 1024));
      [apply calm_lift; rewrite arith_exact by lia; [done|congruence]|]. intros size ->.
    apply (calm_bind _ _ (λ _, True)); [apply calm_lift; [|done]; rewrite slice_Some by lia; done|]. intros first _.
    apply (calm_bind _ _ (λ _, True)); [apply chunk_and_store_calm|]. intros _ _. apply calm_ret.
    rewrite zlen_drop. lia. }
  intros rest Hrest. apply (calm_bind _ _ (λ off, off = offset + zlen read));
    [apply calm_lift; rewrite arith_exact by lia; [done|congruence]|]. intros off ->.
  apply IH; lia.
Qed.

(** Streaming a file into the store never panics (with at least one concurrent
    chunk configured and sizes below 2^64), loses no object of the store, and when it
    succeeds the store holds pieces that put together are the contents of the file,
    and the size of the file was added to the bytes synchronised. *)
Theorem streaming_stores_file env p o reads meta :
  0 < max_concurrent_chunks config → max_concurrent_chunks config * 256 * 1024 < 2 ^ 64 →
  open_file (os env) p = Some reads → Forall (λ r, r ≠ Panic) reads → read_size reads < 2 ^ 64 →
  metadata (os env) p = Some meta → 0 ≤ total_bytes_synced o + m_len meta < 2 ^ 64 →
  let '(o', r) := process_file_streaming checked config chunker env p o in
  r ≠ Panic ∧ no_object_lost (storage o) (storage o') ∧
  (r = Ok tt → stored env p (storage o') ∧ total_bytes_synced o' = total_bytes_synced o + m_len meta).
Proof.
  intros Hm Hm2 Hopen Hreads Hsize Hmeta Htotal. unfold process_file_streaming. rewrite Hopen, Hmeta. cbn [ok_or].
  rewrite (st_bind_eq _ _ o o reads) by done. rewrite (st_bind_eq _ _ o o meta) by done.
  destruct (streaming_loop_have reads [] 0 o I I) as (_ & (x & Hx & Hk & _) & Hq).
  destruct (streaming_loop_calm reads [] 0 Hm Hm2 Hreads ltac:(lia) ltac:(lia) ltac:(done) o) as [Hn _].
  unfold mbind at 1, st_bind at 1. destruct (streaming_loop _ _ _ reads [] 0 o) as [o1 [[]|e|]]; cbn in Hx, Hq, Hn;
    subst o1; [|by split_and!..|done].
  unfold mbind, st_bind, get_st, lift, modify_st. cbn [total_bytes_synced set_storage].
  rewrite arith_exact by done. split_and!; [done|done|]. intros _. split; [|done].
  destruct (Hq tt eq_refl) as (bytes & pieces & Hr & Hc & Hh). exists bytes, pieces. split_and!; [|done|done].
  unfold read_file. rewrite Hopen. cbn. by rewrite Hr.
Qed.

Lemma process_file_streaming_database env p o :
  let o' := (process_file_streaming checked config chunker env p o).1 in
  database (storage o') = database (storage o) ∧ current_operations o' = current_operations o.
Proof.
  cbn zeta. unfold process_file_streaming, mbind, st_bind, lift, get_st, modify_st.
  destruct (open_file (os env) p) as [reads|]; [|done]. destruct (metadata (os env) p) as [meta|]; [|done]. cbn [ok_or].
  destruct (streaming_loop_have reads [] 0 o I I) as (_ & (x & Hx & _ & Hd) & _).
  destruct (streaming_loop _ _ _ reads [] 0 o) as [o1 [u|e|]]; cbn in Hx; subst o1; cbn; [|done..].
  by destruct (arith _ _ _).
Qed.

(** In a folder that was indexed, a file that is processed on its own always
    fails: its chunks are stored, but indexing the folder again returns an error, so
    the file stays listed among the current operations and the saved manifests stay
    as they are. *)
Theorem file_of_indexed_folder_fails env p dir op o :
  op ≠ Delete → is_file env p = true → parent p = Some dir →
  root_rows (database (storage o)) → known env (storage o) dir →
  let '(o', r) := process_single_file_internal checked config chunker index_config index_chunker env p op o in
  r ≠ Ok tt ∧ current_operations o' = current_operations o ++ [operation p] ∧
  same_manifests (storage o) (storage o').
Proof.
  intros Hop Hfile Hparent Hroot Hknown. unfold process_single_file_internal. rewrite Hfile, Hparent.
  set (o1 := set_current (current_operations o ++ [operation p]) o).
  pose proof (process_file_streaming_database env p o1) as [Hd Hc].
  assert (let '(o', r) := (_ ← process_file_streaming checked config chunker env p;
      _ ← (_ ← on_storage (index env dir); mret tt);
      modify_st (λ o, set_current (filter (λ l : string, str_contains (path_string p) l = false) (current_operations o)) o)) o1 in
    r ≠ Ok tt ∧ current_operations o' = current_operations o ++ [operation p] ∧
    same_manifests (storage o) (storage o')) as Hgo; [|by destruct op].
  unfold mbind at 1, st_bind at 1. unfold same_manifests.
  destruct (process_file_streaming _ _ _ env p o1) as [o2 [u|e|]]; cbn [fst] in Hd, Hc; [|by rewrite Hd..].
  destruct (index_known env dir (storage o2)) as [Hno Hsame].
  { unfold root_rows. by rewrite Hd. }
  { apply (known_same env (storage o)); [|done]. unfold same_manifests. by rewrite Hd. }
  unfold mbind, st_bind, on_storage, mret, st_ret. destruct (index env dir (storage o2)) as [x [m|e|]]; cbn in *.
  - by destruct (Hno m).
  - unfold same_manifests in Hsame. by rewrite Hsame, Hd, Hc.
  - unfold same_manifests in Hsame. by rewrite Hsame, Hd, Hc.
Qed.

(** A shutdown loses changes: when it arrives less than the debounce duration
    after the changes before were processed, those that are still in the buffer are
    not processed, though the orchestrator ends without an error. *)
Theorem shutdown_drops_changes env o :
  debounce_buffer o ≠ [] → elapsed env (last_debounce o) < debounce_duration config →
  let '(o', r) := run checked config chunker index_config index_chunker [(env, Received Shutdown)] o in
  r = Ok tt ∧ storage o' = storage o ∧ debounce_buffer o' = debounce_buffer o ∧ outputs o' = outputs o.
Proof.
  intros Hb Ht. cbn [run]. unfold mbind at 1, st_bind at 1. cbn.
  unfold shutdown, process_debounced_changes. rewrite (st_bind_eq get_st _ o o o) by done.
  rewrite bool_decide_false by done. rewrite (st_bind_eq _ _ o o tt); [done|].
  rewrite (st_bind_eq get_st _ o o o) by done. rewrite bool_decide_false by done.
  by replace (elapsed env (last_debounce o) <? debounce_duration config) with true by lia.
Qed.

(** A peer gets what it asks for and nothing else: every answer on a data stream
    is for a request that starts with the length 32 and a hash of 32 bytes, and it is
    the length and the bytes of data with that hash; any other request is refused and
    leaves the store as it is; and no request makes the store lose an object. *)
Theorem data_stream_answers request x :
  let '(x', r) := handle_data_stream request x in
  r ≠ Panic ∧ no_object_lost x x' ∧
  (∀ answer, r = Ok answer → ∃ h rest d, request = be_bytes 4 32 ++ h ++ rest ∧ length h = 32%nat ∧
     blake3 d = h ∧ answer = be_bytes 4 (wrap 32 (zlen d)) ++ d) ∧
  ((∀ h rest, length h = 32%nat → request ≠ be_bytes 4 32 ++ h ++ rest) → is_ok r = false ∧ x' = x).
Proof using Type.
  unfold handle_data_stream. cbn zeta.
  assert (∀ E' (e : E'), no_object_lost x x) as Hid by (by intros ? ? h).
  destruct (read_exact 4 request) as [[len_buf rest]|] eqn:Hl; cbn; [|by split_and!; [|apply (Hid _ tt)|..]].
  destruct (read_exact (Z.to_nat (be_value len_buf)) rest) as [[h rest']|] eqn:Hh; cbn;
    [|by split_and!; [|apply (Hid _ tt)|..]].
  apply read_exact_Some in Hl as [-> Hlen], Hh as [-> Hhlen].
  destruct (zlen h =? 32) eqn:Hz; cbn; [|by split_and!; [|apply (Hid _ tt)|..]].
  assert (length h = 32%nat) as H32 by (unfold zlen in Hz; lia).
  assert (len_buf = be_bytes 4 32) as ->.
  { assert (be_value len_buf = 32) as Hv by lia. unfold be_value, be_bytes in *.
    rewrite <-Hv, <-Hlen, <-length_rev, le_bytes_value. by rewrite rev_involutive. }
  pose proof (store_read_data (cas x) h) as Hd. pose proof (store_read_keeps (cas x) h) as Hk.
  destruct (store_read (cas x) h) as [c [d|]]; cbn in *.
  - split_and!; [done|intros k; apply Hk| |by intros Hn; destruct (Hn h rest' H32)].
    intros answer [= <-]. exists h, rest', d. split_and!; [done..|by apply Hd|done].
  - split_and!; [done|intros k; apply Hk|done|by intros Hn; destruct (Hn h rest' H32)].
Qed.

(** ** Invariants of the loop *)

#[local] Set Default Proof Using "Type".

(** What indexing and processing files leave as it is. *)
Definition quiet (o o' : Orchestrator) : Prop :=
  pending_operations o' = pending_operations o ∧ synced_folders o' = synced_folders o ∧
  active_peers o' = active_peers o.
Definition q {A} (m : orch A) : Prop := ∀ o, quiet o (m o).1.
Lemma quiet_refl o : quiet o o.
Proof. done. Qed.
Lemma q_bind {A B} (m : orch A) (f : A → orch B) : q m → (∀ a, q (f a)) → q (m ≫= f).
Proof.
  intros Hm Hf o. specialize (Hm o). unfold mbind, st_bind, quiet in *. destruct (m o) as [o1 [a|e|]]; cbn in *; [|done..].
  destruct (Hf a o1) as (? & ? & ?). destruct Hm as (? & ? & ?). split_and!; congruence.
Qed.
Lemma q_lift {A} (m : outcome OrchestratorError A) : q (lift m).
Proof. by intros o. Qed.
Lemma q_ret {A} (a : A) : q (mret a).
Proof. by intros o. Qed.
Lemma q_get : q get_st.
Proof. by intros o. Qed.
Lemma q_on_storage {A} (m : st Storage OrchestratorError A) : q (on_storage m).
Proof. intros o. unfold on_storage. by destruct (m (storage o)). Qed.
Lemma q_modify f : (∀ o, quiet o (f o)) → q (modify_st f).
Proof. by intros Hf o. Qed.
Lemma q_logged m : q m → q (logged m).
Proof. intros Hm o. specialize (Hm o). unfold logged. by destruct (m o) as [o1 [u|e|]]. Qed.
#[local] Hint Resolve q_bind q_lift q_ret q_get q_on_storage q_logged : quiet.
#[local] Hint Extern 1 (q (modify_st _)) => apply q_modify; intros; unfold quiet; repeat case_match; done : quiet.

Lemma q_store_all cs : q (store_all cs).
Proof. induction cs as [|c cs IH]; cbn [store_all]; auto with quiet. Qed.
Lemma q_chunk_and_store buffer : q (chunk_and_store chunker buffer).
Proof. unfold chunk_and_store. auto using q_store_all with quiet. Qed.
Lemma q_streaming_loop reads buffer offset : q (streaming_loop checked config chunker reads buffer offset).
Proof.
  revert buffer offset. induction reads as [|r reads IH]; intros buffer offset; cbn [streaming_loop].
  { case_if; auto using q_chunk_and_store with quiet. }
  apply q_bind; [apply q_lift|]. intros [|b bytes]; [case_if; auto using q_chunk_and_store with quiet|].
  apply q_bind; [apply q_lift|]. intros t1. apply q_bind; [apply q_lift|]. intros t2.
  apply q_bind; [case_if; auto 6 using q_chunk_and_store with quiet|auto with quiet].
Qed.
Lemma q_single env p op : q (process_single_file_internal checked config chunker index_config index_chunker env p op).
Proof.
  unfold process_single_file_internal. destruct op; [| |auto with quiet].
  all: case_if; [|auto with quiet]; apply q_bind; [auto with quiet|]; intros _; apply q_bind.
  1, 3: unfold process_file_streaming; auto 10 using q_streaming_loop with quiet.
  all: intros _; apply q_bind; [case_match; auto with quiet|auto with quiet].
Qed.
Lemma q_entries env dir names dirs :
  q (process_entries checked config chunker index_config index_chunker env dir names dirs).
Proof.
  revert dirs. induction names as [|name names IH]; intros dirs; cbn [process_entries]; [auto with quiet|].
  apply q_bind; [auto with quiet|]. intros []; auto using q_single with quiet.
Qed.
Lemma q_dirs env fuel dirs : q (process_dirs checked config chunker index_config index_chunker env fuel dirs).
Proof.
  revert dirs. induction fuel as [|fuel IH]; intros [|dir dirs]; cbn [process_dirs]; auto using q_entries with quiet.
Qed.
Lemma q_folder env p : q (process_folder_for_sync checked config chunker index_config index_chunker env p).
Proof. unfold process_folder_for_sync, notify. auto using q_dirs with quiet. Qed.
Lemma q_process_all env op paths : q (process_all checked config chunker index_config index_chunker env op paths).
Proof.
  unfold process_all. apply q_bind; [auto with quiet|]. intros batches.
  induction batches as [|b batches IH]; cbn [process_batches]; unfold process_file_batch; auto with quiet.
Qed.
Lemma q_process env : q (process env).
Proof.
  unfold process_debounced_changes. apply q_bind; [auto with quiet|]. intros o.
  case_if; [auto with quiet|]. case_if; [auto with quiet|]. cbv zeta.
  apply q_bind; [auto with quiet|]. intros _. do 3 (apply q_bind; [apply q_process_all|]; intros _).
  apply q_bind; [auto with quiet|]. intros o'. case_if; [|auto with quiet].
  unfold trigger_auto_sync. apply q_modify. intros o1. case_if; [|done]. by rewrite announce_outputs.
Qed.

(** What the loop keeps, when the events that wake it are among [all]. *)
Record loop_inv (all : list (Env * Event)) (o : Orchestrator) : Prop := {
  li_pending : pending_operations o = [];
  li_folders : NoDup (synced_folders o);
  li_added p : p ∈ synced_folders o → ∃ env, (env, Received (AddSyncFolder p)) ∈ all ∧ is_dir env p = true;
  li_peers id peer : active_peers o !! id = Some peer →
    device_id peer = id ∧ ∃ env, (env, Received (PeerDiscovered peer)) ∈ all;
}.
Lemma quiet_inv all o o' : quiet o o' → loop_inv all o → loop_inv all o'.
Proof. intros (Hp & Hf & Ha) []. split; by rewrite ?Hp, ?Hf, ?Ha. Qed.
(** The state after a peer was discovered. *)
Definition discovered (peer : PeerInfo) (o : Orchestrator) : Orchestrator :=
  let o1 := set_peers (<[device_id peer := peer]> (active_peers o)) o in
  if negb (bool_decide (synced_folders o = [])) && auto_sync config then o1
  else if has_peer_callback o then output (PeerSyncNeeded (device_id peer) (synced_folders o)) o1 else o1.
Lemma handle_peer_discovered_eq peer o : handle_peer_discovered config peer o = (discovered peer o, Ok tt).
Proof.
  unfold handle_peer_discovered, discovered.
  rewrite (st_bind_eq _ _ o (set_peers (<[device_id peer := peer]> (active_peers o)) o) tt) by done.
  rewrite (st_bind_eq get_st _ _ _ _ eq_refl). cbn [synced_folders set_peers].
  by destruct (_ && _).
Qed.
Lemma discovered_attempts env n peer o :
  attempts checked config chunker index_config index_chunker env (S n) (PeerDiscovered peer) o = (discovered peer o, Ok true).
Proof.
  cbn [attempts handle_message]. by rewrite (st_bind_eq _ _ _ _ _ (handle_peer_discovered_eq peer o)).
Qed.
Lemma run_event_logged {A} env e (m : orch A) go o :
  (∀ o, run_event checked config chunker index_config index_chunker env e o =
    match m o with (o, Ok a) => (o, Ok (go a)) | (o, Err _) => (o, Ok true) | (o, Panic) => (o, Panic) end) →
  (run_event checked config chunker index_config index_chunker env e o).1 = (m o).1.
Proof. intros ->. by destruct (m o) as [o1 [a|e'|]]. Qed.
Lemma add_sync_folder_inv all env p o : (env, Received (AddSyncFolder p)) ∈ all → loop_inv all o →
  loop_inv all (add_sync_folder checked config chunker index_config index_chunker env p o).1.
Proof.
  intros Hin Ho. unfold add_sync_folder, mbind at 1 2, st_bind at 1 2, lift.
  destruct (fail_if _ (PathDoesNotExist p)); [|done..].
  destruct (fail_if (negb (is_dir env p)) _) as [[]|e|] eqn:Hdir; [|done..]. apply fail_if_Ok, negb_false_iff in Hdir.
  rewrite (st_bind_eq get_st _ o o o) by done. case_bool_decide as Hp; [done|].
  pose proof (q_folder env p o) as Hq. unfold mbind, st_bind.
  destruct (process_folder_for_sync _ _ _ _ _ env p o) as [o1 [u|e|]]; cbn [fst] in *;
    [|by apply (quiet_inv _ o)..].
  destruct (quiet_inv all o o1 Hq Ho) as [Hpend Hnd Hadd Hpeers]. destruct Hq as (_ & Hf & _).
  unfold modify_st. cbn [fst]. split; try done; cbn [synced_folders set_folders].
  - apply NoDup_app. split_and!; [done| |apply NoDup_singleton]. intros x Hx ->%list_elem_of_singleton. by rewrite Hf in Hx.
  - intros x [Hx| ->%list_elem_of_singleton]%elem_of_app; [by apply Hadd|]. by exists env.
Qed.
Lemma handle_message_inv all env m o : (env, Received m) ∈ all → loop_inv all o →
  loop_inv all (handle_message_with_recovery checked config chunker index_config index_chunker env m o).1.
Proof.
  intros Hin Ho. destruct m as [e|es|peer|id|id p|p|p| |]; cbn [handle_message_with_recovery handle_message].
  - by apply (quiet_inv _ o).
  - by apply (quiet_inv _ o).
  - rewrite discovered_attempts. cbn [fst]. destruct Ho as [Hpend Hnd Hadd Hpeers].
    assert (loop_inv all (set_peers (<[device_id peer := peer]> (active_peers o)) o)) as Ho'.
    { split; try done. cbn. intros id x [[<- <-]|[Hne Hx]]%lookup_insert_Some; [|by apply Hpeers].
      split; [done|]. by exists env. }
    unfold discovered. case_if; [done|]. case_if; [|done]. eapply quiet_inv; [|exact Ho']; done.
  - destruct Ho as [Hpend Hnd Hadd Hpeers]. split; try done. intros id' x Hx.
    change (delete id (active_peers o) !! id' = Some x) in Hx. apply lookup_delete_Some in Hx as [_ Hx]. by apply Hpeers.
  - apply (quiet_inv _ o); [|done]. revert o Ho. intros o _. unfold handle_sync_request. apply q_bind; [|auto with quiet].
    apply q_bind; [auto with quiet|]. intros o'. case_match; [|auto with quiet].
    apply q_bind; [apply q_folder|]. unfold notify. auto with quiet.
  - pose proof (add_sync_folder_inv all env p o Hin Ho) as Ha. unfold mbind, st_bind.
    by destruct (add_sync_folder _ _ _ _ _ env p o) as [o1 [u|e|]].
  - destruct Ho as [Hpend Hnd Hadd Hpeers]. split; try done.
    + by apply (NoDup_filter (λ q, q ≠ p)).
    + intros x Hx. change (x ∈ filter (λ q, q ≠ p) (synced_folders o)) in Hx.
      apply list_elem_of_filter in Hx as [_ Hx]. by apply Hadd.
  - by apply (quiet_inv _ o).
  - done.
Qed.
Lemma run_event_inv all env e o : (env, e) ∈ all → loop_inv all o →
  loop_inv all (run_event checked config chunker index_config index_chunker env e o).1.
Proof.
  intros Hin Ho. destruct e as [m| | |]; [| done | |].
  - rewrite (run_event_logged env _ (handle_message_with_recovery checked config chunker index_config index_chunker env m)
      (λ b, b)) by done. by apply handle_message_inv.
  - rewrite (run_event_logged env _ (process env) (λ _, true)) by done. apply (quiet_inv _ o); [apply q_process|done].
  - rewrite (run_event_logged env _ (retry_failed_operations checked config env) (λ _, true)) by done.
    unfold retry_failed_operations. rewrite (st_bind_eq get_st _ o o o) by done.
    by rewrite bool_decide_true by apply (li_pending _ _ Ho).
Qed.
Lemma run_inv all events o : events ⊆ all → loop_inv all o →
  loop_inv all (run checked config chunker index_config index_chunker events o).1.
Proof.
  revert o. induction events as [|[env e] events IH]; intros o Hsub Ho; cbn [run]; [done|].
  pose proof (run_event_inv all env e o (Hsub _ (list_elem_of_here _ _)) Ho) as Ho1. unfold mbind at 1, st_bind at 1.
  destruct (run_event _ _ _ _ _ env e o) as [o1 [[]|e'|]]; cbn [fst] in *; try done.
  - apply IH; [|done]. intros y Hy. apply Hsub. by right.
  - apply (quiet_inv _ o1); [|done]. unfold shutdown.
    apply q_bind; [auto with quiet|]. intros o2. apply q_bind; [case_if; auto using q_process with quiet|auto with quiet].
Qed.

(** Whatever events wake the loop, in whatever order: no operation is ever pending,
    so a change that failed is never tried again; no folder is listed twice, and each one
    was added when it was a directory; the active peers are peers that were discovered,
    each under its own device id. *)
Theorem loop_state events storage now :
  loop_inv events (run checked config chunker index_config index_chunker events (new storage now)).1.
Proof. apply run_inv; [done|]. split; [done|constructor|by intros p Hp%not_elem_of_nil|done]. Qed.
End files.

(** ** A concrete orchestrator *)

Module Examples.
#[local] Existing Instance RefHash.hex.
#[local] Existing Instance RefHash.hash.
#[local] Existing Instance gmap_order.
#[local] Existing Instance Indexer.Examples.ListDb.db.
#[local] Existing Instance Indexer.Examples.ListDb.laws.
Import MemoryStore.
#[local] Existing Instance memory_store.
#[local] Instance handle : StoreHandle Memory := same_handle.
Import Indexer.Examples.

Abbreviation settings := OrchestratorConfig_default.
Abbreviation icfg := IndexerConfig_default.
Definition env : Env (Store:=Memory) := {|
  Orchestrator.os := Indexer.Examples.os; instant := 1000; utc := 0; walk_fuel := 2;
  schedule := λ _ _, [1; 0; 1; 0; 0; 1]%nat |}.
Definition a_txt : Path := Indexer.join folder "a.txt".
Definition missing : Path := Indexer.join folder "missing".
(** An orchestrator after the folder was indexed, with changes to process. *)
Definition changed (last : Z) : SyncOrchestrator (Store:=Memory) :=
  set_last last (set_buffer [{| event_path := a_txt; event_kind := Modified |};
                             {| event_path := missing; event_kind := Renamed missing missing |}]
    (set_peers {["peer" := {| device_id := "peer"; device_name := "Peer"; address := ""; capabilities := [];
                              last_seen := 0; peer_version := "" |}]}
      (set_folders [folder] (new after_first 0)))).

Lemma rows_root (x : FileIndexer (Store:=Memory)) : database x = database after_first → root_rows (database x).
Proof.
  intros -> d p v Hin. apply elem_of_list_to_set, list_elem_of_singleton in Hin. by injection Hin.
Qed.
Lemma folder_known : known env after_first folder.
Proof.
  exists folder. split_and!; [done|done|]. apply elem_of_list_to_set, list_elem_of_singleton. by vm_compute.
Qed.
Lemma parent_known p : p = a_txt ∨ p = missing → change_known env after_first p.
Proof.
  intros Hp. split.
  - intros _ dir Hdir. assert (dir = folder) as -> by (destruct Hp as [-> | ->]; vm_compute in Hdir; by injection Hdir).
    apply folder_known.
  - intros Hdir. by destruct Hp as [-> | ->].
Qed.

Lemma group_stores_files_witness :
  let '(x', ts) := run_group true chunker icfg chunker env [a_txt; missing] Create start in
  no_object_lost start x' ∧ length ts = 2%nat.
Proof.
  pose proof (group_stores_files true settings ChunkerConfig_default chunker chunker_new icfg ChunkerConfig_default
    chunker chunker_new env [a_txt; missing] Create start ltac:(done)) as Hg.
  destruct (run_group _ _ _ _ _ _ _ _) as [x' ts]. destruct Hg as (? & ? & _). by split.
Defined.
Lemma indexed_changes_lost_witness :
  let '(o', r) := process_debounced_changes true settings chunker icfg chunker env (changed 0) in
  r = Ok tt ∧ debounce_buffer o' = [] ∧ same_manifests after_first (storage o').
Proof.
  pose proof (indexed_changes_lost true settings ChunkerConfig_default chunker chunker_new icfg ChunkerConfig_default
    chunker chunker_new env (changed 0) ltac:(done) (rows_root after_first eq_refl) ltac:(done) ltac:(done)) as Hl.
  destruct (process_debounced_changes _ _ _ _ _ _ _) as [o' r].
  destruct Hl as (? & ? & _ & ?); [|by split_and!].
  repeat (constructor; [apply parent_known; auto|]). constructor.
Defined.
Lemma streaming_stores_file_witness :
  let '(o', r) := process_file_streaming true settings chunker env a_txt (changed 0) in
  r ≠ Panic ∧ no_object_lost after_first (storage o').
Proof.
  pose proof (streaming_stores_file true settings ChunkerConfig_default chunker chunker_new icfg ChunkerConfig_default
    chunker chunker_new env a_txt (changed 0) [Ok (take 3 (content_of a_txt)); Ok (drop 3 (content_of a_txt)); Ok []]
    {| m_type := IsFile; m_len := 5; m_modified := Some 7; m_mode := Some 420 |}
    ltac:(done) ltac:(done) ltac:(done) ltac:(by repeat constructor) ltac:(by vm_compute) ltac:(by vm_compute)
    ltac:(by vm_compute)) as Hs.
  destruct (process_file_streaming _ _ _ _ _ _) as [o' r]. destruct Hs as (? & ? & _). by split.
Defined.
Lemma file_of_indexed_folder_fails_witness :
  let '(o', r) := process_single_file_internal true settings chunker icfg chunker env a_txt Create (changed 0) in
  r ≠ Ok tt ∧ current_operations o' = ["Processing: /home/a.txt"].
Proof.
  pose proof (file_of_indexed_folder_fails true settings ChunkerConfig_default chunker chunker_new icfg
    ChunkerConfig_default chunker chunker_new env a_txt folder Create (changed 0) ltac:(done) ltac:(by vm_compute)
    ltac:(by vm_compute) (rows_root after_first eq_refl) folder_known) as Hf.
  destruct (process_single_file_internal _ _ _ _ _ _ _ _ _) as [o' r]. destruct Hf as (? & -> & _). by split.
Defined.
Lemma shutdown_drops_changes_witness :
  let '(o', r) := run true settings chunker icfg chunker [(env, Received Shutdown)] (changed 900) in
  r = Ok tt ∧ length (debounce_buffer o') = 2%nat.
Proof.
  pose proof (shutdown_drops_changes true settings ChunkerConfig_default chunker chunker_new icfg
    ChunkerConfig_default chunker chunker_new env (changed 900) ltac:(done) ltac:(by vm_compute)) as Hs.
  destruct (run _ _ _ _ _ _ _) as [o' r]. destruct Hs as (? & _ & -> & _). by split.
Defined.
End Examples.
