(* ===== verification/SimpleSync.v ===== *)
(** The file transfer of the daemon: landro-daemon/src/simple_sync_protocol.rs and
    connection_handler.rs.

    Two programs talk over a stream of bytes in each direction. A program is a
    function of the bytes it has got so far: what it has written, and whether it
    waits for more or has returned. The two of them together are followed round by
    round: in each one, both have got what the other wrote before. *)

From S2P Require Import Prelude Bytes Manifest.
From S2P Require Framing.
From Stdlib Require Import Init.Byte ZArith Lia.
From stdpp Require Import base option list gmap strings pretty numbers.
Open Scope Z_scope.

(** ** Messages *)

Inductive SimpleSyncMessage :=
  | FileTransferRequest (file_path : string) (file_size : Z) (checksum : string)
  | FileTransferResponse (accepted : bool) (reason : option string)
  | FileData (data : list byte)
  | TransferComplete (success checksum_verified : bool) (message : string).

Inductive SimpleError :=
  | SimpleIo
  | SimpleSerialize
  | SimpleParse
  | MessageTooLarge
  | Rejected (reason : string)
  | UnexpectedMessage (what : string)
  | TransferFailed (message : string)
  | ChecksumFailed.

(** The JSON text of a message, and the message of a text (or of bytes that are
    not UTF-8). *)
Class SimpleJson := {
  to_bytes : SimpleSyncMessage → option (list byte);
  from_bytes : list byte → option SimpleSyncMessage;
}.
Class SimpleJsonLaws `{SimpleJson} := {
  from_to_bytes m bytes : to_bytes m = Some bytes → from_bytes bytes = Some m;
  to_bytes_some m : is_Some (to_bytes m);
}.

(** The files of the receiver. Creating a directory or writing a file may fail; a
    write that fails leaves the other files as they are. *)
Abbreviation Files := (gmap string (list byte)).
Class FileSystem := {
  create_dir_all : string → Files → bool;
  write_file : string → list byte → Files → Files * bool;
  write_file_ok p d fs fs' : write_file p d fs = (fs', true) → fs' = <[p := d]> fs;
  write_file_other p d fs fs' b q : write_file p d fs = (fs', b) → q ≠ p → fs' !! q = fs !! q;
}.

(** ** Programs over streams *)

(** A program that reads [incoming] and has written [written]. *)
Record Channel := { incoming : list byte; written : list byte; disk : Files }.
Inductive Stop := Waiting | Failed (e : SimpleError).
Abbreviation prog := (st Channel Stop).

(** [read_exact]: what the other side has not sent yet is waited for. *)
Definition take_bytes (n : nat) : prog (list byte) := λ c,
  match read_exact n (incoming c) with
  | Some (bytes, rest) => ({| incoming := rest; written := written c; disk := disk c |}, Ok bytes)
  | None => (c, Err Waiting)
  end.
Definition write_all (bytes : list byte) : prog unit :=
  modify_st (λ c, {| incoming := incoming c; written := written c ++ bytes; disk := disk c |}).
Definition stop {A} (e : SimpleError) : prog A := lift (Err (Failed e)).

Section protocol.
Context `{Hex, Blake3, SimpleJson, FileSystem}.

Definition frame (bytes : list byte) : list byte := be_bytes 4 (wrap 32 (zlen bytes)) ++ bytes.
Definition send (m : SimpleSyncMessage) : prog unit :=
  bytes ← lift (ok_or (Failed SimpleSerialize) (to_bytes m));
  let len := wrap 32 (zlen bytes) in
  _ ← write_all (be_bytes 4 len);
  write_all bytes.
Definition receive : prog SimpleSyncMessage :=
  len_buf ← take_bytes 4;
  let len := be_value len_buf in
  _ ← lift (fail_if (100 * 1024 * 1024 <? len) (Failed MessageTooLarge));
  msg_buf ← take_bytes (Z.to_nat len);
  lift (ok_or (Failed SimpleParse) (from_bytes msg_buf)).

Definition checksum_of (data : list byte) : string := hex_encode (blake3 data).

(** [SimpleFileTransfer::send_file]; [file] is what reading the source gives. *)
Definition send_file (source_path : string) (file : option (list byte)) : prog unit :=
  file_data ← lift (ok_or (Failed SimpleIo) file);
  _ ← send (FileTransferRequest source_path (zlen file_data) (checksum_of file_data));
  response ← receive;
  _ ← match response with
      | FileTransferResponse true _ => mret tt
      | FileTransferResponse false reason => stop (Rejected (default "Unknown reason"%string reason))
      | _ => stop (UnexpectedMessage "response to file transfer request")
      end;
  _ ← send (FileData file_data);
  completion ← receive;
  match completion with
  | TransferComplete true true _ => mret tt
  | TransferComplete _ _ message => stop (TransferFailed message)
  | _ => stop (UnexpectedMessage "response to file transfer")
  end.

Definition store_file (p : string) (data : list byte) : prog unit := λ c,
  let '(fs, ok) := write_file p data (disk c) in
  ({| incoming := incoming c; written := written c; disk := fs |}, if ok : bool then Ok tt else Err (Failed SimpleIo)).
(** [SimpleFileTransfer::receive_file]; [dir] is the parent of the destination. *)
Definition receive_file (dest_path : string) (dir : option string) : prog unit :=
  request ← receive;
  expected_checksum ←
    match request with
    | FileTransferRequest _ _ checksum => mret checksum
    | _ =>
        _ ← send (FileTransferResponse false (Some "Expected file transfer request"%string));
        stop (UnexpectedMessage "Expected file transfer request")
    end;
  _ ← send (FileTransferResponse true None);
  reply ← receive;
  file_data ←
    match reply with
    | FileData data => mret data
    | _ =>
        _ ← send (TransferComplete false false "Expected file data");
        stop (UnexpectedMessage "Expected file data")
    end;
  _ ← (if bool_decide (checksum_of file_data = expected_checksum) then mret tt
       else _ ← send (TransferComplete false false "Checksum verification failed"); stop ChecksumFailed);
  c ← get_st;
  _ ← match dir with
      | Some dir => lift (fail_if (negb (create_dir_all dir (disk c))) (Failed SimpleIo))
      | None => mret tt
      end;
  _ ← store_file dest_path file_data;
  send (TransferComplete true true "File transfer completed successfully").

(** ** The connection handler of the daemon *)

Definition TEMP_FILE : string := "LandropicSync/received_file.tmp".
(** [process_sync_message], in the home directory; a response, if there is one. *)
Definition process_sync_message (msg_data : list byte) : prog (option SimpleSyncMessage) := λ c,
  match from_bytes msg_data with
  | None => (c, Ok None)
  | Some (FileTransferRequest file_path file_size checksum) =>
      if create_dir_all "LandropicSync" (disk c)
      then (c, Ok (Some (FileTransferResponse true None)))
      else (c, Ok (Some (FileTransferResponse false (Some "Failed to create destination folder"%string))))
  | Some (FileData data) =>
      let '(fs, ok) := write_file TEMP_FILE data (disk c) in
      ({| incoming := incoming c; written := written c; disk := fs |},
       Ok (Some (if ok : bool
         then TransferComplete true true ("File saved successfully, checksum: " +:+ checksum_of data)
         else TransferComplete false false "Failed to save file")))
  | Some _ => (c, Ok None)
  end.
(** The loop of [handle_quic_connection], for the next [n] messages. *)
Fixpoint handle_messages (n : nat) : prog unit :=
  match n with
  | O => mret tt
  | S n =>
      len_buf ← take_bytes 4;
      msg_buf ← take_bytes (Z.to_nat (be_value len_buf));
      response ← process_sync_message msg_buf;
      _ ← match response with Some m => send m | None => mret tt end;
      handle_messages n
  end.

(** ** Two programs together *)

(** What a program that starts with the files [fs] does when it gets [bytes]. *)
Definition behave {A} (m : prog A) (fs : Files) (bytes : list byte) : Channel * outcome Stop A :=
  m {| incoming := bytes; written := []; disk := fs |}.
(** What the left and the right one have written after [n] rounds. *)
Fixpoint rounds {A B} (n : nat) (left : prog A) (lf : Files) (right : prog B) (rf : Files) : list byte * list byte :=
  match n with
  | O => ([], [])
  | S n =>
      let '(to_right, to_left) := rounds n left lf right rf in
      (written (behave left lf to_left).1, written (behave right rf to_right).1)
  end.
(** How they end: nothing more is written, and each one has the bytes of the other. *)
Definition together {A B} (n : nat) (left : prog A) (lf : Files) (right : prog B) (rf : Files) :
    (Channel * outcome Stop A) * (Channel * outcome Stop B) :=
  let '(to_right, to_left) := rounds n left lf right rf in
  (behave left lf to_left, behave right rf to_right).

(** The bytes of a message on a stream, and whether a receiver takes a message of
    this size. *)
Definition text (m : SimpleSyncMessage) : list byte := default [] (to_bytes m).
Definition on_wire (m : SimpleSyncMessage) : list byte := frame (text m).
Definition fits (m : SimpleSyncMessage) : Prop := zlen (text m) ≤ 100 * 1024 * 1024.
(** The first message of [s], and what follows it. *)
Definition first_message (s : list byte) : option (SimpleSyncMessage * list byte) :=
  '(len_buf, s) ← read_exact 4 s;
  _ ← guard (be_value len_buf ≤ 100 * 1024 * 1024);
  '(msg_buf, s) ← read_exact (Z.to_nat (be_value len_buf)) s;
  m ← from_bytes msg_buf;
  Some (m, s).
End protocol.

(** ** Lemmas *)

Section lemmas.
Context `{Hex, Blake3, SimpleJsonLaws, FileSystem}.
#[local] Set Default Proof Using "All".

Lemma to_bytes_text m : to_bytes m = Some (text m).
Proof using Type*. unfold text. by destruct (to_bytes_some m) as [b ->]. Qed.

Lemma simple_send_eq m c :
  send m c = ({| incoming := incoming c; written := written c ++ on_wire m; disk := disk c |}, Ok tt).
Proof.
  unfold send. rewrite to_bytes_text.
  erewrite st_bind_eq by done. erewrite st_bind_eq by done.
  unfold write_all, modify_st, on_wire, frame. cbn. by rewrite <- app_assoc.
Qed.

Lemma take_bytes_app bytes rest w d :
  take_bytes (length bytes) {| incoming := bytes ++ rest; written := w; disk := d |}
    = ({| incoming := rest; written := w; disk := d |}, Ok bytes).
Proof using Type. unfold take_bytes. cbn [incoming written disk]. by rewrite read_exact_app. Qed.

Lemma frame_length (bytes : list byte) : zlen bytes < 2 ^ 32 →
  be_value (be_bytes 4 (wrap 32 (zlen bytes))) = zlen bytes.
Proof using Type.
  intros Hlen. pose proof (zlen_nonneg bytes).
  by rewrite wrap_small, be_value_be_bytes by lia.
Qed.

(** A message on the wire is received, when it fits. *)
Lemma receive_on_wire m rest w d : fits m →
  receive {| incoming := on_wire m ++ rest; written := w; disk := d |}
    = ({| incoming := rest; written := w; disk := d |}, Ok m).
Proof.
  unfold fits. intros Hfit. unfold receive, on_wire, frame. rewrite <- app_assoc.
  erewrite st_bind_eq; [|apply (take_bytes_app (be_bytes 4 (wrap 32 (zlen (text m)))))].
  rewrite frame_length by lia.
  erewrite st_bind_eq; [|unfold lift, fail_if; rewrite (proj2 (Z.ltb_ge _ _)) by lia; done].
  erewrite st_bind_eq; [|unfold zlen; rewrite Nat2Z.id; apply take_bytes_app].
  by rewrite (from_to_bytes m) by apply to_bytes_text.
Qed.
Lemma receive_large m rest w d : ¬ fits m → zlen (text m) < 2 ^ 32 →
  ∃ c, receive {| incoming := on_wire m ++ rest; written := w; disk := d |} = (c, Err (Failed MessageTooLarge)) ∧
    disk c = d.
Proof.
  unfold fits. intros Hfit Hlen. unfold receive, on_wire, frame. rewrite <- app_assoc.
  erewrite st_bind_eq; [|apply (take_bytes_app (be_bytes 4 (wrap 32 (zlen (text m)))))].
  rewrite frame_length by lia.
  erewrite st_bind_Err by (unfold lift, fail_if; rewrite (proj2 (Z.ltb_lt _ _)) by lia; done).
  by eexists.
Qed.
Lemma receive_waits w d :
  receive {| incoming := []; written := w; disk := d |} = ({| incoming := []; written := w; disk := d |}, Err Waiting).
Proof using Type. done. Qed.

(** One step of a program whose next message is known. *)
Ltac run := repeat first
  [ erewrite st_bind_eq by apply simple_send_eq
  | erewrite st_bind_eq by (apply receive_on_wire; assumption)
  | erewrite st_bind_eq by done
  | erewrite st_bind_Err by apply receive_waits
  | progress cbn [written incoming disk app] ].

Section sender.
Context (source_path : string) (data : list byte).
Definition request_of : SimpleSyncMessage := FileTransferRequest source_path (zlen data) (checksum_of data).
Lemma send_file_asks fs :
  behave (send_file source_path (Some data)) fs []
    = ({| incoming := []; written := on_wire request_of; disk := fs |}, Err Waiting).
Proof. unfold behave, send_file. by run. Qed.
Lemma send_file_sends fs reason : fits (FileTransferResponse true reason) →
  behave (send_file source_path (Some data)) fs (on_wire (FileTransferResponse true reason))
    = ({| incoming := []; written := on_wire request_of ++ on_wire (FileData data); disk := fs |}, Err Waiting).
Proof.
  intros Hfit. rewrite <- (app_nil_r (on_wire (FileTransferResponse _ _))).
  unfold behave, send_file. by run.
Qed.
Lemma send_file_returns fs reason message :
  fits (FileTransferResponse true reason) → fits (TransferComplete true true message) →
  behave (send_file source_path (Some data)) fs
      (on_wire (FileTransferResponse true reason) ++ on_wire (TransferComplete true true message))
    = ({| incoming := []; written := on_wire request_of ++ on_wire (FileData data); disk := fs |}, Ok tt).
Proof.
  intros Hfit Hfit'. rewrite <- (app_nil_r (on_wire (TransferComplete _ _ _))).
  unfold behave, send_file. by run.
Qed.
End sender.

(** A session of the sender with a program that answers the request with [response]
    and the data with [completion]: it ends in the fourth round. *)
Lemma sender_session {B} (right : prog B) lf rf source_path data reason message n :
  fits (FileTransferResponse true reason) → fits (TransferComplete true true message) →
  written (behave right rf []).1 = [] →
  written (behave right rf (on_wire (request_of source_path data))).1
    = on_wire (FileTransferResponse true reason) →
  written (behave right rf (on_wire (request_of source_path data) ++ on_wire (FileData data))).1
    = on_wire (FileTransferResponse true reason) ++ on_wire (TransferComplete true true message) →
  (4 ≤ n)%nat →
  together n (send_file source_path (Some data)) lf right rf
    = (({| incoming := []; written := on_wire (request_of source_path data) ++ on_wire (FileData data);
           disk := lf |}, Ok tt),
       behave right rf (on_wire (request_of source_path data) ++ on_wire (FileData data))).
Proof.
  intros Hf Hf' Hnil Hresp Hcompl Hn.
  assert (rounds n (send_file source_path (Some data)) lf right rf
    = (on_wire (request_of source_path data) ++ on_wire (FileData data),
       on_wire (FileTransferResponse true reason) ++ on_wire (TransferComplete true true message))) as Hr.
  { replace n with ((n - 4) + 4)%nat by lia. induction (n - 4)%nat as [|k IH].
    - cbn [rounds Nat.add]. rewrite Hnil.
      do 3 (rewrite ?send_file_asks, ?Hresp, ?send_file_sends by done; cbn [fst written]).
      by rewrite Hcompl.
    - change (S k + 4)%nat with (S (k + 4)). cbn [rounds]. rewrite IH.
      by rewrite send_file_returns, Hcompl by done. }
  unfold together. rewrite Hr. by rewrite send_file_returns by done.
Qed.

(** A receiver that waits has not touched the disk. *)
Lemma receive_file_waits dest dir fs :
  written (behave (receive_file dest dir) fs []).1 = [].
Proof. unfold behave, receive_file. by run. Qed.
Lemma receive_file_accepts dest dir fs p size checksum : fits (FileTransferRequest p size checksum) →
  written (behave (receive_file dest dir) fs (on_wire (FileTransferRequest p size checksum))).1
    = on_wire (FileTransferResponse true None).
Proof.
  intros Hfit. rewrite <- (app_nil_r (on_wire (FileTransferRequest _ _ _))).
  unfold behave, receive_file. by run.
Qed.
Lemma receive_file_stores dest dir fs fs' p size data :
  fits (FileTransferRequest p size (checksum_of data)) → fits (FileData data) →
  default true (flip create_dir_all fs <$> dir) = true → write_file dest data fs = (fs', true) →
  behave (receive_file dest dir) fs
      (on_wire (FileTransferRequest p size (checksum_of data)) ++ on_wire (FileData data))
    = ({| incoming := [];
          written := on_wire (FileTransferResponse true None)
            ++ on_wire (TransferComplete true true "File transfer completed successfully");
          disk := fs' |}, Ok tt).
Proof.
  intros Hfit Hfit' Hdir Hwrite. rewrite <- (app_nil_r (on_wire (FileData _))).
  unfold behave, receive_file. run. rewrite bool_decide_true by done. run.
  erewrite st_bind_eq with (s1 := {| incoming := []; written := on_wire (FileTransferResponse true None); disk := fs |}) (a := tt).
  2:{ destruct dir as [dir|]; [|done]. cbn in Hdir. cbn [disk]. by rewrite Hdir. }
  erewrite st_bind_eq; [|unfold store_file; cbn [disk]; rewrite Hwrite; done].
  by rewrite simple_send_eq.
Qed.
Lemma receive_file_large dest dir fs p size checksum data :
  fits (FileTransferRequest p size checksum) → ¬ fits (FileData data) → zlen (text (FileData data)) < 2 ^ 32 →
  let '(c, r) := behave (receive_file dest dir) fs
    (on_wire (FileTransferRequest p size checksum) ++ on_wire (FileData data)) in
  r = Err (Failed MessageTooLarge) ∧ disk c = fs.
Proof.
  intros Hfit Hlarge Hlen. rewrite <- (app_nil_r (on_wire (FileData _))).
  unfold behave, receive_file. run.
  destruct (receive_large (FileData data) [] (on_wire (FileTransferResponse true None)) fs Hlarge Hlen)
    as (c & Hr & Hd).
  by erewrite st_bind_Err by exact Hr.
Qed.

Lemma process_request_eq p size checksum c :
  create_dir_all "LandropicSync" (disk c) = true →
  process_sync_message (text (FileTransferRequest p size checksum)) c
    = (c, Ok (Some (FileTransferResponse true None))).
Proof.
  intros Hdir. unfold process_sync_message.
  rewrite (from_to_bytes _ _ (to_bytes_text _)). by rewrite Hdir.
Qed.
Lemma process_data_eq data c fs' : write_file TEMP_FILE data (disk c) = (fs', true) →
  process_sync_message (text (FileData data)) c
    = ({| incoming := incoming c; written := written c; disk := fs' |},
       Ok (Some (TransferComplete true true ("File saved successfully, checksum: " +:+ checksum_of data)))).
Proof.
  intros Hwrite. unfold process_sync_message.
  rewrite (from_to_bytes _ _ (to_bytes_text _)). by rewrite Hwrite.
Qed.
(** The next message of the daemon's loop; the daemon takes messages of any size. *)
Lemma handle_messages_next n m rest w d c' response : zlen (text m) < 2 ^ 32 →
  process_sync_message (text m) {| incoming := rest; written := w; disk := d |} = (c', Ok (Some response)) →
  handle_messages (S n) {| incoming := on_wire m ++ rest; written := w; disk := d |}
    = handle_messages n {| incoming := incoming c'; written := written c' ++ on_wire response; disk := disk c' |}.
Proof.
  intros Hlen Hproc. cbn [handle_messages]. unfold on_wire, frame. rewrite <- app_assoc.
  erewrite st_bind_eq; [|apply (take_bytes_app (be_bytes 4 (wrap 32 (zlen (text m)))))].
  rewrite frame_length by lia.
  erewrite st_bind_eq; [|unfold zlen; rewrite Nat2Z.id; apply take_bytes_app].
  erewrite st_bind_eq by exact Hproc. by erewrite st_bind_eq by apply simple_send_eq.
Qed.
Lemma handle_messages_waits n w d :
  handle_messages (S n) {| incoming := []; written := w; disk := d |}
    = ({| incoming := []; written := w; disk := d |}, Err Waiting).
Proof using Type. done. Qed.

(** What [receive] does to a channel, whatever the outcome. *)
Lemma receive_cases c :
  let '(c', r) := receive c in
  disk c' = disk c ∧ written c' = written c ∧
  match r with
  | Ok m => first_message (incoming c) = Some (m, incoming c')
  | Err _ => True
  | Panic => False
  end.
Proof using Type*.
  unfold receive, first_message, take_bytes, mbind, st_bind.
  destruct (read_exact 4 (incoming c)) as [[len_buf s]|]; [|done]. cbn -[Z.mul].
  unfold fail_if. destruct (100 * 1024 * 1024 <? be_value len_buf) eqn:Hlt; [done|]. cbn -[Z.mul].
  apply Z.ltb_ge in Hlt. rewrite option_guard_True by done. cbn.
  destruct (read_exact _ s) as [[msg_buf s']|]; [|done]. cbn.
  by destruct (from_bytes msg_buf).
Qed.

(** The bytes [s] announce [data], by its checksum, and bring it. *)
Definition brings (s : list byte) (data : list byte) : Prop :=
  ∃ p size s' s'', first_message s = Some (FileTransferRequest p size (checksum_of data), s') ∧
    first_message s' = Some (FileData data, s'').

(** An end of the receiver at [c'], started at [c], that harms no file. *)
Definition harmless (dest : string) (c : Channel) (e : Channel * outcome Stop unit) : Prop :=
  e.2 ≠ Panic ∧ (∀ q, q ≠ dest → disk e.1 !! q = disk c !! q) ∧
  (disk e.1 = disk c ∨ ∃ data, brings (incoming c) data ∧ disk e.1 = (write_file dest data (disk c)).1) ∧
  (e.2 = Ok tt → ∃ data, brings (incoming c) data ∧ disk e.1 = <[dest := data]> (disk c)).
Lemma harmless_stop dest c c' e : disk c' = disk c → harmless dest c (c', Err e).
Proof using Type. intros Hd. split_and!; cbn; [done|by rewrite Hd|by left|done]. Qed.
Lemma harmless_send {A} dest c c1 m e (k : A → prog unit) : disk c1 = disk c →
  harmless dest c (((_ ← send m; stop e) ≫= k) c1).
Proof.
  intros Hd. erewrite st_bind_Err by by erewrite st_bind_eq by apply simple_send_eq.
  by apply harmless_stop.
Qed.
Lemma harmless_receive dest c c1 (k : SimpleSyncMessage → prog unit) : disk c1 = disk c →
  (∀ m c2, disk c2 = disk c → first_message (incoming c1) = Some (m, incoming c2) → harmless dest c (k m c2)) →
  harmless dest c ((m ← receive; k m) c1).
Proof using Type*.
  intros Hd Hk. unfold mbind, st_bind. pose proof (receive_cases c1) as Hc.
  destruct (receive c1) as [c2 [m|e|]]; destruct Hc as (Hd2 & _ & Hm); [|by apply harmless_stop; congruence|done].
  apply Hk; congruence.
Qed.
Lemma harmless_store dest dir c c1 data m : disk c1 = disk c → brings (incoming c) data →
  harmless dest c ((c ← get_st;
    _ ← match dir with
        | Some dir => lift (fail_if (negb (create_dir_all dir (disk c))) (Failed SimpleIo))
        | None => mret tt
        end;
    _ ← store_file dest data; send m) c1).
Proof.
  intros Hd Hb. erewrite st_bind_eq by done.
  assert (harmless dest c ((_ ← store_file dest data; send m) c1)) as Hs.
  { unfold mbind, st_bind, store_file. destruct (write_file dest data (disk c1)) as [fs ok] eqn:Hw.
    assert (fs = (write_file dest data (disk c)).1) as Hfs by by rewrite <- Hd, Hw.
    destruct ok; [rewrite simple_send_eq|]; (split_and!; [done| |by right; exists data|]); cbn.
    1,3: by intros q Hq; rewrite <- Hd; eapply write_file_other.
    - intros _. exists data. split; [done|]. rewrite <- Hd. by eapply write_file_ok.
    - done. }
  destruct dir as [dir|]; [|exact Hs].
  unfold mbind at 1, st_bind at 1, lift, fail_if.
  destruct (negb _); [by apply harmless_stop|exact Hs].
Qed.

Lemma daemon_session source_path size checksum data fs fs' k :
  zlen (text (FileTransferRequest source_path size checksum)) < 2 ^ 32 →
  zlen (text (FileData data)) < 2 ^ 32 →
  create_dir_all "LandropicSync" fs = true → write_file TEMP_FILE data fs = (fs', true) →
  behave (handle_messages (S (S (S k)))) fs
      (on_wire (FileTransferRequest source_path size checksum) ++ on_wire (FileData data))
    = ({| incoming := [];
          written := on_wire (FileTransferResponse true None) ++
            on_wire (TransferComplete true true ("File saved successfully, checksum: " +:+ checksum_of data));
          disk := <[TEMP_FILE := data]> fs |}, Err Waiting).
Proof.
  intros Hreq Hdata Hdir Hwrite. rewrite <- (write_file_ok _ _ _ _ Hwrite).
  rewrite <- (app_nil_r (on_wire (FileData _))). unfold behave.
  erewrite handle_messages_next by (done || by apply process_request_eq).
  cbn [incoming written disk app].
  erewrite handle_messages_next; [|done|by apply process_data_eq].
  by rewrite handle_messages_waits.
Qed.
Lemma daemon_accepts source_path size checksum fs k :
  zlen (text (FileTransferRequest source_path size checksum)) < 2 ^ 32 →
  create_dir_all "LandropicSync" fs = true →
  written (behave (handle_messages (S (S k))) fs (on_wire (FileTransferRequest source_path size checksum))).1
    = on_wire (FileTransferResponse true None).
Proof.
  intros Hreq Hdir. rewrite <- (app_nil_r (on_wire (FileTransferRequest _ _ _))). unfold behave.
  erewrite handle_messages_next by (done || by apply process_request_eq).
  cbn [incoming written disk app].
  by rewrite handle_messages_waits.
Qed.
End lemmas.

(** ** Properties *)

Section properties.
Context `{Hex, Blake3, SimpleJsonLaws, FileSystem}.
#[local] Set Default Proof Using "All".

(** The two ends of the transfer protocol bring a file over: when the messages
    fit, the directory can be made and the file be written, both programs return
    without an error after four rounds, nothing is left on the wire, and the
    receiver's files are the old ones with the data at the destination. *)
Theorem transfer_delivers source_path data lf dest dir rf rf' n :
  fits (request_of source_path data) → fits (FileData data) →
  fits (FileTransferResponse true None) →
  fits (TransferComplete true true "File transfer completed successfully") →
  default true (flip create_dir_all rf <$> dir) = true → write_file dest data rf = (rf', true) →
  (4 ≤ n)%nat →
  let '((l, sent), (r, received)) :=
    together n (send_file source_path (Some data)) lf (receive_file dest dir) rf in
  sent = Ok tt ∧ received = Ok tt ∧ incoming l = [] ∧ incoming r = [] ∧
  disk l = lf ∧ disk r = <[dest := data]> rf.
Proof.
  intros Hreq Hdata Hresp Hcompl Hdir Hwrite Hn.
  erewrite sender_session; [|exact Hresp|exact Hcompl|apply receive_file_waits|by apply receive_file_accepts| |exact Hn];
    unfold request_of; rewrite (receive_file_stores dest dir rf rf') by done; [|done].
  cbn. repeat split. by apply (write_file_ok dest data rf rf').
Qed.

(** C38: Whatever bytes arrive, the receiver does not panic, it leaves every file but
    the destination alone, and it writes the destination only with data that came
    after a request with the checksum of that data; when it returns without an
    error, the destination holds that data. *)
Theorem receive_file_safe dest dir c :
  let '(c', r) := receive_file dest dir c in
  r ≠ Panic ∧ (∀ q, q ≠ dest → disk c' !! q = disk c !! q) ∧
  (disk c' = disk c ∨ ∃ data, brings (incoming c) data ∧ disk c' = (write_file dest data (disk c)).1) ∧
  (r = Ok tt → ∃ data, brings (incoming c) data ∧ disk c' = <[dest := data]> (disk c)).
Proof using Type*.
  enough (harmless dest c (receive_file dest dir c)) by by destruct (receive_file dest dir c).
  unfold receive_file. apply harmless_receive; [done|]. intros req c1 Hd1 Hm1.
  destruct req as [p size checksum| | |]; try exact (harmless_send _ _ _ _ _ _ Hd1).
  erewrite st_bind_eq by done. erewrite st_bind_eq by apply simple_send_eq.
  apply harmless_receive; [done|]. intros reply c2 Hd2 Hm2. cbn in Hm2.
  destruct reply as [| |data|]; try exact (harmless_send _ _ _ _ _ _ Hd2).
  erewrite st_bind_eq by done. case_bool_decide as Hsum; [|exact (harmless_send _ _ _ _ _ _ Hd2)].
  subst checksum. apply harmless_store; [done|]. by exists p, size, (incoming c1), (incoming c2).
Qed.

(** A file too large for a message, in the text that the protocol makes of it, is
    refused only when it has been sent: the receiver accepts the request, fails with
    [MessageTooLarge], and the disk is unchanged. *)
Theorem large_file_not_received dest dir fs p size checksum data :
  fits (FileTransferRequest p size checksum) →
  100 * 1024 * 1024 < zlen (text (FileData data)) < 2 ^ 32 →
  let '(c, r) := behave (receive_file dest dir) fs
    (on_wire (FileTransferRequest p size checksum) ++ on_wire (FileData data)) in
  r = Err (Failed MessageTooLarge) ∧ disk c = fs.
Proof. intros Hfit Hlen. apply receive_file_large; [done|unfold fits; lia|lia]. Qed.

(** The daemon answers a sender that everything is well, its checksum verified,
    whatever checksum the request announced: it has computed the checksum of the data
    only to print it, the data is in [TEMP_FILE] under no name of the sender's, and no
    other file has changed. *)
Theorem daemon_acknowledges_unverified source_path size checksum data fs fs' k :
  zlen (text (FileTransferRequest source_path size checksum)) < 2 ^ 32 →
  zlen (text (FileData data)) < 2 ^ 32 →
  create_dir_all "LandropicSync" fs = true → write_file TEMP_FILE data fs = (fs', true) →
  behave (handle_messages (S (S (S k)))) fs
      (on_wire (FileTransferRequest source_path size checksum) ++ on_wire (FileData data))
    = ({| incoming := [];
          written := on_wire (FileTransferResponse true None) ++
            on_wire (TransferComplete true true ("File saved successfully, checksum: " +:+ checksum_of data));
          disk := <[TEMP_FILE := data]> fs |}, Err Waiting).
Proof. by apply daemon_session. Qed.

(** However many transfers the daemon takes, it never makes a file of its own
    name: every file but [TEMP_FILE] is as it was. *)
Theorem daemon_keeps_no_file n c q : q ≠ TEMP_FILE →
  disk (handle_messages n c).1 !! q = disk c !! q.
Proof using Type*.
  intros Hq. revert c. induction n as [|n IH]; intros c; [done|]. cbn [handle_messages].
  unfold take_bytes, mbind, st_bind.
  destruct (read_exact 4 (incoming c)) as [[len_buf s]|]; [|done]. cbn [incoming].
  destruct (read_exact _ s) as [[msg_buf s']|]; [|done].
  unfold process_sync_message.
  destruct (from_bytes msg_buf) as [[p size k|a o|data|a b m]|]; [| |destruct (write_file TEMP_FILE data _) as [fs ok] eqn:Hw| |];
    cbn [incoming written disk].
  - by destruct (create_dir_all _ _); rewrite simple_send_eq, IH.
  - exact (IH {| incoming := s'; written := written c; disk := disk c |}).
  - rewrite simple_send_eq, IH. by eapply write_file_other.
  - exact (IH {| incoming := s'; written := written c; disk := disk c |}).
  - exact (IH {| incoming := s'; written := written c; disk := disk c |}).
Qed.

(** A sender that talks to the daemon therefore returns without an error, though
    the daemon has no file under the sender's name: its files are the old ones with
    the data in [TEMP_FILE]. *)
Theorem sender_trusts_daemon source_path data lf rf rf' k n :
  fits (request_of source_path data) → zlen (text (FileData data)) < 2 ^ 32 →
  fits (FileTransferResponse true None) →
  fits (TransferComplete true true ("File saved successfully, checksum: " +:+ checksum_of data)) →
  create_dir_all "LandropicSync" rf = true → write_file TEMP_FILE data rf = (rf', true) →
  (4 ≤ n)%nat →
  let '((_, sent), (daemon, _)) :=
    together n (send_file source_path (Some data)) lf (handle_messages (S (S (S k)))) rf in
  sent = Ok tt ∧ disk daemon = <[TEMP_FILE := data]> rf.
Proof.
  intros Hreq Hdata Hresp Hcompl Hdir Hwrite Hn. assert (zlen (text (request_of source_path data)) < 2 ^ 32) by (unfold fits in *; lia).
  erewrite sender_session; [|exact Hresp|exact Hcompl|done|by apply daemon_accepts| |exact Hn];
    unfold request_of; by rewrite (daemon_session _ _ _ _ rf rf').
Qed.
End properties.

(** ** Concrete transfers *)

Module Examples.
(** The message without the data of a file, as a tuple. *)
Definition to_tuple (m : SimpleSyncMessage) : string * Z * string + (bool * option string) + (bool * bool * string) :=
  match m with
  | FileTransferRequest p size checksum => inl (inl (p, size, checksum))
  | FileTransferResponse a r => inl (inr (a, r))
  | FileData _ => inr (false, false, ""%string)
  | TransferComplete s v m => inr (s, v, m)
  end.
Definition of_tuple (t : string * Z * string + (bool * option string) + (bool * bool * string)) : SimpleSyncMessage :=
  match t with
  | inl (inl (p, size, checksum)) => FileTransferRequest p size checksum
  | inl (inr (a, r)) => FileTransferResponse a r
  | inr (s, v, m) => TransferComplete s v m
  end.
(** A stand-in for JSON: the bytes of a file as they are, other messages as bits. *)
#[local] Instance json : SimpleJson := {
  to_bytes m := Some match m with
    | FileData data => x00 :: data
    | m => x01 :: Framing.Examples.bit_encode (to_tuple m)
    end;
  from_bytes s := match s with
    | x00 :: data => Some (FileData data)
    | _ :: s => of_tuple <$> Framing.Examples.bit_decode s
    | [] => None
    end;
}.
#[local] Instance json_laws : SimpleJsonLaws.
Proof.
  split; [|done]. intros m bytes [= <-].
  destruct m; cbn; try done; by rewrite Framing.Examples.bit_decode_encode.
Qed.
#[local] Instance disk_fs : FileSystem.
Proof.
  refine {| create_dir_all _ _ := true; write_file p d fs := (<[p := d]> fs, true) |}.
  - by intros p d fs fs' [= <-].
  - intros p d fs fs' b q [= <- <-] Hq. by apply lookup_insert_ne.
Defined.
#[local] Instance example_hex : Hex := RefHash.hex.
#[local] Instance example_hash : Blake3 := RefHash.hash.

Definition photo : list byte := [x70; x68; x6f; x74; x6f].
Definition sender_disk : Files := <["a.jpg"%string := photo]> ∅.
Definition receiver_disk : Files := <["b.jpg"%string := [x62]]> ∅.

Lemma transfer_delivers_witness :
  let '((l, sent), (r, received)) :=
    together 4 (send_file "a.jpg" (Some photo)) sender_disk (receive_file "in/a.jpg" (Some "in"%string)) receiver_disk in
  sent = Ok tt ∧ received = Ok tt ∧ incoming l = [] ∧ incoming r = [] ∧
  disk l = sender_disk ∧ disk r = <["in/a.jpg"%string := photo]> receiver_disk.
Proof.
  apply (transfer_delivers "a.jpg" photo sender_disk "in/a.jpg" (Some "in"%string) receiver_disk
    (<["in/a.jpg"%string := photo]> receiver_disk) 4); [vm_compute; discriminate..|reflexivity|reflexivity|lia].
Defined.

Definition big : list byte := repeat x00 (Z.to_nat 104857600).
Lemma zlen_big : zlen big = 104857600.
Proof.
  assert (∀ n : nat, zlen (repeat x00 n) = Z.of_nat n) as Hn by (intros n; unfold zlen; by rewrite repeat_length).
  unfold big. rewrite Hn. apply Z2Nat.id. done.
Qed.
Lemma large_file_not_received_witness :
  let '(c, r) := behave (receive_file "big" None) receiver_disk
    (on_wire (FileTransferRequest "big" 104857600 "") ++ on_wire (FileData big)) in
  r = Err (Failed MessageTooLarge) ∧ disk c = receiver_disk.
Proof.
  apply (large_file_not_received "big" None receiver_disk "big" 104857600 "" big); [by vm_compute|].
  assert (zlen (text (FileData big)) = 1 + zlen big) as -> by apply zlen_cons.
  rewrite zlen_big. lia.
Defined.

(** The request announces a checksum of nothing. *)
Lemma daemon_acknowledges_unverified_witness :
  behave (handle_messages 3) receiver_disk
      (on_wire (FileTransferRequest "a.jpg" 5 "no checksum") ++ on_wire (FileData photo))
    = ({| incoming := [];
          written := on_wire (FileTransferResponse true None) ++
            on_wire (TransferComplete true true ("File saved successfully, checksum: " +:+ checksum_of photo));
          disk := <[TEMP_FILE := photo]> receiver_disk |}, Err Waiting).
Proof.
  apply (daemon_acknowledges_unverified "a.jpg" 5 "no checksum" photo receiver_disk
    (<[TEMP_FILE := photo]> receiver_disk) 0); [by vm_compute|by vm_compute|reflexivity|reflexivity].
Defined.

Lemma daemon_keeps_no_file_witness :
  disk (handle_messages 3 {| incoming := on_wire (FileTransferRequest "a.jpg" 5 (checksum_of photo)) ++ on_wire (FileData photo);
    written := []; disk := receiver_disk |}).1 !! "a.jpg"%string = None.
Proof. by rewrite daemon_keeps_no_file by discriminate. Defined.

(** A file whose checksum is not the announced one is refused. *)
Definition tampered : Channel :=
  {| incoming := on_wire (FileTransferRequest "a.jpg" 5 (checksum_of photo)) ++ on_wire (FileData [x62]);
     written := []; disk := receiver_disk |}.
Lemma receive_file_safe_witness :
  (receive_file "in/a.jpg" None tampered).2 = Err (Failed ChecksumFailed) ∧
  (receive_file "in/a.jpg" None tampered).2 ≠ Panic ∧
  disk (receive_file "in/a.jpg" None tampered).1 !! "b.jpg"%string = Some [x62].
Proof.
  pose proof (receive_file_safe "in/a.jpg" None tampered) as Hsafe.
  assert ((receive_file "in/a.jpg" None tampered).2 = Err (Failed ChecksumFailed)) as Hr by by vm_compute.
  destruct (receive_file "in/a.jpg" None tampered) as [c r]. destruct Hsafe as (Hp & Hother & _).
  split; [exact Hr|]. split; [exact Hp|]. cbn [fst]. by rewrite Hother by discriminate.
Defined.

Lemma sender_trusts_daemon_witness :
  let '((_, sent), (daemon, _)) :=
    together 4 (send_file "a.jpg" (Some photo)) sender_disk (handle_messages 3) receiver_disk in
  sent = Ok tt ∧ disk daemon = <[TEMP_FILE := photo]> receiver_disk.
Proof.
  apply (sender_trusts_daemon "a.jpg" photo sender_disk receiver_disk (<[TEMP_FILE := photo]> receiver_disk) 0 4);
    [vm_compute; discriminate|by vm_compute|vm_compute; discriminate..|reflexivity|reflexivity|lia].
Defined.
End Examples.
