(* ===== verification/Pool.v ===== *)
(** The pool of connections: landro-quic/src/pool.rs.

    A connection of quinn is a handle that all its users share; which handles are
    closed is part of the state. Times are nanoseconds of the monotonic clock, given
    where the code reads it, and what an attempt to connect gives is an input. *)

From S2P Require Import Prelude Resilience.
From Stdlib Require Import ZArith Lia.
From stdpp Require Import base option list gmap sets strings pretty numbers sorting.
Open Scope Z_scope.

(** ** Data *)

Abbreviation conn := positive.

Record PoolConfig := {
  max_connections_per_peer : Z;
  max_total_connections : Z;
  max_idle_time : Z;
  connect_timeout : Z;
  max_retry_attempts : Z;
  retry_delay : Z;
}.
Definition PoolConfig_default : PoolConfig :=
  {| max_connections_per_peer := 2; max_total_connections := 50; max_idle_time := 300 * 10 ^ 9;
     connect_timeout := 10 * 10 ^ 9; max_retry_attempts := 3; retry_delay := 500 * 10 ^ 6 |}.

Record PooledConnection {SocketAddr : Type} := {
  connection : conn;
  peer_addr : SocketAddr;
  peer_device_id : option (list Byte.byte);
  peer_device_name : option string;
  created_at : Z;
  last_used : Z;
  active_streams : Z;
}.
Arguments PooledConnection : clear implicits.

(** What connecting gives, within the timeout or not. *)
Inductive Attempt := Connects (c : conn) | Refused (e : QuicError) | TimedOut.

Record ConnectionPool `{Countable SocketAddr} := {
  connections : gmap SocketAddr (list (PooledConnection SocketAddr));
  pool_config : PoolConfig;
  cleaning : bool;
  closed : gset conn;
}.
Arguments ConnectionPool SocketAddr {_ _}.

Section pool.
Context (checked : bool) `{MapIter} `{Countable SocketAddr}.
Implicit Types (p : SocketAddr) (e : PooledConnection SocketAddr).

Definition pooled (c : conn) p (now : Z) : PooledConnection SocketAddr :=
  {| connection := c; peer_addr := p; peer_device_id := None; peer_device_name := None;
     created_at := now; last_used := now; active_streams := 0 |}.
Definition use_connection (now : Z) e : outcome QuicError (PooledConnection SocketAddr) :=
  n ← arith checked 32 (active_streams e + 1);
  mret {| connection := connection e; peer_addr := peer_addr e; peer_device_id := peer_device_id e;
          peer_device_name := peer_device_name e; created_at := created_at e; last_used := now; active_streams := n |}.
Definition release_stream e : PooledConnection SocketAddr :=
  if 0 <? active_streams e then
    {| connection := connection e; peer_addr := peer_addr e; peer_device_id := peer_device_id e;
       peer_device_name := peer_device_name e; created_at := created_at e; last_used := last_used e;
       active_streams := active_streams e - 1 |}
  else e.
Definition is_idle e : bool := active_streams e =? 0.
Definition is_stale (now max_idle : Z) e : bool := (max_idle <? now - last_used e) && is_idle e.
Definition is_healthy (shut : gset conn) e : bool := bool_decide (connection e ∉ shut).

Abbreviation pool := (ConnectionPool SocketAddr).
Definition set_connections (f : gmap SocketAddr (list (PooledConnection SocketAddr)) → gmap SocketAddr (list (PooledConnection SocketAddr)))
    (self : pool) : pool :=
  {| connections := f (connections self); pool_config := pool_config self; cleaning := cleaning self;
     closed := closed self |}.
Definition close_all (l : list (PooledConnection SocketAddr)) (self : pool) : pool :=
  {| connections := connections self; pool_config := pool_config self; cleaning := cleaning self;
     closed := list_to_set (map connection l) ∪ closed self |}.
Definition new_pool (cfg : PoolConfig) : pool :=
  {| connections := ∅; pool_config := cfg; cleaning := true; closed := ∅ |}.
(** The peer, or the network, ends a connection. *)
Definition lose (c : conn) (self : pool) : pool :=
  {| connections := connections self; pool_config := pool_config self; cleaning := cleaning self;
     closed := {[c]} ∪ closed self |}.

(** ** Getting a connection *)

(** The first entry that is open and idle, in use from now on. *)
Fixpoint find_idle (shut : gset conn) (now : Z) (l : list (PooledConnection SocketAddr)) :
    outcome QuicError (option (list (PooledConnection SocketAddr) * PooledConnection SocketAddr)) :=
  match l with
  | [] => mret None
  | e :: l =>
      if is_healthy shut e && is_idle e then
        e ← use_connection now e;
        mret (Some (e :: l, e))
      else
        r ← find_idle shut now l;
        mret (match r with Some (l, found) => Some (e :: l, found) | None => None end)
  end.
Definition find_available_connection p (now : Z) : st pool QuicError (option (PooledConnection SocketAddr)) := λ self,
  match connections self !! p with
  | None => (self, Ok None)
  | Some peer_connections =>
      match find_idle (closed self) now peer_connections with
      | Ok (Some (l, e)) => (set_connections <[p := l]> self, Ok (Some e))
      | Ok None => (self, Ok None)
      | Err e => (self, Err e)
      | Panic => (self, Panic)
      end
  end.
Definition total_connections (self : pool) : Z := sum_of (λ '(_, l), zlen l) (map_iter (connections self)).
Definition peer_connections (self : pool) p : list (PooledConnection SocketAddr) := default [] (connections self !! p).
Definition can_create_new_connection p (self : pool) : bool :=
  if max_total_connections (pool_config self) <=? total_connections self then false
  else match connections self !! p with
       | Some l => negb (max_connections_per_peer (pool_config self) <=? zlen l)
       | None => true
       end.

(** The longest [Duration]. *)
Definition duration_max : Z := 2 ^ 64 * 10 ^ 9 - 1.
Definition backoff (cfg : PoolConfig) (attempt : Z) : outcome QuicError Z :=
  factor ← arith checked 32 (2 ^ (attempt - 1));
  let delay := retry_delay cfg * factor in
  or_panic (if delay <=? duration_max then Some delay else None).
(** The attempts [attempt], …, of which [n] are left; [connect k] is what the [k]-th gives. *)
Fixpoint create_loop (cfg : PoolConfig) (connect : Z → Attempt) (n : nat) (attempt : Z) (last_error : option QuicError) :
    outcome QuicError conn :=
  match n with
  | O => Err (default (QProtocol "Connection failed after all retries") last_error)
  | S n =>
      match connect attempt with
      | Connects c => Ok c
      | failure =>
          let e := match failure with Refused e => e | _ => QTimeout end in
          _ ← (if attempt <? max_retry_attempts cfg then backoff cfg attempt else mret 0);
          create_loop cfg connect n (attempt + 1) (Some e)
      end
  end.
Definition create_connection_with_retry (cfg : PoolConfig) (connect : Z → Attempt) : outcome QuicError conn :=
  create_loop cfg connect (Z.to_nat (max_retry_attempts cfg)) 1 None.
Definition add_to_pool p (c : conn) (now : Z) : pool → pool :=
  set_connections (λ m, <[p := default [] (m !! p) ++ [pooled c p now]]> m).

Definition get_connection p (now : Z) (connect : Z → Attempt) : st pool QuicError conn :=
  found ← find_available_connection p now;
  match found with
  | Some e => mret (connection e)
  | None =>
      self ← get_st;
      if can_create_new_connection p self then
        c ← lift (create_connection_with_retry (pool_config self) connect);
        _ ← modify_st (add_to_pool p c now);
        mret c
      else lift (Err (QProtocol "Connection pool limit reached for peer"))
  end.

(** ** Housekeeping *)

Definition should_keep (shut : gset conn) (cfg : PoolConfig) (now : Z) e : bool :=
  is_healthy shut e && negb (is_stale now (max_idle_time cfg) e).
(** One pass of the task: the peers one after the other, and their connections; one
    that it closes is closed for the entries after it. *)
Fixpoint retain_healthy (now : Z) (l : list (PooledConnection SocketAddr)) (self : pool) :
    pool * list (PooledConnection SocketAddr) :=
  match l with
  | [] => (self, [])
  | e :: l =>
      if should_keep (closed self) (pool_config self) now e then
        let '(self, kept) := retain_healthy now l self in (self, e :: kept)
      else retain_healthy now l (close_all [e] self)
  end.
Definition cleanup_peer (now : Z) (self : pool) '((p, l) : SocketAddr * list (PooledConnection SocketAddr)) : pool :=
  let '(self, kept) := retain_healthy now l self in set_connections <[p := kept]> self.
Definition cleanup (now : Z) (self : pool) : pool :=
  if cleaning self then
    let self := foldl (cleanup_peer now) self (map_iter (connections self)) in
    set_connections (filter (λ '(_, l), l ≠ [])) self
  else self.
Definition close_peer_connections p (self : pool) : pool :=
  close_all (peer_connections self p) (set_connections (delete p) self).
Definition remove_peer_connections p : pool → pool := set_connections (delete p).
Definition shutdown (self : pool) : pool :=
  let self := {| connections := connections self; pool_config := pool_config self; cleaning := false; closed := closed self |} in
  close_all (concat (map snd (map_iter (connections self)))) (set_connections (λ _, ∅) self).
Definition get_stats (self : pool) : gmap SocketAddr Z := (λ l, zlen l) <$> connections self.
Definition get_pool_stats (self : pool) : Z * gmap SocketAddr Z := (total_connections self, get_stats self).

(** ** Clients at the same time *)

(** A client inside of [get_connection]; the lock of the pool is free between the steps. *)
Inductive Getting := Finding | Deciding | Connecting | Adding (c : conn) | Got (r : outcome QuicError conn).
Definition get_step p (now : Z) (connect : Z → Attempt) (self : pool) (g : Getting) : pool * Getting :=
  match g with
  | Finding =>
      match find_available_connection p now self with
      | (self, Ok (Some e)) => (self, Got (Ok (connection e)))
      | (self, Ok None) => (self, Deciding)
      | (self, Err e) => (self, Got (Err e))
      | (self, Panic) => (self, Got Panic)
      end
  | Deciding =>
      (self, if can_create_new_connection p self then Connecting
             else Got (Err (QProtocol "Connection pool limit reached for peer")))
  | Connecting =>
      (self, match create_connection_with_retry (pool_config self) connect with
             | Ok c => Adding c
             | r => Got r
             end)
  | Adding c => (add_to_pool p c now self, Got (Ok c))
  | Got r => (self, Got r)
  end.
(** A schedule: which client moves, at what time, and what its attempts give. *)
Definition get_turn p (x : pool * list Getting) '((i, now, connect) : nat * Z * (Z → Attempt)) : pool * list Getting :=
  let '(self, gs) := x in
  match gs !! i with
  | Some g => let '(self, g) := get_step p now connect self g in (self, <[i := g]> gs)
  | None => x
  end.
Definition get_all p : pool * list Getting → list (nat * Z * (Z → Attempt)) → pool * list Getting := foldl (get_turn p).

(** What happens to a pool, one thing after the other. *)
Inductive PoolEvent :=
  | Get p (now : Z) (connect : Z → Attempt)
  | Cleanup (now : Z)
  | ClosePeer p
  | RemovePeer p
  | Lose (c : conn)
  | Shutdown.
Definition pool_event (self : pool) (ev : PoolEvent) : pool :=
  match ev with
  | Get p now connect => (get_connection p now connect self).1
  | Cleanup now => cleanup now self
  | ClosePeer p => close_peer_connections p self
  | RemovePeer p => remove_peer_connections p self
  | Lose c => lose c self
  | Shutdown => shutdown self
  end.
Definition pool_events : pool → list PoolEvent → pool := foldl pool_event.

(** Gets on one peer one after the other, and what they return. *)
Fixpoint run_gets p (gets : list (Z * (Z → Attempt))) (self : pool) : pool * list (outcome QuicError conn) :=
  match gets with
  | [] => (self, [])
  | (now, connect) :: gets =>
      let '(self, r) := get_connection p now connect self in
      let '(self, rs) := run_gets p gets self in
      (self, r :: rs)
  end.
End pool.

(** ** Lemmas *)

Section lemmas.
Context (checked : bool) `{MapIter} `{Countable SocketAddr}.
Implicit Types (p q : SocketAddr) (e : PooledConnection SocketAddr) (l : list (PooledConnection SocketAddr))
  (self : ConnectionPool SocketAddr).

(** An entry that [get_connection] may hand out, and how it is then. *)
Definition usable (shut : gset conn) e : bool := is_healthy shut e && is_idle e.
Definition used (now : Z) e : PooledConnection SocketAddr :=
  {| connection := connection e; peer_addr := peer_addr e; peer_device_id := peer_device_id e;
     peer_device_name := peer_device_name e; created_at := created_at e; last_used := now; active_streams := 1 |}.
Lemma use_usable shut now e : usable shut e = true → use_connection checked now e = Ok (used now e).
Proof.
  unfold usable, is_idle. intros [_ Hi]%andb_true_iff. apply Z.eqb_eq in Hi.
  unfold use_connection. rewrite Hi, arith_exact by lia. done.
Qed.
Lemma used_unusable shut now e : usable shut (used now e) = false.
Proof. unfold usable, is_idle. cbn. apply andb_false_r. Qed.

Lemma find_idle_spec shut now l :
  (find_idle checked shut now l = Ok None ∧ Forall (λ e, usable shut e = false) l) ∨
  (∃ l1 e l2, l = l1 ++ e :: l2 ∧ Forall (λ e, usable shut e = false) l1 ∧ usable shut e = true ∧
    find_idle checked shut now l = Ok (Some (l1 ++ used now e :: l2, used now e))).
Proof.
  induction l as [|e l IH]; [by left|]. cbn [find_idle].
  change (is_healthy shut e && is_idle e) with (usable shut e).
  destruct (usable shut e) eqn:Hu.
  - right. exists [], e, l. rewrite (use_usable _ _ _ Hu). done.
  - destruct IH as [[-> Hl]|(l1 & e' & l2 & -> & Hl1 & He' & ->)].
    + left. split; [done|by constructor].
    + right. exists (e :: l1), e', l2. repeat split; [by constructor|done].
Qed.

(** What [get_connection] does, case by case. *)
Inductive got p now (connect : Z → Attempt) self : ConnectionPool SocketAddr * outcome QuicError conn → Prop :=
  | got_reused l1 e l2 : connections self !! p = Some (l1 ++ e :: l2) →
      Forall (λ e, usable (closed self) e = false) l1 → usable (closed self) e = true →
      got p now connect self (set_connections <[p := l1 ++ used now e :: l2]> self, Ok (connection e))
  | got_limit : Forall (λ e, usable (closed self) e = false) (peer_connections self p) →
      can_create_new_connection p self = false →
      got p now connect self (self, Err (QProtocol "Connection pool limit reached for peer"))
  | got_failed r : Forall (λ e, usable (closed self) e = false) (peer_connections self p) →
      can_create_new_connection p self = true →
      create_connection_with_retry checked (pool_config self) connect = r → is_ok r = false →
      got p now connect self (self, r)
  | got_created c : Forall (λ e, usable (closed self) e = false) (peer_connections self p) →
      can_create_new_connection p self = true →
      create_connection_with_retry checked (pool_config self) connect = Ok c →
      got p now connect self (add_to_pool p c now self, Ok c).
Lemma get_connection_cases p now connect self :
  got p now connect self (get_connection checked p now connect self).
Proof.
  unfold get_connection.
  destruct (connections self !! p) as [l|] eqn:Hp.
  1: destruct (find_idle_spec (closed self) now l) as [[Hf Hl]|(l1 & e & l2 & -> & Hl1 & He & Hf)].
  2: { erewrite st_bind_eq by (unfold find_available_connection; rewrite Hp, Hf; done).
    exact (got_reused p now connect self l1 e l2 Hp Hl1 He). }
  all: assert (Forall (λ e, usable (closed self) e = false) (peer_connections self p)) as Hn
    by (unfold peer_connections; rewrite Hp; done).
  all: erewrite st_bind_eq by (unfold find_available_connection; rewrite Hp, ?Hf; done).
  all: cbv beta iota; erewrite st_bind_eq by done; cbv beta iota; destruct (can_create_new_connection p self) eqn:Hc; [|by apply got_limit].
  all: destruct (create_connection_with_retry checked (pool_config self) connect) as [c|e|] eqn:Hr.
  1,4: by apply (got_created p now connect self c).
  all: by apply got_failed.
Qed.

(** ** Retries *)

(** The first of the attempts [i], …, [i + n - 1] that connects. *)
Fixpoint first_connected (connect : Z → Attempt) (n : nat) (i : Z) : option conn :=
  match n with
  | O => None
  | S n => match connect i with Connects c => Some c | _ => first_connected connect n (i + 1) end
  end.
Definition failure_of (a : Attempt) : QuicError := match a with Refused e => e | _ => QTimeout end.
(** Delays that fit a [Duration], and exponents that fit the factor. *)
Definition retries_fit (cfg : PoolConfig) : Prop :=
  max_retry_attempts cfg ≤ 33 ∧ 0 ≤ retry_delay cfg ∧ retry_delay cfg * 2 ^ 31 ≤ duration_max.
Lemma backoff_ok cfg i : retries_fit cfg → 1 ≤ i < max_retry_attempts cfg → is_ok (backoff checked cfg i) = true.
Proof.
  intros (Hm & Hd & Hf) Hi. unfold backoff.
  assert (0 < 2 ^ (i - 1)) by (apply Z.pow_pos_nonneg; lia).
  assert (2 ^ (i - 1) ≤ 2 ^ 31) by (apply Z.pow_le_mono_r; lia).
  rewrite arith_exact by lia. cbn. rewrite (proj2 (Z.leb_le _ _)); [done|]. nia.
Qed.
Lemma create_loop_spec cfg connect n i last : retries_fit cfg → 1 ≤ i → i + Z.of_nat n = max_retry_attempts cfg + 1 →
  create_loop checked cfg connect n i last =
    match first_connected connect n i with
    | Some c => Ok c
    | None => Err (if decide (n = 0%nat) then default (QProtocol "Connection failed after all retries") last
                   else failure_of (connect (max_retry_attempts cfg)))
    end.
Proof.
  intros Hfit. revert i last. induction n as [|n IH]; intros i last Hi Hn; [done|]. cbn [create_loop first_connected].
  assert (is_ok (if i <? max_retry_attempts cfg then backoff checked cfg i else mret 0) = true) as Hb.
  { destruct (i <? max_retry_attempts cfg) eqn:Hlt; [|done]. apply Z.ltb_lt in Hlt. by apply backoff_ok. }
  apply is_ok_true in Hb as [d Hb].
  destruct (connect i) as [c|e|] eqn:Hc; [done|..]; rewrite Hb; cbn; rewrite IH by lia;
    destruct (first_connected connect n (i + 1)); try done;
    (destruct n; cbn; [replace (max_retry_attempts cfg) with i by lia; by rewrite Hc|done]).
Qed.

(** ** Counting connections *)

Abbreviation peers := (gmap SocketAddr (list (PooledConnection SocketAddr))).
Definition total_of (m : peers) : Z := sum_of (λ '(_, l), zlen l) (map_iter m).
Lemma total_of_list (m : peers) : total_of m = sum_of (λ '(_, l), zlen l) (map_to_list m).
Proof. apply sum_of_perm, map_iter_perm. Qed.
Lemma total_of_insert (m : peers) p l : m !! p = None → total_of (<[p := l]> m) = zlen l + total_of m.
Proof. intros Hp. by rewrite !total_of_list, (sum_of_perm _ _ _ (map_to_list_insert m p l Hp)). Qed.
Lemma total_of_delete (m : peers) p : total_of m = zlen (default [] (m !! p)) + total_of (delete p m).
Proof.
  destruct (m !! p) as [l|] eqn:Hp; cbn [default].
  - rewrite <- (total_of_insert (delete p m) p l) by apply lookup_delete_eq.
    by rewrite insert_delete_eq, insert_id.
  - by rewrite delete_id.
Qed.
Lemma total_of_update (m : peers) p l : total_of (<[p := l]> m) = total_of m - zlen (default [] (m !! p)) + zlen l.
Proof.
  rewrite (total_of_delete (<[p := l]> m) p), (total_of_delete m p), lookup_insert_eq, delete_insert_eq. cbn. lia.
Qed.
Lemma total_of_mono (m m' : peers) :
  (∀ q, zlen (default [] (m' !! q)) ≤ zlen (default [] (m !! q))) → total_of m' ≤ total_of m.
Proof.
  revert m. induction m' as [|p l m' Hp IH] using map_ind; intros m Hm.
  - unfold total_of at 1. rewrite map_iter_empty. apply sum_of_nonneg. intros [q l] _. apply zlen_nonneg.
  - rewrite total_of_insert by done. rewrite (total_of_delete m p).
    specialize (IH (delete p m)). pose proof (Hm p) as Hmp. rewrite lookup_insert_eq in Hmp. cbn in Hmp.
    enough (total_of m' ≤ total_of (delete p m)) by lia. apply IH. intros q.
    destruct (decide (q = p)) as [->|Hq]; [by rewrite Hp, lookup_delete_eq|].
    specialize (Hm q). by rewrite lookup_insert_ne in Hm by done; rewrite lookup_delete_ne by done.
Qed.

(** The limits of the configuration. *)
Definition limited self : Prop :=
  (∀ q, zlen (peer_connections self q) ≤ max_connections_per_peer (pool_config self)) ∧
  total_connections self ≤ max_total_connections (pool_config self).
Definition shrinks self self' : Prop :=
  pool_config self' = pool_config self ∧
  ∀ q, zlen (peer_connections self' q) ≤ zlen (peer_connections self q).
Lemma limited_shrinks self self' : shrinks self self' → limited self → limited self'.
Proof.
  intros [Hc Hs] [Hp Ht]. split; rewrite Hc.
  - intros q. etrans; [apply Hs|apply Hp].
  - etrans; [|exact Ht]. by apply total_of_mono.
Qed.
Lemma can_create_limits p self : can_create_new_connection p self = true →
  total_connections self < max_total_connections (pool_config self) ∧
  (zlen (peer_connections self p) < max_connections_per_peer (pool_config self) ∨ connections self !! p = None).
Proof.
  unfold can_create_new_connection, peer_connections.
  destruct (Z.leb_spec (max_total_connections (pool_config self)) (total_connections self)); [done|].
  destruct (connections self !! p) as [l|]; [|auto]. intros Hl%negb_true_iff%Z.leb_gt. auto.
Qed.
Lemma peer_connections_update self f p l : f = <[p := l]> →
  ∀ q, peer_connections (set_connections f self) q = if decide (q = p) then l else peer_connections self q.
Proof.
  intros -> q. unfold peer_connections. cbn. case_decide as Hq; [by subst; rewrite lookup_insert_eq|].
  by rewrite lookup_insert_ne by done.
Qed.
Lemma add_to_pool_connections p c now self q :
  peer_connections (add_to_pool p c now self) q =
    if decide (q = p) then peer_connections self p ++ [pooled c p now] else peer_connections self q.
Proof.
  unfold add_to_pool, peer_connections. cbn. case_decide as Hq; [by subst; rewrite lookup_insert_eq|].
  by rewrite lookup_insert_ne by done.
Qed.
Lemma limited_get p now connect self : 1 ≤ max_connections_per_peer (pool_config self) →
  limited self → limited (get_connection checked p now connect self).1.
Proof.
  intros Hmax [Hp Ht]. destruct (get_connection_cases p now connect self) as [l1 e l2 Hl _ _|? ?|r ? ? ? ?|c _ Hc _]; cbn [fst]; try done.
  - apply (limited_shrinks self); [|done]. split; [done|]. intros q.
    rewrite (peer_connections_update _ _ p (l1 ++ used now e :: l2)) by done. case_decide as Hq; [subst q|done].
    unfold peer_connections. rewrite Hl. cbn. rewrite !zlen_app, !zlen_cons. lia.
  - apply can_create_limits in Hc as [Htot Hper]. split.
    + intros q. rewrite add_to_pool_connections. cbn [pool_config add_to_pool set_connections].
      case_decide; [|apply Hp]. rewrite zlen_app. change (zlen [_]) with 1.
      destruct Hper as [Hper|Hper]; [lia|]. unfold peer_connections. rewrite Hper. exact Hmax.
    + change (total_of (<[p := peer_connections self p ++ [pooled c p now]]> (connections self))
        ≤ max_total_connections (pool_config self)).
      rewrite total_of_update, zlen_app. change (zlen [_]) with 1.
      change (total_of (connections self)) with (total_connections self). unfold peer_connections. lia.
Qed.

(** ** Cleaning up *)

Definition stale now self e : bool := is_stale now (max_idle_time (pool_config self)) e.
Lemma retain_spec now l self self' kept : retain_healthy now l self = (self', kept) →
  connections self' = connections self ∧ pool_config self' = pool_config self ∧ cleaning self' = cleaning self ∧
  (∀ c, c ∈ closed self' ↔ c ∈ closed self ∨ ∃ e, e ∈ l ∧ stale now self e = true ∧ c = connection e) ∧
  zlen kept ≤ zlen l ∧
  (∀ e, e ∈ kept → e ∈ l ∧ stale now self e = false) ∧
  (∀ e, e ∈ l → stale now self e = false → connection e ∉ closed self' → e ∈ kept).
Proof.
  revert self self' kept. induction l as [|e l IH]; intros self self' kept; cbn [retain_healthy].
  { intros [= <- <-]. repeat split; try set_solver. }
  destruct (should_keep (closed self) (pool_config self) now e) eqn:Hk.
  - destruct (retain_healthy now l self) as [self1 kept1] eqn:Hr. intros [= <- <-].
    destruct (IH _ _ _ Hr) as (? & ? & ? & Hcl & Hlen & Hin & Hkeep).
    apply andb_true_iff in Hk as [_ Hst%negb_true_iff]. change (stale now self e = false) in Hst.
    split_and!; try done.
    + intros c. rewrite Hcl. set_unfold. naive_solver congruence.
    + rewrite !zlen_cons. lia.
    + intros e' [->|He']%elem_of_cons; [split; [left|done]|]. destruct (Hin _ He'). split; [by right|done].
    + intros e' [->|He']%elem_of_cons Hs Hc; [left|right; by apply Hkeep].
  - intros Hr. destruct (IH _ _ _ Hr) as (? & ? & ? & Hcl & Hlen & Hin & Hkeep). cbn in Hcl.
    assert (connection e ∈ closed self ∨ stale now self e = true) as He.
    { apply andb_false_iff in Hk as [Hk|Hk]; [left|right].
      - by apply bool_decide_eq_false, dec_stable in Hk.
      - by apply negb_false_iff in Hk. }
    split_and!; try done.
    + intros c. rewrite Hcl. set_unfold. split.
      * intros [[[->|[]]|?]|(e' & ? & ? & ->)]; [|by left|right; by exists e'; auto].
        destruct He; [by left|right; by exists e; auto].
      * intros [?|(e' & [->|?] & ? & ->)]; [auto..|]. right. by exists e'.
    + rewrite zlen_cons. lia.
    + intros e' He'. destruct (Hin _ He'). split; [by right|done].
    + intros e' [->|He']%elem_of_cons Hs Hc; [|by apply Hkeep].
      exfalso. apply Hc, Hcl. left. set_solver.
Qed.

Lemma cleanup_fold now (L : list (SocketAddr * list (PooledConnection SocketAddr))) self self' : NoDup L.*1 →
  foldl (cleanup_peer now) self L = self' →
  pool_config self' = pool_config self ∧
  (∀ c, c ∈ closed self' ↔ c ∈ closed self ∨
    ∃ q l e, (q, l) ∈ L ∧ e ∈ l ∧ stale now self e = true ∧ c = connection e) ∧
  (∀ q, q ∉ L.*1 → connections self' !! q = connections self !! q) ∧
  (∀ q l, (q, l) ∈ L → ∃ kept, connections self' !! q = Some kept ∧ zlen kept ≤ zlen l ∧
    (∀ e, e ∈ kept → e ∈ l ∧ stale now self e = false) ∧
    (∀ e, e ∈ l → stale now self e = false → connection e ∉ closed self' → e ∈ kept)).
Proof.
  revert self. induction L as [|[p l] L IH]; intros self Hnd; cbn [foldl]; intros Hfold.
  { subst. split_and!; [done| |done|by intros q l ?%elem_of_nil]. intros c. split; [by left|].
    intros [?|(q & l & e & Hin & _)]; [done|]. by apply elem_of_nil in Hin. }
  cbn in Hnd. apply NoDup_cons in Hnd as [Hp Hnd].
  destruct (retain_healthy now l self) as [self1 kept] eqn:Hr.
  assert (cleanup_peer now self (p, l) = set_connections <[p := kept]> self1) as Hstep
    by (unfold cleanup_peer; by rewrite Hr).
  rewrite Hstep in Hfold.
  destruct (retain_spec _ _ _ _ _ Hr) as (Hc1 & Hcfg1 & _ & Hcl1 & Hlen1 & Hin1 & Hkeep1).
  assert (∀ e, stale now (set_connections <[p := kept]> self1) e = stale now self e) as Hst
    by (intros; unfold stale; cbn; by rewrite Hcfg1).
  destruct (IH (set_connections <[p := kept]> self1) Hnd Hfold) as (Hcfg & Hcl & Hout & Hpeer).
  cbn [pool_config closed connections set_connections] in *.
  split_and!; [congruence|..].
  - intros c. rewrite Hcl, Hcl1. setoid_rewrite Hst. split.
    + intros [[?|(e & ? & ? & ->)]|(q & l' & e & ? & ? & ? & ->)];
        [by left|right; exists p, l, e; split_and!; [left|..]; done|right; exists q, l', e; split_and!; [by right|..]; done].
    + intros [?|(q & l' & e & [[= -> ->]|?]%elem_of_cons & ? & ? & ->)];
        [by left; left|left; right; by exists e|right; by exists q, l', e].
  - intros q [Hq HqL]%not_elem_of_cons. rewrite Hout by done. rewrite lookup_insert_ne by done. by rewrite Hc1.
  - intros q l' [[= -> ->]|Hq]%elem_of_cons.
    + exists kept. split_and!; [rewrite Hout by done; apply lookup_insert_eq|done|done|].
      intros e He Hs Hopen. apply Hkeep1; [done..|]. intros ?. apply Hopen, Hcl. by left.
    + destruct (Hpeer q l' Hq) as (k & ? & ? & Hin & Hkeep). setoid_rewrite Hst in Hin. setoid_rewrite Hst in Hkeep.
      by exists k.
Qed.

(** A pass of the cleanup: which connections it closes and which entries it keeps. *)
Lemma cleanup_facts now self : cleaning self = true →
  (∀ c, c ∈ closed (cleanup now self) ↔ c ∈ closed self ∨
    ∃ q e, e ∈ peer_connections self q ∧ stale now self e = true ∧ c = connection e) ∧
  shrinks self (cleanup now self) ∧
  (∀ q e, e ∈ peer_connections (cleanup now self) q → e ∈ peer_connections self q ∧ stale now self e = false) ∧
  (∀ q e, e ∈ peer_connections self q → stale now self e = false → connection e ∉ closed (cleanup now self) →
    e ∈ peer_connections (cleanup now self) q) ∧
  (∀ q, connections (cleanup now self) !! q ≠ Some []).
Proof.
  intros Hon. unfold cleanup. rewrite Hon.
  destruct (cleanup_fold now (map_iter (connections self)) self _ (NoDup_map_iter _) eq_refl) as (Hcfg & Hcl & Hout & Hpeer).
  set (self' := foldl _ _ _) in *.
  assert (∀ q l, (q, l) ∈ map_iter (connections self) ↔ connections self !! q = Some l) as Hiter
    by (intros; apply elem_of_map_iter).
  assert (∀ q, peer_connections (set_connections (filter (λ '(_, l), l ≠ [])) self') q = peer_connections self' q) as Hfilter.
  { intros q. unfold peer_connections. cbn. destruct (connections self' !! q) as [[|e l]|] eqn:Hq; cbn.
    - rewrite map_lookup_filter_None_2; [done|]. right. intros l Hl Hn. congruence.
    - by rewrite (map_lookup_filter_Some_2 _ _ q (e :: l)).
    - rewrite map_lookup_filter_None_2; [done|by left]. }
  assert (∀ q, zlen (peer_connections self' q) ≤ zlen (peer_connections self q) ∧
    (∀ e, e ∈ peer_connections self' q → e ∈ peer_connections self q ∧ stale now self e = false) ∧
    (∀ e, e ∈ peer_connections self q → stale now self e = false → connection e ∉ closed self' →
      e ∈ peer_connections self' q)) as Hall.
  { intros q. unfold peer_connections. destruct (connections self !! q) as [l|] eqn:Hq.
    - destruct (Hpeer q l (proj2 (Hiter q l) Hq)) as (kept & -> & ?). done.
    - rewrite Hout, Hq; cbn; [split_and!; [done|intros e He|]; by apply elem_of_nil in He||done|].
      intros ([q' l] & -> & Hin)%list_elem_of_fmap. cbn in Hq. by apply Hiter in Hin; congruence. }
  split_and!.
  - intros c. cbn [closed set_connections]. rewrite Hcl. f_equiv. unfold peer_connections. split.
    + intros (q & l & e & Hin & ? & ? & ->). exists q, e. apply Hiter in Hin. by rewrite Hin.
    + intros (q & e & Hin & ? & ->). destruct (connections self !! q) as [l|] eqn:Hq; [|by apply elem_of_nil in Hin].
      exists q, l, e. by rewrite Hiter.
  - split; [done|]. intros q. rewrite Hfilter. apply Hall.
  - intros q e. rewrite Hfilter. apply Hall.
  - intros q e. rewrite Hfilter. apply Hall.
  - intros q. cbn. intros [_ Hn]%map_lookup_filter_Some. by apply Hn.
Qed.
Lemma shrinks_event self ev : (∀ p now connect, ev ≠ Get p now connect) → shrinks self (pool_event checked self ev).
Proof.
  intros Hev. destruct ev as [p now connect|now|p|p|c|]; cbn [pool_event].
  - by destruct (Hev p now connect).
  - destruct (cleaning self) eqn:Hc; [by apply cleanup_facts|]. unfold cleanup. by rewrite Hc.
  - split; [done|]. intros q. unfold peer_connections. cbn.
    destruct (decide (q = p)) as [->|]; [by rewrite lookup_delete_eq; apply zlen_nonneg|by rewrite lookup_delete_ne by done].
  - split; [done|]. intros q. unfold peer_connections. cbn.
    destruct (decide (q = p)) as [->|]; [by rewrite lookup_delete_eq; apply zlen_nonneg|by rewrite lookup_delete_ne by done].
  - done.
  - split; [done|]. intros q. unfold peer_connections. cbn. rewrite lookup_empty. apply zlen_nonneg.
Qed.

(** ** How often a pool can be asked *)

(** Gets that the pool can still serve for [p] when no connection is lost: one for
    each entry nobody has asked for, two for each connection that may be added. *)
Definition credit p self : Z :=
  2 * (max_connections_per_peer (pool_config self) - zlen (peer_connections self p))
  + zlen (filter (λ e, usable (closed self) e = true) (peer_connections self p)).
Lemma filter_none {A} (f : A → bool) (l : list A) : Forall (λ x, f x = false) l → filter (λ x, f x = true) l = [].
Proof.
  induction 1 as [|x l Hx _ IH]; [done|]. by rewrite filter_cons, decide_False by congruence.
Qed.
(** A pool of which only [p] has connections, all of them open. *)
Definition only p self : Prop := closed self = ∅ ∧ ∀ q, q ≠ p → connections self !! q = None.
Lemma only_total p self : only p self → total_connections self = zlen (peer_connections self p).
Proof.
  intros [_ Hq]. change (total_of (connections self) = zlen (default [] (connections self !! p))).
  rewrite (total_of_delete _ p). assert (delete p (connections self) = ∅) as ->.
  { apply map_eq. intros q. rewrite lookup_empty. destruct (decide (q = p)) as [->|Hne].
    - apply lookup_delete_eq.
    - rewrite lookup_delete_ne by done. by apply Hq. }
  unfold total_of. rewrite map_iter_empty. cbn. lia.
Qed.
Lemma get_credit p now connect self :
  zlen (peer_connections self p) ≤ max_connections_per_peer (pool_config self) →
  1 ≤ max_connections_per_peer (pool_config self) ≤ max_total_connections (pool_config self) →
  1 ≤ max_retry_attempts (pool_config self) → (∃ c, connect 1 = Connects c) → only p self →
  let '(self', r) := get_connection checked p now connect self in
  only p self' ∧ pool_config self' = pool_config self ∧
  zlen (peer_connections self' p) ≤ max_connections_per_peer (pool_config self) ∧ 0 ≤ credit p self ∧
  is_ok r = bool_decide (0 < credit p self) ∧ credit p self' = credit p self - (if is_ok r then 1 else 0).
Proof.
  intros Hlen Hmax Hretry [c0 Hc0] Honly.
  pose proof (zlen_nonneg (filter (λ e, usable (closed self) e = true) (peer_connections self p))) as Hnn.
  assert (0 ≤ credit p self) as Hcredit by (unfold credit; lia).
  assert (Forall (λ e, usable (closed self) e = false) (peer_connections self p) →
    credit p self = 2 * (max_connections_per_peer (pool_config self) - zlen (peer_connections self p))) as Hnone.
  { intros Hf. unfold credit. rewrite (filter_none _ _ Hf). change (zlen []) with 0. lia. }
  destruct (get_connection_cases p now connect self) as [l1 e l2 Hl Hl1 He|Hf Hc|r Hf Hc Hr Hok|c Hf Hc Hr].
  - assert (peer_connections self p = l1 ++ e :: l2) as Hpc by (unfold peer_connections; by rewrite Hl).
    assert (peer_connections (set_connections <[p := l1 ++ used now e :: l2]> self) p = l1 ++ used now e :: l2) as Hpc'
      by (unfold peer_connections; cbn; by rewrite lookup_insert_eq).
    assert (credit p (set_connections <[p := l1 ++ used now e :: l2]> self) = credit p self - 1) as Hcr.
    { unfold credit. rewrite Hpc', Hpc. cbn [pool_config closed set_connections].
      rewrite !filter_app, !filter_cons, used_unusable, He.
      rewrite (decide_False (P := false = true)), (decide_True (P := true = true)) by done.
      rewrite ?zlen_app, ?zlen_cons. lia. }
    split_and!; try done.
    + split; [apply Honly|]. intros q Hq. cbn. rewrite lookup_insert_ne by done. by apply Honly.
    + rewrite Hpc'. rewrite Hpc in Hlen. rewrite !zlen_app, !zlen_cons in *. lia.
    + symmetry. apply bool_decide_eq_true.
      assert (zlen (filter (λ e, usable (closed self) e = true) (peer_connections self p)) ≠ 0); [|unfold credit; lia].
      rewrite Hpc, filter_app, filter_cons, decide_True by done. rewrite zlen_app, zlen_cons.
      pose proof (zlen_nonneg (filter (λ e, usable (closed self) e = true) l1)).
      pose proof (zlen_nonneg (filter (λ e, usable (closed self) e = true) l2)). lia.
  - split_and!; try done; [|cbn; lia]. symmetry. apply bool_decide_eq_false. rewrite Hnone by done.
    enough (¬ zlen (peer_connections self p) < max_connections_per_peer (pool_config self)) by lia. intros Hlt.
    enough (can_create_new_connection p self = true) by congruence.
    unfold can_create_new_connection. rewrite (only_total p self Honly), (proj2 (Z.leb_gt _ _)) by lia.
    unfold peer_connections in Hlt. destruct (connections self !! p); [|done].
    apply negb_true_iff, Z.leb_gt. exact Hlt.
  - exfalso. unfold create_connection_with_retry in Hr.
    destruct (Z.to_nat (max_retry_attempts (pool_config self))) eqn:Hn; [lia|].
    cbn [create_loop] in Hr. rewrite Hc0 in Hr. by subst r.
  - assert (zlen (peer_connections self p) < max_connections_per_peer (pool_config self)) as Hlt.
    { apply can_create_limits in Hc as [_ [?|Hp]]; [done|]. unfold peer_connections. rewrite Hp.
      change (0 < max_connections_per_peer (pool_config self)). lia. }
    assert (peer_connections (add_to_pool p c now self) p = peer_connections self p ++ [pooled c p now]) as Hpc
      by by rewrite add_to_pool_connections, decide_True.
    split_and!; try done.
    + split; [apply Honly|]. intros q Hq. cbn. rewrite lookup_insert_ne by done. by apply Honly.
    + rewrite Hpc, zlen_app. change (zlen [_]) with 1. cbn. lia.
    + symmetry. apply bool_decide_eq_true. rewrite Hnone by done. lia.
    + rewrite Hnone by done. unfold credit. rewrite Hpc. cbn [pool_config closed set_connections add_to_pool].
      rewrite filter_app, (filter_none _ _ Hf), zlen_app. change (zlen [_]) with 1.
      assert (filter (λ e, usable (closed self) e = true) [pooled c p now] = [pooled c p now]) as ->.
      { rewrite filter_cons, decide_True; [done|]. unfold usable, is_healthy. cbn.
        destruct Honly as [-> _]. by rewrite bool_decide_true by set_solver. }
      cbn [app]. change (zlen [_]) with 1. cbn [is_ok]. lia.
Qed.

(** ** Clients at the same time *)

(** A client that was allowed to connect and has not added its connection yet. *)
Definition admitted (g : Getting) : bool := match g with Connecting | Adding _ => true | _ => false end.
Definition admissions (gs : list Getting) : Z := zlen (filter (λ g, admitted g = true) gs).
Lemma admissions_insert gs i g g' : gs !! i = Some g →
  admissions (<[i := g']> gs) = admissions gs - (if admitted g then 1 else 0) + (if admitted g' then 1 else 0).
Proof.
  intros Hi. unfold admissions. rewrite <- (take_drop_middle gs i g Hi) at 2.
  rewrite insert_take_drop by by eapply lookup_lt_Some.
  rewrite !filter_app, !filter_cons, !zlen_app. destruct (admitted g), (admitted g');
    repeat case_decide; try done; rewrite ?zlen_cons; lia.
Qed.
Lemma admissions_bound gs i g : gs !! i = Some g → admitted g = false → admissions gs ≤ zlen gs - 1.
Proof.
  intros Hi Hg. rewrite <- (take_drop_middle gs i g Hi). unfold admissions.
  rewrite filter_app, filter_cons, Hg, decide_False, !zlen_app, zlen_cons by done.
  pose proof (zlen_filter (λ g, admitted g = true) (take i gs)).
  pose proof (zlen_filter (λ g, admitted g = true) (drop (S i) gs)). lia.
Qed.
Definition crowded p (x : ConnectionPool SocketAddr * list Getting) (n : Z) : Prop :=
  zlen x.2 = n ∧
  zlen (peer_connections x.1 p) + admissions x.2 ≤ max_connections_per_peer (pool_config x.1) + n - 1.
Lemma crowded_turn p n cfg x t : 1 ≤ max_connections_per_peer cfg → pool_config x.1 = cfg → crowded p x n →
  pool_config (get_turn checked p x t).1 = cfg ∧ crowded p (get_turn checked p x t) n.
Proof.
  intros Hmax Hcfg [Hn Hc]. destruct x as [self gs], t as [[i now] connect]. cbn in *.
  destruct (gs !! i) as [g|] eqn:Hg; [|done].
  assert (∀ self' g', pool_config self' = cfg →
    zlen (peer_connections self' p) + (if admitted g' then 1 else 0)
      ≤ zlen (peer_connections self p) + (if admitted g then 1 else 0)
    ∨ admitted g = false ∧ admitted g' = true ∧ zlen (peer_connections self' p) < max_connections_per_peer cfg →
    pool_config (self', <[i := g']> gs).1 = cfg ∧ crowded p (self', <[i := g']> gs) n) as Hstep.
  { intros self' g' Hcfg' Hd. split; [done|]. unfold crowded. cbn [fst snd].
    rewrite (admissions_insert _ _ _ _ Hg). unfold zlen at 1. rewrite length_insert. split; [done|].
    rewrite Hcfg'. rewrite Hcfg in Hc. destruct Hd as [?|(Hng & Hg' & ?)]; [lia|].
    pose proof (admissions_bound _ _ _ Hg Hng). rewrite Hng, Hg'. lia. }
  destruct g as [| | |c|r]; cbn [get_step].
  - unfold find_available_connection.
    destruct (connections self !! p) as [l|] eqn:Hl; [|apply Hstep; [done|left; cbn; lia]].
    destruct (find_idle_spec (closed self) now l) as [[-> _]|(l1 & e & l2 & -> & _ & _ & ->)];
      (apply Hstep; [done|left; cbn [admitted]]); [lia|].
    rewrite (peer_connections_update _ _ p (l1 ++ used now e :: l2)), decide_True by done.
    unfold peer_connections. rewrite Hl. cbn. rewrite !zlen_app, !zlen_cons. lia.
  - destruct (can_create_new_connection p self) eqn:Hcan; (apply Hstep; [done|]); [right|left; cbn; lia].
    split_and!; [done..|]. apply can_create_limits in Hcan as [_ [?|Hp]]; [congruence|].
    unfold peer_connections. rewrite Hp. change (0 < max_connections_per_peer cfg). lia.
  - destruct (create_connection_with_retry _ _ _); (apply Hstep; [done|left; cbn; lia]).
  - apply Hstep; [done|left]. rewrite add_to_pool_connections, decide_True, zlen_app by done.
    change (zlen [_]) with 1. cbn. lia.
  - apply Hstep; [done|left; cbn; lia].
Qed.
End lemmas.

(** ** Properties *)

Section properties.
Context (checked : bool) `{MapIter} `{Countable SocketAddr}.
Implicit Types (p q : SocketAddr) (e : PooledConnection SocketAddr) (self : ConnectionPool SocketAddr).

(** As long as calls follow one another, the pool keeps its limits: whatever is
    asked, cleaned, closed or lost, no peer has more connections than configured and
    all peers together have not more than the total. *)
Theorem limits_respected cfg (evs : list (PoolEvent (SocketAddr := SocketAddr))) :
  1 ≤ max_connections_per_peer cfg → 0 ≤ max_total_connections cfg →
  let self := pool_events checked (new_pool cfg) evs in
  (∀ p, zlen (peer_connections self p) ≤ max_connections_per_peer cfg) ∧
  total_connections self ≤ max_total_connections cfg.
Proof.
  intros Hper Htot. enough (∀ self, pool_config self = cfg → limited self →
    pool_config (pool_events checked self evs) = cfg ∧ limited (pool_events checked self evs)) as Hall.
  { destruct (Hall (new_pool cfg)) as [Hc [Hp Ht]]; [done| |by rewrite Hc in Hp, Ht].
    split; [intros q; change (0 ≤ max_connections_per_peer cfg); lia|].
    unfold total_connections. cbn [connections new_pool]. rewrite map_iter_empty. exact Htot. }
  induction evs as [|ev evs IH]; intros self Hc Hl; [done|]. cbn [pool_events foldl].
  assert (pool_config (pool_event checked self ev) = cfg ∧ limited (pool_event checked self ev)) as [? ?]; [|by apply IH].
  assert ((∀ p now connect, ev ≠ Get p now connect) → pool_config (pool_event checked self ev) = cfg ∧
    limited (pool_event checked self ev)) as Hshrink.
  { intros Hev. pose proof (shrinks_event checked self ev Hev) as Hs.
    split; [by rewrite (proj1 Hs)|by eapply limited_shrinks]. }
  destruct ev as [p now connect| | | | |]; try (by apply Hshrink).
  cbn [pool_event]. split; [|apply limited_get; [by rewrite Hc|done]].
  by destruct (get_connection_cases checked p now connect self).
Qed.

(** Clients at the same time can exceed the limit for a peer, by as many as there
    are clients less one: between looking at the limit and adding the connection the
    lock is free. *)
Theorem concurrent_gets_bound p self (n : nat) schedule : (1 ≤ n)%nat →
  1 ≤ max_connections_per_peer (pool_config self) →
  zlen (peer_connections self p) ≤ max_connections_per_peer (pool_config self) →
  zlen (peer_connections (get_all checked p (self, repeat Finding n) schedule).1 p)
    ≤ max_connections_per_peer (pool_config self) + (Z.of_nat n - 1).
Proof.
  intros Hn Hmax Hlen.
  assert (crowded p (self, repeat Finding n) (Z.of_nat n)) as Hstart.
  { split; cbn [fst snd]; [unfold zlen; by rewrite repeat_length|].
    assert (admissions (repeat Finding n) = 0) as -> by (unfold admissions; clear; by induction n).
    lia. }
  enough (pool_config (get_all checked p (self, repeat Finding n) schedule).1 = pool_config self ∧
    crowded p (get_all checked p (self, repeat Finding n) schedule) (Z.of_nat n)) as (Hc & _ & Hb).
  { pose proof (zlen_nonneg (filter (λ g, admitted g = true) (get_all checked p (self, repeat Finding n) schedule).2)).
    unfold admissions in Hb. rewrite Hc in Hb. lia. }
  revert Hstart. generalize (self, repeat Finding n) (eq_refl : pool_config (self, repeat Finding n).1 = pool_config self).
  induction schedule as [|t ts IH]; intros x Hx Hcr; [done|].
  destruct (crowded_turn checked p _ _ x t Hmax Hx Hcr). by apply IH.
Qed.

(** A pool hands out each of its connections twice and no more, once when it is
    made and once again: nothing tells it that a client is done. As long as no
    connection is lost, the first [2 * max_connections_per_peer] calls for a peer
    succeed, and every later one fails. *)
Theorem gets_run_out cfg p (gets : list (Z * (Z → Attempt))) :
  1 ≤ max_connections_per_peer cfg ≤ max_total_connections cfg → 1 ≤ max_retry_attempts cfg →
  Forall (λ g, ∃ c, g.2 1 = Connects c) gets →
  ∀ i r, (run_gets checked p gets (new_pool cfg)).2 !! i = Some r →
    is_ok r = bool_decide (Z.of_nat i < 2 * max_connections_per_peer cfg).
Proof.
  intros Hmax Hretry.
  enough (∀ self, only p self → pool_config self = cfg → zlen (peer_connections self p) ≤ max_connections_per_peer cfg →
    0 ≤ credit p self → Forall (λ g, ∃ c, g.2 1 = Connects c) gets → ∀ i r, (run_gets checked p gets self).2 !! i = Some r →
    is_ok r = bool_decide (Z.of_nat i < credit p self)) as Hall.
  { intros Hg i r Hr. rewrite (Hall (new_pool cfg)) with (i := i) (r := r); try done.
    - apply bool_decide_ext. change (credit p (new_pool cfg)) with (2 * (max_connections_per_peer cfg - 0) + 0). lia.
    - change (0 ≤ max_connections_per_peer cfg). lia.
    - change (0 ≤ 2 * (max_connections_per_peer cfg - 0) + 0). lia. }
  induction gets as [|[now connect] gets IH]; intros self Honly Hcfg Hlen Hcr Hg i r Hr; [done|].
  apply Forall_cons in Hg as [Hc Hg]. cbn [run_gets] in Hr.
  pose proof (get_credit checked p now connect self) as Hget. rewrite Hcfg in Hget.
  specialize (Hget Hlen Hmax Hretry Hc Honly).
  destruct (get_connection checked p now connect self) as [self1 r1].
  destruct Hget as (Honly1 & Hcfg1 & Hlen1 & _ & Hok & Hcr1).
  destruct (run_gets checked p gets self1) as [self2 rs] eqn:Hrun. destruct i as [|i]; cbn in Hr.
  - injection Hr as <-. exact Hok.
  - assert (0 ≤ credit p self1) by (rewrite Hcr1, Hok; case_bool_decide; lia).
    rewrite (IH self1 Honly1) with (i := i) (r := r) by (done || by rewrite Hrun).
    apply bool_decide_ext. rewrite Hcr1, Hok. case_bool_decide; lia.
Qed.

(** A pass of the cleanup closes exactly the idle connections unused for longer
    than configured, keeps exactly the others that are open, and leaves no peer
    without connections in the map. *)
Theorem cleanup_spec now self : cleaning self = true →
  let self' := cleanup now self in
  (∀ c, c ∈ closed self' ↔ c ∈ closed self ∨
    ∃ p e, e ∈ peer_connections self p ∧ stale now self e = true ∧ c = connection e) ∧
  (∀ p e, e ∈ peer_connections self' p → e ∈ peer_connections self p ∧ stale now self e = false) ∧
  (∀ p e, e ∈ peer_connections self p → stale now self e = false → connection e ∉ closed self' →
    e ∈ peer_connections self' p) ∧
  (∀ p, connections self' !! p ≠ Some []).
Proof. intros Hon. by destruct (cleanup_facts now self Hon) as (? & _ & ? & ? & ?). Qed.

(** The client that made a connection does not count as using it: unless another
    client got it in between, the first cleanup after the idle time closes it. *)
Theorem created_connection_is_closed p now now' connect self self' c : cleaning self = true →
  Forall (λ e, usable (closed self) e = false) (peer_connections self p) →
  get_connection checked p now connect self = (self', Ok c) →
  max_idle_time (pool_config self) < now' - now → c ∈ closed (cleanup now' self').
Proof.
  intros Hon Hf Hget Hidle. pose proof (get_connection_cases checked p now connect self) as Hcase.
  rewrite Hget in Hcase. inversion Hcase as [l1 e l2 Hl _ He| |r _ _ _ Hr|c' _ _ Hc]; subst; [|done|].
  - exfalso. unfold peer_connections in Hf. rewrite Hl in Hf. cbn in Hf.
    apply Forall_app in Hf as [_ [Hf _]%Forall_cons]. congruence.
  - apply cleanup_facts; [done|]. right. exists p, (pooled c p now).
    rewrite add_to_pool_connections, decide_True by done. split_and!; [|..|done].
    + apply elem_of_app. right. by left.
    + unfold stale, is_stale. cbn. by rewrite (proj2 (Z.ltb_lt _ _)).
Qed.

(** With attempts and delays in range, connecting gives the connection of the first
    attempt that succeeds, and after the last one its error; a timeout is an error
    like another. *)
Theorem create_connection_spec cfg connect : retries_fit cfg → 1 ≤ max_retry_attempts cfg →
  create_connection_with_retry checked cfg connect =
    match first_connected connect (Z.to_nat (max_retry_attempts cfg)) 1 with
    | Some c => Ok c
    | None => Err (failure_of (connect (max_retry_attempts cfg)))
    end.
Proof.
  intros Hfit Hm. unfold create_connection_with_retry. rewrite create_loop_spec by (done || lia).
  destruct (first_connected _ _ _); [done|]. by rewrite decide_False by lia.
Qed.
End properties.

(** ** A concrete pool *)

Module Examples.
#[local] Existing Instance gmap_order.
Definition config : PoolConfig :=
  {| max_connections_per_peer := 1; max_total_connections := 2; max_idle_time := 300; connect_timeout := 10;
     max_retry_attempts := 3; retry_delay := 5 |}.
Definition peer : string := "10.0.0.2:9990".
Definition reach (c : conn) : Z → Attempt := λ _, Connects c.
Definition third (c : conn) : Z → Attempt := λ k, if k =? 3 then Connects c else if k =? 1 then Refused QTimeout else TimedOut.

Lemma limits_respected_witness :
  let self := pool_events true (new_pool config)
    [Get peer 0 (reach 1); Get "b"%string 1 (reach 2); Get "c"%string 2 (reach 3); Lose 1; Cleanup 3; Get peer 4 (reach 4)] in
  connections self = <["b"%string := [pooled 2 "b"%string 1]]> {[peer := [pooled 4 peer 4]]} ∧
  (∀ p, zlen (peer_connections self p) ≤ 1) ∧ total_connections self ≤ 2.
Proof. split; [by vm_compute|]. apply limits_respected; by cbn. Defined.

(** Three clients look at the limit before any of them adds its connection. *)
Definition crowd : list (nat * Z * (Z → Attempt)) :=
  concat (repeat [(0%nat, 0, reach 1); (1%nat, 0, reach 2); (2%nat, 0, reach 3)] 4).
Lemma concurrent_gets_bound_witness :
  zlen (peer_connections (get_all true peer (new_pool config, repeat Finding 3) crowd).1 peer) = 3 ∧
  zlen (peer_connections (get_all true peer (new_pool config, repeat Finding 3) crowd).1 peer) ≤ 1 + (3 - 1).
Proof. split; [by vm_compute|]. apply (concurrent_gets_bound true peer (new_pool config) 3 crowd); cbn; (lia || done). Defined.

Lemma gets_run_out_witness :
  map is_ok (run_gets true peer [(0, reach 1); (1, reach 2); (2, reach 3); (3, reach 4)] (new_pool config)).2
    = [true; true; false; false] ∧
  ∀ i r, (run_gets true peer [(0, reach 1); (1, reach 2); (2, reach 3); (3, reach 4)] (new_pool config)).2 !! i = Some r →
    is_ok r = bool_decide (Z.of_nat i < 2 * 1).
Proof.
  split; [by vm_compute|]. apply (gets_run_out true config peer); cbn; [lia|lia|].
  repeat constructor; by eexists.
Defined.

Definition filled : ConnectionPool string := (get_connection true peer 0 (reach 1) (new_pool config)).1.
Lemma cleanup_spec_witness :
  (1%positive ∈ closed (cleanup 301 filled) ↔ 1%positive ∈ closed filled ∨
    ∃ p e, e ∈ peer_connections filled p ∧ stale 301 filled e = true ∧ 1%positive = connection e) ∧
  connections (cleanup 301 filled) = ∅ ∧ connections (cleanup 300 filled) = connections filled.
Proof. split; [by apply (cleanup_spec 301 filled)|by vm_compute]. Defined.

Lemma created_connection_is_closed_witness : 1%positive ∈ closed (cleanup 301 filled).
Proof.
  apply (created_connection_is_closed true peer 0 301 (reach 1) (new_pool config) filled 1%positive);
    [done|constructor|by vm_compute|by cbn].
Defined.

Lemma create_connection_spec_witness :
  create_connection_with_retry true config (third 7) = Ok 7%positive ∧
  first_connected (third 7) 3 1 = Some 7%positive.
Proof.
  split; [|reflexivity]. rewrite (create_connection_spec true config (third 7)); [reflexivity| |by cbn].
  repeat split; by cbn.
Defined.
End Examples.
