(* ===== verification/Reconnect.v ===== *)
(** The reconnection manager: landro-quic/src/reconnection_manager.rs.

    One task for each peer that failed; it takes turns with the calls of the manager
    and with the tasks of other peers. A turn goes from one lock to the next. Times
    are nanoseconds of the monotonic clock. The floats of the delays are parameters:
    [scale], the delay in milliseconds times the multiplier, and for each attempt
    the milliseconds of jitter. *)

From S2P Require Import Prelude Resilience Pool.
From Stdlib Require Import ZArith Lia.
From stdpp Require Import base option list gmap sets strings pretty numbers sorting.
Open Scope Z_scope.

Inductive ConnectionState := Connected | Connecting | Reconnecting | Failed | Backoff.
#[export] Instance ConnectionState_eq_dec : EqDecision ConnectionState.
Proof. solve_decision. Defined.

(** Durations and instants. *)
Definition from_millis (ms : Z) : Z := ms * 10 ^ 6.
Definition as_millis (d : Z) : Z := d / 10 ^ 6.

Record ReconnectionConfig := {
  initial_retry_delay : Z;
  max_retry_delay : Z;
  scale : Z → Z;
  max_attempts : Z;
  connection_timeout : Z;
  health_check_interval : Z;
  enable_jitter : bool;
}.

Record PeerConnectionState {SocketAddr : Type} := {
  peer : SocketAddr;
  state : ConnectionState;
  retry_count : Z;
  last_attempt : option Z;
  last_success : option Z;
  current_delay : Z;
  conn_of : option conn;
  failure_reason : option string;
}.
Arguments PeerConnectionState : clear implicits.

(** Where the task of a peer is: before the check, before the update of the state,
    in the attempt, before it adds the connection to the pool, before it reads the
    delay, asleep until a time, before it removes itself. A task that panicked stays
    registered. *)
Inductive TaskPoint :=
  | Checking | Starting | Attempting | Pooling (c : conn) | Delaying | Sleeping (until : Z) | Removing | Panicked.
#[export] Instance TaskPoint_eq_dec : EqDecision TaskPoint.
Proof. solve_decision. Defined.

Record ReconnectionManager `{Countable SocketAddr} := {
  pool : ConnectionPool SocketAddr;
  config : ReconnectionConfig;
  peer_states : gmap SocketAddr (PeerConnectionState SocketAddr);
  active_reconnections : gmap SocketAddr TaskPoint;
  running : bool;
}.
Arguments ReconnectionManager SocketAddr {_ _}.

Record ReconnectionStats := {
  total_peers : Z;
  connected_peers : Z;
  reconnecting_peers : Z;
  failed_peers : Z;
  total_reconnections : Z;
  successful_reconnections : Z;
}.

Section manager.
Context (checked : bool) `{MapIter} `{Countable SocketAddr}.
Implicit Types (p : SocketAddr).
Abbreviation peer_state := (PeerConnectionState SocketAddr).
Abbreviation manager := (ReconnectionManager SocketAddr).

(** ** The state of a peer *)

Definition peer_new p (now : Z) : peer_state :=
  {| peer := p; state := Connected; retry_count := 0; last_attempt := None; last_success := Some now;
     current_delay := from_millis 100; conn_of := None; failure_reason := None |}.
Definition is_ready_for_retry (cfg : ReconnectionConfig) (now : Z) (s : peer_state) : bool :=
  if max_attempts cfg <=? retry_count s then false
  else match last_attempt s with
       | Some last => current_delay s <=? now - last
       | None => true
       end.
(** What is done when the jitter overflows stays done. *)
Definition start_retry_attempt (cfg : ReconnectionConfig) (now jitter_ms : Z) (s : peer_state) :
    peer_state * outcome QuicError unit :=
  match arith checked 32 (retry_count s + 1) with
  | Ok n =>
      let delay := Z.min (from_millis (scale cfg (as_millis (current_delay s)))) (max_retry_delay cfg) in
      let started delay := {| peer := peer s; state := Reconnecting; retry_count := n; last_attempt := Some now;
        last_success := last_success s; current_delay := delay; conn_of := conn_of s;
        failure_reason := failure_reason s |} in
      if enable_jitter cfg then
        match arith checked 64 (wrap 64 (as_millis delay) + jitter_ms) with
        | Ok ms => (started (from_millis ms), Ok tt)
        | Err e => (started delay, Err e)
        | Panic => (started delay, Panic)
        end
      else (started delay, Ok tt)
  | Err e => (s, Err e)
  | Panic => (s, Panic)
  end.
Definition mark_success (now : Z) (c : conn) (s : peer_state) : peer_state :=
  {| peer := peer s; state := Connected; retry_count := 0; last_attempt := last_attempt s;
     last_success := Some now; current_delay := from_millis 100; conn_of := Some c; failure_reason := None |}.
Definition mark_failed (reason : string) (s : peer_state) : peer_state :=
  {| peer := peer s; state := Failed; retry_count := retry_count s; last_attempt := last_attempt s;
     last_success := last_success s; current_delay := current_delay s; conn_of := None;
     failure_reason := Some reason |}.
Definition set_state (st : ConnectionState) (s : peer_state) : peer_state :=
  {| peer := peer s; state := st; retry_count := retry_count s; last_attempt := last_attempt s;
     last_success := last_success s; current_delay := current_delay s; conn_of := conn_of s;
     failure_reason := failure_reason s |}.

(** ** The manager *)

Definition new_manager (pl : ConnectionPool SocketAddr) (cfg : ReconnectionConfig) : manager :=
  {| pool := pl; config := cfg; peer_states := ∅; active_reconnections := ∅; running := false |}.
Definition set_peers (f : gmap SocketAddr peer_state → gmap SocketAddr peer_state) (self : manager) : manager :=
  {| pool := pool self; config := config self; peer_states := f (peer_states self);
     active_reconnections := active_reconnections self; running := running self |}.
Definition set_active (f : gmap SocketAddr TaskPoint → gmap SocketAddr TaskPoint) (self : manager) : manager :=
  {| pool := pool self; config := config self; peer_states := peer_states self;
     active_reconnections := f (active_reconnections self); running := running self |}.
Definition set_running (r : bool) (self : manager) : manager :=
  {| pool := pool self; config := config self; peer_states := peer_states self;
     active_reconnections := active_reconnections self; running := r |}.
Definition set_pool (f : ConnectionPool SocketAddr → ConnectionPool SocketAddr) (self : manager) : manager :=
  {| pool := f (pool self); config := config self; peer_states := peer_states self;
     active_reconnections := active_reconnections self; running := running self |}.

Definition start (self : manager) : manager := if running self then self else set_running true self.
(** The tasks that are aborted do not run any more. *)
Definition stop (self : manager) : manager := set_active (λ _, ∅) (set_running false self).
Definition entry p (now : Z) (self : manager) : peer_state := default (peer_new p now) (peer_states self !! p).
Definition track_peer p (c : conn) (now : Z) (self : manager) : manager :=
  set_peers <[p := mark_success now c (entry p now self)]> self.
Definition is_reconnection_active p (self : manager) : bool := bool_decide (is_Some (active_reconnections self !! p)).
Definition start_reconnection_task p : manager → manager := set_active <[p := Checking]>.
(** The states stay locked over all of it. *)
Definition report_connection_failure p (reason : string) (now : Z) (self : manager) : manager :=
  let self := set_peers <[p := mark_failed reason (entry p now self)]> self in
  if is_reconnection_active p self then self else start_reconnection_task p self.
Definition get_peer_state p (self : manager) : option peer_state := peer_states self !! p.
Definition get_all_peer_states (self : manager) : gmap SocketAddr peer_state := peer_states self.
(** A tick of the monitoring task: the connections found closed, which are only logged. *)
Definition monitor_tick (self : manager) : list SocketAddr :=
  if running self then
    omap (λ '(p, s), match conn_of s with
                     | Some c => if bool_decide (c ∈ closed (pool self)) then Some p else None
                     | None => None
                     end) (map_iter (peer_states self))
  else [].

(** ** The task of a peer *)

Definition should_continue (cfg : ReconnectionConfig) (now : Z) (s : peer_state) : bool :=
  is_ready_for_retry cfg now s && negb (bool_decide (state s = Connected)).
(** A turn of the task of [p] at [now]; [attempt] is what connecting gave, [jitter]
    what was drawn. *)
Definition goto p (t : TaskPoint) : manager → manager := set_active <[p := t]>.
Definition task_step p (now : Z) (attempt : Attempt) (jitter : Z) (self : manager) : manager :=
  match active_reconnections self !! p with
  | Some Checking =>
      if match peer_states self !! p with Some s => should_continue (config self) now s | None => false end
      then goto p Starting self else goto p Removing self
  | Some Starting =>
      match peer_states self !! p with
      | Some s =>
          let '(s, r) := start_retry_attempt (config self) now jitter s in
          goto p (if is_ok r then Attempting else Panicked) (set_peers <[p := s]> self)
      | None => goto p Attempting self
      end
  | Some Attempting =>
      match attempt with
      | Connects c =>
          goto p (Pooling c) (match peer_states self !! p with
                              | Some s => set_peers <[p := mark_success now c s]> self
                              | None => self
                              end)
      | Refused e =>
          match peer_states self !! p with
          | Some s =>
              if max_attempts (config self) <=? retry_count s
              then goto p Removing (set_peers <[p := mark_failed ("Max retry attempts exceeded: " +:+ quic_error_text e) s]> self)
              else goto p Delaying (set_peers <[p := set_state Backoff s]> self)
          | None => goto p Delaying self
          end
      | TimedOut =>
          goto p Delaying (match peer_states self !! p with
                           | Some s => set_peers <[p := set_state Backoff s]> self
                           | None => self
                           end)
      end
  | Some (Pooling c) => goto p Removing (set_pool (add_to_pool p c now) self)
  | Some Delaying =>
      let delay := match peer_states self !! p with Some s => current_delay s | None => 5 * 10 ^ 9 end in
      goto p (Sleeping (now + delay)) self
  | Some (Sleeping until) => if until <=? now then goto p Checking self else self
  | Some Removing => set_active (delete p) self
  | Some Panicked | None => self
  end.

Definition stats_of (self : manager) (stats : ReconnectionStats) '((p, s) : SocketAddr * peer_state) : ReconnectionStats :=
  {| total_peers := total_peers stats;
     connected_peers := connected_peers stats + (if bool_decide (state s = Connected) then 1 else 0);
     reconnecting_peers := reconnecting_peers stats;
     failed_peers := failed_peers stats + (if bool_decide (state s = Failed) then 1 else 0);
     total_reconnections := total_reconnections stats + retry_count s;
     successful_reconnections := successful_reconnections stats +
       (if bool_decide (state s = Connected) && (0 <? retry_count s) then 1 else 0) |}.
Definition get_reconnection_stats (self : manager) : ReconnectionStats :=
  foldl (stats_of self)
    {| total_peers := zlen (map_iter (peer_states self)); connected_peers := 0;
       reconnecting_peers := zlen (map_iter (active_reconnections self)); failed_peers := 0;
       total_reconnections := 0; successful_reconnections := 0 |}
    (map_iter (peer_states self)).

(** ** Everything together *)

Inductive Event :=
  | Track p (c : conn) (now : Z)
  | Report p (reason : string) (now : Z)
  | Turn p (now : Z) (attempt : Attempt) (jitter : Z)
  | Start
  | Stop.
Definition run_event (self : manager) (ev : Event) : manager :=
  match ev with
  | Track p c now => track_peer p c now self
  | Report p reason now => report_connection_failure p reason now self
  | Turn p now attempt jitter => task_step p now attempt jitter self
  | Start => start self
  | Stop => stop self
  end.
Definition run_events : manager → list Event → manager := foldl run_event.
(** The attempts to connect to [p] that end in the events. *)
Definition attempt_of p (self : manager) (ev : Event) : Z :=
  match ev with
  | Turn q _ _ _ => if bool_decide (q = p ∧ active_reconnections self !! p = Some Attempting) then 1 else 0
  | _ => 0
  end.
Fixpoint attempts_to p (evs : list Event) (self : manager) : Z :=
  match evs with
  | [] => 0
  | ev :: evs => attempt_of p self ev + attempts_to p evs (run_event self ev)
  end.

(** The task of [p] alone, as fast as it can: the [k]-th attempt from now on gives an
    outcome after some time, with some jitter drawn before. *)
Record Try := { outcome_of : Attempt; takes : Z; drawn : Z }.
Fixpoint alone p (fuel : nat) (now : Z) (try : nat → Try) (k : nat) (self : manager) : Z * manager :=
  match fuel with
  | O => (now, self)
  | S fuel =>
      match active_reconnections self !! p with
      | None | Some Panicked => (now, self)
      | Some Attempting =>
          let now := now + takes (try k) in
          alone p fuel now try (S k) (task_step p now (outcome_of (try k)) 0 self)
      | Some (Sleeping until) =>
          let now := Z.max now until in alone p fuel now try k (task_step p now TimedOut 0 self)
      | Some _ => alone p fuel now try k (task_step p now TimedOut (drawn (try k)) self)
      end
  end.
End manager.

(** ** Lemmas *)

Section lemmas.
Context (checked : bool) `{MapIter} `{Countable SocketAddr}.
Implicit Types (p q : SocketAddr) (self : ReconnectionManager SocketAddr) (s : PeerConnectionState SocketAddr).

(** Retries are counted up to the maximum, none while a peer is connected; a task
    has a state to work on, and retries left when it starts an attempt. *)
Definition peer_ok (cfg : ReconnectionConfig) s : Prop :=
  0 ≤ retry_count s ≤ max_attempts cfg ∧ (state s = Connected → retry_count s = 0).
Definition consistent self : Prop :=
  0 ≤ max_attempts (config self) < 2 ^ 32 ∧
  (∀ p s, peer_states self !! p = Some s → peer_ok (config self) s) ∧
  (∀ p t, active_reconnections self !! p = Some t →
    ∃ s, peer_states self !! p = Some s ∧ (t = Starting → retry_count s < max_attempts (config self))).

Lemma start_retry_spec cfg now jitter s : 0 ≤ retry_count s < 2 ^ 32 - 1 →
  let '(s', r) := start_retry_attempt checked cfg now jitter s in
  retry_count s' = retry_count s + 1 ∧ state s' = Reconnecting.
Proof.
  intros Hs. unfold start_retry_attempt. rewrite arith_exact by lia.
  destruct (enable_jitter cfg); [|done]. by destruct (arith checked 64 _).
Qed.
Lemma consistent_set_peer self p s : consistent self → peer_ok (config self) s →
  (active_reconnections self !! p = Some Starting → retry_count s < max_attempts (config self)) →
  consistent (set_peers <[p := s]> self).
Proof.
  intros (Hm & Hp & Ha) Hs Ht. split; [done|split]; cbn.
  - intros q s'. destruct (decide (q = p)) as [->|Hq].
    + rewrite lookup_insert_eq. by intros [= <-].
    + rewrite lookup_insert_ne by done. apply Hp.
  - intros q t Hq. destruct (decide (q = p)) as [->|Hne].
    + exists s. rewrite lookup_insert_eq. split; [done|]. intros ->. auto.
    + rewrite lookup_insert_ne by done. by apply Ha.
Qed.
Lemma consistent_goto self p t s : consistent self → peer_states self !! p = Some s →
  (t = Starting → retry_count s < max_attempts (config self)) → consistent (goto p t self).
Proof.
  intros (Hm & Hp & Ha) Hs Ht. split; [done|split; [done|]]. cbn. intros q t'.
  destruct (decide (q = p)) as [->|Hq].
  - rewrite lookup_insert_eq. intros [= <-]. by exists s.
  - rewrite lookup_insert_ne by done. apply Ha.
Qed.
Lemma consistent_goto_set self p t s : consistent self → peer_ok (config self) s →
  (t = Starting → retry_count s < max_attempts (config self)) → consistent (goto p t (set_peers <[p := s]> self)).
Proof.
  intros (Hm & Hp & Ha) Hs Ht. split; [done|split]; cbn.
  - intros q s'. destruct (decide (q = p)) as [->|Hq].
    + rewrite lookup_insert_eq. by intros [= <-].
    + rewrite lookup_insert_ne by done. apply Hp.
  - intros q t'. destruct (decide (q = p)) as [->|Hq].
    + rewrite !lookup_insert_eq. intros [= <-]. by exists s.
    + rewrite !lookup_insert_ne by done. apply Ha.
Qed.
Lemma peer_ok_new cfg p now : 0 ≤ max_attempts cfg → peer_ok cfg (peer_new p now).
Proof. intros. split; [cbn; lia|done]. Qed.
Lemma peer_ok_success cfg now c s : 0 ≤ max_attempts cfg → peer_ok cfg (mark_success now c s).
Proof. intros. split; [cbn; lia|done]. Qed.
Lemma peer_ok_state cfg s s' : peer_ok cfg s → retry_count s' = retry_count s → state s' ≠ Connected → peer_ok cfg s'.
Proof. intros [Hr _] E Hn. split; [by rewrite E|done]. Qed.
Lemma entry_ok self p now : consistent self → peer_ok (config self) (entry p now self).
Proof.
  intros (Hm & Hp & _). unfold entry. destruct (peer_states self !! p) eqn:E; cbn; [by eapply Hp|].
  apply peer_ok_new. lia.
Qed.
Lemma consistent_step p now attempt jitter self : consistent self →
  consistent (task_step checked p now attempt jitter self).
Proof.
  intros Hc. pose proof Hc as (Hm & Hp & Ha). unfold task_step.
  destruct (active_reconnections self !! p) as [t|] eqn:Ht; [|done].
  destruct (Ha p t Ht) as (s & Hs & Hstart). pose proof (Hp p s Hs) as Hok. rewrite ?Hs.
  destruct t as [| | |c| |until| |].
  - destruct (should_continue (config self) now s) eqn:Hgo; eapply consistent_goto; try done.
    intros _. unfold should_continue, is_ready_for_retry in Hgo.
    destruct (Z.leb_spec (max_attempts (config self)) (retry_count s)); done.
  - specialize (Hstart eq_refl). destruct Hok as [Hr _].
    pose proof (start_retry_spec (config self) now jitter s ltac:(lia)) as Hspec.
    destruct (start_retry_attempt checked (config self) now jitter s) as [s' r]. destruct Hspec as [Hn Hst].
    apply consistent_goto_set; [done| |by destruct (is_ok r)].
    split; [lia|]. by rewrite Hst.
  - destruct attempt as [c|e|].
    + apply consistent_goto_set; [done|apply peer_ok_success; lia|done].
    + destruct (max_attempts (config self) <=? retry_count s);
        (apply consistent_goto_set; [done|by eapply peer_ok_state|done]).
    + apply consistent_goto_set; [done|by eapply peer_ok_state|done].
  - by eapply consistent_goto.
  - by eapply consistent_goto.
  - destruct (until <=? now); [by eapply consistent_goto|done].
  - split; [done|split; [done|]]. cbn. intros q t' [_ Hq]%lookup_delete_Some. by apply Ha.
  - done.
Qed.
Lemma consistent_event ev self : consistent self → consistent (run_event checked self ev).
Proof.
  intros Hc. pose proof Hc as (Hm & Hp & Ha). destruct ev as [p c now|p reason now|p now attempt jitter| |]; cbn [run_event].
  - apply consistent_set_peer; [done|apply peer_ok_success; lia|].
    intros Hst. destruct (Ha p _ Hst) as (s & Hs & Hlt). pose proof (Hp p s Hs) as [? _].
    specialize (Hlt eq_refl). cbn. lia.
  - pose proof (entry_ok self p now Hc) as Hok.
    assert (consistent (set_peers <[p := mark_failed reason (entry p now self)]> self)) as Hc'.
    { apply consistent_set_peer; [done|by eapply peer_ok_state|]. intros Hst.
      destruct (Ha p _ Hst) as (s & Hs & Hlt). unfold entry. rewrite Hs. by apply Hlt. }
    unfold report_connection_failure. destruct (is_reconnection_active _ _); [done|].
    eapply (consistent_goto _ p Checking); [done|apply lookup_insert_eq|done].
  - by apply consistent_step.
  - unfold start. by destruct (running self).
  - split; [done|split; [done|]]. cbn. intros q t. by rewrite lookup_empty.
Qed.
Lemma consistent_events evs self : consistent self → consistent (run_events checked self evs).
Proof. revert self. induction evs as [|ev evs IH]; intros self Hc; [done|]. cbn. by apply IH, consistent_event. Qed.

Lemma consistent_alone p try fuel : ∀ now k self, consistent self → consistent (alone checked p fuel now try k self).2.
Proof.
  induction fuel as [|fuel IH]; intros now k self Hc; [done|]. cbn [alone].
  destruct (active_reconnections self !! p) as [[]|]; try done; by apply IH, consistent_step.
Qed.

(** ** Counting attempts *)

(** The attempts that may still be started, and the one that is under way. *)
Definition left_for p self : Z :=
  max_attempts (config self) - match peer_states self !! p with Some s => retry_count s | None => 0 end.
Definition pending p self : Z :=
  if bool_decide (active_reconnections self !! p = Some Attempting) then 1 else 0.
(** What takes retries from [p] only. *)
Definition no_success p (ev : Event (SocketAddr := SocketAddr)) : Prop :=
  match ev with
  | Track q _ _ => q ≠ p
  | Turn q _ (Connects _) _ => q ≠ p
  | _ => True
  end.
Lemma left_for_set_peer p s self : left_for p (set_peers <[p := s]> self) = max_attempts (config self) - retry_count s.
Proof. unfold left_for. cbn. by rewrite lookup_insert_eq. Qed.
Lemma left_for_goto p q t self : left_for p (goto q t self) = left_for p self.
Proof. done. Qed.
Lemma pending_goto p t self : pending p (goto p t self) = if bool_decide (t = Attempting) then 1 else 0.
Proof.
  unfold pending. cbn. rewrite lookup_insert_eq.
  by rewrite (bool_decide_ext _ (t = Attempting)) by (split; congruence).
Qed.
Lemma pending_range p self : 0 ≤ pending p self ≤ 1.
Proof. unfold pending. case_bool_decide; lia. Qed.
(** A step of another peer leaves [p] alone. *)
Definition same_at p self self' : Prop :=
  config self' = config self ∧ peer_states self' !! p = peer_states self !! p ∧
  active_reconnections self' !! p = active_reconnections self !! p.
Lemma step_other p q now attempt jitter self : q ≠ p → same_at p self (task_step checked q now attempt jitter self).
Proof.
  intros Hq. unfold task_step, same_at.
  destruct (active_reconnections self !! q) as [[]|]; [..|done];
    repeat (case_match; try done); cbn; rewrite ?lookup_insert_ne, ?lookup_delete_ne by done; done.
Qed.
Lemma same_left_pending p self self' : same_at p self self' →
  left_for p self' = left_for p self ∧ pending p self' = pending p self.
Proof. unfold left_for, pending. by intros (-> & -> & ->). Qed.
Lemma attempt_step p now attempt jitter self : consistent self → no_success p (Turn p now attempt jitter) →
  pending p self + left_for p (task_step checked p now attempt jitter self)
    + pending p (task_step checked p now attempt jitter self) ≤ left_for p self + pending p self.
Proof.
  intros Hc Hno. pose proof Hc as (Hm & Hp & Ha).
  assert (active_reconnections self !! p ≠ Some Attempting → pending p self = 0) as Hpend
    by (intros; unfold pending; by rewrite bool_decide_false).
  unfold task_step. destruct (active_reconnections self !! p) as [t|] eqn:Ht; [|rewrite Hpend by done; lia].
  destruct (Ha p t Ht) as (s & Hs & _). rewrite Hs. pose proof (Hp p s Hs) as [Hr _].
  assert (left_for p self = max_attempts (config self) - retry_count s) as Hl by (unfold left_for; by rewrite Hs).
  destruct t as [| | |c| |until| |]; rewrite ?(Hpend ltac:(done)).
  - destruct (should_continue _ _ _); rewrite left_for_goto, pending_goto, bool_decide_false by done; lia.
  - pose proof (start_retry_spec (config self) now jitter s) as Hspec.
    assert (retry_count s < max_attempts (config self)) by (destruct (Ha p _ Ht) as (? & ? & Hlt); specialize (Hlt eq_refl); congruence).
    destruct (start_retry_attempt checked (config self) now jitter s) as [s' r].
    destruct Hspec as [Hn _]; [lia|]. rewrite left_for_goto, left_for_set_peer, pending_goto.
    case_bool_decide; lia.
  - assert (pending p self = 1) by (unfold pending; by rewrite bool_decide_true).
    destruct attempt as [c|e|]; [done|..].
    + destruct (_ <=? _); rewrite left_for_goto, left_for_set_peer, pending_goto, bool_decide_false by done; cbn; lia.
    + rewrite left_for_goto, left_for_set_peer, pending_goto, bool_decide_false by done; cbn; lia.
  - rewrite left_for_goto, pending_goto, bool_decide_false by done. change (left_for p self + 0 ≤ left_for p self + 0). lia.
  - rewrite left_for_goto, pending_goto, bool_decide_false by done. lia.
  - destruct (until <=? now); [rewrite left_for_goto, pending_goto, bool_decide_false by done; lia|].
    rewrite ?(Hpend ltac:(done)). lia.
  - assert (pending p (set_active (delete p) self) = 0) as ->
      by (unfold pending; cbn; by rewrite lookup_delete_eq).
    change (left_for p (set_active (delete p) self)) with (left_for p self). lia.
  - rewrite ?(Hpend ltac:(done)). lia.
Qed.
Lemma attempt_event p ev self : consistent self → no_success p ev →
  attempt_of p self ev + left_for p (run_event checked self ev) + pending p (run_event checked self ev)
    ≤ left_for p self + pending p self.
Proof.
  intros Hc Hno. pose proof (pending_range p self).
  destruct ev as [q c now|q reason now|q now attempt jitter| |]; cbn [run_event attempt_of].
  - assert (same_at p self (track_peer q c now self)) as [-> ->]%same_left_pending; [|lia].
    split_and!; [done| |done]. cbn. by rewrite lookup_insert_ne.
  - assert (left_for p (report_connection_failure q reason now self) = left_for p self) as ->.
    { unfold report_connection_failure. transitivity (left_for p (set_peers <[q := mark_failed reason (entry q now self)]> self));
        [by destruct (is_reconnection_active _ _)|].
      destruct (decide (q = p)) as [->|Hq]; [|unfold left_for; cbn; by rewrite lookup_insert_ne].
      rewrite left_for_set_peer. unfold left_for, entry. by destruct (peer_states self !! p). }
    assert (pending p (report_connection_failure q reason now self) = pending p self) as ->; [|lia].
    unfold report_connection_failure, is_reconnection_active. cbn [active_reconnections set_peers].
    case_bool_decide as Hact; [done|]. destruct (decide (q = p)) as [->|Hq].
    + unfold pending. cbn. rewrite lookup_insert_eq. rewrite !bool_decide_false; [done| |congruence].
      intros Hs. apply Hact. by eexists.
    + unfold pending. cbn. by rewrite lookup_insert_ne.
  - destruct (decide (q = p)) as [->|Hq].
    + pose proof (attempt_step p now attempt jitter self Hc Hno).
      enough ((if bool_decide (p = p ∧ active_reconnections self !! p = Some Attempting) then 1 else 0) ≤ pending p self) by lia.
      unfold pending. case_bool_decide as Hx; [|case_bool_decide; lia]. destruct Hx as [_ Hx].
      by rewrite bool_decide_true.
    + rewrite bool_decide_false by naive_solver.
      pose proof (step_other p q now attempt jitter self Hq) as [-> ->]%same_left_pending. lia.
  - unfold start. destruct (running self); change (left_for p (set_running true self)) with (left_for p self);
      change (pending p (set_running true self)) with (pending p self); lia.
  - change (left_for p (stop self)) with (left_for p self).
    assert (pending p (stop self) = 0) as -> by (unfold pending, stop; cbn; by rewrite lookup_empty). lia.
Qed.
Lemma attempts_left p evs self : consistent self → Forall (no_success p) evs →
  attempts_to checked p evs self + left_for p (run_events checked self evs) ≤ left_for p self + pending p self.
Proof.
  revert self. induction evs as [|ev evs IH]; intros self Hc Hno; cbn [attempts_to run_events foldl].
  { pose proof (pending_range p self). lia. }
  apply Forall_cons in Hno as [Hev Hno].
  pose proof (attempt_event p ev self Hc Hev).
  specialize (IH _ (consistent_event ev self Hc) Hno). fold (run_events checked (run_event checked self ev) evs). lia.
Qed.

(** ** The task alone *)

(** Delays and jitter in range, so that no delay overflows. *)
Definition sane (cfg : ReconnectionConfig) (try : nat → Try) : Prop :=
  (∀ d, 0 ≤ d → 0 ≤ scale cfg d) ∧ 0 ≤ max_retry_delay cfg < 2 ^ 63 ∧
  ∀ k, 0 ≤ drawn (try k) < 2 ^ 63 ∧ 0 ≤ takes (try k).
Lemma start_retry_ok cfg try k now s : sane cfg try → 0 ≤ retry_count s < 2 ^ 32 - 1 → 0 ≤ current_delay s →
  ∃ d, 0 ≤ d ∧ start_retry_attempt checked cfg now (drawn (try k)) s =
    ({| peer := peer s; state := Reconnecting; retry_count := retry_count s + 1; last_attempt := Some now;
        last_success := last_success s; current_delay := d; conn_of := conn_of s;
        failure_reason := failure_reason s |}, Ok tt).
Proof.
  intros (Hscale & Hmax & Htry) Hr Hd. destruct (Htry k) as [Hj _].
  unfold start_retry_attempt. rewrite arith_exact by lia.
  assert (0 ≤ as_millis (current_delay s)) as Hms by (apply Z.div_pos; lia).
  pose proof (Hscale _ Hms) as Hsc.
  set (d := Z.min _ _). assert (0 ≤ d < 2 ^ 63) as Hd' by (unfold d, from_millis; lia).
  destruct (enable_jitter cfg); [|exists d; split; [lia|done]].
  assert (0 ≤ as_millis d < 2 ^ 63) as Hm.
  { unfold as_millis. split; [apply Z.div_pos; lia|]. apply Z.div_lt_upper_bound; lia. }
  rewrite wrap_small, arith_exact by lia. eexists. split; [|done]. unfold from_millis. lia.
Qed.

Definition spot p self s t : Prop := peer_states self !! p = Some s ∧ active_reconnections self !! p = Some t.
Lemma spot_goto p s t t' self : spot p self s t → spot p (goto p t' self) s t'.
Proof. intros [Hs _]. split; [done|]. cbn. apply lookup_insert_eq. Qed.
Lemma spot_set p s t s' self : spot p self s t → spot p (set_peers <[p := s']> self) s' t.
Proof. intros [_ Ht]. split; [|done]. cbn. apply lookup_insert_eq. Qed.
(** What the task leaves alone. *)
Definition others_same p self self' : Prop :=
  config self' = config self ∧ running self' = running self ∧
  ∀ q, q ≠ p → peer_states self' !! q = peer_states self !! q ∧
    active_reconnections self' !! q = active_reconnections self !! q.
Lemma others_same_trans p a b c : others_same p a b → others_same p b c → others_same p a c.
Proof.
  intros (? & ? & Hab) (? & ? & Hbc). split_and!; [congruence..|].
  intros q Hq. destruct (Hab q Hq), (Hbc q Hq). split; congruence.
Qed.
Lemma others_same_step p now attempt jitter self : others_same p self (task_step checked p now attempt jitter self).
Proof.
  unfold task_step, others_same. destruct (active_reconnections self !! p) as [[]|]; [..|done];
    repeat (case_match; try done); cbn; (split_and!; [done..|]); intros q Hq;
    rewrite ?lookup_insert_ne, ?lookup_delete_ne by done; done.
Qed.

(** Up to the attempt, the attempt itself, and from a failed attempt to the next check. *)
Lemma alone_attempts p fuel now try k self s : sane (config self) try → 0 ≤ retry_count s < 2 ^ 32 - 1 →
  0 ≤ current_delay s → spot p self s Checking → should_continue (config self) now s = true →
  ∃ s' self', alone checked p (S (S fuel)) now try k self = alone checked p fuel now try k self' ∧
    spot p self' s' Attempting ∧ others_same p self self' ∧ pool self' = pool self ∧
    retry_count s' = retry_count s + 1 ∧ 0 ≤ current_delay s' ∧ last_attempt s' = Some now.
Proof.
  intros Hsane Hr Hd [Hs Ht] Hgo.
  destruct (start_retry_ok (config self) try k now s Hsane Hr Hd) as (d & Hd' & Hstart).
  cbn [alone]. rewrite Ht.
  assert (task_step checked p now TimedOut (drawn (try k)) self = goto p Starting self) as E
    by (unfold task_step; by rewrite Ht, Hs, Hgo).
  rewrite E. destruct (spot_goto p s Checking Starting self (conj Hs Ht)) as [Hs1 Ht1]. rewrite Ht1.
  pose proof (others_same_step p now TimedOut (drawn (try k)) self) as Ho1. rewrite E in Ho1.
  pose proof (others_same_step p now TimedOut (drawn (try k)) (goto p Starting self)) as Ho2.
  unfold task_step in Ho2 |- *. rewrite Ht1, Hs1 in *. change (config (goto p Starting self)) with (config self) in *.
  rewrite Hstart in *. cbn [is_ok] in *.
  eexists _, _. split; [reflexivity|]. split.
  - eapply spot_goto, spot_set. split; [exact Hs1|exact Ht1].
  - split; [by eapply others_same_trans|done].
Qed.
Lemma alone_backoff p fuel now try k self s : spot p self s Delaying → 0 ≤ current_delay s →
  ∃ self', alone checked p (S (S fuel)) now try k self = alone checked p fuel (now + current_delay s) try k self' ∧
    spot p self' s Checking ∧ others_same p self self' ∧ pool self' = pool self.
Proof.
  intros [Hs Ht] Hd. cbn [alone]. rewrite Ht.
  assert (task_step checked p now TimedOut (drawn (try k)) self = goto p (Sleeping (now + current_delay s)) self) as E
    by (unfold task_step; by rewrite Ht, Hs).
  rewrite E. destruct (spot_goto p s Delaying (Sleeping (now + current_delay s)) self (conj Hs Ht)) as [Hs1 Ht1].
  rewrite Ht1, Z.max_r by lia.
  assert (task_step checked p (now + current_delay s) TimedOut 0 (goto p (Sleeping (now + current_delay s)) self)
    = goto p Checking (goto p (Sleeping (now + current_delay s)) self)) as E'
    by (unfold task_step; by rewrite Ht1, Z.leb_refl).
  rewrite E'. eexists. split; [reflexivity|]. split_and!; [|..|done].
  - by eapply spot_goto.
  - pose proof (others_same_step p now TimedOut (drawn (try k)) self) as Ho1. rewrite E in Ho1.
    eapply others_same_trans; [exact Ho1|]. rewrite <- E'. apply others_same_step.
Qed.
Lemma alone_removed p fuel now try k self s : spot p self s Removing →
  let self' := set_active (delete p) self in
  alone checked p (S fuel) now try k self = (now, self') ∧ others_same p self self' ∧
  peer_states self' !! p = Some s ∧ active_reconnections self' !! p = None.
Proof.
  intros [Hs Ht]. cbn [alone]. rewrite Ht.
  assert (task_step checked p now TimedOut (drawn (try k)) self = set_active (delete p) self) as E
    by (unfold task_step; by rewrite Ht).
  rewrite E. assert (active_reconnections (set_active (delete p) self) !! p = None) as Hn by (cbn; apply lookup_delete_eq).
  split_and!; [|rewrite <- E; apply others_same_step|done|done].
  destruct fuel; cbn [alone]; [done|]. by rewrite Hn.
Qed.

(** The first of [n] tries from the [k]-th that connects. *)
Fixpoint winner (try : nat → Try) (n k : nat) : option conn :=
  match n with
  | O => None
  | S n => match outcome_of (try k) with Connects c => Some c | _ => winner try n (S k) end
  end.
(** How the task of [p] ends that started with [s], [n] attempts from the maximum. *)
Definition ended p (try : nat → Try) (n k : nat) self s self' : Prop :=
  active_reconnections self' !! p = None ∧ others_same p self self' ∧
  ∃ s', peer_states self' !! p = Some s' ∧
    match winner try n k with
    | Some c => state s' = Connected ∧ conn_of s' = Some c ∧ retry_count s' = 0 ∧
        ∃ now, pool self' = add_to_pool p c now (pool self)
    | None => retry_count s' = max_attempts (config self) ∧ pool self' = pool self ∧
        (if decide (n = 0%nat) then s' = s
         else state s' = match outcome_of (try (k + n - 1)%nat) with Refused _ => Failed | _ => Backoff end)
    end.
Lemma alone_connected p fuel now try k self s c : spot p self s Attempting → outcome_of (try k) = Connects c →
  let now' := now + takes (try k) in
  let self' := set_active (delete p) (goto p Removing (set_pool (add_to_pool p c now')
    (goto p (Pooling c) (set_peers <[p := mark_success now' c s]> self)))) in
  alone checked p (S (S (S fuel))) now try k self = (now', self') ∧ others_same p self self'.
Proof.
  intros [Hs Ht] Hc. cbn [alone]. rewrite Ht, Hc. set (now' := now + takes (try k)).
  assert (task_step checked p now' (Connects c) 0 self = goto p (Pooling c) (set_peers <[p := mark_success now' c s]> self)) as E
    by (unfold task_step; by rewrite Ht, Hs).
  rewrite E. destruct (spot_goto p _ _ (Pooling c) _ (spot_set p s _ (mark_success now' c s) self (conj Hs Ht))) as [Hs1 Ht1].
  rewrite Ht1. set (self1 := goto p (Pooling c) _) in *.
  assert (task_step checked p now' TimedOut (drawn (try (S k))) self1 = goto p Removing (set_pool (add_to_pool p c now') self1)) as E1
    by (unfold task_step; by rewrite Ht1).
  rewrite E1. set (self2 := goto p Removing _) in *.
  assert (spot p self2 (mark_success now' c s) Removing) as Hspot
    by (by apply (spot_goto p _ (Pooling c) _ (set_pool (add_to_pool p c now') self1))).
  destruct (alone_removed p fuel now' try (S k) self2 _ Hspot) as (Hal & Ho & _).
  split; [exact Hal|]. eapply others_same_trans; [|exact Ho].
  eapply others_same_trans; [|rewrite <- E1; apply others_same_step]. rewrite <- E. apply others_same_step.
Qed.
(** The step after a failed attempt: away, or to the delay. *)
Lemma alone_failed p fuel now try k self s : spot p self s Attempting → (∀ c, outcome_of (try k) ≠ Connects c) →
  let refused := match outcome_of (try k) with Refused _ => true | _ => false end in
  let last := refused && (max_attempts (config self) <=? retry_count s) in
  ∃ self' s', alone checked p (S fuel) now try k self = alone checked p fuel (now + takes (try k)) try (S k) self' ∧
    spot p self' s' (if last then Removing else Delaying) ∧ others_same p self self' ∧ pool self' = pool self ∧
    retry_count s' = retry_count s ∧ current_delay s' = current_delay s ∧ last_attempt s' = last_attempt s ∧
    state s' = (if last then Failed else Backoff).
Proof.
  intros [Hs Ht] Hc. cbn [alone]. rewrite Ht.
  pose proof (others_same_step p (now + takes (try k)) (outcome_of (try k)) 0 self) as Ho.
  unfold task_step in Ho |- *. rewrite Ht, Hs in *.
  destruct (outcome_of (try k)) as [c|e|]; [by destruct (Hc c)|..]; cbn [andb].
  - destruct (max_attempts (config self) <=? retry_count s); eexists _, _; (split; [reflexivity|]);
      (split; [eapply spot_goto, spot_set; split; [exact Hs|exact Ht]|done]).
  - eexists _, _. split; [reflexivity|].
    split; [eapply spot_goto, spot_set; split; [exact Hs|exact Ht]|done].
Qed.
Lemma alone_stops p fuel now try k self s : spot p self s Checking → should_continue (config self) now s = false →
  let self' := (alone checked p (S (S fuel)) now try k self).2 in
  active_reconnections self' !! p = None ∧ others_same p self self' ∧ peer_states self' !! p = Some s ∧
  pool self' = pool self.
Proof.
  intros [Hs Ht] Hgo.
  assert (task_step checked p now TimedOut (drawn (try k)) self = goto p Removing self) as E
    by (unfold task_step; by rewrite Ht, Hs, Hgo).
  assert (alone checked p (S (S fuel)) now try k self = alone checked p (S fuel) now try k (goto p Removing self)) as ->
    by (cbn [alone]; by rewrite Ht, E).
  destruct (alone_removed p fuel now try k (goto p Removing self) s) as (-> & Ho & Hs' & Ht');
    [by eapply spot_goto|].
  split_and!; [exact Ht'| |exact Hs'|done]. eapply others_same_trans; [|exact Ho]. rewrite <- E. apply others_same_step.
Qed.
Lemma alone_ends p try n : ∀ fuel now k self s, (6 * n + 2 ≤ fuel)%nat → sane (config self) try →
  0 ≤ max_attempts (config self) < 2 ^ 32 → 0 ≤ retry_count s → retry_count s + Z.of_nat n = max_attempts (config self) →
  0 ≤ current_delay s → state s ≠ Connected →
  (n = 0%nat ∨ is_ready_for_retry (config self) now s = true) → spot p self s Checking →
  ended p try n k self s (alone checked p fuel now try k self).2.
Proof.
  induction n as [|n IH]; intros fuel now k self s Hfuel Hsane Hm Hr Hn Hd Hst Hready Hspot.
  - assert (fuel = S (S (fuel - 2))) as -> by lia.
    destruct (alone_stops p (fuel - 2) now try k self s Hspot) as (Ht' & Ho & Hs' & Hp').
    { unfold should_continue, is_ready_for_retry. by rewrite (proj2 (Z.leb_le _ _)) by lia. }
    split; [exact Ht'|]. split; [exact Ho|]. exists s. split; [exact Hs'|]. cbn. split; [lia|done].
  - destruct Hready as [?|Hready]; [done|]. assert (fuel = S (S (S (S (S (S (fuel - 6))))))) as -> by lia.
    assert (should_continue (config self) now s = true) as Hgo
      by (unfold should_continue; by rewrite Hready, bool_decide_false).
    destruct (alone_attempts p (S (S (S (S (fuel - 6))))) now try k self s Hsane) as
      (s1 & self1 & -> & Hspot1 & Ho1 & Hp1 & Hr1 & Hd1 & Hl1); [lia|done..|].
    assert ((∃ c, outcome_of (try k) = Connects c) ∨ ∀ c, outcome_of (try k) ≠ Connects c) as [[c Hout]|Hout]
      by (destruct (outcome_of (try k)); [left; by eexists|by right..]).
    + destruct (alone_connected p (S (fuel - 6)) now try k self1 s1 c Hspot1 Hout) as [-> Ho2].
      split; [cbn; apply lookup_delete_eq|]. split; [by eapply others_same_trans|].
      exists (mark_success (now + takes (try k)) c s1). cbn [winner]. rewrite Hout.
      split; [cbn; apply lookup_insert_eq|]. split_and!; [done..|]. cbn. rewrite Hp1. by eexists.
    + pose proof (proj1 Ho1) as Hcfg1.
      assert (winner try (S n) k = winner try n (S k)) as Hwin.
      { cbn [winner]. destruct (outcome_of (try k)) as [c| |]; [by destruct (Hout c)|done..]. }
      destruct (alone_failed p (S (S (S (fuel - 6)))) now try k self1 s1 Hspot1 Hout) as
        (self2 & s2 & -> & Hspot2 & Ho2 & Hp2 & Hr2 & Hd2 & Hl2 & Hst2).
      unfold ended. rewrite Hwin. rewrite Hcfg1 in *.
      destruct (match outcome_of (try k) with Refused _ => true | _ => false end) eqn:Href; cbn [andb] in *.
      1: destruct (max_attempts (config self) <=? retry_count s1) eqn:Hlast.
      { apply Z.leb_le in Hlast. assert (n = 0%nat) as -> by lia.
        destruct (alone_removed p (S (S (fuel - 6))) (now + takes (try k)) try (S k) self2 s2 Hspot2) as (Hal & Ho3 & Hs' & Ht').
        rewrite Hal. split; [exact Ht'|]. split; [by do 2 (eapply others_same_trans; [eassumption|])|].
        exists s2. split; [exact Hs'|]. cbn [winner]. split; [lia|]. split; [cbn; congruence|].
        rewrite decide_False by done. rewrite Hst2. replace (k + 1 - 1)%nat with k by lia.
        by destruct (outcome_of (try k)). }
      1: apply Z.leb_gt in Hlast.
      all: destruct (alone_backoff p (S (fuel - 6)) (now + takes (try k)) try (S k) self2 s2 Hspot2) as
          (self3 & -> & Hspot3 & Ho3 & Hp3); [lia|].
      all: pose proof (others_same_trans p _ _ _ (others_same_trans p _ _ _ Ho1 Ho2) Ho3) as Ho.
      all: pose proof (proj1 Ho) as Hcfg3; pose proof (proj2 (proj2 (proj2 Hsane) k)).
      all: destruct (IH (S (fuel - 6)) (now + takes (try k) + current_delay s2) (S k) self3 s2) as
          (Ht' & Ho' & s' & Hs' & Hres);
        [lia|by rewrite Hcfg3|by rewrite Hcfg3|lia|rewrite Hcfg3; lia|lia|by rewrite Hst2| |exact Hspot3|].
      all: try (destruct n; [by left|right]; unfold is_ready_for_retry;
        rewrite Hcfg3, (proj2 (Z.leb_gt _ _)), Hl2, Hl1 by lia; apply Z.leb_le; lia).
      all: split; [exact Ht'|]; split; [by eapply others_same_trans|]; exists s'; split; [exact Hs'|].
      all: rewrite Hcfg3, Hp3, Hp2, Hp1 in Hres; destruct (winner try n (S k)); [exact Hres|].
      all: destruct Hres as (? & ? & Hres); split; [done|split; [done|]]; rewrite decide_False by done.
      all: destruct n as [|n]; [rewrite decide_True in Hres by done; subst s'|rewrite decide_False in Hres by done;
        by replace (k + S (S n) - 1)%nat with (S k + S n - 1)%nat by lia].
      * lia.
      * rewrite Hst2. replace (k + 1 - 1)%nat with k by lia. by destruct (outcome_of (try k)).
Qed.
End lemmas.

(** ** Properties *)

Section properties.
Context (checked : bool) `{MapIter} `{Countable SocketAddr}.
Implicit Types (p q : SocketAddr) (self : ReconnectionManager SocketAddr).

Lemma new_consistent pl cfg : 0 ≤ max_attempts cfg < 2 ^ 32 → consistent (new_manager (SocketAddr := SocketAddr) pl cfg).
Proof. intros Hm. split; [done|]. split; cbn; intros q ?; by rewrite lookup_empty. Qed.

(** C36: A failure that is reported when the last attempt is far enough back makes the
    peer's task end, for itself: with the first attempt that connects, of as many as
    are left, the peer is connected, its count is zero and the connection is in the
    pool; without one, the count is at the maximum, the pool is unchanged, and the
    peer is given up as failed only if the last attempt was refused: after a timeout
    it stays in backoff for ever. Other peers are as they were. *)
Theorem reconnects_or_gives_up p reason now try fuel self :
  consistent self → sane (config self) try → active_reconnections self !! p = None →
  let s := mark_failed reason (entry p now self) in
  let n := Z.to_nat (max_attempts (config self) - retry_count s) in
  0 ≤ current_delay s → n = 0%nat ∨ is_ready_for_retry (config self) now s = true → (6 * n + 2 ≤ fuel)%nat →
  ended p try n 0 (report_connection_failure p reason now self) s
    (alone checked p fuel now try 0 (report_connection_failure p reason now self)).2.
Proof.
  intros Hc Hsane Hact s n Hd Hready Hfuel. pose proof (entry_ok self p now Hc) as [Hr _]. pose proof Hc as (Hm & _ & _).
  assert (report_connection_failure p reason now self = start_reconnection_task p (set_peers <[p := s]> self)) as ->
    by (unfold report_connection_failure, is_reconnection_active; cbn [active_reconnections set_peers];
        by rewrite Hact, bool_decide_false by by intros [? ?]).
  assert (retry_count s = retry_count (entry p now self)) as Hrs by done.
  apply alone_ends; cbn [config start_reconnection_task set_active set_peers]; try done; [lia|unfold n; lia|].
  split; cbn; [apply lookup_insert_eq|by rewrite lookup_insert_eq].
Qed.

(** Whatever the manager is asked and however its tasks interleave, as long as no
    connection to a peer succeeds, the attempts to connect to it are at most those that
    its count leaves, and the one under way: a peer whose attempts are used up is never
    tried again, however often its failure is reported. *)
Theorem attempts_bounded p evs self : consistent self → Forall (no_success p) evs →
  attempts_to checked p evs self ≤ left_for p self + pending p self ∧
  (left_for p self = 0 → active_reconnections self !! p = None → attempts_to checked p evs self = 0).
Proof.
  intros Hc Hno. pose proof (attempts_left checked p evs self Hc Hno) as Hl.
  assert (0 ≤ left_for p (run_events checked self evs)) as Hnn.
  { destruct (consistent_events checked evs self Hc) as (Hm & Hp & _). unfold left_for.
    destruct (peer_states _ !! p) as [s|] eqn:E; [destruct (Hp p s E) as [? _]|]; lia. }
  split; [lia|]. intros Hzero Hact.
  assert (pending p self = 0) by (unfold pending; by rewrite bool_decide_false by congruence).
  assert (0 ≤ attempts_to checked p evs self); [|lia]. clear. revert self.
  induction evs as [|ev evs IH]; intros self; cbn [attempts_to]; [lia|]. specialize (IH (run_event checked self ev)).
  assert (0 ≤ attempt_of p self ev); [|lia]. destruct ev; cbn; try case_bool_decide; lia.
Qed.

(** Whatever happens, the counts of all peers stay up to the maximum, a connected
    peer has none, and so the statistics never count a successful reconnection. *)
Theorem successes_never_counted pl cfg evs : 0 ≤ max_attempts cfg < 2 ^ 32 →
  let self := run_events checked (new_manager (SocketAddr := SocketAddr) pl cfg) evs in
  consistent self ∧ successful_reconnections (get_reconnection_stats self) = 0.
Proof.
  intros Hm self. assert (consistent self) as Hc by by apply consistent_events, new_consistent.
  split; [done|]. destruct Hc as (_ & Hp & _). unfold get_reconnection_stats.
  set (stats := {| total_peers := _ |}). assert (successful_reconnections stats = 0) as Hstats by done.
  clearbody stats. assert (∀ ps : SocketAddr * _, ps ∈ map_iter (peer_states self) → peer_ok (config self) ps.2) as Hall.
  { intros [q s] Hin%elem_of_map_iter. by eapply Hp. }
  revert stats Hstats Hall. induction (map_iter (peer_states self)) as [|[q s] l IH]; intros stats Hstats Hall; [done|].
  cbn [foldl]. apply IH; [|intros ps Hin; apply Hall; by right].
  destruct (Hall (q, s)) as [_ Hs]; [by left|]. cbn. rewrite Hstats.
  case_bool_decide as Hst; [|done]. cbn in Hs. by rewrite (Hs Hst).
Qed.

(** A failure that is reported within the delay after the last attempt, as when a
    fresh connection breaks, is not retried: the task ends at its first check, and the
    peer stays failed until somebody reports it again. *)
Theorem early_failure_not_retried p reason now try fuel self :
  active_reconnections self !! p = None →
  let s := mark_failed reason (entry p now self) in
  is_ready_for_retry (config self) now s = false →
  let self1 := report_connection_failure p reason now self in
  let self' := (alone checked p (S (S fuel)) now try 0 self1).2 in
  active_reconnections self' !! p = None ∧ peer_states self' !! p = Some s ∧ state s = Failed ∧ pool self' = pool self.
Proof.
  intros Hact s Hready.
  assert (report_connection_failure p reason now self = start_reconnection_task p (set_peers <[p := s]> self)) as ->
    by (unfold report_connection_failure, is_reconnection_active; cbn [active_reconnections set_peers];
        by rewrite Hact, bool_decide_false by by intros [? ?]).
  destruct (alone_stops checked p fuel now try 0 (start_reconnection_task p (set_peers <[p := s]> self)) s) as (? & _ & ? & ?);
    [|unfold should_continue; cbn [config start_reconnection_task set_active set_peers]; by rewrite Hready|done].
  split; cbn; [apply lookup_insert_eq|by rewrite lookup_insert_eq].
Qed.
End properties.

(** ** A concrete peer *)

Module Examples.
#[local] Existing Instance gmap_order.
Definition addr : string := "10.0.0.3:9990".
Definition cfg : ReconnectionConfig :=
  {| initial_retry_delay := from_millis 100; max_retry_delay := from_millis 400; scale := λ d, 2 * d; max_attempts := 3;
     connection_timeout := from_millis 1000; health_check_interval := from_millis 5000; enable_jitter := true |}.
Definition tries (l : list Attempt) : nat → Try := λ k,
  {| outcome_of := default TimedOut (l !! k); takes := 1000; drawn := 5 |}.
Definition idle : ReconnectionManager string := new_manager (new_pool PoolConfig_default) cfg.
Definition after (l : list Attempt) : ReconnectionManager string :=
  (alone true addr 20 0 (tries l) 0 (report_connection_failure addr "reset" 0 idle)).2.
Lemma cfg_sane l : sane cfg (tries l).
Proof. split; [cbn; lia|]. split; [by vm_compute|]. intros k. by vm_compute. Qed.
Lemma idle_consistent : consistent idle.
Proof. by apply new_consistent. Qed.

Lemma reconnects_or_gives_up_witness :
  (state <$> peer_states (after [TimedOut; Connects 9]) !! addr) = Some Connected ∧
  (state <$> peer_states (after [TimedOut; TimedOut; Refused QTimeout]) !! addr) = Some Failed ∧
  (state <$> peer_states (after []) !! addr) = Some Backoff ∧
  ended addr (tries [TimedOut; Connects 9]) 3 0 (report_connection_failure addr "reset" 0 idle)
    (mark_failed "reset" (entry addr 0 idle)) (after [TimedOut; Connects 9]).
Proof.
  split_and!; [by vm_compute..|].
  apply (reconnects_or_gives_up true addr "reset" 0 (tries [TimedOut; Connects 9]) 20 idle idle_consistent (cfg_sane _) eq_refl);
    [by vm_compute|right; by vm_compute|vm_compute; lia].
Defined.

Lemma attempts_bounded_witness :
  let evs := concat (repeat [Report addr "reset" 0; Turn addr (10 ^ 18) TimedOut 0] 6) in
  attempts_to true addr evs idle ≤ left_for addr idle + pending addr idle ∧
  attempts_to true addr evs (after []) = 0.
Proof.
  split.
  - apply (attempts_bounded true addr _ idle idle_consistent). repeat constructor.
  - apply (attempts_bounded true addr); [|repeat constructor|by vm_compute|by vm_compute].
    apply consistent_alone. exact (consistent_event true (Report addr "reset" 0) idle idle_consistent).
Defined.

Lemma successes_never_counted_witness :
  let self := run_events true idle [Track addr 1 0; Report addr "reset" 5; Turn addr 6 TimedOut 0] in
  consistent self ∧ successful_reconnections (get_reconnection_stats self) = 0.
Proof. by apply (successes_never_counted true (new_pool PoolConfig_default) cfg). Defined.

Lemma early_failure_not_retried_witness :
  let fresh := after [TimedOut; Connects 9] in
  let t := from_millis 250 in
  let self' := (alone true addr 20 t (tries []) 0 (report_connection_failure addr "reset" t fresh)).2 in
  active_reconnections self' !! addr = None ∧ (state <$> peer_states self' !! addr) = Some Failed.
Proof.
  destruct (early_failure_not_retried true addr "reset" (from_millis 250) (tries []) 18 (after [TimedOut; Connects 9])) as (? & Hs & ? & _);
    [by vm_compute|by vm_compute|]. split; [done|]. rewrite Hs. by vm_compute.
Defined.
End Examples.
