(* ===== verification/TransferEngine.v ===== *)
(** The transfer engine of a connection: landro-quic/src/transfer.rs.

    It asks for the chunks of a transfer with the batch manager of [Framing] and
    tells the manager of [Resume] how far it is. The estimate of the bytes
    transferred is a float and a parameter; so are the percentages, of which only
    numerator and denominator are given. A call reads the clocks several times. *)

From S2P Require Import Prelude Bytes Proto Framing Resume.
From Stdlib Require Import Init.Byte ZArith Lia.
From stdpp Require Import base option list gmap sets strings pretty numbers sorting.
Import Resume.Transfers.
Open Scope Z_scope.

Record TransferSession := {
  session_id : string;
  session_peer : string;
  session_path : string;
  session_size : Z;
  chunks_needed : list (list byte);
  chunks_received : gmap (list byte) ChunkData;
  session_status : TransferStatus;
}.
Record QuicTransferEngine := {
  batch_manager : BatchTransferManager;
  resumable_manager : ResumableTransferManager;
  sessions : gmap string TransferSession;
}.
Record TransferProgress := {
  of_transfer : string;
  progress_status : TransferStatus;
  progress : Z * Z;
  bandwidth : Z * Z;
  received_count : Z;
  total_count : Z;
  bytes_done : Z;
  bytes_all : Z;
}.
Inductive EngineError :=
  | EQuic (e : QuicError)
  | EResumable (e : TransferError)
  | SessionNotFound (k : string)
  | TransferNotFound (k : string)
  | ResumeCancelled (k : string).
(** The monotonic and the wall clock where a call begins, updates the progress, and ends. *)
Record Clocks := { began : Z * Z; updated : Z * Z; ended_at : Z * Z }.

Section engine.
Context (checked : bool) (estimate : Z → Z → Z → Z) (connection_name : string).
Context `{Unicode, Blake3}.
Context `{Message FolderSummary, Message ManifestMsg, Message Want, Message ChunkData,
          Message Ack, Message ProtoError}.
Abbreviation engine := (st QuicTransferEngine EngineError).

Definition engine_new (c : Connection) : QuicTransferEngine :=
  {| batch_manager := {| protocol := c; chunk_cache := ∅ |}; resumable_manager := manager_default; sessions := ∅ |}.
Definition set_sessions (f : gmap string TransferSession → gmap string TransferSession) (self : QuicTransferEngine) :
    QuicTransferEngine :=
  {| batch_manager := batch_manager self; resumable_manager := resumable_manager self; sessions := f (sessions self) |}.
Definition set_status (s : TransferStatus) (t : TransferSession) : TransferSession :=
  {| session_id := session_id t; session_peer := session_peer t; session_path := session_path t;
     session_size := session_size t; chunks_needed := chunks_needed t; chunks_received := chunks_received t;
     session_status := s |}.
Definition set_received (m : gmap (list byte) ChunkData) (t : TransferSession) : TransferSession :=
  {| session_id := session_id t; session_peer := session_peer t; session_path := session_path t;
     session_size := session_size t; chunks_needed := chunks_needed t; chunks_received := m;
     session_status := session_status t |}.
Definition on_resumable {A} (m : st ResumableTransferManager TransferError A) : engine A := λ self,
  let '(r, a) := m (resumable_manager self) in
  ({| batch_manager := batch_manager self; resumable_manager := r; sessions := sessions self |}, map_err EResumable a).
Definition on_batch {A} (m : st BatchTransferManager QuicError A) : engine A := λ self,
  let '(b, a) := m (batch_manager self) in
  ({| batch_manager := b; resumable_manager := resumable_manager self; sessions := sessions self |}, map_err EQuic a).
Definition on_session (k : string) (f : TransferSession → TransferSession) : engine unit :=
  modify_st (set_sessions (alter f k)).

Definition calculate_progress (k : string) (self : QuicTransferEngine) : TransferProgress :=
  match sessions self !! k with
  | Some t =>
      let received := Z.of_nat (size (chunks_received t)) in
      let total := zlen (chunks_needed t) in
      {| of_transfer := k; progress_status := session_status t;
         progress := if 0 <? total then (received, total) else (0, 1); bandwidth := (0, 1);
         received_count := received; total_count := total;
         bytes_done := estimate (session_size t) received total; bytes_all := session_size t |}
  | None =>
      {| of_transfer := k; progress_status := Failed; progress := (0, 1); bandwidth := (0, 1);
         received_count := 0; total_count := 0; bytes_done := 0; bytes_all := 0 |}
  end.
Definition complete (c : Clocks) (k : string) : engine unit :=
  _ ← on_session k (set_status Completed);
  on_resumable (complete_transfer (ended_at c).2 k).
(** The chunks that come are put under the hash of their data. *)
Definition store_received (chunks : list ChunkData) (t : TransferSession) : TransferSession :=
  set_received (foldl (λ m c, <[blake3 (cd_data c) := c]> m) (chunks_received t) chunks) t.
(** The chunks not received yet. *)
Definition chunks_to_request (t : TransferSession) : list (list byte) :=
  filter (λ h, chunks_received t !! h = None) (chunks_needed t).
Definition transfer_chunks_resumable (c : Clocks) (k : string) : engine unit :=
  self ← get_st;
  session ← lift (ok_or (SessionNotFound k) (sessions self !! k));
  if bool_decide (chunks_to_request session = []) then complete c k
  else λ self,
    match on_batch (transfer_chunks (chunks_to_request session)) self with
    | (self, Ok received) =>
        (_ ← on_session k (store_received received);
         self ← get_st;
         let p := calculate_progress k self in
         _ ← on_resumable (update_progress (updated c).1 (updated c).2 k (bytes_done p) (received_count p));
         if received_count p =? total_count p then complete c k else mret tt) self
    | (self, Err e) =>
        (_ ← on_resumable (fail_transfer checked (ended_at c).2 k); lift (Err e)) self
    | (self, Panic) => (self, Panic)
    end.

Definition new_session (k peer path : string) (total : Z) (needed : list (list byte)) : TransferSession :=
  {| session_id := k; session_peer := peer; session_path := path; session_size := total;
     chunks_needed := needed; chunks_received := ∅; session_status := Active |}.
Definition start_transfer (c : Clocks) (k peer path : string) (total : Z) (needed : list (list byte)) : engine unit :=
  _ ← on_resumable (Transfers.start_transfer (began c).1 (began c).2 k peer path total connection_name);
  _ ← modify_st (set_sessions <[k := new_session k peer path total needed]>);
  transfer_chunks_resumable c k.
Definition status_of (k : string) : engine (option (TransferStatus * (Z * Z) * (Z * Z))) :=
  self ← get_st;
  lift (map_err EResumable (get_transfer_status checked k (resumable_manager self))).
Definition resume_transfer (c : Clocks) (k : string) : engine unit :=
  found ← status_of k;
  match found with
  | Some (Paused, _, _) | Some (Failed, _, _) =>
      _ ← on_resumable (Transfers.resume_transfer (began c).1 k connection_name);
      transfer_chunks_resumable c k
  | Some (Active, _, _) | Some (Completed, _, _) => mret tt
  | Some (Cancelled, _, _) => lift (Err (ResumeCancelled k))
  | None => lift (Err (TransferNotFound k))
  end.
Definition pause_transfer (c : Clocks) (k : string) : engine unit :=
  _ ← on_session k (set_status Paused);
  on_resumable (Transfers.pause_transfer (ended_at c).2 k).
Definition cancel_transfer (c : Clocks) (k : string) : engine unit :=
  _ ← modify_st (set_sessions (base.delete k));
  on_resumable (fail_transfer checked (ended_at c).2 k).
Definition get_transfer_progress (k : string) : engine (option TransferProgress) :=
  found ← status_of k;
  self ← get_st;
  mret (match found, sessions self !! k with
        | Some (s, (done, all), bw), Some t =>
            Some {| of_transfer := k; progress_status := s; progress := (done, all); bandwidth := bw;
                    received_count := Z.of_nat (size (chunks_received t)); total_count := zlen (chunks_needed t);
                    bytes_done := estimate (session_size t) done all; bytes_all := session_size t |}
        | _, _ => None
        end).
Fixpoint progress_list (ks : list string) : engine (list TransferProgress) :=
  match ks with
  | [] => mret []
  | k :: ks =>
      p ← get_transfer_progress k;
      ps ← progress_list ks;
      mret (match p with Some p => p :: ps | None => ps end)
  end.
Definition list_active_transfers `{MapIter} : engine (list TransferProgress) :=
  self ← get_st;
  progress_list (map fst (map_iter (sessions self))).
Definition status_text (p : TransferProgress) : string :=
  match progress_status p with
  | Active => "Active" | Paused => "Paused" | Completed => "Completed" | Failed => "Failed" | Cancelled => "Cancelled"
  end.

(** ** Calls in any order *)

Inductive Call :=
  | CStart (c : Clocks) (k peer path : string) (total : Z) (needed : list (list byte))
  | CResume (c : Clocks) (k : string)
  | CPause (c : Clocks) (k : string)
  | CCancel (c : Clocks) (k : string)
  | CCleanup (now : Z)
  | CForget (k : string)
  | CWire (arrived : list (list byte)).
Definition run_call (call : Call) (self : QuicTransferEngine) : QuicTransferEngine :=
  match call with
  | CStart c k peer path total needed => (start_transfer c k peer path total needed self).1
  | CResume c k => (resume_transfer c k self).1
  | CPause c k => (pause_transfer c k self).1
  | CCancel c k => (cancel_transfer c k self).1
  (* The cleanup task of the resumable manager, and the one that removes the
     checkpoint of a completed transfer later. *)
  | CCleanup now => (on_resumable (cleanup_tick now) self).1
  | CForget k => (on_resumable (remove_checkpoint k) self).1
  | CWire arrived =>
      let p := protocol (batch_manager self) in
      {| batch_manager := {| protocol := {| alive := alive p; outgoing := outgoing p; incoming := incoming p ++ arrived |};
                             chunk_cache := chunk_cache (batch_manager self) |};
         resumable_manager := resumable_manager self; sessions := sessions self |}
  end.
Definition run_calls (calls : list Call) (self : QuicTransferEngine) : QuicTransferEngine :=
  foldl (λ self call, run_call call self) self calls.
End engine.

(** ** Lemmas *)

Section lemmas.
Context (checked : bool) (estimate : Z → Z → Z → Z) (connection_name : string).
Context `{Unicode, Blake3}.
Context `{Message FolderSummary, Message ManifestMsg, Message Want, Message ChunkData,
          Message Ack, Message ProtoError}.
Implicit Types (self : QuicTransferEngine) (t : TransferSession).
#[local] Set Default Proof Using "Type*".

(** Every chunk of a session is one it needs, under its hash; a completed one has all. *)
Definition has_all t : Prop := ∀ h, h ∈ chunks_needed t → is_Some (chunks_received t !! h).
Definition session_ok t : Prop :=
  (∀ h c, chunks_received t !! h = Some c → blake3 (cd_data c) = h ∧ h ∈ chunks_needed t) ∧
  (session_status t = Completed → has_all t).
Definition sessions_ok self : Prop := ∀ k t, sessions self !! k = Some t → session_ok t.

Lemma on_resumable_sessions {A} (m : st ResumableTransferManager TransferError A) self :
  sessions (on_resumable m self).1 = sessions self ∧ batch_manager (on_resumable m self).1 = batch_manager self.
Proof using Type. unfold on_resumable. by destruct (m (resumable_manager self)). Qed.
Lemma on_batch_sessions {A} (m : st BatchTransferManager QuicError A) self :
  sessions (on_batch m self).1 = sessions self ∧ resumable_manager (on_batch m self).1 = resumable_manager self.
Proof using Type. unfold on_batch. by destruct (m (batch_manager self)). Qed.
Lemma sessions_ok_alter self k f : sessions_ok self → (∀ t, sessions self !! k = Some t → session_ok t → session_ok (f t)) →
  sessions_ok (set_sessions (alter f k) self).
Proof using Type.
  intros Hok Hf k' t. cbn. destruct (decide (k' = k)) as [->|Hk].
  - rewrite lookup_alter_eq. destruct (sessions self !! k) as [t0|] eqn:E; [|done]. cbn. intros [= <-].
    apply Hf; [done|by eapply Hok].
  - rewrite lookup_alter_ne by done. apply Hok.
Qed.
Lemma sessions_ok_eq self self' : sessions self' = sessions self → sessions_ok self → sessions_ok self'.
Proof using Type. unfold sessions_ok. by intros ->. Qed.

(** Steps that keep the sessions in order. *)
Definition orderly {A} (m : st QuicTransferEngine EngineError A) : Prop := ∀ self, sessions_ok self → sessions_ok (m self).1.
Lemma orderly_keeps {A} (m : st QuicTransferEngine EngineError A) : orderly m ↔ keeps sessions_ok m (λ _, True).
Proof using Type. split; [intros Hm self Hok _; split_and!; auto|intros Hm self; by apply (keeps_state _ _ _ _ Hm)]. Qed.
Lemma orderly_bind {A B} (m : st QuicTransferEngine EngineError A) (f : A → st QuicTransferEngine EngineError B) :
  orderly m → (∀ a, orderly (f a)) → orderly (m ≫= f).
Proof using Type. rewrite !orderly_keeps. intros Hm Hf. eapply keeps_bind; [exact Hm|]. intros a _. apply orderly_keeps, Hf. Qed.
Lemma orderly_pure {A} (m : st QuicTransferEngine EngineError A) : (∀ self, (m self).1 = self) → orderly m.
Proof using Type. intros Hm self. by rewrite Hm. Qed.
Lemma orderly_resumable {A} (m : st ResumableTransferManager TransferError A) : orderly (on_resumable m).
Proof using Type. intros self. apply sessions_ok_eq, on_resumable_sessions. Qed.

Lemma complete_ok c k self : sessions_ok self → (∀ t, sessions self !! k = Some t → has_all t) →
  sessions_ok (complete c k self).1.
Proof using Type.
  intros Hok Hall. unfold complete. erewrite st_bind_eq by done.
  apply orderly_resumable. apply sessions_ok_alter; [done|]. intros t Ht [Hr _]. split; [done|].
  intros _. exact (Hall t Ht).
Qed.

Lemma store_received_lookup chunks t h c :
  chunks_received (store_received chunks t) !! h = Some c →
  chunks_received t !! h = Some c ∨ (c ∈ chunks ∧ blake3 (cd_data c) = h).
Proof using Type.
  unfold store_received. cbn. generalize (chunks_received t). induction chunks as [|c' chunks IH]; intros m; cbn; [by left|].
  intros [Hl|[Hin Hh]]%IH; [|right; split; [by right|done]].
  apply lookup_insert_Some in Hl as [[<- <-]|[_ Hl]]; [right; split; [by left|done]|by left].
Qed.
Lemma store_received_ok chunks wanted t :
  Forall (λ c, cd_hash c = blake3 (cd_data c) ∧ cd_hash c ∈ wanted) chunks →
  wanted ⊆ chunks_needed t → session_status t ≠ Completed ∨ has_all t → session_ok t →
  session_ok (store_received chunks t).
Proof using Type.
  intros Hall Hsub Hnot [Hr Hs]. split.
  - intros h c [Hl|[Hin <-]]%store_received_lookup; [by apply Hr|]. split; [done|].
    rewrite Forall_forall in Hall. destruct (Hall c Hin) as [<- ?]. by apply Hsub.
  - intros Hc. destruct Hnot as [Hnot|Hnot]; [done|]. intros h Hh. clear Hc.
    change (h ∈ chunks_needed t) in Hh.
    cbn. specialize (Hnot h Hh). revert Hnot. generalize (chunks_received t).
    induction chunks as [|c' chunks IH]; intros m Hm; cbn; [done|]. apply Forall_cons in Hall as [_ Hall].
    apply IH; [done|]. destruct (decide (blake3 (cd_data c') = h)) as [<-|?]; [rewrite lookup_insert_eq; by eexists|by rewrite lookup_insert_ne].
Qed.
Lemma size_hashes (l : list (list byte)) : (size (list_to_set (C := gset (list byte)) l) ≤ length l)%nat.
Proof using Type.
  induction l as [|x l IH]; cbn; [by rewrite size_empty|].
  rewrite size_union_alt, size_singleton. etrans; [apply Nat.add_le_mono_l, subseteq_size, subseteq_difference_l; done|]. lia.
Qed.
Lemma size_hashes_NoDup (l : list (list byte)) : size (list_to_set (C := gset (list byte)) l) = length l ↔ NoDup l.
Proof using Type.
  split; [|apply size_list_to_set]. induction l as [|x l IH]; [by constructor|]. cbn. intros Hsize.
  pose proof (size_hashes l) as Hle. destruct (decide (x ∈ l)) as [Hx|Hx].
  - rewrite (subseteq_union_1_L {[x]}) in Hsize by (intros y ->%elem_of_singleton; by apply elem_of_list_to_set). lia.
  - constructor; [done|]. apply IH. rewrite size_union, size_singleton in Hsize by (apply disjoint_singleton_l; by rewrite elem_of_list_to_set). lia.
Qed.
(** As many chunks as hashes needed are all of them. *)
Lemma counted_has_all t : session_ok t → Z.of_nat (size (chunks_received t)) = zlen (chunks_needed t) → has_all t.
Proof using Type.
  intros [Hr _] Hsize h Hh.
  assert (dom (chunks_received t) ⊆ list_to_set (C := gset (list byte)) (chunks_needed t)) as Hsub.
  { intros x [c Hx]%elem_of_dom. apply elem_of_list_to_set. by destruct (Hr x c Hx). }
  assert (size (list_to_set (C := gset (list byte)) (chunks_needed t)) ≤ size (dom (chunks_received t)))%nat as Hle.
  { rewrite size_dom. unfold zlen in Hsize. assert (size (chunks_received t) = length (chunks_needed t)) as -> by lia.
    apply size_hashes. }
  apply elem_of_dom. apply (set_subseteq_size_equiv _ _ Hsub Hle). by apply elem_of_list_to_set.
Qed.

Abbreviation chunks_step := (transfer_chunks_resumable checked estimate).
Lemma requested_sub t : chunks_to_request t ⊆ chunks_needed t.
Proof using Type. intros h Hh. by apply list_elem_of_filter in Hh as [_ ?]. Qed.
Lemma requested_nil t : chunks_to_request t = [] → has_all t.
Proof using Type.
  intros Hnil h Hh. destruct (chunks_received t !! h) eqn:E; [by eexists|].
  assert (h ∈ chunks_to_request t) as Hin by by apply list_elem_of_filter.
  rewrite Hnil in Hin. by apply elem_of_nil in Hin.
Qed.
(** After an answer: the chunks are stored, the progress told, the transfer completed
    if it counts as many chunks as it needs. *)
Lemma after_answer_ok c k received wanted self t : sessions_ok self → sessions self !! k = Some t →
  Forall (λ c, cd_hash c = blake3 (cd_data c) ∧ cd_hash c ∈ wanted) received → wanted ⊆ chunks_needed t →
  sessions_ok ((_ ← on_session k (store_received received);
     self ← get_st;
     let p := calculate_progress estimate k self in
     _ ← on_resumable (update_progress (updated c).1 (updated c).2 k (bytes_done p) (received_count p));
     if received_count p =? total_count p then complete c k else mret tt) self).1.
Proof using Type.
  intros Hok Ht Hall Hsub. erewrite st_bind_eq by done. erewrite st_bind_eq by done. cbv zeta.
  set (self1 := set_sessions (alter (store_received received) k) self).
  assert (sessions self1 !! k = Some (store_received received t)) as Ht1 by (cbn; by rewrite lookup_alter_eq, Ht).
  assert (sessions_ok self1) as Hok1.
  { apply sessions_ok_alter; [done|]. intros t' Ht' Hs. assert (t' = t) as -> by congruence.
    apply (store_received_ok _ wanted); try done.
    destruct (decide (session_status t = Completed)) as [Hc|]; [right; by apply Hs|by left]. }
  unfold mbind, st_bind.
  pose proof (on_resumable_sessions (update_progress (updated c).1 (updated c).2 k
    (bytes_done (calculate_progress estimate k self1)) (received_count (calculate_progress estimate k self1))) self1) as [Hs2 _].
  destruct (on_resumable _ self1) as [self2 [u|e|]]; cbn [fst] in Hs2; [|by eapply sessions_ok_eq..].
  destruct (received_count _ =? total_count _) eqn:Hcount; [|by eapply sessions_ok_eq].
  apply complete_ok; [by eapply sessions_ok_eq|]. rewrite Hs2. intros t' Ht'.
  apply counted_has_all; [by eapply Hok1|]. apply Z.eqb_eq in Hcount.
  unfold calculate_progress in Hcount. by rewrite Ht' in Hcount.
Qed.
Lemma orderly_chunks c k : orderly (chunks_step c k).
Proof using All.
  intros self Hok. unfold transfer_chunks_resumable. erewrite st_bind_eq by done.
  destruct (sessions self !! k) as [t|] eqn:Ht; [|exact Hok].
  erewrite st_bind_eq by done. cbv zeta. case_bool_decide as Hnil.
  - apply complete_ok; [done|]. intros t' Ht'. assert (t' = t) as -> by congruence. by apply requested_nil.
  - unfold on_batch. destruct (transfer_chunks _ (batch_manager self)) as [b [received|e|]] eqn:Htr; cbn [map_err].
    + destruct (transfer_chunks_correct _ _ _ _ Htr) as (_ & Hall & _).
      by apply (after_answer_ok c k received (chunks_to_request t) _ t);
        [..|apply requested_sub].
    + apply (orderly_bind (on_resumable (fail_transfer checked (ended_at c).2 k)) (λ _, lift (Err (EQuic e))));
        [apply orderly_resumable|intros; by apply orderly_pure|done].
    + done.
Qed.
Lemma orderly_start c k peer path total needed : orderly (start_transfer checked estimate connection_name c k peer path total needed).
Proof using All.
  apply orderly_bind; [apply orderly_resumable|]. intros _. apply orderly_bind; [|intros; apply orderly_chunks].
  intros self Hok k' t. cbn. intros [[<- <-]|[_ Ht]]%lookup_insert_Some; [|by eapply Hok].
  split; cbn; [intros h c'; by rewrite lookup_empty|done].
Qed.
Lemma orderly_status k : orderly (status_of checked k).
Proof using Type. apply orderly_bind; [by apply orderly_pure|]. intros. by apply orderly_pure. Qed.
Lemma orderly_resume c k : orderly (resume_transfer checked estimate connection_name c k).
Proof using All.
  apply orderly_bind; [apply orderly_status|]. intros [[[[] ?] ?]|]; try (by apply orderly_pure);
    (apply orderly_bind; [apply orderly_resumable|intros; apply orderly_chunks]).
Qed.
Lemma orderly_pause c k : orderly (pause_transfer c k).
Proof using Type.
  apply orderly_bind; [|intros; apply orderly_resumable]. intros self Hok. apply sessions_ok_alter; [done|].
  intros t _ [Hr _]. by split.
Qed.
Lemma orderly_cancel c k : orderly (cancel_transfer checked c k).
Proof using Type.
  apply orderly_bind; [|intros; apply orderly_resumable]. intros self Hok k' t. cbn.
  intros [_ Ht]%lookup_delete_Some. by eapply Hok.
Qed.

(** ** One request and its answer *)

Lemma registered now utc k peer path total conn m : checkpoints m !! k = None → 0 < total →
  ∃ m' a, Transfers.start_transfer now utc k peer path total conn m = (m', Ok tt) ∧
    active_transfers m' !! k = Some a ∧ status a = Active ∧ bandwidth_samples a = [].
Proof using Type.
  intros Hc Ht. unfold Transfers.start_transfer. erewrite st_bind_eq by done. rewrite Hc, (proj2 (Z.leb_gt _ _)) by done.
  cbv zeta. erewrite st_bind_eq by done. eexists _, _. split; [reflexivity|]. cbn. by rewrite lookup_insert_eq.
Qed.
Lemma progress_told now utc k bytes offset m a : active_transfers m !! k = Some a → bandwidth_samples a = [] →
  ∃ m' a', update_progress now utc k bytes offset m = (m', Ok tt) ∧
    active_transfers m' !! k = Some a' ∧ status a' = status a ∧ bandwidth_samples a' = [(now, bytes)].
Proof using Type.
  intros Ha Hb. unfold update_progress. erewrite st_bind_eq by done. rewrite Ha, Hb. cbv zeta.
  erewrite st_bind_eq by done. cbn [app].
  assert (filter (λ s : Z * Z, now - 30000 < s.1) [(now, bytes)] = [(now, bytes)]) as ->.
  { rewrite filter_cons, decide_True by (cbn; lia). done. }
  destruct (_ <=? _); eexists _, _; (split; [reflexivity|]); cbn; by rewrite lookup_insert_eq.
Qed.
Lemma finished utc k m a : active_transfers m !! k = Some a →
  ∃ m', complete_transfer utc k m = (m', Ok tt) ∧ active_transfers m' !! k = None ∧ is_Some (checkpoints m' !! transfer_id (checkpoint a)).
Proof using Type.
  intros Ha. unfold complete_transfer. erewrite st_bind_eq by done. rewrite Ha. erewrite st_bind_eq by done.
  eexists. split; [reflexivity|]. cbn. rewrite lookup_delete_eq, lookup_insert_eq. by eauto.
Qed.

Lemma requested_new k peer path total needed : chunks_to_request (new_session k peer path total needed) = needed.
Proof using Type.
  unfold chunks_to_request. cbn. induction needed as [|h l IH]; [done|].
  rewrite filter_cons, decide_True by apply lookup_empty. by rewrite IH.
Qed.
Lemma received_all chunks needed : Forall (λ c, cd_hash c = blake3 (cd_data c) ∧ cd_hash c ∈ needed) chunks →
  dom (chunks_received (store_received chunks (new_session EmptyString EmptyString EmptyString 0 needed)))
    = list_to_set (map cd_hash chunks).
Proof using Type.
  intros Hall. unfold store_received. cbn.
  rewrite <- (union_empty_l_L (list_to_set (map cd_hash chunks))).
  rewrite <- (dom_empty_L (D := gset (list byte)) (A := ChunkData)).
  generalize (∅ : gmap (list byte) ChunkData). induction Hall as [|c chunks [Hc _] _ IH]; intros m; cbn [foldl map].
  - cbn. by rewrite union_empty_r_L.
  - rewrite IH, dom_insert_L, <- Hc. cbn. set_solver.
Qed.
(** [start_transfer] on an engine that does not know the transfer, when the batch
    manager returns [received]. *)
Lemma start_answered c k peer path total needed self b received :
  checkpoints (resumable_manager self) !! k = None → 0 < total → needed ≠ [] →
  transfer_chunks needed (batch_manager self) = (b, Ok received) →
  let all := bool_decide (size (list_to_set (C := gset (list byte)) (map cd_hash received)) = length needed) in
  ∃ r, start_transfer checked estimate connection_name c k peer path total needed self =
    ({| batch_manager := b; resumable_manager := r;
        sessions := <[k := set_status (if all then Completed else Active)
          (store_received received (new_session k peer path total needed))]> (sessions self) |}, Ok tt) ∧
    if all then active_transfers r !! k = None
    else ∃ a, active_transfers r !! k = Some a ∧ status a = Active ∧ length (bandwidth_samples a) = 1%nat.
Proof using All.
  intros Hck Htot Hneed Hb all.
  destruct (registered (began c).1 (began c).2 k peer path total connection_name _ Hck Htot) as (r1 & a1 & Hr1 & Ha1 & Hs1 & Hb1).
  destruct (transfer_chunks_correct _ _ _ _ Hb) as (_ & Hall & _).
  unfold start_transfer. erewrite st_bind_eq by (unfold on_resumable; rewrite Hr1; reflexivity).
  erewrite st_bind_eq by reflexivity. change (set_sessions _ _) with
    {| batch_manager := batch_manager self; resumable_manager := r1;
       sessions := <[k := new_session k peer path total needed]> (sessions self) |}.
  unfold transfer_chunks_resumable. erewrite st_bind_eq by reflexivity. cbn [sessions]. rewrite lookup_insert_eq.
  erewrite st_bind_eq by reflexivity. cbv zeta.
  rewrite requested_new.
  rewrite bool_decide_false by done.
  unfold on_batch at 1. cbn [batch_manager]. rewrite Hb. cbn [map_err resumable_manager sessions].
  erewrite st_bind_eq by reflexivity. erewrite st_bind_eq by reflexivity. cbv zeta.
  unfold set_sessions. cbn [batch_manager resumable_manager sessions].
  rewrite alter_insert_eq. set (t := store_received received (new_session k peer path total needed)).
  set (self1 := {| batch_manager := b; resumable_manager := r1; sessions := _ |}).
  assert (received_count (calculate_progress estimate k self1) = Z.of_nat (size (chunks_received t)) ∧
    total_count (calculate_progress estimate k self1) = zlen needed) as [Hrc Htc]
    by (unfold calculate_progress, self1; cbn [sessions]; by rewrite lookup_insert_eq).
  destruct (progress_told (updated c).1 (updated c).2 k (bytes_done (calculate_progress estimate k self1))
    (received_count (calculate_progress estimate k self1)) r1 a1 Ha1 Hb1) as (r2 & a2 & Hr2 & Ha2 & Hs2 & Hb2).
  erewrite st_bind_eq by (unfold on_resumable; change (resumable_manager self1) with r1; rewrite Hr2; reflexivity).
  rewrite Hrc, Htc. assert ((Z.of_nat (size (chunks_received t)) =? zlen needed) = all) as ->.
  { unfold all, t. rewrite <- (size_dom (D := gset (list byte)) (chunks_received _)).
    rewrite <- (received_all received needed Hall). unfold zlen.
    case_bool_decide as Hsize; [apply Z.eqb_eq|apply Z.eqb_neq]; change (chunks_received (store_received received (new_session k peer path total needed))) with
      (chunks_received (store_received received (new_session "" "" "" 0 needed))); lia. }
  destruct all.
  - destruct (finished (ended_at c).2 k r2 a2 Ha2) as (r3 & Hr3 & Hgone & _). exists r3. split; [|done].
    unfold complete. erewrite st_bind_eq by reflexivity.
    unfold on_resumable, set_sessions, self1. cbn [resumable_manager batch_manager sessions]. rewrite Hr3.
    by rewrite alter_insert_eq.
  - exists r2. split; [done|]. exists a2. rewrite Hb2. split_and!; [done|congruence|done].
Qed.
End lemmas.

(** ** Properties *)

Section properties.
Context (checked : bool) (estimate : Z → Z → Z → Z) (connection_name : string).
Context `{Unicode, Blake3}.
Context `{Message FolderSummary, Message ManifestMsg, Message Want, Message ChunkData,
          Message Ack, Message ProtoError}.
Implicit Types (self : QuicTransferEngine) (t : TransferSession).
#[local] Set Default Proof Using "All".

(** C35: Whatever is called and whatever the peer sends, every chunk of a session is one
    of those it needs, with the data of its hash, and a session that is completed has
    all of them. *)
Theorem completed_transfer_has_all_chunks conn calls k t :
  sessions (run_calls checked estimate connection_name calls (engine_new conn)) !! k = Some t →
  (∀ h c, chunks_received t !! h = Some c → blake3 (cd_data c) = h ∧ h ∈ chunks_needed t) ∧
  (session_status t = Completed → ∀ h, h ∈ chunks_needed t → is_Some (chunks_received t !! h)).
Proof.
  enough (∀ self, sessions_ok self → sessions_ok (run_calls checked estimate connection_name calls self)) as Hall.
  { intros Ht. eapply (Hall (engine_new conn)); [|exact Ht]. intros k' t'. cbn. by rewrite lookup_empty. }
  induction calls as [|call calls IH]; intros self Hok; [done|]. cbn. apply IH.
  destruct call as [c k' peer path total needed|c k'|c k'|c k'|now|k'|arrived]; cbn [run_call].
  - by apply orderly_start.
  - by apply orderly_resume.
  - by apply orderly_pause.
  - by apply orderly_cancel.
  - by apply (sessions_ok_eq self); [apply on_resumable_sessions|].
  - by apply (sessions_ok_eq self); [apply on_resumable_sessions|].
  - by apply (sessions_ok_eq self).
Qed.

(** A transfer that is started completes at once when the answer brings every chunk
    it needs and none was named twice. Otherwise it stays active, and resuming it does
    nothing, whenever it is tried: what is missing is never asked for again. *)
Theorem answer_decides_transfer c k peer path total needed self b received :
  checkpoints (resumable_manager self) !! k = None → 0 < total → needed ≠ [] →
  transfer_chunks needed (batch_manager self) = (b, Ok received) →
  ∃ self' t, start_transfer checked estimate connection_name c k peer path total needed self = (self', Ok tt) ∧
    sessions self' !! k = Some t ∧
    if bool_decide (NoDup needed ∧ needed ⊆ map cd_hash received)
    then session_status t = Completed ∧ active_transfers (resumable_manager self') !! k = None
    else session_status t = Active ∧ ∀ c', resume_transfer checked estimate connection_name c' k self' = (self', Ok tt).
Proof.
  intros Hck Htot Hneed Hb.
  destruct (transfer_chunks_correct _ _ _ _ Hb) as (_ & Hall & _).
  destruct (start_answered checked estimate connection_name c k peer path total needed self b received Hck Htot Hneed Hb)
    as (r & Hstart & Hr).
  eexists _, _. split; [exact Hstart|]. split; [cbn; apply lookup_insert_eq|].
  assert (list_to_set (C := gset (list byte)) (map cd_hash received) ⊆ list_to_set needed) as Hsub.
  { intros h (x & -> & Hx)%elem_of_list_to_set%list_elem_of_fmap. apply elem_of_list_to_set.
    rewrite Forall_forall in Hall. by apply Hall. }
  rewrite (bool_decide_ext _ (size (list_to_set (C := gset (list byte)) (map cd_hash received)) = length needed)).
  - case_bool_decide as Hsize; [done|]. destruct Hr as (a & Ha & Hst & Hlen). split; [done|]. intros c'.
    unfold resume_transfer, status_of. erewrite st_bind_eq; [|erewrite st_bind_eq by reflexivity; cbn [resumable_manager];
      unfold get_transfer_status; rewrite Ha; unfold bandwidth_parts;
      destruct (bandwidth_samples a) as [|x [|y l]]; [done| |done]; cbn; reflexivity].
    by rewrite Hst.
  - pose proof (size_hashes needed) as Hle. pose proof (subseteq_size _ _ Hsub) as Hss. split.
    + intros [Hnd Hin]. apply size_hashes_NoDup in Hnd as <-. f_equal. apply set_eq_subseteq. split; [exact Hsub|].
      intros h Hh%elem_of_list_to_set. apply elem_of_list_to_set, Hin, Hh.
    + intros Hsize. assert (NoDup needed) as Hnd by (apply size_hashes_NoDup; lia). split; [done|].
      intros h Hh. apply (elem_of_list_to_set (C := gset (list byte))).
      rewrite (set_subseteq_size_eq _ _ Hsub) by lia. by apply elem_of_list_to_set.
Qed.

(** A transfer that was cancelled is not gone: it can be resumed, which makes the
    manager count it as active again and then fails because its session is gone. *)
Theorem cancelled_transfer_comes_back c c' k self a :
  active_transfers (resumable_manager self) !! k = Some a → (length (bandwidth_samples a) ≤ 1)%nat →
  0 ≤ retry_count (checkpoint a) → retry_count (checkpoint a) + 1 < max_retry_count (resumable_manager self) ≤ u32_max →
  let '(self1, r1) := cancel_transfer checked c k self in
  let '(self2, r2) := resume_transfer checked estimate connection_name c' k self1 in
  r1 = Ok tt ∧ r2 = Err (SessionNotFound k) ∧ sessions self2 !! k = None ∧
  (status <$> active_transfers (resumable_manager self2) !! k) = Some Active.
Proof.
  intros Ha Hlen Hr0 Hr. unfold cancel_transfer. erewrite st_bind_eq by reflexivity.
  unfold on_resumable. cbn [resumable_manager set_sessions].
  assert (∃ m, fail_transfer checked (ended_at c).2 k (resumable_manager self) = (m, Ok tt) ∧ ∃ a',
    active_transfers m !! k = Some a' ∧ status a' = Failed ∧ bandwidth_samples a' = bandwidth_samples a)
    as (m & -> & a' & Ha' & Hst & Hbw).
  { unfold fail_transfer. erewrite st_bind_eq by reflexivity. rewrite Ha. erewrite st_bind_eq by reflexivity.
    rewrite arith_exact by lia. erewrite st_bind_eq by reflexivity. rewrite (proj2 (Z.leb_gt _ _)) by lia. cbv zeta.
    erewrite st_bind_eq by reflexivity. eexists. split; [reflexivity|]. eexists. split; [cbn; apply lookup_insert_eq|done]. }
  cbn [map_err]. unfold resume_transfer, status_of.
  erewrite st_bind_eq; [|erewrite st_bind_eq by reflexivity; cbn [resumable_manager]; unfold get_transfer_status;
    rewrite Ha'; unfold bandwidth_parts; rewrite Hbw;
    destruct (bandwidth_samples a) as [|x [|y l]]; [cbn; reflexivity..|cbn in Hlen; lia]].
  rewrite Hst. unfold on_resumable, Transfers.resume_transfer.
  erewrite st_bind_eq; [|cbn [resumable_manager]; erewrite st_bind_eq by reflexivity; rewrite Ha'; reflexivity].
  unfold transfer_chunks_resumable. erewrite st_bind_eq by reflexivity. cbn [sessions batch_manager set_sessions].
  unfold mbind, st_bind, lift, ok_or. rewrite lookup_delete_eq. cbn. rewrite lookup_delete_eq, lookup_insert_eq. done.
Qed.
End properties.

(** ** A concrete engine *)

Module Examples.
#[local] Existing Instance Framing.Examples.ascii_unicode.
#[local] Existing Instance Framing.Examples.counting_hash.
#[local] Existing Instance Framing.Examples.summary_codec.
#[local] Existing Instance Framing.Examples.manifest_codec.
#[local] Existing Instance Framing.Examples.want_codec.
#[local] Existing Instance Framing.Examples.ack_codec.
#[local] Existing Instance Framing.Examples.error_codec.
#[local] Existing Instance Framing.Examples.chunk_codec.
Definition clocks : Clocks := {| began := (0, 0); updated := (5, 5); ended_at := (9, 9) |}.
Definition later : Clocks := {| began := (70000, 70000); updated := (70005, 70005); ended_at := (70009, 70009) |}.
Definition share (size received total : Z) : Z := size * received / total.
Definition hash_of (n : nat) : list byte := cd_hash (Framing.Examples.chunk n).
Definition sent (ns : list nat) : list (list byte) := map (λ n, frame (PChunkData (Framing.Examples.chunk n))) ns.
Definition engine (ns : list nat) : QuicTransferEngine := engine_new (Framing.Examples.wire (sent ns)).
Definition started (ns : list nat) (needed : list nat) : QuicTransferEngine :=
  (start_transfer true share "conn" clocks "t" "peer" "a.txt" 9 (map hash_of needed) (engine ns)).1.

Lemma completed_transfer_has_all_chunks_witness :
  let calls := [CStart clocks "t" "peer" "a.txt" 9 (map hash_of [300; 301]%nat); CPause clocks "t";
    CWire (sent [301]%nat); CResume later "t"] in
  let e := run_calls true share "conn" calls (engine [300]%nat) in
  (session_status <$> sessions e !! "t"%string) = Some Completed ∧
  ∀ t, sessions e !! "t"%string = Some t → session_status t = Completed →
    ∀ h, h ∈ chunks_needed t → is_Some (chunks_received t !! h).
Proof.
  split; [by vm_compute|]. intros t Ht.
  by apply (completed_transfer_has_all_chunks true share "conn" (Framing.Examples.wire (sent [300]%nat))
    [CStart clocks "t" "peer" "a.txt" 9 (map hash_of [300; 301]%nat); CPause clocks "t"; CWire (sent [301]%nat); CResume later "t"] "t").
Defined.

(** One chunk is missing. *)
Lemma answer_decides_transfer_witness :
  ∃ self' t, start_transfer true share "conn" clocks "t" "peer" "a.txt" 9 (map hash_of [300; 301]%nat) (engine [300]%nat) = (self', Ok tt) ∧
    sessions self' !! "t"%string = Some t ∧ session_status t = Active ∧
    ∀ c', resume_transfer true share "conn" c' "t" self' = (self', Ok tt).
Proof.
  destruct (transfer_chunks (map hash_of [300; 301]%nat) (batch_manager (engine [300]%nat))) as [b r] eqn:Hb.
  assert (r = Ok [Framing.Examples.chunk 300]) as -> by (revert Hb; vm_compute; congruence).
  destruct (answer_decides_transfer true share "conn" clocks "t" "peer" "a.txt" 9 (map hash_of [300; 301]%nat) (engine [300]%nat)
    b [Framing.Examples.chunk 300]) as (self' & t & Hs & Ht & Hres); [done|done|done|exact Hb|].
  assert (hash_of 301 ∉ map cd_hash [Framing.Examples.chunk 300]) as Hmissing by (apply (bool_decide_unpack _); by vm_compute).
  assert (¬ (NoDup (map hash_of [300; 301]%nat) ∧ map hash_of [300; 301]%nat ⊆ map cd_hash [Framing.Examples.chunk 300])) as Hpart.
  { intros [_ Hin]. apply Hmissing, Hin. apply list_elem_of_In, in_map, list_elem_of_In, elem_of_cons.
    right. apply elem_of_cons. by left. }
  rewrite (bool_decide_false _ Hpart) in Hres. exists self', t. exact (conj Hs (conj Ht Hres)).
Defined.

Lemma cancelled_transfer_comes_back_witness :
  let '(self1, r1) := cancel_transfer true clocks "t" (started [300]%nat [300; 301]%nat) in
  let '(self2, r2) := resume_transfer true share "conn" later "t" self1 in
  r1 = Ok tt ∧ r2 = Err (SessionNotFound "t").
Proof.
  assert (∃ a, active_transfers (resumable_manager (started [300]%nat [300; 301]%nat)) !! "t"%string = Some a ∧
    length (bandwidth_samples a) = 1%nat ∧ retry_count (checkpoint a) = 0) as (a & Ha & Hlen & Hr).
  { eexists. split; [vm_compute; reflexivity|]. by vm_compute. }
  assert (max_retry_count (resumable_manager (started [300]%nat [300; 301]%nat)) = 3) as Hmax by by vm_compute.
  pose proof (cancelled_transfer_comes_back true share "conn" clocks later "t" (started [300]%nat [300; 301]%nat) a Ha) as Hc.
  rewrite Hlen, Hr, Hmax in Hc. revert Hc. generalize (cancel_transfer true clocks "t" (started [300]%nat [300; 301]%nat)).
  intros [self1 r1]. generalize (resume_transfer true share "conn" later "t" self1). intros [self2 r2] Hc.
  destruct Hc as (Hr1 & Hr2 & _); [lia|lia|lia|exact (conj Hr1 Hr2)].
Defined.
End Examples.
