(* ===== verification/Discovery.v ===== *)
(** Finding peers: landro-daemon/src/discovery.rs.

    The mDNS daemon is a library; what its calls answer is an input, except that
    nothing can be registered and nobody looked for when it has been shut down. The
    service records that it resolves are events. Times are nanoseconds of the
    monotonic clock. *)

From S2P Require Import Prelude Proto.
From Stdlib Require Import Strings.Ascii ZArith Lia.
From stdpp Require Import base option list gmap sets strings pretty numbers sorting.
Open Scope Z_scope.

(** ** Data *)

Inductive IpAddr := V4 (a : string) | V6 (a : string).
#[export] Instance IpAddr_eq_dec : EqDecision IpAddr.
Proof. solve_decision. Defined.
#[export] Instance IpAddr_countable : Countable IpAddr.
Proof.
  refine (inj_countable' (λ ip, match ip with V4 a => inl a | V6 a => inr a end)
    (λ x, match x with inl a => V4 a | inr a => V6 a end) _). by intros [].
Defined.
Abbreviation SocketAddr := (IpAddr * Z)%type.

Record PeerInfo := {
  device_id : string;
  device_name : string;
  address : SocketAddr;
  capabilities : list string;
  last_seen : Z;
  version : string;
}.
(** A resolved service: its properties, its addresses in the order of their hash set. *)
Record ServiceInfo := {
  properties : gmap string string;
  addresses : list IpAddr;
  port : Z;
}.
Inductive ServiceEvent :=
  | SearchStarted
  | ServiceFound
  | ServiceResolved (info : ServiceInfo) (now : Z)
  | ServiceRemoved (fullname : string)
  | SearchStopped.

Record DiscoveryService := {
  own_id : string;
  own_name : string;
  daemon_up : bool;
  discovered_peers : gmap string PeerInfo;
  running : bool;
  service_port : Z;
  own_capabilities : list string;
  has_receiver : bool;
  processing : bool;
}.
Inductive DiscoveryError := DaemonFailed | AlreadyRunning | InvalidService | RegisterFailed | BrowseFailed | ShutdownFailed.
(** What the calls of the mDNS library answer, when the daemon is up. *)
Record MdnsAnswers := { service_ok : bool; register_ok : bool; browse_ok : bool; shutdown_ok : bool }.

(** ** The identifier *)

(** [format!("{:x}")]. *)
Definition hex_char (d : Z) : ascii := ascii_of_N (Z.to_N (if d <? 10 then 48 + d else 87 + d)).
Fixpoint hex_digits (fuel : nat) (n : Z) (acc : string) : string :=
  match fuel with
  | O => acc
  | S fuel => let acc := String (hex_char (n mod 16)) acc in if n <? 16 then acc else hex_digits fuel (n / 16) acc
  end.
Definition hex_of (n : Z) : string := hex_digits 17 n EmptyString.
(** [chars().take(n)] of a string in UTF-8. *)
Definition is_continuation (c : ascii) : bool := (128 <=? code c) && (code c <? 192).
Fixpoint take_chars (n : nat) (s : string) : string :=
  match s with
  | EmptyString => EmptyString
  | String c s =>
      if is_continuation c then String c (take_chars n s)
      else match n with O => EmptyString | S n => String c (take_chars n s) end
  end.
(** From the seconds since 1970 and the host name. *)
Definition generate_device_id (timestamp : Z) (hostname : string) : string :=
  hex_of timestamp +:+ "_" +:+ take_chars 8 hostname.
(** [&s[..8]]. *)
Fixpoint first_bytes (n : nat) (s : string) : option string :=
  match n, s with
  | O, String c _ => if is_continuation c then None else Some EmptyString
  | O, EmptyString => Some EmptyString
  | S n, String c s => String c <$> first_bytes n s
  | S _, EmptyString => None
  end.

Section discovery.
Context `{MapIter}.
Abbreviation service := (st DiscoveryService DiscoveryError).

Definition new_service (daemon_ok : bool) (timestamp : Z) (hostname device_name : string) : outcome DiscoveryError DiscoveryService :=
  if daemon_ok then
    mret {| own_id := generate_device_id timestamp hostname; own_name := device_name; daemon_up := true;
            discovered_peers := ∅; running := false; service_port := 0; own_capabilities := [];
            has_receiver := false; processing := false |}
  else Err DaemonFailed.

Definition set_peers (f : gmap string PeerInfo → gmap string PeerInfo) (s : DiscoveryService) : DiscoveryService :=
  {| own_id := own_id s; own_name := own_name s; daemon_up := daemon_up s; discovered_peers := f (discovered_peers s);
     running := running s; service_port := service_port s; own_capabilities := own_capabilities s;
     has_receiver := has_receiver s; processing := processing s |}.
Definition set_flags (up run receiver process : bool) (s : DiscoveryService) : DiscoveryService :=
  {| own_id := own_id s; own_name := own_name s; daemon_up := up; discovered_peers := discovered_peers s;
     running := run; service_port := service_port s; own_capabilities := own_capabilities s;
     has_receiver := receiver; processing := process |}.
Definition set_service (p : Z) (caps : list string) (s : DiscoveryService) : DiscoveryService :=
  {| own_id := own_id s; own_name := own_name s; daemon_up := daemon_up s; discovered_peers := discovered_peers s;
     running := running s; service_port := p; own_capabilities := caps;
     has_receiver := has_receiver s; processing := processing s |}.

(** The task takes the receiver; a task of an earlier start is not stopped by it. *)
Definition start_event_processor : service unit :=
  modify_st (λ s, set_flags (daemon_up s) (running s) false (processing s || has_receiver s) s).
Definition start_browsing (a : MdnsAnswers) : service unit :=
  s ← get_st;
  _ ← lift (fail_if (negb (daemon_up s && browse_ok a)) BrowseFailed);
  _ ← modify_st (λ s, set_flags (daemon_up s) (running s) true (processing s) s);
  start_event_processor.
Definition start_advertising (a : MdnsAnswers) (p : Z) (caps : list string) : service unit :=
  s ← get_st;
  _ ← lift (fail_if (running s) AlreadyRunning);
  _ ← modify_st (set_service p caps);
  _ ← lift (or_panic (first_bytes 8 (own_id s)));
  _ ← lift (fail_if (negb (service_ok a)) InvalidService);
  _ ← lift (fail_if (negb (daemon_up s && register_ok a)) RegisterFailed);
  _ ← start_browsing a;
  modify_st (λ s, set_flags (daemon_up s) true (has_receiver s) (processing s) s).

(** The first IPv4 address, or else the first one. *)
Definition is_v4 (ip : IpAddr) : bool := match ip with V4 _ => true | V6 _ => false end.
Definition parse_service_info (info : ServiceInfo) (now : Z) : option PeerInfo :=
  id ← properties info !! "device_id"%string;
  name ← properties info !! "device_name"%string;
  let ver := default "unknown"%string (properties info !! "version"%string) in
  let caps := match properties info !! "capabilities"%string with Some c => Proto.split ","%char c | None => [] end in
  ip ← match List.find is_v4 (addresses info) with Some ip => Some ip | None => head (addresses info) end;
  Some {| device_id := id; device_name := name; address := (ip, port info); capabilities := caps;
          last_seen := now; version := ver |}.
Definition process_event (ev : ServiceEvent) (s : DiscoveryService) : DiscoveryService :=
  if processing s then
    match ev with
    | ServiceResolved info now =>
        if bool_decide (properties info !! "device_id"%string = Some (own_id s)) then s
        else match parse_service_info info now with
             | Some peer => set_peers <[device_id peer := peer]> s
             | None => s
             end
    | ServiceRemoved _ => set_peers (filter (λ _, True)) s
    | _ => s
    end
  else s.

Definition fresh (now : Z) (peer : PeerInfo) : bool := now - last_seen peer <? 300 * 10 ^ 9.
Definition browse_peers (now : Z) : service (list PeerInfo) :=
  _ ← modify_st (set_peers (filter (λ '(_, peer), fresh now peer = true)));
  s ← get_st;
  mret (map snd (map_iter (discovered_peers s))).
Definition get_peer (id : string) (s : DiscoveryService) : option PeerInfo := discovered_peers s !! id.
Definition get_all_peers (s : DiscoveryService) : list PeerInfo := map snd (map_iter (discovered_peers s)).
Definition update_peer (peer : PeerInfo) : DiscoveryService → DiscoveryService := set_peers <[device_id peer := peer]>.
Definition remove_peer (id : string) (s : DiscoveryService) : DiscoveryService * option PeerInfo :=
  (set_peers (delete id) s, discovered_peers s !! id).
Definition peer_count (s : DiscoveryService) : Z := Z.of_nat (size (discovered_peers s)).
Definition is_running (s : DiscoveryService) : bool := running s.
Definition stop (a : MdnsAnswers) : service unit :=
  s ← get_st;
  if running s then
    _ ← modify_st (λ s, set_flags (daemon_up s) (running s) (has_receiver s) false s);
    _ ← lift (fail_if (negb (daemon_up s && shutdown_ok a)) ShutdownFailed);
    _ ← modify_st (λ s, set_flags false (running s) (has_receiver s) (processing s) s);
    _ ← modify_st (set_peers (λ _, ∅));
    modify_st (λ s, set_flags (daemon_up s) false (has_receiver s) (processing s) s)
  else mret tt.
(** It only logs. *)
Definition re_announce : service unit := mret tt.
End discovery.

(** ** Properties *)

Section properties.
Context `{MapIter}.
Implicit Types (s : DiscoveryService).

(** The peer that an event announces, and the last one announced under an identifier. *)
Definition announces (own : string) (ev : ServiceEvent) : option PeerInfo :=
  match ev with
  | ServiceResolved info now =>
      if bool_decide (properties info !! "device_id"%string = Some own) then None else parse_service_info info now
  | _ => None
  end.
Fixpoint last_announced (own id : string) (evs : list ServiceEvent) : option PeerInfo :=
  match evs with
  | [] => None
  | ev :: evs =>
      match last_announced own id evs with
      | Some p => Some p
      | None => p ← announces own ev; if bool_decide (device_id p = id) then Some p else None
      end
  end.
Lemma parse_id info now p : parse_service_info info now = Some p → properties info !! "device_id"%string = Some (device_id p).
Proof.
  unfold parse_service_info. destruct (properties info !! "device_id"%string) as [id|]; [|done].
  destruct (properties info !! "device_name"%string); [|done]. cbn.
  destruct (match List.find is_v4 (addresses info) with Some ip => Some ip | None => head (addresses info) end); [|done].
  cbn. by intros [= <-].
Qed.
Lemma process_announced ev s : processing s = true →
  process_event ev s = match announces (own_id s) ev with Some p => set_peers <[device_id p := p]> s | None => process_event ev s end ∧
  own_id (process_event ev s) = own_id s ∧ processing (process_event ev s) = true ∧
  ∀ id, discovered_peers (process_event ev s) !! id =
    match announces (own_id s) ev with
    | Some p => if bool_decide (device_id p = id) then Some p else discovered_peers s !! id
    | None => discovered_peers s !! id
    end.
Proof.
  intros Hp. unfold process_event, announces. rewrite Hp. destruct ev as [| |info now|name|]; try done.
  - case_bool_decide; [done|]. destruct (parse_service_info info now) as [p|]; [|done].
    split_and!; [done..|]. intros id. cbn. case_bool_decide as Hid; [subst id; apply lookup_insert_eq|by apply lookup_insert_ne].
  - split_and!; [done..|]. intros id. cbn. by rewrite map_filter_id.
Qed.
Lemma process_all evs s id : processing s = true →
  discovered_peers (foldl (flip process_event) s evs) !! id =
    match last_announced (own_id s) id evs with Some p => Some p | None => discovered_peers s !! id end.
Proof.
  revert s. induction evs as [|ev evs IH]; intros s Hp; [done|]. cbn [foldl last_announced flip].
  destruct (process_announced ev s Hp) as (_ & Hown & Hp' & Hl). rewrite IH, Hown by done.
  destruct (last_announced (own_id s) id evs); [done|]. rewrite Hl.
  destruct (announces (own_id s) ev) as [p|]; [|done]. cbn. by case_bool_decide.
Qed.
Lemma announced_id own id evs p : last_announced own id evs = Some p → device_id p = id ∧ device_id p ≠ own.
Proof.
  induction evs as [|ev evs IH]; [done|]. cbn. destruct (last_announced own id evs) as [q|]; [exact IH|].
  destruct (announces own ev) as [q|] eqn:Ha; [|done]. cbn. case_bool_decide as Hid; [|done]. intros [= ->].
  split; [done|]. unfold announces in Ha. destruct ev as [| |info now| |]; try done.
  case_bool_decide as Hown; [done|]. apply parse_id in Ha. congruence.
Qed.

(** Browsing returns, for each identifier but the own one, the peer as it was
    resolved last, if that is less than five minutes ago, once; a service that was
    announced as removed is still returned. *)
Theorem browse_finds_recent evs now s : processing s = true → discovered_peers s = ∅ →
  let '(s', r) := browse_peers now (foldl (flip process_event) s evs) in
  ∃ ps, r = Ok ps ∧ NoDup (map device_id ps) ∧
    ∀ p, p ∈ ps ↔ last_announced (own_id s) (device_id p) evs = Some p ∧ fresh now p = true.
Proof.
  intros Hp Hnil. unfold browse_peers. erewrite st_bind_eq by done. erewrite st_bind_eq by done.
  set (s1 := foldl (flip process_event) s evs).
  assert (∀ id, discovered_peers s1 !! id = last_announced (own_id s) id evs) as Hl.
  { intros id. unfold s1. rewrite process_all by done. rewrite Hnil, lookup_empty. by destruct (last_announced _ _ _). }
  set (m := discovered_peers (set_peers _ s1)).
  assert (∀ id p, m !! id = Some p ↔ last_announced (own_id s) id evs = Some p ∧ fresh now p = true) as Hm.
  { intros id p. unfold m. cbn. rewrite map_lookup_filter_Some, Hl. done. }
  cbn [mret st_ret]. eexists. split; [reflexivity|].
  assert (∀ id p, (id, p) ∈ map_iter m → id = device_id p) as Hid.
  { intros id p Hin%elem_of_map_iter. apply Hm in Hin as [Ha _]. symmetry. by apply (announced_id (own_id s) id evs). }
  split.
  - assert (map device_id (map snd (map_iter m)) = (map_iter m).*1) as ->; [|apply NoDup_map_iter].
    rewrite map_map. apply map_ext_in. intros [id p] Hin%list_elem_of_In. symmetry. exact (Hid id p Hin).
  - intros p. rewrite <- Hm, <- elem_of_map_iter. split.
    + intros ([id q] & -> & Hin)%list_elem_of_fmap. cbn. by rewrite <- (Hid id q Hin).
    + intros Hin. apply list_elem_of_fmap. by exists (device_id p, p).
Qed.

(** What may be asked of a service. *)
Inductive Request :=
  | RStart (a : MdnsAnswers) (p : Z) (caps : list string)
  | RStop (a : MdnsAnswers)
  | REvent (ev : ServiceEvent)
  | RBrowse (now : Z).
Definition run_request (s : DiscoveryService) (r : Request) : DiscoveryService :=
  match r with
  | RStart a p caps => (start_advertising a p caps s).1
  | RStop a => (stop a s).1
  | REvent ev => process_event ev s
  | RBrowse now => (browse_peers now s).1
  end.
Definition finished s : Prop := daemon_up s = false ∧ running s = false ∧ processing s = false ∧ discovered_peers s = ∅.
Lemma finished_start a p caps s : finished s → finished (start_advertising a p caps s).1 ∧ is_ok (start_advertising a p caps s).2 = false.
Proof.
  intros (Hd & Hr & Hp & He). unfold start_advertising. erewrite st_bind_eq by done. rewrite Hr.
  erewrite st_bind_eq by done. erewrite st_bind_eq by done. cbn [own_id set_service].
  assert (finished (set_service p caps s)) as Hf by done.
  destruct (first_bytes 8 (own_id s)); [|done]. erewrite st_bind_eq by done.
  destruct (service_ok a); [|done]. erewrite st_bind_eq by done.
  unfold mbind, st_bind, lift, fail_if. by rewrite Hd.
Qed.
Lemma finished_request s r : finished s → finished (run_request s r).
Proof.
  intros Hf. pose proof Hf as (Hd & Hr & Hp & He). destruct r as [a p caps|a|ev|now]; cbn [run_request].
  - by apply finished_start.
  - unfold stop. erewrite st_bind_eq by done. by rewrite Hr.
  - unfold process_event. by rewrite Hp.
  - unfold finished, browse_peers. cbn. split_and!; [done..|]. unfold mbind, st_bind, modify_st, get_st. cbn.
    by rewrite He, map_filter_empty.
Qed.

(** A service that was stopped finds no peer any more: the mDNS daemon has been shut
    down with it, so every later start fails, whatever happens in between. The network
    monitor stops and starts it when the interfaces change. *)
Theorem stopped_service_stays_stopped a s s' requests a' p caps :
  running s = true → stop a s = (s', Ok tt) →
  let s'' := foldl run_request s' requests in
  is_ok (start_advertising a' p caps s'').2 = false ∧ running s'' = false ∧ discovered_peers s'' = ∅.
Proof.
  intros Hrun Hstop.
  assert (finished s') as Hf.
  { revert Hstop. unfold stop. erewrite st_bind_eq by done. rewrite Hrun. erewrite st_bind_eq by done. cbn [daemon_up set_flags].
    destruct (daemon_up s && shutdown_ok a); [|done]. erewrite st_bind_eq by done. erewrite st_bind_eq by done.
    erewrite st_bind_eq by done. unfold modify_st. by intros [= <-]. }
  enough (finished (foldl run_request s' requests)) as Hf'.
  { split_and!; [by apply finished_start|apply Hf'..]. }
  clear Hstop. revert s' Hf. induction requests as [|r rs IH]; intros s' Hf; [done|]. cbn. by apply IH, finished_request.
Qed.

(** Two devices that start in the same second, with host names that begin with the
    same eight characters, have the same identifier, and each one takes the other's
    service for its own. *)
Theorem same_second_invisible t h h' n n' a p caps s0 s s0' info now :
  new_service true t h n = Ok s0 → start_advertising a p caps s0 = (s, Ok tt) →
  new_service true t h' n' = Ok s0' → take_chars 8 h = take_chars 8 h' →
  properties info !! "device_id"%string = Some (own_id s0') →
  processing s = true ∧ process_event (ServiceResolved info now) s = s.
Proof.
  intros [= <-] Hstart [= <-] Hh Hinfo. cbn [own_id] in Hinfo.
  revert Hstart. unfold start_advertising. erewrite st_bind_eq by done. erewrite st_bind_eq by done.
  erewrite st_bind_eq by done. cbn [own_id set_service].
  destruct (first_bytes 8 (generate_device_id t h)); [|done]. erewrite st_bind_eq by done.
  destruct (service_ok a); [|done]. erewrite st_bind_eq by done. cbn [daemon_up set_service andb].
  destruct (register_ok a); [|done]. erewrite st_bind_eq by done. unfold start_browsing, mbind, st_bind, get_st, lift, fail_if, modify_st.
  cbn [daemon_up set_service andb]. destruct (browse_ok a); [|done]. cbn. intros [= <-]. split; [done|].
  unfold process_event. cbn. rewrite Hinfo. rewrite bool_decide_true; [done|]. unfold generate_device_id. by rewrite Hh.
Qed.
End properties.

Module Examples.
#[local] Existing Instance gmap_order.
Definition fine : MdnsAnswers := {| service_ok := true; register_ok := true; browse_ok := true; shutdown_ok := true |}.
Definition created : DiscoveryService := from_ok
  {| own_id := ""; own_name := ""; daemon_up := false; discovered_peers := ∅; running := false; service_port := 0;
     own_capabilities := []; has_receiver := false; processing := false |} (new_service true 1700000000 "laptop-a" "A").
Definition online : DiscoveryService := (start_advertising fine 9990 ["sync"%string] created).1.
Definition service (id name : string) : ServiceInfo :=
  {| properties := <["device_id"%string := id]> (<["device_name"%string := name]> {["capabilities"%string := "sync,transfer"%string]});
     addresses := [V6 "fe80::1"; V4 "10.0.0.2"]; port := 9990 |}.
Definition news : list ServiceEvent :=
  [ServiceResolved (service "b" "old name") 0; ServiceResolved (service "6553f100_laptop-a" "A") 1;
   ServiceResolved (service "b" "B") (200 * 10 ^ 9); ServiceRemoved "landropic-b"].

Lemma browse_finds_recent_witness :
  map (λ p, (device_name p, address p)) (from_ok [] (browse_peers (400 * 10 ^ 9) (foldl (flip process_event) online news)).2)
    = [("B"%string, (V4 "10.0.0.2", 9990))] ∧
  let '(s', r) := browse_peers (400 * 10 ^ 9) (foldl (flip process_event) online news) in
  ∃ ps, r = Ok ps ∧ NoDup (map device_id ps) ∧
    ∀ p, p ∈ ps ↔ last_announced (own_id online) (device_id p) news = Some p ∧ fresh (400 * 10 ^ 9) p = true.
Proof. split; [by vm_compute|]. by apply (browse_finds_recent news (400 * 10 ^ 9) online). Defined.

Lemma stopped_service_stays_stopped_witness :
  is_ok (start_advertising fine 9876 ["sync"%string; "transfer"%string] (stop fine online).1).2 = false.
Proof.
  by apply (stopped_service_stays_stopped fine online (stop fine online).1 [] fine 9876 ["sync"%string; "transfer"%string]).
Defined.

Lemma same_second_invisible_witness : process_event (ServiceResolved (service "6553f100_laptop-a" "B") 7) online = online.
Proof.
  apply (same_second_invisible 1700000000 "laptop-a" "laptop-annex" "A" "B" fine 9990 ["sync"%string] created online
    (from_ok created (new_service true 1700000000 "laptop-annex" "B")) (service "6553f100_laptop-a" "B") 7);
    [reflexivity|reflexivity|reflexivity|reflexivity|by vm_compute].
Defined.
End Examples.
