(* ===== verification/Network.v ===== *)
(** The connection manager of the daemon: landro-daemon/src/network.rs.

    It finds peers with the service of [Discovery] and keeps a pool of [Pool] for
    each of them. Times are nanoseconds of the monotonic clock; what the attempts to
    connect give is an input, an attempt that a timeout cuts off being one that
    times out. The permits of the semaphore are taken and given back within one call
    and are not modelled. A pool that is replaced or shut down closes its
    connections, which are then [dropped]. *)

From S2P Require Import Prelude Resilience Pool.
From S2P Require Discovery.
From Stdlib Require Import ZArith Lia.
From stdpp Require Import base option list gmap sets strings pretty numbers sorting.
Import Discovery(SocketAddr, PeerInfo, DiscoveryService, MdnsAnswers).
#[local] Existing Instance Discovery.IpAddr_eq_dec.
#[local] Existing Instance Discovery.IpAddr_countable.
Open Scope Z_scope.

(** ** Data *)

Definition secs (n : Z) : Z := n * 10 ^ 9.
Record NetworkConfig := {
  max_connections_per_peer : Z;
  max_total_connections : Z;
  connection_idle_timeout : Z;
  health_check_interval : Z;
  max_health_check_failures : Z;
  connection_rate_limit : Z;
  backoff_base_delay : Z;
  max_backoff_delay : Z;
  interface_check_interval : Z;
}.
Definition NetworkConfig_default : NetworkConfig :=
  {| max_connections_per_peer := 2; max_total_connections := 50; connection_idle_timeout := secs 300;
     health_check_interval := secs 30; max_health_check_failures := 3; connection_rate_limit := 10;
     backoff_base_delay := 500 * 10 ^ 6; max_backoff_delay := secs 60; interface_check_interval := secs 10 |}.

Record PeerConnection := {
  peer_info : PeerInfo;
  connection_pool : ConnectionPool SocketAddr;
  last_health_check : Z;
  consecutive_failures : Z;
  peer_is_healthy : bool;
}.
Record ConnectionManager := {
  config : NetworkConfig;
  discovery : DiscoveryService;
  peers : gmap string PeerConnection;
  connection_attempts : gmap string (list Z);
  shutting_down : bool;
  last_interfaces : gset string;
  dropped : gset conn;
}.
Inductive NetworkError := RateLimited | NotDiscovered | ClientFailed | ConnectFailed (e : QuicError).
(** A call to a peer: whether a QUIC client can be made, and what its attempts give. *)
Record Dial := { client_ok : bool; attempts : Z → Attempt }.
Record PeerConnectionStats := {
  stats_peer : string;
  stats_name : string;
  stats_address : SocketAddr;
  stats_healthy : bool;
  stats_connections : Z;
  stats_failures : Z;
  stats_checked : Z;
}.
Record ConnectionStats := {
  total_peers : Z;
  healthy_peers : Z;
  unhealthy_peers : Z;
  all_connections : Z;
  peer_stats : list PeerConnectionStats;
}.

Section manager.
Context (checked : bool) `{MapIter}.
Abbreviation net := (st ConnectionManager NetworkError).

Definition new_manager (d : DiscoveryService) (cfg : NetworkConfig) : ConnectionManager :=
  {| config := cfg; discovery := d; peers := ∅; connection_attempts := ∅; shutting_down := false;
     last_interfaces := ∅; dropped := ∅ |}.
Definition set_peers (f : gmap string PeerConnection → gmap string PeerConnection) (self : ConnectionManager) : ConnectionManager :=
  {| config := config self; discovery := discovery self; peers := f (peers self);
     connection_attempts := connection_attempts self; shutting_down := shutting_down self;
     last_interfaces := last_interfaces self; dropped := dropped self |}.
Definition set_attempts (f : gmap string (list Z) → gmap string (list Z)) (self : ConnectionManager) : ConnectionManager :=
  {| config := config self; discovery := discovery self; peers := peers self;
     connection_attempts := f (connection_attempts self); shutting_down := shutting_down self;
     last_interfaces := last_interfaces self; dropped := dropped self |}.
Definition set_discovery (d : DiscoveryService) (ifs : gset string) (self : ConnectionManager) : ConnectionManager :=
  {| config := config self; discovery := d; peers := peers self;
     connection_attempts := connection_attempts self; shutting_down := shutting_down self;
     last_interfaces := ifs; dropped := dropped self |}.
(** The connections that a pool still has, closed. *)
Definition pool_connections (pl : ConnectionPool SocketAddr) : gset conn :=
  list_to_set (map connection (concat (map snd (map_iter (connections pl))))).
Definition drop_pool (pl : ConnectionPool SocketAddr) (self : ConnectionManager) : ConnectionManager :=
  {| config := config self; discovery := discovery self; peers := peers self;
     connection_attempts := connection_attempts self; shutting_down := shutting_down self;
     last_interfaces := last_interfaces self; dropped := pool_connections pl ∪ dropped self |}.
Definition set_pool (pl : ConnectionPool SocketAddr) (pc : PeerConnection) : PeerConnection :=
  {| peer_info := peer_info pc; connection_pool := pl; last_health_check := last_health_check pc;
     consecutive_failures := consecutive_failures pc; peer_is_healthy := peer_is_healthy pc |}.
Definition set_health (checked_at failures : Z) (healthy : bool) (pc : PeerConnection) : PeerConnection :=
  {| peer_info := peer_info pc; connection_pool := connection_pool pc; last_health_check := checked_at;
     consecutive_failures := failures; peer_is_healthy := healthy |}.

(** ** Connecting *)

Definition recent (window now t : Z) : bool := now - t <? window.
Definition check_rate_limit (id : string) (now : Z) : net bool := λ self,
  let kept := filter (λ t, recent (secs 1) now t = true) (default [] (connection_attempts self !! id)) in
  if connection_rate_limit (config self) <=? zlen kept
  then (set_attempts <[id := kept]> self, Ok false)
  else (set_attempts <[id := kept ++ [now]]> self, Ok true).
Definition calculate_backoff (id : string) (self : ConnectionManager) : outcome NetworkError Z :=
  match peers self !! id with
  | Some pc =>
      if 0 <? consecutive_failures pc then
        let multiplier := Z.min (2 ^ (consecutive_failures pc - 1)) u32_max in
        let delay := backoff_base_delay (config self) * multiplier in
        delay ← or_panic (if delay <=? duration_max then Some delay else None);
        mret (Z.min delay (max_backoff_delay (config self)))
      else mret 0
  | None => mret 0
  end.
(** One more failure, and unhealthy at the maximum. *)
Definition one_more_failure (cfg : NetworkConfig) (pc : PeerConnection) : outcome NetworkError PeerConnection :=
  n ← arith checked 32 (consecutive_failures pc + 1);
  mret (set_health (last_health_check pc) n
    (if max_health_check_failures cfg <=? n then false else peer_is_healthy pc) pc).
Definition record_connection_failure (id : string) : net unit := λ self,
  match peers self !! id with
  | Some pc =>
      match one_more_failure (config self) pc with
      | Ok pc => (set_peers <[id := pc]> self, Ok tt)
      | Err e => (self, Err e)
      | Panic => (self, Panic)
      end
  | None => (self, Ok tt)
  end.
Definition pool_config_of (cfg : NetworkConfig) : PoolConfig :=
  {| Pool.max_connections_per_peer := max_connections_per_peer cfg;
     Pool.max_total_connections := max_total_connections cfg;
     max_idle_time := connection_idle_timeout cfg;
     connect_timeout := Pool.connect_timeout PoolConfig_default;
     max_retry_attempts := Pool.max_retry_attempts PoolConfig_default;
     retry_delay := Pool.retry_delay PoolConfig_default |}.
(** The old pool of the peer, if there is one, is dropped when it is replaced. *)
Definition insert_peer (id : string) (pc : PeerConnection) (self : ConnectionManager) : ConnectionManager :=
  set_peers <[id := pc]> (match peers self !! id with Some old => drop_pool (connection_pool old) self | None => self end).
Definition connect_to_peer (id : string) (now : Z) (dial : Dial) : net conn :=
  allowed ← check_rate_limit id now;
  _ ← lift (fail_if (negb allowed) RateLimited);
  self ← get_st;
  info ← lift (ok_or NotDiscovered (Discovery.get_peer id (discovery self)));
  _ ← lift (calculate_backoff id self);
  _ ← lift (fail_if (negb (client_ok dial)) ClientFailed);
  let addr := Discovery.address info in
  match Pool.get_connection checked addr now (attempts dial) (new_pool (pool_config_of (config self))) with
  | (pl, Ok c) =>
      _ ← modify_st (insert_peer id {| peer_info := info; connection_pool := pl; last_health_check := now;
            consecutive_failures := 0; peer_is_healthy := true |});
      mret c
  | (_, Err e) =>
      _ ← record_connection_failure id;
      lift (Err (ConnectFailed e))
  | (_, Panic) => lift Panic
  end.
(** A healthy peer's pool is asked first. *)
Definition get_connection (id : string) (now : Z) (pool_attempts : Z → Attempt) (dial : Dial) : net conn := λ self,
  match peers self !! id with
  | Some pc =>
      if peer_is_healthy pc then
        match Pool.get_connection checked (Discovery.address (peer_info pc)) now pool_attempts (connection_pool pc) with
        | (pl, Ok c) => (set_peers <[id := set_pool pl pc]> self, Ok c)
        | (pl, Err _) => connect_to_peer id now dial (set_peers <[id := set_pool pl pc]> self)
        | (pl, Panic) => (set_peers <[id := set_pool pl pc]> self, Panic)
        end
      else connect_to_peer id now dial self
  | None => connect_to_peer id now dial self
  end.

(** ** The tasks *)

(** A round of the discovery task: the peers that a connection is tried to. *)
Definition discovery_tick (now : Z) : net (list string) := λ self,
  if shutting_down self then (self, Ok [])
  else
    let '(d, found) := Discovery.browse_peers now (discovery self) in
    (set_discovery d (last_interfaces self) self,
     match found with
     | Ok ps => Ok (filter (λ id, peers self !! id = None) (map Discovery.device_id ps))
     | _ => Ok []
     end).
(** A health check of one peer: its pool is asked for a connection. *)
Definition check_health (now : Z) (connect : Z → Attempt) (cfg : NetworkConfig) (pc : PeerConnection) :
    outcome NetworkError PeerConnection :=
  match Pool.get_connection checked (Discovery.address (peer_info pc)) now connect (connection_pool pc) with
  | (pl, Ok c) =>
      if bool_decide (c ∈ closed pl) then one_more_failure cfg (set_pool pl pc)
      else mret (set_health now 0 true (set_pool pl pc))
  | (pl, Err _) => one_more_failure cfg (set_pool pl pc)
  | (_, Panic) => Panic
  end.
Definition due (cfg : NetworkConfig) (now : Z) (pc : PeerConnection) : bool :=
  health_check_interval cfg <? now - last_health_check pc.
Fixpoint check_peers (now : Z) (connect : string → Z → Attempt) (ids : list string) : net unit :=
  match ids with
  | [] => mret tt
  | id :: ids =>
      self ← get_st;
      _ ← match peers self !! id with
          | Some pc =>
              pc ← lift (check_health now (connect id) (config self) pc);
              modify_st (set_peers <[id := pc]>)
          | None => mret tt
          end;
      check_peers now connect ids
  end.
Definition health_tick (now : Z) (connect : string → Z → Attempt) : net unit :=
  self ← get_st;
  if shutting_down self then mret tt
  else check_peers now connect
         (omap (λ '(id, pc), if due (config self) now pc then Some id else None) (map_iter (peers self))).
(** [free]: whether the lock of the discovery service can be had at once. *)
Definition interface_tick (current : gset string) (free : bool) (a : MdnsAnswers) (self : ConnectionManager) : ConnectionManager :=
  if shutting_down self then self
  else if negb (bool_decide (current = last_interfaces self)) && negb (bool_decide (last_interfaces self = ∅)) then
    let d := if free
      then (Discovery.start_advertising a 9876 ["sync"%string; "transfer"%string] (Discovery.stop a (discovery self)).1).1
      else discovery self in
    set_discovery d current self
  else if bool_decide (last_interfaces self = ∅) then set_discovery (discovery self) current self
  else self.
Definition attempts_tick (now : Z) (self : ConnectionManager) : ConnectionManager :=
  if shutting_down self then self
  else set_attempts (λ m, filter (λ '(_, l), l ≠ []) (filter (λ t, recent (secs 60) now t = true) <$> m)) self.
(** The pools' own tasks. *)
Definition pool_cleanup (id : string) (now : Z) (self : ConnectionManager) : ConnectionManager :=
  set_peers (alter (λ pc, set_pool (cleanup now (connection_pool pc)) pc) id) self.

Definition stats_step (stats : ConnectionStats) '((id, pc) : string * PeerConnection) : ConnectionStats :=
  let addr := Discovery.address (peer_info pc) in
  let n := default 0 (Pool.get_stats (connection_pool pc) !! addr) in
  {| total_peers := total_peers stats;
     healthy_peers := healthy_peers stats + (if peer_is_healthy pc then 1 else 0);
     unhealthy_peers := unhealthy_peers stats + (if peer_is_healthy pc then 0 else 1);
     all_connections := all_connections stats + n;
     peer_stats := peer_stats stats ++
       [{| stats_peer := id; stats_name := Discovery.device_name (peer_info pc); stats_address := addr;
           stats_healthy := peer_is_healthy pc; stats_connections := n; stats_failures := consecutive_failures pc;
           stats_checked := last_health_check pc |}] |}.
Definition get_stats (self : ConnectionManager) : ConnectionStats :=
  foldl stats_step {| total_peers := zlen (map_iter (peers self)); healthy_peers := 0; unhealthy_peers := 0;
                      all_connections := 0; peer_stats := [] |} (map_iter (peers self)).
Definition shutdown (self : ConnectionManager) : ConnectionManager :=
  {| config := config self; discovery := discovery self;
     peers := (λ pc, set_pool (Pool.shutdown (connection_pool pc)) pc) <$> peers self;
     connection_attempts := connection_attempts self; shutting_down := true; last_interfaces := last_interfaces self;
     dropped := ⋃ (map (λ '(_, pc), pool_connections (connection_pool pc)) (map_iter (peers self))) ∪ dropped self |}.
End manager.

(** ** The rate limit *)

Section rate_limit.
Context (checked : bool) `{MapIter}.
Implicit Types (self : ConnectionManager) (id : string).

(** Checks for one peer, and rounds of the task that cleans up. *)
Inductive RateEvent := RCheck (now : Z) | RClean (now : Z).
Definition event_time (ev : RateEvent) : Z := match ev with RCheck now | RClean now => now end.
(** The times at which an attempt was allowed. *)
Fixpoint allowed_times id (evs : list RateEvent) self : list Z :=
  match evs with
  | [] => []
  | RCheck now :: evs =>
      let '(self, r) := check_rate_limit id now self in
      (if from_ok false r then [now] else []) ++ allowed_times id evs self
  | RClean now :: evs => allowed_times id evs (attempts_tick now self)
  end.
Definition stored id self : list Z := default [] (connection_attempts self !! id).

(** What is forgotten is at the front, and out of the window. *)
Lemma sorted_recent window now (l : list Z) : StronglySorted Z.le l →
  ∃ old, l = old ++ filter (λ t, recent window now t = true) l ∧ Forall (λ t, window ≤ now - t) old.
Proof.
  induction 1 as [|t l Hs (old & Hl & Hold) Ht]; [by exists []|].
  rewrite filter_cons. destruct (decide (recent window now t = true)) as [Hr|Hr].
  - exists []. split; [|done]. cbn. f_equal.
    assert (Forall (λ t, recent window now t = true) l) as Hall.
    { rewrite Forall_forall in Ht |- *. intros u Hu. specialize (Ht u Hu). unfold recent in *.
      apply Z.ltb_lt. apply Z.ltb_lt in Hr. lia. }
    clear -Hall. induction Hall as [|u l Hu _ IH]; [done|]. rewrite filter_cons, decide_True by done. congruence.
  - exists (t :: old). split; [cbn; congruence|]. constructor; [|done]. unfold recent in Hr.
    apply not_true_iff_false, Z.ltb_ge in Hr. done.
Qed.
(** The stored times are the allowed ones but some that are at least a second old. *)
Definition tracks (A L : list Z) (last : Z) : Prop :=
  StronglySorted Z.le A ∧ Forall (λ t, t ≤ last) A ∧ ∃ old, A = old ++ L ∧ Forall (λ t, secs 1 ≤ last - t) old.
Definition spaced (k : nat) (A : list Z) : Prop :=
  ∀ i a b, A !! i = Some a → A !! (i + k)%nat = Some b → secs 1 ≤ b - a.
Lemma tracks_recent window now A L last : tracks A L last → secs 1 ≤ window → last ≤ now →
  tracks A (filter (λ t, recent window now t = true) L) now.
Proof.
  intros (Hs & Hle & old & -> & Hold) Hw Hnow. apply StronglySorted_app in Hs as Hs'. destruct Hs' as (_ & _ & HL).
  destruct (sorted_recent window now L HL) as (old' & HLeq & Hold'). split; [done|]. split.
  - eapply Forall_impl; [exact Hle|]. intros; cbn in *; lia.
  - exists (old ++ old'). split; [by rewrite <- app_assoc, <- HLeq|]. apply Forall_app. split.
    + eapply Forall_impl; [exact Hold|]. intros; cbn in *; lia.
    + eapply Forall_impl; [exact Hold'|]. intros; cbn in *; lia.
Qed.
Lemma tracks_allow A L now : tracks A L now → tracks (A ++ [now]) (L ++ [now]) now.
Proof.
  intros (Hs & Hle & old & -> & Hold). split; [|split].
  - apply StronglySorted_app. split; [|split; [done|repeat constructor]].
    intros x y Hx ->%list_elem_of_singleton. rewrite Forall_forall in Hle. by apply Hle.
  - apply Forall_app. split; [done|]. repeat constructor. lia.
  - exists old. by rewrite app_assoc.
Qed.
Lemma spaced_allow k A L now : tracks A L now → (length L < k)%nat → spaced k A → spaced k (A ++ [now]).
Proof.
  intros (_ & _ & old & -> & Hold) HL Hsp i a b Ha Hb.
  destruct (decide (i + k = length (old ++ L))%nat) as [Hi|Hi].
  - rewrite Hi, lookup_app_r, Nat.sub_diag in Hb by done. injection Hb as <-.
    rewrite length_app in Hi. rewrite lookup_app_l in Ha by (rewrite length_app; lia).
    rewrite lookup_app_l in Ha by lia. rewrite Forall_forall in Hold. apply Hold. by eapply list_elem_of_lookup_2.
  - assert (i + k < length (old ++ L))%nat.
    { apply lookup_lt_Some in Hb. rewrite !length_app in *. cbn in Hb. lia. }
    rewrite lookup_app_l in Ha, Hb by lia. by eapply Hsp.
Qed.
Lemma attempts_tick_stored id now self : shutting_down self = false →
  stored id (attempts_tick now self) = filter (λ t, recent (secs 60) now t = true) (stored id self).
Proof.
  intros Hs. unfold attempts_tick, stored. rewrite Hs. cbn.
  destruct (connection_attempts self !! id) as [l|] eqn:Hl; cbn.
  - destruct (filter (λ t, recent (secs 60) now t = true) l) as [|t l'] eqn:Hf.
    + rewrite map_lookup_filter_None_2; [done|]. right. intros l' Hl' Hn. rewrite lookup_fmap, Hl in Hl'. cbn in Hl'. congruence.
    + rewrite (map_lookup_filter_Some_2 _ _ id (t :: l')); [done| |done]. by rewrite lookup_fmap, Hl, <- Hf.
  - rewrite map_lookup_filter_None_2; [done|]. left. by rewrite lookup_fmap, Hl.
Qed.
Lemma allowed_spaced id evs self A last : shutting_down self = false →
  StronglySorted Z.le (last :: map event_time evs) → tracks A (stored id self) last →
  spaced (Z.to_nat (connection_rate_limit (config self))) A →
  spaced (Z.to_nat (connection_rate_limit (config self))) (A ++ allowed_times id evs self).
Proof.
  revert self A last. induction evs as [|ev evs IH]; intros self A last Hsh Hsort Htr Hsp; cbn [allowed_times];
    [by rewrite app_nil_r|].
  cbn [map] in Hsort. apply StronglySorted_inv in Hsort as [Hsort Hlast]. apply Forall_cons in Hlast as [Hnow _].
  destruct ev as [now|now]; cbn [event_time] in *.
  - unfold check_rate_limit. set (kept := filter _ _).
    assert (tracks A kept now) as Htr' by (eapply tracks_recent; [exact Htr|done|done]).
    destruct (connection_rate_limit (config self) <=? zlen kept) eqn:Hlim; cbn [from_ok app].
    + apply (IH (set_attempts <[id := kept]> self) A now); [done|done| |done].
      unfold stored. cbn. by rewrite lookup_insert_eq.
    + apply Z.leb_gt in Hlim. rewrite (cons_middle now), app_assoc.
      apply (IH (set_attempts <[id := kept ++ [now]]> self) (A ++ [now]) now); [done|done| |].
      * unfold stored. cbn. rewrite lookup_insert_eq. by apply tracks_allow.
      * apply (spaced_allow _ A kept); [done| |done]. cbn. unfold zlen in Hlim. lia.
  - assert (config (attempts_tick now self) = config self ∧ shutting_down (attempts_tick now self) = false) as [Hc Hs']
      by (unfold attempts_tick; rewrite Hsh; done).
    rewrite <- Hc. apply (IH (attempts_tick now self) A now); [done|done| |by rewrite Hc].
    rewrite attempts_tick_stored by done. eapply tracks_recent; [exact Htr|by vm_compute|done].
Qed.
End rate_limit.

(** ** Health checks *)

Section health.
Context (checked : bool) `{MapIter}.
Implicit Types (self : ConnectionManager) (id : string) (pc : PeerConnection).

Definition addr_of pc : SocketAddr := Discovery.address (peer_info pc).
(** The pool of a peer from which no connection was lost, with [k] gets left. *)
Record pool_left (cfg : NetworkConfig) pc (k : Z) : Prop := {
  left_only : only (addr_of pc) (connection_pool pc);
  left_config : pool_config (connection_pool pc) = pool_config_of cfg;
  left_len : zlen (peer_connections (connection_pool pc) (addr_of pc)) ≤ max_connections_per_peer cfg;
  left_credit : credit (addr_of pc) (connection_pool pc) = k;
}.
Definition reachable (connect : Z → Attempt) : Prop := ∃ c, connect 1 = Connects c.
(** With a peer that can be reached, the pool gives a connection or is at its limit. *)
Lemma get_reachable (addr : SocketAddr) (now : Z) (connect : Z → Attempt) (pl : ConnectionPool SocketAddr) : reachable connect → 1 ≤ max_retry_attempts (pool_config pl) →
  let '(_, r) := Pool.get_connection checked addr now connect pl in r ≠ Panic.
Proof.
  intros [c0 Hc0] Hretry. destruct (get_connection_cases checked addr now connect pl) as [l1 e l2| |r ? ? Hr Hok|c]; try done.
  unfold create_connection_with_retry in Hr. destruct (Z.to_nat (max_retry_attempts (pool_config pl))) eqn:Hn; [lia|].
  cbn [create_loop] in Hr. rewrite Hc0 in Hr. by subst.
Qed.
Definition limits_ok (cfg : NetworkConfig) : Prop :=
  1 ≤ max_connections_per_peer cfg ≤ max_total_connections cfg ∧ 1 ≤ max_health_check_failures cfg ∧ 0 ≤ health_check_interval cfg.

Lemma check_health_step cfg pc (now : Z) (connect : Z → Attempt) k : limits_ok cfg → pool_left cfg pc k → reachable connect →
  0 ≤ consecutive_failures pc < u32_max →
  0 ≤ k ∧ ∃ pc', check_health checked now connect cfg pc = Ok pc' ∧ peer_info pc' = peer_info pc ∧
    pool_left cfg pc' (k - (if bool_decide (0 < k) then 1 else 0)) ∧
    if bool_decide (0 < k) then last_health_check pc' = now ∧ consecutive_failures pc' = 0 ∧ peer_is_healthy pc' = true
    else last_health_check pc' = last_health_check pc ∧ consecutive_failures pc' = consecutive_failures pc + 1 ∧
      peer_is_healthy pc' = (if max_health_check_failures cfg <=? consecutive_failures pc + 1 then false else peer_is_healthy pc).
Proof.
  intros (Hm & _ & _) [Honly Hcfg Hlen Hk] Hc Hf. unfold check_health.
  fold (addr_of pc). set (addr := addr_of pc) in *. set (pl := connection_pool pc) in *.
  pose proof (get_credit checked addr now connect pl) as Hget. rewrite Hcfg in Hget.
  specialize (Hget Hlen Hm ltac:(done) Hc Honly).
  pose proof (get_reachable addr now connect pl Hc) as Hnp. rewrite Hcfg in Hnp. specialize (Hnp ltac:(done)).
  destruct (Pool.get_connection checked addr now connect pl) as [pl' r].
  destruct Hget as (Honly' & Hcfg' & Hlen' & Hk0 & Hok & Hk'). rewrite Hk in *. split; [done|].
  assert (pool_left cfg (set_pool pl' pc) (k - (if is_ok r then 1 else 0))) as Hleft by (by split).
  rewrite Hok in Hleft. destruct r as [c|e|]; [|..|done]; cbn [is_ok] in Hok; symmetry in Hok.
  - rewrite (bool_decide_false (c ∈ closed pl')) by (rewrite (proj1 Honly'); set_solver).
    rewrite Hok in *. eexists. split; [reflexivity|]. split; [done|]. split; [|done]. by destruct Hleft.
  - unfold one_more_failure. rewrite arith_exact by (cbn; lia). rewrite Hok in *.
    eexists. split; [reflexivity|]. split; [done|]. split; [|done]. by destruct Hleft.
Qed.

Lemma health_tick_single id now connect self pc pc' : peers self = {[id := pc]} → shutting_down self = false →
  due (config self) now pc = true → check_health checked now (connect id) (config self) pc = Ok pc' →
  health_tick checked now connect self = (set_peers <[id := pc']> self, Ok tt).
Proof.
  intros Hp Hs Hd Hc. unfold health_tick. erewrite st_bind_eq by done. rewrite Hs, Hp.
  assert (map_iter {[id := pc]} = [(id, pc)]) as ->.
  { apply Permutation_singleton_r. by rewrite map_iter_perm, map_to_list_singleton. }
  cbn [omap list_omap]. rewrite Hd. cbn [check_peers]. erewrite st_bind_eq by done.
  rewrite Hp, lookup_singleton_eq. erewrite st_bind_eq; [reflexivity|].
  erewrite st_bind_eq by (unfold lift; by rewrite Hc). done.
Qed.

(** A run of the health task, and the peer as [n] checks leave it. *)
Definition checks (self : ConnectionManager) (ts : list (Z * (string → Z → Attempt))) : ConnectionManager :=
  foldl (λ self '(now, connect), (health_tick checked now connect self).1) self ts.
Lemma checks_single id cfg ts : limits_ok cfg → ∀ self pc k f last, config self = cfg → shutting_down self = false →
  peers self = {[id := pc]} → pool_left cfg pc k → 0 ≤ k → consecutive_failures pc = f → 0 ≤ f → (0 < k → f = 0) →
  f + zlen ts < u32_max → peer_is_healthy pc = bool_decide (f < max_health_check_failures cfg) → last_health_check pc ≤ last →
  StronglySorted (λ a b, a + health_check_interval cfg < b) (last :: map fst ts) →
  Forall (λ t, reachable (t.2 id)) ts →
  ∃ pc', peers (checks self ts) = {[id := pc']} ∧ closed (connection_pool pc') = ∅ ∧
    peer_is_healthy pc' = bool_decide (f + zlen ts - k < max_health_check_failures cfg).
Proof.
  intros Hlim. induction ts as [|[now connect] ts IH];
    intros self pc k f last Hcfg Hsh Hp Hleft Hk Hf Hf0 Hkf Hbound Hh Hlast Hsort Hreach.
  - exists pc. split; [done|]. split; [apply (left_only _ _ _ Hleft)|]. rewrite Hh. apply bool_decide_ext.
    change (zlen []) with 0. destruct (decide (0 < k)) as [Hk0|]; [|by replace k with 0 by lia; lia].
    rewrite Hkf by done. destruct Hlim as (_ & ? & _). lia.
  - rewrite zlen_cons in *. cbn [map fst] in Hsort. apply Forall_cons in Hreach as [Hr Hreach].
    apply StronglySorted_inv in Hsort as [Hsort Hnow]. apply Forall_cons in Hnow as [Hnow _].
    pose proof (zlen_nonneg ts).
    destruct (check_health_step cfg pc now (connect id) k Hlim Hleft Hr) as (_ & pc1 & Hcheck & Hinfo & Hleft1 & Hres); [lia|].
    assert (due (config self) now pc = true) as Hdue by (unfold due; rewrite Hcfg; apply Z.ltb_lt; lia).
    change (checks self ((now, connect) :: ts)) with (checks (health_tick checked now connect self).1 ts).
    rewrite (health_tick_single id now connect self pc pc1); [cbn [fst]|done..|by rewrite Hcfg].
    assert (peers (set_peers <[id := pc1]> self) = {[id := pc1]}) as Hp1 by (cbn; rewrite Hp; apply insert_singleton_eq).
    pose proof Hlim as (_ & Hmaxf & Hint). case_bool_decide as Hk0.
    + destruct Hres as (Hl1 & Hf1 & Hh1). specialize (Hkf Hk0).
      destruct (IH (set_peers <[id := pc1]> self) pc1 (k - 1) 0 now) as (pc' & Hp' & Hc' & Hh'); try done; try lia.
      { rewrite Hh1. symmetry. apply bool_decide_eq_true. lia. }
      exists pc'. split_and!; [done..|]. rewrite Hh'. apply bool_decide_ext. lia.
    + destruct Hres as (Hl1 & Hf1 & Hh1).
      destruct (IH (set_peers <[id := pc1]> self) pc1 (k - 0) (f + 1) now) as (pc' & Hp' & Hc' & Hh'); try done; try lia.
      { rewrite Hh1, Hh, Hf. destruct (Z.leb_spec (max_health_check_failures cfg) (f + 1));
          [symmetry; apply bool_decide_eq_false; lia|]. rewrite !bool_decide_true by lia. done. }
      exists pc'. split_and!; [done..|]. rewrite Hh'. apply bool_decide_ext. lia.
Qed.
End health.

(** ** Properties *)

Section properties.
Context (checked : bool) `{MapIter}.
Implicit Types (self : ConnectionManager) (id : string) (pc : PeerConnection).

Lemma check_rate_limit_same id now self :
  let self' := (check_rate_limit id now self).1 in
  config self' = config self ∧ discovery self' = discovery self ∧ peers self' = peers self ∧
  shutting_down self' = shutting_down self ∧ dropped self' = dropped self.
Proof using Type. unfold check_rate_limit. by destruct (_ <=? _). Qed.
(** A call that succeeds: a fresh pool of the discovered address with one connection. *)
Lemma connect_Ok id now dial self self' c : connect_to_peer checked id now dial self = (self', Ok c) →
  ∃ info pl, Discovery.get_peer id (discovery self) = Some info ∧
    Pool.get_connection checked (Discovery.address info) now (attempts dial) (new_pool (pool_config_of (config self))) = (pl, Ok c) ∧
    self' = insert_peer id {| peer_info := info; connection_pool := pl; last_health_check := now; consecutive_failures := 0;
      peer_is_healthy := true |} (check_rate_limit id now self).1.
Proof.
  unfold connect_to_peer. intros (s1 & ok & Hrate & Hc)%st_bind_Ok.
  pose proof (check_rate_limit_same id now self) as Hsame. rewrite Hrate in Hsame. cbn [fst] in Hsame.
  destruct Hsame as (Hcfg & Hdisc & _). rewrite Hrate. cbn [fst].
  apply st_bind_Ok in Hc as (s2 & [] & Hallow & Hc). unfold lift in Hallow. injection Hallow as <- _.
  apply st_bind_Ok in Hc as (s3 & s4 & Hget & Hc). injection Hget as <- <-.
  apply st_bind_Ok in Hc as (s5 & info & Hinfo & Hc). unfold lift in Hinfo. injection Hinfo as <- Hinfo.
  apply ok_or_Ok in Hinfo. rewrite Hdisc in Hinfo.
  apply st_bind_Ok in Hc as (s6 & b & Hb & Hc). unfold lift in Hb. injection Hb as <- _.
  apply st_bind_Ok in Hc as (s7 & [] & Hcl & Hc). unfold lift in Hcl. injection Hcl as <- _.
  cbv zeta in Hc. rewrite Hcfg in Hc. exists info.
  destruct (Pool.get_connection checked (Discovery.address info) now (attempts dial) (new_pool (pool_config_of (config self)))) as [pl [c'|e|]] eqn:Hg.
  - exists pl. apply st_bind_Ok in Hc as (s8 & [] & Hm & Hc). injection Hm as <-. by injection Hc as <- <-.
  - exfalso. by apply st_bind_Ok in Hc as (s8 & [] & _ & Hc).
  - done.
Qed.
Lemma insert_peer_lookup id pc self : peers (insert_peer id pc self) = <[id := pc]> (peers self).
Proof using Type. unfold insert_peer. by destruct (peers self !! id). Qed.
Lemma pool_connections_spec (pl : ConnectionPool SocketAddr) q e : e ∈ peer_connections pl q → connection e ∈ pool_connections pl.
Proof using Type.
  unfold peer_connections, pool_connections. intros He. destruct (connections pl !! q) as [l|] eqn:Hq; [|by apply elem_of_nil in He].
  apply elem_of_list_to_set. apply list_elem_of_In, in_map, in_concat. exists l. split; [|by apply list_elem_of_In].
  apply in_map_iff. exists (q, l). split; [done|]. apply list_elem_of_In. by apply elem_of_map_iter.
Qed.

(** C40: The rate limit holds in every window of a second: whatever is asked about a
    peer and whenever old attempts are cleaned up, an attempt is only allowed if at
    least a second has passed since the one that was allowed as many attempts before
    as the limit says. *)
Theorem rate_limit_respected id evs self : shutting_down self = false → stored id self = [] →
  StronglySorted Z.le (map event_time evs) →
  let accepted := allowed_times id evs self in
  ∀ i a b, accepted !! i = Some a → accepted !! (i + Z.to_nat (connection_rate_limit (config self)))%nat = Some b →
    secs 1 ≤ b - a.
Proof using Type.
  intros Hs Hst Hsort. destruct evs as [|ev evs]; [done|].
  apply (allowed_spaced id (ev :: evs) self [] (event_time ev) Hs).
  - cbn [map] in *. constructor; [done|]. apply StronglySorted_inv in Hsort as [_ Hall].
    by constructor.
  - rewrite Hst. split; [constructor|]. split; [constructor|]. by exists [].
  - intros i a b Ha. done.
Qed.

(** Health checks wear out the peer that they check. A peer that was connected and
    is never lost is healthy for as many checks as its pool can hand out connections,
    [2 * max_connections_per_peer - 1], and for the failures that are allowed; from
    then on it is unhealthy, though every check could have reached it and all its
    connections are open. *)
Theorem healthy_peer_given_up id t0 dial self self' c ts : limits_ok (config self) → peers self = ∅ →
  shutting_down self = false → reachable (attempts dial) →
  connect_to_peer checked id t0 dial self = (self', Ok c) →
  StronglySorted (λ a b, a + health_check_interval (config self) < b) (t0 :: map fst ts) →
  Forall (λ t, reachable (t.2 id)) ts → zlen ts < u32_max →
  ∃ pc, peers (checks checked self' ts) = {[id := pc]} ∧ closed (connection_pool pc) = ∅ ∧
    peer_is_healthy pc = bool_decide
      (zlen ts < 2 * max_connections_per_peer (config self) - 1 + max_health_check_failures (config self)).
Proof.
  intros Hlim Hp Hs Hreach Hconn Hsort Hts Hlen. pose proof Hlim as (Hm & Hmaxf & _).
  destruct (connect_Ok id t0 dial self self' c Hconn) as (info & pl & _ & Hget & ->).
  destruct (check_rate_limit_same id t0 self) as (Hcfg1 & _ & Hp1 & Hs1 & _).
  set (self1 := (check_rate_limit id t0 self).1) in *.
  pose proof (get_credit checked (Discovery.address info) t0 (attempts dial) (new_pool (pool_config_of (config self)))) as Hcr.
  rewrite Hget in Hcr. cbn [pool_config new_pool] in Hcr.
  assert (credit (Discovery.address info) (new_pool (pool_config_of (config self))) = 2 * max_connections_per_peer (config self)) as Hk0.
  { change (2 * (max_connections_per_peer (config self) - 0) + 0 = 2 * max_connections_per_peer (config self)). lia. }
  destruct Hcr as (Honly & Hpcfg & Hplen & _ & _ & Hk); [change (0 ≤ max_connections_per_peer (config self)); lia|done|done|done|done|].
  rewrite Hk0 in Hk. cbn [is_ok] in Hk.
  set (pc0 := {| peer_info := info |}).
  destruct (checks_single checked id (config self) ts Hlim (insert_peer id pc0 self1) pc0
    (2 * max_connections_per_peer (config self) - 1) 0 t0) as (pc & Hpc & Hclosed & Hh); try done; try lia.
  - unfold insert_peer. destruct (peers self1 !! id); exact Hcfg1.
  - unfold insert_peer. destruct (peers self1 !! id); cbn; congruence.
  - by rewrite insert_peer_lookup, Hp1, Hp.
  - cbn. symmetry. apply bool_decide_eq_true. lia.
  - exists pc. split_and!; [done..|]. rewrite Hh. apply bool_decide_ext. lia.
Qed.

(** When a peer's pool has no connection to hand out, getting one replaces the pool,
    which closes every connection that the old one still had, in use or not. *)
Theorem reconnecting_closes_connections id now pool_attempts dial self self' pc e c :
  peers self !! id = Some pc → peer_is_healthy pc = true →
  (Pool.get_connection checked (addr_of pc) now pool_attempts (connection_pool pc)).2 = Err e →
  get_connection checked id now pool_attempts dial self = (self', Ok c) →
  (∀ q x, x ∈ peer_connections (connection_pool pc) q → connection x ∈ dropped self') ∧
  ∃ pc', peers self' !! id = Some pc' ∧ peer_is_healthy pc' = true ∧
    map connection (peer_connections (connection_pool pc') (addr_of pc')) = [c].
Proof.
  intros Hp Hh Herr Hget. unfold get_connection in Hget. rewrite Hp, Hh in Hget. fold (addr_of pc) in Hget.
  pose proof (get_connection_cases checked (addr_of pc) now pool_attempts (connection_pool pc)) as Hcase.
  destruct (Pool.get_connection checked (addr_of pc) now pool_attempts (connection_pool pc)) as [pl r]. cbn [snd] in Herr. subst r.
  assert (pl = connection_pool pc) as -> by by inversion Hcase.
  set (self0 := set_peers <[id := set_pool (connection_pool pc) pc]> self) in *.
  destruct (connect_Ok id now dial self0 self' c Hget) as (info & pl & _ & Hnew & ->).
  destruct (check_rate_limit_same id now self0) as (_ & _ & Hp1 & _ & Hd1).
  assert (peers (check_rate_limit id now self0).1 !! id = Some (set_pool (connection_pool pc) pc)) as Hold
    by (rewrite Hp1; cbn; apply lookup_insert_eq).
  split.
  - intros q x Hx. unfold insert_peer. rewrite Hold. cbn [dropped set_peers drop_pool connection_pool set_pool].
    apply elem_of_union_l. by eapply pool_connections_spec.
  - eexists. split; [rewrite insert_peer_lookup; apply lookup_insert_eq|]. split; [done|]. unfold addr_of. cbn [peer_info connection_pool].
    pose proof (get_connection_cases checked (Discovery.address info) now (attempts dial) (new_pool (pool_config_of (config self0)))) as Hnc.
    rewrite Hnew in Hnc. inversion Hnc as [l1 x l2 Hl| |r ? ? ? Hok|c' ? ? ?]; subst; [by cbn in Hl; rewrite lookup_empty in Hl|done|].
    by rewrite add_to_pool_connections, decide_True.
Qed.

Lemma unreachable_fails cfg connect n i last c : (∀ k c, connect k ≠ Connects c) → create_loop checked cfg connect n i last ≠ Ok c.
Proof using Type.
  intros Hno. revert i last. induction n as [|n IH]; intros i last; cbn [create_loop]; [done|].
  destruct (connect i) as [c'|e|] eqn:Hi; [by destruct (Hno i c')|..];
    (destruct (i <? Pool.max_retry_attempts cfg); [destruct (backoff checked cfg i)|]; cbn; [apply IH|done..|apply IH]).
Qed.
(** A peer that was never reached is tried again without any delay: failures are only
    counted for peers that were connected once. *)
Theorem first_contact_never_backs_off id (calls : list (Z * Dial)) self : peers self !! id = None →
  Forall (λ call, ∀ k c, attempts call.2 k ≠ Connects c) calls →
  let self' := foldl (λ self '(now, dial), (connect_to_peer checked id now dial self).1) self calls in
  peers self' !! id = None ∧ calculate_backoff id self' = Ok 0.
Proof.
  intros Hp Hno self'. enough (peers self' !! id = None) as Hp' by (split; [done|]; unfold calculate_backoff; by rewrite Hp').
  unfold self'. clear self'. revert self Hp. induction Hno as [|[now dial] calls Hdial _ IH]; intros self Hp; [done|].
  cbn [foldl]. apply IH. clear IH. cbn [snd] in Hdial. unfold connect_to_peer.
  destruct (check_rate_limit_same id now self) as (_ & _ & Hp1 & _).
  unfold mbind, st_bind. destruct (check_rate_limit id now self) as [s1 [ok|e|]]; cbn [fst] in Hp1; [|by cbn; rewrite ?Hp1..].
  unfold lift, get_st. destruct (fail_if _ RateLimited); [|by cbn; rewrite ?Hp1..].
  destruct (ok_or NotDiscovered _) as [info|e|]; [|by cbn; rewrite ?Hp1..].
  destruct (calculate_backoff id s1); [|by cbn; rewrite ?Hp1..].
  destruct (fail_if _ ClientFailed); [|by cbn; rewrite ?Hp1..].
  pose proof (get_connection_cases checked (Discovery.address info) now (attempts dial) (new_pool (pool_config_of (config s1)))) as Hcase.
  destruct (Pool.get_connection _ _ _ _ _) as [pl [c|e|]]; [exfalso| |by cbn; rewrite ?Hp1].
  - inversion Hcase as [l1 x l2 Hl| |r ? ? ? Hok|c' ? ? Hc]; subst;
      [by cbn in Hl; rewrite lookup_empty in Hl|done|by eapply unreachable_fails].
  - unfold record_connection_failure. rewrite Hp1, Hp. cbn. by rewrite ?Hp1.
Qed.
End properties.

(** ** A concrete manager *)

Module Examples.
#[local] Existing Instance gmap_order.
Definition bob : PeerInfo :=
  {| Discovery.device_id := "b"; Discovery.device_name := "Bob"; Discovery.address := (Discovery.V4 "10.0.0.2", 9990);
     Discovery.capabilities := ["sync"%string]; Discovery.last_seen := 0; Discovery.version := "0.1.0" |}.
Definition small : NetworkConfig :=
  {| max_connections_per_peer := 2; max_total_connections := 50; connection_idle_timeout := secs 300;
     health_check_interval := secs 30; max_health_check_failures := 3; connection_rate_limit := 2;
     backoff_base_delay := 500 * 10 ^ 6; max_backoff_delay := secs 60; interface_check_interval := secs 10 |}.
Definition begin : ConnectionManager := new_manager (Discovery.update_peer bob Discovery.Examples.online) small.
Definition reach (c : conn) : Z → Attempt := λ _, Connects c.
Definition dial (c : conn) : Dial := {| client_ok := true; attempts := reach c |}.
Definition joined : ConnectionManager := (connect_to_peer true "b" 0 (dial 1) begin).1.
(** Checks a minute apart. *)
Definition minutes (n : nat) : list (Z * (string → Z → Attempt)) :=
  map (λ k, (secs (60 * (Z.of_nat k + 1)), λ _, reach (Pos.of_succ_nat (S k)))) (seq 0 n).
Definition health_after (n : nat) : option bool := peer_is_healthy <$> peers (checks true joined (minutes n)) !! "b"%string.

Lemma rate_limit_respected_witness :
  allowed_times "b" [RCheck 0; RCheck 1; RCheck 2; RClean (secs 1); RCheck (secs 1); RCheck (secs 1)] begin = [0; 1; secs 1] ∧
  ∀ i a b, allowed_times "b" [RCheck 0; RCheck 1; RCheck 2; RClean (secs 1); RCheck (secs 1); RCheck (secs 1)] begin !! i = Some a →
    allowed_times "b" [RCheck 0; RCheck 1; RCheck 2; RClean (secs 1); RCheck (secs 1); RCheck (secs 1)] begin !! (i + 2)%nat = Some b →
    secs 1 ≤ b - a.
Proof.
  split; [by vm_compute|]. apply (rate_limit_respected "b" _ begin); [done|done|].
  apply Sorted_StronglySorted; [intros x y z; lia|]. repeat constructor; by vm_compute.
Defined.

Lemma healthy_peer_given_up_witness :
  health_after 5 = Some true ∧ health_after 6 = Some false ∧
  ∃ pc, peers (checks true joined (minutes 6)) = {["b"%string := pc]} ∧ closed (connection_pool pc) = ∅ ∧
    peer_is_healthy pc = bool_decide (zlen (minutes 6) < 2 * 2 - 1 + 3).
Proof.
  split; [by vm_compute|]. split; [by vm_compute|].
  apply (healthy_peer_given_up true "b" 0 (dial 1) begin joined 1%positive (minutes 6)).
  - split; [by cbn|by cbn].
  - reflexivity.
  - reflexivity.
  - by exists 1%positive.
  - by vm_compute.
  - repeat constructor; by vm_compute.
  - repeat constructor; by eexists.
  - by vm_compute.
Defined.

(** The fifth client. *)
Definition clients (n : nat) : ConnectionManager :=
  foldl (λ self k, (get_connection true "b" (Z.of_nat k) (reach (Pos.of_succ_nat (k + 1))) (dial 9) self).1) joined (seq 0 n).
Lemma reconnecting_closes_connections_witness :
  dropped (clients 3) = ∅ ∧ is_ok (get_connection true "b" 5 (reach 7) (dial 9) (clients 3)).2 = true ∧
  (1%positive ∈ dropped (get_connection true "b" 5 (reach 7) (dial 9) (clients 3)).1 ∧
   3%positive ∈ dropped (get_connection true "b" 5 (reach 7) (dial 9) (clients 3)).1).
Proof.
  split; [by vm_compute|]. split; [by vm_compute|].
  assert (∃ pc, peers (clients 3) !! "b"%string = Some pc ∧ peer_is_healthy pc = true ∧
    (Pool.get_connection true (addr_of pc) 5 (reach 7) (connection_pool pc)).2
      = Err (QProtocol "Connection pool limit reached for peer") ∧
    map connection (peer_connections (connection_pool pc) (addr_of pc)) = [1%positive; 3%positive]) as (pc & Hp & Hh & Herr & Hconns).
  { eexists. split; [vm_compute; reflexivity|]. by vm_compute. }
  assert ((get_connection true "b" 5 (reach 7) (dial 9) (clients 3)).2 = Ok 9%positive) as Hok by by vm_compute.
  destruct (get_connection true "b" 5 (reach 7) (dial 9) (clients 3)) as [self' r] eqn:Hget. cbn [snd] in Hok. subst r.
  destruct (reconnecting_closes_connections true "b" 5 (reach 7) (dial 9) (clients 3) self' pc _ 9%positive Hp Hh Herr Hget) as [Hall _].
  specialize (Hall (addr_of pc)). cbn [fst].
  destruct (peer_connections (connection_pool pc) (addr_of pc)) as [|x [|y [|z l]]];
    [discriminate Hconns|discriminate Hconns| |discriminate Hconns].
  injection Hconns as Hx Hy. rewrite <- Hy, <- Hx. split; apply Hall; [left|right; left].
Defined.

Definition unreachable_calls : list (Z * Dial) :=
  [(0, {| client_ok := true; attempts := λ _, TimedOut |}); (1, {| client_ok := true; attempts := λ _, Refused QTimeout |})].
Lemma first_contact_never_backs_off_witness :
  let self' := foldl (λ self '(now, dial), (connect_to_peer true "b" now dial self).1) begin unreachable_calls in
  peers self' !! "b"%string = None ∧ calculate_backoff "b" self' = Ok 0.
Proof.
  refine (first_contact_never_backs_off true "b" unreachable_calls begin _ _); [by vm_compute|].
  repeat constructor; done.
Defined.
End Examples.
