(* ===== verification/Security.v ===== *)
(** Checks of the daemon on names and paths: landro-daemon/src/security.rs.

    A path is its string; what the system makes of it ([canonicalize]) is an input,
    as a list of components. Lower case of letters outside of ASCII is data of the
    Rust standard library. *)

From S2P Require Import Prelude Proto Indexer.
From Stdlib Require Import Strings.Ascii ZArith Lia.
From stdpp Require Import base option list sorting gmap sets strings pretty numbers.
Open Scope Z_scope.

Definition MAX_CHUNK_SIZE : Z := 16 * 1024 * 1024.
Definition MAX_PATH_DEPTH : Z := 32.
Definition MAX_FILENAME_LENGTH : Z := 255.

Inductive SecurityError :=
  | BaseNotFound | AbsolutePath | PathNotFound | Escapes | TooDeep (depth : Z) | NameTooLong (len : Z)
  | ZeroSize | SizeTooLarge (size : Z) | EmptyName | LongName (len : Z) | InvalidCharacter | ControlCharacter.

(** ** Paths *)

(** [starts_with], component by component; [join] of a relative path. *)
Fixpoint components_prefix (base p : Path) : bool :=
  match base, p with
  | [], _ => true
  | b :: base, c :: p => String.eqb b c && components_prefix base p
  | _ :: _, [] => false
  end.
Definition is_absolute (p : Path) : bool := match p with root :: _ => String.eqb root "/" | [] => false end.
Definition validate_path (sys : System) (base requested : Path) : outcome SecurityError Path :=
  canonical_base ← ok_or BaseNotFound (canonicalize sys base);
  _ ← fail_if (is_absolute requested) AbsolutePath;
  canonical ← ok_or PathNotFound (canonicalize sys (canonical_base ++ requested));
  _ ← fail_if (negb (components_prefix canonical_base canonical)) Escapes;
  let depth := zlen canonical in
  _ ← fail_if (MAX_PATH_DEPTH <? depth) (TooDeep depth);
  _ ← match list.last canonical with
      | Some name =>
          if String.eqb name "/" then mret tt
          else fail_if (MAX_FILENAME_LENGTH <? str_len name) (NameTooLong (str_len name))
      | None => mret tt
      end;
  mret canonical.

(** ** Sizes and names *)

Definition validate_chunk_size (size : Z) : outcome SecurityError unit :=
  _ ← fail_if (size =? 0) ZeroSize;
  fail_if (MAX_CHUNK_SIZE <? size) (SizeTooLarge size).
Definition validate_device_name (name : string) : outcome SecurityError unit :=
  _ ← fail_if (String.eqb name "") EmptyName;
  _ ← fail_if (64 <? str_len name) (LongName (str_len name));
  _ ← fail_if (contains name "/" || contains name "\" || contains name NUL) InvalidCharacter;
  fail_if (existsb is_control (chars name)) ControlCharacter.
(** [char::is_whitespace] of the control characters: tab to carriage return, and NEL. *)
Definition is_whitespace_control (c : Z) : bool := ((9 <=? c) && (c <=? 13)) || (c =? 133).
Definition sanitize_for_log (input : list Z) : list Z :=
  take 1000 (filter (λ c, negb (is_control c) || is_whitespace_control c = true) input).

(** ** Sensitive paths *)

Class Lowercase := { to_lowercase : string → string }.
Definition sensitive_patterns : list string :=
  ["/etc"; "/sys"; "/proc"; "/dev"; "/.ssh"; "/.gnupg"; "/.aws"; "/.kube"; "/private/etc"; "/system";
   "/library/keychains"; "c:\windows\system32"; "c:\program files"].
(** [name] is the last component, if the path has one. *)
Definition is_sensitive_path `{Lowercase} (path : string) (name : option string) : bool :=
  if existsb (contains (to_lowercase path)) sensitive_patterns then true
  else match name with Some name => starts_with name "." | None => false end.

(** ** Properties *)

Lemma components_prefix_spec base p : components_prefix base p = true ↔ ∃ rest, p = base ++ rest.
Proof.
  revert p. induction base as [|b base IH]; intros p; cbn; [split; [by exists p|done]|].
  destruct p as [|c p]; [split; [done|intros [rest [=]]]|].
  rewrite andb_true_iff, String.eqb_eq, IH. split.
  - intros [-> [rest ->]]. by exists rest.
  - intros [rest [= -> ->]]. split; [done|by exists rest].
Qed.

(** A path that is accepted exists, lies below the folder, is what the system makes
    of it without links, has at most 32 components and a last one of at most 255
    bytes; it is refused if it is absolute, and if there is no such file yet. *)
Theorem validate_path_inside sys base requested p : validate_path sys base requested = Ok p ↔
  ∃ canonical_base rest, canonicalize sys base = Some canonical_base ∧ is_absolute requested = false ∧
    canonicalize sys (canonical_base ++ requested) = Some p ∧ p = canonical_base ++ rest ∧ zlen p ≤ MAX_PATH_DEPTH ∧
    ∀ name, list.last p = Some name → name ≠ "/"%string → str_len name ≤ MAX_FILENAME_LENGTH.
Proof.
  unfold validate_path. rewrite bind_Ok. split.
  - intros (cb & Hcb & Hp). apply ok_or_Ok in Hcb.
    apply bind_Ok in Hp as ([] & Habs%fail_if_Ok & Hp). apply bind_Ok in Hp as (c & Hc%ok_or_Ok & Hp).
    apply bind_Ok in Hp as ([] & Hin%fail_if_Ok & Hp). apply bind_Ok in Hp as ([] & Hd%fail_if_Ok & Hp).
    apply bind_Ok in Hp as ([] & Hn & Hp). injection Hp as <-.
    apply negb_false_iff, components_prefix_spec in Hin as [rest ->]. apply Z.ltb_ge in Hd.
    exists cb, rest. split_and!; try done. intros name Hl Hroot. rewrite Hl in Hn.
    rewrite (proj2 (String.eqb_neq _ _) Hroot) in Hn. by apply fail_if_Ok, Z.ltb_ge in Hn.
  - intros (cb & rest & Hcb & Habs & Hc & -> & Hd & Hn). exists cb. rewrite Hcb. split; [done|].
    rewrite Habs. cbn [mbind outcome_bind fail_if]. rewrite Hc. cbn [ok_or].
    cbn [mbind outcome_bind]. rewrite (proj2 (components_prefix_spec cb (cb ++ rest))) by by exists rest. cbn [negb].
    rewrite (proj2 (Z.ltb_ge _ _)) by done.
    destruct (list.last (cb ++ rest)) as [name|] eqn:Hl; [|done].
    destruct (String.eqb_spec name "/"); [done|]. rewrite (proj2 (Z.ltb_ge MAX_FILENAME_LENGTH _)); [done|]. by apply (Hn name).
Qed.

Lemma string_prefix_app pat s : String.prefix pat (pat +:+ s) = true.
Proof.
  induction pat as [|c pat IH]; [by destruct s|].
  change (String c pat +:+ s) with (String c (pat +:+ s)). cbn [String.prefix]. by destruct (ascii_dec c c).
Qed.
Lemma contains_app a pat s : contains (a +:+ pat +:+ s) pat = true.
Proof.
  induction a as [|c a IH]; cbn [String.app].
  - pose proof (string_prefix_app pat s) as Hp. change (EmptyString +:+ ?x) with x.
    destruct (pat +:+ s); cbn [contains]; by rewrite Hp.
  - change (String c a +:+ ?x) with (String c (a +:+ x)). cbn [contains]. rewrite IH. apply orb_true_r.
Qed.

(** A path is taken for sensitive wherever one of the patterns occurs in it, also in
    the middle of a name: every folder below one whose name begins with dev, etc, sys
    or proc cannot be watched, as /home/u/development. *)
Theorem sensitive_by_substring `{Lowercase} a b name word : word ∈ ["etc"; "sys"; "proc"; "dev"]%string →
  to_lowercase (a +:+ "/" +:+ word +:+ b) = a +:+ "/" +:+ word +:+ b →
  is_sensitive_path (a +:+ "/" +:+ word +:+ b) name = true.
Proof.
  intros Hw Hl. unfold is_sensitive_path. rewrite Hl.
  assert (existsb (contains (a +:+ "/" +:+ word +:+ b)) sensitive_patterns = true) as ->; [|done].
  apply existsb_exists. exists ("/" +:+ word). split.
  - repeat (apply elem_of_cons in Hw as [->|Hw]; [cbn; auto 10|]). by apply elem_of_nil in Hw.
  - rewrite <- (string_app_assoc "/" word b). apply contains_app.
Qed.

Module Examples.
(** Lower case of ASCII letters. *)
Fixpoint ascii_lower (s : string) : string :=
  match s with
  | EmptyString => EmptyString
  | String c s =>
      let n := nat_of_ascii c in
      String (if ((65 <=? n) && (n <=? 90))%nat then ascii_of_nat (n + 32) else c) (ascii_lower s)
  end.
Definition lower : Lowercase := {| to_lowercase := ascii_lower |}.
#[local] Existing Instance lower.
Example home_folders :
  is_sensitive_path "C:\Windows\System32\config" (Some "config") = true ∧
  is_sensitive_path "/home/user/documents/file.txt" (Some "file.txt") = false.
Proof. by vm_compute. Qed.
Lemma sensitive_by_substring_witness : is_sensitive_path "/home/user/development/a" (Some "a") = true.
Proof. refine (sensitive_by_substring "/home/user" "elopment/a" (Some "a") "dev" _ _); [set_solver|by vm_compute]. Defined.
End Examples.
