(* ===== verification/SyncState.v ===== *)
(** The database of synchronisation states: landro-sync/src/state.rs.

    The tables of the schema are maps and lists of rows, every SQL statement is a
    function on them. What SQLite and the libraries leave open is a parameter: the ids
    it draws, the order of equal rows, the text of times and of JSON. The locks of
    [AsyncSyncDatabase] let one statement run at a time. Failures of the disk are left
    out, and so is the table of conflicts, which nothing reads or writes. *)

From S2P Require Import Prelude Manifest Framing.
From Stdlib Require Import ZArith Lia Strings.Ascii Strings.String Strings.Byte.
From stdpp Require Import base option list gmap sets strings pretty numbers sorting.
Open Scope Z_scope.

(** ** Data *)

Inductive SyncState :=
  | Idle
  | Syncing (peer_count : Z) (start_time : DateTime)
  | Conflicted (conflict_count : Z)
  | SyncPaused
  | SyncFailed (error : string) (failed_at : DateTime).
#[export] Instance SyncState_eq_dec : EqDecision SyncState.
Proof. solve_decision. Defined.
(** The progress is an [f32], given by its bits. *)
Inductive PeerState :=
  | PeerIdle
  | Negotiating
  | Transferring (progress : Z)
  | Completed (completed_at : DateTime)
  | PeerFailed (error : string) (failed_at : DateTime).
#[export] Instance PeerState_eq_dec : EqDecision PeerState.
Proof. solve_decision. Defined.
Record PeerSyncState := {
  peer_id : string;
  peer_name : string;
  last_sync : option DateTime;
  last_manifest_hash : option string;
  bytes_sent : Z;
  bytes_received : Z;
  files_sent : Z;
  files_received : Z;
  current_state : PeerState;
}.
#[export] Instance PeerSyncState_eq_dec : EqDecision PeerSyncState.
Proof. solve_decision. Defined.
Record PendingTransfer := {
  id : Z;
  pending_peer : string;
  folder_id : string;
  file_path : string;
  chunk_hash : string;
  priority : Z;
  retry_count : Z;
}.
#[export] Instance PendingTransfer_eq_dec : EqDecision PendingTransfer.
Proof. solve_decision. Defined.
(** [SyncSession] of this file, the record of a session. *)
Record SessionRecord := {
  session_peer : string;
  start_time : DateTime;
  end_time : option DateTime;
  session_bytes_sent : Z;
  session_bytes_received : Z;
  session_files_sent : Z;
  session_files_received : Z;
  success : bool;
  error_message : option string;
}.

Inductive SyncError :=
  | ToSqlConversion (value : Z)
  | FromSqlConversion (value : Z)
  | ForeignKeyViolated
  | AlreadySyncing (peer : string).

(** ** The tables *)

Record PeerRow := {
  row_name : string;
  row_last_sync : option string;
  row_manifest_hash : option string;
  row_bytes_sent : Z;
  row_bytes_received : Z;
  row_files_sent : Z;
  row_files_received : Z;
  row_state : string;
  row_updated_at : Z;
}.
(** A pending transfer and the second it was entered. *)
Record TransferRow := { row_transfer : PendingTransfer; row_created_at : Z }.
Record HistoryRow := {
  history_peer : string;
  history_start : string;
  history_end : option string;
  history_bytes_sent : Z;
  history_bytes_received : Z;
  history_files_sent : Z;
  history_files_received : Z;
  history_success : bool;
  history_error : option string;
}.
Record SyncDatabase := {
  peer_sync_state : gmap string PeerRow;
  pending_transfers : list TransferRow;
  sync_history : list HistoryRow;
  last_id : Z;
}.

(** The years 0 to 9999, which RFC 3339 has. *)
Definition in_range (t : DateTime) : Prop := -62167219200 * 10 ^ 9 ≤ t < 253402300800 * 10 ^ 9.
(** Not an infinity and not a NaN, which JSON does not have. *)
Definition finite (bits : Z) : Prop := Z.land bits 0x7f800000 ≠ 0x7f800000.
Definition json_safe (s : PeerState) : Prop :=
  match s with
  | Transferring p => finite p
  | Completed t | PeerFailed _ t => in_range t
  | PeerIdle | Negotiating => True
  end.

(** [ORDER BY priority DESC, created_at ASC]. *)
Definition row_le (a b : TransferRow) : Prop :=
  priority (row_transfer b) < priority (row_transfer a) ∨
  (priority (row_transfer a) = priority (row_transfer b) ∧ row_created_at a ≤ row_created_at b).

Class Formats := {
  to_rfc3339 : DateTime → string;
  parse_from_rfc3339 : string → option DateTime;
  parse_rfc3339_to t : in_range t → parse_from_rfc3339 (to_rfc3339 t) = Some t;
  state_to_json : PeerState → string;
  state_of_json : string → option PeerState;
  state_of_to_json s : json_safe s → state_of_json (state_to_json s) = Some s;
}.
(** [sql_datetime] gives the date and the time without an offset, which is not RFC 3339;
    an id drawn with AUTOINCREMENT is larger than every id before. *)
Class Sqlite `{Formats} := {
  foreign_keys : bool;
  next_id : Z → Z;
  next_id_larger n : n < next_id n;
  order_rows : list TransferRow → list TransferRow;
  order_rows_perm l : order_rows l ≡ₚ l;
  order_rows_sorted l : StronglySorted row_le (order_rows l);
  sql_datetime : string → option string;
  sql_datetime_no_offset s s' : sql_datetime s = Some s' → parse_from_rfc3339 s' = None;
}.

(** ** The statements *)

Section statements.
Context `{MapIter, Sqlite}.
Abbreviation db := (st SyncDatabase SyncError).

Definition set_peers (f : gmap string PeerRow → gmap string PeerRow) (self : SyncDatabase) : SyncDatabase :=
  {| peer_sync_state := f (peer_sync_state self); pending_transfers := pending_transfers self;
     sync_history := sync_history self; last_id := last_id self |}.
Definition set_transfers (f : list TransferRow → list TransferRow) (self : SyncDatabase) : SyncDatabase :=
  {| peer_sync_state := peer_sync_state self; pending_transfers := f (pending_transfers self);
     sync_history := sync_history self; last_id := last_id self |}.

(** [initialize] of a new file: empty tables; of an old file, nothing. *)
Definition initialize (file : option SyncDatabase) : SyncDatabase :=
  default {| peer_sync_state := ∅; pending_transfers := []; sync_history := []; last_id := 0 |} file.

(** A [u64] is stored as a signed 64-bit integer. *)
Definition u64_to_sql (z : Z) : outcome SyncError Z :=
  if z <? 2 ^ 63 then Ok z else Err (ToSqlConversion z).
Definition u64_from_sql (z : Z) : outcome SyncError Z :=
  if z <? 0 then Err (FromSqlConversion z) else Ok z.

(** The closure of [query_row]; [column] is what column 2 gives. *)
Definition peer_of_row (k : string) (column : option string) (row : PeerRow) : outcome SyncError PeerSyncState :=
  sent ← u64_from_sql (row_bytes_sent row);
  received ← u64_from_sql (row_bytes_received row);
  fsent ← u64_from_sql (row_files_sent row);
  freceived ← u64_from_sql (row_files_received row);
  mret {| peer_id := k; peer_name := row_name row; last_sync := column ≫= parse_from_rfc3339;
          last_manifest_hash := row_manifest_hash row; bytes_sent := sent; bytes_received := received;
          files_sent := fsent; files_received := freceived;
          current_state := default PeerIdle (state_of_json (row_state row)) |}.
Definition get_peer_state (k : string) (self : SyncDatabase) : outcome SyncError (option PeerSyncState) :=
  match peer_sync_state self !! k with
  | Some row =>
      p ← peer_of_row k (row_last_sync row ≫= sql_datetime) row;
      mret (Some p)
  | None => mret None
  end.
Definition upsert_peer_state (now : Z) (s : PeerSyncState) : db unit :=
  sent ← lift (u64_to_sql (bytes_sent s));
  received ← lift (u64_to_sql (bytes_received s));
  fsent ← lift (u64_to_sql (files_sent s));
  freceived ← lift (u64_to_sql (files_received s));
  modify_st (set_peers <[peer_id s :=
    {| row_name := peer_name s; row_last_sync := to_rfc3339 <$> last_sync s;
       row_manifest_hash := last_manifest_hash s; row_bytes_sent := sent; row_bytes_received := received;
       row_files_sent := fsent; row_files_received := freceived;
       row_state := state_to_json (current_state s); row_updated_at := now |}]>).
Definition get_all_peer_states (self : SyncDatabase) : outcome SyncError (gmap string PeerSyncState) :=
  for_each (map_iter (peer_sync_state self))
    (λ peers '(k, row), p ← peer_of_row k (row_last_sync row) row; mret (<[peer_id p := p]> peers)) ∅.

(** The row that [UNIQUE(peer_id, folder_id, chunk_hash)] conflicts with. *)
Definition same_key (peer folder hash : string) (t : PendingTransfer) : bool :=
  String.eqb (pending_peer t) peer && String.eqb (folder_id t) folder && String.eqb (chunk_hash t) hash.
(** [OR IGNORE] skips a row that is there; a missing peer is an error nevertheless. *)
Definition add_pending_transfer (now : Z) (peer folder path hash : string) (prio : Z) : db unit := λ self,
  if existsb (λ r, same_key peer folder hash (row_transfer r)) (pending_transfers self) then (self, Ok tt)
  else if foreign_keys && bool_decide (peer_sync_state self !! peer = None) then (self, Err ForeignKeyViolated)
  else
    let n := next_id (last_id self) in
    ({| peer_sync_state := peer_sync_state self;
        pending_transfers := pending_transfers self ++
          [{| row_transfer := {| id := n; pending_peer := peer; folder_id := folder; file_path := path;
                                 chunk_hash := hash; priority := prio; retry_count := 0 |};
              row_created_at := now |}];
        sync_history := sync_history self; last_id := n |}, Ok tt).
(** [limit as i64]; a negative limit is none. *)
Definition sql_limit {A} (limit : Z) (l : list A) : list A :=
  if limit <? 2 ^ 63 then take (Z.to_nat limit) l else l.
Definition get_pending_transfers (peer : string) (limit : Z) (self : SyncDatabase) : list PendingTransfer :=
  map row_transfer (sql_limit limit (order_rows
    (List.filter (λ r, String.eqb (pending_peer (row_transfer r)) peer) (pending_transfers self)))).
Definition remove_pending_transfer (n : Z) : db unit :=
  modify_st (set_transfers (List.filter (λ r, negb (id (row_transfer r) =? n)))).
Definition remove_pending_transfer_by_hash (peer hash : string) : db unit :=
  modify_st (set_transfers (List.filter (λ r,
    negb (String.eqb (pending_peer (row_transfer r)) peer && String.eqb (chunk_hash (row_transfer r)) hash)))).
Definition record_sync_session (r : SessionRecord) : db unit :=
  sent ← lift (u64_to_sql (session_bytes_sent r));
  received ← lift (u64_to_sql (session_bytes_received r));
  fsent ← lift (u64_to_sql (session_files_sent r));
  freceived ← lift (u64_to_sql (session_files_received r));
  self ← get_st;
  _ ← lift (fail_if (foreign_keys && bool_decide (peer_sync_state self !! session_peer r = None)) ForeignKeyViolated);
  modify_st (λ self,
    {| peer_sync_state := peer_sync_state self; pending_transfers := pending_transfers self;
       sync_history := sync_history self ++
         [{| history_peer := session_peer r; history_start := to_rfc3339 (start_time r);
             history_end := to_rfc3339 <$> end_time r; history_bytes_sent := sent; history_bytes_received := received;
             history_files_sent := fsent; history_files_received := freceived;
             history_success := success r; history_error := error_message r |}];
       last_id := last_id self |}).
End statements.

(** ** What the database promises *)

Section spec.
Context `{MapIter, Sqlite}.

(** The calls that write. *)
Inductive Write :=
  | Upsert (now : Z) (s : PeerSyncState)
  | Add (now : Z) (peer folder path hash : string) (prio : Z)
  | RemoveId (n : Z)
  | RemoveHash (peer hash : string)
  | RecordSession (r : SessionRecord).
Definition run_write (w : Write) : st SyncDatabase SyncError unit :=
  match w with
  | Upsert now s => upsert_peer_state now s
  | Add now peer folder path hash prio => add_pending_transfer now peer folder path hash prio
  | RemoveId n => remove_pending_transfer n
  | RemoveHash peer hash => remove_pending_transfer_by_hash peer hash
  | RecordSession r => record_sync_session r
  end.
Definition run_writes (ws : list Write) (self : SyncDatabase) : SyncDatabase :=
  foldl (λ self w, (run_write w self).1) self ws.

(** The states of the peers, as a map from ids to the last state that was written. *)
Definition fits (s : PeerSyncState) : bool :=
  (bytes_sent s <? 2 ^ 63) && (bytes_received s <? 2 ^ 63) && (files_sent s <? 2 ^ 63) && (files_received s <? 2 ^ 63).
Definition peers_after (ws : list Write) : gmap string PeerSyncState :=
  foldl (λ m w, match w with Upsert _ s => if fits s then <[peer_id s := s]> m else m | _ => m end) ∅ ws.
Definition storable (w : Write) : Prop :=
  match w with
  | Upsert _ s => json_safe (current_state s) ∧ (∀ t, last_sync s = Some t → in_range t) ∧
      0 ≤ bytes_sent s ∧ 0 ≤ bytes_received s ∧ 0 ≤ files_sent s ∧ 0 ≤ files_received s
  | _ => True
  end.
Definition without_last_sync (s : PeerSyncState) : PeerSyncState :=
  {| peer_id := peer_id s; peer_name := peer_name s; last_sync := None; last_manifest_hash := last_manifest_hash s;
     bytes_sent := bytes_sent s; bytes_received := bytes_received s; files_sent := files_sent s;
     files_received := files_received s; current_state := current_state s |}.

Definition key (t : PendingTransfer) : string * string * string := (pending_peer t, folder_id t, chunk_hash t).
(** The transfers in the order of their ids: one for a key, ids up to the last one
    drawn, and, with foreign keys, for known peers. *)
Record transfers_ok (self : SyncDatabase) : Prop := {
  ok_ids : StronglySorted Z.lt (map (λ r, id (row_transfer r)) (pending_transfers self));
  ok_last r : r ∈ pending_transfers self → id (row_transfer r) ≤ last_id self;
  ok_keys : NoDup (map (λ r, key (row_transfer r)) (pending_transfers self));
  ok_peers r : r ∈ pending_transfers self → foreign_keys = true →
    is_Some (peer_sync_state self !! pending_peer (row_transfer r));
}.
End spec.

(** ** Lemmas *)

Section lemmas.
Context `{MapIter, Sqlite}.
#[local] Set Default Proof Using "Type*".

Lemma u64_roundtrip z : 0 ≤ z → z <? 2 ^ 63 = true → u64_to_sql z = Ok z ∧ u64_from_sql z = Ok z.
Proof using Type. intros Hz Hf. unfold u64_to_sql, u64_from_sql. by rewrite Hf, (proj2 (Z.ltb_ge _ _)). Qed.

(** A row and the state it was written from. *)
Definition row_of (s : PeerSyncState) (row : PeerRow) : Prop :=
  storable (Upsert 0 s) ∧ fits s = true ∧
  row = {| row_name := peer_name s; row_last_sync := to_rfc3339 <$> last_sync s;
           row_manifest_hash := last_manifest_hash s; row_bytes_sent := bytes_sent s;
           row_bytes_received := bytes_received s; row_files_sent := files_sent s;
           row_files_received := files_received s; row_state := state_to_json (current_state s);
           row_updated_at := row_updated_at row |}.
Lemma peer_of_row_of s row column : row_of s row →
  peer_of_row (peer_id s) column row = Ok {| peer_id := peer_id s; peer_name := peer_name s;
    last_sync := column ≫= parse_from_rfc3339; last_manifest_hash := last_manifest_hash s;
    bytes_sent := bytes_sent s; bytes_received := bytes_received s; files_sent := files_sent s;
    files_received := files_received s; current_state := current_state s |}.
Proof.
  intros [(Hj & _ & H1' & H2' & H3' & H4') [Hf ->]]. unfold fits in Hf.
  apply andb_true_iff in Hf as [Hf F4]. apply andb_true_iff in Hf as [Hf F3]. apply andb_true_iff in Hf as [F1 F2].
  unfold peer_of_row. cbn. rewrite (proj2 (u64_roundtrip _ H1' F1)), (proj2 (u64_roundtrip _ H2' F2)),
    (proj2 (u64_roundtrip _ H3' F3)), (proj2 (u64_roundtrip _ H4' F4)). cbn. by rewrite state_of_to_json.
Qed.
Lemma upsert_fits now s self : storable (Upsert now s) → fits s = true →
  ∃ row, row_of s row ∧ upsert_peer_state now s self = (set_peers <[peer_id s := row]> self, Ok tt).
Proof.
  intros (Hj & Ht & H1' & H2' & H3' & H4') Hf. eexists. split; [|unfold fits in Hf;
    apply andb_true_iff in Hf as [Hf F4]; apply andb_true_iff in Hf as [Hf F3]; apply andb_true_iff in Hf as [F1 F2];
    unfold upsert_peer_state; rewrite (proj1 (u64_roundtrip _ H1' F1)), (proj1 (u64_roundtrip _ H2' F2)),
    (proj1 (u64_roundtrip _ H3' F3)), (proj1 (u64_roundtrip _ H4' F4)); reflexivity].
  split; [done|]. split; [exact Hf|]. done.
Qed.
Lemma upsert_not_fits now s self : fits s = false → ∃ e, upsert_peer_state now s self = (self, Err e).
Proof.
  unfold fits, upsert_peer_state, u64_to_sql. intros Hf.
  destruct (bytes_sent s <? 2 ^ 63); [|by eexists]. destruct (bytes_received s <? 2 ^ 63); [|by eexists].
  destruct (files_sent s <? 2 ^ 63); [|by eexists]. destruct (files_received s <? 2 ^ 63); [done|by eexists].
Qed.

(** The tables of the peers hold the states of [m]. *)
Definition peers_match (m : gmap string PeerSyncState) (self : SyncDatabase) : Prop :=
  map_Forall2 (λ k s row, peer_id s = k ∧ row_of s row) m (peer_sync_state self).
Lemma peers_match_eq m self self' : peer_sync_state self' = peer_sync_state self → peers_match m self → peers_match m self'.
Proof. unfold peers_match. by intros ->. Qed.
Lemma other_writes_keep_peers w self : match w with Upsert _ _ => False | _ => True end →
  peer_sync_state (run_write w self).1 = peer_sync_state self.
Proof.
  destruct w as [| | | |r]; intros Hw; try done; cbn [run_write].
  - unfold add_pending_transfer. case_if; [done|]. by case_if.
  - unfold record_sync_session, u64_to_sql, mbind, st_bind, lift.
    by repeat (case_if || (unfold get_st, fail_if, modify_st; cbn)).
Qed.
Lemma run_writes_match ws self m : Forall storable ws → peers_match m self →
  peers_match (foldl (λ m w, match w with Upsert _ s => if fits s then <[peer_id s := s]> m else m | _ => m end) m ws)
    (run_writes ws self).
Proof.
  intros Hws. revert m self. induction Hws as [|w ws Hw Hws IH]; intros m self Hm; [done|].
  cbn [foldl run_writes]. apply IH. destruct w as [now s| | | |];
    [|by eapply peers_match_eq; [by apply other_writes_keep_peers|]..].
  cbn [run_write]. destruct (fits s) eqn:Hf.
  - destruct (upsert_fits now s self Hw Hf) as (row & Hrow & ->). by apply map_Forall2_insert_2.
  - by destruct (upsert_not_fits now s self Hf) as [e ->].
Qed.

Lemma match_lookup m self k row : peers_match m self → peer_sync_state self !! k = Some row →
  ∃ s, m !! k = Some s ∧ peer_id s = k ∧ row_of s row.
Proof. intros Hm Hk. specialize (Hm k). rewrite Hk in Hm. inversion Hm; naive_solver. Qed.
Lemma match_None m self k : peers_match m self → peer_sync_state self !! k = None → m !! k = None.
Proof. intros Hm Hk. specialize (Hm k). rewrite Hk in Hm. by inversion Hm. Qed.

Lemma get_all_match m self : peers_match m self → get_all_peer_states self = Ok m.
Proof.
  intros Hm. unfold get_all_peer_states.
  destruct (for_each_total (λ l (acc : gmap string PeerSyncState), ∀ k, acc !! k = if bool_decide (k ∈ l.*1) then m !! k else None)
    (map_iter (peer_sync_state self)) (λ peers '(k, row), p ← peer_of_row k (row_last_sync row) row;
      mret (<[peer_id p := p]> peers)) ∅) as (acc & -> & Hacc).
  - intros k. by rewrite lookup_empty.
  - intros l1 [k row] l2 acc Hl Hacc.
    assert ((k, row) ∈ map_iter (peer_sync_state self)) as Hin%elem_of_map_iter
      by (rewrite Hl; apply elem_of_app; right; left).
    destruct (match_lookup m self k row Hm Hin) as (s & Hs & <- & Hrow).
    rewrite (peer_of_row_of s row _ Hrow). cbn [mbind outcome_bind]. eexists. split; [reflexivity|]. cbn [peer_id].
    assert (row_last_sync row ≫= parse_from_rfc3339 = last_sync s) as ->.
    { destruct Hrow as [(_ & Ht & _) [_ ->]]. cbn. destruct (last_sync s); [|done]. cbn. by apply parse_rfc3339_to, Ht. }
    replace {| peer_id := peer_id s; peer_name := peer_name s; last_sync := last_sync s;
      last_manifest_hash := last_manifest_hash s; bytes_sent := bytes_sent s; bytes_received := bytes_received s;
      files_sent := files_sent s; files_received := files_received s; current_state := current_state s |} with s by by destruct s.
    intros k. rewrite fmap_app. destruct (decide (k = peer_id s)) as [->|Hk].
    + rewrite lookup_insert_eq, Hs, bool_decide_true; [done|]. apply elem_of_app. right. by left.
    + rewrite lookup_insert_ne by done. rewrite Hacc. erewrite bool_decide_ext; [reflexivity|].
      cbn [fmap list_fmap fst]. rewrite elem_of_app, list_elem_of_singleton. naive_solver.
  - f_equal. apply map_eq. intros k. rewrite Hacc. case_bool_decide as Hk; [done|]. symmetry.
    apply (match_None m self k Hm). destruct (peer_sync_state self !! k) as [row|] eqn:Hrow; [|done]. destruct Hk.
    apply list_elem_of_fmap. exists (k, row). split; [done|]. by apply elem_of_map_iter.
Qed.

Lemma filter_sublist {A} (f : A → bool) l : sublist (List.filter f l) l.
Proof using Type. induction l as [|x l IH]; cbn; [done|]. destruct (f x); by constructor. Qed.
Lemma StronglySorted_sublist {A} (R : relation A) l k : sublist l k → StronglySorted R k → StronglySorted R l.
Proof using Type.
  induction 1 as [|x l k Hlk IH|x l k Hlk IH]; intros Hk; [done|..]; apply StronglySorted_inv in Hk as [Hk Hx]; [|by apply IH].
  constructor; [by apply IH|]. rewrite Forall_forall in Hx |- *. intros y Hy. apply Hx. by eapply elem_of_sublist.
Qed.
Lemma StronglySorted_lt_NoDup l : StronglySorted Z.lt l → NoDup l.
Proof using Type.
  induction 1 as [|x l Hl IH Hx]; constructor; [|done]. rewrite Forall_forall in Hx. intros Hin. specialize (Hx x Hin). lia.
Qed.
Lemma StronglySorted_fmap {A B} (f : A → B) (R : relation A) (S : relation B) l :
  (∀ x y, R x y → S (f x) (f y)) → StronglySorted R l → StronglySorted S (map f l).
Proof using Type.
  intros HRS. induction 1 as [|x l Hl IH Hx]; constructor; [done|].
  apply Forall_map. eapply Forall_impl; [exact Hx|]. intros y. apply HRS.
Qed.
Lemma filter_map {A B} (f : B → bool) (g : A → B) l : List.filter f (map g l) = map g (List.filter (λ x, f (g x)) l).
Proof using Type. induction l as [|x l IH]; cbn; [done|]. destruct (f (g x)); cbn; by rewrite IH. Qed.
Lemma transfers_ok_sublist f self : transfers_ok self → transfers_ok (set_transfers (List.filter f) self).
Proof using Type.
  intros [Hids Hlast Hkeys Hpeers]. pose proof (filter_sublist f (pending_transfers self)) as Hsub.
  assert (∀ r, r ∈ List.filter f (pending_transfers self) → r ∈ pending_transfers self) as Hin
    by (intros r Hr; by eapply elem_of_sublist).
  split; cbn.
  - eapply StronglySorted_sublist; [|exact Hids]. by apply fmap_sublist.
  - auto.
  - eapply sublist_NoDup; [exact Hkeys|]. by apply fmap_sublist.
  - auto.
Qed.
Lemma same_key_spec peer folder hash t : same_key peer folder hash t = true ↔ key t = (peer, folder, hash).
Proof using Type.
  unfold same_key, key. rewrite !andb_true_iff, !String.eqb_eq. split; [by intros [[-> ->] ->]|by intros [= -> -> ->]].
Qed.
Lemma key_taken peer folder hash self :
  existsb (λ r, same_key peer folder hash (row_transfer r)) (pending_transfers self) = true ↔
  (peer, folder, hash) ∈ map (λ r, key (row_transfer r)) (pending_transfers self).
Proof using Type.
  rewrite existsb_exists, list_elem_of_fmap. split.
  - intros (r & Hr & Hk%same_key_spec). exists r. split; [done|by apply list_elem_of_In].
  - intros (r & Hk & Hr). exists r. split; [by apply list_elem_of_In|by apply same_key_spec].
Qed.
Lemma add_transfers_ok now peer folder path hash prio self :
  transfers_ok self → transfers_ok (add_pending_transfer now peer folder path hash prio self).1.
Proof using Type.
  intros Hok. unfold add_pending_transfer. case_if as Hkey; [done|]. case_if as Hfk; [done|].
  destruct Hok as [Hids Hlast Hkeys Hpeers]. pose proof (next_id_larger (last_id self)) as Hn. split; cbn.
  - rewrite map_app. cbn. apply StronglySorted_app. split; [|split; [done|repeat constructor]].
    intros x y Hx Hy. apply list_elem_of_singleton in Hy as ->.
    apply list_elem_of_fmap in Hx as (r & -> & Hr). specialize (Hlast r Hr). lia.
  - intros r [Hr| ->%list_elem_of_singleton]%elem_of_app; [specialize (Hlast r Hr); lia|cbn; lia].
  - rewrite map_app. cbn. apply NoDup_app. split; [done|]. split; [|apply NoDup_singleton].
    intros k Hk ->%list_elem_of_singleton. by rewrite (proj2 (key_taken peer folder hash self) Hk) in Hkey.
  - intros r [Hr| ->%list_elem_of_singleton]%elem_of_app Hf; [by apply Hpeers|]. cbn.
    rewrite Hf in Hfk. cbn in Hfk. apply bool_decide_eq_false in Hfk. by apply not_eq_None_Some.
Qed.
Lemma write_transfers_ok w self : transfers_ok self → transfers_ok (run_write w self).1.
Proof using Type.
  intros Hok. destruct w as [now s|now peer folder path hash prio|n|peer hash|r]; cbn [run_write];
    [|by apply add_transfers_ok|by apply transfers_ok_sublist..|].
  - unfold upsert_peer_state, u64_to_sql, mbind, st_bind, lift. repeat (case_if; [|done]).
    destruct Hok as [Hids Hlast Hkeys Hpeers]. split; cbn; try done. intros r Hr Hf.
    destruct (decide (peer_id s = pending_peer (row_transfer r))) as [->|Hne]; [by rewrite lookup_insert_eq|].
    rewrite lookup_insert_ne by done. by apply Hpeers.
  - unfold record_sync_session, u64_to_sql, mbind, st_bind, lift, get_st, fail_if, modify_st.
    repeat (case_if; [|done]). cbn. case_if; [done|]. by destruct Hok.
Qed.
Lemma writes_transfers_ok ws self : transfers_ok self → transfers_ok (run_writes ws self).
Proof using Type.
  revert self. induction ws as [|w ws IH]; intros self Hok; [done|]. apply IH. by apply write_transfers_ok.
Qed.
Lemma empty_transfers_ok : transfers_ok (initialize None).
Proof using Type. split; cbn; [constructor|by intros r ?%elem_of_nil|constructor|by intros r ?%elem_of_nil]. Qed.
End lemmas.

(** ** Properties *)

Section properties.
Context `{MapIter, Sqlite}.
#[local] Set Default Proof Using "Type*".

(** C23: The table of the peers is a map from ids to states: after any writes, all
    states read together are the ones written last, unless a counter did not fit into
    63 bits; but a state that is read by its id has lost the time of the last
    synchronisation, whose text goes through a function that drops the offset. *)
Theorem peers_refine_map ws : Forall storable ws →
  let self := run_writes ws (initialize None) in
  get_all_peer_states self = Ok (peers_after ws) ∧
  ∀ k, get_peer_state k self = Ok (without_last_sync <$> (peers_after ws !! k)).
Proof.
  intros Hws self. assert (peers_match (peers_after ws) self) as Hm
    by (apply run_writes_match; [done|apply map_Forall2_empty]).
  split; [by apply get_all_match|]. intros k. unfold get_peer_state.
  destruct (peer_sync_state self !! k) as [row|] eqn:Hrow; [|by rewrite (match_None _ _ _ Hm Hrow)].
  destruct (match_lookup _ _ _ _ Hm Hrow) as (s & -> & <- & Hs). rewrite (peer_of_row_of s row _ Hs).
  cbn [mbind outcome_bind fmap option_fmap option_map]. unfold without_last_sync, mret, outcome_ret. do 3 f_equal.
  destruct (row_last_sync row) as [text|]; [|done]. cbn. destruct (sql_datetime text) as [d|] eqn:Hd; [|done].
  cbn. by eapply sql_datetime_no_offset.
Qed.

(** After any writes, the pending transfers of a peer that are handed out are
    waiting ones, each of them once, as many as asked for if there are as many, in the
    order of their priorities, and none left out has a higher priority. *)
Theorem pending_transfers_best ws peer limit : 0 ≤ limit < 2 ^ 63 →
  let self := run_writes ws (initialize None) in
  let waiting := List.filter (λ t, String.eqb (pending_peer t) peer) (map row_transfer (pending_transfers self)) in
  let l := get_pending_transfers peer limit self in
  zlen l = Z.min limit (zlen waiting) ∧ l ⊆+ waiting ∧ NoDup (map id l) ∧ NoDup (map key l) ∧
  StronglySorted (λ t u, priority u ≤ priority t) l ∧
  ∀ t u, t ∈ l → u ∈ waiting → u ∉ l → priority u ≤ priority t.
Proof.
  intros Hlim self waiting l. assert (transfers_ok self) as [Hids _ Hkeys _]
    by (apply writes_transfers_ok, empty_transfers_ok).
  set (rows := List.filter (λ r, String.eqb (pending_peer (row_transfer r)) peer) (pending_transfers self)) in *.
  assert (waiting = map row_transfer rows) as Hw by apply filter_map.
  pose proof (order_rows_perm rows) as Hperm. pose proof (order_rows_sorted rows) as Hsort.
  assert (l = map row_transfer (take (Z.to_nat limit) (order_rows rows))) as Hl.
  { unfold l, get_pending_transfers, sql_limit. by rewrite (proj2 (Z.ltb_lt _ _)) by lia. }
  revert Hperm Hsort Hl. generalize (order_rows rows). intros sorted Hperm Hsort Hl.
  pose proof (Permutation_length Hperm) as Hlen. pose proof Hperm as Hperm0.
  rewrite <- (take_drop (Z.to_nat limit) sorted) in Hsort, Hperm.
  apply StronglySorted_app in Hsort as (Hle & Hsort & _).
  assert (l ⊆+ waiting) as Hsub. { rewrite Hl, Hw. apply fmap_submseteq. rewrite <- Hperm. by apply submseteq_inserts_r. }
  pose proof (filter_sublist (λ r, String.eqb (pending_peer (row_transfer r)) peer) (pending_transfers self)) as Hrows.
  assert (∀ (B : Type) (f : PendingTransfer → B), NoDup (map (λ r, f (row_transfer r)) (pending_transfers self)) →
    NoDup (map f l)) as Hnd.
  { intros B f Hn. rewrite Hl, map_map.
    apply (sublist_NoDup _ (map (λ r, f (row_transfer r)) sorted)); [|apply fmap_sublist, sublist_take].
    rewrite Hperm0. eapply sublist_NoDup; [exact Hn|]. by apply fmap_sublist. }
  split_and!; [|done|by apply Hnd, StronglySorted_lt_NoDup|by apply Hnd| |].
  - rewrite Hl, Hw. unfold zlen. rewrite !length_map, length_take. lia.
  - rewrite Hl. eapply StronglySorted_fmap; [|exact Hsort]. intros x y [?|[? _]]; lia.
  - intros t u Ht Hu Hn. rewrite Hl in Ht, Hn. rewrite Hw in Hu.
    apply list_elem_of_fmap in Ht as (r & -> & Hr). apply list_elem_of_fmap in Hu as (q & -> & Hq).
    rewrite <- Hperm in Hq. apply elem_of_app in Hq as [Hq|Hq]; [destruct Hn; by apply list_elem_of_fmap_2|].
    destruct (Hle r q Hr Hq) as [?|[? _]]; lia.
Qed.

(** Adding a transfer that is waiting already changes nothing, whatever its new
    priority is; otherwise it is entered with a new id if its peer is in the table, and
    refused if it is not (with foreign keys, which are on in the bundled library). *)
Theorem add_pending_spec now peer folder path hash prio self :
  let '(self', r) := add_pending_transfer now peer folder path hash prio self in
  if bool_decide ((peer, folder, hash) ∈ map (λ x, key (row_transfer x)) (pending_transfers self))
  then r = Ok tt ∧ self' = self
  else if foreign_keys && bool_decide (peer_sync_state self !! peer = None) then r = Err ForeignKeyViolated ∧ self' = self
  else r = Ok tt ∧ peer_sync_state self' = peer_sync_state self ∧ last_id self < last_id self' ∧
    map row_transfer (pending_transfers self') = map row_transfer (pending_transfers self) ++
      [{| id := last_id self'; pending_peer := peer; folder_id := folder; file_path := path; chunk_hash := hash;
          priority := prio; retry_count := 0 |}].
Proof using Type.
  unfold add_pending_transfer. destruct (existsb _ _) eqn:Hkey.
  - rewrite bool_decide_true; [done|]. by apply key_taken.
  - rewrite (bool_decide_false (_ ∈ _)) by (intros Hk%key_taken; congruence). case_if; [done|].
    split_and!; [done..|apply next_id_larger|]. cbn [pending_transfers last_id]. by rewrite map_app.
Qed.
End properties.

(** ** A concrete database *)

Module Examples.
#[local] Existing Instance gmap_order.
#[local] Program Instance PeerState_countable : Countable PeerState :=
  inj_countable'
    (λ s, match s with
          | PeerIdle => inl (inl true)
          | Negotiating => inl (inl false)
          | Transferring p => inl (inr (inl p))
          | Completed t => inl (inr (inr t))
          | PeerFailed e t => inr (e, t)
          end)
    (λ x, match x with
          | inl (inl true) => PeerIdle
          | inl (inl false) => Negotiating
          | inl (inr (inl p)) => Transferring p
          | inl (inr (inr t)) => Completed t
          | inr (e, t) => PeerFailed e t
          end) _.
Next Obligation. by intros []. Qed.

(** Any value as a text of bits. *)
Definition text `{Countable A} (a : A) : string := string_of_list_byte (Framing.Examples.bit_encode a).
Definition untext `{Countable A} (s : string) : option A := Framing.Examples.bit_decode (list_byte_of_string s).
Lemma untext_text `{Countable A} (a : A) : untext (text a) = Some a.
Proof. unfold untext, text. by rewrite list_byte_of_string_of_list_byte, Framing.Examples.bit_decode_encode. Qed.
(** Times have a mark in front. *)
#[local] Instance formats : Formats := {
  to_rfc3339 t := String "T"%char (text t);
  parse_from_rfc3339 s := match s with String "T" s => untext s | _ => None end;
  parse_rfc3339_to t _ := untext_text t;
  state_to_json := text; state_of_json := untext; state_of_to_json s _ := untext_text s;
}.

Definition row_leb (a b : TransferRow) : bool :=
  (priority (row_transfer b) <? priority (row_transfer a)) ||
  ((priority (row_transfer a) =? priority (row_transfer b)) && (row_created_at a <=? row_created_at b)).
Lemma row_leb_le a b : row_leb a b ↔ row_le a b.
Proof.
  unfold row_leb, row_le. rewrite Is_true_true, orb_true_iff, andb_true_iff, Z.ltb_lt, Z.eqb_eq, Z.leb_le. done.
Qed.
Lemma order_sorted l : StronglySorted row_le (stable_sort row_leb l).
Proof.
  rewrite <- (map_id (stable_sort row_leb l)). eapply StronglySorted_fmap; [intros x y; by apply row_leb_le|].
  apply stable_sort_sorted.
  - intros x y. apply Is_true_true. apply orb_True. rewrite !row_leb_le. unfold row_le. lia.
  - intros x y z. rewrite <- !Is_true_true, !row_leb_le. unfold row_le. lia.
Qed.
#[local] Program Instance sqlite : Sqlite := {
  foreign_keys := true; next_id n := n + 1; order_rows := stable_sort row_leb;
  order_rows_perm := stable_sort_perm row_leb; order_rows_sorted := order_sorted;
  sql_datetime s := Some "2024-05-01 12:00:00"%string;
}.
Next Obligation. intros. cbn. lia. Qed.
Next Obligation. intros s s' [= <-]. by vm_compute. Qed.

Definition laptop (sent : Z) (state : PeerState) : PeerSyncState :=
  {| peer_id := "p1"; peer_name := "laptop"; last_sync := Some 1714560000000000000; last_manifest_hash := None;
     bytes_sent := sent; bytes_received := 0; files_sent := 0; files_received := 0; current_state := state |}.
Definition writes : list Write :=
  [Upsert 0 (laptop 0 Negotiating); Add 1 "p1" "default" "a.txt" "c1" 1; Add 2 "p1" "default" "b.txt" "c2" 3;
   Add 3 "p1" "default" "a.txt" "c1" 3; Add 3 "p2" "default" "x" "c3" 3; Upsert 4 (laptop 10 (Completed 4))].

Lemma peers_refine_map_witness :
  let self := run_writes writes (initialize None) in
  get_all_peer_states self = Ok {["p1" := laptop 10 (Completed 4)]} ∧
  get_peer_state "p1" self = Ok (Some (without_last_sync (laptop 10 (Completed 4)))).
Proof.
  assert (Forall storable writes) as Hw.
  { unfold writes. repeat (apply Forall_cons; split; [cbn; try exact I|]); [..|constructor];
      (split; [done|]; split; [|lia]); intros t [= <-]; by vm_compute. }
  destruct (peers_refine_map writes Hw) as [Hall Hone]. split; [rewrite Hall; by vm_compute|].
  rewrite Hone. by vm_compute.
Defined.

(** The transfer that was added again keeps its first priority. *)
Lemma pending_transfers_best_witness :
  let self := run_writes writes (initialize None) in
  map (λ t, (chunk_hash t, priority t)) (get_pending_transfers "p1" 1 self) = [("c2"%string, 3)] ∧
  map (λ t, (chunk_hash t, priority t)) (get_pending_transfers "p1" 5 self) = [("c2"%string, 3); ("c1"%string, 1)] ∧
  zlen (get_pending_transfers "p1" 5 self) = 2.
Proof.
  split; [by vm_compute|]. split; [by vm_compute|].
  destruct (pending_transfers_best writes "p1" 5 ltac:(lia)) as [Hlen _]. rewrite Hlen. by vm_compute.
Defined.
End Examples.
