(* ===== verification/SyncOrchestrator.v ===== *)
(** The orchestrator of the synchronisation crate: landro-sync/src/orchestrator.rs.

    It keeps the states of the peers in memory and, through [SyncState], in the
    database, the queue of [Transfer], and the progress of every peer. The clocks are
    arguments. A method is one step, except [start_sync], which is two: [check_idle]
    and [begin_sync]. *)

From S2P Require Import Prelude Manifest Conflict SyncState.
From S2P Require Transfer.
From Stdlib Require Import ZArith Lia.
From stdpp Require Import base option list gmap sets strings pretty numbers sorting.
Open Scope Z_scope.

(** ** Data *)

Record SyncConfig := {
  max_concurrent_transfers : Z;
  default_conflict_resolution : Resolver.ConflictResolution;
  database_path : string;
  auto_sync : bool;
}.
Definition SyncConfig_default : SyncConfig :=
  {| max_concurrent_transfers := 4; default_conflict_resolution := Resolver.TakeTheirs;
     database_path := ".landropic/sync.db"; auto_sync := true |}.
Record SyncOrchestrator := {
  config : SyncConfig;
  database : SyncDatabase;
  sync_state : SyncState;
  peer_states : gmap string PeerSyncState;
  scheduler : Transfer.TransferScheduler;
  conflict_resolver : Resolver.ConflictResolver;
  progress : gmap string Transfer.SyncProgress;
}.

(** ** Operations *)

Section orchestrator.
Context (checked : bool) `{MapIter, Sqlite, Transfer.PriorityQueue}.
Abbreviation orchestrator := (st SyncOrchestrator SyncError).

Definition set_database (d : SyncDatabase) (self : SyncOrchestrator) : SyncOrchestrator :=
  {| config := config self; database := d; sync_state := sync_state self; peer_states := peer_states self;
     scheduler := scheduler self; conflict_resolver := conflict_resolver self; progress := progress self |}.
Definition set_sync_state (s : SyncState) (self : SyncOrchestrator) : SyncOrchestrator :=
  {| config := config self; database := database self; sync_state := s; peer_states := peer_states self;
     scheduler := scheduler self; conflict_resolver := conflict_resolver self; progress := progress self |}.
Definition set_peers (f : gmap string PeerSyncState → gmap string PeerSyncState) (self : SyncOrchestrator) : SyncOrchestrator :=
  {| config := config self; database := database self; sync_state := sync_state self; peer_states := f (peer_states self);
     scheduler := scheduler self; conflict_resolver := conflict_resolver self; progress := progress self |}.
Definition set_scheduler (f : Transfer.TransferScheduler → Transfer.TransferScheduler) (self : SyncOrchestrator) : SyncOrchestrator :=
  {| config := config self; database := database self; sync_state := sync_state self; peer_states := peer_states self;
     scheduler := f (scheduler self); conflict_resolver := conflict_resolver self; progress := progress self |}.
Definition set_progress (f : gmap string Transfer.SyncProgress → gmap string Transfer.SyncProgress) (self : SyncOrchestrator) :
    SyncOrchestrator :=
  {| config := config self; database := database self; sync_state := sync_state self; peer_states := peer_states self;
     scheduler := scheduler self; conflict_resolver := conflict_resolver self; progress := f (progress self) |}.
Definition on_database {A} (m : st SyncDatabase SyncError A) : orchestrator A := λ self,
  let '(d, r) := m (database self) in (set_database d self, r).

(** [new], with the file at [database_path], if there is one. *)
Definition new (cfg : SyncConfig) (file : option SyncDatabase) : outcome SyncError SyncOrchestrator :=
  let db := initialize file in
  peers ← get_all_peer_states db;
  mret {| config := cfg; database := db; sync_state := Idle; peer_states := peers;
          scheduler := Transfer.new (max_concurrent_transfers cfg);
          conflict_resolver := Resolver.new (default_conflict_resolution cfg); progress := ∅ |}.

(** Negotiating or transferring. *)
Definition active (s : PeerSyncState) : bool :=
  match current_state s with Negotiating | Transferring _ => true | _ => false end.
Definition active_count (self : SyncOrchestrator) : Z :=
  zlen (List.filter (λ '(_, s), active s) (map_iter (peer_states self))).

Definition starting (peer name : string) : PeerSyncState :=
  {| peer_id := peer; peer_name := name; last_sync := None; last_manifest_hash := None; bytes_sent := 0;
     bytes_received := 0; files_sent := 0; files_received := 0; current_state := Negotiating |}.
(** [start_sync] looks at the state of the peer under one lock of [peer_states],
    which it gives back, and writes it, to the database and under another lock,
    later: two steps, between which other callers can take theirs. *)
Definition check_idle (peer : string) : orchestrator unit :=
  self ← get_st;
  match peer_states self !! peer with
  | Some s => lift (fail_if (active s) (AlreadySyncing peer))
  | None => mret tt
  end.
Definition begin_sync (sql_now now : Z) (peer name : string) : orchestrator unit :=
  let peer_state := starting peer name in
  _ ← on_database (upsert_peer_state sql_now peer_state);
  _ ← modify_st (set_peers <[peer := peer_state]>);
  self ← get_st;
  _ ← modify_st (set_sync_state (Syncing (active_count self) now));
  modify_st (set_progress <[peer := Transfer.SyncProgress_new]>).
Definition start_sync (sql_now now : Z) (peer name : string) : orchestrator unit :=
  _ ← check_idle peer;
  begin_sync sql_now now peer name.

Definition with_state (s : PeerState) (p : PeerSyncState) : PeerSyncState :=
  {| peer_id := peer_id p; peer_name := peer_name p; last_sync := last_sync p;
     last_manifest_hash := last_manifest_hash p; bytes_sent := bytes_sent p; bytes_received := bytes_received p;
     files_sent := files_sent p; files_received := files_received p; current_state := s |}.
(** The bits of [0.0] are zero. *)
Definition handle_manifest_exchange (peer : string) : orchestrator unit :=
  modify_st (set_peers (alter (with_state (Transferring 0)) peer)).

Definition request (peer path hash : string) (size : Z) : Transfer.TransferRequest :=
  {| Transfer.peer_id := peer; Transfer.chunk_hash := hash; Transfer.file_path := path; Transfer.rsize := size |}.
Definition schedule_transfer (sql_now : Z) (peer path hash : string) (size : Z) (prio : Transfer.TransferPriority) :
    orchestrator unit :=
  _ ← modify_st (set_scheduler (λ s, Transfer.schedule s (request peer path hash size) prio));
  on_database (add_pending_transfer sql_now peer "default" path hash (Transfer.level prio)).
Definition next_transfer : orchestrator (option Transfer.TransferRequest) := λ self,
  let '(s, r) := Transfer.next_transfer (scheduler self) in (set_scheduler (λ _, s) self, Ok r).

Definition with_received (bytes files : Z) (p : PeerSyncState) : PeerSyncState :=
  {| peer_id := peer_id p; peer_name := peer_name p; last_sync := last_sync p;
     last_manifest_hash := last_manifest_hash p; bytes_sent := bytes_sent p; bytes_received := bytes;
     files_sent := files_sent p; files_received := files; current_state := current_state p |}.
Definition with_done (bytes files : Z) (p : Transfer.SyncProgress) : Transfer.SyncProgress :=
  {| Transfer.total_files := Transfer.total_files p; Transfer.completed_files := files;
     Transfer.total_bytes := Transfer.total_bytes p; Transfer.transferred_bytes := bytes |}.
Definition complete_transfer (peer hash : string) (bytes : Z) : orchestrator unit :=
  _ ← modify_st (set_scheduler Transfer.complete_transfer);
  self ← get_st;
  _ ← match peer_states self !! peer with
      | Some p =>
          b ← lift (arith checked 64 (bytes_received p + bytes));
          _ ← modify_st (set_peers <[peer := with_received b (files_received p) p]>);
          f ← lift (arith checked 64 (files_received p + 1));
          modify_st (set_peers <[peer := with_received b f p]>)
      | None => mret tt
      end;
  match progress self !! peer with
  | Some p =>
      b ← lift (arith checked 64 (Transfer.transferred_bytes p + bytes));
      _ ← modify_st (set_progress <[peer := with_done b (Transfer.completed_files p) p]>);
      f ← lift (arith checked 64 (Transfer.completed_files p + 1));
      modify_st (set_progress <[peer := with_done b f p]>)
  | None => mret tt
  end.

Definition finished (now now' : DateTime) (p : PeerSyncState) : PeerSyncState :=
  {| peer_id := peer_id p; peer_name := peer_name p; last_sync := Some now';
     last_manifest_hash := last_manifest_hash p; bytes_sent := bytes_sent p; bytes_received := bytes_received p;
     files_sent := files_sent p; files_received := files_received p; current_state := Completed now |}.
(** The clock is read twice. *)
Definition complete_sync (sql_now : Z) (now now' : DateTime) (peer : string) : orchestrator unit :=
  self ← get_st;
  _ ← match peer_states self !! peer with
      | Some p =>
          _ ← modify_st (set_peers <[peer := finished now now' p]>);
          on_database (upsert_peer_state sql_now (finished now now' p))
      | None => mret tt
      end;
  self ← get_st;
  if active_count self =? 0 then modify_st (set_sync_state Idle) else mret tt.

Definition get_state (self : SyncOrchestrator) : SyncState := sync_state self.
Definition get_progress (peer : string) (self : SyncOrchestrator) : option Transfer.SyncProgress := progress self !! peer.
Definition get_peer_states (self : SyncOrchestrator) : gmap string PeerSyncState := peer_states self.

(** ** Runs *)

Inductive Call :=
  | StartSync (sql_now now : Z) (peer name : string)
  | ManifestExchange (peer : string)
  | Schedule (sql_now : Z) (peer path hash : string) (size : Z) (prio : Transfer.TransferPriority)
  | NextTransfer
  | CompleteTransfer (peer hash : string) (bytes : Z)
  | CompleteSync (sql_now : Z) (now now' : DateTime) (peer : string).
Definition call (c : Call) : orchestrator unit :=
  match c with
  | StartSync sql_now now peer name => start_sync sql_now now peer name
  | ManifestExchange peer => handle_manifest_exchange peer
  | Schedule sql_now peer path hash size prio => schedule_transfer sql_now peer path hash size prio
  | NextTransfer => _ ← next_transfer; mret tt
  | CompleteTransfer peer hash bytes => complete_transfer peer hash bytes
  | CompleteSync sql_now now now' peer => complete_sync sql_now now now' peer
  end.
Definition calls (cs : list Call) (self : SyncOrchestrator) : SyncOrchestrator := foldl (λ o c, (call c o).1) self cs.
End orchestrator.

(** ** Lemmas *)

Section lemmas.
Context (checked : bool) `{MapIter, Sqlite, Transfer.PriorityQueue}.
#[local] Set Default Proof Using "Type*".
Abbreviation call := (call checked).
Abbreviation calls := (calls checked).

Lemma active_count_zero self : active_count self = 0 ↔ map_Forall (λ _ s, active s = false) (peer_states self).
Proof using Type.
  unfold active_count. split.
  - intros Hz k s Hk. destruct (active s) eqn:Ha; [|done]. exfalso.
    assert (In (k, s) (List.filter (λ '(_, s), active s) (map_iter (peer_states self)))) as Hin.
    { apply filter_In. split; [|done]. by apply list_elem_of_In, elem_of_map_iter. }
    destruct (List.filter _ _) as [|x l]; [done|]. rewrite zlen_cons in Hz. pose proof (zlen_nonneg l). lia.
  - intros Hall. destruct (List.filter _ _) as [|[k s] l] eqn:Hf; [done|].
    assert (In (k, s) ((k, s) :: l)) as Hin by by left. rewrite <- Hf in Hin. apply filter_In in Hin as [Hin Ha].
    apply list_elem_of_In, elem_of_map_iter, Hall in Hin. congruence.
Qed.
Lemma active_count_pos self k s : peer_states self !! k = Some s → active s = true → 1 ≤ active_count self.
Proof using Type.
  intros Hk Ha. assert (active_count self ≠ 0) as Hz
    by (intros Hz%active_count_zero; specialize (Hz k s Hk); cbn in Hz; congruence).
  pose proof (zlen_nonneg (List.filter (λ '(_, s), active s) (map_iter (peer_states self)))). unfold active_count in *. lia.
Qed.

(** What a call does to the database and the peers, errors and panics included. *)
Definition clocks_ok (c : Call) : Prop :=
  match c with
  | CompleteSync _ now now' _ => in_range now ∧ in_range now'
  | CompleteTransfer _ _ bytes => 0 ≤ bytes
  | _ => True
  end.
Definition good (k : string) (s : PeerSyncState) : Prop := peer_id s = k ∧ storable (Upsert 0 s).
Lemma good_starting p name : good p (starting p name).
Proof using Type. split; [done|]. split; [done|]. split; [done|]. cbn. lia. Qed.
Lemma good_with_state st k s : json_safe st → good k s → good k (with_state st s).
Proof using Type. intros Hst [<- (_ & Hs)]. by split. Qed.
Lemma good_with_received b f k s : 0 ≤ b → 0 ≤ f → good k s → good k (with_received b f s).
Proof using Type. intros Hb Hf [<- (Hj & Ht & Hs)]. split; [done|]. split; [done|]. split; [done|]. cbn in *. lia. Qed.
Lemma good_finished a b k s : in_range a → in_range b → good k s → good k (finished a b s).
Proof using Type. intros Ha Hb [<- (Hj & Ht & Hs)]. split; [done|]. split; [done|]. split; [|done]. by intros t [= <-]. Qed.
Lemma arith_nonneg z r : 0 ≤ z → arith (E:=SyncError) checked 64 z = Ok r → 0 ≤ r.
Proof using Type. intros Hz ->%arith_Ok. apply wrap_range. lia. Qed.

(** The peers in memory and in the database are well formed, and one of them, if it is
    given, is active in both. *)
Record tracked (p : option string) (self : SyncOrchestrator) : Prop := {
  tr_peers : map_Forall good (peer_states self);
  tr_memory k : p = Some k → ∃ s, peer_states self !! k = Some s ∧ active s = true;
  tr_database : ∃ m, peers_match m (database self) ∧ ∀ k, p = Some k → ∃ s, m !! k = Some s ∧ active s = true;
}.
Lemma tracked_none p self : tracked p self → tracked None self.
Proof using Type. intros [Hp _ (m & Hm & _)]. split; [done|done|]. by exists m. Qed.
Lemma tracked_eq p self self' : peer_states self' = peer_states self → database self' = database self →
  tracked p self → tracked p self'.
Proof using Type. intros Hp Hd [H1' H2' H3']. by split; rewrite ?Hp, ?Hd. Qed.
Lemma tracked_insert p k s self : good k s → (p = Some k → active s = true) →
  tracked p self → tracked p (set_peers <[k := s]> self).
Proof using Type.
  intros Hg Ha [Hpeers Hmem Hdb]. split; cbn; [by apply map_Forall_insert_2| |done].
  intros j Hj. destruct (decide (k = j)) as [->|Hne].
  - exists s. by split; [rewrite lookup_insert_eq|apply Ha].
  - rewrite lookup_insert_ne by done. by apply Hmem.
Qed.
Lemma tracked_upsert p now s : storable (Upsert now s) → (p = Some (peer_id s) → active s = true) →
  keeps (tracked p) (on_database (upsert_peer_state now s)) (λ _, True).
Proof.
  intros Hs Ha self [Hpeers Hmem (m & Hm & Hdb)] _. unfold on_database. destruct (fits s) eqn:Hf.
  - destruct (upsert_fits now s (database self) Hs Hf) as (row & Hrow & ->). split_and!; [|done..]. cbn. split; [done..|].
    exists (<[peer_id s := s]> m). split; [by apply map_Forall2_insert_2|]. intros k Hk.
    destruct (decide (peer_id s = k)) as [<-|Hne]; [exists s; by split; [rewrite lookup_insert_eq|apply Ha]|].
    rewrite lookup_insert_ne by done. by apply Hdb.
  - destruct (upsert_not_fits now s (database self) Hf) as [e ->]. split_and!; [|done..]. split; eauto.
Qed.
Lemma tracked_add p now peer folder path hash prio :
  keeps (tracked p) (on_database (add_pending_transfer now peer folder path hash prio)) (λ _, True).
Proof.
  intros self [Hpeers Hmem (m & Hm & Hdb)] _. unfold on_database.
  pose proof (other_writes_keep_peers (SyncState.Add now peer folder path hash prio) (database self) I) as Hp. cbn [run_write] in Hp.
  destruct (add_pending_transfer now peer folder path hash prio (database self)) as [d r]. split_and!; [|done..].
  split; [done..|]. exists m. split; [by eapply peers_match_eq|done].
Qed.
Lemma tracked_other p f : (∀ self, peer_states (f self) = peer_states self ∧ database (f self) = database self) →
  keeps (E:=SyncError) (tracked p) (modify_st f) (λ _, True).
Proof using Type. intros Hf. apply keeps_modify. intros self. destruct (Hf self). by apply tracked_eq. Qed.
Lemma keeps_bind_True {A B} (P : SyncOrchestrator → Prop) (m : st SyncOrchestrator SyncError A)
    (f : A → st SyncOrchestrator SyncError B) R : keeps P m (λ _, True) → (∀ a, keeps P (f a) R) → keeps P (m ≫= f) R.
Proof using Type. intros Hm Hf. by eapply keeps_bind; [exact Hm|]. Qed.

(** A call keeps an active peer active unless it completes its synchronisation. *)
Definition completes (p : option string) (c : Call) : Prop :=
  match c with CompleteSync _ _ _ k => p = Some k | _ => False end.
Lemma completes_none cs : Forall (λ c, ¬ completes None c) cs.
Proof using Type. induction cs as [|[] cs IH]; constructor; cbn; auto; discriminate. Qed.
Lemma check_idle_eq k self : check_idle k self =
  (self, match peer_states self !! k with
         | Some s => if active s then Err (AlreadySyncing k) else Ok tt
         | None => Ok tt
         end).
Proof using Type.
  unfold check_idle. erewrite st_bind_eq by done. destruct (peer_states self !! k) as [s|]; [|done].
  unfold lift. by destruct (active s).
Qed.
Lemma keeps_check (P : SyncOrchestrator → Prop) k : keeps P (check_idle k) (λ _, True).
Proof using Type. intros self Hs _. rewrite check_idle_eq. by split_and!. Qed.
(** The second step of a start always succeeds. *)
Lemma begin_sync_eq t t' k name self : ∃ row o,
  SyncState.row_of (starting k name) row ∧ begin_sync t t' k name self = (o, Ok tt) ∧
  peer_states o = <[k := starting k name]> (peer_states self) ∧
  database o = SyncState.set_peers <[k := row]> (database self) ∧ sync_state o ≠ Idle.
Proof.
  destruct (upsert_fits t (starting k name) (database self) (proj2 (good_starting k name)) eq_refl) as (row & Hrow & Hup).
  unfold begin_sync. cbv zeta. eexists row, _. split; [done|]. split.
  { erewrite st_bind_eq by (unfold on_database; by rewrite Hup).
    do 2 erewrite st_bind_eq by done. erewrite st_bind_eq by done. reflexivity. }
  by split_and!.
Qed.
Lemma tracked_begin p t t' k name : keeps (tracked p) (begin_sync t t' k name) (λ _, True).
Proof.
  unfold begin_sync. apply keeps_bind_True; [by apply tracked_upsert; [apply good_starting|]|]. intros _.
  apply keeps_bind_True; [by apply keeps_modify; intros o; apply tracked_insert; [apply good_starting|]|]. intros _.
  eapply keeps_bind; [apply keeps_get|]. intros o _. by apply keeps_bind_True; [|intros _]; apply tracked_other.
Qed.
Lemma tracked_start p t t' k name : keeps (tracked p) (start_sync t t' k name) (λ _, True).
Proof. apply keeps_bind_True; [apply keeps_check|intros _; apply tracked_begin]. Qed.
Lemma tracked_transfer p k hash bytes : 0 ≤ bytes → keeps (tracked p) (complete_transfer checked k hash bytes) (λ _, True).
Proof.
  intros Hb. unfold complete_transfer. apply keeps_bind_True; [by apply tracked_other|]. intros _.
  eapply keeps_bind; [apply keeps_get|]. intros self [Hpeers Hmem _].
  assert (∀ r, keeps (E:=SyncError) (A:=unit) (tracked p) (modify_st (set_progress r)) (λ _, True)) as Hprog
    by (intros r; by apply tracked_other).
  apply keeps_bind_True.
  - destruct (peer_states self !! k) as [s|] eqn:Hk; [|by apply keeps_ret]. pose proof (Hpeers k s Hk) as Hs.
    pose proof Hs as (_ & _ & _ & Hcount). eapply keeps_bind; [apply keeps_lift|]. intros b Hb'. cbn in Hb'.
    apply arith_nonneg in Hb'; [|lia].
    assert (∀ f, 0 ≤ f → keeps (E:=SyncError) (tracked p) (modify_st (set_peers <[k := with_received b f s]>)) (λ _, True)) as Hput.
    { intros f Hf. apply keeps_modify. intros o. apply tracked_insert; [by apply good_with_received|].
      intros Hp. destruct (Hmem k Hp) as (s' & Hs' & Ha). assert (s' = s) as -> by congruence. exact Ha. }
    apply keeps_bind_True; [apply Hput; lia|]. intros _. eapply keeps_bind; [apply keeps_lift|]. intros f Hf. cbn in Hf.
    apply Hput. eapply arith_nonneg; [|exact Hf]. lia.
  - intros _. destruct (progress self !! k) as [s|]; [|by apply keeps_ret].
    eapply keeps_bind; [apply keeps_lift|]. intros b _. apply keeps_bind_True; [done|]. intros _.
    eapply keeps_bind; [apply keeps_lift|]. intros f _. done.
Qed.
Lemma call_tracked p c : clocks_ok c → ¬ completes p c → keeps (tracked p) (call c) (λ _, True).
Proof.
  intros Hc Hn. destruct c as [t t' k name|k|t k path hash size prio| |k hash bytes|t a b k]; cbn [SyncOrchestrator.call].
  - apply tracked_start.
  - apply keeps_modify. intros self Htr. destruct (peer_states self !! k) as [s|] eqn:Hk.
    + apply (tracked_eq p (set_peers <[k := with_state (Transferring 0) s]> self)); [|done|].
      { cbn. apply map_eq. intros j. destruct (decide (k = j)) as [->|Hj].
        - by rewrite lookup_alter_eq, lookup_insert_eq, Hk.
        - by rewrite lookup_alter_ne, lookup_insert_ne. }
      apply tracked_insert; [|done|done]. apply good_with_state; [done|]. by apply (tr_peers _ _ Htr).
    + apply (tracked_eq p self); [|done|done]. cbn. apply map_eq. intros j.
      destruct (decide (k = j)) as [->|Hj]; [by rewrite lookup_alter_eq, Hk|by rewrite lookup_alter_ne].
  - apply keeps_bind_True; [by apply tracked_other|]. intros _. apply tracked_add.
  - apply keeps_bind_True; [|intros; by apply keeps_ret]. intros self Htr _. unfold next_transfer.
    destruct (Transfer.next_transfer _). split_and!; [|done..]. by apply (tracked_eq p self).
  - by apply tracked_transfer.
  - cbn in Hc, Hn. destruct Hc as [Ha Hb]. unfold complete_sync. eapply keeps_bind; [apply keeps_get|]. intros self [Hpeers _ _].
    apply keeps_bind_True.
    + destruct (peer_states self !! k) as [s|] eqn:Hk; [|by apply keeps_ret].
      pose proof (good_finished a b k s Ha Hb (Hpeers k s Hk)) as Hg.
      apply keeps_bind_True; [apply keeps_modify; intros o; by apply tracked_insert|]. intros _.
      destruct Hg as [Hid Hs]. apply tracked_upsert; [done|]. by rewrite Hid.
    + intros _. eapply keeps_bind; [apply keeps_get|]. intros o _. case_if; [by apply tracked_other|by apply keeps_ret].
Qed.
Lemma calls_tracked p cs self : Forall clocks_ok cs → Forall (λ c, ¬ completes p c) cs → tracked p self → tracked p (calls cs self).
Proof.
  intros Hc. revert self. induction Hc as [|c cs Hc _ IH]; intros self Hn Htr; [done|].
  apply Forall_cons in Hn as [Hn Hns]. cbn. apply IH; [done|]. by eapply keeps_state; [apply call_tracked|].
Qed.

Lemma fresh_tracked cfg : ∃ o, new cfg None = Ok o ∧ tracked None o ∧ pending_transfers (database o) = [].
Proof.
  unfold new. rewrite (get_all_match ∅) by apply map_Forall2_empty. eexists. split; [reflexivity|]. split; [|done].
  split; cbn; [done|done|]. exists ∅. split; [apply map_Forall2_empty|done].
Qed.
Lemma restart_tracked cfg p self : tracked p self →
  ∃ o, new cfg (Some (database self)) = Ok o ∧ tracked p o ∧ database o = database self ∧ scheduler o = Transfer.new (max_concurrent_transfers cfg).
Proof.
  intros [_ _ (m & Hm & Hp)]. unfold new. cbn [initialize default from_option]. rewrite (get_all_match m) by done.
  eexists. split; [reflexivity|]. split_and!; [|done..]. split; cbn; [|done|by exists m].
  intros k s Hk. specialize (Hm k). rewrite Hk in Hm. inversion Hm as [? row Hrow|]; subst.
  destruct Hrow as [Hid [Hs _]]. by split.
Qed.
Lemma begin_sync_ok t t' p name self self' : tracked None self → begin_sync t t' p name self = (self', Ok tt) →
  tracked (Some p) self'.
Proof.
  intros [Hpeers _ (m & Hm & _)] Hs. destruct (begin_sync_eq t t' p name self) as (row & o & Hrow & Hb & Hp & Hd & _).
  rewrite Hb in Hs. injection Hs as <-. split.
  - rewrite Hp. apply map_Forall_insert_2; [apply good_starting|done].
  - intros k [= <-]. exists (starting p name). by rewrite Hp, lookup_insert_eq.
  - exists (<[p := starting p name]> m). rewrite Hd. split; [by apply map_Forall2_insert_2|].
    intros k [= <-]. exists (starting p name). by rewrite lookup_insert_eq.
Qed.
(** A start that succeeds is its second step. *)
Lemma start_sync_begins t t' p name self self' : start_sync t t' p name self = (self', Ok tt) →
  begin_sync t t' p name self = (self', Ok tt).
Proof.
  intros (o & [] & Hc & Hs)%st_bind_Ok. rewrite check_idle_eq in Hc. by injection Hc as <- _.
Qed.
Lemma start_sync_ok t t' p name self self' : tracked None self → start_sync t t' p name self = (self', Ok tt) →
  tracked (Some p) self'.
Proof. intros Ht Hs%start_sync_begins. by eapply begin_sync_ok. Qed.
Lemma check_active p self : tracked (Some p) self → check_idle p self = (self, Err (AlreadySyncing p)).
Proof.
  intros [_ Hmem _]. destruct (Hmem p eq_refl) as (s & Hs & Ha). by rewrite check_idle_eq, Hs, Ha.
Qed.
Lemma start_active t t' p name self : tracked (Some p) self → start_sync t t' p name self = (self, Err (AlreadySyncing p)).
Proof. intros Ht. unfold start_sync, mbind, st_bind. by rewrite check_active. Qed.

(** The pending transfers of a database only grow. *)
Definition grows (rows : list TransferRow) (self : SyncOrchestrator) : Prop :=
  ∃ more, pending_transfers (database self) = rows ++ more.
Lemma upsert_rows now s d : pending_transfers (upsert_peer_state now s d).1 = pending_transfers d.
Proof using Type. unfold upsert_peer_state, u64_to_sql, mbind, st_bind, lift. by repeat (case_if; [|done]). Qed.
Lemma grows_upsert rows now s : keeps (grows rows) (on_database (upsert_peer_state now s)) (λ _, True).
Proof using Type.
  intros self [more Hm] _. unfold on_database. pose proof (upsert_rows now s (database self)) as Hr.
  destruct (upsert_peer_state now s (database self)) as [d r]. split_and!; [|done..]. exists more. cbn in *. congruence.
Qed.
Lemma grows_add rows now peer folder path hash prio :
  keeps (grows rows) (on_database (add_pending_transfer now peer folder path hash prio)) (λ _, True).
Proof using Type.
  intros self [more Hm] _. unfold on_database, add_pending_transfer. repeat (case_if; [by split_and!; [exists more|..]|]).
  split_and!; [|done..]. unfold grows. cbn. rewrite Hm, <- app_assoc. by eexists.
Qed.
Lemma grows_other rows f : (∀ self, database (f self) = database self) → keeps (E:=SyncError) (grows rows) (modify_st f) (λ _, True).
Proof using Type. intros Hf. apply keeps_modify. intros self [more Hm]. exists more. by rewrite Hf. Qed.
Lemma call_grows rows c : keeps (grows rows) (call c) (λ _, True).
Proof using Type.
  assert (∀ (m : outcome SyncError Z) (f : Z → st SyncOrchestrator SyncError unit),
    (∀ z, keeps (grows rows) (f z) (λ _, True)) → keeps (grows rows) (z ← lift m; f z) (λ _, True)) as Hlift
    by (intros m f Hf; eapply keeps_bind; [apply keeps_lift|]; auto).
  destruct c as [t t' k name|k|t k path hash size prio| |k hash bytes|t a b k]; cbn [SyncOrchestrator.call].
  - apply keeps_bind_True; [apply keeps_check|]. intros _. unfold begin_sync.
    apply keeps_bind_True; [apply grows_upsert|]. intros _. apply keeps_bind_True; [by apply grows_other|]. intros _.
    eapply keeps_bind; [apply keeps_get|]. intros o _. by apply keeps_bind_True; [|intros _]; apply grows_other.
  - by apply grows_other.
  - apply keeps_bind_True; [by apply grows_other|]. intros _. apply grows_add.
  - apply keeps_bind_True; [|intros; by apply keeps_ret]. intros self Hg _. unfold next_transfer.
    destruct (Transfer.next_transfer _). by split_and!.
  - unfold complete_transfer. apply keeps_bind_True; [by apply grows_other|]. intros _.
    eapply keeps_bind; [apply keeps_get|]. intros self _. apply keeps_bind_True.
    + destruct (peer_states self !! k); [|by apply keeps_ret]. apply Hlift. intros z.
      apply keeps_bind_True; [by apply grows_other|]. intros _. apply Hlift. intros z'. by apply grows_other.
    + intros _. destruct (progress self !! k); [|by apply keeps_ret]. apply Hlift. intros z.
      apply keeps_bind_True; [by apply grows_other|]. intros _. apply Hlift. intros z'. by apply grows_other.
  - unfold complete_sync. eapply keeps_bind; [apply keeps_get|]. intros self _. apply keeps_bind_True.
    + destruct (peer_states self !! k); [|by apply keeps_ret]. apply keeps_bind_True; [by apply grows_other|]. intros _. apply grows_upsert.
    + intros _. eapply keeps_bind; [apply keeps_get|]. intros o _. case_if; [by apply grows_other|by apply keeps_ret].
Qed.
Lemma calls_grow rows cs self : grows rows self → grows rows (calls cs self).
Proof using Type.
  revert self. induction cs as [|c cs IH]; intros self Hg; [done|]. cbn. apply IH. by eapply keeps_state; [apply call_grows|].
Qed.

(** The same state, and the same peers active. *)
Definition alike (o self : SyncOrchestrator) : Prop :=
  sync_state self = sync_state o ∧ ∀ k, active <$> (peer_states self !! k) = active <$> (peer_states o !! k).
Lemma alike_other o f : (∀ self, peer_states (f self) = peer_states self ∧ sync_state (f self) = sync_state self) →
  keeps (E:=SyncError) (alike o) (modify_st f) (λ _, True).
Proof using Type. intros Hf. apply keeps_modify. intros self [Hs Hp]. destruct (Hf self) as [Hp' Hs']. split; [congruence|]. intros k. by rewrite Hp'. Qed.
Lemma alike_transfer o k hash bytes : keeps (alike o) (complete_transfer checked k hash bytes) (λ _, True).
Proof using Type.
  assert (∀ (m : outcome SyncError Z) (f : Z → st SyncOrchestrator SyncError unit),
    (∀ z, keeps (alike o) (f z) (λ _, True)) → keeps (alike o) (z ← lift m; f z) (λ _, True)) as Hlift
    by (intros m f Hf; eapply keeps_bind; [apply keeps_lift|]; auto).
  unfold complete_transfer. apply keeps_bind_True; [by apply alike_other|]. intros _.
  eapply keeps_bind; [apply keeps_get|]. intros self [_ Hp]. apply keeps_bind_True.
  - destruct (peer_states self !! k) as [s|] eqn:Hk; [|by apply keeps_ret].
    assert (∀ b f, keeps (E:=SyncError) (alike o) (modify_st (set_peers <[k := with_received b f s]>)) (λ _, True)) as Hput.
    { intros b f. apply keeps_modify. intros x [Hs Hx]. split; [done|]. intros j. cbn. destruct (decide (k = j)) as [->|Hne].
      - rewrite lookup_insert_eq. specialize (Hp j). rewrite Hk in Hp. exact Hp.
      - by rewrite lookup_insert_ne. }
    apply Hlift. intros b. apply keeps_bind_True; [done|]. intros _. by apply Hlift.
  - intros _. destruct (progress self !! k); [|by apply keeps_ret]. apply Hlift. intros b.
    apply keeps_bind_True; [by apply alike_other|]. intros _. apply Hlift. intros f. by apply alike_other.
Qed.

(** The state says whether a peer is active. *)
Definition follows (self : SyncOrchestrator) : Prop :=
  sync_state self = Idle ↔ map_Forall (λ _ s, active s = false) (peer_states self).
Lemma follows_alike o self : alike o self → follows o → follows self.
Proof using Type.
  intros [Hs Hp] Hf. unfold follows in *. rewrite Hs, Hf. split; intros Hall k s Hk; specialize (Hp k); rewrite Hk in Hp; cbn in Hp.
  - destruct (peer_states o !! k) as [s'|] eqn:Hk'; [|done]. specialize (Hall k s' Hk'). cbn in Hp, Hall. congruence.
  - destruct (peer_states self !! k) as [s'|] eqn:Hk'; [|done]. specialize (Hall k s' Hk'). cbn in Hp, Hall. congruence.
Qed.
Lemma follows_active self k s : peer_states self !! k = Some s → active s = true → sync_state self ≠ Idle → follows self.
Proof using Type. intros Hk Ha Hs. split; [done|]. intros Hall. specialize (Hall k s Hk). cbn in Hall. congruence. Qed.
Lemma follows_start t t' k name self self' : start_sync t t' k name self = (self', Ok tt) → follows self'.
Proof.
  intros Hs%start_sync_begins. destruct (begin_sync_eq t t' k name self) as (row & o & _ & Hb & Hp & _ & Hst).
  rewrite Hb in Hs. injection Hs as <-. apply (follows_active _ k (starting k name)); [rewrite Hp; apply lookup_insert_eq|done|done].
Qed.
Lemma follows_complete t a b k self self' : follows self → complete_sync t a b k self = (self', Ok tt) → follows self'.
Proof using Type.
  intros Hf. unfold complete_sync. erewrite st_bind_eq by done. intros (o & [] & Hp & Hs)%st_bind_Ok.
  erewrite st_bind_eq in Hs by done.
  assert (sync_state o = sync_state self ∧ ∀ j s, peer_states o !! j = Some s → active s = true → peer_states self !! j = Some s)
    as [Hst Hact].
  { destruct (peer_states self !! k) as [s|] eqn:Hk; [|by injection Hp as <-]. erewrite st_bind_eq in Hp by done.
    unfold on_database in Hp. destruct (upsert_peer_state _ _ _) as [d r]. injection Hp as <- _. split; [done|]. cbn.
    intros j s' [[<- <-]|[_ Hj]]%lookup_insert_Some; [done|]. by intros _. }
  destruct (active_count o =? 0) eqn:Hz; injection Hs as <-.
  - apply Z.eqb_eq, active_count_zero in Hz. by split.
  - assert (¬ map_Forall (λ _ s, active s = false) (peer_states o)) as Hn
      by (intros Hall%active_count_zero; apply Z.eqb_neq in Hz; lia).
    split; [|done]. intros Hi. exfalso. apply Hn. intros j s Hj. destruct (active s) eqn:Ha; [|done].
    rewrite Hst in Hi. apply Hf in Hi. specialize (Hi j s (Hact j s Hj Ha)). cbn in Hi. congruence.
Qed.
End lemmas.

(** ** Properties *)

Section properties.
Context (checked : bool) `{MapIter, Sqlite, Transfer.PriorityQueue}.
#[local] Set Default Proof Using "Type*".

(** A program that stops while it synchronises with a peer can never synchronise
    with it again: the next one finds the peer negotiating in the database and refuses
    every start, whatever else is called, until somebody completes a synchronisation
    that does not run. *)
Theorem crashed_sync_blocks_peer cfg cfg' before t t' p name during after :
  Forall clocks_ok (before ++ during ++ after) → Forall (λ c, ¬ completes (Some p) c) (during ++ after) →
  ∀ o0 o1, new cfg None = Ok o0 → start_sync t t' p name (calls checked before o0) = (o1, Ok tt) →
  ∃ o2, new cfg' (Some (database (calls checked during o1))) = Ok o2 ∧
    ∀ u u' name', start_sync u u' p name' (calls checked after o2) = (calls checked after o2, Err (AlreadySyncing p)).
Proof.
  intros [Hb [Hd Ha]%Forall_app]%Forall_app [Hnd Hna]%Forall_app o0 o1 H0' Hs.
  destruct (fresh_tracked cfg) as (o & Ho & Htr & _). assert (o0 = o) as -> by congruence.
  assert (tracked (Some p) o1) as H1'.
  { eapply start_sync_ok; [|exact Hs]. by apply calls_tracked; [|apply completes_none|]. }
  apply (calls_tracked checked (Some p) during) in H1'; [|done..].
  destruct (restart_tracked cfg' (Some p) _ H1') as (o2 & H2' & Htr2 & _). exists o2. split; [done|].
  intros u u' name'. apply start_active. by apply calls_tracked.
Qed.

(** What is scheduled is written to the database and never read or removed: the
    rows of pending transfers only grow, also when their transfers are completed, and a
    program that starts with them has an empty queue. *)
Theorem pending_transfers_pile_up cfg cs self : tracked None self → Forall clocks_ok cs →
  (∃ more, pending_transfers (database (calls checked cs self)) = pending_transfers (database self) ++ more) ∧
  ∃ o, new cfg (Some (database (calls checked cs self))) = Ok o ∧
    pending_transfers (database o) = pending_transfers (database (calls checked cs self)) ∧ (next_transfer o).2 = Ok None.
Proof.
  intros Htr Hcs. split; [apply calls_grow; exists []; by rewrite app_nil_r|].
  assert (tracked None (calls checked cs self)) as Htr'
    by (by apply calls_tracked; [|apply completes_none|]).
  destruct (restart_tracked cfg None _ Htr') as (o & Ho & _ & Hd & Hs). exists o. split_and!; [done|by rewrite Hd|].
  unfold next_transfer, Transfer.next_transfer. rewrite Hs. cbn. case_if; [done|].
  by rewrite (proj2 (Transfer.peek_None ∅)).
Qed.

(** A call that returns without an error; manifests are exchanged with active peers. *)
Inductive step : SyncOrchestrator → SyncOrchestrator → Prop :=
  | step_call c o o' : (∀ k, c = ManifestExchange k → ∃ s, peer_states o !! k = Some s ∧ active s = true) →
      call checked c o = (o', Ok tt) → step o o'.

(** Starting from an empty database, as long as calls return without an error and
    manifests are exchanged with peers that are active, the state is idle exactly when
    no peer is active. *)
Theorem state_follows_peers cfg o0 o : new cfg None = Ok o0 → rtc step o0 o →
  get_state o = Idle ↔ map_Forall (λ _ s, active s = false) (get_peer_states o).
Proof.
  intros Hnew Hrtc. enough (follows o) by done.
  assert (follows o0) as Hf.
  { unfold new in Hnew. rewrite (get_all_match ∅) in Hnew by apply map_Forall2_empty. injection Hnew as <-. split; [|done].
    intros _. apply map_Forall_empty. }
  clear Hnew. induction Hrtc as [|x y z [c x' y' Hm Hc] _ IH]; [done|]. apply IH. clear IH.
  destruct c as [t t' k name|k|t k path hash size prio| |k hash bytes|t a b k]; cbn [call] in Hc.
  - by eapply follows_start.
  - injection Hc as <-. destruct (Hm k eq_refl) as (s & Hs & Ha).
    apply (follows_active _ k (with_state (Transferring 0) s)); [|done|].
    + cbn. by rewrite lookup_alter_eq, Hs.
    + intros Hi. apply Hf in Hi. specialize (Hi k s Hs). cbn in Hi. congruence.
  - unfold schedule_transfer in Hc. erewrite st_bind_eq in Hc by done. unfold on_database in Hc.
    destruct (add_pending_transfer _ _ _ _ _ _ _). injection Hc as <- _. exact Hf.
  - apply st_bind_Ok in Hc as (o & r & Hn & Hc). injection Hc as <-. unfold next_transfer in Hn.
    destruct (Transfer.next_transfer _). injection Hn as <- _. exact Hf.
  - apply (follows_alike x'); [|done]. pose proof (alike_transfer checked x' k hash bytes) as Hal.
    change y' with (y', @Ok SyncError unit tt).1. rewrite <- Hc. by eapply keeps_state; [exact Hal|].
  - by eapply follows_complete.
Qed.

(** Synchronising with a peer again forgets its history: after a synchronisation that
    was completed and the next one that is started, the database has neither the time of
    the last synchronisation nor what was received. *)
Theorem restart_forgets_history sql t a b k name self o1 o2 :
  complete_sync sql a b k self = (o1, Ok tt) → start_sync sql t k name o1 = (o2, Ok tt) →
  get_peer_state k (database o2) = Ok (Some (starting k name)) ∧ get_peer_states o2 !! k = Some (starting k name).
Proof.
  intros _ Hs%start_sync_begins. destruct (begin_sync_eq sql t k name o1) as (row & o & Hrow & Hb & Hp & Hd & _).
  rewrite Hb in Hs. injection Hs as <-. unfold get_peer_states. rewrite Hp. split; [|apply lookup_insert_eq].
  unfold get_peer_state. rewrite Hd. cbn. rewrite lookup_insert_eq.
  change k with (peer_id (starting k name)) at 1. rewrite (peer_of_row_of _ row _ Hrow). cbn.
  destruct Hrow as (_ & _ & ->). done.
Qed.
End properties.

(** ** A concrete orchestrator *)

Module Examples.
#[local] Existing Instance gmap_order.
#[local] Existing Instance SyncState.Examples.formats.
#[local] Existing Instance SyncState.Examples.sqlite.
#[local] Existing Instance Transfer.Examples.pqueue.

Definition start : Call := StartSync 0 5 "p1" "laptop".
Definition fresh : SyncOrchestrator := from_ok
  {| config := SyncConfig_default; database := initialize None; sync_state := Idle; peer_states := ∅;
     scheduler := Transfer.new 4; conflict_resolver := Resolver.new Resolver.TakeTheirs; progress := ∅ |}
  (new SyncConfig_default None).
Definition started : SyncOrchestrator := (start_sync 0 5 "p1" "laptop" fresh).1.
(** Two callers that both look before one of them writes both start with the peer. *)
Example started_twice :
  let '(o1, r1) := check_idle "p1" fresh in
  let '(o2, r2) := check_idle "p1" o1 in
  let '(o3, r3) := begin_sync 0 5 "p1" "laptop" o2 in
  let '(_, r4) := begin_sync 0 6 "p1" "laptop" o3 in (r1, r2, r3, r4) = (Ok tt, Ok tt, Ok tt, Ok tt).
Proof. by vm_compute. Qed.
Definition transfers : list Call :=
  [ManifestExchange "p1"; Schedule 1 "p1" "a.txt" "c1" 100 Transfer.High; NextTransfer; CompleteTransfer "p1" "c1" 100].

(** The program stops after a transfer. *)
Lemma crashed_sync_blocks_peer_witness : ∃ o, new SyncConfig_default (Some (database (calls true transfers started))) = Ok o ∧
  ∀ t t' name, start_sync t t' "p1" name o = (o, Err (AlreadySyncing "p1")).
Proof.
  destruct (crashed_sync_blocks_peer true SyncConfig_default SyncConfig_default [] 0 5 "p1" "laptop" transfers []) with
    (o0 := fresh) (o1 := started) as (o & Ho & Hall).
  - unfold transfers. cbn [app]. repeat (apply Forall_cons; split; [by cbn|]). apply Forall_nil_2.
  - unfold transfers. cbn [app]. repeat (apply Forall_cons; split; [by intros ?|]). apply Forall_nil_2.
  - by vm_compute.
  - by vm_compute.
  - exists o. split; [exact Ho|]. exact Hall.
Defined.
Lemma pending_transfers_pile_up_witness :
  zlen (pending_transfers (database (calls true transfers started))) = 1 ∧
  ∃ o, new SyncConfig_default (Some (database (calls true transfers started))) = Ok o ∧ (next_transfer o).2 = Ok None.
Proof.
  split; [by vm_compute|].
  destruct (pending_transfers_pile_up true SyncConfig_default transfers started) as [_ (o & Ho & _ & Hn)].
  - destruct (fresh_tracked SyncConfig_default) as (o & Ho & Htr & _).
    assert (new SyncConfig_default None = Ok fresh) as Hf by by vm_compute. rewrite Hf in Ho. injection Ho as <-.
    apply (tracked_none (Some "p1"%string)), (start_sync_ok 0 5 "p1" "laptop" fresh); [done|by vm_compute].
  - unfold transfers. cbn [app]. repeat (apply Forall_cons; split; [by cbn|]). apply Forall_nil_2.
  - exists o. exact (conj Ho Hn).
Defined.
End Examples.
