(* ===== verification/StreamTransfer.v ===== *)
(** Chunks over many streams: landro-quic/src/stream_transfer.rs.

    [stream_chunks] is a loop that takes capacity from the flow controller for one chunk
    after the other and starts a task for each; a schedule is the order in which the
    loop and the tasks take their turns. What the network does with an attempt to send
    is part of a turn. The loop holds the lock of the flow controller while it waits.
    The product of the window and the threshold, floats, is a parameter. The stream pool
    is not modelled: its permit is dropped before [acquire] returns, nothing is ever
    released to it, and a handle is not used. *)

From S2P Require Import Prelude Bytes Proto Framing.
From Stdlib Require Import Init.Byte ZArith Lia.
From stdpp Require Import base option list gmap sets strings pretty numbers sorting.
Open Scope Z_scope.

(** ** Configuration *)

(** The threshold is a fraction. *)
Record StreamTransferConfig := {
  max_concurrent_streams : Z;
  stream_buffer_size : Z;
  adaptive_flow_control : bool;
  flow_control_window : Z;
  backpressure_threshold : Z * Z;
  enable_stream_priority : bool;
  max_retransmit_attempts : Z;
  stream_timeout : Z;
  enable_compression : bool;
}.
Definition file_sync_optimized : StreamTransferConfig :=
  {| max_concurrent_streams := 64; stream_buffer_size := 8 * 1024 * 1024; adaptive_flow_control := true;
     flow_control_window := 64 * 1024 * 1024; backpressure_threshold := (4, 5); enable_stream_priority := true;
     max_retransmit_attempts := 3; stream_timeout := 30; enable_compression := false |}.
Definition diff_sync_optimized : StreamTransferConfig :=
  {| max_concurrent_streams := 32; stream_buffer_size := 4 * 1024 * 1024; adaptive_flow_control := true;
     flow_control_window := 32 * 1024 * 1024; backpressure_threshold := (3, 4); enable_stream_priority := true;
     max_retransmit_attempts := 5; stream_timeout := 60; enable_compression := true |}.
Definition StreamTransferConfig_default : StreamTransferConfig := file_sync_optimized.

Inductive StreamError :=
  | OpenFailed
  | StreamTimeout
  | WriteFailed
  | FailedAfter (attempts : Z) (last_error : option StreamError)
  | ReadFailed
  | WrongType (got : Z)
  | SubstreamClosed.

(** ** The priority scheduler *)

Record PriorityScheduler := { enabled : bool; queues : gmap Z (list ChunkData) }.
Definition scheduler_new (enabled : bool) : PriorityScheduler := {| enabled := enabled; queues := ∅ |}.
(** The priorities from 255 down to 0. *)
Definition priorities : list Z := map (λ n, 255 - Z.of_nat n) (seq 0 256).
(** The loop over the priorities: the queues are emptied one after the other. *)
Fixpoint drain (ps : list Z) (queues : gmap Z (list ChunkData)) : gmap Z (list ChunkData) * list ChunkData :=
  match ps with
  | [] => (queues, [])
  | p :: ps =>
      match queues !! p with
      | Some q => let '(rest, scheduled) := drain ps (<[p := []]> queues) in (rest, q ++ scheduled)
      | None => drain ps queues
      end
  end.
Definition schedule (chunks : list ChunkData) (priority : Z) (self : PriorityScheduler) : PriorityScheduler * list ChunkData :=
  if negb (enabled self) then (self, chunks)
  else
    let queued := <[priority := default [] (queues self !! priority) ++ chunks]> (queues self) in
    let '(rest, scheduled) := drain priorities queued in
    ({| enabled := enabled self; queues := rest |}, scheduled).

(** ** Flow control *)

Record FlowController := {
  window_size : Z;
  available_capacity : Z;
  threshold : Z;
  waiters : Z;
}.
Record TransferResult := {
  chunk_hash : list byte;
  success : bool;
  bytes_transferred : Z;
  error : option StreamError;
}.

Section transfer.
Context (scaled : Z → Z * Z → Z).
Context `{Message ChunkData}.

Definition flow_new (cfg : StreamTransferConfig) : FlowController :=
  {| window_size := flow_control_window cfg; available_capacity := flow_control_window cfg;
     threshold := scaled (flow_control_window cfg) (backpressure_threshold cfg); waiters := 0 |}.
Definition set_available (n : Z) (f : FlowController) : FlowController :=
  {| window_size := window_size f; available_capacity := n; threshold := threshold f; waiters := waiters f |}.
Definition add_waiter (f : FlowController) : FlowController :=
  {| window_size := window_size f; available_capacity := available_capacity f; threshold := threshold f; waiters := waiters f + 1 |}.
(** Where [acquire_capacity] is: before its check, in the loop that takes the capacity,
    or waiting for a message of [notify_waiters]. *)
Inductive Acquiring := Entering | Taking | Waiting.
(** A turn of [acquire_capacity]; with [true], the permit is there. *)
Definition acquire_capacity (size : Z) (a : Acquiring) (f : FlowController) : FlowController * (Acquiring + bool) :=
  match a with
  | Entering =>
      if available_capacity f <? threshold f then (add_waiter f, inl Waiting) else (f, inl Taking)
  | Taking =>
      if available_capacity f <? size then (f, inl Taking)
      else (set_available (available_capacity f - size) f, inr true)
  | Waiting => (f, inl Waiting)
  end.
(** [Drop] of a permit. *)
Definition release (size : Z) (f : FlowController) : FlowController := set_available (available_capacity f + size) f.

(** ** One chunk *)

(** What [send_chunk_with_timeout] writes on a stream of its own. *)
Definition chunk_on_wire (chunk : ChunkData) : list byte :=
  [byte_of (as_u8 MChunkData)] ++ be_bytes 4 (wrap 32 (zlen (Framing.encode chunk))) ++ Framing.encode chunk.
(** A task: the chunk, the attempts made, the error of the last one. *)
Record Task := { chunk : ChunkData; attempts : Z; last_error : option StreamError }.
Definition task_new (c : ChunkData) : Task := {| chunk := c; attempts := 0; last_error := None |}.
Definition permit (t : Task) : Z := zlen (cd_data (chunk t)).
(** A turn of [transfer_chunk_stream]: an attempt, with its error if it fails, or the end. *)
Definition transfer_chunk_stream (cfg : StreamTransferConfig) (attempt : option StreamError) (t : Task) : Task + TransferResult :=
  let failed attempts last :=
    inr {| chunk_hash := []; success := false; bytes_transferred := 0; error := Some (FailedAfter attempts last) |} in
  if attempts t <? max_retransmit_attempts cfg then
    match attempt with
    | None => inr {| chunk_hash := cd_hash (chunk t); success := true; bytes_transferred := permit t; error := None |}
    | Some e =>
        if attempts t + 1 <? max_retransmit_attempts cfg
        then inl {| chunk := chunk t; attempts := attempts t + 1; last_error := Some e |}
        else failed (attempts t + 1) (Some e)
    end
  else failed (attempts t) (last_error t).

(** ** Streaming chunks *)

(** The loop, with the chunks that have no permit yet, its tasks, the results sent. *)
Record Streaming := {
  flow : FlowController;
  remaining : list ChunkData;
  acquiring : Acquiring;
  tasks : list Task;
  results : list TransferResult;
  written : list (list byte);
  total_bytes : Z;
}.
(** [mpsc::channel(0)] and [chunks(0)] panic. *)
Definition stream_chunks (cfg : StreamTransferConfig) (chunks : list ChunkData) (priority : Z) (f : FlowController)
    (p : PriorityScheduler) : PriorityScheduler * outcome StreamError Streaming :=
  match chunks with
  | [] => (p, Panic)
  | _ =>
      let '(p, scheduled) := if enable_stream_priority cfg then schedule chunks priority p else (p, chunks) in
      (p, if max_concurrent_streams cfg =? 0 then Panic
          else Ok {| flow := f; remaining := scheduled; acquiring := Entering; tasks := []; results := [];
                     written := []; total_bytes := 0 |})
  end.

Inductive Turn := Loop | TaskTurn (i : nat) (attempt : option StreamError).
Definition turn (cfg : StreamTransferConfig) (t : Turn) (s : Streaming) : Streaming :=
  match t with
  | Loop =>
      match remaining s with
      | [] => s
      | c :: rest =>
          match acquire_capacity (zlen (cd_data c)) (acquiring s) (flow s) with
          | (f, inl a) =>
              {| flow := f; remaining := remaining s; acquiring := a; tasks := tasks s; results := results s;
                 written := written s; total_bytes := total_bytes s |}
          | (f, inr _) =>
              {| flow := f; remaining := rest; acquiring := Entering; tasks := tasks s ++ [task_new c];
                 results := results s; written := written s; total_bytes := total_bytes s |}
          end
      end
  | TaskTurn i attempt =>
      match tasks s !! i with
      | Some t =>
          let sent := if (attempts t <? max_retransmit_attempts cfg) && match attempt with None => true | Some _ => false end then [chunk_on_wire (chunk t)] else [] in
          match transfer_chunk_stream cfg attempt t with
          | inl t' =>
              {| flow := flow s; remaining := remaining s; acquiring := acquiring s; tasks := <[i := t']> (tasks s);
                 results := results s; written := written s ++ sent; total_bytes := total_bytes s |}
          | inr r =>
              {| flow := release (permit t) (flow s); remaining := remaining s; acquiring := acquiring s;
                 tasks := delete i (tasks s); results := results s ++ [r]; written := written s ++ sent;
                 total_bytes := wrap 64 (total_bytes s + bytes_transferred r) |}
          end
      | None => s
      end
  end.
Definition run (cfg : StreamTransferConfig) (ts : list Turn) (s : Streaming) : Streaming := foldl (λ s t, turn cfg t s) s ts.

(** ** Differences *)

Definition DiffRequest := list (list byte).
Definition encoded_len (r : DiffRequest) : Z := 4 + sum_of (λ h, zlen h + 4) r.
Definition encode_request (r : DiffRequest) : list byte :=
  be_bytes 4 (wrap 32 (zlen r)) ++ concat (map (λ h, be_bytes 4 (wrap 32 (zlen h)) ++ h) r).
(** [available_chunks] of the answer. *)
Definition decode_response (buf : list byte) : outcome StreamError (list (list byte)) := Ok [].
(** What is written, and what is made of the bytes that come back. *)
Definition stream_diff (r : DiffRequest) (reply : list byte) : list byte * outcome StreamError (list (list byte)) :=
  ([byte_of (as_u8 MDiffRequest)] ++ be_bytes 4 (wrap 32 (zlen (encode_request r))) ++ encode_request r,
   '(msg_type, reply) ← ok_or ReadFailed (read_exact 1 reply);
   _ ← fail_if (negb (be_value msg_type =? as_u8 MDiffResponse)) (WrongType (be_value msg_type));
   '(size, reply) ← ok_or ReadFailed (read_exact 4 reply);
   '(buf, _) ← ok_or ReadFailed (read_exact (Z.to_nat (be_value size)) reply);
   decode_response buf).

(** ** Multiplexed streams *)

(** What was written to each substream, and what the peer has sent on it. *)
Record MultiplexedStream := { substreams : list (list byte * list byte); current_index : Z; buffer_size : Z }.
Definition create_multiplexed_stream (cfg : StreamTransferConfig) (num_substreams : nat) : MultiplexedStream :=
  {| substreams := replicate num_substreams ([], []); current_index := 0; buffer_size := stream_buffer_size cfg |}.
(** The error, if any, is that of writing. *)
Definition multiplexed_send (failed : option StreamError) (data : list byte) : st MultiplexedStream StreamError unit := λ self,
  let self' l := {| substreams := l; current_index := wrap 64 (current_index self + 1); buffer_size := buffer_size self |} in
  let n := zlen (substreams self) in
  if n =? 0 then (self' (substreams self), Panic)
  else
    match failed with
    | Some e => (self' (substreams self), Err e)
    | None => (self' (alter (λ '(w, r), (w ++ data, r)) (Z.to_nat (current_index self mod n)) (substreams self)), Ok tt)
    end.
(** The input of a substream is what the peer sends before it finishes it; a read takes
    what has arrived, which is more than nothing. *)
Definition multiplexed_recv (arrived : nat) : st MultiplexedStream StreamError (list byte) := λ self,
  let n := zlen (substreams self) in
  if n =? 0 then (self, Panic)
  else
    let i := Z.to_nat (current_index self mod n) in
    match substreams self !! i with
    | Some (w, r) =>
        let count := (Z.to_nat (buffer_size self) `min` S arrived)%nat in
        ({| substreams := <[i := (w, drop count r)]> (substreams self);
            current_index := current_index self; buffer_size := buffer_size self |},
         if bool_decide (r = []) && (0 <? buffer_size self) then Err SubstreamClosed else Ok (take count r))
    | None => (self, Panic)
    end.
End transfer.

(** ** Lemmas *)

Section lemmas.
Context (scaled : Z → Z * Z → Z).
Context `{Message ChunkData}.

#[local] Arguments sum_of : simpl never.

(** The state of the loop when it begins. *)
Definition begun (f : FlowController) (chunks : list ChunkData) : Streaming :=
  {| flow := f; remaining := chunks; acquiring := Entering; tasks := []; results := []; written := []; total_bytes := 0 |}.

Definition flow_ok (w : Z) (n : nat) (s : Streaming) : Prop :=
  available_capacity (flow s) + sum_of permit (tasks s) = w ∧ 0 ≤ available_capacity (flow s) ∧
  (length (remaining s) + length (tasks s) + length (results s) = n)%nat.
Lemma permit_nonneg t : 0 ≤ permit t.
Proof using Type. apply zlen_nonneg. Qed.
Lemma sum_of_cons {A} (f : A → Z) x l : sum_of f (x :: l) = f x + sum_of f l.
Proof using Type. done. Qed.
Lemma sum_delete {A} (f : A → Z) l i x : l !! i = Some x → sum_of f (delete i l) = sum_of f l - f x.
Proof using Type.
  intros Hi. rewrite (sum_of_perm f l (x :: delete i l)) by by apply delete_Permutation. rewrite sum_of_cons. lia.
Qed.
Lemma sum_insert {A} (f : A → Z) l i x y : l !! i = Some x → f y = f x → sum_of f (<[i := y]> l) = sum_of f l.
Proof using Type.
  intros Hi Hf. pose proof (lookup_lt_Some _ _ _ Hi) as Hlt. rewrite <- (take_drop_middle l i x Hi).
  rewrite insert_app_r_alt by (rewrite length_take; lia). rewrite length_take, Nat.min_l, Nat.sub_diag by lia.
  cbn [insert list_insert]. rewrite !sum_of_app, !sum_of_cons. lia.
Qed.
Lemma transfer_step cfg attempt t :
  match transfer_chunk_stream cfg attempt t with
  | inl t' => chunk t' = chunk t ∧ attempts t' = attempts t + 1 ∧ attempts t' < max_retransmit_attempts cfg ∧ attempt ≠ None
  | inr r => (success r = true ∧ attempts t < max_retransmit_attempts cfg ∧ attempt = None ∧ chunk_hash r = cd_hash (chunk t) ∧
        bytes_transferred r = permit t ∧ error r = None) ∨
      (success r = false ∧ chunk_hash r = [] ∧ bytes_transferred r = 0 ∧ (attempts t < max_retransmit_attempts cfg → attempt ≠ None))
  end.
Proof using Type.
  unfold transfer_chunk_stream. destruct (attempts t <? _) eqn:Ha.
  - apply Z.ltb_lt in Ha. destruct attempt as [e|]; [|by left]. destruct (attempts t + 1 <? _) eqn:Hn; [apply Z.ltb_lt in Hn|].
    + by split_and!.
    + right. by split_and!.
  - right. apply Z.ltb_ge in Ha. split_and!; try done. lia.
Qed.
Lemma turn_flow_ok cfg w n t s : flow_ok w n s → flow_ok w n (turn cfg t s).
Proof using Type.
  unfold flow_ok. intros (Hw & Ha & Hn). destruct t as [|i attempt]; cbn [turn].
  - destruct (remaining s) as [|c rest] eqn:Hr; [by split_and!; rewrite ?Hr|]. unfold acquire_capacity.
    destruct (acquiring s); [destruct (available_capacity (flow s) <? threshold (flow s))|
      destruct (available_capacity (flow s) <? zlen (cd_data c)) eqn:Hc|];
      try (split_and!; cbn; rewrite ?Hr; cbn in Hn |- *; lia).
    apply Z.ltb_ge in Hc. split_and!; cbn in Hn |- *; [rewrite sum_of_app, sum_of_cons|lia|rewrite length_app; cbn; lia].
    change (permit (task_new c)) with (zlen (cd_data c)). change (sum_of permit []) with 0. lia.
  - destruct (tasks s !! i) as [t|] eqn:Ht; [|done]. pose proof (transfer_step cfg attempt t) as Hs.
    pose proof (permit_nonneg t). pose proof (lookup_lt_Some _ _ _ Ht) as Hlt.
    destruct (transfer_chunk_stream cfg attempt t) as [t'|r].
    + destruct Hs as [Hch _]. split_and!; cbn; [|done|by rewrite length_insert].
      rewrite (sum_insert permit _ _ t) by (done || by unfold permit; rewrite Hch). done.
    + split_and!; cbn; [rewrite (sum_delete permit _ _ t) by done; lia|lia|].
      rewrite length_app, length_delete by done. cbn. lia.
Qed.
Lemma run_flow_ok cfg w n ts s : flow_ok w n s → flow_ok w n (run cfg ts s).
Proof using Type.
  revert s. induction ts as [|t ts IH]; intros s Hs; [done|]. cbn. by apply IH, turn_flow_ok.
Qed.
Lemma begun_flow_ok f chunks : 0 ≤ available_capacity f → flow_ok (available_capacity f) (length chunks) (begun f chunks).
Proof using Type. intros Hw. unfold flow_ok. split_and!; cbn; [|done|lia]. change (sum_of permit []) with 0. lia. Qed.

(** The loop that waits. *)
Definition stalled (left : list ChunkData) (s : Streaming) : Prop := acquiring s = Waiting ∧ remaining s = left ∧ left ≠ [].
Lemma turn_stalled cfg left t s : stalled left s → stalled left (turn cfg t s).
Proof using Type.
  intros (Ha & Hr & Hl). destruct t as [|i attempt]; cbn [turn].
  - rewrite Hr, Ha. by destruct left.
  - destruct (tasks s !! i); [|done]. by destruct (transfer_chunk_stream _ _ _).
Qed.
Lemma run_stalled cfg left ts s : stalled left s → stalled left (run cfg ts s).
Proof using Type. revert s. induction ts as [|t ts IH]; intros s Hs; [done|]. cbn. by apply IH, turn_stalled. Qed.

(** The turns of the loop. *)
Definition loops (ts : list Turn) : nat := length (List.filter (λ t, match t with Loop => true | _ => false end) ts).
(** Every acquisition takes two turns, as long as there is capacity enough. *)
Definition work (s : Streaming) : nat :=
  (2 * length (remaining s) - match remaining s, acquiring s with _ :: _, Taking => 1 | _, _ => 0 end)%nat.
Definition roomy (w : Z) (s : Streaming) : Prop :=
  acquiring s ≠ Waiting ∧ available_capacity (flow s) + sum_of permit (tasks s) = w ∧
  threshold (flow s) + sum_of (λ c, zlen (cd_data c)) (remaining s) + sum_of permit (tasks s) ≤ w ∧ 0 ≤ threshold (flow s).
Lemma turn_roomy cfg w t s : roomy w s →
  roomy w (turn cfg t s) ∧ (work (turn cfg t s) ≤ work s - match t with Loop => 1 | _ => 0 end)%nat.
Proof using Type.
  unfold roomy. intros (Ha & Hw & Hb & Ht0). destruct t as [|i attempt]; cbn [turn].
  - unfold work. destruct (remaining s) as [|c rest] eqn:Hr; [split; [rewrite Hr; exact (conj Ha (conj Hw (conj Hb Ht0)))|rewrite Hr; cbn; lia]|]. rewrite sum_of_cons in Hb.
    pose proof (zlen_nonneg (cd_data c)). assert (0 ≤ sum_of (λ c, zlen (cd_data c)) rest)
      by (apply sum_of_nonneg; intros; apply zlen_nonneg).
    destruct (acquiring s); [| |done]; cbn [acquire_capacity].
    + rewrite (proj2 (Z.ltb_ge _ _)) by lia. split; [split_and!; cbn; rewrite ?Hr; try done; rewrite ?sum_of_cons; lia|].
      cbn. lia.
    + rewrite (proj2 (Z.ltb_ge _ _)) by lia. split; [split_and!; cbn; try done; rewrite sum_of_app, sum_of_cons;
        change (permit (task_new c)) with (zlen (cd_data c)); change (sum_of permit []) with 0; lia|].
      cbn. destruct rest; cbn; lia.
  - destruct (tasks s !! i) as [t|] eqn:Ht; [|split; [done|lia]]. pose proof (transfer_step cfg attempt t) as Hs.
    pose proof (permit_nonneg t). destruct (transfer_chunk_stream cfg attempt t) as [t'|r].
    + destruct Hs as [Hch _]. split; [|unfold work; cbn; lia]. unfold roomy. cbn.
      by rewrite (sum_insert permit _ _ t) by (done || by unfold permit; rewrite Hch).
    + split; [|unfold work; cbn; lia]. unfold roomy. cbn. rewrite (sum_delete permit _ _ t) by done. split_and!; [done|lia..].
Qed.
Lemma run_roomy cfg w ts s : roomy w s → (work (run cfg ts s) ≤ work s - loops ts)%nat.
Proof using Type.
  revert s. induction ts as [|t ts IH]; intros s Hs; [cbn; lia|]. destruct (turn_roomy cfg w t s Hs) as [Hs' Hwk].
  specialize (IH _ Hs'). change (run cfg (t :: ts) s) with (run cfg ts (turn cfg t s)). unfold loops in *. cbn [List.filter].
  destruct t; cbn [length] in *; lia.
Qed.
Lemma work_zero s : work s = 0%nat → remaining s = [].
Proof using Type. unfold work. destruct (remaining s); [done|]. cbn. destruct (acquiring s); lia. Qed.

(** What the results and the stream of writes have to do with the chunks given. *)
Definition truthful (chunks : list ChunkData) (s : Streaming) : Prop :=
  (∀ c, c ∈ remaining s → c ∈ chunks) ∧ (∀ t, t ∈ tasks s → chunk t ∈ chunks) ∧
  (∀ w, w ∈ written s → ∃ c, c ∈ chunks ∧ w = chunk_on_wire c) ∧
  ∀ r, r ∈ results s →
    (success r = true ∧ ∃ c, c ∈ chunks ∧ chunk_hash r = cd_hash c ∧ bytes_transferred r = zlen (cd_data c) ∧
      chunk_on_wire c ∈ written s) ∨
    (success r = false ∧ chunk_hash r = [] ∧ bytes_transferred r = 0).
Lemma turn_truthful cfg chunks t s : truthful chunks s → truthful chunks (turn cfg t s).
Proof using Type.
  unfold truthful. intros (Hr & Ht & Hw & Hres). destruct t as [|i attempt]; cbn [turn].
  - destruct (remaining s) as [|c rest] eqn:Hrem; [by rewrite Hrem|].
    destruct (acquire_capacity _ _ _) as [f [a|b]]; cbn [remaining tasks written results]; [by split_and!|].
    split_and!; [|intros t'; rewrite elem_of_app, list_elem_of_singleton; intros [Hin| ->]; [by apply Ht|]|done..].
    all: intros; apply Hr; by constructor.
  - destruct (tasks s !! i) as [t|] eqn:Hi; [|done]. pose proof (Ht t (list_elem_of_lookup_2 _ _ _ Hi)) as Hct.
    pose proof (transfer_step cfg attempt t) as Hs.
    set (sent := if _ && _ then [chunk_on_wire (chunk t)] else []).
    assert (Hw' : ∀ w, w ∈ written s ++ sent → ∃ c, c ∈ chunks ∧ w = chunk_on_wire c).
    { intros w. rewrite elem_of_app. intros [Hin|Hin]; [by apply Hw|]. subst sent. destruct (_ && _) in Hin; [|by apply not_elem_of_nil in Hin].
      apply list_elem_of_singleton in Hin as ->. by exists (chunk t). }
    assert (Hres' : ∀ r, r ∈ results s → (success r = true ∧ ∃ c, c ∈ chunks ∧ chunk_hash r = cd_hash c ∧
        bytes_transferred r = zlen (cd_data c) ∧ chunk_on_wire c ∈ written s ++ sent) ∨
        (success r = false ∧ chunk_hash r = [] ∧ bytes_transferred r = 0)).
    { intros r [(Hok & c & Hc & Hh & Hb & Hin)|Hf]%Hres; [left|by right]. split; [done|]. exists c. rewrite elem_of_app. naive_solver. }
    destruct (transfer_chunk_stream cfg attempt t) as [t'|r]; cbn [remaining tasks written results].
    + destruct Hs as [Hch _]. split_and!; [done| |done..].
      intros x [j [(_ & <- & _)|(_ & Hx)]%list_lookup_insert_Some]%list_elem_of_lookup; [by rewrite Hch|].
      apply Ht. by apply list_elem_of_lookup_2 in Hx.
    + split_and!; [done| |done|].
      * intros x Hx. apply Ht. by eapply list_elem_of_delete_inv.
      * intros x. rewrite elem_of_app, list_elem_of_singleton. intros [Hin| ->]; [by apply Hres'|].
        destruct Hs as [(Hok & Ha & -> & Hh & Hb & _)|(Hf & Hh & Hb & _)]; [left|by right].
        split; [done|]. exists (chunk t). split_and!; [done..|]. rewrite elem_of_app. right. subst sent.
        rewrite (proj2 (Z.ltb_lt _ _)) by done. by apply list_elem_of_singleton.
Qed.
Lemma run_truthful cfg chunks ts s : truthful chunks s → truthful chunks (run cfg ts s).
Proof using Type. revert s. induction ts as [|t ts IH]; intros s Hs; [done|]. cbn. by apply IH, turn_truthful. Qed.

(** The attempts of a schedule that the network fails. *)
Definition failures (ts : list Turn) : Z :=
  sum_of (λ t, match t with TaskTurn _ (Some _) => 1 | _ => 0 end) ts.
(** The result of a chunk that was sent. *)
Definition delivered (c : ChunkData) : TransferResult :=
  {| chunk_hash := cd_hash c; success := true; bytes_transferred := zlen (cd_data c); error := None |}.
(** The chunks are those without a permit, those of the tasks, of which none made more
    than [k] attempts, and those that were sent, in this order: each was written to a
    stream and has its result. *)
Definition delivering (chunks : list ChunkData) (k : Z) (s : Streaming) (sent : list ChunkData) : Prop :=
  (∀ t, t ∈ tasks s → attempts t ≤ k) ∧ chunks ≡ₚ remaining s ++ map chunk (tasks s) ++ sent ∧
  written s = map chunk_on_wire sent ∧ results s = map delivered sent ∧
  total_bytes s = wrap 64 (sum_of (λ c, zlen (cd_data c)) sent).
Lemma turn_delivering cfg chunks k t s sent : 0 ≤ k → delivering chunks k s sent →
  k + failures [t] < max_retransmit_attempts cfg →
  ∃ sent', delivering chunks (k + failures [t]) (turn cfg t s) sent'.
Proof using Type.
  unfold failures. intros Hk0 (Hk & Hp & Hw & Hr & Hb) Hlt. destruct t as [|i attempt]; cbn [turn].
  - change (sum_of _ [Loop]) with 0 in *. rewrite Z.add_0_r in *. exists sent.
    destruct (remaining s) as [|c rest] eqn:Hrem; [by unfold delivering; rewrite Hrem|].
    destruct (acquire_capacity _ _ _) as [f [a|b]]; unfold delivering; cbn [remaining tasks written results total_bytes];
      [by split_and!|]. split_and!; [| |done..].
    + intros t. rewrite elem_of_app, list_elem_of_singleton. intros [?| ->]; [by apply Hk|done].
    + rewrite Hp, map_app. cbn [app map]. change (chunk (task_new c)) with c.
      rewrite <-app_assoc. cbn [app]. by rewrite (Permutation_middle rest), (Permutation_middle (map chunk (tasks s))).
  - assert (0 ≤ sum_of (λ t, match t with TaskTurn _ (Some _) => 1 | _ => 0 end) [TaskTurn i attempt]) as Hf
      by (destruct attempt; done).
    destruct (tasks s !! i) as [t|] eqn:Ht.
    2: { exists sent. split_and!; [|done..]. intros t Hin. specialize (Hk t Hin). lia. }
    pose proof (Hk t (list_elem_of_lookup_2 _ _ _ Ht)) as Hkt. unfold transfer_chunk_stream.
    rewrite (proj2 (Z.ltb_lt (attempts t) _)) by lia. cbn [andb]. destruct attempt as [e|].
    + change (sum_of _ [_]) with 1 in *. rewrite (proj2 (Z.ltb_lt (attempts t + 1) _)) by lia. exists sent.
      unfold delivering. cbn [remaining tasks written results total_bytes]. rewrite app_nil_r. split_and!; [| |done..].
      * intros x [j [(_ & <- & _)|(_ & Hx)]%list_lookup_insert_Some]%list_elem_of_lookup; cbn [attempts]; [lia|].
        apply list_elem_of_lookup_2 in Hx. specialize (Hk x Hx). lia.
      * rewrite Hp. do 2 f_equiv. change (map chunk) with (fmap (M:=list) chunk).
        rewrite list_fmap_insert. cbn [chunk]. rewrite list_insert_id; [done|]. by rewrite list_lookup_fmap, Ht.
    + exists (sent ++ [chunk t]). unfold delivering. cbn [remaining tasks written results total_bytes].
      split_and!.
      * intros x Hx. apply list_elem_of_delete_inv in Hx. specialize (Hk x Hx). lia.
      * rewrite Hp. f_equiv. rewrite (Permutation_map chunk (delete_Permutation _ _ _ Ht)). cbn [map app].
        by rewrite Permutation_cons_append, <-app_assoc.
      * by rewrite Hw, map_app.
      * by rewrite Hr, map_app.
      * rewrite Hb, sum_of_app, wrap_add_l. cbn [bytes_transferred]. f_equal. f_equal. rewrite sum_of_cons.
        change (sum_of _ []) with 0. unfold permit. lia.
Qed.
Lemma run_delivering cfg chunks k ts s sent : 0 ≤ k → delivering chunks k s sent →
  k + failures ts < max_retransmit_attempts cfg → ∃ sent', delivering chunks (k + failures ts) (run cfg ts s) sent'.
Proof using Type.
  revert k s sent. induction ts as [|t ts IH]; intros k s sent Hk Hs Hlt.
  { exists sent. unfold failures. change (sum_of _ []) with 0. by rewrite Z.add_0_r. }
  assert (failures (t :: ts) = failures [t] + failures ts) as Hf.
  { unfold failures. rewrite !sum_of_cons. change (sum_of _ []) with 0. lia. }
  assert (∀ l, 0 ≤ failures l) as Hnn.
  { intros l. apply sum_of_nonneg. intros [|? [|]] _; lia. }
  pose proof (Hnn [t]). pose proof (Hnn ts).
  destruct (turn_delivering cfg chunks k t s sent Hk Hs) as [sent1 Hs1]; [lia|].
  destruct (IH (k + failures [t]) (turn cfg t s) sent1) as [sent' Hs']; [lia|done|lia|].
  exists sent'. by rewrite Hf, Z.add_assoc.
Qed.
(** A turn for each task, of which the network delivers the chunk, and no task is left. *)
Lemma run_drains cfg chunks k n s sent : 0 ≤ k < max_retransmit_attempts cfg → delivering chunks k s sent →
  (length (tasks s) ≤ n)%nat → tasks (run cfg (replicate n (TaskTurn 0 None)) s) = [].
Proof using Type.
  revert s sent. induction n as [|n IH]; intros s sent Hk Hs Hn; [cbn; by destruct (tasks s); [|cbn in Hn; lia]|].
  destruct (turn_delivering cfg chunks k (TaskTurn 0 None) s sent) as [sent' Hs']; [lia|done| |].
  { change (failures _) with 0. lia. }
  change (failures _) with 0 in Hs'. rewrite Z.add_0_r in Hs'.
  cbn [replicate]. change (run cfg (?t :: ?ts) s) with (run cfg ts (turn cfg t s)). apply (IH _ sent'); [done..|].
  cbn [turn]. destruct (tasks s) as [|t tl] eqn:Ht; cbn [lookup list_lookup]; [rewrite Ht; cbn; lia|].
  destruct Hs as (Hat & _). rewrite Ht in Hat. specialize (Hat t (list_elem_of_here _ _)).
  unfold transfer_chunk_stream. rewrite (proj2 (Z.ltb_lt (attempts t) _)) by lia.
  cbn [tasks]. cbn. cbn in Hn. lia.
Qed.

(** The queues between two calls of [schedule]. *)
Definition drained (p : PriorityScheduler) : Prop := ∀ k q, queues p !! k = Some q → 0 ≤ k ≤ 255 ∧ q = [].
Lemma drain_empty ps qs : (∀ k q, qs !! k = Some q → q = []) → (drain ps qs).2 = [] ∧ ∀ k, (drain ps qs).1 !! k = qs !! k.
Proof using Type.
  revert qs. induction ps as [|p ps IH]; intros qs Hq; [done|]. cbn [drain]. destruct (qs !! p) as [q|] eqn:Hp; [|by apply IH].
  pose proof (Hq _ _ Hp) as ->. rewrite (insert_id qs p []) by done. destruct (IH qs Hq) as [He Hk]. destruct (drain ps qs). by split.
Qed.
Lemma drain_one ps qs priority chunks : priority ∈ ps → qs !! priority = Some chunks →
  (∀ k q, k ≠ priority → qs !! k = Some q → q = []) →
  (drain ps qs).2 = chunks ∧ ∀ k, (drain ps qs).1 !! k = <[priority := []]> qs !! k.
Proof using Type.
  revert qs. induction ps as [|p ps IH]; intros qs Hin Hp Hq; [by apply not_elem_of_nil in Hin|]. cbn [drain].
  destruct (decide (p = priority)) as [->|Hne].
  - rewrite Hp. destruct (drain_empty ps (<[priority := []]> qs)) as [He Hk].
    + intros k q Hk. destruct (decide (k = priority)) as [->|]; [by rewrite lookup_insert_eq in Hk; simplify_eq|].
      rewrite lookup_insert_ne in Hk by done. by eapply Hq.
    + destruct (drain ps (<[priority := []]> qs)) as [rest sch]. cbn in *. subst. by rewrite app_nil_r.
  - apply elem_of_cons in Hin as [->|Hin]; [done|]. destruct (qs !! p) as [q|] eqn:Hpq; [|by apply IH].
    pose proof (Hq _ _ Hne Hpq) as ->. rewrite (insert_id qs p []) by done. destruct (IH qs Hin Hp Hq) as [He Hk].
    destruct (drain ps qs). by split.
Qed.
Lemma priorities_all p : 0 ≤ p ≤ 255 → p ∈ priorities.
Proof using Type.
  intros Hp. unfold priorities. apply list_elem_of_In, in_map_iff. exists (Z.to_nat (255 - p)).
  split; [lia|]. apply in_seq. lia.
Qed.
Lemma encode_request_len r : zlen (encode_request r) = encoded_len r.
Proof using Type.
  unfold encode_request, encoded_len. rewrite zlen_app. unfold zlen at 1. rewrite be_bytes_length.
  f_equal. induction r as [|h r IH]; [done|]. cbn [map concat]. rewrite sum_of_cons, !zlen_app, IH.
  unfold zlen at 1. rewrite be_bytes_length. lia.
Qed.

Lemma schedule_drained chunks priority p : drained p → 0 ≤ priority ≤ 255 →
  (schedule chunks priority p).2 = chunks ∧ drained (schedule chunks priority p).1.
Proof using Type.
  intros Hd Hp. unfold schedule. destruct (negb _); [done|].
  assert (Hdef : default [] (queues p !! priority) = []) by (destruct (queues p !! priority) as [q|] eqn:Hq; [by apply Hd in Hq as [_ ->]|done]).
  rewrite Hdef. cbn [app]. destruct (drain_one priorities (<[priority := chunks]> (queues p)) priority chunks) as [He Hk].
  - by apply priorities_all.
  - by rewrite lookup_insert_eq.
  - intros k q Hne. rewrite lookup_insert_ne by done. intros Hq. by apply Hd in Hq as [_ ->].
  - destruct (drain _ _) as [rest sch]. cbn in *. split; [done|]. intros k q. cbn. rewrite Hk.
    destruct (decide (k = priority)) as [->|Hne]; [rewrite lookup_insert_eq; intros; by simplify_eq|].
    rewrite !lookup_insert_ne by done. apply Hd.
Qed.
Lemma stream_chunks_begins cfg chunks priority f p : drained p → 0 ≤ priority ≤ 255 → chunks ≠ [] → max_concurrent_streams cfg ≠ 0 →
  (stream_chunks cfg chunks priority f p).2 = Ok (begun f chunks) ∧ drained (stream_chunks cfg chunks priority f p).1.
Proof using Type.
  intros Hd Hp Hne Hm. destruct (schedule_drained chunks priority p Hd Hp) as [Hs Hd'].
  unfold stream_chunks. rewrite (proj2 (Z.eqb_neq _ _)) by done. destruct chunks as [|c chunks]; [done|].
  destruct (enable_stream_priority cfg); [|done]. destruct (schedule _ _ _) as [p' sch]. cbn in *. by subst.
Qed.
Lemma next_differs i n : 1 < n → (i + 1) mod n ≠ i mod n.
Proof using Type.
  intros Hn Heq. apply Z.cong_iff_0 in Heq. replace (i + 1 - i) with 1 in Heq by lia. rewrite Z.mod_small in Heq; lia.
Qed.
End lemmas.

(** ** Theorems *)

Section theorems.
Context (scaled : Z → Z * Z → Z).
Context `{Message ChunkData}.
#[local] Arguments sum_of : simpl never.

(** C37: [stream_chunks] with chunks whose sizes leave the threshold of the window, sends them all, if the
    network fails fewer attempts than one chunk may take ([max_retransmit_attempts]). Once its loop had two
    turns for each chunk, no chunk waits for a permit, whatever the turns of the tasks and the network
    between them. Of the chunks some ([sent]) are done: the header and the encoding of each were written to a
    stream of its own, each has a result that says success, with its hash and its size, and nothing else was
    written or reported. The others each have a task, and a turn for each of these is enough to send them;
    when no task is left the whole window is available again. *)
Theorem small_transfer_completes cfg chunks priority p ts : drained p → 0 ≤ priority ≤ 255 → chunks ≠ [] →
  max_concurrent_streams cfg ≠ 0 → 0 ≤ threshold (flow_new scaled cfg) →
  threshold (flow_new scaled cfg) + sum_of (λ c, zlen (cd_data c)) chunks ≤ flow_control_window cfg →
  (2 * length chunks ≤ loops ts)%nat → failures ts < max_retransmit_attempts cfg →
  ∃ s, (stream_chunks cfg chunks priority (flow_new scaled cfg) p).2 = Ok s ∧
    let s' := run cfg ts s in
    remaining s' = [] ∧
    (∃ sent, chunks ≡ₚ map chunk (tasks s') ++ sent ∧
      written s' = map chunk_on_wire sent ∧ results s' = map delivered sent ∧
      total_bytes s' = wrap 64 (sum_of (λ c, zlen (cd_data c)) sent)) ∧
    tasks (run cfg (ts ++ replicate (length chunks) (TaskTurn 0 None)) s) = [] ∧
    (tasks s' = [] → available_capacity (flow s') = flow_control_window cfg).
Proof using Type.
  intros Hd Hp Hne Hm Ht0 Hroom Hts Hfail. set (f := flow_new scaled cfg) in *.
  destruct (stream_chunks_begins cfg chunks priority f p Hd Hp Hne Hm) as [Hs _]. exists (begun f chunks).
  assert (Hr : roomy (flow_control_window cfg) (begun f chunks)).
  { unfold roomy. cbn [begun acquiring flow remaining tasks]. change (sum_of permit []) with 0.
    change (available_capacity f) with (flow_control_window cfg). split_and!; [done|lia..]. }
  pose proof (run_roomy cfg _ ts _ Hr) as Hwork. unfold work in Hwork at 2. cbn [begun remaining acquiring] in Hwork.
  assert (Hz : remaining (run cfg ts (begun f chunks)) = []).
  { apply work_zero. destruct chunks; lia. }
  assert (Hpos : 0 ≤ available_capacity f).
  { change (available_capacity f) with (flow_control_window cfg).
    pose proof (sum_of_nonneg (λ c, zlen (cd_data c)) chunks (λ c _, zlen_nonneg (cd_data c))). lia. }
  destruct (run_flow_ok cfg _ _ ts _ (begun_flow_ok f chunks Hpos)) as (Hw & _ & Hn).
  rewrite Hz in Hn. cbn [length] in Hn.
  assert (delivering chunks 0 (begun f chunks) []) as Hbegun.
  { split_and!; try done. - by intros t ?%elem_of_nil. - cbn. by rewrite app_nil_r. }
  destruct (run_delivering cfg chunks 0 ts _ _ (Z.le_refl 0) Hbegun) as [sent Hsent]; [lia|].
  assert (0 ≤ failures ts) as Hnn by (apply sum_of_nonneg; intros [|? [|]] _; lia).
  cbv zeta. split_and!; [done..| | |].
  - exists sent. destruct Hsent as (_ & Hperm & Hwr & Hres & Hb). by rewrite Hz in Hperm.
  - unfold run. rewrite foldl_app. apply (run_drains cfg chunks (0 + failures ts) _ _ sent); [lia|done|].
    fold (run cfg ts (begun f chunks)). lia.
  - intros Hnil. rewrite Hnil in Hw. change (sum_of permit []) with 0 in Hw.
    change (available_capacity f) with (flow_control_window cfg) in Hw. lia.
Qed.

(** As soon as the first chunk takes the capacity below the threshold of the window, the loop of [stream_chunks]
    waits for a message that nothing sends: in no continuation, not even when every permit was returned,
    is a second chunk started, and the call does not return. *)
Theorem backpressure_never_ends cfg chunks priority p c c' rest ts : drained p → 0 ≤ priority ≤ 255 →
  chunks = c :: c' :: rest → max_concurrent_streams cfg ≠ 0 →
  threshold (flow_new scaled cfg) ≤ flow_control_window cfg → zlen (cd_data c) ≤ flow_control_window cfg →
  flow_control_window cfg - zlen (cd_data c) < threshold (flow_new scaled cfg) →
  ∃ s, (stream_chunks cfg chunks priority (flow_new scaled cfg) p).2 = Ok s ∧
    let s' := run cfg (Loop :: Loop :: Loop :: ts) s in
    remaining s' = c' :: rest ∧ acquiring s' = Waiting ∧ (length (tasks s') + length (results s') = 1)%nat.
Proof using Type.
  intros Hd Hp -> Hm Hth Hfit Hlow. set (f := flow_new scaled cfg) in *.
  assert (Hav : available_capacity f = flow_control_window cfg) by done. pose proof (zlen_nonneg (cd_data c)) as Hc0.
  destruct (stream_chunks_begins cfg (c :: c' :: rest) priority f p Hd Hp) as [Hs _]; [done..|]. exists (begun f (c :: c' :: rest)).
  split; [done|]. cbv zeta. assert (Hst : stalled (c' :: rest) (run cfg [Loop; Loop; Loop] (begun f (c :: c' :: rest)))).
  { cbn [run foldl turn remaining begun acquiring flow acquire_capacity]. rewrite (proj2 (Z.ltb_ge (available_capacity f) (threshold f))) by lia.
    cbn [remaining acquiring flow acquire_capacity]. rewrite (proj2 (Z.ltb_ge (available_capacity f) _)) by lia.
    cbn [remaining acquiring flow acquire_capacity set_available available_capacity threshold].
    rewrite (proj2 (Z.ltb_lt _ (threshold f))) by lia. done. }
  pose proof (run_stalled cfg _ ts _ Hst) as (Ha & Hr & _).
  change (run cfg (Loop :: Loop :: Loop :: ts) (begun f (c :: c' :: rest))) with (run cfg ts (run cfg [Loop; Loop; Loop] (begun f (c :: c' :: rest)))).
  destruct (run_flow_ok cfg _ _ ([Loop; Loop; Loop] ++ ts) _ (begun_flow_ok f (c :: c' :: rest) ltac:(lia))) as (_ & _ & Hn).
  unfold run in Hn at 1 2 3. rewrite foldl_app in Hn. fold (run cfg [Loop; Loop; Loop] (begun f (c :: c' :: rest))) in Hn.
  fold (run cfg ts (run cfg [Loop; Loop; Loop] (begun f (c :: c' :: rest)))) in Hn. rewrite Hr in Hn. cbn [length] in Hn.
  split_and!; [done..|lia].
Qed.

(** Whatever the turns and the network, a result that says success is that of a chunk given to
    [stream_chunks], with its hash and its size, which was written whole to a stream; one that says failure
    has the empty hash. *)
Theorem results_are_truthful cfg chunks priority f p ts r : drained p → 0 ≤ priority ≤ 255 → chunks ≠ [] →
  max_concurrent_streams cfg ≠ 0 →
  ∃ s, (stream_chunks cfg chunks priority f p).2 = Ok s ∧
    (r ∈ results (run cfg ts s) →
      (success r = true ∧ ∃ c, c ∈ chunks ∧ chunk_hash r = cd_hash c ∧ bytes_transferred r = zlen (cd_data c) ∧
        chunk_on_wire c ∈ written (run cfg ts s)) ∨
      (success r = false ∧ chunk_hash r = [] ∧ bytes_transferred r = 0)).
Proof using Type.
  intros Hd Hp Hne Hm. destruct (stream_chunks_begins cfg chunks priority f p Hd Hp Hne Hm) as [Hs _].
  exists (begun f chunks). split; [done|].
  assert (Ht : truthful chunks (begun f chunks)) by (split_and!; cbn; intros x Hx; try done; by apply not_elem_of_nil in Hx).
  by apply (run_truthful cfg chunks ts _ Ht).
Qed.

(** [schedule] empties its queues on every call, so that a call returns exactly the chunks it was given, in
    their order, whatever the priorities of this call and of those before. *)
Theorem priorities_have_no_effect calls chunks priority enabled : 0 ≤ priority ≤ 255 → Forall (λ '(_, q), 0 ≤ q ≤ 255) calls →
  (schedule chunks priority (foldl (λ p '(cs, q), (schedule cs q p).1) (scheduler_new enabled) calls)).2 = chunks.
Proof using Type.
  intros Hp Hcalls. apply schedule_drained; [|done].
  assert (Hnew : drained (scheduler_new enabled)) by (intros k q Hk; exfalso; exact (lookup_empty_Some _ _ Hk)).
  revert Hnew. generalize (scheduler_new enabled). induction Hcalls as [|[cs q] calls Hq _ IH]; intros p Hd; [done|].
  cbn. by apply IH, schedule_drained.
Qed.

(** [stream_diff] writes the length that [encoded_len] says, and no answer of the peer gives it a chunk. *)
Theorem stream_diff_learns_nothing r reply l : 0 ≤ encoded_len r < 2 ^ 32 → (stream_diff r reply).2 = Ok l →
  l = [] ∧ ∃ rest, reply = byte_of (as_u8 MDiffResponse) :: rest ∧
    (stream_diff r reply).1 = [byte_of (as_u8 MDiffRequest)] ++ be_bytes 4 (encoded_len r) ++ encode_request r.
Proof using Type.
  intros Hlen Hok. unfold stream_diff in *. cbn [fst snd] in *. rewrite encode_request_len, wrap_small by done.
  inv_ok. destruct x as [mt reply1]. inv_ok. destruct x0 as [size reply2]. inv_ok. destruct x0 as [buf reply3].
  apply read_exact_Some in H0 as [-> Hmt]. destruct mt as [|b [|? ?]]; try done. unfold decode_response in Hok.
  split; [by simplify_eq|]. exists reply1. split; [|done]. cbn [app]. f_equal.
  apply byte_val_inj. rewrite byte_val_of, wrap_small by done. rewrite <- be_value_byte.
  apply Z.eqb_eq. by destruct (_ =? _).
Qed.

(** [recv] does not read the substream of the last [send], where the peer answers, but the one after it. *)
Theorem recv_reads_the_next_substream self self' data : 1 < zlen (substreams self) → 0 ≤ current_index self < 2 ^ 64 - 1 →
  multiplexed_send None data self = (self', Ok tt) →
  ∃ i j, i ≠ j ∧ (∀ k, k ≠ i → substreams self' !! k = substreams self !! k) ∧
    (∀ w r, substreams self !! i = Some (w, r) → substreams self' !! i = Some (w ++ data, r)) ∧
    ∀ arrived k, k ≠ j → substreams (multiplexed_recv arrived self').1 !! k = substreams self' !! k.
Proof using Type.
  intros Hn Hi. unfold multiplexed_send. rewrite (proj2 (Z.eqb_neq _ _)) by lia. intros [= <-]. cbn [substreams].
  set (n := zlen (substreams self)) in *. exists (Z.to_nat (current_index self mod n)), (Z.to_nat ((current_index self + 1) mod n)).
  pose proof (Z.mod_pos_bound (current_index self) n). pose proof (Z.mod_pos_bound (current_index self + 1) n).
  split_and!.
  - intros Heq%Z2Nat.inj; [|lia..]. by apply (next_differs (current_index self) n Hn).
  - intros k Hk. by rewrite list_lookup_alter_ne.
  - intros w r Hwr. by rewrite list_lookup_alter_eq, Hwr.
  - intros arrived k Hk. unfold multiplexed_recv. cbn [substreams current_index buffer_size].
    assert (Hl : zlen (alter (λ '(w, r), (w ++ data, r)) (Z.to_nat (current_index self mod n)) (substreams self)) = n)
      by (unfold zlen; by rewrite length_alter).
    rewrite Hl, (proj2 (Z.eqb_neq _ _)), wrap_small by lia.
    destruct (_ !! Z.to_nat ((current_index self + 1) mod n)) as [[w r]|]; [|done]. cbn [fst substreams].
    by rewrite list_lookup_insert_ne.
Qed.
End theorems.

(** ** Examples *)

Module Examples.
#[local] Existing Instance Framing.Examples.chunk_codec.
Definition percent (w : Z) (t : Z * Z) : Z := (w * t.1) `div` t.2.
Definition small_window : StreamTransferConfig :=
  {| max_concurrent_streams := 2; stream_buffer_size := 4; adaptive_flow_control := true; flow_control_window := 10;
     backpressure_threshold := (4, 5); enable_stream_priority := true; max_retransmit_attempts := 1; stream_timeout := 1;
     enable_compression := false |}.
Definition part (h : byte) (n : nat) : ChunkData :=
  {| cd_hash := [h]; cd_data := replicate n h; cd_compressed := false; cd_uncompressed_size := 0 |}.
Lemma nothing_queued enabled : drained (scheduler_new enabled).
Proof. intros k q Hk. exfalso. exact (lookup_empty_Some _ _ Hk). Qed.

(** A chunk of one byte, then one of one byte more, of a window of ten with a threshold of eight. *)
Lemma small_transfer_completes_witness : ∃ s,
  (stream_chunks small_window [part x01 1; part x02 1] 7 (flow_new percent small_window) (scheduler_new true)).2 = Ok s ∧
  let s' := run small_window [Loop; Loop; TaskTurn 0 None; Loop; Loop] s in
  remaining s' = [] ∧
  tasks (run small_window ([Loop; Loop; TaskTurn 0 None; Loop; Loop] ++ replicate 2 (TaskTurn 0 None)) s) = [].
Proof.
  destruct (small_transfer_completes percent small_window [part x01 1; part x02 1] 7 (scheduler_new true)
    [Loop; Loop; TaskTurn 0 None; Loop; Loop]) as (s & Hs & Hr & _ & Hd & _);
    [apply nothing_queued|lia|done|done|by vm_compute|by vm_compute|vm_compute; lia|by vm_compute|].
  exists s. exact (conj Hs (conj Hr Hd)).
Defined.

(** Three bytes, then one: the first chunk arrives, its permit is back, the second is never sent. *)
Lemma backpressure_never_ends_witness : ∃ s,
  (stream_chunks small_window [part x01 3; part x02 1] 7 (flow_new percent small_window) (scheduler_new true)).2 = Ok s ∧
  let s' := run small_window [Loop; Loop; Loop; TaskTurn 0 None; Loop; Loop; Loop] s in
  remaining s' = [part x02 1] ∧ acquiring s' = Waiting.
Proof.
  destruct (backpressure_never_ends percent small_window [part x01 3; part x02 1] 7 (scheduler_new true) (part x01 3) (part x02 1) []
    [TaskTurn 0 None; Loop; Loop; Loop]) as (s & Hs & Hr & Ha & _);
    [apply nothing_queued|lia|done|done|by vm_compute|by vm_compute|by vm_compute|].
  exists s. exact (conj Hs (conj Hr Ha)).
Defined.

Lemma results_are_truthful_witness : ∃ s,
  (stream_chunks small_window [part x01 1] 7 (flow_new percent small_window) (scheduler_new true)).2 = Ok s ∧
  ∃ c, c ∈ [part x01 1] ∧ chunk_on_wire c ∈ written (run small_window [Loop; Loop; TaskTurn 0 None] s).
Proof.
  destruct (results_are_truthful small_window [part x01 1] 7 (flow_new percent small_window) (scheduler_new true)
    [Loop; Loop; TaskTurn 0 None] {| chunk_hash := [x01]; success := true; bytes_transferred := 1; error := None |})
    as (s & Hs & Hr); [apply nothing_queued|lia|done|done|].
  exists s. split; [exact Hs|]. vm_compute in Hs. injection Hs as <-.
  specialize (Hr ltac:(vm_compute; constructor)).
  destruct Hr as [Hr|Hr].
  - destruct Hr as [_ (c & Hc & _ & _ & Hw)].
    exists c. exact (conj Hc Hw).
  - destruct Hr as [Hf _]. exfalso. exact (Bool.diff_true_false Hf).
Defined.

Lemma priorities_have_no_effect_witness :
  (schedule [part x01 1] 0 (foldl (λ p '(cs, q), (schedule cs q p).1) (scheduler_new true) [([part x02 1], 200)])).2 = [part x01 1].
Proof.
  apply (priorities_have_no_effect [([part x02 1], 200)] [part x01 1] 0 true); [lia|].
  constructor; [lia|constructor].
Defined.

Lemma stream_diff_learns_nothing_witness :
  let r := [[x01; x02]; [x03]] in
  let reply := [byte_of (as_u8 MDiffResponse)] ++ be_bytes 4 1 ++ [x07] in
  (stream_diff r reply).2 = Ok [] ∧ ([] : list (list byte)) = [].
Proof.
  split; [by vm_compute|].
  apply (stream_diff_learns_nothing [[x01; x02]; [x03]] ([byte_of (as_u8 MDiffResponse)] ++ be_bytes 4 1 ++ [x07]) []);
    [by vm_compute|by vm_compute].
Defined.

Lemma recv_reads_the_next_substream_witness : ∃ i j : nat, i ≠ j ∧
  let m := create_multiplexed_stream small_window 2 in
  ∀ arrived k, k ≠ j → substreams (multiplexed_recv arrived (multiplexed_send None [x01] m).1).1 !! k =
    substreams (multiplexed_send None [x01] m).1 !! k.
Proof.
  destruct (recv_reads_the_next_substream (create_multiplexed_stream small_window 2)
    (multiplexed_send None [x01] (create_multiplexed_stream small_window 2)).1 [x01]) as (i & j & Hij & _ & _ & Hr);
    [by vm_compute|vm_compute; split; congruence|by vm_compute|]. exists i, j. exact (conj Hij Hr).
Defined.
End Examples.
