(* ===== verification/Identity.v ===== *)
(** The identity of a device: landro-crypto/src/identity.rs.

    A device is named by its public key; the secret key is kept in one file. The files
    are a map from paths to contents and mode bits; saving is a list of file operations,
    any of which can fail or be cut off by a crash. Ed25519 and bincode are classes, the
    random key and the home directory are arguments. *)

From S2P Require Import Prelude Bytes Framing.
From Stdlib Require Import Init.Byte ZArith Lia.
From stdpp Require Import base option list gmap sets strings pretty numbers sorting.
Open Scope Z_scope.

Inductive CryptoError :=
  | CryptoIo
  | HomeNotFound
  | InvalidDeviceId
  | InvalidHex
  | InvalidIdLength (len : Z)
  | InvalidKey
  | UnsupportedKeyVersion (version : Z)
  | SignatureVerification
  | Serialization
  | KeyNotFound
  | CertificateGeneration
  | CertificateValidation (what : string)
  | CertificateStorage.
#[export] Instance CryptoError_eq_dec : EqDecision CryptoError.
Proof. solve_decision. Defined.

(** ** [DeviceId] *)

Module DeviceId.
(** The 32 bytes of a public key. *)
Abbreviation t := (list byte).
Definition wf (d : t) : Prop := length d = 32%nat.

Definition from_bytes (bytes : list byte) : outcome CryptoError t :=
  _ ← fail_if (negb (zlen bytes =? 32)) InvalidDeviceId;
  mret bytes.
Definition as_bytes (d : t) : list byte := d.
Definition to_hex `{Hex} (d : t) : string := hex_encode d.
(** ["{:02x}"] of the bytes, one after the other. *)
Definition lower_hex (bs : list byte) : string := RefHash.encode bs.
(** [chunks(2)]. *)
Fixpoint pairs (bs : list byte) : list (list byte) :=
  match bs with
  | a :: b :: bs => [a; b] :: pairs bs
  | [] => []
  | [a] => [[a]]
  end.
Definition fingerprint `{Blake3} (d : t) : string :=
  String.concat ":" (map lower_hex (pairs (take 16 (blake3 d)))).
Definition from_str `{Hex} (s : string) : outcome CryptoError t :=
  let len := Z.of_nat (String.length s) in
  if len =? 64 then
    bytes ← ok_or InvalidHex (hex_decode s);
    from_bytes bytes
  else Err (InvalidIdLength len).
End DeviceId.

(** ** Keys *)

(** [ed25519_dalek]: the public key of a secret key, signing, and verifying, with [None] for
    bytes that are not a public key. *)
Class Ed25519 := {
  Signature : Type;
  verifying_key_of : list byte → list byte;
  ed_sign : list byte → list byte → Signature;
  ed_verify : list byte → list byte → Signature → option bool;
  verifying_key_length k : length (verifying_key_of k) = 32%nat;
  ed_verify_sign k m : ed_verify (verifying_key_of k) m (ed_sign k m) = Some true;
}.

Record StoredIdentity := { version : Z; stored_name : string; private_key : list byte }.
(** [bincode::serialize] and [bincode::deserialize] at [StoredIdentity]. *)
Class Bincode := {
  serialize : StoredIdentity → option (list byte);
  deserialize : list byte → option StoredIdentity;
  deserialize_serialize s bytes : serialize s = Some bytes → deserialize bytes = Some s;
}.

(** ** Paths and files *)

Abbreviation Path := (list string).

Definition dot : Ascii.ascii := Ascii.ascii_of_nat 46.
(** What is before and after the last dot. *)
Fixpoint last_dot (s : string) : option (string * string) :=
  match s with
  | EmptyString => None
  | String c s =>
      match last_dot s with
      | Some (a, b) => Some (String c a, b)
      | None => if Ascii.eqb c dot then Some (EmptyString, s) else None
      end
  end.
(** [Path::file_stem] and [Path::extension] of a file name: a leading dot starts no extension. *)
Definition file_stem (name : string) : string :=
  match last_dot name with
  | Some (EmptyString, _) | None => name
  | Some (a, _) => a
  end.
Definition extension (name : string) : option string :=
  match last_dot name with
  | Some (EmptyString, _) | None => None
  | Some (_, b) => Some b
  end.
Definition file_name (p : Path) : string := default EmptyString (last p).
Definition parent (p : Path) : Path := take (pred (length p)) p.
Definition with_extension (ext : string) (p : Path) : Path := parent p ++ [file_stem (file_name p) +:+ "." +:+ ext].

Record File := { contents : list byte; mode : Z }.
Abbreviation Disk := (gmap Path File).

(** The file operations of [save]. *)
Inductive FileOp :=
  | CreateDirAll (p : Path)
  | WriteFile (p : Path) (data : list byte)
  | SetMode (p : Path) (m : Z)
  | RenameFile (from to : Path).
(** A new file has the mode that the umask leaves; [written] bytes of a write arrive. *)
Definition write_file (umask : Z) (p : Path) (data : list byte) (d : Disk) : Disk :=
  <[p := {| contents := data; mode := default (Z.land 438 (Z.lnot umask)) (mode <$> d !! p) |}]> d.
Definition apply_op (umask : Z) (op : FileOp) (d : Disk) : Disk :=
  match op with
  | CreateDirAll _ => d
  | WriteFile p data => write_file umask p data d
  | SetMode p m => alter (λ f, {| contents := contents f; mode := m |}) p d
  | RenameFile p q =>
      match d !! p with
      | Some f => <[q := f]> (delete p d)
      | None => d
      end
  end.
(** A fault: the operations before the [n]th happen, that one fails, a write after [k] bytes. *)
Definition Fault : Type := nat * nat.
Fixpoint perform (umask : Z) (ops : list FileOp) (fault : option Fault) (d : Disk) : Disk * bool :=
  match ops with
  | [] => (d, true)
  | op :: ops =>
      match fault with
      | Some (O, k) => (match op with WriteFile p data => write_file umask p (take k data) d | _ => d end, false)
      | Some (S n, k) => perform umask ops (Some (n, k)) (apply_op umask op d)
      | None => perform umask ops None (apply_op umask op d)
      end
  end.

(** ** [DeviceIdentity] *)

Record DeviceIdentity := {
  signing_key : list byte;
  verifying_key : list byte;
  device_name : string;
  storage_path : option Path;
}.

Section identity.
Context `{Ed25519, Bincode} (umask : Z) (home : option Path).

Definition generate (random_key : list byte) (name : string) : DeviceIdentity :=
  {| signing_key := random_key; verifying_key := verifying_key_of random_key; device_name := name; storage_path := None |}.
Definition device_id (self : DeviceIdentity) : DeviceId.t := verifying_key self.
Definition sign (self : DeviceIdentity) (message : list byte) : Signature := ed_sign (signing_key self) message.
Definition verify_signature (device_id : DeviceId.t) (message : list byte) (signature : Signature) : outcome CryptoError unit :=
  match ed_verify device_id message signature with
  | None => Err InvalidKey
  | Some ok => if ok then Ok tt else Err SignatureVerification
  end.

Definition default_storage_dir : outcome CryptoError Path :=
  h ← ok_or HomeNotFound home;
  mret (h ++ [".landropic"; "keys"]).
Definition path_or_default (path : option Path) : outcome CryptoError Path :=
  match path with
  | Some p => mret p
  | None => d ← default_storage_dir; mret (d ++ ["device_identity.key"])
  end.

Definition temp_path (p : Path) : Path := with_extension "tmp" p.
Definition save_ops (p : Path) (data : list byte) : list FileOp :=
  [CreateDirAll (parent p); WriteFile (temp_path p) data; SetMode (temp_path p) 384; RenameFile (temp_path p) p].
Definition stored (self : DeviceIdentity) : StoredIdentity :=
  {| version := 1; stored_name := device_name self; private_key := signing_key self |}.
(** The identity afterwards, with its path, is the result. *)
Definition save (fault : option Fault) (path : option Path) (self : DeviceIdentity) : st Disk CryptoError DeviceIdentity := λ d,
  match path_or_default path with
  | Ok p =>
      match fault, serialize (stored self) with
      | Some (O, _), _ => (d, Err CryptoIo)
      | _, Some data =>
          let '(d, done) := perform umask (save_ops p data) fault d in
          (d, if done : bool
              then Ok {| signing_key := signing_key self; verifying_key := verifying_key self; device_name := device_name self;
                         storage_path := Some p |}
              else Err CryptoIo)
      | _, None => (d, Err Serialization)
      end
  | Err e => (d, Err e)
  | Panic => (d, Panic)
  end.
(** [readable]: the system lets the file be read. *)
Definition load (readable : bool) (path : option Path) (d : Disk) : outcome CryptoError DeviceIdentity :=
  p ← path_or_default path;
  f ← ok_or KeyNotFound (d !! p);
  _ ← fail_if (negb readable) CryptoIo;
  s ← ok_or Serialization (deserialize (contents f));
  _ ← fail_if (negb (version s =? 1)) (UnsupportedKeyVersion (version s));
  mret {| signing_key := private_key s; verifying_key := verifying_key_of (private_key s); device_name := stored_name s;
          storage_path := Some p |}.
Definition load_or_generate (readable : bool) (fault : option Fault) (random_key : list byte) (name : string) :
    st Disk CryptoError DeviceIdentity := λ d,
  match load readable None d with
  | Ok identity => (d, Ok identity)
  | Err KeyNotFound => save fault None (generate random_key name) d
  | Err e => (d, Err e)
  | Panic => (d, Panic)
  end.
End identity.

(** ** Paths *)

Lemma last_dot_app a ext : last_dot ext = None → last_dot (a +:+ "." +:+ ext) = Some (a, ext).
Proof.
  intros He. induction a as [|c a IH].
  - change (last_dot (String dot ext) = Some (EmptyString, ext)). cbn. by rewrite He.
  - change (last_dot (String c (a +:+ "." +:+ ext)) = Some (String c a, ext)). cbn [last_dot]. by rewrite IH.
Qed.
Lemma extension_with ext name : last_dot ext = None → extension (file_stem name +:+ "." +:+ ext) = Some ext ∨ name = EmptyString.
Proof.
  intros He. unfold extension. rewrite last_dot_app by done. unfold file_stem.
  destruct (last_dot name) as [[[|c a] b]|] eqn:Hd; [|by left|].
  - destruct name; [done|by left].
  - destruct name; [by right|by left].
Qed.
Lemma file_name_app p n : file_name (p ++ [n]) = n.
Proof. unfold file_name. by rewrite last_snoc. Qed.
(** The temporary file is another file. *)
Lemma temp_path_ne p : extension (file_name p) ≠ Some "tmp" → temp_path p ≠ p.
Proof.
  intros Hext Heq. assert (Hn : file_name (temp_path p) = file_stem (file_name p) +:+ ".tmp") by apply file_name_app.
  rewrite Heq in Hn. destruct (extension_with "tmp" (file_name p)) as [He|He]; [done| |].
  - apply Hext. rewrite Hn at 1. exact He.
  - rewrite He in Hn. done.
Qed.

(** ** Saving and loading *)

Section lemmas.
Context `{Ed25519, Bincode} (umask : Z) (home : option Path).

Lemma perform_save p data d : temp_path p ≠ p →
  perform umask (save_ops p data) None d = (<[p := {| contents := data; mode := 384 |}]> (delete (temp_path p) d), true).
Proof.
  intros Hne. unfold save_ops. cbn [perform apply_op]. unfold write_file. f_equal.
  rewrite alter_insert_eq. rewrite lookup_insert_eq. cbn [contents]. by rewrite delete_insert_eq.
Qed.
(** What saving leaves at its path, whatever fails, and that other files are not touched. *)
Lemma perform_outcome p data fault d : temp_path p ≠ p →
  let r := perform umask (save_ops p data) fault d in
  (∀ q, q ≠ p → q ≠ temp_path p → r.1 !! q = d !! q) ∧
  ((r.2 = true ∧ r.1 !! p = Some {| contents := data; mode := 384 |}) ∨ (r.2 = false ∧ r.1 !! p = d !! p)).
Proof.
  intros Hne r. destruct fault as [[n k]|]; [|subst r; rewrite (perform_save p data d Hne)].
  2: { cbn [fst snd]. split; [intros q Hq Ht; by rewrite lookup_insert_ne, lookup_delete_ne|]. left. by rewrite lookup_insert_eq. }
  destruct (decide (4 ≤ n)%nat) as [Hn|Hn].
  { assert (r = perform umask (save_ops p data) None d) as ->.
    { subst r. do 4 (destruct n as [|n]; [lia|]). done. }
    rewrite (perform_save p data d Hne). cbn [fst snd].
    split; [intros q Hq Ht; by rewrite lookup_insert_ne, lookup_delete_ne|]. left. by rewrite lookup_insert_eq. }
  assert (r.2 = false ∧ ∀ q, q ≠ temp_path p → r.1 !! q = d !! q) as [Hf Hq].
  { subst r. unfold save_ops, write_file. do 4 (destruct n as [|n]; [split; [done|intros q Hq]; cbn [perform apply_op fst];
      unfold write_file; by rewrite ?lookup_alter_ne, ?lookup_insert_ne by done|]). lia. }
  split; [auto|]. right. auto.
Qed.
Lemma path_or_default_Ok path r : path_or_default home path = r → (∃ p, r = Ok p) ∨ r = Err HomeNotFound.
Proof.
  destruct path as [p|]; cbn; intros <-; [left; by exists p|]. unfold default_storage_dir. destruct home as [h|]; [left; by eexists|by right].
Qed.
Lemma load_stored readable path p f self d : path_or_default home path = Ok p → d !! p = Some f →
  deserialize (contents f) = Some (stored self) → verifying_key self = verifying_key_of (signing_key self) → readable = true →
  load home readable path d = Ok {| signing_key := signing_key self; verifying_key := verifying_key self;
    device_name := device_name self; storage_path := Some p |}.
Proof. intros Hp Hf Hs Hv ->. unfold load. rewrite Hp. cbn. rewrite Hf. cbn. rewrite Hs. cbn. by rewrite Hv. Qed.
(** [load] looks at the file of its path only. *)
Lemma load_ext readable path p d d' : path_or_default home path = Ok p → d' !! p = d !! p → load home readable path d' = load home readable path d.
Proof. intros Hp Hd. unfold load. rewrite Hp. cbn. by rewrite Hd. Qed.
Lemma load_well_formed readable path d i : load home readable path d = Ok i → verifying_key i = verifying_key_of (signing_key i).
Proof. unfold load. intros Hl. inv_ok. destruct_units. by subst. Qed.
(** Saving with or without faults, seen through [load]. *)
Lemma save_outcome fault path p self d d' r : path_or_default home path = Ok p → extension (file_name p) ≠ Some "tmp" →
  verifying_key self = verifying_key_of (signing_key self) → save umask home fault path self d = (d', r) →
  (∀ q, q ≠ p → q ≠ temp_path p → d' !! q = d !! q) ∧
  ((∃ i, r = Ok i ∧ device_id i = device_id self ∧ device_name i = device_name self ∧ load home true path d' = Ok i ∧
      (mode <$> d' !! p) = Some 384) ∨
   ((∀ i, r ≠ Ok i) ∧ d' !! p = d !! p)).
Proof.
  intros Hp Hext Hv. unfold save. rewrite Hp. intros Hs. pose proof (temp_path_ne p Hext) as Hne.
  assert (Hdone : ∀ data, serialize (stored self) = Some data →
    (let '(d, done) := perform umask (save_ops p data) fault d in
     (d, if done : bool then Ok {| signing_key := signing_key self; verifying_key := verifying_key self;
       device_name := device_name self; storage_path := Some p |} else Err CryptoIo)) = (d', r) →
    (∀ q, q ≠ p → q ≠ temp_path p → d' !! q = d !! q) ∧
    ((∃ i, r = Ok i ∧ device_id i = device_id self ∧ device_name i = device_name self ∧ load home true path d' = Ok i ∧
      (mode <$> d' !! p) = Some 384) ∨ ((∀ i, r ≠ Ok i) ∧ d' !! p = d !! p))).
  { intros data Hdata Hr. pose proof (perform_outcome p data fault d Hne) as [Hq Ho].
    destruct (perform umask (save_ops p data) fault d) as [d1 done]. injection Hr as <- <-. cbn [fst snd] in *.
    split; [done|]. destruct Ho as [[-> Hf]|[-> Hf]]; [left|by right].
    eexists. split; [done|]. split_and!; [done..| |by rewrite Hf].
    by apply (load_stored true path p _ self d1 Hp Hf (deserialize_serialize _ _ Hdata)). }
  destruct fault as [[[|n] k]|]; destruct (serialize (stored self)) as [data|] eqn:Hdata;
    try (injection Hs as <- <-; split; [done|by right]); by apply (Hdone data).
Qed.
End lemmas.

(** ** Theorems *)

Section theorems.
Context `{Ed25519, Bincode, Hex, Blake3} (umask : Z) (home : option Path).

(** An identity that was saved is loaded with the same keys and name, from a file that only its owner
    reads, and no file but that one and its temporary file changed. *)
Theorem saved_identity_loads path p self d d' i : path_or_default home path = Ok p → extension (file_name p) ≠ Some "tmp" →
  verifying_key self = verifying_key_of (signing_key self) → save umask home None path self d = (d', Ok i) →
  load home true path d' = Ok i ∧ device_id i = device_id self ∧ device_name i = device_name self ∧
  (mode <$> d' !! p) = Some 384 ∧ (∀ q, q ≠ p → q ≠ temp_path p → d' !! q = d !! q) ∧
  ∀ m, verify_signature (device_id i) m (sign self m) = Ok tt.
Proof.
  intros Hp Hext Hv Hs. destruct (save_outcome umask home None path p self d d' _ Hp Hext Hv Hs) as [Hq [(j & [= <-] & Hid & Hn & Hl & Hm)|[Hno _]]].
  - split_and!; [done..|]. intros m. unfold verify_signature, sign. rewrite Hid. unfold device_id. by rewrite Hv, ed_verify_sign.
  - by destruct (Hno i).
Qed.

(** C17: Whatever operation of [save] fails, or after whatever operation the device stops, the identity that can be loaded is the
    old one or, if [save] succeeds, the new one. *)
Theorem interrupted_save_keeps_identity fault path p self d d' r : path_or_default home path = Ok p →
  extension (file_name p) ≠ Some "tmp" → verifying_key self = verifying_key_of (signing_key self) →
  save umask home fault path self d = (d', r) →
  (∃ i, r = Ok i ∧ load home true path d' = Ok i ∧ device_id i = device_id self) ∨
  ((∀ i, r ≠ Ok i) ∧ load home true path d' = load home true path d).
Proof.
  intros Hp Hext Hv Hs. destruct (save_outcome umask home fault path p self d d' r Hp Hext Hv Hs) as [_ [(i & -> & Hid & _ & Hl & _)|[Hno Hf]]].
  - left. by exists i.
  - right. split; [done|]. by apply (load_ext home true path p).
Qed.

(** Once [load_or_generate] returned an identity, every later start returns the same one, whatever random key, name and
    fault it has; and an unreadable or foreign file of the identity is never replaced by a new key. *)
Theorem identity_is_stable k name d d' i : load_or_generate umask home true None k name d = (d', Ok i) →
  (∀ readable fault k' name', readable = true → load_or_generate umask home readable fault k' name' d' = (d', Ok i)) ∧
  ∀ fault k' name' e d1, load home true None d1 = Err e → e ≠ KeyNotFound →
    load_or_generate umask home true fault k' name' d1 = (d1, Err e).
Proof.
  intros Hl. split.
  - intros readable fault k' name' ->. unfold load_or_generate in *. enough (load home true None d' = Ok i) as -> by done.
    destruct (load home true None d) as [j|e|] eqn:Hd; [by simplify_eq| |done]. destruct e; try done.
    destruct (path_or_default_Ok home None _ eq_refl) as [[p Hp]|Hp].
    + destruct (save_outcome umask home None None p (generate k name) d d' (Ok i) Hp) as [_ [(j & [= <-] & _ & _ & Hj & _)|[Hno _]]]; [|done..|].
      * unfold path_or_default, default_storage_dir in Hp. destruct home as [h|]; [|done]. cbn in Hp. injection Hp as <-.
        by rewrite file_name_app.
      * by destruct (Hno i).
    + unfold save in Hl. by rewrite Hp in Hl.
  - intros fault k' name' e d1 He Hne. unfold load_or_generate. rewrite He. by destruct e.
Qed.

(** Between writing and restricting the temporary file, the secret key is in a file with the mode that the umask gives
    every file. *)
Theorem key_file_is_open_first p data d : d !! temp_path p = None →
  (perform umask (save_ops p data) (Some (2%nat, 0%nat)) d).1 !! temp_path p =
    Some {| contents := data; mode := Z.land 438 (Z.lnot umask) |}.
Proof. intros Hn. cbn [save_ops perform apply_op fst]. unfold write_file. rewrite Hn. by rewrite lookup_insert_eq. Qed.

Lemma pairs_map n bs : length bs = (2 * n)%nat → length (DeviceId.pairs bs) = n ∧ Forall (λ l, length l = 2%nat) (DeviceId.pairs bs).
Proof using Type.
  revert bs. induction n as [|n IH]; intros bs Hl; [by destruct bs|]. destruct bs as [|a [|b bs]]; [done|cbn in Hl; lia|].
  destruct (IH bs) as [Hn Hf]; [cbn in Hl; lia|]. cbn. split; [lia|by constructor].
Qed.
Lemma concat_length sep ls k : Forall (λ s, String.length s = k) ls → ls ≠ [] →
  String.length (String.concat sep ls) = (length ls * k + (length ls - 1) * String.length sep)%nat.
Proof using Type.
  intros Hf. induction Hf as [|s ls Hs Hf IH]; intros Hne; [done|]. destruct ls as [|s' ls]; [cbn; rewrite Hs; lia|].
  change (String.concat sep (s :: s' :: ls)) with (s +:+ sep +:+ String.concat sep (s' :: ls)).
  rewrite !string_length_app, IH, Hs by done. cbn [length Nat.sub]. rewrite Nat.sub_0_r. lia.
Qed.

(** The text of an id is read back as the id, only a text of 64 digits is read as an id, which then has 32 bytes, and a
    fingerprint has 39 characters. *)
Theorem device_id_text d s d' : DeviceId.wf d →
  DeviceId.from_str (DeviceId.to_hex d) = Ok d ∧ String.length (DeviceId.fingerprint d) = 39%nat ∧
  (DeviceId.from_str s = Ok d' → DeviceId.wf d' ∧ String.length s = 64%nat).
Proof.
  intros Hd. split_and!.
  - unfold DeviceId.from_str, DeviceId.to_hex. rewrite hex_encode_length, Hd. cbn. rewrite hex_decode_encode. cbn.
    unfold DeviceId.from_bytes, zlen. by rewrite Hd.
  - unfold DeviceId.fingerprint. destruct (pairs_map 8 (take 16 (blake3 d))) as [Hl Hf]; [by rewrite length_take, blake3_length|].
    rewrite (concat_length ":" _ 4).
    + by rewrite length_map, Hl.
    + apply Forall_map. eapply Forall_impl; [exact Hf|]. intros l Hlen. unfold DeviceId.lower_hex, compose.
      by rewrite RefHash.encode_length, Hlen.
    + intros Hnil. apply (f_equal length) in Hnil. by rewrite length_map, Hl in Hnil.
  - unfold DeviceId.from_str, DeviceId.from_bytes. intros Hs. case_if as Hlen; [|done]. inv_ok.
    destruct (zlen _ =? 32) eqn:E in *; [|done]. apply Z.eqb_eq in E, Hlen. unfold DeviceId.wf, zlen in *. subst. lia.
Qed.
End theorems.

(** ** Examples *)

Module Examples.
#[export] Existing Instance RefHash.hash.
#[export] Existing Instance RefHash.hex.
(** A stand-in for signatures: the public key with the message. *)
Definition sign_with (k m : list byte) : list byte * list byte := (RefHash.digest k, m).
#[export] Program Instance ed25519 : Ed25519 := {|
  verifying_key_of := RefHash.digest; ed_sign := sign_with;
  ed_verify k m s := Some (bool_decide (s = (k, m))) |}.
Next Obligation. apply RefHash.digest_length. Qed.
Next Obligation. intros k m. cbn. f_equal. by apply bool_decide_eq_true. Qed.
Definition write_stored (s : StoredIdentity) : list byte := Framing.Examples.bit_encode (version s, stored_name s, private_key s).
Definition read_stored (l : list byte) : option StoredIdentity :=
  match Framing.Examples.bit_decode (T:=Z * string * list byte) l with
  | Some (v, n, k) => Some {| version := v; stored_name := n; private_key := k |}
  | None => None
  end.
Lemma read_write_stored s bytes : Some (write_stored s) = Some bytes → read_stored bytes = Some s.
Proof. intros [= <-]. unfold read_stored, write_stored. rewrite Framing.Examples.bit_decode_encode. by destruct s. Qed.
#[export] Instance bincode : Bincode := {| deserialize_serialize := read_write_stored |}.

Definition home : option Path := Some ["home"; "a"].
Definition key_path : Path := ["home"; "a"; ".landropic"; "keys"; "device_identity.key"].
Definition laptop : DeviceIdentity := generate [x01; x02] "laptop".
Definition stored_at (p : Path) (i : DeviceIdentity) : DeviceIdentity :=
  {| signing_key := signing_key i; verifying_key := verifying_key i; device_name := device_name i; storage_path := Some p |}.
Definition saved : Disk := (save 18 home None None laptop ∅).1.

Lemma with_result {A B} (r : A * B) b : r.2 = b → r = (r.1, b).
Proof. by intros <-; destruct r. Qed.

Lemma saved_identity_loads_witness :
  load home true None saved = Ok (stored_at key_path laptop) ∧ (mode <$> saved !! key_path) = Some 384.
Proof.
  destruct (saved_identity_loads 18 home None key_path laptop ∅ saved (stored_at key_path laptop)) as (Hl & _ & _ & Hm & _);
    [reflexivity|discriminate|reflexivity|apply with_result; vm_compute; reflexivity|]. exact (conj Hl Hm).
Defined.

(** The new name of a device is not stored because the rename fails: the old identity is loaded. *)
Lemma interrupted_save_keeps_identity_witness :
  let d := (save 18 home (Some (3%nat, 0%nat)) None (generate [x03] "desktop") saved).1 in
  load home true None d = load home true None saved.
Proof.
  destruct (interrupted_save_keeps_identity 18 home (Some (3%nat, 0%nat)) None key_path (generate [x03] "desktop") saved
    (save 18 home (Some (3%nat, 0%nat)) None (generate [x03] "desktop") saved).1 (Err CryptoIo)) as [(i & Hi & _)|[_ Hl]];
    [reflexivity|discriminate|reflexivity|apply with_result; vm_compute; reflexivity|discriminate Hi|exact Hl].
Defined.

Lemma identity_is_stable_witness :
  let d := (load_or_generate 18 home true None [x01; x02] "laptop" ∅).1 in
  load_or_generate 18 home true (Some (1%nat, 0%nat)) [x09] "other" d = (d, Ok (stored_at key_path laptop)).
Proof.
  refine (proj1 (identity_is_stable 18 home [x01; x02] "laptop" ∅ _ (stored_at key_path laptop) _)
    true (Some (1%nat, 0%nat)) [x09] "other" _); [apply with_result; vm_compute; reflexivity|reflexivity].
Defined.

Lemma key_file_is_open_first_witness :
  (perform 18 (save_ops key_path [x05]) (Some (2%nat, 0%nat)) ∅).1 !! temp_path key_path =
    Some {| contents := [x05]; mode := 420 |}.
Proof. exact (key_file_is_open_first 18 key_path [x05] ∅ eq_refl). Defined.

Lemma device_id_text_witness : String.length (DeviceId.fingerprint (verifying_key laptop)) = 39%nat.
Proof.
  refine (proj1 (proj2 (device_id_text (verifying_key laptop) "" [] _))). reflexivity.
Defined.
End Examples.
