(* ===== verification/Certificates.v ===== *)
(** Certificates and trust: landro-crypto/src/certificate.rs and secure_verifier.rs, and
    the passphrases of landro-quic/src/pairing.rs.

    A certificate is its DER bytes; generating and parsing X.509 (rcgen, x509-parser), PEM
    and the match of a key with its chain are classes. What the verifiers decide is part
    of the TLS handshake; the signatures of the handshake are checked by rustls. Times are
    seconds of the Unix epoch. The two locks of the pairing verifier are steps, so that two
    handshakes at the same time can be stated. *)

From S2P Require Import Prelude Bytes Framing Identity.
From Stdlib Require Import Init.Byte ZArith Lia.
From stdpp Require Import base option list gmap sets strings pretty numbers relations sorting.
Open Scope Z_scope.

(** ** Certificates *)

Inductive DnType := CommonName | OrganizationName.
Abbreviation DistinguishedName := (list (DnType * string)).
#[export] Instance DnType_eq_dec : EqDecision DnType.
Proof. solve_decision. Defined.
Inductive SanType := DnsName (name : string) | IpAddress (octets : list byte).
Record CertificateParams := {
  not_before : Z;
  not_after : Z;
  distinguished_name : DistinguishedName;
  subject_alt_names : list SanType;
  custom_extensions : list (list Z * list byte);
}.
(** What x509-parser makes of a certificate; an object identifier is its list of numbers. *)
Record X509Certificate := {
  issuer : DistinguishedName;
  subject : DistinguishedName;
  valid_from : Z;
  valid_until : Z;
  extensions : list (list Z * list byte);
}.

(** [rcgen] and [x509_parser]: a key pair, signing, [Ia5String], the addresses of
    [str::parse]; a generated certificate is parsed as what it was generated from, with the
    standard extensions of rcgen (below 2.5.29) before the custom ones. *)
Class X509 := {
  KeyPair : Type;
  self_signed : CertificateParams → KeyPair → option (list byte);
  serialize_key : KeyPair → option (list byte);
  parse_ip : string → option (list byte);
  from_der : list byte → option X509Certificate;
  standard : CertificateParams → list (list Z * list byte);
  standard_oids p : Forall (λ e, take 3 e.1 = [2; 5; 29]) (standard p);
  from_der_self_signed p k der : self_signed p k = Some der →
    from_der der = Some {| issuer := distinguished_name p; subject := distinguished_name p; valid_from := not_before p;
      valid_until := not_after p; extensions := standard p ++ custom_extensions p |};
}.
(** [pem::encode] and [pem::parse] of a tag and contents. *)
Class PemFormat := {
  pem_encode : string → list byte → string;
  pem_parse : string → option (string * list byte);
  pem_parse_encode tag bytes : pem_parse (pem_encode tag bytes) = Some (tag, bytes);
}.

(** [Ia5String::try_from]: characters of seven bits only. *)
Definition is_ia5 (s : string) : bool := forallb (λ c, (Ascii.N_of_ascii c <? 128)%N) (String.list_ascii_of_string s).
Definition LOCALHOST_V4 : list byte := [x7f; x00; x00; x01].
Definition LOCALHOST_V6 : list byte := repeat x00 15 ++ [x01].
Definition device_id_oid : list Z := [1; 3; 6; 1; 4; 1; 99999; 1].
Definition days (n : Z) : Z := n * 86400.

Section generator.
Context `{X509}.

(** [CertificateParams::new] with one name: a text that is no address is a DNS name. *)
Definition params_new (name : string) : outcome CryptoError unit :=
  match parse_ip name with
  | Some _ => mret tt
  | None => fail_if (negb (is_ia5 name)) CertificateGeneration
  end.
Definition dns_name (name : string) : outcome CryptoError SanType :=
  _ ← fail_if (negb (is_ia5 name)) CertificateGeneration;
  mret (DnsName name).
Definition device_params (now : Z) (id : DeviceId.t) (name : string) : CertificateParams :=
  {| not_before := now; not_after := now + days (365 * 5);
     distinguished_name := [(CommonName, name); (OrganizationName, "Landropic")];
     subject_alt_names := [DnsName name; IpAddress LOCALHOST_V4; IpAddress LOCALHOST_V6];
     custom_extensions := [(device_id_oid, id)] |}.
Definition sign_certificate (params : CertificateParams) (key : KeyPair) : outcome CryptoError (list (list byte) * list byte) :=
  cert_der ← ok_or CertificateGeneration (self_signed params key);
  key_der ← ok_or CertificateGeneration (serialize_key key);
  mret ([cert_der], key_der).
(** [key] is what [KeyPair::generate] draws. *)
Definition generate_device_certificate (now : Z) (key : KeyPair) (identity : DeviceIdentity) :
    outcome CryptoError (list (list byte) * list byte) :=
  _ ← params_new (device_name identity);
  _ ← dns_name (device_name identity);
  sign_certificate (device_params now (device_id identity) (device_name identity)) key.
Definition generate_ephemeral_certificate (now : Z) (key : KeyPair) (hostname : string) :
    outcome CryptoError (list (list byte) * list byte) :=
  _ ← params_new hostname;
  dns ← dns_name hostname;
  sign_certificate
    {| not_before := now; not_after := now + days 7; distinguished_name := [(CommonName, hostname)];
       subject_alt_names := dns :: option_list (IpAddress <$> parse_ip hostname); custom_extensions := [] |} key.
End generator.

(** ** Trust *)

Record CertificateVerifier := {
  trusted_device_ids : list DeviceId.t;
  trusted_certificates : gmap DeviceId.t (list byte);
  allow_untrusted : bool;
}.
Definition verifier_new (trusted : list DeviceId.t) : CertificateVerifier :=
  {| trusted_device_ids := trusted; trusted_certificates := ∅; allow_untrusted := false |}.
Definition allow_any : CertificateVerifier :=
  {| trusted_device_ids := []; trusted_certificates := ∅; allow_untrusted := true |}.
Definition for_pairing : CertificateVerifier :=
  {| trusted_device_ids := []; trusted_certificates := ∅; allow_untrusted := true |}.
Definition set_ids (ids : list DeviceId.t) (v : CertificateVerifier) : CertificateVerifier :=
  {| trusted_device_ids := ids; trusted_certificates := trusted_certificates v; allow_untrusted := allow_untrusted v |}.
Definition add_trusted_device (id : DeviceId.t) (v : CertificateVerifier) : CertificateVerifier :=
  if decide (id ∈ trusted_device_ids v) then v else set_ids (trusted_device_ids v ++ [id]) v.
(** [position] and [Vec::remove]. *)
Fixpoint remove_first (id : DeviceId.t) (ids : list DeviceId.t) : option (list DeviceId.t) :=
  match ids with
  | [] => None
  | x :: ids => if decide (x = id) then Some ids else (x ::.) <$> remove_first id ids
  end.
Definition remove_trusted_device (id : DeviceId.t) (v : CertificateVerifier) : CertificateVerifier * bool :=
  match remove_first id (trusted_device_ids v) with
  | Some ids => (set_ids ids v, true)
  | None => (v, false)
  end.
Definition add_trusted_device_with_cert (id : DeviceId.t) (cert : list byte) (v : CertificateVerifier) : CertificateVerifier :=
  let v := add_trusted_device id v in
  {| trusted_device_ids := trusted_device_ids v; trusted_certificates := <[id := cert]> (trusted_certificates v);
     allow_untrusted := allow_untrusted v |}.
Definition is_trusted (id : DeviceId.t) (v : CertificateVerifier) : bool :=
  allow_untrusted v || bool_decide (id ∈ trusted_device_ids v).
Definition get_pinned_certificate (id : DeviceId.t) (v : CertificateVerifier) : option (list byte) := trusted_certificates v !! id.
Definition verify_pinned_certificate (id : DeviceId.t) (cert : list byte) (v : CertificateVerifier) : bool :=
  match get_pinned_certificate id v with
  | Some pinned => bool_decide (pinned = cert)
  | None => false
  end.
(** The first extension with the identifier and 32 bytes. *)
Definition extract_device_id `{X509} (cert : list byte) : option DeviceId.t :=
  c ← from_der cert;
  e ← head (filter (λ e, e.1 = device_id_oid ∧ length e.2 = 32%nat) (extensions c));
  Some e.2.

(** *** Certificates on disk

    The directory with its files, if it is there. *)
Abbreviation CertDir := (option (gmap string string)).
Section files.
Context `{Hex, PemFormat, MapIter} (writable readable : string → bool).

Definition cert_file (id : DeviceId.t) : string := DeviceId.to_hex id +:+ ".pem".
Fixpoint write_certificates (certs : list (DeviceId.t * list byte)) : st (gmap string string) CryptoError unit :=
  match certs with
  | [] => mret tt
  | (id, cert) :: certs =>
      let name := cert_file id in
      if writable name then
        _ ← modify_st (λ files, <[name := pem_encode "CERTIFICATE" cert]> files);
        write_certificates certs
      else lift (Err CertificateStorage)
  end.
(** [created]: the directory could be made. *)
Definition save_trusted_certificates (created : bool) (v : CertificateVerifier) (dir : CertDir) : CertDir * outcome CryptoError unit :=
  if created then
    let '(files, r) := write_certificates (map_iter (trusted_certificates v)) (default ∅ dir) in (Some files, r)
  else (dir, Err CertificateStorage).

Definition load_certificate_file (name text : string) : outcome CryptoError (list byte) :=
  _ ← fail_if (negb (readable name)) CertificateStorage;
  '(tag, bytes) ← ok_or (CertificateValidation "Invalid PEM format") (pem_parse text);
  _ ← fail_if (negb (String.eqb tag "CERTIFICATE")) (CertificateValidation "Not a certificate PEM");
  mret bytes.
Definition load_entry (v : CertificateVerifier) (name text : string) : CertificateVerifier :=
  if decide (extension name = Some "pem") then
    match DeviceId.from_str (file_stem name) with
    | Ok id =>
        match load_certificate_file name text with
        | Ok cert => add_trusted_device_with_cert id cert v
        | _ => v
        end
    | _ => v
    end
  else v.
(** Reading the directory may fail after some entries. *)
Definition load_trusted_certificates (fault : option nat) (v : CertificateVerifier) (dir : CertDir) :
    CertificateVerifier * outcome CryptoError unit :=
  match dir with
  | None => (v, Ok tt)
  | Some files =>
      let entries := map_iter files in
      let entries := match fault with Some n => take n entries | None => entries end in
      (foldl (λ v '(name, text), load_entry v name text) v entries,
       match fault with Some _ => Err CertificateStorage | None => Ok tt end)
  end.
End files.

(** ** The verifiers of the handshake *)

Inductive TlsError := BadEncoding | Expired | UnknownIssuer | OtherCert (e : CryptoError).
#[export] Instance TlsError_eq_dec : EqDecision TlsError.
Proof. solve_decision. Defined.

Section verify.
Context `{X509}.

Definition verify_self_signature (cert_der : list byte) : outcome CryptoError unit :=
  cert ← ok_or (CertificateValidation "Failed to parse certificate") (from_der cert_der);
  fail_if (negb (bool_decide (issuer cert = subject cert))) (CertificateValidation "Certificate is not self-signed").
(** The times of the certificate are cast to [u64]. *)
Definition outside_validity (now : Z) (cert : X509Certificate) : bool :=
  (now <? wrap 64 (valid_from cert)) || (wrap 64 (valid_until cert) <? now).
Definition parse_valid (now : Z) (end_entity : list byte) : outcome TlsError unit :=
  cert ← ok_or BadEncoding (from_der end_entity);
  fail_if (outside_validity now cert) Expired.
(** What both verifiers do once the certificate is within its time. *)
Definition check_identity (v : CertificateVerifier) (end_entity : list byte) (intermediates : list (list byte)) : outcome TlsError unit :=
  id ← ok_or (OtherCert (CertificateValidation "No device ID found in certificate")) (extract_device_id end_entity);
  _ ← fail_if (negb (is_trusted id v)) UnknownIssuer;
  _ ← match get_pinned_certificate id v with
      | Some pinned => fail_if (negb (bool_decide (pinned = end_entity)))
          (OtherCert (CertificateValidation "Certificate does not match pinned certificate"))
      | None => mret tt
      end;
  _ ← map_err (λ _, OtherCert (CertificateValidation "Self-signature verification failed")) (verify_self_signature end_entity);
  fail_if (match intermediates with [] => false | _ => true end) BadEncoding.
(** [LandropicCertVerifier]. *)
Definition verify_server_cert (allow_self_signed : bool) (v : CertificateVerifier) (end_entity : list byte)
    (intermediates : list (list byte)) (now : Z) : outcome TlsError unit :=
  _ ← parse_valid now end_entity;
  _ ← fail_if (negb allow_self_signed) UnknownIssuer;
  check_identity v end_entity intermediates.
(** [LandropicClientCertVerifier]. *)
Definition offer_client_auth : bool := true.
Definition client_auth_mandatory : bool := true.
Definition verify_client_cert (v : CertificateVerifier) (end_entity : list byte) (intermediates : list (list byte)) (now : Z) :
    outcome TlsError unit :=
  _ ← parse_valid now end_entity;
  check_identity v end_entity intermediates.
(** [DangerousAcceptAnyServerCert]. *)
Definition dangerous_verify_server_cert : outcome TlsError unit :=
  Err (OtherCert (CertificateValidation "Deprecated dangerous verifier - use SecurePairingCertVerifier instead")).

(** *** The pairing verifier *)

Record SecurePairingCertVerifier := { pairing_start : option Z; pairing_window : Z; used : bool }.
Definition pairing_new (now : Z) : SecurePairingCertVerifier :=
  {| pairing_start := Some now; pairing_window := 5 * 60; used := false |}.
Definition is_pairing_window_valid (clock : Z) (p : SecurePairingCertVerifier) : bool :=
  if used p then false
  else match pairing_start p with
       | Some start_time => clock - start_time <? pairing_window p
       | None => false
       end.
Definition mark_used (p : SecurePairingCertVerifier) : SecurePairingCertVerifier :=
  {| pairing_start := None; pairing_window := pairing_window p; used := true |}.
(** What is looked at between the two uses of the state. *)
Definition pairing_checks (end_entity : list byte) (intermediates : list (list byte)) (now : Z) : outcome TlsError unit :=
  _ ← parse_valid now end_entity;
  fail_if (match intermediates with [] => false | _ => true end) BadEncoding.
(** [clock] is the wall clock, [now] the time that rustls passes. *)
Definition pairing_verify_server_cert (clock : Z) (end_entity : list byte) (intermediates : list (list byte)) (now : Z) :
    st SecurePairingCertVerifier TlsError unit := λ p,
  if negb (is_pairing_window_valid clock p)
  then (p, Err (OtherCert (CertificateValidation "Pairing window has expired or verifier has been used")))
  else
    match pairing_checks end_entity intermediates now with
    | Ok _ => (mark_used p, Ok tt)
    | Err e => (p, Err e)
    | Panic => (p, Panic)
    end.
End verify.

(** ** TLS configurations *)

Inductive ClientAuth := NoClientAuth | ClientCerts (v : CertificateVerifier).
Inductive ServerAuth := ServerCerts (v : CertificateVerifier) (allow_self_signed : bool) | PairingCert (p : SecurePairingCertVerifier).
Record TlsConfig {Auth : Type} := { auth : Auth; cert_chain : list (list byte); private_key_der : list byte }.
Arguments TlsConfig : clear implicits.

Section config.
(** Whether rustls takes the key for the chain. *)
Context (keys_match : list (list byte) → list byte → bool).

Definition with_cert {Auth} (a : Auth) (chain : list (list byte)) (key : list byte) : outcome CryptoError (TlsConfig Auth) :=
  _ ← fail_if (negb (keys_match chain key)) CertificateGeneration;
  mret {| auth := a; cert_chain := chain; private_key_der := key |}.
Definition server_config chain key (v : CertificateVerifier) := with_cert (ClientCerts v) chain key.
Definition server_config_pairing chain key := with_cert NoClientAuth chain key.
Definition client_config chain key (v : CertificateVerifier) := with_cert (ServerCerts v true) chain key.
Definition client_config_secure_pairing now chain key := with_cert (PairingCert (pairing_new now)) chain key.
Definition client_config_pairing (chain : list (list byte)) (key : list byte) : outcome CryptoError (TlsConfig ServerAuth) :=
  Err CertificateGeneration.
End config.

(** ** Two handshakes with one pairing verifier

    [is_pairing_window_valid] takes [pairing_start] and then [used] for reading and drops
    both; [mark_used] takes [used] and then [pairing_start] for writing. Both certificates
    pass the checks and the clock is within the window. *)
Module PairingLocks.
Inductive pc :=
  | Begin       (* before [pairing_start.read()] *)
  | ReadsStart  (* before [used.read()] *)
  | ReadsBoth   (* before the decision, which drops both guards *)
  | Checked     (* before [used.write()] *)
  | WritesUsed  (* [*used = true] done; before [pairing_start.write()] *)
  | Accepted
  | Rejected.
#[export] Instance pc_eq_dec : EqDecision pc.
Proof. solve_decision. Defined.
Record config := { is_used : bool; started : bool; task_a : pc; task_b : pc }.
#[export] Instance config_eq_dec : EqDecision config.
Proof. solve_decision. Defined.

Definition reads_start (p : pc) : bool := match p with ReadsStart | ReadsBoth => true | _ => false end.
Definition reads_used (p : pc) : bool := match p with ReadsBoth => true | _ => false end.
Definition writes_used (p : pc) : bool := match p with WritesUsed => true | _ => false end.
(** A step of a task beside [other]: [None] while it waits. The writing of [pairing_start]
    and the release of the locks are one step. *)
Definition advance (u s : bool) (me other : pc) : option (bool * bool * pc) :=
  match me with
  | Begin => Some (u, s, ReadsStart)
  | ReadsStart => if writes_used other then None else Some (u, s, ReadsBoth)
  | ReadsBoth => Some (u, s, if negb u && s then Checked else Rejected)
  | Checked => if reads_used other || writes_used other then None else Some (true, s, WritesUsed)
  | WritesUsed => if reads_start other then None else Some (u, false, Accepted)
  | Accepted | Rejected => None
  end.
Definition step_a (c : config) : option config :=
  '(u, s, p) ← advance (is_used c) (started c) (task_a c) (task_b c);
  Some {| is_used := u; started := s; task_a := p; task_b := task_b c |}.
Definition step_b (c : config) : option config :=
  '(u, s, p) ← advance (is_used c) (started c) (task_b c) (task_a c);
  Some {| is_used := u; started := s; task_a := task_a c; task_b := p |}.
Inductive step : config → config → Prop :=
  | do_a c c' : step_a c = Some c' → step c c'
  | do_b c c' : step_b c = Some c' → step c c'.
Definition init : config := {| is_used := false; started := true; task_a := Begin; task_b := Begin |}.
Definition over (p : pc) : bool := match p with Accepted | Rejected => true | _ => false end.
Definition stuck (c : config) : Prop := step_a c = None ∧ step_b c = None.
(** One task has [used] and wants [pairing_start], the other the other way round. *)
Definition deadlocks : list config :=
  [{| is_used := true; started := true; task_a := WritesUsed; task_b := ReadsStart |};
   {| is_used := true; started := true; task_a := ReadsStart; task_b := WritesUsed |}].

Definition successors (c : config) : list config := option_list (step_a c) ++ option_list (step_b c).
Definition reachable : list config := explore successors 11 [init].
Lemma pairing_successors c c' : step c c' → c' ∈ successors c.
Proof.
  unfold successors. rewrite elem_of_app. intros [c0 c1 ->|c0 c1 ->]; cbn; [left|right]; by apply list_elem_of_singleton.
Qed.
Lemma pairing_reachable c : rtc step init c → c ∈ reachable.
Proof.
  apply (rtc_closed step successors); [apply pairing_successors|..]; apply (bool_decide_unpack _); by vm_compute.
Qed.
(** A schedule: [true] is a step of the first task. *)
Fixpoint steps (bs : list bool) (c : config) : option config :=
  match bs with
  | [] => Some c
  | b :: bs => c' ← (if b : bool then step_a c else step_b c); steps bs c'
  end.
Lemma steps_rtc bs c c' : steps bs c = Some c' → rtc step c c'.
Proof.
  revert c. induction bs as [|b bs IH]; intros c Hs; cbn in Hs; [injection Hs as ->; apply rtc_refl|].
  destruct b; [destruct (step_a c) as [c1|] eqn:E|destruct (step_b c) as [c1|] eqn:E]; try done;
    (eapply rtc_l; [by constructor|by apply IH]).
Qed.

(** Two handshakes that use a pairing verifier at the same time can both be accepted, though it is for one use, and
    can block each other for ever; and these are the only ways to stop without one acceptance and one rejection. *)
Theorem pairing_race :
  (∃ c, rtc step init c ∧ task_a c = Accepted ∧ task_b c = Accepted) ∧
  (∀ d, d ∈ deadlocks → rtc step init d ∧ stuck d ∧ over (task_a d) = false ∧ over (task_b d) = false) ∧
  (∀ c, rtc step init c → stuck c →
    c ∈ deadlocks ∨ (task_a c = Accepted ∧ over (task_b c) = true) ∨ (task_b c = Accepted ∧ over (task_a c) = true)).
Proof.
  split_and!.
  - eexists. split; [|split].
    + apply (steps_rtc [true; true; true; false; false; false; true; true; false; false]). by vm_compute.
    + done.
    + done.
  - intros d Hd. apply elem_of_cons in Hd as [->|Hd%list_elem_of_singleton]; [|subst]; (split; [|done]).
    + apply (steps_rtc [true; true; true; false; true]). by vm_compute.
    + apply (steps_rtc [false; false; false; true; false]). by vm_compute.
  - intros c Hc%pairing_reachable.
    assert (Forall (λ c, (step_a c = None ∧ step_b c = None) →
      c ∈ deadlocks ∨ (task_a c = Accepted ∧ over (task_b c) = true) ∨ (task_b c = Accepted ∧ over (task_a c) = true)) reachable) as Hall.
    { apply (bool_decide_unpack _). by vm_compute. }
    rewrite Forall_forall in Hall. by apply Hall.
Qed.
End PairingLocks.

(** ** Passphrases: landro-quic/src/pairing.rs *)

Inductive PairingState := WaitingForPassphrase | PairingCompleted | PairingFailed (reason : string).
#[export] Instance PairingState_eq_dec : EqDecision PairingState.
Proof. solve_decision. Defined.
Record PairingContext := { pairing_state : PairingState; expected_passphrase : option string }.
Definition context_new : PairingContext := {| pairing_state := WaitingForPassphrase; expected_passphrase := None |}.
Definition set_passphrase (passphrase : string) (c : PairingContext) : PairingContext :=
  {| pairing_state := pairing_state c; expected_passphrase := Some passphrase |}.
(** The comparison takes the same time whatever differs. *)
Definition verify_passphrase (received : string) (c : PairingContext) : PairingContext * bool :=
  let set s := {| pairing_state := s; expected_passphrase := expected_passphrase c |} in
  match expected_passphrase c with
  | Some expected =>
      if String.eqb expected received then (set PairingCompleted, true)
      else (set (PairingFailed "Passphrase mismatch"), false)
  | None => (set (PairingFailed "No passphrase set"), false)
  end.
Definition is_complete (c : PairingContext) : bool := bool_decide (pairing_state c = PairingCompleted).

Abbreviation PairingManager := (gmap string PairingContext).
Inductive PairingError := NoPairingContext.
Definition manager_new : PairingManager := ∅.
Definition start_pairing (device passphrase : string) (m : PairingManager) : PairingManager :=
  <[device := set_passphrase passphrase context_new]> m.
Definition verify_pairing (device passphrase : string) : st PairingManager PairingError bool := λ m,
  match m !! device with
  | Some c => let '(c, ok) := verify_passphrase passphrase c in (<[device := c]> m, Ok ok)
  | None => (m, Err NoPairingContext)
  end.
Definition is_paired (device : string) (m : PairingManager) : bool :=
  match m !! device with Some c => is_complete c | None => false end.

(** ** Lemmas *)

Section lemmas.
Context `{X509}.

Lemma extract_device_id_wf c id : extract_device_id c = Some id → DeviceId.wf id.
Proof.
  unfold extract_device_id. destruct (from_der c) as [cert|]; [|done]. cbn.
  destruct (filter _ (extensions cert)) as [|e l] eqn:Hf; [done|]. cbn. intros [= <-].
  assert (Hin : e ∈ e :: l) by constructor. rewrite <- Hf in Hin. by apply list_elem_of_filter in Hin as [[_ ?] _].
Qed.
Lemma extract_self_signed t id name key c : DeviceId.wf id → self_signed (device_params t id name) key = Some c →
  extract_device_id c = Some id.
Proof.
  intros Hid Hc. unfold extract_device_id. rewrite (from_der_self_signed _ _ _ Hc). cbn.
  rewrite filter_app. assert (filter (λ e : list Z * list byte, e.1 = device_id_oid ∧ length e.2 = 32%nat) (standard (device_params t id name)) = []) as ->.
  { pose proof (standard_oids (device_params t id name)) as Hs. induction Hs as [|e l He Hs IH]; [done|].
    rewrite filter_cons_False; [done|]. intros [Ho _]. rewrite Ho in He. done. }
  cbn [app]. rewrite filter_cons_True; [done|]. by split.
Qed.
(** What a certificate must be like to be accepted. *)
Record acceptable (v : CertificateVerifier) (c : list byte) (now : Z) (cert : X509Certificate) (id : DeviceId.t) : Prop := {
  parsed : from_der c = Some cert;
  in_time : wrap 64 (valid_from cert) ≤ now ≤ wrap 64 (valid_until cert);
  names_device : extract_device_id c = Some id;
  device_trusted : allow_untrusted v = true ∨ id ∈ trusted_device_ids v;
  matches_pin : ∀ pinned, trusted_certificates v !! id = Some pinned → pinned = c;
  own_issuer : issuer cert = subject cert;
}.
Lemma outside_validity_false now cert : outside_validity now cert = false ↔ wrap 64 (valid_from cert) ≤ now ≤ wrap 64 (valid_until cert).
Proof. unfold outside_validity. rewrite orb_false_iff, !Z.ltb_ge. lia. Qed.
Lemma is_trusted_spec id v : is_trusted id v = true ↔ allow_untrusted v = true ∨ id ∈ trusted_device_ids v.
Proof. unfold is_trusted. rewrite orb_true_iff, bool_decide_eq_true. done. Qed.
Lemma pin_check v c id :
  match get_pinned_certificate id v with
  | Some pinned => fail_if (negb (bool_decide (pinned = c))) (OtherCert (CertificateValidation "Certificate does not match pinned certificate"))
  | None => mret tt
  end = Ok tt ↔ ∀ pinned, trusted_certificates v !! id = Some pinned → pinned = c.
Proof.
  unfold get_pinned_certificate. destruct (_ !! id) as [pinned|]; [|split; [by intros ??|done]].
  rewrite fail_if_Ok, negb_false_iff, bool_decide_eq_true. split; [by intros ? ? [= <-]|auto].
Qed.
Lemma verify_client_cert_ok v c inter now :
  verify_client_cert v c inter now = Ok tt ↔ inter = [] ∧ ∃ cert id, acceptable v c now cert id.
Proof.
  unfold verify_client_cert, parse_valid, check_identity, verify_self_signature. split.
  - intros Hv. inv_ok. destruct_units. simplify_eq. split; [by destruct inter|].
    do 2 eexists. split; [done|by apply outside_validity_false|done| |by apply pin_check|].
    + by apply is_trusted_spec, negb_false_iff.
    + by match goal with H : negb (bool_decide _) = false |- _ => apply negb_false_iff, bool_decide_eq_true in H end.
  - intros [-> (cert & id & [Hp Ht Hid Htr Hpin Hiss])]. rewrite Hp. cbn. rewrite (proj2 (outside_validity_false _ _)) by done. cbn.
    rewrite Hid. cbn. rewrite (proj2 (is_trusted_spec _ _)) by done. cbn. rewrite (proj2 (pin_check v c id)) by done. cbn.
    by rewrite bool_decide_true by done.
Qed.
(** A certificate for [id], made at [t] with any key, is acceptable for five years to who trusts [id]. *)
Lemma made_certificate_acceptable v t id name key c now : DeviceId.wf id → self_signed (device_params t id name) key = Some c →
  0 ≤ t → t + days (365 * 5) < 2 ^ 64 → t ≤ now ≤ t + days (365 * 5) → is_trusted id v = true →
  (∀ pinned, trusted_certificates v !! id = Some pinned → pinned = c) → ∃ cert, acceptable v c now cert id.
Proof.
  intros Hid Hc Ht Hmax Hnow Htr Hpin. eexists. split; [by eapply from_der_self_signed| |by eapply extract_self_signed|
    by apply is_trusted_spec|done|done].
  cbn. unfold days in *. by rewrite !wrap_small by lia.
Qed.
End lemmas.

Section disk_lemmas.
Context `{Hex, PemFormat, MapIter}.

Definition saved_entry : DeviceId.t * list byte → string * string := λ '(id, c), (cert_file id, pem_encode "CERTIFICATE" c).
#[export] Instance cert_file_inj : Inj (=) (=) cert_file.
Proof.
  intros a b Hab. unfold cert_file in Hab. apply (f_equal last_dot) in Hab.
  change ".pem"%string with ("." +:+ "pem")%string in Hab. rewrite !last_dot_app in Hab by done.
  injection Hab as Hab. by apply hex_encode_inj in Hab.
Qed.
Lemma write_certificates_Ok writable l files files' r : (∀ name, writable name = true) →
  write_certificates writable l files = (files', r) → r = Ok tt ∧ files' = foldl (λ m '(k, x), <[k := x]> m) files (map saved_entry l).
Proof.
  intros Hw. revert files. induction l as [|[id c] l IH]; intros files; cbn [write_certificates]; [by intros [= <- <-]|].
  rewrite Hw. apply IH.
Qed.
Lemma load_saved_entry readable v id c : DeviceId.wf id → readable (cert_file id) = true →
  load_entry readable v (cert_file id) (pem_encode "CERTIFICATE" c) = add_trusted_device_with_cert id c v.
Proof.
  intros Hid Hr. assert (Hd : last_dot (cert_file id) = Some (DeviceId.to_hex id, "pem"%string)) by (by apply (last_dot_app _ "pem")).
  assert (Hl : String.length (DeviceId.to_hex id) = 64%nat) by (unfold DeviceId.to_hex; rewrite hex_encode_length; by rewrite Hid).
  unfold load_entry, extension, file_stem. rewrite Hd. destruct (DeviceId.to_hex id) as [|a s] eqn:Hh; [done|].
  rewrite decide_True by done. rewrite <- Hh. unfold DeviceId.from_str, DeviceId.to_hex. rewrite hex_encode_length, Hid. cbn.
  rewrite hex_decode_encode. cbn. unfold DeviceId.from_bytes, zlen. rewrite Hid. cbn.
  unfold load_certificate_file. rewrite Hr. cbn. by rewrite pem_parse_encode.
Qed.
Lemma add_with_cert_spec id c v d :
  (d ∈ trusted_device_ids (add_trusted_device_with_cert id c v) ↔ d = id ∨ d ∈ trusted_device_ids v).
Proof.
  unfold add_trusted_device_with_cert, add_trusted_device. case_decide as Hin; cbn; [naive_solver|]. rewrite elem_of_app, list_elem_of_singleton. naive_solver.
Qed.
(** What is trusted after the certificates of [l] were loaded. *)
Lemma load_saved_entries readable l v : (∀ name, readable name = true) → Forall (λ '(id, _), DeviceId.wf id) l →
  let v' := foldl (λ v '(name, text), load_entry readable v name text) v (map saved_entry l) in
  trusted_certificates v' = foldl (λ m '(k, x), <[k := x]> m) (trusted_certificates v) l ∧
  allow_untrusted v' = allow_untrusted v ∧
  ∀ d, d ∈ trusted_device_ids v' ↔ d ∈ l.*1 ∨ d ∈ trusted_device_ids v.
Proof.
  intros Hr Hl. revert v. induction Hl as [|[id c] l Hid Hl IH]; intros v; cbn [map foldl saved_entry fmap list_fmap].
  { split_and!; [done..|]. intros d. rewrite elem_of_nil. naive_solver. }
  rewrite load_saved_entry by done. destruct (IH (add_trusted_device_with_cert id c v)) as (Hc & Ha & Hd). cbn zeta in *.
  rewrite Hc, Ha. assert (Htc : trusted_certificates (add_trusted_device_with_cert id c v) = <[id := c]> (trusted_certificates v)).
  { unfold add_trusted_device_with_cert, add_trusted_device. by case_decide. }
  assert (Hal : allow_untrusted (add_trusted_device_with_cert id c v) = allow_untrusted v).
  { unfold add_trusted_device_with_cert, add_trusted_device. by case_decide. }
  rewrite Htc, Hal. split_and!; [done..|]. intros d. rewrite Hd, add_with_cert_spec, elem_of_cons. cbn. naive_solver.
Qed.
End disk_lemmas.

Section map_of_entries.
Context `{Countable K} {A : Type}.
Lemma foldl_insert_map (l : list (K * A)) (m0 : gmap K A) : NoDup l.*1 →
  foldl (λ m '(k, x), <[k := x]> m) m0 l = list_to_map l ∪ m0.
Proof.
  revert m0. induction l as [|[k x] l IH]; intros m0 Hnd; [symmetry; apply (left_id_L ∅ (∪))|].
  apply NoDup_cons in Hnd as [Hk Hnd]. cbn [foldl]. rewrite IH by done. rewrite list_to_map_cons.
  by rewrite <- insert_union_l, insert_union_r by by apply not_elem_of_list_to_map_1.
Qed.
End map_of_entries.

(** ** Theorems *)

Section theorems.
Context `{X509, Hex, PemFormat, MapIter}.

(** C14: A server that checks client certificates, and a client that checks the certificate of the server, accept exactly the
    certificates that are parsed, are within their time, come alone, name a trusted device, equal the certificate that is
    pinned for it, if any, and have their subject as issuer. *)
Theorem accepted_certificates v c inter now :
  (verify_client_cert v c inter now = Ok tt ↔ inter = [] ∧ ∃ cert id, acceptable v c now cert id) ∧
  verify_server_cert true v c inter now = verify_client_cert v c inter now ∧
  ∀ r, verify_server_cert false v c inter now = r → r ≠ Ok tt.
Proof.
  split_and!; [apply verify_client_cert_ok|done|]. intros r <- Hv. unfold verify_server_cert in Hv. by inv_ok.
Qed.

(** C15: The certificate of a device is made with a new key that has nothing to do with the key of the device: who trusts
    the id of the device and pins no certificate accepts, on either side of a connection and for five years, the
    certificate that anyone makes for that id, under any name and with any key. *)
Theorem anyone_can_be_a_trusted_device v t id name key chain key_der now : DeviceId.wf id →
  sign_certificate (device_params t id name) key = Ok (chain, key_der) → is_trusted id v = true → get_pinned_certificate id v = None →
  0 ≤ t → t + days (365 * 5) < 2 ^ 64 → t ≤ now ≤ t + days (365 * 5) →
  ∃ c, chain = [c] ∧ verify_client_cert v c [] now = Ok tt ∧ verify_server_cert true v c [] now = Ok tt.
Proof.
  intros Hid Hs Htr Hpin Ht Hmax Hnow. unfold sign_certificate in Hs. inv_ok. exists x. split; [done|].
  assert (Hok : verify_client_cert v x [] now = Ok tt); [|done].
  apply verify_client_cert_ok. split; [done|].
  destruct (made_certificate_acceptable v t id name key x now) as [cert Hc]; try done; [|by exists cert, id].
  unfold get_pinned_certificate in Hpin. intros pinned. by rewrite Hpin.
Qed.

(** A device makes a new certificate at every start: who pinned the one of an earlier start refuses the device after
    it, as long as the pin is kept. *)
Theorem pinned_device_refused_after_restart v t t' id name key key' c c' now : DeviceId.wf id →
  self_signed (device_params t id name) key = Some c → self_signed (device_params t' id name) key' = Some c' → c ≠ c' →
  is_trusted id v = true → get_pinned_certificate id v = Some c →
  0 ≤ t' → t' + days (365 * 5) < 2 ^ 64 → t' ≤ now ≤ t' + days (365 * 5) →
  verify_client_cert v c' [] now = Err (OtherCert (CertificateValidation "Certificate does not match pinned certificate")) ∧
  verify_server_cert true v c' [] now = Err (OtherCert (CertificateValidation "Certificate does not match pinned certificate")).
Proof.
  intros Hid Hc Hc' Hne Htr Hpin Ht Hmax Hnow.
  assert (Hok : verify_client_cert v c' [] now = Err (OtherCert (CertificateValidation "Certificate does not match pinned certificate"))); [|done].
  unfold verify_client_cert, parse_valid, check_identity. rewrite (from_der_self_signed _ _ _ Hc'). cbn.
  rewrite (proj2 (outside_validity_false _ _)) by (cbn; unfold days in *; by rewrite !wrap_small by lia). cbn.
  rewrite (extract_self_signed _ _ _ _ _ Hid Hc'). cbn. rewrite Htr. cbn. rewrite Hpin. by rewrite bool_decide_false.
Qed.

Lemma saved_directory writable v dir dir' r : (∀ name, writable name = true) → default ∅ dir = ∅ →
  save_trusted_certificates writable true v dir = (dir', r) →
  r = Ok tt ∧ ∃ files, dir' = Some files ∧ ∃ l, map_iter files = map saved_entry l ∧ l ≡ₚ map_to_list (trusted_certificates v).
Proof.
  intros Hw Hdir. unfold save_trusted_certificates. rewrite Hdir. set (l := map_iter (trusted_certificates v)).
  destruct (write_certificates writable l ∅) as [files r'] eqn:Hwr. intros [= <- <-].
  destruct (write_certificates_Ok _ _ _ _ _ Hw Hwr) as [-> ->]. split; [done|]. eexists. split; [done|].
  assert (Hl : l ≡ₚ map_to_list (trusted_certificates v)) by apply map_iter_perm.
  assert (Hnd : NoDup (map saved_entry l).*1).
  { assert (Heq : (map saved_entry l).*1 = cert_file <$> l.*1) by (clear; induction l as [|[a b] l IH]; [done|]; cbn; by f_equal).
    rewrite Heq. apply NoDup_fmap_2; [apply cert_file_inj|]. rewrite Hl. apply NoDup_fst_map_to_list. }
  rewrite foldl_insert_map by done. rewrite (right_id_L ∅ (∪)).
  destruct (Permutation_map_inv saved_entry l (l1 := map_iter (list_to_map (map saved_entry l)))) as (l2 & Heq & Hp).
  { rewrite map_iter_perm. by apply map_to_list_to_map. }
  exists l2. split; [done|]. by rewrite <- Hp.
Qed.

(** When the trusted certificates are saved in a new directory and loaded again after a restart, exactly the same
    certificates are pinned, in whatever order the files are listed, and trusted are the devices with a certificate: a
    device that was trusted without one is forgotten. *)
Theorem certificates_survive_restart writable readable v ids dir dir' r : (∀ name, writable name = true) →
  (∀ name, readable name = true) → default ∅ dir = ∅ → map_Forall (λ id _, DeviceId.wf id) (trusted_certificates v) →
  save_trusted_certificates writable true v dir = (dir', r) →
  r = Ok tt ∧ ∃ v', load_trusted_certificates readable None (verifier_new ids) dir' = (v', Ok tt) ∧
    trusted_certificates v' = trusted_certificates v ∧ allow_untrusted v' = false ∧
    ∀ d, d ∈ trusted_device_ids v' ↔ is_Some (trusted_certificates v !! d) ∨ d ∈ ids.
Proof.
  intros Hw Hr Hdir Hwf Hs. destruct (saved_directory _ _ _ _ _ Hw Hdir Hs) as [-> (files & -> & l & Hl & Hp)].
  split; [done|]. eexists. split; [done|]. rewrite Hl. destruct (load_saved_entries readable l (verifier_new ids) Hr) as (Hc & Ha & Hd).
  { apply Forall_forall. intros [id c] Hin. rewrite Hp in Hin. apply elem_of_map_to_list in Hin. exact (Hwf _ _ Hin). }
  split_and!.
  - rewrite Hc. cbn [trusted_certificates verifier_new]. rewrite foldl_insert_map by (rewrite Hp; apply NoDup_fst_map_to_list). rewrite (right_id_L ∅ (∪)).
    rewrite (list_to_map_proper l (map_to_list (trusted_certificates v))) by (done || (rewrite Hp; apply NoDup_fst_map_to_list)).
    apply list_to_map_to_list.
  - by rewrite Ha.
  - intros d. rewrite Hd. cbn [trusted_device_ids verifier_new]. rewrite Hp. rewrite list_elem_of_fmap. split; intros [Hin|Hin]; try by right.
    + destruct Hin as ([d' c] & -> & Hin%elem_of_map_to_list). left. by exists c.
    + left. destruct Hin as [c Hc']. exists (d, c). split; [done|]. by apply elem_of_map_to_list.
Qed.

Lemma remove_first_spec id ids ids' : NoDup ids → remove_first id ids = Some ids' → id ∉ ids'.
Proof.
  intros Hnd. revert ids'. induction Hnd as [|x ids Hx Hnd IH]; intros ids'; cbn; [done|]. case_decide as Heq; [by intros [= <-]; subst|].
  destruct (remove_first id ids) as [rest|]; [|done]. intros [= <-]. rewrite elem_of_cons. intros [Hin|Hin]; [done|]. by eapply IH.
Qed.
(** A device that is removed from the trusted devices is not trusted any more; but its certificate is kept and saved
    with the others, and the next start trusts the device again. *)
Theorem removed_device_trusted_after_restart writable readable v id c v1 dir dir' r : (∀ name, writable name = true) →
  (∀ name, readable name = true) → default ∅ dir = ∅ → map_Forall (λ id _, DeviceId.wf id) (trusted_certificates v) →
  NoDup (trusted_device_ids v) → allow_untrusted v = false → trusted_certificates v !! id = Some c →
  remove_trusted_device id v = (v1, true) → save_trusted_certificates writable true v1 dir = (dir', r) →
  is_trusted id v1 = false ∧
  ∃ v2, load_trusted_certificates readable None (verifier_new []) dir' = (v2, Ok tt) ∧ is_trusted id v2 = true.
Proof.
  intros Hw Hr Hdir Hwf Hnd Hal Hc Hrm Hs. unfold remove_trusted_device in Hrm.
  destruct (remove_first id (trusted_device_ids v)) as [ids|] eqn:Hf; [|done]. injection Hrm as <-. split.
  - unfold is_trusted. cbn. rewrite Hal. cbn. apply bool_decide_eq_false. by eapply remove_first_spec.
  - destruct (saved_directory _ _ _ _ _ Hw Hdir Hs) as [-> (files & -> & l & Hl & Hp)]. cbn [trusted_certificates set_ids] in Hp.
    eexists. split; [done|]. rewrite Hl. destruct (load_saved_entries readable l (verifier_new []) Hr) as (_ & _ & Hd).
    { apply Forall_forall. intros [id' c'] Hin. rewrite Hp in Hin. apply elem_of_map_to_list in Hin. exact (Hwf _ _ Hin). }
    apply is_trusted_spec. right. rewrite Hd. left. rewrite Hp, list_elem_of_fmap. exists (id, c). split; [done|]. by apply elem_of_map_to_list.
Qed.

(** Handshakes one after the other with a pairing verifier. *)
Definition handshakes (l : list (Z * list byte * list (list byte) * Z)) (p : SecurePairingCertVerifier) :
    SecurePairingCertVerifier * list (outcome TlsError unit) :=
  foldl (λ '(p, rs) '(clock, c, inter, now), let '(p, r) := pairing_verify_server_cert clock c inter now p in (p, rs ++ [r])) (p, []) l.
Lemma handshakes_snoc l clock c inter now p :
  handshakes (l ++ [(clock, c, inter, now)]) p =
  (let '(p1, rs) := handshakes l p in let '(p2, r) := pairing_verify_server_cert clock c inter now p1 in (p2, rs ++ [r])).
Proof using H. unfold handshakes. rewrite foldl_app. cbn. by destruct (foldl _ _ l). Qed.
(** Of any sequence of handshakes with a pairing verifier at most one is accepted, with a certificate that is within its
    time and comes alone, before the clock is five minutes later than at the creation, and all later ones are refused. *)
Theorem pairing_accepts_once start l : let '(p, rs) := handshakes l (pairing_new start) in
  (p = pairing_new start ∧ Forall (λ r, r ≠ Ok tt) rs) ∨
  (used p = true ∧ ∃ before after clock c inter now, l = before ++ (clock, c, inter, now) :: after ∧
    length rs = length l ∧ rs !! length before = Some (Ok tt) ∧ (∀ j, j ≠ length before → rs !! j ≠ Some (Ok tt)) ∧
    clock < start + 300 ∧ inter = [] ∧ parse_valid now c = Ok tt).
Proof using H.
  assert (Hlen : length (handshakes l (pairing_new start)).2 = length l).
  { induction l as [|[[[clock c] inter] now] l IH] using rev_ind; [done|]. rewrite handshakes_snoc.
    destruct (handshakes l _) as [p rs]. destruct (pairing_verify_server_cert _ _ _ _ p) as [p2 r]. cbn in *. rewrite !length_app, IH. done. }
  revert Hlen. induction l as [|[[[clock c] inter] now] l IH] using rev_ind; [left; by split|]. rewrite handshakes_snoc.
  destruct (handshakes l (pairing_new start)) as [p rs] eqn:Hh. intros Hlen.
  destruct (pairing_verify_server_cert clock c inter now p) as [p2 r] eqn:Hv. cbn [snd] in Hlen. rewrite !length_app in Hlen. cbn in Hlen.
  destruct IH as [[-> Hno]|(Hused & b & a & k & c' & i & n & -> & Hl & Hb & Hj & Hk & Hi & Hpv)]; [cbn; lia| |].
  - unfold pairing_verify_server_cert, pairing_checks in Hv. cbn in Hv. destruct (clock - start <? 5 * 60) eqn:Hc; cbn in Hv.
    2: { injection Hv as <- <-. left. split; [done|]. apply Forall_app. split; [done|]. by constructor. }
    destruct (parse_valid now c ≫= _) as [[]|e|] eqn:Hchk; injection Hv as <- <-;
      try (left; split; [done|]; apply Forall_app; split; [done|]; by constructor).
    right. split; [done|]. inv_ok. destruct_units. apply Z.ltb_lt in Hc. exists l, [], clock, c, inter, now. split_and!;
      [done|rewrite !length_app; cbn; lia| | |lia|by destruct inter|done].
    + rewrite lookup_app_r by lia. by replace (length l - length rs)%nat with 0%nat by lia.
    + intros j Hne. destruct (decide (j < length rs)%nat) as [Hlt|Hge].
      * rewrite lookup_app_l by done. intros Hjs. rewrite Forall_forall in Hno. apply (Hno (Ok tt)); [|done]. by eapply list_elem_of_lookup_2.
      * rewrite lookup_ge_None_2; [done|]. rewrite length_app. cbn. lia.
  - right. unfold pairing_verify_server_cert, is_pairing_window_valid in Hv. rewrite Hused in Hv. cbn in Hv. injection Hv as <- <-.
    split; [done|]. exists b, (a ++ [(clock, c, inter, now)]), k, c', i, n. rewrite <- app_assoc. cbn.
    rewrite length_app in Hl. cbn in Hl. split_and!; [done|rewrite !length_app; cbn; rewrite !length_app; cbn; lia| | |done..].
    + rewrite lookup_app_l by lia. done.
    + intros j Hne. destruct (decide (j < length rs)%nat) as [Hlt|Hge]; [rewrite lookup_app_l by done; by apply Hj|].
      rewrite lookup_app_r by lia. destruct (j - length rs)%nat as [|[|?]]; done.
Qed.

(** The device of a peer counts as paired exactly when the last passphrase that was tried is the expected one, after any
    number of wrong ones, so that guesses are not limited, and a wrong one undoes the pairing. *)
Theorem paired_iff_last_guess_right device passphrase guesses m :
  let m' := foldl (λ m g, (verify_pairing device g m).1) (start_pairing device passphrase m) guesses in
  is_paired device m' = bool_decide (last guesses = Some passphrase) ∧
  (∀ g, (verify_pairing device g m').2 = Ok (String.eqb passphrase g)) ∧
  ∀ other, other ≠ device → m' !! other = m !! other.
Proof using Type.
  cbn zeta. assert (Hinv : ∃ s, foldl (λ m g, (verify_pairing device g m).1) (start_pairing device passphrase m) guesses !! device =
      Some {| pairing_state := s; expected_passphrase := Some passphrase |} ∧
      (s = PairingCompleted ↔ last guesses = Some passphrase) ∧
      ∀ other, other ≠ device → foldl (λ m g, (verify_pairing device g m).1) (start_pairing device passphrase m) guesses !! other = m !! other).
  { induction guesses as [|g guesses IH] using rev_ind.
    - exists WaitingForPassphrase. cbn. unfold start_pairing. rewrite lookup_insert_eq. split_and!; [done..|].
      intros other Hne. by rewrite lookup_insert_ne.
    - rewrite foldl_app, last_snoc. destruct IH as (s & Hs & _ & Ho). cbn [foldl].
      set (m1 := foldl _ _ guesses) in *. clearbody m1. unfold verify_pairing. rewrite Hs. unfold verify_passphrase. cbn [expected_passphrase].
      destruct (String.eqb_spec passphrase g) as [->|Hne]; cbn [fst]; eexists; (split; [by rewrite lookup_insert_eq|]);
        (split; [split; [congruence|intros; congruence]|intros other Hother; rewrite lookup_insert_ne by done; by apply Ho]). }
  destruct Hinv as (s & Hs & Hiff & Ho). split_and!; [| |done].
  - unfold is_paired, is_complete. rewrite Hs. cbn. by apply bool_decide_ext.
  - intros g. set (m1 := foldl _ _ guesses) in *. clearbody m1. unfold verify_pairing. rewrite Hs. cbn. by destruct (String.eqb passphrase g).
Qed.
End theorems.

(** ** Examples *)

Module Examples.
#[local] Existing Instance RefHash.hex.
#[local] Existing Instance gmap_order.
(** A stand-in for X.509: the fields and the key in the encoding of [Framing.Examples]. *)
Definition is_cn (t : DnType) : bool := match t with CommonName => true | OrganizationName => false end.
Definition of_cn (b : bool) : DnType := if b then CommonName else OrganizationName.
Lemma of_is_cn t : of_cn (is_cn t) = t.
Proof. by destruct t. Qed.
Abbreviation fields := (Z * Z * list (bool * string) * list (list Z * list byte) * list byte)%type.
Definition sign_fields (p : CertificateParams) (key : list byte) : list byte :=
  Framing.Examples.bit_encode (T:=fields)
    (not_before p, not_after p, map (λ '(t, s), (is_cn t, s)) (distinguished_name p), custom_extensions p, key).
Definition parse_fields (der : list byte) : option X509Certificate :=
  match Framing.Examples.bit_decode (T:=fields) der with
  | Some (nb, na, dn, exts, _) =>
      let name := map (λ '(b, s), (of_cn b, s)) dn in
      Some {| issuer := name; subject := name; valid_from := nb; valid_until := na; extensions := exts |}
  | None => None
  end.
Lemma parse_sign_fields p k der : Some (sign_fields p k) = Some der →
  parse_fields der = Some {| issuer := distinguished_name p; subject := distinguished_name p; valid_from := not_before p;
    valid_until := not_after p; extensions := [] ++ custom_extensions p |}.
Proof.
  intros [= <-]. unfold parse_fields, sign_fields. rewrite Framing.Examples.bit_decode_encode.
  rewrite map_map. rewrite (map_ext _ id); [by rewrite map_id|]. intros [t s]. cbn. by rewrite of_is_cn.
Qed.
#[local] Instance x509 : X509 := {| KeyPair := list byte; self_signed p k := Some (sign_fields p k); serialize_key k := Some k;
  parse_ip _ := None; from_der := parse_fields; standard _ := []; standard_oids p := List.Forall_nil _; from_der_self_signed := parse_sign_fields |}.
Definition to_pem (tag : string) (bytes : list byte) : string :=
  String.string_of_list_byte (Framing.Examples.bit_encode (tag, bytes)).
Definition of_pem (s : string) : option (string * list byte) := Framing.Examples.bit_decode (String.list_byte_of_string s).
Lemma of_to_pem tag bytes : of_pem (to_pem tag bytes) = Some (tag, bytes).
Proof. unfold of_pem, to_pem. rewrite String.list_byte_of_string_of_list_byte. apply Framing.Examples.bit_decode_encode. Qed.
#[local] Instance pem : PemFormat := {| pem_parse_encode := of_to_pem |}.

Definition phone : DeviceId.t := repeat x07 32.
Definition key (b : byte) : @KeyPair x509 := [b].
Definition made (t : Z) (name : string) (key : @KeyPair x509) : list byte := sign_fields (device_params t phone name) key.
Definition knows_phone : CertificateVerifier := verifier_new [phone].
Definition pins (c : list byte) : CertificateVerifier := add_trusted_device_with_cert phone c (verifier_new []).

Lemma accepted_certificates_witness :
  ∃ cert id, acceptable knows_phone (made 1000 "phone" (key x01)) 2000 cert id.
Proof.
  refine (proj2 (proj1 (proj1 (accepted_certificates knows_phone (made 1000 "phone" (key x01)) [] 2000)) _)).
  vm_compute. reflexivity.
Defined.

(** A stranger with the key 66. *)
Lemma anyone_can_be_a_trusted_device_witness :
  verify_client_cert knows_phone (made 1000 "stranger" (key x42)) [] 2000 = Ok tt.
Proof.
  destruct (anyone_can_be_a_trusted_device knows_phone 1000 phone "stranger" (key x42) [made 1000 "stranger" (key x42)] [x42] 2000)
    as (c & Hc & Hok & _); [reflexivity|reflexivity|reflexivity|reflexivity|lia|reflexivity|unfold days; lia|].
  injection Hc as <-. exact Hok.
Defined.

Lemma pinned_device_refused_after_restart_witness :
  verify_client_cert (pins (made 1000 "phone" (key x01))) (made 2000 "phone" (key x02)) [] 3000 =
    Err (OtherCert (CertificateValidation "Certificate does not match pinned certificate")).
Proof.
  refine (proj1 (pinned_device_refused_after_restart (pins (made 1000 "phone" (key x01))) 1000 2000 phone "phone" (key x01) (key x02)
    (made 1000 "phone" (key x01)) (made 2000 "phone" (key x02)) 3000 _ _ _ _ _ _ _ _ _));
    [reflexivity|reflexivity|reflexivity|apply (bool_decide_unpack _); vm_compute; exact I|vm_compute; reflexivity|vm_compute; reflexivity|lia|reflexivity|unfold days; lia].
Defined.

Definition always (name : string) : bool := true.
Definition cert1 : list byte := [x01; x02; x03].
Lemma certificates_survive_restart_witness : ∃ v',
  load_trusted_certificates always None (verifier_new [[x05]])
    (save_trusted_certificates always true (pins cert1) None).1 = (v', Ok tt) ∧
  trusted_certificates v' = trusted_certificates (pins cert1).
Proof.
  destruct (certificates_survive_restart always always (pins cert1) [[x05]] None (save_trusted_certificates always true (pins cert1) None).1 (Ok tt))
    as (_ & v' & Hl & Hc & _);
    [reflexivity|reflexivity|reflexivity|by apply (bool_decide_unpack _); vm_compute|apply Identity.Examples.with_result; vm_compute; reflexivity|].
  exists v'. exact (conj Hl Hc).
Defined.

Lemma removed_device_trusted_after_restart_witness : ∃ v2,
  is_trusted phone (remove_trusted_device phone (pins cert1)).1 = false ∧
  load_trusted_certificates always None (verifier_new [])
    (save_trusted_certificates always true (remove_trusted_device phone (pins cert1)).1 None).1 = (v2, Ok tt) ∧
  is_trusted phone v2 = true.
Proof.
  destruct (removed_device_trusted_after_restart always always (pins cert1) phone cert1 (remove_trusted_device phone (pins cert1)).1 None
    (save_trusted_certificates always true (remove_trusted_device phone (pins cert1)).1 None).1 (Ok tt)) as (Hno & v2 & Hl & Hyes);
    [reflexivity|reflexivity|reflexivity|by apply (bool_decide_unpack _); vm_compute|by apply (bool_decide_unpack _); vm_compute|reflexivity
    |vm_compute; reflexivity|vm_compute; reflexivity|apply Identity.Examples.with_result; vm_compute; reflexivity|].
  exists v2. exact (conj Hno (conj Hl Hyes)).
Defined.

Lemma pairing_accepts_once_witness :
  let l := [(100, made 50 "a" (key x01), [], 120); (130, made 60 "b" (key x02), [], 130)] in
  let '(p, rs) := handshakes l (pairing_new 90) in used p = true ∧ rs !! 0%nat = Some (Ok tt) ∧ rs !! 1%nat ≠ Some (Ok tt).
Proof.
  pose proof (pairing_accepts_once 90 [(100, made 50 "a" (key x01), [], 120); (130, made 60 "b" (key x02), [], 130)]) as Hp.
  cbv zeta. destruct (handshakes _ _) as [p rs] eqn:Hh. vm_compute in Hh. injection Hh as <- <-.
  destruct Hp as [[Hp _]|_]; [discriminate Hp|]. split; [reflexivity|]. split; [reflexivity|discriminate].
Defined.

Lemma paired_iff_last_guess_right_witness :
  is_paired "phone" (foldl (λ m g, (verify_pairing "phone" g m).1) (start_pairing "phone" "secret" ∅) ["a"; "b"; "secret"]) = true.
Proof. exact (proj1 (paired_iff_last_guess_right "phone" "secret" ["a"; "b"; "secret"] ∅)). Defined.
End Examples.
