(* ===== verification/Handshake.v ===== *)
(** Setting up connections: landro-quic/src/config.rs, client.rs, server.rs and the greetings
    of connection.rs.

    A connection is a [Framing.Connection] with what the peer said of itself. What the
    network does is an argument: the results of resolving and connecting, the connections
    that arrive. Waiting for a stream that does not come is the result [Pending], which a
    timeout turns into its error. rustls decides with the verifiers of [Certificates]
    whether a connection is made: [tls]. *)

From S2P Require Import Prelude Bytes Proto Framing Resilience Identity Certificates.
From Stdlib Require Import Init.Byte ZArith Lia.
From stdpp Require Import base option list gmap sets strings pretty numbers relations sorting.
Open Scope Z_scope.

Abbreviation QuicError := Resilience.QuicError.

(** ** Greetings: connection.rs *)

Record Conn := {
  link : Framing.Connection;
  remote_device_id : option (list byte);
  remote_device_name : option string;
  closed_with : option (Z * string);
}.
Definition conn_new (l : Framing.Connection) : Conn :=
  {| link := l; remote_device_id := None; remote_device_name := None; closed_with := None |}.
Definition close (code : Z) (reason : string) (c : Conn) : Conn :=
  {| link := {| alive := false; outgoing := outgoing (link c); incoming := incoming (link c) |};
     remote_device_id := remote_device_id c; remote_device_name := remote_device_name c; closed_with := Some (code, reason) |}.
(** An error, or a wait that does not end. *)
Inductive Stop := Failed (e : QuicError) | Pending.
Abbreviation conversation := (st Conn Stop).
Definition failing {A} (e : QuicError) : outcome Stop A := Err (Failed e).

Section hello.
Context `{Message Hello}.

(** [StreamType::Control]. *)
Definition control_stream : Z := 0.
Definition data_stream : Z := 1.
Definition open_uni : conversation unit := λ c,
  (c, if alive (link c) then Ok tt else failing (QConnection "lost")).
Definition finish (bytes : list byte) : conversation unit :=
  modify_st (λ c, {| link := {| alive := alive (link c); outgoing := outgoing (link c) ++ [bytes]; incoming := incoming (link c) |};
    remote_device_id := remote_device_id c; remote_device_name := remote_device_name c; closed_with := closed_with c |}).
Definition accept_uni : conversation (list byte) := λ c,
  match incoming (link c) with
  | s :: rest =>
      ({| link := {| alive := alive (link c); outgoing := outgoing (link c); incoming := rest |};
          remote_device_id := remote_device_id c; remote_device_name := remote_device_name c; closed_with := closed_with c |}, Ok s)
  | [] => (c, if alive (link c) then Err Pending else failing (QConnection "lost"))
  end.
Definition set_remote (id : list byte) (name : string) : conversation unit :=
  modify_st (λ c, {| link := link c; remote_device_id := Some id; remote_device_name := Some name; closed_with := closed_with c |}).

Definition greeting (now : Timestamp) (device_id : list byte) (device_name : string) : Hello :=
  {| hello_version := PROTOCOL_VERSION; hello_device_id := device_id; hello_device_name := device_name;
     hello_capabilities := ["sync"; "transfer"]; hello_timestamp := Some now |}.
Definition hello_stream (h : Hello) : list byte :=
  [byte_of control_stream] ++ be_bytes 4 (zlen (Framing.encode h)) ++ Framing.encode h.
Definition send_hello (now : Timestamp) (device_id : list byte) (device_name : string) : conversation unit :=
  _ ← lift (fail_if (negb (zlen device_id =? 32)) (Failed (QProtocol "Invalid device ID length")));
  _ ← lift (map_err (λ _, Failed (QProtocol "Invalid device name")) (validate_device_name device_name));
  let h := greeting now device_id device_name in
  _ ← lift (fail_if (MAX_MESSAGE_SIZE <? zlen (Framing.encode h)) (Failed (QProtocol "Hello message too large")));
  _ ← open_uni;
  finish (hello_stream h).
Definition read_or (what : string) (n : nat) (s : list byte) : outcome Stop (list byte * list byte) :=
  ok_or (Failed (QStream what)) (read_exact n s).
Definition parse_hello (s : list byte) : outcome Stop Hello :=
  '(stream_type, s) ← read_or "Failed to read stream type" 1 s;
  _ ← fail_if (negb (be_value stream_type =? control_stream)) (Failed (QProtocol "Expected control stream"));
  '(len_bytes, s) ← read_or "Failed to read message length" 4 s;
  let len := be_value len_bytes in
  _ ← map_err (λ _, Failed (QProtocol "Invalid message size")) (validate_message_size len);
  '(buf, _) ← read_or "Failed to read hello" (Z.to_nat len) s;
  hello ← ok_or (Failed (QProtocol "Failed to decode hello")) (Framing.decode buf);
  _ ← map_err (λ _, Failed (QProtocol "Invalid hello message")) (validate_hello hello);
  mret hello.
(** The log line slices the first eight bytes of the id. *)
Definition receive_hello : conversation unit :=
  s ← accept_uni;
  hello ← lift (parse_hello s);
  _ ← set_remote (hello_device_id hello) (hello_device_name hello);
  _ ← lift (or_panic (slice (hello_device_id hello) 0 8));
  mret tt.

(** [map_err(handshake_failed)]: waiting is no error. *)
Definition or_handshake_failed {A} (what : string) (m : conversation A) : conversation A := λ c,
  let '(c, r) := m c in
  (c, match r with Err (Failed _) => failing (QHandshakeFailed what) | _ => r end).
Definition timeout {A} (secs : Z) (m : conversation A) : st Conn QuicError A := λ c,
  let '(c, r) := m c in
  (c, match r with
      | Ok a => Ok a
      | Err (Failed e) => Err e
      | Err Pending => Err (QHandshakeTimeout secs)
      | Panic => Panic
      end).
Definition client_handshake_with_timeout (secs : Z) (now : Timestamp) (device_id : list byte) (device_name : string) : st Conn QuicError unit :=
  timeout secs
    (_ ← or_handshake_failed "Failed to send hello" (send_hello now device_id device_name);
     or_handshake_failed "Failed to receive server hello" receive_hello).
Definition client_handshake := client_handshake_with_timeout 10.
Definition server_handshake_with_timeout (secs : Z) (now : Timestamp) (device_id : list byte) (device_name : string) : st Conn QuicError unit :=
  timeout secs
    (_ ← or_handshake_failed "Failed to receive client hello" receive_hello;
     or_handshake_failed "Failed to send hello response" (send_hello now device_id device_name)).
Definition server_handshake := server_handshake_with_timeout 10.
Definition handshake := client_handshake.
End hello.

(** ** Configuration: config.rs *)

(** Durations are nanoseconds; an address is its text. *)
Record QuicConfig := {
  bind_addr : string;
  idle_timeout : Z;
  keep_alive_interval : Z;
  max_concurrent_bidi_streams : Z;
  max_concurrent_uni_streams : Z;
  stream_receive_window : Z;
  receive_window : Z;
  max_udp_payload_size : Z;
  initial_rtt_us : Z;
  max_ack_delay_ms : Z;
  enable_datagrams : bool;
  congestion_control : string;
  send_buffer_size : Z;
  recv_buffer_size : Z;
}.
Definition from_secs (n : Z) : Z := n * 10 ^ 9.
Definition MiB : Z := 1024 * 1024.
Definition lan_optimized : QuicConfig :=
  {| bind_addr := "[::]:9876"; idle_timeout := from_secs 180; keep_alive_interval := from_secs 30;
     max_concurrent_bidi_streams := 1024; max_concurrent_uni_streams := 2048; stream_receive_window := 128 * MiB;
     receive_window := 2 * 1024 * MiB; max_udp_payload_size := 1472; initial_rtt_us := 50; max_ack_delay_ms := 1;
     enable_datagrams := true; congestion_control := "bbr"; send_buffer_size := 64 * MiB; recv_buffer_size := 64 * MiB |}.
Definition file_sync_optimized : QuicConfig :=
  {| bind_addr := "[::]:9876"; idle_timeout := from_secs 600; keep_alive_interval := from_secs 45;
     max_concurrent_bidi_streams := 2048; max_concurrent_uni_streams := 4096; stream_receive_window := 256 * MiB;
     receive_window := 4 * 1024 * MiB; max_udp_payload_size := 1472; initial_rtt_us := 25; max_ack_delay_ms := 1;
     enable_datagrams := true; congestion_control := "bbr"; send_buffer_size := 128 * MiB; recv_buffer_size := 128 * MiB |}.
Definition wan_optimized : QuicConfig :=
  {| bind_addr := "[::]:9876"; idle_timeout := from_secs 30; keep_alive_interval := from_secs 10;
     max_concurrent_bidi_streams := 100; max_concurrent_uni_streams := 100; stream_receive_window := 4 * MiB;
     receive_window := 32 * MiB; max_udp_payload_size := 1200; initial_rtt_us := 50000; max_ack_delay_ms := 25;
     enable_datagrams := false; congestion_control := "bbr"; send_buffer_size := 2 * MiB; recv_buffer_size := 2 * MiB |}.
Definition QuicConfig_default : QuicConfig := lan_optimized.

Inductive Congestion := Bbr (initial_window : Z) | Cubic (initial_window : Z).
(** What is set of quinn's [TransportConfig]. *)
Record TransportConfig := {
  max_idle_timeout_ms : Z;
  keep_alive : Z;
  bidi_streams : Z;
  uni_streams : Z;
  stream_window : Z;
  connection_window : Z;
  send_window : Z;
  initial_rtt : Z;
  datagram_buffers : option (Z * Z);
  controller : Congestion;
}.
(** [VarInt::from_u64(..).unwrap()]. *)
Definition var_int (n : Z) : outcome QuicError Z := if n <? 2 ^ 62 then Ok n else Panic.
Definition build_transport_config (self : QuicConfig) : outcome QuicError TransportConfig :=
  idle ← var_int (idle_timeout self `div` 10 ^ 6);
  bidi ← var_int (max_concurrent_bidi_streams self);
  uni ← var_int (max_concurrent_uni_streams self);
  stream ← var_int (stream_receive_window self);
  connection ← var_int (receive_window self);
  mret {| max_idle_timeout_ms := idle; keep_alive := keep_alive_interval self; bidi_streams := bidi; uni_streams := uni;
          stream_window := stream; connection_window := connection; send_window := receive_window self;
          initial_rtt := initial_rtt_us self;
          datagram_buffers := if enable_datagrams self then Some (262144, 262144) else None;
          controller := if String.eqb (congestion_control self) "bbr" then Bbr 500 else Cubic 300 |}.

Record EndpointConfig {Auth : Type} := { tls_config : TlsConfig Auth; transport : TransportConfig }.
Arguments EndpointConfig : clear implicits.

Section endpoints.
Context `{Message Hello, X509}.
(** Whether rustls takes a key for a chain, quinn a configuration; whether the TLS handshake with the owner of
    a certificate chain succeeds for a verifier at a time. *)
Context (keys_match : list (list byte) → list byte → bool) (quic_accepts : bool).
Context (tls : CertificateVerifier → list (list byte) → Z → bool).

Definition crypto {A} (m : outcome CryptoError A) : outcome QuicError A := map_err (λ _, QCrypto "certificate") m.
(** [key] is drawn, the certificate made, anew for every configuration. *)
Definition build_server_config (now : Z) (key : KeyPair) (identity : DeviceIdentity) (v : CertificateVerifier) (self : QuicConfig) :
    outcome QuicError (EndpointConfig ClientAuth) :=
  '(chain, private) ← crypto (generate_device_certificate now key identity);
  t ← crypto (server_config keys_match chain private v);
  _ ← fail_if (negb quic_accepts) (QTlsConfig "Failed to create QUIC server config");
  tr ← build_transport_config self;
  mret {| tls_config := t; transport := tr |}.
Definition build_client_config (now : Z) (key : KeyPair) (identity : DeviceIdentity) (v : CertificateVerifier) (self : QuicConfig) :
    outcome QuicError (EndpointConfig ServerAuth) :=
  '(chain, private) ← crypto (generate_device_certificate now key identity);
  t ← crypto (client_config keys_match chain private v);
  _ ← fail_if (negb quic_accepts) (QTlsConfig "Failed to create QUIC client config");
  tr ← build_transport_config self;
  mret {| tls_config := t; transport := tr |}.

(** ** The client: client.rs *)

(** What comes of connecting to an address. *)
Inductive Attempt := Refused | TimedOut | Broken | Reaches (l : Framing.Connection).
Record QuicClient := { c_identity : DeviceIdentity; c_endpoint : EndpointConfig ServerAuth }.
Definition client_new (now : Z) (key : KeyPair) (bound : bool) (identity : DeviceIdentity) (v : CertificateVerifier) (cfg : QuicConfig) :
    outcome QuicError QuicClient :=
  e ← build_client_config now key identity v cfg;
  _ ← fail_if (negb bound) (QIo "bind");
  mret {| c_identity := identity; c_endpoint := e |}.
(** The connection that was made, if one was, and the result. *)
Definition connect_addr (now : Timestamp) (a : Attempt) (self : QuicClient) : option Conn * outcome QuicError Conn :=
  match a with
  | Refused => (None, Err (QConnect "refused"))
  | TimedOut => (None, Err QTimeout)
  | Broken => (None, Err (QConnection "failed"))
  | Reaches l =>
      match client_handshake now (device_id (c_identity self)) (device_name (c_identity self)) (conn_new l) with
      | (c, Ok _) => (Some c, Ok c)
      | (c, Err e) => (Some (close 1 "handshake failed" c), Err e)
      | (c, Panic) => (Some c, Panic)
      end
  end.
(** [addrs]: what the name resolves to, an error if it does not. *)
Definition connect (now : Timestamp) (addrs : option (list Attempt)) (self : QuicClient) : option Conn * outcome QuicError Conn :=
  match addrs with
  | None => (None, Err (QIo "resolve"))
  | Some [] => (None, Err (QProtocol "Invalid address"))
  | Some (a :: _) => connect_addr now a self
  end.
(** The attempts left, the one that is made, the last error. *)
Fixpoint retry (n i : nat) (last_error : option QuicError) (attempts : nat → Timestamp * Attempt) (self : QuicClient) : outcome QuicError Conn :=
  match n with
  | O => Err (default (QProtocol "Connection failed") last_error)
  | S n =>
      let '(now, a) := attempts i in
      match (connect_addr now a self).2 with
      | Ok c => Ok c
      | Err e => retry n (S i) (Some e) attempts self
      | Panic => Panic
      end
  end.
Definition connect_with_retry (max_attempts : Z) (attempts : nat → Timestamp * Attempt) (self : QuicClient) : outcome QuicError Conn :=
  retry (Z.to_nat max_attempts) 1 None attempts self.

(** ** The server: server.rs *)

(** A connection has a number that stays. *)
Record QuicServer := {
  s_identity : DeviceIdentity;
  s_verifier : CertificateVerifier;
  s_config : QuicConfig;
  endpoint : option (EndpointConfig ClientAuth);
  connections : list (nat * Conn);
}.
Definition server_new (identity : DeviceIdentity) (v : CertificateVerifier) (cfg : QuicConfig) : QuicServer :=
  {| s_identity := identity; s_verifier := v; s_config := cfg; endpoint := None; connections := [] |}.
Definition set_endpoint (e : option (EndpointConfig ClientAuth)) (s : QuicServer) : QuicServer :=
  {| s_identity := s_identity s; s_verifier := s_verifier s; s_config := s_config s; endpoint := e; connections := connections s |}.
Definition set_connections (l : list (nat * Conn)) (s : QuicServer) : QuicServer :=
  {| s_identity := s_identity s; s_verifier := s_verifier s; s_config := s_config s; endpoint := endpoint s; connections := l |}.
Definition start (now : Z) (key : KeyPair) (bound : bool) : st QuicServer QuicError unit := λ s,
  match endpoint s with
  | Some _ => (s, Err QServerAlreadyRunning)
  | None =>
      match build_server_config now key (s_identity s) (s_verifier s) (s_config s) with
      | Ok e => if bound then (set_endpoint (Some e) s, Ok tt) else (s, Err (QIo "bind"))
      | Err e => (s, Err e)
      | Panic => (s, Panic)
      end
  end.
Definition stop (s : QuicServer) : QuicServer := set_endpoint None s.

(** What [endpoint.accept()] gives. *)
Inductive Arrival := EndpointClosed | Arrives (id : nat) (chain : list (list byte)) (l : Framing.Connection).
(** [clock] is the time of the TLS handshake, [now] that of the greeting. *)
Definition accept (clock : Z) (now : Timestamp) (a : Arrival) : st QuicServer QuicError (nat * Conn) := λ s,
  match endpoint s with
  | None => (s, Err (QProtocol "Server not started"))
  | Some _ =>
      match a with
      | EndpointClosed => (s, Err (QProtocol "Endpoint closed"))
      | Arrives id chain l =>
          if negb (tls (s_verifier s) chain clock) then (s, Err (QConnection "TLS"))
          else
            match server_handshake now (device_id (s_identity s)) (device_name (s_identity s)) (conn_new l) with
            | (c, Ok _) => (set_connections (connections s ++ [(id, c)]) s, Ok (id, c))
            | (_, Err e) => (s, Err e)
            | (_, Panic) => (s, Panic)
            end
      end
  end.
(** The end of the task of a connection, once it is closed. *)
Definition connection_closed (id : nat) (s : QuicServer) : QuicServer :=
  set_connections (filter (λ p, p.1 ≠ id) (connections s)) s.
(** What happens while the loop runs: [accept] returns, or the task that [run]
    has spawned for a connection sees that the connection is closed. *)
Inductive Event :=
  | Accepting (clock : Z) (now : Timestamp) (a : Arrival)
  | Closed (id : nat).
(** The loop, with the connections that have such a task: [true] as long as it
    goes on. *)
Fixpoint run (events : list Event) (s : QuicServer) (handled : list nat) : QuicServer * list nat * bool :=
  match events with
  | [] => (s, handled, true)
  | Accepting clock now a :: events =>
      match accept clock now a s with
      | (s, Ok (id, _)) => run events s (id :: handled)
      | (s, Err (QProtocol _)) => (s, handled, false)
      | (s, Err _) => run events s handled
      | (s, Panic) => (s, handled, false)
      end
  | Closed id :: events =>
      if decide (id ∈ handled) then run events (connection_closed id s) (filter (λ i, i ≠ id) handled)
      else run events s handled
  end.
End endpoints.

(** ** Lemmas *)

Section lemmas.
Context `{Message Hello, X509}.

Lemma greeting_valid now id name : length id = 32%nat → validate_device_name name = Ok tt → validate_hello (greeting now id name) = Ok tt.
Proof.
  intros Hid Hname. unfold validate_hello, greeting. cbn [hello_version hello_device_name hello_device_id hello_capabilities].
  rewrite Hname. unfold must_be_32, zlen. rewrite Hid. by vm_compute.
Qed.
Lemma parse_hello_stream h : zlen (Framing.encode h) ≤ MAX_MESSAGE_SIZE → validate_hello h = Ok tt → parse_hello (hello_stream h) = Ok h.
Proof.
  intros Hlen Hv. pose proof (zlen_nonneg (Framing.encode h)). unfold parse_hello, hello_stream, read_or.
  rewrite read_exact_app by done. cbn [ok_or mbind outcome_bind]. rewrite be_value_byte, byte_val_of. cbn [fail_if].
  change (negb (wrap 8 control_stream =? control_stream)) with false. cbn [fail_if mbind outcome_bind].
  rewrite read_exact_app by apply be_bytes_length. cbn [ok_or mbind outcome_bind].
  rewrite be_value_be_bytes by (unfold MAX_MESSAGE_SIZE in Hlen; cbn; lia).
  unfold validate_message_size. rewrite (proj2 (Z.ltb_ge _ _)) by done. cbn [fail_if map_err mbind outcome_bind].
  replace (Framing.encode h) with (Framing.encode h ++ []) at 2 by apply app_nil_r.
  rewrite read_exact_app by (unfold zlen; lia). cbn [ok_or mbind outcome_bind]. rewrite Framing.decode_encode. cbn [ok_or mbind outcome_bind].
  by rewrite Hv.
Qed.

Definition with_link (out inc : list (list byte)) (c : Conn) : Conn :=
  {| link := {| alive := true; outgoing := out; incoming := inc |}; remote_device_id := remote_device_id c;
     remote_device_name := remote_device_name c; closed_with := closed_with c |}.
Lemma send_hello_Ok now id name c : length id = 32%nat → validate_device_name name = Ok tt → alive (link c) = true →
  zlen (Framing.encode (greeting now id name)) ≤ MAX_MESSAGE_SIZE →
  send_hello now id name c = (with_link (outgoing (link c) ++ [hello_stream (greeting now id name)]) (incoming (link c)) c, Ok tt).
Proof.
  intros Hid Hname Ha Hlen. destruct c as [[al out inc] rid rname cl]. cbn in Ha. subst al.
  unfold send_hello, lift, finish, open_uni, modify_st, mbind, st_bind. unfold zlen at 1. rewrite Hid. cbn.
  rewrite Hname. cbn. by rewrite (proj2 (Z.ltb_ge _ _)) by done.
Qed.
Lemma validate_device_name_no_Panic name : validate_device_name name ≠ Panic.
Proof. unfold validate_device_name. auto 10 with no_panic. Qed.
Lemma validate_hello_no_Panic h : validate_hello h ≠ Panic.
Proof. unfold validate_hello, validate_device_name, must_be_32, validate_capabilities. auto 16 with no_panic. Qed.
Hint Resolve validate_hello_no_Panic : no_panic.
Lemma send_hello_no_Panic now id name c : (send_hello now id name c).2 ≠ Panic.
Proof.
  unfold send_hello, lift, finish, open_uni, modify_st, mbind, st_bind, fail_if, failing.
  pose proof (validate_device_name_no_Panic name) as Hn. destruct (negb _); [done|]. destruct (validate_device_name name); [|done..].
  cbn. destruct (MAX_MESSAGE_SIZE <? _); [done|]. cbn. by destruct (alive (link c)).
Qed.
Lemma send_hello_remote now id name c :
  remote_device_id (send_hello now id name c).1 = remote_device_id c ∧ remote_device_name (send_hello now id name c).1 = remote_device_name c.
Proof.
  unfold send_hello, lift, finish, open_uni, modify_st, mbind, st_bind. destruct (fail_if (negb _) _); [|done..].
  destruct (map_err _ _); [|done..]. destruct (fail_if _ _); [|done..]. by destruct (alive (link c)).
Qed.
Lemma parse_hello_Ok s h : parse_hello s = Ok h → length (hello_device_id h) = 32%nat ∧ validate_device_name (hello_device_name h) = Ok tt.
Proof.
  unfold parse_hello, read_or. intros Hp. inv_ok. repeat (case_match; inv_ok). subst.
  match goal with H : validate_hello _ = Ok _ |- _ => unfold validate_hello in H; inv_ok end. destruct_units.
  split; [by eapply must_be_32_Ok|done].
Qed.
Lemma parse_hello_no_Panic s : parse_hello s ≠ Panic.
Proof.
  unfold parse_hello, read_or.
  repeat first [apply bind_no_Panic; [auto with no_panic|intros []]|auto with no_panic].
Qed.
(** What is received of a peer, from whatever bytes: never a panic, and what is recorded is valid. *)
Lemma receive_hello_outcome c :
  receive_hello c =
    match incoming (link c) with
    | [] => (c, if alive (link c) then Err Pending else failing (QConnection "lost"))
    | s :: rest =>
        let c' id name := {| link := {| alive := alive (link c); outgoing := outgoing (link c); incoming := rest |};
          remote_device_id := id; remote_device_name := name; closed_with := closed_with c |} in
        match parse_hello s with
        | Ok h => (c' (Some (hello_device_id h)) (Some (hello_device_name h)), Ok tt)
        | Err e => (c' (remote_device_id c) (remote_device_name c), Err e)
        | Panic => (c' (remote_device_id c) (remote_device_name c), Panic)
        end
    end.
Proof.
  unfold receive_hello, accept_uni, set_remote, lift, modify_st, mbind, st_bind, mret, st_ret.
  destruct (incoming (link c)) as [|s rest] eqn:Hi; [by destruct (alive (link c))|]. cbn.
  destruct (parse_hello s) as [h|e|] eqn:Hp; [|done..]. cbn. destruct (parse_hello_Ok s h Hp) as [Hid _].
  unfold slice. rewrite decide_True by (unfold zlen; rewrite Hid; lia). done.
Qed.
(** How a handshake of the server ends. *)
Lemma server_handshake_ends now id name c c' r : server_handshake now id name c = (c', r) →
  match r with
  | Ok _ => (∃ d, remote_device_id c' = Some d ∧ length d = 32%nat) ∧ ∃ n, remote_device_name c' = Some n ∧ validate_device_name n = Ok tt
  | Err e => (∃ s, e = QHandshakeFailed s) ∨ e = QHandshakeTimeout 10
  | Panic => False
  end.
Proof.
  unfold server_handshake, server_handshake_with_timeout, timeout, or_handshake_failed, mbind, st_bind.
  rewrite receive_hello_outcome. destruct (incoming (link c)) as [|s rest].
  { destruct (alive (link c)); intros [= <- <-]; [by right|left; by eexists]. }
  pose proof (parse_hello_no_Panic s) as Hnp. destruct (parse_hello s) as [h|e|] eqn:Hp; cbn zeta; [|destruct e; intros [= <- <-]; [left; by eexists|by right]|done].
  destruct (parse_hello_Ok s h Hp) as [Hd Hn].
  set (c1 := {| link := _; remote_device_id := Some _; remote_device_name := _; closed_with := _ |}).
  pose proof (send_hello_no_Panic now id name c1) as Hsp. pose proof (send_hello_remote now id name c1) as Hrem.
  destruct (send_hello now id name c1) as [c2 r2]. cbn in Hrem, Hsp. destruct Hrem as [Hi Hna].
  destruct r2 as [u|[e|]|]; intros [= <- <-]; [|left; by eexists|by right|done].
  split; [by exists (hello_device_id h)|by exists (hello_device_name h)].
Qed.
Lemma server_handshake_Ok now now' id name d n c : length id = 32%nat → validate_device_name name = Ok tt →
  length d = 32%nat → validate_device_name n = Ok tt →
  zlen (Framing.encode (greeting now id name)) ≤ MAX_MESSAGE_SIZE → zlen (Framing.encode (greeting now' d n)) ≤ MAX_MESSAGE_SIZE →
  alive (link c) = true → incoming (link c) = [hello_stream (greeting now' d n)] →
  server_handshake now id name c = ({| link := {| alive := true; outgoing := outgoing (link c) ++ [hello_stream (greeting now id name)]; incoming := [] |};
    remote_device_id := Some d; remote_device_name := Some n; closed_with := closed_with c |}, Ok tt).
Proof.
  intros Hid Hname Hd Hn Hl Hl' Ha Hi.
  unfold server_handshake, server_handshake_with_timeout, timeout, or_handshake_failed, mbind, st_bind.
  rewrite receive_hello_outcome, Hi, parse_hello_stream by (done || by apply greeting_valid). cbv beta iota zeta.
  rewrite send_hello_Ok by done. done.
Qed.
Lemma client_handshake_Ok now now' id name d n c : length id = 32%nat → validate_device_name name = Ok tt →
  length d = 32%nat → validate_device_name n = Ok tt →
  zlen (Framing.encode (greeting now id name)) ≤ MAX_MESSAGE_SIZE → zlen (Framing.encode (greeting now' d n)) ≤ MAX_MESSAGE_SIZE →
  alive (link c) = true → incoming (link c) = [hello_stream (greeting now' d n)] →
  client_handshake now id name c = ({| link := {| alive := true; outgoing := outgoing (link c) ++ [hello_stream (greeting now id name)]; incoming := [] |};
    remote_device_id := Some d; remote_device_name := Some n; closed_with := closed_with c |}, Ok tt).
Proof.
  intros Hid Hname Hd Hn Hl Hl' Ha Hi.
  unfold client_handshake, client_handshake_with_timeout, timeout, or_handshake_failed, mbind, st_bind.
  rewrite send_hello_Ok by done. cbv beta iota. rewrite receive_hello_outcome. cbn [with_link link incoming]. rewrite Hi.
  by rewrite parse_hello_stream by (done || by apply greeting_valid).
Qed.
Lemma receive_hello_no_Panic c : (receive_hello c).2 ≠ Panic.
Proof.
  rewrite receive_hello_outcome. destruct (incoming (link c)) as [|s rest]; [by destruct (alive (link c))|].
  pose proof (parse_hello_no_Panic s). cbv zeta. by destruct (parse_hello s).
Qed.
Lemma connect_addr_no_Panic now a self : (connect_addr now a self).2 ≠ Panic.
Proof.
  destruct a as [| | |l]; [done..|]. unfold connect_addr, client_handshake, client_handshake_with_timeout, timeout, or_handshake_failed, mbind, st_bind.
  pose proof (send_hello_no_Panic now (device_id (c_identity self)) (device_name (c_identity self)) (conn_new l)) as Hs.
  destruct (send_hello _ _ _ _) as [c1 [u|[e|]|]]; [|done..]. pose proof (receive_hello_no_Panic c1) as Hr.
  by destruct (receive_hello c1) as [c2 [u'|[e|]|]].
Qed.
End lemmas.

(** ** Theorems *)

Section theorems.
Context `{Message Hello, X509} (tls : CertificateVerifier → list (list byte) → Z → bool).

(** Two devices with valid ids and names introduce themselves: what each end sends makes the handshake of the
    other end succeed, and each then has the id and the name of the other. *)
Theorem handshake_introduces nowc nows idc namec ids names c s :
  length idc = 32%nat → length ids = 32%nat → validate_device_name namec = Ok tt → validate_device_name names = Ok tt →
  zlen (Framing.encode (greeting nowc idc namec)) ≤ MAX_MESSAGE_SIZE → zlen (Framing.encode (greeting nows ids names)) ≤ MAX_MESSAGE_SIZE →
  c = conn_new {| alive := true; outgoing := []; incoming := [hello_stream (greeting nows ids names)] |} →
  s = conn_new {| alive := true; outgoing := []; incoming := [hello_stream (greeting nowc idc namec)] |} →
  ∃ c' s', client_handshake nowc idc namec c = (c', Ok tt) ∧ server_handshake nows ids names s = (s', Ok tt) ∧
    outgoing (link c') = incoming (link s) ∧ outgoing (link s') = incoming (link c) ∧
    remote_device_id c' = Some ids ∧ remote_device_name c' = Some names ∧
    remote_device_id s' = Some idc ∧ remote_device_name s' = Some namec.
Proof.
  intros. subst c s. do 2 eexists. split_and!; [by apply (client_handshake_Ok nowc nows idc namec ids names)|
    by apply (server_handshake_Ok nows nowc ids names idc namec)|done..].
Qed.

(** The connection that an arrival becomes: the TLS handshake and the greeting succeed. *)
Definition succeeds (s : QuicServer) (clock : Z) (now : Timestamp) (a : Arrival) : option (nat * Conn) :=
  match a with
  | EndpointClosed => None
  | Arrives id chain l =>
      if tls (s_verifier s) chain clock then
        match server_handshake now (device_id (s_identity s)) (device_name (s_identity s)) (conn_new l) with
        | (c, Ok _) => Some (id, c)
        | _ => None
        end
      else None
  end.
(** Those of them that are not closed later. *)
Definition closing (e : Event) : option nat := match e with Closed id => Some id | _ => None end.
Fixpoint lasting (s : QuicServer) (events : list Event) : list (nat * Conn) :=
  match events with
  | [] => []
  | Accepting clock now a :: events =>
      match succeeds s clock now a with
      | Some (id, c) => (if decide (id ∈ omap closing events) then [] else [(id, c)]) ++ lasting s events
      | None => lasting s events
      end
  | Closed _ :: events => lasting s events
  end.
Definition arriving (e : Event) : option nat :=
  match e with Accepting _ _ (Arrives id _ _) => Some id | _ => None end.
Definition introduced (p : nat * Conn) : Prop :=
  ∃ d n, remote_device_id p.2 = Some d ∧ length d = 32%nat ∧ remote_device_name p.2 = Some n ∧
    validate_device_name n = Ok tt.

Lemma succeeds_introduced s clock now a p : succeeds s clock now a = Some p → introduced p.
Proof.
  destruct a as [|id chain l]; [done|]. cbn [succeeds]. destruct (tls _ _ _); [|done].
  destruct (server_handshake _ _ _ _) as [c r] eqn:Hh. apply server_handshake_ends in Hh.
  destruct r; [|done..]. intros [= <-]. destruct Hh as [(d & Hd & Hl) (n & Hn & Hv)]. by exists d, n.
Qed.
Lemma lasting_introduced s events : Forall introduced (lasting s events).
Proof.
  induction events as [|[clock now a|id] events IH]; cbn [lasting]; [constructor| |done].
  destruct (succeeds s clock now a) as [[id c]|] eqn:Hs; [|done]. apply Forall_app. split; [|done].
  case_decide; constructor; [by eapply succeeds_introduced|constructor].
Qed.
(** What [accept] does with a peer. *)
Lemma accept_arrival clock now id chain l s : endpoint s ≠ None →
  match succeeds s clock now (Arrives id chain l) with
  | Some p => p.1 = id ∧ accept tls clock now (Arrives id chain l) s = (set_connections (connections s ++ [p]) s, Ok p)
  | None => ∃ e, accept tls clock now (Arrives id chain l) s = (s, Err e) ∧ ∀ what, e ≠ QProtocol what
  end.
Proof.
  intros Hs. unfold accept, succeeds. destruct (endpoint s) as [e|]; [|done].
  destruct (tls (s_verifier s) chain clock); cbn [negb]; [|by eexists].
  destruct (server_handshake _ _ _ _) as [c r] eqn:Hh. apply server_handshake_ends in Hh.
  destruct r as [u|er|]; [done| |done]. exists er. split; [done|]. by destruct Hh as [[x ->]| ->].
Qed.

(** [lasting] depends on the identity and the verifier only. *)
Lemma lasting_set_connections s l events : lasting (set_connections l s) events = lasting s events.
Proof. by induction events as [|[clock now [|id chain ln]|id] events IH]; cbn [lasting succeeds]; rewrite ?IH. Qed.

Lemma filter_ext_in {A} (P Q : A → Prop) `{∀ x, Decision (P x), ∀ x, Decision (Q x)} (l : list A) :
  (∀ x, x ∈ l → P x ↔ Q x) → filter P l = filter Q l.
Proof.
  induction l as [|x l IH]; intros HPQ; [done|]. rewrite !filter_cons, IH by (intros; apply HPQ; by right).
  specialize (HPQ x (list_elem_of_here x l)). repeat case_decide; naive_solver.
Qed.
Lemma filter_everything {A} (P : A → Prop) `{∀ x, Decision (P x)} (l : list A) : (∀ x, x ∈ l → P x) → filter P l = l.
Proof.
  intros HP. induction l as [|x l IH]; [done|]. rewrite filter_cons_True by (apply HP; left).
  f_equal. apply IH. intros y Hy. apply HP. by right.
Qed.

(** The connections after some events; of those there are at first, the ones
    that have a task go when they are closed. *)
Lemma run_connections events s handled : endpoint s ≠ None →
  Forall (λ e, ∀ clock now, e ≠ Accepting clock now EndpointClosed) events →
  (∀ id, id ∈ omap arriving events → id ∈ (connections s).*1 → id ∈ handled) →
  ∃ s' handled', run tls events s handled = (s', handled', true) ∧ endpoint s' = endpoint s ∧
    connections s' =
      filter (λ p, ¬ (p.1 ∈ handled ∧ p.1 ∈ omap closing events)) (connections s) ++ lasting s events.
Proof.
  intros Hs Hev. revert s handled Hs. induction Hev as [|[clock now a|id] events He Hev IH]; intros s handled Hs Hfree.
  - exists s, handled. split_and!; [done..|]. cbn [lasting omap list_omap]. rewrite app_nil_r. symmetry.
    apply filter_everything. intros p _ [_ ?%elem_of_nil]. done.
  - destruct a as [|id chain l]; [by destruct (He clock now)|].
    pose proof (accept_arrival clock now id chain l s Hs) as Ha. cbn [run lasting].
    cbn [omap list_omap arriving closing] in Hfree |- *.
    destruct (succeeds s clock now (Arrives id chain l)) as [[id' c]|].
    + destruct Ha as [Hid Ha]. cbn in Hid. subst id'. rewrite Ha.
      destruct (IH (set_connections (connections s ++ [(id, c)]) s) (id :: handled)) as (s' & h' & Hr & He' & Hc).
      { done. }
      { intros id2 Hid2. cbn [set_connections connections]. rewrite fmap_app. cbn. specialize (Hfree id2).
        set_solver. }
      exists s', h'. split_and!; [done..|]. rewrite Hc. cbn [set_connections connections].
      rewrite lasting_set_connections, filter_app, <-app_assoc. f_equal.
      * apply filter_ext_in. intros p Hp. specialize (Hfree id).
        assert (p.1 = id → id ∈ handled) as Hh.
        { intros E. apply Hfree; [left|]. rewrite <-E. by apply list_elem_of_fmap_2. }
        rewrite elem_of_cons. split; [tauto|]. intros Hn [[E|?] ?]; [|tauto]. rewrite E in *. tauto.
      * f_equal. case_decide as Hcl; [rewrite filter_cons_False|rewrite filter_cons_True]; try done; cbn.
        { intros Hn. apply Hn. split; [left|done]. }
        { tauto. }
    + destruct Ha as (e & Ha & Hne). rewrite Ha.
      destruct (IH s handled Hs) as (s' & h' & Hr & He' & Hc); [intros id2 Hid2; apply Hfree; by right|].
      exists s', h'. split_and!; [destruct e; try exact Hr; exfalso; by eapply Hne|done|done].
  - cbn [run lasting]. cbn [omap list_omap arriving closing] in Hfree |- *. case_decide as Hin.
    + destruct (IH (connection_closed id s) (filter (λ i, i ≠ id) handled)) as (s' & h' & Hr & He' & Hc).
      { done. }
      { intros id2 Hid2. unfold connection_closed. cbn [set_connections connections].
        intros ([i c] & -> & [Hne Hc]%list_elem_of_filter)%list_elem_of_fmap. apply list_elem_of_filter.
        split; [done|]. apply Hfree; [done|]. by apply (list_elem_of_fmap_2 fst) in Hc. }
      exists s', h'. split_and!; [done..|]. rewrite Hc. unfold connection_closed.
      cbn [set_connections connections]. rewrite lasting_set_connections. f_equal.
      rewrite list_filter_filter. apply list_filter_iff. intros p.
      rewrite list_elem_of_filter, elem_of_cons. destruct (decide (p.1 = id)) as [->|]; tauto.
    + destruct (IH s handled Hs Hfree) as (s' & h' & Hr & He' & Hc). exists s', h'. split_and!; [done..|].
      rewrite Hc. f_equal. apply list_filter_iff. intros p. rewrite elem_of_cons.
      destruct (decide (p.1 = id)) as [->|]; tauto.
Qed.

(** C16: Whatever the peers send and whenever connections close, the loop of a started server goes on until the endpoint
    is closed, and its connections are then those it had and, in the order of their arrival, exactly the ones whose TLS
    handshake and greeting succeeded and that were not closed after that, each with a valid id and name. (The numbers of
    the connections that arrive are those of no connection the server had.) *)
Theorem server_outlives_its_peers events s : endpoint s ≠ None →
  Forall (λ e, ∀ clock now, e ≠ Accepting clock now EndpointClosed) events →
  (∀ id, id ∈ omap arriving events → id ∉ (connections s).*1) →
  ∃ s' handled, run tls events s [] = (s', handled, true) ∧ endpoint s' = endpoint s ∧
    connections s' = connections s ++ lasting s events ∧ Forall introduced (lasting s events).
Proof.
  intros Hs Hev Hfree.
  destruct (run_connections events s [] Hs Hev) as (s' & handled & Hr & He & Hc).
  { intros id Hid Hin. by destruct (Hfree id Hid). }
  exists s', handled. split_and!; [done..| |apply lasting_introduced]. rewrite Hc. f_equal.
  apply filter_everything. intros p _ [?%elem_of_nil _]. done.
Qed.

(** A server takes in only peers whose certificate its verifier accepts; but the id of the peer that it then works with is
    the one the peer says in its greeting, any of 32 bytes: the owner of one trusted certificate can be any device. *)
Theorem greeting_decides_who_the_peer_is clock now now' s n chain claimed claimed_name :
  (∀ v chain t, tls v chain t = true → ∃ cert rest, chain = cert :: rest ∧ verify_client_cert v cert rest t = Ok tt) →
  endpoint s ≠ None → length (device_id (s_identity s)) = 32%nat → validate_device_name (device_name (s_identity s)) = Ok tt →
  zlen (Framing.encode (greeting now (device_id (s_identity s)) (device_name (s_identity s)))) ≤ MAX_MESSAGE_SIZE →
  length claimed = 32%nat → validate_device_name claimed_name = Ok tt →
  zlen (Framing.encode (greeting now' claimed claimed_name)) ≤ MAX_MESSAGE_SIZE →
  let l := {| alive := true; outgoing := []; incoming := [hello_stream (greeting now' claimed claimed_name)] |} in
  (∀ s' r, accept tls clock now (Arrives n chain l) s = (s', Ok r) →
    ∃ cert x id, chain = [cert] ∧ acceptable (s_verifier s) cert clock x id) ∧
  (tls (s_verifier s) chain clock = true →
    ∃ s' c, accept tls clock now (Arrives n chain l) s = (s', Ok (n, c)) ∧ remote_device_id c = Some claimed).
Proof.
  intros Htls Hs Hid Hname Hlen Hcl Hcn Hclen l. destruct (endpoint s) as [e|] eqn:He; [|done]. unfold accept. rewrite He. split.
  - intros s' r Hacc. destruct (tls (s_verifier s) chain clock) eqn:Ht; [|done].
    destruct (Htls _ _ _ Ht) as (cert & rest & -> & Hv). apply verify_client_cert_ok in Hv as (-> & x & id & Hx). by exists cert, x, id.
  - intros ->. cbn [negb]. rewrite (server_handshake_Ok now now' _ _ claimed claimed_name) by done. by do 2 eexists.
Qed.

(** [connect_with_retry] tries at most the given number of times, returns the connection of the first attempt that
    succeeds, the last error if none does, and an error of its own if it may not try. *)
Theorem connect_with_retry_spec max_attempts attempts self :
  match connect_with_retry max_attempts attempts self with
  | Ok c => ∃ i, (1 ≤ i ≤ Z.to_nat max_attempts)%nat ∧ (connect_addr (attempts i).1 (attempts i).2 self).2 = Ok c ∧
      ∀ j, (1 ≤ j < i)%nat → ∃ e, (connect_addr (attempts j).1 (attempts j).2 self).2 = Err e
  | Err e => (max_attempts ≤ 0 ∧ e = QProtocol "Connection failed") ∨
      (1 ≤ max_attempts ∧ (connect_addr (attempts (Z.to_nat max_attempts)).1 (attempts (Z.to_nat max_attempts)).2 self).2 = Err e ∧
       ∀ j, (1 ≤ j ≤ Z.to_nat max_attempts)%nat → ∃ e, (connect_addr (attempts j).1 (attempts j).2 self).2 = Err e)
  | Panic => False
  end.
Proof.
  unfold connect_with_retry.
  assert (Hgen : ∀ n i last, (1 ≤ i)%nat → match retry n i last attempts self with
    | Ok c => ∃ k, (i ≤ k < i + n)%nat ∧ (connect_addr (attempts k).1 (attempts k).2 self).2 = Ok c ∧
        ∀ j, (i ≤ j < k)%nat → ∃ e, (connect_addr (attempts j).1 (attempts j).2 self).2 = Err e
    | Err e => (n = 0%nat ∧ e = default (QProtocol "Connection failed") last) ∨
        (0 < n ∧ (connect_addr (attempts (i + n - 1)).1 (attempts (i + n - 1)).2 self).2 = Err e ∧
         ∀ j, i ≤ j < i + n → ∃ e, (connect_addr (attempts j).1 (attempts j).2 self).2 = Err e)%nat
    | Panic => False
    end).
  { induction n as [|n IH]; intros i last Hi; cbn [retry]; [by left|]. destruct (attempts i) as [now a] eqn:Hat.
    pose proof (connect_addr_no_Panic now a self) as Hnp.
    destruct (connect_addr now a self).2 as [c|e|] eqn:Hr; [| |done].
    - exists i. rewrite Hat. split_and!; [lia|lia|done|]. intros j Hj. lia.
    - assert (Hhere : (connect_addr (attempts i).1 (attempts i).2 self).2 = Err e) by by rewrite Hat.
      specialize (IH (S i) (Some e) ltac:(lia)). destruct (retry n (S i) (Some e) attempts self) as [c|e'|]; [| |done].
      + destruct IH as (k & Hk & Hc & Hj). exists k. split_and!; [lia|lia|done|]. intros j Hjk.
        destruct (decide (j = i)) as [->|]; [by exists e|]. apply Hj. lia.
      + right. split; [lia|]. destruct IH as [[-> ->]|(Hn & Hlast & Hj)].
        * replace (i + 1 - 1)%nat with i by lia. split; [done|]. intros j Hjk. assert (j = i) as -> by lia. by exists e.
        * replace (i + S n - 1)%nat with (S i + n - 1)%nat by lia. split; [done|]. intros j Hjk.
          destruct (decide (j = i)) as [->|]; [by exists e|]. apply Hj. lia. }
  specialize (Hgen (Z.to_nat max_attempts) 1%nat None ltac:(lia)).
  destruct (retry _ _ _ _ _) as [c|e|]; [| |done].
  - destruct Hgen as (k & Hk & Hc & Hj). exists k. split_and!; [lia|lia|done..].
  - destruct Hgen as [[Hn ->]|(Hn & Hlast & Hj)]; [left; split; [lia|done]|right]. split; [lia|].
    replace (1 + Z.to_nat max_attempts - 1)%nat with (Z.to_nat max_attempts) in Hlast by lia. split; [done|]. intros j Hjk. apply Hj. lia.
Qed.
End theorems.

(** ** Concrete runs *)

Module Examples.
#[local] Existing Instance Certificates.Examples.x509.
#[local] Instance hello_codec : Message Hello.
Proof.
  refine (@Framing.Examples.via _ _ (Framing.Examples.bit_codec (string * list byte * string * list string * option (Z * Z)))
    (λ m, (hello_version m, hello_device_id m, hello_device_name m, hello_capabilities m, hello_timestamp m))
    (λ '(a, b, c, d, e), Build_Hello a b c d e) _). by intros [].
Defined.
(** A TLS handshake that asks the verifier. *)
Definition rustls (v : CertificateVerifier) (chain : list (list byte)) (t : Z) : bool :=
  match chain with
  | [] => false
  | cert :: rest => match verify_client_cert v cert rest t with Ok tt => true | _ => false end
  end.
Lemma rustls_asks v chain t : rustls v chain t = true → ∃ cert rest, chain = cert :: rest ∧ verify_client_cert v cert rest t = Ok tt.
Proof.
  destruct chain as [|cert rest]; [done|]. cbn. destruct (verify_client_cert v cert rest t) as [[]| |] eqn:Hv; [|done..].
  intros _. by exists cert, rest.
Qed.

Definition laptop_id : list byte := device_id Identity.Examples.laptop.
Definition phone_id : list byte := repeat x07 32.
Definition from_phone : Framing.Connection :=
  {| alive := true; outgoing := []; incoming := [hello_stream (greeting (0, 0) phone_id "phone")] |}.
Definition silent : Framing.Connection := {| alive := true; outgoing := []; incoming := [] |}.
Definition certificate : list byte := Certificates.Examples.made 1000 "phone" (Certificates.Examples.key x01).
Definition started : QuicServer := (start (λ _ _, true) true 1000 (Certificates.Examples.key x05) true
  (server_new Identity.Examples.laptop Certificates.Examples.knows_phone QuicConfig_default)).1.

Definition hears (h : Hello) : Conn := conn_new {| alive := true; outgoing := []; incoming := [hello_stream h] |}.
Lemma handshake_introduces_witness : ∃ c' s',
  client_handshake (0, 0) laptop_id "laptop" (hears (greeting (1, 0) phone_id "phone")) = (c', Ok tt) ∧
  server_handshake (1, 0) phone_id "phone" (hears (greeting (0, 0) laptop_id "laptop")) = (s', Ok tt) ∧
  remote_device_id c' = Some phone_id ∧ remote_device_id s' = Some laptop_id.
Proof.
  destruct (handshake_introduces (0, 0) (1, 0) laptop_id "laptop" phone_id "phone"
    (hears (greeting (1, 0) phone_id "phone")) (hears (greeting (0, 0) laptop_id "laptop"))) as (c' & s' & Hc & Hs & _ & _ & Hid & _ & Hid' & _);
    [vm_compute; reflexivity|reflexivity|reflexivity|reflexivity|vm_compute; discriminate|vm_compute; discriminate|reflexivity|reflexivity|].
  exists c', s'. exact (conj Hc (conj Hs (conj Hid Hid'))).
Defined.

(** A peer without a certificate, one that says nothing, and the phone, twice; the first connection of the phone is
    closed later. *)
Definition evening : list Event :=
  [Accepting 2000 (0, 0) (Arrives 1 [] from_phone); Accepting 2001 (0, 0) (Arrives 2 [certificate] silent);
   Accepting 2002 (0, 0) (Arrives 3 [certificate] from_phone); Closed 2;
   Accepting 2003 (0, 0) (Arrives 4 [certificate] from_phone); Closed 3].
Lemma server_outlives_its_peers_witness : ∃ s' handled, run rustls evening started [] = (s', handled, true) ∧
  map fst (connections s') = [4%nat].
Proof.
  destruct (server_outlives_its_peers rustls evening started) as (s' & handled & Hr & _ & Hc & _);
    [vm_compute; discriminate|repeat constructor; discriminate|intros id _; by intros ?%elem_of_nil|].
  exists s', handled. split; [exact Hr|]. rewrite Hc. by vm_compute.
Defined.

(** The phone's certificate, and a greeting in the name of another device. *)
Lemma greeting_decides_who_the_peer_is_witness : ∃ s' c,
  accept rustls 2000 (0, 0) (Arrives 1 [certificate]
    {| alive := true; outgoing := []; incoming := [hello_stream (greeting (0, 0) (repeat x09 32) "tablet")] |}) started = (s', Ok (1%nat, c)) ∧
  remote_device_id c = Some (repeat x09 32).
Proof.
  refine (proj2 (greeting_decides_who_the_peer_is rustls 2000 (0, 0) (0, 0) started 1 [certificate] (repeat x09 32) "tablet" rustls_asks _ _ _ _ _ _ _) _);
    [vm_compute; discriminate|vm_compute; reflexivity|reflexivity|vm_compute; discriminate|reflexivity|reflexivity|vm_compute; discriminate|vm_compute; reflexivity].
Defined.
End Examples.
