(* ===== verification/SyncTransport.v ===== *)
(** Synchronisation over QUIC: landro-sync/src/quic_integration.rs.

    [QuicSyncTransport] runs sessions of [SyncSession] over a connection of [Handshake],
    sends chunks with [StreamTransfer] and keeps a record of each session with
    [Persistence]. A wait that nothing ends is the error [Waiting]; the connection holds
    the streams the peer has sent or will send. The new ids and the times are arguments. *)

From S2P Require Import Prelude Bytes CasInterface Manifest Proto Framing Handshake Diff SyncSession Persistence StreamTransfer.
From Stdlib Require Import Init.Byte ZArith Lia.
From stdpp Require Import base option list gmap sets strings pretty numbers sorting.
Open Scope Z_scope.

Inductive TransportError :=
  | SessionError (e : SyncSession.SyncError)
  | SessionEnded (reason : string)
  | PersistenceError (e : PersistError)
  | ProtocolError (what : string)
  | NetworkError (what : string)
  | Waiting.

Record TransferManager := { tm_flow : FlowController; tm_scheduler : PriorityScheduler }.
Record Transport {Store : Type} := {
  connection : Conn;
  transfer_manager : TransferManager;
  active_sessions : gmap string (SyncSession Store);
  content : Store;
  persistence : SyncPersistenceManager;
}.
Arguments Transport Store : clear implicits.

Section transport.
Context {Store : Type} `{MapIter, Hex, Blake3, !ContentStore Store, SessionJson}.
Context `{Message Hello, Message FolderSummary, Message ManifestMsg, Message Want, Message ChunkData}.
Context (from_timestamp : Z → Z → option DateTime) (db_accepts : SyncSession.PeerSyncState → bool) (scaled : Z → Z * Z → Z).
Context (checked : bool).

Abbreviation transport := (Transport Store).
(** A session that runs on the transport. *)
Abbreviation running := (Transport Store * SyncSession Store)%type.
Abbreviation on_transport := (st (Transport Store) TransportError).
Abbreviation flow_of := (st (Transport Store * SyncSession Store) TransportError).

Definition set_connection (c : Conn) (s : transport) : transport :=
  {| connection := c; transfer_manager := transfer_manager s; active_sessions := active_sessions s; content := content s; persistence := persistence s |}.
Definition set_transfer_manager (m : TransferManager) (s : transport) : transport :=
  {| connection := connection s; transfer_manager := m; active_sessions := active_sessions s; content := content s; persistence := persistence s |}.
Definition set_active (x : gmap string (SyncSession Store)) (s : transport) : transport :=
  {| connection := connection s; transfer_manager := transfer_manager s; active_sessions := x; content := content s; persistence := persistence s |}.
Definition set_persistence (x : SyncPersistenceManager) (s : transport) : transport :=
  {| connection := connection s; transfer_manager := transfer_manager s; active_sessions := active_sessions s; content := content s; persistence := x |}.

(** Calls of the parts. *)
Definition on_persistence {A} (m : st SyncPersistenceManager PersistError A) : on_transport A := λ s,
  let '(p, r) := m (persistence s) in (set_persistence p s, map_err PersistenceError r).
Definition on_connection {A} (what : string) (m : st Conn Stop A) : flow_of A := λ '(t, x),
  let '(c, r) := m (connection t) in
  ((set_connection c t, x), map_err (λ e, match e with Handshake.Failed _ => NetworkError what | Handshake.Pending => Waiting end) r).
Definition in_session {A} (m : st (SyncSession Store) SyncSession.SyncError A) : flow_of A := λ '(t, x),
  let '(x, r) := m x in ((t, x), map_err SessionError r).
Definition in_transport {A} (m : on_transport A) : flow_of A := λ '(t, x),
  let '(t, r) := m t in ((t, x), r).

Definition new (config : SyncPersistenceConfig) (dir : gmap string StateFile) (c : Conn) (cas : Store) : outcome TransportError transport :=
  let '(p, r) := manager_new config dir in
  _ ← map_err PersistenceError r;
  mret {| connection := c;
          transfer_manager := {| tm_flow := flow_new scaled file_sync_optimized;
                                 tm_scheduler := scheduler_new (enable_stream_priority file_sync_optimized) |};
          active_sessions := ∅; content := cas; persistence := p |}.

(** ** Messages *)

Definition frame {T} `{Message T} (t : MessageType) (m : T) : list byte :=
  [byte_of (as_u8 t)] ++ be_bytes 4 (wrap 32 (zlen (Framing.encode m))) ++ Framing.encode m.
Definition send_message {T} `{Message T} (t : MessageType) (m : T) : flow_of unit :=
  on_connection "Failed to open stream" (_ ← open_uni; finish (frame t m)).
Definition parse_message (T : Type) `{Message T} (expected : MessageType) (s : list byte) : outcome TransportError T :=
  '(msg_type, s) ← ok_or (NetworkError "Failed to read message type") (read_exact 1 s);
  _ ← fail_if (negb (be_value msg_type =? as_u8 expected)) (ProtocolError "Expected message type");
  '(len_bytes, s) ← ok_or (NetworkError "Failed to read message length") (read_exact 4 s);
  '(buf, _) ← ok_or (NetworkError "Failed to read message data") (read_exact (Z.to_nat (be_value len_bytes)) s);
  ok_or (ProtocolError "Failed to decode message") (Framing.decode buf).
Definition receive_message (T : Type) `{Message T} (expected : MessageType) : flow_of T :=
  s ← on_connection "Failed to accept stream" accept_uni;
  lift (parse_message T expected s).

(** ** Chunks *)

(** The placeholder. *)
Definition load_chunk_from_cas (hash : list byte) : outcome TransportError (list byte) := Ok (replicate 1024 x00).
Definition chunk_messages (hashes : list (list byte)) : list ChunkData :=
  omap (λ hash, match load_chunk_from_cas hash with
    | Ok data => Some {| cd_hash := hash; cd_data := data; cd_compressed := false; cd_uncompressed_size := 0 |}
    | _ => None
    end) hashes.
(** [turns]: those of the loop of [stream_chunks] and of its tasks until it returns. *)
Definition transfer_chunks (turns : list Turn) (hashes : list (list byte)) : flow_of Streaming := λ '(t, x),
  let m := transfer_manager t in
  let '(p, r) := stream_chunks file_sync_optimized (chunk_messages hashes) 128 (tm_flow m) (tm_scheduler m) in
  match r with
  | Ok s =>
      let s := StreamTransfer.run file_sync_optimized turns s in
      ((set_transfer_manager {| tm_flow := flow s; tm_scheduler := p |} t, x),
       match remaining s with [] => Ok s | _ => Err Waiting end)
  | Err e => ((set_transfer_manager {| tm_flow := tm_flow m; tm_scheduler := p |} t, x), Err (NetworkError "Failed to stream chunks"))
  | Panic => ((set_transfer_manager {| tm_flow := tm_flow m; tm_scheduler := p |} t, x), Panic)
  end.

(** Errors are only logged. *)
Definition logged (m : flow_of unit) : flow_of unit := λ s,
  let '(s, r) := m s in (s, match r with Err _ => Ok tt | _ => r end).
(** The key under which the progress of a session is recorded. *)
Definition progress_key (x : SyncSession Store) : string := "sync_" +:+ SyncSession.peer_id x.
(** The task that receives the results. *)
Definition process_result (now : DateTime) (r : TransferResult) : flow_of unit :=
  self ← get_st;
  let k := progress_key self.2 in
  let hash := hex_encode (chunk_hash r) in
  if success r then
    _ ← logged (in_transport (on_persistence (mark_chunk_completed checked now k hash (zlen (chunk_hash r)))));
    logged (in_session (handle_ack db_accepts now {| ack_request_id := hash; ack_success := true; ack_message := "Chunk received" |}))
  else logged (in_transport (on_persistence (mark_chunk_failed now k hash))).
(** Whether the task is still alive. *)
Fixpoint process_results (now : DateTime) (rs : list TransferResult) (s : running) : running * bool :=
  match rs with
  | [] => (s, true)
  | r :: rs => match process_result now r s with (s, Panic) => (s, false) | (s, _) => process_results now rs s end
  end.
(** One look a second, with the results that arrive between the looks. *)
Fixpoint monitor_transfer_progress (alive : bool) (seconds : list (DateTime * list TransferResult)) : flow_of unit := λ s,
  match SyncSession.state s.2 with
  | SessionCompleted => (s, Ok tt)
  | SessionFailed reason => (s, Err (SessionEnded reason))
  | _ =>
      match seconds with
      | [] => (s, Err Waiting)
      | (now, rs) :: seconds =>
          let '(s, alive) := if alive then process_results now rs s else (s, false) in
          monitor_transfer_progress alive seconds s
      end
  end.

(** ** Sessions *)

Definition handle_sync_flow (now : DateTime) (turns : list Turn) (seconds : list (DateTime * list TransferResult)) : flow_of unit :=
  manifest ← receive_message ManifestMsg MManifest;
  want ← in_session (handle_manifest from_timestamp checked now manifest);
  _ ← send_message MWant want;
  _ ← transfer_chunks turns (want_chunk_hashes want);
  monitor_transfer_progress true seconds.
(** The greeting and the summary of the side that begins. *)
Definition opening_hello (stamp : Timestamp) : Hello :=
  {| hello_version := SESSION_PROTOCOL_VERSION; hello_device_id := repeat x00 32; hello_device_name := "landropic-client";
     hello_capabilities := ["sync.v1"]; hello_timestamp := Some stamp |}.
Definition opening_summary (stamp : Timestamp) (folder_path : string) : FolderSummary :=
  {| fs_folder_id := folder_path; fs_folder_path := folder_path; fs_manifest_hash := repeat x00 32; fs_total_size := 0;
     fs_file_count := 0; fs_last_modified := Some stamp |}.
Definition initiate_sync (now : DateTime) (stamp : Timestamp) (folder_path : string) (turns : list Turn)
    (seconds : list (DateTime * list TransferResult)) : flow_of unit :=
  _ ← send_message MHello (opening_hello stamp);
  response ← receive_message Hello MHello;
  _ ← in_session (handle_hello stamp response);
  _ ← send_message MFolderSummary (opening_summary stamp folder_path);
  handle_sync_flow now turns seconds.
Definition respond_to_sync (now : DateTime) (stamp : Timestamp) (turns : list Turn)
    (seconds : list (DateTime * list TransferResult)) : flow_of unit :=
  hello ← receive_message Hello MHello;
  response ← in_session (handle_hello stamp hello);
  _ ← send_message MHello response;
  summary ← receive_message FolderSummary MFolderSummary;
  response ← in_session (handle_folder_summary checked now stamp summary);
  _ ← send_message MFolderSummary response;
  handle_sync_flow now turns seconds.

(** [hex::encode(&device_id[..8.min(device_id.len())])]. *)
Definition short_id (device_id : list byte) : string := hex_encode (take 8 device_id).
(** A session that is entered under [k] and shared with the code that runs it. *)
Definition run_session (k : string) (session : SyncSession Store) (m : flow_of unit) : on_transport unit := λ s,
  let '((s, session), r) := m (s, session) in (set_active (<[k := session]> (active_sessions s)) s, r).
(** [uuid] is drawn; [opened]: whether the database in memory can be opened. *)
Definition start_sync (now : DateTime) (stamp : Timestamp) (opened : bool) (uuid folder_path : string) (is_initiator : bool) (turns : list Turn)
    (seconds : list (DateTime * list TransferResult)) : on_transport string :=
  self ← get_st;
  device_id ← lift (ok_or (ProtocolError "No remote device ID") (remote_device_id (connection self)));
  let device_name := default "Unknown"%string (remote_device_name (connection self)) in
  _ ← lift (fail_if (negb opened) (SessionError (SyncSession.StorageError "Failed to create database")));
  let session := SyncSession.new now (short_id device_id) device_name (content self) in
  let k := "sync_" +:+ uuid in
  _ ← modify_st (λ s, set_active (<[k := session]> (active_sessions s)) s);
  _ ← on_persistence (start_session (session_new now k (short_id device_id) folder_path));
  _ ← run_session k session
        (if is_initiator then initiate_sync now stamp folder_path turns seconds else respond_to_sync now stamp turns seconds);
  mret k.

Definition resume_sync (now : DateTime) (session_id : string) (turns : list Turn) : on_transport unit :=
  self ← get_st;
  persisted ← lift (ok_or (ProtocolError "No persisted session found") (get_session session_id (persistence self)));
  _ ← lift (fail_if (negb (can_resume persisted)) (ProtocolError "cannot be resumed"));
  let session := SyncSession.new now (Persistence.peer_id persisted) "Resumed" (content self) in
  _ ← modify_st (λ s, set_active (<[session_id := session]> (active_sessions s)) s);
  let chunk_hashes := omap hex_decode (set_iter (pending_chunks persisted ∪ failed_chunks persisted)) in
  match chunk_hashes with
  | [] => mret tt
  | _ => run_session session_id session (_ ← transfer_chunks turns chunk_hashes; mret tt)
  end.
Definition get_resumable (self : transport) : list PersistedSyncSession := get_resumable_sessions (persistence self).
Definition complete_sync (now : DateTime) (session_id : string) : on_transport unit :=
  _ ← on_persistence (complete_session now session_id);
  modify_st (λ s, set_active (base.delete session_id (active_sessions s)) s).
Definition interrupt_sync (now : DateTime) (session_id : string) : on_transport unit :=
  _ ← on_persistence (interrupt_session now session_id);
  modify_st (λ s, set_active (base.delete session_id (active_sessions s)) s).
Definition get_stats (session_id : string) (self : transport) : option TransferStats :=
  SyncSession.stats <$> active_sessions self !! session_id.
End transport.

(** ** Lemmas *)

Section lemmas.
Context {Store : Type} `{MapIter, Hex, Blake3, !ContentStore Store, SessionJson}.
Context `{Message Hello, Message FolderSummary, Message ManifestMsg, Message Want, Message ChunkData}.
Context (from_timestamp : Z → Z → option DateTime) (db_accepts : SyncSession.PeerSyncState → bool) (scaled : Z → Z * Z → Z).
Context (checked : bool).

(** What a running session does not change. *)
Definition same_record (s s' : Transport Store * SyncSession Store) : Prop := persistence s'.1 = persistence s.1.
#[local] Instance same_record_preorder : PreOrder same_record.
Proof. split; [by intros ?|]. intros a b c Hab Hbc. unfold same_record in *. by rewrite Hbc. Qed.
Abbreviation quiet := (triple (λ _, True) same_record).

(** A session that waits for the summary, or has nothing that it could ask for. *)
Definition ready (x : SyncSession Store) : Prop :=
  SyncSession.state x = Negotiating ∨
  (SyncSession.state x = ComputingDiff ∧ ∃ now folder, our_manifest x = Some (load_our_manifest now folder)).

Lemma quiet_connection {A} P what (m : st Conn Stop A) :
  quiet (λ s, P s.2) (on_connection (Store:=Store) what m) (λ _ s, P s.2).
Proof. intros [t x] _ Hp. unfold on_connection. by destruct (m (connection t)) as [c r]. Qed.
Lemma quiet_send {T} `{Message T} P t (msg : T) : quiet (λ s, P s.2) (send_message (Store:=Store) t msg) (λ _ s, P s.2).
Proof. apply quiet_connection. Qed.
Lemma quiet_receive T `{Message T} P t : quiet (λ s, P s.2) (receive_message (Store:=Store) T t) (λ _ s, P s.2).
Proof.
  eapply triple_bind; [apply _|apply (quiet_connection P)|]. intros s.
  by intros s' _ Hp.
Qed.
Lemma quiet_session {A} (P : SyncSession Store → Prop) (Q : A → SyncSession Store → Prop) (m : st (SyncSession Store) SyncSession.SyncError A) :
  (∀ x x' a, P x → m x = (x', Ok a) → Q a x') → quiet (λ s, P s.2) (in_session m) (λ a s, Q a s.2).
Proof.
  intros Hm [t x] _ Hp. unfold in_session. destruct (m x) as [x' r] eqn:Hx. cbn. split_and!; [done..|].
  destruct r as [a|e|]; [|done..]. intros a' [= <-]. by eapply Hm.
Qed.
(** Without chunks, [stream_chunks] panics. *)
Lemma quiet_transfer_none P turns : quiet P (transfer_chunks (Store:=Store) turns []) (λ _ _, False).
Proof. by intros [t x] _ Hp. Qed.

Lemma handle_hello_Ok stamp h x x' r : handle_hello (Store:=Store) stamp h x = (x', Ok r) → SyncSession.state x' = Negotiating.
Proof. unfold handle_hello, mbind, st_bind, get_st, unexpected. cbn. repeat case_match; by intros [= <- <-]. Qed.
Lemma handle_folder_summary_Ok now stamp sum x x' r : handle_folder_summary (Store:=Store) checked now stamp sum x = (x', Ok r) → ready x'.
Proof.
  unfold handle_folder_summary, mbind, st_bind, get_st, unexpected, lift, modify_st, ready. cbn. case_match; [done|].
  intros [= <- <-]. right. split; [done|]. by eexists _, _.
Qed.
Lemma handle_manifest_ready now m x x' want : ready x → handle_manifest from_timestamp checked now m x = (x', Ok want) → want_chunk_hashes want = [].
Proof.
  intros [Hs|[Hs (now0 & folder & Hour)]] Hm.
  - unfold handle_manifest, mbind, st_bind, get_st, unexpected in Hm. cbn in Hm. by rewrite Hs in Hm.
  - by destruct (empty_manifest_requests_nothing from_timestamp checked now0 folder now m x x' want Hs Hour Hm).
Qed.

Lemma start_session_recorded s m : get_session (Persistence.session_id s) (start_session s m).1 = Some s.
Proof.
  unfold get_session, start_session, save_session, mbind, st_bind, modify_st, get_st, lift. cbn. rewrite lookup_insert_eq.
  destruct (to_json s); cbn; by rewrite lookup_insert_eq.
Qed.
(** However the flow goes on from such a session, it ends with an error, a panic or a wait. *)
Lemma quiet_sync_flow now turns seconds :
  quiet (λ s, ready s.2) (handle_sync_flow from_timestamp db_accepts checked now turns seconds) (λ _ _, False).
Proof.
  eapply triple_bind; [apply _|apply quiet_receive|]. intros m.
  eapply triple_bind; [apply _|eapply (quiet_session ready (λ want _, want_chunk_hashes want = []))|].
  { intros x x' want Hr Hm. by eapply handle_manifest_ready. }
  intros want. eapply triple_bind; [apply _|apply (quiet_send (λ _, want_chunk_hashes want = []))|]. intros [].
  eapply triple_bind with (Q := λ _ _, False); [apply _| |by intros a s _ ?].
  intros s _ Hw. rewrite Hw. by apply (quiet_transfer_none (λ _, True)).
Qed.
Lemma quiet_initiate now stamp folder_path turns seconds :
  quiet (λ _, True) (initiate_sync from_timestamp db_accepts checked now stamp folder_path turns seconds) (λ _ _, False).
Proof.
  eapply triple_bind; [apply _|apply (quiet_send (λ _, True))|]. intros [].
  eapply triple_bind; [apply _|apply (quiet_receive _ (λ _, True))|]. intros h.
  eapply triple_bind; [apply _|apply (quiet_session (λ _, True) (λ _, ready))|].
  { intros x x' a _ Hh. left. by eapply handle_hello_Ok. }
  intros r. eapply triple_bind; [apply _|apply (quiet_send ready)|]. intros []. apply quiet_sync_flow.
Qed.
Lemma quiet_respond now stamp turns seconds :
  quiet (λ _, True) (respond_to_sync from_timestamp db_accepts checked now stamp turns seconds) (λ _ _, False).
Proof.
  eapply triple_bind; [apply _|apply (quiet_receive _ (λ _, True))|]. intros h.
  eapply triple_bind; [apply _|by apply (quiet_session (λ _, True) (λ _ _, True))|]. intros r.
  eapply triple_bind; [apply _|apply (quiet_send (λ _, True))|]. intros [].
  eapply triple_bind; [apply _|apply (quiet_receive _ (λ _, True))|]. intros sum.
  eapply triple_bind; [apply _|apply (quiet_session (λ _, True) (λ _, ready))|].
  { intros x x' a _ Hh. by eapply handle_folder_summary_Ok. }
  intros r'. eapply triple_bind; [apply _|apply (quiet_send ready)|]. intros []. apply quiet_sync_flow.
Qed.
End lemmas.

(** ** Theorems *)

Section theorems.
Context {Store : Type} `{MapIter, Hex, Blake3, !ContentStore Store, SessionJson}.
Context `{Message Hello, Message FolderSummary, Message ManifestMsg, Message Want, Message ChunkData}.
Context (from_timestamp : Z → Z → option DateTime) (db_accepts : SyncSession.PeerSyncState → bool) (scaled : Z → Z * Z → Z).
Context (checked : bool).
Abbreviation start_sync := (start_sync (Store:=Store) from_timestamp db_accepts checked).

Lemma start_sync_outcome now stamp opened uuid folder_path is_initiator turns seconds (self self' : Transport Store) r d :
  remote_device_id (connection self) = Some d →
  start_sync now stamp opened uuid folder_path is_initiator turns seconds self = (self', r) →
  let k := "sync_" +:+ uuid in
  (∀ a, r ≠ Ok a) ∧ if opened then is_Some (active_sessions self' !! k) ∧
  persistence self' = (start_session (session_new now k (short_id d) folder_path) (persistence self)).1
  else self' = self.
Proof.
  intros Hd Hs k. unfold SyncTransport.start_sync, mbind, st_bind, get_st, modify_st, lift, on_persistence in Hs. rewrite Hd in Hs. cbn in Hs. fold k in Hs.
  destruct opened; cbn in Hs; [|by injection Hs as <- <-].
  destruct (start_session _ (persistence self)) as [p [u|e|]] eqn:Hp; cbn in Hs; [|injection Hs as <- <-; cbn; rewrite lookup_insert_eq; by split_and!..].
  unfold run_session in Hs. set (x := SyncSession.new _ _ _ _) in Hs. set (t := set_persistence p _) in Hs.
  set (m := if is_initiator then _ else _) in Hs.
  assert (Hq : triple (λ _, True) same_record (λ _, True) m (λ _ _, False)) by (destruct is_initiator; [apply quiet_initiate|apply quiet_respond]).
  destruct (Hq (t, x) I I) as (_ & Hsame & Hno). destruct (m (t, x)) as [[t' x'] r']. cbn in Hsame, Hno. unfold same_record in Hsame. cbn in Hsame.
  assert (Hf : persistence (set_active (<[k:=x']> (active_sessions t')) t') = p) by done.
  destruct r' as [u'|e|]; [by destruct (Hno u')| |]; injection Hs as <- <-; cbn; rewrite lookup_insert_eq; by split_and!.
Qed.

(** Calls of a transport. *)
Inductive Call :=
  | StartSync (now : DateTime) (stamp : Timestamp) (opened : bool) (uuid folder_path : string) (is_initiator : bool) (turns : list Turn)
      (seconds : list (DateTime * list TransferResult))
  | ResumeSync (now : DateTime) (session_id : string) (turns : list Turn)
  | CompleteSync (now : DateTime) (session_id : string)
  | InterruptSync (now : DateTime) (session_id : string).
Definition call (c : Call) (self : Transport Store) : Transport Store :=
  match c with
  | StartSync now stamp opened uuid folder_path is_initiator turns seconds =>
      (start_sync now stamp opened uuid folder_path is_initiator turns seconds self).1
  | ResumeSync now k turns => (resume_sync now k turns self).1
  | CompleteSync now k => (complete_sync now k self).1
  | InterruptSync now k => (interrupt_sync now k self).1
  end.
Definition calls (cs : list Call) (self : Transport Store) : Transport Store := foldl (λ s c, call c s) self cs.

(** No record has a chunk to resume with. *)
Definition nothing_pending (m : SyncPersistenceManager) : Prop := ∀ k s, sessions m !! k = Some s → pending_chunks s = ∅.
Lemma nothing_pending_save k : keeps nothing_pending (save_session k) (λ _, True).
Proof.
  eapply keeps_bind; [apply keeps_get|]. intros m _. destruct (sessions m !! k); [|by apply keeps_ret].
  eapply keeps_bind; [apply keeps_lift|]. intros j _. by apply keeps_modify.
Qed.
Lemma nothing_pending_update k f : (∀ s, pending_chunks s = ∅ → pending_chunks (f s) = ∅) → keeps nothing_pending (update_session k f) (λ _, True).
Proof.
  intros Hf. apply keeps_modify. intros m Hm k' s Hs. cbn in Hs. apply lookup_alter_Some in Hs as [(<- & s0 & Hs & ->)|[_ Hs]]; [|by eapply Hm].
  apply Hf. by eapply Hm.
Qed.
Lemma nothing_pending_start s : pending_chunks s = ∅ → keeps nothing_pending (start_session s) (λ _, True).
Proof.
  intros Hs. eapply keeps_bind; [apply keeps_modify|].
  { intros m Hm k s' Hk. cbn in Hk. apply lookup_insert_Some in Hk as [[_ <-]|[_ Hk]]; [done|]. by eapply Hm. }
  intros _ _. eapply keeps_bind; [by apply keeps_modify|]. intros _ _. apply nothing_pending_save.
Qed.
Lemma nothing_pending_interrupt now k : keeps nothing_pending (interrupt_session now k) (λ _, True).
Proof.
  eapply keeps_bind; [apply keeps_get|]. intros m _. destruct (sessions m !! k); [|by apply keeps_ret].
  eapply keeps_bind; [by apply nothing_pending_update|]. intros _ _. apply nothing_pending_save.
Qed.
Lemma nothing_pending_complete now k : keeps nothing_pending (complete_session now k) (λ _, True).
Proof.
  eapply keeps_bind; [apply keeps_get|]. intros m _. eapply keeps_bind with (Q := λ _, True); [|by intros; apply keeps_modify].
  destruct (sessions m !! k); [|by apply keeps_ret].
  eapply keeps_bind; [by apply nothing_pending_update|]. intros _ _. apply nothing_pending_save.
Qed.
Lemma resume_refused now k turns (self : Transport Store) : nothing_pending (persistence self) →
  ∃ e, resume_sync now k turns self = (self, Err e).
Proof.
  intros Hm. unfold resume_sync, mbind, st_bind, get_st, lift, get_session. destruct (sessions (persistence self) !! k) as [s|] eqn:Hs; [|by eexists].
  assert (can_resume s = false) as Hc; [|cbn; rewrite Hc; by eexists].
  unfold can_resume. rewrite (Hm k s Hs). by destruct (status s).
Qed.
Lemma call_nothing_pending c (self : Transport Store) : nothing_pending (persistence self) → nothing_pending (persistence (call c self)).
Proof.
  intros Hm. destruct c as [now stamp opened uuid folder_path i turns seconds|now k turns|now k|now k]; cbn [call].
  - destruct (remote_device_id (connection self)) as [d|] eqn:Hd.
    + destruct (start_sync _ _ _ _ _ _ _ _ _) as [self' r] eqn:Hs. cbn [fst]; destruct (start_sync_outcome _ _ _ _ _ _ _ _ _ _ _ _ Hd Hs) as (_ & Ho).
      destruct opened; [destruct Ho as [_ ->]|by subst].
      by apply (keeps_state nothing_pending _ (λ _, True)); [apply nothing_pending_start|].
    + unfold SyncTransport.start_sync, mbind, st_bind, get_st, lift. by rewrite Hd.
  - by destruct (resume_refused now k turns self Hm) as [e ->].
  - unfold complete_sync, mbind, st_bind, on_persistence. pose proof (keeps_state _ _ _ _ (nothing_pending_complete now k) Hm) as Hp.
    by destruct (complete_session now k (persistence self)) as [p []].
  - unfold interrupt_sync, mbind, st_bind, on_persistence. pose proof (keeps_state _ _ _ _ (nothing_pending_interrupt now k) Hm) as Hp.
    by destruct (interrupt_session now k (persistence self)) as [p []].
Qed.

(** C39: Starting a synchronisation never succeeds, on either side and whatever the peer sends: it ends with an error, a
    panic, or waits for ever. The session is left in the table of active ones and its record says that it is active, unless
    the database in memory could not be opened, which changes nothing. *)
Theorem start_sync_never_succeeds now stamp opened uuid folder_path is_initiator turns seconds (self self' : Transport Store) r d :
  remote_device_id (connection self) = Some d →
  start_sync now stamp opened uuid folder_path is_initiator turns seconds self = (self', r) →
  let k := "sync_" +:+ uuid in
  (∀ a, r ≠ Ok a) ∧
  if opened then is_Some (active_sessions self' !! k) ∧
    get_session k (persistence self') = Some (session_new now k (short_id d) folder_path)
  else self' = self.
Proof.
  intros Hd Hs k. destruct (start_sync_outcome _ _ _ _ _ _ _ _ _ _ _ _ Hd Hs) as (Hno & Ho). split; [done|].
  destruct opened; [destruct Ho as [Hact Hp]; split; [done|]|done].
  rewrite Hp. apply (start_session_recorded (session_new now k (short_id d) folder_path)).
Qed.

(** What the handlers of a session answer to the messages of [initiate_sync]. *)
Definition reply_hello (stamp : Timestamp) : Hello :=
  {| hello_version := SESSION_PROTOCOL_VERSION; hello_device_id := repeat x00 32; hello_device_name := "landropic";
     hello_capabilities := ["sync.v1"; "incremental.v1"; "compression.zstd"]; hello_timestamp := Some stamp |}.
Definition reply_summary (stamp : Timestamp) (folder : string) : FolderSummary :=
  {| fs_folder_id := folder; fs_folder_path := "/sync"; fs_manifest_hash := []; fs_total_size := 0; fs_file_count := 0; fs_last_modified := Some stamp |}.
Lemma handle_hello_new stamp h (x : SyncSession Store) : SyncSession.state x = Initializing → hello_version h = SESSION_PROTOCOL_VERSION →
  handle_hello stamp h x = (set_state Negotiating x, Ok (reply_hello stamp)).
Proof. intros Hs Hv. unfold handle_hello, mbind, st_bind, get_st. by rewrite Hs, Hv. Qed.
Lemma handle_summary_new now stamp stamp' folder (x : SyncSession Store) : SyncSession.state x = Negotiating →
  handle_folder_summary checked now stamp (opening_summary stamp' folder) x =
    (set_state ComputingDiff (set_our_manifest (load_our_manifest now folder) x), Ok (reply_summary stamp folder)).
Proof. intros Hs. unfold handle_folder_summary, mbind, st_bind, get_st. by rewrite Hs. Qed.
Lemma parse_frame T `{Message T} t (m : T) : zlen (Framing.encode m) < 2 ^ 32 → parse_message T t (frame t m) = Ok m.
Proof.
  intros Hl. pose proof (zlen_nonneg (Framing.encode m)). unfold parse_message, frame. rewrite wrap_small by lia.
  rewrite read_exact_app by done. cbn [ok_or mbind outcome_bind]. rewrite be_value_byte, byte_val_of.
  replace (wrap 8 (as_u8 t)) with (as_u8 t) by (by destruct t). rewrite Z.eqb_refl. cbn [negb fail_if mbind outcome_bind].
  rewrite read_exact_app by apply be_bytes_length. cbn [ok_or mbind outcome_bind]. rewrite be_value_be_bytes by (cbn; lia).
  replace (Framing.encode m) with (Framing.encode m ++ []) at 2 by apply app_nil_r.
  rewrite read_exact_app by (unfold zlen; lia). cbn [ok_or mbind outcome_bind]. by rewrite Framing.decode_encode.
Qed.
Lemma parse_other T `{Message T} T' `{Message T'} t t' (m : T') : t ≠ t' →
  parse_message T t (frame t' m) = Err (ProtocolError "Expected message type").
Proof. intros Ht. unfold parse_message, frame. rewrite read_exact_app by done. cbn [ok_or mbind outcome_bind]. rewrite be_value_byte, byte_val_of. by destruct t, t'. Qed.

Definition talks (out inc : list (list byte)) (self : Transport Store) : Transport Store :=
  set_connection {| link := {| alive := true; outgoing := out; incoming := inc |}; remote_device_id := remote_device_id (connection self);
    remote_device_name := remote_device_name (connection self); closed_with := closed_with (connection self) |} self.
Lemma send_talks {T} `{Message T} t (m : T) out inc self (x : SyncSession Store) :
  send_message t m (talks out inc self, x) = ((talks (out ++ [frame t m]) inc self, x), Ok tt).
Proof. done. Qed.
Lemma receive_talks T `{Message T} t m out inc self (x : SyncSession Store) :
  receive_message T t (talks out (m :: inc) self, x) = ((talks out inc self, x), parse_message T t m).
Proof. done. Qed.
Lemma receive_blocks T `{Message T} t out self (x : SyncSession Store) :
  receive_message T t (talks out [] self, x) = ((talks out [] self, x), Err Waiting).
Proof. done. Qed.

(** Two devices that synchronise with each other, one as the initiator: the greetings and the summaries are
    exchanged, then the initiator takes the summary for a manifest and fails, and the other side waits for a manifest
    for ever. *)
Theorem both_sides_wait_for_a_manifest now now' stamp stamp' folder turns turns' seconds seconds' (ti tr : Transport Store) xi xr :
  SyncSession.state xi = Initializing → SyncSession.state xr = Initializing →
  zlen (Framing.encode (opening_hello stamp)) < 2 ^ 32 → zlen (Framing.encode (reply_hello stamp')) < 2 ^ 32 →
  zlen (Framing.encode (opening_summary stamp folder)) < 2 ^ 32 →
  ∃ of_initiator of_responder xi' xr',
    initiate_sync from_timestamp db_accepts checked now stamp folder turns seconds (talks [] of_responder ti, xi) =
      ((talks of_initiator [] ti, xi'), Err (ProtocolError "Expected message type")) ∧
    respond_to_sync from_timestamp db_accepts checked now' stamp' turns' seconds' (talks [] of_initiator tr, xr) =
      ((talks of_responder [] tr, xr'), Err Waiting) ∧
    length of_initiator = 2%nat ∧ length of_responder = 2%nat.
Proof.
  intros Hi Hr Hl1 Hl2 Hl3.
  exists [frame MHello (opening_hello stamp); frame MFolderSummary (opening_summary stamp folder)],
    [frame MHello (reply_hello stamp'); frame MFolderSummary (reply_summary stamp' folder)].
  do 2 eexists. split_and!; [| |done..].
  - unfold initiate_sync, handle_sync_flow, in_session, mbind, st_bind. rewrite send_talks, receive_talks, parse_frame by done.
    cbv beta iota. rewrite handle_hello_new by done. cbn [map_err]. rewrite send_talks, receive_talks, parse_other by done. done.
  - unfold respond_to_sync, handle_sync_flow, in_session, mbind, st_bind. rewrite receive_talks, parse_frame by done.
    rewrite handle_hello_new by done. cbn [map_err]. rewrite send_talks, receive_talks, parse_frame by done.
    rewrite handle_summary_new by done. cbn [map_err]. by rewrite send_talks, receive_blocks.
Qed.

(** A transport that begins with an empty state directory never has a session that can be resumed, whatever is called:
    nothing enters pending chunks into a record. *)
Theorem nothing_is_ever_resumed cfg conn cas self0 cs : new scaled cfg ∅ conn cas = Ok self0 →
  let self := calls cs self0 in
  get_resumable self = [] ∧ ∀ now k turns, ∃ e, resume_sync now k turns self = (self, Err e).
Proof.
  intros Hn self. assert (Hp : nothing_pending (persistence self)).
  { subst self. assert (Hp0 : nothing_pending (persistence self0)).
    { unfold new, manager_new, load_sessions, modify_st in Hn. cbn in Hn. injection Hn as <-. intros k s Hs. cbn in Hs.
      by rewrite map_iter_empty in Hs. }
    clear Hn. revert self0 Hp0. induction cs as [|c cs IH]; intros self0 Hp0; [done|]. by apply IH, call_nothing_pending. }
  split; [|by intros; apply resume_refused]. unfold get_resumable, get_resumable_sessions.
  assert (Hall : Forall (λ s, can_resume s = false) (map snd (map_iter (sessions (persistence self))))).
  { apply List.Forall_forall. intros s [[k s'] [<- Hin]]%List.in_map_iff. apply list_elem_of_In, elem_of_map_iter in Hin.
    unfold can_resume. cbn. rewrite (Hp _ _ Hin). by destruct (status s'). }
  induction Hall as [|s l Hs _ IH]; [done|]. cbn. by rewrite Hs.
Qed.

Lemma handle_ack_peer now a (x : SyncSession Store) : SyncSession.peer_id (handle_ack db_accepts now a x).1 = SyncSession.peer_id x.
Proof.
  unfold handle_ack, update_peer_state, mbind, st_bind, get_st, modify_st, lift, mret, st_ret. case_bool_decide; [|done].
  destruct (verify_transfer x); [|done]. cbn. by destruct (db_accepts _).
Qed.
Lemma mark_completed_absent now k hash n m : sessions m !! k = None → mark_chunk_completed checked now k hash n m = (m, Ok tt).
Proof. intros Hk. unfold mark_chunk_completed, mbind, st_bind, get_st. by rewrite Hk. Qed.
Lemma mark_failed_absent now k hash m : sessions m !! k = None → mark_chunk_failed now k hash m = (m, Ok tt).
Proof. intros Hk. unfold mark_chunk_failed, mbind, st_bind, get_st. by rewrite Hk. Qed.
Lemma process_result_absent now r (self : Transport Store) x : sessions (persistence self) !! progress_key x = None →
  let s := (process_result db_accepts checked now r (self, x)).1 in
  persistence s.1 = persistence self ∧ progress_key s.2 = progress_key x.
Proof.
  intros Hk. unfold process_result, logged, in_transport, on_persistence, in_session, mbind, st_bind, get_st. cbn [snd fst].
  destruct (success r); [rewrite mark_completed_absent by done|by rewrite mark_failed_absent by done].
  cbn [map_err]. set (a := {| ack_request_id := _; ack_success := _; ack_message := _ |}).
  pose proof (handle_ack_peer now a x) as Hp. destruct (handle_ack db_accepts now a x) as [x' r']. cbn in Hp |- *.
  unfold progress_key. by rewrite Hp.
Qed.

(** The progress of a transfer is recorded under a key that no record has: whatever results arrive, no record changes. *)
Theorem progress_is_not_recorded now rs (self : Transport Store) x :
  sessions (persistence self) !! progress_key x = None →
  persistence (process_results db_accepts checked now rs (self, x)).1.1 = persistence self.
Proof.
  revert self x. induction rs as [|r rs IH]; intros self x Hk; [done|]. cbn [process_results].
  destruct (process_result db_accepts checked now r (self, x)) as [[self' x'] res] eqn:Hr.
  destruct (process_result_absent now r self x Hk) as [Hs Hx]. rewrite Hr in Hs, Hx. cbn [fst snd] in Hs, Hx.
  destruct res; [..|done]; rewrite <- Hs; apply IH; by rewrite Hs, Hx.
Qed.

(** What is sent for a chunk is 1024 zero bytes under its hash: a session that receives it refuses it and stays as it
    was, unless the hash is that of the zeros. *)
Theorem sent_chunks_are_refused hashes c (x : SyncSession Store) : c ∈ chunk_messages hashes →
  blake3 (replicate 1024 x00) ≠ cd_hash c → is_transferring (SyncSession.state x) = true →
  cd_hash c ∈ hashes ∧ handle_chunk_data c x = (x, Err (ChunkHashMismatch (hex_encode (cd_hash c)))).
Proof.
  unfold chunk_messages, load_chunk_from_cas. rewrite list_elem_of_omap. intros (h & Hh & [= <-]) Hne Hx. split; [done|].
  unfold handle_chunk_data, mbind, st_bind, get_st, lift. rewrite Hx. cbn [cd_hash cd_data negb].
  by rewrite (bool_decide_eq_false_2 _ Hne).
Qed.
End theorems.

(** ** Concrete runs *)

Module Examples.
#[local] Existing Instance RefHash.hex.
#[local] Existing Instance RefHash.hash.
#[local] Existing Instance gmap_order.
Import MemoryStore.
#[local] Existing Instance memory_store.
#[local] Existing Instance Persistence.Examples.session_eq_dec.
#[local] Existing Instance Persistence.Examples.session_countable.
#[local] Instance json : SessionJson := {
  to_json s := Some (String.string_of_list_byte (Framing.Examples.bit_encode s));
  from_json t := Framing.Examples.bit_decode (String.list_byte_of_string t);
}.
#[local] Existing Instance Handshake.Examples.hello_codec.
#[local] Existing Instance Framing.Examples.summary_codec.
#[local] Existing Instance Framing.Examples.manifest_codec.
#[local] Existing Instance Framing.Examples.want_codec.
#[local] Existing Instance Framing.Examples.chunk_codec.

Definition no_time : Z → Z → option DateTime := λ _ _, None.
Definition all_fine (s : SyncSession.PeerSyncState) : bool := true.
Definition half (w : Z) (t : Z * Z) : Z := w / 2.
(** A peer that is known, with the streams it sends. *)
Definition known (inc : list (list byte)) : Conn :=
  {| link := {| alive := true; outgoing := []; incoming := inc |}; remote_device_id := Some (repeat x07 32);
     remote_device_name := Some "phone"; closed_with := None |}.
Definition fresh (inc : list (list byte)) : Transport Memory :=
  {| connection := known inc; transfer_manager := {| tm_flow := flow_new half file_sync_optimized; tm_scheduler := scheduler_new true |};
     active_sessions := ∅; content := []; persistence := {| config := SyncPersistenceConfig_default; sessions := ∅; chunk_counter := ∅; state_dir := ∅ |} |}.
Definition a_session : SyncSession Memory := SyncSession.new 0 "peer" "Peer" [].

Lemma start_sync_never_succeeds_witness :
  get_session "sync_1" (persistence (start_sync no_time all_fine true 5 (0, 0) true "1" "/docs" true [] [] (fresh [])).1) =
    Some (session_new 5 "sync_1" (short_id (repeat x07 32)) "/docs").
Proof.
  exact (proj2 (proj2 (start_sync_never_succeeds no_time all_fine true 5 (0, 0) true "1" "/docs" true [] [] (fresh []) _ _ (repeat x07 32)
    eq_refl (surjective_pairing _)))).
Defined.

Lemma both_sides_wait_for_a_manifest_witness : ∃ of_initiator of_responder xi' xr',
  initiate_sync no_time all_fine true 5 (0, 0) "/docs" [] [] (talks [] of_responder (fresh []), a_session) =
    ((talks of_initiator [] (fresh []), xi'), Err (ProtocolError "Expected message type")) ∧
  respond_to_sync no_time all_fine true 6 (1, 0) [] [] (talks [] of_initiator (fresh []), a_session) =
    ((talks of_responder [] (fresh []), xr'), Err Waiting) ∧
  length of_initiator = 2%nat ∧ length of_responder = 2%nat.
Proof.
  apply (both_sides_wait_for_a_manifest no_time all_fine true 5 6 (0, 0) (1, 0) "/docs" [] [] [] [] (fresh []) (fresh []) a_session a_session);
    [reflexivity|reflexivity|vm_compute; reflexivity|vm_compute; reflexivity|vm_compute; reflexivity].
Defined.

Lemma nothing_is_ever_resumed_witness :
  get_resumable (calls no_time all_fine true
    [StartSync 5 (0, 0) true "1" "/docs" true [] []; InterruptSync 6 "sync_1"; ResumeSync 7 "sync_1" []] (fresh [])) = [].
Proof.
  exact (proj1 (nothing_is_ever_resumed no_time all_fine half true SyncPersistenceConfig_default (known []) [] (fresh [])
    [StartSync 5 (0, 0) true "1" "/docs" true [] []; InterruptSync 6 "sync_1"; ResumeSync 7 "sync_1" []] eq_refl)).
Defined.

Lemma progress_is_not_recorded_witness :
  let r := {| chunk_hash := [x01]; success := true; bytes_transferred := 1024; error := None |} in
  let self := call no_time all_fine true (StartSync 5 (0, 0) true "1" "/docs" true [] []) (fresh []) in
  persistence (process_results all_fine true 6 [r] (self, a_session)).1.1 = persistence self.
Proof.
  apply (progress_is_not_recorded all_fine true 6 _ (call no_time all_fine true (StartSync 5 (0, 0) true "1" "/docs" true [] []) (fresh [])) a_session).
  vm_compute. reflexivity.
Defined.

Lemma sent_chunks_are_refused_witness :
  handle_chunk_data {| cd_hash := [x09]; cd_data := replicate 1024 x00; cd_compressed := false; cd_uncompressed_size := 0 |}
    (set_state (Transferring 1 0) a_session) = (set_state (Transferring 1 0) a_session, Err (ChunkHashMismatch (hex_encode [x09]))).
Proof.
  refine (proj2 (sent_chunks_are_refused [[x09]] _ (set_state (Transferring 1 0) a_session) _ _ _));
    [apply list_elem_of_here|vm_compute; discriminate|reflexivity].
Defined.
End Examples.
