(* ===== verification/Watcher.v ===== *)
(** Watching folders: landro-index/src/watcher/mod.rs, fallback.rs, legacy.rs and
    landro-daemon/src/watcher.rs.

    What the notify crate reports, and what it answers, are arguments; so are the times,
    in milliseconds, and the metadata of files. The watchers for single platforms
    (linux.rs, macos.rs, windows.rs) are switched off in mod.rs. *)

From S2P Require Import Prelude Bytes Proto Security CasInterface Manifest Indexer.
From Stdlib Require Import ZArith Lia.
From stdpp Require Import base option list gmap sets strings pretty numbers sorting.
Open Scope Z_scope.

(** ** Events: mod.rs *)

Inductive EventKind := Created | Modified | Removed | Renamed | AttributeChanged | Rescan.
#[export] Instance EventKind_eq_dec : EqDecision EventKind.
Proof. solve_decision. Defined.
Record PlatformFlags := { inotify_mask : option Z; is_directory : bool; is_symlink : bool; flag_size : option Z }.
Definition PlatformFlags_default : PlatformFlags := {| inotify_mask := None; is_directory := false; is_symlink := false; flag_size := None |}.
Record FsEvent := {
  kind : EventKind;
  event_path : Path;
  old_path : option Path;
  file_id : option Z;
  timestamp : Z;
  flags : PlatformFlags;
}.
Record WatcherCapabilities := {
  supports_rename_tracking : bool;
  supports_file_id : bool;
  max_watches : option Z;
  supports_overflow_detection : bool;
  supports_network_paths : bool;
  max_path_length : option Z;
  provides_file_size : bool;
}.
Record WatcherStats := {
  events_processed : Z;
  paths_watched : Z;
  events_queued : Z;
  at_watch_limit : bool;
  overflow_events : Z;
}.
Definition WatcherStats_default : WatcherStats :=
  {| events_processed := 0; paths_watched := 0; events_queued := 0; at_watch_limit := false; overflow_events := 0 |}.

Record EventDebouncer := { pending : gmap Path (FsEvent * Z); delay : Z }.
Definition debouncer_new (delay : Z) : EventDebouncer := {| pending := ∅; delay := delay |}.
Definition add_event (now : Z) (e : FsEvent) (self : EventDebouncer) : EventDebouncer :=
  {| pending := <[event_path e := (e, now)]> (pending self); delay := delay self |}.
(** [duration_since] is at least zero. *)
Definition is_ready (now delay : Z) (x : FsEvent * Z) : bool := delay <=? Z.max 0 (now - x.2).
Definition get_ready_events `{MapIter} (now : Z) (self : EventDebouncer) : EventDebouncer * list FsEvent :=
  ({| pending := filter (λ x, is_ready now (delay self) x.2 = false) (pending self); delay := delay self |},
   map (λ x, x.2.1) (List.filter (λ x, is_ready now (delay self) x.2) (map_iter (pending self)))).
Definition has_pending (self : EventDebouncer) : bool := negb (bool_decide (pending self = ∅)).
Definition clear (self : EventDebouncer) : EventDebouncer := {| pending := ∅; delay := delay self |}.

Record WatcherConfig := {
  debounce_delay : Z;
  recursive : bool;
  watch_ignore_patterns : list string;
  batch_size : Z;
  use_platform_optimizations : bool;
  event_buffer_size : Z;
}.
Definition WatcherConfig_default : WatcherConfig :=
  {| debounce_delay := 500; recursive := true;
     watch_ignore_patterns := [".git"; ".DS_Store"; "Thumbs.db"; "*.tmp"; "*.swp"; "*~"; ".#*"; "#*#"];
     batch_size := 100; use_platform_optimizations := true; event_buffer_size := 1000 |}.
Definition glob_match (pattern name : string) : bool := Indexer.glob_match pattern name.
Definition should_ignore_path (p : Path) (patterns : list string) : bool :=
  existsb (λ pattern, if has_star pattern then glob_match pattern (file_name p) else String.eqb (file_name p) pattern) patterns.

(** ** The watcher over notify: fallback.rs *)

(** [NotifyEventKind], as far as it is told apart. *)
Inductive NotifyKind :=
  | NCreate | NModifyData | NModifyAny | NModifyName (both : bool) | NModifyMetadata | NModifyOther | NRemove | NAny | NOther | NAccess.
Record NotifyEvent := { nkind : NotifyKind; npaths : list Path }.
Definition kind_of (k : NotifyKind) : option EventKind :=
  match k with
  | NCreate => Some Created
  | NModifyMetadata => Some AttributeChanged
  | NModifyData | NModifyAny | NModifyName _ | NModifyOther => Some Modified
  | NRemove => Some Removed
  | NAny | NOther => Some Rescan
  | NAccess => None
  end.
(** [metadata] follows links: its result is never a link. *)
Definition convert_notify_event (os : System) (now : Z) (e : NotifyEvent) : option FsEvent :=
  match nkind e, npaths e with
  | NModifyName true, from :: to :: _ =>
      Some {| kind := Renamed; event_path := to; old_path := Some from; file_id := None; timestamp := now; flags := PlatformFlags_default |}
  | k, paths =>
      kind ← kind_of k;
      p ← head paths;
      let '(dir, symlink, size) :=
        match metadata os p with
        | Some m => (bool_decide (m_type m = IsDir), bool_decide (m_type m = IsSymlink), Some (m_len m))
        | None => (false, false, None)
        end in
      Some {| kind := kind; event_path := p; old_path := None; file_id := None; timestamp := now;
              flags := {| inotify_mask := None; is_directory := dir; is_symlink := symlink; flag_size := size |} |}
  end.

Record FallbackWatcher := {
  watcher : bool;
  queue : list FsEvent;
  watched_paths : gset Path;
  stats : WatcherStats;
}.
Definition fallback_new (created : bool) : outcome IndexError FallbackWatcher :=
  if created then Ok {| watcher := true; queue := []; watched_paths := ∅; stats := WatcherStats_default |} else Err IndexIo.
Definition set_watched (ps : gset Path) (n : Z) (self : FallbackWatcher) : FallbackWatcher :=
  {| watcher := watcher self; queue := queue self; watched_paths := ps;
     stats := {| events_processed := events_processed (stats self); paths_watched := n; events_queued := events_queued (stats self);
                 at_watch_limit := at_watch_limit (stats self); overflow_events := overflow_events (stats self) |} |}.
(** The closure that notify calls; [None] is an error, which is logged. *)
Definition on_notify (os : System) (now : Z) (e : option NotifyEvent) (self : FallbackWatcher) : FallbackWatcher :=
  match e ≫= convert_notify_event os now with
  | Some e => {| watcher := watcher self; queue := queue self ++ [e]; watched_paths := watched_paths self; stats := stats self |}
  | None => self
  end.
(** [accepted]: whether notify watches the path. *)
Definition watch (os : System) (accepted : bool) (p : Path) : st FallbackWatcher IndexError unit :=
  canonical ← lift (ok_or IndexIo (canonicalize os p));
  self ← get_st;
  if watcher self then
    _ ← lift (fail_if (negb accepted) IndexIo);
    modify_st (λ s, set_watched ({[canonical]} ∪ watched_paths s) (paths_watched (stats s) + 1) s)
  else mret tt.
Definition unwatch (os : System) (accepted : bool) (p : Path) : st FallbackWatcher IndexError unit :=
  canonical ← lift (ok_or IndexIo (canonicalize os p));
  self ← get_st;
  if watcher self then
    _ ← lift (fail_if (negb accepted) IndexIo);
    modify_st (λ s, if bool_decide (canonical ∈ watched_paths s)
      then set_watched (watched_paths s ∖ {[canonical]}) (Z.max 0 (paths_watched (stats s) - 1)) s else s)
  else mret tt.
Definition poll_events (self : FallbackWatcher) : FallbackWatcher * list FsEvent :=
  ({| watcher := watcher self; queue := []; watched_paths := watched_paths self;
      stats := {| events_processed := events_processed (stats self) + zlen (queue self); paths_watched := paths_watched (stats self);
                  events_queued := events_queued (stats self); at_watch_limit := at_watch_limit (stats self);
                  overflow_events := overflow_events (stats self) |} |}, queue self).
Definition capabilities : WatcherCapabilities :=
  {| supports_rename_tracking := true; supports_file_id := false; max_watches := None; supports_overflow_detection := false;
     supports_network_paths := true; max_path_length := None; provides_file_size := true |}.
Definition health_check (self : FallbackWatcher) : bool := watcher self.
Definition get_stats (self : FallbackWatcher) : WatcherStats :=
  {| events_processed := events_processed (stats self); paths_watched := Z.of_nat (size (watched_paths self));
     events_queued := events_queued (stats self); at_watch_limit := at_watch_limit (stats self); overflow_events := overflow_events (stats self) |}.

(** ** Watched folders: legacy.rs *)

Inductive LegacyFsEvent :=
  | LCreated (p : Path) | LModified (p : Path) | LRemoved (p : Path) | LRenamed (from to : Path) | LRescan (p : Path).
Definition legacy_of (e : FsEvent) : LegacyFsEvent :=
  match kind e, old_path e with
  | Created, _ => LCreated (event_path e)
  | Modified, _ | AttributeChanged, _ | Renamed, None => LModified (event_path e)
  | Removed, _ => LRemoved (event_path e)
  | Renamed, Some from => LRenamed from (event_path e)
  | Rescan, _ => LRescan (event_path e)
  end.

Record FolderWatcher := {
  platform_watcher : FallbackWatcher;
  watched_folders : gmap Path string;
  config : WatcherConfig;
  debouncer : EventDebouncer;
}.
(** [create_platform_watcher] makes the fallback as well. *)
Definition folder_watcher_new (created : bool) (cfg : WatcherConfig) : outcome IndexError FolderWatcher :=
  w ← fallback_new created;
  mret {| platform_watcher := w; watched_folders := ∅; config := cfg; debouncer := debouncer_new (debounce_delay cfg) |}.
Definition set_platform (w : FallbackWatcher) (self : FolderWatcher) : FolderWatcher :=
  {| platform_watcher := w; watched_folders := watched_folders self; config := config self; debouncer := debouncer self |}.
Definition set_folders (x : gmap Path string) (self : FolderWatcher) : FolderWatcher :=
  {| platform_watcher := platform_watcher self; watched_folders := x; config := config self; debouncer := debouncer self |}.
Definition set_debouncer (d : EventDebouncer) (self : FolderWatcher) : FolderWatcher :=
  {| platform_watcher := platform_watcher self; watched_folders := watched_folders self; config := config self; debouncer := d |}.
Definition on_platform (m : st FallbackWatcher IndexError unit) : st FolderWatcher IndexError unit := λ s,
  let '(w, r) := m (platform_watcher s) in (set_platform w s, r).
Definition watch_folder (os : System) (accepted : bool) (p : Path) (folder_id : string) : st FolderWatcher IndexError unit :=
  canonical ← lift (ok_or IndexIo (canonicalize os p));
  _ ← on_platform (watch os accepted canonical);
  modify_st (λ s, set_folders (<[canonical := folder_id]> (watched_folders s)) s).
Definition unwatch_folder (os : System) (accepted : bool) (p : Path) : st FolderWatcher IndexError unit :=
  canonical ← lift (ok_or IndexIo (canonicalize os p));
  _ ← on_platform (unwatch os accepted canonical);
  modify_st (λ s, set_folders (base.delete canonical (watched_folders s)) s).

Definition should_ignore_event (self : FolderWatcher) (e : FsEvent) : bool :=
  should_ignore_path (event_path e) (watch_ignore_patterns (config self)).
(** The loop over the events that are ready: the batch, the batches handed over. *)
Fixpoint push_ready (size : Z) (ready batch : list FsEvent) (handled : list (list FsEvent)) : list FsEvent * list (list FsEvent) :=
  match ready with
  | [] => (batch, handled)
  | e :: ready =>
      let batch := batch ++ [e] in
      if size <=? zlen batch then push_ready size ready [] (handled ++ [batch])
      else push_ready size ready batch handled
  end.
(** One tick of [process_events]: the watcher and the batch, the batches handed over. *)
Definition tick `{MapIter} (now : Z) (s : FolderWatcher * list FsEvent) : (FolderWatcher * list FsEvent) * list (list FsEvent) :=
  let '(self, batch) := s in
  let '(w, new_events) := poll_events (platform_watcher self) in
  let self := set_platform w self in
  let kept := List.filter (λ e, negb (should_ignore_event self e)) new_events in
  let self := set_debouncer (foldl (λ d e, add_event now e d) (debouncer self) kept) self in
  let '(d, ready) := get_ready_events now (debouncer self) in
  let self := set_debouncer d self in
  let '(batch, handled) := push_ready (batch_size (config self)) ready batch [] in
  match batch with
  | [] => ((self, []), handled)
  | _ => if has_pending d then ((self, batch), handled) else ((self, []), handled ++ [batch])
  end.

Section reindex.
Context `{MapIter, Hex, Blake3, IndexDb} {Store : Type} `{!ContentStore Store}.
Context (checked : bool) (icfg : IndexerConfig) (chunker : Chunker.Chunker).

(** The folder of an event. *)
Definition folder_of (folders : gmap Path string) (p : Path) : option (Path * string) :=
  head (List.filter (λ f, components_prefix f.1 p) (map_iter folders)).
Definition handle_fs_event (os : System) (now : DateTime) (fuel : nat) (folders : gmap Path string) (e : FsEvent) : st (FileIndexer (Store:=Store)) IndexError unit :=
  match folder_of folders (event_path e) with
  | Some (folder_path, _) =>
      match kind e with
      | Removed => mret tt
      | _ => _ ← index_folder checked os icfg chunker now fuel folder_path; mret tt
      end
  | None => mret tt
  end.
(** The task of [start_with_indexer]: errors are logged. *)
Definition handle_events (fuel : nat) (folders : gmap Path string) (es : list (System * DateTime * FsEvent)) (s : FileIndexer (Store:=Store)) :
    FileIndexer (Store:=Store) :=
  foldl (λ s '(os, now, e), (handle_fs_event os now fuel folders e s).1) s es.
End reindex.

(** ** The watcher of the daemon: landro-daemon/src/watcher.rs *)

Inductive FileEventKind := FCreated | FModified | FDeleted | FRenamed (from to : Path).
Record FileEvent := { fe_path : Path; fe_kind : FileEventKind }.
(** [should_ignore]. *)
Definition is_temporary (p : Path) : bool :=
  match last p with
  | Some name =>
      Proto.starts_with name "." || (ends_with "~" name || ends_with ".tmp" name || ends_with ".swp" name) ||
      (Proto.starts_with name "#" && ends_with "#" name)
  | None => false
  end.
Definition file_kind (k : NotifyKind) : option FileEventKind :=
  match k with
  | NCreate => Some FCreated
  | NModifyData | NModifyAny | NModifyName _ | NModifyMetadata | NModifyOther => Some FModified
  | NRemove => Some FDeleted
  | NAny | NOther | NAccess => None
  end.
Definition file_events (e : NotifyEvent) : option (list FileEvent) :=
  match omap (λ p, if is_temporary p then None else (λ k, {| fe_path := p; fe_kind := k |}) <$> file_kind (nkind e)) (npaths e) with
  | [] => None
  | l => Some l
  end.

(** The task of a [FileWatcher], its channel and the watcher that sends on it. *)
Inductive Phase := NotStarted | Looping | Ended.
Record FileWatcher := {
  alive : bool;
  channel : list NotifyEvent;
  running : bool;
  phase : Phase;
  pending_events : list FileEvent;
  batches : list (list FileEvent);
}.
Inductive StartError := Sensitive | WatcherFailed.
(** The watcher is a local variable: when [start] returns it is dropped, and with it the sender. *)
Definition start `{Lowercase} (p : Path) (created watched : bool) : outcome StartError FileWatcher :=
  _ ← fail_if (is_sensitive_path (path_string p) (last p)) Sensitive;
  _ ← fail_if (negb created) WatcherFailed;
  _ ← fail_if (negb watched) WatcherFailed;
  mret {| alive := true; channel := []; running := false; phase := NotStarted; pending_events := []; batches := [] |}.
Definition start_returns (s : FileWatcher) : FileWatcher :=
  {| alive := false; channel := channel s; running := running s; phase := phase s; pending_events := pending_events s; batches := batches s |}.
Definition flush (s : FileWatcher) : FileWatcher :=
  {| alive := alive s; channel := channel s; running := running s; phase := phase s; pending_events := [];
     batches := match pending_events s with [] => batches s | l => batches s ++ [l] end |}.
Definition set_phase (r : bool) (p : Phase) (s : FileWatcher) : FileWatcher :=
  {| alive := alive s; channel := channel s; running := r; phase := p; pending_events := pending_events s; batches := batches s |}.
Definition received (e : NotifyEvent) (rest : list NotifyEvent) (s : FileWatcher) : FileWatcher :=
  {| alive := alive s; channel := rest; running := running s; phase := phase s;
     pending_events := pending_events s ++ default [] (file_events e); batches := batches s |}.
(** A turn of the task; [elapsed]: whether the time of a batch is over. *)
Definition task_turn (elapsed : bool) (s : FileWatcher) : FileWatcher :=
  match phase s with
  | NotStarted => set_phase true Looping s
  | Looping =>
      if negb (running s) then set_phase (running s) Ended (flush s)
      else
        match channel s with
        | e :: rest => received e rest s
        | [] => if alive s then (if elapsed then flush s else s) else set_phase (running s) Ended (flush s)
        end
  | Ended => s
  end.
Inductive WatchStep := Notify (e : NotifyEvent) | TaskTurn (elapsed : bool) | Stop.
Definition watch_step (s : FileWatcher) (x : WatchStep) : FileWatcher :=
  match x with
  | Notify e => if alive s then {| alive := true; channel := channel s ++ [e]; running := running s; phase := phase s;
      pending_events := pending_events s; batches := batches s |} else s
  | TaskTurn elapsed => task_turn elapsed s
  | Stop => set_phase false (phase s) s
  end.
Definition is_running (s : FileWatcher) : bool := running s.

(** ** Lemmas *)

Section debouncing.
Context `{MapIter}.

Inductive DebounceOp := Add (now : Z) (e : FsEvent) | Poll (now : Z).
Definition debounce_step (d : EventDebouncer) (op : DebounceOp) : EventDebouncer * list FsEvent :=
  match op with Add now e => (add_event now e d, []) | Poll now => get_ready_events now d end.
(** The debouncer after some calls, and what they reported. *)
Fixpoint debounce (ops : list DebounceOp) (d : EventDebouncer) : EventDebouncer * list FsEvent :=
  match ops with
  | [] => (d, [])
  | op :: ops => let '(d, out) := debounce_step d op in let '(d, out') := debounce ops d in (d, out ++ out')
  end.
(** A debouncer for one path. *)
Definition path_step (delay : Z) (p : Path) (s : option (FsEvent * Z)) (op : DebounceOp) : option (FsEvent * Z) * list FsEvent :=
  match op, s with
  | Add now e, _ => (if decide (event_path e = p) then Some (e, now) else s, [])
  | Poll now, Some x => if is_ready now delay x then (None, [x.1]) else (s, [])
  | Poll now, None => (None, [])
  end.
Fixpoint debounce_path (delay : Z) (p : Path) (ops : list DebounceOp) (s : option (FsEvent * Z)) : option (FsEvent * Z) * list FsEvent :=
  match ops with
  | [] => (s, [])
  | op :: ops => let '(s, out) := path_step delay p s op in let '(s, out') := debounce_path delay p ops s in (s, out ++ out')
  end.
Definition at_path (p : Path) (l : list FsEvent) : list FsEvent := filter (λ e, event_path e = p) l.
#[local] Arguments at_path : simpl never.
Definition keyed (d : EventDebouncer) : Prop := map_Forall (λ p x, event_path x.1 = p) (pending d).

Lemma ready_at_path (f : FsEvent * Z → bool) (l : list (Path * (FsEvent * Z))) p : NoDup l.*1 → Forall (λ x, event_path x.2.1 = x.1) l →
  at_path p (map (λ x, x.2.1) (List.filter (λ x, f x.2) l)) =
    match (list_to_map l : gmap Path _) !! p with Some x => if f x then [x.1] else [] | None => [] end.
Proof.
  unfold at_path. induction l as [|[k x] l IH]; intros Hnd Hk; [done|]. apply NoDup_cons in Hnd as [Hnotin Hnd]. apply Forall_cons in Hk as [Hx Hk].
  cbn in Hx, Hnotin. specialize (IH Hnd Hk). cbn [List.filter snd]. rewrite list_to_map_cons.
  destruct (decide (k = p)) as [->|Hne].
  - rewrite lookup_insert_eq. rewrite (not_elem_of_list_to_map_1 l p Hnotin) in IH. destruct (f x); cbn [map fst snd]; [|done].
    by rewrite filter_cons_True, IH.
  - rewrite lookup_insert_ne by done. rewrite <- IH. destruct (f x); cbn [map fst snd]; [|done]. by rewrite filter_cons_False by (by rewrite Hx).
Qed.
Lemma debounce_step_path d op p : keyed d →
  keyed (debounce_step d op).1 ∧ delay (debounce_step d op).1 = delay d ∧
  pending (debounce_step d op).1 !! p = (path_step (delay d) p (pending d !! p) op).1 ∧
  at_path p (debounce_step d op).2 = (path_step (delay d) p (pending d !! p) op).2.
Proof.
  intros Hk. destruct op as [now e|now]; cbn.
  - split_and!; [|done| |done].
    + intros q x. cbn. rewrite lookup_insert_Some. intros [[<- <-]|[_ Hq]]; [done|by apply Hk].
    + case_decide as Hp; [by rewrite Hp, lookup_insert_eq|by rewrite lookup_insert_ne].
  - assert (Hl : list_to_map (map_iter (pending d)) = pending d).
    { rewrite <- (list_to_map_to_list (pending d)) at 2. apply list_to_map_proper; [apply NoDup_map_iter|apply map_iter_perm]. }
    assert (Hf : Forall (λ x, event_path x.2.1 = x.1) (map_iter (pending d))).
    { apply Forall_forall. intros [q x] Hin. apply elem_of_map_iter in Hin. by apply Hk. }
    split_and!; [|done| |].
    + intros q x. cbn [pending]. intros [Hq _]%map_lookup_filter_Some. by apply Hk.
    + destruct (pending d !! p) as [x|] eqn:Hp.
      * destruct (is_ready now (delay d) x) eqn:Hr; cbn.
        -- apply map_lookup_filter_None. right. intros x' Hx'. rewrite Hp in Hx'. injection Hx' as <-. cbn. by rewrite Hr.
        -- by apply map_lookup_filter_Some.
      * apply map_lookup_filter_None. by left.
    + rewrite (ready_at_path (is_ready now (delay d))), Hl by (done || apply NoDup_map_iter).
      destruct (pending d !! p) as [x|] eqn:Hp; [|done]. by destruct (is_ready now (delay d) x).
Qed.
Lemma at_path_app p l l' : at_path p (l ++ l') = at_path p l ++ at_path p l'.
Proof. apply filter_app. Qed.
Lemma debounce_per_path ops d p : keyed d →
  pending (debounce ops d).1 !! p = (debounce_path (delay d) p ops (pending d !! p)).1 ∧
  at_path p (debounce ops d).2 = (debounce_path (delay d) p ops (pending d !! p)).2.
Proof.
  revert d. induction ops as [|op ops IH]; intros d Hk; [done|]. cbn [debounce debounce_path].
  destruct (debounce_step_path d op p Hk) as (Hk' & Hd & Hp & Ho).
  destruct (debounce_step d op) as [d1 out]. destruct (path_step _ _ _ op) as [s1 o]. cbn [fst snd] in *. subst s1 o.
  specialize (IH d1 Hk'). rewrite Hd in IH. destruct (debounce ops d1) as [d2 out'], (debounce_path (delay d) p ops (pending d1 !! p)) as [s2 o'].
  cbn [fst snd] in *. destruct IH as [-> <-]. split; [done|]. apply at_path_app.
Qed.
Lemma keyed_new n : keyed (debouncer_new n).
Proof. apply map_Forall_empty. Qed.

(** Every poll comes less than the delay after an event of the path; [last]: when the last one was. *)
Fixpoint busy (delay : Z) (p : Path) (last : Z) (ops : list DebounceOp) : Prop :=
  match ops with
  | [] => True
  | Add now e :: ops => busy delay p (if decide (event_path e = p) then now else last) ops
  | Poll now :: ops => last ≤ now < last + delay ∧ busy delay p last ops
  end.
Lemma busy_path_quiet delay p ops e last : busy delay p last ops →
  ∃ e' t, debounce_path delay p ops (Some (e, last)) = (Some (e', t), []).
Proof.
  revert e last. induction ops as [|[now e'|now] ops IH]; intros e last Hb; cbn in *; [by exists e, last| |].
  - case_decide.
    + destruct (IH e' now Hb) as (e2 & t & ->). by exists e2, t.
    + destruct (IH e last Hb) as (e2 & t & ->). by exists e2, t.
  - destruct Hb as [Hn Hb]. unfold is_ready. cbn [snd]. rewrite (proj2 (Z.leb_gt _ _)) by lia.
    destruct (IH e last Hb) as (e2 & t & ->). by exists e2, t.
Qed.
End debouncing.

Section ticks.
Context `{MapIter}.

Lemma push_ready_spec size ready batch handled batch' handled' : 0 < size → zlen batch < size →
  push_ready size ready batch handled = (batch', handled') →
  ∃ new, handled' = handled ++ new ∧ concat new ++ batch' = batch ++ ready ∧ zlen batch' < size ∧ Forall (λ b, zlen b = size) new.
Proof.
  intros Hs. revert batch handled. induction ready as [|e ready IH]; intros batch handled Hb; cbn [push_ready].
  { intros [= <- <-]. exists []. by rewrite !app_nil_r. }
  pose proof (zlen_nonneg batch). assert (He : zlen (batch ++ [e]) = zlen batch + 1) by (rewrite zlen_app; done).
  destruct (size <=? zlen (batch ++ [e])) eqn:Hl; intros Hp.
  - apply Z.leb_le in Hl. apply IH in Hp as (new & -> & Hc & Hb' & Hf); [|done].
    exists ((batch ++ [e]) :: new). split_and!; [by rewrite <- app_assoc|cbn; by rewrite <- app_assoc, Hc, <- app_assoc|done|].
    constructor; [lia|done].
  - apply Z.leb_gt in Hl. apply IH in Hp as (new & -> & Hc & Hb' & Hf); [|done].
    exists new. by rewrite Hc, <- app_assoc.
Qed.

(** The events that a tick takes out of the debouncer. *)
Definition kept_events (self : FolderWatcher) : list FsEvent :=
  List.filter (λ e, negb (should_ignore_event self e)) (queue (platform_watcher self)).
Definition debounced (now : Z) (self : FolderWatcher) : EventDebouncer * list FsEvent :=
  get_ready_events now (foldl (λ d e, add_event now e d) (debouncer self) (kept_events self)).
Lemma tick_spec now self batch self' batch' handled : 0 < batch_size (config self) → zlen batch < batch_size (config self) →
  tick now (self, batch) = ((self', batch'), handled) →
  concat handled ++ batch' = batch ++ (debounced now self).2 ∧ zlen batch' < batch_size (config self) ∧
  config self' = config self ∧ debouncer self' = (debounced now self).1 ∧
  (has_pending (debounced now self).1 = true → Forall (λ b, zlen b = batch_size (config self)) handled) ∧
  (has_pending (debounced now self).1 = false → batch' = []).
Proof.
  intros Hs Hb. unfold tick, poll_events, debounced.
  change (List.filter _ (queue (platform_watcher self))) with (kept_events self). cbn [debouncer set_platform set_debouncer config].
  destruct (get_ready_events now _) as [d ready]. cbn [fst snd].
  destruct (push_ready _ ready batch []) as [b h] eqn:Hp. apply push_ready_spec in Hp as (new & -> & Hc & Hb' & Hf); [|done..].
  cbn [app]. destruct b as [|e b].
  { intros [= <- <- <-]. rewrite app_nil_r in *. by split_and!. }
  destruct (has_pending d); intros [= <- <- <-]; [by split_and!|].
  split_and!; try done. by rewrite concat_app, app_nil_r; cbn; rewrite app_nil_r.
Qed.
Lemma add_events_pending now es d : es ≠ [] → 0 < delay d →
  has_pending (get_ready_events now (foldl (λ d e, add_event now e d) d es)).1 = true.
Proof.
  intros Hne Hd. destruct es as [|e es] using rev_ind; [done|]. clear IHes Hne. rewrite foldl_app. cbn [foldl get_ready_events fst].
  unfold has_pending. apply negb_true_iff, bool_decide_eq_false. cbn [pending add_event delay]. intros Hempty.
  eapply (lookup_empty_Some (M:=gmap Path) (event_path e) (e, now)). rewrite <- Hempty. apply map_lookup_filter_Some.
  split; [apply lookup_insert_eq|]. unfold is_ready. cbn [snd fst].
  assert (delay (foldl (λ d e, add_event now e d) d es) = delay d) as ->.
  { clear Hempty. revert d Hd. induction es as [|e' es IH]; intros d Hd; [done|]. cbn. by rewrite IH. }
  apply Z.leb_gt. lia.
Qed.
End ticks.

(** ** Theorems *)

Section theorems.
Context `{MapIter}.

(** The debouncer treats every path by itself: what is pending for a path and what was reported of it are what a debouncer
    of this path alone has after the same calls: the last event, once it was the last one for the delay. *)
Theorem debouncer_is_per_path n ops p :
  pending (debounce ops (debouncer_new n)).1 !! p = (debounce_path n p ops None).1 ∧
  at_path p (debounce ops (debouncer_new n)).2 = (debounce_path n p ops None).2.
Proof. apply (debounce_per_path ops (debouncer_new n) p), keyed_new. Qed.

(** A file that keeps changing, with less than the delay between an event and the next poll, is never reported. *)
Theorem busy_file_never_reported n p t e ops : event_path e = p → busy n p t ops →
  at_path p (debounce (Add t e :: ops) (debouncer_new n)).2 = [] ∧ is_Some (pending (debounce (Add t e :: ops) (debouncer_new n)).1 !! p).
Proof.
  intros Hp Hb. destruct (debounce_per_path (Add t e :: ops) (debouncer_new n) p (keyed_new n)) as [-> ->].
  cbn [debounce_path path_step pending debouncer_new delay]. rewrite decide_True by done.
  destruct (busy_path_quiet n p ops e t Hb) as (e' & t' & ->). by split; [|eexists].
Qed.

(** Ticks, each after what notify reports before it; the batches handed over. *)
Fixpoint ticks (os : System) (l : list (Z * list (option NotifyEvent))) (s : FolderWatcher * list FsEvent) :
    (FolderWatcher * list FsEvent) * list (list FsEvent) :=
  match l with
  | [] => (s, [])
  | (now, es) :: l =>
      let w := foldl (λ w e, on_notify os now e w) (platform_watcher s.1) es in
      let '(s, handled) := tick now (set_platform w s.1, s.2) in
      let '(s, handled') := ticks os l s in (s, handled ++ handled')
  end.
(** Some event of a path that is not ignored is reported. *)
Definition brings_event (os : System) (patterns : list string) (x : Z * list (option NotifyEvent)) : Prop :=
  ∃ n e, Some n ∈ x.2 ∧ convert_notify_event os x.1 n = Some e ∧ should_ignore_path (event_path e) patterns = false.
Lemma notified_queue os now es w e : e ∈ queue w ∨ (∃ n, Some n ∈ es ∧ convert_notify_event os now n = Some e) →
  e ∈ queue (foldl (λ w e, on_notify os now e w) w es).
Proof.
  revert w. induction es as [|x es IH]; intros w [He|(n & Hn & Hc)]; cbn; [done|by apply elem_of_nil in Hn|..]; apply IH.
  - left. unfold on_notify. destruct (x ≫= _); cbn; set_solver.
  - apply elem_of_cons in Hn as [<-|Hn]; [left|right; by exists n]. unfold on_notify. cbn. rewrite Hc. cbn. set_solver.
Qed.

(** As long as every tick brings some event, whichever file it is of, only full batches are handed over: the last, incomplete
    batch of events that are long ready waits, though no event is lost or handed over twice. *)
Theorem steady_changes_hold_events os l self batch : 0 < batch_size (config self) → zlen batch < batch_size (config self) →
  0 < delay (debouncer self) → Forall (brings_event os (watch_ignore_patterns (config self))) l →
  let '((self', batch'), handled) := ticks os l (self, batch) in
  Forall (λ b, zlen b = batch_size (config self)) handled ∧ zlen batch' < batch_size (config self) ∧
  batch `prefix_of` concat handled ++ batch'.
Proof.
  intros Hs Hb Hd Hl. revert self batch Hs Hb Hd Hl. induction l as [|[now es] l IH]; intros self batch Hs Hb Hd Hl; cbn [ticks fst snd].
  { by split_and!. }
  apply Forall_cons in Hl as [(n & e & Hn & Hc & Hi) Hl]. cbn [fst snd] in Hn, Hc.
  set (w := foldl _ (platform_watcher self) es). destruct (tick now (set_platform w self, batch)) as [[self1 batch1] handled] eqn:Ht.
  apply tick_spec in Ht as (Hcat & Hb1 & Hcfg & Hdeb & Hfull & _); [|done..]. cbn [config set_platform] in *.
  assert (Hk : kept_events (set_platform w self) ≠ []).
  { assert (e ∈ kept_events (set_platform w self)) as Hin; [|intros Hnil; rewrite Hnil in Hin; by apply elem_of_nil in Hin].
    apply list_elem_of_In, filter_In. split; [|by apply negb_true_iff]. apply list_elem_of_In. apply notified_queue. right. by exists n. }
  assert (Hd1 : delay (debouncer self1) = delay (debouncer self)).
  { rewrite Hdeb. unfold debounced, get_ready_events. cbn. generalize (kept_events (set_platform w self)). intros es'. generalize (debouncer self).
    induction es' as [|x es' IHe]; intros d; [done|]. cbn. by rewrite IHe. }
  pose proof (add_events_pending now _ (debouncer self) Hk Hd) as Hpend.
  specialize (IH self1 batch1). rewrite Hcfg, Hd1 in IH. specialize (IH Hs Hb1 Hd Hl).
  destruct (ticks os l (self1, batch1)) as [[self2 batch2] handled2]. destruct IH as (Hf & Hb2 & Hpre).
  split_and!; [apply Forall_app; split; [by apply Hfull|done]|done|].
  rewrite concat_app, <- app_assoc. etrans; [|by apply prefix_app]. rewrite Hcat. by apply prefix_app_r.
Qed.

(** What the default patterns ignore: three names, three endings, names that begin with [.#], and the name [#*#] itself,
    which was meant as a pattern. Only the last component of a path counts, so what lies in an ignored folder is not ignored. *)
Theorem default_patterns_spec p : let name := file_name p in
  should_ignore_path p (watch_ignore_patterns WatcherConfig_default) = true ↔
    name ∈ [".git"; ".DS_Store"; "Thumbs.db"; "#*#"] ∨ (∃ ending, ending ∈ [".tmp"; ".swp"; "~"] ∧ ends_with ending name = true) ∨
    String.prefix ".#" name = true.
Proof.
  intros name. unfold should_ignore_path. fold name. cbn [watch_ignore_patterns WatcherConfig_default existsb].
  change (has_star ".git") with false. change (has_star ".DS_Store") with false. change (has_star "Thumbs.db") with false.
  change (has_star "*.tmp") with true. change (has_star "*.swp") with true. change (has_star "*~") with true.
  change (has_star ".#*") with true. change (has_star "#*#") with true. cbv iota.
  change (glob_match "*.tmp" name) with (ends_with ".tmp" name). change (glob_match "*.swp" name) with (ends_with ".swp" name).
  change (glob_match "*~" name) with (ends_with "~" name). change (glob_match ".#*" name) with (String.prefix ".#" name).
  change (glob_match "#*#" name) with (String.eqb "#*#" name). rewrite !orb_true_iff, !String.eqb_eq, !elem_of_cons, elem_of_nil.
  split.
  - intros [->|[->|[->|[Hn|[Hn|[Hn|[Hn|[<-|Hn]]]]]]]]; [by auto 10..| | | |by auto 10|by auto 10|done].
    + right. left. exists ".tmp". split; [set_solver|done].
    + right. left. exists ".swp". split; [set_solver|done].
    + right. left. exists "~". split; [set_solver|done].
  - intros [[->|[->|[->|[->|[]]]]]|[(ending & Hin & Hn)|Hn]]; [by auto 10..| |by auto 10].
    rewrite !elem_of_cons, elem_of_nil in Hin. destruct Hin as [->|[->|[->|[]]]]; auto 10.
Qed.
End theorems.

Section indexing.
#[local] Set Default Proof Using "All".
Context `{MapIter, Hex, Blake3, !IndexDb, !IndexDbLaws} {Store : Type} `{!ContentStore Store}.
Context (checked : bool) (icfg : IndexerConfig) (cfg : Chunker.ChunkerConfig) (chunker : Chunker.Chunker).
Context (Hchunker : Chunker.new cfg = Ok chunker).
Abbreviation run os now fuel folder := (index_folder (Store:=Store) checked os icfg chunker now fuel folder).

(** Once a watched folder is indexed, no event in it changes the manifests: every kind of change indexes the whole folder
    again, which fails, and a removal is not handled at all. *)
Theorem watched_changes_never_indexed os now fuel folder folder_id s s' m fuel' es :
  root_rows (database s) → canonicalize os folder = Some folder → path_string folder ≠ "/" →
  run os now fuel folder s = (s', Ok m) → Forall (λ x, canonicalize x.1.1 folder = Some folder) es →
  manifest_rows (database (handle_events checked icfg chunker fuel' {[folder := folder_id]} es s')) = manifest_rows (database s').
Proof.
  intros Hroot Hcan Hne Hrun Hes.
  destruct (index_folder_first checked icfg cfg chunker Hchunker _ _ _ _ _ _ _ _ Hroot Hcan Hne Hrun) as (Hrow & _ & _ & Hrows).
  assert (Hinv : root_rows (database s') ∧ (path_to_folder_id folder, "/", 1) ∈ manifest_rows (database s')).
  { unfold root_rows. rewrite Hrows, Hrow. split; [|set_solver]. intros d p v [[= -> -> ->]%elem_of_singleton|?]%elem_of_union; [done|]. by eapply Hroot. }
  clear Hrun Hrows Hrow Hroot. revert s' Hinv. induction Hes as [|[[os' now'] e] es Hcan' _ IH]; intros s' [Hroot Hin]; [done|].
  cbn [fst] in Hcan'. cbn [handle_events foldl].
  assert (Hsame : manifest_rows (database (handle_fs_event checked icfg chunker os' now' fuel' {[folder := folder_id]} e s').1) = manifest_rows (database s')).
  { unfold handle_fs_event. destruct (folder_of _ (event_path e)) as [[f id]|] eqn:Hf; [|done].
    assert (f = folder) as ->.
    { unfold folder_of in Hf. rewrite map_iter_singleton in Hf. cbn in Hf. destruct (components_prefix folder (event_path e)); [|done].
      by injection Hf as <- _. }
    pose proof (index_folder_again checked icfg cfg chunker Hchunker os' now' fuel' folder folder s' Hroot Hcan' Hne Hin) as [_ Hs].
    unfold mbind, st_bind. destruct (kind e); [..|done| | |]; destruct (run os' now' fuel' folder s') as [s2 r]; cbn in Hs; by destruct r. }
  unfold handle_events in IH. rewrite IH, Hsame; [done|]. unfold root_rows. by rewrite Hsame.
Qed.
End indexing.

Section daemon.
Implicit Types s : FileWatcher.
Definition events_of (l : list NotifyEvent) : list FileEvent := concat (map (λ e, default [] (file_events e)) l).
Definition turns (xs : list WatchStep) : nat := length (List.filter (λ x, match x with TaskTurn _ => true | _ => false end) xs).
Definition not_stopped (xs : list WatchStep) : Prop := Stop ∉ xs.
(** What was sent before the watcher was dropped. *)
Definition notified (xs : list WatchStep) : list NotifyEvent := omap (λ x, match x with Notify e => Some e | _ => None end) xs.
(** What the task has taken from the channel is handed over or pending. *)
Definition reported (sent : list NotifyEvent) s : Prop :=
  (∃ taken, taken ++ channel s = sent ∧ concat (batches s) ++ pending_events s = events_of taken) ∧
  (phase s = Ended → pending_events s = []).
(** The turns that are left at most, once the watcher is dropped. *)
Definition turns_left s : nat := match phase s with NotStarted => length (channel s) + 2 | Looping => length (channel s) + 1 | Ended => 0 end.
(** Unless it is stopped, the task ends when the channel is empty and closed. *)
Definition going s : Prop := phase s ≠ NotStarted → running s = true ∧ (phase s = Ended → channel s = [] ∧ alive s = false).

Lemma flush_concat s : concat (batches (flush s)) = concat (batches s) ++ pending_events s.
Proof. unfold flush. destruct (pending_events s) as [|e l]; cbn; [by rewrite app_nil_r|]. by rewrite concat_app; cbn; rewrite app_nil_r. Qed.
Lemma flush_reported sent s r p : reported sent s → reported sent (set_phase r p (flush s)).
Proof.
  intros [(taken & Htk & Hc) _]. split; [|done]. exists taken. split; [done|].
  by rewrite <- Hc; cbn [set_phase batches pending_events]; rewrite flush_concat, app_nil_r.
Qed.
Lemma task_turn_reported sent elapsed s : reported sent s → reported sent (task_turn elapsed s).
Proof.
  intros Hs. unfold task_turn. destruct (phase s) eqn:Hp; [|destruct (negb (running s)); [by apply flush_reported|]|done].
  { destruct Hs as [(taken & Htk & Hc) _]. split; [by exists taken|done]. }
  destruct (channel s) as [|e rest] eqn:Hch.
  - destruct (alive s); [|by apply flush_reported]. destruct elapsed; [|done]. apply (flush_reported sent s (running s) (phase s) Hs).
  - destruct Hs as [(taken & Htk & Hc) _]. split; [|by cbn; rewrite Hp]. exists (taken ++ [e]). split; [by rewrite <- Htk, Hch, <- app_assoc|].
    unfold events_of. rewrite map_app, concat_app. fold (events_of taken). cbn. by rewrite app_nil_r, <- Hc, app_assoc.
Qed.
Lemma task_turn_going elapsed s : going s → going (task_turn elapsed s).
Proof.
  unfold task_turn, going. destruct (phase s) eqn:Hp; [done| |by rewrite Hp]. intros Hg. destruct (Hg ltac:(done)) as [Hr _]. rewrite Hr. cbn [negb].
  destruct (channel s) as [|e rest] eqn:Hch; [|by cbn; rewrite Hp, Hr].
  destruct (alive s) eqn:Ha; [destruct elapsed; cbn; by rewrite ?Hp, ?Hr|]. cbn. by rewrite ?Hr, ?Hch, ?Ha.
Qed.
Lemma task_turn_left elapsed s : alive s = false → alive (task_turn elapsed s) = false ∧ (turns_left (task_turn elapsed s) ≤ turns_left s - 1)%nat.
Proof.
  intros Ha. unfold task_turn, turns_left. destruct (phase s) eqn:Hp; [cbn; split; [done|lia]| |rewrite Hp; split; [done|lia]].
  destruct (negb (running s)); [cbn; split; [done|lia]|]. destruct (channel s) as [|e rest]; [rewrite Ha; cbn; split; [done|lia]|].
  cbn. rewrite Hp. split; [done|lia].
Qed.
Lemma steps_before xs s sent : alive s = true → reported sent s →
  alive (foldl watch_step s xs) = true ∧ reported (sent ++ notified xs) (foldl watch_step s xs) ∧ (not_stopped xs → going s → going (foldl watch_step s xs)).
Proof.
  unfold not_stopped. revert s sent. induction xs as [|x xs IH]; intros s sent Ha Hs; cbn [foldl]; [by rewrite app_nil_r|].
  assert (Hx : alive (watch_step s x) = true ∧ reported (sent ++ notified [x]) (watch_step s x) ∧ (x ≠ Stop → going s → going (watch_step s x))).
  { destruct x as [e|elapsed|]; cbn [watch_step].
    - rewrite Ha. split_and!; [done| |].
      + destruct Hs as [(taken & Htk & Hc) He]. split; [|done]. exists taken. cbn. by rewrite <- Htk, app_assoc.
      + intros _ Hg Hp. destruct (Hg Hp) as [Hr He]. split; [done|]. intros Hend. destruct (He Hend) as [_ Hno]. by rewrite Ha in Hno.
    - cbn. rewrite app_nil_r. split_and!; [|by apply task_turn_reported|by intros _; apply task_turn_going].
      unfold task_turn. destruct (phase s), (negb (running s)), (channel s); try done. rewrite Ha. by destruct elapsed.
    - cbn. rewrite app_nil_r. by split_and!. }
  destruct Hx as (Ha' & Hs' & Hg'). destruct (IH _ _ Ha' Hs') as (H1 & H2 & H3). split_and!; [done| |].
  - change (x :: xs) with ([x] ++ xs). unfold notified in *. by rewrite omap_app, app_assoc.
  - intros [Hx Hxs]%not_elem_of_cons Hg. apply H3; [done|]. apply Hg'; [congruence|done].
Qed.
Lemma steps_after xs s sent : alive s = false → reported sent s →
  reported sent (foldl watch_step s xs) ∧ (turns_left (foldl watch_step s xs) ≤ turns_left s - turns xs)%nat ∧
  (not_stopped xs → going s → going (foldl watch_step s xs)).
Proof.
  unfold not_stopped. revert s. induction xs as [|x xs IH]; intros s Ha Hs; cbn [foldl]; [split_and!; [done|unfold turns; cbn [List.filter length]; lia|done]|].
  assert (Hx : alive (watch_step s x) = false ∧ reported sent (watch_step s x) ∧ (x ≠ Stop → going s → going (watch_step s x)) ∧
    (turns_left (watch_step s x) ≤ turns_left s - match x with TaskTurn _ => 1 | _ => 0 end)%nat).
  { destruct x as [e|elapsed|]; cbn [watch_step]; [rewrite Ha; split_and!; [done..|lia]| |].
    - destruct (task_turn_left elapsed s Ha) as [Ha' Hl]. split_and!; [done|by apply task_turn_reported|by intros _; apply task_turn_going|done].
    - split_and!; [done|done|done|unfold turns_left; cbn; lia]. }
  destruct Hx as (Ha' & Hs' & Hg' & Hl'). destruct (IH _ Ha' Hs') as (H1 & H2 & H3).
  split_and!; [done|unfold turns in *; destruct x; cbn [List.filter length] in *; lia|]. intros [Hx Hxs]%not_elem_of_cons Hg. apply H3; [done|]. apply Hg'; [congruence|done].
Qed.

(** C25: The watcher of the daemon stops watching when [start] returns, because notify's watcher is dropped there: whatever changes
    later, only the events that came while [start] ran are ever handed over, in their order. The task ends after them by
    itself, though the watcher still says that it is running. *)
Theorem file_watcher_stops_at_once `{Lowercase} p created watched s0 before after : start p created watched = Ok s0 →
  let s := foldl watch_step (start_returns (foldl watch_step s0 before)) after in
  concat (batches s) `prefix_of` events_of (notified before) ∧
  ((length (notified before) + 2 ≤ turns after)%nat → phase s = Ended) ∧
  (not_stopped (before ++ after) → phase s = Ended → is_running s = true ∧ concat (batches s) = events_of (notified before)).
Proof.
  intros Hstart s. unfold start in Hstart. inv_ok.
  match type of s with _ => set (s0 := {| alive := true; channel := _; running := _; phase := _; pending_events := _; batches := _ |}) in s end.
  assert (Hr0 : reported [] s0) by (split; [by exists []|done]).
  destruct (steps_before before s0 [] eq_refl Hr0) as (_ & Hr1 & Hg1). set (s1 := start_returns (foldl watch_step s0 before)) in s.
  assert (Hr1' : reported (notified before) s1) by exact Hr1.
  destruct (steps_after after s1 _ eq_refl Hr1') as ([(taken & Htk & Hc) He] & Hl & Hg). fold s in Htk, Hc, He, Hl, Hg. split_and!.
  - unfold events_of. rewrite <- Htk, map_app, concat_app. fold (events_of taken). rewrite <- Hc, <- app_assoc. by apply prefix_app_r.
  - intros Ht. assert (turns_left s1 ≤ length (notified before) + 2)%nat as Hl1.
    { destruct Hr1' as [(tk & Htk' & _) _]. rewrite <- Htk', length_app. unfold turns_left. destruct (phase s1); lia. }
    assert (Hz : turns_left s = 0%nat) by lia. unfold turns_left in Hz. by destruct (phase s); [lia|lia|].
  - intros Hns Hend. unfold not_stopped in Hns. rewrite elem_of_app in Hns.
    assert (Hgs : going s).
    { apply Hg; [by intros ?; apply Hns; right|]. assert (Hg2 : going (foldl watch_step s0 before)) by (apply Hg1; [by intros ?; apply Hns; left|done]).
      intros Hp. destruct (Hg2 Hp) as [Hr Hc']. split; [done|]. intros Hp'. by destruct (Hc' Hp'). }
    destruct (Hgs ltac:(by rewrite Hend)) as [Hrun Hch]. split; [done|]. destruct (Hch Hend) as [Hch' _].
    rewrite (He Hend), app_nil_r in Hc. rewrite Hch', app_nil_r in Htk. by rewrite Hc, Htk.
Qed.
End daemon.

(** ** Concrete runs *)

Module Examples.
#[local] Existing Instance gmap_order.
#[local] Existing Instance RefHash.hex.
#[local] Existing Instance RefHash.hash.
#[local] Existing Instance Indexer.Examples.ListDb.db.
#[local] Existing Instance Indexer.Examples.ListDb.laws.
#[local] Existing Instance CasInterface.MemoryStore.memory_store.
#[local] Existing Instance Security.Examples.lower.

Definition a : Path := ["/"; "home"; "a.txt"].
Definition b : Path := ["/"; "home"; "b.txt"].
Definition event (k : EventKind) (p : Path) : FsEvent :=
  {| kind := k; event_path := p; old_path := None; file_id := None; timestamp := 0; flags := PlatformFlags_default |}.

(** A file that is created and then written is reported as modified only. *)
Example creation_is_forgotten :
  (debounce [Add 0 (event Created a); Add 100 (event Modified a); Poll 550; Poll 650] (debouncer_new 500)).2 = [event Modified a].
Proof. by vm_compute. Qed.

Lemma busy_file_never_reported_witness :
  at_path a (debounce [Add 0 (event Modified a); Add 50 (event Created b); Poll 400; Add 450 (event Modified a); Poll 900] (debouncer_new 500)).2 = [].
Proof.
  refine (proj1 (busy_file_never_reported 500 a 0 (event Modified a) [Add 50 (event Created b); Poll 400; Add 450 (event Modified a); Poll 900] eq_refl _)).
  cbn. rewrite (decide_False (P:=b = a)) by done. rewrite (decide_True (P:=a = a)) by done. lia.
Defined.

Definition nothing : System := {| canonicalize p := Some p; read_dir _ := None; file_type _ := None; metadata _ := None; read_link _ := None; open_file _ := None |}.
Definition small : WatcherConfig :=
  {| debounce_delay := 500; recursive := true; watch_ignore_patterns := ["*.tmp"]; batch_size := 2; use_platform_optimizations := true; event_buffer_size := 10 |}.
Definition fresh : FolderWatcher :=
  {| platform_watcher := {| watcher := true; queue := []; watched_paths := ∅; stats := WatcherStats_default |};
     watched_folders := ∅; config := small; debouncer := debouncer_new 500 |}.
(** b is written in every tick; a was written once and waits. *)
Definition steady : list (Z * list (option NotifyEvent)) :=
  (0, [Some {| nkind := NCreate; npaths := [a] |}]) :: map (λ i, (100 * i, [Some {| nkind := NModifyData; npaths := [b] |}])) [1; 2; 3; 4; 5; 6; 7; 8; 9].
Lemma steady_changes_hold_events_witness :
  Forall (λ l, zlen l = 2) (ticks nothing steady (fresh, [])).2.
Proof.
  assert (Forall (brings_event nothing (watch_ignore_patterns (config fresh))) steady) as Hs.
  { repeat constructor; eexists _, _; (split; [left|split; [reflexivity|reflexivity]]). }
  pose proof (steady_changes_hold_events nothing steady fresh [] ltac:(reflexivity) ltac:(reflexivity) ltac:(reflexivity) Hs) as Hh.
  destruct (ticks nothing steady (fresh, [])) as [[self' batch'] handled]. exact (proj1 Hh).
Defined.
Example a_waits : (ticks nothing steady (fresh, [])).2 = [] ∧ map event_path (ticks nothing steady (fresh, [])).1.2 = [a].
Proof. by vm_compute. Qed.

(** Files in an ignored folder, and the automatic saves of Emacs. *)
Example not_ignored :
  should_ignore_path ["/"; "home"; ".git"; "index"] (watch_ignore_patterns WatcherConfig_default) = false ∧
  should_ignore_path ["/"; "home"; "#notes.txt#"] (watch_ignore_patterns WatcherConfig_default) = false ∧
  should_ignore_path ["/"; "home"; ".git"] (watch_ignore_patterns WatcherConfig_default) = true.
Proof. by vm_compute. Qed.

Lemma watched_changes_never_indexed_witness :
  manifest_rows (database (handle_events true IndexerConfig_default Indexer.Examples.chunker 2 {[Indexer.Examples.folder := "id"]}
    [(Indexer.Examples.os, 1, event Created (Indexer.join Indexer.Examples.folder "new.txt")); (Indexer.Examples.os, 2, event Removed (Indexer.join Indexer.Examples.folder "a.txt"))]
    Indexer.Examples.after_first)) = manifest_rows (database Indexer.Examples.after_first).
Proof.
  apply (watched_changes_never_indexed true IndexerConfig_default Chunker.ChunkerConfig_default Indexer.Examples.chunker Indexer.Examples.chunker_new
    Indexer.Examples.os Indexer.Examples.now 2 Indexer.Examples.folder "id" Indexer.Examples.start Indexer.Examples.after_first Indexer.Examples.first_manifest).
  - intros d p v Hin. cbn in Hin. set_solver.
  - reflexivity.
  - discriminate.
  - apply Indexer.Examples.first_run.
  - by repeat constructor.
Defined.

Definition written (p : Path) : NotifyEvent := {| nkind := NModifyData; npaths := [p] |}.
Definition begun : FileWatcher :=
  {| alive := true; channel := []; running := false; phase := NotStarted; pending_events := []; batches := [] |}.
Lemma file_watcher_stops_at_once_witness :
  let s := foldl watch_step (start_returns (foldl watch_step begun [Notify (written a)])) [TaskTurn false; Notify (written b); TaskTurn false; TaskTurn true] in
  phase s = Ended ∧ is_running s = true ∧ concat (batches s) = [{| fe_path := a; fe_kind := FModified |}].
Proof.
  cbv zeta. destruct (file_watcher_stops_at_once ["/"; "home"; "docs"] true true begun [Notify (written a)]
    [TaskTurn false; Notify (written b); TaskTurn false; TaskTurn true]) as (_ & Hend & Hrun); [by vm_compute|].
  assert (Hp := Hend ltac:(vm_compute; lia)). split; [exact Hp|]. apply Hrun; [|exact Hp]. unfold not_stopped. set_solver.
Defined.
End Examples.
