(* ===== verification/AtomicWrite.v ===== *)
(** Atomic writes of files: landro-cas/src/atomic.rs.

    A disk is a map from paths to contents; a crash leaves it as it is between two
    operations. The random part of a temporary name is an argument, and so is what a write
    that fails has written. A file has less than 2^64 bytes, so the counter of bytes does not
    overflow. [AtomicDirectory], which moves a tree, is not modelled. *)

From S2P Require Import Prelude Bytes Proto Identity.
From Stdlib Require Import Init.Byte Strings.Ascii ZArith Lia.
From stdpp Require Import base option list gmap sets strings pretty numbers sorting.
Open Scope Z_scope.

Inductive AtomicError := AtomicIo | AlreadyFinalized.
Abbreviation Files := (gmap Path (list byte)).

(** [hashed]: what the hasher was fed with. *)
Record AtomicWriter := {
  final_path : Path;
  temp_file : Path;
  file : bool;
  hashed : list byte;
  bytes_written : Z;
}.
Record AtomicWriteResult := { result_path : Path; result_bytes : Z; content_hash : list byte }.
Record ResumableWrite := { original_path : Path; resumable_temp : Path; resumable_bytes : Z }.

(** The temporary name of a file. *)
Definition temp_extension (uuid name : string) : string := default EmptyString (extension name) +:+ ".tmp." +:+ uuid.
Definition temp_of (uuid : string) (p : Path) : Path := with_extension (temp_extension uuid (file_name p)) p.

Section atomic.
Context `{Blake3}.
Abbreviation on_disk A := (Files → Files * outcome AtomicError A).

(** [created]: whether the directory and the file can be made. *)
Definition new (uuid : string) (created : bool) (p : Path) : on_disk AtomicWriter := λ d,
  if created then
    (<[temp_of uuid p := []]> d,
     Ok {| final_path := p; temp_file := temp_of uuid p; file := true; hashed := []; bytes_written := 0 |})
  else (d, Err AtomicIo).
(** [failed]: that the write fails after so many bytes. *)
Definition write (failed : option nat) (data : list byte) (self : AtomicWriter) : Files → Files * (AtomicWriter * outcome AtomicError unit) := λ d,
  if file self then
    match failed with
    | None => (alter (λ c, c ++ data) (temp_file self) d,
               ({| final_path := final_path self; temp_file := temp_file self; file := true; hashed := hashed self ++ data;
                   bytes_written := bytes_written self + zlen data |}, Ok tt))
    | Some n => (alter (λ c, c ++ take n data) (temp_file self) d, (self, Err AtomicIo))
    end
  else (d, (self, Err AlreadyFinalized)).
Definition sync (synced : bool) (self : AtomicWriter) : outcome AtomicError unit :=
  if file self then (if synced then Ok tt else Err AtomicIo) else Err AlreadyFinalized.
Definition rename (from to : Path) (d : Files) : Files * bool :=
  match d !! from with Some c => (<[to := c]> (delete from d), true) | None => (d, false) end.
Definition commit (synced : bool) (self : AtomicWriter) : on_disk AtomicWriteResult := λ d,
  match sync synced self with
  | Ok _ =>
      let '(d, renamed) := rename (temp_file self) (final_path self) d in
      (d, if renamed : bool then Ok {| result_path := final_path self; result_bytes := bytes_written self; content_hash := blake3 (hashed self) |}
          else Err AtomicIo)
  | Err e => (d, Err e)
  | Panic => (d, Panic)
  end.
(** A temporary file that cannot be removed is only logged. *)
Definition abort (removed : bool) (self : AtomicWriter) : on_disk unit := λ d,
  (if file self && removed then delete (temp_file self) d else d, Ok tt).
Definition current_hash (self : AtomicWriter) : list byte := blake3 (hashed self).

(** [entries]: the names that the directory lists, in its order; [None] if it cannot be read. *)
Fixpoint find_temp (dir : Path) (prefix : string) (entries : list string) (d : Files) : option (Path * Z) :=
  match entries with
  | [] => None
  | name :: entries =>
      if Proto.starts_with name prefix then
        match d !! (dir ++ [name]) with
        | Some c => Some (dir ++ [name], zlen c)
        | None => find_temp dir prefix entries d
        end
      else find_temp dir prefix entries d
  end.
Definition check_resumable_write (entries : option (list string)) (p : Path) (d : Files) : option ResumableWrite :=
  match p, entries with
  | [], _ | _, None => None
  | _, Some entries =>
      '(temp, n) ← find_temp (parent p) (file_name p +:+ ".tmp.") entries d;
      Some {| original_path := p; resumable_temp := temp; resumable_bytes := n |}
  end.
Definition resume (uuid : string) (opened : bool) (self : ResumableWrite) : on_disk AtomicWriter := λ d,
  match d !! resumable_temp self with
  | None => (d, Err AtomicIo)
  | Some existing =>
      if negb (zlen existing =? resumable_bytes self) then new uuid opened (original_path self) (delete (resumable_temp self) d)
      else if opened then
        (d, Ok {| final_path := original_path self; temp_file := resumable_temp self; file := true; hashed := existing;
                  bytes_written := resumable_bytes self |})
      else (d, Err AtomicIo)
  end.
Definition abandon (self : ResumableWrite) : on_disk unit := λ d,
  match d !! resumable_temp self with
  | Some _ => (delete (resumable_temp self) d, Ok tt)
  | None => (d, Err AtomicIo)
  end.

(** ** Lemmas *)

(** A writer whose temporary file holds what was hashed. *)
Definition writing (p : Path) (w : AtomicWriter) (d : Files) : Prop :=
  file w = true ∧ final_path w = p ∧ temp_file w ≠ p ∧ d !! temp_file w = Some (hashed w) ∧ bytes_written w = zlen (hashed w).
Fixpoint writes (ds : list (list byte)) (w : AtomicWriter) (d : Files) : Files * AtomicWriter :=
  match ds with [] => (d, w) | data :: ds => let '(d, (w, _)) := write None data w d in writes ds w d end.

Lemma last_dot_Some name a b : last_dot name = Some (a, b) → name = a +:+ "." +:+ b.
Proof.
  revert a b. induction name as [|c name IH]; intros a b; [done|]. cbn [last_dot].
  destruct (last_dot name) as [[a' b']|] eqn:Hd.
  - intros [= <- <-]. change (String c name = String c (a' +:+ "." +:+ b')). by rewrite (IH a' b').
  - destruct (Ascii.eqb_spec c dot) as [->|]; [|done]. by intros [= <- <-].
Qed.
Lemma temp_name_with_extension uuid name ext : extension name = Some ext →
  file_stem name +:+ "." +:+ temp_extension uuid name = name +:+ ".tmp." +:+ uuid.
Proof.
  intros He. unfold temp_extension. rewrite He. cbn [default]. unfold extension in He. unfold file_stem.
  destruct (last_dot name) as [[[|c a] b]|] eqn:Hd; [done| |done]. injection He as ->. apply last_dot_Some in Hd. rewrite Hd.
  by rewrite !string_app_assoc.
Qed.
Lemma temp_name_without_extension uuid name : extension name = None →
  file_stem name +:+ "." +:+ temp_extension uuid name = name +:+ "..tmp." +:+ uuid.
Proof.
  intros He. unfold temp_extension. rewrite He. cbn [default]. unfold extension in He. unfold file_stem.
  by destruct (last_dot name) as [[[|c a] b]|].
Qed.
Lemma temp_of_name uuid p : ∃ mid, file_name (temp_of uuid p) = file_name p +:+ mid ∧ (0 < String.length mid)%nat.
Proof.
  unfold temp_of, with_extension. rewrite file_name_app. destruct (extension (file_name p)) as [ext|] eqn:He.
  - rewrite (temp_name_with_extension uuid _ ext He). exists (".tmp." +:+ uuid). split; [done|rewrite string_length_app; cbn; lia].
  - rewrite (temp_name_without_extension uuid _ He). exists ("..tmp." +:+ uuid). split; [done|rewrite string_length_app; cbn; lia].
Qed.
Lemma temp_of_parent uuid p : temp_of uuid p = parent p ++ [file_name (temp_of uuid p)].
Proof. unfold temp_of, with_extension. by rewrite file_name_app. Qed.
Lemma temp_of_ne uuid p : temp_of uuid p ≠ p.
Proof.
  intros Heq. destruct (temp_of_name uuid p) as (mid & Hm & Hl). rewrite Heq in Hm.
  apply (f_equal String.length) in Hm. rewrite string_length_app in Hm. lia.
Qed.
Lemma new_writing uuid p d : ∃ w, new uuid true p d = (<[temp_of uuid p := []]> d, Ok w) ∧ writing p w (<[temp_of uuid p := []]> d) ∧ hashed w = [] ∧ temp_file w = temp_of uuid p.
Proof.
  eexists. split; [done|]. split; [|done]. unfold writing. cbn. split_and!; try done; [apply temp_of_ne|by rewrite lookup_insert_eq].
Qed.
Lemma writes_writing ds p w d : writing p w d → let '(d', w') := writes ds w d in
  writing p w' d' ∧ hashed w' = hashed w ++ concat ds ∧ temp_file w' = temp_file w ∧ ∀ q, q ≠ temp_file w → d' !! q = d !! q.
Proof.
  revert w d. induction ds as [|data ds IH]; intros w d Hw; cbn [writes concat]; [by rewrite app_nil_r|].
  pose proof Hw as (Hf & Hp & Hne & Hd & Hb). unfold write. rewrite Hf.
  set (w1 := {| final_path := _; temp_file := _; file := true; hashed := _; bytes_written := _ |}).
  assert (Hw1 : writing p w1 (alter (λ c, c ++ data) (temp_file w) d)).
  { unfold writing, w1. cbn. rewrite lookup_alter_eq, Hd, zlen_app, Hb. by split_and!. }
  specialize (IH w1 _ Hw1). destruct (writes ds w1 _) as [d' w']. destruct IH as (H1 & H2 & H3 & H4).
  split_and!; [done|by rewrite H2; cbn; rewrite app_assoc|done|]. intros q Hq. rewrite H4 by done. by apply lookup_alter_ne.
Qed.
Lemma commit_writing p w d : writing p w d →
  commit true w d = (<[p := hashed w]> (delete (temp_file w) d),
    Ok {| result_path := p; result_bytes := zlen (hashed w); content_hash := blake3 (hashed w) |}).
Proof. intros (Hf & Hp & Hne & Hd & Hb). unfold commit, sync, rename. by rewrite Hf, Hd, Hp, Hb. Qed.
Lemma find_temp_only dir prefix entries name c d : name ∈ entries → Proto.starts_with name prefix = true → d !! (dir ++ [name]) = Some c →
  (∀ n, n ∈ entries → Proto.starts_with n prefix = true → n = name) → find_temp dir prefix entries d = Some (dir ++ [name], zlen c).
Proof.
  intros Hin Hp Hd. induction entries as [|n entries IH]; intros Hall; [by apply elem_of_nil in Hin|]. cbn [find_temp].
  destruct (Proto.starts_with n prefix) eqn:Hn.
  - rewrite (Hall n (list_elem_of_here _ _) Hn), Hd. done.
  - apply elem_of_cons in Hin as [->|Hin]; [by rewrite Hp in Hn|]. apply IH; [done|]. intros m Hm. apply Hall. by right.
Qed.
Lemma find_temp_none dir prefix entries d : (∀ n, n ∈ entries → Proto.starts_with n prefix = false) → find_temp dir prefix entries d = None.
Proof.
  induction entries as [|n entries IH]; intros Hall; [done|]. cbn. rewrite (Hall n (list_elem_of_here _ _)). apply IH. intros m Hm. apply Hall. by right.
Qed.
Lemma prefix_app a b c : String.prefix (a +:+ b) (a +:+ c) = String.prefix b c.
Proof. 
  induction a as [|x a IH]; [done|].
  change ((if Ascii.ascii_dec x x then String.prefix (a +:+ b) (a +:+ c) else false) = String.prefix b c).
  by destruct (Ascii.ascii_dec x x) as [_|[]].
Qed.

(** ** Theorems *)

(** A file that is written atomically appears with all its data, the hash and the length of its data; until the commit, after
    whatever part of the writes, the file is what it was before. *)
Theorem atomic_write_is_all_or_nothing uuid p ds ds' d : let '(d1, r) := new uuid true p d in
  ∃ w, r = Ok w ∧ (let '(d2, w2) := writes ds w d1 in d2 !! p = d !! p ∧
    let '(d3, w3) := writes ds' w2 d2 in
    commit true w3 d3 = (<[p := concat (ds ++ ds')]> (delete (temp_of uuid p) d3),
      Ok {| result_path := p; result_bytes := zlen (concat (ds ++ ds')); content_hash := blake3 (concat (ds ++ ds')) |})).
Proof.
  destruct (new_writing uuid p d) as (w & -> & Hw & Hh & Ht). exists w. split; [done|]. pose proof (writes_writing ds p w _ Hw) as H1.
  destruct (writes ds w _) as [d2 w2]. destruct H1 as (Hw2 & Hh2 & Ht2 & Hd2). split.
  { rewrite Hd2 by (rewrite Ht; apply not_eq_sym, temp_of_ne). by rewrite lookup_insert_ne by apply temp_of_ne. }
  pose proof (writes_writing ds' p w2 _ Hw2) as H2. destruct (writes ds' w2 d2) as [d3 w3]. destruct H2 as (Hw3 & Hh3 & Ht3 & _).
  rewrite (commit_writing p w3 d3 Hw3), Hh3, Hh2, Hh, Ht3, Ht2, Ht, concat_app. done.
Qed.

(** C34: A write of a file with an extension that a crash interrupts is found and resumed: what is written further and committed is the
    data of before the crash and of after it, if the directory has no other temporary file of that name. *)
Theorem interrupted_write_resumes uuid uuid' p ext ds ds' d entries : let temp := temp_of uuid p in
  p ≠ [] → extension (file_name p) = Some ext → file_name temp ∈ entries →
  (∀ n, n ∈ entries → Proto.starts_with n (file_name p +:+ ".tmp.") = true → n = file_name temp) →
  ∃ d1 w, new uuid true p d = (d1, Ok w) ∧ let d2 := (writes ds w d1).1 in
  ∃ r w', check_resumable_write (Some entries) p d2 = Some r ∧ resume uuid' true r d2 = (d2, Ok w') ∧
    let '(d3, w3) := writes ds' w' d2 in
    (commit true w3 d3).1 !! p = Some (concat ds ++ concat ds') ∧
    (commit true w3 d3).2 = Ok {| result_path := p; result_bytes := zlen (concat ds ++ concat ds'); content_hash := blake3 (concat ds ++ concat ds') |}.
Proof.
  intros temp Hp He Hin Honly. destruct (new_writing uuid p d) as (w & Hn & Hw & Hh & Ht). do 2 eexists. split; [exact Hn|].
  pose proof (writes_writing ds p w _ Hw) as H1. destruct (writes ds w _) as [d2 w2]. destruct H1 as (Hw2 & Hh2 & Ht2 & _). cbn [fst].
  destruct Hw2 as (_ & _ & _ & Hd2 & _). rewrite Ht2, Ht, Hh2, Hh in Hd2. cbn [app] in Hd2.
  assert (Htemp : temp = parent p ++ [file_name temp]) by by apply temp_of_parent.
  set (w' := {| final_path := p; temp_file := temp; file := true; hashed := concat ds; bytes_written := zlen (concat ds) |}).
  exists {| original_path := p; resumable_temp := temp; resumable_bytes := zlen (concat ds) |}, w'. split_and!.
  - unfold check_resumable_write. destruct p as [|x p']; [done|].
    rewrite (find_temp_only _ _ entries (file_name temp) (concat ds)); [by rewrite <- Htemp|done| |by rewrite <- Htemp|done].
    unfold temp, temp_of, with_extension. rewrite file_name_app, (temp_name_with_extension uuid _ ext He). unfold Proto.starts_with. rewrite prefix_app. by destruct uuid.
  - unfold resume. cbn [resumable_temp resumable_bytes original_path]. change (d2 !! temp) with (d2 !! temp_of uuid p). by rewrite Hd2, Z.eqb_refl.
  - assert (Hw' : writing p w' d2) by (unfold writing, w'; cbn; split_and!; try done; apply temp_of_ne).
    pose proof (writes_writing ds' p w' d2 Hw') as H2. destruct (writes ds' w' d2) as [d3 w3]. destruct H2 as (Hw3 & Hh3 & _ & _).
    rewrite (commit_writing p w3 d3 Hw3), Hh3. cbn [fst snd w' hashed]. by rewrite lookup_insert_eq.
Qed.

(** A write of a file without an extension cannot be resumed: its temporary name has two dots, and one dot is looked for. *)
Theorem no_extension_no_resume uuid p d entries : extension (file_name p) = None →
  (∀ n, n ∈ entries → Proto.starts_with n (file_name p +:+ ".tmp.") = true → n = file_name (temp_of uuid p)) →
  check_resumable_write (Some entries) p d = None.
Proof.
  intros He Honly. unfold check_resumable_write. destruct p as [|x p]; [done|]. rewrite find_temp_none; [done|]. intros n Hn.
  destruct (Proto.starts_with n _) eqn:Hs; [|done]. rewrite (Honly n Hn Hs) in Hs. unfold temp_of, with_extension in Hs.
  rewrite file_name_app, (temp_name_without_extension uuid _ He) in Hs. unfold Proto.starts_with in Hs. by rewrite prefix_app in Hs.
Qed.
End atomic.

Module Examples.
#[local] Existing Instance RefHash.hash.
Definition notes : Path := ["home"; "notes.txt"].
Lemma interrupted_write_resumes_witness : ∃ d1 w, new "1" true notes ∅ = (d1, Ok w) ∧
  ∃ r w', check_resumable_write (Some ["a"; "notes.txt.tmp.1"]) notes (writes [[x01]; [x02]] w d1).1 = Some r ∧
  resume "2" true r (writes [[x01]; [x02]] w d1).1 = ((writes [[x01]; [x02]] w d1).1, Ok w').
Proof.
  destruct (interrupted_write_resumes "1" "2" notes "txt" [[x01]; [x02]] [[x03]] ∅ ["a"; "notes.txt.tmp.1"]) as (d1 & w & Hn & r & w' & Hc & Hr & _);
    [discriminate|reflexivity|right; left|intros n [->|[->|[]%elem_of_nil]%elem_of_cons]%elem_of_cons; [discriminate|reflexivity]|].
  exists d1, w. split; [exact Hn|]. exists r, w'. exact (conj Hc Hr).
Defined.
Lemma no_extension_no_resume_witness :
  check_resumable_write (Some ["Makefile..tmp.1"]) ["home"; "Makefile"] {[["home"; "Makefile..tmp.1"] := [x01]]} = None.
Proof.
  apply (no_extension_no_resume "1" ["home"; "Makefile"]); [reflexivity|]. intros n [->|[]%elem_of_nil]%elem_of_cons; discriminate.
Defined.
(** A write that fails half way and is repeated: the file has the first half twice, the hash is that of the data. *)
Example repeated_write :
  let '(d, r) := new "1" true notes ∅ in
  match r with
  | Ok w =>
      let '(d, (w, _)) := write (Some 1%nat) [x01; x02] w d in
      let '(d, (w, _)) := write None [x01; x02] w d in
      (commit true w d).1 !! notes = Some [x01; x01; x02] ∧
      (commit true w d).2 = Ok {| result_path := notes; result_bytes := 2; content_hash := blake3 [x01; x02] |}
  | _ => False
  end.
Proof. by vm_compute. Qed.
End Examples.
