(* ===== verification/HealthMonitor.v ===== *)
(** The health monitor of the connections: landro-quic/src/health_monitor.rs.

    Its loops and its recovery tasks take turns with the users of the pool. A check of all
    connections is one turn; the clock it reads for every peer is an argument. The rate of
    lost packets and the average of the round trips, floats, are parameters. *)

From S2P Require Import Prelude Resilience Pool.
From Stdlib Require Import ZArith Lia.
From stdpp Require Import base option list gmap sets strings pretty numbers sorting.
Open Scope Z_scope.

Inductive HealthStatus := Healthy | Degraded | Failing | Unhealthy.
#[export] Instance HealthStatus_eq_dec : EqDecision HealthStatus.
Proof. solve_decision. Defined.

Record ConnectionMetrics := {
  connection_id : string;
  metrics_addr : string;
  health_status : HealthStatus;
  rtt_ms : Z;
  packets_sent : Z;
  packets_lost : Z;
  bytes_sent : Z;
  bytes_received : Z;
  metrics_streams : Z;
  last_activity : Z;
  connection_age : Z;
  reconnect_count : Z;
  error_count : Z;
}.
(** [loss_above lost sent]: whether that rate is above the maximum. *)
Record HealthConfig := {
  check_interval : Z;
  unhealthy_threshold : Z;
  max_rtt_ms : Z;
  loss_above : Z → Z → bool;
  enable_auto_recovery : bool;
  recovery_timeout : Z;
}.
Definition HealthConfig_default (loss_above_5_percent : Z → Z → bool) : HealthConfig :=
  {| check_interval := 5 * 10 ^ 9; unhealthy_threshold := 30 * 10 ^ 9; max_rtt_ms := 500; loss_above := loss_above_5_percent;
     enable_auto_recovery := true; recovery_timeout := 10 * 10 ^ 9 |}.
Record HealthSummary := {
  summary_connections : Z;
  healthy_connections : Z;
  degraded_connections : Z;
  failing_connections : Z;
  unhealthy_connections : Z;
  average_rtt_ms : Z;
  total_bytes_transferred : Z;
  active_recoveries : Z;
}.

(** How far the task of a recovery is. *)
Inductive Recovery := Starting | Sleeping (until : Z) | Recovered | Failed (e : QuicError) | Crashed | Aborted.
Definition ended (r : Recovery) : bool := match r with Starting | Sleeping _ => false | _ => true end.

(** The two texts of an address: [ip:port], and its [Display]. *)
Class AddrText (SocketAddr : Type) := {
  ip_port : SocketAddr → string;
  addr_string : SocketAddr → string;
  ip_port_inj : Inj (=) (=) ip_port;
  addr_string_inj : Inj (=) (=) addr_string;
}.
#[export] Existing Instances ip_port_inj addr_string_inj.

(** [loops]: the monitoring tasks that run; [tasks]: every recovery that was spawned, [recovery_tasks]: the handles of some. *)
Record ConnectionHealthMonitor `{Countable SocketAddr} := {
  pool : ConnectionPool SocketAddr;
  config : HealthConfig;
  metrics : gmap string ConnectionMetrics;
  monitoring_active : bool;
  recovery_tasks : gmap string nat;
  tasks : list (SocketAddr * Recovery);
  loops : nat;
}.
Arguments ConnectionHealthMonitor SocketAddr {_ _}.

Section monitor.
Context (checked : bool) `{MapIter} `{Countable SocketAddr} `{!AddrText SocketAddr} (ratio : Z → Z → Z).
Implicit Types (p : SocketAddr).
Abbreviation monitor := (ConnectionHealthMonitor SocketAddr).

Definition new (pl : ConnectionPool SocketAddr) (cfg : HealthConfig) : monitor :=
  {| pool := pl; config := cfg; metrics := ∅; monitoring_active := false; recovery_tasks := ∅; tasks := []; loops := 0 |}.
Definition set_pool (pl : ConnectionPool SocketAddr) (self : monitor) : monitor :=
  {| pool := pl; config := config self; metrics := metrics self; monitoring_active := monitoring_active self;
     recovery_tasks := recovery_tasks self; tasks := tasks self; loops := loops self |}.
Definition set_metrics (m : gmap string ConnectionMetrics) (self : monitor) : monitor :=
  {| pool := pool self; config := config self; metrics := m; monitoring_active := monitoring_active self;
     recovery_tasks := recovery_tasks self; tasks := tasks self; loops := loops self |}.
Definition set_running (active : bool) (n : nat) (self : monitor) : monitor :=
  {| pool := pool self; config := config self; metrics := metrics self; monitoring_active := active;
     recovery_tasks := recovery_tasks self; tasks := tasks self; loops := n |}.
Definition set_tasks (handles : gmap string nat) (l : list (SocketAddr * Recovery)) (self : monitor) : monitor :=
  {| pool := pool self; config := config self; metrics := metrics self; monitoring_active := monitoring_active self;
     recovery_tasks := handles; tasks := l; loops := loops self |}.

Definition start (self : monitor) : monitor :=
  if monitoring_active self then self else set_running true (S (loops self)) self.
Definition abort (l : list (SocketAddr * Recovery)) '((_, i) : string * nat) : list (SocketAddr * Recovery) :=
  alter (λ '(p, r), (p, if ended r then r else Aborted)) i l.
Definition stop (self : monitor) : monitor :=
  set_tasks ∅ (foldl abort (tasks self) (map_iter (recovery_tasks self))) (set_running false (loops self) self).
Definition get_connection_metrics (k : string) (self : monitor) : option ConnectionMetrics := metrics self !! k.
Definition get_all_metrics (self : monitor) : gmap string ConnectionMetrics := metrics self.

(** [now]: the time at which the status is assessed. *)
Definition assess_health_status (now : Z) (m : ConnectionMetrics) (cfg : HealthConfig) : HealthStatus :=
  if unhealthy_threshold cfg <? Z.max 0 (now - last_activity m) then Unhealthy
  else if max_rtt_ms cfg <? rtt_ms m then Degraded
  else if (0 <? packets_sent m) && loss_above cfg (packets_lost m) (packets_sent m) then Failing
  else if 10 <? error_count m then Degraded
  else Healthy.
Definition trigger_recovery p (self : monitor) : monitor :=
  match recovery_tasks self !! addr_string p with
  | Some _ => self
  | None => set_tasks (<[addr_string p := length (tasks self)]> (recovery_tasks self)) (tasks self ++ [(p, Starting)]) self
  end.
Definition updated_metrics (old : option ConnectionMetrics) (now count : Z) p : ConnectionMetrics :=
  match old with
  | Some m =>
      {| connection_id := connection_id m; metrics_addr := metrics_addr m; health_status := health_status m; rtt_ms := rtt_ms m;
         packets_sent := packets_sent m; packets_lost := packets_lost m; bytes_sent := bytes_sent m; bytes_received := bytes_received m;
         metrics_streams := wrap 32 count; last_activity := now; connection_age := connection_age m; reconnect_count := reconnect_count m;
         error_count := error_count m |}
  | None =>
      {| connection_id := ip_port p; metrics_addr := addr_string p; health_status := Healthy; rtt_ms := 0; packets_sent := 0;
         packets_lost := 0; bytes_sent := 0; bytes_received := 0; metrics_streams := wrap 32 count; last_activity := now;
         connection_age := 0; reconnect_count := 0; error_count := 0 |}
  end.
Definition set_status (s : HealthStatus) (m : ConnectionMetrics) : ConnectionMetrics :=
  {| connection_id := connection_id m; metrics_addr := metrics_addr m; health_status := s; rtt_ms := rtt_ms m;
     packets_sent := packets_sent m; packets_lost := packets_lost m; bytes_sent := bytes_sent m; bytes_received := bytes_received m;
     metrics_streams := metrics_streams m; last_activity := last_activity m; connection_age := connection_age m;
     reconnect_count := reconnect_count m; error_count := error_count m |}.
Definition check_peer (now : Z) (clock : SocketAddr → Z) (x : gmap string ConnectionMetrics * monitor) '((p, count) : SocketAddr * Z) :
    gmap string ConnectionMetrics * monitor :=
  let '(updated, self) := x in
  let m := updated_metrics (metrics self !! ip_port p) now count p in
  let m := set_status (assess_health_status (clock p) m (config self)) m in
  (<[ip_port p := m]> updated,
   if bool_decide (health_status m = Unhealthy) && enable_auto_recovery (config self) then trigger_recovery p self else self).
Definition perform_health_check (now : Z) (clock : SocketAddr → Z) (self : monitor) : monitor :=
  let '(_, connections_per_peer) := get_pool_stats (pool self) in
  let '(updated, self) := foldl (check_peer now clock) (∅, self) (map_iter connections_per_peer) in
  set_metrics updated self.

(** A turn of a monitoring task. *)
Definition tick (now : Z) (clock : SocketAddr → Z) (self : monitor) : monitor :=
  match loops self with
  | O => self
  | S n => if monitoring_active self then perform_health_check now clock self else set_running false n self
  end.
(** A turn of the recovery that was spawned as the [i]-th. *)
Definition recover (i : nat) (now : Z) (connect : Z → Attempt) (self : monitor) : monitor :=
  match tasks self !! i with
  | Some (p, Starting) =>
      set_tasks (recovery_tasks self) (<[i := (p, Sleeping (now + recovery_timeout (config self)))]> (tasks self))
        (set_pool (remove_peer_connections p (pool self)) self)
  | Some (p, Sleeping until) =>
      if until <=? now then
        let '(pl, r) := get_connection checked p now connect (pool self) in
        set_tasks (recovery_tasks self)
          (<[i := (p, match r with Ok _ => Recovered | Err e => Failed e | Panic => Crashed end)]> (tasks self)) (set_pool pl self)
      else self
  | _ => self
  end.

Definition count_status (s : HealthStatus) (l : list ConnectionMetrics) : Z := zlen (filter (λ m, health_status m = s) l).
Fixpoint totals (l : list ConnectionMetrics) (rtt bytes : Z) : outcome unit (Z * Z) :=
  match l with
  | [] => mret (rtt, bytes)
  | m :: l =>
      rtt ← arith checked 64 (rtt + rtt_ms m);
      both ← arith checked 64 (bytes_sent m + bytes_received m);
      bytes ← arith checked 64 (bytes + both);
      totals l rtt bytes
  end.
Definition get_health_summary (self : monitor) : outcome unit HealthSummary :=
  let values := map snd (map_iter (metrics self)) in
  '(total_rtt, bytes) ← totals values 0 0;
  mret {| summary_connections := zlen values; healthy_connections := count_status Healthy values;
          degraded_connections := count_status Degraded values; failing_connections := count_status Failing values;
          unhealthy_connections := count_status Unhealthy values;
          average_rtt_ms := if 0 <? zlen values then ratio total_rtt (zlen values) else 0;
          total_bytes_transferred := bytes; active_recoveries := Z.of_nat (size (recovery_tasks self)) |}.

(** What happens to a monitor; the pool has its own users. *)
Inductive Event :=
  | Start
  | Stop
  | Tick (now : Z) (clock : SocketAddr → Z)
  | Turn (i : nat) (now : Z) (connect : Z → Attempt)
  | OfPool (ev : PoolEvent (SocketAddr := SocketAddr)).
Definition step (self : monitor) (ev : Event) : monitor :=
  match ev with
  | Start => start self
  | Stop => stop self
  | Tick now clock => tick now clock self
  | Turn i now connect => recover i now connect self
  | OfPool ev => set_pool (pool_event checked (pool self) ev) self
  end.
Definition run : monitor → list Event → monitor := foldl step.
End monitor.

(** ** Lemmas *)

Section lemmas.
Context (checked : bool) `{MapIter} `{Countable SocketAddr} `{!AddrText SocketAddr} (ratio : Z → Z → Z).
Implicit Types (p : SocketAddr) (self : ConnectionHealthMonitor SocketAddr).

(** Metrics in which the monitor has found nothing. *)
Definition untouched (m : ConnectionMetrics) : Prop :=
  health_status m = Healthy ∧ rtt_ms m = 0 ∧ packets_sent m = 0 ∧ bytes_sent m = 0 ∧ bytes_received m = 0 ∧ error_count m = 0.
Definition quiet self : Prop := map_Forall (λ _, untouched) (metrics self) ∧ tasks self = [] ∧ recovery_tasks self = ∅.
(** The clock of a check does not run away from it. *)
Definition prompt (cfg : HealthConfig) (ev : Event (SocketAddr := SocketAddr)) : Prop :=
  match ev with Tick now clock => ∀ p, clock p - now ≤ unhealthy_threshold cfg | _ => True end.

Lemma updated_assessed old now count p t cfg : match old with Some m => untouched m | None => True end →
  0 ≤ unhealthy_threshold cfg → 0 ≤ max_rtt_ms cfg → t - now ≤ unhealthy_threshold cfg →
  assess_health_status t (updated_metrics old now count p) cfg = Healthy.
Proof.
  intros Ho Hu Hr Ht. unfold assess_health_status.
  assert (Hm : last_activity (updated_metrics old now count p) = now ∧ rtt_ms (updated_metrics old now count p) = 0 ∧
    packets_sent (updated_metrics old now count p) = 0 ∧ error_count (updated_metrics old now count p) = 0).
  { destruct old as [m|]; [|done]. destruct Ho as (_ & Hrtt & Hsent & _ & _ & He). by split_and!. }
  destruct Hm as (-> & -> & -> & ->). cbn [Z.ltb Z.compare andb].
  rewrite (proj2 (Z.ltb_ge _ _)) by lia. by rewrite (proj2 (Z.ltb_ge _ _)) by lia.
Qed.
Lemma updated_untouched old now count p t cfg : match old with Some m => untouched m | None => True end →
  0 ≤ unhealthy_threshold cfg → 0 ≤ max_rtt_ms cfg → t - now ≤ unhealthy_threshold cfg →
  untouched (set_status (assess_health_status t (updated_metrics old now count p) cfg) (updated_metrics old now count p)).
Proof. intros Ho Hu Hr Ht. rewrite updated_assessed by done. by destruct old as [m|]; [destruct Ho as (? & ? & ? & ? & ? & ?)|]. Qed.

(** What a check writes for the peers, and that it triggers nothing. *)
Definition written now (clock : SocketAddr → Z) self p count : ConnectionMetrics :=
  let m := updated_metrics (metrics self !! ip_port p) now count p in set_status (assess_health_status (clock p) m (config self)) m.
Lemma check_peer_eq now clock updated self p n : check_peer now clock (updated, self) (p, n) =
  (<[ip_port p := written now clock self p n]> updated,
   if bool_decide (health_status (written now clock self p n) = Unhealthy) && enable_auto_recovery (config self) then trigger_recovery p self else self).
Proof. done. Qed.
Lemma check_peers_quiet now clock self l updated : quiet self → 0 ≤ unhealthy_threshold (config self) → 0 ≤ max_rtt_ms (config self) →
  (∀ p, clock p - now ≤ unhealthy_threshold (config self)) →
  foldl (check_peer now clock) (updated, self) l = (foldl (λ u '(p, n), <[ip_port p := written now clock self p n]> u) updated l, self).
Proof.
  intros (Hq & _) Hu Hr Hc. revert updated. induction l as [|[p n] l IH]; intros updated; [done|]. cbn [foldl].
  rewrite <- IH. f_equal. rewrite check_peer_eq.
  assert (Hw : untouched (written now clock self p n)).
  { apply updated_untouched; [|done..]. destruct (metrics self !! ip_port p) as [m|] eqn:Hm; [|done]. by apply (Hq _ _ Hm). }
  destruct Hw as (Hh & _). by rewrite bool_decide_eq_false_2 by (by rewrite Hh).
Qed.
Lemma insert_peers_lookup (f : SocketAddr → Z → ConnectionMetrics) l (u : gmap string ConnectionMetrics) p : NoDup l.*1 →
  foldl (λ u '(p, n), <[ip_port p := f p n]> u) u l !! ip_port p =
    match list_to_map (M := gmap SocketAddr Z) l !! p with Some n => Some (f p n) | None => u !! ip_port p end.
Proof.
  revert u. induction l as [|[q n] l IH]; intros u; cbn; [done|]. intros [Hq Hnd]%NoDup_cons. rewrite IH by done.
  destruct (decide (q = p)) as [->|Hne].
  - rewrite lookup_insert_eq, (not_elem_of_list_to_map_1 _ _ Hq). by rewrite lookup_insert_eq.
  - assert (ip_port q ≠ ip_port p) by (by intros ?%ip_port_inj). rewrite !lookup_insert_ne by done. by destruct (list_to_map l !! p).
Qed.
Lemma insert_peers_Forall (P : ConnectionMetrics → Prop) (f : SocketAddr → Z → ConnectionMetrics) l (u : gmap string ConnectionMetrics) :
  (∀ p n, P (f p n)) → map_Forall (λ _, P) u → map_Forall (λ _, P) (foldl (λ u '(p, n), <[ip_port p := f p n]> u) u l).
Proof. intros Hf. revert u. induction l as [|[p n] l IH]; intros u Hu; cbn; [done|]. apply IH. by apply map_Forall_insert_2. Qed.
Lemma peers_of_stats self p : list_to_map (M := gmap SocketAddr Z) (map_iter (get_stats (pool self))) !! p = get_stats (pool self) !! p.
Proof.
  rewrite (list_to_map_proper _ (map_to_list (get_stats (pool self)))); [by rewrite list_to_map_to_list|apply NoDup_map_iter|apply map_iter_perm].
Qed.
Lemma check_quiet now clock self : quiet self → 0 ≤ unhealthy_threshold (config self) → 0 ≤ max_rtt_ms (config self) →
  (∀ p, clock p - now ≤ unhealthy_threshold (config self)) → let self' := perform_health_check now clock self in
  quiet self' ∧ config self' = config self ∧
  ∀ p, metrics self' !! ip_port p = (λ n, written now clock self p n) <$> get_stats (pool self) !! p.
Proof.
  intros Hq Hu Hr Hc. unfold perform_health_check, get_pool_stats. rewrite check_peers_quiet by done. cbv zeta. split_and!; [|done|].
  - destruct Hq as (Hq & Ht & Hr'). split_and!; [|done..]. cbn [metrics set_metrics]. apply insert_peers_Forall; [|apply map_Forall_empty].
    intros p n. apply updated_untouched; [|done..]. destruct (metrics self !! ip_port p) as [m|] eqn:Hm; [|done]. by apply (Hq _ _ Hm).
  - intros p. cbn [metrics set_metrics]. rewrite (insert_peers_lookup (written now clock self)) by apply NoDup_map_iter. rewrite peers_of_stats.
    by destruct (get_stats (pool self) !! p).
Qed.
Lemma step_quiet self ev : quiet self → 0 ≤ unhealthy_threshold (config self) → 0 ≤ max_rtt_ms (config self) → prompt (config self) ev →
  quiet (step checked self ev) ∧ config (step checked self ev) = config self.
Proof.
  intros Hq Hu Hr Hp. pose proof Hq as (Hm & Ht & Hh). destruct ev as [| |now clock|i now connect|ev]; cbn [step].
  - unfold start. destruct (monitoring_active self); [done|]. done.
  - unfold stop. rewrite Hh, Ht, map_iter_empty. done.
  - unfold tick. destruct (loops self); [done|]. destruct (monitoring_active self); [|done].
    by destruct (check_quiet now clock self Hq Hu Hr Hp) as (? & ? & _).
  - unfold recover. by rewrite Ht.
  - done.
Qed.
Lemma run_quiet evs self : quiet self → 0 ≤ unhealthy_threshold (config self) → 0 ≤ max_rtt_ms (config self) →
  Forall (prompt (config self)) evs → quiet (run checked self evs) ∧ config (run checked self evs) = config self.
Proof.
  revert self. induction evs as [|ev evs IH]; intros self Hq Hu Hr Hp; [done|]. apply Forall_cons in Hp as [Hp1 Hp].
  destruct (step_quiet self ev Hq Hu Hr Hp1) as [Hq' Hc]. change (run checked self (ev :: evs)) with (run checked (step checked self ev) evs).
  rewrite <- Hc in Hu, Hr, Hp |- *. by apply IH.
Qed.
Lemma totals_untouched l : Forall untouched l → totals checked l 0 0 = Ok (0, 0).
Proof.
  induction l as [|m l IH]; [done|]. intros [(_ & Hr & _ & Hs & Hb & _) Hl]%Forall_cons. cbn [totals]. rewrite Hr, Hs, Hb.
  rewrite !arith_exact by lia. cbn [mbind outcome_bind Z.add]. by apply IH.
Qed.
Lemma count_untouched s l : Forall untouched l → count_status s l = if decide (s = Healthy) then zlen l else 0.
Proof.
  intros Hl. unfold count_status. destruct (decide (s = Healthy)) as [->|Hne].
  - f_equal. induction Hl as [|m l (Hm & _) _ IH]; [done|]. rewrite filter_cons_True by done. by rewrite IH.
  - assert (filter (λ m, health_status m = s) l = []) as ->; [|done].
    induction Hl as [|m l (Hm & _) _ IH]; [done|]. rewrite filter_cons_False; [done|]. by rewrite Hm.
Qed.
End lemmas.

(** ** Theorems *)

Section theorems.
Context (checked : bool) `{MapIter} `{Countable SocketAddr} `{!AddrText SocketAddr} (ratio : Z → Z → Z).
Implicit Types (p : SocketAddr) (self : ConnectionHealthMonitor SocketAddr).

(** Every check sets the time of the last activity, and nothing sets the counters: as long as a check takes less time than the
    threshold, every connection is healthy, whatever happens to it, no recovery is triggered, and the summary says so. The metrics
    are those of the peers that the pool has. *)
Theorem every_connection_is_healthy pl cfg evs : 0 ≤ unhealthy_threshold cfg → 0 ≤ max_rtt_ms cfg → Forall (prompt cfg) evs →
  let s := run checked (new pl cfg) evs in let n := zlen (map_iter (metrics s)) in
  map_Forall (λ _ m, health_status m = Healthy) (metrics s) ∧ tasks s = [] ∧
  get_health_summary checked ratio s =
    Ok {| summary_connections := n; healthy_connections := n; degraded_connections := 0; failing_connections := 0;
          unhealthy_connections := 0; average_rtt_ms := if 0 <? n then ratio 0 n else 0; total_bytes_transferred := 0; active_recoveries := 0 |} ∧
  ∀ now clock, prompt cfg (Tick now clock) → monitoring_active s = true → loops s ≠ 0%nat →
    ∀ p, metrics_streams <$> metrics (tick now clock s) !! ip_port p = wrap 32 <$> get_stats (pool s) !! p.
Proof.
  intros Hu Hr Hp s n. destruct (run_quiet checked evs (new pl cfg) ltac:(by split) Hu Hr Hp) as [Hq Hc]. fold s in Hq, Hc.
  pose proof Hq as (Hm & Ht & Hh). assert (Hall : Forall untouched (map snd (map_iter (metrics s)))).
  { apply Forall_map, Forall_forall. intros [k m] Hin%elem_of_map_iter. exact (Hm _ _ Hin). }
  split_and!; [by eapply map_Forall_impl; [exact Hm|intros k m (? & _)]|done| |].
  - unfold get_health_summary. rewrite totals_untouched by done. cbn [mbind outcome_bind]. rewrite !count_untouched by done.
    assert (zlen (map snd (map_iter (metrics s))) = n) as -> by (unfold n, zlen; by rewrite length_map).
    by rewrite Hh.
  - intros now clock Hpt Ha Hl p. unfold tick. destruct (loops s); [done|]. rewrite Ha. change cfg with (config (new pl cfg)) in Hu, Hr, Hpt.
    rewrite <- Hc in Hu, Hr, Hpt. destruct (check_quiet now clock s Hq Hu Hr Hpt) as (_ & _ & ->).
    destruct (get_stats (pool s) !! p); [|done]. cbn. f_equal. by destruct (metrics s !! ip_port p).
Qed.

(** Every recovery has its handle. *)
Definition handled self : Prop := ∀ i p r, tasks self !! i = Some (p, r) → recovery_tasks self !! addr_string p = Some i.
Lemma handled_alone self : handled self → NoDup (tasks self).*1.
Proof.
  intros Hh. apply NoDup_alt. intros i j p Hi Hj.
  apply list_lookup_fmap_Some in Hi as ([p1 r] & -> & Hi%Hh), Hj as ([p2 r'] & Heq & Hj%Hh). cbn in Heq. subst p2.
  rewrite Hi in Hj. by injection Hj.
Qed.
Lemma handled_trigger p self : handled self → handled (trigger_recovery p self).
Proof.
  intros Hh. unfold trigger_recovery. destruct (recovery_tasks self !! addr_string p) eqn:Hp; [done|]. intros i q r Hi. cbn in *.
  apply lookup_app_Some in Hi as [Hi|[Hlen Hi]].
  - specialize (Hh _ _ _ Hi). rewrite lookup_insert_ne; [done|]. intros Heq. by rewrite Heq, Hh in Hp.
  - apply list_lookup_singleton_Some in Hi as [Hz [= <- _]]. rewrite lookup_insert_eq. f_equal. lia.
Qed.
Lemma handled_check now clock self : handled self → handled (perform_health_check now clock self).
Proof.
  intros Hh. unfold perform_health_check. destruct (get_pool_stats (pool self)) as [total peers].
  assert (Hf : ∀ l x, handled x.2 → handled (foldl (check_peer now clock) x l).2).
  { induction l as [|[q n] l IH]; intros [u s] Hs; [done|]. cbn [foldl]. apply IH. rewrite check_peer_eq. cbn [snd] in *.
    destruct (_ && _); [by apply handled_trigger|done]. }
  specialize (Hf (map_iter peers) (∅, self) Hh). by destruct (foldl _ _ _).
Qed.
Lemma handled_replace self i p r r' pl : tasks self !! i = Some (p, r) → handled self →
  handled (set_tasks (recovery_tasks self) (<[i := (p, r')]> (tasks self)) (set_pool pl self)).
Proof.
  intros Hi Hh j q x Hj. cbn in *. apply list_lookup_insert_Some in Hj as [(-> & [= <- _] & _)|[_ Hj]]; by eapply Hh.
Qed.
Lemma handled_step self ev : ev ≠ Stop → handled self → handled (step checked self ev).
Proof.
  intros Hs Hh. destruct ev as [| |now clock|i now connect|ev]; cbn [step]; [|done| | |done].
  - unfold start. by destruct (monitoring_active self).
  - unfold tick. destruct (loops self); [done|]. destruct (monitoring_active self); [by apply handled_check|done].
  - unfold recover. destruct (tasks self !! i) as [[p [|until| | | |]]|] eqn:Hi; try done; [by eapply handled_replace|].
    destruct (until <=? now); [|done]. destruct (get_connection checked p now connect (pool self)). by eapply handled_replace.
Qed.

(** The handle of a recovery is not removed when it ends: however the clocks run, a peer is recovered at most once until the
    monitor is stopped, also when its recovery failed. *)
Theorem peers_are_recovered_once pl cfg evs : Stop ∉ evs → NoDup (tasks (run checked (new pl cfg) evs)).*1.
Proof.
  intros Hs. apply handled_alone. assert (Hh : handled (new pl cfg)) by (intros i p r; done). revert Hh. generalize (new pl cfg).
  induction evs as [|ev evs IH]; intros s Hh; [done|]. cbn. apply not_elem_of_cons in Hs as [Hne Hs]. apply IH; [done|].
  apply handled_step; [by apply not_eq_sym|done].
Qed.

(** A monitoring task notices only at its next tick that the monitor was stopped: whoever stops and starts it between two
    ticks has one task more every time, and all go on; without a start they end one by one at their ticks. *)
Theorem restarts_multiply_the_tasks pl cfg n ticks : let s := run checked (new pl cfg) (Start :: concat (repeat [Stop; Start] n)) in
  monitoring_active s = true ∧ loops s = S n ∧
  loops (run checked (stop s) (map (λ '(now, clock), Tick now clock) ticks)) = (S n - length ticks)%nat.
Proof.
  intros s. assert (Hs : monitoring_active s = true ∧ loops s = S n).
  { subst s. change (run checked (new pl cfg) (Start :: ?l)) with (run checked (start (new pl cfg)) l).
    assert (Hg : ∀ s0 : ConnectionHealthMonitor SocketAddr, monitoring_active s0 = true →
      monitoring_active (run checked s0 (concat (repeat [Stop; Start] n))) = true ∧
      loops (run checked s0 (concat (repeat [Stop; Start] n))) = (n + loops s0)%nat); [|by destruct (Hg (start (new pl cfg)) eq_refl) as [? ->]; cbn; split; [|lia]].
    clear. induction n as [|n IH]; intros s0 Ha; [done|]. destruct (IH (start (stop s0)) eq_refl) as [Ha' Hl]. split; [exact Ha'|].
    cbn [repeat concat app]. change (run checked s0 (Stop :: Start :: ?l)) with (run checked (start (stop s0)) l). rewrite Hl. cbn. lia. }
  destruct Hs as [Ha Hl]. split_and!; [done..|]. rewrite <- Hl. change (loops s) with (loops (stop s)).
  assert (Hoff : monitoring_active (stop s) = false) by done. revert Hoff. generalize (stop s). clear.
  induction ticks as [|[now clock] l IH]; intros s Hoff; [cbn; lia|]. cbn [map run foldl step length].
  change (foldl (step checked) ?a ?b) with (run checked a b). unfold tick. destruct (loops s) as [|k] eqn:Hk; [rewrite IH by done; lia|].
  rewrite Hoff. by rewrite IH.
Qed.
End theorems.

(** ** Concrete runs *)

Module Examples.
#[local] Existing Instance gmap_order.
(** Addresses as their texts. *)
#[local] Instance text_addr : AddrText string := {| ip_port := id; addr_string := id |}.
Definition config : HealthConfig := HealthConfig_default (λ lost sent, sent <? 20 * lost).
Definition peer : string := "10.0.0.2:9990".
Definition reach : Z → Attempt := λ _, Connects 1.
Definition busy (n : Z) (p : string) : Z := n * 10 ^ 9.
Definition start_pool : ConnectionPool string := new_pool Pool.Examples.config.

(** The connection is closed by its peer, and healthy. *)
Definition lost : list (Event (SocketAddr := string)) :=
  [OfPool (Get peer 0 reach); Start; Tick 5 (busy 0); OfPool (Lose 1); Tick (60 * 10 ^ 9) (busy 60)].
Lemma every_connection_is_healthy_witness :
  map_Forall (λ _ m, health_status m = Healthy) (metrics (run true (new start_pool config) lost)) ∧
  (health_status <$> metrics (run true (new start_pool config) lost) !! peer) = Some Healthy.
Proof.
  split; [|by vm_compute]. apply (every_connection_is_healthy true (λ _ _, 0) start_pool config lost); [vm_compute; discriminate..|].
  repeat constructor; intros p; vm_compute; discriminate.
Defined.

(** A check that takes 31 seconds; the recovery fails, the next slow check starts no other one. *)
Definition slow : list (Event (SocketAddr := string)) :=
  [OfPool (Get peer 0 reach); Start; Tick 0 (busy 31); Turn 0 0 reach; Turn 0 (10 * 10 ^ 9) (λ _, Refused QTimeout);
   OfPool (Get peer 1 reach); Tick 0 (busy 31)].
Lemma peers_are_recovered_once_witness :
  NoDup (tasks (run true (new start_pool config) slow)).*1 ∧ length (tasks (run true (new start_pool config) slow)) = 1%nat ∧
  (health_status <$> metrics (run true (new start_pool config) slow) !! peer) = Some Unhealthy.
Proof.
  split; [|by vm_compute]. apply (peers_are_recovered_once true). unfold slow.
  repeat (apply not_elem_of_cons; split; [discriminate|]). apply not_elem_of_nil.
Defined.
End Examples.
