(* ===== verification/Daemon.v ===== *)
(** The daemon: landro-daemon/src/daemon.rs over the server of [Handshake], [Discovery],
    [Indexer], [SyncOrchestrator] and the watchers of [Watcher].

    What the system and the libraries answer to a start are its arguments. The callback of
    a watcher starts a task for every batch of events, which keeps the indexer, the
    orchestrator and the discovery service of the run of the daemon that made the watcher:
    the tasks take their turns in any order, and stopping the daemon does not end them. The
    database of synchronisation states is a file of the device, which all orchestrators share
    and which outlives the daemon. *)

From S2P Require Import Prelude Bytes CasInterface Manifest.
From S2P Require Identity Certificates Handshake Resilience Discovery Security Chunker Transfer Conflict Indexer Watcher SyncState SyncOrchestrator.
From Stdlib Require Import ZArith Lia.
From stdpp Require Import base option list gmap sets strings pretty numbers sorting.
Open Scope Z_scope.

#[local] Existing Instance Indexer.FileType_eq_dec.
Abbreviation Path := Indexer.Path.
Record DaemonConfig := {
  bind_addr : string;
  storage_path : Path;
  device_name : string;
  auto_sync : bool;
  max_concurrent_transfers : Z;
}.
Definition DaemonConfig_default (name : string) : DaemonConfig :=
  {| bind_addr := "[::]:9876"; storage_path := [".landropic"]; device_name := name; auto_sync := true; max_concurrent_transfers := 4 |}.
Record DaemonStatus := {
  status_running : bool;
  status_name : string;
  status_addr : string;
  status_peers : Z;
  status_folders : Z;
}.
Inductive DaemonError :=
  | DaemonAlreadyRunning
  | DaemonNotRunning
  | DaemonIo
  | IndexFailed (e : Indexer.IndexError)
  | SyncFailed (e : SyncState.SyncError)
  | ServerFailed (e : Resilience.QuicError)
  | DiscoveryFailed (e : Discovery.DiscoveryError)
  | PathMissing (p : Path)
  | PathNotDirectory (p : Path)
  | WatchFailed (e : Watcher.StartError).

(** What a start finds: whether the directory can be made, the store and the index opened,
    the keys drawn, whether the address can be bound and which port it is, and what mDNS answers. *)
Record World `{Certificates.X509} {FileIndexer : Type} := {
  dir_created : bool;
  opened : option FileIndexer;
  random_key : list Byte.byte;
  tls_key : Certificates.KeyPair;
  clock : Z;
  bound : bool;
  local_port : option Z;
  daemon_ok : bool;
  timestamp : Z;
  hostname : string;
  mdns : Discovery.MdnsAnswers;
}.
Arguments World {_} FileIndexer.
(** The clocks and the file system while an event is handled. *)
Record Moment := {
  os : Indexer.System;
  index_now : Z;
  walk_fuel : nat;
  browse_now : Z;
  sync_clock : string → Z * Z;
}.

Section daemon.
Context (checked : bool) `{MapIter, SyncState.Formats, !SyncState.Sqlite, Transfer.PriorityQueue, Hex, Blake3, !Indexer.IndexDb,
  Security.Lowercase, Certificates.X509, Identity.Ed25519} {Store : Type} `{!ContentStore Store}.
Context (keys_match : list (list Byte.byte) → list Byte.byte → bool) (quic_accepts : bool) (chunker : Chunker.Chunker).
Abbreviation FileIndexer := (Indexer.FileIndexer (Store:=Store)).

(** [tasks]: the servers whose accept loops run. *)
Record Daemon := {
  config : DaemonConfig;
  running : bool;
  quic_server : option Handshake.QuicServer;
  discovery_service : option Discovery.DiscoveryService;
  sync_orchestrator : option SyncOrchestrator.SyncOrchestrator;
  file_watchers : list (Path * Watcher.FileWatcher);
  indexer : option FileIndexer;
  tasks : list Handshake.QuicServer;
}.
Abbreviation on_daemon := (st Daemon DaemonError).

Definition new (cfg : DaemonConfig) : Daemon :=
  {| config := cfg; running := false; quic_server := None; discovery_service := None; sync_orchestrator := None;
     file_watchers := []; indexer := None; tasks := [] |}.
Definition set_running (r : bool) (self : Daemon) : Daemon :=
  {| config := config self; running := r; quic_server := quic_server self; discovery_service := discovery_service self;
     sync_orchestrator := sync_orchestrator self; file_watchers := file_watchers self; indexer := indexer self; tasks := tasks self |}.
Definition set_state (q : option Handshake.QuicServer) (d : option Discovery.DiscoveryService)
    (o : option SyncOrchestrator.SyncOrchestrator) (i : option FileIndexer) (self : Daemon) : Daemon :=
  {| config := config self; running := running self; quic_server := q; discovery_service := d;
     sync_orchestrator := o; file_watchers := file_watchers self; indexer := i; tasks := tasks self |}.
Definition set_discovery (d : Discovery.DiscoveryService) (self : Daemon) : Daemon :=
  set_state (quic_server self) (Some d) (sync_orchestrator self) (indexer self) self.
Definition set_indexer (i : FileIndexer) (self : Daemon) : Daemon :=
  set_state (quic_server self) (discovery_service self) (sync_orchestrator self) (Some i) self.
Definition set_watchers (l : list (Path * Watcher.FileWatcher)) (self : Daemon) : Daemon :=
  {| config := config self; running := running self; quic_server := quic_server self; discovery_service := discovery_service self;
     sync_orchestrator := sync_orchestrator self; file_watchers := l; indexer := indexer self; tasks := tasks self |}.
Definition set_tasks (l : list Handshake.QuicServer) (self : Daemon) : Daemon :=
  {| config := config self; running := running self; quic_server := quic_server self; discovery_service := discovery_service self;
     sync_orchestrator := sync_orchestrator self; file_watchers := file_watchers self; indexer := indexer self; tasks := l |}.

(** ** Starting *)

Definition sync_config (cfg : DaemonConfig) : SyncOrchestrator.SyncConfig :=
  {| SyncOrchestrator.max_concurrent_transfers := max_concurrent_transfers cfg;
     SyncOrchestrator.default_conflict_resolution := SyncOrchestrator.default_conflict_resolution SyncOrchestrator.SyncConfig_default;
     SyncOrchestrator.database_path := Indexer.path_string (storage_path cfg ++ ["sync.db"]);
     SyncOrchestrator.auto_sync := auto_sync cfg |}.
Definition quic_config (addr : string) : Handshake.QuicConfig :=
  let d := Handshake.QuicConfig_default in
  {| Handshake.bind_addr := addr; Handshake.idle_timeout := Handshake.idle_timeout d; Handshake.keep_alive_interval := Handshake.keep_alive_interval d;
     Handshake.max_concurrent_bidi_streams := Handshake.max_concurrent_bidi_streams d;
     Handshake.max_concurrent_uni_streams := Handshake.max_concurrent_uni_streams d;
     Handshake.stream_receive_window := Handshake.stream_receive_window d; Handshake.receive_window := Handshake.receive_window d;
     Handshake.max_udp_payload_size := Handshake.max_udp_payload_size d; Handshake.initial_rtt_us := Handshake.initial_rtt_us d;
     Handshake.max_ack_delay_ms := Handshake.max_ack_delay_ms d; Handshake.enable_datagrams := Handshake.enable_datagrams d;
     Handshake.congestion_control := Handshake.congestion_control d; Handshake.send_buffer_size := Handshake.send_buffer_size d;
     Handshake.recv_buffer_size := Handshake.recv_buffer_size d |}.
Definition start_quic_server (w : World FileIndexer) : on_daemon Handshake.QuicServer := λ self,
  let identity := Identity.generate (random_key w) (device_name (config self)) in
  let server := Handshake.server_new identity Certificates.for_pairing (quic_config (bind_addr (config self))) in
  match Handshake.start keys_match quic_accepts (clock w) (tls_key w) (bound w) server with
  | (server, Ok _) => (set_tasks (tasks self ++ [server]) self, Ok server)
  | (_, Err e) => (self, Err (ServerFailed e))
  | (_, Panic) => (self, Panic)
  end.
Definition start_discovery_service (w : World FileIndexer) (port : Z) : on_daemon Discovery.DiscoveryService := λ self,
  match Discovery.new_service (daemon_ok w) (timestamp w) (hostname w) (device_name (config self)) with
  | Ok s =>
      let '(s, r) := Discovery.start_advertising (mdns w) port ["sync"; "transfer"; "v0.1.0"] s in
      (self, match r with Ok _ => Ok s | Err e => Err (DiscoveryFailed e) | Panic => Panic end)
  | Err e => (self, Err (DiscoveryFailed e))
  | Panic => (self, Panic)
  end.
(** [file]: the database of synchronisation states, if there is one. *)
Definition start (w : World FileIndexer) (file : option SyncState.SyncDatabase) : on_daemon unit :=
  self ← get_st;
  _ ← lift (fail_if (running self) DaemonAlreadyRunning);
  _ ← lift (fail_if (negb (dir_created w)) DaemonIo);
  i ← lift (ok_or DaemonIo (opened w));
  o ← lift (map_err SyncFailed (SyncOrchestrator.new (sync_config (config self)) file));
  server ← start_quic_server w;
  d ← start_discovery_service w (default 9876 (local_port w));
  _ ← modify_st (set_state (Some server) (Some d) (Some o) (Some i));
  modify_st (set_running true).

(** ** The callback of a watcher *)

Record Pipeline := {
  p_indexer : FileIndexer;
  p_sync : SyncOrchestrator.SyncOrchestrator;
  p_discovery : Discovery.DiscoveryService;
}.
Abbreviation pipeline := (st Pipeline unit).
Definition with_discovery (d : Discovery.DiscoveryService) (x : Pipeline) : Pipeline :=
  {| p_indexer := p_indexer x; p_sync := p_sync x; p_discovery := d |}.
Definition with_sync (o : SyncOrchestrator.SyncOrchestrator) (x : Pipeline) : Pipeline :=
  {| p_indexer := p_indexer x; p_sync := o; p_discovery := p_discovery x |}.
(** Whether the folder was indexed; an error is logged. *)
Definition index_changed (m : Moment) (p : Path) : pipeline bool := λ x,
  let '(i, r) := Indexer.index_folder checked (os m) Indexer.IndexerConfig_default chunker (index_now m) (walk_fuel m) p (p_indexer x) in
  ({| p_indexer := i; p_sync := p_sync x; p_discovery := p_discovery x |},
   match r with Ok _ => Ok true | Err _ => Ok false | Panic => Panic end).
Definition index_event (m : Moment) (e : Watcher.FileEvent) : pipeline bool :=
  match Watcher.fe_kind e with
  | Watcher.FCreated | Watcher.FModified => index_changed m (Watcher.fe_path e)
  | Watcher.FDeleted => mret true
  | Watcher.FRenamed _ to => index_changed m to
  end.

(** Where the task of a batch is: before its next event, before it takes the lock of the
    discovery service, or with that lock, which the [if let] keeps to its end, in the loop
    over the peers, before or after it has looked whether the peer is idle. *)
Inductive Phase :=
  | Next
  | Browsing (m : Moment)
  | Looping (m : Moment) (peers : list Discovery.PeerInfo)
  | Committing (m : Moment) (peer : Discovery.PeerInfo) (peers : list Discovery.PeerInfo).
(** The task, with the number of the run of the daemon whose objects it keeps. *)
Record Batch := { b_run : nat; b_todo : list (Moment * Watcher.FileEvent); b_phase : Phase }.
Definition at_phase (ph : Phase) (todo : list (Moment * Watcher.FileEvent)) (b : Batch) : Batch :=
  {| b_run := b_run b; b_todo := todo; b_phase := ph |}.
Definition holds_discovery (b : Batch) : bool :=
  match b_phase b with Looping _ _ | Committing _ _ _ => true | _ => false end.
(** A task that has nothing left to do, or has panicked. *)
Definition ended (b : Batch) : Batch := at_phase Next [] b.
(** A turn of a task; [locked]: another task holds the lock. *)
Definition batch_step (auto locked : bool) (b : Batch) (x : Pipeline) : Pipeline * Batch :=
  match b_phase b with
  | Next =>
      match b_todo b with
      | [] => (x, b)
      | (m, e) :: es =>
          match index_event m e x with
          | (x, Ok go) => (x, at_phase (if (go : bool) && auto then Browsing m else Next) es b)
          | (x, _) => (x, ended b)
          end
      end
  | Browsing m =>
      if locked : bool then (x, b)
      else
        match Discovery.browse_peers (browse_now m) (p_discovery x) with
        | (d, Ok peers) => (with_discovery d x, at_phase (Looping m peers) (b_todo b) b)
        | (d, Err _) => (with_discovery d x, at_phase Next (b_todo b) b)
        | (d, Panic) => (with_discovery d x, ended b)
        end
  | Looping m [] => (x, at_phase Next (b_todo b) b)
  | Looping m (peer :: peers) =>
      match SyncOrchestrator.check_idle (Discovery.device_id peer) (p_sync x) with
      | (_, Ok _) => (x, at_phase (Committing m peer peers) (b_todo b) b)
      | _ => (x, at_phase (Looping m peers) (b_todo b) b)
      end
  | Committing m peer peers =>
      let '(t, t') := sync_clock m (Discovery.device_id peer) in
      match SyncOrchestrator.begin_sync t t' (Discovery.device_id peer) (Discovery.device_name peer) (p_sync x) with
      | (o, Panic) => (with_sync o x, ended b)
      | (o, _) => (with_sync o x, at_phase (Looping m peers) (b_todo b) b)
      end
  end.

(** ** Folders *)

(** [created] and [watched]: whether notify's watcher can be made and watches; [before]: what happens to it until [start]
    of the watcher returns. *)
Definition add_sync_folder (m : Moment) (created watched : bool) (before : list Watcher.WatchStep) (p : Path) : on_daemon unit := λ self,
  match Indexer.m_type <$> Indexer.metadata (os m) p with
  | None => (self, Err (PathMissing p))
  | Some t =>
      if negb (bool_decide (t = Indexer.IsDir)) then (self, Err (PathNotDirectory p))
      else
        match indexer self, sync_orchestrator self, discovery_service self with
        | Some i, Some _, Some _ =>
            match Watcher.start p created watched with
            | Ok s =>
                let s := Watcher.start_returns (foldl Watcher.watch_step s before) in
                let '(i, r) := Indexer.index_folder checked (os m) Indexer.IndexerConfig_default chunker (index_now m) (walk_fuel m) p i in
                (set_indexer i (set_watchers (file_watchers self ++ [(p, s)]) self),
                 match r with Ok _ => Ok tt | Err e => Err (IndexFailed e) | Panic => Panic end)
            | Err e => (self, Err (WatchFailed e))
            | Panic => (self, Panic)
            end
        | _, _, _ => (self, Panic)
        end
  end.
Definition remove_sync_folder (p : Path) (self : Daemon) : Daemon :=
  set_watchers (filter (λ w, w.1 ≠ p) (file_watchers self)) self.
Definition list_sync_folders (self : Daemon) : list Path := map fst (file_watchers self).

(** ** Stopping and status *)

Definition stop_discovery (a : Discovery.MdnsAnswers) : on_daemon unit := λ self,
  match discovery_service self with
  | Some d =>
      let '(d, r) := Discovery.stop a d in
      (set_discovery d self, match r with Ok _ => Ok tt | Err e => Err (DiscoveryFailed e) | Panic => Panic end)
  | None => (self, Ok tt)
  end.
Definition stop (a : Discovery.MdnsAnswers) : on_daemon unit :=
  self ← get_st;
  _ ← lift (fail_if (negb (running self)) DaemonNotRunning);
  _ ← stop_discovery a;
  _ ← modify_st (set_watchers []);
  _ ← modify_st (set_tasks []);
  _ ← modify_st (set_state None None None None);
  modify_st (set_running false).
Definition is_running (self : Daemon) : bool := running self.
Definition get_status (self : Daemon) : DaemonStatus :=
  {| status_running := is_running self; status_name := device_name (config self); status_addr := bind_addr (config self);
     status_peers := match sync_orchestrator self with Some o => Z.of_nat (size (SyncOrchestrator.get_peer_states o)) | None => 0 end;
     status_folders := zlen (file_watchers self) |}.

(** ** A device: the daemon, the file of its synchronisation states, the tasks of the watchers *)

(** [current]: the number of the last run of the daemon; [lingering]: the objects of earlier
    runs, which their tasks keep. *)
Record Device := {
  daemon : Daemon;
  sync_file : option SyncState.SyncDatabase;
  current : nat;
  lingering : gmap nat Pipeline;
  batches : list Batch;
}.
Definition fresh_device (cfg : DaemonConfig) : Device :=
  {| daemon := new cfg; sync_file := None; current := 0; lingering := ∅; batches := [] |}.
Definition set_daemon (d : Daemon) (x : Device) : Device :=
  {| daemon := d; sync_file := sync_file x; current := current x; lingering := lingering x; batches := batches x |}.
Definition set_batches (bs : list Batch) (x : Device) : Device :=
  {| daemon := daemon x; sync_file := sync_file x; current := current x; lingering := lingering x; batches := bs |}.
Definition daemon_pipeline (self : Daemon) : option Pipeline :=
  match indexer self, sync_orchestrator self, discovery_service self with
  | Some i, Some o, Some d => Some {| p_indexer := i; p_sync := o; p_discovery := d |}
  | _, _, _ => None
  end.
(** The objects of a run. *)
Definition pipeline_of (r : nat) (x : Device) : option Pipeline :=
  match (if decide (r = current x) then daemon_pipeline (daemon x) else None) with
  | Some pl => Some pl
  | None => lingering x !! r
  end.
(** An orchestrator reads and writes the file. *)
Definition refresh (file : option SyncState.SyncDatabase) (pl : Pipeline) : Pipeline :=
  with_sync (SyncOrchestrator.set_database (SyncState.initialize file) (p_sync pl)) pl.
Definition put_pipeline (r : nat) (pl : Pipeline) (x : Device) : Device :=
  let file := Some (SyncOrchestrator.database (p_sync pl)) in
  match (if decide (r = current x) then daemon_pipeline (daemon x) else None) with
  | Some _ =>
      {| daemon := set_state (quic_server (daemon x)) (Some (p_discovery pl)) (Some (p_sync pl)) (Some (p_indexer pl)) (daemon x);
         sync_file := file; current := current x; lingering := lingering x; batches := batches x |}
  | None =>
      {| daemon := daemon x; sync_file := file; current := current x; lingering := <[r := pl]> (lingering x);
         batches := batches x |}
  end.
Definition locked (r : nat) (x : Device) : bool :=
  existsb (λ b, (b_run b =? r)%nat && holds_discovery b) (batches x).

(** [LateRecord]: a peer that the aborted task of a stopped discovery service was still
    entering. *)
Inductive Event :=
  | Start (w : World FileIndexer)
  | Stop (a : Discovery.MdnsAnswers)
  | AddFolder (m : Moment) (created watched : bool) (before : list Watcher.WatchStep) (p : Path)
  | RemoveFolder (p : Path)
  | Discovered (ev : Discovery.ServiceEvent)
  | Killed
  | Spawn (r : nat) (es : list (Moment * Watcher.FileEvent))
  | Turn (i : nat)
  | LateRecord (r : nat) (peer : Discovery.PeerInfo).
Definition device_event (x : Device) (ev : Event) : Device :=
  match ev with
  | Start w =>
      match start w (sync_file x) (daemon x) with
      | (d, Ok _) =>
          {| daemon := d; sync_file := Some (SyncState.initialize (sync_file x)); current := S (current x);
             lingering := lingering x; batches := batches x |}
      | (d, _) => set_daemon d x
      end
  | Stop a =>
      (* It waits for the lock of the discovery service. *)
      if locked (current x) x then x
      else
        let d := (stop a (daemon x)).1 in
        match daemon_pipeline (daemon x), daemon_pipeline d with
        | Some pl, None =>
            {| daemon := d; sync_file := sync_file x; current := current x;
               lingering := <[current x := with_discovery (Discovery.stop a (p_discovery pl)).1 pl]> (lingering x);
               batches := batches x |}
        | _, _ => set_daemon d x
        end
  | AddFolder m created watched before p => set_daemon (add_sync_folder m created watched before p (daemon x)).1 x
  | RemoveFolder p => set_daemon (remove_sync_folder p (daemon x)) x
  | Discovered ev =>
      match discovery_service (daemon x) with
      | Some d => set_daemon (set_discovery (Discovery.process_event ev d) (daemon x)) x
      | None => x
      end
  | Killed =>
      {| daemon := new (config (daemon x)); sync_file := sync_file x; current := current x; lingering := ∅; batches := [] |}
  | Spawn r es =>
      match pipeline_of r x with
      | Some _ => set_batches (batches x ++ [{| b_run := r; b_todo := es; b_phase := Next |}]) x
      | None => x
      end
  | Turn i =>
      match batches x !! i with
      | Some b =>
          match pipeline_of (b_run b) x with
          | Some pl =>
              let '(pl, b') := batch_step (auto_sync (config (daemon x))) (locked (b_run b) x) b (refresh (sync_file x) pl) in
              put_pipeline (b_run b) pl (set_batches (<[i := b']> (batches x)) x)
          | None => x
          end
      | None => x
      end
  | LateRecord r peer =>
      match lingering x !! r with
      | Some pl =>
          {| daemon := daemon x; sync_file := sync_file x; current := current x;
             lingering := <[r := with_discovery (Discovery.update_peer peer (p_discovery pl)) pl]> (lingering x);
             batches := batches x |}
      | None => x
      end
  end.
Definition run : Device → list Event → Device := foldl device_event.
End daemon.

(** ** Lemmas *)

#[local] Abbreviation Orchestrator := SyncOrchestrator.SyncOrchestrator.
#[local] Abbreviation start_sync := SyncOrchestrator.start_sync.
#[local] Abbreviation starting := SyncOrchestrator.starting.
#[local] Abbreviation peers_match := SyncState.peers_match.

(** The peers that are negotiating or transferring in a table, in memory or of the file. *)
Definition busy (m : gmap string SyncState.PeerSyncState) (p : string) : Prop :=
  ∃ s, m !! p = Some s ∧ SyncOrchestrator.active s = true.
Definition active_in (o : Orchestrator) (p : string) : Prop := busy (SyncOrchestrator.peer_states o) p.
Lemma busy_started k name m : busy (<[k := starting k name]> m) k.
Proof. exists (starting k name). by rewrite lookup_insert_eq. Qed.
Lemma busy_starting k name m p : busy m p → busy (<[k := starting k name]> m) p.
Proof.
  destruct (decide (k = p)) as [->|Hne]; [intros _; apply busy_started|]. intros (s & Hs & Ha). exists s. by rewrite lookup_insert_ne.
Qed.
Lemma busy_inv k name m p : busy (<[k := starting k name]> m) p → p = k ∨ busy m p.
Proof.
  intros (s & Hs & Ha). destruct (decide (k = p)) as [->|Hne]; [by left|right].
  rewrite lookup_insert_ne in Hs by done. by exists s.
Qed.
Lemma check_idle_active o o' p r : SyncOrchestrator.check_idle p o = (o', r) → r = Ok tt ↔ ¬ active_in o p.
Proof.
  rewrite SyncOrchestrator.check_idle_eq. intros [= _ <-]. unfold active_in, busy.
  destruct (SyncOrchestrator.peer_states o !! p) as [s|]; [|split; [by intros _ (? & ? & _)|done]].
  destruct (SyncOrchestrator.active s) eqn:Ha; split; [done|intros Hn; destruct Hn; by exists s| |done].
  intros _ (? & [= <-] & ?). congruence.
Qed.

(** The phases from which a task starts no synchronisation while the discovery service knows no peer. *)
Definition quiet (ph : Phase) : Prop :=
  match ph with Next | Browsing _ | Looping _ [] => True | _ => False end.
Definition committing (ph : Phase) (p : string) : Prop :=
  match ph with Committing _ peer _ => Discovery.device_id peer = p | _ => False end.

Section lemmas.
Context (checked : bool) `{MapIter, SyncState.Formats, !SyncState.Sqlite, Transfer.PriorityQueue, Hex, Blake3, !Indexer.IndexDb,
  Security.Lowercase, Certificates.X509, Identity.Ed25519} {Store : Type} `{!ContentStore Store}.
Context (keys_match : list (list Byte.byte) → list Byte.byte → bool) (quic_accepts : bool) (chunker : Chunker.Chunker).
Implicit Types (self d : Daemon (Store:=Store)) (pl : Pipeline (Store:=Store)) (x y : Device (Store:=Store)).
Abbreviation start := (start keys_match quic_accepts).
Abbreviation batch_step := (batch_step checked chunker).
#[local] Set Default Proof Using "Type".

(** *** What the operations of the daemon do to its objects *)

(** Nothing happens to the orchestrator, nor to whether the daemon and its discovery service run. *)
Record carries self d : Prop := {
  c_running : is_Some (daemon_pipeline d) → running d = running self;
  c_pipeline pl : daemon_pipeline d = Some pl → ∃ pl0, daemon_pipeline self = Some pl0 ∧ p_sync pl = p_sync pl0 ∧
    Discovery.running (p_discovery pl) = Discovery.running (p_discovery pl0);
  c_keeps : is_Some (daemon_pipeline self) → is_Some (daemon_pipeline d);
}.
Lemma carries_refl self d : running d = running self → daemon_pipeline d = daemon_pipeline self → carries self d.
Proof. intros Hr Hp. split; [done| |by rewrite Hp]. rewrite Hp. intros pl Hpl. by exists pl. Qed.
Lemma daemon_pipeline_Some self pl : daemon_pipeline self = Some pl ↔
  indexer self = Some (p_indexer pl) ∧ sync_orchestrator self = Some (p_sync pl) ∧ discovery_service self = Some (p_discovery pl).
Proof.
  unfold daemon_pipeline. destruct pl as [i o d]; cbn.
  destruct (indexer self), (sync_orchestrator self), (discovery_service self); naive_solver.
Qed.

(** The indexer and the discovery service can be exchanged for others. *)
Lemma carries_by self d : running d = running self → sync_orchestrator d = sync_orchestrator self →
  (is_Some (indexer d) ↔ is_Some (indexer self)) →
  (∀ s', discovery_service d = Some s' → ∃ s, discovery_service self = Some s ∧ Discovery.running s' = Discovery.running s) →
  (is_Some (discovery_service self) → is_Some (discovery_service d)) → carries self d.
Proof.
  intros Hr Ho Hi Hs Hs'. split; [done| |].
  2:{ unfold daemon_pipeline. rewrite Ho. intros [pl Hpl]. destruct (indexer self), (sync_orchestrator self), (discovery_service self); try done.
      destruct Hs' as [? ->]; [done|]. by destruct (proj2 Hi) as [? ->]. }
  intros pl (Hpi & Hpo & Hps)%daemon_pipeline_Some. destruct (Hs _ Hps) as (s & Hs0 & Hrs).
  destruct (proj1 Hi) as [i Hi']; [by eexists|]. exists {| p_indexer := i; p_sync := p_sync pl; p_discovery := s |}.
  split; [apply daemon_pipeline_Some; cbn; by rewrite <- Ho|done].
Qed.

Lemma advertising_runs a port caps s s' : Discovery.start_advertising a port caps s = (s', Ok tt) → Discovery.running s' = true.
Proof.
  unfold Discovery.start_advertising. erewrite st_bind_eq by done. intros Hs.
  repeat (apply st_bind_Ok in Hs as (? & ? & _ & Hs)). by injection Hs as <-.
Qed.
Lemma start_cases w file self : match start w file self with
  | (d, Ok _) => running self = false ∧ running d = true ∧ ∃ pl, daemon_pipeline d = Some pl ∧
      SyncOrchestrator.new (sync_config (config self)) file = Ok (p_sync pl) ∧ Discovery.running (p_discovery pl) = true
  | (d, _) => carries self d
  end.
Proof.
  unfold Daemon.start. erewrite st_bind_eq by done. unfold mbind, st_bind, lift.
  destruct (running self) eqn:Hr; [by apply carries_refl|]. cbn [fail_if]. destruct (dir_created w); [|by apply carries_refl]. cbn.
  destruct (opened w) as [i|]; [|by apply carries_refl]. cbn.
  destruct (SyncOrchestrator.new _ file) as [o|e|] eqn:Hnew; [|by apply carries_refl..]. cbn.
  unfold start_quic_server. destruct (Handshake.start _ _ _ _ _ _) as [server [[]|e|]]; [|by apply carries_refl..]. cbn.
  unfold start_discovery_service. destruct (Discovery.new_service _ _ _ _) as [s|e|]; [|by apply carries_refl..].
  destruct (Discovery.start_advertising _ _ _ s) as [s' [[]|e|]] eqn:Hs; [|by apply carries_refl..]. cbn.
  split_and!; [done..|]. exists {| p_indexer := i; p_sync := o; p_discovery := s' |}. split_and!; [done..|]. by eapply advertising_runs.
Qed.
Lemma stop_service a s : Discovery.running s = true → match Discovery.stop a s with
  | (s', Ok _) => Discovery.discovered_peers s' = ∅
  | (s', _) => Discovery.running s' = true
  end.
Proof.
  intros Hr. unfold Discovery.stop. erewrite st_bind_eq by done. rewrite Hr. unfold mbind, st_bind, lift, modify_st.
  by destruct (negb (_ && _)).
Qed.
Lemma stop_cases a self : match stop a self with
  | (d, Ok _) => daemon_pipeline d = None ∧ ∀ pl, daemon_pipeline self = Some pl → Discovery.running (p_discovery pl) = true →
      Discovery.discovered_peers (Discovery.stop a (p_discovery pl)).1 = ∅
  | (d, _) => (∀ pl, daemon_pipeline self = Some pl → Discovery.running (p_discovery pl) = true) → carries self d
  end.
Proof.
  unfold stop. erewrite st_bind_eq by done. unfold mbind, st_bind, lift.
  destruct (running self) eqn:Hr; cbn [negb fail_if]; [|intros _; by apply carries_refl]. unfold stop_discovery.
  destruct (discovery_service self) as [s|] eqn:Hd.
  - pose proof (stop_service a s) as Hs.
    assert (Hkeep : ∀ s', Discovery.running s' = true → (∀ pl, daemon_pipeline self = Some pl → Discovery.running (p_discovery pl) = true) →
      carries self (set_discovery s' self)).
    { intros s' Hs' Hrun. split; [done| |by unfold daemon_pipeline; cbn; destruct (indexer self), (sync_orchestrator self); rewrite ?Hd]. intros pl (Hi & Ho & Hpl)%daemon_pipeline_Some. cbn in Hi, Ho, Hpl. injection Hpl as Hpl.
      assert (Hp : daemon_pipeline self = Some {| p_indexer := p_indexer pl; p_sync := p_sync pl; p_discovery := s |})
        by by apply daemon_pipeline_Some.
      eexists. split; [exact Hp|]. split; [done|]. by rewrite (Hrun _ Hp), <- Hpl. }
    destruct (Discovery.running s) eqn:Hrs; [|by unfold Discovery.stop; erewrite st_bind_eq by done; rewrite Hrs; cbn;
      split; [done|]; intros pl (_ & _ & Hpl)%daemon_pipeline_Some; rewrite Hd in Hpl; injection Hpl as <-; rewrite Hrs].
    specialize (Hs eq_refl). destruct (Discovery.stop a s) as [s' [[]|e|]] eqn:Hst; cbn; [|by apply Hkeep..].
    split; [done|]. intros pl (_ & _ & Hpl)%daemon_pipeline_Some _. rewrite Hd in Hpl. injection Hpl as <-. by rewrite Hst.
  - cbn. split; [done|]. intros pl (_ & _ & Hpl)%daemon_pipeline_Some. congruence.
Qed.
Lemma add_folder_carries m created watched before p self :
  carries self (add_sync_folder checked chunker m created watched before p self).1.
Proof.
  unfold add_sync_folder. destruct (Indexer.m_type <$> _) as [ty|]; [|by apply carries_refl]. case_bool_decide; [|by apply carries_refl].
  cbn [negb]. destruct (indexer self) as [i|] eqn:Hi; [|by apply carries_refl].
  destruct (sync_orchestrator self) as [o|] eqn:Ho; [|by apply carries_refl].
  destruct (discovery_service self) as [s|] eqn:Hd; [|by apply carries_refl].
  destruct (Watcher.start p created watched); [|by apply carries_refl..].
  destruct (Indexer.index_folder _ _ _ _ _ _ _ _). cbn. apply carries_by; cbn; [done|done|by rewrite Hi| |done]. intros s'. rewrite Hd. intros [= <-]. by exists s.
Qed.

(** *** A turn of a task *)

Lemma index_event_keeps m e pl : match (index_event checked chunker m e pl).1 with
  pl' => p_sync pl' = p_sync pl ∧ p_discovery pl' = p_discovery pl end.
Proof.
  assert (Hi : ∀ q, let pl' := (index_changed checked chunker m q pl).1 in p_sync pl' = p_sync pl ∧ p_discovery pl' = p_discovery pl)
    by (intros q; unfold index_changed; by destruct (Indexer.index_folder _ _ _ _ _ _ _ _)).
  unfold index_event. by destruct (Watcher.fe_kind e).
Qed.
(** Every turn keeps the memory of the orchestrator, but the one that starts a synchronisation. *)
Record idle_turn (locked : bool) (b : Batch) (pl : Pipeline (Store:=Store)) (b' : Batch) (pl' : Pipeline (Store:=Store)) : Prop := {
  it_sync : p_sync pl' = p_sync pl;
  it_running : Discovery.running (p_discovery pl') = Discovery.running (p_discovery pl);
  it_peers : Discovery.discovered_peers (p_discovery pl) = ∅ → Discovery.discovered_peers (p_discovery pl') = ∅;
  it_lock : holds_discovery b' = true → holds_discovery b = true ∨ locked = false;
  it_commit p : committing (b_phase b') p → ¬ active_in (p_sync pl) p;
  it_quiet : Discovery.discovered_peers (p_discovery pl) = ∅ → quiet (b_phase b) → quiet (b_phase b');
}.
Definition begins (b : Batch) (pl : Pipeline (Store:=Store)) (b' : Batch) (pl' : Pipeline (Store:=Store)) : Prop :=
  ∃ m peer peers t t', b_phase b = Committing m peer peers ∧
  SyncOrchestrator.begin_sync t t' (Discovery.device_id peer) (Discovery.device_name peer) (p_sync pl) = (p_sync pl', Ok tt) ∧
  p_discovery pl' = p_discovery pl ∧ b_phase b' = Looping m peers.
Lemma browse_service now s s' peers : Discovery.browse_peers now s = (s', Ok peers) →
  Discovery.running s' = Discovery.running s ∧ (Discovery.discovered_peers s = ∅ → Discovery.discovered_peers s' = ∅ ∧ peers = []).
Proof.
  intros [= <- <-]. split; [done|]. intros Hs. cbn. rewrite Hs, map_filter_empty. split; [done|].
  destruct (map_iter ∅) as [|[k peer] l] eqn:Hl; [done|]. exfalso.
  assert (Hin : (k, peer) ∈ map_iter (∅ : gmap string Discovery.PeerInfo)) by (rewrite Hl; by left).
  by apply elem_of_map_iter in Hin.
Qed.
Lemma batch_step_cases auto lk b pl : match batch_step auto lk b pl with
  | (pl', b') => b_run b' = b_run b ∧ (idle_turn lk b pl b' pl' ∨ begins b pl b' pl')
  end.
Proof using Type*.
  unfold Daemon.batch_step. destruct (b_phase b) as [|m|m [|peer peers]|m peer peers] eqn:Hph.
  - destruct (b_todo b) as [|[m e] es]; [split; [done|left]; split; try done; [by left|by rewrite Hph]|].
    pose proof (index_event_keeps m e pl) as [Ho Hs]. destruct (index_event _ _ m e pl) as [pl' [go|e'|]]; cbn in Ho, Hs;
      (split; [done|left]; split; rewrite ?Hs; cbn; try done; by destruct (_ && auto)).
  - destruct lk; [split; [done|left]; split; rewrite ?Hph; auto|].
    destruct (Discovery.browse_peers _ _) as [s [peers|e|]] eqn:Hb; [|done..]. pose proof (browse_service _ _ _ _ Hb) as [Hr Hp].
    split; [done|left]. split; cbn; try done; [naive_solver|by right|]. intros He. by destruct (Hp He) as [_ ->].
  - split; [done|left]. by split.
  - destruct (SyncOrchestrator.check_idle _ _) as [o r] eqn:Hc. pose proof (check_idle_active _ _ _ _ Hc) as Hr.
    destruct r as [[]|e|]; (split; [done|left]); split; cbn; rewrite ?Hph; try done; unfold holds_discovery; rewrite ?Hph; try (by left).
    intros p <-. by apply Hr.
  - destruct (sync_clock m _) as [t t'] eqn:Ht.
    destruct (SyncOrchestrator.begin_sync_eq t t' (Discovery.device_id peer) (Discovery.device_name peer) (p_sync pl))
      as (row & o & _ & Hb & _). rewrite Hb. split; [done|right]. by exists m, peer, peers, t, t'.
Qed.

(** *** The objects of the runs *)

Lemma pipeline_of_put r pl0 pl x r' : pipeline_of r x = Some pl0 →
  pipeline_of r' (put_pipeline r pl x) = if decide (r' = r) then Some pl else pipeline_of r' x.
Proof.
  intros Hr. unfold put_pipeline, pipeline_of in *. destruct (decide (r = current x)) as [->|Hrc].
  - destruct (daemon_pipeline (daemon x)) as [pl1|] eqn:Hd.
    + cbn. destruct (decide (r' = current x)) as [->|Hne]; [by destruct pl|done].
    + cbn. destruct (decide (r' = current x)) as [->|Hne]; [by rewrite Hd, lookup_insert_eq|by rewrite lookup_insert_ne].
  - cbn. destruct (decide (r' = current x)) as [->|Hne].
    + rewrite decide_False by congruence. by rewrite lookup_insert_ne.
    + destruct (decide (r' = r)) as [->|Hne']; [by rewrite lookup_insert_eq|by rewrite lookup_insert_ne].
Qed.
Lemma pipeline_of_current x pl : daemon_pipeline (daemon x) = Some pl → pipeline_of (current x) x = Some pl.
Proof. intros Hd. unfold pipeline_of. by rewrite decide_True, Hd. Qed.
(** ** The invariant *)

Definition late (r : nat) (hist : list (Event (Store:=Store))) : Prop := ∃ peer, LateRecord r peer ∈ hist.
Lemma late_app r hist more : late r hist → late r (hist ++ more).
Proof. intros [peer Hp]. exists peer. by apply elem_of_app; left. Qed.
(** The run is over. *)
Definition gone (r : nat) x : Prop := (r ≤ current x)%nat ∧ (r = current x → daemon_pipeline (daemon x) = None).
Record sound (hist : list (Event (Store:=Store))) x : Prop := {
  so_file : ∃ m, peers_match m (SyncState.initialize (sync_file x)) ∧
    ∀ r pl p, pipeline_of r x = Some pl → active_in (p_sync pl) p → busy m p;
  so_live pl : daemon_pipeline (daemon x) = Some pl → running (daemon x) = true ∧ Discovery.running (p_discovery pl) = true;
  so_past r pl : lingering x !! r = Some pl → gone r x ∧ (Discovery.discovered_peers (p_discovery pl) = ∅ ∨ late r hist);
  so_batch b : b ∈ batches x → (b_run b ≤ current x)%nat ∧ is_Some (pipeline_of (b_run b) x) ∧
    (gone (b_run b) x → quiet (b_phase b) ∨ late (b_run b) hist);
  so_commit b p pl : b ∈ batches x → committing (b_phase b) p → pipeline_of (b_run b) x = Some pl → ¬ active_in (p_sync pl) p;
  so_lock i j b c : batches x !! i = Some b → batches x !! j = Some c → holds_discovery b = true → holds_discovery c = true →
    b_run b = b_run c → i = j;
}.
(** A step that leaves the orchestrators, the file and the tasks as they are. *)
Record aside x y : Prop := {
  as_current : current y = current x;
  as_file : sync_file y = sync_file x;
  as_batches : batches y = batches x;
  as_sync r pl : pipeline_of r y = Some pl → ∃ pl0, pipeline_of r x = Some pl0 ∧ p_sync pl = p_sync pl0;
  as_keeps r : is_Some (pipeline_of r x) → is_Some (pipeline_of r y);
}.
Lemma sound_aside hist more x y : sound hist x → aside x y →
  (∀ pl, daemon_pipeline (daemon y) = Some pl → running (daemon y) = true ∧ Discovery.running (p_discovery pl) = true) →
  (∀ r pl, lingering y !! r = Some pl → gone r y ∧ (Discovery.discovered_peers (p_discovery pl) = ∅ ∨ late r (hist ++ more))) →
  (∀ b, b ∈ batches x → gone (b_run b) y → gone (b_run b) x ∨ quiet (b_phase b)) →
  sound (hist ++ more) y.
Proof.
  intros [(m & Hm & Hf) Hl Hp Hb Hc Hk] [Ec Ef Eb Hs Hkeep] Hlive Hpast Hgone. split; rewrite ?Ec, ?Ef, ?Eb; try done.
  - exists m. split; [done|]. intros r pl p Hpl Ha. destruct (Hs _ _ Hpl) as (pl0 & Hpl0 & Heq). rewrite Heq in Ha. by eapply Hf.
  - intros b Hin. destruct (Hb b Hin) as (Hle & Hsome & Hq). split_and!; [done|by apply Hkeep|]. intros Hg.
    destruct (Hgone b Hin Hg) as [Hg'|]; [|by left]. destruct (Hq Hg'); [by left|right; by apply late_app].
  - intros b p pl Hin Hph Hpl. destruct (Hs _ _ Hpl) as (pl0 & Hpl0 & ->). by eapply Hc.
Qed.
(** An operation of the daemon that leaves the orchestrator as it is. *)
Lemma aside_daemon d x : carries (daemon x) d → aside x (set_daemon d x).
Proof.
  intros [Hr Hp Hk]. split; try done; unfold pipeline_of; cbn; intros r; case_decide as Hrc; try done.
  - intros pl. destruct (daemon_pipeline d) as [pl1|] eqn:Hd.
    + intros [= ->]. destruct (Hp _ eq_refl) as (pl0 & -> & ? & _). by exists pl0.
    + destruct (daemon_pipeline (daemon x)) as [pl0|]; [by destruct Hk|]. intros Hpl. by exists pl.
  - intros pl Hpl. by exists pl.
  - destruct (daemon_pipeline d); [done|]. destruct (daemon_pipeline (daemon x)); [by destruct Hk|done].
Qed.
Lemma sound_daemon hist more d x : sound hist x → carries (daemon x) d → sound (hist ++ more) (set_daemon d x).
Proof.
  intros Hx Hd. pose proof (aside_daemon _ _ Hd) as Ha. destruct Hd as [Hr Hp Hk].
  assert (Hg : ∀ r, gone r (set_daemon d x) ↔ gone r x).
  { intros r. unfold gone. cbn. split; intros [Hle Hn]; (split; [done|]); intros Hrc; specialize (Hn Hrc).
    - destruct (daemon_pipeline (daemon x)); [|done]. rewrite Hn in Hk. by destruct Hk.
    - destruct (daemon_pipeline d) as [pl|]; [|done]. destruct (Hp pl eq_refl) as (? & ? & _). congruence. }
  apply (sound_aside hist more x); [done|done| | |].
  - cbn. intros pl Hpl. destruct (Hp pl Hpl) as (pl0 & Hpl0 & _ & Hd). rewrite Hr, Hd by (by rewrite Hpl). by apply (so_live _ _ Hx).
  - cbn. intros r pl Hpl. destruct (so_past _ _ Hx r pl Hpl) as [Hgo [|]]; (split; [by apply Hg|]); [by left|right; by apply late_app].
  - intros b _ Hb%Hg. by left.
Qed.

(** A start that succeeds begins another run, with the peers of the file. *)
Definition started d x : Device (Store:=Store) :=
  {| daemon := d; sync_file := Some (SyncState.initialize (sync_file x)); current := S (current x);
     lingering := lingering x; batches := batches x |}.
Lemma pipeline_of_started hist d x pl r pl' : sound hist x → running (daemon x) = false → daemon_pipeline d = Some pl →
  pipeline_of r (started d x) = Some pl' ↔ r = S (current x) ∧ pl' = pl ∨ r ≠ S (current x) ∧ pipeline_of r x = Some pl'.
Proof.
  intros Hx Hr Hd. assert (Hn : daemon_pipeline (daemon x) = None)
    by (destruct (daemon_pipeline (daemon x)) as [pl1|] eqn:Hpl; [destruct (so_live _ _ Hx _ Hpl); congruence|done]).
  unfold pipeline_of. cbn. rewrite Hn, Hd. destruct (decide (r = S (current x))); case_decide; naive_solver.
Qed.
Lemma sound_started hist more d x pl : sound hist x → running (daemon x) = false → running d = true → daemon_pipeline d = Some pl →
  SyncOrchestrator.new (sync_config (config (daemon x))) (sync_file x) = Ok (p_sync pl) → Discovery.running (p_discovery pl) = true →
  sound (hist ++ more) (started d x).
Proof using Type*.
  intros Hx Hr Hrd Hd Hnew Hrun. pose proof (pipeline_of_started hist d x pl) as Hof. pose proof Hx as [(m & Hm & Hf) Hl Hp Hb Hc Hk].
  assert (Hn : daemon_pipeline (daemon x) = None)
    by (destruct (daemon_pipeline (daemon x)) as [pl1|] eqn:Hpl; [destruct (Hl _ eq_refl); congruence|done]).
  split; cbn; try done.
  - exists m. split; [done|]. intros r pl' p [[-> ->]|[_ Hpl]]%Hof; [|by apply (Hf r)|done..].
    unfold SyncOrchestrator.new in Hnew. rewrite (SyncState.get_all_match m) in Hnew by done. by injection Hnew as <-.
  - intros pl'. rewrite Hd. by intros [= <-].
  - intros r pl' Hpl. destruct (Hp r pl' Hpl) as [[Hle _] Hq]. split; [split; cbn; lia|]. destruct Hq; [by left|right; by apply late_app].
  - intros b Hin. destruct (Hb b Hin) as (Hle & [pl' Hs] & Hq). split_and!; [lia| |].
    + exists pl'. apply Hof; [done..|]. right. split; [lia|done].
    + intros _. destruct Hq; [by split|by left|right; by apply late_app].
  - intros b p pl' Hin Hph [[Hrb _]|[_ Hpl]]%Hof; [|by eapply Hc|done..]. destruct (Hb b Hin). lia.
Qed.
Lemma locked_spec r x : locked r x = false → ∀ b, b ∈ batches x → b_run b = r → holds_discovery b = false.
Proof.
  intros Hl b Hin Hb. destruct (holds_discovery b) eqn:Hh; [|done].
  assert (locked r x = true); [|congruence]. apply existsb_exists. exists b. rewrite <- list_elem_of_In. split; [done|].
  by rewrite Hb, Nat.eqb_refl, Hh.
Qed.
Lemma not_holding b : holds_discovery b = false → quiet (b_phase b).
Proof. unfold holds_discovery. by destruct (b_phase b). Qed.
(** A stop that succeeds leaves a discovery service without peers to the tasks, none of which is among its peers. *)
Definition stopped d s pl x : Device (Store:=Store) :=
  {| daemon := d; sync_file := sync_file x; current := current x;
     lingering := <[current x := with_discovery s pl]> (lingering x); batches := batches x |}.
Lemma pipeline_of_stopped d s pl x r pl' : daemon_pipeline d = None →
  pipeline_of r (stopped d s pl x) = Some pl' ↔
    if decide (r = current x) then pl' = with_discovery s pl else pipeline_of r x = Some pl'.
Proof.
  intros Hd. unfold pipeline_of. cbn. rewrite Hd. case_decide as Hr; [subst r|by rewrite lookup_insert_ne].
  rewrite lookup_insert_eq. naive_solver.
Qed.
Lemma aside_stopped d s pl x : daemon_pipeline (daemon x) = Some pl → daemon_pipeline d = None → aside x (stopped d s pl x).
Proof.
  intros Hpl Hd. split; try done.
  - intros r pl' Hpl'%pipeline_of_stopped; [|done]. case_decide as Hr; [subst|by exists pl']. exists pl. by split; [apply pipeline_of_current|].
  - intros r [pl' Hpl']. destruct (decide (r = current x)) as [->|Hr].
    + exists (with_discovery s pl). apply pipeline_of_stopped; [done|]. by rewrite decide_True.
    + exists pl'. apply pipeline_of_stopped; [done|]. by rewrite decide_False.
Qed.
Lemma sound_stopped hist more d s pl x : sound hist x → locked (current x) x = false → daemon_pipeline (daemon x) = Some pl →
  daemon_pipeline d = None → Discovery.discovered_peers s = ∅ → sound (hist ++ more) (stopped d s pl x).
Proof.
  intros Hx Hlock Hpl Hd Hs. apply (sound_aside hist more x); [done|by apply aside_stopped|..].
  - cbn. by rewrite Hd.
  - intros r pl' Hr. cbn in Hr. destruct (decide (r = current x)) as [->|Hne].
    + rewrite lookup_insert_eq in Hr. injection Hr as <-. split; [by split|by left].
    + rewrite lookup_insert_ne in Hr by done. destruct (so_past _ _ Hx r pl' Hr) as [[Hle _] Hq].
      split; [split; [done|cbn; lia]|]. destruct Hq; [by left|right; by apply late_app].
  - intros b Hin [Hle _]. cbn in Hle. destruct (decide (b_run b = current x)) as [Hr|Hr]; [|left; by split].
    right. apply not_holding. by eapply locked_spec.
Qed.
Definition late_peer r peer pl x : Device (Store:=Store) :=
  {| daemon := daemon x; sync_file := sync_file x; current := current x;
     lingering := <[r := with_discovery (Discovery.update_peer peer (p_discovery pl)) pl]> (lingering x); batches := batches x |}.
Lemma aside_late r peer pl x : lingering x !! r = Some pl → aside x (late_peer r peer pl x).
Proof.
  intros Hpl. split; try done; unfold pipeline_of; cbn; intros r'; destruct (if decide (r' = _) then _ else _); try done.
  + by intros pl' Hpl'; exists pl'.
  + intros pl' Hpl'. destruct (decide (r = r')) as [<-|Hne]; [|rewrite lookup_insert_ne in Hpl' by done; by exists pl'].
    rewrite lookup_insert_eq in Hpl'. injection Hpl' as <-. by exists pl.
  + destruct (decide (r = r')) as [<-|Hne]; [by rewrite lookup_insert_eq|by rewrite lookup_insert_ne].
Qed.
Lemma sound_late hist r peer x pl : sound hist x → lingering x !! r = Some pl → sound (hist ++ [LateRecord r peer]) (late_peer r peer pl x).
Proof.
  intros Hx Hpl. apply (sound_aside hist _ x); [done|by apply aside_late| | |].
  - by apply (so_live _ _ Hx).
  - intros r' pl' Hr. cbn in Hr. destruct (decide (r = r')) as [<-|Hne].
    + split; [by apply (so_past _ _ Hx r pl)|]. right. exists peer. apply elem_of_app. right. by apply list_elem_of_singleton.
    + rewrite lookup_insert_ne in Hr by done. destruct (so_past _ _ Hx r' pl' Hr) as [Hg Hq]. split; [done|].
      destruct Hq; [by left|right; by apply late_app].
  - intros b _ Hg. by left.
Qed.
Lemma pipeline_bound hist r pl x : sound hist x → pipeline_of r x = Some pl → (r ≤ current x)%nat.
Proof.
  intros Hx. unfold pipeline_of. case_decide as Hr; [subst; lia|]. intros Hpl. by destruct (so_past _ _ Hx r pl Hpl) as [[Hle _] _].
Qed.
Lemma sound_spawn hist more r es pl x : sound hist x → pipeline_of r x = Some pl →
  sound (hist ++ more) (set_batches (batches x ++ [{| b_run := r; b_todo := es; b_phase := Next |}]) x).
Proof.
  intros Hx Hpl. pose proof (pipeline_bound _ _ _ _ Hx Hpl) as Hle. destruct Hx as [Hf Hl Hp Hb Hc Hk]. split; cbn; try done.
  - intros r' pl' Hr. destruct (Hp r' pl' Hr) as [Hg [|]]; (split; [done|]); [by left|right; by apply late_app].
  - intros b [Hin|Hin%list_elem_of_singleton]%elem_of_app; [|subst b; split_and!; [done|by exists pl|by left]].
    destruct (Hb b Hin) as (? & ? & Hq). split_and!; [done..|]. intros Hg. destruct (Hq Hg); [by left|right; by apply late_app].
  - intros b p pl' [Hin|Hin%list_elem_of_singleton]%elem_of_app; [by apply Hc|by subst b].
  - intros i j b c Hi Hj Hhb Hhc Hr.
    assert (Hold : ∀ k a, (batches x ++ [{| b_run := r; b_todo := es; b_phase := Next |}]) !! k = Some a → holds_discovery a = true →
      batches x !! k = Some a).
    { intros k a [Ha|[_ Ha%list_lookup_singleton_Some]]%lookup_app_Some Hh; [done|]. by destruct Ha as [_ <-]. }
    by eapply Hk; [apply Hold|apply Hold| | |].
Qed.
Lemma sound_fresh cfg : sound [] (fresh_device cfg).
Proof.
  assert (Hn : ∀ r, pipeline_of r (fresh_device (Store:=Store) cfg) = None) by (intros r; unfold pipeline_of; by case_decide).
  split; cbn; try done; [|by intros ? ?%elem_of_nil|by intros ??? ?%elem_of_nil]. exists ∅. split; [apply map_Forall2_empty|]. intros r pl p. by rewrite Hn.
Qed.

(** *** A turn *)

(** What a turn of the task [b] may do to the objects [pl0], whose table of peers the file has as [m]. *)
Record good_turn (m : gmap string SyncState.PeerSyncState) x (b : Batch) pl0 (b' : Batch) pl : Prop := {
  gt_run : b_run b' = b_run b;
  gt_file : ∃ m', peers_match m' (SyncOrchestrator.database (p_sync pl)) ∧ (∀ p, busy m p → busy m' p) ∧
    (∀ p, active_in (p_sync pl) p → active_in (p_sync pl0) p ∨ busy m' p);
  gt_active p : active_in (p_sync pl0) p → active_in (p_sync pl) p;
  gt_running : Discovery.running (p_discovery pl) = Discovery.running (p_discovery pl0);
  gt_peers : Discovery.discovered_peers (p_discovery pl0) = ∅ → Discovery.discovered_peers (p_discovery pl) = ∅;
  gt_lock : holds_discovery b' = true → holds_discovery b = true ∨ locked (b_run b) x = false;
  gt_commit p : committing (b_phase b') p → ¬ active_in (p_sync pl) p;
  gt_quiet : Discovery.discovered_peers (p_discovery pl0) = ∅ → quiet (b_phase b) → quiet (b_phase b');
  gt_others : holds_discovery b = true ∨ ∀ p, active_in (p_sync pl) p → active_in (p_sync pl0) p;
}.
Lemma batch_step_good m auto x b pl0 : peers_match m (SyncState.initialize (sync_file x)) →
  match batch_step auto (locked (b_run b) x) b (refresh (sync_file x) pl0) with (pl, b') => good_turn m x b pl0 b' pl end.
Proof using Type*.
  intros Hm. pose proof (batch_step_cases auto (locked (b_run b) x) b (refresh (sync_file x) pl0)) as Hs.
  destruct (batch_step _ _ _ _) as [pl b']. destruct Hs as [Hrun [[Ho Hr Hp Hl Hc Hq]|(mo & peer & peers & t & t' & Hph & Hb & Hd & Hph')]].
  - split; rewrite ?Ho; try done; [|by right]. exists m. split_and!; [done..|by left].
  - destruct (SyncOrchestrator.begin_sync_eq t t' (Discovery.device_id peer) (Discovery.device_name peer)
      (p_sync (refresh (sync_file x) pl0))) as (row & o & Hrow & Hb' & Hpeers & Hdb & _).
    rewrite Hb in Hb'. injection Hb' as <-. cbn in Hpeers, Hdb. split; try done.
    + exists (<[Discovery.device_id peer := starting (Discovery.device_id peer) (Discovery.device_name peer)]> m). split_and!.
      * rewrite Hdb. by apply map_Forall2_insert_2.
      * intros p. apply busy_starting.
      * unfold active_in. rewrite Hpeers. intros p [->|Ha]%busy_inv; [right; apply busy_started|by left].
    + unfold active_in. rewrite Hpeers. intros p. apply busy_starting.
    + by rewrite Hd.
    + by rewrite Hd.
    + left. unfold holds_discovery. by rewrite Hph.
    + by rewrite Hph'.
    + by rewrite Hph.
    + left. unfold holds_discovery. by rewrite Hph.
Qed.

Definition turned (i : nat) (b' : Batch) (r : nat) pl x : Device (Store:=Store) :=
  put_pipeline r pl (set_batches (<[i := b']> (batches x)) x).
Lemma pipeline_of_turned i b' r pl0 pl x r' : pipeline_of r x = Some pl0 →
  pipeline_of r' (turned i b' r pl x) = if decide (r' = r) then Some pl else pipeline_of r' x.
Proof. intros Hr. by apply (pipeline_of_put r pl0 pl (set_batches _ x)). Qed.
Lemma turned_rest i b' r pl x : let y := turned i b' r pl x in
  current y = current x ∧ batches y = <[i := b']> (batches x) ∧ sync_file y = Some (SyncOrchestrator.database (p_sync pl)) ∧
  running (daemon y) = running (daemon x) ∧ (daemon_pipeline (daemon y) = None ↔ daemon_pipeline (daemon x) = None).
Proof.
  unfold turned, put_pipeline, set_batches. cbn. destruct (decide (r = current x)) as [->|]; [|by split_and!].
  destruct (daemon_pipeline (daemon x)) as [pl1|] eqn:Hd; by cbn; split_and!.
Qed.
(** The objects of the daemon and of the runs that are over, after a turn. *)
Lemma turned_objects i b' r pl0 pl x : pipeline_of r x = Some pl0 → let y := turned i b' r pl x in
  (∀ pl1, daemon_pipeline (daemon y) = Some pl1 → r = current x ∧ pl1 = pl ∧ daemon_pipeline (daemon x) = Some pl0 ∨
     daemon_pipeline (daemon x) = Some pl1) ∧
  (∀ r' pl1, lingering y !! r' = Some pl1 → r' = r ∧ pl1 = pl ∧ lingering x !! r = Some pl0 ∨ lingering x !! r' = Some pl1).
Proof.
  unfold turned, put_pipeline, set_batches, pipeline_of. cbn. intros Hr. destruct (decide (r = current x)) as [->|Hne].
  - destruct (daemon_pipeline (daemon x)) as [pl2|] eqn:Hd; cbn.
    + split; [|by right]. injection Hr as ->. intros pl1 [= <-]. left. by destruct pl.
    + split; [by rewrite ?Hd|]. intros r' pl1 [[<- <-]|[_ Hl]]%lookup_insert_Some; [by left|by right].
  - cbn. split; [by right|]. intros r' pl1 [[<- <-]|[_ Hl]]%lookup_insert_Some; [by left|by right].
Qed.
Lemma committing_holds b p : committing (b_phase b) p → holds_discovery b = true.
Proof. unfold holds_discovery. by destruct (b_phase b). Qed.
Lemma gone_objects r pl x : gone r x → pipeline_of r x = Some pl → lingering x !! r = Some pl.
Proof. intros [_ Hn]. unfold pipeline_of. case_decide as Hr; [|done]. by rewrite (Hn Hr). Qed.
Lemma sound_turned hist more m i x b pl0 b' pl : sound hist x → peers_match m (SyncState.initialize (sync_file x)) →
  (∀ r pl p, pipeline_of r x = Some pl → active_in (p_sync pl) p → busy m p) →
  batches x !! i = Some b → pipeline_of (b_run b) x = Some pl0 → good_turn m x b pl0 b' pl →
  sound (hist ++ more) (turned i b' (b_run b) pl x).
Proof.
  intros [_ Hl Hp Hb Hc Hk] Hm Hf Hi Hpl0 Ht.
  destruct (turned_rest i b' (b_run b) pl x) as (Ecur & Ebat & Efile & Erun & Enone).
  destruct (turned_objects i b' (b_run b) pl0 pl x Hpl0) as [Hlive Hpast].
  pose proof (λ r, pipeline_of_turned i b' (b_run b) pl0 pl x r Hpl0) as Hof.
  set (y := turned i b' (b_run b) pl x) in *. clearbody y.
  assert (Hin : b ∈ batches x) by by eapply list_elem_of_lookup_2.
  assert (Hg : ∀ r, gone r y ↔ gone r x) by (intros r; unfold gone; rewrite Ecur; naive_solver).
  assert (Hbs : ∀ j c, batches y !! j = Some c → j = i ∧ c = b' ∨ j ≠ i ∧ batches x !! j = Some c).
  { intros j c. rewrite Ebat. intros [(-> & -> & _)|[Hne ?]]%list_lookup_insert_Some; [by left|right; by split]. }
  assert (Hlate : ∀ (P : Prop) r, P ∨ late r hist → P ∨ late r (hist ++ more)) by (intros P r [|]; [by left|right; by apply late_app]).
  split; rewrite ?Ecur.
  - destruct (gt_file _ _ _ _ _ _ Ht) as (m' & Hm' & Hbusy & Ha). rewrite Efile. exists m'. split; [done|].
    intros r pl' p. rewrite Hof. case_decide; [intros [= <-] [Ha0|]%Ha; [|done]|intros Hpl' Ha']; apply Hbusy; by eapply Hf.
  - intros pl1 [(_ & -> & Hd)|Hd]%Hlive; rewrite Erun; [|by apply Hl]. rewrite (gt_running _ _ _ _ _ _ Ht). by apply Hl.
  - intros r pl1 [(-> & -> & Hli)|Hli]%Hpast; destruct (Hp _ _ Hli) as [Hgo Hq]; (split; [by apply Hg|]); apply Hlate; [|done].
    destruct Hq as [Hq|]; [left|by right]. by apply (gt_peers _ _ _ _ _ _ Ht).
  - intros c Hcin. apply list_elem_of_lookup_1 in Hcin as [j [[-> ->]|[_ Hcx%list_elem_of_lookup_2]]%Hbs].
    + rewrite (gt_run _ _ _ _ _ _ Ht). destruct (Hb b Hin) as (Hle & _ & Hq). split_and!; [done|by rewrite Hof, decide_True|].
      intros Hgo%Hg. apply Hlate. destruct (Hq Hgo) as [Hqb|]; [|by right].
      destruct (Hp _ _ (gone_objects _ _ _ Hgo Hpl0)) as [_ [He|]]; [left; by apply (gt_quiet _ _ _ _ _ _ Ht)|by right].
    + destruct (Hb c Hcx) as (Hle & Hs & Hq). split_and!; [done| |intros Hgo%Hg; by apply Hlate, Hq].
      rewrite Hof. by case_decide.
  - intros c p pl' Hcin Hph. rewrite Hof. apply list_elem_of_lookup_1 in Hcin as [j [[-> ->]|[Hne Hcx]]%Hbs].
    + rewrite (gt_run _ _ _ _ _ _ Ht), decide_True by done. intros [= <-]. by apply (gt_commit _ _ _ _ _ _ Ht).
    + pose proof (Hc c p) as Hno. case_decide as Hr; [intros [= <-]|apply Hno; [by eapply list_elem_of_lookup_2|done]].
      rewrite Hr in Hno. specialize (Hno pl0 ltac:(by eapply list_elem_of_lookup_2) Hph Hpl0).
      destruct (gt_others _ _ _ _ _ _ Ht) as [Hh|Ho]; [|by intros ?%Ho]. destruct Hne.
      apply (Hk j i c b); try done. by eapply committing_holds.
  - intros j k c d [[-> ->]|[Hj Hcx]]%Hbs [[-> ->]|[Hk' Hdx]]%Hbs Hhc Hhd Hr; try done; [..|by eapply Hk].
    + destruct (gt_lock _ _ _ _ _ _ Ht Hhc) as [Hhb|Hlk].
      * symmetry. apply (Hk k i d b); try done. by rewrite <- Hr, (gt_run _ _ _ _ _ _ Ht).
      * pose proof (locked_spec _ _ Hlk d ltac:(by eapply list_elem_of_lookup_2)) as Hn. rewrite Hn in Hhd; [done|].
        by rewrite <- Hr, (gt_run _ _ _ _ _ _ Ht).
    + destruct (gt_lock _ _ _ _ _ _ Ht Hhd) as [Hhb|Hlk].
      * apply (Hk j i c b); try done. by rewrite Hr, (gt_run _ _ _ _ _ _ Ht).
      * pose proof (locked_spec _ _ Hlk c ltac:(by eapply list_elem_of_lookup_2)) as Hn. rewrite Hn in Hhc; [done|].
        by rewrite Hr, (gt_run _ _ _ _ _ _ Ht).
Qed.

(** *** Events *)

Definition killed x : Device (Store:=Store) :=
  {| daemon := new (config (daemon x)); sync_file := sync_file x; current := current x; lingering := ∅; batches := [] |}.
Inductive moves x : Event (Store:=Store) → Device (Store:=Store) → Prop :=
  | m_daemon ev d : carries (daemon x) d → moves x ev (set_daemon d x)
  | m_started ev d pl : running (daemon x) = false → running d = true → daemon_pipeline d = Some pl →
      SyncOrchestrator.new (sync_config (config (daemon x))) (sync_file x) = Ok (p_sync pl) →
      Discovery.running (p_discovery pl) = true → moves x ev (started d x)
  | m_stopped ev d s pl : locked (current x) x = false → daemon_pipeline (daemon x) = Some pl → daemon_pipeline d = None →
      Discovery.discovered_peers s = ∅ → moves x ev (stopped d s pl x)
  | m_killed ev : moves x ev (killed x)
  | m_spawn ev r es pl : pipeline_of r x = Some pl →
      moves x ev (set_batches (batches x ++ [{| b_run := r; b_todo := es; b_phase := Next |}]) x)
  | m_turn ev auto i b pl0 : batches x !! i = Some b → pipeline_of (b_run b) x = Some pl0 →
      moves x ev (match batch_step auto (locked (b_run b) x) b (refresh (sync_file x) pl0) with
                  | (pl, b') => turned i b' (b_run b) pl x
                  end)
  | m_late r peer pl : lingering x !! r = Some pl → moves x (LateRecord r peer) (late_peer r peer pl x).
Lemma moves_same x ev : moves x ev x.
Proof.
  replace x with (set_daemon (daemon x) x) at 2 by (by destruct x). constructor. by apply carries_refl.
Qed.
Abbreviation device_event := (device_event checked keys_match quic_accepts chunker).
Abbreviation run := (run checked keys_match quic_accepts chunker).
Lemma event_moves hist x ev : sound hist x → moves x ev (device_event x ev).
Proof.
  intros Hx. destruct ev as [w|a|m created watched before p|p|ev| |r es|i|r peer]; cbn [Daemon.device_event].
  - pose proof (start_cases w (sync_file x) (daemon x)) as Hs. destruct (start w _ _) as [d [[]|e|]]; [|by constructor..].
    destruct Hs as (Hr & Hrd & pl & Hd & Hnew & Hrun). by eapply m_started.
  - destruct (locked (current x) x) eqn:Hl; [apply moves_same|]. cbv zeta.
    pose proof (stop_cases a (daemon x)) as Hs. destruct (stop a (daemon x)) as [d [[]|e|]]; cbn [fst].
    + destruct Hs as [Hd Hs]. rewrite Hd. destruct (daemon_pipeline (daemon x)) as [pl|] eqn:Hpl.
      * apply m_stopped; [done..|]. apply Hs; [done|]. by apply (so_live _ _ Hx).
      * constructor. split; rewrite ?Hd, ?Hpl; [by intros []|done|by intros []].
    + assert (Hc : carries (daemon x) d) by (apply Hs; intros pl Hpl; by apply (so_live _ _ Hx)).
      destruct (daemon_pipeline (daemon x)) as [pl|] eqn:Hpl; [|by constructor].
      destruct (c_keeps _ _ Hc) as [pl' ->]; [by rewrite Hpl|by constructor].
    + assert (Hc : carries (daemon x) d) by (apply Hs; intros pl Hpl; by apply (so_live _ _ Hx)).
      destruct (daemon_pipeline (daemon x)) as [pl|] eqn:Hpl; [|by constructor].
      destruct (c_keeps _ _ Hc) as [pl' ->]; [by rewrite Hpl|by constructor].
  - constructor. apply add_folder_carries.
  - constructor. by apply carries_refl.
  - destruct (discovery_service (daemon x)) as [s|] eqn:Hd; [|apply moves_same]. constructor. apply carries_by; cbn; try done.
    intros s' [= <-]. exists s. split; [done|]. unfold Discovery.process_event. destruct (Discovery.processing s); [|done].
    destruct ev; try done. case_bool_decide; [done|]. by destruct (Discovery.parse_service_info _ _).
  - constructor.
  - destruct (pipeline_of r x) as [pl|] eqn:Hpl; [|apply moves_same]. by eapply m_spawn.
  - destruct (batches x !! i) as [b|] eqn:Hb; [|apply moves_same].
    destruct (pipeline_of (b_run b) x) as [pl0|] eqn:Hpl; [|apply moves_same].
    exact (m_turn x (Turn i) (auto_sync (config (daemon x))) i b pl0 Hb Hpl).
  - destruct (lingering x !! r) as [pl|] eqn:Hpl; [|apply moves_same]. by apply m_late.
Qed.
Lemma pipeline_of_killed r x : pipeline_of r (killed x) = None.
Proof. unfold pipeline_of. cbn. by case_decide. Qed.
Lemma sound_event hist x ev : sound hist x → sound (hist ++ [ev]) (device_event x ev).
Proof using Type*.
  intros Hx. destruct (event_moves hist x ev Hx) as [ev d Hd|ev d pl Hr Hrd Hd Hnew Hrun|ev d s pl Hl Hpl Hd Hs|ev|ev r es pl Hpl
    |ev auto i b pl0 Hb Hpl|r peer pl Hpl].
  - by apply sound_daemon.
  - by eapply sound_started.
  - by apply sound_stopped.
  - destruct (so_file _ _ Hx) as (m & Hm & _). split; cbn; try done; [|by intros ? ?%elem_of_nil|by intros ??? ?%elem_of_nil].
    exists m. split; [done|]. intros r pl p. by rewrite pipeline_of_killed.
  - by eapply sound_spawn.
  - destruct (so_file _ _ Hx) as (m & Hm & Hf). pose proof (batch_step_good m auto x b pl0 Hm) as Hg.
    destruct (batch_step _ _ _ _) as [pl b']. by eapply sound_turned.
  - by apply sound_late.
Qed.
Lemma sound_run evs hist x : sound hist x → sound (hist ++ evs) (run x evs).
Proof using Type*.
  revert hist x. induction evs as [|ev evs IH]; intros hist x Hx; [by rewrite app_nil_r|].
  rewrite cons_middle, app_assoc. by apply IH, sound_event.
Qed.

(** A peer that is busy in the file and for all runs from [c] on. *)
Definition refusing (c : nat) (p : string) x : Prop :=
  (∃ m, peers_match m (SyncState.initialize (sync_file x)) ∧ busy m p) ∧
  ∀ r pl, (c ≤ r)%nat → pipeline_of r x = Some pl → active_in (p_sync pl) p.
Lemma refusing_aside c p x y : aside x y → refusing c p x → refusing c p y.
Proof.
  intros [_ Ef _ Hs _] [Hm Ha]. split; [by rewrite Ef|]. intros r pl Hr Hpl. destruct (Hs r pl Hpl) as (pl0 & Hpl0 & ->). by apply (Ha r).
Qed.
Lemma refusing_event hist c p x ev : sound hist x → refusing c p x → refusing c p (device_event x ev).
Proof using Type*.
  intros Hx Hp. pose proof Hp as [(m & Hm & Hbm) Ha].
  destruct (event_moves hist x ev Hx) as [ev d Hd|ev d pl Hr Hrd Hd Hnew Hrun|ev d s pl Hl Hpl Hd Hs|ev|ev r es pl Hpl
    |ev auto i b pl0 Hb Hpl|r peer pl Hpl].
  - by eapply refusing_aside; [apply aside_daemon|].
  - split; [by exists m|]. intros r pl' Hcr [[_ ->]|[_ Hpl]]%(pipeline_of_started hist d x pl); [|by apply (Ha r)|done..].
    unfold SyncOrchestrator.new in Hnew. rewrite (SyncState.get_all_match m) in Hnew by done. by injection Hnew as <-.
  - eapply refusing_aside; [|done]. by apply aside_stopped.
  - split; [by exists m|]. intros r pl Hcr. by rewrite pipeline_of_killed.
  - split; [by exists m|]. intros r' pl' Hcr. by apply Ha.
  - pose proof (batch_step_good m auto x b pl0 Hm) as Hg. destruct (batch_step _ _ _ _) as [pl b'].
    destruct (turned_rest i b' (b_run b) pl x) as (_ & _ & Efile & _). destruct (gt_file _ _ _ _ _ _ Hg) as (m' & Hm' & Hbusy & _).
    split; [rewrite Efile; exists m'; split; [done|by apply Hbusy]|]. intros r pl' Hcr.
    rewrite (pipeline_of_turned i b' (b_run b) pl0 pl x r Hpl). case_decide as Hr; [|by apply Ha].
    intros [= <-]. apply (gt_active _ _ _ _ _ _ Hg), (Ha r); [done|by rewrite Hr].
  - eapply refusing_aside; [|done]. by apply aside_late.
Qed.
Lemma refusing_run evs hist c p x : sound hist x → refusing c p x → refusing c p (run x evs).
Proof using Type*.
  revert hist x. induction evs as [|ev evs IH]; intros hist x Hx Hp; [done|]. cbn.
  eapply IH; [by apply (sound_event hist)|by eapply refusing_event].
Qed.
Lemma current_event hist x ev : sound hist x → (current x ≤ current (device_event x ev))%nat.
Proof.
  intros Hx. destruct (event_moves hist x ev Hx); cbn; try lia. destruct (batch_step _ _ _ _) as [pl b'].
  destruct (turned_rest i b' (b_run b) pl x) as (-> & _). lia.
Qed.
Lemma current_run evs hist x : sound hist x → (current x ≤ current (run x evs))%nat.
Proof using Type*.
  revert hist x. induction evs as [|ev evs IH]; intros hist x Hx; [done|]. cbn.
  etrans; [by eapply current_event|]. eapply IH. by apply (sound_event hist).
Qed.
End lemmas.

(** ** Theorems *)

Section theorems.
Context (checked : bool) `{MapIter, SyncState.Formats, !SyncState.Sqlite, Transfer.PriorityQueue, Hex, Blake3, !Indexer.IndexDb,
  Security.Lowercase, Certificates.X509, Identity.Ed25519} {Store : Type} `{!ContentStore Store}.
Context (keys_match : list (list Byte.byte) → list Byte.byte → bool) (quic_accepts : bool) (chunker : Chunker.Chunker).
Implicit Types (self : Daemon (Store:=Store)) (x : Device (Store:=Store)).
Abbreviation run := (run checked keys_match quic_accepts chunker).
Abbreviation start := (start keys_match quic_accepts).
Abbreviation add_sync_folder := (add_sync_folder checked chunker).

(** C24: Nothing in the daemon completes a synchronisation: once one was started with a peer, none starts with this peer again,
    however the tasks of the callbacks take their turns, whatever happens to the daemon, and also after it was stopped, killed and
    started again. The orchestrator of the run and those of later runs refuse the peer, and no task is between finding the peer
    idle and starting its synchronisation. The exception is a task of an earlier run, which a stop does not end: it finds peers
    only if the discovery service of its run entered one while it was being stopped. *)
Theorem peers_are_synchronised_once cfg evs evs' pl p : let x := run (fresh_device cfg) evs in let y := run x evs' in
  pipeline_of (current x) x = Some pl → active_in (p_sync pl) p →
  (∀ r pl', (current x ≤ r)%nat → pipeline_of r y = Some pl' →
    ∀ t t' name, start_sync t t' p name (p_sync pl') = (p_sync pl', Err (SyncState.AlreadySyncing p))) ∧
  (∀ b, b ∈ batches y → committing (b_phase b) p → (b_run b < current x)%nat ∧ late (b_run b) (evs ++ evs')).
Proof using Type*.
  intros x y Hpl Ha. assert (Hx : sound evs x) by (apply (sound_run checked _ _ _ evs []), sound_fresh).
  assert (Hy : sound (evs ++ evs') y) by by apply (sound_run checked keys_match quic_accepts chunker).
  assert (Hp : refusing (current x) p y).
  { apply (refusing_run checked keys_match quic_accepts chunker evs' evs); [done|]. destruct (so_file _ _ Hx) as (m & Hm & Hf). split; [exists m; split; [done|by eapply Hf]|].
    intros r pl' Hr Hpl'. pose proof (pipeline_bound _ _ _ _ Hx Hpl'). replace r with (current x) in Hpl' by lia. congruence. }
  split.
  - intros r pl' Hr Hpl' t t' name. destruct (proj2 Hp r pl' Hr Hpl') as (s & Hs & Hact).
    unfold SyncOrchestrator.start_sync, mbind, st_bind. by rewrite SyncOrchestrator.check_idle_eq, Hs, Hact.
  - intros b Hin Hph. destruct (so_batch _ _ Hy b Hin) as (Hle & [pl' Hpl'] & Hq).
    assert (Hr : (b_run b < current x)%nat).
    { destruct (decide (current x ≤ b_run b)%nat) as [Hr|]; [|lia]. destruct (so_commit _ _ Hy b p pl' Hin Hph Hpl').
      by apply (proj2 Hp (b_run b)). }
    split; [done|]. pose proof (current_run checked keys_match quic_accepts chunker evs' evs x Hx) as Hcur. fold y in Hcur.
    destruct Hq as [Hq|]; [split; lia| |done]. by destruct (b_phase b).
Qed.

(** What is said of a file that changed: it cannot be listed. *)
Definition changed_file (m : Moment) (e : Watcher.FileEvent) : Prop :=
  walk_fuel m ≠ 0%nat ∧
  match Watcher.fe_kind e with
  | Watcher.FCreated | Watcher.FModified => Indexer.read_dir (os m) (Watcher.fe_path e) = None
  | Watcher.FRenamed _ to => Indexer.read_dir (os m) to = None
  | Watcher.FDeleted => False
  end.
Lemma index_file_path os now fuel p (i : Indexer.FileIndexer (Store:=Store)) : Indexer.read_dir os p = None → fuel ≠ 0%nat →
  let '(i', r) := Indexer.index_folder checked os Indexer.IndexerConfig_default chunker now fuel p i in i' = i ∧ is_ok r = false.
Proof.
  intros Hr Hf. destruct fuel as [|fuel]; [done|]. unfold Indexer.index_folder, mbind, st_bind, lift.
  destruct (Indexer.canonicalize os p) as [q|]; [|done]. cbn [ok_or].
  unfold Indexer.on_database, Indexer.get_latest_manifest_version, Indexer.execute_blocking.
  destruct i as [cas db]. cbn [Indexer.cas Indexer.database]. destruct (negb (Indexer.connection_ok db)); [done|].
  destruct (Indexer.select_max_version _ _ db) as [v|e|]; [|done..]. destruct (arith checked 64 _) as [n|e|]; [|done..].
  unfold Indexer.walk_directory. cbn [Indexer.walk_loop]. by rewrite Hr.
Qed.

(** A file that is created, changed or renamed reaches nobody: the daemon indexes the path of the file as if it were a folder,
    which fails, and then skips the synchronisation. Nothing changes but the events that are left to the task. *)
Theorem file_changes_reach_nobody auto locked b (pl : Pipeline (Store:=Store)) :
  b_phase b = Next → Forall (λ '(m, e), changed_file m e) (b_todo b) →
  ∃ es, batch_step checked chunker auto locked b pl = (pl, at_phase Next es b) ∧ (es = tail (b_todo b) ∨ es = []).
Proof.
  destruct b as [r es ph]. cbn [b_phase b_todo]. intros -> Hes. unfold batch_step. cbn [b_phase b_todo].
  destruct Hes as [|[m e] es [Hf He] _]; [exists []; by split; [|left]|].
  assert (Hidx : ∀ q, Indexer.read_dir (os m) q = None → ∃ r, index_changed checked chunker m q pl = (pl, r) ∧ r ≠ Ok true).
  { intros q Hq. pose proof (index_file_path (os m) (index_now m) (walk_fuel m) q (p_indexer pl) Hq Hf) as Hr. unfold index_changed.
    destruct (Indexer.index_folder _ _ _ _ _ _ _ _) as [i' z]. destruct Hr as [-> Hr]. destruct pl. eexists. split; [done|]. by destruct z. }
  assert (He' : ∃ z, index_event checked chunker m e pl = (pl, z) ∧ z ≠ Ok true)
    by (unfold index_event; destruct (Watcher.fe_kind e) as [| | |from to]; [by apply Hidx|by apply Hidx|done|by apply Hidx]).
  destruct He' as ([[]| |] & -> & Hz); [done|..]; (eexists; split; [done|]); solve [by left|by right].
Qed.

(** Stopping brings a daemon back to where it was before it started, and then adding a folder panics. If mDNS does not shut
    down, the daemon still runs, with its folders and its server. *)
Theorem stop_resets a self : running self = true →
  match stop a self with
  | (self', Ok _) => self' = new (config self) ∧
      ∀ m created watched before p, Indexer.m_type <$> Indexer.metadata (os m) p = Some Indexer.IsDir →
        add_sync_folder m created watched before p self' = (self', Panic)
  | (self', Err e) => e = DiscoveryFailed Discovery.ShutdownFailed ∧ running self' = true ∧ list_sync_folders self' = list_sync_folders self ∧
      tasks self' = tasks self ∧ quic_server self' = quic_server self
  | (_, Panic) => False
  end.
Proof.
  intros Hr. unfold stop. erewrite st_bind_eq by done. rewrite Hr. unfold mbind, st_bind, lift. cbn [negb fail_if].
  assert (Hadd : ∀ m created watched before p, Indexer.m_type <$> Indexer.metadata (os m) p = Some Indexer.IsDir →
    add_sync_folder m created watched before p (new (Store:=Store) (config self)) = (new (config self), Panic)).
  { intros m created watched before p Hp. unfold Daemon.add_sync_folder. by rewrite Hp. }
  unfold stop_discovery. destruct (discovery_service self) as [d|]; [|by split]. unfold Discovery.stop. erewrite st_bind_eq by done.
  destruct (Discovery.running d); [|by split]. unfold mbind, st_bind, lift, modify_st.
  destruct (negb (_ && _)); cbn; [done|by split].
Qed.

(** When discovery cannot be started, the accept loop of the server goes on: the daemon says that it does not run, and refuses
    to stop. *)
Theorem failed_start_keeps_the_server w file self self' e : running self = false →
  start w file self = (self', Err (DiscoveryFailed e)) →
  ∃ server, tasks self' = tasks self ++ [server] ∧ is_Some (Handshake.endpoint server) ∧ running self' = false ∧
    ∀ a, stop a self' = (self', Err DaemonNotRunning).
Proof.
  intros Hr. unfold Daemon.start. erewrite st_bind_eq by done. unfold mbind, st_bind, lift. rewrite Hr. cbn [fail_if].
  destruct (dir_created w); [|done]. cbn. destruct (opened w) as [i|]; [|done]. cbn.
  destruct (SyncOrchestrator.new _ file) as [o| |]; [|done..]. cbn. unfold start_quic_server.
  set (s0 := Handshake.server_new _ _ _). destruct (Handshake.start _ _ _ _ _ s0) as [server r] eqn:Hs.
  destruct r as [[]|er|]; [|done..]. cbn. assert (Hend : is_Some (Handshake.endpoint server)).
  { unfold Handshake.start in Hs. cbn in Hs. destruct (Handshake.build_server_config _ _ _ _ _ _ _); [|done..].
    destruct (bound w); [|done]. injection Hs as <-. by eexists. }
  assert (Hstop : ∀ a (s : Daemon (Store:=Store)), running s = false → stop a s = (s, Err DaemonNotRunning)).
  { intros a s Hf. unfold stop. erewrite st_bind_eq by done. by rewrite Hf. }
  unfold start_discovery_service. destruct (Discovery.new_service _ _ _ _) as [s|ed|]; [|intros [= <- <-]|done].
  - destruct (Discovery.start_advertising _ _ _ s) as [s' [[]|ed|]]; [done|intros [= <- <-]|done]. exists server. split_and!; try done. intros a. by apply Hstop.
  - exists server. split_and!; try done. intros a. by apply Hstop.
Qed.
End theorems.

Section indexed.
Context (checked : bool) `{MapIter, SyncState.Formats, !SyncState.Sqlite, Transfer.PriorityQueue, Hex, Blake3, !Indexer.IndexDb, !Indexer.IndexDbLaws,
  Security.Lowercase, Certificates.X509, Identity.Ed25519} {Store : Type} `{!ContentStore Store}.
Context (chunker : Chunker.Chunker) (Hchunker : Chunker.new Chunker.ChunkerConfig_default = Ok chunker).

(** A folder that was indexed before, in this run or an earlier one, cannot be added: the call fails and leaves the manifests as
    they are, though the folder is then watched and listed. *)
Theorem indexed_folder_is_not_added m created watched before p canonical self i o d w :
  indexer self = Some i → sync_orchestrator self = Some o → discovery_service self = Some d →
  Indexer.m_type <$> Indexer.metadata (os m) p = Some Indexer.IsDir → Watcher.start p created watched = Ok w →
  Indexer.root_rows (Indexer.database i) → Indexer.canonicalize (os m) p = Some canonical → Indexer.path_string canonical ≠ "/" →
  (Indexer.path_to_folder_id canonical, "/", 1) ∈ Indexer.manifest_rows (Indexer.database i) →
  let '(self', r) := add_sync_folder checked chunker m created watched before p (self : Daemon (Store:=Store)) in
  is_ok r = false ∧ list_sync_folders self' = list_sync_folders self ++ [p] ∧
  ∃ i', indexer self' = Some i' ∧ Indexer.manifest_rows (Indexer.database i') = Indexer.manifest_rows (Indexer.database i).
Proof using Type* Hchunker.
  intros Hi Ho Hd Hp Hw Hroot Hcan Hne Hin. unfold add_sync_folder. rewrite Hp. cbn [bool_decide negb].
  rewrite bool_decide_eq_true_2 by done. cbn [negb]. rewrite Hi, Ho, Hd, Hw.
  destruct (Indexer.index_folder_again checked Indexer.IndexerConfig_default Chunker.ChunkerConfig_default chunker Hchunker
    (os m) (index_now m) (walk_fuel m) p canonical i Hroot Hcan Hne Hin) as [Hno Hrows].
  destruct (Indexer.index_folder _ _ _ _ _ _ p i) as [i' r]. cbn in Hno, Hrows. split_and!.
  - destruct r as [manifest| |]; [|done..]. by destruct (Hno manifest).
  - unfold list_sync_folders. cbn. by rewrite map_app.
  - exists i'. by split.
Qed.
End indexed.

(** ** A concrete device *)

Module Examples.
#[local] Existing Instance gmap_order.
#[local] Existing Instance SyncState.Examples.formats.
#[local] Existing Instance SyncState.Examples.sqlite.
#[local] Existing Instance Transfer.Examples.pqueue.
#[local] Existing Instance RefHash.hex.
#[local] Existing Instance RefHash.hash.
#[local] Existing Instance Indexer.Examples.ListDb.db.
#[local] Existing Instance Indexer.Examples.ListDb.laws.
#[local] Existing Instance CasInterface.MemoryStore.memory_store.
#[local] Existing Instance Security.Examples.lower.
#[local] Existing Instance Certificates.Examples.x509.
#[local] Existing Instance Identity.Examples.ed25519.

Definition config : DaemonConfig := DaemonConfig_default "laptop".
Definition world (i : Indexer.FileIndexer) (mdns_ok : bool) : World (Indexer.FileIndexer (Store:=CasInterface.MemoryStore.Memory)) :=
  {| dir_created := true; opened := Some i; random_key := [Byte.x01]; tls_key := Certificates.Examples.key Byte.x05; clock := 1000;
     bound := true; local_port := Some 9876; daemon_ok := true; timestamp := 1000; hostname := "laptop-1";
     mdns := {| Discovery.service_ok := true; Discovery.register_ok := mdns_ok; Discovery.browse_ok := true; Discovery.shutdown_ok := true |} |}.
Definition disk : Indexer.System :=
  {| Indexer.canonicalize := Indexer.canonicalize Indexer.Examples.os; Indexer.read_dir := Indexer.read_dir Indexer.Examples.os;
     Indexer.file_type := Indexer.file_type Indexer.Examples.os; Indexer.read_link := Indexer.read_link Indexer.Examples.os;
     Indexer.open_file := Indexer.open_file Indexer.Examples.os;
     Indexer.metadata p := if decide (p = Indexer.Examples.folder)
       then Some {| Indexer.m_type := Indexer.IsDir; Indexer.m_len := 0; Indexer.m_modified := Some 0; Indexer.m_mode := None |}
       else Indexer.metadata Indexer.Examples.os p |}.
Definition moment : Moment :=
  {| os := disk; index_now := 0; walk_fuel := 3; browse_now := 5; sync_clock := λ _, (5, 5) |}.
Definition file : Path := Indexer.join Indexer.Examples.folder "a.txt".
Definition happens (k : Watcher.FileEventKind) : Moment * Watcher.FileEvent := (moment, {| Watcher.fe_path := file; Watcher.fe_kind := k |}).
Abbreviation device := (Device (Store:=CasInterface.MemoryStore.Memory)).
Abbreviation run := (run true (λ _ _, true) true Indexer.Examples.chunker).
Abbreviation fresh := (fresh_device config : device).
Definition phone : Discovery.ServiceEvent := Discovery.ServiceResolved (Discovery.Examples.service "phone" "Phone") 4.

(** The daemon finds a phone; a file is changed, then deleted. *)
Definition turns (k : nat) (i : nat) : list (Event (Store:=CasInterface.MemoryStore.Memory)) := repeat (Turn i) k.
Definition deleted : list Event :=
  [Start (world Indexer.Examples.after_first true); Discovered phone; Spawn 1 [happens Watcher.FModified; happens Watcher.FDeleted]] ++ turns 6 0.
(** A second batch, which survives the stop, finds no peers. *)
Definition again : list Event :=
  [Spawn 1 [happens Watcher.FDeleted]; Stop Discovery.Examples.fine; Start (world Indexer.Examples.after_first true); Discovered phone;
   Spawn 2 [happens Watcher.FDeleted]] ++ turns 5 1 ++ turns 5 2.
Definition syncing (p : string) (r : nat) (x : device) : bool :=
  match pipeline_of r x with
  | Some pl => match SyncOrchestrator.peer_states (p_sync pl) !! p with Some s => SyncOrchestrator.active s | None => false end
  | None => false
  end.
Lemma syncing_active p r x : syncing p r x = true → ∃ pl, pipeline_of r x = Some pl ∧ active_in (p_sync pl) p.
Proof.
  unfold syncing. destruct (pipeline_of r x) as [pl|]; [|done]. destruct (SyncOrchestrator.peer_states (p_sync pl) !! p) as [s|] eqn:Hs; [|done].
  intros Ha. exists pl. split; [done|]. by exists s.
Qed.
Lemma peers_are_synchronised_once_witness : ∃ pl, pipeline_of 2 (run (run fresh deleted) again) = Some pl ∧
  ∀ t t' name, start_sync t t' "phone" name (p_sync pl) = (p_sync pl, Err (SyncState.AlreadySyncing "phone")).
Proof.
  destruct (syncing_active "phone" 1 (run fresh deleted)) as (pl & Hpl & Ha); [vm_compute; reflexivity|].
  destruct (syncing_active "phone" 2 (run (run fresh deleted) again)) as (pl' & Hpl' & _); [vm_compute; reflexivity|].
  assert (Hc : current (run fresh deleted) = 1%nat) by (vm_compute; reflexivity).
  exists pl'. split; [exact Hpl'|]. rewrite <- Hc in Hpl.
  refine (proj1 (peers_are_synchronised_once true (λ _ _, true) true Indexer.Examples.chunker config deleted again pl "phone" Hpl Ha) 2%nat pl' _ Hpl').
  rewrite Hc. lia.
Defined.
(** The exception, as [raced]: the phone is entered late, a task of the first run finds it, and so does one of the second run: both are
    about to start a synchronisation with it, and both do. *)
Definition late_phone : Discovery.PeerInfo :=
  {| Discovery.device_id := "phone"; Discovery.device_name := "Phone"; Discovery.address := (Discovery.V4 "10.0.0.7", 9876);
     Discovery.capabilities := []; Discovery.last_seen := 4; Discovery.version := "0.1.0" |}.
Definition raced : list Event :=
  [Start (world Indexer.Examples.after_first true); Spawn 1 [happens Watcher.FDeleted]; Stop Discovery.Examples.fine;
   LateRecord 1 late_phone; Start (world Indexer.Examples.after_first true); Discovered phone;
   Spawn 2 [happens Watcher.FDeleted]] ++ turns 3 0 ++ turns 3 1.
Definition about_to_start (x : device) : list (nat * option string) :=
  map (λ b, (b_run b, match b_phase b with Committing _ peer _ => Some (Discovery.device_id peer) | _ => None end)) (batches x).
Example late_record_starts_twice : about_to_start (run fresh raced) = [(1%nat, Some "phone"); (2%nat, Some "phone")] ∧
  syncing "phone" 1 (run fresh (raced ++ turns 1 0 ++ turns 1 1)) = true ∧
  syncing "phone" 2 (run fresh (raced ++ turns 1 0 ++ turns 1 1)) = true.
Proof. vm_compute. by split_and!. Qed.

Definition online : Daemon := daemon (run fresh [Start (world Indexer.Examples.after_first true)]).
Definition ready : Daemon (Store:=CasInterface.MemoryStore.Memory) :=
  {| Daemon.config := config; running := true; quic_server := None; discovery_service := Some Discovery.Examples.created;
     sync_orchestrator := Some SyncOrchestrator.Examples.fresh; file_watchers := []; indexer := Some Indexer.Examples.after_first; tasks := [] |}.
Definition objects : Pipeline :=
  {| p_indexer := Indexer.Examples.after_first; p_sync := SyncOrchestrator.Examples.fresh; p_discovery := Discovery.Examples.created |}.
Definition batch : Batch := {| b_run := 1; b_todo := [happens Watcher.FCreated; happens Watcher.FModified]; b_phase := Next |}.
Lemma file_changes_reach_nobody_witness :
  ∃ es, batch_step true Indexer.Examples.chunker true false batch objects = (objects, at_phase Next es batch) ∧ (es = tail (b_todo batch) ∨ es = []).
Proof.
  apply file_changes_reach_nobody; [reflexivity|]. repeat constructor; discriminate.
Defined.
Lemma stop_resets_witness : match stop Discovery.Examples.fine online with (self', Ok _) => self' = new config | _ => False end.
Proof.
  assert (Hr : running online = true) by (vm_compute; reflexivity).
  assert (Hok : is_ok (stop Discovery.Examples.fine online).2 = true) by (vm_compute; reflexivity).
  assert (Hc : Daemon.config online = config) by (vm_compute; reflexivity).
  pose proof (stop_resets true Indexer.Examples.chunker Discovery.Examples.fine online Hr) as Hs. rewrite Hc in Hs.
  destruct (stop Discovery.Examples.fine online) as [self' [[]| |]]; [exact (proj1 Hs)|discriminate|discriminate].
Defined.
Lemma failed_start_keeps_the_server_witness :
  let '(self', r) := start (λ _ _, true) true (world Indexer.Examples.after_first false) None (new config) in
  r = Err (DiscoveryFailed Discovery.RegisterFailed) ∧ zlen (tasks self') = 1 ∧ ∀ a, stop a self' = (self', Err DaemonNotRunning).
Proof.
  destruct (start (λ _ _, true) true (world Indexer.Examples.after_first false) None (new config)) as [self' r] eqn:Hs.
  assert (Hr : (start (λ _ _, true) true (world Indexer.Examples.after_first false) None (new config)).2 = Err (DiscoveryFailed Discovery.RegisterFailed))
    by (vm_compute; reflexivity).
  rewrite Hs in Hr. cbn [snd] in Hr. subst r.
  destruct (failed_start_keeps_the_server (λ _ _, true) true (world Indexer.Examples.after_first false) None (new config) self' Discovery.RegisterFailed eq_refl Hs)
    as (server & Ht & _ & _ & Hstop). split; [reflexivity|]. split; [by rewrite Ht|exact Hstop].
Defined.
Lemma indexed_folder_is_not_added_witness :
  let '(self', r) := add_sync_folder true Indexer.Examples.chunker moment true true [] Indexer.Examples.folder ready in
  is_ok r = false ∧ list_sync_folders self' = [Indexer.Examples.folder].
Proof.
  assert (Hw : Watcher.start Indexer.Examples.folder true true = Ok Watcher.Examples.begun) by (vm_compute; reflexivity).
  assert (Hd : Indexer.m_type <$> Indexer.metadata (os moment) Indexer.Examples.folder = Some Indexer.IsDir) by (vm_compute; reflexivity).
  assert (Hin : bool_decide ((Indexer.path_to_folder_id Indexer.Examples.folder, "/"%string, 1) ∈
    Indexer.manifest_rows (Indexer.database Indexer.Examples.after_first)) = true) by (vm_compute; reflexivity).
  apply bool_decide_eq_true in Hin.
  assert (Hroot : Indexer.root_rows (Indexer.database Indexer.Examples.after_first)) by (intros d p v Hp; cbn in Hp; set_solver).
  pose proof (indexed_folder_is_not_added true Indexer.Examples.chunker Indexer.Examples.chunker_new moment true true [] Indexer.Examples.folder
    Indexer.Examples.folder ready Indexer.Examples.after_first SyncOrchestrator.Examples.fresh Discovery.Examples.created Watcher.Examples.begun
    eq_refl eq_refl eq_refl Hd Hw Hroot eq_refl ltac:(discriminate) Hin) as Hf.
  destruct (add_sync_folder _ _ _ _ _ _ _ ready) as [self' r]. destruct Hf as (Hr & Hl & _). split; [exact Hr|exact Hl].
Defined.
End Examples.
