(* ===== verification/SyncEngine.v ===== *)
(** The engine that connects to peers: landro-daemon/src/sync_engine.rs over [Pool] and the
    statuses of [HealthMonitor].

    Its two tasks, connecting and the users of the pool take turns; times are nanoseconds.
    The multiplexer of a connection and the log of the performance are not modelled. *)

From S2P Require Import Prelude Resilience Pool.
From S2P Require HealthMonitor.
From Stdlib Require Import ZArith Lia.
From stdpp Require Import base option list gmap sets strings pretty numbers sorting.
Open Scope Z_scope.

#[local] Existing Instance HealthMonitor.HealthStatus_eq_dec.
Record SyncConnection := {
  sync_conn : conn;
  peer_device : option string;
  last_health_check : Z;
  health_status : HealthMonitor.HealthStatus;
}.
Definition connection_new (c : conn) (now : Z) : SyncConnection :=
  {| sync_conn := c; peer_device := None; last_health_check := now; health_status := HealthMonitor.Healthy |}.
Definition set_device (d : option string) (c : SyncConnection) : SyncConnection :=
  {| sync_conn := sync_conn c; peer_device := d; last_health_check := last_health_check c; health_status := health_status c |}.
Definition needs_health_check (now : Z) (c : SyncConnection) : bool := 30 * 10 ^ 9 <? now - last_health_check c.

(** [lost]: the peers of which the orchestrator was told that they are lost. *)
Record EnhancedSyncEngine `{Countable SocketAddr} := {
  connection_pool : ConnectionPool SocketAddr;
  active_connections : gmap SocketAddr SyncConnection;
  lost : list SocketAddr;
}.
Arguments EnhancedSyncEngine SocketAddr {_ _}.
Definition engine_pool_config : PoolConfig :=
  {| max_connections_per_peer := 3; max_total_connections := 100; max_idle_time := 300 * 10 ^ 9;
     connect_timeout := 15 * 10 ^ 9; max_retry_attempts := 3; retry_delay := 500 * 10 ^ 6 |}.

Section engine.
Context (checked : bool) `{MapIter} `{Countable SocketAddr}.
Implicit Types (p : SocketAddr).
Abbreviation engine := (EnhancedSyncEngine SocketAddr).

Definition new : engine := {| connection_pool := new_pool engine_pool_config; active_connections := ∅; lost := [] |}.
Definition set_pool (pl : ConnectionPool SocketAddr) (self : engine) : engine :=
  {| connection_pool := pl; active_connections := active_connections self; lost := lost self |}.
Definition set_active (f : gmap SocketAddr SyncConnection → gmap SocketAddr SyncConnection) (self : engine) : engine :=
  {| connection_pool := connection_pool self; active_connections := f (active_connections self); lost := lost self |}.
Definition set_lost (l : list SocketAddr) (self : engine) : engine :=
  {| connection_pool := connection_pool self; active_connections := active_connections self; lost := l |}.

Definition connect_to_peer (now : Z) (connect : Z → Attempt) p (device_id : option string) : st engine QuicError SyncConnection := λ self,
  match c ← active_connections self !! p; if bool_decide (health_status c = HealthMonitor.Healthy) then Some c else None with
  | Some c => (self, Ok c)
  | None =>
      let '(pl, r) := get_connection checked p now connect (connection_pool self) in
      match r with
      | Ok k =>
          let c := set_device device_id (connection_new k now) in
          (set_active <[p := c]> (set_pool pl self), Ok c)
      | Err e => (set_pool pl self, Err e)
      | Panic => (set_pool pl self, Panic)
      end
  end.
Definition get_connection_health p (self : engine) : option HealthMonitor.HealthStatus := health_status <$> active_connections self !! p.
Definition get_all_connection_health (self : engine) : gmap SocketAddr HealthMonitor.HealthStatus := health_status <$> active_connections self.
Definition shutdown_engine (self : engine) : engine := set_pool (shutdown (connection_pool self)) (set_active (λ _, ∅) self).

(** A turn of the monitoring task: the check of a connection answers [Healthy]. *)
Definition checked_at (now : Z) (c : SyncConnection) : SyncConnection :=
  {| sync_conn := sync_conn c; peer_device := peer_device c; last_health_check := now; health_status := HealthMonitor.Healthy |}.
Definition check_peer (now : Z) (self : engine) p : engine :=
  let health := HealthMonitor.Healthy in
  let self := set_active (alter (checked_at now) p) self in
  if bool_decide (health = HealthMonitor.Healthy) then self else set_lost (lost self ++ [p]) self.
Definition health_turn (now : Z) (self : engine) : engine :=
  foldl (check_peer now) self (map fst (List.filter (λ '(_, c), needs_health_check now c) (map_iter (active_connections self)))).
(** A turn of the cleanup task. *)
Definition to_clean (self : engine) (c : SyncConnection) : bool :=
  bool_decide (health_status c = HealthMonitor.Unhealthy) || bool_decide (sync_conn c ∈ closed (connection_pool self)).
Definition clean_peer (self : engine) p : engine :=
  let self := set_active (delete p) self in set_pool (remove_peer_connections p (connection_pool self)) self.
Definition cleanup_turn (self : engine) : engine :=
  foldl clean_peer self (map fst (List.filter (λ '(_, c), to_clean self c) (map_iter (active_connections self)))).

Inductive Step :=
  | Connect (now : Z) (connect : Z → Attempt) p (device_id : option string)
  | HealthTurn (now : Z)
  | CleanupTurn
  | OfPool (ev : PoolEvent (SocketAddr := SocketAddr))
  | ShutdownEngine.
Definition step (self : engine) (s : Step) : engine :=
  match s with
  | Connect now connect p device_id => (connect_to_peer now connect p device_id self).1
  | HealthTurn now => health_turn now self
  | CleanupTurn => cleanup_turn self
  | OfPool ev => set_pool (pool_event checked (connection_pool self) ev) self
  | ShutdownEngine => shutdown_engine self
  end.
Definition run : engine → list Step → engine := foldl step.
End engine.

(** ** Lemmas *)

Section lemmas.
Context (checked : bool) `{MapIter} `{Countable SocketAddr}.
Implicit Types (p : SocketAddr) (self : EnhancedSyncEngine SocketAddr).

(** All is well, as far as the engine knows. *)
Definition well self : Prop := map_Forall (λ _ c, health_status c = HealthMonitor.Healthy) (active_connections self) ∧ lost self = [].
Lemma well_connect now connect p d self : well self → well (connect_to_peer checked now connect p d self).1.
Proof.
  intros [Ha Hl]. unfold connect_to_peer.
  assert (Hgo : ∀ pl k, well (set_active <[p := set_device d (connection_new k now)]> (set_pool pl self))).
  { intros pl k. split; [|done]. by apply map_Forall_insert_2. }
  destruct (c ← active_connections self !! p; _) as [c|]; [done|].
  destruct (get_connection checked p now connect (connection_pool self)) as [pl [k|e|]]; [apply Hgo|done..].
Qed.
Lemma check_peers_active now self l : active_connections (foldl (check_peer now) self l) = foldl (λ m p, alter (checked_at now) p m) (active_connections self) l ∧
  lost (foldl (check_peer now) self l) = lost self ∧ connection_pool (foldl (check_peer now) self l) = connection_pool self.
Proof. revert self. induction l as [|p l IH]; intros self; [done|]. cbn [foldl]. destruct (IH (check_peer now self p)) as (-> & -> & ->). done. Qed.
Lemma clean_peers_active self l : active_connections (foldl clean_peer self l) = foldr delete (active_connections self) l ∧
  lost (foldl clean_peer self l) = lost self ∧ closed (connection_pool (foldl clean_peer self l)) = closed (connection_pool self) ∧
  connections (connection_pool (foldl clean_peer self l)) = foldr delete (connections (connection_pool self)) l.
Proof.
  revert self. induction l as [|p l IH]; intros self; [done|]. cbn [foldl foldr]. destruct (IH (clean_peer self p)) as (-> & -> & -> & ->).
  cbn. split_and!; [|done..|]; by rewrite delete_foldr_delete.
Qed.
Lemma well_step s self : well self → well (step checked self s).
Proof.
  intros Hw. destruct s as [now connect p d|now| |ev|]; cbn [step].
  - by apply well_connect.
  - destruct Hw as [Ha Hl]. destruct (check_peers_active now self
      (map fst (List.filter (λ '(_, c), needs_health_check now c) (map_iter (active_connections self))))) as (Hact & Hlost & _).
    split; [|by unfold health_turn; rewrite Hlost]. unfold health_turn. rewrite Hact.
    generalize (map fst (List.filter (λ '(_, c), needs_health_check now c) (map_iter (active_connections self)))). clear Hact Hlost.
    intros l. revert Ha. generalize (active_connections self). induction l as [|p l IH]; intros m Hm; [done|]. cbn. apply IH.
    intros q c Hq. destruct (decide (p = q)) as [->|Hne].
    + rewrite lookup_alter_eq in Hq. destruct (m !! q); [|done]. by injection Hq as <-.
    + rewrite lookup_alter_ne in Hq by done. by apply (Hm q).
  - destruct Hw as [Ha Hl]. unfold cleanup_turn. edestruct clean_peers_active as (Hact & Hlost & _). split; [|by rewrite Hlost]. rewrite Hact.
    by apply map_Forall_foldr_delete.
  - done.
  - by split; [apply map_Forall_empty|destruct Hw].
Qed.
End lemmas.

(** ** Theorems *)

Section theorems.
Context (checked : bool) `{MapIter} `{Countable SocketAddr}.
Implicit Types (p : SocketAddr) (self : EnhancedSyncEngine SocketAddr).

(** Every connection is healthy for the engine, whatever happens to it, and the orchestrator is never told that a peer is lost;
    so connecting gives the connection that is there, closed or not. *)
Theorem lost_connections_are_given_out steps p c : let self := run checked new steps in
  active_connections self !! p = Some c →
  health_status c = HealthMonitor.Healthy ∧ lost self = [] ∧
  ∀ k now connect d, connect_to_peer checked now connect p d (set_pool (lose k (connection_pool self)) self) =
    (set_pool (lose k (connection_pool self)) self, Ok c).
Proof.
  intros self Hc. assert (Hw : well self).
  { subst self. assert (Hn : well (new (SocketAddr:=SocketAddr))) by (split; [apply map_Forall_empty|done]). clear Hc. revert Hn. generalize (new (SocketAddr:=SocketAddr)).
    induction steps as [|s steps IH]; intros e He; [done|]. by apply IH, well_step. }
  destruct Hw as [Ha Hl]. specialize (Ha p c Hc). cbn in Ha. split_and!; [done..|]. intros k now connect d. unfold connect_to_peer.
  cbn [active_connections set_pool]. rewrite Hc. cbn. by rewrite bool_decide_eq_true_2.
Qed.

(** A turn of the cleanup leaves no closed connection, and the pool has none of the peers whose connection it removed. *)
Theorem cleanup_removes_closed self : let self' := cleanup_turn self in
  (∀ p c, active_connections self' !! p = Some c ↔ active_connections self !! p = Some c ∧ to_clean self c = false) ∧
  ∀ p, connections (connection_pool self') !! p =
    match active_connections self !! p with Some c => if to_clean self c then None else connections (connection_pool self) !! p
    | None => connections (connection_pool self) !! p end.
Proof.
  cbv zeta. unfold cleanup_turn. set (l := map fst _). destruct (clean_peers_active self l) as (Hact & _ & _ & Hcon). rewrite Hact, Hcon.
  assert (Hl : ∀ p, p ∈ l ↔ ∃ c, active_connections self !! p = Some c ∧ to_clean self c = true).
  { intros p. unfold l. rewrite list_elem_of_In, in_map_iff. split.
    - intros ([q c] & Hq & [Hin Hc]%filter_In). cbn in Hq. subst q. exists c. by split; [apply elem_of_map_iter, list_elem_of_In|].
    - intros (c & Hc & Ht). exists (p, c). split; [done|]. apply filter_In. by split; [apply list_elem_of_In, elem_of_map_iter|]. }
  split.
  - intros p c. destruct (decide (p ∈ l)) as [Hin|Hin].
    + rewrite lookup_foldr_delete by done. apply Hl in Hin as (c' & Hc' & Ht). split; [done|]. intros [Hc Hf]. congruence.
    + rewrite lookup_foldr_delete_not_elem_of by done. split; [|by intros [? _]]. intros Hc. split; [done|].
      destruct (to_clean self c) eqn:Ht; [|done]. destruct Hin. apply Hl. by exists c.
  - intros p. destruct (decide (p ∈ l)) as [Hin|Hin].
    + rewrite lookup_foldr_delete by done. apply Hl in Hin as (c' & -> & Ht). by rewrite Ht.
    + rewrite lookup_foldr_delete_not_elem_of by done. destruct (active_connections self !! p) as [c|] eqn:Hc; [|done].
      destruct (to_clean self c) eqn:Ht; [|done]. destruct Hin. apply Hl. by exists c.
Qed.
End theorems.

Module Examples.
#[local] Existing Instance gmap_order.
Definition peer : string := "10.0.0.2:9990".
Definition reach (c : conn) : Z → Attempt := λ _, Connects c.
Definition steps : list (Step (SocketAddr := string)) := [Connect 0 (reach 1) peer None; OfPool (Lose 1); HealthTurn (60 * 10 ^ 9)].
Lemma lost_connections_are_given_out_witness :
  ∃ c, active_connections (run true new steps) !! peer = Some c ∧ sync_conn c ∈ closed (connection_pool (run true new steps)) ∧
  health_status c = HealthMonitor.Healthy ∧ lost (run true new steps) = [].
Proof.
  destruct (active_connections (run true new steps) !! peer) as [c|] eqn:Hc; [|vm_compute in Hc; discriminate].
  destruct (lost_connections_are_given_out true steps peer c Hc) as (Hh & Hl & _).
  exists c. split; [reflexivity|]. split; [|exact (conj Hh Hl)]. vm_compute in Hc. injection Hc as <-. vm_compute. reflexivity.
Defined.
(** After the cleanup the peer is connected to again. *)
Example reconnected : (connect_to_peer true 9 (reach 2) peer None (cleanup_turn (run true new steps))).2 =
  Ok {| sync_conn := 2; peer_device := None; last_health_check := 9; health_status := HealthMonitor.Healthy |}.
Proof. by vm_compute. Qed.
End Examples.
